(* ===== verification/_CoqProject ===== *)
-Q . S2P
Prelude.v
Bits.v
Crypto.v
Accumulator.v
AccumulatorFacts.v
ConsistencyFacts.v
Position.v
PositionFacts.v
ValidatorVerifier.v
LedgerTypes.v
EpochChange.v
AccumulatorProof.v
ProofFacts.v
TrustedState.v
ConsensusTypes.v
ConsensusMessages.v
SafetyStorage.v
SafetyRules.v
SafetyRulesSpec.v
SafetyRulesRefine.v
ConsensusSafety.v
CommitSafety.v
SafetyGaps.v
PendingVotes.v
SparseMerkle.v
LedgerProofs.v
NibblePath.v
JellyfishNode.v
JellyfishTree.v
JellyfishFacts.v
JellyfishPut.v
JellyfishBatch.v
JellyfishSingle.v
JellyfishSafety.v
StatePruner.v
AccumulatorStore.v
AccumulatorServed.v
BlockTree.v
BlockTreeFacts.v
BlockTreeInv.v
BlockStore.v
BlockStoreFacts.v
BlockRecovery.v
BlockStoreSafety.v
ProposerElection.v
BlockRetrieval.v
RoundState.v
MetricsSafetyRules.v
SyncManager.v
RoundManager.v
RoundManagerFacts.v
NodeVotes.v
NodeSafety.v
NodeLiveness.v
MVHashMap.v
ParallelExecutor.v
ParallelFacts.v
ParallelSafety.v
ParallelLiveness.v
FileFormat.v
CodeFlow.v
BoundsCheck.v
Declarations.v
TypeSafety.v
LocalsSafety.v
CodeFlowFacts.v
TypeFacts.v
VerifierFacts.v
StackFacts.v
LocalsFacts.v
VerifierSafety.v
MoveValue.v
Interpreter.v
InterpreterFacts.v
InstructionSound.v
FrameSound.v
MoveSound.v
AbilityDepth.v
MoveSafety.v
