(* ===== verification/Prelude.v ===== *)
(** * Verification of the trust core of Diem

    The library models, and proves correct, the code a Diem node or client relies on
    when it decides what to sign, what to run and what to believe: the consensus of a
    validator from the safety rules up to the round manager, the light client, the Merkle
    structures that authenticate the ledger and the state, the parallel executor, and the
    bytecode verifier and interpreter of the Move VM.  Paths are below src/.

    ** The program

    Validators run DiemBFT.  A proposer makes a [Block] on a [QuorumCert]; every validator
    asks its safety rules (consensus/safety-rules) for a signed [Vote]; votes are
    aggregated (consensus/src/pending_votes.rs) into the next certificate, and a
    certificate may commit a block by its [LedgerInfo].  The safety rules keep a few round
    numbers ([SafetyData]) in a secure storage (secure/storage), which are all that
    survives a crash.  The round manager (consensus/src/round_manager.rs) handles the
    events of a node: it verifies messages, fetches the blocks it misses, keeps the tree of
    pending blocks (consensus/src/block_storage), proposes when it is elected
    (consensus/src/liveness) and calls the safety rules.  The transactions of a block are
    Move scripts and calls of published modules (language/), which the bytecode verifier
    accepted before the interpreter runs them, possibly in parallel
    (diem-move/parallel-executor).  Committed transactions are the leaves of a Merkle
    accumulator (types/src/proof, persisted by storage/accumulator) whose root the ledger
    info carries; account states are in a sparse Merkle tree whose root is in the
    transaction info.  The database keeps the trees of many versions, which share nodes, in
    a Jellyfish Merkle tree (storage/jellyfish-merkle) and prunes the old ones
    (storage/diemdb/src/pruner).  A light client (types/src/trusted_state.rs) follows the ledger infos
    through the changes of the validator set.

    ** Files

    Foundations.
    - Prelude (this file): outcomes of fallible code ([Result] with a constructor for a
      panic), the state monad [ST], u64 arithmetic with its wrap-around ([wrap64],
      [checked_add], ...), [BTreeMap] as [gmap Z] iterated in key order, tactics and hints.
      Bits: [count_ones], [trailing_zeros], [leading_zeros] of u64.
    - Crypto: crates/diem-crypto.  [HashValue] and its bits; SHA-3, BCS and Ed25519
      (with its malleability check) are the parameters [Crypto] and [CryptoHash], with the
      laws [CryptoLaws]; [ref_crypto] is an instance that computes.

    Merkle structures.
    - Accumulator, AccumulatorFacts, ConsistencyFacts: types/src/proof/accumulator/mod.rs
      against the Merkle tree computed level by level over the whole list ([merkle_root]).
    - Position, PositionFacts: types/src/proof/position/mod.rs, every operation as bit
      manipulation on u64.
    - AccumulatorProof, ProofFacts, SparseMerkle, LedgerProofs: types/src/proof/definition.rs
      and mod.rs, from membership proofs to account state and event proofs.
    - AccumulatorStore, AccumulatorServed: storage/accumulator, over any storage that is a
      [HashReader].
    - NibblePath, JellyfishNode, JellyfishTree: types/src/nibble and storage/jellyfish-merkle
      (node_type, tree_cache and lib.rs), with the cache as the state of [CacheM] and the
      storage as a map of nodes.  JellyfishFacts (reading, against [state_tree], the sparse
      Merkle tree of a map of accounts), JellyfishPut, JellyfishBatch and JellyfishSingle
      (what an insertion leaves of the old tree and adds), JellyfishSafety (histories of
      versions).
    - StatePruner: storage/diemdb/src/pruner, as a system together with the commits.

    Light clients.
    - ValidatorVerifier, LedgerTypes, EpochChange, TrustedState: the files of the same names
      in types/src, with waypoint.rs, epoch_state.rs, block_info.rs and state_proof.rs.

    Safety rules.
    - ConsensusTypes, ConsensusMessages: consensus/consensus-types/src.
    - SafetyStorage: secure/storage/src (traits, key versions, in-memory and on-disk storage)
      and persistent_safety_storage.rs, with their contracts.
    - SafetyRules: safety_rules.rs and safety_rules_2chain.rs, one definition per method
      ([guarded_initialize], [guarded_construct_and_sign_vote_two_chain], ...), as
      state-passing functions; [run_call] is the trait [TSafetyRules].
    - SafetyRulesSpec, SafetyRulesRefine, ConsensusSafety, CommitSafety: the abstract
      validator, its refinement by the handlers, and agreement.  CommitSafety begins with a
      concrete epoch of four validators on which the witnesses run; SafetyGaps holds
      executions that show what the rules do not check.

    A consensus node.
    - PendingVotes: consensus/src/pending_votes.rs.
    - BlockTree, BlockTreeFacts, BlockTreeInv, BlockStore, BlockStoreFacts, BlockRecovery,
      BlockStoreSafety: block_storage/block_tree.rs and block_store.rs and the recovery data
      of persistent_liveness_storage.rs.  Executor and storage are classes of operations.
    - BlockRetrieval, SyncManager: block_storage/sync_manager.rs and both sides of the
      retrieval of blocks; the network is a class that may answer anything.
    - ProposerElection, RoundState: consensus/src/liveness, with the proposal generator.
    - MetricsSafetyRules, RoundManager: the safety rules with their retries and the handler
      of every event of a node.  RoundManagerFacts, NodeVotes, NodeSafety and NodeLiveness
      prove what a running node does.

    Parallel execution.
    - MVHashMap, ParallelExecutor: diem-move/mvhashmap and diem-move/parallel-executor.  The
      threads are machines whose steps access the shared state once, in the order of a
      schedule.  ParallelFacts, ParallelSafety, ParallelLiveness: its invariant, its result
      and its end.

    Move.
    - FileFormat, CodeFlow: language/move-binary-format/src (file_format.rs, binary_views.rs,
      control_flow_graph.rs) and control_flow.rs of the verifier.
    - BoundsCheck, Declarations, TypeSafety, LocalsSafety: the passes of
      language/move-bytecode-verifier/src and of check_bounds.rs, one definition per function; [verify_module] and [verify_script] compose them in the order of
      verifier.rs and code_unit_verifier.rs.
    - CodeFlowFacts, TypeFacts, VerifierFacts, StackFacts, LocalsFacts, VerifierSafety: what each pass establishes for the next, that none panics, and what
      acceptance means for every offset of the code and for instances of generic code.
    - MoveValue, Interpreter, InterpreterFacts: language/move-vm/types (values, locals,
      types) and language/move-vm/runtime/src/interpreter.rs.
    - InstructionSound, FrameSound, MoveSound, AbilityDepth, MoveSafety: type soundness,
      from one instruction to whole runs, and concrete modules.

    ** What the theorems show

    Consensus.  [two_chain_commits_agree] and [three_chain_commits_agree]: in an epoch whose
    faulty validators hold at most a third of the power, two committed blocks are on one
    chain.  A block is committed when a ledger info with its [BlockInfo] has a verified
    quorum of signatures; honest validators are runs of the handlers ([node_run]) over any
    storage that obeys [KVLaws] and [CryptoStorageLaws], with any calls of the protocol,
    lost answers, crashes, restarts and writes that fail before or after they took effect.
    They follow from [safety_rules_refine] (a forward simulation into [voter_run]), from
    the promises of a single validator ([one_vote_per_round], [timeout_keeps_lock],
    [safety_data_monotone]), from [quorum_intersection], and from the hypotheses that
    signatures are not forged ([unforgeable]) and the hashes of consensus messages do not
    collide ([ConsensusHashLaws]).  Three restrictions on the runs are part of the
    statements, each shown necessary in SafetyGaps: timeout certificates passed to the
    2-chain rules are of the epoch of the block ([stale_timeout_certificate]), no commit
    votes are asked for ([commit_vote_equivocates]), and an initialization that changes the
    stored safety data also installs the epoch state ([torn_initialization]).
    [safety_storage_cell] is the contract of the cached storage, [rotate_key_versions] that
    of the key versions; [pending_votes_certificates], [quorum_forms_certificate] and
    [pending_votes_one_ledger_info] are the contract of the vote aggregation.

    Nodes.  What is proved of the safety rules holds for the messages of a node
    ([node_votes_once]); it proposes once per round, when elected ([node_proposes_once]), its
    round follows its certificates ([node_round_in_step]) and a quorum of votes moves it on
    ([quorum_moves_round]).  The block store keeps its invariant and never panics
    ([block_store_sound]), is rebuilt after a restart ([recovery_builds_store]) and prunes
    exactly what does not descend from the committed block ([commit_prunes_exactly]).  A
    retrieval ends with the chain that was asked for ([retrieval_returns_chain]), and an
    honest answer is accepted ([served_blocks_verify]).  Rotation is fair
    ([rotation_is_fair]).

    Clients.  [light_client_safe]: a client that starts on the ledger the validators sign
    stays on it; [epoch_change_trust], [ratchet_monotone].

    Merkle structures.  The compact accumulator equals the plain Merkle tree
    ([accumulator_append_correct]), and so does the persisted one ([store_append_correct]),
    whose proofs every client accepts ([served_consistency_accepted]).  Every kind of proof
    is sound, and the membership, consistency and sparse Merkle proofs are complete, under a
    node hash without collisions ([AccumulatorHashLaws], [SparseHashLaws]) where soundness
    needs it; the position arithmetic has its meaning in the tree.

    State.  The Jellyfish Merkle tree implements the history of the account maps
    ([batch_put_value_sets_refines]): on a storage that holds the trees of its readable
    versions ([db_ok]) an insertion always returns, its root hashes are those of the sparse
    Merkle trees of the updated maps, and the old versions stay as they were.  Inserting in a
    batch and one by one are equivalent ([put_value_sets_equiv]).  A readable version serves
    every key with its value and a proof that the client accepts ([version_served],
    [range_proof_served]); a version that is not gives an error.  In every interleaving of
    commits, pruning, purges of its index and restarts the versions of the pruning window
    stay readable ([window_always_served]), and the worker ends with nothing left to prune
    ([pruner_finishes]).

    Parallel execution.  Under every schedule the outputs are those of executing the
    transactions one after the other, and no thread panics ([parallel_is_sequential]); the
    threads finish under every fair schedule ([parallel_terminates]).

    Move.  [verified_module_sound]: whatever function of a verified module runs on arguments
    of its parameter types, the interpreter neither panics nor raises an invariant violation,
    the results have the return types, only values whose type has copy are copied and only
    values whose type has drop are destroyed.  The surroundings (gas, storage, the memory
    behind references, code outside of the module) answer anything of the types they promise
    ([answer_ok]).  Two instructions are restricted by [module_ok], each shown necessary in
    MoveSafety: VecPack with elements ([vec_pack_leaks]) and vector instructions on a bare
    type parameter ([generic_vectors_fail]).  [abilities_hold_in_parts] lifts abilities to
    all parts of a value.  [verifier_never_panics] holds for code of at most 65534
    instructions ([longest_code_panics]) and scripts whose parameters are closed
    ([open_script_panics]).

    ** Bounds

    Loops that are not structural recursions take a number of rounds, and a theorem shows
    that it is enough: the level loop of the range proof, the number of leaves and siblings
    ([range_verify_total]); freezing and reading nodes of the persisted accumulator, 64 and
    63 levels; its iterators, 128 siblings and 64 frozen subtrees; the walk to the root and
    the pruning of the block tree, the number of blocks; a retrieval, the blocks asked for
    plus the peers; the chain that is fetched for a certificate, its round plus one; the
    initialization of the safety rules, more than the epochs that a u64 leaves after the
    stored one; the splitting of the multi-version map, the processors plus one; the work
    list of the abstract interpretation, one round per block and local and one more
    ([analysis_fuel]); the recursion and the descent in the Jellyfish Merkle tree, 65 levels
    ([MAX_DEPTH]) for keys of 64 nibbles.  The interpreter is a step function, and its runs are over any list
    of answers.  Addition that Rust would wrap in a release build wraps here where it can
    overflow; [quorum_wraps_at_2_63] is a consequence, and statements that need the absence
    of overflow say so.  Atomics are sequentially consistent.

    ** What is not modelled

    Logging, metrics, failpoints and text forms.  Error values of [anyhow] are the message
    text of the outermost context; of a Move error the status code is kept.  BCS bytes: a
    serialized value is the parameter [signing_message].  Time stamps and policies of stored
    values.  The exponential time interval of the round state (floating point), a class
    here.  The front ends of the safety rules, the network stack, the vault and GitHub
    storages, RocksDB, state sync and the APIs are I/O around the modelled code.  The
    scratchpad tree, the mempool and the experimental pipeline are not part of the library:
    the theorems that touch them take what they serve as an oracle (the transactions of a
    proposal).  Of the Jellyfish Merkle tree, the encoding of nodes, the iterator and the
    restoration from a backup, and a root at the version before genesis in the theorems on
    histories.  Of the bytecode verifier, the passes on references (reference_safety), acquires, recursive
    structs and instantiation loops are left out; leaving out a pass that only rejects makes
    the theorems on accepted modules stronger.  Of the Move VM, the memory behind references
    with its sharing and reference counts, gas, native functions, loading and linking; the
    Diem VM, the Move compiler and the prover. *)

From stdpp Require Export base gmap strings fin_maps fin_sets sorting numbers list.
Export list.

Open Scope Z_scope.

(** ** Notation scope of the development *)

Declare Scope diem_scope.
Delimit Scope diem_scope with diem.
Open Scope diem_scope.

(** ** Fallible code

    [Result E A] is Rust's [Result<A, E>] with a third outcome for a panic
    ([unwrap], [expect], [assert!], [panic!]): the process stops, no value is
    returned.  Error payloads of [anyhow::Error] are the fixed text of the
    message, the interpolated values are not kept. *)

Inductive Result (E A : Type) : Type :=
| Ok (a : A)
| Err (e : E)
| Panic (msg : string).
Arguments Ok {E A} a.
Arguments Err {E A} e.
Arguments Panic {E A} msg.

Abbreviation AnyResult := (Result string).

Definition r_bind {E A B} (r : Result E A) (f : A → Result E B) : Result E B :=
  match r with
  | Ok a => f a
  | Err e => Err e
  | Panic m => Panic m
  end.

Definition r_map {E A B} (f : A → B) (r : Result E A) : Result E B :=
  r_bind r (λ a, Ok (f a)).

(** [map_err] of Rust's [Result]. *)
Definition r_map_err {E F A} (f : E → F) (r : Result E A) : Result F A :=
  match r with
  | Ok a => Ok a
  | Err e => Err (f e)
  | Panic m => Panic m
  end.

Definition r_ok {E A} (r : Result E A) : option A :=
  match r with Ok a => Some a | _ => None end.

Definition is_ok {E A} (r : Result E A) : bool :=
  match r with Ok _ => true | _ => false end.

(** [ensure!(b, e)] *)
Definition ensure {E} (b : bool) (e : E) : Result E unit :=
  if b then Ok () else Err e.

(** [Option::ok_or] *)
Definition ok_or {E A} (o : option A) (e : E) : Result E A :=
  match o with Some a => Ok a | None => Err e end.

(** [Option::expect] *)
Definition expect {E A} (o : option A) (msg : string) : Result E A :=
  match o with Some a => Ok a | None => Panic msg end.

(** [Option::filter] *)
Definition opt_filter {A} (p : A → bool) (o : option A) : option A :=
  match o with Some a => if p a then Some a else None | None => None end.

Notation "'let?' x ':=' r 'in' k" := (r_bind r (fun x => k))
  (at level 10, x pattern, r at level 100, k at level 200)
  : diem_scope.
Notation "r ;? k" := (r_bind r (fun _ => k))
  (at level 100, k at level 200, right associativity) : diem_scope.

(** A [for] loop whose body may return early with an error. *)
Fixpoint r_fold {E A S} (f : S → A → Result E S) (l : list A) (s : S) : Result E S :=
  match l with
  | [] => Ok s
  | x :: l => let? s' := f s x in r_fold f l s'
  end.

Definition r_for {E A} (f : A → Result E unit) (l : list A) : Result E unit :=
  r_fold (λ _ x, f x) l ().

(** ** Stateful fallible code

    [&mut self] methods: the state reached is kept when the method returns an
    error, as in Rust. *)

Definition ST (S E A : Type) : Type := S → S * Result E A.

Definition st_ret {S E A} (a : A) : ST S E A := λ s, (s, Ok a).
Definition st_lift {S E A} (r : Result E A) : ST S E A := λ s, (s, r).
Definition st_get {S E} : ST S E S := λ s, (s, Ok s).
Definition st_put {S E} (s' : S) : ST S E unit := λ _, (s', Ok ()).
Definition st_bind {S E A B} (c : ST S E A) (f : A → ST S E B) : ST S E B := λ s,
  match c s with
  | (s', Ok a) => f a s'
  | (s', Err e) => (s', Err e)
  | (s', Panic m) => (s', Panic m)
  end.

(** A method of a field, run on the whole object. *)
Definition st_zoom {S T E A} (get : S → T) (put : T → S → S) (c : ST T E A) : ST S E A := λ s,
  let '(t, r) := c (get s) in (put t s, r).
(** [?] with a conversion of the error. *)
Definition st_map_res {S E F A B} (f : Result E A → Result F B) (c : ST S E A) : ST S F B := λ s,
  let '(s', r) := c s in (s', f r).

Notation "'let!' x ':=' c 'in' k" := (st_bind c (fun x => k))
  (at level 10, x pattern, c at level 100, k at level 200)
  : diem_scope.
Notation "c ;! k" := (st_bind c (fun _ => k))
  (at level 100, k at level 200, right associativity) : diem_scope.

(** ** Machine integers *)

Definition u64_max : Z := 2 ^ 64 - 1.
Definition is_u64 (x : Z) : Prop := 0 ≤ x ≤ u64_max.
(** Release-mode arithmetic: the workspace's profiles do not enable overflow
    checks, so [+], [*] and [<<] on [u64] wrap. *)
Definition wrap64 (x : Z) : Z := x mod 2 ^ 64.
(** [u64::checked_add] *)
Definition checked_add (x y : Z) : option Z :=
  if x + y <=? u64_max then Some (x + y) else None.
(** [u64::checked_sub] *)
Definition checked_sub (x y : Z) : option Z :=
  if y <=? x then Some (x - y) else None.
(** [u64::saturating_add] *)
Definition saturating_add (x y : Z) : Z := Z.min (x + y) u64_max.

(** ** Ordered maps

    [BTreeMap<K, V>] with an integer key: an extensional finite map together
    with its iteration in increasing key order. *)

Abbreviation BTreeMap V := (gmap Z V).

Definition key_le {V} (a b : Z * V) : Prop := a.1 ≤ b.1.
#[export] Instance key_le_dec {V} (a b : Z * V) : Decision (key_le a b) := Z_le_dec a.1 b.1.

Definition btree_iter {V} (m : BTreeMap V) : list (Z * V) :=
  merge_sort key_le (map_to_list m).

Definition btree_keys {V} (m : BTreeMap V) : list Z := (btree_iter m).*1.

(** [BTreeMap::entry(k).or_insert(v)] *)
Definition or_insert {V} (k : Z) (v : V) (m : BTreeMap V) : BTreeMap V :=
  match m !! k with Some _ => m | None => <[k := v]> m end.

(** Sum of an integer-valued function over a list. *)
Fixpoint Zsum_with {A} (f : A → Z) (l : list A) : Z :=
  match l with
  | [] => 0
  | x :: l => f x + Zsum_with f l
  end.

(** ** Automation *)

Create HintDb diem.

Lemma r_bind_ok {E A B} (r : Result E A) (f : A → Result E B) b :
  r_bind r f = Ok b ↔ ∃ a, r = Ok a ∧ f a = Ok b.
Proof. destruct r; simpl; naive_solver. Qed.

Lemma r_map_err_ok {E F A} (f : E → F) (r : Result E A) a :
  r_map_err f r = Ok a ↔ r = Ok a.
Proof. destruct r; simpl; naive_solver. Qed.

Lemma ensure_ok {E} b (e : E) u : ensure b e = Ok u ↔ b = true.
Proof. destruct b, u; simpl; naive_solver. Qed.

Lemma ok_or_ok {E A} (o : option A) (e : E) a : ok_or o e = Ok a ↔ o = Some a.
Proof. destruct o; simpl; naive_solver. Qed.

Lemma expect_ok {E A} (o : option A) m (a : A) : expect (E:=E) o m = Ok a ↔ o = Some a.
Proof. destruct o; simpl; naive_solver. Qed.

Lemma is_ok_true {E A} (r : Result E A) : is_ok r = true ↔ ∃ a, r = Ok a.
Proof. destruct r; simpl; naive_solver. Qed.

Lemma r_fold_app {E A S} (f : S → A → Result E S) l1 l2 s :
  r_fold f (l1 ++ l2) s = r_bind (r_fold f l1 s) (r_fold f l2).
Proof. revert s; induction l1 as [|x l1 IH]; intros s; simpl; [done|]. destruct (f s x); simpl; auto. Qed.

Lemma r_for_ok {E A} (f : A → Result E unit) l :
  r_for f l = Ok () ↔ Forall (λ x, f x = Ok ()) l.
Proof.
  unfold r_for. induction l as [|x l IH]; simpl; [naive_solver|].
  rewrite Forall_cons, <- IH. destruct (f x) as [[]| |]; simpl; naive_solver.
Qed.

(** [r_inv H] splits a successful run of straight-line fallible code into the
    success of each of its steps. *)
Ltac r_inv_one H :=
  lazymatch type of H with
  | r_bind _ _ = Ok _ =>
      apply r_bind_ok in H;
      let a := fresh "a" in let H1 := fresh "Hs" in
      destruct H as (a & H1 & H); r_inv_one H1; r_inv_one H
  | r_map_err _ _ = Ok _ => apply r_map_err_ok in H; r_inv_one H
  | ensure _ _ = Ok _ => apply ensure_ok in H
  | ok_or _ _ = Ok _ => apply ok_or_ok in H
  | expect _ _ = Ok _ => apply expect_ok in H
  | Ok _ = Ok _ => first [injection H as H; try subst | clear H]
  | Err _ = Ok _ => discriminate H
  | Panic _ = Ok _ => discriminate H
  | _ => idtac
  end.
Ltac r_inv H := cbv beta in H; r_inv_one H.

(** ** Code that does not panic *)

Definition no_panic {E A} (r : Result E A) : Prop := ∀ m, r ≠ Panic m.

Lemma no_panic_Ok {E A} (a : A) : no_panic (E:=E) (Ok a).
Proof. by intros m. Qed.
Lemma no_panic_Err {E A} (e : E) : no_panic (A:=A) (Err e).
Proof. by intros m. Qed.
Lemma no_panic_bind {E A B} (r : Result E A) (f : A → Result E B) :
  no_panic r → (∀ a, no_panic (f a)) → no_panic (r_bind r f).
Proof. intros Hr Hf m. destruct r; simpl; [apply Hf|done|by destruct (Hr msg)]. Qed.
Lemma no_panic_bind_ok {E A B} (r : Result E A) (f : A → Result E B) :
  no_panic r → (∀ a, r = Ok a → no_panic (f a)) → no_panic (r_bind r f).
Proof. intros Hr Hf m. destruct r; simpl; [by apply Hf|done|by destruct (Hr msg)]. Qed.
Lemma no_panic_map_err {E F A} (f : E → F) (r : Result E A) : no_panic r → no_panic (r_map_err f r).
Proof. intros Hr m. destruct r; simpl; [done|done|by destruct (Hr msg)]. Qed.
Lemma no_panic_ensure {E} b (e : E) : no_panic (ensure b e).
Proof. by destruct b. Qed.
Lemma no_panic_ok_or {E A} (o : option A) (e : E) : no_panic (ok_or o e).
Proof. by destruct o. Qed.
Lemma no_panic_fold {E A S} (f : S → A → Result E S) l s :
  (∀ s x, no_panic (f s x)) → no_panic (r_fold f l s).
Proof.
  intros Hf. revert s. induction l; intros s; simpl; [apply no_panic_Ok|].
  apply no_panic_bind; auto.
Qed.

Lemma no_panic_for {E A} (f : A → Result E unit) l :
  (∀ x, x ∈ l → no_panic (f x)) → no_panic (r_for f l).
Proof.
  unfold r_for. intros Hf. induction l as [|x l IH]; simpl; [apply no_panic_Ok|].
  apply no_panic_bind; [apply Hf; by left|]. intros []. apply IH. intros y Hy. apply Hf. by right.
Qed.
Lemma no_panic_expect {E A} (o : option A) m : is_Some o → no_panic (expect (E:=E) o m).
Proof. by intros [a ->]. Qed.
(** A fold whose states keep an invariant that rules the panics out. *)
Lemma no_panic_fold_inv {E A S} (P : S → Prop) (f : S → A → Result E S) l s :
  P s → (∀ s x, x ∈ l → P s → no_panic (f s x) ∧ ∀ s', f s x = Ok s' → P s') → no_panic (r_fold f l s).
Proof.
  revert s. induction l as [|x l IH]; intros s Hs Hf; simpl; [apply no_panic_Ok|].
  destruct (Hf s x) as [Hx Hx']; [by left|done|].
  apply no_panic_bind_ok; [done|]. intros s' Hs'. apply IH; [by apply Hx'|]. intros s2 y Hy. apply Hf. by right.
Qed.

#[export] Hint Resolve no_panic_Ok no_panic_Err no_panic_ensure no_panic_ok_or : diem.

(** Straight-line code without a panic in it. *)
Ltac solve_no_panic :=
  repeat first
    [ progress auto with diem
    | apply no_panic_bind; [|intros ?]
    | apply no_panic_map_err
    | apply no_panic_fold; intros ??
    | match goal with
      | |- no_panic (match ?x with _ => _ end) => destruct x
      | |- no_panic (let '_ := ?x in _) => destruct x
      end ].

Lemma st_bind_ok {S E A B} (c : ST S E A) (f : A → ST S E B) s s' b :
  st_bind c f s = (s', Ok b) ↔ ∃ a s1, c s = (s1, Ok a) ∧ f a s1 = (s', Ok b).
Proof.
  unfold st_bind. destruct (c s) as [s1 [a|e|m]]; naive_solver.
Qed.

(** A preorder that a computation never leaves, whatever its outcome. *)
Definition st_within {S E A} (R : S → S → Prop) (c : ST S E A) : Prop :=
  ∀ s, R s (c s).1.

Lemma st_within_bind {S E A B} (R : S → S → Prop) `{!Transitive R}
    (c : ST S E A) (f : A → ST S E B) :
  st_within R c → (∀ a, st_within R (f a)) → st_within R (st_bind c f).
Proof.
  intros Hc Hf s. unfold st_bind. specialize (Hc s).
  destruct (c s) as [s1 [a|e|m]]; simpl in *; auto.
  etrans; [exact Hc|apply Hf].
Qed.

Lemma st_within_lift {S E A} (R : S → S → Prop) `{!Reflexive R} (r : Result E A) :
  st_within R (st_lift r).
Proof. intros s. simpl. reflexivity. Qed.

Lemma st_within_ret {S E A} (R : S → S → Prop) `{!Reflexive R} (a : A) :
  st_within R (st_ret (E:=E) a).
Proof. intros s. simpl. reflexivity. Qed.

Lemma st_within_get {S E} (R : S → S → Prop) `{!Reflexive R} :
  st_within R (st_get (E:=E)).
Proof. intros s. simpl. reflexivity. Qed.

Lemma st_within_zoom {S T E A} (R : S → S → Prop) (Q : T → T → Prop) get put (c : ST T E A) :
  st_within Q c → (∀ s t, Q (get s) t → R s (put t s)) → st_within R (st_zoom get put c).
Proof. intros Hc HR s. specialize (Hc (get s)). unfold st_zoom. destruct (c (get s)). by apply HR. Qed.

Lemma st_within_map_res {S E F A B} (R : S → S → Prop) (f : Result E A → Result F B) (c : ST S E A) :
  st_within R c → st_within R (st_map_res f c).
Proof. intros Hc s. specialize (Hc s). unfold st_map_res. by destruct (c s). Qed.

Lemma st_within_impl {S E A} (R R' : S → S → Prop) (c : ST S E A) :
  (∀ s s', R s s' → R' s s') → st_within R c → st_within R' c.
Proof. intros HR Hc s. apply HR, Hc. Qed.

#[export] Hint Resolve st_within_lift st_within_ret st_within_get st_within_map_res : diem.

(** Takes a computation apart into its steps, which the hints or the user discharge. *)
Ltac st_steps :=
  repeat lazymatch goal with
  | |- st_within _ (st_lift _) => apply st_within_lift; apply _
  | |- st_within _ (st_ret _) => apply st_within_ret; apply _
  | |- st_within _ st_get => apply st_within_get; apply _
  | |- st_within _ (st_map_res _ _) => apply st_within_map_res
  | |- st_within _ (st_bind _ _) => apply st_within_bind; [apply _| |intros ?]
  | |- st_within _ (match ?x with _ => _ end) => destruct x
  end.

(** Contracts of stateful code: from [Pre] it returns a value in [Post] or an error with the
    state in [Exc], and does not panic. *)
Definition st_triple {S E A} (Pre : S → Prop) (c : ST S E A) (Post : A → S → Prop)
    (Exc : S → Prop) : Prop :=
  ∀ s, Pre s → match c s with
               | (s', Ok a) => Post a s'
               | (s', Err _) => Exc s'
               | (_, Panic _) => False
               end.

Section triples.
Context {S E : Type}.

Lemma st_triple_bind {A B} Pre Mid Post Exc (c : ST S E A) (f : A → ST S E B) :
  st_triple Pre c Mid Exc → (∀ a, st_triple (Mid a) (f a) Post Exc) →
  st_triple Pre (st_bind c f) Post Exc.
Proof.
  intros Hc Hf s Hs. specialize (Hc s Hs). unfold st_bind.
  destruct (c s) as [s1 [a|e|m]]; [|done..]. by apply Hf.
Qed.

Lemma st_triple_ret {A} (Pre : S → Prop) Post Exc (a : A) :
  (∀ s, Pre s → Post a s) → st_triple (E:=E) Pre (st_ret a) Post Exc.
Proof. intros H s Hs. by apply H. Qed.

Lemma st_triple_conseq {A} (Pre Pre' : S → Prop) Post Post' Exc Exc' (c : ST S E A) :
  st_triple Pre' c Post' Exc' → (∀ s, Pre s → Pre' s) → (∀ a s, Post' a s → Post a s) →
  (∀ s, Exc' s → Exc s) → st_triple Pre c Post Exc.
Proof.
  intros Hc H1 H2 H3 s Hs. specialize (Hc s (H1 s Hs)).
  destruct (c s) as [s1 [a|e|m]]; auto.
Qed.

(** A fact that holds before and does not mention the state. *)
Lemma st_triple_pure {A} (P : Prop) (Pre : S → Prop) Post Exc (c : ST S E A) :
  (P → st_triple Pre c Post Exc) → st_triple (λ s, P ∧ Pre s) c Post Exc.
Proof. intros H s [HP Hs]. by apply H. Qed.
End triples.

(** Contracts of code that may stop: [Post] of a value, [Exc] when there is none. *)
Definition st_partial {S E A} (Pre : S → Prop) (c : ST S E A) (Post : A → S → Prop)
    (Exc : S → Prop) : Prop :=
  ∀ s, Pre s → match c s with (s', Ok a) => Post a s' | (s', _) => Exc s' end.

Section partial.
Context {S E : Type}.

Lemma st_partial_bind {A B} Pre Mid Post Exc (c : ST S E A) (f : A → ST S E B) :
  st_partial Pre c Mid Exc → (∀ a, st_partial (Mid a) (f a) Post Exc) →
  st_partial Pre (st_bind c f) Post Exc.
Proof.
  intros Hc Hf s Hs. specialize (Hc s Hs). unfold st_bind.
  destruct (c s) as [s1 [a|e|m]]; [|done..]. by apply Hf.
Qed.

Lemma st_partial_lift {A} (Pre : S → Prop) (Post : A → S → Prop) (Exc : S → Prop) (r : Result E A) :
  (∀ a s, r = Ok a → Pre s → Post a s) → (∀ s, Pre s → Exc s) →
  st_partial Pre (st_lift r) Post Exc.
Proof. intros H1 H2 s Hs. unfold st_lift. destruct r; auto. Qed.

Lemma st_partial_ret {A} (Pre : S → Prop) (Post : A → S → Prop) (Exc : S → Prop) (a : A) :
  (∀ s, Pre s → Post a s) → st_partial (E:=E) Pre (st_ret a) Post Exc.
Proof. intros H s Hs. by apply H. Qed.

(** A step inside a preorder that keeps [Pre]. *)
Lemma st_partial_within {A} (R : S → S → Prop) (Pre : S → Prop) (c : ST S E A) :
  st_within R c → (∀ s s', R s s' → Pre s → Pre s') → st_partial Pre c (λ _, Pre) Pre.
Proof.
  intros Hc HR s Hs. specialize (Hc s). destruct (c s) as [s' r]. simpl in Hc.
  pose proof (HR _ _ Hc Hs). by destruct r.
Qed.

Lemma st_partial_map_res {F A B} (f : Result E A → Result F B) Pre Post Post' Exc (c : ST S E A) :
  st_partial Pre c Post Exc → (∀ r b, f r = Ok b → ∃ a, r = Ok a ∧ ∀ s, Post a s → Post' b s) →
  (∀ a s, Post a s → Exc s) → st_partial Pre (st_map_res f c) Post' Exc.
Proof.
  intros Hc Hf Hx s Hs. specialize (Hc s Hs). unfold st_map_res. destruct (c s) as [s' r].
  destruct (f r) as [b|e|m] eqn:Hr.
  - destruct (Hf r b Hr) as (a & -> & H). by apply H.
  - destruct r; [by eapply Hx|done|done].
  - destruct r; [by eapply Hx|done|done].
Qed.

Lemma st_partial_conseq {A} (Pre Pre' : S → Prop) Post Post' Exc Exc' (c : ST S E A) :
  st_partial Pre' c Post' Exc' → (∀ s, Pre s → Pre' s) → (∀ a s, Post' a s → Post a s) →
  (∀ s, Exc' s → Exc s) → st_partial Pre c Post Exc.
Proof.
  intros Hc H1 H2 H3 s Hs. specialize (Hc s (H1 s Hs)).
  destruct (c s) as [s1 [a|e|m]]; auto.
Qed.
End partial.

(** ** Lemmas on ordered maps and sums *)

Section btree.
Context {V : Type}.
Implicit Types m : BTreeMap V.

Lemma btree_iter_perm m : btree_iter m ≡ₚ map_to_list m.
Proof. apply merge_sort_Permutation. Qed.

Lemma elem_of_btree_iter m k v : (k, v) ∈ btree_iter m ↔ m !! k = Some v.
Proof. rewrite btree_iter_perm. apply elem_of_map_to_list. Qed.

Lemma btree_keys_perm m : btree_keys m ≡ₚ (map_to_list m).*1.
Proof. unfold btree_keys. by rewrite btree_iter_perm. Qed.

Lemma NoDup_btree_keys m : NoDup (btree_keys m).
Proof. rewrite btree_keys_perm. apply NoDup_fst_map_to_list. Qed.

Lemma elem_of_btree_keys m k : k ∈ btree_keys m ↔ is_Some (m !! k).
Proof.
  unfold btree_keys. rewrite list_elem_of_fmap. split.
  - intros ([k' v] & -> & Hin). apply elem_of_btree_iter in Hin. simpl; eauto.
  - intros [v Hv]. exists (k, v). split; [done|]. by apply elem_of_btree_iter.
Qed.

Lemma btree_iter_empty : btree_iter (∅ : BTreeMap V) = [].
Proof. apply Permutation_nil_r. rewrite btree_iter_perm. by rewrite map_to_list_empty. Qed.

Lemma or_insert_lookup m k v k' :
  or_insert k v m !! k' =
    match m !! k' with Some w => Some w | None => if decide (k = k') then Some v else None end.
Proof.
  unfold or_insert. destruct (m !! k) eqn:Hk.
  - destruct (m !! k') eqn:Hk'; [done|]. rewrite decide_False by congruence. done.
  - destruct (decide (k = k')) as [->|Hne].
    + rewrite lookup_insert_eq, Hk. done.
    + rewrite lookup_insert_ne by done. by destruct (m !! k').
Qed.
End btree.

Section zsum.
Context {A : Type} (f : A → Z).

#[export] Instance Zsum_with_proper : Proper ((≡ₚ) ==> eq) (Zsum_with f).
Proof. intros l1 l2 H. induction H; simpl; lia. Qed.

Lemma Zsum_with_app l1 l2 : Zsum_with f (l1 ++ l2) = Zsum_with f l1 + Zsum_with f l2.
Proof. induction l1; simpl; lia. Qed.

Lemma Zsum_with_nonneg l : (∀ x, x ∈ l → 0 ≤ f x) → 0 ≤ Zsum_with f l.
Proof.
  induction l as [|x l IH]; simpl; intros H; [lia|].
  assert (0 ≤ f x) by (apply H; left).
  assert (0 ≤ Zsum_with f l) by (apply IH; intros; apply H; by right). lia.
Qed.

Lemma Zsum_with_filter (P : A → Prop) `{∀ x, Decision (P x)} l :
  Zsum_with f l = Zsum_with f (filter P l) + Zsum_with f (filter (λ x, ¬ P x) l).
Proof.
  induction l as [|x l IH]; simpl; [done|].
  rewrite !filter_cons. repeat case_decide; simpl; try tauto; lia.
Qed.

Lemma Zsum_with_submseteq l1 l2 :
  l1 ⊆+ l2 → (∀ x, x ∈ l2 → 0 ≤ f x) → Zsum_with f l1 ≤ Zsum_with f l2.
Proof.
  intros [k Hk]%submseteq_Permutation Hpos. rewrite Hk, Zsum_with_app.
  assert (0 ≤ Zsum_with f k); [|lia].
  apply Zsum_with_nonneg. intros x Hx. apply Hpos. rewrite Hk, elem_of_app. auto.
Qed.

(** Two duplicate-free sublists of a population overlap in at least what their
    weights exceed the total by. *)
Lemma Zsum_with_overlap `{!EqDecision A} l1 l2 l :
  NoDup l1 → NoDup l2 → l1 ⊆ l → l2 ⊆ l → (∀ x, x ∈ l → 0 ≤ f x) →
  Zsum_with f l1 + Zsum_with f l2 ≤ Zsum_with f l + Zsum_with f (filter (.∈ l2) l1).
Proof.
  intros Hn1 Hn2 H1 H2 Hpos.
  rewrite (Zsum_with_filter (.∈ l2) l1).
  assert (Zsum_with f (filter (λ x, x ∉ l2) l1) + Zsum_with f l2 ≤ Zsum_with f l); [|lia].
  rewrite <- Zsum_with_app. apply Zsum_with_submseteq; [|done].
  apply NoDup_submseteq.
  - apply NoDup_app. split; [by apply NoDup_filter|]. split; [|done].
    intros x [Hx _]%list_elem_of_filter. done.
  - intros x. rewrite elem_of_app, list_elem_of_filter. intros [[_ Hx]|Hx]; auto.
Qed.
End zsum.

(** Induction on a list two elements at a time. *)
Lemma list_pair_ind {A} (P : list A → Prop) :
  P [] → (∀ a, P [a]) → (∀ a b l, P l → P (a :: b :: l)) → ∀ l, P l.
Proof.
  intros H0 H1 H2. fix IH 1. intros [|a [|b l]]; [exact H0|apply H1|apply H2, IH].
Qed.

Lemma Zsum_with_ext {A} (f g : A → Z) l :
  (∀ x, x ∈ l → f x = g x) → Zsum_with f l = Zsum_with g l.
Proof.
  induction l as [|x l IH]; simpl; intros H; [done|].
  rewrite H by left. f_equal. apply IH. intros; apply H; by right.
Qed.
