(* ===== verification/Bits.v ===== *)
(** * Bits: the bit counting operations of [u64]

    [count_ones], [trailing_zeros], [leading_zeros] and [!x] of Rust's [u64],
    with the lemmas that relate them to binary representation. *)

From S2P Require Import Prelude.

Fixpoint pos_count_ones (p : positive) : Z :=
  match p with
  | xH => 1
  | xO p => pos_count_ones p
  | xI p => 1 + pos_count_ones p
  end.

(** [u64::count_ones] *)
Definition count_ones (x : Z) : Z :=
  match x with Zpos p => pos_count_ones p | _ => 0 end.

Fixpoint pos_trailing_zeros (p : positive) : Z :=
  match p with
  | xO p => 1 + pos_trailing_zeros p
  | _ => 0
  end.

(** [u64::trailing_zeros] *)
Definition trailing_zeros (x : Z) : Z :=
  match x with Zpos p => pos_trailing_zeros p | _ => 64 end.

(** [u64::leading_zeros] *)
Definition leading_zeros (x : Z) : Z :=
  match x with Zpos p => 63 - Z.log2 (Zpos p) | _ => 64 end.

(** [!x] on [u64] *)
Definition not64 (x : Z) : Z := u64_max - x.

Lemma pos_trailing_zeros_nonneg p : 0 ≤ pos_trailing_zeros p.
Proof. induction p; simpl; lia. Qed.

Lemma pos_count_ones_pos p : 1 ≤ pos_count_ones p.
Proof. induction p; simpl; lia. Qed.

Lemma count_ones_nonneg x : 0 ≤ count_ones x.
Proof. destruct x; simpl; try lia. pose proof (pos_count_ones_pos p). lia. Qed.

Lemma count_ones_double x : 0 ≤ x → count_ones (2 * x) = count_ones x.
Proof. intros. destruct x; simpl in *; try done; lia. Qed.

Lemma count_ones_succ_double x : 0 ≤ x → count_ones (2 * x + 1) = 1 + count_ones x.
Proof. intros. destruct x; simpl in *; try done; lia. Qed.

Lemma count_ones_zero x : 0 ≤ x → count_ones x = 0 → x = 0.
Proof. intros. destruct x as [|p|]; simpl in *; try lia. pose proof (pos_count_ones_pos p). lia. Qed.

Lemma trailing_zeros_double x : 0 < x → trailing_zeros (2 * x) = 1 + trailing_zeros x.
Proof. intros. destruct x; simpl in *; try done; lia. Qed.

Lemma trailing_zeros_odd x : 0 ≤ x → trailing_zeros (2 * x + 1) = 0.
Proof. intros. destruct x; simpl in *; try done; lia. Qed.

Lemma trailing_zeros_nonneg x : 0 ≤ trailing_zeros x.
Proof. destruct x; simpl; try lia. apply pos_trailing_zeros_nonneg. Qed.

(** A positive number is an odd multiple of the power given by its trailing
    zeros. *)
Lemma trailing_zeros_spec x :
  0 < x → ∃ m, 0 ≤ m ∧ x = (2 * m + 1) * 2 ^ trailing_zeros x.
Proof.
  destruct x as [|p|]; try lia. intros _. simpl.
  induction p as [p IH|p IH|]; simpl.
  - exists (Zpos p). lia.
  - destruct IH as (m & Hm & IH). exists m. split; [done|].
    rewrite Z.pow_add_r, Z.pow_1_r by (apply pos_trailing_zeros_nonneg || lia).
    replace (Zpos p~0) with (2 * Zpos p) by lia. nia.
  - exists 0. lia.
Qed.

(** The trailing zeros of a number and of its two's complement agree, so those
    of [!n] are the trailing ones of [n]. *)
Lemma trailing_zeros_complement (w : nat) k :
  0 < k < 2 ^ Z.of_nat w → trailing_zeros (2 ^ Z.of_nat w - k) = trailing_zeros k.
Proof.
  revert k. induction w as [|w IH]; intros k Hk; [simpl in *; lia|].
  rewrite Nat2Z.inj_succ, Z.pow_succ_r in * by lia.
  destruct (Z.Even_or_Odd k) as [[j ->]|[j ->]].
  - replace (2 * 2 ^ Z.of_nat w - 2 * j) with (2 * (2 ^ Z.of_nat w - j)) by lia.
    rewrite !trailing_zeros_double by lia. rewrite IH by lia. done.
  - replace (2 * 2 ^ Z.of_nat w - (2 * j + 1)) with (2 * (2 ^ Z.of_nat w - j - 1) + 1) by lia.
    by rewrite !trailing_zeros_odd by lia.
Qed.

Lemma trailing_ones_spec n :
  0 ≤ n < u64_max → trailing_zeros (not64 n) = trailing_zeros (n + 1).
Proof.
  intros Hn. unfold not64, u64_max in *.
  replace (2 ^ 64 - 1 - n) with (2 ^ Z.of_nat 64 - (n + 1)) by (change (Z.of_nat 64) with 64; lia).
  apply trailing_zeros_complement. change (Z.of_nat 64) with 64. lia.
Qed.

Lemma trailing_zeros_mul_pow2 m (k : nat) :
  0 < m → trailing_zeros (m * 2 ^ Z.of_nat k) = Z.of_nat k + trailing_zeros m.
Proof.
  intros Hm. induction k as [|k IH].
  - change (2 ^ Z.of_nat 0) with 1. by rewrite Z.mul_1_r.
  - rewrite Nat2Z.inj_succ, Z.pow_succ_r by lia.
    replace (m * (2 * 2 ^ Z.of_nat k)) with (2 * (m * 2 ^ Z.of_nat k)) by lia.
    rewrite trailing_zeros_double by (apply Z.mul_pos_pos; lia). lia.
Qed.

Lemma count_ones_mul_pow2 x (k : nat) :
  0 ≤ x → count_ones (x * 2 ^ Z.of_nat k) = count_ones x.
Proof.
  intros Hx. induction k as [|k IH]; [by rewrite Z.mul_1_r|].
  rewrite Nat2Z.inj_succ, Z.pow_succ_r by lia.
  replace (x * (2 * 2 ^ Z.of_nat k)) with (2 * (x * 2 ^ Z.of_nat k)) by lia.
  rewrite count_ones_double by (pose proof (Z.pow_nonneg 2 (Z.of_nat k)); nia). done.
Qed.

Lemma count_ones_le x : 0 ≤ x → count_ones x ≤ x.
Proof.
  destruct x as [|p|p]; simpl; try lia. intros _. induction p; simpl; lia.
Qed.

(** A bit above the others counts once more. *)
Lemma count_ones_add_pow2 (k : nat) x :
  0 ≤ x < 2 ^ Z.of_nat k → count_ones (2 ^ Z.of_nat k + x) = 1 + count_ones x.
Proof.
  revert x. induction k as [|k IH]; intros x Hx.
  - change (2 ^ Z.of_nat 0) with 1 in *. by assert (x = 0) as -> by lia.
  - rewrite Nat2Z.inj_succ, Z.pow_succ_r in * by lia.
    destruct (Z.Even_or_Odd x) as [[y ->]|[y ->]].
    + replace (2 * 2 ^ Z.of_nat k + 2 * y) with (2 * (2 ^ Z.of_nat k + y)) by lia.
      rewrite !count_ones_double by lia. apply IH. lia.
    + replace (2 * 2 ^ Z.of_nat k + (2 * y + 1)) with (2 * (2 ^ Z.of_nat k + y) + 1) by lia.
      rewrite !count_ones_succ_double by lia. rewrite IH; lia.
Qed.
