(* ===== verification/Crypto.v ===== *)
(** * Crypto: hash values, hashing and signatures

    Models what the rest of the system uses of crates/diem-crypto.  A
    [HashValue] (32 bytes) is the integer its bytes spell in big-endian order;
    account addresses (16 bytes), Ed25519 keys and signatures are integers the
    same way, so that [BTreeMap] order is the order of the integers.  SHA-3, BCS
    serialization and Ed25519 itself are third-party code: they are the fields of
    the classes [Crypto] and [CryptoHash], and what the system relies on of them
    are the named laws below. *)

From S2P Require Import Prelude.

Abbreviation HashValue := Z (only parsing).
Abbreviation AccountAddress := Z (only parsing).
Abbreviation PublicKey := Z (only parsing).
Abbreviation PrivateKey := Z (only parsing).
Abbreviation Signature := Z (only parsing).
Abbreviation Bytes := (list Z) (only parsing).

(** ** HashValue *)

Definition HashValue_LENGTH : Z := 32.
Definition HashValue_LENGTH_IN_BITS : Z := HashValue_LENGTH * 8.

Definition HashValue_zero : HashValue := 0.

(** [HashValue::new]: from its bytes, first byte most significant. *)
Definition HashValue_new (hash : Bytes) : HashValue :=
  foldl (λ acc b, acc * 256 + b) 0 hash.

(** [self.hash[pos]] *)
Definition hash_byte (h : HashValue) (pos : Z) : Z :=
  Z.land (Z.shiftr h (8 * (HashValue_LENGTH - 1 - pos))) 255.

(** [HashValue::bit], also [HashValueBitIterator::get_bit]. *)
Definition HashValue_bit (h : HashValue) (index : Z) : bool :=
  let pos := index / 8 in
  let bit := 7 - index mod 8 in
  negb (Z.land (Z.shiftr (hash_byte h pos) bit) 1 =? 0).

(** [HashValue::nibble] *)
Definition HashValue_nibble (h : HashValue) (index : Z) : Z :=
  let pos := index / 2 in
  let shift := if index mod 2 =? 0 then 4 else 0 in
  Z.land (Z.shiftr (hash_byte h pos) shift) 15.

(** [HashValue::iter_bits]: all 256 bits, most significant first. *)
Definition HashValue_iter_bits (h : HashValue) : list bool :=
  HashValue_bit h <$> seqZ 0 HashValue_LENGTH_IN_BITS.

(** [HashValue::common_prefix_bits_len] *)
Fixpoint common_prefix_len (l1 l2 : list bool) : nat :=
  match l1, l2 with
  | x :: l1, y :: l2 => if Bool.eqb x y then S (common_prefix_len l1 l2) else 0%nat
  | _, _ => 0%nat
  end.

Definition HashValue_common_prefix_bits_len (h other : HashValue) : nat :=
  common_prefix_len (HashValue_iter_bits h) (HashValue_iter_bits other).

(** [create_literal_hash]: the word's bytes, padded with zeros on the right. *)
Definition create_literal_hash (word : Bytes) : HashValue :=
  HashValue_new (resize (Z.to_nat HashValue_LENGTH) 0 word).

(** b"ACCUMULATOR_PLACEHOLDER_HASH" *)
Definition ACCUMULATOR_PLACEHOLDER_HASH : HashValue :=
  create_literal_hash
    [65; 67; 67; 85; 77; 85; 76; 65; 84; 79; 82; 95; 80; 76; 65; 67; 69; 72;
     79; 76; 68; 69; 82; 95; 72; 65; 83; 72].

(** b"SPARSE_MERKLE_PLACEHOLDER_HASH" *)
Definition SPARSE_MERKLE_PLACEHOLDER_HASH : HashValue :=
  create_literal_hash
    [83; 80; 65; 82; 83; 69; 95; 77; 69; 82; 75; 76; 69; 95; 80; 76; 65; 67;
     69; 72; 79; 76; 68; 69; 82; 95; 72; 65; 83; 72].

(** ** Third-party primitives *)

(** SHA-3 and Ed25519 (tiny_keccak, ed25519_dalek). *)
Class Crypto := {
  sha3_256 : Bytes → HashValue;
  ed25519_public : PrivateKey → PublicKey;
  ed25519_sign : PrivateKey → Bytes → Signature;
  ed25519_verify : PublicKey → Bytes → Signature → bool;
  ed25519_verify_batch : Bytes → list (PublicKey * Signature) → bool;
}.

(** What the code relies on of Ed25519: a signature made with a private key
    verifies under its public key, and a batch that verifies contains only
    signatures that verify one by one. *)
Class CryptoLaws (C : Crypto) : Prop := {
  ed25519_sign_verify : ∀ sk m,
    ed25519_verify (ed25519_public sk) m (ed25519_sign sk m) = true;
  ed25519_batch_sound : ∀ m l,
    ed25519_verify_batch m l = true →
    Forall (λ ks, ed25519_verify ks.1 m ks.2 = true) l;
}.

(** [CryptoHash] with [#[derive(CryptoHasher, BCSCryptoHash)]]: the seed of the
    type's hasher followed by the BCS bytes of the value.  The same bytes are
    hashed ([CryptoHash::hash]) and signed ([signing_message]). *)
Class CryptoHash (T : Type) := signing_message : T → Bytes.
#[export] Hint Mode CryptoHash ! : typeclass_instances.

Section signing.
Context `{C : Crypto} {T : Type} `{HT : CryptoHash T}.

(** [CryptoHash::hash] *)
Definition crypto_hash (x : T) : HashValue := sha3_256 (signing_message x).

(** [SigningKey::sign] *)
Definition sign (sk : PrivateKey) (x : T) : Signature :=
  ed25519_sign sk (signing_message x).

(** [VerifyingKey::verify_struct_signature] / [Signature::verify] *)
Definition verify_struct_signature (pk : PublicKey) (x : T) (s : Signature) : bool :=
  ed25519_verify pk (signing_message x) s.

(** [Ed25519Signature::batch_verify] *)
Definition batch_verify (x : T) (l : list (PublicKey * Signature)) : bool :=
  ed25519_verify_batch (signing_message x) l.
End signing.

(** ** A concrete instance

    Hashes and signatures that carry an injective encoding of what they are
    computed from (the hashes out of the range of 32-byte literals); it shows that the laws above can hold, and lets the
    definitions run on concrete inputs. *)

Definition ref_crypto : Crypto := {|
  sha3_256 := λ l, 2 ^ 256 + Zpos (encode l);
  ed25519_public := λ sk, sk;
  ed25519_sign := λ sk m, Zpos (encode (sk, m));
  ed25519_verify := λ pk m s, s =? Zpos (encode (pk, m));
  ed25519_verify_batch := λ m l, forallb (λ ks, ks.2 =? Zpos (encode (ks.1, m))) l;
|}.

#[export] Instance ref_crypto_laws : CryptoLaws ref_crypto.
Proof.
  split.
  - intros sk m. exact (Z.eqb_refl _).
  - intros m l H. unfold ed25519_verify_batch, ref_crypto in H. rewrite forallb_forall in H. apply Forall_forall.
    intros x Hx. apply H. by apply list_elem_of_In.
Qed.

(** Values of a countable type are signed and hashed by their encoding, tagged
    with the name of the type. *)
Definition ref_crypto_hash (tag : Z) {T} `{Countable T} : CryptoHash T :=
  λ x, [tag; Zpos (encode x)].

Lemma ref_sha3_inj l1 l2 :
  sha3_256 (Crypto:=ref_crypto) l1 = sha3_256 (Crypto:=ref_crypto) l2 → l1 = l2.
Proof.
  unfold sha3_256, ref_crypto. intros H. apply Z.add_reg_l in H. injection H as H.
  by apply (inj encode) in H.
Qed.

Lemma ref_sha3_large l : 2 ^ 256 < sha3_256 (Crypto:=ref_crypto) l.
Proof. unfold sha3_256, ref_crypto. lia. Qed.
