(* ===== verification/Accumulator.v ===== *)
(** * Accumulator: the in-memory Merkle accumulator

    Models src/types/src/proof/accumulator/mod.rs.  [frozen_subtree_roots] is
    kept in the source's order (largest subtree first); the loops that pop from
    its end run on the reversed list.  The hash of an internal node
    ([MerkleTreeInternalNode<H>::hash], SHA-3 of the two children under the
    hasher's seed) is the class [MerkleHasher]. *)

From S2P Require Import Prelude Bits Crypto.

Class MerkleHasher := merkle_node : HashValue → HashValue → HashValue.

Definition MAX_ACCUMULATOR_PROOF_DEPTH : Z := 63.
Definition MAX_ACCUMULATOR_LEAVES : Z := Z.shiftl 1 MAX_ACCUMULATOR_PROOF_DEPTH.

Record InMemoryAccumulator := mkInMemoryAccumulator {
  frozen_subtree_roots : list HashValue;
  num_leaves : Z;
  root_hash : HashValue;
}.

#[export] Instance InMemoryAccumulator_eq_dec : EqDecision InMemoryAccumulator.
Proof. solve_decision. Defined.

(** [Vec::pop] *)
Definition vec_pop {A} (l : list A) : option (A * list A) :=
  match reverse l with
  | [] => None
  | x :: r => Some (x, reverse r)
  end.

Section accumulator.
Context `{MH : MerkleHasher}.

(** The [while bitmap > 0] loop of [compute_root_hash]; [frozen] is the
    iterator over the roots from the right. *)
Fixpoint root_hash_loop {E} (bitmap : positive) (frozen : list HashValue)
    (current_hash : HashValue) : Result E HashValue :=
  match bitmap with
  | xH =>
      match frozen with
      | [] => Panic "This frozen subtree should exist."
      | f :: frozen => Ok (merkle_node f current_hash)
      end
  | xI bitmap =>
      match frozen with
      | [] => Panic "This frozen subtree should exist."
      | f :: frozen => root_hash_loop bitmap frozen (merkle_node f current_hash)
      end
  | xO bitmap =>
      root_hash_loop bitmap frozen
        (merkle_node current_hash ACCUMULATOR_PLACEHOLDER_HASH)
  end.

Definition compute_root_hash {E} (frozen : list HashValue) (leaves : Z)
    : Result E HashValue :=
  match frozen with
  | [] => Ok ACCUMULATOR_PLACEHOLDER_HASH
  | [f] => Ok f
  | _ =>
      match Z.shiftr leaves (trailing_zeros leaves) with
      | Zpos bitmap => root_hash_loop bitmap (reverse frozen) ACCUMULATOR_PLACEHOLDER_HASH
      | _ => Ok ACCUMULATOR_PLACEHOLDER_HASH
      end
  end.

(** [InMemoryAccumulator::new] *)
Definition InMemoryAccumulator_new (frozen : list HashValue) (leaves : Z)
    : AnyResult InMemoryAccumulator :=
  ensure (Z.of_nat (length frozen) =? count_ones leaves)
    "The number of frozen subtrees does not match the number of leaves." ;?
  let? root := compute_root_hash frozen leaves in
  Ok (mkInMemoryAccumulator frozen leaves root).

(** One iteration of the merging loop of [append_one]. *)
Definition merge_last_two (frozen : list HashValue) : AnyResult (list HashValue) :=
  let? (right_hash, frozen) := expect (vec_pop frozen) "Invalid accumulator." in
  let? (left_hash, frozen) := expect (vec_pop frozen) "Invalid accumulator." in
  Ok (frozen ++ [merkle_node left_hash right_hash]).

Definition append_one (frozen : list HashValue) (num_existing_leaves : Z)
    (leaf : HashValue) : AnyResult (list HashValue) :=
  let frozen := frozen ++ [leaf] in
  let num_trailing_ones := trailing_zeros (not64 num_existing_leaves) in
  r_fold (λ frozen _, merge_last_two frozen)
    (seq 0 (Z.to_nat num_trailing_ones)) frozen.

(** [InMemoryAccumulator::append] *)
Definition append (acc : InMemoryAccumulator) (leaves : list HashValue)
    : AnyResult InMemoryAccumulator :=
  let? (frozen, n) :=
    r_fold (λ '(frozen, n) leaf,
      let? frozen := append_one frozen n leaf in
      Ok (frozen, wrap64 (n + 1)))
      leaves (frozen_subtree_roots acc, num_leaves acc) in
  match InMemoryAccumulator_new frozen n with
  | Ok acc' => Ok acc'
  | _ => Panic "Appending leaves to a valid accumulator should create another valid accumulator."
  end.

(** [Default] *)
Definition InMemoryAccumulator_default : AnyResult InMemoryAccumulator :=
  match InMemoryAccumulator_new [] 0 with
  | Ok acc => Ok acc
  | _ => Panic "Constructing empty accumulator should work."
  end.

Definition from_leaves (leaves : list HashValue) : AnyResult InMemoryAccumulator :=
  let? acc := InMemoryAccumulator_default in append acc leaves.

(** The inner loop of [append_subtrees]: combine the new subtree with every
    frozen subtree of the same size on its left.  [roots] is reversed. *)
Fixpoint combine_subtree (roots : list HashValue) (current_num_leaves mask : Z)
    (current_hash : HashValue) : AnyResult (list HashValue * Z) :=
  if Z.land current_num_leaves mask =? 0 then Ok (current_hash :: roots, mask)
  else
    match roots with
    | [] => Panic "This frozen subtree must exist."
    | left_hash :: roots =>
        combine_subtree roots current_num_leaves (wrap64 (Z.shiftl mask 1))
          (merkle_node left_hash current_hash)
    end.

(** The outer loop: as long as a new subtree of the size of the rightmost
    frozen one can be added.  Returns the roots (reversed), the number of
    leaves, the remaining new leaves and the unused subtrees. *)
Fixpoint append_subtrees_loop (subtree_iter : list HashValue) (roots : list HashValue)
    (current_num_leaves remaining_new_leaves size : Z)
    : AnyResult (list HashValue * Z * Z * list HashValue) :=
  if remaining_new_leaves <? size
  then Ok (roots, current_num_leaves, remaining_new_leaves, subtree_iter)
  else
    match subtree_iter with
    | [] => Err "Too few subtrees."
    | current_hash :: subtree_iter =>
        let? (roots, mask) := combine_subtree roots current_num_leaves size current_hash in
        append_subtrees_loop subtree_iter roots (wrap64 (current_num_leaves + size))
          (remaining_new_leaves - size) mask
    end.

Definition append_subtrees (acc : InMemoryAccumulator) (subtrees : list HashValue)
    (num_new_leaves : Z) : AnyResult InMemoryAccumulator :=
  ensure (num_new_leaves <=? wrap64 (MAX_ACCUMULATOR_LEAVES - num_leaves acc))
    "Too many new leaves." ;?
  if num_leaves acc =? 0 then InMemoryAccumulator_new subtrees num_new_leaves
  else
    let? (roots, n, remaining, rest) :=
      append_subtrees_loop subtrees (reverse (frozen_subtree_roots acc)) (num_leaves acc)
        num_new_leaves (wrap64 (Z.shiftl 1 (trailing_zeros (num_leaves acc)))) in
    InMemoryAccumulator_new (reverse roots ++ rest) (wrap64 (n + remaining)).

Definition acc_version (acc : InMemoryAccumulator) : Z :=
  if num_leaves acc =? 0 then 0 else num_leaves acc - 1.

Definition acc_is_empty (acc : InMemoryAccumulator) : bool := num_leaves acc =? 0.
End accumulator.

(** A concrete node hash: negative numbers that encode a tag and the children. *)
Definition ref_merkle_hasher (tag : Z) : MerkleHasher := λ a b, Zneg (encode (tag, a, b)).

#[export] Instance ref_merkle_inj tag : Inj2 (=) (=) (=) (merkle_node (MerkleHasher:=ref_merkle_hasher tag)).
Proof.
  intros a b c d H. unfold merkle_node, ref_merkle_hasher in H.
  injection H as H. apply (inj encode) in H. by simplify_eq.
Qed.
