(* ===== verification/AccumulatorFacts.v ===== *)
(** * AccumulatorFacts: the accumulator against a plain Merkle tree

    The reference is the root of the binary tree over the whole list of leaves,
    computed level by level: neighbours are hashed in pairs and a level of odd
    length is padded with the placeholder.  [repr acc l] says that an accumulator
    stands for the leaves [l]; every operation of Accumulator.v preserves it. *)

From S2P Require Import Prelude Bits Crypto Accumulator.

(** ** Pairing up a level of the tree *)

Section spec.
Context `{MH : MerkleHasher}.

(** The parents of complete pairs; an odd last node has no parent yet. *)
Fixpoint pairs (l : list HashValue) : list HashValue :=
  match l with
  | a :: b :: l => merkle_node a b :: pairs l
  | _ => []
  end.

(** The next level, the last pair padded with the placeholder if needed. *)
Fixpoint pairs_pad (l : list HashValue) : list HashValue :=
  match l with
  | a :: b :: l => merkle_node a b :: pairs_pad l
  | [a] => [merkle_node a ACCUMULATOR_PLACEHOLDER_HASH]
  | [] => []
  end.

Fixpoint root_at (depth : nat) (l : list HashValue) : HashValue :=
  match depth with
  | O => match l with x :: _ => x | [] => ACCUMULATOR_PLACEHOLDER_HASH end
  | S depth => root_at depth (pairs_pad l)
  end.

(** The root hash of the tree over the leaves [l]. *)
Definition merkle_root (l : list HashValue) : HashValue :=
  root_at (Nat.log2_up (length l)) l.

(** The roots of the maximal complete subtrees, smallest first; the positive
    is the number of leaves. *)
Fixpoint frozen_of (p : positive) (l : list HashValue) : list HashValue :=
  match p with
  | xH => l
  | xO p => frozen_of p (pairs l)
  | xI p => match last l with Some x => [x] | None => [] end ++ frozen_of p (pairs l)
  end.

Definition frozen (l : list HashValue) : list HashValue :=
  match Z.of_nat (length l) with Zpos p => frozen_of p l | _ => [] end.

Record repr (acc : InMemoryAccumulator) (l : list HashValue) : Prop := {
  repr_num : num_leaves acc = Z.of_nat (length l);
  repr_frozen : frozen_subtree_roots acc = reverse (frozen l);
  repr_root : root_hash acc = merkle_root l;
}.

(** *** Lengths and concatenation *)

Lemma pairs_length l : length (pairs l) = Nat.div2 (length l).
Proof. induction l as [| |a b l IH] using list_pair_ind; simpl; auto. Qed.

Lemma pairs_pad_length l : length (pairs_pad l) = Nat.div2 (S (length l)).
Proof. induction l as [| |a b l IH] using list_pair_ind; simpl in *; auto. Qed.

Lemma pairs_app l1 l2 : Nat.Even (length l1) → pairs (l1 ++ l2) = pairs l1 ++ pairs l2.
Proof.
  induction l1 as [|a|a b l IH] using list_pair_ind; simpl; intros He; [done| |].
  - destruct He; lia.
  - rewrite IH; [done|]. destruct He as [k Hk]. exists (k - 1)%nat. lia.
Qed.

Lemma pairs_pad_app l1 l2 :
  Nat.Even (length l1) → pairs_pad (l1 ++ l2) = pairs l1 ++ pairs_pad l2.
Proof.
  induction l1 as [|a|a b l IH] using list_pair_ind; simpl; intros He; [done| |].
  - destruct He; lia.
  - rewrite IH; [done|]. destruct He as [k Hk]. exists (k - 1)%nat. lia.
Qed.

Lemma pairs_pad_even l : Nat.Even (length l) → pairs_pad l = pairs l.
Proof.
  intros. rewrite <- (app_nil_r l) at 1. rewrite pairs_pad_app by done. apply app_nil_r.
Qed.

(** A list of odd length is an even one and a last element. *)
Lemma odd_snoc (l : list HashValue) :
  Nat.Odd (length l) → ∃ l' x, l = l' ++ [x] ∧ Nat.Even (length l').
Proof.
  intros Ho. destruct l as [|x l' _] using rev_ind; [destruct Ho; simpl in *; lia|].
  exists l', x. split; [done|]. rewrite length_app in Ho. simpl in Ho.
  destruct Ho as [k Hk]. exists k. lia.
Qed.

Lemma even_snoc2 (l : list HashValue) :
  l ≠ [] → Nat.Even (length l) → ∃ l' y x, l = l' ++ [y; x] ∧ Nat.Even (length l').
Proof.
  intros Hne He. destruct l as [|x l' _] using rev_ind; [done|].
  rewrite length_app in He. simpl in He.
  destruct (odd_snoc l') as (l'' & y & -> & He').
  { destruct He as [k Hk]. exists (k - 1)%nat. lia. }
  exists l'', y, x. by rewrite <- app_assoc.
Qed.

Lemma pairs_snoc2 l y x :
  Nat.Even (length l) → pairs (l ++ [y; x]) = pairs l ++ [merkle_node y x].
Proof. intros. by rewrite pairs_app. Qed.

Lemma pairs_snoc_even l x : Nat.Even (length l) → pairs (l ++ [x]) = pairs l.
Proof. intros. rewrite pairs_app by done. simpl. apply app_nil_r. Qed.

(** *** Equations of [merkle_root] *)

Lemma merkle_root_nil : merkle_root [] = ACCUMULATOR_PLACEHOLDER_HASH.
Proof. done. Qed.

Lemma merkle_root_one x : merkle_root [x] = x.
Proof. done. Qed.

Lemma log2_up_half n : (2 ≤ n)%nat → Nat.log2_up n = S (Nat.log2_up (Nat.div2 (S n))).
Proof.
  intros Hn. pose proof (Nat.div2_odd (S n)) as Ho.
  destruct (Nat.odd (S n)) eqn:Hodd; simpl Nat.b2n in Ho.
  - assert (Hh : n = (2 * Nat.div2 (S n))%nat) by lia.
    rewrite Hh at 1. apply Nat.log2_up_double. lia.
  - assert (Hh : n = (2 * Nat.div2 (S n) - 1)%nat) by lia.
    set (m := Nat.div2 (S n)) in *. rewrite Hh.
    destruct m as [|m]; [lia|].
    replace (2 * S m - 1)%nat with (2 * m + 1)%nat by lia.
    rewrite Nat.log2_up_succ_double by lia.
    rewrite Nat.log2_up_eqn by lia. done.
Qed.

Lemma merkle_root_step l :
  (2 ≤ length l)%nat → merkle_root l = merkle_root (pairs_pad l).
Proof.
  intros Hl. unfold merkle_root. rewrite log2_up_half by done. simpl.
  by rewrite pairs_pad_length.
Qed.

(** *** Equations of [frozen] and induction along the levels *)

Lemma even_length_pairs l :
  Nat.Even (length l) → length l = (2 * length (pairs l))%nat.
Proof.
  intros [k Hk]. rewrite pairs_length, Hk. by rewrite Nat.div2_double.
Qed.

Lemma even_nonempty l :
  l ≠ [] → Nat.Even (length l) → (2 ≤ length l)%nat ∧ (0 < length (pairs l))%nat.
Proof.
  intros Hne He%even_length_pairs. destruct l; [done|]. simpl in *. lia.
Qed.

Lemma frozen_nil : frozen [] = [].
Proof. done. Qed.

Lemma frozen_even l :
  l ≠ [] → Nat.Even (length l) → frozen l = frozen (pairs l).
Proof.
  intros Hne He. apply even_length_pairs in He. unfold frozen. rewrite He at 1.
  destruct (length (pairs l)) as [|n] eqn:Hn.
  { destruct l; [done|simpl in He; lia]. }
  rewrite Nat2Z.inj_mul.
  destruct (Z.of_nat (S n)) as [|p|p] eqn:Hp; try lia. done.
Qed.

Lemma frozen_odd l x :
  Nat.Even (length l) → frozen (l ++ [x]) = x :: frozen (pairs l).
Proof.
  intros He. pose proof (even_length_pairs l He) as Hl. unfold frozen.
  rewrite length_app. simpl length. rewrite Hl at 1.
  destruct (length (pairs l)) as [|n] eqn:Hn.
  { destruct l; [done|simpl in Hl; lia]. }
  rewrite Nat2Z.inj_add, Nat2Z.inj_mul.
  destruct (Z.of_nat (S n)) as [|p|p] eqn:Hp; try lia.
  change (Z.of_nat 2 * Zpos p + Z.of_nat 1) with (Zpos (xI p)). simpl.
  by rewrite last_snoc, pairs_snoc_even.
Qed.

Lemma level_ind (P : list HashValue → Prop) :
  P [] →
  (∀ l, l ≠ [] → Nat.Even (length l) → P (pairs l) → P l) →
  (∀ l x, Nat.Even (length l) → P (pairs l) → P (l ++ [x])) →
  ∀ l, P l.
Proof.
  intros H0 He Ho l. remember (length l) as n eqn:Hn. revert l Hn.
  induction (lt_wf n) as [n _ IH]; intros l ->.
  destruct (decide (l = [])) as [->|Hne]; [done|].
  destruct (Nat.Even_or_Odd (length l)) as [Hev|Hod].
  - apply He; [done..|]. eapply IH; [|done].
    rewrite (even_length_pairs l Hev). destruct l; [done|].
    pose proof (even_length_pairs _ Hev). simpl in *. lia.
  - apply odd_snoc in Hod as (l' & x & -> & Hev). apply Ho; [done|].
    eapply IH; [|done]. rewrite length_app. simpl.
    pose proof (even_length_pairs _ Hev). lia.
Qed.

Lemma frozen_length l : Z.of_nat (length (frozen l)) = count_ones (Z.of_nat (length l)).
Proof.
  induction l as [|l Hne He IH|l x He IH] using level_ind.
  - done.
  - rewrite frozen_even, IH, (even_length_pairs l He) by done.
    rewrite Nat2Z.inj_mul, count_ones_double by lia. done.
  - rewrite frozen_odd by done. rewrite length_app, (even_length_pairs l He). simpl length.
    rewrite Nat2Z.inj_succ, IH, Nat2Z.inj_add, Nat2Z.inj_mul.
    change (Z.of_nat 1) with 1. change (Z.of_nat 2) with 2.
    rewrite count_ones_succ_double by lia. lia.
Qed.

(** *** The root computed from the frozen subtrees *)

Lemma root_hash_loop_spec {E} p l cur :
  Z.of_nat (length l) = Zpos p →
  root_hash_loop (E:=E) p (frozen l) cur = Ok (merkle_root (l ++ [cur])).
Proof.
  revert l cur. induction p as [p IH|p IH|]; intros l cur Hl; simpl.
  - destruct (odd_snoc l) as (l' & y & -> & He).
    { exists (Pos.to_nat p). lia. }
    rewrite frozen_odd by done. rewrite length_app in Hl. simpl in Hl.
    rewrite IH by (pose proof (even_length_pairs _ He); lia).
    f_equal. rewrite <- app_assoc. simpl. rewrite (merkle_root_step (l' ++ _)).
    + by rewrite pairs_pad_app.
    + rewrite length_app. simpl. lia.
  - assert (He : Nat.Even (length l)) by (exists (Pos.to_nat p); lia).
    assert (l ≠ []) by (intros ->; simpl in Hl; lia).
    rewrite frozen_even by done.
    rewrite IH by (pose proof (even_length_pairs _ He); lia).
    f_equal. rewrite (merkle_root_step (l ++ _)).
    + by rewrite pairs_pad_app.
    + rewrite length_app. destruct l; simpl; [done|lia].
  - destruct l as [|x [|]]; simpl in Hl; try lia. done.
Qed.

Lemma merkle_root_pad_odd l :
  Nat.Odd (length l) → (3 ≤ length l)%nat →
  merkle_root (l ++ [ACCUMULATOR_PLACEHOLDER_HASH]) = merkle_root l.
Proof.
  intros Ho H3. apply odd_snoc in Ho as (l' & x & -> & He).
  rewrite (merkle_root_step (l' ++ [x])) by lia.
  rewrite merkle_root_step by (rewrite !length_app in *; simpl in *; lia).
  rewrite <- app_assoc. rewrite (pairs_pad_app l' [x]), pairs_pad_app by done. done.
Qed.

Lemma frozen_single_root l f : frozen l = [f] → merkle_root l = f.
Proof.
  induction l as [|l Hne He IH|l x He IH] using level_ind; intros Hf.
  - done.
  - rewrite frozen_even in Hf by done. rewrite merkle_root_step.
    + rewrite pairs_pad_even by done. auto.
    + pose proof (even_nonempty l Hne He). lia.
  - rewrite frozen_odd in Hf by done. injection Hf as -> Hp.
    pose proof (frozen_length (pairs l)) as Hl. rewrite Hp in Hl.
    symmetry in Hl. apply count_ones_zero in Hl; [|lia].
    pose proof (even_length_pairs l He). destruct l; simpl in *; [done|lia].
Qed.

Lemma compute_root_hash_spec {E} l :
  compute_root_hash (E:=E) (reverse (frozen l)) (Z.of_nat (length l)) = Ok (merkle_root l).
Proof.
  unfold compute_root_hash.
  destruct (reverse (frozen l)) as [|f1 [|f2 fr]] eqn:Hfr.
  - pose proof (frozen_length l) as Hl. apply (f_equal length) in Hfr.
    rewrite length_reverse in Hfr. simpl in Hfr. rewrite Hfr in Hl.
    symmetry in Hl. apply count_ones_zero in Hl; [|lia]. destruct l; simpl in *; [done|lia].
  - f_equal. symmetry. apply frozen_single_root.
    by rewrite <- (reverse_involutive (frozen l)), Hfr.
  - rewrite <- Hfr, reverse_involutive.
    assert (Hlen : (2 ≤ length (frozen l))%nat).
    { rewrite <- length_reverse, Hfr. simpl. lia. }
    clear f1 f2 fr Hfr.
    induction l as [|l Hne He IH|l x He IH] using level_ind.
    + simpl in Hlen. lia.
    + rewrite frozen_even in Hlen |- * by done.
      destruct (even_nonempty l Hne He) as [Hl2 Hp2].
      rewrite merkle_root_step, pairs_pad_even by done.
      rewrite <- IH by done. rewrite (even_length_pairs l He) at 1 2.
      assert (Hpl : 0 < Z.of_nat (length (pairs l))).
      { lia. }
      rewrite Nat2Z.inj_mul. change (Z.of_nat 2) with 2.
      rewrite trailing_zeros_double by done.
      rewrite Z.shiftr_div_pow2, Z.shiftr_div_pow2
        by (pose proof (trailing_zeros_nonneg (Z.of_nat (length (pairs l)))); lia).
      rewrite Z.pow_add_r, Z.pow_1_r
        by (pose proof (trailing_zeros_nonneg (Z.of_nat (length (pairs l)))); lia).
      rewrite Z.div_mul_cancel_l; [done| |lia].
      apply Z.pow_nonzero; [lia|]. apply trailing_zeros_nonneg.
    + pose proof (even_length_pairs l He) as Hl2.
      assert (Hodd : Z.of_nat (length (l ++ [x])) = 2 * Z.of_nat (length (pairs l)) + 1).
      { rewrite length_app. simpl. lia. }
      rewrite Hodd, trailing_zeros_odd by lia. rewrite Z.shiftr_0_r.
      destruct (2 * Z.of_nat (length (pairs l)) + 1) as [|p|p] eqn:Hp; try lia.
      rewrite root_hash_loop_spec by lia. f_equal. apply merkle_root_pad_odd.
      * rewrite length_app. simpl. exists (length (pairs l)). lia.
      * rewrite frozen_odd in Hlen by done. simpl in Hlen.
        assert (length (pairs l) ≠ 0)%nat.
        { intros H0. destruct (pairs l); [simpl in Hlen; lia|simpl in H0; lia]. }
        rewrite length_app. simpl. lia.
Qed.

(** *** Appending leaves: binary addition with carries *)

Lemma vec_pop_reverse {A} (x : A) l : vec_pop (reverse (x :: l)) = Some (x, reverse l).
Proof. unfold vec_pop. by rewrite reverse_involutive. Qed.

Lemma merge_last_two_reverse a b r :
  merge_last_two (reverse (a :: b :: r)) = Ok (reverse (merkle_node b a :: r)).
Proof.
  unfold merge_last_two. rewrite vec_pop_reverse. simpl r_bind.
  rewrite vec_pop_reverse. simpl r_bind. by rewrite reverse_cons.
Qed.

Lemma merges_reverse l x start :
  r_fold (λ frozen _, merge_last_two frozen)
    (seq start (Z.to_nat (trailing_zeros (Z.of_nat (length l) + 1)))) (reverse (x :: frozen l))
  = Ok (reverse (frozen (l ++ [x]))).
Proof.
  revert x start.
  induction l as [|l Hne He IH|l y He IH] using level_ind; intros x start.
  - done.
  - rewrite (even_length_pairs l He) at 1. rewrite Nat2Z.inj_mul, trailing_zeros_odd by lia.
    simpl. rewrite frozen_odd by done. by rewrite frozen_even.
  - rewrite frozen_odd by done. rewrite length_app, (even_length_pairs l He). simpl length.
    replace (Z.of_nat (2 * length (pairs l) + 1) + 1)
      with (2 * (Z.of_nat (length (pairs l)) + 1)) by lia.
    rewrite trailing_zeros_double by lia.
    rewrite Z2Nat.inj_add by (try apply trailing_zeros_nonneg; lia).
    change (Z.to_nat 1) with 1%nat. simpl Nat.add. simpl seq. simpl r_fold.
    rewrite merge_last_two_reverse. simpl r_bind. rewrite IH.
    rewrite <- app_assoc. simpl app. rewrite (frozen_even (l ++ [y; x])).
    + by rewrite pairs_snoc2.
    + by destruct l.
    + rewrite length_app. simpl. destruct He as [k ->]. exists (S k). lia.
Qed.

Lemma append_one_spec l x :
  Z.of_nat (length l) < u64_max →
  append_one (reverse (frozen l)) (Z.of_nat (length l)) x = Ok (reverse (frozen (l ++ [x]))).
Proof.
  intros Hl. unfold append_one. rewrite trailing_ones_spec by lia.
  rewrite <- reverse_cons. apply merges_reverse.
Qed.

Lemma InMemoryAccumulator_new_repr l :
  ∃ acc, InMemoryAccumulator_new (reverse (frozen l)) (Z.of_nat (length l)) = Ok acc ∧ repr acc l.
Proof.
  unfold InMemoryAccumulator_new. rewrite length_reverse, frozen_length, Z.eqb_refl.
  simpl r_bind. rewrite compute_root_hash_spec. simpl. eauto using Build_repr.
Qed.

Lemma append_fold_spec leaves l :
  Z.of_nat (length l + length leaves) ≤ u64_max →
  r_fold (λ '(frozen, n) leaf,
      let? frozen := append_one frozen n leaf in Ok (frozen, wrap64 (n + 1)))
    leaves (reverse (frozen l), Z.of_nat (length l))
  = Ok (reverse (frozen (l ++ leaves)), Z.of_nat (length (l ++ leaves))).
Proof.
  revert l. induction leaves as [|x leaves IH]; intros l Hb; simpl.
  - by rewrite app_nil_r.
  - rewrite append_one_spec by (unfold u64_max in *; simpl in *; lia). simpl.
    unfold wrap64. rewrite Z.mod_small by (unfold u64_max in *; simpl in *; lia).
    replace (Z.of_nat (length l) + 1) with (Z.of_nat (length (l ++ [x])))
      by (rewrite length_app; simpl; lia).
    rewrite IH by (rewrite length_app; simpl in *; lia).
    by rewrite <- app_assoc.
Qed.

Lemma append_spec acc l leaves :
  repr acc l → Z.of_nat (length l + length leaves) ≤ u64_max →
  ∃ acc', append acc leaves = Ok acc' ∧ repr acc' (l ++ leaves).
Proof.
  intros [Hn Hf Hr] Hb. unfold append. rewrite Hn, Hf, append_fold_spec by done. simpl.
  destruct (InMemoryAccumulator_new_repr (l ++ leaves)) as (acc' & -> & ?). eauto.
Qed.

Lemma from_leaves_spec leaves :
  Z.of_nat (length leaves) ≤ u64_max →
  ∃ acc, from_leaves leaves = Ok acc ∧ repr acc leaves.
Proof.
  intros Hb. unfold from_leaves, InMemoryAccumulator_default.
  destruct (InMemoryAccumulator_new_repr []) as (acc & Hnew & Hrep).
  change (reverse (frozen [])) with (@nil HashValue) in Hnew.
  change (Z.of_nat (length [])) with 0 in Hnew. rewrite Hnew. simpl.
  by apply (append_spec acc []).
Qed.
End spec.

(** An accumulator is determined by the leaves it stands for. *)
Lemma repr_unique `{MH : MerkleHasher} acc1 acc2 l : repr acc1 l → repr acc2 l → acc1 = acc2.
Proof. destruct acc1, acc2. intros [] []. simpl in *. congruence. Qed.

(** C18: the accumulator against the plain Merkle tree.  Appending leaves in any
    number of calls gives the accumulator built from all the leaves at once; it has
    one frozen subtree per bit of the number of leaves, and its root hash is that
    of the tree computed level by level over the whole list. *)
Theorem accumulator_append_correct {MH : MerkleHasher} (l leaves : list HashValue) acc :
  from_leaves l = Ok acc → Z.of_nat (length l + length leaves) ≤ u64_max →
  ∃ acc', append acc leaves = Ok acc' ∧ from_leaves (l ++ leaves) = Ok acc' ∧
    root_hash acc' = merkle_root (l ++ leaves) ∧
    Z.of_nat (length (frozen_subtree_roots acc')) = count_ones (num_leaves acc') ∧
    num_leaves acc' = Z.of_nat (length (l ++ leaves)).
Proof.
  intros Hacc Hb. destruct (from_leaves_spec l) as (acc0 & Hacc0 & Hrep); [lia|].
  rewrite Hacc0 in Hacc. injection Hacc as ->.
  destruct (append_spec acc l leaves Hrep Hb) as (acc' & Happ & Hrep').
  destruct (from_leaves_spec (l ++ leaves)) as (acc2 & Hacc2 & Hrep2); [by rewrite length_app|].
  rewrite (repr_unique _ _ _ Hrep2 Hrep') in Hacc2.
  exists acc'. destruct Hrep' as [Hn Hf Hr]. split_and!; try done.
  by rewrite Hf, Hn, length_reverse, frozen_length.
Qed.

Lemma accumulator_append_witness :
  ∃ acc', (let? acc := from_leaves (MH:=ref_merkle_hasher 1) [1; 2; 3] in
           append (MH:=ref_merkle_hasher 1) acc [4; 5; 6]) = Ok acc' ∧
          root_hash acc' = merkle_root (MH:=ref_merkle_hasher 1) [1; 2; 3; 4; 5; 6].
Proof.
  destruct (from_leaves (MH:=ref_merkle_hasher 1) [1; 2; 3]) as [acc| |] eqn:Hacc;
    [|vm_compute in Hacc; discriminate..].
  destruct (accumulator_append_correct (MH:=ref_merkle_hasher 1) [1; 2; 3] [4; 5; 6] acc Hacc)
    as (acc' & Ha & _ & Hr & _); [vm_compute; congruence|].
  exists acc'. split; [exact Ha|exact Hr].
Defined.
