(* ===== verification/ConsistencyFacts.v ===== *)
(** * ConsistencyFacts: extending an accumulator by subtrees

    [append_subtrees] (src/types/src/proof/accumulator/mod.rs) against the
    reference tree of AccumulatorFacts.v: it can build every extension of the
    leaves, and under a collision-free node hash a root hash fixes the leaves,
    so an accumulator that was extended to the root of some ledger stands for a
    prefix of that ledger. *)

From S2P Require Import Prelude Bits Crypto Accumulator AccumulatorFacts.

Section levels.
Context `{MH : MerkleHasher}.

(** The nodes [k] levels above the leaves. *)
Fixpoint up (k : nat) (l : list HashValue) : list HashValue :=
  match k with O => l | S k => up k (pairs l) end.

Lemma pairs_length_mul l m :
  length l = (2 * m)%nat → length (pairs l) = m.
Proof. intros H. rewrite pairs_length, H. apply Nat.div2_double. Qed.

Lemma up_length k m l : length l = (m * 2 ^ k)%nat → length (up k l) = m.
Proof.
  revert l. induction k as [|k IH]; intros l Hl; simpl in *; [lia|].
  apply IH, pairs_length_mul. lia.
Qed.

Lemma up_app k m l1 l2 :
  length l1 = (m * 2 ^ k)%nat → up k (l1 ++ l2) = up k l1 ++ up k l2.
Proof.
  revert l1 l2. induction k as [|k IH]; intros l1 l2 Hl; simpl in *; [done|].
  rewrite pairs_app by (exists (m * 2 ^ k)%nat; lia).
  apply IH, pairs_length_mul. lia.
Qed.

Lemma frozen_pairs l : Nat.Even (length l) → frozen (pairs l) = frozen l.
Proof.
  intros He. destruct (decide (l = [])) as [->|Hne]; [done|]. by rewrite (frozen_even l).
Qed.

Lemma frozen_up k m l : length l = (m * 2 ^ k)%nat → frozen (up k l) = frozen l.
Proof.
  revert l. induction k as [|k IH]; intros l Hl; simpl in *; [done|].
  rewrite IH by (apply pairs_length_mul; lia).
  apply frozen_pairs. exists (m * 2 ^ k)%nat. lia.
Qed.

(** A tail shorter than the smallest complete subtree keeps its own roots. *)
Lemma frozen_app_small k m l1 l2 :
  length l1 = (m * 2 ^ k)%nat → (length l2 < 2 ^ k)%nat →
  frozen (l1 ++ l2) = frozen l2 ++ frozen l1.
Proof.
  revert l1 l2. induction k as [|k IH]; intros l1 l2 H1 H2; simpl in *.
  - destruct l2; simpl in *; [by rewrite app_nil_r|lia].
  - assert (He1 : Nat.Even (length l1)) by (exists (m * 2 ^ k)%nat; lia).
    assert (Hp1 : length (pairs l1) = (m * 2 ^ k)%nat) by (apply pairs_length_mul; lia).
    destruct (Nat.Even_or_Odd (length l2)) as [He2|Ho2].
    + rewrite <- (frozen_pairs (l1 ++ l2)), pairs_app by
        first [done | rewrite length_app; by apply Nat.Even_Even_add].
      rewrite IH by first [done | pose proof (even_length_pairs l2 He2); lia].
      by rewrite !frozen_pairs.
    + apply odd_snoc in Ho2 as (l3 & x & -> & He3).
      rewrite length_app in H2. simpl in H2.
      rewrite app_assoc, !frozen_odd by
        first [done | rewrite length_app; by apply Nat.Even_Even_add].
      rewrite pairs_app by done.
      rewrite IH by first [done | pose proof (even_length_pairs l3 He3); lia].
      by rewrite (frozen_pairs l1).
Qed.

(** *** One new subtree *)

Lemma land_pow2_zero n k m :
  0 ≤ k → n / 2 ^ k = m → (Z.land n (2 ^ k) =? 0) = Z.even m.
Proof.
  intros Hk <-. rewrite <- Z.negb_odd, <- Z.bit0_odd, <- Z.shiftr_div_pow2 by done.
  rewrite Z.shiftr_spec, Z.add_0_l by lia.
  apply eq_true_iff_eq. rewrite Z.eqb_eq, negb_true_iff. split; intros H.
  - apply (f_equal (λ z, Z.testbit z k)) in H.
    by rewrite Z.land_spec, Z.pow2_bits_true, andb_true_r, Z.bits_0 in H by done.
  - apply Z.bits_inj'. intros i Hi. rewrite Z.land_spec, Z.bits_0, Z.pow2_bits_eqb by done.
    destruct (Z.eqb_spec k i) as [->|]; [by rewrite H|apply andb_false_r].
Qed.

Lemma shiftl_mask k : 0 ≤ k < 63 → wrap64 (Z.shiftl (2 ^ k) 1) = 2 ^ (k + 1).
Proof.
  intros Hk. rewrite Z.shiftl_mul_pow2, Z.pow_1_r by lia. unfold wrap64.
  rewrite Z.pow_add_r, Z.pow_1_r by lia. apply Z.mod_small. split; [lia|].
  assert (2 ^ k < 2 ^ 63) by (apply Z.pow_lt_mono_r; lia). lia.
Qed.

(** Half-way through the merging: [m] subtrees of [2 ^ k] leaves are frozen
    and one more, with root [h], is added on the right. *)
Lemma combine_subtree_spec (l : list HashValue) h n k :
  0 ≤ k → n / 2 ^ k = Z.of_nat (length l) → 0 ≤ n < 2 ^ 63 →
  combine_subtree (frozen l) n (2 ^ k) h =
    Ok (frozen (l ++ [h]), 2 ^ (k + trailing_zeros (Z.of_nat (length l) + 1))).
Proof.
  revert h k. induction l as [|l Hne He IH|l y He IH] using level_ind; intros h k Hk Hn Hb.
  - simpl. rewrite (land_pow2_zero n k _ Hk Hn). simpl. by rewrite Z.add_0_r.
  - rewrite frozen_odd by done.
    assert (Hev : Z.even (Z.of_nat (length l)) = true).
    { rewrite (even_length_pairs l He), Nat2Z.inj_mul. apply Z.even_even. }
    destruct (frozen l) as [|f fr] eqn:Hfr; cbn [combine_subtree];
      rewrite (land_pow2_zero n k _ Hk Hn), Hev, frozen_pairs, Hfr by done;
      rewrite (even_length_pairs l He), Nat2Z.inj_mul, trailing_zeros_odd by lia;
      by rewrite Z.add_0_r.
  - rewrite length_app in *. simpl length in *.
    pose proof (even_length_pairs l He) as Hl.
    rewrite frozen_odd by done. cbn [combine_subtree].
    rewrite (land_pow2_zero n k _ Hk Hn).
    replace (Z.even _) with false by
      (rewrite Hl, Nat2Z.inj_add, Nat2Z.inj_mul; symmetry; apply Z.even_odd).
    assert (k < 63).
    { apply (Z.pow_lt_mono_r_iff 2); [lia..|].
      pose proof (Z.mul_div_le n (2 ^ k)). pose proof (Z.pow_pos_nonneg 2 k). nia. }
    rewrite shiftl_mask by lia. rewrite IH; [|lia| |lia].
    2:{ rewrite Z.pow_add_r, <- Z.div_div, Hn, Hl by lia.
        rewrite Nat2Z.inj_add, Nat2Z.inj_mul. change (2 ^ 1) with 2.
        symmetry. apply Z.div_unique with 1; lia. }
    rewrite <- app_assoc. simpl app.
    rewrite <- (frozen_pairs (l ++ [y; h])), pairs_snoc2 by
      first [done | rewrite length_app; apply Nat.Even_Even_add; [done|by exists 1%nat]].
    do 3 f_equal. rewrite Hl.
    replace (Z.of_nat (2 * _ + 1) + 1) with (2 * (Z.of_nat (length (pairs l)) + 1)) by lia.
    rewrite trailing_zeros_double by lia. lia.
Qed.
End levels.

(** ** Building every extension *)

Section complete.
Context `{MH : MerkleHasher}.

(** The parameters of the outer loop for [l] leaves: [size] is the size of the
    smallest frozen subtree. *)
Lemma smallest_subtree (l : list HashValue) :
  l ≠ [] →
  ∃ k m, 2 ^ trailing_zeros (Z.of_nat (length l)) = 2 ^ Z.of_nat k ∧
         trailing_zeros (Z.of_nat (length l)) = Z.of_nat k ∧
         length l = ((2 * m + 1) * 2 ^ k)%nat.
Proof.
  intros Hne. destruct (trailing_zeros_spec (Z.of_nat (length l))) as (m & Hm & Hl).
  { destruct l; [done|simpl; lia]. }
  pose proof (trailing_zeros_nonneg (Z.of_nat (length l))) as Hk.
  exists (Z.to_nat (trailing_zeros (Z.of_nat (length l)))), (Z.to_nat m).
  rewrite Z2Nat.id by done. split_and!; [done..|].
  apply Nat2Z.inj. rewrite Hl at 1.
  rewrite Nat2Z.inj_mul, Nat2Z.inj_pow, Z2Nat.id by done. f_equal. lia.
Qed.

Lemma initial_size (l : list HashValue) :
  l ≠ [] → Z.of_nat (length l) ≤ 2 ^ 63 →
  wrap64 (Z.shiftl 1 (trailing_zeros (Z.of_nat (length l)))) =
    2 ^ trailing_zeros (Z.of_nat (length l)).
Proof.
  intros Hne Hb. destruct (smallest_subtree l Hne) as (k & m & _ & Hk & Hl).
  rewrite Z.shiftl_1_l, Hk. apply Z.mod_small.
  assert (2 ^ Z.of_nat k ≤ Z.of_nat (length l)); [|lia].
  rewrite Hl, Nat2Z.inj_mul, Nat2Z.inj_pow. nia.
Qed.

(** Adding the complete subtree over [new], as large as the smallest frozen one. *)
Lemma combine_subtree_block (l new : list HashValue) k m :
  length l = (m * 2 ^ k)%nat → length new = (2 ^ k)%nat →
  Z.of_nat (length l) < 2 ^ 63 →
  ∃ h, up k new = [h] ∧
    combine_subtree (frozen l) (Z.of_nat (length l)) (2 ^ Z.of_nat k) h =
      Ok (frozen (l ++ new), 2 ^ trailing_zeros (Z.of_nat (length (l ++ new)))).
Proof.
  intros Hl Hn Hb.
  assert (Hu : length (up k new) = 1%nat) by (apply up_length; lia).
  destruct (up k new) as [|h [|]] eqn:Hup; try (simpl in Hu; lia).
  exists h. split; [done|].
  rewrite <- (frozen_up k m l) by done.
  rewrite combine_subtree_spec; [|lia| |lia].
  2:{ rewrite (up_length k m) by done. rewrite Hl, Nat2Z.inj_mul, Nat2Z.inj_pow.
      apply Z.div_mul. change (Z.of_nat 2) with 2. pose proof (Z.pow_pos_nonneg 2 (Z.of_nat k)). lia. }
  rewrite (up_length k m) by done. do 2 f_equal.
  - rewrite <- Hup, <- (up_app k m) by done. apply (frozen_up k (m + 1)).
    rewrite length_app. lia.
  - f_equal. rewrite length_app, Hl, Hn.
    replace (Z.of_nat (m * 2 ^ k + 2 ^ k)) with ((Z.of_nat m + 1) * 2 ^ Z.of_nat k).
    + rewrite trailing_zeros_mul_pow2 by lia. done.
    + rewrite Nat2Z.inj_add, Nat2Z.inj_mul, Nat2Z.inj_pow. change (Z.of_nat 2) with 2. lia.
Qed.

(** The subtrees that lead from the leaves [l] to [l ++ new]: blocks of the size of the
    smallest frozen subtree as long as they fit, then the frozen subtrees of the rest. *)
Inductive sibling_subtrees : list HashValue → list HashValue → list HashValue → Prop :=
| siblings_rest l new k m :
    length l = ((2 * m + 1) * 2 ^ k)%nat → (length new < 2 ^ k)%nat →
    sibling_subtrees l new (reverse (frozen new))
| siblings_block l b new k m h subtrees :
    length l = ((2 * m + 1) * 2 ^ k)%nat → length b = (2 ^ k)%nat → up k b = [h] →
    sibling_subtrees (l ++ b) new subtrees → sibling_subtrees l (b ++ new) (h :: subtrees).

Lemma sibling_subtrees_exist (new l : list HashValue) :
  l ≠ [] → ∃ subtrees, sibling_subtrees l new subtrees.
Proof.
  remember (length new) as n eqn:Hn. revert new Hn l.
  induction (lt_wf n) as [n _ IH]; intros new -> l Hne.
  destruct (smallest_subtree l Hne) as (k & m & _ & _ & Hl).
  destruct (decide (length new < 2 ^ k)%nat) as [Hlt|Hge]; [eexists; by econstructor|].
  assert (Hlb : length (take (2 ^ k) new) = (2 ^ k)%nat) by (apply length_take_le; lia).
  assert (H1 : length (up k (take (2 ^ k) new)) = 1%nat) by (apply up_length; lia).
  destruct (up k (take (2 ^ k) new)) as [|h [|]] eqn:Hup; try done.
  destruct (IH (length (drop (2 ^ k) new))) with (new := drop (2 ^ k) new) (l := l ++ take (2 ^ k) new)
    as (subs & Hsubs); [|done|by destruct l|].
  { rewrite length_drop. pose proof (Nat.pow_nonzero 2 k). lia. }
  exists (h :: subs). rewrite <- (take_drop (2 ^ k) new). by econstructor.
Qed.

Lemma trailing_zeros_odd_part m k :
  trailing_zeros (Z.of_nat ((2 * m + 1) * 2 ^ k)) = Z.of_nat k.
Proof.
  rewrite Nat2Z.inj_mul, Nat2Z.inj_pow, trailing_zeros_mul_pow2 by lia.
  replace (Z.of_nat (2 * m + 1)) with (2 * Z.of_nat m + 1) by lia.
  rewrite trailing_zeros_odd by lia. lia.
Qed.

Lemma append_subtrees_loop_accepts (l new subtrees : list HashValue) :
  sibling_subtrees l new subtrees → Z.of_nat (length l + length new) ≤ 2 ^ 63 →
  ∃ l1 l2, new = l1 ++ l2 ∧
    append_subtrees_loop subtrees (frozen l) (Z.of_nat (length l))
        (Z.of_nat (length new)) (2 ^ trailing_zeros (Z.of_nat (length l))) =
      Ok (frozen (l ++ l1), Z.of_nat (length (l ++ l1)), Z.of_nat (length l2),
          reverse (frozen l2)) ∧
    frozen (l ++ new) = frozen l2 ++ frozen (l ++ l1).
Proof.
  induction 1 as [l new k m Hl Hlt|l b new k m h subs Hl Hb Hup _ IH]; intros Hlen;
    rewrite Hl, trailing_zeros_odd_part, <- Hl;
    (assert (HZ : 2 ^ Z.of_nat k = Z.of_nat (2 ^ k)) by (by rewrite Nat2Z.inj_pow)).
  - exists [], new. split; [done|]. rewrite app_nil_r.
    split; [|by eapply frozen_app_small].
    destruct (reverse (frozen new)) eqn:Hr; cbn [append_subtrees_loop];
      rewrite HZ, (proj2 (Z.ltb_lt _ _)) by lia; done.
  - rewrite length_app in Hlen. destruct IH as (l1 & l2 & -> & Hrun & Hfr); [rewrite length_app; lia|].
    exists (b ++ l1), l2. rewrite <- !app_assoc in *. split; [done|].
    destruct (combine_subtree_block l b k (2 * m + 1)) as (h' & Hh' & Hcomb); [done..|lia|].
    rewrite Hup in Hh'. injection Hh' as <-.
    split; [|done]. cbn [append_subtrees_loop].
    rewrite HZ at 1. rewrite (proj2 (Z.ltb_ge _ _)) by (rewrite length_app; lia).
    rewrite Hcomb. simpl r_bind. rewrite <- Hrun. rewrite !length_app, Hb. unfold wrap64.
    rewrite Z.mod_small by lia. rewrite HZ. repeat f_equal; lia.
Qed.

Lemma append_subtrees_accepts acc l new subtrees :
  repr acc l → l ≠ [] → Z.of_nat (length l + length new) ≤ 2 ^ 63 →
  sibling_subtrees l new subtrees →
  ∃ acc', append_subtrees acc subtrees (Z.of_nat (length new)) = Ok acc' ∧ repr acc' (l ++ new).
Proof.
  intros [Hn Hf _] Hne Hb Hsib.
  destruct (append_subtrees_loop_accepts _ _ _ Hsib Hb) as (l1 & l2 & Hnew & Hrun & Hfr).
  destruct (InMemoryAccumulator_new_repr (l ++ new)) as (acc' & Hacc & Hrep).
  unfold append_subtrees. change MAX_ACCUMULATOR_LEAVES with (2 ^ 63). rewrite Hn.
  rewrite (proj2 (Z.leb_le _ _)) by (unfold wrap64; rewrite Z.mod_small; lia). simpl r_bind.
  rewrite (proj2 (Z.eqb_neq _ _)) by (destruct l; simpl; [done|lia]).
  exists acc'. split; [|done]. rewrite Hf, reverse_involutive.
  rewrite initial_size, Hrun by first [done|lia]. simpl r_bind. rewrite <- Hacc. f_equal.
  - rewrite Hfr, reverse_app. done.
  - unfold wrap64. rewrite Hnew, !length_app in *. rewrite Z.mod_small; lia.
Qed.

Lemma append_subtrees_to_empty acc new :
  repr acc [] → Z.of_nat (length new) ≤ 2 ^ 63 →
  ∃ acc', append_subtrees acc (reverse (frozen new)) (Z.of_nat (length new)) = Ok acc' ∧ repr acc' new.
Proof.
  intros [Hn _ _] Hb. destruct (InMemoryAccumulator_new_repr new) as (acc' & Hnew & Hrep).
  unfold append_subtrees. change MAX_ACCUMULATOR_LEAVES with (2 ^ 63). rewrite Hn. simpl Z.of_nat.
  rewrite (proj2 (Z.leb_le _ _)) by (unfold wrap64; rewrite Z.mod_small; lia).
  simpl r_bind. by exists acc'.
Qed.

Lemma append_subtrees_complete acc l new :
  repr acc l → Z.of_nat (length l + length new) ≤ MAX_ACCUMULATOR_LEAVES →
  ∃ subtrees acc', append_subtrees acc subtrees (Z.of_nat (length new)) = Ok acc' ∧
    repr acc' (l ++ new).
Proof.
  change MAX_ACCUMULATOR_LEAVES with (2 ^ 63). intros Hrep Hb.
  destruct (decide (l = [])) as [->|Hne].
  - destruct (append_subtrees_to_empty acc new Hrep Hb) as (acc' & ? & ?). eauto.
  - destruct (sibling_subtrees_exist new l Hne) as (subs & Hsub).
    destruct (append_subtrees_accepts acc l new subs) as (acc' & ? & ?); [done..|]. eauto.
Qed.
End complete.

(** ** A root hash fixes the leaves *)

Section sound.
Context `{MH : MerkleHasher} {MI : Inj2 (=) (=) (=) merkle_node}.

Lemma root_hash_loop_inj {E} p f1 f2 c1 c2 (h : HashValue) :
  Z.of_nat (length f1) = pos_count_ones p → Z.of_nat (length f2) = pos_count_ones p →
  root_hash_loop (E:=E) p f1 c1 = Ok h → root_hash_loop (E:=E) p f2 c2 = Ok h →
  f1 = f2 ∧ c1 = c2.
Proof using MI.
  revert f1 f2 c1 c2.
  induction p as [p IH|p IH|]; intros f1 f2 c1 c2 H1 H2 Hr1 Hr2; simpl in *.
  - destruct f1 as [|x1 f1], f2 as [|x2 f2]; simpl in *; try done.
    destruct (IH f1 f2 _ _ ltac:(lia) ltac:(lia) Hr1 Hr2) as [-> Hc].
    by apply (inj2 merkle_node) in Hc as [-> ->].
  - destruct (IH f1 f2 _ _ H1 H2 Hr1 Hr2) as [-> Hc].
    by apply (inj2 merkle_node) in Hc as [-> _].
  - destruct f1 as [|x1 [|]], f2 as [|x2 [|]]; simpl in *; try done; try lia.
    by simplify_eq.
Qed.

Lemma count_ones_shiftr_trailing n :
  0 < n → count_ones (Z.shiftr n (trailing_zeros n)) = count_ones n ∧
          0 < Z.shiftr n (trailing_zeros n).
Proof.
  destruct n as [|p|p]; try lia. intros _. simpl.
  induction p as [p IH|p IH|]; simpl; try done.
  pose proof (pos_trailing_zeros_nonneg p) as Hz.
  replace (Z.shiftr (Zpos p~0) (1 + pos_trailing_zeros p))
    with (Z.shiftr (Zpos p) (pos_trailing_zeros p)); [done|].
  rewrite <- Z.shiftr_shiftr by lia. f_equal.
Qed.

Lemma compute_root_hash_inj {E} f1 f2 n h :
  0 ≤ n → Z.of_nat (length f1) = count_ones n → Z.of_nat (length f2) = count_ones n →
  compute_root_hash (E:=E) f1 n = Ok h → compute_root_hash (E:=E) f2 n = Ok h → f1 = f2.
Proof using MI.
  intros Hn H1 H2 Hr1 Hr2. unfold compute_root_hash in *.
  destruct f1 as [|x1 [|y1 f1]], f2 as [|x2 [|y2 f2]]; simpl length in *; try lia; try congruence.
  assert (0 < n) by (destruct n; simpl in *; lia).
  destruct (count_ones_shiftr_trailing n) as [Hc Hp]; [done|].
  destruct (Z.shiftr n (trailing_zeros n)) as [|p|p]; try lia.
  apply (inj reverse).
  refine (proj1 (root_hash_loop_inj p _ _ _ _ h _ _ Hr1 Hr2));
    rewrite length_reverse; simpl length; simpl in Hc; lia.
Qed.

Lemma pairs_inj l1 l2 :
  Nat.Even (length l1) → length l1 = length l2 → pairs l1 = pairs l2 → l1 = l2.
Proof using MI.
  revert l2. induction l1 as [|a|a b l IH] using list_pair_ind; intros l2 He Hl Hp; simpl in *.
  - by destruct l2.
  - destruct He; lia.
  - destruct l2 as [|a' [|b' l2]]; simpl in *; try lia.
    injection Hp as [-> ->]%(inj2 merkle_node) Hp. do 2 f_equal.
    apply IH; [|lia|done]. destruct He as [k Hk]. exists (k - 1)%nat. lia.
Qed.

Lemma frozen_inj l1 l2 : length l1 = length l2 → frozen l1 = frozen l2 → l1 = l2.
Proof using MI.
  revert l2. induction l1 as [|l1 Hne He IH|l1 x He IH] using level_ind; intros l2 Hl Hf.
  - by destruct l2.
  - assert (He2 : Nat.Even (length l2)) by (by rewrite <- Hl).
    rewrite <- (frozen_pairs l1), <- (frozen_pairs l2) in Hf by done.
    apply pairs_inj; [done..|]. apply IH; [by rewrite !pairs_length, Hl|done].
  - destruct (odd_snoc l2) as (l2' & y & -> & He2).
    { rewrite <- Hl, length_app. destruct He as [k ->]. exists k. simpl. lia. }
    rewrite !length_app in Hl. simpl in Hl.
    rewrite !frozen_odd in Hf by done. injection Hf as -> Hf. f_equal.
    apply pairs_inj; [done|lia|]. apply IH; [|done]. rewrite !pairs_length. f_equal. lia.
Qed.

Lemma merkle_root_inj l1 l2 :
  length l1 = length l2 → merkle_root l1 = merkle_root l2 → l1 = l2.
Proof using MI.
  intros Hl Hr. apply frozen_inj; [done|]. apply (inj reverse).
  eapply (compute_root_hash_inj (E:=unit) _ _ (Z.of_nat (length l1)) (merkle_root l1)).
  - lia.
  - by rewrite length_reverse, frozen_length.
  - by rewrite length_reverse, frozen_length, Hl.
  - apply compute_root_hash_spec.
  - rewrite Hl, Hr. apply compute_root_hash_spec.
Qed.

(** *** Reading the prefix back *)

Lemma combine_subtree_inv (roots : list HashValue) n k h (l : list HashValue) mask :
  0 ≤ k → Z.of_nat (length l) = n / 2 ^ k + 1 → 0 ≤ n < 2 ^ 63 →
  combine_subtree roots n (2 ^ k) h = Ok (frozen l, mask) →
  ∃ l', l = l' ++ [h] ∧ roots = frozen l'.
Proof using MI.
  revert k h l. induction roots as [|f roots IH]; intros k h l Hk Hl Hn Hrun;
    cbn [combine_subtree] in Hrun; rewrite (land_pow2_zero n k _ Hk eq_refl) in Hrun;
    destruct (Z.even (n / 2 ^ k)) eqn:Hev; try done.
  1,2: destruct (odd_snoc l) as (l' & x & -> & He).
  1,3: apply Zeven_bool_iff, Zeven_equiv in Hev as [j Hj];
    exists (Z.to_nat j); pose proof (Z.div_pos n (2 ^ k)); lia.
  1,2: rewrite frozen_odd in Hrun by done; injection Hrun as -> Hrun _;
    exists l'; split; [done|]; rewrite Hrun; by apply frozen_pairs.
  assert (k < 63).
  { apply (Z.pow_lt_mono_r_iff 2); [lia..|].
    destruct (Z.lt_ge_cases n (2 ^ k)) as [Hlt|]; [|lia].
    rewrite Z.div_small in Hev by lia. done. }
  rewrite shiftl_mask in Hrun by lia.
  assert (Hodd : ∃ j, 0 ≤ j ∧ n / 2 ^ k = 2 * j + 1 ∧ n / 2 ^ (k + 1) = j).
  { exists (n / 2 ^ (k + 1)). rewrite Z.pow_add_r, <- Z.div_div by lia. change (2 ^ 1) with 2.
    pose proof (Z.div_mod (n / 2 ^ k) 2 ltac:(lia)) as Hdm. rewrite Zmod_even, Hev in Hdm.
    pose proof (Z.div_pos n (2 ^ k)). split_and!; lia. }
  destruct Hodd as (j & Hj0 & Hj & Hj').
  assert (He : Nat.Even (length l)) by (exists (Z.to_nat (j + 1)); lia).
  pose proof (even_length_pairs l He) as Hlp.
  rewrite <- frozen_pairs in Hrun by done.
  destruct (IH (k + 1) _ (pairs l) ltac:(lia) ltac:(rewrite Hj'; lia) Hn Hrun) as (q & Hq & ->).
  destruct (even_snoc2 l) as (l' & y & x & -> & He'); [intros ->; simpl in Hl; lia|done|].
  rewrite pairs_snoc2 in Hq by done.
  apply app_inj_tail in Hq as [<- [-> ->]%(inj2 merkle_node)].
  exists (l' ++ [f]). split; [by rewrite <- app_assoc|]. by rewrite frozen_odd.
Qed.

(** The block version: the roots before one more subtree of [2 ^ k] leaves. *)
Lemma combine_subtree_block_inv (roots l : list HashValue) n k m h mask :
  n = Z.of_nat (m * 2 ^ k) → n < 2 ^ 63 → length l = (m * 2 ^ k + 2 ^ k)%nat →
  combine_subtree roots n (2 ^ Z.of_nat k) h = Ok (frozen l, mask) →
  roots = frozen (take (m * 2 ^ k) l).
Proof using MI.
  intros Hn Hb Hl Hrun.
  assert (Ht : length (take (m * 2 ^ k) l) = (m * 2 ^ k)%nat) by (apply length_take_le; lia).
  rewrite <- (frozen_up k (m + 1) l) in Hrun by lia.
  apply combine_subtree_inv in Hrun as (l' & Hup & ->); [|lia| |lia].
  2:{ rewrite (up_length k (m + 1)), Hn, Nat2Z.inj_mul, Nat2Z.inj_pow by lia.
      change (Z.of_nat 2) with 2.
      rewrite Z.div_mul by (pose proof (Z.pow_pos_nonneg 2 (Z.of_nat k)); lia). lia. }
  rewrite <- (take_drop (m * 2 ^ k) l), (up_app k m) in Hup by done.
  rewrite <- (frozen_up k m (take _ _)) by done. f_equal.
  assert (Hd : length (up k (drop (m * 2 ^ k) l)) = 1%nat).
  { apply up_length. rewrite length_drop. lia. }
  destruct (up k (drop (m * 2 ^ k) l)) as [|d [|]]; simpl in Hd; try lia.
  by apply app_inj_tail in Hup as [-> _].
Qed.

(** What one combination does to the number of roots and to the mask. *)
Lemma combine_subtree_shape (roots : list HashValue) n k h roots' mask :
  0 ≤ k → 0 ≤ n < 2 ^ 63 → combine_subtree roots n (2 ^ k) h = Ok (roots', mask) →
  mask = 2 ^ (k + trailing_zeros (n / 2 ^ k + 1)) ∧
  Z.of_nat (length roots') + count_ones (n / 2 ^ k) =
    Z.of_nat (length roots) + count_ones (n / 2 ^ k + 1).
Proof.
  revert k h. induction roots as [|f roots IH]; intros k h Hk Hn Hrun;
    cbn [combine_subtree] in Hrun; rewrite (land_pow2_zero n k _ Hk eq_refl) in Hrun;
    pose proof (Z.div_pos n (2 ^ k) ltac:(lia) ltac:(apply Z.pow_pos_nonneg; lia)) as Hp;
    pose proof (Z.div_mod (n / 2 ^ k) 2 ltac:(lia)) as Hdm; rewrite Zmod_even in Hdm;
    destruct (Z.even (n / 2 ^ k)) eqn:Hev; try done.
  1,2: rewrite Z.add_0_r in Hdm; injection Hrun as <- <-; rewrite Hdm;
    rewrite trailing_zeros_odd, count_ones_double, count_ones_succ_double by lia;
    simpl length; rewrite Z.add_0_r; split; [done|lia].
  assert (k < 63).
  { apply (Z.pow_lt_mono_r_iff 2); [lia..|].
    destruct (Z.lt_ge_cases n (2 ^ k)) as [Hlt|]; [|lia].
    rewrite Z.div_small in Hev by lia. done. }
  rewrite shiftl_mask in Hrun by lia.
  destruct (IH (k + 1) _ ltac:(lia) Hn Hrun) as [-> Hc]. clear Hrun IH.
  replace (n / 2 ^ (k + 1)) with (n / 2 ^ k / 2) in * by
    (rewrite Z.pow_add_r, <- Z.div_div by lia; done).
  set (j := n / 2 ^ k / 2) in *. rewrite Hdm.
  replace (2 * j + 1 + 1) with (2 * (j + 1)) by lia.
  rewrite trailing_zeros_double, count_ones_double, count_ones_succ_double by lia.
  simpl length. split; [f_equal; lia|lia].
Qed.

Lemma odd_part n :
  0 < n → ∃ k m, trailing_zeros n = Z.of_nat k ∧ Z.to_nat n = ((2 * m + 1) * 2 ^ k)%nat.
Proof.
  intros Hn. destruct (smallest_subtree (replicate (Z.to_nat n) 0)) as (k & m & _ & Hk & Hl).
  - intros H. apply (f_equal length) in H. rewrite length_replicate in H. simpl in H. lia.
  - rewrite length_replicate, Z2Nat.id in * by lia. eauto.
Qed.

Lemma loop_exit_inv (subs roots l : list HashValue) n r :
  0 < n → 0 ≤ r < 2 ^ trailing_zeros n →
  Z.of_nat (length roots) = count_ones n → Z.of_nat (length l) = n + r →
  reverse roots ++ subs = reverse (frozen l) → roots = frozen (take (Z.to_nat n) l).
Proof.
  intros Hn Hr Hlen Hl Hfin. destruct (odd_part n Hn) as (k & m & Hk & Hm).
  assert (Ht : length (take (Z.to_nat n) l) = Z.to_nat n) by (apply length_take_le; lia).
  rewrite <- (take_drop (Z.to_nat n) l) in Hfin.
  rewrite (frozen_app_small k (2 * m + 1)) in Hfin.
  - rewrite reverse_app in Hfin. apply app_inj_1 in Hfin as [Hfin _].
    + by apply (inj reverse).
    + apply Nat2Z.inj. rewrite !length_reverse, frozen_length, Ht, Z2Nat.id by lia. done.
  - by rewrite Ht.
  - rewrite length_drop. apply Nat2Z.inj_lt. rewrite Nat2Z.inj_pow, <- Hk.
    change (Z.of_nat 2) with 2. lia.
Qed.

Lemma append_subtrees_loop_inv (subs roots l : list HashValue) n r size roots' n' r' rest :
  0 < n → size = 2 ^ trailing_zeros n → 0 ≤ r → n + r ≤ 2 ^ 63 →
  Z.of_nat (length roots) = count_ones n → Z.of_nat (length l) = n + r →
  append_subtrees_loop subs roots n r size = Ok (roots', n', r', rest) →
  reverse roots' ++ rest = reverse (frozen l) →
  roots = frozen (take (Z.to_nat n) l).
Proof using MI.
  revert roots n r size. induction subs as [|h subs IH];
    intros roots n r size Hn -> Hr Hb Hlen Hl Hrun Hfin; cbn [append_subtrees_loop] in Hrun;
    destruct (Z.ltb_spec r (2 ^ trailing_zeros n)) as [Hlt|Hge]; try done;
    [injection Hrun as <- <- <- <-; by eapply loop_exit_inv..|].
  apply r_bind_ok in Hrun as ([roots1 mask] & Hcomb & Hrun).
  destruct (odd_part n Hn) as (k & m & Hk & Hm). rewrite Hk in *.
  assert (HZ : 2 ^ Z.of_nat k = Z.of_nat (2 ^ k)) by (by rewrite Nat2Z.inj_pow).
  assert (Hpos : 0 < 2 ^ Z.of_nat k) by (apply Z.pow_pos_nonneg; lia).
  assert (Hdiv : n = Z.of_nat (2 * m + 1) * 2 ^ Z.of_nat k).
  { rewrite HZ, <- Nat2Z.inj_mul, <- Hm, Z2Nat.id by lia. done. }
  assert (Hdiv' : n / 2 ^ Z.of_nat k = Z.of_nat (2 * m + 1)).
  { rewrite Hdiv. apply Z.div_mul. lia. }
  destruct (combine_subtree_shape roots n (Z.of_nat k) h roots1 mask) as [Hmask Hlen1];
    [lia..|done|].
  assert (Hn1 : n + 2 ^ Z.of_nat k = (n / 2 ^ Z.of_nat k + 1) * 2 ^ Z.of_nat k) by
    (rewrite Hdiv', Hdiv; lia).
  assert (Htz : mask = 2 ^ trailing_zeros (n + 2 ^ Z.of_nat k)).
  { rewrite Hn1, trailing_zeros_mul_pow2 by lia. done. }
  pose proof (λ x, count_ones_mul_pow2 x k) as Hcnt.
  assert (Hroots1 : roots1 = frozen (take (Z.to_nat (n + 2 ^ Z.of_nat k)) l)).
  { unfold wrap64 in Hrun. rewrite Z.mod_small in Hrun by lia.
    eapply IH; [| exact Htz | | | | | exact Hrun | exact Hfin]; try lia.
    rewrite Hn1, Hcnt by lia. rewrite Hdiv, Hcnt in Hlen by lia. rewrite Hdiv' in *. lia. }
  rewrite Hroots1 in Hcomb.
  apply (combine_subtree_block_inv roots _ n k (2 * m + 1)) in Hcomb.
  - rewrite Hcomb, take_take. do 2 f_equal. lia.
  - lia.
  - lia.
  - rewrite length_take_le by lia. lia.
Qed.

Lemma append_subtrees_loop_sum (subs roots : list HashValue) n r size roots' n' r' rest :
  0 ≤ n → 0 ≤ r → n + r ≤ 2 ^ 63 → 0 ≤ size →
  (∀ h roots n k mask roots', combine_subtree roots n k h = Ok (roots', mask) → 0 ≤ k → 0 ≤ mask) →
  append_subtrees_loop subs roots n r size = Ok (roots', n', r', rest) → n' + r' = n + r.
Proof.
  revert roots n r size. induction subs as [|h subs IH];
    intros roots n r size Hn Hr Hb Hs Hmask Hrun; cbn [append_subtrees_loop] in Hrun;
    destruct (Z.ltb_spec r size); try done; [by injection Hrun as <- <- <- <-..|].
  apply r_bind_ok in Hrun as ([roots1 mask] & Hc & Hrun).
  unfold wrap64 in Hrun. rewrite Z.mod_small in Hrun by lia.
  apply IH in Hrun; eauto; lia.
Qed.

Lemma combine_subtree_mask_nonneg h roots n k mask roots' :
  combine_subtree roots n k h = Ok (roots', mask) → 0 ≤ k → 0 ≤ mask.
Proof.
  revert k h. induction roots as [|f roots IH]; intros k h Hrun Hk; cbn [combine_subtree] in Hrun;
    destruct (_ =? 0); simplify_eq; try done.
  eapply IH; [done|]. apply Z.mod_pos_bound. lia.
Qed.

Lemma InMemoryAccumulator_new_root_inj fr n acc l :
  InMemoryAccumulator_new fr n = Ok acc → n = Z.of_nat (length l) →
  root_hash acc = merkle_root l → repr acc l ∧ fr = reverse (frozen l).
Proof using MI.
  intros Hnew -> Hroot. unfold InMemoryAccumulator_new in Hnew. r_inv Hnew. simpl in *.
  apply Z.eqb_eq in Hs. subst.
  enough (fr = reverse (frozen l)) as -> by (split; [by constructor|done]).
  eapply compute_root_hash_inj; [| done | | done | apply compute_root_hash_spec]; [lia|].
  by rewrite length_reverse, frozen_length.
Qed.

(** An accumulator extended to the root of the leaves [l'] stood for a prefix
    of them. *)
Lemma append_subtrees_sound acc l subs n acc' l' :
  repr acc l → Z.of_nat (length l) ≤ MAX_ACCUMULATOR_LEAVES → 0 ≤ n →
  append_subtrees acc subs n = Ok acc' →
  Z.of_nat (length l') = Z.of_nat (length l) + n → root_hash acc' = merkle_root l' →
  l `prefix_of` l' ∧ repr acc' l'.
Proof using MI.
  intros [Hnum Hfr Hrt] Hb Hn Hrun Hl' Hroot. change MAX_ACCUMULATOR_LEAVES with (2 ^ 63) in *.
  unfold append_subtrees in Hrun. change MAX_ACCUMULATOR_LEAVES with (2 ^ 63) in *.
  apply r_bind_ok in Hrun as ([] & Hens & Hrun).
  apply ensure_ok, Z.leb_le in Hens. rewrite Hnum in *.
  unfold wrap64 in Hens. rewrite Z.mod_small in Hens by lia.
  destruct (Z.eqb_spec (Z.of_nat (length l)) 0) as [H0|H0].
  - destruct l; [|simpl in H0; lia]. split; [apply prefix_nil|].
    eapply InMemoryAccumulator_new_root_inj; [done|simpl in *; lia|done].
  - apply r_bind_ok in Hrun as ([[[roots n1] r1] rest] & Hloop & Hrun).
    rewrite Hfr, reverse_involutive in Hloop.
    rewrite initial_size in Hloop by first [by intros ->|lia].
    pose proof Hloop as Hsum. apply append_subtrees_loop_sum in Hsum;
      [|lia..|apply Z.pow_nonneg; lia|exact combine_subtree_mask_nonneg].
    unfold wrap64 in Hrun. rewrite Z.mod_small in Hrun by lia.
    apply InMemoryAccumulator_new_root_inj with (l := l') in Hrun as [Hrep Hfin]; [|lia|done].
    split; [|done].
    apply append_subtrees_loop_inv with (l := l') in Hloop; try done; try lia.
    + rewrite Nat2Z.id in Hloop. apply frozen_inj in Hloop; [|rewrite length_take_le; lia].
      rewrite Hloop. apply prefix_take.
    + by rewrite frozen_length.
Qed.

(** *** Reading appended leaves back *)

Lemma merge_last_two_inv f r :
  merge_last_two (reverse f) = Ok r →
  ∃ a b f', f = a :: b :: f' ∧ r = reverse (merkle_node b a :: f').
Proof.
  destruct f as [|a [|b f']].
  - done.
  - unfold merge_last_two. rewrite vec_pop_reverse. done.
  - rewrite merge_last_two_reverse. intros [= <-]. eauto.
Qed.

Lemma merges_inv (l : list HashValue) f x start :
  l ≠ [] →
  r_fold (λ frozen _, merge_last_two frozen)
    (seq start (Z.to_nat (trailing_zeros (Z.of_nat (length l))))) (reverse (x :: f))
  = Ok (reverse (frozen l)) →
  ∃ l0, l = l0 ++ [x] ∧ f = frozen l0.
Proof using MI.
  revert f x start.
  induction l as [|l Hne He IH|l y He IH] using level_ind; intros f x start Hl Hrun.
  - done.
  - destruct (even_nonempty l Hne He) as [_ Hp].
    rewrite (even_length_pairs l He), Nat2Z.inj_mul in Hrun. change (Z.of_nat 2) with 2 in Hrun.
    rewrite trailing_zeros_double in Hrun by lia.
    rewrite Z2Nat.inj_add in Hrun by (try apply trailing_zeros_nonneg; lia).
    change (Z.to_nat 1) with 1%nat in Hrun. simpl seq in Hrun. cbn [r_fold] in Hrun.
    apply r_bind_ok in Hrun as (r & Hm & Hrun).
    apply merge_last_two_inv in Hm as (a & b & f' & [= -> ->] & ->).
    rewrite (frozen_even l) in Hrun by done.
    destruct (IH f' _ _ ltac:(intros H0; rewrite H0 in Hp; simpl in Hp; lia) Hrun) as (q & Hq & ->).
    destruct (even_snoc2 l Hne He) as (l' & y & z & -> & He').
    rewrite pairs_snoc2 in Hq by done.
    apply app_inj_tail in Hq as [<- [-> ->]%(inj2 merkle_node)].
    exists (l' ++ [b]). split; [by rewrite <- app_assoc|]. by rewrite frozen_odd.
  - rewrite length_app, (even_length_pairs l He) in Hrun. simpl length in Hrun.
    rewrite Nat2Z.inj_add, Nat2Z.inj_mul in Hrun. change (Z.of_nat 2) with 2 in Hrun.
    change (Z.of_nat 1) with 1 in Hrun. rewrite trailing_zeros_odd in Hrun by lia.
    cbn [seq Z.to_nat r_fold] in Hrun. injection Hrun as Hrun%(inj reverse).
    rewrite frozen_odd in Hrun by done. injection Hrun as -> ->.
    exists l. split; [done|]. by apply frozen_pairs.
Qed.

Lemma append_fold_inv leaves (l : list HashValue) fr n :
  0 ≤ n → n + Z.of_nat (length leaves) = Z.of_nat (length l) → Z.of_nat (length l) ≤ u64_max →
  r_fold (λ '(frozen, n) leaf,
      let? frozen := append_one frozen n leaf in Ok (frozen, wrap64 (n + 1)))
    leaves (fr, n) = Ok (reverse (frozen l), Z.of_nat (length l)) →
  ∃ l0, l = l0 ++ leaves ∧ fr = reverse (frozen l0).
Proof using MI.
  revert fr n. induction leaves as [|x leaves IH]; intros fr n Hn Hlen Hb Hrun; simpl in Hrun.
  - injection Hrun as -> _. exists l. by rewrite app_nil_r.
  - apply r_bind_ok in Hrun as ([fr1 n1] & H1 & Hrun).
    apply r_bind_ok in H1 as (fr1' & Happ & [= <- <-]). simpl in Hlen. unfold u64_max in *.
    unfold wrap64 in Hrun. rewrite Z.mod_small in Hrun by lia.
    apply IH in Hrun as (l1 & -> & ->); [|lia..].
    rewrite length_app in Hlen.
    unfold append_one in Happ.
    rewrite trailing_ones_spec in Happ by (unfold u64_max; rewrite length_app in Hb; lia).
    rewrite <- (reverse_involutive fr), <- reverse_cons in Happ.
    replace (n + 1) with (Z.of_nat (length l1)) in Happ by lia.
    apply merges_inv in Happ as (l0 & -> & Hf).
    + exists l0. rewrite <- app_assoc. split; [done|]. by rewrite <- Hf, reverse_involutive.
    + intros ->. simpl in Hlen. lia.
Qed.

(** Leaves appended to unknown frozen subtrees end in a known root only if they
    are the last leaves under that root. *)
Lemma append_root_inv fr n acc leaves acc' (l : list HashValue) :
  0 ≤ n → n + Z.of_nat (length leaves) = Z.of_nat (length l) → Z.of_nat (length l) ≤ u64_max →
  InMemoryAccumulator_new fr n = Ok acc → append acc leaves = Ok acc' →
  root_hash acc' = merkle_root l → ∃ l0, l = l0 ++ leaves ∧ fr = reverse (frozen l0).
Proof using MI.
  intros Hn Hlen Hb Hnew Happ Hroot.
  unfold InMemoryAccumulator_new in Hnew. r_inv Hnew.
  unfold append in Happ. cbn [frozen_subtree_roots num_leaves] in Happ.
  apply r_bind_ok in Happ as ([fr' n'] & Hfold & Happ).
  destruct (InMemoryAccumulator_new fr' n') as [acc1| |] eqn:Hnew'; try done.
  injection Happ as ->.
  assert (Hn' : n' = Z.of_nat (length l)).
  { clear Hnew' Hroot Hs Hs0. rewrite <- Hlen in Hb |- *. clear Hlen.
    revert fr n Hn Hb Hfold. induction leaves as [|x leaves IH]; intros fr n Hn Hb Hfold; simpl in Hfold.
    - injection Hfold as _ ->. simpl. lia.
    - apply r_bind_ok in Hfold as ([fr1 n1] & H1 & Hfold).
      apply r_bind_ok in H1 as (fr1' & _ & [= <- <-]). simpl in Hb |- *. unfold u64_max in Hb.
      unfold wrap64 in Hfold. rewrite Z.mod_small in Hfold by lia.
      apply IH in Hfold; unfold u64_max; lia. }
  apply InMemoryAccumulator_new_root_inj with (l := l) in Hnew' as [_ ->]; [|done..].
  rewrite Hn' in Hfold. by eapply append_fold_inv.
Qed.
End sound.
