(* ===== verification/Position.v ===== *)
(** * Position: in-order numbering of the nodes of an accumulator

    Models src/types/src/proof/position/mod.rs.  A [Position] is the in-order
    sequence number of a node; every operation is the source's bit manipulation
    on [u64].  The theorems give each operation in the coordinates (level,
    position within the level): the node [q] of level [k] has number
    [(2 q + 1) 2^k - 1]. *)

From S2P Require Import Prelude Bits Crypto Accumulator.

Abbreviation Position := Z (only parsing).

Inductive NodeDirection := Left | Right.

(** [1 << n] and [x << n] on [u64] with [n < 64]. *)
Definition shl64 (x n : Z) : Z := wrap64 (Z.shiftl x n).

(** ** Bit helpers *)

Definition isolate_rightmost_zero_bit (v : Z) : Z := Z.land (not64 v) (wrap64 (v + 1)).

Definition smear_ones_for_u64 (v : Z) : Z :=
  let n := v in
  let n := Z.lor n (Z.shiftr n 1) in
  let n := Z.lor n (Z.shiftr n 2) in
  let n := Z.lor n (Z.shiftr n 4) in
  let n := Z.lor n (Z.shiftr n 8) in
  let n := Z.lor n (Z.shiftr n 16) in
  Z.lor n (Z.shiftr n 32).

Definition turn_off_right_most_n_bits (v n : Z) : Z := shl64 (Z.shiftr v n) n.

(** ** Nodes *)

Definition level (p : Position) : Z := trailing_zeros (not64 p).

Definition is_leaf (p : Position) : bool := Z.land p 1 =? 0.

Definition from_level_and_pos (level pos : Z) : Position :=
  let level_one_bits := wrap64 (shl64 1 level - 1) in
  let shifted_pos := if level =? 63 then 0 else shl64 pos (level + 1) in
  Z.lor shifted_pos level_one_bits.

Definition from_leaf_index (leaf_index : Z) : Position := from_level_and_pos 0 leaf_index.

Definition parent (p : Position) : Position :=
  Z.land (Z.lor p (isolate_rightmost_zero_bit p))
    (not64 (shl64 (isolate_rightmost_zero_bit p) 1)).

(** [checked_precondition!] is an assertion. *)
Definition child {E} (p : Position) (dir : NodeDirection) : Result E Position :=
  if is_leaf p then Panic "!self.is_leaf()"
  else
    let direction_bit :=
      match dir with Left => 0 | Right => isolate_rightmost_zero_bit p end in
    Ok (Z.land (Z.lor p direction_bit) (not64 (Z.shiftr (isolate_rightmost_zero_bit p) 1))).

Definition left_child {E} (p : Position) : Result E Position := child p Left.
Definition right_child {E} (p : Position) : Result E Position := child p Right.

Definition is_left_child (p : Position) : bool :=
  Z.land p (shl64 (isolate_rightmost_zero_bit p) 1) =? 0.
Definition is_right_child (p : Position) : bool := negb (is_left_child p).

Definition sibling (p : Position) : Position :=
  Z.lxor p (shl64 (isolate_rightmost_zero_bit p) 1).

Definition root_from_leaf_index (leaf_index : Z) : Position :=
  Z.shiftr (smear_ones_for_u64 (from_leaf_index leaf_index)) 1.

Definition root_from_leaf_count {E} (leaf_count : Z) : Result E Position :=
  if 0 <? leaf_count then Ok (root_from_leaf_index (leaf_count - 1))
  else Panic "leaf_count > 0".

Definition root_level_from_leaf_count {E} (leaf_count : Z) : Result E Z :=
  if 0 <? leaf_count
  then Ok (MAX_ACCUMULATOR_PROOF_DEPTH + 1 - leading_zeros (leaf_count - 1))
  else Panic "leaf_count > 0".

Definition right_most_child (p : Position) : Position :=
  wrap64 (wrap64 (p + shl64 1 (level p)) - 1).
Definition left_most_child (p : Position) : Position :=
  turn_off_right_most_n_bits p (level p).

Definition is_freezable (p : Position) (leaf_index : Z) : bool :=
  right_most_child p <=? from_leaf_index leaf_index.

Definition is_placeholder (p : Position) (leaf_index : Z) : bool :=
  let leaf := from_leaf_index leaf_index in
  if p <=? leaf then false
  else if left_most_child p <=? leaf then false
  else true.

(** ** Iterators: [next] returns the item and the new state *)

(** [AncestorSiblingIterator] and [AncestorIterator]; the state is the position. *)
Definition AncestorSiblingIterator_next (p : Position) : Position * Position :=
  (sibling p, parent p).
Definition AncestorIterator_next (p : Position) : Position * Position :=
  (p, parent p).

Record FrozenSubTreeIterator := mkFrozenSubTreeIterator {
  fst_bitmap : Z;
  fst_seen_leaves : Z;
}.

Definition FrozenSubTreeIterator_new (num_leaves : Z) : FrozenSubTreeIterator :=
  mkFrozenSubTreeIterator num_leaves 0.

Definition FrozenSubTreeIterator_next (it : FrozenSubTreeIterator)
    : option (Position * FrozenSubTreeIterator) :=
  if fst_bitmap it =? 0 then None
  else
    let root_offset := Z.shiftr (smear_ones_for_u64 (fst_bitmap it)) 1 in
    let num_leaves := wrap64 (root_offset + 1) in
    let leftmost_leaf := from_leaf_index (fst_seen_leaves it) in
    let root := wrap64 (leftmost_leaf + root_offset) in
    Some (root, mkFrozenSubTreeIterator
                  (Z.land (fst_bitmap it) (not64 num_leaves))
                  (wrap64 (fst_seen_leaves it + num_leaves))).

Record FrozenSubtreeSiblingIterator := mkFrozenSubtreeSiblingIterator {
  fss_current_num_leaves : Z;
  fss_remaining_new_leaves : Z;
}.

Definition FrozenSubtreeSiblingIterator_new {E} (current_num_leaves new_num_leaves : Z)
    : Result E FrozenSubtreeSiblingIterator :=
  if negb (new_num_leaves <=? MAX_ACCUMULATOR_LEAVES)
  then Panic "An accumulator can have at most 2^63 leaves."
  else if negb (current_num_leaves <=? new_num_leaves)
  then Panic "Number of leaves needs to be increasing"
  else Ok (mkFrozenSubtreeSiblingIterator current_num_leaves
             (new_num_leaves - current_num_leaves)).

Definition next_new_leaf_batch (it : FrozenSubtreeSiblingIterator) : Z :=
  shl64 1 (MAX_ACCUMULATOR_PROOF_DEPTH - leading_zeros (fss_remaining_new_leaves it)).

Definition next_subtree_leaves (it : FrozenSubtreeSiblingIterator) : Z :=
  if 0 <? fss_current_num_leaves it then
    let rightmost := shl64 1 (trailing_zeros (fss_current_num_leaves it)) in
    if rightmost <=? fss_remaining_new_leaves it then rightmost
    else next_new_leaf_batch it
  else next_new_leaf_batch it.

Definition FrozenSubtreeSiblingIterator_next (it : FrozenSubtreeSiblingIterator)
    : option (Position * FrozenSubtreeSiblingIterator) :=
  if fss_remaining_new_leaves it =? 0 then None
  else
    let n := next_subtree_leaves it in
    let first_leaf_index := fss_current_num_leaves it in
    let last_leaf_index := wrap64 (first_leaf_index + n - 1) in
    Some (wrap64 (first_leaf_index + last_leaf_index),
          mkFrozenSubtreeSiblingIterator
            (wrap64 (fss_current_num_leaves it + n))
            (wrap64 (fss_remaining_new_leaves it - n))).

(** ** Post-order numbering *)

Definition children_of_node (node : Z) : Z :=
  wrap64 (shl64 (isolate_rightmost_zero_bit node) 1 - 2).

Definition nodes_to_left_of (node : Z) : Z :=
  let ones_up_to_level := wrap64 (isolate_rightmost_zero_bit node - 1) in
  let unset_level_zeros := Z.lxor node ones_up_to_level in
  wrap64 (unset_level_zeros - count_ones unset_level_zeros).

Definition inorder_to_postorder (node : Z) : Z :=
  wrap64 (children_of_node node + nodes_to_left_of node).

(** One iteration of the loop of [postorder_to_inorder]. *)
Definition postorder_step (st : Z * Z * Z) (i : nat) : Z * Z * Z :=
  let '(node, full_binary_size, bitmap) := st in
  let '(node, bitmap) :=
    if full_binary_size <=? node
    then (node - full_binary_size, Z.lor bitmap (shl64 1 (Z.of_nat i)))
    else (node, bitmap) in
  (node, Z.shiftr full_binary_size 1, bitmap).

Definition postorder_to_inorder (node : Z) : Z :=
  let '(node, _, bitmap) :=
    foldl postorder_step (node, u64_max, 0) (reverse (seq 0 64)) in
  let level := node mod 2 ^ 32 in
  let pos := Z.shiftr bitmap level in
  from_level_and_pos level pos.

Definition from_postorder_index (index : Z) : AnyResult Position :=
  ensure (index <? u64_max) "node index is invalid (equal to 2^64 - 1)" ;?
  Ok (postorder_to_inorder index).

Definition to_postorder_index (p : Position) : Z := inorder_to_postorder p.
