(* ===== verification/PositionFacts.v ===== *)
(** * PositionFacts: positions in the coordinates (level, index in the level)

    Every operation of Position.v computed in the coordinates of the tree, the
    laws of the navigation (parent of a child, siblings share their parent, ...)
    and the two conversions between in-order and post-order numbers. *)

From S2P Require Import Prelude Bits Crypto Accumulator Position.

(** The in-order number of the node with [q] nodes to its left on level [k]. *)
Definition node_at (k q : Z) : Position := q * 2 ^ (k + 1) + (2 ^ k - 1).

(** The nodes a [u64] can number: the tree of [2 ^ 63] leaves. *)
Definition in_tree (k q : Z) : Prop := 0 ≤ k ≤ 63 ∧ 0 ≤ q < 2 ^ (63 - k).

Lemma node_at_leaf i : node_at 0 i = 2 * i.
Proof. unfold node_at. simpl. lia. Qed.

Lemma node_at_succ k q : 0 ≤ k → node_at k q + 1 = (2 * q + 1) * 2 ^ k.
Proof. intros. unfold node_at. rewrite Z.pow_add_r by lia. lia. Qed.

Lemma pow2_split k : 0 ≤ k ≤ 63 → 2 ^ (63 - k) * 2 ^ k = 2 ^ 63.
Proof. intros. rewrite <- Z.pow_add_r by lia. f_equal. lia. Qed.

Lemma node_at_bound k q : in_tree k q → 0 ≤ node_at k q < u64_max.
Proof.
  intros [Hk Hq]. unfold node_at, u64_max. rewrite Z.pow_add_r by lia.
  pose proof (pow2_split k Hk). pose proof (Z.pow_pos_nonneg 2 k).
  change (2 ^ 64) with (2 * 2 ^ 63). change (2 ^ 1) with 2. nia.
Qed.

(** Every number but [u64::MAX] is the number of one node. *)
Lemma node_at_surj p : 0 ≤ p < u64_max → ∃ k q, in_tree k q ∧ p = node_at k q.
Proof.
  intros Hp. destruct (trailing_zeros_spec (p + 1)) as (q & Hq & Hpq); [lia|].
  pose proof (trailing_zeros_nonneg (p + 1)) as Hk.
  set (k := trailing_zeros (p + 1)) in *.
  assert (2 ^ k < 2 ^ 64) by (unfold u64_max in Hp; pose proof (Z.pow_pos_nonneg 2 k); nia).
  assert (Hk' : k < 64) by (by apply (Z.pow_lt_mono_r_iff 2)).
  exists k, q. split; [split; [lia|]|].
  - split; [done|]. pose proof (pow2_split k ltac:(lia)). unfold u64_max in Hp.
    change (2 ^ 64) with (2 * 2 ^ 63) in Hp. pose proof (Z.pow_pos_nonneg 2 k). nia.
  - pose proof (node_at_succ k q Hk). lia.
Qed.

(** *** Bits *)

Lemma testbit_node_at k q i :
  0 ≤ k → 0 ≤ q → 0 ≤ i →
  Z.testbit (node_at k q) i =
    if i <? k then true else if i =? k then false else Z.testbit q (i - (k + 1)).
Proof.
  intros Hk Hq Hi. unfold node_at.
  assert (Hadd : q * 2 ^ (k + 1) + (2 ^ k - 1) = Z.lor (Z.shiftl q (k + 1)) (Z.ones k)).
  { rewrite Z.ones_equiv, <- Z.sub_1_r, Z.shiftl_mul_pow2 by lia.
    rewrite <- Z.lxor_lor, Z.add_nocarry_lxor; [done|..];
    apply Z.bits_inj'; intros j Hj; rewrite Z.land_spec, Z.bits_0, <- Z.shiftl_mul_pow2 by lia;
    rewrite Z.shiftl_spec by lia;
    replace (2 ^ k - 1) with (Z.ones k) by (rewrite Z.ones_equiv; lia);
    rewrite Z.testbit_ones_nonneg by lia;
    destruct (Z.ltb_spec j k); rewrite ?andb_false_r, ?andb_true_r; try done;
    apply Z.testbit_neg_r; lia. }
  rewrite Hadd, Z.lor_spec, Z.shiftl_spec, Z.testbit_ones_nonneg by lia.
  destruct (Z.ltb_spec i k); [by rewrite orb_true_r|]. rewrite orb_false_r.
  destruct (Z.eqb_spec i k); [|done]. apply Z.testbit_neg_r. lia.
Qed.

Lemma testbit_u64 x i : 0 ≤ x < 2 ^ 64 → 64 ≤ i → Z.testbit x i = false.
Proof.
  intros Hx Hi. destruct (decide (x = 0)) as [->|]; [apply Z.bits_0|].
  apply Z.bits_above_log2; [lia|]. apply Z.log2_lt_pow2; [lia|].
  pose proof (Z.pow_le_mono_r 2 64 i). lia.
Qed.

Lemma testbit_not64 x i :
  0 ≤ x < 2 ^ 64 → 0 ≤ i → Z.testbit (not64 x) i = (i <? 64) && negb (Z.testbit x i).
Proof.
  intros Hx Hi. unfold not64, u64_max.
  assert (Heq : 2 ^ 64 - 1 - x = Z.land (Z.lnot x) (Z.ones 64)).
  { rewrite Z.land_ones by lia. unfold Z.lnot. symmetry.
    rewrite <- (Z_mod_plus_full _ 1). rewrite Z.mod_small; lia. }
  rewrite Heq, Z.land_spec, Z.lnot_spec, Z.testbit_ones_nonneg by lia. by rewrite andb_comm.
Qed.

Lemma isolate_node_at k q : in_tree k q → isolate_rightmost_zero_bit (node_at k q) = 2 ^ k.
Proof.
  intros Hin. pose proof (node_at_bound k q Hin) as Hb. destruct Hin as [Hk Hq].
  unfold isolate_rightmost_zero_bit, wrap64, u64_max in *. rewrite (Z.mod_small (_ + 1)) by lia.
  apply Z.bits_inj'. intros i Hi.
  rewrite Z.land_spec, testbit_not64, testbit_node_at, Z.pow2_bits_eqb by lia.
  rewrite node_at_succ, <- Z.shiftl_mul_pow2, Z.shiftl_spec by lia.
  destruct (Z.ltb_spec i k).
  - rewrite andb_false_r. simpl. symmetry. apply Z.eqb_neq. lia.
  - destruct (Z.eqb_spec i k) as [->|].
    + rewrite Z.eqb_refl, Z.sub_diag, Z.testbit_odd_0, !andb_true_r. apply Z.ltb_lt. lia.
    + rewrite (proj2 (Z.eqb_neq k i)) by lia.
      replace (i - k) with (Z.succ (i - (k + 1))) by lia.
      rewrite Z.testbit_odd_succ by lia. destruct (Z.testbit q _); rewrite ?andb_false_r; done.
Qed.

(** *** The operations in coordinates *)

Lemma shl64_pow2 k n : 0 ≤ k → 0 ≤ n → k + n < 64 → shl64 (2 ^ k) n = 2 ^ (k + n).
Proof.
  intros. unfold shl64, wrap64. rewrite Z.shiftl_mul_pow2, <- Z.pow_add_r by lia.
  apply Z.mod_small. split; [lia|]. apply Z.pow_lt_mono_r; lia.
Qed.

Lemma shl64_one k : 0 ≤ k < 64 → shl64 1 k = 2 ^ k.
Proof. intros. rewrite <- (Z.pow_0_r 2) at 1. rewrite shl64_pow2 by lia. done. Qed.

Lemma pow2_u64 k : 0 ≤ k < 64 → 0 ≤ 2 ^ k < 2 ^ 64.
Proof. intros. split; [lia|]. apply Z.pow_lt_mono_r; lia. Qed.

(** Compares two words bit by bit; the bits of nodes, powers and complements are
    those of the lemmas above. *)
Ltac bits_rewrite :=
  repeat first
    [ rewrite Z.land_spec | rewrite Z.lor_spec | rewrite Z.lxor_spec
    | rewrite Z.pow2_bits_eqb by lia
    | rewrite testbit_not64 by (try apply pow2_u64; lia)
    | rewrite testbit_node_at by lia ].
Ltac bits_cases :=
  repeat match goal with
  | |- context [?a <? ?b] => destruct (Z.ltb_spec a b); try lia
  | |- context [?a =? ?b] => destruct (Z.eqb_spec a b); try lia
  end.

Lemma level_node_at k q : in_tree k q → level (node_at k q) = k.
Proof.
  intros Hin. pose proof (node_at_bound k q Hin). destruct Hin as [Hk Hq]. unfold level.
  rewrite trailing_ones_spec, node_at_succ by lia.
  rewrite <- (Z2Nat.id k) at 1 by lia. rewrite trailing_zeros_mul_pow2 by lia.
  rewrite trailing_zeros_odd; lia.
Qed.

Lemma is_leaf_node_at k q : in_tree k q → is_leaf (node_at k q) = (k =? 0).
Proof.
  intros [Hk Hq]. unfold is_leaf. change 1 with (Z.ones 1). rewrite Z.land_ones by lia.
  change (2 ^ 1) with 2. rewrite Zmod_odd, <- Z.bit0_odd, testbit_node_at by lia.
  destruct (Z.eqb_spec k 0) as [->|]; [done|]. destruct (Z.ltb_spec 0 k); [done|lia].
Qed.

Lemma half_below k q : 0 ≤ k < 63 → 0 ≤ q < 2 ^ (63 - k) → 0 ≤ q / 2 < 2 ^ (63 - (k + 1)).
Proof.
  intros Hk Hq. split; [apply Z.div_pos; lia|]. apply Z.div_lt_upper_bound; [lia|].
  rewrite <- Z.pow_succ_r by lia. replace (Z.succ (63 - (k + 1))) with (63 - k) by lia. lia.
Qed.

Lemma in_tree_parent k q : in_tree k q → k < 63 → in_tree (k + 1) (q / 2).
Proof. intros [Hk Hq] H. split; [lia|]. apply half_below; lia. Qed.

Lemma in_tree_child k q b : in_tree k q → 0 < k → 0 ≤ b ≤ 1 → in_tree (k - 1) (2 * q + b).
Proof.
  intros [Hk Hq] H Hb. split; [lia|]. replace (63 - (k - 1)) with (Z.succ (63 - k)) by lia.
  rewrite Z.pow_succ_r by lia. lia.
Qed.

Lemma testbit_half q i : 0 ≤ i → Z.testbit (q / 2) i = Z.testbit q (i + 1).
Proof. intros. by rewrite Z.div2_bits. Qed.

Lemma testbit_high k q i : in_tree k q → 64 ≤ i → Z.testbit q (i - (k + 1)) = false.
Proof.
  intros Hin Hi. pose proof (node_at_bound k q Hin). destruct Hin as [Hk Hq].
  rewrite <- (testbit_u64 (node_at k q) i) by (unfold u64_max in *; lia).
  rewrite testbit_node_at by lia. bits_cases. done.
Qed.

Lemma parent_node_at k q :
  in_tree k q → k < 63 → parent (node_at k q) = node_at (k + 1) (q / 2).
Proof.
  intros Hin Hk63. unfold parent. rewrite isolate_node_at, shl64_pow2 by (try done; destruct Hin; lia).
  pose proof (half_below k q ltac:(destruct Hin; lia) (proj2 Hin)).
  pose proof (node_at_bound k q Hin). pose proof Hin as [Hk Hq].
  apply Z.bits_inj'. intros i Hi. bits_rewrite.
  destruct (Z.ltb_spec i 64).
  - bits_cases; rewrite ?andb_false_r, ?orb_false_r, ?andb_true_r, ?orb_true_r; try done.
    rewrite testbit_half by lia. f_equal. lia.
  - rewrite andb_false_l, andb_false_r. bits_cases. symmetry. rewrite testbit_half by lia.
    rewrite <- (testbit_high k q i) by (done || lia). f_equal. lia.
Qed.

Lemma child_node_at {E} k q dir :
  in_tree k q → 0 < k →
  child (E:=E) (node_at k q) dir =
    Ok (node_at (k - 1) (2 * q + match dir with Left => 0 | Right => 1 end)).
Proof.
  intros Hin H0. unfold child. rewrite is_leaf_node_at by done.
  rewrite (proj2 (Z.eqb_neq k 0)) by lia. f_equal. rewrite isolate_node_at by done.
  pose proof (node_at_bound k q Hin) as Hb. pose proof Hin as [Hk Hq].
  rewrite <- Z.div2_spec, Z.div2_div.
  replace (2 ^ k / 2) with (2 ^ (k - 1)) by
    (replace k with (Z.succ (k - 1)) at 2 by lia; rewrite Z.pow_succ_r, Z.mul_comm, Z.div_mul; lia).
  apply Z.bits_inj'. intros i Hi. rewrite (testbit_node_at (k - 1)) by (destruct dir; lia).
  assert (Hhigh : 64 ≤ i → Z.testbit q (i - (k + 1)) = false).
  { intros H. by apply testbit_high. }
  assert (Hq2 : k < i → Z.testbit (2 * q + match dir with Left => 0 | Right => 1 end) (i - (k - 1 + 1)) =
                Z.testbit q (i - (k + 1))).
  { intros H. replace (i - (k - 1 + 1)) with (Z.succ (i - (k + 1))) by lia.
    destruct dir; [rewrite Z.add_0_r; apply Z.double_bits_succ|apply Z.testbit_odd_succ; lia]. }
  assert (Hq1 : Z.testbit (2 * q + match dir with Left => 0 | Right => 1 end) 0 =
                match dir with Left => false | Right => true end).
  { destruct dir; [rewrite Z.add_0_r; apply Z.testbit_even_0|apply Z.testbit_odd_0]. }
  destruct dir; bits_rewrite; rewrite ?Z.bits_0; bits_cases;
    rewrite ?andb_false_r, ?orb_false_r, ?andb_true_r, ?orb_true_r;
    rewrite ?Hq2, ?Hhigh by lia; try done;
    replace (i - (k - 1 + 1)) with 0 by lia; by rewrite Hq1.
Qed.

Lemma is_left_child_node_at k q :
  in_tree k q → k < 63 → is_left_child (node_at k q) = Z.even q.
Proof.
  intros Hin H63. unfold is_left_child. rewrite isolate_node_at, shl64_pow2 by (try done; destruct Hin; lia).
  destruct Hin as [Hk Hq]. rewrite <- Z.negb_odd, <- Z.bit0_odd.
  assert (Hbit : Z.testbit (node_at k q) (k + 1) = Z.testbit q 0).
  { rewrite testbit_node_at by lia. bits_cases. f_equal. lia. }
  rewrite <- Hbit. apply eq_true_iff_eq. rewrite Z.eqb_eq, negb_true_iff. split; intros H.
  - apply (f_equal (λ z, Z.testbit z (k + 1))) in H.
    by rewrite Z.land_spec, Z.pow2_bits_true, andb_true_r, Z.bits_0 in H by lia.
  - apply Z.bits_inj'. intros i Hi. rewrite Z.land_spec, Z.bits_0, Z.pow2_bits_eqb by lia.
    destruct (Z.eqb_spec (k + 1) i) as [<-|]; [by rewrite H|apply andb_false_r].
Qed.

Lemma sibling_node_at k q :
  in_tree k q → k < 63 → sibling (node_at k q) = node_at k (Z.lxor q 1).
Proof.
  intros Hin H63. unfold sibling. rewrite isolate_node_at, shl64_pow2 by (try done; destruct Hin; lia).
  destruct Hin as [Hk Hq]. apply Z.bits_inj'. intros i Hi.
  assert (0 ≤ Z.lxor q 1) by (apply Z.lxor_nonneg; lia).
  rewrite Z.lxor_spec, !testbit_node_at, Z.pow2_bits_eqb by lia.
  destruct (Z.ltb_spec i k); [bits_cases; done|].
  destruct (Z.eqb_spec i k); [bits_cases; done|].
  rewrite Z.lxor_spec. f_equal. change 1 with (2 ^ 0) at 2. rewrite Z.pow2_bits_eqb by lia.
  bits_cases; done.
Qed.

Lemma from_level_and_pos_node_at k q : in_tree k q → from_level_and_pos k q = node_at k q.
Proof.
  intros Hin. pose proof (node_at_bound k q Hin) as Hb. destruct Hin as [Hk Hq].
  unfold from_level_and_pos. rewrite shl64_one by lia.
  assert (Hw : wrap64 (2 ^ k - 1) = Z.ones k).
  { unfold wrap64. rewrite Z.mod_small, Z.ones_equiv; [lia|].
    pose proof (pow2_u64 k ltac:(lia)). pose proof (Z.pow_pos_nonneg 2 k). lia. }
  rewrite Hw.
  assert (Hsh : (if k =? 63 then 0 else shl64 q (k + 1)) = Z.shiftl q (k + 1)).
  { destruct (Z.eqb_spec k 63) as [->|].
    - change (2 ^ (63 - 63)) with 1 in Hq. assert (q = 0) as -> by lia. done.
    - unfold shl64, wrap64. apply Z.mod_small. rewrite Z.shiftl_mul_pow2 by lia.
      unfold node_at, u64_max in Hb. pose proof (Z.pow_pos_nonneg 2 k). nia. }
  rewrite Hsh. apply Z.bits_inj'. intros i Hi.
  rewrite Z.lor_spec, testbit_node_at, Z.testbit_ones_nonneg, Z.shiftl_spec by lia.
  bits_cases; rewrite ?orb_true_r, ?orb_false_r; try done. apply Z.testbit_neg_r. lia.
Qed.

Lemma from_leaf_index_node_at i : 0 ≤ i < 2 ^ 63 → from_leaf_index i = node_at 0 i.
Proof. intros. apply from_level_and_pos_node_at. split; [lia|]. done. Qed.

Lemma right_most_child_node_at k q :
  in_tree k q → right_most_child (node_at k q) = node_at 0 ((q + 1) * 2 ^ k - 1).
Proof.
  intros Hin. unfold right_most_child. rewrite level_node_at by done.
  pose proof (node_at_bound k q Hin) as Hb. destruct Hin as [Hk Hq].
  rewrite shl64_one, node_at_leaf by lia. unfold wrap64. rewrite Zminus_mod_idemp_l.
  unfold node_at. rewrite Z.pow_add_r by lia. change (2 ^ 1) with 2.
  pose proof (pow2_split k Hk). pose proof (Z.pow_pos_nonneg 2 k).
  rewrite Z.mod_small; [lia|]. change (2 ^ 64) with (2 * 2 ^ 63). nia.
Qed.

Lemma left_most_child_node_at k q :
  in_tree k q → left_most_child (node_at k q) = node_at 0 (q * 2 ^ k).
Proof.
  intros Hin. unfold left_most_child, turn_off_right_most_n_bits, shl64, wrap64.
  rewrite level_node_at by done. pose proof (node_at_bound k q Hin) as Hb. destruct Hin as [Hk Hq].
  rewrite Z.shiftr_div_pow2, Z.shiftl_mul_pow2, node_at_leaf by lia.
  assert (Hd : node_at k q / 2 ^ k = 2 * q).
  { symmetry. apply Z.div_unique with (2 ^ k - 1); [left; lia|].
    unfold node_at. rewrite Z.pow_add_r by lia. lia. }
  rewrite Hd. unfold node_at, u64_max in Hb. rewrite Z.pow_add_r in Hb by lia.
  rewrite Z.mod_small; lia.
Qed.

(** ** Smearing *)

Lemma lor_shiftr_ones_step v n s :
  0 ≤ v → 0 < s → (∀ i, 0 ≤ i → Z.testbit n i = true ↔ ∃ d, 0 ≤ d < s ∧ Z.testbit v (i + d) = true) →
  ∀ i, 0 ≤ i → Z.testbit (Z.lor n (Z.shiftr n s)) i = true ↔
    ∃ d, 0 ≤ d < 2 * s ∧ Z.testbit v (i + d) = true.
Proof.
  intros Hv Hs Hn i Hi. rewrite Z.lor_spec, Z.shiftr_spec, orb_true_iff, !Hn by lia. split.
  - intros [(d & Hd & H)|(d & Hd & H)].
    + exists d. split; [lia|done].
    + exists (s + d). split; [lia|]. by rewrite Z.add_assoc.
  - intros (d & Hd & H). destruct (Z.lt_ge_cases d s).
    + left. exists d. split; [lia|done].
    + right. exists (d - s). split; [lia|]. rewrite <- H. f_equal. lia.
Qed.

(** All bits up to the highest one are set. *)
Lemma smear_ones_spec v :
  0 < v < 2 ^ 64 → smear_ones_for_u64 v = Z.ones (Z.log2 v + 1).
Proof.
  intros Hv. unfold smear_ones_for_u64.
  assert (Hlog : Z.log2 v < 64) by (apply Z.log2_lt_pow2; lia).
  pose proof (Z.log2_nonneg v) as Hlog0.
  assert (H1 : ∀ i, 0 ≤ i → Z.testbit v i = true ↔
            ∃ d, 0 ≤ d < 1 ∧ Z.testbit v (i + d) = true).
  { intros i Hi. split.
    - intros H. exists 0. by rewrite Z.add_0_r.
    - intros (d & Hd & H). by replace (i + d) with i in H by lia. }
  pose proof (lor_shiftr_ones_step v _ 1 ltac:(lia) ltac:(lia) H1) as H2.
  pose proof (lor_shiftr_ones_step v _ 2 ltac:(lia) ltac:(lia) H2) as H4.
  pose proof (lor_shiftr_ones_step v _ 4 ltac:(lia) ltac:(lia) H4) as H8.
  pose proof (lor_shiftr_ones_step v _ 8 ltac:(lia) ltac:(lia) H8) as H16.
  pose proof (lor_shiftr_ones_step v _ 16 ltac:(lia) ltac:(lia) H16) as H32.
  pose proof (lor_shiftr_ones_step v _ 32 ltac:(lia) ltac:(lia) H32) as H64.
  clear H1 H2 H4 H8 H16 H32.
  apply Z.bits_inj'. intros i Hi. rewrite Z.testbit_ones_nonneg by lia.
  apply eq_true_iff_eq. rewrite H64, Z.ltb_lt by done. split.
  - intros (d & Hd & H). destruct (Z.lt_ge_cases (Z.log2 v) (i + d)); [|lia].
    by rewrite Z.bits_above_log2 in H by lia.
  - intros H. exists (Z.log2 v - i). split; [lia|].
    replace (i + (Z.log2 v - i)) with (Z.log2 v) by lia. apply Z.bit_log2. lia.
Qed.

(** ** Post-order numbers *)

(** The nodes before node [q] of level [k] in a post-order traversal: its
    [2^(k+1) - 2] descendants and the complete subtrees on its left. *)
Definition postorder_at (k q : Z) : Z := (q + 1) * 2 ^ (k + 1) - 2 - count_ones q.

Lemma inorder_to_postorder_node_at k q :
  in_tree k q → inorder_to_postorder (node_at k q) = postorder_at k q.
Proof.
  intros Hin. unfold inorder_to_postorder, children_of_node, nodes_to_left_of, postorder_at.
  rewrite isolate_node_at by done. pose proof Hin as [Hk Hq].
  pose proof (pow2_u64 k ltac:(lia)) as Hk64. pose proof (Z.pow_pos_nonneg 2 k) as Hkpos.
  assert (Hones : wrap64 (2 ^ k - 1) = 2 ^ k - 1) by (apply Z.mod_small; lia).
  assert (Hx : Z.lxor (node_at k q) (2 ^ k - 1) = q * 2 ^ (k + 1)).
  { apply Z.bits_inj'. intros i Hi.
    replace (2 ^ k - 1) with (Z.ones k) by (rewrite Z.ones_equiv; lia).
    rewrite Z.lxor_spec, testbit_node_at, Z.testbit_ones_nonneg by lia.
    rewrite <- Z.shiftl_mul_pow2, Z.shiftl_spec by lia.
    bits_cases; rewrite ?xorb_false_r; simpl; try done; symmetry; apply Z.testbit_neg_r; lia. }
  rewrite Hones, Hx. rewrite <- (Z2Nat.id (k + 1)) at 2 by lia.
  rewrite count_ones_mul_pow2 by lia. rewrite Z.pow_add_r by lia. change (2 ^ 1) with 2.
  unfold shl64, wrap64. rewrite Z.shiftl_mul_pow2 by lia. change (2 ^ 1) with 2.
  rewrite Zminus_mod_idemp_l, <- Zplus_mod. rewrite Z.mod_small; [lia|].
  pose proof (count_ones_le q ltac:(lia)). pose proof (count_ones_nonneg q).
  pose proof (pow2_split k Hk). change (2 ^ 64) with (2 * 2 ^ 63).
  assert (q ≤ q * (2 ^ k * 2)) by nia. nia.
Qed.

Lemma reverse_seq_S w : reverse (seq 0 (S w)) = w :: reverse (seq 0 w).
Proof. by rewrite seq_S, reverse_app. Qed.

Lemma lor_shl64_bit B (w : nat) :
  0 ≤ B → (w < 64)%nat →
  Z.lor (B * 2 ^ Z.of_nat (S w)) (shl64 1 (Z.of_nat w)) = (2 * B + 1) * 2 ^ Z.of_nat w.
Proof.
  intros HB Hw. rewrite shl64_one, Nat2Z.inj_succ, Z.pow_succ_r by lia.
  replace (B * (2 * 2 ^ Z.of_nat w)) with ((2 * B) * 2 ^ Z.of_nat w) by lia.
  rewrite <- (Z.mul_1_l (2 ^ Z.of_nat w)) at 2.
  rewrite <- !Z.shiftl_mul_pow2 by lia. rewrite <- Z.shiftl_lor. f_equal.
  apply Z.bits_inj'. intros i Hi. rewrite Z.lor_spec. destruct (Z.eqb_spec i 0) as [->|].
  - by rewrite Z.testbit_even_0, Z.testbit_odd_0.
  - replace i with (Z.succ (i - 1)) by lia.
    rewrite Z.testbit_odd_succ, Z.testbit_even_succ by lia.
    rewrite (Z.bits_above_log2 1) by (simpl; lia). apply orb_false_r.
Qed.

Lemma half_ones (w : nat) : Z.shiftr (2 ^ Z.of_nat (S w) - 1) 1 = 2 ^ Z.of_nat w - 1.
Proof.
  rewrite Z.shiftr_div_pow2, Nat2Z.inj_succ, Z.pow_succ_r by lia. change (2 ^ 1) with 2.
  symmetry. apply Z.div_unique with 1; lia.
Qed.

(** One iteration on the subtree of [2 ^ (w + 1)] leaves: go right or left. *)
Lemma postorder_loop_right (w : nat) n B :
  0 ≤ B → (w < 64)%nat → 2 ^ Z.of_nat (S w) - 1 ≤ n →
  foldl postorder_step (n, 2 ^ Z.of_nat (S w) - 1, B * 2 ^ Z.of_nat (S w)) (reverse (seq 0 (S w))) =
  foldl postorder_step (n - (2 ^ Z.of_nat (S w) - 1), 2 ^ Z.of_nat w - 1, (2 * B + 1) * 2 ^ Z.of_nat w)
    (reverse (seq 0 w)).
Proof.
  intros HB Hw Hn. rewrite reverse_seq_S. cbn [foldl]. unfold postorder_step at 2.
  rewrite (proj2 (Z.leb_le _ _)) by lia. by rewrite lor_shl64_bit, half_ones by lia.
Qed.

Lemma postorder_loop_left (w : nat) n B :
  n < 2 ^ Z.of_nat (S w) - 1 →
  foldl postorder_step (n, 2 ^ Z.of_nat (S w) - 1, B * 2 ^ Z.of_nat (S w)) (reverse (seq 0 (S w))) =
  foldl postorder_step (n, 2 ^ Z.of_nat w - 1, (2 * B) * 2 ^ Z.of_nat w) (reverse (seq 0 w)).
Proof.
  intros Hn. rewrite reverse_seq_S. cbn [foldl]. unfold postorder_step at 2.
  rewrite (proj2 (Z.leb_gt _ _)) by lia. rewrite half_ones. do 2 f_equal.
  rewrite Nat2Z.inj_succ, Z.pow_succ_r by lia. lia.
Qed.

(** The node is the root of the subtree: all the remaining bits are set. *)
Lemma postorder_loop_root (w : nat) c B :
  0 ≤ c → 0 ≤ B → (w ≤ 64)%nat →
  foldl postorder_step (2 ^ Z.of_nat (S w) - 2 + c, 2 ^ Z.of_nat w - 1, B * 2 ^ Z.of_nat w)
    (reverse (seq 0 w)) = (c + Z.of_nat w, 0, (B + 1) * 2 ^ Z.of_nat w - 1).
Proof.
  revert c B. induction w as [|w IH]; intros c B Hc HB Hw.
  - simpl. f_equal; [f_equal; lia|lia].
  - pose proof (Z.pow_pos_nonneg 2 (Z.of_nat (S w))).
    assert (H2 : 2 ^ Z.of_nat (S (S w)) = 2 * 2 ^ Z.of_nat (S w)) by
      (rewrite (Nat2Z.inj_succ (S w)), Z.pow_succ_r; lia).
    rewrite postorder_loop_right by lia.
    replace (2 ^ Z.of_nat (S (S w)) - 2 + c - (2 ^ Z.of_nat (S w) - 1))
      with (2 ^ Z.of_nat (S w) - 2 + (c + 1)) by lia.
    rewrite IH by lia. rewrite Nat2Z.inj_succ, Z.pow_succ_r by lia.
    f_equal; [f_equal; lia|lia].
Qed.

Lemma postorder_at_left k q (w : nat) :
  0 ≤ k ≤ Z.of_nat w → 0 ≤ q < 2 ^ (Z.of_nat w - k) → postorder_at k q < 2 ^ Z.of_nat (S w) - 1.
Proof.
  intros Hk Hq. unfold postorder_at. rewrite Nat2Z.inj_succ, Z.pow_succ_r by lia.
  rewrite Z.pow_add_r by lia. change (2 ^ 1) with 2. pose proof (count_ones_nonneg q).
  assert (2 ^ Z.of_nat w = 2 ^ (Z.of_nat w - k) * 2 ^ k) by
    (rewrite <- Z.pow_add_r by lia; f_equal; lia).
  pose proof (Z.pow_pos_nonneg 2 k). nia.
Qed.

Lemma postorder_at_right k q (w : nat) :
  0 ≤ k ≤ Z.of_nat w → 0 ≤ q < 2 ^ (Z.of_nat w - k) →
  postorder_at k (2 ^ (Z.of_nat w - k) + q) = 2 ^ Z.of_nat (S w) - 1 + postorder_at k q.
Proof.
  intros Hk Hq. unfold postorder_at. rewrite Nat2Z.inj_succ, Z.pow_succ_r by lia.
  replace (Z.of_nat w - k) with (Z.of_nat (Z.to_nat (Z.of_nat w - k))) in * by lia.
  rewrite count_ones_add_pow2 by lia. rewrite Z.pow_add_r by lia. change (2 ^ 1) with 2.
  assert (2 ^ Z.of_nat w = 2 ^ Z.of_nat (Z.to_nat (Z.of_nat w - k)) * 2 ^ k) by
    (rewrite <- Z.pow_add_r by lia; f_equal; lia). nia.
Qed.

Lemma postorder_at_nonneg k q : 0 ≤ k → 0 ≤ q → 0 ≤ postorder_at k q.
Proof.
  intros Hk Hq. unfold postorder_at. pose proof (count_ones_le q Hq).
  rewrite Z.pow_add_r by lia. change (2 ^ 1) with 2. pose proof (Z.pow_pos_nonneg 2 k). nia.
Qed.

(** The loop finds the node of a given post-order number. *)
Lemma postorder_loop_spec (w : nat) k q B :
  (w ≤ 64)%nat → 0 ≤ B → 0 ≤ k ≤ Z.of_nat w → 0 ≤ q < 2 ^ (Z.of_nat w - k) →
  foldl postorder_step (postorder_at k q, 2 ^ Z.of_nat w - 1, B * 2 ^ Z.of_nat w)
    (reverse (seq 0 w)) = (k, 0, B * 2 ^ Z.of_nat w + (q + 1) * 2 ^ k - 1).
Proof.
  revert q B. induction w as [|w IH]; intros q B Hw HB Hk Hq.
  - assert (k = 0) as -> by lia. change (2 ^ (Z.of_nat 0 - 0)) with 1 in Hq.
    assert (q = 0) as -> by lia. simpl. f_equal; lia.
  - destruct (decide (k = Z.of_nat (S w))) as [->|Hne].
    + rewrite Z.sub_diag in Hq. change (2 ^ 0) with 1 in Hq. assert (q = 0) as -> by lia.
      replace (postorder_at _ 0) with (2 ^ Z.of_nat (S (S w)) - 2 + 0).
      * rewrite postorder_loop_root by lia. f_equal; lia.
      * unfold postorder_at. simpl count_ones.
        replace (Z.of_nat (S w) + 1) with (Z.of_nat (S (S w))) by lia. lia.
    + assert (Hs : Z.of_nat (S w) - k = Z.succ (Z.of_nat w - k)) by lia.
      rewrite Hs, Z.pow_succ_r in Hq by lia.
      destruct (Z.lt_ge_cases q (2 ^ (Z.of_nat w - k))) as [Hlt|Hge].
      * rewrite postorder_loop_left by (apply postorder_at_left; lia).
        rewrite IH by lia. rewrite Nat2Z.inj_succ, Z.pow_succ_r by lia. f_equal; lia.
      * replace q with (2 ^ (Z.of_nat w - k) + (q - 2 ^ (Z.of_nat w - k))) by lia.
        set (q' := q - 2 ^ (Z.of_nat w - k)) in *.
        rewrite postorder_at_right by lia.
        rewrite postorder_loop_right by (pose proof (postorder_at_nonneg k q'); lia).
        rewrite Z.add_simpl_l, IH by lia.
        assert (2 ^ Z.of_nat w = 2 ^ (Z.of_nat w - k) * 2 ^ k) by
          (rewrite <- Z.pow_add_r by lia; f_equal; lia).
        rewrite Nat2Z.inj_succ, Z.pow_succ_r by lia. f_equal. lia.
Qed.

(** Every number below the size of the tree is the number of a node. *)
Lemma postorder_at_surj (w : nat) n :
  0 ≤ n < 2 ^ Z.of_nat (S w) - 1 →
  ∃ k q, 0 ≤ k ≤ Z.of_nat w ∧ 0 ≤ q < 2 ^ (Z.of_nat w - k) ∧ n = postorder_at k q.
Proof.
  revert n. induction w as [|w IH]; intros n Hn.
  - exists 0, 0. split_and!; try lia. change (2 ^ Z.of_nat 1) with 2 in Hn.
    change (postorder_at 0 0) with 0. lia.
  - assert (H2 : 2 ^ Z.of_nat (S (S w)) = 2 * 2 ^ Z.of_nat (S w)) by
      (rewrite (Nat2Z.inj_succ (S w)), Z.pow_succ_r; lia).
    assert (Hup : ∀ k, 0 ≤ k ≤ Z.of_nat w → 2 ^ (Z.of_nat (S w) - k) = 2 * 2 ^ (Z.of_nat w - k)).
    { intros k Hk. rewrite <- Z.pow_succ_r by lia. f_equal. lia. }
    destruct (Z.lt_ge_cases n (2 ^ Z.of_nat (S w) - 1)) as [Hlt|Hge].
    + destruct (IH n) as (k & q & Hk & Hq & ->); [lia|].
      exists k, q. rewrite Hup by lia. split_and!; lia.
    + destruct (decide (n = 2 ^ Z.of_nat (S (S w)) - 2)) as [->|].
      * exists (Z.of_nat (S w)), 0. rewrite Z.sub_diag. split_and!; try lia.
        unfold postorder_at. simpl count_ones.
        replace (Z.of_nat (S w) + 1) with (Z.of_nat (S (S w))) by lia. lia.
      * destruct (IH (n - (2 ^ Z.of_nat (S w) - 1))) as (k & q & Hk & Hq & Heq); [lia|].
        exists k, (2 ^ (Z.of_nat w - k) + q). rewrite Hup by lia.
        rewrite postorder_at_right by lia. split_and!; lia.
Qed.

Lemma postorder_to_inorder_spec k q :
  in_tree k q → postorder_to_inorder (postorder_at k q) = node_at k q.
Proof.
  intros Hin. pose proof Hin as [Hk Hq]. unfold postorder_to_inorder.
  pose proof (postorder_loop_spec 64 k q 0 ltac:(lia) ltac:(lia) ltac:(lia)) as Hrun.
  change (Z.of_nat 64) with 64 in Hrun. rewrite Z.mul_0_l, Z.add_0_l in Hrun.
  change u64_max with (2 ^ 64 - 1). rewrite Hrun.
  2:{ replace (64 - k) with (Z.succ (63 - k)) by lia. rewrite Z.pow_succ_r; lia. }
  rewrite (Z.mod_small k) by lia.
  rewrite Z.shiftr_div_pow2 by lia.
  replace (((q + 1) * 2 ^ k - 1) / 2 ^ k) with q.
  - by apply from_level_and_pos_node_at.
  - apply Z.div_unique with (2 ^ k - 1); [|lia]. pose proof (Z.pow_pos_nonneg 2 k). lia.
Qed.

Lemma lxor_1 q : 0 ≤ q → Z.lxor q 1 = if Z.even q then q + 1 else q - 1.
Proof.
  intros Hq. apply Z.bits_inj'. intros i Hi. rewrite Z.lxor_spec.
  destruct (Z.Even_or_Odd q) as [[j ->]|[j ->]].
  - rewrite Z.even_even. destruct (Z.eqb_spec i 0) as [->|].
    + by rewrite Z.testbit_even_0, Z.testbit_odd_0.
    + replace i with (Z.succ (i - 1)) by lia.
      rewrite Z.testbit_odd_succ, Z.testbit_even_succ by lia.
      rewrite (Z.bits_above_log2 1) by (simpl; lia). apply xorb_false_r.
  - rewrite Z.even_odd, Z.add_simpl_r. destruct (Z.eqb_spec i 0) as [->|].
    + by rewrite Z.testbit_even_0, Z.testbit_odd_0.
    + replace i with (Z.succ (i - 1)) by lia.
      rewrite Z.testbit_odd_succ, Z.testbit_even_succ by lia.
      rewrite (Z.bits_above_log2 1) by (simpl; lia). apply xorb_false_r.
Qed.

Lemma half_double j : 2 * j / 2 = j.
Proof. rewrite Z.mul_comm. by apply Z.div_mul. Qed.

Lemma half_succ_double j : (2 * j + 1) / 2 = j.
Proof. symmetry. apply Z.div_unique with 1; lia. Qed.

Lemma sibling_bounds k q :
  in_tree k q → k < 63 → in_tree k (Z.lxor q 1) ∧ Z.lxor q 1 / 2 = q / 2 ∧
    Z.even (Z.lxor q 1) = negb (Z.even q).
Proof.
  intros [Hk Hq] H63. rewrite lxor_1 by lia.
  replace (63 - k) with (Z.succ (63 - (k + 1))) in Hq by lia. rewrite Z.pow_succ_r in Hq by lia.
  unfold in_tree. replace (63 - k) with (Z.succ (63 - (k + 1))) by lia. rewrite Z.pow_succ_r by lia.
  destruct (Z.Even_or_Odd q) as [[j ->]|[j ->]].
  - rewrite Z.even_even, Z.even_odd. rewrite ?half_double, ?half_succ_double.
    split_and!; first [done|lia].
  - rewrite Z.even_odd, Z.add_simpl_r, Z.even_even. rewrite ?half_double, ?half_succ_double.
    split_and!; first [done|lia].
Qed.

(** Navigation.  For every numbered node but the root of the whole tree, the
    sibling is a different node with the same parent, on the other side, and is
    an involution; the parent is one level up and the node is its left or right
    child as [is_left_child] says. *)
Theorem position_navigation (p : Position) :
  0 ≤ p < u64_max → level p < 63 →
  parent (sibling p) = parent p ∧ sibling (sibling p) = p ∧
  is_left_child (sibling p) = is_right_child p ∧
  level (parent p) = level p + 1 ∧
  child (E:=string) (parent p) (if is_left_child p then Left else Right) = Ok p.
Proof.
  intros Hp H63. destruct (node_at_surj p Hp) as (k & q & Hin & ->).
  rewrite level_node_at in * by done.
  destruct (sibling_bounds k q Hin H63) as (Hin' & Hhalf & Heven).
  pose proof (in_tree_parent k q Hin H63) as Hpar.
  rewrite sibling_node_at, !parent_node_at, Hhalf, level_node_at by done.
  rewrite sibling_node_at, !is_left_child_node_at, Heven by done.
  unfold is_right_child. rewrite is_left_child_node_at by done.
  rewrite Z.lxor_assoc, Z.lxor_nilpotent, Z.lxor_0_r.
  split_and!; try done. rewrite child_node_at by (done || (destruct Hin; lia)).
  f_equal. rewrite Z.add_simpl_r. f_equal. pose proof (Z.div_mod q 2 ltac:(lia)) as Hd.
  rewrite Zmod_even in Hd. destruct (Z.even q); lia.
Qed.

(** C23: the in-order and post-order numberings are inverse to each other on every
    node index. *)
Theorem postorder_round_trip (n : Z) :
  0 ≤ n < u64_max →
  from_postorder_index (to_postorder_index n) = Ok n ∧
  ∃ p, from_postorder_index n = Ok p ∧ to_postorder_index p = n.
Proof.
  intros Hn. unfold from_postorder_index, to_postorder_index. split.
  - destruct (node_at_surj n Hn) as (k & q & Hin & ->).
    rewrite inorder_to_postorder_node_at by done. pose proof Hin as [Hk Hq].
    rewrite (proj2 (Z.ltb_lt _ _)); [|]; simpl.
    + by rewrite postorder_to_inorder_spec.
    + unfold u64_max. apply (postorder_at_left k q 63); lia.
  - destruct (postorder_at_surj 63 n) as (k & q & Hk & Hq & Hnk).
    { unfold u64_max in Hn. change (Z.of_nat 64) with 64. lia. }
    rewrite (proj2 (Z.ltb_lt _ _)) by lia. simpl. eexists; split; [done|].
    rewrite Hnk, postorder_to_inorder_spec by done. by rewrite inorder_to_postorder_node_at.
Qed.

Lemma postorder_round_trip_witness :
  from_postorder_index (to_postorder_index 9) = Ok 9 ∧
  ∃ p, from_postorder_index 9 = Ok p ∧ to_postorder_index p = 9.
Proof. apply (postorder_round_trip 9). vm_compute. split; congruence. Defined.

(** The two tests on the node [q] of level [k]. *)
Lemma node_at_leaves k q :
  in_tree k q → 0 ≤ node_at k q - 2 * (q * 2 ^ k) ∧ 0 < 2 ^ k ∧ (q + 1) * 2 ^ k ≤ 2 ^ 63.
Proof.
  intros [Hk Hq]. unfold node_at. rewrite Z.pow_add_r by lia. change (2 ^ 1) with 2.
  pose proof (Z.pow_pos_nonneg 2 k). pose proof (pow2_split k Hk). nia.
Qed.

Lemma is_freezable_node_at k q i :
  in_tree k q → 0 ≤ i < 2 ^ 63 → is_freezable (node_at k q) i = ((q + 1) * 2 ^ k <=? i + 1).
Proof.
  intros Hin Hi. unfold is_freezable. pose proof (node_at_leaves k q Hin).
  rewrite right_most_child_node_at, from_leaf_index_node_at, !node_at_leaf by done.
  apply eq_true_iff_eq. rewrite !Z.leb_le. lia.
Qed.

Lemma is_placeholder_node_at k q i :
  in_tree k q → 0 ≤ i < 2 ^ 63 → is_placeholder (node_at k q) i = (i + 1 <=? q * 2 ^ k).
Proof.
  intros Hin Hi. unfold is_placeholder. pose proof (node_at_leaves k q Hin).
  rewrite left_most_child_node_at, from_leaf_index_node_at, !node_at_leaf by done.
  apply eq_true_iff_eq. rewrite Z.leb_le.
  destruct (Z.leb_spec (node_at k q) (2 * i)); [split; [done|lia]|].
  destruct (Z.leb_spec (2 * (q * 2 ^ k)) (2 * i)); (split; [done|lia]) || (split; [lia|done]).
Qed.

(** [is_freezable] and [is_placeholder] for an accumulator whose last leaf is
    [i]: a node is freezable exactly when all the leaves below it exist, and a
    placeholder exactly when none does. *)
Theorem freezable_placeholder_spec (p : Position) i :
  0 ≤ p < u64_max → 0 ≤ i < 2 ^ 63 →
  let below j := left_most_child p ≤ from_leaf_index j ≤ right_most_child p in
  (is_freezable p i = true ↔ ∀ j, 0 ≤ j < 2 ^ 63 → below j → j ≤ i) ∧
  (is_placeholder p i = true ↔ ∀ j, 0 ≤ j < 2 ^ 63 → below j → i < j).
Proof.
  intros Hp Hi. simpl. destruct (node_at_surj p Hp) as (k & q & Hin & ->).
  unfold is_freezable, is_placeholder. rewrite right_most_child_node_at, left_most_child_node_at by done.
  rewrite from_leaf_index_node_at, !node_at_leaf by done.
  assert (Hk : 0 ≤ node_at k q - 2 * (q * 2 ^ k) ∧ 0 < 2 ^ k ∧ 0 ≤ q ∧ (q + 1) * 2 ^ k ≤ 2 ^ 63).
  { destruct Hin as [Hk Hq]. unfold node_at. rewrite Z.pow_add_r by lia. change (2 ^ 1) with 2.
    pose proof (Z.pow_pos_nonneg 2 k). pose proof (pow2_split k Hk). nia. }
  destruct Hk as (Hl & Hk & Hq & Hb). set (a := q * 2 ^ k) in *.
  replace ((q + 1) * 2 ^ k) with (a + 2 ^ k) in * by lia. assert (0 ≤ a) by nia.
  assert (Hbelow : ∀ j, 0 ≤ j < 2 ^ 63 →
    (2 * a ≤ from_leaf_index j ≤ 2 * (a + 2 ^ k - 1) ↔ a ≤ j ≤ a + 2 ^ k - 1)).
  { intros j Hj. rewrite from_leaf_index_node_at, node_at_leaf by done. lia. }
  split.
  - rewrite Z.leb_le. split.
    + intros H1 j Hj. rewrite Hbelow by done. lia.
    + intros H1. specialize (H1 (a + 2 ^ k - 1) ltac:(lia)).
      rewrite Hbelow in H1 by lia. lia.
  - destruct (Z.leb_spec (node_at k q) (2 * i)).
    + split; [done|]. intros H1. specialize (H1 a ltac:(lia)). rewrite Hbelow in H1 by lia. lia.
    + destruct (Z.leb_spec (2 * a) (2 * i)); (split; [try done; intros _|]).
      * intros H2. specialize (H2 a ltac:(lia)). rewrite Hbelow in H2 by lia. lia.
      * intros j Hj. rewrite Hbelow by done. lia.
      * done.
Qed.

(** The root of an accumulator with [n] leaves is the leftmost node of level
    [ceil (log2 n)], both functions agree on that level, and its leaves cover the
    accumulator. *)
Theorem root_from_leaf_count_spec n :
  0 < n ≤ MAX_ACCUMULATOR_LEAVES →
  ∃ root, root_from_leaf_count (E:=string) n = Ok root ∧
    root_level_from_leaf_count (E:=string) n = Ok (level root) ∧
    level root = Z.log2_up n ∧ root = from_level_and_pos (Z.log2_up n) 0 ∧
    left_most_child root = from_leaf_index 0 ∧ from_leaf_index (n - 1) ≤ right_most_child root.
Proof.
  change MAX_ACCUMULATOR_LEAVES with (2 ^ 63). intros Hn.
  assert (Hlog : 0 ≤ Z.log2_up n ≤ 63).
  { split; [apply Z.log2_up_nonneg|]. apply Z.log2_up_le_pow2; lia. }
  assert (Hin : in_tree (Z.log2_up n) 0) by (split; [done|]; lia).
  exists (node_at (Z.log2_up n) 0).
  unfold root_from_leaf_count, root_level_from_leaf_count, root_from_leaf_index.
  rewrite (proj2 (Z.ltb_lt 0 n)) by lia.
  rewrite level_node_at, from_level_and_pos_node_at, left_most_child_node_at,
    right_most_child_node_at, !from_leaf_index_node_at, !node_at_leaf by (done || lia).
  pose proof (Z.log2_log2_up_spec n ltac:(lia)) as [_ Hup].
  destruct (decide (n = 1)) as [->|Hne]; [split_and!; try done; vm_compute; congruence|].
  assert (Hl2 : Z.log2_up n = Z.log2 (n - 1) + 1).
  { rewrite Z.log2_up_eqn by lia. rewrite <- Z.sub_1_r. lia. }
  rewrite smear_ones_spec, Z.log2_double by lia.
  split_and!; try done; try lia.
  - f_equal. unfold node_at. rewrite Z.ones_equiv, <- Z.sub_1_r, Hl2.
    rewrite Z.shiftr_div_pow2 by lia. change (2 ^ 1) with 2. rewrite Z.pow_add_r by lia.
    symmetry. change (2 ^ 1) with 2. apply Z.div_unique with 1; [lia|].
    pose proof (Z.log2_nonneg (n - 1)). rewrite Z.pow_succ_r, !(Z.pow_add_r 2 _ 1) by lia. lia.
  - f_equal. rewrite Hl2. unfold leading_zeros. change MAX_ACCUMULATOR_PROOF_DEPTH with 63.
    destruct (n - 1) eqn:E; lia.
Qed.
