(* ===== verification/ValidatorVerifier.v ===== *)
(** * ValidatorVerifier: quorum checks over weighted validators

    Models src/types/src/validator_verifier.rs: the verifier record, its
    constructor with the quorum computation on [u64], the voting-power check and
    the two aggregated-signature checks.  The theorems give the exact success
    condition of each check, the equivalence of the batched check with the
    one-by-one check, and quorum intersection. *)

From S2P Require Import Prelude Crypto.

Inductive VerifyError :=
| UnknownAuthor
| TooLittleVotingPower (voting_power quorum_voting_power : Z)
| TooManySignatures (num_of_signatures num_of_authors : Z)
| InvalidSignature
| InconsistentBlockInfo.

(** The fixed text of [VerifyError]'s [Display]. *)
Definition VerifyError_to_string (e : VerifyError) : string :=
  match e with
  | UnknownAuthor => "Author is unknown"
  | TooLittleVotingPower _ _ => "The voting power is less than quorum voting power"
  | TooManySignatures _ _ =>
      "The number of signatures is greater than total number of authors"
  | InvalidSignature => "Signature is invalid"
  | InconsistentBlockInfo => "Inconsistent Block Info"
  end.

Record ValidatorConsensusInfo := mkValidatorConsensusInfo {
  vci_public_key : PublicKey;
  vci_voting_power : Z;
}.

Record ValidatorVerifier := mkValidatorVerifier {
  address_to_validator_info : BTreeMap ValidatorConsensusInfo;
  vv_quorum_voting_power : Z;
  vv_total_voting_power : Z;
}.

#[export] Instance ValidatorConsensusInfo_eq_dec : EqDecision ValidatorConsensusInfo.
Proof. solve_decision. Defined.
#[export] Instance ValidatorVerifier_eq_dec : EqDecision ValidatorVerifier.
Proof. solve_decision. Defined.

#[export] Instance ValidatorConsensusInfo_countable : Countable ValidatorConsensusInfo.
Proof.
  refine (inj_countable' (λ i, (vci_public_key i, vci_voting_power i))
    (λ p, mkValidatorConsensusInfo p.1 p.2) _). by intros [].
Defined.
#[export] Instance ValidatorVerifier_countable : Countable ValidatorVerifier.
Proof.
  refine (inj_countable'
    (λ v, (address_to_validator_info v, vv_quorum_voting_power v, vv_total_voting_power v))
    (λ p, mkValidatorVerifier p.1.1 p.1.2 p.2) _). by intros [].
Defined.

(** [sum_voting_power]: panics when the sum does not fit [u64]. *)
Definition sum_voting_power {E} (infos : BTreeMap ValidatorConsensusInfo) : Result E Z :=
  r_fold (λ sum x,
    expect (checked_add sum (vci_voting_power x))
           "sum of all voting power is greater than u64::max")
    (btree_iter infos).*2 0.

(** [ValidatorVerifier::new] *)
Definition ValidatorVerifier_new {E} (infos : BTreeMap ValidatorConsensusInfo)
    : Result E ValidatorVerifier :=
  let? total_voting_power := sum_voting_power infos in
  let quorum_voting_power :=
    if bool_decide (infos = ∅) then 0
    else wrap64 (wrap64 (total_voting_power * 2) / 3 + 1) in
  Ok (mkValidatorVerifier infos quorum_voting_power total_voting_power).

(** [ValidatorVerifier::new_single] *)
Definition ValidatorVerifier_new_single {E} (author : AccountAddress) (public_key : PublicKey)
    : Result E ValidatorVerifier :=
  ValidatorVerifier_new (<[author := mkValidatorConsensusInfo public_key 1]> ∅).

(** The on-chain validator set (src/types/src/on_chain_config/validator_set.rs). *)
Record ValidatorConfig := mkValidatorConfig {
  consensus_public_key : PublicKey;
  validator_network_addresses : Bytes;
  fullnode_network_addresses : Bytes;
}.

Record ValidatorInfo := mkValidatorInfo {
  vi_account_address : AccountAddress;
  vi_consensus_voting_power : Z;
  vi_config : ValidatorConfig;
  vi_last_config_update_time : Z;
}.

Record ValidatorSet := mkValidatorSet { vs_payload : list ValidatorInfo }.

(** [From<&ValidatorSet> for ValidatorVerifier]: a later entry for an address
    replaces an earlier one. *)
Definition ValidatorVerifier_from_validator_set {E} (validator_set : ValidatorSet)
    : Result E ValidatorVerifier :=
  ValidatorVerifier_new
    (foldl (λ map validator,
       <[vi_account_address validator :=
           mkValidatorConsensusInfo (consensus_public_key (vi_config validator))
                                    (vi_consensus_voting_power validator)]> map)
       ∅ (vs_payload validator_set)).

Section verifier.
Context `{C : Crypto}.
Implicit Types vv : ValidatorVerifier.

Definition vv_len vv : Z := Z.of_nat (size (address_to_validator_info vv)).

Definition get_public_key vv (author : AccountAddress) : option PublicKey :=
  vci_public_key <$> address_to_validator_info vv !! author.

Definition get_voting_power vv (author : AccountAddress) : option Z :=
  vci_voting_power <$> address_to_validator_info vv !! author.

(** [check_voting_power]; the accumulation is [u64] addition. *)
Definition check_voting_power vv (authors : list AccountAddress)
    : Result VerifyError unit :=
  let? aggregated_voting_power :=
    r_fold (λ acc author,
      match get_voting_power vv author with
      | Some voting_power => Ok (wrap64 (acc + voting_power))
      | None => Err UnknownAuthor
      end) authors 0 in
  if aggregated_voting_power <? vv_quorum_voting_power vv
  then Err (TooLittleVotingPower aggregated_voting_power (vv_quorum_voting_power vv))
  else Ok ().

Definition check_num_of_signatures vv (sigs : BTreeMap Signature)
    : Result VerifyError unit :=
  let num_of_signatures := Z.of_nat (size sigs) in
  if vv_len vv <? num_of_signatures
  then Err (TooManySignatures num_of_signatures (vv_len vv))
  else Ok ().

Section message.
Context {T : Type} `{HT : CryptoHash T}.

(** [ValidatorVerifier::verify] *)
Definition vv_verify vv (author : AccountAddress) (message : T)
    (signature : Signature) : Result VerifyError unit :=
  match get_public_key vv author with
  | Some public_key =>
      if verify_struct_signature public_key message signature
      then Ok () else Err InvalidSignature
  | None => Err UnknownAuthor
  end.

Definition verify_aggregated_struct_signature vv (message : T)
    (aggregated_signature : BTreeMap Signature) : Result VerifyError unit :=
  check_num_of_signatures vv aggregated_signature ;?
  check_voting_power vv (btree_keys aggregated_signature) ;?
  r_for (λ '(author, signature), vv_verify vv author message signature)
        (btree_iter aggregated_signature).

Definition batch_verify_aggregated_signatures vv (message : T)
    (aggregated_signature : BTreeMap Signature) : Result VerifyError unit :=
  check_num_of_signatures vv aggregated_signature ;?
  check_voting_power vv (btree_keys aggregated_signature) ;?
  let keys_and_signatures :=
    omap (λ '(address, signature),
      (λ pub_key, (pub_key, signature)) <$> get_public_key vv address)
      (btree_iter aggregated_signature) in
  if batch_verify message keys_and_signatures then Ok ()
  else verify_aggregated_struct_signature vv message aggregated_signature.
End message.
End verifier.

(** ** Voting power of a set of authors *)

(** The power of one author, zero for an unknown one. *)
Definition vpower (vv : ValidatorVerifier) (a : AccountAddress) : Z :=
  default 0 (get_voting_power vv a).

Definition power_of (vv : ValidatorVerifier) (authors : list AccountAddress) : Z :=
  Zsum_with (vpower vv) authors.

Definition known (vv : ValidatorVerifier) (authors : list AccountAddress) : Prop :=
  Forall (λ a, is_Some (get_voting_power vv a)) authors.

(** What the constructor establishes: powers are [u64] and the cached total is
    their sum, which fits [u64]. *)
Record vv_wf (vv : ValidatorVerifier) : Prop := {
  vv_wf_power : ∀ a i, address_to_validator_info vv !! a = Some i → 0 ≤ vci_voting_power i;
  vv_wf_total : vv_total_voting_power vv
                = power_of vv (btree_keys (address_to_validator_info vv));
  vv_wf_fits : vv_total_voting_power vv ≤ u64_max;
}.

(** The default quorum: more than two thirds of the total, without wrap-around. *)
Definition vv_bft (vv : ValidatorVerifier) : Prop :=
  vv_wf vv ∧ vv_quorum_voting_power vv = vv_total_voting_power vv * 2 / 3 + 1.

Section lemmas.
Implicit Types vv : ValidatorVerifier.

Lemma vpower_nonneg vv a : vv_wf vv → 0 ≤ vpower vv a.
Proof.
  intros Hwf. unfold vpower, get_voting_power.
  destruct (address_to_validator_info vv !! a) eqn:Ha; simpl; [|lia].
  by eapply vv_wf_power.
Qed.

Lemma power_of_infos vv :
  power_of vv (btree_keys (address_to_validator_info vv))
  = Zsum_with vci_voting_power (btree_iter (address_to_validator_info vv)).*2.
Proof.
  unfold power_of, btree_keys.
  assert (Hin : ∀ kv, kv ∈ btree_iter (address_to_validator_info vv) →
                address_to_validator_info vv !! kv.1 = Some kv.2).
  { intros [k v]. apply elem_of_btree_iter. }
  induction (btree_iter (address_to_validator_info vv)) as [|[k v] l IH]; csimpl; [done|].
  rewrite IH by (intros; apply Hin; by right). f_equal.
  unfold vpower, get_voting_power.
  assert (Hk : address_to_validator_info vv !! k = Some v) by (apply (Hin (k, v)); left).
  by rewrite Hk.
Qed.

Lemma known_in_keys vv authors :
  known vv authors ↔ authors ⊆ btree_keys (address_to_validator_info vv).
Proof.
  unfold known. rewrite Forall_forall. unfold get_voting_power.
  split; intros H a Ha; specialize (H a Ha).
  - apply elem_of_btree_keys. by apply fmap_is_Some in H.
  - apply fmap_is_Some. by apply elem_of_btree_keys.
Qed.

(** Distinct known authors never weigh more than the total. *)
Lemma power_of_le_total vv authors :
  vv_wf vv → NoDup authors → known vv authors →
  0 ≤ power_of vv authors ≤ vv_total_voting_power vv.
Proof.
  intros Hwf Hnd Hk%known_in_keys. split.
  - apply Zsum_with_nonneg. intros. by apply vpower_nonneg.
  - rewrite vv_wf_total by done. apply Zsum_with_submseteq.
    + by apply NoDup_submseteq.
    + intros. by apply vpower_nonneg.
Qed.

(** The accumulating loop of [check_voting_power] adds up the powers exactly:
    with distinct authors the [u64] accumulator cannot wrap. *)
Lemma voting_power_loop vv authors acc :
  vv_wf vv → known vv authors → 0 ≤ acc → acc + power_of vv authors ≤ u64_max →
  r_fold (λ acc author,
      match get_voting_power vv author with
      | Some voting_power => Ok (wrap64 (acc + voting_power))
      | None => Err UnknownAuthor
      end) authors acc = Ok (acc + power_of vv authors).
Proof.
  intros Hwf. revert acc. induction authors as [|a l IH]; intros acc Hk H0 Hmax; simpl.
  { f_equal. unfold power_of; simpl. lia. }
  inversion_clear Hk as [|? ? [p Hp] Hk'].
  assert (Hvp : vpower vv a = p) by (unfold vpower; by rewrite Hp).
  change (power_of vv (a :: l)) with (vpower vv a + power_of vv l) in *.
  pose proof (vpower_nonneg vv a Hwf).
  assert (0 ≤ power_of vv l) by (apply Zsum_with_nonneg; intros; by apply vpower_nonneg).
  rewrite Hp; simpl. unfold wrap64. rewrite Z.mod_small by (unfold u64_max in Hmax; lia).
  rewrite IH by (done || lia). f_equal. lia.
Qed.

Lemma voting_power_loop_unknown vv authors acc :
  ¬ known vv authors →
  r_fold (λ acc author,
      match get_voting_power vv author with
      | Some voting_power => Ok (wrap64 (acc + voting_power))
      | None => Err UnknownAuthor
      end) authors acc = Err UnknownAuthor.
Proof.
  revert acc. induction authors as [|a l IH]; intros acc Hk; simpl.
  { destruct Hk. constructor. }
  destruct (get_voting_power vv a) eqn:Hp; simpl; [|done].
  apply IH. intros Hl. apply Hk. constructor; eauto.
Qed.

(** The exact outcome of [check_voting_power] on distinct authors. *)
Lemma check_voting_power_eq vv authors :
  vv_wf vv → NoDup authors → known vv authors →
  check_voting_power vv authors =
    if power_of vv authors <? vv_quorum_voting_power vv
    then Err (TooLittleVotingPower (power_of vv authors) (vv_quorum_voting_power vv))
    else Ok ().
Proof.
  intros Hwf Hnd Hk. unfold check_voting_power.
  destruct (power_of_le_total vv authors Hwf Hnd Hk).
  pose proof (vv_wf_fits _ Hwf).
  rewrite voting_power_loop by (done || lia). simpl. done.
Qed.

Lemma check_voting_power_known vv authors :
  check_voting_power vv authors = Ok () → known vv authors.
Proof.
  intros H. assert (Hdec : Decision (known vv authors)) by (unfold known; apply _).
  destruct Hdec as [Hk|Hk]; [done|].
  unfold check_voting_power in H. by rewrite voting_power_loop_unknown in H by done.
Qed.

Lemma check_voting_power_ok vv authors :
  vv_wf vv → NoDup authors →
  check_voting_power vv authors = Ok () ↔
  known vv authors ∧ vv_quorum_voting_power vv ≤ power_of vv authors.
Proof.
  intros Hwf Hnd.
  assert (Hdec : Decision (known vv authors)) by (unfold known; apply _).
  destruct Hdec as [Hk|Hk].
  - rewrite check_voting_power_eq by done.
    destruct (Z.ltb_spec (power_of vv authors) (vv_quorum_voting_power vv)); naive_solver lia.
  - unfold check_voting_power. rewrite voting_power_loop_unknown by done. naive_solver.
Qed.
End lemmas.

(** ** The constructor *)

Lemma sum_voting_power_loop {E} (l : list ValidatorConsensusInfo) acc t :
  r_fold (λ sum x,
    expect (E:=E) (checked_add sum (vci_voting_power x))
           "sum of all voting power is greater than u64::max") l acc = Ok t →
  t = acc + Zsum_with vci_voting_power l ∧ (acc ≤ u64_max → t ≤ u64_max).
Proof.
  revert acc. induction l as [|x l IH]; intros acc H; simpl in *.
  { injection H as <-. lia. }
  unfold checked_add in H. destruct (Z.leb_spec (acc + vci_voting_power x) u64_max); [|done].
  simpl in H. apply IH in H. lia.
Qed.

(** A verifier built by [ValidatorVerifier::new] from [u64] powers is well
    formed, and has the two-thirds quorum as soon as twice its total fits [u64]. *)
Lemma ValidatorVerifier_new_wf {E} infos (vv : ValidatorVerifier) :
  (∀ a i, infos !! a = Some i → 0 ≤ vci_voting_power i) →
  ValidatorVerifier_new (E:=E) infos = Ok vv →
  vv_wf vv ∧ address_to_validator_info vv = infos.
Proof.
  intros Hpos H. unfold ValidatorVerifier_new in H. r_inv H. simpl.
  unfold sum_voting_power in Hs. apply sum_voting_power_loop in Hs as [Hs Hmax].
  split; [|done]. split; simpl; [done| |].
  - rewrite power_of_infos. simpl. lia.
  - apply Hmax. unfold u64_max. lia.
Qed.

Lemma ValidatorVerifier_new_bft {E} infos (vv : ValidatorVerifier) :
  (∀ a i, infos !! a = Some i → 0 ≤ vci_voting_power i) →
  infos ≠ ∅ →
  ValidatorVerifier_new (E:=E) infos = Ok vv →
  vv_total_voting_power vv * 2 ≤ u64_max →
  vv_bft vv.
Proof.
  intros Hpos Hne H Hfit.
  destruct (ValidatorVerifier_new_wf infos vv Hpos H) as [Hwf Hi]. split; [done|].
  assert (0 ≤ vv_total_voting_power vv).
  { rewrite vv_wf_total by done. apply Zsum_with_nonneg. intros. by apply vpower_nonneg. }
  unfold ValidatorVerifier_new in H. r_inv H. simpl in *.
  rewrite bool_decide_false by done.
  unfold u64_max in *. unfold wrap64.
  rewrite (Z.mod_small (a * 2)) by lia. rewrite Z.mod_small; [done|].
  assert (a * 2 / 3 ≤ a * 2) by (apply Z.div_le_upper_bound; lia).
  assert (0 ≤ a * 2 / 3) by (apply Z.div_pos; lia). 
  assert (a * 2 / 3 < 2 ^ 63) by (apply Z.div_lt_upper_bound; lia). lia.
Qed.

Lemma vv_total_nonneg vv : vv_wf vv → 0 ≤ vv_total_voting_power vv.
Proof.
  intros Hwf. rewrite vv_wf_total by done.
  apply Zsum_with_nonneg. intros. by apply vpower_nonneg.
Qed.

(** Two sets of distinct authors that both pass [check_voting_power] share more
    than a third of the total power. *)
Lemma quorum_overlap vv s1 s2 :
  vv_bft vv → NoDup s1 → NoDup s2 →
  check_voting_power vv s1 = Ok () → check_voting_power vv s2 = Ok () →
  vv_total_voting_power vv < 3 * power_of vv (filter (.∈ s2) s1).
Proof.
  intros [Hwf Hq] Hn1 Hn2 H1 H2.
  apply check_voting_power_ok in H1 as [Hk1 Hp1]; [|done..].
  apply check_voting_power_ok in H2 as [Hk2 Hp2]; [|done..].
  apply known_in_keys in Hk1, Hk2.
  pose proof (Zsum_with_overlap (vpower vv) s1 s2 _ Hn1 Hn2 Hk1 Hk2
                (λ a _, vpower_nonneg vv a Hwf)) as Ho.
  pose proof (vv_total_nonneg vv Hwf) as Ht. rewrite vv_wf_total in Ht, Hq |- * by done.
  unfold power_of in *. rewrite Hq in Hp1, Hp2.
  pose proof (Z.div_mod (Zsum_with (vpower vv)
     (btree_keys (address_to_validator_info vv)) * 2) 3 ltac:(lia)).
  pose proof (Z.mod_pos_bound (Zsum_with (vpower vv)
     (btree_keys (address_to_validator_info vv)) * 2) 3 ltac:(lia)). lia.
Qed.

(** Faulty validators hold at most a third of the power: every two quorums meet
    in a validator that is not faulty. *)
Definition tolerated (vv : ValidatorVerifier) (byz : AccountAddress → bool) : Prop :=
  3 * power_of vv (filter (λ a, byz a = true)
                     (btree_keys (address_to_validator_info vv)))
  ≤ vv_total_voting_power vv.

Lemma power_of_filter_le vv (P : AccountAddress → Prop) `{∀ x, Decision (P x)} l :
  vv_wf vv → NoDup l → known vv l → (∀ a, a ∈ l → P a) →
  power_of vv l ≤ power_of vv (filter P (btree_keys (address_to_validator_info vv))).
Proof.
  intros Hwf Hnd Hk%known_in_keys HP. apply Zsum_with_submseteq.
  - apply NoDup_submseteq; [done|]. intros a Ha.
    apply list_elem_of_filter. auto.
  - intros. by apply vpower_nonneg.
Qed.

Lemma quorums_share_honest vv byz s1 s2 :
  vv_bft vv → tolerated vv byz → NoDup s1 → NoDup s2 →
  check_voting_power vv s1 = Ok () → check_voting_power vv s2 = Ok () →
  ∃ a, a ∈ s1 ∧ a ∈ s2 ∧ byz a = false.
Proof.
  intros Hbft Hb Hn1 Hn2 H1 H2.
  pose proof (quorum_overlap vv s1 s2 Hbft Hn1 Hn2 H1 H2) as Ho.
  destruct (decide (Exists (λ a, byz a = false) (filter (.∈ s2) s1))) as [He|He].
  { apply Exists_exists in He as (a & [Ha2 Ha1]%list_elem_of_filter & Hb'). eauto. }
  exfalso. destruct Hbft as [Hwf Hq].
  apply check_voting_power_ok in H1 as [Hk1 _]; [|done..].
  assert (power_of vv (filter (.∈ s2) s1) ≤
          power_of vv (filter (λ a, byz a = true)
             (btree_keys (address_to_validator_info vv)))); [|unfold tolerated in Hb; lia].
  apply power_of_filter_le; [done|by apply NoDup_filter| |].
  - apply known_in_keys. apply known_in_keys in Hk1.
    intros a [_ Ha]%list_elem_of_filter. by apply Hk1.
  - intros a Ha. destruct (byz a) eqn:Hba; [done|].
    destruct He. apply Exists_exists. eauto.
Qed.

(** ** Aggregated signatures *)

Section aggregated.
Context `{C : Crypto} {T : Type} `{HT : CryptoHash T}.
Implicit Types vv : ValidatorVerifier.

Lemma vv_verify_ok vv a (m : T) s :
  vv_verify vv a m s = Ok () ↔
  ∃ pk, get_public_key vv a = Some pk ∧ verify_struct_signature pk m s = true.
Proof.
  unfold vv_verify. destruct (get_public_key vv a) as [pk|].
  - destruct (verify_struct_signature pk m s) eqn:Hv; split; intros H; try done; eauto.
    destruct H as (pk' & [= <-] & H). congruence.
  - split; [done|]. intros (? & ? & ?). done.
Qed.

(** What a successful aggregated check establishes. *)
Lemma verify_aggregated_ok vv (m : T) sigs :
  vv_wf vv →
  verify_aggregated_struct_signature vv m sigs = Ok () ↔
  known vv (btree_keys sigs) ∧
  vv_quorum_voting_power vv ≤ power_of vv (btree_keys sigs) ∧
  ∀ a s, sigs !! a = Some s → vv_verify vv a m s = Ok ().
Proof.
  intros Hwf. unfold verify_aggregated_struct_signature.
  assert (Hfor : r_for (λ '(author, signature), vv_verify vv author m signature)
                   (btree_iter sigs) = Ok () ↔
                 ∀ a s, sigs !! a = Some s → vv_verify vv a m s = Ok ()).
  { rewrite r_for_ok, Forall_forall. split.
    - intros H a s Hs. by apply (H (a, s)), elem_of_btree_iter.
    - intros H [a s] Hs. by apply H, elem_of_btree_iter. }
  split.
  - intros H. r_inv H. destruct a, a0.
    apply check_voting_power_ok in Hs0 as [??]; [|done|apply NoDup_btree_keys].
    pose proof (proj1 Hfor H). auto.
  - intros (Hk & Hq & Hv).
    rewrite (proj2 (check_voting_power_ok vv (btree_keys sigs) Hwf (NoDup_btree_keys _)))
      by done.
    unfold check_num_of_signatures, vv_len.
    assert (Hsub : btree_keys sigs ⊆+ btree_keys (address_to_validator_info vv)).
    { apply NoDup_submseteq; [apply NoDup_btree_keys|]. by apply known_in_keys. }
    apply submseteq_length in Hsub. rewrite !btree_keys_perm, !length_fmap in Hsub.
    rewrite !length_map_to_list in Hsub.
    destruct (Z.ltb_spec (Z.of_nat (size (address_to_validator_info vv)))
                (Z.of_nat (size sigs))); [lia|].
    simpl. exact (proj2 Hfor Hv).
Qed.

Lemma omap_keys_all vv (l : list (AccountAddress * Signature)) (m : T) :
  Forall (λ kv, is_Some (get_public_key vv kv.1)) l →
  Forall (λ ks, verify_struct_signature ks.1 m ks.2 = true)
    (omap (λ '(address, signature),
        (λ pub_key, (pub_key, signature)) <$> get_public_key vv address) l) →
  Forall (λ x, (let '(a, s) := x in vv_verify vv a m s) = Ok ()) l.
Proof.
  induction l as [|[a s] l IH]; intros Hk H; [constructor|].
  inversion_clear Hk as [|? ? [pk Hpk] Hk']. simpl in *. rewrite Hpk in H. simpl in H.
  inversion_clear H. constructor; [|by apply IH].
  apply vv_verify_ok. eauto.
Qed.
End aggregated.

(** ** Properties *)

(** C14: quorum intersection.  In a verifier that [ValidatorVerifier::new] builds
    from a non-empty validator set whose doubled total power fits [u64], two sets
    of distinct signers that both pass [check_voting_power] share more than a
    third of the total voting power. *)
Theorem quorum_intersection infos vv s1 s2 :
  (∀ a i, infos !! a = Some i → 0 ≤ vci_voting_power i) →
  infos ≠ ∅ →
  ValidatorVerifier_new (E:=string) infos = Ok vv →
  vv_total_voting_power vv * 2 ≤ u64_max →
  NoDup s1 → NoDup s2 →
  check_voting_power vv s1 = Ok () → check_voting_power vv s2 = Ok () →
  vv_total_voting_power vv < 3 * power_of vv (filter (.∈ s2) s1).
Proof.
  intros Hpos Hne Hnew Hfit Hn1 Hn2 H1 H2. apply quorum_overlap; [|done..].
  by eapply ValidatorVerifier_new_bft.
Qed.

Definition four_infos : BTreeMap ValidatorConsensusInfo :=
  list_to_map ((λ i, (i, mkValidatorConsensusInfo i 1)) <$> [1; 2; 3; 4]).
Definition four_validators : ValidatorVerifier := mkValidatorVerifier four_infos 3 4.

Lemma four_infos_nonneg a i : four_infos !! a = Some i → 0 ≤ vci_voting_power i.
Proof.
  intros Hi. apply (elem_of_list_to_map_2 (M:=gmap Z)) in Hi.
  apply list_elem_of_fmap in Hi as (y & [= -> ->] & _). simpl. lia.
Qed.

Lemma four_validators_bft : vv_bft four_validators.
Proof.
  apply (ValidatorVerifier_new_bft (E:=string) four_infos).
  - exact four_infos_nonneg.
  - vm_compute. discriminate.
  - vm_compute. reflexivity.
  - vm_compute. discriminate.
Qed.

Lemma quorum_intersection_witness :
  vv_total_voting_power four_validators
  < 3 * power_of four_validators (filter (.∈ [2; 3; 4]) [1; 2; 3]).
Proof.
  apply (quorum_intersection four_infos four_validators [1; 2; 3] [2; 3; 4]).
  - exact four_infos_nonneg.
  - vm_compute. discriminate.
  - vm_compute. reflexivity.
  - vm_compute. discriminate.
  - apply (bool_decide_unpack _). vm_compute. exact I.
  - apply (bool_decide_unpack _). vm_compute. exact I.
  - vm_compute. reflexivity.
  - vm_compute. reflexivity.
Defined.


Lemma batch_verify_aggregated_eq `{C : Crypto} `{!CryptoLaws C} {T} `{HT : CryptoHash T}
    (vv : ValidatorVerifier) (m : T) (sigs : BTreeMap Signature) :
  batch_verify_aggregated_signatures vv m sigs
  = verify_aggregated_struct_signature vv m sigs.
Proof.
  unfold batch_verify_aggregated_signatures.
  destruct (check_num_of_signatures vv sigs) as [[]| |] eqn:Hn; simpl.
  2, 3: unfold verify_aggregated_struct_signature; by rewrite Hn.
  destruct (check_voting_power vv (btree_keys sigs)) as [[]| |] eqn:Hp; simpl.
  2, 3: unfold verify_aggregated_struct_signature; rewrite Hn; simpl; by rewrite Hp.
  destruct (batch_verify m _) eqn:Hb; [|done].
  unfold verify_aggregated_struct_signature. rewrite Hn, Hp. simpl.
  symmetry. apply r_for_ok. apply omap_keys_all.
  - apply check_voting_power_known in Hp. apply Forall_forall. intros [a s] Ha.
    unfold known in Hp. rewrite Forall_forall in Hp.
    assert (a ∈ btree_keys sigs) as Ha' by (apply list_elem_of_fmap; by exists (a, s)).
    specialize (Hp a Ha'). unfold get_public_key, get_voting_power in *.
    rewrite fmap_is_Some in *. done.
  - by apply ed25519_batch_sound.
Qed.

(** The batched signature check is the one-by-one check.  For every verifier,
    message and signature map, [batch_verify_aggregated_signatures] returns
    exactly what [verify_aggregated_struct_signature] returns, errors included. *)
Theorem batch_verify_equiv `{C : Crypto} `{!CryptoLaws C} {T} `{HT : CryptoHash T}
    (vv : ValidatorVerifier) (m : T) (sigs : BTreeMap Signature) :
  batch_verify_aggregated_signatures vv m sigs
  = verify_aggregated_struct_signature vv m sigs.
Proof. apply batch_verify_aggregated_eq. Qed.

Definition three_signatures : BTreeMap Signature :=
  list_to_map ((λ k, (k, sign (C:=ref_crypto) (HT:=ref_crypto_hash 7) k 42)) <$> [1; 2; 3]).

Lemma batch_verify_equiv_witness :
  batch_verify_aggregated_signatures (C:=ref_crypto) (HT:=ref_crypto_hash 7)
    four_validators 42 three_signatures = Ok () ∧
  batch_verify_aggregated_signatures (C:=ref_crypto) (HT:=ref_crypto_hash 7)
    four_validators 42 three_signatures
  = verify_aggregated_struct_signature (C:=ref_crypto) (HT:=ref_crypto_hash 7)
    four_validators 42 three_signatures.
Proof.
  split; [vm_compute; reflexivity|].
  apply (batch_verify_equiv (C:=ref_crypto)).
Defined.
