(* ===== verification/LedgerTypes.v ===== *)
(** * LedgerTypes: blocks, ledger infos and epochs

    Models src/types/src/{block_info,ledger_info,epoch_state}.rs.  Accessors of
    the Rust structs are the record projections.  [LedgerInfoWithSignatures] has
    the single variant [V0], so the enum and the struct it wraps are one record. *)

From S2P Require Import Prelude Crypto ValidatorVerifier.

Abbreviation Round := Z (only parsing).
Abbreviation Version := Z (only parsing).

Record EpochState := mkEpochState {
  es_epoch : Z;
  es_verifier : ValidatorVerifier;
}.

#[export] Instance EpochState_eq_dec : EqDecision EpochState.
Proof. solve_decision. Defined.

#[export] Instance EpochState_countable : Countable EpochState.
Proof.
  refine (inj_countable' (λ e, (es_epoch e, es_verifier e))
    (λ p, mkEpochState p.1 p.2) _). by intros [].
Defined.

(** ** BlockInfo *)

Definition GENESIS_EPOCH : Z := 0.
Definition GENESIS_ROUND : Round := 0.
Definition GENESIS_VERSION : Version := 0.
Definition GENESIS_TIMESTAMP_USECS : Z := 0.

Record BlockInfo := mkBlockInfo {
  bi_epoch : Z;
  bi_round : Round;
  bi_id : HashValue;
  bi_executed_state_id : HashValue;
  bi_version : Version;
  bi_timestamp_usecs : Z;
  bi_next_epoch_state : option EpochState;
}.

#[export] Instance BlockInfo_eq_dec : EqDecision BlockInfo.
Proof. solve_decision. Defined.

#[export] Instance BlockInfo_countable : Countable BlockInfo.
Proof.
  refine (inj_countable'
    (λ b, (bi_epoch b, bi_round b, bi_id b, bi_executed_state_id b, bi_version b,
           bi_timestamp_usecs b, bi_next_epoch_state b))
    (λ '(e, r, i, x, v, t, n), mkBlockInfo e r i x v t n) _). by intros [].
Defined.

Definition BlockInfo_empty : BlockInfo :=
  mkBlockInfo 0 0 HashValue_zero HashValue_zero 0 0 None.

Definition BlockInfo_genesis {E} (genesis_state_root_hash : HashValue)
    (validator_set : ValidatorSet) : Result E BlockInfo :=
  let? verifier := ValidatorVerifier_from_validator_set validator_set in
  Ok (mkBlockInfo GENESIS_EPOCH GENESIS_ROUND HashValue_zero genesis_state_root_hash
        GENESIS_VERSION GENESIS_TIMESTAMP_USECS (Some (mkEpochState 1 verifier))).

(** The epoch after this block is committed. *)
Definition bi_next_block_epoch (b : BlockInfo) : Z :=
  match bi_next_epoch_state b with Some e => es_epoch e | None => bi_epoch b end.

Definition bi_has_reconfiguration (b : BlockInfo) : bool :=
  match bi_next_epoch_state b with Some _ => true | None => false end.

Definition allow_timestamp_change (b : BlockInfo) (timestamp : Z) : bool :=
  bi_has_reconfiguration b && (timestamp <=? bi_timestamp_usecs b).

Definition change_timestamp {E} (b : BlockInfo) (timestamp : Z) : Result E BlockInfo :=
  if allow_timestamp_change b timestamp then
    Ok (mkBlockInfo (bi_epoch b) (bi_round b) (bi_id b) (bi_executed_state_id b)
          (bi_version b) timestamp (bi_next_epoch_state b))
  else Panic "assertion failed: self.allow_timestamp_change(timestamp)".

(** Do the fields that execution does not change agree? *)
Definition match_ordered_only (b executed_block_info : BlockInfo) : bool :=
  (bi_epoch b =? bi_epoch executed_block_info)
  && (bi_round b =? bi_round executed_block_info)
  && (bi_id b =? bi_id executed_block_info)
  && ((bi_timestamp_usecs b =? bi_timestamp_usecs executed_block_info)
      || ((bi_timestamp_usecs executed_block_info <? bi_timestamp_usecs b)
          && bi_has_reconfiguration executed_block_info)).

(** Only the ordering is decided: the execution fields hold the dummy values. *)
Definition is_ordered_only (b : BlockInfo) : bool :=
  negb (bool_decide (b = BlockInfo_empty))
  && bool_decide (bi_next_epoch_state b = None)
  && (bi_executed_state_id b =? ACCUMULATOR_PLACEHOLDER_HASH)
  && (bi_version b =? 0).

(** ** LedgerInfo *)

Record LedgerInfo := mkLedgerInfo {
  li_commit_info : BlockInfo;
  li_consensus_data_hash : HashValue;
}.

#[export] Instance LedgerInfo_eq_dec : EqDecision LedgerInfo.
Proof. solve_decision. Defined.

#[export] Instance LedgerInfo_countable : Countable LedgerInfo.
Proof.
  refine (inj_countable' (λ l, (li_commit_info l, li_consensus_data_hash l))
    (λ p, mkLedgerInfo p.1 p.2) _). by intros [].
Defined.

Definition LedgerInfo_genesis {E} (genesis_state_root_hash : HashValue)
    (validator_set : ValidatorSet) : Result E LedgerInfo :=
  let? b := BlockInfo_genesis genesis_state_root_hash validator_set in
  Ok (mkLedgerInfo b HashValue_zero).

Definition li_epoch (li : LedgerInfo) : Z := bi_epoch (li_commit_info li).
Definition li_next_block_epoch (li : LedgerInfo) : Z := bi_next_block_epoch (li_commit_info li).
Definition li_round (li : LedgerInfo) : Round := bi_round (li_commit_info li).
Definition li_consensus_block_id (li : LedgerInfo) : HashValue := bi_id (li_commit_info li).
Definition li_transaction_accumulator_hash (li : LedgerInfo) : HashValue :=
  bi_executed_state_id (li_commit_info li).
Definition li_version (li : LedgerInfo) : Version := bi_version (li_commit_info li).
Definition li_timestamp_usecs (li : LedgerInfo) : Z := bi_timestamp_usecs (li_commit_info li).
Definition li_next_epoch_state (li : LedgerInfo) : option EpochState :=
  bi_next_epoch_state (li_commit_info li).
Definition li_ends_epoch (li : LedgerInfo) : bool :=
  match li_next_epoch_state li with Some _ => true | None => false end.
Definition li_set_consensus_data_hash (li : LedgerInfo) (h : HashValue) : LedgerInfo :=
  mkLedgerInfo (li_commit_info li) h.

(** ** LedgerInfoWithSignatures *)

Record LedgerInfoWithSignatures := mkLedgerInfoWithSignatures {
  lis_ledger_info : LedgerInfo;
  lis_signatures : BTreeMap Signature;
}.

#[export] Instance LedgerInfoWithSignatures_eq_dec : EqDecision LedgerInfoWithSignatures.
Proof. solve_decision. Defined.

Definition LedgerInfoWithSignatures_genesis {E} (genesis_state_root_hash : HashValue)
    (validator_set : ValidatorSet) : Result E LedgerInfoWithSignatures :=
  let? li := LedgerInfo_genesis genesis_state_root_hash validator_set in
  Ok (mkLedgerInfoWithSignatures li ∅).

Definition lis_commit_info (l : LedgerInfoWithSignatures) : BlockInfo :=
  li_commit_info (lis_ledger_info l).

Definition lis_add_signature (l : LedgerInfoWithSignatures) (validator : AccountAddress)
    (signature : Signature) : LedgerInfoWithSignatures :=
  mkLedgerInfoWithSignatures (lis_ledger_info l)
    (or_insert validator signature (lis_signatures l)).

Definition lis_remove_signature (l : LedgerInfoWithSignatures) (validator : AccountAddress)
    : LedgerInfoWithSignatures :=
  mkLedgerInfoWithSignatures (lis_ledger_info l) (delete validator (lis_signatures l)).

Definition lis_verify_signatures `{C : Crypto} `{HLI : CryptoHash LedgerInfo}
    (l : LedgerInfoWithSignatures) (validator : ValidatorVerifier)
    : Result VerifyError unit :=
  batch_verify_aggregated_signatures validator (lis_ledger_info l) (lis_signatures l).

Definition lis_check_voting_power (l : LedgerInfoWithSignatures)
    (validator : ValidatorVerifier) : Result VerifyError unit :=
  check_voting_power validator (btree_keys (lis_signatures l)).

(** [EpochState::empty] *)
Definition EpochState_empty {E} : Result E EpochState :=
  let? verifier := ValidatorVerifier_new ∅ in
  Ok (mkEpochState 0 verifier).
