(* ===== verification/EpochChange.v ===== *)
(** * EpochChange: verifiers, waypoints and epoch change proofs

    Models src/types/src/{epoch_change,epoch_state,waypoint}.rs.  The trait
    [Verifier] is a class; [&dyn Verifier], which the verification of an epoch
    change proof replaces as it moves through the epochs, is the record of the
    trait's methods. *)

From S2P Require Import Prelude Crypto ValidatorVerifier LedgerTypes.

(** ** The trait *)

Class Verifier (V : Type) := {
  verifier_verify : V → LedgerInfoWithSignatures → AnyResult unit;
  epoch_change_verification_required : V → Z → bool;
  is_ledger_info_stale : V → LedgerInfo → bool;
}.

(** [&dyn Verifier] *)
Record DynVerifier := mkDynVerifier {
  dyn_verify : LedgerInfoWithSignatures → AnyResult unit;
  dyn_epoch_change_verification_required : Z → bool;
  dyn_is_ledger_info_stale : LedgerInfo → bool;
}.

Definition to_dyn {V} `{Verifier V} (v : V) : DynVerifier :=
  mkDynVerifier (verifier_verify v) (epoch_change_verification_required v)
    (is_ledger_info_stale v).

(** ** Waypoint *)

Record Waypoint := mkWaypoint {
  wp_version : Version;
  wp_value : HashValue;
}.

#[export] Instance Waypoint_eq_dec : EqDecision Waypoint.
Proof. solve_decision. Defined.

Record Ledger2WaypointConverter := mkLedger2WaypointConverter {
  l2w_epoch : Z;
  l2w_root_hash : HashValue;
  l2w_version : Version;
  l2w_timestamp_usecs : Z;
  l2w_next_epoch_state : option EpochState;
}.

Definition Ledger2WaypointConverter_new (li : LedgerInfo) : Ledger2WaypointConverter :=
  mkLedger2WaypointConverter (li_epoch li) (li_transaction_accumulator_hash li)
    (li_version li) (li_timestamp_usecs li) (li_next_epoch_state li).

Record EpochChangeProof := mkEpochChangeProof {
  ecp_ledger_info_with_sigs : list LedgerInfoWithSignatures;
  ecp_more : bool;
}.

(** [Iterator::skip_while] *)
Fixpoint skip_while {A} (p : A → bool) (l : list A) : list A :=
  match l with
  | x :: l' => if p x then skip_while p l' else l
  | [] => []
  end.

Section epoch_change.
Context `{C : Crypto} `{HLI : CryptoHash LedgerInfo} `{HWP : CryptoHash Ledger2WaypointConverter}.

Definition Waypoint_new_any (li : LedgerInfo) : Waypoint :=
  let converter := Ledger2WaypointConverter_new li in
  mkWaypoint (li_version li) (crypto_hash converter).

Definition Waypoint_new_epoch_boundary (li : LedgerInfo) : AnyResult Waypoint :=
  ensure (li_ends_epoch li) "No validator set" ;?
  Ok (Waypoint_new_any li).

Definition Waypoint_verify (w : Waypoint) (li : LedgerInfo) : AnyResult unit :=
  ensure (li_version li =? wp_version w) "Waypoint version mismatch" ;?
  let converter := Ledger2WaypointConverter_new li in
  ensure (crypto_hash converter =? wp_value w) "Waypoint value mismatch" ;?
  Ok ().

#[export] Instance Waypoint_Verifier : Verifier Waypoint := {|
  verifier_verify w lis := Waypoint_verify w (lis_ledger_info lis);
  epoch_change_verification_required _ _ := true;
  is_ledger_info_stale w li := li_version li <? wp_version w;
|}.

Definition EpochState_verify (es : EpochState) (lis : LedgerInfoWithSignatures)
    : AnyResult unit :=
  ensure (es_epoch es =? li_epoch (lis_ledger_info lis)) "LedgerInfo has unexpected epoch" ;?
  r_map_err VerifyError_to_string (lis_verify_signatures lis (es_verifier es)) ;?
  Ok ().

#[export] Instance EpochState_Verifier : Verifier EpochState := {|
  verifier_verify := EpochState_verify;
  epoch_change_verification_required es epoch := es_epoch es <? epoch;
  is_ledger_info_stale es li := li_epoch li <? es_epoch es;
|}.

(** ** EpochChangeProof *)

Definition EpochChangeProof_epoch (p : EpochChangeProof) : AnyResult Z :=
  ok_or ((λ lis, li_epoch (lis_ledger_info lis)) <$> head (ecp_ledger_info_with_sigs p))
    "Empty EpochChangeProof".

(** One iteration of the loop: check the jump, then trust the epoch it starts. *)
Definition verify_epoch_jump (verifier_ref : DynVerifier) (lis : LedgerInfoWithSignatures)
    : AnyResult DynVerifier :=
  dyn_verify verifier_ref lis ;?
  let? next := ok_or (li_next_epoch_state (lis_ledger_info lis))
                 "LedgerInfo doesn't carry a ValidatorSet" in
  Ok (to_dyn next).

Definition EpochChangeProof_verify (p : EpochChangeProof) (verifier : DynVerifier)
    : AnyResult LedgerInfoWithSignatures :=
  ensure (negb (bool_decide (ecp_ledger_info_with_sigs p = []))) "The EpochChangeProof is empty" ;?
  let? last_li := expect (last (ecp_ledger_info_with_sigs p)) "unwrap on None" in
  ensure (negb (dyn_is_ledger_info_stale verifier (lis_ledger_info last_li)))
    "The EpochChangeProof is stale as our verifier is already ahead of the entire EpochChangeProof" ;?
  r_fold verify_epoch_jump
    (skip_while (λ lis, dyn_is_ledger_info_stale verifier (lis_ledger_info lis))
       (ecp_ledger_info_with_sigs p)) verifier ;?
  expect (last (ecp_ledger_info_with_sigs p)) "unwrap on None".

(** ** The chain of trust *)

(** [li] is accepted by the epoch [es]: it is of that epoch and a quorum of its
    validators signed it. *)
Definition accepted_by (es : EpochState) (lis : LedgerInfoWithSignatures) : Prop :=
  verifier_verify es lis = Ok ().

(** A chain of epoch changes from [es] ending in the epoch [es']. *)
Inductive epoch_chain : EpochState → list LedgerInfoWithSignatures → EpochState → Prop :=
| epoch_chain_nil es : epoch_chain es [] es
| epoch_chain_cons es lis next ls es' :
    accepted_by es lis →
    li_next_epoch_state (lis_ledger_info lis) = Some next →
    epoch_chain next ls es' →
    epoch_chain es (lis :: ls) es'.

Lemma verify_jumps_chain (ls : list LedgerInfoWithSignatures) es v :
  r_fold verify_epoch_jump ls (to_dyn es) = Ok v →
  ∃ es', epoch_chain es ls es' ∧ v = to_dyn es' ∧
    (∀ lis, last ls = Some lis → li_next_epoch_state (lis_ledger_info lis) = Some es').
Proof.
  revert es. induction ls as [|lis ls IH]; intros es Hrun; cbn [r_fold] in Hrun.
  - injection Hrun as <-. exists es. split_and!; [constructor|done|done].
  - apply r_bind_ok in Hrun as (v1 & Hj & Hrun). unfold verify_epoch_jump in Hj.
    apply r_bind_ok in Hj as ([] & Hv & Hj). apply r_bind_ok in Hj as (next & Hn & [= <-]).
    apply ok_or_ok in Hn. apply IH in Hrun as (es' & Hc & -> & Hlast).
    exists es'. split_and!; [by econstructor|done|].
    intros lis' Hl. destruct ls as [|y ls]; [|by apply Hlast].
    injection Hl as <-. inversion Hc; subst. done.
Qed.

Lemma skip_while_suffix {A} (p : A → bool) l :
  ∃ stale, l = stale ++ skip_while p l ∧ Forall (λ x, p x = true) stale ∧
    match skip_while p l with x :: _ => p x = false | [] => True end.
Proof.
  induction l as [|x l IH]; simpl.
  - by exists [].
  - destruct (p x) eqn:Hx.
    + destruct IH as (stale & Hl & Hall & Hh). exists (x :: stale).
      split_and!; [by rewrite Hl at 1|by constructor|done].
    + exists []. split_and!; [done|constructor|done].
Qed.
End epoch_change.

(** ** Trust along the history of the chain *)

(** The ledger info returned is not older than the verifier. *)
Lemma EpochChangeProof_verify_fresh `{C : Crypto} `{HLI : CryptoHash LedgerInfo} p v lis :
  EpochChangeProof_verify p v = Ok lis → dyn_is_ledger_info_stale v (lis_ledger_info lis) = false.
Proof.
  intros Hrun. unfold EpochChangeProof_verify in Hrun.
  apply r_bind_ok in Hrun as ([] & _ & Hrun). apply r_bind_ok in Hrun as (last_li & Hlast & Hrun).
  apply expect_ok in Hlast. apply r_bind_ok in Hrun as ([] & Hstale & Hrun).
  apply ensure_ok, negb_true_iff in Hstale.
  apply r_bind_ok in Hrun as (v' & Hfold & Hrun). apply expect_ok in Hrun. congruence.
Qed.

Section history.
Context `{C : Crypto} `{HLI : CryptoHash LedgerInfo} `{HWP : CryptoHash Ledger2WaypointConverter}.

(** The validator set of every epoch, and what the protocol guarantees about it:
    a quorum of the validators of an epoch only signs the end of the epoch with
    the next epoch's validator set. *)
Context (history : Z → EpochState).
Hypothesis history_epoch : ∀ e, es_epoch (history e) = e.
Hypothesis history_next : ∀ e lis next,
  accepted_by (history e) lis → li_next_epoch_state (lis_ledger_info lis) = Some next →
  next = history (e + 1).

Lemma accepted_epoch es lis : accepted_by es lis → li_epoch (lis_ledger_info lis) = es_epoch es.
Proof.
  unfold accepted_by. simpl. unfold EpochState_verify. intros H.
  apply r_bind_ok in H as ([] & H%ensure_ok & _). apply Z.eqb_eq in H. done.
Qed.

Lemma epoch_chain_history e ls es' lis :
  epoch_chain (history e) ls es' → last ls = Some lis →
  e ≤ li_epoch (lis_ledger_info lis) ∧
  es' = history (li_epoch (lis_ledger_info lis) + 1) ∧
  accepted_by (history (li_epoch (lis_ledger_info lis))) lis.
Proof using history_epoch history_next.
  remember (history e) as es eqn:Hes. intros Hc. revert e Hes.
  induction Hc as [|es lis0 next ls es' Hacc Hnext Hc IH]; intros e -> Hl; [done|].
  pose proof (history_next e lis0 next Hacc Hnext) as ->.
  destruct ls as [|y ls].
  - injection Hl as <-. inversion Hc; subst.
    rewrite (accepted_epoch _ _ Hacc), history_epoch. split_and!; [lia|done..].
  - destruct (IH (e + 1) eq_refl Hl) as (Hle & -> & ?). split_and!; [lia|done..].
Qed.

(** The verifiers a client may start from: the validator set of some epoch, or a
    waypoint of the end of some epoch. *)
Definition trusted_start (v : DynVerifier) (e : Z) : Prop :=
  v = to_dyn (history e) ∨
  ∃ li0, v = to_dyn (Waypoint_new_any li0) ∧
    li_epoch li0 = e ∧ li_next_epoch_state li0 = Some (history (e + 1)).

Context (waypoint_hash_inj : Inj (=) (=) (crypto_hash (T:=Ledger2WaypointConverter))).

Lemma Waypoint_verify_inj li0 li :
  Waypoint_verify (Waypoint_new_any li0) li = Ok () →
  Ledger2WaypointConverter_new li = Ledger2WaypointConverter_new li0.
Proof using waypoint_hash_inj.
  unfold Waypoint_verify. simpl. intros H. r_inv H. apply Z.eqb_eq in Hs0.
  by apply (inj crypto_hash) in Hs0.
Qed.

Lemma epoch_change_verify_history v e p lis :
  trusted_start v e → EpochChangeProof_verify p v = Ok lis →
  e ≤ li_epoch (lis_ledger_info lis) ∧
  li_next_epoch_state (lis_ledger_info lis) =
    Some (history (li_epoch (lis_ledger_info lis) + 1)) ∧
  (accepted_by (history (li_epoch (lis_ledger_info lis))) lis ∨ dyn_verify v lis = Ok ()).
Proof using history_epoch history_next waypoint_hash_inj.
  intros Hstart Hrun. unfold EpochChangeProof_verify in Hrun.
  apply r_bind_ok in Hrun as ([] & _ & Hrun). apply r_bind_ok in Hrun as (last_li & Hlast & Hrun).
  apply expect_ok in Hlast. apply r_bind_ok in Hrun as ([] & Hstale & Hrun).
  apply ensure_ok, negb_true_iff in Hstale.
  apply r_bind_ok in Hrun as (v' & Hfold & Hrun). apply expect_ok in Hrun.
  rewrite Hlast in Hrun. injection Hrun as ->.
  destruct (skip_while_suffix (λ lis, dyn_is_ledger_info_stale v (lis_ledger_info lis))
    (ecp_ledger_info_with_sigs p)) as (stale & Hsplit & Hall & _).
  set (ls := skip_while _ _) in *.
  assert (Hlast' : last ls = Some lis).
  { rewrite Hsplit, last_app in Hlast. destruct (last ls); [done|].
    apply last_Some_elem_of in Hlast. rewrite Forall_forall in Hall.
    apply Hall in Hlast. congruence. }
  destruct Hstart as [->|(li0 & -> & He & Hn)].
  - apply verify_jumps_chain in Hfold as (es' & Hc & _ & Hnext).
    destruct (epoch_chain_history e ls es' lis Hc Hlast') as (Hle & -> & ?). auto.
  - destruct ls as [|x ls']; [done|]. cbn [r_fold] in Hfold.
    apply r_bind_ok in Hfold as (v1 & Hj & Hfold). unfold verify_epoch_jump in Hj.
    apply r_bind_ok in Hj as ([] & Hv & Hj). apply r_bind_ok in Hj as (next & Hnx & [= <-]).
    apply ok_or_ok in Hnx. pose proof Hv as Hv'. apply Waypoint_verify_inj in Hv.
    injection Hv as Hx1 _ _ _ Hx2. rewrite Hnx, Hn in Hx2. injection Hx2 as ->.
    apply verify_jumps_chain in Hfold as (es' & Hc & _ & Hnext).
    destruct ls' as [|y ls'].
    + injection Hlast' as <-. rewrite Hnx, Hx1, He. split_and!; [lia|done|].
      by right.
    + destruct (epoch_chain_history (e + 1) (y :: ls') es' lis Hc Hlast') as (Hle & -> & ?).
      split_and!; [lia|by apply Hnext|by left].
Qed.
End history.

(** ** A concrete history

    Two epochs of the same four validators, whose keys only verify two ledger infos:
    the end of epoch 1 and a ledger info of epoch 2. *)

Lemma accepted_signed `{C : Crypto} `{!CryptoLaws C} `{HLI : CryptoHash LedgerInfo} es lis :
  vv_wf (es_verifier es) → 0 < vv_quorum_voting_power (es_verifier es) → accepted_by es lis →
  ∃ a pk s, get_public_key (es_verifier es) a = Some pk ∧
    verify_struct_signature pk (lis_ledger_info lis) s = true.
Proof.
  intros Hwf Hq Hacc. unfold accepted_by in Hacc. simpl in Hacc. unfold EpochState_verify in Hacc.
  apply r_bind_ok in Hacc as ([] & _ & Hacc). apply r_bind_ok in Hacc as ([] & Hsig & _).
  apply r_map_err_ok in Hsig. unfold lis_verify_signatures in Hsig.
  rewrite batch_verify_aggregated_eq in Hsig.
  apply verify_aggregated_ok in Hsig as (_ & Hpow & Hall); [|done].
  destruct (btree_keys (lis_signatures lis)) as [|a l] eqn:Hk.
  - unfold power_of in Hpow. simpl in Hpow. lia.
  - assert (a ∈ btree_keys (lis_signatures lis)) as [s Hs]%elem_of_btree_keys by (rewrite Hk; left).
    apply Hall, vv_verify_ok in Hs as (pk & Hpk & Hv). eauto.
Qed.

Definition sample_history (e : Z) : EpochState := mkEpochState e four_validators.

Definition sample_li1 (root : HashValue) : LedgerInfo :=
  mkLedgerInfo (mkBlockInfo 1 7 100 root 1 50 (Some (sample_history 2))) 0.
Definition sample_li2 (root : HashValue) : LedgerInfo :=
  mkLedgerInfo (mkBlockInfo 2 3 101 root 2 60 None) 0.

Section sample.
Context (r1 r2 : HashValue).

Definition sample_li_hash : CryptoHash LedgerInfo := λ li,
  if decide (li = sample_li1 r1) then [1] else if decide (li = sample_li2 r2) then [2] else [0].

(** The validators' keys 1 to 4 verify the two ledger infos only. *)
Definition sample_crypto : Crypto := {|
  sha3_256 := sha3_256 (Crypto:=ref_crypto);
  ed25519_public := λ sk, 11 + Z.abs sk;
  ed25519_sign := λ sk m, 0;
  ed25519_verify := λ pk m s,
    if 10 <? pk then true else (s =? 1) && negb (bool_decide (m = [0]));
  ed25519_verify_batch := λ m l, false;
|}.

#[local] Instance sample_crypto_laws : CryptoLaws sample_crypto.
Proof.
  split; [|done]. intros sk m. unfold ed25519_verify, ed25519_public, sample_crypto.
  by rewrite (proj2 (Z.ltb_lt _ _)) by lia.
Qed.

Lemma sample_accepted e lis :
  accepted_by (C:=sample_crypto) (HLI:=sample_li_hash) (sample_history e) lis →
  e = li_epoch (lis_ledger_info lis) ∧
  (lis_ledger_info lis = sample_li1 r1 ∨ lis_ledger_info lis = sample_li2 r2).
Proof.
  intros Hacc. pose proof (accepted_epoch _ _ Hacc) as He. split; [done|].
  apply accepted_signed in Hacc as (a & pk & s & Hpk & Hv).
  - unfold get_public_key in Hpk. apply fmap_Some in Hpk as (i & Hi & ->).
    apply (elem_of_list_to_map_2 (M:=gmap Z)) in Hi.
    apply list_elem_of_fmap in Hi as (y & [= -> ->] & Hy).
    unfold verify_struct_signature, ed25519_verify, sample_crypto in Hv. simpl in Hv.
    destruct (Z.ltb_spec 10 y).
    + exfalso. revert Hy. rewrite !elem_of_cons, elem_of_nil. lia.
    + apply andb_true_iff in Hv as [_ Hv]. apply negb_true_iff, bool_decide_eq_false in Hv.
      unfold signing_message, sample_li_hash in Hv. repeat case_decide; first [by left | by right | done].
  - apply four_validators_bft.
  - simpl. lia.
Qed.
End sample.

(** Ledger infos signed by three of the four validators. *)
Definition sample_signed (li : LedgerInfo) : LedgerInfoWithSignatures :=
  mkLedgerInfoWithSignatures li (list_to_map [(1, 1); (2, 1); (4, 1)]).

(** The fields of the converter, one after the other. *)
Definition flat_infos (l : list (Z * ValidatorConsensusInfo)) : list Z :=
  l ≫= λ ai, [ai.1; vci_public_key ai.2; vci_voting_power ai.2].
Definition flat_epoch_state (es : EpochState) : list Z :=
  es_epoch es :: vv_quorum_voting_power (es_verifier es) ::
  vv_total_voting_power (es_verifier es) ::
  flat_infos (map_to_list (address_to_validator_info (es_verifier es))).
Definition ref_waypoint_hash : CryptoHash Ledger2WaypointConverter := λ w,
  l2w_epoch w :: l2w_root_hash w :: l2w_version w :: l2w_timestamp_usecs w ::
  match l2w_next_epoch_state w with Some es => flat_epoch_state es | None => [] end.

Lemma flat_infos_inj l1 l2 : flat_infos l1 = flat_infos l2 → l1 = l2.
Proof.
  revert l2. induction l1 as [|[a [pk p]] l1 IH]; intros [|[a' [pk' p']] l2] H; try done.
  unfold flat_infos in H. csimpl in H. injection H as -> -> -> H. f_equal. by apply IH.
Qed.

Lemma flat_epoch_state_inj e1 e2 : flat_epoch_state e1 = flat_epoch_state e2 → e1 = e2.
Proof.
  destruct e1 as [e [m q t]], e2 as [e' [m' q' t']]. unfold flat_epoch_state. simpl.
  intros [= -> -> -> Hm%flat_infos_inj]. do 2 f_equal. apply map_to_list_inj. by rewrite Hm.
Qed.

Lemma ref_waypoint_hash_inj :
  Inj (=) (=) (crypto_hash (C:=sample_crypto) (HT:=ref_waypoint_hash)).
Proof.
  intros [? ? ? ? n1] [? ? ? ? n2] H%ref_sha3_inj. unfold signing_message, ref_waypoint_hash in H.
  simpl in H. injection H as -> -> -> -> H. f_equal.
  destruct n1 as [e1|], n2 as [e2|]; try done. by apply flat_epoch_state_inj in H as ->.
Qed.

(** C17: the chain of trust.  From the validator set of an epoch, or from a waypoint of
    the end of an epoch, an accepted epoch change proof ends in a ledger info that
    carries the history's validator set for the epoch after it. *)
Theorem epoch_change_trust `{C : Crypto} `{HLI : CryptoHash LedgerInfo}
    `{HWP : CryptoHash Ledger2WaypointConverter} (history : Z → EpochState) v e p lis :
  (∀ e, es_epoch (history e) = e) →
  (∀ e lis next, accepted_by (history e) lis →
     li_next_epoch_state (lis_ledger_info lis) = Some next → next = history (e + 1)) →
  Inj (=) (=) (crypto_hash (T:=Ledger2WaypointConverter)) →
  trusted_start history v e → EpochChangeProof_verify p v = Ok lis →
  e ≤ li_epoch (lis_ledger_info lis) ∧
  li_next_epoch_state (lis_ledger_info lis) =
    Some (history (li_epoch (lis_ledger_info lis) + 1)).
Proof.
  intros Hep Hnx Hinj Hst Hrun. eapply epoch_change_verify_history in Hrun; try done.
  destruct Hrun as (? & ? & _). done.
Qed.

Lemma epoch_change_trust_witness :
  li_next_epoch_state (sample_li1 0) = Some (sample_history 2).
Proof.
  refine (proj2 (epoch_change_trust (C:=sample_crypto) (HLI:=sample_li_hash 0 0)
    (HWP:=ref_waypoint_hash) sample_history (to_dyn (sample_history 1)) 1
    (mkEpochChangeProof [sample_signed (sample_li1 0)] false) (sample_signed (sample_li1 0))
    _ _ _ _ _)).
  - intros e. reflexivity.
  - intros e lis next [He [Hl|Hl]]%sample_accepted Hn; rewrite Hl in He, Hn; simpl in He, Hn;
      [|discriminate Hn]. injection Hn as <-. subst e. reflexivity.
  - exact ref_waypoint_hash_inj.
  - left. reflexivity.
  - vm_compute. reflexivity.
Defined.
