(* ===== verification/AccumulatorProof.v ===== *)
(** * AccumulatorProof: the proofs exchanged with clients

    Models src/types/src/proof/definition.rs and mod.rs: membership, range,
    extension and consistency proofs of accumulators, sparse Merkle proofs, and
    the proofs of transaction infos, events and account states composed of them;
    and [TransactionInfo] of src/types/src/transaction/mod.rs.  The node hash of
    each hasher (transaction accumulator, event accumulator, sparse Merkle tree)
    is a [MerkleHasher]. *)

From S2P Require Import Prelude Bits Crypto Accumulator Position ValidatorVerifier LedgerTypes.

(** ** TransactionInfo *)

Record ModuleId := mkModuleId { mid_address : AccountAddress; mid_name : string }.

Inductive AbortLocation :=
| ALModule (id : ModuleId)
| ALScript.

Inductive KeptVMStatus :=
| Executed
| OutOfGas
| MoveAbort (location : AbortLocation) (code : Z)
| ExecutionFailure (location : AbortLocation) (function code_offset : Z)
| MiscellaneousError.

Definition KeptVMStatus_is_success (s : KeptVMStatus) : bool :=
  match s with Executed => true | _ => false end.

(** The single variant [V0] and the struct it wraps are one record. *)
Record TransactionInfo := mkTransactionInfo {
  ti_gas_used : Z;
  ti_status : KeptVMStatus;
  ti_transaction_hash : HashValue;
  ti_event_root_hash : HashValue;
  ti_state_change_hash : HashValue;
  ti_state_checkpoint_hash : option HashValue;
}.

Definition TransactionInfo_new (transaction_hash state_change_hash event_root_hash : HashValue)
    (gas_used : Z) (status : KeptVMStatus) : TransactionInfo :=
  mkTransactionInfo gas_used status transaction_hash event_root_hash state_change_hash None.

(** ** AccumulatorProof *)

(** [AccumulatorProof<H>] is its list of siblings, bottom level first. *)
Abbreviation AccumulatorProof := (list HashValue) (only parsing).

Section accumulator_proof.
Context `{MH : MerkleHasher}.

(** The [fold] over the siblings: the hash and the index of the ancestor. *)
Definition proof_fold (siblings : list HashValue) (element_hash : HashValue)
    (element_index : Z) : HashValue * Z :=
  foldl (λ '(hash, index) sibling_hash,
      (if index mod 2 =? 0 then merkle_node hash sibling_hash
       else merkle_node sibling_hash hash, index / 2))
    (element_hash, element_index) siblings.

Definition AccumulatorProof_verify (siblings : AccumulatorProof)
    (expected_root_hash element_hash : HashValue) (element_index : Z) : AnyResult unit :=
  ensure (Z.of_nat (length siblings) <=? MAX_ACCUMULATOR_PROOF_DEPTH)
    "Accumulator proof has too many siblings." ;?
  let actual_root_hash := (proof_fold siblings element_hash element_index).1 in
  ensure (actual_root_hash =? expected_root_hash) "Root hashes do not match.".

(** ** AccumulatorRangeProof *)

Record AccumulatorRangeProof := mkAccumulatorRangeProof {
  left_siblings : list HashValue;
  right_siblings : list HashValue;
}.

Definition AccumulatorRangeProof_new_empty : AccumulatorRangeProof :=
  mkAccumulatorRangeProof [] [].

(** [chunks_exact(2)]: the parents of the complete pairs, and the remainder. *)
Fixpoint combine_chunks (children : list HashValue) : list HashValue * list HashValue :=
  match children with
  | left_hash :: right_hash :: rest =>
      let '(parents, remainder) := combine_chunks rest in
      (merkle_node left_hash right_hash :: parents, remainder)
  | remainder => ([], remainder)
  end.

(** One iteration of the [while] loop of [AccumulatorRangeProof::verify]:
    the hashes of the next level and the two sibling iterators. *)
Definition range_level (first_pos : Position) (current_hashes lefts rights : list HashValue)
    : AnyResult (list HashValue * list HashValue * list HashValue) :=
  let? (first, children, lefts) :=
    if is_right_child first_pos then
      let? (left_hash, lefts) :=
        ok_or (match lefts with h :: lefts => Some (h, lefts) | [] => None end)
          "First child is a right child, but missing sibling on the left." in
      let? (right_hash, children) :=
        expect (match current_hashes with h :: c => Some (h, c) | [] => None end)
          "The first leaf must exist." in
      Ok ([merkle_node left_hash right_hash], children, lefts)
    else Ok ([], current_hashes, lefts) in
  let '(parents, remainder) := combine_chunks children in
  match remainder with
  | [] => Ok (first ++ parents, lefts, rights)
  | left_hash :: _ =>
      let? (right_hash, rights) :=
        ok_or (match rights with h :: rights => Some (h, rights) | [] => None end)
          "Last child is a left child, but missing sibling on the right." in
      Ok (first ++ parents ++ [merkle_node left_hash right_hash], lefts, rights)
  end.

(** The [while] loop; each iteration shortens the three lists together. *)
Fixpoint range_loop (fuel : nat) (first_pos : Position)
    (current_hashes lefts rights : list HashValue) : AnyResult (list HashValue) :=
  if (1 <? Z.of_nat (length current_hashes)) || negb (bool_decide (lefts = []))
     || negb (bool_decide (rights = [])) then
    match fuel with
    | O => Panic "the loop did not finish"
    | S fuel =>
        let? (parents, lefts, rights) := range_level first_pos current_hashes lefts rights in
        range_loop fuel (parent first_pos) parents lefts rights
    end
  else Ok current_hashes.

Definition AccumulatorRangeProof_verify (p : AccumulatorRangeProof)
    (expected_root_hash : HashValue) (first_leaf_index : option Z)
    (leaf_hashes : list HashValue) : AnyResult unit :=
  match first_leaf_index with
  | None =>
      ensure (bool_decide (leaf_hashes = []))
        "first_leaf_index indicated empty list while leaf_hashes is not empty." ;?
      ensure (bool_decide (left_siblings p = []) && bool_decide (right_siblings p = []))
        "No siblings are needed."
  | Some first_leaf_index =>
      ensure (Z.of_nat (length (left_siblings p)) <=? MAX_ACCUMULATOR_PROOF_DEPTH)
        "Proof has too many left siblings." ;?
      ensure (Z.of_nat (length (right_siblings p)) <=? MAX_ACCUMULATOR_PROOF_DEPTH)
        "Proof has too many right siblings." ;?
      ensure (negb (bool_decide (leaf_hashes = [])))
        "leaf_hashes is empty while first_leaf_index indicated non-empty list." ;?
      let? current_hashes :=
        range_loop
          (length leaf_hashes + length (left_siblings p) + length (right_siblings p))
          (from_leaf_index first_leaf_index) leaf_hashes (left_siblings p) (right_siblings p) in
      let? root := expect (head current_hashes) "index out of bounds" in
      ensure (root =? expected_root_hash) "Root hashes do not match."
  end.

(** ** AccumulatorExtensionProof *)

Record AccumulatorExtensionProof := mkAccumulatorExtensionProof {
  aep_frozen_subtree_roots : list HashValue;
  aep_num_leaves : Z;
  aep_leaves : list HashValue;
}.

Definition AccumulatorExtensionProof_verify (p : AccumulatorExtensionProof)
    (original_root : HashValue) : AnyResult InMemoryAccumulator :=
  let? original_tree :=
    InMemoryAccumulator_new (aep_frozen_subtree_roots p) (aep_num_leaves p) in
  ensure (root_hash original_tree =? original_root) "Root hashes do not match." ;?
  append original_tree (aep_leaves p).

(** ** TransactionAccumulatorSummary

    The newtype is the accumulator itself; [AccumulatorConsistencyProof] is its
    list of subtrees. *)

Definition TransactionAccumulatorSummary_new (acc : InMemoryAccumulator)
    : AnyResult InMemoryAccumulator :=
  ensure (negb (acc_is_empty acc))
    "empty accumulator: we can't verify consistency proofs from an empty accumulator" ;?
  Ok acc.

Definition verify_consistency (acc : InMemoryAccumulator) (ledger_info : LedgerInfo)
    : AnyResult unit :=
  ensure (li_version ledger_info =? acc_version acc)
    "ledger info and accumulator must be at the same version" ;?
  ensure (li_transaction_accumulator_hash ledger_info =? root_hash acc)
    "ledger info root hash and accumulator root hash must match".

Definition try_from_genesis_proof (subtrees : list HashValue) (target_version : Version)
    : AnyResult InMemoryAccumulator :=
  InMemoryAccumulator_new subtrees (saturating_add target_version 1).

Definition try_extend_with_proof (acc : InMemoryAccumulator) (subtrees : list HashValue)
    (target_li : LedgerInfo) : AnyResult InMemoryAccumulator :=
  ensure (acc_version acc <=? li_version target_li)
    "target ledger info version must be newer than our current accumulator summary version" ;?
  let num_new_txns := li_version target_li - acc_version acc in
  let? new_accumulator := append_subtrees acc subtrees num_new_txns in
  r_map_err (λ _, "accumulator is not consistent with the target ledger info after applying consistency proof")
    (verify_consistency new_accumulator target_li) ;?
  Ok new_accumulator.
End accumulator_proof.
