(* ===== verification/ProofFacts.v ===== *)
(** * ProofFacts: what a verified accumulator proof shows

    Soundness and completeness of the membership, range, extension and
    consistency proofs of AccumulatorProof.v against the reference tree of
    AccumulatorFacts.v, for a collision-free node hash. *)

From S2P Require Import Prelude Bits Crypto Accumulator AccumulatorFacts ConsistencyFacts.
From S2P Require Import Position PositionFacts ValidatorVerifier LedgerTypes AccumulatorProof.

(** What accumulators rely on of the hasher: the hash of a node determines its
    children, and no node hashes to the placeholder literal. *)
Class AccumulatorHashLaws (MH : MerkleHasher) : Prop := {
  acc_node_inj :: Inj2 (=) (=) (=) (merkle_node (MerkleHasher:=MH));
  acc_node_placeholder : ∀ a b, merkle_node a b ≠ ACCUMULATOR_PLACEHOLDER_HASH;
}.

Section paths.
Context `{MH : MerkleHasher}.

(** The hash of something that is not a node of the tree: leaves are hashed
    under another seed than nodes. *)
Definition leaf_hash (h : HashValue) : Prop :=
  (∀ a b, h ≠ merkle_node a b) ∧ h ≠ ACCUMULATOR_PLACEHOLDER_HASH.

Abbreviation climb s x i := ((proof_fold s x i).1).

Lemma climb_nil x i : climb [] x i = x.
Proof. done. Qed.

Lemma climb_cons s ss x i :
  climb (s :: ss) x i =
    climb ss (if i mod 2 =? 0 then merkle_node x s else merkle_node s x) (i / 2).
Proof. done. Qed.

Lemma climb_app s1 s2 x i :
  climb (s1 ++ s2) x i = climb s2 (climb s1 x i) (i / 2 ^ Z.of_nat (length s1)).
Proof.
  revert x i. induction s1 as [|s s1 IH]; intros x i.
  - simpl app. simpl length. change (2 ^ Z.of_nat 0) with 1. by rewrite Z.div_1_r.
  - simpl app. rewrite !climb_cons, IH. simpl length.
    rewrite Nat2Z.inj_succ, Z.pow_succ_r, Z.div_div by lia. done.
Qed.

(** Only the low bits of the index matter. *)
Lemma climb_mod s x i : climb s x i = climb s x (i mod 2 ^ Z.of_nat (length s)).
Proof.
  revert x i. induction s as [|s ss IH]; intros x i; [done|].
  rewrite !climb_cons. simpl length. rewrite Nat2Z.inj_succ, Z.pow_succ_r by lia.
  assert (H2 : 0 < 2 ^ Z.of_nat (length ss)) by (apply Z.pow_pos_nonneg; lia).
  replace ((i mod (2 * 2 ^ Z.of_nat (length ss))) mod 2) with (i mod 2).
  - rewrite IH. symmetry. rewrite IH. symmetry. f_equal. f_equal.
    rewrite Z.rem_mul_r by lia. rewrite Z.mul_comm, Z.div_add by lia.
    rewrite (Z.div_small (i mod 2) 2) by (apply Z.mod_pos_bound; lia).
    rewrite Z.add_0_l, Z.mod_mod by lia. done.
  - rewrite Z.rem_mul_r by lia. rewrite Z.mul_comm, Z_mod_plus_full, Z.mod_mod by lia. done.
Qed.

(** The ancestor at a positive height is an internal node. *)
Lemma climb_node s x i : s ≠ [] → ∃ a b, climb s x i = merkle_node a b.
Proof.
  intros Hne. destruct s as [|s ss _] using rev_ind; [done|].
  rewrite climb_app, climb_cons, climb_nil. destruct (_ =? 0); eauto.
Qed.

Lemma pairs_pad_lookup l j h :
  pairs_pad l !! j = Some h →
  ∃ a, l !! (2 * j)%nat = Some a ∧
       h = merkle_node a (default ACCUMULATOR_PLACEHOLDER_HASH (l !! (2 * j + 1)%nat)).
Proof.
  revert j. induction l as [|a|a b l IH] using list_pair_ind; intros j Hj; simpl in Hj.
  - done.
  - destruct j; [|done]. injection Hj as <-. by exists a.
  - destruct j as [|j].
    + injection Hj as <-. by exists a.
    + apply IH in Hj as (c & Hc & ->).
      replace (2 * S j)%nat with (S (S (2 * j))) by lia.
      replace (S (S (2 * j)) + 1)%nat with (S (S (2 * j + 1))) by lia. by exists c.
Qed.

Lemma pairs_pad_lookup_Some l j a :
  l !! (2 * j)%nat = Some a →
  pairs_pad l !! j =
    Some (merkle_node a (default ACCUMULATOR_PLACEHOLDER_HASH (l !! (2 * j + 1)%nat))).
Proof.
  revert j. induction l as [|c|c b l IH] using list_pair_ind; intros j Hj.
  - done.
  - destruct j; [|done]. simpl in *. by injection Hj as ->.
  - destruct j as [|j]; [simpl in *; by injection Hj as ->|].
    replace (2 * S j)%nat with (S (S (2 * j))) in * by lia.
    replace (S (S (2 * j)) + 1)%nat with (S (S (2 * j + 1))) by lia. by apply (IH j).
Qed.

(** The level [k] levels above [l], padded. *)
Fixpoint up_pad (k : nat) (l : list HashValue) : list HashValue :=
  match k with O => l | S k => up_pad k (pairs_pad l) end.

Lemma root_at_add d k l : root_at (k + d) l = root_at d (up_pad k l).
Proof. revert l. induction k as [|k IH]; intros l; simpl; auto. Qed.

Lemma up_pad_length k d l :
  (length l ≤ 2 ^ (k + d))%nat → (length (up_pad k l) ≤ 2 ^ d)%nat.
Proof.
  revert l. induction k as [|k IH]; intros l Hl; simpl in *; [lia|].
  apply IH. rewrite pairs_pad_length.
  pose proof (Nat.div2_odd (S (length l))). lia.
Qed.

Lemma up_pad_node k l j h :
  (0 < k)%nat → up_pad k l !! j = Some h → ∃ a b, h = merkle_node a b.
Proof.
  revert l. destruct k as [|k]; [lia|]. intros l _. revert l.
  induction k as [|k IH]; intros l Hj; simpl in Hj.
  - apply pairs_pad_lookup in Hj as (a & _ & ->). eauto.
  - by apply (IH (pairs_pad l)).
Qed.
End paths.

Section membership.
Context `{MH : MerkleHasher} {HL : AccumulatorHashLaws MH}.

Lemma climb_sound s l x (i : nat) :
  (proof_fold s x (Z.of_nat i)).1 = root_at (length s) l →
  (length l ≤ 2 ^ length s)%nat → (i < 2 ^ length s)%nat →
  l !! i = Some x ∨ x = ACCUMULATOR_PLACEHOLDER_HASH.
Proof using HL.
  revert l x i. induction s as [|s ss IH]; intros l x i Hr Hl Hi; simpl length in *.
  - simpl in *. destruct l as [|y [|]]; simpl in *; [by right| |lia].
    left. assert (i = 0)%nat as -> by lia. by rewrite Hr.
  - rewrite climb_cons in Hr. simpl root_at in Hr.
    replace (Z.of_nat i / 2) with (Z.of_nat (i / 2)) in Hr by (by rewrite Nat2Z.inj_div).
    set (h := if Z.of_nat i mod 2 =? 0 then merkle_node x s else merkle_node s x) in *.
    destruct (IH (pairs_pad l) h (i / 2)%nat Hr) as [Hlk|Hlk].
    + rewrite pairs_pad_length. pose proof (Nat.div2_odd (S (length l))). simpl in *. lia.
    + apply Nat.Div0.div_lt_upper_bound. simpl in *. lia.
    + apply pairs_pad_lookup in Hlk as (a & Ha & Heq). unfold h in Heq.
      replace (Z.of_nat i mod 2) with (Z.of_nat (i mod 2)) in Heq by (by rewrite Nat2Z.inj_mod).
      pose proof (Nat.div_mod i 2 ltac:(lia)) as Hdm.
      pose proof (Nat.mod_upper_bound i 2 ltac:(lia)) as Hm.
      destruct (Z.eqb_spec (Z.of_nat (i mod 2)) 0) as [H0|H0];
        apply (inj2 merkle_node) in Heq as [Ha' Hb'].
      * left. subst. rewrite Hdm. by replace (2 * (i / 2) + i mod 2)%nat with (2 * (i / 2))%nat by lia.
      * replace (2 * (i / 2) + 1)%nat with i in Hb' by lia.
        destruct (l !! i) as [y|]; simpl in Hb'; [left|right]; congruence.
    + unfold h in Hlk. destruct (_ =? 0); by apply acc_node_placeholder in Hlk.
Qed.

(** The same for any number of siblings: a proof that is too short or too long
    ends in a node, a proof of the right length in the leaf. *)
Lemma climb_leaf_sound s l x i :
  (proof_fold s x i).1 = merkle_root l → 0 ≤ i < Z.of_nat (length l) →
  leaf_hash x → Forall leaf_hash l → l !! Z.to_nat i = Some x.
Proof using HL.
  intros Hr Hi Hx Hall. unfold merkle_root in Hr. set (d := Nat.log2_up (length l)) in *.
  assert (Hld : (length l ≤ 2 ^ d)%nat).
  { destruct (decide (length l = 1)%nat) as [H1|]; [rewrite H1; pose proof (Nat.pow_nonzero 2 d); lia|].
    apply Nat.log2_up_spec. lia. }
  pose proof (climb_mod s x i) as Hmod. rewrite Hr in Hmod.
  destruct (Nat.lt_trichotomy (length s) d) as [Hlt|[Heq|Hgt]].
  - replace d with ((d - length s) + length s)%nat in Hmod, Hld by lia.
    rewrite root_at_add in Hmod. symmetry in Hmod.
    rewrite <- (Z2Nat.id (i mod _)) in Hmod by (apply Z.mod_pos_bound; lia).
    apply climb_sound in Hmod as [Hlk| ->].
    + apply up_pad_node in Hlk as (a & b & ->); [|lia]. by destruct (proj1 Hx a b).
    + by destruct Hx.
    + by apply up_pad_length.
    + apply Nat2Z.inj_lt. rewrite Nat2Z.inj_pow, Z2Nat.id by (apply Z.mod_pos_bound; lia).
      apply Z.mod_pos_bound. lia.
  - rewrite <- Heq in *. symmetry in Hmod.
    assert (Hi2 : i < 2 ^ Z.of_nat (length s)).
    { apply inj_le in Hld. rewrite Nat2Z.inj_pow in Hld. change (Z.of_nat 2) with 2 in Hld. lia. }
    rewrite Z.mod_small in Hmod by lia. rewrite <- (Z2Nat.id i) in Hmod by lia.
    apply climb_sound in Hmod as [Hlk| ->]; [done|by destruct Hx|done|].
    apply Nat2Z.inj_lt. rewrite Nat2Z.inj_pow, Z2Nat.id by lia. done.
  - rewrite <- (take_drop (length s - d) s), climb_app in Hr.
    assert (Hd : length (drop (length s - d) s) = d) by (rewrite length_drop; lia).
    destruct (climb_node (take (length s - d) s) x i) as (a & b & Hab).
    { intros H0. apply (f_equal length) in H0. rewrite length_take in H0. simpl in H0. lia. }
    rewrite Hab, climb_mod, Hd in Hr.
    set (j := _ mod 2 ^ Z.of_nat d) in Hr.
    assert (Hj : 0 ≤ j < 2 ^ Z.of_nat d) by (apply Z.mod_pos_bound; lia).
    destruct (climb_sound (drop (length s - d) s) l (merkle_node a b) (Z.to_nat j)) as [Hlk|Hlk].
    + rewrite Z2Nat.id, Hd by lia. exact Hr.
    + by rewrite Hd.
    + rewrite Hd. apply Nat2Z.inj_lt. rewrite Nat2Z.inj_pow, Z2Nat.id by lia. apply Hj.
    + apply (Forall_lookup_1 _ _ _ _ Hall) in Hlk as [Hlk _]. by destruct (Hlk a b).
    + by apply acc_node_placeholder in Hlk.
Qed.
End membership.

#[export] Instance ref_accumulator_laws tag : AccumulatorHashLaws (ref_merkle_hasher tag).
Proof.
  split; [apply _|]. intros a b H. vm_compute in H. destruct tag; discriminate H.
Qed.



Section proving.
Context `{MH : MerkleHasher}.

(** The siblings of leaf [i] in the tree of the leaves [l]. *)
Fixpoint leaf_siblings (d : nat) (l : list HashValue) (i : nat) : list HashValue :=
  match d with
  | O => []
  | S d =>
      default ACCUMULATOR_PLACEHOLDER_HASH
        (l !! (if Nat.even i then i + 1 else i - 1)%nat)
      :: leaf_siblings d (pairs_pad l) (i / 2)
  end.

Lemma leaf_siblings_climb d l i x :
  l !! i = Some x → (length l ≤ 2 ^ d)%nat →
  (proof_fold (leaf_siblings d l i) x (Z.of_nat i)).1 = root_at d l.
Proof.
  revert l i x. induction d as [|d IH]; intros l i x Hx Hl.
  - simpl in *. pose proof (lookup_lt_Some _ _ _ Hx). destruct l as [|y [|]]; simpl in *; try lia.
    assert (i = 0)%nat as -> by lia. simpl in Hx. congruence.
  - simpl leaf_siblings. rewrite climb_cons. simpl root_at.
    replace (Z.of_nat i / 2) with (Z.of_nat (i / 2)) by (by rewrite Nat2Z.inj_div).
    pose proof (Nat.div_mod i 2 ltac:(lia)) as Hdm.
    pose proof (Nat.mod_upper_bound i 2 ltac:(lia)) as Hm.
    assert (Hlen : (length (pairs_pad l) ≤ 2 ^ d)%nat).
    { rewrite pairs_pad_length. pose proof (Nat.div2_odd (S (length l))). simpl in *. lia. }
    replace (Z.of_nat i mod 2 =? 0) with (Nat.even i).
    2:{ replace (Z.of_nat i mod 2) with (Z.of_nat (i mod 2)) by (by rewrite Nat2Z.inj_mod).
        rewrite (Nat.div_mod i 2) at 1 by lia. rewrite Nat.add_comm, Nat.even_add_mul_2.
        destruct (i mod 2)%nat as [|[|]]; [done..|lia]. }
    apply IH; [|done].
    destruct (Nat.even i) eqn:He.
    + apply Nat.even_spec in He as [j ->].
      rewrite (Nat.mul_comm 2 j), Nat.div_mul by lia. rewrite (Nat.mul_comm j 2).
      by rewrite (pairs_pad_lookup_Some l j x).
    + assert (Hi : i = (2 * (i / 2) + 1)%nat).
      { assert (Nat.odd i = true) by (by rewrite <- Nat.negb_even, He).
        apply Nat.odd_spec in H as [j ->].
        rewrite (Nat.add_comm (2 * j) 1), (Nat.mul_comm 2 j), Nat.div_add by lia. simpl. lia. }
      destruct (l !! (2 * (i / 2))%nat) as [a|] eqn:Ha.
      * rewrite (pairs_pad_lookup_Some l _ a Ha), <- Hi, Hx.
        replace (i - 1)%nat with (2 * (i / 2))%nat by lia. by rewrite Ha.
      * apply lookup_ge_None in Ha. apply lookup_lt_Some in Hx. lia.
Qed.

Lemma leaf_siblings_length d l i : length (leaf_siblings d l i) = d.
Proof. revert l i. induction d; intros; simpl; auto. Qed.
End proving.

Lemma log2_up_le_63 n : Z.of_nat n ≤ 2 ^ 63 → (Nat.log2_up n ≤ 63)%nat.
Proof.
  intros Hn. destruct (decide (n ≤ 1)%nat) as [H1|H1].
  - destruct n as [|[|]]; [apply Nat.leb_le; reflexivity..|lia].
  - apply Nat.log2_up_le_pow2; [lia|]. apply Nat2Z.inj_le. rewrite Nat2Z.inj_pow. apply Hn.
Qed.

(** Completeness of membership proofs.  Every leaf of an accumulator has a
    proof with one sibling per level, and it verifies. *)
Theorem accumulator_proof_complete {MH : MerkleHasher} l (i : nat) x :
  l !! i = Some x → Z.of_nat (length l) ≤ MAX_ACCUMULATOR_LEAVES →
  AccumulatorProof_verify (leaf_siblings (Nat.log2_up (length l)) l i) (merkle_root l) x
    (Z.of_nat i) = Ok ().
Proof.
  change MAX_ACCUMULATOR_LEAVES with (2 ^ 63). intros Hx Hl. unfold AccumulatorProof_verify.
  rewrite leaf_siblings_length, leaf_siblings_climb by
    first [done | destruct (decide (length l = 1)%nat) as [->|]; [simpl; lia|];
      apply Nat.log2_up_spec; apply lookup_lt_Some in Hx; lia].
  pose proof (log2_up_le_63 _ Hl). change MAX_ACCUMULATOR_PROOF_DEPTH with 63.
  rewrite (proj2 (Z.leb_le _ _)) by lia. simpl. by rewrite Z.eqb_refl.
Qed.

(** ** Range proofs *)

(** The position reached from a leaf index after some levels: beyond the root of
    the whole tree it stays at [u64::MAX]. *)
Definition pos_of (p : Position) (q : Z) : Prop :=
  (∃ k, in_tree k q ∧ p = node_at k q) ∨ (p = u64_max ∧ q = 0).

Lemma pos_of_leaf i : 0 ≤ i < 2 ^ 63 → pos_of (from_leaf_index i) i.
Proof.
  intros Hi. left. exists 0. split; [split; [lia|done]|]. by apply from_leaf_index_node_at.
Qed.

Lemma pos_of_right_child p q : pos_of p q → is_right_child p = Z.odd q.
Proof.
  intros [(k & Hin & ->)|[-> ->]]; [|done]. unfold is_right_child.
  destruct (decide (k = 63)) as [->|].
  - destruct Hin as [_ Hq]. change (2 ^ (63 - 63)) with 1 in Hq. by assert (q = 0) as -> by lia.
  - rewrite is_left_child_node_at by (done || (destruct Hin; lia)). by rewrite Z.negb_even.
Qed.

Lemma pos_of_parent p q : pos_of p q → pos_of (parent p) (q / 2).
Proof.
  intros [(k & Hin & ->)|[-> ->]]; [|by right].
  destruct (decide (k = 63)) as [->|].
  - destruct Hin as [_ Hq]. change (2 ^ (63 - 63)) with 1 in Hq. assert (q = 0) as -> by lia.
    right. done.
  - assert (k < 63) by (destruct Hin; lia). left. exists (k + 1).
    split; [by apply in_tree_parent|by apply parent_node_at].
Qed.

Section range.
Context `{MH : MerkleHasher}.

Lemma combine_chunks_spec l :
  ∃ post, (combine_chunks l).1 = pairs l ∧ (combine_chunks l).2 = post ∧
    (post = [] ∧ Nat.Even (length l) ∨
     ∃ x l', post = [x] ∧ l = l' ++ [x] ∧ Nat.Even (length l')).
Proof.
  induction l as [|a|a b l IH] using list_pair_ind; simpl.
  - exists []. split_and!; try done. left. split; [done|]. by exists 0%nat.
  - exists [a]. split_and!; try done. right. exists a, []. split_and!; try done. by exists 0%nat.
  - destruct IH as (post & H1 & H2 & H3). destruct (combine_chunks l) as [ps rem]. simpl in *.
    exists post. rewrite H1. split_and!; try done.
    destruct H3 as [[-> [k Hk]]|(x & l' & -> & -> & [k Hk])].
    + left. split; [done|]. exists (S k). lia.
    + right. exists x, (a :: b :: l'). split_and!; try done. exists (S k). simpl. lia.
Qed.

(** One level: up to one sibling on each side completes the pairs. *)
Lemma range_level_spec p q cur lefts rights parents lefts' rights' :
  pos_of p q → range_level p cur lefts rights = Ok (parents, lefts', rights') →
  ∃ pre post, lefts = pre ++ lefts' ∧ rights = post ++ rights' ∧
    length pre = Z.to_nat (q mod 2) ∧ (length post ≤ 1)%nat ∧
    Nat.Even (length (pre ++ cur ++ post)) ∧ parents = pairs (pre ++ cur ++ post).
Proof.
  intros Hp Hrun. unfold range_level in Hrun. rewrite (pos_of_right_child p q Hp) in Hrun.
  assert (Hfirst : ∃ pre children first, lefts = pre ++ lefts' ∧
    length pre = Z.to_nat (q mod 2) ∧
    (pre = [] ∧ children = cur ∧ first = [] ∨
     ∃ a c, pre = [a] ∧ cur = c :: children ∧ first = [merkle_node a c]) ∧
    (let '(parents0, remainder) := combine_chunks children in
     match remainder with
     | [] => Ok (first ++ parents0, lefts', rights)
     | left_hash :: _ =>
         let? (right_hash, rights) :=
           ok_or (match rights with h :: rights => Some (h, rights) | [] => None end)
             "Last child is a left child, but missing sibling on the right." in
         Ok (first ++ parents0 ++ [merkle_node left_hash right_hash], lefts', rights)
     end) = Ok (parents, lefts', rights')).
  { rewrite Zmod_odd. destruct (Z.odd q).
    - apply r_bind_ok in Hrun as ([[f ch] le] & H1 & Hrun).
      destruct lefts as [|a lefts]; [done|]. simpl in H1. destruct cur as [|c cur]; [done|].
      simpl in H1. injection H1 as <- <- <-.
      assert (lefts' = lefts) as ->.
      { destruct (combine_chunks cur) as [ps [|x rem]]; [by simplify_eq|].
        destruct rights; simpl in Hrun; by simplify_eq. }
      exists [a], cur, [merkle_node a c]. split_and!; try done. right. by exists a, c.
    - simpl in Hrun. assert (lefts' = lefts) as ->.
      { destruct (combine_chunks cur) as [ps [|x rem]]; [by simplify_eq|].
        destruct rights; simpl in Hrun; by simplify_eq. }
      exists [], cur, []. split_and!; try done. by left. }
  clear Hrun. destruct Hfirst as (pre & ch & first & -> & Hpre & Hch & Hrun).
  destruct (combine_chunks_spec ch) as (post0 & H1 & H2 & H3).
  destruct (combine_chunks ch) as [ps rem]. simpl in H1, H2. subst ps rem.
  assert (Hpc : pre ++ cur = match pre with a :: _ => a :: cur | [] => ch end ∧
                ∀ t, first ++ pairs (ch ++ t) = pairs (pre ++ cur ++ t)).
  { destruct Hch as [(-> & -> & ->)|(a & c & -> & -> & ->)]; done. }
  destruct Hpc as [_ Hpc].
  assert (Heven : ∀ t : list HashValue, Nat.Even (length (ch ++ t)) → Nat.Even (length (pre ++ cur ++ t))).
  { intros t [k Hk]. destruct Hch as [(-> & -> & ->)|(a & c & -> & -> & ->)].
    - by exists k.
    - exists (S k). simpl. lia. }
  destruct H3 as [[-> He]|(x & l' & -> & -> & He)].
  - injection Hrun as <- <-. exists pre, []. rewrite !app_nil_r.
    specialize (Hpc []). specialize (Heven []). rewrite !app_nil_r in Hpc, Heven.
    split_and!; auto.
  - destruct rights as [|r rights]; [done|]. simpl in Hrun. injection Hrun as <- <-.
    exists pre, [r]. split_and!; auto.
    + apply Heven. rewrite !length_app. simpl. destruct He as [k Hk]. exists (S k). lia.
    + rewrite <- Hpc. f_equal. rewrite <- app_assoc. simpl.
      rewrite pairs_snoc2, pairs_snoc_even by done. done.
Qed.

Lemma pairs_lookup l j a b :
  l !! (2 * j)%nat = Some a → l !! (2 * j + 1)%nat = Some b →
  pairs l !! j = Some (merkle_node a b).
Proof.
  revert j. induction l as [|c|c d l IH] using list_pair_ind; intros j Ha Hb.
  - done.
  - destruct j; [|done]. simpl in *. done.
  - destruct j as [|j]; [simpl in *; congruence|].
    replace (2 * S j)%nat with (S (S (2 * j))) in * by lia.
    replace (S (S (2 * j)) + 1)%nat with (S (S (2 * j + 1))) in Hb by lia. by apply (IH j).
Qed.

(** Every hash of the level has its parent in the next one. *)
Lemma range_level_parent pre cur post (q : Z) j c :
  0 ≤ q → length pre = Z.to_nat (q mod 2) → Nat.Even (length (pre ++ cur ++ post)) →
  cur !! j = Some c →
  ∃ s j', pairs (pre ++ cur ++ post) !! j' = Some
      (if (q + Z.of_nat j) mod 2 =? 0 then merkle_node c s else merkle_node s c) ∧
    (q + Z.of_nat j) / 2 = q / 2 + Z.of_nat j'.
Proof.
  intros Hq Hpre He Hc. set (l := pre ++ cur ++ post) in *.
  assert (Hl : l !! (length pre + j)%nat = Some c).
  { unfold l. rewrite lookup_app_r by lia. replace (length pre + j - length pre)%nat with j by lia.
    rewrite lookup_app_l; [done|]. by eapply lookup_lt_Some. }
  pose proof (Z.div_mod q 2 ltac:(lia)) as Hq2. pose proof (Z.mod_pos_bound q 2 ltac:(lia)).
  assert (Hqj : q + Z.of_nat j = 2 * (q / 2) + Z.of_nat (length pre + j)) by lia.
  pose proof (lookup_lt_Some _ _ _ Hl) as Hlt. destruct He as [n Hn].
  destruct (Nat.Even_or_Odd (length pre + j)) as [[j' Hj]|[j' Hj]]; rewrite Hj in *.
  - destruct (lookup_lt_is_Some_2 l (2 * j' + 1)%nat ltac:(lia)) as [s Hs].
    exists s, j'. rewrite (pairs_lookup l j' c s) by done.
    assert (Hm : q + Z.of_nat j = 2 * (q / 2 + Z.of_nat j')) by lia.
    rewrite Hm, half_double. split; [|done].
    replace (2 * (q / 2 + Z.of_nat j') mod 2) with 0; [done|].
    rewrite Z.mul_comm, Z.mod_mul; lia.
  - destruct (lookup_lt_is_Some_2 l (2 * j')%nat ltac:(lia)) as [s Hs].
    exists s, j'. rewrite (pairs_lookup l j' s c) by done.
    assert (Hm : q + Z.of_nat j = 2 * (q / 2 + Z.of_nat j') + 1) by lia.
    rewrite Hm, half_succ_double. split; [|done].
    replace ((2 * (q / 2 + Z.of_nat j') + 1) mod 2) with 1; [done|].
    rewrite Z.add_comm, Z.mul_comm, Z_mod_plus_full. done.
Qed.

(** Every leaf of a range that was hashed up to [h] has a membership path to [h]. *)
Lemma range_loop_paths fuel p q cur lefts rights res :
  pos_of p q → 0 ≤ q → cur ≠ [] → range_loop fuel p cur lefts rights = Ok res →
  ∃ h, res = [h] ∧ ∀ j c, cur !! j = Some c → ∃ s, (proof_fold s c (q + Z.of_nat j)).1 = h.
Proof.
  revert p q cur lefts rights. induction fuel as [|fuel IH];
    intros p q cur lefts rights Hp Hq Hne Hrun; simpl in Hrun;
    destruct (_ || _) eqn:Hcond; try done.
  2: { apply r_bind_ok in Hrun as ([[parents lefts'] rights'] & Hlvl & Hrun).
       destruct (range_level_spec p q _ _ _ _ _ _ Hp Hlvl)
         as (pre & post & -> & -> & Hpre & Hpost & He & ->).
       assert (Hne' : pairs (pre ++ cur ++ post) ≠ []).
       { destruct cur as [|c cur]; [done|].
         destruct (range_level_parent pre (c :: cur) post q 0 c) as (s & j' & Hj & _); [done..|].
         intros H0. by rewrite H0 in Hj. }
       destruct (IH _ (q / 2) _ _ _ (pos_of_parent p q Hp) ltac:(apply Z.div_pos; lia) Hne' Hrun)
         as (h & -> & Hpaths).
       exists h. split; [done|]. intros j c Hc.
         destruct (range_level_parent pre cur post q j c) as (s & j' & Hj & Hidx); [done..|].
         destruct (Hpaths j' _ Hj) as [ss Hss]. exists (s :: ss).
         rewrite climb_cons, Hidx. exact Hss. }
  all: injection Hrun as <-; apply orb_false_iff in Hcond as [[Hlen _]%orb_false_iff _];
    apply Z.ltb_ge in Hlen; destruct cur as [|c [|]]; simpl in Hlen; try done; try lia;
    exists c; split; [done|]; intros j c' Hj; destruct j; [|done]; injection Hj as <-;
    by exists [].
Qed.
End range.

Lemma range_verify_sound {MH : MerkleHasher} {HL : AccumulatorHashLaws MH} p l first leaves :
  AccumulatorRangeProof_verify p (merkle_root l) (Some first) leaves = Ok () →
  0 ≤ first → first + Z.of_nat (length leaves) ≤ Z.of_nat (length l) ≤ MAX_ACCUMULATOR_LEAVES →
  Forall leaf_hash leaves → Forall leaf_hash l →
  take (length leaves) (drop (Z.to_nat first) l) = leaves.
Proof.
  change MAX_ACCUMULATOR_LEAVES with (2 ^ 63). intros Hv Hf Hb Hx Hl.
  unfold AccumulatorRangeProof_verify in Hv. r_inv Hv.
  apply negb_true_iff, bool_decide_eq_false in Hs1. apply Z.eqb_eq in Hv.
  assert (Hpos : (0 < length leaves)%nat) by (destruct leaves; [done|simpl; lia]).
  apply (range_loop_paths _ _ first) in Hs2 as (h & -> & Hpaths); [|apply pos_of_leaf; lia|done..].
  simpl in Hs3. injection Hs3 as ->. subst a3.
  apply list_eq. intros j. destruct (decide (j < length leaves)%nat) as [Hj|Hj].
  - rewrite lookup_take_lt, lookup_drop by done.
    destruct (lookup_lt_is_Some_2 leaves j Hj) as [c Hc]. rewrite Hc.
    destruct (Hpaths j c Hc) as [s Hs3].
    apply climb_leaf_sound in Hs3; [|lia|exact (Forall_lookup_1 _ _ _ _ Hx Hc)|done].
    rewrite <- Hs3. f_equal. lia.
  - rewrite (lookup_ge_None_2 leaves), lookup_take_ge by lia. done.
Qed.

(** Soundness of range proofs.  When the proof verifies against the root of the
    leaves [l], the given hashes are the leaves from the first index on. *)
Theorem range_proof_sound {MH : MerkleHasher} {HL : AccumulatorHashLaws MH} p l first leaves :
  AccumulatorRangeProof_verify p (merkle_root l) (Some first) leaves = Ok () →
  0 ≤ first → first + Z.of_nat (length leaves) ≤ Z.of_nat (length l) ≤ MAX_ACCUMULATOR_LEAVES →
  Forall leaf_hash leaves → Forall leaf_hash l →
  take (length leaves) (drop (Z.to_nat first) l) = leaves.
Proof. apply range_verify_sound. Qed.

Lemma range_proof_sound_witness :
  take 2 (drop 1 [10; 20; 30; 40; 50]) = [20; 30].
Proof.
  set (H := ref_merkle_hasher 1).
  apply (range_proof_sound (HL:=ref_accumulator_laws 1)
    (mkAccumulatorRangeProof [10]
       [40; merkle_node (merkle_node 50 ACCUMULATOR_PLACEHOLDER_HASH) ACCUMULATOR_PLACEHOLDER_HASH])
    [10; 20; 30; 40; 50] 1 [20; 30]).
  - vm_compute. reflexivity.
  - lia.
  - vm_compute. split; congruence.
  - repeat (constructor; [split; [intros a b; vm_compute; congruence|vm_compute; congruence]|]).
    constructor.
  - repeat (constructor; [split; [intros a b; vm_compute; congruence|vm_compute; congruence]|]).
    constructor.
Defined.

Section range_total.
Context `{MH : MerkleHasher}.

(** One level of a non-empty range returns hashes or an error. *)
Lemma range_level_no_panic p cur lefts rights m :
  cur ≠ [] → range_level p cur lefts rights ≠ Panic m.
Proof.
  intros Hne Hrun. unfold range_level in Hrun. destruct cur as [|c cur]; [done|].
  destruct (is_right_child p).
  - destruct lefts; [done|]. simpl r_bind in Hrun.
    destruct (combine_chunks cur) as [ps [|x rem]]; [discriminate Hrun|].
    destruct rights; discriminate Hrun.
  - cbn [r_bind] in Hrun. destruct (combine_chunks (c :: cur)) as [ps [|x rem]];
      [discriminate Hrun|]. destruct rights; discriminate Hrun.
Qed.

Lemma range_loop_no_panic fuel p q cur lefts rights m :
  pos_of p q → 0 ≤ q → cur ≠ [] →
  (length cur + length lefts + length rights ≤ fuel)%nat →
  range_loop fuel p cur lefts rights ≠ Panic m.
Proof.
  revert p q cur lefts rights. induction fuel as [|fuel IH];
    intros p q cur lefts rights Hp Hq Hne Hf Hrun.
  { destruct cur; simpl in Hf; [done|lia]. }
  simpl in Hrun. destruct (_ || _); [|done].
  destruct (range_level p cur lefts rights) as [[[parents lefts'] rights']|e|m'] eqn:Hlvl.
  2: done. 2: by eapply range_level_no_panic. simpl in Hrun.
  destruct (range_level_spec p q _ _ _ _ _ _ Hp Hlvl)
    as (pre & post & -> & -> & Hpre & Hpost & He & ->).
  pose proof (even_length_pairs _ He) as Hlen. rewrite !length_app in Hlen, Hf.
  eapply (IH _ (q / 2)); [by apply pos_of_parent|by apply Z.div_pos| | |exact Hrun].
  - intros H0. rewrite H0 in Hlen. destruct cur; simpl in Hlen; [done|lia].
  - destruct cur; [done|]. simpl length in *. lia.
Qed.
End range_total.

(** The loop of the range verification terminates: with the bound on its
    iterations that the definition uses it never stops early and never panics, so
    every call returns [Ok] or an error. *)
Theorem range_verify_total {MH : MerkleHasher} p root first leaves m :
  match first with Some i => 0 ≤ i < 2 ^ 63 | None => True end →
  AccumulatorRangeProof_verify p root first leaves ≠ Panic m.
Proof.
  intros Hi Hv. unfold AccumulatorRangeProof_verify in Hv. destruct first as [i|].
  2: by destruct (bool_decide _), (_ && _).
  destruct (_ <=? _); [|done]. simpl r_bind in Hv. destruct (_ <=? _); [|done]. simpl r_bind in Hv.
  destruct (bool_decide_reflect (leaves = [])) as [|Hne]; [done|]. simpl r_bind in Hv.
  destruct (range_loop _ _ _ _ _) as [cur|e|m'] eqn:Hrun; [|done|].
  - apply (range_loop_paths _ _ i) in Hrun as (h & -> & _); [|by apply pos_of_leaf|lia|done].
    simpl in Hv. by destruct (_ =? _).
  - exfalso. refine (range_loop_no_panic _ _ i _ _ _ _ (pos_of_leaf i Hi) _ Hne _ Hrun); lia.
Qed.

Lemma range_verify_total_witness :
  AccumulatorRangeProof_verify (MH:=ref_merkle_hasher 1) (mkAccumulatorRangeProof [] [1; 2]) 0
    (Some 4) [5; 6; 7] ≠ Panic "the loop did not finish".
Proof. apply (range_verify_total (MH:=ref_merkle_hasher 1)). split; [lia|reflexivity]. Defined.

(** ** Extension and consistency proofs *)

(** Soundness of extension proofs.  When the proof verifies against the root of
    the leaves [l], the accumulator returned stands for [l] and the new leaves. *)
Theorem extension_proof_sound {MH : MerkleHasher} {HL : AccumulatorHashLaws MH} p l acc :
  aep_num_leaves p = Z.of_nat (length l) →
  Z.of_nat (length l + length (aep_leaves p)) ≤ u64_max →
  AccumulatorExtensionProof_verify p (merkle_root l) = Ok acc →
  repr acc (l ++ aep_leaves p).
Proof.
  intros Hn Hb Hv. unfold AccumulatorExtensionProof_verify in Hv.
  apply r_bind_ok in Hv as (tree & Hnew & Hv). apply r_bind_ok in Hv as ([] & Hroot & Hv).
  apply ensure_ok, Z.eqb_eq in Hroot.
  apply InMemoryAccumulator_new_root_inj with (l := l) in Hnew as [Hrep _]; [|done..].
  destruct (append_spec tree l (aep_leaves p) Hrep Hb) as (acc' & Happ & Hrep').
  rewrite Happ in Hv. injection Hv as <-. done.
Qed.

Lemma extension_proof_sound_witness :
  ∃ acc, AccumulatorExtensionProof_verify (MH:=ref_merkle_hasher 1)
      (mkAccumulatorExtensionProof [merkle_node (MerkleHasher:=ref_merkle_hasher 1) 10 20; 30] 3 [40; 50])
      (merkle_root (MH:=ref_merkle_hasher 1) [10; 20; 30]) = Ok acc ∧
    repr (MH:=ref_merkle_hasher 1) acc ([10; 20; 30] ++ [40; 50]).
Proof.
  eexists. split; [vm_compute; reflexivity|].
  apply (extension_proof_sound (HL:=ref_accumulator_laws 1)
    (mkAccumulatorExtensionProof [merkle_node (MerkleHasher:=ref_merkle_hasher 1) 10 20; 30] 3 [40; 50])
    [10; 20; 30]); [reflexivity|vm_compute; congruence|vm_compute; reflexivity].
Defined.

Lemma acc_version_repr {MH : MerkleHasher} acc l :
  repr acc l → l ≠ [] → acc_version acc = Z.of_nat (length l) - 1.
Proof.
  intros [Hn _ _] Hne. unfold acc_version. rewrite Hn.
  rewrite (proj2 (Z.eqb_neq _ _)); [done|]. destruct l; [done|simpl; lia].
Qed.

(** C20: soundness of consistency proofs.  A summary of the ledger [l] that was
    extended by a proof to a ledger info whose root is that of the ledger [l'] (of
    the ledger info's version) summarises [l'], and [l] is a prefix of [l']: history
    was only appended to. *)
Theorem consistency_proof_sound {MH : MerkleHasher} {HL : AccumulatorHashLaws MH}
    acc subtrees li acc' l l' :
  repr acc l → l ≠ [] → Z.of_nat (length l) ≤ MAX_ACCUMULATOR_LEAVES →
  try_extend_with_proof acc subtrees li = Ok acc' →
  li_transaction_accumulator_hash li = merkle_root l' →
  li_version li = Z.of_nat (length l') - 1 →
  l `prefix_of` l' ∧ repr acc' l'.
Proof.
  intros Hrep Hne Hb Hrun Hroot Hver. unfold try_extend_with_proof in Hrun.
  apply r_bind_ok in Hrun as ([] & Hle & Hrun). apply r_bind_ok in Hrun as (acc1 & Happ & Hrun).
  apply r_bind_ok in Hrun as ([] & Hcons & Hrun). injection Hrun as ->.
  apply ensure_ok, Z.leb_le in Hle. rewrite (acc_version_repr acc l Hrep Hne) in *.
  unfold verify_consistency in Hcons. r_inv Hcons. apply Z.eqb_eq in Hcons.
  refine (append_subtrees_sound acc l subtrees _ acc' l' Hrep Hb _ Happ _ _); [lia..|congruence].
Qed.

Lemma consistency_proof_sound_witness :
  [10; 20; 30] `prefix_of` [10; 20; 30; 40; 50].
Proof.
  set (H := ref_merkle_hasher 1).
  set (acc := mkInMemoryAccumulator [merkle_node 10 20; 30] 3 (merkle_root [10; 20; 30])).
  set (li := mkLedgerInfo (mkBlockInfo 1 1 0 (merkle_root [10; 20; 30; 40; 50]) 4 0 None) 0).
  refine (proj1 (consistency_proof_sound (HL:=ref_accumulator_laws 1) acc [40; 50] li
    _ [10; 20; 30] [10; 20; 30; 40; 50] _ _ _ _ _ _)).
  - split; vm_compute; reflexivity.
  - discriminate.
  - vm_compute. congruence.
  - vm_compute. reflexivity.
  - reflexivity.
  - reflexivity.
Defined.

Lemma try_extend_accepts {MH : MerkleHasher} acc l new li subtrees acc' :
  repr acc l → l ≠ [] → append_subtrees acc subtrees (Z.of_nat (length new)) = Ok acc' →
  repr acc' (l ++ new) → li_transaction_accumulator_hash li = merkle_root (l ++ new) →
  li_version li = Z.of_nat (length (l ++ new)) - 1 →
  try_extend_with_proof acc subtrees li = Ok acc'.
Proof.
  intros Hrep Hne Hrun Hrep' Hroot Hver. rewrite length_app in Hver.
  unfold try_extend_with_proof, verify_consistency.
  assert (Hne' : l ++ new ≠ []) by (by destruct l).
  rewrite (acc_version_repr acc l Hrep Hne), Hver.
  rewrite (proj2 (Z.leb_le _ _)) by lia. cbn [r_bind ensure].
  replace (Z.of_nat (length l + length new) - 1 - (Z.of_nat (length l) - 1))
    with (Z.of_nat (length new)) by lia.
  rewrite Hrun. cbn [r_bind]. rewrite (acc_version_repr acc' _ Hrep' Hne'), length_app, Hroot.
  destruct Hrep' as [_ _ ->]. by rewrite !Z.eqb_refl.
Qed.

(** Completeness of consistency proofs.  From the summary of a ledger to any
    extension of it there is a proof that [try_extend_with_proof] accepts. *)
Theorem consistency_proof_complete {MH : MerkleHasher} acc l new li :
  repr acc l → l ≠ [] → Z.of_nat (length (l ++ new)) ≤ MAX_ACCUMULATOR_LEAVES →
  li_transaction_accumulator_hash li = merkle_root (l ++ new) →
  li_version li = Z.of_nat (length (l ++ new)) - 1 →
  ∃ subtrees acc', try_extend_with_proof acc subtrees li = Ok acc' ∧ repr acc' (l ++ new).
Proof.
  intros Hrep Hne Hb Hroot Hver. rewrite length_app in Hb.
  destruct (append_subtrees_complete acc l new Hrep Hb) as (subs & acc' & Hrun & Hrep').
  exists subs, acc'. split; [|done]. by apply (try_extend_accepts acc l new).
Qed.
