(* ===== verification/TrustedState.v ===== *)
(** * TrustedState: the light client

    Models src/types/src/{trusted_state,state_proof}.rs.  A client keeps a waypoint,
    the validator set of an epoch and a summary of the transaction accumulator, and
    ratchets them forward with state proofs. *)

From S2P Require Import Prelude Bits Crypto Accumulator AccumulatorFacts ConsistencyFacts.
From S2P Require Import ValidatorVerifier LedgerTypes EpochChange AccumulatorProof ProofFacts.

Inductive TrustedState :=
| TSEpochWaypoint (waypoint : Waypoint)
| TSEpochState (waypoint : Waypoint) (epoch_state : EpochState)
    (accumulator : InMemoryAccumulator).

Inductive TrustedStateChange :=
| TSCVersion (new_state : TrustedState)
| TSCEpoch (new_state : TrustedState) (latest_epoch_change_li : LedgerInfoWithSignatures)
| TSCNoChange.

Definition TrustedStateChange_new_state (c : TrustedStateChange) : option TrustedState :=
  match c with
  | TSCVersion new_state | TSCEpoch new_state _ => Some new_state
  | TSCNoChange => None
  end.

Record StateProof := mkStateProof {
  sp_latest_li_w_sigs : LedgerInfoWithSignatures;
  sp_epoch_changes : EpochChangeProof;
  sp_consistency_proof : list HashValue;
}.

Definition TrustedState_waypoint (ts : TrustedState) : Waypoint :=
  match ts with
  | TSEpochWaypoint waypoint => waypoint
  | TSEpochState waypoint _ _ => waypoint
  end.

Definition TrustedState_version (ts : TrustedState) : Version :=
  wp_version (TrustedState_waypoint ts).

Definition accumulator_summary (ts : TrustedState) : option InMemoryAccumulator :=
  match ts with
  | TSEpochWaypoint _ => None
  | TSEpochState _ _ accumulator => Some accumulator
  end.

Definition accumulator_root_hash (ts : TrustedState) : option HashValue :=
  root_hash <$> accumulator_summary ts.

Definition need_accumulator (ts : TrustedState) : bool :=
  match accumulator_summary ts with None => true | Some _ => false end.

Section trusted_state.
Context `{C : Crypto} `{HLI : CryptoHash LedgerInfo} `{HWP : CryptoHash Ledger2WaypointConverter}
  `{MH : MerkleHasher}.

#[export] Instance TrustedState_Verifier : Verifier TrustedState := {|
  verifier_verify ts lis :=
    match ts with
    | TSEpochWaypoint waypoint => verifier_verify waypoint lis
    | TSEpochState _ epoch_state _ => verifier_verify epoch_state lis
    end;
  epoch_change_verification_required ts epoch :=
    match ts with
    | TSEpochWaypoint waypoint => epoch_change_verification_required waypoint epoch
    | TSEpochState _ epoch_state _ => epoch_change_verification_required epoch_state epoch
    end;
  is_ledger_info_stale ts li :=
    match ts with
    | TSEpochWaypoint waypoint => is_ledger_info_stale waypoint li
    | TSEpochState _ epoch_state _ => is_ledger_info_stale epoch_state li
    end;
|}.

Definition try_from_epoch_change_li (epoch_change_li : LedgerInfo)
    (accumulator : InMemoryAccumulator) : AnyResult TrustedState :=
  verify_consistency accumulator epoch_change_li ;?
  let? epoch_state :=
    ok_or (li_next_epoch_state epoch_change_li)
      "No EpochState in LedgerInfo; it must not be on an epoch boundary" in
  let? waypoint := Waypoint_new_epoch_boundary epoch_change_li in
  Ok (TSEpochState waypoint epoch_state accumulator).

(** The accumulator to extend: the client's own, or the untrusted initial one. *)
Definition current_accumulator (ts : TrustedState) (epoch_change_proof : EpochChangeProof)
    (initial_accumulator : option InMemoryAccumulator) : AnyResult InMemoryAccumulator :=
  match ts with
  | TSEpochWaypoint _ =>
      let? curr_accumulator :=
        expect initial_accumulator
          "Client must provide an initial untrusted accumulator when verifying from a waypoint" in
      let? waypoint_li :=
        ok_or (head (ecp_ledger_info_with_sigs epoch_change_proof)) "Empty epoch change proof" in
      verify_consistency curr_accumulator (lis_ledger_info waypoint_li) ;?
      Ok curr_accumulator
  | TSEpochState _ _ accumulator => Ok accumulator
  end.

Definition verify_and_ratchet_inner (ts : TrustedState) (latest_li : LedgerInfoWithSignatures)
    (epoch_change_proof : EpochChangeProof) (consistency_proof : list HashValue)
    (initial_accumulator : option InMemoryAccumulator) : AnyResult TrustedStateChange :=
  let curr_version := TrustedState_version ts in
  let target_version := li_version (lis_ledger_info latest_li) in
  ensure (curr_version <=? target_version)
    "The target latest ledger info version is stale and behind our current trusted version" ;?
  let? curr_accumulator := current_accumulator ts epoch_change_proof initial_accumulator in
  if epoch_change_verification_required ts (li_next_block_epoch (lis_ledger_info latest_li)) then
    let? epoch_change_li := EpochChangeProof_verify epoch_change_proof (to_dyn ts) in
    let? new_epoch_state :=
      ok_or (li_next_epoch_state (lis_ledger_info epoch_change_li))
        "A valid EpochChangeProof will never return a non-epoch change ledger info" in
    let new_epoch := es_epoch new_epoch_state in
    let? verified_ledger_info :=
      if bool_decide (epoch_change_li = latest_li) then Ok latest_li
      else if li_epoch (lis_ledger_info latest_li) =? new_epoch then
        verifier_verify new_epoch_state latest_li ;? Ok latest_li
      else if (new_epoch <? li_epoch (lis_ledger_info latest_li)) && ecp_more epoch_change_proof
      then Ok epoch_change_li
      else Err "Inconsistent epoch change proof and latest ledger info" in
    let new_waypoint := Waypoint_new_any (lis_ledger_info verified_ledger_info) in
    let? new_accumulator :=
      try_extend_with_proof curr_accumulator consistency_proof
        (lis_ledger_info verified_ledger_info) in
    let new_state := TSEpochState new_waypoint new_epoch_state new_accumulator in
    Ok (TSCEpoch new_state epoch_change_li)
  else
    match ts with
    | TSEpochWaypoint _ => Err "EpochWaypoint can only verify an epoch change ledger info"
    | TSEpochState curr_waypoint curr_epoch_state _ =>
        let new_waypoint := Waypoint_new_any (lis_ledger_info latest_li) in
        if wp_version new_waypoint =? wp_version curr_waypoint then
          ensure (bool_decide (new_waypoint = curr_waypoint))
            "LedgerInfo doesn't match verified state" ;?
          Ok TSCNoChange
        else
          verifier_verify curr_epoch_state latest_li ;?
          let? new_accumulator :=
            try_extend_with_proof curr_accumulator consistency_proof
              (lis_ledger_info latest_li) in
          let new_state := TSEpochState new_waypoint curr_epoch_state new_accumulator in
          Ok (TSCVersion new_state)
    end.

Definition verify_and_ratchet (ts : TrustedState) (state_proof : StateProof)
    (initial_accumulator : option InMemoryAccumulator) : AnyResult TrustedStateChange :=
  verify_and_ratchet_inner ts (sp_latest_li_w_sigs state_proof) (sp_epoch_changes state_proof)
    (sp_consistency_proof state_proof) initial_accumulator.

(** ** Reading a successful ratchet *)

(** What changed: the ledger info that was trusted, by whom it was verified, and the
    accumulator extended to it. *)
Lemma ratchet_ok_inv ts latest_li ecp proof init change :
  verify_and_ratchet_inner ts latest_li ecp proof init = Ok change →
  change = TSCNoChange ∨
  ∃ lis es acc acc', TrustedStateChange_new_state change =
      Some (TSEpochState (Waypoint_new_any (lis_ledger_info lis)) es acc') ∧
    current_accumulator ts ecp init = Ok acc ∧
    try_extend_with_proof acc proof (lis_ledger_info lis) = Ok acc' ∧
    ((lis = latest_li ∧ verifier_verify es lis = Ok () ∧
      ∃ w acc0, ts = TSEpochState w es acc0) ∨
     ∃ ec_li, EpochChangeProof_verify ecp (to_dyn ts) = Ok ec_li ∧
       li_next_epoch_state (lis_ledger_info ec_li) = Some es ∧
       (lis = ec_li ∨ lis = latest_li ∧ verifier_verify es lis = Ok ())) ∧
    (lis = latest_li ∨ EpochChangeProof_verify ecp (to_dyn ts) = Ok lis) ∧
    TrustedState_version ts ≤ li_version (lis_ledger_info latest_li).
Proof.
  intros Hrun. unfold verify_and_ratchet_inner in Hrun. cbv zeta in Hrun.
  apply r_bind_ok in Hrun as ([] & Hstale & Hrun). apply ensure_ok, Z.leb_le in Hstale.
  apply r_bind_ok in Hrun as (acc & Hacc & Hrun).
  destruct (epoch_change_verification_required ts _).
  - apply r_bind_ok in Hrun as (ec_li & Hec & Hrun). apply r_bind_ok in Hrun as (es & Hes & Hrun).
    apply ok_or_ok in Hes. apply r_bind_ok in Hrun as (lis & Hlis & Hrun).
    apply r_bind_ok in Hrun as (acc' & Hext & [= <-]). right.
    exists lis, es, acc, acc'. split_and!; try done.
    + right. exists ec_li. split_and!; try done.
      destruct (bool_decide_reflect (ec_li = latest_li)) as [->|]; [left; congruence|].
      destruct (_ =? _); [apply r_bind_ok in Hlis as ([] & Hv & [= <-]); by right|].
      destruct (_ && _); [left; congruence|done].
    + destruct (bool_decide_reflect (ec_li = latest_li)) as [->|]; [left; congruence|].
      destruct (_ =? _); [apply r_bind_ok in Hlis as ([] & Hv & [= <-]); by left|].
      destruct (_ && _); [|done]. injection Hlis as <-. by right.
  - destruct ts as [w|w es acc0]; [done|].
    destruct (_ =? _).
    + apply r_bind_ok in Hrun as ([] & _ & [= <-]). by left.
    + apply r_bind_ok in Hrun as ([] & Hv & Hrun). apply r_bind_ok in Hrun as (acc' & Hext & [= <-]).
      right. exists latest_li, es, acc, acc'. split_and!; try done; [|by left].
      left. split_and!; eauto.
Qed.

Lemma try_extend_version acc proof li acc' :
  try_extend_with_proof acc proof li = Ok acc' →
  acc_version acc ≤ li_version li ∧ acc_version acc' = li_version li ∧
  root_hash acc' = li_transaction_accumulator_hash li.
Proof.
  intros Hrun. unfold try_extend_with_proof in Hrun.
  apply r_bind_ok in Hrun as ([] & Hle & Hrun). apply r_bind_ok in Hrun as (acc1 & Happ & Hrun).
  apply r_bind_ok in Hrun as ([] & Hcons & [= ->]). apply ensure_ok, Z.leb_le in Hle.
  unfold verify_consistency in Hcons. r_inv Hcons. apply Z.eqb_eq in Hs, Hcons. done.
Qed.
End trusted_state.

(** ** Invariant of the client's state *)

(** The accumulator summary is at the version of the waypoint. *)
Definition ts_consistent (ts : TrustedState) : Prop :=
  match ts with
  | TSEpochWaypoint _ => True
  | TSEpochState w _ acc => acc_version acc = wp_version w
  end.

(** The trusted state only moves forward.  Whatever state proof a client accepts,
    its new state is not older than the one it had, and its accumulator summary stays
    at the version of its waypoint. *)
Theorem ratchet_monotone `{C : Crypto} `{HLI : CryptoHash LedgerInfo}
    `{HWP : CryptoHash Ledger2WaypointConverter} `{MH : MerkleHasher}
    ts state_proof init change ts' :
  ts_consistent ts → verify_and_ratchet ts state_proof init = Ok change →
  TrustedStateChange_new_state change = Some ts' →
  ts_consistent ts' ∧ TrustedState_version ts ≤ TrustedState_version ts'.
Proof.
  intros Hc Hrun Hnew. apply ratchet_ok_inv in Hrun as [->|Hrun]; [done|].
  destruct Hrun as (lis & es & acc & acc' & Hst & Hacc & Hext & _ & Hsrc & Hver).
  rewrite Hst in Hnew. injection Hnew as <-. apply try_extend_version in Hext as (Hle & Hv & _).
  split; [done|]. unfold TrustedState_version in *. simpl.
  destruct Hsrc as [->|Hec]; [done|].
  destruct ts as [w|w es0 acc0]; simpl in *.
  - apply EpochChangeProof_verify_fresh in Hec. simpl in Hec. apply Z.ltb_ge in Hec. done.
  - injection Hacc as ->. lia.
Qed.

(** ** Following one ledger *)

Section light_client.
Context `{C : Crypto} `{HLI : CryptoHash LedgerInfo} `{HWP : CryptoHash Ledger2WaypointConverter}
  `{MH : MerkleHasher} {HL : AccumulatorHashLaws MH}.
Context (waypoint_hash_inj : Inj (=) (=) (crypto_hash (T:=Ledger2WaypointConverter))).

(** The one ledger the validators agree on, and the validator sets of its epochs. *)
Context (ledger : list HashValue) (history : Z → EpochState).

(** The ledger info commits to a prefix of the ledger. *)
Definition on_ledger (li : LedgerInfo) : Prop :=
  0 ≤ li_version li < Z.of_nat (length ledger) ∧
  li_transaction_accumulator_hash li = merkle_root (take (Z.to_nat (li_version li + 1)) ledger).

(** What consensus guarantees: a quorum of an epoch's validators only signs ledger
    infos of the ledger, and ends the epoch with the next validator set. *)
Record agreement : Prop := {
  agreement_epoch : ∀ e, es_epoch (history e) = e;
  agreement_next : ∀ e lis next,
    accepted_by (history e) lis → li_next_epoch_state (lis_ledger_info lis) = Some next →
    next = history (e + 1);
  agreement_ledger : ∀ e lis, accepted_by (history e) lis → on_ledger (lis_ledger_info lis);
  agreement_leaves : Forall leaf_hash ledger;
}.

(** A client state that agrees with the ledger. *)
Definition follows (ts : TrustedState) : Prop :=
  match ts with
  | TSEpochWaypoint w =>
      ∃ li0, w = Waypoint_new_any li0 ∧ on_ledger li0 ∧
        li_next_epoch_state li0 = Some (history (li_epoch li0 + 1))
  | TSEpochState w es acc =>
      (∃ e, es = history e) ∧ 0 ≤ wp_version w < Z.of_nat (length ledger) ∧
      repr acc (take (Z.to_nat (wp_version w + 1)) ledger)
  end.

Lemma append_subtrees_new acc subs n acc' :
  append_subtrees acc subs n = Ok acc' → ∃ fr m, InMemoryAccumulator_new fr m = Ok acc'.
Proof.
  unfold append_subtrees. intros Hrun. apply r_bind_ok in Hrun as ([] & _ & Hrun).
  destruct (num_leaves acc =? 0); [eauto|].
  apply r_bind_ok in Hrun as ([[[r m] k] t] & _ & Hrun). eauto.
Qed.

Lemma try_extend_repr acc proof li acc' :
  Forall leaf_hash ledger → try_extend_with_proof acc proof li = Ok acc' → on_ledger li →
  repr acc' (take (Z.to_nat (li_version li + 1)) ledger).
Proof using HL.
  intros Hleaf Hrun [Hv Hroot]. pose proof Hrun as (_ & Hver & Hr)%try_extend_version.
  unfold try_extend_with_proof in Hrun.
  apply r_bind_ok in Hrun as ([] & _ & Hrun). apply r_bind_ok in Hrun as (acc1 & Happ & Hrun).
  apply r_bind_ok in Hrun as ([] & _ & [= ->]).
  apply append_subtrees_new in Happ as (fr & m & Hnew).
  assert (Hm : num_leaves acc' = m).
  { unfold InMemoryAccumulator_new in Hnew. r_inv Hnew. done. }
  assert (Hlen : length (take (Z.to_nat (li_version li + 1)) ledger) = Z.to_nat (li_version li + 1))
    by (apply length_take_le; lia).
  apply (InMemoryAccumulator_new_root_inj fr m acc'); [done| |congruence].
  rewrite Hlen. unfold acc_version in Hver. rewrite Hm in Hver.
  destruct (Z.eqb_spec m 0) as [->|]; [|lia]. exfalso.
  (* an empty accumulator has the placeholder as its root *)
  assert (root_hash acc' = ACCUMULATOR_PLACEHOLDER_HASH) as Hph.
  { unfold InMemoryAccumulator_new in Hnew. r_inv Hnew. simpl.
    destruct fr; [|simpl in Hs; lia]. simpl in Hs0. congruence. }
  rewrite <- Hver in *. change (Z.to_nat (0 + 1)) with 1%nat in *.
  destruct ledger as [|x L]; [simpl in Hv; lia|].
  apply Forall_cons in Hleaf as [[_ Hx] _]. simpl in Hroot.
  rewrite merkle_root_one in Hroot. congruence.
Qed.

Lemma follows_to_dyn ts :
  follows ts → ∃ e, trusted_start history (to_dyn ts) e.
Proof.
  destruct ts as [w|w es acc]; simpl.
  - intros (li0 & -> & _ & Hn). exists (li_epoch li0). right. exists li0. done.
  - intros ((e & ->) & _). exists e. left. done.
Qed.

Lemma converter_on_ledger li li0 :
  Ledger2WaypointConverter_new li = Ledger2WaypointConverter_new li0 →
  on_ledger li0 → on_ledger li.
Proof.
  intros [= _ Hr Hv _ _] [Hb Hroot]. split; [lia|]. by rewrite Hr, Hv.
Qed.

Lemma ratchet_follows ts latest_li ecp proof init change ts' :
  agreement → follows ts →
  verify_and_ratchet_inner ts latest_li ecp proof init = Ok change →
  TrustedStateChange_new_state change = Some ts' → follows ts'.
Proof using HL waypoint_hash_inj.
  intros [Hep Hnx Hled Hleaf] Hts Hrun Hnew. apply ratchet_ok_inv in Hrun as [->|Hrun]; [done|].
  destruct Hrun as (lis & es & acc & acc' & Hst & Hacc & Hext & Htrust & _ & _).
  rewrite Hst in Hnew. injection Hnew as <-. simpl.
  enough ((∃ e, es = history e) ∧ on_ledger (lis_ledger_info lis)) as [Hes Hon].
  { split_and!; [done|apply Hon..|]. by eapply try_extend_repr. }
  destruct Htrust as [(-> & Hv & w & acc0 & ->)|(ec_li & Hec & Hnext & Hlis)].
  - destruct Hts as ((e & ->) & _). split; [by exists e|]. by eapply Hled.
  - destruct (follows_to_dyn ts Hts) as [e Hstart].
    eapply epoch_change_verify_history in Hec as (_ & Hes & Hfrom);
      [|exact Hep|exact Hnx|exact waypoint_hash_inj|exact Hstart].
    rewrite Hes in Hnext. injection Hnext as <-. split; [by eexists|].
    destruct Hlis as [->|[-> Hv]]; [|by eapply Hled].
    destruct Hfrom as [Hacc'|Hv]; [by eapply Hled|].
    destruct ts as [w|w es0 acc0]; simpl in Hv.
    + destruct Hts as (li1 & -> & Hon & _). apply Waypoint_verify_inj in Hv; [|done].
      by eapply converter_on_ledger.
    + destruct Hts as ((e0 & ->) & _). by eapply Hled.
Qed.
End light_client.


(** ** The sample history as a ledger of three transactions *)

Definition sample_txns : list HashValue := [10; 20; 30].
Definition sample_root (n : nat) : HashValue :=
  merkle_root (MH:=ref_merkle_hasher 1) (take n sample_txns).
Definition sample_ending : LedgerInfo := sample_li1 (sample_root 2).
Definition sample_latest : LedgerInfo := sample_li2 (sample_root 3).
Definition sample_hash : CryptoHash LedgerInfo := sample_li_hash (sample_root 2) (sample_root 3).
Definition sample_waypoint : Waypoint :=
  Waypoint_new_any (C:=sample_crypto) (HWP:=ref_waypoint_hash) sample_ending.
Definition sample_start : TrustedState := TSEpochWaypoint sample_waypoint.
Definition sample_initial : InMemoryAccumulator :=
  mkInMemoryAccumulator [sample_root 2] 2 (sample_root 2).
Definition sample_state_proof : StateProof :=
  mkStateProof (sample_signed sample_latest)
    (mkEpochChangeProof [sample_signed sample_ending] false) [30].
Definition sample_end : TrustedState :=
  TSEpochState (Waypoint_new_any (C:=sample_crypto) (HWP:=ref_waypoint_hash) sample_latest)
    (sample_history 2) (mkInMemoryAccumulator [sample_root 2; 30] 3 (sample_root 3)).

Lemma sample_ratchet :
  verify_and_ratchet (C:=sample_crypto) (HLI:=sample_hash) (HWP:=ref_waypoint_hash)
    (MH:=ref_merkle_hasher 1) sample_start sample_state_proof (Some sample_initial)
  = Ok (TSCEpoch sample_end (sample_signed sample_ending)).
Proof. vm_compute. reflexivity. Qed.

Lemma sample_agreement :
  agreement (C:=sample_crypto) (HLI:=sample_hash) (MH:=ref_merkle_hasher 1)
    sample_txns sample_history.
Proof.
  split.
  - intros e. reflexivity.
  - intros e lis next [He [Hl|Hl]]%sample_accepted Hn; rewrite Hl in He, Hn; simpl in He, Hn;
      [|discriminate Hn]. injection Hn as <-. subst e. reflexivity.
  - intros e lis [He [Hl|Hl]]%sample_accepted; rewrite Hl;
      (split; [vm_compute; split; congruence|vm_compute; reflexivity]).
  - repeat (constructor; [split; [intros a b; vm_compute; congruence|vm_compute; congruence]|]).
    constructor.
Qed.

Lemma ratchet_monotone_witness :
  ts_consistent sample_end ∧ TrustedState_version sample_start ≤ TrustedState_version sample_end.
Proof.
  apply (ratchet_monotone (C:=sample_crypto) (HLI:=sample_hash) (HWP:=ref_waypoint_hash)
    (MH:=ref_merkle_hasher 1) sample_start sample_state_proof (Some sample_initial)
    (TSCEpoch sample_end (sample_signed sample_ending)));
    [exact I|exact sample_ratchet|reflexivity].
Defined.

