(* ===== verification/ConsensusTypes.v ===== *)
(** * ConsensusTypes: votes, certificates, blocks and messages of the consensus

    Models src/consensus/consensus-types/src/{vote_data,quorum_cert,timeout,
    timeout_certificate,timeout_2chain,block_data,block,vote,vote_msg,sync_info,
    proposal_msg,vote_proposal,safety_data}.rs and src/types/src/validator_signer.rs.
    Accessors are record projections.  Errors are the outermost context of the
    [anyhow] error.  A transaction of a block's payload is represented by its hash;
    the wall clock ([duration_since_epoch]) is an argument of the checks that read it. *)

From S2P Require Import Prelude Crypto Accumulator ValidatorVerifier LedgerTypes EpochChange.
From S2P Require Import AccumulatorProof.

Abbreviation Author := Z (only parsing).
Abbreviation Payload := (list HashValue) (only parsing).

(** ** Data *)

Record VoteData := mkVoteData {
  vd_proposed : BlockInfo;
  vd_parent : BlockInfo;
}.

Record QuorumCert := mkQuorumCert {
  qc_vote_data : VoteData;
  qc_signed_ledger_info : LedgerInfoWithSignatures;
}.

Definition qc_certified_block (qc : QuorumCert) : BlockInfo := vd_proposed (qc_vote_data qc).
Definition qc_parent_block (qc : QuorumCert) : BlockInfo := vd_parent (qc_vote_data qc).
Definition qc_ledger_info (qc : QuorumCert) : LedgerInfo :=
  lis_ledger_info (qc_signed_ledger_info qc).
Definition qc_commit_info (qc : QuorumCert) : BlockInfo := li_commit_info (qc_ledger_info qc).
Definition qc_ends_epoch (qc : QuorumCert) : bool := li_ends_epoch (qc_ledger_info qc).
(** The round of the certified block. *)
Definition qc_round (qc : QuorumCert) : Round := bi_round (qc_certified_block qc).

Record Timeout := mkTimeout {
  to_epoch : Z;
  to_round : Round;
}.

Record TimeoutCertificate := mkTimeoutCertificate {
  tc_timeout : Timeout;
  tc_signatures : BTreeMap Signature;
}.

Record TwoChainTimeout := mkTwoChainTimeout {
  tct_epoch : Z;
  tct_round : Round;
  tct_quorum_cert : QuorumCert;
}.

Definition tct_hqc_round (t : TwoChainTimeout) : Round := qc_round (tct_quorum_cert t).

Record TimeoutSigningRepr := mkTimeoutSigningRepr {
  tsr_epoch : Z;
  tsr_round : Round;
  tsr_hqc_round : Round;
}.

Definition tct_signing_format (t : TwoChainTimeout) : TimeoutSigningRepr :=
  mkTimeoutSigningRepr (tct_epoch t) (tct_round t) (tct_hqc_round t).

Record TwoChainTimeoutCertificate := mkTwoChainTimeoutCertificate {
  tctc_timeout : TwoChainTimeout;
  tctc_signatures : BTreeMap (Round * Signature);
}.

Definition tctc_epoch (tc : TwoChainTimeoutCertificate) : Z := tct_epoch (tctc_timeout tc).
Definition tctc_round (tc : TwoChainTimeoutCertificate) : Round := tct_round (tctc_timeout tc).
Definition tctc_highest_hqc_round (tc : TwoChainTimeoutCertificate) : Round :=
  tct_hqc_round (tctc_timeout tc).

Inductive BlockType :=
| BTProposal (payload : Payload) (author : Author)
| BTNilBlock
| BTGenesis.

Record BlockData := mkBlockData {
  bd_epoch : Z;
  bd_round : Round;
  bd_timestamp_usecs : Z;
  bd_quorum_cert : QuorumCert;
  bd_block_type : BlockType;
}.

Record Block := mkBlock {
  b_id : HashValue;
  b_block_data : BlockData;
  b_signature : option Signature;
}.

Record Vote := mkVote {
  v_vote_data : VoteData;
  v_author : Author;
  v_ledger_info : LedgerInfo;
  v_signature : Signature;
  v_timeout_signature : option Signature;
  v_two_chain_timeout : option (TwoChainTimeout * Signature);
}.

Record SyncInfo := mkSyncInfo {
  si_highest_quorum_cert : QuorumCert;
  si_highest_ordered_cert : option QuorumCert;
  si_highest_ledger_info : option LedgerInfoWithSignatures;
  si_highest_timeout_cert : option TimeoutCertificate;
  si_highest_2chain_timeout_cert : option TwoChainTimeoutCertificate;
}.

Record VoteMsg := mkVoteMsg {
  vm_vote : Vote;
  vm_sync_info : SyncInfo;
}.

Record ProposalMsg := mkProposalMsg {
  pm_proposal : Block;
  pm_sync_info : SyncInfo;
}.

Record VoteProposal := mkVoteProposal {
  vp_accumulator_extension_proof : AccumulatorExtensionProof;
  vp_block : Block;
  vp_next_epoch_state : option EpochState;
  vp_decoupled_execution : bool;
}.

Record MaybeSignedVoteProposal := mkMaybeSignedVoteProposal {
  msvp_vote_proposal : VoteProposal;
  msvp_signature : option Signature;
}.

Record SafetyData := mkSafetyData {
  sd_epoch : Z;
  sd_last_voted_round : Round;
  sd_preferred_round : Round;
  sd_one_chain_round : Round;
  sd_last_vote : option Vote;
}.

#[export] Instance VoteData_eq_dec : EqDecision VoteData.
Proof. solve_decision. Defined.
#[export] Instance QuorumCert_eq_dec : EqDecision QuorumCert.
Proof. solve_decision. Defined.
#[export] Instance Timeout_eq_dec : EqDecision Timeout.
Proof. solve_decision. Defined.
#[export] Instance TimeoutCertificate_eq_dec : EqDecision TimeoutCertificate.
Proof. solve_decision. Defined.
#[export] Instance TwoChainTimeout_eq_dec : EqDecision TwoChainTimeout.
Proof. solve_decision. Defined.
#[export] Instance TimeoutSigningRepr_eq_dec : EqDecision TimeoutSigningRepr.
Proof. solve_decision. Defined.
#[export] Instance TwoChainTimeoutCertificate_eq_dec : EqDecision TwoChainTimeoutCertificate.
Proof. solve_decision. Defined.
#[export] Instance BlockType_eq_dec : EqDecision BlockType.
Proof. solve_decision. Defined.
#[export] Instance BlockData_eq_dec : EqDecision BlockData.
Proof. solve_decision. Defined.
#[export] Instance Block_eq_dec : EqDecision Block.
Proof. solve_decision. Defined.
#[export] Instance Vote_eq_dec : EqDecision Vote.
Proof. solve_decision. Defined.
#[export] Instance SafetyData_eq_dec : EqDecision SafetyData.
Proof. solve_decision. Defined.

(** ** The cryptography of the consensus: every type that is hashed or signed *)

Class ConsensusCrypto := {
  cc_crypto :: Crypto;
  cc_node :: MerkleHasher;
  cc_ledger_info :: CryptoHash LedgerInfo;
  cc_vote_data :: CryptoHash VoteData;
  cc_block_data :: CryptoHash BlockData;
  cc_timeout :: CryptoHash Timeout;
  cc_timeout_signing_repr :: CryptoHash TimeoutSigningRepr;
  cc_vote_proposal :: CryptoHash VoteProposal;
  cc_waypoint :: CryptoHash Ledger2WaypointConverter;
}.

Record ValidatorSigner := mkValidatorSigner {
  vsig_author : AccountAddress;
  vsig_private_key : PrivateKey;
}.

Section types.
Context `{CC : ConsensusCrypto}.

Definition ValidatorSigner_sign {T} `{CryptoHash T} (s : ValidatorSigner) (message : T)
    : Signature := sign (vsig_private_key s) message.
Definition ValidatorSigner_public_key (s : ValidatorSigner) : PublicKey :=
  ed25519_public (vsig_private_key s).

(** ** VoteData *)

Definition VoteData_verify (vd : VoteData) : AnyResult unit :=
  ensure (bi_epoch (vd_parent vd) =? bi_epoch (vd_proposed vd))
    "Parent and proposed epochs do not match" ;?
  ensure (bi_round (vd_parent vd) <? bi_round (vd_proposed vd))
    "Proposed round is less than parent round" ;?
  ensure (bi_timestamp_usecs (vd_parent vd) <=? bi_timestamp_usecs (vd_proposed vd))
    "Proposed happened before parent" ;?
  ensure ((bi_version (vd_proposed vd) =? 0)
          || (bi_version (vd_parent vd) <=? bi_version (vd_proposed vd)))
    "Proposed version is less than parent version" ;?
  Ok ().

(** ** QuorumCert *)

Definition certificate_for_genesis_from_ledger_info {E} (ledger_info : LedgerInfo)
    (genesis_id : HashValue) : Result E QuorumCert :=
  let? epoch := expect (checked_add (li_epoch ledger_info) 1)
                  "Integer overflow when creating cert for genesis from ledger info" in
  let ancestor :=
    mkBlockInfo epoch 0 genesis_id (li_transaction_accumulator_hash ledger_info)
      (li_version ledger_info) (li_timestamp_usecs ledger_info) None in
  let vote_data := mkVoteData ancestor ancestor in
  let li := mkLedgerInfo ancestor (crypto_hash vote_data) in
  Ok (mkQuorumCert vote_data (mkLedgerInfoWithSignatures li ∅)).

Definition QuorumCert_verify (qc : QuorumCert) (validator : ValidatorVerifier)
    : AnyResult unit :=
  let vote_hash := crypto_hash (qc_vote_data qc) in
  ensure (li_consensus_data_hash (qc_ledger_info qc) =? vote_hash)
    "Quorum Cert's hash mismatch LedgerInfo" ;?
  if bi_round (qc_certified_block qc) =? 0 then
    ensure (bool_decide (qc_parent_block qc = qc_certified_block qc))
      "Genesis QC has inconsistent parent block with certified block" ;?
    ensure (bool_decide (qc_certified_block qc = li_commit_info (qc_ledger_info qc)))
      "Genesis QC has inconsistent commit block with certified block" ;?
    ensure (bool_decide (lis_signatures (qc_signed_ledger_info qc) = ∅))
      "Genesis QC should not carry signatures" ;?
    Ok ()
  else
    r_map_err (λ _, "Fail to verify QuorumCert")
      (lis_verify_signatures (qc_signed_ledger_info qc) validator) ;?
    VoteData_verify (qc_vote_data qc) ;?
    Ok ().

(** ** Timeout certificates *)

Definition Timeout_sign (t : Timeout) (signer : ValidatorSigner) : Signature :=
  ValidatorSigner_sign signer t.

Definition TimeoutCertificate_new (t : Timeout) : TimeoutCertificate := mkTimeoutCertificate t ∅.

Definition TimeoutCertificate_verify (tc : TimeoutCertificate) (validator : ValidatorVerifier)
    : AnyResult unit :=
  r_map_err (λ _, "Failed to verify TimeoutCertificate")
    (verify_aggregated_struct_signature validator (tc_timeout tc) (tc_signatures tc)) ;?
  Ok ().

Definition tc_add_signature (tc : TimeoutCertificate) (author : Author) (signature : Signature)
    : TimeoutCertificate :=
  mkTimeoutCertificate (tc_timeout tc) (or_insert author signature (tc_signatures tc)).
Definition tc_remove_signature (tc : TimeoutCertificate) (author : Author)
    : TimeoutCertificate :=
  mkTimeoutCertificate (tc_timeout tc) (delete author (tc_signatures tc)).

Definition TwoChainTimeout_sign (t : TwoChainTimeout) (signer : ValidatorSigner) : Signature :=
  ValidatorSigner_sign signer (tct_signing_format t).

Definition TwoChainTimeoutCertificate_new (t : TwoChainTimeout) : TwoChainTimeoutCertificate :=
  mkTwoChainTimeoutCertificate t ∅.

Definition TwoChainTimeoutCertificate_verify (tc : TwoChainTimeoutCertificate)
    (validators : ValidatorVerifier) : AnyResult unit :=
  let hqc_round := tct_hqc_round (tctc_timeout tc) in
  ensure (hqc_round <? tct_round (tctc_timeout tc))
    "Timeout round should be larger than the QC round" ;?
  QuorumCert_verify (tct_quorum_cert (tctc_timeout tc)) validators ;?
  r_map_err VerifyError_to_string
    (check_voting_power validators (btree_keys (tctc_signatures tc))) ;?
  let? signed_round :=
    r_fold (λ signed_round '(author, (qc_round, signature)),
        let t := mkTimeoutSigningRepr (tct_epoch (tctc_timeout tc))
                   (tct_round (tctc_timeout tc)) qc_round in
        r_map_err (λ _, "Failed to verify TimeoutSigningRepr")
          (vv_verify validators author t signature) ;?
        Ok (Z.max signed_round qc_round))
      (btree_iter (tctc_signatures tc)) 0 in
  ensure (hqc_round =? signed_round) "Inconsistent hqc round" ;?
  Ok ().

(** [debug_assert_eq] on the epoch and the round is not compiled in release mode. *)
Definition TwoChainTimeoutCertificate_add (tc : TwoChainTimeoutCertificate) (author : Author)
    (timeout : TwoChainTimeout) (signature : Signature) : TwoChainTimeoutCertificate :=
  let hqc_round := tct_hqc_round timeout in
  let new_timeout :=
    if tct_hqc_round (tctc_timeout tc) <? tct_hqc_round timeout then timeout
    else tctc_timeout tc in
  mkTwoChainTimeoutCertificate new_timeout
    (<[author := (hqc_round, signature)]> (tctc_signatures tc)).

(** ** BlockData *)

Definition bd_author (d : BlockData) : option Author :=
  match bd_block_type d with BTProposal _ author => Some author | _ => None end.
Definition bd_payload (d : BlockData) : option Payload :=
  match bd_block_type d with BTProposal payload _ => Some payload | _ => None end.
Definition bd_parent_id (d : BlockData) : HashValue :=
  bi_id (qc_certified_block (bd_quorum_cert d)).
Definition bd_is_genesis_block (d : BlockData) : bool :=
  match bd_block_type d with BTGenesis => true | _ => false end.
Definition bd_is_nil_block (d : BlockData) : bool :=
  match bd_block_type d with BTNilBlock => true | _ => false end.
Definition bd_is_reconfiguration_suffix (d : BlockData) : bool :=
  bi_has_reconfiguration (qc_certified_block (bd_quorum_cert d)).

Definition BlockData_new_genesis (timestamp_usecs : Z) (quorum_cert : QuorumCert) : BlockData :=
  mkBlockData (wrap64 (bi_epoch (qc_certified_block quorum_cert) + 1)) 0 timestamp_usecs
    quorum_cert BTGenesis.

Definition BlockData_new_genesis_from_ledger_info {E} (ledger_info : LedgerInfo)
    : Result E BlockData :=
  if li_ends_epoch ledger_info then
    let ancestor :=
      mkBlockInfo (li_epoch ledger_info) 0 HashValue_zero
        (li_transaction_accumulator_hash ledger_info) (li_version ledger_info)
        (li_timestamp_usecs ledger_info) None in
    let genesis_quorum_cert :=
      mkQuorumCert (mkVoteData ancestor ancestor)
        (mkLedgerInfoWithSignatures (mkLedgerInfo ancestor HashValue_zero) ∅) in
    Ok (BlockData_new_genesis (li_timestamp_usecs ledger_info) genesis_quorum_cert)
  else Panic "assertion failed: ledger_info.ends_epoch()".

Definition BlockData_new_nil (round : Round) (quorum_cert : QuorumCert) : BlockData :=
  mkBlockData (bi_epoch (qc_certified_block quorum_cert)) round
    (bi_timestamp_usecs (qc_certified_block quorum_cert)) quorum_cert BTNilBlock.

Definition BlockData_new_proposal (payload : Payload) (author : Author) (round : Round)
    (timestamp_usecs : Z) (quorum_cert : QuorumCert) : BlockData :=
  mkBlockData (bi_epoch (qc_certified_block quorum_cert)) round timestamp_usecs
    quorum_cert (BTProposal payload author).

(** ** Block *)

Definition b_author (b : Block) : option Author := bd_author (b_block_data b).
Definition b_epoch (b : Block) : Z := bd_epoch (b_block_data b).
Definition b_round (b : Block) : Round := bd_round (b_block_data b).
Definition b_timestamp_usecs (b : Block) : Z := bd_timestamp_usecs (b_block_data b).
Definition b_quorum_cert (b : Block) : QuorumCert := bd_quorum_cert (b_block_data b).
Definition b_parent_id (b : Block) : HashValue := bi_id (qc_certified_block (b_quorum_cert b)).
Definition b_payload (b : Block) : option Payload := bd_payload (b_block_data b).
Definition b_is_genesis_block (b : Block) : bool := bd_is_genesis_block (b_block_data b).
Definition b_is_nil_block (b : Block) : bool := bd_is_nil_block (b_block_data b).

Definition gen_block_info (b : Block) (executed_state_id : HashValue) (version : Version)
    (next_epoch_state : option EpochState) : BlockInfo :=
  mkBlockInfo (b_epoch b) (b_round b) (b_id b) executed_state_id version
    (b_timestamp_usecs b) next_epoch_state.

Definition make_genesis_block_from_ledger_info {E} (ledger_info : LedgerInfo)
    : Result E Block :=
  let? block_data := BlockData_new_genesis_from_ledger_info ledger_info in
  Ok (mkBlock (crypto_hash block_data) block_data None).

Definition Block_new_nil (round : Round) (quorum_cert : QuorumCert) : Block :=
  let block_data := BlockData_new_nil round quorum_cert in
  mkBlock (crypto_hash block_data) block_data None.

Definition new_proposal_from_block_data_and_signature (block_data : BlockData)
    (signature : Signature) : Block :=
  mkBlock (crypto_hash block_data) block_data (Some signature).

Definition new_proposal_from_block_data (block_data : BlockData)
    (validator_signer : ValidatorSigner) : Block :=
  new_proposal_from_block_data_and_signature block_data
    (ValidatorSigner_sign validator_signer block_data).

Definition Block_new_proposal (payload : Payload) (round : Round) (timestamp_usecs : Z)
    (quorum_cert : QuorumCert) (validator_signer : ValidatorSigner) : Block :=
  new_proposal_from_block_data
    (BlockData_new_proposal payload (vsig_author validator_signer) round timestamp_usecs
       quorum_cert)
    validator_signer.

(** Deserialization recomputes the id of a received block. *)
Definition Block_deserialize (block_data : BlockData) (signature : option Signature) : Block :=
  mkBlock (crypto_hash block_data) block_data signature.

Definition validate_signature (b : Block) (validator : ValidatorVerifier) : AnyResult unit :=
  match bd_block_type (b_block_data b) with
  | BTGenesis => Err "We should not accept genesis from others"
  | BTNilBlock => QuorumCert_verify (b_quorum_cert b) validator
  | BTProposal _ author =>
      let? signature := ok_or (b_signature b) "Missing signature in Proposal" in
      r_map_err VerifyError_to_string
        (vv_verify validator author (b_block_data b) signature) ;?
      QuorumCert_verify (b_quorum_cert b) validator
  end.

Definition TIMEBOUND : Z := 300000000.

(** [current_ts] is [duration_since_epoch().as_micros() as u64]; the comparison of the
    id with the hash is a debug assertion. *)
Definition Block_verify_well_formed (current_ts : Z) (b : Block) : AnyResult unit :=
  ensure (negb (b_is_genesis_block b)) "We must not accept genesis from others" ;?
  let parent := qc_certified_block (b_quorum_cert b) in
  ensure (bi_round parent <? b_round b)
    "Block must have a greater round than parent's block" ;?
  ensure (bi_epoch parent =? b_epoch b) "block's parent should be in the same epoch" ;?
  (if bi_has_reconfiguration parent then
     ensure (match b_payload b with Some p => bool_decide (p = []) | None => true end)
       "Reconfiguration suffix should not carry payload"
   else Ok ()) ;?
  (if b_is_nil_block b || bi_has_reconfiguration parent then
     ensure (b_timestamp_usecs b =? bi_timestamp_usecs parent)
       "Nil/reconfig suffix block must have same timestamp as parent"
   else
     ensure (bi_timestamp_usecs parent <? b_timestamp_usecs b)
       "Blocks must have strictly increasing timestamps" ;?
     ensure (b_timestamp_usecs b <=? saturating_add current_ts TIMEBOUND)
       "Blocks must not be too far in the future") ;?
  ensure (negb (qc_ends_epoch (b_quorum_cert b)))
    "Block cannot be proposed in an epoch that has ended" ;?
  Ok ().

(** ** Vote *)

Definition Vote_new_with_signature (vote_data : VoteData) (author : Author)
    (ledger_info : LedgerInfo) (signature : Signature) : Vote :=
  mkVote vote_data author ledger_info signature None None.

Definition Vote_new (vote_data : VoteData) (author : Author)
    (ledger_info_placeholder : LedgerInfo) (validator_signer : ValidatorSigner) : Vote :=
  let ledger_info :=
    li_set_consensus_data_hash ledger_info_placeholder (crypto_hash vote_data) in
  Vote_new_with_signature vote_data author ledger_info
    (ValidatorSigner_sign validator_signer ledger_info).

Definition v_epoch (v : Vote) : Z := bi_epoch (vd_proposed (v_vote_data v)).
(** The round voted for. *)
Definition v_round (v : Vote) : Round := bi_round (vd_proposed (v_vote_data v)).

Definition add_timeout_signature {E} (v : Vote) (signature : Signature) : Result E Vote :=
  match v_two_chain_timeout v with
  | Some _ => Panic "2-chain timeout shouldn't co-exist with timeout"
  | None =>
      match v_timeout_signature v with
      | Some _ => Ok v
      | None =>
          Ok (mkVote (v_vote_data v) (v_author v) (v_ledger_info v) (v_signature v)
                (Some signature) (v_two_chain_timeout v))
      end
  end.

Definition add_2chain_timeout {E} (v : Vote) (timeout : TwoChainTimeout)
    (signature : Signature) : Result E Vote :=
  match v_timeout_signature v with
  | Some _ => Panic "2-chain timeout shouldn't co-exist with timeout"
  | None =>
      Ok (mkVote (v_vote_data v) (v_author v) (v_ledger_info v) (v_signature v)
            (v_timeout_signature v) (Some (timeout, signature)))
  end.

Definition generate_timeout (v : Vote) : Timeout := mkTimeout (v_epoch v) (v_round v).
Definition generate_2chain_timeout (v : Vote) (qc : QuorumCert) : TwoChainTimeout :=
  mkTwoChainTimeout (v_epoch v) (v_round v) qc.

Definition v_is_timeout (v : Vote) : bool :=
  bool_decide (is_Some (v_timeout_signature v))
  || bool_decide (is_Some (v_two_chain_timeout v)).

Definition Vote_verify (v : Vote) (validator : ValidatorVerifier) : AnyResult unit :=
  ensure (li_consensus_data_hash (v_ledger_info v) =? crypto_hash (v_vote_data v))
    "Vote's hash mismatch with LedgerInfo" ;?
  ensure (bool_decide (v_timeout_signature v = None)
          || bool_decide (v_two_chain_timeout v = None))
    "Only one timeout should exist" ;?
  r_map_err (λ _, "Failed to verify Vote")
    (vv_verify validator (v_author v) (v_ledger_info v) (v_signature v)) ;?
  (match v_timeout_signature v with
   | Some timeout_signature =>
       r_map_err (λ _, "Failed to verify Timeout Vote")
         (vv_verify validator (v_author v) (generate_timeout v) timeout_signature)
   | None => Ok ()
   end) ;?
  (match v_two_chain_timeout v with
   | Some (timeout, signature) =>
       ensure ((tct_epoch timeout =? v_epoch v) && (tct_round timeout =? v_round v))
         "2-chain timeout has different (epoch, round) than Vote" ;?
       r_map_err (λ _, "Failed to verify QC from 2-chain timeout")
         (QuorumCert_verify (tct_quorum_cert timeout) validator) ;?
       r_map_err (λ _, "Failed to verify 2-chain timeout signature")
         (vv_verify validator (v_author v) (tct_signing_format timeout) signature)
   | None => Ok ()
   end) ;?
  VoteData_verify (v_vote_data v).
End types.
