(* ===== verification/ConsensusMessages.v ===== *)
(** * ConsensusMessages: sync info, vote and proposal messages, vote proposals

    Models the operations of src/consensus/consensus-types/src/{sync_info,vote_msg,
    proposal_msg,vote_proposal}.rs over the records of ConsensusTypes. *)

From S2P Require Import Prelude Crypto Accumulator ValidatorVerifier LedgerTypes.
From S2P Require Import AccumulatorProof ConsensusTypes.

Section messages.
Context `{CC : ConsensusCrypto}.

(** ** SyncInfo *)

Definition SyncInfo_new_decoupled {E} (highest_quorum_cert highest_ordered_cert : QuorumCert)
    (highest_ledger_info : option LedgerInfoWithSignatures)
    (highest_timeout_cert : option TimeoutCertificate)
    (highest_2chain_timeout_cert : option TwoChainTimeoutCertificate) : Result E SyncInfo :=
  let htc := opt_filter (λ tc, qc_round highest_quorum_cert <? to_round (tc_timeout tc))
               highest_timeout_cert in
  let h2tc := opt_filter (λ tc, qc_round highest_quorum_cert <? tctc_round tc)
                highest_2chain_timeout_cert in
  let hoc := opt_filter (λ hoc, bool_decide (hoc ≠ highest_quorum_cert))
               (Some highest_ordered_cert) in
  if bool_decide (htc = None) || bool_decide (h2tc = None) then
    Ok (mkSyncInfo highest_quorum_cert hoc highest_ledger_info htc h2tc)
  else Panic "Only one timeout cert should be carried".

Definition SyncInfo_new {E} (highest_quorum_cert highest_ordered_cert : QuorumCert)
    (highest_timeout_cert : option TimeoutCertificate)
    (highest_2chain_timeout_cert : option TwoChainTimeoutCertificate) : Result E SyncInfo :=
  SyncInfo_new_decoupled highest_quorum_cert highest_ordered_cert
    (Some (qc_signed_ledger_info highest_ordered_cert))
    highest_timeout_cert highest_2chain_timeout_cert.

Definition highest_ordered_cert (s : SyncInfo) : QuorumCert :=
  default (si_highest_quorum_cert s) (si_highest_ordered_cert s).
Definition highest_ledger_info (s : SyncInfo) : LedgerInfoWithSignatures :=
  default (qc_signed_ledger_info (highest_ordered_cert s)) (si_highest_ledger_info s).
Definition highest_certified_round (s : SyncInfo) : Round := qc_round (si_highest_quorum_cert s).
Definition highest_timeout_round (s : SyncInfo) : Round :=
  Z.max (from_option (λ tc, to_round (tc_timeout tc)) 0 (si_highest_timeout_cert s))
        (from_option tctc_round 0 (si_highest_2chain_timeout_cert s)).
Definition highest_ordered_round (s : SyncInfo) : Round :=
  bi_round (qc_commit_info (highest_ordered_cert s)).
Definition highest_ledger_info_round (s : SyncInfo) : Round :=
  bi_round (lis_commit_info (highest_ledger_info s)).
Definition highest_round (s : SyncInfo) : Round :=
  Z.max (highest_certified_round s) (highest_timeout_round s).
Definition si_epoch (s : SyncInfo) : Z := bi_epoch (qc_certified_block (si_highest_quorum_cert s)).

Definition SyncInfo_verify (s : SyncInfo) (validator : ValidatorVerifier) : AnyResult unit :=
  let epoch := si_epoch s in
  ensure (epoch =? bi_epoch (qc_certified_block (highest_ordered_cert s)))
    "Multi epoch in SyncInfo - HOC and HQC" ;?
  (match si_highest_timeout_cert s with
   | Some tc => ensure (epoch =? to_epoch (tc_timeout tc)) "Multi epoch in SyncInfo - TC and HQC"
   | None => Ok ()
   end) ;?
  ensure (qc_round (highest_ordered_cert s) <=? qc_round (si_highest_quorum_cert s))
    "HQC has lower round than HOC" ;?
  ensure (highest_ledger_info_round s <=? qc_round (highest_ordered_cert s))
    "HOC has lower round than HLI" ;?
  ensure (bool_decide (qc_commit_info (highest_ordered_cert s) ≠ BlockInfo_empty))
    "HOC has no committed block" ;?
  ensure (bool_decide (lis_commit_info (highest_ledger_info s) ≠ BlockInfo_empty))
    "HLI has empty commit info" ;?
  ensure (bool_decide (si_highest_timeout_cert s = None)
          || bool_decide (si_highest_2chain_timeout_cert s = None))
    "Only One timeout cert should be carried" ;?
  r_map_err (λ _, "Fail to verify SyncInfo")
    (QuorumCert_verify (si_highest_quorum_cert s) validator ;?
     (match si_highest_ordered_cert s with
      | Some cert => QuorumCert_verify cert validator
      | None => Ok ()
      end) ;?
     (match si_highest_timeout_cert s with
      | Some tc => TimeoutCertificate_verify tc validator
      | None => Ok ()
      end) ;?
     (match si_highest_ledger_info s with
      | Some hli =>
          if 0 <? bi_round (lis_commit_info hli) then
            r_map_err VerifyError_to_string (lis_verify_signatures hli validator)
          else Ok ()
      | None => Ok ()
      end) ;?
     (match si_highest_2chain_timeout_cert s with
      | Some tc => TwoChainTimeoutCertificate_verify tc validator
      | None => Ok ()
      end)) ;?
  Ok ().

Definition has_newer_certificates (s other : SyncInfo) : bool :=
  (highest_certified_round other <? highest_certified_round s)
  || (highest_timeout_round other <? highest_timeout_round s)
  || (highest_ordered_round other <? highest_ordered_round s)
  || (highest_ledger_info_round other <? highest_ledger_info_round s).

(** ** VoteMsg *)

Definition VoteMsg_verify (m : VoteMsg) (validator : ValidatorVerifier) : AnyResult unit :=
  ensure (v_epoch (vm_vote m) =? si_epoch (vm_sync_info m)) "VoteMsg has different epoch" ;?
  (match v_two_chain_timeout (vm_vote m) with
   | Some (timeout, _) =>
       ensure (tct_hqc_round timeout <=? highest_certified_round (vm_sync_info m))
         "2-chain Timeout hqc should be less or equal than the sync info hqc"
   | None => Ok ()
   end) ;?
  Vote_verify (vm_vote m) validator.

(** ** ProposalMsg *)

Definition ProposalMsg_verify_well_formed (current_ts : Z) (m : ProposalMsg)
    : AnyResult unit :=
  let proposal := pm_proposal m in
  let sync_info := pm_sync_info m in
  ensure (negb (b_is_nil_block proposal)) "Proposal for a NIL block" ;?
  r_map_err (λ _, "Fail to verify ProposalMsg's block")
    (Block_verify_well_formed current_ts proposal) ;?
  ensure (0 <? b_round proposal) "Proposal has an incorrect round of 0" ;?
  ensure (b_epoch proposal =? si_epoch sync_info)
    "ProposalMsg has different epoch number from SyncInfo" ;?
  ensure (b_parent_id proposal =? bi_id (qc_certified_block (si_highest_quorum_cert sync_info)))
    "Proposal HQC in SyncInfo certifies a block that is not the parent" ;?
  let? previous_round := ok_or (checked_sub (b_round proposal) 1)
                           "proposal round overflowed!" in
  let highest_certified_round :=
    Z.max (qc_round (b_quorum_cert proposal)) (highest_timeout_round sync_info) in
  ensure (previous_round =? highest_certified_round)
    "Proposal does not have a certified round" ;?
  ensure (bool_decide (is_Some (b_author proposal))) "Proposal does not define an author" ;?
  Ok ().

Definition ProposalMsg_verify (current_ts : Z) (m : ProposalMsg) (validator : ValidatorVerifier)
    : AnyResult unit :=
  validate_signature (pm_proposal m) validator ;?
  (match si_highest_timeout_cert (pm_sync_info m) with
   | Some tc => TimeoutCertificate_verify tc validator
   | None => Ok ()
   end) ;?
  (match si_highest_2chain_timeout_cert (pm_sync_info m) with
   | Some tc => TwoChainTimeoutCertificate_verify tc validator
   | None => Ok ()
   end) ;?
  ProposalMsg_verify_well_formed current_ts m.

Definition proposer {E} (m : ProposalMsg) : Result E Author :=
  expect (b_author (pm_proposal m)) "Proposal should be verified having an author".

(** ** VoteProposal *)

Definition vote_data_ordering_only (p : VoteProposal) : VoteData :=
  mkVoteData
    (gen_block_info (vp_block p) ACCUMULATOR_PLACEHOLDER_HASH 0 (vp_next_epoch_state p))
    (qc_certified_block (b_quorum_cert (vp_block p))).

Definition vote_data_with_extension_proof (p : VoteProposal) (new_tree : InMemoryAccumulator)
    : VoteData :=
  mkVoteData
    (gen_block_info (vp_block p) (root_hash new_tree) (acc_version new_tree)
       (vp_next_epoch_state p))
    (qc_certified_block (b_quorum_cert (vp_block p))).

Definition gen_vote_data (p : VoteProposal) : AnyResult VoteData :=
  if vp_decoupled_execution p then Ok (vote_data_ordering_only p)
  else
    let? new_tree :=
      AccumulatorExtensionProof_verify (vp_accumulator_extension_proof p)
        (bi_executed_state_id (qc_certified_block (b_quorum_cert (vp_block p)))) in
    Ok (vote_data_with_extension_proof p new_tree).
End messages.
