(* ===== verification/SafetyStorage.v ===== *)
(** * SafetyStorage: secure storage and the persistent storage of the safety rules

    Models src/secure/storage/src/{kv_storage,crypto_storage,crypto_kv_storage,
    in_memory,on_disk}.rs, the errors of src/secure/storage/src/error.rs and
    src/consensus/safety-rules/src/error.rs, and
    src/consensus/safety-rules/src/persistent_safety_storage.rs.

    The traits are classes, their contract is [KVLaws] and [CryptoStorageLaws]: what a successful
    [set] wrote is what [get] returns, and a [set] that reports an error has
    either written or not.  A stored value is a JSON document, represented by the
    value it was written from; the time stamps of the entries are not kept.  The last part
    proves the contracts: of the cached safety data, and of the versions of the keys. *)

From S2P Require Import Prelude Crypto Accumulator ValidatorVerifier LedgerTypes EpochChange ConsensusTypes.

(** ** Errors *)

Inductive StorageError :=
| InternalError (msg : string)
| KeyAlreadyExists (name : string)
| KeyNotSet (name : string)
| PermissionDenied
| SerializationError (msg : string)
| KeyVersionNotFound (name : string) (version : PublicKey).

(** [Error] of the safety rules. *)
Inductive SafetyError :=
| IncorrectEpoch (epoch expected : Z)
| IncorrectRound (round : Round)
| IncorrectLastVotedRound (round last_voted_round : Round)
| IncorrectPreferredRound (round preferred_round : Round)
| InvalidAccumulatorExtension (msg : string)
| InvalidEpochChangeProof (msg : string)
| SafetyInternalError (msg : string)
| InvalidLedgerInfo
| InvalidProposal (msg : string)
| InvalidQuorumCertificate (msg : string)
| NotInitialized (what : string)
| SecureStorageMissingDataError (e : StorageError)
| SecureStorageUnexpectedError (e : StorageError)
| ValidatorKeyNotFound (e : SafetyError)
| ValidatorNotInSet (author : AccountAddress)
| VoteProposalSignatureNotFound
| NotSafeToVote (round qc_round tc_round hqc_round : Round)
| NotSafeToTimeout (round qc_round tc_round one_chain_round : Round)
| InvalidTimeoutCertificate (msg : string)
| InconsistentExecutionResult (ordered executed : BlockInfo)
| InvalidOrderedLedgerInfo (li : LedgerInfo)
| WaypointOutOfDate (previous updated : Version) (current provided : Z).

(** [impl From<diem_secure_storage::Error> for Error]: a permission error stops the
    process. *)
Definition from_storage_error {A} (e : StorageError) : Result SafetyError A :=
  match e with
  | PermissionDenied => Panic "A permission error was thrown"
  | KeyVersionNotFound _ _ | KeyNotSet _ => Err (SecureStorageMissingDataError e)
  | _ => Err (SecureStorageUnexpectedError e)
  end.
Definition from_storage {A} (r : Result StorageError A) : Result SafetyError A :=
  match r with
  | Ok a => Ok a
  | Err e => from_storage_error e
  | Panic m => Panic m
  end.

(** ** Stored values *)

Inductive StoredValue :=
| SVSafetyData (data : SafetyData)
| SVWaypoint (waypoint : Waypoint)
| SVAuthor (author : Author)
| SVPrivateKey (key : PrivateKey).

(** [Serialize + DeserializeOwned]: a document deserializes as the type it was
    written from. *)
Class Stored (T : Type) := {
  to_value : T → StoredValue;
  from_value : StoredValue → option T;
}.
#[export] Instance SafetyData_stored : Stored SafetyData := {|
  to_value := SVSafetyData;
  from_value v := match v with SVSafetyData d => Some d | _ => None end;
|}.
#[export] Instance Waypoint_stored : Stored Waypoint := {|
  to_value := SVWaypoint;
  from_value v := match v with SVWaypoint w => Some w | _ => None end;
|}.
Definition Author_stored : Stored Author := {|
  to_value := SVAuthor;
  from_value v := match v with SVAuthor a => Some a | _ => None end;
|}.
Definition PrivateKey_stored : Stored PrivateKey := {|
  to_value := SVPrivateKey;
  from_value v := match v with SVPrivateKey k => Some k | _ => None end;
|}.
(** A document that deserializes as a [Result] is an object whose only field is [Ok]
    or [Err]; none of the documents above is. *)
Definition result_from_value {E T} (v : StoredValue) : option (Result E T) := None.

(** ** The traits *)

Class KVStorage (S : Type) := {
  kv_get : string → ST S StorageError StoredValue;
  kv_set : string → StoredValue → ST S StorageError unit;
}.

Class CryptoStorage (S : Type) := {
  import_private_key : string → PrivateKey → ST S StorageError unit;
  export_private_key_for_version : string → PublicKey → ST S StorageError PrivateKey;
  storage_public_key : string → ST S StorageError PublicKey;
  sign_using_version : string → PublicKey → Bytes → ST S StorageError Signature;
}.

(** Deserialization of the stored document. *)
Definition decode_value {T} (from : StoredValue → option T) (v : StoredValue)
    : Result StorageError T :=
  ok_or (from v) (SerializationError "invalid type").

Definition storage_get {S} `{KVStorage S} {T} `{V : Stored T} (key : string) : ST S StorageError T :=
  let! v := kv_get key in st_lift (decode_value from_value v).
Definition storage_set {S} `{KVStorage S} {T} `{V : Stored T} (key : string) (value : T)
    : ST S StorageError unit :=
  kv_set key (to_value value).

(** What a client relies on; the abstract contents of the storage are a finite map. *)
Class KVLaws (S : Type) {KV : KVStorage S} := {
  storage_view : S → gmap string StoredValue;
  kv_get_view : ∀ k s, storage_view (kv_get k s).1 = storage_view s;
  kv_get_ok : ∀ k s s' v, kv_get k s = (s', Ok v) → storage_view s !! k = Some v;
  kv_set_ok : ∀ k v s s',
    kv_set k v s = (s', Ok ()) → storage_view s' = <[k := v]> (storage_view s);
  kv_set_any : ∀ k v s s' r,
    kv_set k v s = (s', r) →
    storage_view s' = storage_view s ∨ storage_view s' = <[k := v]> (storage_view s);
  kv_set_returns : ∀ k v s m, (kv_set k v s).2 ≠ Panic m;
}.

(** The keys do not interfere with the other entries. *)
Class CryptoStorageLaws (S : Type) {KV : KVStorage S} {KL : KVLaws S} {CS : CryptoStorage S}
    : Prop := {
  import_key_view : ∀ name sk k s,
    k ≠ name → storage_view (import_private_key name sk s).1 !! k = storage_view s !! k;
  export_key_view : ∀ name pk s,
    storage_view (export_private_key_for_version name pk s).1 = storage_view s;
  public_key_view : ∀ name s, storage_view (storage_public_key name s).1 = storage_view s;
  sign_view : ∀ name pk m s, storage_view (sign_using_version name pk m s).1 = storage_view s;
}.

(** ** CryptoKVStorage: keys held in a key-value store *)

Section crypto_kv.
Context `{C : Crypto} {S : Type} `{KV : KVStorage S}.
#[local] Existing Instance PrivateKey_stored.

Definition get_previous_version_name (name : string) : string := name +:+ "_previous".

Definition kv_export_private_key (name : string) : ST S StorageError PrivateKey :=
  storage_get name.

Definition kv_export_private_key_for_version (name : string) (version : PublicKey)
    : ST S StorageError PrivateKey :=
  let! current_private_key := kv_export_private_key name in
  if ed25519_public current_private_key =? version then st_ret current_private_key
  else
    λ s, match kv_export_private_key (get_previous_version_name name) s with
         | (s', Ok previous_private_key) =>
             if ed25519_public previous_private_key =? version
             then (s', Ok previous_private_key)
             else (s', Err (KeyVersionNotFound name version))
         | (s', Err (KeyNotSet _)) => (s', Err (KeyVersionNotFound name version))
         | (s', Err e) => (s', Err e)
         | (s', Panic m) => (s', Panic m)
         end.

Definition kv_import_private_key (name : string) (key : PrivateKey) : ST S StorageError unit :=
  storage_set name key.

Definition kv_get_public_key (name : string) : ST S StorageError PublicKey :=
  let! key := kv_export_private_key name in st_ret (ed25519_public key).

(** [new_private_key] is the key drawn by [new_ed25519_key_pair]. *)
Definition kv_create_key (new_private_key : PrivateKey) (name : string)
    : ST S StorageError PublicKey :=
  kv_import_private_key name new_private_key ;!
  st_ret (ed25519_public new_private_key).

Definition kv_rotate_key (new_private_key : PrivateKey) (name : string)
    : ST S StorageError PublicKey :=
  let! private_key := kv_export_private_key name in
  storage_set (get_previous_version_name name) private_key ;!
  storage_set name new_private_key ;!
  st_ret (ed25519_public new_private_key).

Definition kv_sign_using_version (name : string) (version : PublicKey) (message : Bytes)
    : ST S StorageError Signature :=
  let! private_key := kv_export_private_key_for_version name version in
  st_ret (ed25519_sign private_key message).

#[export] Instance CryptoKVStorage : CryptoStorage S := {|
  import_private_key := kv_import_private_key;
  export_private_key_for_version := kv_export_private_key_for_version;
  storage_public_key := kv_get_public_key;
  sign_using_version := kv_sign_using_version;
|}.
End crypto_kv.

(** ** InMemoryStorage *)

Record InMemoryStorage := mkInMemoryStorage { ims_data : gmap string StoredValue }.

#[export] Instance InMemoryStorage_kv : KVStorage InMemoryStorage := {|
  kv_get key := λ s, (s, ok_or (ims_data s !! key) (KeyNotSet key));
  kv_set key value := λ s, (mkInMemoryStorage (<[key := value]> (ims_data s)), Ok ());
|}.

(** ** OnDiskStorage

    The file as the map it contains.  [ods_io] says, for each file operation to come,
    whether the operating system lets it succeed (when exhausted, they all do). *)

Record OnDiskStorage := mkOnDiskStorage {
  ods_file : gmap string StoredValue;
  ods_io : list bool;
}.

Definition disk_io {A} (done : A) : ST OnDiskStorage StorageError A := λ s,
  match ods_io s with
  | false :: io => (mkOnDiskStorage (ods_file s) io, Err (InternalError "io error"))
  | true :: io => (mkOnDiskStorage (ods_file s) io, Ok done)
  | [] => (s, Ok done)
  end.

(** [read]: open the file and read it to the end. *)
Definition disk_read : ST OnDiskStorage StorageError (gmap string StoredValue) :=
  disk_io () ;! disk_io () ;! λ s, (s, Ok (ods_file s)).

(** [write]: create and fill the temporary file, then rename it over the file. *)
Definition disk_write (data : gmap string StoredValue) : ST OnDiskStorage StorageError unit :=
  disk_io () ;! disk_io () ;! disk_io () ;!
  λ s, (mkOnDiskStorage data (ods_io s), Ok ()).

#[export] Instance OnDiskStorage_kv : KVStorage OnDiskStorage := {|
  kv_get key :=
    let! data := disk_read in st_lift (ok_or (data !! key) (KeyNotSet key));
  kv_set key value :=
    let! data := disk_read in disk_write (<[key := value]> data);
|}.

(** ** PersistentSafetyStorage *)

Definition CONSENSUS_KEY : string := "consensus".
Definition EXECUTION_KEY : string := "execution".
Definition OWNER_ACCOUNT : string := "owner_account".
Definition SAFETY_DATA : string := "safety_data".
Definition WAYPOINT : string := "waypoint".

Record PersistentSafetyStorage (S : Type) := mkPersistentSafetyStorage {
  pss_enable_cached_safety_data : bool;
  pss_cached_safety_data : option SafetyData;
  pss_internal_store : S;
}.
Arguments mkPersistentSafetyStorage {S}.
Arguments pss_enable_cached_safety_data {S}.
Arguments pss_cached_safety_data {S}.
Arguments pss_internal_store {S}.

Section persistent.
Context {S : Type} `{KV : KVStorage S} `{CS : CryptoStorage S}.
Implicit Types p : PersistentSafetyStorage S.

Definition pss_set_cache (d : option SafetyData) p : PersistentSafetyStorage S :=
  mkPersistentSafetyStorage (pss_enable_cached_safety_data p) d (pss_internal_store p).
Definition pss_set_store (s : S) p : PersistentSafetyStorage S :=
  mkPersistentSafetyStorage (pss_enable_cached_safety_data p) (pss_cached_safety_data p) s.

(** A call to the internal store. *)
Definition pss_store {E A} (c : ST S E A) : ST (PersistentSafetyStorage S) E A :=
  st_zoom pss_internal_store pss_set_store c.
(** The same followed by [?]. *)
Definition pss_store_q {A} (c : ST S StorageError A)
    : ST (PersistentSafetyStorage S) SafetyError A :=
  st_map_res from_storage (pss_store c).

Definition pss_new (internal_store : S) (enable_cached_safety_data : bool)
    : PersistentSafetyStorage S :=
  mkPersistentSafetyStorage enable_cached_safety_data None internal_store.

Definition pss_author : ST (PersistentSafetyStorage S) SafetyError Author :=
  pss_store_q (storage_get (V := Author_stored) OWNER_ACCOUNT).

Definition consensus_key_for_version (version : PublicKey)
    : ST (PersistentSafetyStorage S) SafetyError PrivateKey :=
  pss_store_q (export_private_key_for_version CONSENSUS_KEY version).

Definition execution_public_key : ST (PersistentSafetyStorage S) SafetyError PublicKey :=
  pss_store_q (storage_public_key EXECUTION_KEY).

Definition pss_sign {T} `{CryptoHash T} (key_name : string) (key_version : PublicKey)
    (message : T) : ST (PersistentSafetyStorage S) SafetyError Signature :=
  pss_store_q (sign_using_version key_name key_version (signing_message message)).

(** In the branch without the cache the type of the value that is read is inferred
    from [return ...?] to be [Result<SafetyData, Error>]. *)
Definition pss_safety_data : ST (PersistentSafetyStorage S) SafetyError SafetyData :=
  let! p := st_get in
  if negb (pss_enable_cached_safety_data p) then
    let! value := pss_store_q
      (let! v := kv_get SAFETY_DATA in
       st_lift (decode_value (result_from_value (E := SafetyError)) v)) in
    st_lift value
  else
    match pss_cached_safety_data p with
    | Some cached_safety_data => st_ret cached_safety_data
    | None =>
        let! safety_data := pss_store_q (storage_get SAFETY_DATA) in
        (λ p, (pss_set_cache (Some safety_data) p, Ok ())) ;!
        st_ret safety_data
    end.

Definition pss_set_safety_data (data : SafetyData)
    : ST (PersistentSafetyStorage S) SafetyError unit := λ p,
  match pss_store (storage_set SAFETY_DATA data) p with
  | (p', Ok _) => (pss_set_cache (Some data) p', Ok ())
  | (p', Err error) => (pss_set_cache None p', Err (SecureStorageUnexpectedError error))
  | (p', Panic m) => (p', Panic m)
  end.

Definition pss_waypoint : ST (PersistentSafetyStorage S) SafetyError Waypoint :=
  pss_store_q (storage_get WAYPOINT).

Definition pss_set_waypoint (waypoint : Waypoint)
    : ST (PersistentSafetyStorage S) SafetyError unit :=
  pss_store_q (storage_set WAYPOINT waypoint).

Definition initialize_keys_and_accounts (author : Author)
    (consensus_private_key execution_private_key : PrivateKey) : ST S SafetyError unit := λ s,
  match import_private_key CONSENSUS_KEY consensus_private_key s with
  | (s', Err (KeyAlreadyExists _)) => (s', Ok ())
  | (s', Panic m) => (s', Panic m)
  | (s', _) =>
      (st_map_res from_storage (import_private_key EXECUTION_KEY execution_private_key) ;!
       st_map_res from_storage (storage_set (V := Author_stored) OWNER_ACCOUNT author)) s'
  end.

(** [expect] on a fallible step of a constructor. *)
Definition st_expect {St E F A} (msg : string) (c : ST St E A) : ST St F A :=
  st_map_res (λ r, match r with Ok a => Ok a | Err _ => Panic msg | Panic m => Panic m end) c.

Definition pss_initialize {E} (internal_store : S) (author : Author)
    (consensus_private_key execution_private_key : PrivateKey) (waypoint : Waypoint)
    (enable_cached_safety_data : bool)
    : PersistentSafetyStorage S * Result E unit :=
  let safety_data := mkSafetyData 1 0 0 0 None in
  let p := mkPersistentSafetyStorage enable_cached_safety_data (Some safety_data)
             internal_store in
  (st_expect "Unable to initialize keys and accounts in storage"
     (pss_store (initialize_keys_and_accounts author consensus_private_key
                   execution_private_key)) ;!
   st_expect "Unable to initialize safety data" (pss_set_safety_data safety_data) ;!
   st_expect "Unable to initialize waypoint" (pss_set_waypoint waypoint)) p.
End persistent.

(** ** The contract of the storages *)

Section kv_facts.
Context {S : Type} {KV : KVStorage S} {KL : KVLaws S}.

(** Computations that leave the contents as they are. *)
Definition keeps_view {E A} (c : ST S E A) : Prop :=
  ∀ s, storage_view (c s).1 = storage_view s.

Lemma keeps_view_bind {E A B} (c : ST S E A) (f : A → ST S E B) :
  keeps_view c → (∀ a, keeps_view (f a)) → keeps_view (st_bind c f).
Proof.
  intros Hc Hf s. unfold st_bind. specialize (Hc s).
  destruct (c s) as [s' [a|e|m]]; simpl in *; [by rewrite Hf|done..].
Qed.

Lemma keeps_view_lift {E A} (r : Result E A) : keeps_view (st_lift r).
Proof. by intros s. Qed.
Lemma keeps_view_ret {E A} (a : A) : keeps_view (E:=E) (st_ret a).
Proof. by intros s. Qed.
Lemma keeps_view_get k : keeps_view (kv_get k).
Proof. intros s. apply kv_get_view. Qed.

#[local] Hint Resolve keeps_view_bind keeps_view_lift keeps_view_ret keeps_view_get : diem.

Lemma keeps_view_storage_get {T} `{V : Stored T} k : keeps_view (storage_get (V:=V) k).
Proof. unfold storage_get. auto with diem. Qed.

Lemma storage_get_ok {T} `{V : Stored T} k s s' x :
  storage_get (V:=V) k s = (s', Ok x) →
  ∃ v, storage_view s !! k = Some v ∧ from_value v = Some x.
Proof.
  unfold storage_get. intros (v & s1 & Hg & Hd)%st_bind_ok. exists v.
  unfold st_lift in Hd. injection Hd as <- Hd. apply ok_or_ok in Hd.
  split; [by eapply kv_get_ok|done].
Qed.

Context `{C : Crypto}.

Lemma keeps_view_export name pk : keeps_view (kv_export_private_key_for_version name pk).
Proof.
  apply keeps_view_bind; [apply keeps_view_storage_get|]. intros sk.
  destruct (_ =? _); [apply keeps_view_ret|]. intros s.
  pose proof (keeps_view_storage_get (V:=PrivateKey_stored)
                (get_previous_version_name name) s) as Hv.
  unfold kv_export_private_key. destruct (storage_get _ s) as [s' [k|[]|m]]; simpl in *; try done.
  by destruct (_ =? _).
Qed.

#[export] Instance CryptoKVStorage_laws : CryptoStorageLaws S.
Proof.
  split.
  - intros name sk k s Hne. simpl. unfold kv_import_private_key, storage_set.
    destruct (kv_set name _ s) as [s' r] eqn:Hs. simpl.
    apply kv_set_any in Hs as [-> | ->]; [done|]. by rewrite lookup_insert_ne.
  - apply keeps_view_export.
  - intros name. apply keeps_view_bind; [apply keeps_view_storage_get|].
    intros; apply keeps_view_ret.
  - intros name pk m. apply keeps_view_bind; [apply keeps_view_export|].
    intros; apply keeps_view_ret.
Qed.
End kv_facts.

#[export] Instance InMemoryStorage_laws : KVLaws InMemoryStorage.
Proof.
  refine {| storage_view := ims_data |}.
  - done.
  - intros k s s' v [= <- H]. by apply ok_or_ok in H.
  - by intros k v s s' [= <-].
  - intros k v s s' r [= <- <-]. by right.
  - done.
Defined.

Lemma disk_io_file {A} (a : A) s : ods_file (disk_io a s).1 = ods_file s.
Proof. unfold disk_io. by destruct (ods_io s) as [|[] ?]. Qed.

Lemma disk_read_spec s s' r :
  disk_read s = (s', r) → ods_file s' = ods_file s ∧ (∀ data, r = Ok data → data = ods_file s).
Proof.
  unfold disk_read, disk_io, st_bind.
  destruct s as [file [|[] [|[] io]]]; simpl; intros [= <- <-]; naive_solver.
Qed.

Lemma disk_write_spec data s s' r :
  disk_write data s = (s', r) →
  (r = Ok () ∧ ods_file s' = data) ∨ (r ≠ Ok () ∧ ods_file s' = ods_file s).
Proof.
  unfold disk_write, disk_io, st_bind.
  destruct s as [file [|[] [|[] [|[] io]]]]; simpl; intros [= <- <-]; naive_solver.
Qed.

(** Renaming the finished temporary file makes a write all or nothing. *)
Lemma disk_set_spec k v s s' r :
  kv_set (S:=OnDiskStorage) k v s = (s', r) →
  (r = Ok () ∧ ods_file s' = <[k := v]> (ods_file s)) ∨ (r ≠ Ok () ∧ ods_file s' = ods_file s).
Proof.
  simpl. unfold st_bind. destruct (disk_read s) as [s1 [data|e|m]] eqn:Hr.
  - apply disk_read_spec in Hr as [<- Hd]. intros [[-> ->]|[Hne ->]]%disk_write_spec; [|by right].
    left. by rewrite (Hd data).
  - apply disk_read_spec in Hr as [<- _]. intros [= <- <-]. by right.
  - apply disk_read_spec in Hr as [<- _]. intros [= <- <-]. by right.
Qed.

#[export] Instance OnDiskStorage_laws : KVLaws OnDiskStorage.
Proof.
  refine {| storage_view := ods_file |}.
  - intros k s. simpl. unfold st_bind. destruct (disk_read s) as [s1 [data|e|m]] eqn:Hr;
      by apply disk_read_spec in Hr as [<- _].
  - intros k s s' v (data & s1 & Hr & Hd)%st_bind_ok. unfold st_lift in Hd.
    injection Hd as <- Hd. apply ok_or_ok in Hd.
    apply disk_read_spec in Hr as [_ Hr]. by rewrite <- (Hr data).
  - intros k v s s' [[_ H]|[Hne _]]%disk_set_spec; done.
  - intros k v s s' r [[_ H]|[_ H]]%disk_set_spec; auto.
  - intros k v [file io] m. simpl. unfold disk_read, disk_write, disk_io, st_bind. simpl.
    repeat (destruct io as [|[] io]; simpl; try done).
Defined.

Section cell.
Context {S : Type} {KV : KVStorage S} {KL : KVLaws S}
  {CS : CryptoStorage S} {CL : CryptoStorageLaws S}.
Implicit Types p : PersistentSafetyStorage S.

(** The safety data in the storage. *)
Definition pss_view p : option StoredValue :=
  storage_view (pss_internal_store p) !! SAFETY_DATA.
Definition pss_holds p (d : SafetyData) : Prop := pss_view p = Some (SVSafetyData d).
(** The cache agrees with the storage. *)
Definition pss_coherent p : Prop := ∀ d, pss_cached_safety_data p = Some d → pss_holds p d.

(** Operations that touch neither the safety data nor the cache. *)
Definition pss_frame {E A} (c : ST (PersistentSafetyStorage S) E A) : Prop :=
  ∀ p, pss_view (c p).1 = pss_view p ∧
       pss_cached_safety_data (c p).1 = pss_cached_safety_data p ∧
       pss_enable_cached_safety_data (c p).1 = pss_enable_cached_safety_data p.

Lemma pss_frame_store {A} (c : ST S StorageError A) :
  (∀ s, storage_view (c s).1 !! SAFETY_DATA = storage_view s !! SAFETY_DATA) →
  pss_frame (pss_store_q c).
Proof.
  intros Hc p. unfold pss_store_q, pss_store, st_map_res, st_zoom, pss_view.
  specialize (Hc (pss_internal_store p)).
  destruct (c (pss_internal_store p)) as [s r]; simpl in *. by rewrite Hc.
Qed.

Lemma pss_frame_author : pss_frame pss_author.
Proof. apply pss_frame_store. intros s. by rewrite keeps_view_storage_get. Qed.
Lemma pss_frame_waypoint : pss_frame pss_waypoint.
Proof. apply pss_frame_store. intros s. by rewrite keeps_view_storage_get. Qed.
Lemma pss_frame_consensus_key pk : pss_frame (consensus_key_for_version pk).
Proof. apply pss_frame_store. intros s. by rewrite export_key_view. Qed.
Lemma pss_frame_execution_key : pss_frame execution_public_key.
Proof. apply pss_frame_store. intros s. by rewrite public_key_view. Qed.
Lemma pss_frame_sign {T} `{CryptoHash T} name pk (m : T) : pss_frame (pss_sign name pk m).
Proof. apply pss_frame_store. intros s. by rewrite sign_view. Qed.
Lemma pss_frame_set_waypoint w : pss_frame (pss_set_waypoint w).
Proof.
  apply pss_frame_store. intros s. unfold storage_set.
  destruct (kv_set WAYPOINT _ s) as [s' r] eqn:Hs. simpl.
  apply kv_set_any in Hs as [-> | ->]; [done|]. by rewrite lookup_insert_ne.
Qed.

Lemma pss_store_q_ok {A} (c : ST S StorageError A) p p' a :
  pss_store_q c p = (p', Ok a) →
  c (pss_internal_store p) = (pss_internal_store p', Ok a).
Proof.
  unfold pss_store_q, pss_store, st_map_res, st_zoom.
  destruct (c (pss_internal_store p)) as [s [a'|e|m]]; simpl; [by intros [= <- ->]| |done].
  by destruct e.
Qed.

(** Reading the entry of the safety data, whatever it is decoded to. *)
Lemma pss_frame_get {T} (from : StoredValue → option T) :
  pss_frame (pss_store_q (let! v := kv_get SAFETY_DATA in st_lift (decode_value from v))).
Proof.
  apply pss_frame_store. intros s. f_equal.
  apply keeps_view_bind; [apply keeps_view_get|intros; apply keeps_view_lift].
Qed.

Lemma pss_coherent_frame {E A} (c : ST (PersistentSafetyStorage S) E A) p :
  pss_frame c → pss_coherent p → pss_coherent (c p).1.
Proof.
  intros Hf Hco d. destruct (Hf p) as (Hv & Hc & _). unfold pss_holds.
  rewrite Hv, Hc. apply Hco.
Qed.

(** Without the cache the value read is a [Result], which the stored document is not. *)
Lemma pss_safety_data_uncached p :
  pss_enable_cached_safety_data p = false →
  (∃ e p', pss_safety_data p = (p', Err e)) ∨ (∃ m p', pss_safety_data p = (p', Panic m)).
Proof.
  intros He. unfold pss_safety_data. cbv [st_bind st_get]. rewrite He. simpl.
  destruct (pss_store_q _ p) as [p1 [v|e|m]] eqn:Hq; eauto.
  apply pss_store_q_ok, st_bind_ok in Hq as (v0 & s1 & _ & Hd). unfold st_lift in Hd.
  injection Hd as _ Hd. by apply ok_or_ok in Hd.
Qed.

Lemma pss_safety_data_spec p p' r :
  pss_coherent p → pss_safety_data p = (p', r) →
  pss_coherent p' ∧ pss_view p' = pss_view p ∧
  pss_enable_cached_safety_data p' = pss_enable_cached_safety_data p ∧
  (∀ d, r = Ok d → pss_holds p d).
Proof.
  intros Hco. destruct (pss_enable_cached_safety_data p) eqn:He.
  - unfold pss_safety_data. cbv [st_bind st_get]. rewrite He. simpl.
    destruct (pss_cached_safety_data p) as [d|] eqn:Hc; [intros [= <- <-]; naive_solver|].
    unfold storage_get.
    destruct (pss_frame_get (from_value (Stored:=SafetyData_stored)) p) as (Hv & Hca & Hen).
    destruct (pss_store_q _ p) as [p1 [d|e|m]] eqn:Hq; simpl in *; intros [= <- <-].
    2,3: split; [intros d; congruence|naive_solver congruence].
    apply pss_store_q_ok, (storage_get_ok (V:=SafetyData_stored)) in Hq as ([] & Hl & [= <-]).
    assert (Hh : pss_holds p data) by done.
    split; [intros d' [= <-]; unfold pss_holds; by rewrite <- Hh, <- Hv|]. naive_solver congruence.
  - pose proof (pss_coherent_frame _ _ (pss_frame_get (result_from_value (E:=SafetyError) (T:=SafetyData))) Hco) as Hco'.
    destruct (pss_frame_get (result_from_value (E:=SafetyError) (T:=SafetyData)) p) as (Hv & _ & Hen).
    pose proof (pss_safety_data_uncached p He) as Hun.
    unfold pss_safety_data in *. cbv [st_bind st_get] in *. rewrite He in *. simpl in *.
    destruct (pss_store_q _ p) as [p1 [v|e'|m]]; simpl in *.
    { intros [= <- ->]. by destruct Hun as [(e & q & [= _ ->])|(e & q & [= _ ->])]. }
    all: intros [= <- <-]; by rewrite Hen.
Qed.

Lemma pss_set_spec d p p' r :
  pss_set_safety_data d p = (p', r) →
  pss_coherent p' ∧
  pss_enable_cached_safety_data p' = pss_enable_cached_safety_data p ∧
  (r = Ok () → pss_holds p' d) ∧
  (pss_view p' = pss_view p ∨ pss_holds p' d).
Proof.
  unfold pss_set_safety_data, pss_store, st_zoom, storage_set.
  pose proof (kv_set_returns SAFETY_DATA (to_value d) (pss_internal_store p)) as Hret.
  destruct (kv_set SAFETY_DATA _ (pss_internal_store p)) as [s [[]|e|m]] eqn:Hs;
    intros [= <- <-]; simpl; [| |by destruct (Hret m)].
  - apply kv_set_ok in Hs.
    assert (Hh : ∀ c, pss_holds (mkPersistentSafetyStorage (pss_enable_cached_safety_data p) c s) d).
    { intros c. unfold pss_holds, pss_view. simpl. rewrite Hs. apply lookup_insert_eq. }
    split; [intros d' [= <-]; apply Hh|]. split; [done|]. split; [intros _; apply Hh|].
    right; apply Hh.
  - apply kv_set_any in Hs. split; [by intros d'|]. split; [done|]. split; [done|].
    unfold pss_holds, pss_view. simpl. destruct Hs as [-> | ->]; [by left|right].
    apply lookup_insert_eq.
Qed.
End cell.

(** C15: the persistent storage of the safety rules refines one cell.  After the safety
    data was set, a read returns it, from the cache; after a [set] that reported an
    error, a read that succeeds returns the data of before the [set] or the data that
    was being set, never anything older, and in particular never a value the cache kept
    while the storage has moved on. *)
Theorem safety_storage_cell {S : Type} {KV : KVStorage S} {KL : KVLaws S}
    (p p1 p2 : PersistentSafetyStorage S) (d : SafetyData) r1 r2 :
  pss_enable_cached_safety_data p = true →
  pss_set_safety_data d p = (p1, r1) →
  pss_safety_data p1 = (p2, r2) →
  pss_coherent p2 ∧
  (r1 = Ok () → r2 = Ok d ∧ p2 = p1) ∧
  (∀ d', r2 = Ok d' → d' = d ∨ pss_holds p d').
Proof.
  intros He Hset Hget.
  destruct (pss_set_spec _ _ _ _ Hset) as (Hco1 & He1 & Hok & Hany).
  destruct (pss_safety_data_spec _ _ _ Hco1 Hget) as (Hco2 & Hv & _ & Hr).
  split; [done|]. split.
  - intros ->. unfold pss_set_safety_data in Hset. unfold pss_safety_data in Hget.
    cbv [st_bind st_get] in Hget. rewrite He1, He in Hget. simpl in Hget.
    destruct (pss_store _ p) as [q [[]|e|m]]; simplify_eq/=.
    unfold st_ret in Hget. by injection Hget as <- <-.
  - intros d' Hd'. specialize (Hr d' Hd'). destruct Hany as [Hs|Hs]; unfold pss_holds in *.
    + right. congruence.
    + left. congruence.
Qed.

(** A disk whose first write fails while the file is renamed. *)
Definition failing_disk : PersistentSafetyStorage OnDiskStorage :=
  mkPersistentSafetyStorage true (Some (mkSafetyData 1 4 2 3 None))
    (mkOnDiskStorage {[SAFETY_DATA := SVSafetyData (mkSafetyData 1 4 2 3 None)]}
       [true; true; true; true; false]).

Lemma safety_storage_cell_witness :
  let d := mkSafetyData 1 7 2 3 None in
  let p1 := (pss_set_safety_data d failing_disk).1 in
  (pss_safety_data p1).2 = Ok (mkSafetyData 1 4 2 3 None) ∧
  (mkSafetyData 1 4 2 3 None = d ∨ pss_holds failing_disk (mkSafetyData 1 4 2 3 None)).
Proof.
  intros d p1. split; [reflexivity|].
  refine (proj2 (proj2 (safety_storage_cell failing_disk p1 (pss_safety_data p1).1 d
    (pss_set_safety_data d failing_disk).2 (pss_safety_data p1).2 _ _ _)) _ _).
  - reflexivity.
  - reflexivity.
  - reflexivity.
  - reflexivity.
Defined.

(** With [enable_cached_safety_data] switched off the safety data can never be read
    back, whatever the storage holds: [safety_data] asks for a [Result<SafetyData, Error>]
    where [set_safety_data] writes a [SafetyData]. *)
Theorem uncached_safety_data_unreadable {S : Type} {KV : KVStorage S} {KL : KVLaws S}
    (p : PersistentSafetyStorage S) (d : SafetyData) :
  pss_enable_cached_safety_data p = false → (pss_safety_data p).2 ≠ Ok d.
Proof.
  intros He. destruct (pss_safety_data_uncached p He) as [(e & q & ->)|(m & q & ->)]; done.
Qed.

Lemma uncached_safety_data_witness :
  let p := mkPersistentSafetyStorage false (Some (mkSafetyData 1 4 2 3 None))
    (mkInMemoryStorage {[SAFETY_DATA := SVSafetyData (mkSafetyData 1 4 2 3 None)]}) in
  (pss_safety_data p).2 = Err (SecureStorageUnexpectedError (SerializationError "invalid type")) ∧
  (pss_safety_data p).2 ≠ Ok (mkSafetyData 1 4 2 3 None).
Proof.
  split; [reflexivity|]. apply uncached_safety_data_unreadable. reflexivity.
Defined.

(** ** Key versions *)

Lemma previous_name_ne name : name ≠ get_previous_version_name name.
Proof.
  unfold get_previous_version_name. induction name as [|c name IH]; [done|].
  intros [= H]. by apply IH.
Qed.

Section keys.
Context `{C : Crypto} {S : Type} {KV : KVStorage S} {KL : KVLaws S}.

Lemma export_version_ok name version s s' sk :
  kv_export_private_key_for_version name version s = (s', Ok sk) → ed25519_public sk = version.
Proof.
  intros (cur & s1 & _ & Hr)%st_bind_ok.
  destruct (ed25519_public cur =? version) eqn:Hv.
  - injection Hr as _ ->. by apply Z.eqb_eq.
  - destruct (kv_export_private_key _ s1) as [s2 [prev|[]|m]]; try done.
    destruct (ed25519_public prev =? version) eqn:Hp; [|done].
    injection Hr as _ ->. by apply Z.eqb_eq.
Qed.

Lemma sign_version_verifies `{!CryptoLaws C} name version m s s' sig :
  kv_sign_using_version name version m s = (s', Ok sig) → ed25519_verify version m sig = true.
Proof.
  intros (sk & s1 & Hx & Hr)%st_bind_ok. injection Hr as _ <-.
  apply export_version_ok in Hx as <-. apply ed25519_sign_verify.
Qed.

(** After a rotation the store holds the new key and the key it replaced. *)
Lemma rotate_key_view nk name s s' pk :
  kv_rotate_key nk name s = (s', Ok pk) →
  pk = ed25519_public nk ∧
  ∃ old, storage_view s !! name = Some (SVPrivateKey old) ∧
    storage_view s' !! name = Some (SVPrivateKey nk) ∧
    storage_view s' !! get_previous_version_name name = Some (SVPrivateKey old).
Proof.
  intros (old & s1 & Hg & Hr)%st_bind_ok.
  apply st_bind_ok in Hr as ([] & s2 & Hs1 & Hr).
  apply st_bind_ok in Hr as ([] & s3 & Hs2 & Hr). injection Hr as <- <-.
  split; [done|]. exists old.
  pose proof (keeps_view_storage_get (V:=PrivateKey_stored) name s) as Hk.
  unfold kv_export_private_key in Hg. rewrite Hg in Hk. simpl in Hk.
  apply storage_get_ok in Hg as ([] & Hg & [= <-]).
  apply kv_set_ok in Hs1. apply kv_set_ok in Hs2. rewrite Hs2, Hs1, Hk.
  split; [done|]. split; [apply lookup_insert_eq|].
  rewrite lookup_insert_ne; [apply lookup_insert_eq|].
  apply previous_name_ne.
Qed.
End keys.

(** Rotating a key keeps the replaced version usable.  After [rotate_key] succeeded on
    an in-memory storage, [sign_using_version] answers both for the new public key and for
    the replaced one, with a signature that verifies under the version asked for. *)
Theorem rotate_key_versions `{C : Crypto} `{!CryptoLaws C} (nk : PrivateKey) (name : string)
    (s s' : InMemoryStorage) (pk : PublicKey) (message : Bytes) :
  kv_rotate_key nk name s = (s', Ok pk) →
  ∃ old, ims_data s !! name = Some (SVPrivateKey old) ∧
    ∀ version, version = pk ∨ version = ed25519_public old →
      ∃ sig, kv_sign_using_version name version message s' = (s', Ok sig) ∧
             ed25519_verify version message sig = true.
Proof.
  intros Hrot. destruct (rotate_key_view _ _ _ _ _ Hrot) as (-> & old & Hold & Hnew & Hprev).
  exists old. split; [done|]. intros version Hversion.
  enough (∃ sig, kv_sign_using_version name version message s' = (s', Ok sig)) as [sig Hs].
  { exists sig. split; [done|]. exact (sign_version_verifies _ _ _ _ _ _ Hs). }
  unfold kv_sign_using_version, kv_export_private_key_for_version, kv_export_private_key, storage_get.
  simpl in Hnew, Hprev. cbv [st_bind st_lift kv_get InMemoryStorage_kv]. rewrite Hnew. simpl.
  destruct (ed25519_public nk =? version) eqn:Hv; [simpl; eauto|].
  destruct Hversion as [-> | ->]; [by rewrite Z.eqb_refl in Hv|].
  rewrite Hprev. simpl. rewrite Z.eqb_refl. eauto.
Qed.

Definition one_key : InMemoryStorage :=
  mkInMemoryStorage {[CONSENSUS_KEY := SVPrivateKey 11]}.

Lemma rotate_key_versions_witness :
  ∃ old, ims_data one_key !! CONSENSUS_KEY = Some (SVPrivateKey old) ∧
    ∀ version, version = 12 ∨ version = ed25519_public (Crypto:=ref_crypto) old →
      ∃ sig, kv_sign_using_version (C:=ref_crypto) CONSENSUS_KEY version [1; 2; 3]
               (kv_rotate_key (C:=ref_crypto) 12 CONSENSUS_KEY one_key).1
             = ((kv_rotate_key (C:=ref_crypto) 12 CONSENSUS_KEY one_key).1, Ok sig) ∧
             ed25519_verify (Crypto:=ref_crypto) version [1; 2; 3] sig = true.
Proof.
  apply (rotate_key_versions (C:=ref_crypto) 12 CONSENSUS_KEY one_key _ 12 [1; 2; 3]).
  reflexivity.
Defined.
