(* ===== verification/SafetyRules.v ===== *)
(** * SafetyRules: the component that holds the consensus key

    Models src/consensus/safety-rules/src/{safety_rules,safety_rules_2chain,
    configurable_validator_signer,consensus_state}.rs: the voting, timeout, proposal and
    commit-vote rules over the persistent storage of SafetyStorage.  A method with
    [&mut self] is a state-passing function on the record [SafetyRules]; [&mut SafetyData]
    arguments, which are local copies until they are stored, are passed and returned.
    Logging, metrics and the serializing front ends are not kept; the wall clock is the
    argument [current_ts]. *)

From S2P Require Import Prelude Crypto Accumulator ValidatorVerifier LedgerTypes EpochChange.
From S2P Require Import AccumulatorProof ConsensusTypes ConsensusMessages SafetyStorage.

(** ** ConfigurableValidatorSigner *)

Record ValidatorHandle := mkValidatorHandle {
  vh_author : AccountAddress;
  vh_key_version : PublicKey;
}.

Inductive ConfigurableValidatorSigner :=
| CSigner (signer : ValidatorSigner)
| CHandle (handle : ValidatorHandle).

Definition cvs_author (s : ConfigurableValidatorSigner) : AccountAddress :=
  match s with CSigner signer => vsig_author signer | CHandle handle => vh_author handle end.

(** ** SafetyRules *)

Record SafetyRules (S : Type) := mkSafetyRules {
  sr_persistent_storage : PersistentSafetyStorage S;
  sr_execution_public_key : option PublicKey;
  sr_export_consensus_key : bool;
  sr_validator_signer : option ConfigurableValidatorSigner;
  sr_epoch_state : option EpochState;
}.
Arguments mkSafetyRules {S}.
Arguments sr_persistent_storage {S}.
Arguments sr_execution_public_key {S}.
Arguments sr_export_consensus_key {S}.
Arguments sr_validator_signer {S}.
Arguments sr_epoch_state {S}.

Record ConsensusState := mkConsensusState {
  cs_safety_data : SafetyData;
  cs_waypoint : Waypoint;
  cs_in_validator_set : bool;
}.

Definition next_round (round : Round) : Result SafetyError Round :=
  ok_or (checked_add round 1) (IncorrectRound round).

(** [a? && b?] and [a? || b?]: the right operand is evaluated only when it decides. *)
Definition r_and {E} (a : Result E bool) (b : Result E bool) : Result E bool :=
  let? x := a in if x then b else Ok false.
Definition r_or {E} (a : Result E bool) (b : Result E bool) : Result E bool :=
  let? x := a in if x then Ok true else b.

(** ** Rules on a local copy of the safety data *)

Definition sd_set_last_voted_round (round : Round) (d : SafetyData) : SafetyData :=
  mkSafetyData (sd_epoch d) round (sd_preferred_round d) (sd_one_chain_round d) (sd_last_vote d).
Definition sd_set_preferred_round (round : Round) (d : SafetyData) : SafetyData :=
  mkSafetyData (sd_epoch d) (sd_last_voted_round d) round (sd_one_chain_round d) (sd_last_vote d).
Definition sd_set_one_chain_round (round : Round) (d : SafetyData) : SafetyData :=
  mkSafetyData (sd_epoch d) (sd_last_voted_round d) (sd_preferred_round d) round (sd_last_vote d).
Definition sd_set_last_vote (vote : option Vote) (d : SafetyData) : SafetyData :=
  mkSafetyData (sd_epoch d) (sd_last_voted_round d) (sd_preferred_round d)
    (sd_one_chain_round d) vote.

(** The updated data and whether it changed. *)
Definition observe_qc (qc : QuorumCert) (safety_data : SafetyData) : SafetyData * bool :=
  let one_chain := bi_round (qc_certified_block qc) in
  let two_chain := bi_round (qc_parent_block qc) in
  let '(safety_data, updated) :=
    if sd_one_chain_round safety_data <? one_chain
    then (sd_set_one_chain_round one_chain safety_data, true) else (safety_data, false) in
  if sd_preferred_round safety_data <? two_chain
  then (sd_set_preferred_round two_chain safety_data, true) else (safety_data, updated).

Definition verify_and_update_preferred_round (quorum_cert : QuorumCert) (safety_data : SafetyData)
    : Result SafetyError (SafetyData * bool) :=
  let preferred_round := sd_preferred_round safety_data in
  let one_chain_round := bi_round (qc_certified_block quorum_cert) in
  if one_chain_round <? preferred_round
  then Err (IncorrectPreferredRound one_chain_round preferred_round)
  else Ok (observe_qc quorum_cert safety_data).

Definition verify_and_update_last_vote_round (round : Round) (safety_data : SafetyData)
    : Result SafetyError SafetyData :=
  if round <=? sd_last_voted_round safety_data
  then Err (IncorrectLastVotedRound round (sd_last_voted_round safety_data))
  else Ok (sd_set_last_voted_round round safety_data).

Definition verify_epoch (epoch : Z) (safety_data : SafetyData) : Result SafetyError unit :=
  if epoch =? sd_epoch safety_data then Ok ()
  else Err (IncorrectEpoch epoch (sd_epoch safety_data)).

(** The 3-chain commit rule. *)
Definition construct_ledger_info (proposed_block : Block) (consensus_data_hash : HashValue)
    : Result SafetyError LedgerInfo :=
  let block2 := b_round proposed_block in
  let block1 := bi_round (qc_certified_block (b_quorum_cert proposed_block)) in
  let block0 := bi_round (qc_parent_block (b_quorum_cert proposed_block)) in
  let? commit := r_and (r_map (λ n, n =? block1) (next_round block0))
                       (r_map (λ n, n =? block2) (next_round block1)) in
  let commit_info :=
    if (commit : bool) then qc_parent_block (b_quorum_cert proposed_block)
    else BlockInfo_empty in
  Ok (mkLedgerInfo commit_info consensus_data_hash).

(** The 2-chain commit rule. *)
Definition construct_ledger_info_2chain (proposed_block : Block) (consensus_data_hash : HashValue)
    : Result SafetyError LedgerInfo :=
  let block1 := b_round proposed_block in
  let block0 := bi_round (qc_certified_block (b_quorum_cert proposed_block)) in
  let? next := next_round block0 in
  let commit_info :=
    if next =? block1 then qc_certified_block (b_quorum_cert proposed_block)
    else BlockInfo_empty in
  Ok (mkLedgerInfo commit_info consensus_data_hash).

Definition safe_to_timeout (timeout : TwoChainTimeout)
    (maybe_tc : option TwoChainTimeoutCertificate) (safety_data : SafetyData)
    : Result SafetyError unit :=
  let round := tct_round timeout in
  let qc_round := tct_hqc_round timeout in
  let tc_round := from_option tctc_round 0 maybe_tc in
  let? extends := r_or (r_map (λ n, round =? n) (next_round qc_round))
                       (r_map (λ n, round =? n) (next_round tc_round)) in
  if extends && (sd_one_chain_round safety_data <=? qc_round) then Ok ()
  else Err (NotSafeToTimeout round qc_round tc_round (sd_one_chain_round safety_data)).

Definition safe_to_vote (block : Block) (maybe_tc : option TwoChainTimeoutCertificate)
    : Result SafetyError unit :=
  let round := b_round block in
  let qc_round := bi_round (qc_certified_block (b_quorum_cert block)) in
  let tc_round := from_option tctc_round 0 maybe_tc in
  let hqc_round := from_option tctc_highest_hqc_round 0 maybe_tc in
  let? safe := r_or (r_map (λ n, round =? n) (next_round qc_round))
                    (r_and (r_map (λ n, round =? n) (next_round tc_round))
                           (Ok (hqc_round <=? qc_round))) in
  if (safe : bool) then Ok () else Err (NotSafeToVote round qc_round tc_round hqc_round).

(** ** The handlers *)

Section handlers.
Context `{CC : ConsensusCrypto} {S : Type} `{KV : KVStorage S} `{CS : CryptoStorage S}.

Abbreviation SR A := (ST (SafetyRules S) SafetyError A).

Definition sr_set_storage (p : PersistentSafetyStorage S) (r : SafetyRules S) : SafetyRules S :=
  mkSafetyRules p (sr_execution_public_key r) (sr_export_consensus_key r)
    (sr_validator_signer r) (sr_epoch_state r).
Definition sr_set_signer (s : option ConfigurableValidatorSigner) (r : SafetyRules S)
    : SafetyRules S :=
  mkSafetyRules (sr_persistent_storage r) (sr_execution_public_key r)
    (sr_export_consensus_key r) s (sr_epoch_state r).
Definition sr_set_epoch_state (e : option EpochState) (r : SafetyRules S) : SafetyRules S :=
  mkSafetyRules (sr_persistent_storage r) (sr_execution_public_key r)
    (sr_export_consensus_key r) (sr_validator_signer r) e.

(** A call to [self.persistent_storage]. *)
Definition sr_storage {A} (c : ST (PersistentSafetyStorage S) SafetyError A) : SR A :=
  st_zoom sr_persistent_storage sr_set_storage c.

Definition cvs_public_key (s : ConfigurableValidatorSigner) : PublicKey :=
  match s with
  | CSigner signer => ValidatorSigner_public_key signer
  | CHandle handle => vh_key_version handle
  end.

Definition ValidatorHandle_sign {T} `{CryptoHash T} (h : ValidatorHandle) (message : T)
    : ST (PersistentSafetyStorage S) SafetyError Signature :=
  pss_sign CONSENSUS_KEY (vh_key_version h) message.

Definition cvs_sign {T} `{CryptoHash T} (s : ConfigurableValidatorSigner) (message : T)
    : ST (PersistentSafetyStorage S) SafetyError Signature :=
  match s with
  | CSigner signer => st_ret (ValidatorSigner_sign signer message)
  | CHandle handle => ValidatorHandle_sign handle message
  end.

Definition SafetyRules_new (persistent_storage : PersistentSafetyStorage S)
    (verify_vote_proposal_signature export_consensus_key : bool)
    : Result SafetyError (SafetyRules S) :=
  if verify_vote_proposal_signature then
    match execution_public_key persistent_storage with
    | (p, Ok pk) => Ok (mkSafetyRules p (Some pk) export_consensus_key None None)
    | (_, Err _) => Panic "Unable to retrieve execution public key"
    | (_, Panic m) => Panic m
    end
  else Ok (mkSafetyRules persistent_storage None export_consensus_key None None).

Definition sr_signer : SR ConfigurableValidatorSigner := λ r,
  (r, ok_or (sr_validator_signer r) (NotInitialized "validator_signer")).
Definition sr_get_epoch_state : SR EpochState := λ r,
  (r, ok_or (sr_epoch_state r) (NotInitialized "epoch_state")).

Definition sr_sign {T} `{CryptoHash T} (message : T) : SR Signature :=
  let! signer := sr_signer in
  sr_storage (cvs_sign signer message).

Definition verify_qc (qc : QuorumCert) : SR unit :=
  let! epoch_state := sr_get_epoch_state in
  st_lift (r_map_err InvalidQuorumCertificate (QuorumCert_verify qc (es_verifier epoch_state))).

Definition verify_tc (tc : TwoChainTimeoutCertificate) : SR unit :=
  let! epoch_state := sr_get_epoch_state in
  st_lift (r_map_err InvalidTimeoutCertificate
             (TwoChainTimeoutCertificate_verify tc (es_verifier epoch_state))).

Definition verify_author (author : option Author) : SR unit :=
  let! signer := sr_signer in
  let! author := st_lift (ok_or author (InvalidProposal "No author found in the proposal")) in
  if cvs_author signer =? author then st_ret ()
  else st_lift (Err (InvalidProposal "Proposal author is not validator signer!")).

Definition verify_proposal (current_ts : Z) (maybe_signed_vote_proposal : MaybeSignedVoteProposal)
    : SR VoteData :=
  let vote_proposal := msvp_vote_proposal maybe_signed_vote_proposal in
  let execution_signature := msvp_signature maybe_signed_vote_proposal in
  let! r := st_get in
  st_lift (match sr_execution_public_key r with
           | Some public_key =>
               let? signature := ok_or execution_signature VoteProposalSignatureNotFound in
               ensure (verify_struct_signature public_key vote_proposal signature)
                 (SafetyInternalError "signature error")
           | None => Ok ()
           end) ;!
  let proposed_block := vp_block vote_proposal in
  let! safety_data := sr_storage pss_safety_data in
  st_lift (verify_epoch (b_epoch proposed_block) safety_data) ;!
  verify_qc (b_quorum_cert proposed_block) ;!
  let! epoch_state := sr_get_epoch_state in
  st_lift (r_map_err InvalidProposal
             (validate_signature proposed_block (es_verifier epoch_state))) ;!
  st_lift (r_map_err InvalidProposal (Block_verify_well_formed current_ts proposed_block)) ;!
  st_lift (r_map_err InvalidAccumulatorExtension (gen_vote_data vote_proposal)).

(** ** Voting with the 3-chain rules *)

Definition guarded_construct_and_sign_vote (current_ts : Z)
    (maybe_signed_vote_proposal : MaybeSignedVoteProposal) : SR Vote :=
  sr_signer ;!
  let! vote_data := verify_proposal current_ts maybe_signed_vote_proposal in
  let! safety_data := sr_storage pss_safety_data in
  let proposed_block := vp_block (msvp_vote_proposal maybe_signed_vote_proposal) in
  let continue : SR Vote :=
    let! (safety_data, _) := st_lift (verify_and_update_preferred_round
                                        (b_quorum_cert proposed_block) safety_data) in
    let! safety_data := st_lift (verify_and_update_last_vote_round
                                   (bd_round (b_block_data proposed_block)) safety_data) in
    let! signer := sr_signer in
    let author := cvs_author signer in
    let! ledger_info := st_lift (construct_ledger_info proposed_block (crypto_hash vote_data)) in
    let! signature := sr_sign ledger_info in
    let vote := Vote_new_with_signature vote_data author ledger_info signature in
    sr_storage (pss_set_safety_data (sd_set_last_vote (Some vote) safety_data)) ;!
    st_ret vote in
  match sd_last_vote safety_data with
  | Some vote =>
      if bi_round (vd_proposed (v_vote_data vote)) =? b_round proposed_block
      then st_ret vote else continue
  | None => continue
  end.

(** ** Voting and timing out with the 2-chain rules *)

Definition verify_maybe_tc (timeout_cert : option TwoChainTimeoutCertificate) : SR unit :=
  match timeout_cert with Some tc => verify_tc tc | None => st_ret () end.

Definition guarded_construct_and_sign_vote_two_chain (current_ts : Z)
    (maybe_signed_vote_proposal : MaybeSignedVoteProposal)
    (timeout_cert : option TwoChainTimeoutCertificate) : SR Vote :=
  sr_signer ;!
  let! vote_data := verify_proposal current_ts maybe_signed_vote_proposal in
  verify_maybe_tc timeout_cert ;!
  let proposed_block := vp_block (msvp_vote_proposal maybe_signed_vote_proposal) in
  let! safety_data := sr_storage pss_safety_data in
  let continue : SR Vote :=
    let! safety_data := st_lift (verify_and_update_last_vote_round
                                   (bd_round (b_block_data proposed_block)) safety_data) in
    st_lift (safe_to_vote proposed_block timeout_cert) ;!
    let '(safety_data, _) := observe_qc (b_quorum_cert proposed_block) safety_data in
    let! signer := sr_signer in
    let author := cvs_author signer in
    let! ledger_info :=
      st_lift (construct_ledger_info_2chain proposed_block (crypto_hash vote_data)) in
    let! signature := sr_sign ledger_info in
    let vote := Vote_new_with_signature vote_data author ledger_info signature in
    sr_storage (pss_set_safety_data (sd_set_last_vote (Some vote) safety_data)) ;!
    st_ret vote in
  match sd_last_vote safety_data with
  | Some vote =>
      if bi_round (vd_proposed (v_vote_data vote)) =? b_round proposed_block
      then st_ret vote else continue
  | None => continue
  end.

(** The common end of the two timeout handlers: record the round, if it is new. *)
Definition update_round_for_timeout (round : Round) (safety_data : SafetyData) : SR unit :=
  (if round <? sd_last_voted_round safety_data
   then st_lift (Err (IncorrectLastVotedRound round (sd_last_voted_round safety_data)))
   else st_ret ()) ;!
  if sd_last_voted_round safety_data <? round then
    let! safety_data := st_lift (verify_and_update_last_vote_round round safety_data) in
    sr_storage (pss_set_safety_data safety_data)
  else st_ret ().

Definition guarded_sign_timeout_with_qc (timeout : TwoChainTimeout)
    (timeout_cert : option TwoChainTimeoutCertificate) : SR Signature :=
  sr_signer ;!
  let! safety_data := sr_storage pss_safety_data in
  st_lift (verify_epoch (tct_epoch timeout) safety_data) ;!
  verify_qc (tct_quorum_cert timeout) ;!
  verify_maybe_tc timeout_cert ;!
  st_lift (safe_to_timeout timeout timeout_cert safety_data) ;!
  update_round_for_timeout (tct_round timeout) safety_data ;!
  sr_sign (tct_signing_format timeout).

Definition guarded_sign_timeout (timeout : Timeout) : SR Signature :=
  sr_signer ;!
  let! safety_data := sr_storage pss_safety_data in
  st_lift (verify_epoch (to_epoch timeout) safety_data) ;!
  (if to_round timeout <=? sd_preferred_round safety_data
   then st_lift (Err (IncorrectPreferredRound (to_round timeout)
                        (sd_preferred_round safety_data)))
   else st_ret ()) ;!
  update_round_for_timeout (to_round timeout) safety_data ;!
  sr_sign timeout.

(** ** Proposals and commit votes *)

Definition guarded_sign_proposal (block_data : BlockData) : SR Signature :=
  sr_signer ;!
  verify_author (bd_author block_data) ;!
  let! safety_data := sr_storage pss_safety_data in
  st_lift (verify_epoch (bd_epoch block_data) safety_data) ;!
  (if bd_round block_data <=? sd_last_voted_round safety_data
   then st_lift (Err (InvalidProposal "Proposed round is not higher than last voted round"))
   else st_ret ()) ;!
  verify_qc (bd_quorum_cert block_data) ;!
  st_lift (verify_and_update_preferred_round (bd_quorum_cert block_data) safety_data) ;!
  sr_sign block_data.

Definition guarded_sign_commit_vote (ledger_info : LedgerInfoWithSignatures)
    (new_ledger_info : LedgerInfo) : SR Signature :=
  sr_signer ;!
  let old_ledger_info := lis_ledger_info ledger_info in
  st_lift (ensure (is_ordered_only (li_commit_info old_ledger_info))
             (InvalidOrderedLedgerInfo old_ledger_info)) ;!
  st_lift (ensure (match_ordered_only (li_commit_info old_ledger_info)
                     (li_commit_info new_ledger_info))
             (InconsistentExecutionResult (li_commit_info old_ledger_info)
                (li_commit_info new_ledger_info))) ;!
  let! epoch_state := sr_get_epoch_state in
  st_lift (r_map_err (λ e, InvalidQuorumCertificate (VerifyError_to_string e))
             (lis_verify_signatures ledger_info (es_verifier epoch_state))) ;!
  sr_sign new_ledger_info.

(** ** Initialization *)

(** The author of the log line is read as the [Info] level is enabled. *)
Definition guarded_consensus_state : SR ConsensusState :=
  sr_storage pss_waypoint ;!
  sr_storage pss_safety_data ;!
  sr_storage pss_author ;!
  let! safety_data := sr_storage pss_safety_data in
  let! waypoint := sr_storage pss_waypoint in
  let! r := st_get in
  st_ret (mkConsensusState safety_data waypoint (is_ok (sr_signer r).2)).

(** Finds the key the validator set expects of [author]. *)
Definition reconcile_key (author : Author) (epoch_state : EpochState) : SR unit :=
  match get_public_key (es_verifier epoch_state) author with
  | None => st_lift (Err (ValidatorNotInSet author))
  | Some expected_key => λ r,
      let current_key := cvs_public_key <$> sr_validator_signer r in
      if bool_decide (current_key = Some expected_key) then (r, Ok ())
      else if sr_export_consensus_key r then
        match sr_storage (consensus_key_for_version expected_key) r with
        | (r', Ok consensus_key) =>
            (sr_set_signer (Some (CSigner (mkValidatorSigner author consensus_key))) r', Ok ())
        | (r', Err (SecureStorageMissingDataError error)) =>
            (r', Err (ValidatorKeyNotFound (SecureStorageMissingDataError error)))
        | (r', Err error) => (r', Err error)
        | (r', Panic m) => (r', Panic m)
        end
      else
        let r := sr_set_signer (Some (CHandle (mkValidatorHandle author expected_key))) r in
        let '(r', res) := sr_sign (mkTimeout 0 0) r in
        (r', r_map_err ValidatorKeyNotFound (r_map (λ _, ()) res))
  end.

Definition guarded_initialize (proof : EpochChangeProof) : SR unit :=
  let! waypoint := sr_storage pss_waypoint in
  let! last_li := st_lift (r_map_err InvalidEpochChangeProof
                             (EpochChangeProof_verify proof (to_dyn waypoint))) in
  let ledger_info := lis_ledger_info last_li in
  let! epoch_state := st_lift (ok_or (li_next_epoch_state ledger_info) InvalidLedgerInfo) in
  let! new_waypoint := st_lift (r_map_err SafetyInternalError
                                  (Waypoint_new_epoch_boundary ledger_info)) in
  (if wp_version waypoint <? wp_version new_waypoint
   then sr_storage (pss_set_waypoint new_waypoint) else st_ret ()) ;!
  let! safety_data := sr_storage pss_safety_data in
  let current_epoch := sd_epoch safety_data in
  (match current_epoch ?= es_epoch epoch_state with
   | Gt => st_lift (Err (WaypointOutOfDate (wp_version waypoint) (wp_version new_waypoint)
                           current_epoch (es_epoch epoch_state)))
   | Lt => sr_storage (pss_set_safety_data (mkSafetyData (es_epoch epoch_state) 0 0 0 None))
   | Eq => st_ret ()
   end) ;!
  (λ r, (sr_set_epoch_state (Some epoch_state) r, Ok ())) ;!
  let! author := sr_storage pss_author in
  λ r, match reconcile_key author epoch_state r with
       | (r', Err error) => (sr_set_signer None r', Err error)
       | res => res
       end.
End handlers.
