(* ===== verification/SafetyRulesSpec.v ===== *)
(** * SafetyRulesSpec: what a validator promises

    An abstract machine for one validator: its state is the safety data alone, a step is
    one call of the interface [TSafetyRules] (src/consensus/safety-rules/src/t_safety_rules.rs)
    with the messages it releases signed.  [call_spec] says what each call may do, [voter_run]
    closes it under changes of the epoch, and the invariant of the runs gives the promises
    the safety of the consensus rests on: one vote per round, and votes and timeouts that
    respect the locks.  SafetyRulesRefine shows that the handlers implement it. *)

From S2P Require Import Prelude Crypto Accumulator ValidatorVerifier LedgerTypes EpochChange.
From S2P Require Import AccumulatorProof ConsensusTypes ConsensusMessages SafetyStorage.
From S2P Require Import SafetyRules.

(** ** Calls and the messages they release *)

Inductive Call :=
| CallVote (current_ts : Z) (p : MaybeSignedVoteProposal)
| CallVote2 (current_ts : Z) (p : MaybeSignedVoteProposal)
    (tc : option TwoChainTimeoutCertificate)
| CallTimeout (t : Timeout)
| CallTimeout2 (t : TwoChainTimeout) (tc : option TwoChainTimeoutCertificate)
| CallProposal (d : BlockData)
| CallCommitVote (ledger_info : LedgerInfoWithSignatures) (new_ledger_info : LedgerInfo)
| CallConsensusState.

(** A message signed with the consensus key and handed to the caller. *)
Inductive Event :=
| EvVote (v : Vote)
| EvTimeout (t : Timeout)
| EvTimeout2 (t : TimeoutSigningRepr)
| EvProposal (d : BlockData)
| EvCommitVote (li : LedgerInfo).

#[export] Instance Event_eq_dec : EqDecision Event.
Proof. solve_decision. Defined.

Definition call_block (c : Call) : option Block :=
  match c with
  | CallVote _ p | CallVote2 _ p _ => Some (vp_block (msvp_vote_proposal p))
  | _ => None
  end.

(** Nothing, or the message: what was signed may never reach the caller. *)
Definition at_most (e : Event) (evs : list Event) : Prop := evs = [] ∨ evs = [e].

(** The round of the block the vote extends. *)
Definition v_parent_round (v : Vote) : Round := bi_round (vd_parent (v_vote_data v)).
(** The round two certificates below the block. *)
Definition b_two_chain_round (b : Block) : Round := bi_round (qc_parent_block (b_quorum_cert b)).

Section calls.
Context `{CC : ConsensusCrypto} {S : Type} `{KV : KVStorage S} `{CS : CryptoStorage S}.

(** The call on the handlers, with the message released on success. *)
Definition run_call (c : Call) : ST (SafetyRules S) SafetyError (list Event) :=
  match c with
  | CallVote ts p => let! v := guarded_construct_and_sign_vote ts p in st_ret [EvVote v]
  | CallVote2 ts p tc =>
      let! v := guarded_construct_and_sign_vote_two_chain ts p tc in st_ret [EvVote v]
  | CallTimeout t => guarded_sign_timeout t ;! st_ret [EvTimeout t]
  | CallTimeout2 t tc =>
      guarded_sign_timeout_with_qc t tc ;! st_ret [EvTimeout2 (tct_signing_format t)]
  | CallProposal d => guarded_sign_proposal d ;! st_ret [EvProposal d]
  | CallCommitVote li new_li =>
      guarded_sign_commit_vote li new_li ;! st_ret [EvCommitVote new_li]
  | CallConsensusState => guarded_consensus_state ;! st_ret []
  end.
End calls.

Section spec.
Context `{CC : ConsensusCrypto}.

(** ** Votes *)

(** The vote is for the block, which is valid for the validators. *)
Record voted_for (vv : ValidatorVerifier) (b : Block) (v : Vote) : Prop := {
  vf_epoch : v_epoch v = b_epoch b;
  vf_round : v_round v = b_round b;
  vf_id : bi_id (vd_proposed (v_vote_data v)) = b_id b;
  vf_parent : vd_parent (v_vote_data v) = qc_certified_block (b_quorum_cert b);
  vf_parent_epoch : bi_epoch (qc_certified_block (b_quorum_cert b)) = b_epoch b;
  vf_parent_round : bi_round (qc_certified_block (b_quorum_cert b)) < b_round b;
  vf_qc : QuorumCert_verify (b_quorum_cert b) vv = Ok ();
  vf_signature : validate_signature b vv = Ok ();
  vf_hash : li_consensus_data_hash (v_ledger_info v) = crypto_hash (v_vote_data v);
}.

Definition tc_verified (vv : ValidatorVerifier) (tc : option TwoChainTimeoutCertificate) : Prop :=
  from_option (λ tc, TwoChainTimeoutCertificate_verify tc vv = Ok ()) True tc.

Record two_chain_vote (vv : ValidatorVerifier) (b : Block)
    (tc : option TwoChainTimeoutCertificate) (v : Vote) : Prop := {
  tcv_voted : voted_for vv b v;
  tcv_tc : tc_verified vv tc;
  tcv_safe : safe_to_vote b tc = Ok ();
  tcv_commit : construct_ledger_info_2chain b (crypto_hash (v_vote_data v))
               = Ok (v_ledger_info v);
}.

Record three_chain_vote (vv : ValidatorVerifier) (b : Block) (v : Vote) : Prop := {
  thv_voted : voted_for vv b v;
  thv_commit : construct_ledger_info b (crypto_hash (v_vote_data v)) = Ok (v_ledger_info v);
}.

(** The safety data after a new vote. *)
Definition sd_voted (b : Block) (v : Vote) (sd : SafetyData) : SafetyData :=
  sd_set_last_vote (Some v)
    (observe_qc (b_quorum_cert b) (sd_set_last_voted_round (b_round b) sd)).1.

(** ** The calls *)

Inductive call_spec (vv : ValidatorVerifier) : Call → SafetyData → list Event → SafetyData → Prop :=
| spec_nothing c sd : call_spec vv c sd [] sd
| spec_resend c b v sd :
    call_block c = Some b → b_epoch b = sd_epoch sd →
    sd_last_vote sd = Some v → v_round v = b_round b →
    call_spec vv c sd [EvVote v] sd
| spec_vote2 ts p b tc v sd evs :
    call_block (CallVote2 ts p tc) = Some b →
    b_epoch b = sd_epoch sd → sd_last_voted_round sd < b_round b →
    two_chain_vote vv b tc v → at_most (EvVote v) evs →
    call_spec vv (CallVote2 ts p tc) sd evs (sd_voted b v sd)
| spec_vote3 ts p b v sd evs :
    call_block (CallVote ts p) = Some b →
    b_epoch b = sd_epoch sd → sd_last_voted_round sd < b_round b →
    sd_preferred_round sd ≤ qc_round (b_quorum_cert b) →
    three_chain_vote vv b v → at_most (EvVote v) evs →
    call_spec vv (CallVote ts p) sd evs (sd_voted b v sd)
| spec_timeout2 t tc sd evs :
    tct_epoch t = sd_epoch sd →
    QuorumCert_verify (tct_quorum_cert t) vv = Ok () → tc_verified vv tc →
    safe_to_timeout t tc sd = Ok () → sd_last_voted_round sd ≤ tct_round t →
    at_most (EvTimeout2 (tct_signing_format t)) evs →
    call_spec vv (CallTimeout2 t tc) sd evs (sd_set_last_voted_round (tct_round t) sd)
| spec_timeout t sd evs :
    to_epoch t = sd_epoch sd → sd_preferred_round sd < to_round t →
    sd_last_voted_round sd ≤ to_round t → at_most (EvTimeout t) evs →
    call_spec vv (CallTimeout t) sd evs (sd_set_last_voted_round (to_round t) sd)
| spec_proposal d sd :
    bd_epoch d = sd_epoch sd → sd_last_voted_round sd < bd_round d →
    QuorumCert_verify (bd_quorum_cert d) vv = Ok () →
    sd_preferred_round sd ≤ qc_round (bd_quorum_cert d) →
    call_spec vv (CallProposal d) sd [EvProposal d] sd
| spec_commit_vote lis li sd :
    is_ordered_only (lis_commit_info lis) = true →
    match_ordered_only (lis_commit_info lis) (li_commit_info li) = true →
    lis_verify_signatures lis vv = Ok () →
    call_spec vv (CallCommitVote lis li) sd [EvCommitVote li] sd.

(** ** Runs

    [vvs] gives the validators of each epoch; [allowed] is what the caller ever asks for. *)

Definition sd_new_epoch (epoch : Z) : SafetyData := mkSafetyData epoch 0 0 0 None.

Inductive voter_run (vvs : Z → ValidatorVerifier) (allowed : Call → Prop) (sd0 : SafetyData)
    : list Event → SafetyData → Prop :=
| vrun_start : voter_run vvs allowed sd0 [] sd0
| vrun_call h sd c evs sd' :
    voter_run vvs allowed sd0 h sd → allowed c →
    call_spec (vvs (sd_epoch sd)) c sd evs sd' →
    voter_run vvs allowed sd0 (h ++ evs) sd'
| vrun_epoch h sd epoch :
    voter_run vvs allowed sd0 h sd → sd_epoch sd < epoch →
    voter_run vvs allowed sd0 h (sd_new_epoch epoch).

(** ** The invariant of the runs *)

(** Released, or stored and still to be released. *)
Definition recorded (h : list Event) (sd : SafetyData) (v : Vote) : Prop :=
  EvVote v ∈ h ∨ sd_last_vote sd = Some v.

(** The call that made the vote. *)
Inductive vote_call (vvs : Z → ValidatorVerifier) (allowed : Call → Prop) (b : Block) (v : Vote)
    : Prop :=
| vote_call2 ts p tc :
    allowed (CallVote2 ts p tc) → call_block (CallVote2 ts p tc) = Some b →
    two_chain_vote (vvs (v_epoch v)) b tc v → vote_call vvs allowed b v
| vote_call3 ts p :
    allowed (CallVote ts p) → call_block (CallVote ts p) = Some b →
    three_chain_vote (vvs (v_epoch v)) b v → vote_call vvs allowed b v.

(** The 2-chain rules are not in use. *)
Definition only_three_chain (allowed : Call → Prop) : Prop :=
  ∀ ts p tc, ¬ allowed (CallVote2 ts p tc).

(** What is known of a recorded vote: the block it is for, the locks it has set, and
    that later votes respect the preferred round. *)
Definition vote_ok (vvs : Z → ValidatorVerifier) (allowed : Call → Prop)
    (h : list Event) (sd : SafetyData) (v : Vote) : Prop :=
  ∃ b, vote_call vvs allowed b v ∧
    (v_epoch v = sd_epoch sd →
       v_round v ≤ sd_last_voted_round sd ∧ v_parent_round v ≤ sd_one_chain_round sd ∧
       b_two_chain_round b ≤ sd_preferred_round sd) ∧
    (only_three_chain allowed →
       ∀ v', recorded h sd v' → v_epoch v' = v_epoch v → v_round v < v_round v' →
             b_two_chain_round b ≤ v_parent_round v').

Record voter_inv (vvs : Z → ValidatorVerifier) (allowed : Call → Prop)
    (h : list Event) (sd : SafetyData) : Prop := {
  inv_epoch : ∀ v, recorded h sd v → v_epoch v ≤ sd_epoch sd;
  inv_last : ∀ v, sd_last_vote sd = Some v → v_epoch v = sd_epoch sd;
  inv_vote : ∀ v, recorded h sd v → vote_ok vvs allowed h sd v;
  inv_unique : ∀ v1 v2, recorded h sd v1 → recorded h sd v2 →
    v_epoch v1 = v_epoch v2 → v_round v1 = v_round v2 → v1 = v2;
  inv_timeout : ∀ t, EvTimeout2 t ∈ h → tsr_epoch t ≤ sd_epoch sd ∧
    (tsr_epoch t = sd_epoch sd → tsr_round t ≤ sd_last_voted_round sd);
  inv_lock : ∀ v t, recorded h sd v → EvTimeout2 t ∈ h → v_epoch v = tsr_epoch t →
    v_round v ≤ tsr_round t → v_parent_round v ≤ tsr_hqc_round t;
}.

(** Data that only grew, with nothing new recorded or released. *)
Record sd_grows (sd sd' : SafetyData) : Prop := {
  grows_epoch : sd_epoch sd' = sd_epoch sd;
  grows_round : sd_last_voted_round sd ≤ sd_last_voted_round sd';
  grows_preferred : sd_preferred_round sd ≤ sd_preferred_round sd';
  grows_one_chain : sd_one_chain_round sd ≤ sd_one_chain_round sd';
}.

Section inv.
Context (vvs : Z → ValidatorVerifier) (allowed : Call → Prop).
Implicit Types (h : list Event) (sd : SafetyData).

Lemma vote_ok_mono h h' sd sd' v :
  sd_grows sd sd' → (∀ v, recorded h' sd' v → recorded h sd v) →
  vote_ok vvs allowed h sd v → vote_ok vvs allowed h' sd' v.
Proof.
  intros [He Hr Hp Ho] Hrec (b & Hb & Hlock & Hpref). exists b. split; [done|]. split.
  - intros Hv. rewrite He in Hv. specialize (Hlock Hv). lia.
  - intros H3 v' Hv'. apply Hpref; auto.
Qed.

Lemma voter_inv_mono h h' sd sd' :
  sd_grows sd sd' → (∀ v, recorded h' sd' v → recorded h sd v) →
  sd_last_vote sd' = sd_last_vote sd → (∀ t, EvTimeout2 t ∈ h' → EvTimeout2 t ∈ h) →
  voter_inv vvs allowed h sd → voter_inv vvs allowed h' sd'.
Proof.
  intros Hg Hrec Hlast Hto [Ie Il Iv Iu It Ik]. split.
  - intros v Hv. rewrite (grows_epoch _ _ Hg). auto.
  - intros v Hv. rewrite (grows_epoch _ _ Hg). apply Il. congruence.
  - intros v Hv. eapply vote_ok_mono; eauto.
  - eauto.
  - intros t Ht. destruct (It t (Hto t Ht)). rewrite (grows_epoch _ _ Hg).
    pose proof (grows_round _ _ Hg). split; [done|]. intros. lia.
  - eauto.
Qed.

Lemma voter_inv_timeout h sd sd' t :
  sd_grows sd sd' → sd_last_vote sd' = sd_last_vote sd →
  tsr_epoch t = sd_epoch sd → tsr_round t ≤ sd_last_voted_round sd' →
  sd_one_chain_round sd ≤ tsr_hqc_round t →
  voter_inv vvs allowed h sd → voter_inv vvs allowed (h ++ [EvTimeout2 t]) sd'.
Proof.
  intros Hg Hlast Hte Htr Hq Hinv.
  assert (Hrec : ∀ v, recorded (h ++ [EvTimeout2 t]) sd' v → recorded h sd v).
  { intros v [[Hv|Hv%list_elem_of_singleton]%elem_of_app|Hv]; [by left|done|].
    right. congruence. }
  destruct Hinv as [Ie Il Iv Iu It Ik]. split.
  - intros v Hv. rewrite (grows_epoch _ _ Hg). auto.
  - intros v Hv. rewrite (grows_epoch _ _ Hg). apply Il. congruence.
  - intros v Hv. eapply vote_ok_mono; eauto.
  - eauto.
  - intros t' [Ht|[= ->]%list_elem_of_singleton]%elem_of_app; rewrite (grows_epoch _ _ Hg).
    + destruct (It t' Ht). pose proof (grows_round _ _ Hg). split; [done|]. intros; lia.
    + split; [lia|done].
  - intros v t' Hv%Hrec [Ht|[= ->]%list_elem_of_singleton]%elem_of_app; [eauto|].
    intros He _. destruct (Iv v Hv) as (b & _ & Hl & _). destruct Hl as (_ & Ho & _); lia.
Qed.

Lemma vote_call_for b v : vote_call vvs allowed b v → voted_for (vvs (v_epoch v)) b v.
Proof. by intros [ts p tc _ _ []|ts p _ _ []]. Qed.

Lemma sd_voted_spec b v sd :
  sd_last_voted_round sd ≤ b_round b →
  sd_grows sd (sd_voted b v sd) ∧ sd_last_vote (sd_voted b v sd) = Some v ∧
  sd_last_voted_round (sd_voted b v sd) = b_round b ∧
  qc_round (b_quorum_cert b) ≤ sd_one_chain_round (sd_voted b v sd) ∧
  b_two_chain_round b ≤ sd_preferred_round (sd_voted b v sd).
Proof.
  intros Hr. unfold sd_voted, observe_qc, b_two_chain_round, qc_round.
  destruct sd as [e lvr pr oc lv]; simpl in *.
  destruct (Z.ltb_spec oc (bi_round (qc_certified_block (b_quorum_cert b)))); simpl;
    destruct (Z.ltb_spec pr (bi_round (qc_parent_block (b_quorum_cert b)))); simpl;
    (split; [split; simpl; lia|]); repeat split; lia.
Qed.

Lemma recorded_vote h sd b v evs w :
  at_most (EvVote v) evs → sd_last_vote (sd_voted b v sd) = Some v →
  recorded (h ++ evs) (sd_voted b v sd) w → recorded h sd w ∨ w = v.
Proof.
  intros Hevs Hlast [[Hw|Hw]%elem_of_app|Hw]; [by left; left| |right; congruence].
  destruct Hevs as [-> | ->]; [by apply not_elem_of_nil in Hw|].
  apply list_elem_of_singleton in Hw as [= ->]. by right.
Qed.

Lemma timeout_not_vote h v evs t :
  at_most (EvVote v) evs → EvTimeout2 t ∈ h ++ evs → EvTimeout2 t ∈ h.
Proof.
  intros Hevs [Ht|Ht]%elem_of_app; [done|].
  destruct Hevs as [-> | ->]; [by apply not_elem_of_nil in Ht|].
  by apply list_elem_of_singleton in Ht.
Qed.

Lemma voter_inv_vote h sd b v evs :
  b_epoch b = sd_epoch sd → sd_last_voted_round sd < b_round b →
  vote_call vvs allowed b v →
  (only_three_chain allowed → sd_preferred_round sd ≤ qc_round (b_quorum_cert b)) →
  at_most (EvVote v) evs →
  voter_inv vvs allowed h sd → voter_inv vvs allowed (h ++ evs) (sd_voted b v sd).
Proof.
  intros Hbe Hbr Hcall Hpref Hevs [Ie Il Iv Iu It Ik].
  destruct (sd_voted_spec b v sd) as (Hg & Hlast & Hround & Hone & Htwo); [lia|].
  pose proof (grows_epoch _ _ Hg) as Hge.
  pose proof (vote_call_for _ _ Hcall) as Hfor.
  assert (Hve : v_epoch v = sd_epoch sd) by (rewrite <- Hbe; apply Hfor).
  assert (Hvr : v_round v = b_round b) by apply Hfor.
  assert (Hvp : v_parent_round v = qc_round (b_quorum_cert b)).
  { unfold v_parent_round. by rewrite (vf_parent _ _ _ Hfor). }
  assert (Hrec : ∀ w, recorded (h ++ evs) (sd_voted b v sd) w → recorded h sd w ∨ w = v).
  { intros w. by apply recorded_vote. }
  (* the rounds already recorded in this epoch are lower *)
  assert (Hlow : ∀ w, recorded h sd w → v_epoch w = sd_epoch sd → v_round w < v_round v).
  { intros w Hw Hwe. destruct (Iv w Hw) as (bw & _ & Hl & _). destruct (Hl Hwe). lia. }
  split.
  - intros w [Hw| ->]%Hrec; rewrite Hge; [auto|lia].
  - intros w Hw. rewrite Hge. congruence.
  - intros w [Hw| ->]%Hrec.
    + destruct (Iv w Hw) as (bw & Hbw & Hl & Hp). exists bw. split; [done|]. split.
      * intros Hwe. rewrite Hge in Hwe. specialize (Hl Hwe). destruct Hg. lia.
      * intros H3 v' [Hv'| ->]%Hrec He Hlt; [by apply Hp|].
        destruct Hl as (_ & _ & Hl); [congruence|]. specialize (Hpref H3). lia.
    + exists b. split; [done|]. split; [lia|].
      intros _ v' [Hv'| ->]%Hrec He Hlt; [|lia].
      assert (v_round v' < v_round v) by (apply Hlow; [done|congruence]). lia.
  - intros v1 v2 [H1| ->]%Hrec [H2| ->]%Hrec He Hr; [auto| | |done].
    + assert (v_round v1 < v_round v) by (apply Hlow; [done|congruence]). lia.
    + assert (v_round v2 < v_round v) by (apply Hlow; [done|congruence]). lia.
  - intros t Ht%(timeout_not_vote _ v); [|done]. destruct (It t Ht). rewrite Hge, Hround.
    split; [done|]. intros; lia.
  - intros w t [Hw| ->]%Hrec Ht%(timeout_not_vote _ v) He Hr; [by eauto|done| |done].
    destruct (It t Ht) as [_ Hl]. lia.
Qed.

Lemma voter_inv_epoch h sd epoch :
  sd_epoch sd < epoch → voter_inv vvs allowed h sd →
  voter_inv vvs allowed h (sd_new_epoch epoch).
Proof.
  intros Hlt [Ie Il Iv Iu It Ik].
  assert (Hrec : ∀ v, recorded h (sd_new_epoch epoch) v → recorded h sd v).
  { intros v [Hv|Hv]; [by left|done]. }
  split; simpl.
  - intros v Hv%Hrec. specialize (Ie v Hv). lia.
  - done.
  - intros v Hv. destruct (Iv v (Hrec v Hv)) as (b & Hb & _ & Hp). exists b.
    split; [done|]. split; [|by eauto].
    simpl. intros Heq. specialize (Ie v (Hrec v Hv)). lia.
  - eauto.
  - intros t Ht. destruct (It t Ht). split; lia.
  - eauto.
Qed.

Lemma next_round_ok r n : next_round r = Ok n → n = r + 1.
Proof. unfold next_round, checked_add. case_match; by intros [= <-]. Qed.

Lemma r_or_true {E} (a b : Result E bool) : r_or a b = Ok true → a = Ok true ∨ b = Ok true.
Proof. unfold r_or. intros H. r_inv H. destruct a0; auto. Qed.
Lemma r_and_true {E} (a b : Result E bool) : r_and a b = Ok true → a = Ok true ∧ b = Ok true.
Proof. unfold r_and. intros H. r_inv H. by destruct a0. Qed.
Lemma next_round_eqb x r : r_map (λ n, x =? n) (next_round r) = Ok true → x = r + 1.
Proof.
  intros (n & Hn%next_round_ok & Heq)%r_bind_ok. injection Heq as Heq. lia.
Qed.

Lemma safe_to_timeout_lock t tc sd :
  safe_to_timeout t tc sd = Ok () → sd_one_chain_round sd ≤ tct_hqc_round t.
Proof.
  unfold safe_to_timeout. intros H. r_inv H. destruct a; simpl in H; [|done].
  by destruct (Z.leb_spec (sd_one_chain_round sd) (tct_hqc_round t)).
Qed.

Lemma sd_grows_refl sd : sd_grows sd sd.
Proof. by split. Qed.
Lemma sd_grows_round sd r :
  sd_last_voted_round sd ≤ r → sd_grows sd (sd_set_last_voted_round r sd).
Proof. by split. Qed.

Lemma voter_inv_other h sd sd' evs :
  sd_grows sd sd' → sd_last_vote sd' = sd_last_vote sd →
  (∀ v, EvVote v ∈ evs → sd_last_vote sd = Some v) → (∀ t, EvTimeout2 t ∉ evs) →
  voter_inv vvs allowed h sd → voter_inv vvs allowed (h ++ evs) sd'.
Proof.
  intros Hg Hlast Hv Ht. apply voter_inv_mono; [done| |done|].
  - intros v [[H|H]%elem_of_app|H]; [by left|right; auto|right; congruence].
  - intros t [H|H]%elem_of_app; [done|]. by destruct (Ht t).
Qed.

Lemma voter_inv_call h sd c evs sd' :
  allowed c → call_spec (vvs (sd_epoch sd)) c sd evs sd' →
  voter_inv vvs allowed h sd → voter_inv vvs allowed (h ++ evs) sd'.
Proof.
  intros Hall. remember (vvs (sd_epoch sd)) as vv eqn:Hvv. intros Hspec.
  revert Hall Hvv. destruct Hspec as
    [?|? b v ? Hb He Hl Hr|ts p b tc v ? ? Hb He Hr Hv Hevs
    |ts p b v ? ? Hb He Hr Hp Hv Hevs|t tc ? ? He Hq Htc Hs Hr Hevs
    |t ? ? He Hp Hr Hevs|?|?]; intros Hall ->.
  - apply voter_inv_other; [apply sd_grows_refl|done|set_solver..].
  - apply voter_inv_other; [apply sd_grows_refl|done| |set_solver].
    intros v' [= ->]%list_elem_of_singleton. done.
  - apply voter_inv_vote; [done..| | |done].
    + destruct Hv as [Hf Htc Hs Hc]. apply (vote_call2 _ _ _ _ ts p tc); [done..|].
      rewrite (vf_epoch _ _ _ Hf), He. by split.
    + intros H3. by destruct (H3 ts p tc).
  - apply voter_inv_vote; [done..| |done|done].
    destruct Hv as [Hf Hc]. apply (vote_call3 _ _ _ _ ts p); [done..|].
    rewrite (vf_epoch _ _ _ Hf), He. by split.
  - destruct Hevs as [-> | ->].
    + apply voter_inv_other; [by apply sd_grows_round|done|set_solver..].
    + apply voter_inv_timeout; [by apply sd_grows_round|done|done|done|].
      by eapply safe_to_timeout_lock.
  - apply voter_inv_other; [by apply sd_grows_round|done| |];
      destruct Hevs as [-> | ->]; set_solver.
  - apply voter_inv_other; [apply sd_grows_refl|done|set_solver..].
  - apply voter_inv_other; [apply sd_grows_refl|done|set_solver..].
Qed.

Lemma call_spec_grows vv c sd evs sd' : call_spec vv c sd evs sd' → sd_grows sd sd'.
Proof.
  destruct 1; try apply sd_grows_refl; try by apply sd_grows_round.
  - apply sd_voted_spec. lia.
  - apply sd_voted_spec. lia.
Qed.

Lemma voter_run_inv epoch h sd :
  voter_run vvs allowed (sd_new_epoch epoch) h sd → voter_inv vvs allowed h sd.
Proof.
  induction 1 as [|h sd c evs sd' _ IH Hall Hspec|h sd e _ IH Hlt].
  - split; try (intros v [Hv|Hv]; [by apply not_elem_of_nil in Hv|done]); try done.
    + intros v1 v2 [Hv|Hv]; [by apply not_elem_of_nil in Hv|done].
    + intros t Ht. by apply not_elem_of_nil in Ht.
    + intros v t _ Ht. by apply not_elem_of_nil in Ht.
  - by eapply voter_inv_call.
  - by eapply voter_inv_epoch.
Qed.
End inv.
End spec.
