(* ===== verification/SafetyRulesRefine.v ===== *)
(** * SafetyRulesRefine: the handlers implement the abstract validator

    Every call of the safety rules, whatever its outcome (success, error, panic, a storage
    that fails before or after it wrote), acts on the stored safety data as [call_spec]
    allows; runs of the component with lost answers, crashes and restarts are therefore
    runs of the abstract validator of SafetyRulesSpec. *)

From S2P Require Import Prelude Crypto Accumulator ValidatorVerifier LedgerTypes EpochChange.
From S2P Require Import AccumulatorProof ConsensusTypes ConsensusMessages SafetyStorage.
From S2P Require Import SafetyStorage SafetyRules SafetyRulesSpec.

(** The messages released by an outcome. *)
Definition released {E} (r : Result E (list Event)) : list Event :=
  match r with Ok evs => evs | _ => [] end.

Section refine.
Context `{CC : ConsensusCrypto} {S : Type} {KV : KVStorage S} {KL : KVLaws S}
  {CS : CryptoStorage S} {CL : CryptoStorageLaws S}.
Implicit Types r : SafetyRules S.

Definition sr_coherent r : Prop := pss_coherent (sr_persistent_storage r).
Definition sr_holds r (sd : SafetyData) : Prop := pss_holds (sr_persistent_storage r) sd.

(** The calls change only the storage. *)
Record sr_same r r' : Prop := {
  same_epoch_state : sr_epoch_state r' = sr_epoch_state r;
  same_signer : sr_validator_signer r' = sr_validator_signer r;
}.

#[export] Instance sr_same_preorder : PreOrder sr_same.
Proof. split; [by split|]. intros r1 r2 r3 [] []. split; congruence. Qed.

Section call.
(** The validators of the current epoch and the stored safety data. *)
Context (vv : ValidatorVerifier) (sd : SafetyData).

Record ready r : Prop := {
  ready_coherent : sr_coherent r;
  ready_holds : sr_holds r sd;
  ready_verifier : ∀ es, sr_epoch_state r = Some es → es_verifier es = vv;
}.

Abbreviation SR A := (ST (SafetyRules S) SafetyError A).

(** [c] leaves the safety data alone, and its result, if any, satisfies [P]. *)
Definition quiet {A} (c : SR A) (P : A → Prop) : Prop :=
  ∀ r, ready r → ready (c r).1 ∧ sr_same r (c r).1 ∧ ∀ a, (c r).2 = Ok a → P a.

Lemma quiet_bind {A B} (c : SR A) (f : A → SR B) P Q :
  quiet c P → (∀ a, P a → quiet (f a) Q) → quiet (st_bind c f) Q.
Proof.
  intros Hc Hf r Hr. destruct (Hc r Hr) as (Hr1 & Hs1 & Hp). unfold st_bind.
  destruct (c r) as [r1 [a|e|m]]; simpl in *; [|split_and!; by auto..].
  destruct (Hf a (Hp a eq_refl) r1 Hr1) as (Hr2 & Hs2 & Hq).
  split; [done|]. split; [by etrans|done].
Qed.

Lemma quiet_lift {A} (x : Result SafetyError A) (P : A → Prop) :
  (∀ a, x = Ok a → P a) → quiet (st_lift x) P.
Proof. intros HP r Hr. simpl. by split. Qed.

Lemma quiet_ret {A} (a : A) (P : A → Prop) : P a → quiet (st_ret a) P.
Proof. intros HP r Hr. simpl. split; [done|]. split; [done|]. by intros ? [= <-]. Qed.

Tactic Notation "quiet_step" uconstr(lem) := eapply quiet_bind; [eapply lem|cbv beta].

Lemma quiet_weaken {A} (c : SR A) (P Q : A → Prop) :
  quiet c P → (∀ a, P a → Q a) → quiet c Q.
Proof. intros Hc H r Hr. destruct (Hc r Hr) as (? & ? & ?). eauto. Qed.

Lemma quiet_storage {A} (c : ST (PersistentSafetyStorage S) SafetyError A) :
  pss_frame c → quiet (sr_storage c) (λ _, True).
Proof.
  intros Hc r [Hco Hh Hv]. unfold sr_storage, st_zoom.
  destruct (Hc (sr_persistent_storage r)) as (Hview & _).
  pose proof (pss_coherent_frame c _ Hc Hco) as Hco'.
  destruct (c (sr_persistent_storage r)) as [p x]; simpl in *.
  split; [|split; [by split|done]]. split; [done| |done].
  unfold sr_holds, pss_holds in *. simpl. congruence.
Qed.

Lemma quiet_safety_data : quiet (sr_storage pss_safety_data) (λ d, d = sd).
Proof.
  intros r [Hco Hh Hv]. unfold sr_storage, st_zoom.
  destruct (pss_safety_data (sr_persistent_storage r)) as [p x] eqn:Hp.
  destruct (pss_safety_data_spec _ _ _ Hco Hp) as (Hco' & Hview & _ & Hd). simpl.
  split; [split; [done| |done]|split; [by split|]].
  - unfold sr_holds, pss_holds in *. simpl. congruence.
  - intros d ->. specialize (Hd d eq_refl). unfold sr_holds, pss_holds in *. congruence.
Qed.

Lemma quiet_signer : quiet sr_signer (λ _, True).
Proof. by intros r Hr. Qed.
Lemma quiet_get : quiet st_get (λ _, True).
Proof. by intros r Hr. Qed.

Lemma quiet_epoch_state : quiet sr_get_epoch_state (λ es, es_verifier es = vv).
Proof.
  intros r Hr. simpl. split; [done|]. split; [done|].
  intros es Hes%ok_or_ok. by apply (ready_verifier r).
Qed.

Lemma quiet_sign {T} `{CryptoHash T} (m : T) : quiet (sr_sign m) (λ _, True).
Proof.
  quiet_step quiet_signer. intros [signer|handle] _.
  - apply quiet_storage. intros p. by simpl.
  - apply quiet_storage, pss_frame_sign.
Qed.

Lemma quiet_verify_qc qc : quiet (verify_qc qc) (λ _, QuorumCert_verify qc vv = Ok ()).
Proof.
  quiet_step quiet_epoch_state. intros es ->. apply quiet_lift.
  by intros [] Hx%r_map_err_ok.
Qed.

Lemma quiet_verify_maybe_tc tc : quiet (verify_maybe_tc tc) (λ _, tc_verified vv tc).
Proof.
  destruct tc as [tc|]; [|by apply quiet_ret].
  quiet_step quiet_epoch_state. intros es ->. apply quiet_lift.
  by intros [] Hx%r_map_err_ok.
Qed.

(** What [verify_proposal] establishes of the block and the vote data. *)
Record proposal_ok (b : Block) (vd : VoteData) : Prop := {
  po_epoch : b_epoch b = sd_epoch sd;
  po_qc : QuorumCert_verify (b_quorum_cert b) vv = Ok ();
  po_signature : validate_signature b vv = Ok ();
  po_parent_epoch : bi_epoch (qc_certified_block (b_quorum_cert b)) = b_epoch b;
  po_parent_round : bi_round (qc_certified_block (b_quorum_cert b)) < b_round b;
  po_proposed_epoch : bi_epoch (vd_proposed vd) = b_epoch b;
  po_proposed_round : bi_round (vd_proposed vd) = b_round b;
  po_proposed_id : bi_id (vd_proposed vd) = b_id b;
  po_parent : vd_parent vd = qc_certified_block (b_quorum_cert b);
}.

Lemma well_formed_ok ts b :
  Block_verify_well_formed ts b = Ok () →
  bi_epoch (qc_certified_block (b_quorum_cert b)) = b_epoch b ∧
  bi_round (qc_certified_block (b_quorum_cert b)) < b_round b.
Proof. unfold Block_verify_well_formed. intros H. r_inv H. split; lia. Qed.

Lemma gen_vote_data_ok vp vd :
  gen_vote_data vp = Ok vd →
  bi_epoch (vd_proposed vd) = b_epoch (vp_block vp) ∧
  bi_round (vd_proposed vd) = b_round (vp_block vp) ∧
  bi_id (vd_proposed vd) = b_id (vp_block vp) ∧
  vd_parent vd = qc_certified_block (b_quorum_cert (vp_block vp)).
Proof.
  unfold gen_vote_data. destruct (vp_decoupled_execution vp); intros H; r_inv H; done.
Qed.

Lemma quiet_verify_proposal ts p :
  quiet (verify_proposal ts p) (proposal_ok (vp_block (msvp_vote_proposal p))).
Proof.
  set (b := vp_block (msvp_vote_proposal p)).
  quiet_step quiet_get. intros r _.
  quiet_step (quiet_lift _ (λ _ : unit, True)); [done|]. intros _ _.
  quiet_step quiet_safety_data. intros d ->.
  quiet_step (quiet_lift _ (λ _ : unit, b_epoch b = sd_epoch sd)).
  { intros []. unfold verify_epoch. fold b. by destruct (Z.eqb_spec (b_epoch b) (sd_epoch sd)). }
  intros _ Hepoch.
  quiet_step quiet_verify_qc. intros _ Hqc.
  quiet_step quiet_epoch_state. intros es ->.
  quiet_step (quiet_lift _ (λ _ : unit, validate_signature b vv = Ok ())).
  { by intros [] Hx%r_map_err_ok. }
  intros _ Hsig.
  quiet_step (quiet_lift _ (λ _ : unit, Block_verify_well_formed ts b = Ok ())).
  { by intros [] Hx%r_map_err_ok. }
  intros _ [Hpe Hpr]%well_formed_ok. apply quiet_lift.
  intros vd (H1 & H2 & H3 & H4)%r_map_err_ok%gen_vote_data_ok. by split.
Qed.

(** ** Implementations of a call *)

Definition implements (c : Call) (m : SR (list Event)) : Prop :=
  ∀ r, ready r →
    sr_coherent (m r).1 ∧ sr_same r (m r).1 ∧
    ∃ sd', sr_holds (m r).1 sd' ∧ call_spec vv c sd (released (m r).2) sd'.

Lemma implements_quiet c m : quiet m (λ evs, call_spec vv c sd evs sd) → implements c m.
Proof.
  intros Hm r Hr. destruct (Hm r Hr) as (Hr' & Hs & Hp).
  split; [by destruct Hr'|]. split; [done|]. exists sd. split; [by destruct Hr'|].
  destruct (m r).2; simpl; [auto|apply spec_nothing..].
Qed.

Lemma implements_bind {A} k (c : SR A) f P :
  quiet c P → (∀ a, P a → implements k (f a)) → implements k (st_bind c f).
Proof.
  intros Hc Hf r Hr. destruct (Hc r Hr) as (Hr1 & Hs1 & Hp). unfold st_bind.
  destruct (c r) as [r1 [a|e|m]]; simpl in *.
  - destruct (Hf a (Hp a eq_refl) r1 Hr1) as (Hco & Hs & Hsd).
    split; [done|]. split; [by etrans|done].
  - split; [by destruct Hr1|]. split; [done|]. exists sd. split; [by destruct Hr1|apply spec_nothing].
  - split; [by destruct Hr1|]. split; [done|]. exists sd. split; [by destruct Hr1|apply spec_nothing].
Qed.

Lemma implements_assoc {A B} k (c : SR A) (f : A → SR B) g :
  implements k (st_bind c (λ a, st_bind (f a) g)) → implements k (st_bind (st_bind c f) g).
Proof.
  intros H r Hr. specialize (H r Hr). revert H. unfold st_bind.
  by destruct (c r) as [r1 [a|e|m]].
Qed.
End call.

(** Storing new safety data, then signing. *)
Lemma implements_store vv sd d k tail :
  call_spec vv k sd [] d → quiet vv d tail (λ evs, call_spec vv k sd evs d) →
  implements vv sd k (sr_storage (pss_set_safety_data d) ;! tail).
Proof.
  intros Hnone Htail r [Hco Hh Hv]. unfold st_bind, sr_storage, st_zoom.
  destruct (pss_set_safety_data d (sr_persistent_storage r)) as [p x] eqn:Hset.
  destruct (pss_set_spec _ _ _ _ Hset) as (Hco1 & _ & Hok & Hany).
  set (r1 := sr_set_storage p r). assert (Hs : sr_same r r1) by done.
  destruct x as [[]|e|m]; simpl.
  - assert (Hr1 : ready vv d r1) by (split; [done|by apply Hok|done]).
    destruct (Htail r1 Hr1) as (Hr2 & Hs2 & Hp).
    split; [by destruct Hr2|]. split; [by etrans|]. exists d. split; [by destruct Hr2|].
    destruct (tail r1).2; simpl; auto.
  - split; [done|]. split; [done|]. destruct Hany as [Hsame|Hd]; [|by exists d].
    exists sd. split; [|apply spec_nothing]. by etrans.
  - split; [done|]. split; [done|]. destruct Hany as [Hsame|Hd]; [|by exists d].
    exists sd. split; [|apply spec_nothing]. by etrans.
Qed.
End refine.

(** The next step of a handler whose result is released at its end. *)
Tactic Notation "impl_step" uconstr(lem) :=
  eapply implements_assoc, implements_bind; [eapply lem|cbv beta].

(** ** The handlers *)

Section handlers.
Context `{CC : ConsensusCrypto} {S : Type} {KV : KVStorage S} {KL : KVLaws S}
  {CS : CryptoStorage S} {CL : CryptoStorageLaws S}.
Context (vv : ValidatorVerifier) (sd : SafetyData).

Abbreviation impl := (implements (S:=S) vv sd).

Lemma update_last_vote_ok round d d' :
  verify_and_update_last_vote_round round d = Ok d' →
  sd_last_voted_round d < round ∧ d' = sd_set_last_voted_round round d.
Proof.
  unfold verify_and_update_last_vote_round.
  destruct (Z.leb_spec round (sd_last_voted_round d)); [done|]. by intros [= <-].
Qed.

Lemma verify_epoch_ok e d : verify_epoch e d = Ok () → e = sd_epoch d.
Proof. unfold verify_epoch. by destruct (Z.eqb_spec e (sd_epoch d)). Qed.

(** A proposal that was verified, with the ledger info of the commit rule. *)
Lemma proposal_voted b vd author li signature :
  proposal_ok vv sd b vd → li_consensus_data_hash li = crypto_hash vd →
  voted_for vv b (Vote_new_with_signature vd author li signature).
Proof. intros [] Hli. by split. Qed.

Lemma construct_2chain_hash b h li :
  construct_ledger_info_2chain b h = Ok li → li_consensus_data_hash li = h.
Proof. unfold construct_ledger_info_2chain. intros H. by r_inv H. Qed.
Lemma construct_3chain_hash b h li :
  construct_ledger_info b h = Ok li → li_consensus_data_hash li = h.
Proof. unfold construct_ledger_info. intros H. by r_inv H. Qed.

(** The vote of a round already voted for is sent again. *)
Lemma implements_last_vote k b (cont : ST (SafetyRules S) SafetyError Vote) :
  call_block k = Some b → b_epoch b = sd_epoch sd →
  impl k (let! v := cont in st_ret [EvVote v]) →
  impl k (let! v := match sd_last_vote sd with
                    | Some vote =>
                        if bi_round (vd_proposed (v_vote_data vote)) =? b_round b
                        then st_ret vote else cont
                    | None => cont
                    end in st_ret [EvVote v]).
Proof.
  intros Hb He Hcont. destruct (sd_last_vote sd) as [v|] eqn:Hlast; [|exact Hcont].
  destruct (Z.eqb_spec (bi_round (vd_proposed (v_vote_data v))) (b_round b)); [|exact Hcont].
  apply implements_quiet. apply (quiet_bind _ _ _ _ (λ v', v' = v)); [by apply quiet_ret|].
  intros ? ->. apply quiet_ret. by apply (spec_resend _ _ b).
Qed.

(** The end of the voting handlers: store, then answer. *)
Lemma implements_store_vote k d v :
  (∀ evs, at_most (EvVote v) evs → call_spec vv k sd evs d) →
  impl k (let! v := sr_storage (pss_set_safety_data d) ;! st_ret v in st_ret [EvVote v]).
Proof.
  intros Hspec. apply implements_assoc, implements_store; [apply Hspec; by left|].
  apply (quiet_bind _ _ _ _ (λ v', v' = v)); [by apply quiet_ret|].
  intros ? ->. apply quiet_ret, Hspec. by right.
Qed.

Lemma implements_vote2 ts p tc : impl (CallVote2 ts p tc) (run_call (CallVote2 ts p tc)).
Proof.
  set (b := vp_block (msvp_vote_proposal p)).
  unfold run_call, guarded_construct_and_sign_vote_two_chain. fold b.
  impl_step quiet_signer. intros _ _.
  impl_step quiet_verify_proposal. intros vd Hvd. fold b in Hvd.
  impl_step quiet_verify_maybe_tc. intros _ Htc.
  impl_step quiet_safety_data. intros d ->.
  apply implements_last_vote; [done|apply Hvd|].
  impl_step (quiet_lift _ _ _ _ (update_last_vote_ok _ _)). intros d' [Hr ->].
  impl_step (quiet_lift _ _ _ (λ _ : unit, safe_to_vote b tc = Ok ())); [by intros []|].
  intros _ Hsafe. destruct (observe_qc _ _) as [d' ?] eqn:Hd.
  impl_step quiet_signer. intros signer _.
  impl_step (quiet_lift _ _ _ (λ li, construct_ledger_info_2chain b (crypto_hash vd) = Ok li));
    [done|]. intros li Hli.
  impl_step quiet_sign. intros sig _.
  apply implements_store_vote. intros evs Hevs.
  replace d' with (observe_qc (b_quorum_cert b) (sd_set_last_voted_round (b_round b) sd)).1
    by (unfold b_round; by rewrite Hd).
  apply spec_vote2; [done|apply Hvd|done| |done]. split; [|done..].
  apply proposal_voted; [done|]. by eapply construct_2chain_hash.
Qed.

Lemma update_preferred_ok qc d d' u :
  verify_and_update_preferred_round qc d = Ok (d', u) →
  sd_preferred_round d ≤ qc_round qc ∧ d' = (observe_qc qc d).1.
Proof.
  unfold verify_and_update_preferred_round, qc_round.
  destruct (Z.ltb_spec (bi_round (qc_certified_block qc)) (sd_preferred_round d)); [done|].
  intros [= H']. by rewrite H'.
Qed.

Lemma observe_qc_round qc r d :
  sd_set_last_voted_round r (observe_qc qc d).1
  = (observe_qc qc (sd_set_last_voted_round r d)).1.
Proof. unfold observe_qc. destruct d. simpl. by repeat (destruct (_ <? _); simpl). Qed.

Lemma observe_qc_last_round qc d :
  sd_last_voted_round (observe_qc qc d).1 = sd_last_voted_round d.
Proof. unfold observe_qc. destruct d. simpl. by repeat (destruct (_ <? _); simpl). Qed.

Lemma implements_vote3 ts p : impl (CallVote ts p) (run_call (CallVote ts p)).
Proof.
  set (b := vp_block (msvp_vote_proposal p)).
  unfold run_call, guarded_construct_and_sign_vote. fold b.
  impl_step quiet_signer. intros _ _.
  impl_step quiet_verify_proposal. intros vd Hvd. fold b in Hvd.
  impl_step quiet_safety_data. intros d ->.
  apply implements_last_vote; [done|apply Hvd|].
  impl_step (quiet_lift _ _ _ (λ du, sd_preferred_round sd ≤ qc_round (b_quorum_cert b) ∧
                                     du.1 = (observe_qc (b_quorum_cert b) sd).1)).
  { intros [d' u]. apply update_preferred_ok. }
  intros [d' u] [Hp Hd]. simpl in Hd. subst d'.
  impl_step (quiet_lift _ _ _ _ (update_last_vote_ok _ _)). intros d' [Hr ->].
  impl_step quiet_signer. intros signer _.
  impl_step (quiet_lift _ _ _ (λ li, construct_ledger_info b (crypto_hash vd) = Ok li));
    [done|]. intros li Hli.
  impl_step quiet_sign. intros sig _.
  apply implements_store_vote. intros evs Hevs.
  rewrite observe_qc_last_round in Hr. rewrite observe_qc_round.
  apply spec_vote3; [done|apply Hvd|done|done| |done]. split; [|done].
  apply proposal_voted; [done|]. by eapply construct_3chain_hash.
Qed.

(** The end of the timeout handlers: record the round if it is new, then sign. *)
Lemma implements_timeout_round {T} `{CryptoHash T} k round (m : T) e :
  (sd_last_voted_round sd ≤ round → ∀ evs, at_most e evs →
     call_spec vv k sd evs (sd_set_last_voted_round round sd)) →
  impl k (update_round_for_timeout round sd ;! (sr_sign m ;! st_ret [e])).
Proof.
  intros Hspec. unfold update_round_for_timeout.
  apply implements_assoc, (implements_bind _ _ _ _ _ (λ _, sd_last_voted_round sd ≤ round)).
  { destruct (Z.ltb_spec round (sd_last_voted_round sd)).
    - by apply quiet_lift.
    - by apply quiet_ret. }
  intros _ Hle. specialize (Hspec Hle).
  assert (Hsign : ∀ d (Q : list Event → Prop),
            Q [e] → quiet (S:=S) vv d (sr_sign m ;! st_ret [e]) Q).
  { intros d Q HQ. eapply quiet_bind; [apply quiet_sign|]. intros _ _. by apply quiet_ret. }
  destruct (Z.ltb_spec (sd_last_voted_round sd) round).
  - impl_step (quiet_lift _ _ _ _ (update_last_vote_ok _ _)). intros d [_ ->].
    apply implements_store; [apply Hspec; by left|]. apply Hsign, Hspec. by right.
  - assert (Hsd : sd_set_last_voted_round round sd = sd).
    { destruct sd as [ep lvr pr oc lv]. unfold sd_set_last_voted_round. simpl in *. f_equal. lia. }
    rewrite Hsd in Hspec. eapply implements_bind; [by apply (quiet_ret _ _ () (λ _, True))|].
    intros _ _. apply implements_quiet, Hsign, Hspec. by right.
Qed.

Lemma implements_timeout2 t tc : impl (CallTimeout2 t tc) (run_call (CallTimeout2 t tc)).
Proof.
  unfold run_call, guarded_sign_timeout_with_qc.
  impl_step quiet_signer. intros _ _.
  impl_step quiet_safety_data. intros d ->.
  impl_step (quiet_lift _ _ _ (λ _, tct_epoch t = sd_epoch sd)).
  { intros []. apply verify_epoch_ok. }
  intros _ He. impl_step quiet_verify_qc. intros _ Hqc.
  impl_step quiet_verify_maybe_tc. intros _ Htc.
  impl_step (quiet_lift _ _ _ (λ _, safe_to_timeout t tc sd = Ok ())); [by intros []|].
  intros _ Hsafe. apply implements_assoc, implements_timeout_round.
  intros Hr evs Hevs. by apply spec_timeout2.
Qed.

Lemma implements_timeout t : impl (CallTimeout t) (run_call (CallTimeout t)).
Proof.
  unfold run_call, guarded_sign_timeout.
  impl_step quiet_signer. intros _ _.
  impl_step quiet_safety_data. intros d ->.
  impl_step (quiet_lift _ _ _ (λ _, to_epoch t = sd_epoch sd)).
  { intros []. apply verify_epoch_ok. }
  intros _ He.
  apply implements_assoc, (implements_bind _ _ _ _ _ (λ _, sd_preferred_round sd < to_round t)).
  { destruct (Z.leb_spec (to_round t) (sd_preferred_round sd)).
    - by apply quiet_lift.
    - by apply quiet_ret. }
  intros _ Hp. apply implements_assoc, implements_timeout_round.
  intros Hr evs Hevs. by apply spec_timeout.
Qed.

Lemma implements_proposal d : impl (CallProposal d) (run_call (CallProposal d)).
Proof.
  unfold run_call, guarded_sign_proposal.
  impl_step quiet_signer. intros _ _.
  impl_step (quiet_bind _ _ _ _ _ (λ _, True)).
  { apply quiet_signer. }
  { intros signer _. eapply quiet_bind; [by apply (quiet_lift _ _ _ (λ _, True))|].
    intros a _. destruct (_ =? _); [by apply quiet_ret|by apply quiet_lift]. }
  intros _ _. impl_step quiet_safety_data. intros d' ->.
  impl_step (quiet_lift _ _ _ (λ _, bd_epoch d = sd_epoch sd)).
  { intros []. apply verify_epoch_ok. }
  intros _ He.
  apply implements_assoc, (implements_bind _ _ _ _ _ (λ _, sd_last_voted_round sd < bd_round d)).
  { destruct (Z.leb_spec (bd_round d) (sd_last_voted_round sd)).
    - by apply quiet_lift.
    - by apply quiet_ret. }
  intros _ Hr. impl_step quiet_verify_qc. intros _ Hqc.
  impl_step (quiet_lift _ _ _ (λ _, sd_preferred_round sd ≤ qc_round (bd_quorum_cert d))).
  { intros [d' u] Hd. by eapply update_preferred_ok. }
  intros _ Hp. apply implements_quiet. eapply quiet_bind; [apply quiet_sign|].
  intros _ _. by apply quiet_ret, spec_proposal.
Qed.

Lemma implements_commit_vote lis li :
  impl (CallCommitVote lis li) (run_call (CallCommitVote lis li)).
Proof.
  unfold run_call, guarded_sign_commit_vote.
  impl_step quiet_signer. intros _ _.
  impl_step (quiet_lift _ _ _ (λ _, is_ordered_only (lis_commit_info lis) = true)).
  { by intros [] Hx%ensure_ok. }
  intros _ Ho.
  impl_step (quiet_lift _ _ _ (λ _, match_ordered_only (lis_commit_info lis) (li_commit_info li) = true)).
  { by intros [] Hx%ensure_ok. }
  intros _ Hm. impl_step quiet_epoch_state. intros es ->.
  impl_step (quiet_lift _ _ _ (λ _, lis_verify_signatures lis vv = Ok ())).
  { by intros [] Hx%r_map_err_ok. }
  intros _ Hs. apply implements_quiet. eapply quiet_bind; [apply quiet_sign|].
  intros _ _. by apply quiet_ret, spec_commit_vote.
Qed.

Lemma implements_consensus_state : impl CallConsensusState (run_call CallConsensusState).
Proof.
  unfold run_call, guarded_consensus_state. apply implements_quiet.
  apply (quiet_bind _ _ _ _ (λ _, True)).
  - eapply quiet_bind; [apply quiet_storage, pss_frame_waypoint|intros _ _].
    eapply quiet_bind; [apply quiet_safety_data|intros _ _].
    eapply quiet_bind; [apply quiet_storage, pss_frame_author|intros _ _].
    eapply quiet_bind; [apply quiet_safety_data|intros d _].
    eapply quiet_bind; [apply quiet_storage, pss_frame_waypoint|intros w _].
    eapply quiet_bind; [apply quiet_get|intros r _]. by apply quiet_ret.
  - intros _ _. apply quiet_ret, spec_nothing.
Qed.

Lemma run_call_implements c : impl c (run_call c).
Proof.
  destruct c; eauto using implements_vote2, implements_vote3, implements_timeout2,
    implements_timeout, implements_proposal, implements_commit_vote, implements_consensus_state.
Qed.
End handlers.

(** ** Initialization and runs of a node *)

Section runs.
Context `{CC : ConsensusCrypto} {S : Type} {KV : KVStorage S} {KL : KVLaws S}
  {CS : CryptoStorage S} {CL : CryptoStorageLaws S}.
Implicit Types r : SafetyRules S.

(** The outcome of an initialization: the epoch never goes back, and the epoch state that
    is installed is the one of the stored epoch. *)
Record initialized r (sd : SafetyData) r' : Prop := {
  ini_coherent : sr_coherent r';
  ini_data : sr_holds r' sd ∨ ∃ e, sd_epoch sd < e ∧ sr_holds r' (sd_new_epoch e);
  ini_epoch : sr_epoch_state r' = sr_epoch_state r ∨
    ∃ es sd', sr_epoch_state r' = Some es ∧ sr_holds r' sd' ∧ es_epoch es = sd_epoch sd';
}.

(** Steps that touch neither the safety data nor the epoch state. *)
Definition still {A} (c : ST (SafetyRules S) SafetyError A) : Prop :=
  ∀ r, pss_view (sr_persistent_storage (c r).1) = pss_view (sr_persistent_storage r) ∧
       (sr_coherent r → sr_coherent (c r).1) ∧ sr_epoch_state (c r).1 = sr_epoch_state r.

Lemma still_storage {A} (c : ST (PersistentSafetyStorage S) SafetyError A) :
  pss_frame c → still (sr_storage c).
Proof.
  intros Hc r. unfold sr_storage, st_zoom.
  destruct (Hc (sr_persistent_storage r)) as (Hv & _).
  pose proof (pss_coherent_frame c (sr_persistent_storage r) Hc) as Hco.
  destruct (c (sr_persistent_storage r)) as [p x]. by simpl in *.
Qed.

Lemma still_sign {T} `{CryptoHash T} (m : T) : still (sr_sign m).
Proof.
  intros r. unfold sr_sign, st_bind, sr_signer.
  destruct (sr_validator_signer r) as [[signer|handle]|]; simpl; [..|done].
  - apply (still_storage (st_ret (ValidatorSigner_sign signer m))). by intros p.
  - apply (still_storage (ValidatorHandle_sign handle m)), pss_frame_sign.
Qed.

Lemma still_reconcile author es : still (reconcile_key author es).
Proof.
  intros r. unfold reconcile_key.
  destruct (get_public_key (es_verifier es) author) as [pk|]; [|done].
  case_bool_decide; [done|]. destruct (sr_export_consensus_key r).
  - destruct (still_storage _ (pss_frame_consensus_key pk) r) as (Hv & Hco & He).
    by destruct (sr_storage _ r) as [r1 [k|[]|m]].
  - destruct (still_sign (mkTimeout 0 0)
      (sr_set_signer (Some (CHandle (mkValidatorHandle author pk))) r)) as (Hv & Hco & He).
    by destruct (sr_sign _ _) as [r1 x].
Qed.

Lemma initialized_still r0 r1 r2 sd :
  initialized r0 sd r1 →
  pss_view (sr_persistent_storage r2) = pss_view (sr_persistent_storage r1) →
  (sr_coherent r1 → sr_coherent r2) → sr_epoch_state r2 = sr_epoch_state r1 →
  initialized r0 sd r2.
Proof.
  intros [Hco Hd He] Hv Hco' Hes. unfold sr_holds, pss_holds in *.
  split; unfold sr_holds, pss_holds; rewrite ?Hv, ?Hes; auto.
Qed.

(** A still step, and the rest of the initialization after it. *)
Lemma initialized_bind {A B} (c : ST (SafetyRules S) SafetyError A)
    (f : A → ST (SafetyRules S) SafetyError B) r0 r sd :
  still c → initialized r0 sd r →
  (∀ a r1, c r = (r1, Ok a) → initialized r0 sd r1 →
     pss_view (sr_persistent_storage r1) = pss_view (sr_persistent_storage r) →
     sr_epoch_state r1 = sr_epoch_state r → initialized r0 sd (f a r1).1) →
  initialized r0 sd (st_bind c f r).1.
Proof.
  intros Hc Hr Hf. destruct (Hc r) as (Hv & Hco & He). unfold st_bind.
  assert (Hi : initialized r0 sd (c r).1) by (eapply initialized_still; eauto).
  destruct (c r) as [r1 [a|e|m]] eqn:Hcr; simpl in *; auto.
Qed.

Lemma still_lift {A} (x : Result SafetyError A) : still (st_lift x).
Proof. by intros r. Qed.

Lemma still_safety_data r :
  sr_coherent r →
  pss_view (sr_persistent_storage (sr_storage pss_safety_data r).1)
    = pss_view (sr_persistent_storage r) ∧
  sr_coherent (sr_storage pss_safety_data r).1 ∧
  sr_epoch_state (sr_storage pss_safety_data r).1 = sr_epoch_state r ∧
  (∀ d, (sr_storage pss_safety_data r).2 = Ok d → sr_holds r d).
Proof.
  intros Hco. unfold sr_storage, st_zoom.
  destruct (pss_safety_data (sr_persistent_storage r)) as [p x] eqn:Hp.
  destruct (pss_safety_data_spec _ _ _ Hco Hp) as (Hco' & Hv & _ & Hd). by simpl.
Qed.

(** The last part of the initialization: the epoch state and the key. *)
Lemma initialize_end r0 sd sd' r es :
  (sd' = sd ∨ ∃ e, sd_epoch sd < e ∧ sd' = sd_new_epoch e) →
  sr_coherent r → sr_holds r sd' → es_epoch es = sd_epoch sd' →
  initialized r0 sd
    (((λ r, (sr_set_epoch_state (Some es) r, Ok ())) ;!
      let! author := sr_storage pss_author in
      λ r, match reconcile_key author es r with
           | (r', Err error) => (sr_set_signer None r', Err error)
           | res => res
           end) r).1.
Proof.
  intros Hsd Hco Hh He. unfold st_bind at 1.
  assert (Hr : initialized r0 sd (sr_set_epoch_state (Some es) r)).
  { split; [done| |by right; exists es, sd'].
    destruct Hsd as [-> |(e & Hlt & ->)]; [by left|right; by exists e]. }
  apply initialized_bind; [apply still_storage, pss_frame_author|done|].
  intros author r1 _ Hr1 _ _. destruct (still_reconcile author es r1) as (Hv & Hc & Hes).
  destruct (reconcile_key author es r1) as [r2 [u|e|m]]; simpl in *;
    by eapply initialized_still.
Qed.

Lemma initialize_spec proof r sd :
  sr_coherent r → sr_holds r sd → initialized r sd (guarded_initialize proof r).1.
Proof.
  intros Hco Hh. unfold guarded_initialize.
  assert (Hr : initialized r sd r) by (split; auto).
  apply initialized_bind; [apply still_storage, pss_frame_waypoint|done|].
  intros w r1 _ Hr1 Hv1 He1. apply initialized_bind; [apply still_lift|done|].
  intros lis r2 [= <- _] _ _ _. apply initialized_bind; [apply still_lift|done|].
  intros es r2 [= <- _] _ _ _. apply initialized_bind; [apply still_lift|done|].
  intros nw r2 [= <- _] _ _ _. apply initialized_bind; [|done|].
  { destruct (_ <? _); [apply still_storage, pss_frame_set_waypoint|by intros ?]. }
  intros _ r2 _ Hr2 Hv2 He2.
  assert (Hh2 : sr_holds r2 sd) by (unfold sr_holds, pss_holds in *; congruence).
  destruct (still_safety_data r2 (ini_coherent _ _ _ Hr2)) as (Hv3 & Hco3 & He3 & Hd).
  unfold st_bind at 1.
  destruct (sr_storage pss_safety_data r2) as [r3 [d|e|m]] eqn:Hr3; simpl in *.
  2,3: by eapply initialized_still.
  assert (d = sd) as ->.
  { specialize (Hd d eq_refl). unfold sr_holds, pss_holds in *. congruence. }
  assert (Hh3 : sr_holds r3 sd) by (unfold sr_holds, pss_holds in *; congruence).
  destruct (Z.compare_spec (sd_epoch sd) (es_epoch es)) as [Heq|Hlt|Hgt].
  - unfold st_bind at 1. simpl. apply (initialize_end r sd sd); auto.
  - unfold st_bind at 1, sr_storage at 1, st_zoom.
    destruct (pss_set_safety_data _ (sr_persistent_storage r3)) as [p x] eqn:Hset.
    destruct (pss_set_spec _ _ _ _ Hset) as (Hco4 & _ & Hok & Hany).
    destruct x as [[]|e|m].
    + apply (initialize_end r sd (sd_new_epoch (es_epoch es))); [eauto|done|by apply Hok|done].
    + split; [done| |left; simpl; congruence]. destruct Hany as [Hs|Hs]; [left|right].
      * unfold sr_holds, pss_holds in *. simpl. congruence.
      * by exists (es_epoch es).
    + split; [done| |left; simpl; congruence]. destruct Hany as [Hs|Hs]; [left|right].
      * unfold sr_holds, pss_holds in *. simpl. congruence.
      * by exists (es_epoch es).
  - unfold st_bind at 1. simpl. by eapply initialized_still.
Qed.

(** A new process on the storage the old one left. *)
Definition restarted r r' : Prop :=
  ∃ store verify export,
    storage_view store = storage_view (pss_internal_store (sr_persistent_storage r)) ∧
    SafetyRules_new (pss_new store (pss_enable_cached_safety_data (sr_persistent_storage r)))
      verify export = Ok r'.

(** The runs of a node: calls, of which the answer may get lost; initializations; crashes.
    An initialization is trusted to install the validators [vvs] of the epoch (this is what
    the epoch change proof is verified for), and not to change the stored epoch without
    the epoch state: see [torn_initialization]. *)
Inductive node_run (vvs : Z → ValidatorVerifier) (allowed : Call → Prop) (r0 : SafetyRules S)
    : list Event → SafetyRules S → Prop :=
| nrun_start : node_run vvs allowed r0 [] r0
| nrun_call h r c r' res evs :
    node_run vvs allowed r0 h r → allowed c →
    run_call c r = (r', res) → evs = [] ∨ evs = released res →
    node_run vvs allowed r0 (h ++ evs) r'
| nrun_initialize h r proof r' res :
    node_run vvs allowed r0 h r →
    guarded_initialize proof r = (r', res) →
    (∀ es, sr_epoch_state r' = Some es → es_verifier es = vvs (es_epoch es)) →
    (pss_view (sr_persistent_storage r') = pss_view (sr_persistent_storage r) ∨
     sr_epoch_state r' ≠ sr_epoch_state r) →
    node_run vvs allowed r0 h r'
| nrun_restart h r r' :
    node_run vvs allowed r0 h r → restarted r r' → node_run vvs allowed r0 h r'.

(** The relation between the component and the abstract validator. *)
Record represents (vvs : Z → ValidatorVerifier) r (sd : SafetyData) : Prop := {
  rep_coherent : sr_coherent r;
  rep_holds : sr_holds r sd;
  rep_epoch : ∀ es, sr_epoch_state r = Some es →
    es_epoch es = sd_epoch sd ∧ es_verifier es = vvs (es_epoch es);
}.

Lemma represents_ready vvs r sd : represents vvs r sd → ready (vvs (sd_epoch sd)) sd r.
Proof.
  intros [Hco Hh He]. split; [done..|]. intros es Hes. destruct (He es Hes) as [<- ?]. done.
Qed.

Lemma call_spec_lost vv c sd evs sd' : call_spec vv c sd evs sd' → call_spec vv c sd [] sd'.
Proof.
  destruct 1; try apply spec_nothing.
  - apply spec_vote2; solve [done|by left].
  - apply spec_vote3; solve [done|by left].
  - apply spec_timeout2; solve [done|by left].
  - apply spec_timeout; solve [done|by left].
Qed.

(** One call, on the representation. *)
Lemma run_call_represents vvs c r sd :
  represents vvs r sd →
  ∃ sd', represents vvs (run_call c r).1 sd' ∧
    call_spec (vvs (sd_epoch sd)) c sd (released (run_call c r).2) sd'.
Proof.
  intros Hrep. destruct (run_call_implements _ _ c r (represents_ready _ _ _ Hrep))
    as (Hco & [He _] & sd' & Hh & Hspec).
  exists sd'. split; [|done]. split; [done..|]. intros es Hes. rewrite He in Hes.
  rewrite (grows_epoch _ _ (call_spec_grows _ _ _ _ _ Hspec)). by apply Hrep.
Qed.

Lemma sr_holds_inj r d1 d2 : sr_holds r d1 → sr_holds r d2 → d1 = d2.
Proof. unfold sr_holds, pss_holds. congruence. Qed.

Lemma restarted_represents vvs r r' sd :
  restarted r r' → represents vvs r sd → represents vvs r' sd.
Proof.
  intros (store & verify & export & Hv & Hnew) [_ Hh _].
  assert (Hp : pss_view (sr_persistent_storage r') = pss_view (sr_persistent_storage r) ∧
    pss_cached_safety_data (sr_persistent_storage r') = None ∧ sr_epoch_state r' = None).
  { unfold SafetyRules_new in Hnew. destruct verify; [|injection Hnew as <-; unfold pss_view; by rewrite <- Hv].
    set (p := pss_new store _) in *. destruct (pss_frame_execution_key p) as (Hf & Hc & _).
    destruct (execution_public_key p) as [p' [pk|e|m]]; try done.
    injection Hnew as <-. simpl in *. split; [|done].
    rewrite Hf. unfold pss_view. simpl. by rewrite Hv. }
  destruct Hp as (Hp & Hc & He). split.
  - intros d Hd. congruence.
  - unfold sr_holds, pss_holds in *. congruence.
  - intros es Hes. congruence.
Qed.

Lemma node_run_voter vvs allowed r0 sd0 h r :
  represents vvs r0 sd0 → node_run vvs allowed r0 h r →
  ∃ sd, voter_run vvs allowed sd0 h sd ∧ represents vvs r sd.
Proof.
  intros H0. induction 1 as [|h r c r' res evs _ (sd & Hv & Hrep) Hall Hrun Hevs
    |h r proof r' res _ (sd & Hv & Hrep) Hini Htrust Htorn|h r r' _ (sd & Hv & Hrep) Hres].
  - exists sd0. split; [constructor|done].
  - destruct (run_call_represents vvs c r sd Hrep) as (sd' & Hrep' & Hspec).
    rewrite Hrun in *. simpl in *. exists sd'. split; [|done].
    econstructor; [done..|]. destruct Hevs as [-> | ->]; [by eapply call_spec_lost|done].
  - destruct Hrep as [Hco Hh He].
    destruct (initialize_spec proof r sd Hco Hh) as [Hco' Hd' He']. rewrite Hini in *. simpl in *.
    assert (Hep : ∀ sd', sr_holds r' sd' → (sd' = sd ∨ sr_epoch_state r' ≠ sr_epoch_state r) →
      represents vvs r' sd').
    { intros sd' Hh' Hor. split; [done..|]. intros es Hes. split; [|by apply Htrust].
      destruct He' as [Hsame|(es' & sd'' & Hes' & Hh'' & Heq)].
      - destruct Hor as [-> |Hne]; [|done]. apply He. congruence.
      - rewrite (sr_holds_inj _ _ _ Hh' Hh''). congruence. }
    destruct Hd' as [Hd'|(e & Hlt & Hd')].
    + exists sd. split; [done|]. apply Hep; auto.
    + exists (sd_new_epoch e). split; [by eapply vrun_epoch|]. apply Hep; [done|].
      destruct Htorn as [Hsame|Hne]; [|by right]. left.
      unfold sr_holds, pss_holds in *. congruence.
  - exists sd. split; [done|]. by eapply restarted_represents.
Qed.
End runs.
