(* ===== verification/ConsensusSafety.v ===== *)
(** * ConsensusSafety: no two conflicting commits

    The safety of the consensus of one epoch, for the 2-chain and for the 3-chain rules,
    from the promises of SafetyRulesSpec and the intersection of quorums.  [network] are
    the signatures that exist in the execution; a signature of an honest validator among
    them was released by its safety rules ([unforgeable]).  Blocks are related by the
    certificates that certify them. *)

From S2P Require Import Prelude Crypto Accumulator ValidatorVerifier LedgerTypes EpochChange.
From S2P Require Import AccumulatorProof ConsensusTypes ConsensusMessages SafetyStorage.
From S2P Require Import SafetyRules SafetyRulesSpec.

(** What the consensus relies on of the hashes: no collisions between vote data, and signed
    messages that determine the value and its type. *)
Class ConsensusHashLaws (CC : ConsensusCrypto) : Prop := {
  vote_data_hash_inj : Inj (=) (=) (crypto_hash (T:=VoteData));
  ledger_info_message_inj : Inj (=) (=) (signing_message (T:=LedgerInfo));
  timeout_message_inj : Inj (=) (=) (signing_message (T:=TimeoutSigningRepr));
  li_not_timeout2 : ∀ (li : LedgerInfo) (t : TimeoutSigningRepr),
    signing_message li ≠ signing_message t;
  li_not_timeout : ∀ (li : LedgerInfo) (t : Timeout), signing_message li ≠ signing_message t;
  li_not_block : ∀ (li : LedgerInfo) (d : BlockData), signing_message li ≠ signing_message d;
  timeout2_not_timeout : ∀ (t : TimeoutSigningRepr) (t' : Timeout),
    signing_message t ≠ signing_message t';
  timeout2_not_block : ∀ (t : TimeoutSigningRepr) (d : BlockData),
    signing_message t ≠ signing_message d;
}.

Section safety.
Context {CC : ConsensusCrypto} {CL : CryptoLaws cc_crypto} {HL : ConsensusHashLaws CC}.

(** The bytes that were signed. *)
Definition event_message (e : Event) : Bytes :=
  match e with
  | EvVote v => signing_message (v_ledger_info v)
  | EvTimeout t => signing_message t
  | EvTimeout2 t => signing_message t
  | EvProposal d => signing_message d
  | EvCommitVote li => signing_message li
  end.

(** ** The execution of one epoch *)

Context (epoch : Z) (vv : ValidatorVerifier) (byz : AccountAddress → bool)
  (network : Signature → Prop) (history : AccountAddress → list Event).

Definition known_signatures (sigs : BTreeMap Signature) : Prop :=
  ∀ a s, sigs !! a = Some s → network s.
Definition qc_known (qc : QuorumCert) : Prop :=
  known_signatures (lis_signatures (qc_signed_ledger_info qc)).
Definition tc_known (tc : TwoChainTimeoutCertificate) : Prop :=
  known_signatures (snd <$> tctc_signatures tc).

(** A signature of an honest validator that verifies was released by the validator. *)
Definition unforgeable : Prop :=
  ∀ a pk m s, byz a = false → get_public_key vv a = Some pk → network s →
    ed25519_verify pk m s = true → ∃ e, e ∈ history a ∧ event_message e = m.

(** An honest validator ran the safety rules on the calls [allowed]. *)
Definition honest_runs (allowed : Call → Prop) : Prop :=
  ∀ a, byz a = false → ∃ vvs e0 sd,
    vvs epoch = vv ∧ voter_run vvs allowed (sd_new_epoch e0) (history a) sd.

(** ** Certified and committed blocks *)

(** A certificate of the epoch for the block, extending its parent. *)
Definition certified (vd : VoteData) : Prop :=
  ∃ qc, QuorumCert_verify qc vv = Ok () ∧ qc_known qc ∧ qc_vote_data qc = vd ∧
    bi_epoch (vd_proposed vd) = epoch ∧ 0 < bi_round (vd_proposed vd).

Definition link (child parent : BlockInfo) : Prop :=
  ∃ vd, certified vd ∧ vd_proposed vd = child ∧ vd_parent vd = parent.
(** [extends b a]: the block [a] is [b] or one of its ancestors. *)
Definition extends : BlockInfo → BlockInfo → Prop := rtc link.

(** A ledger info of the epoch that commits the block, with a quorum of signatures. *)
Definition committed (b : BlockInfo) : Prop :=
  ∃ lis, lis_verify_signatures lis vv = Ok () ∧ known_signatures (lis_signatures lis) ∧
    lis_commit_info lis = b ∧ bi_epoch b = epoch ∧ 0 < bi_round b.

(** ** Quorums of votes *)

Context (Hbft : vv_bft vv) (Htol : tolerated vv byz) (Hunf : unforgeable).
Context (allowed : Call → Prop) (Hruns : honest_runs allowed)
  (Hallowed_qc : ∀ c b, allowed c → call_block c = Some b → qc_known (b_quorum_cert b))
  (Hno_commit_vote : ∀ lis li, ¬ allowed (CallCommitVote lis li)).

(** The votes an honest validator released, and what is known of them. *)
Lemma honest_inv a :
  byz a = false → ∃ vvs sd, vvs epoch = vv ∧ voter_inv vvs allowed (history a) sd.
Proof.
  intros Ha. destruct (Hruns a Ha) as (vvs & e0 & sd & Hvv & Hrun).
  exists vvs, sd. split; [done|]. by eapply voter_run_inv.
Qed.

Lemma no_commit_votes a li : byz a = false → EvCommitVote li ∉ history a.
Proof.
  intros Ha. destruct (Hruns a Ha) as (vvs & e0 & sd & _ & Hrun).
  induction Hrun as [|h sd c evs sd' _ IH Hall Hspec|]; [apply not_elem_of_nil| |done].
  intros [Hin|Hin]%elem_of_app; [done|].
  assert (H1 : ∀ e, at_most e evs → EvCommitVote li = e).
  { intros e [-> | ->]; [by apply not_elem_of_nil in Hin|by apply list_elem_of_singleton in Hin]. }
  destruct Hspec; try (by apply H1 in H); try (by apply not_elem_of_nil in Hin).
  all: try (match goal with Hm : at_most _ _ |- _ => by apply H1 in Hm end).
  all: apply list_elem_of_singleton in Hin; try done.
  injection Hin as ->. by eapply Hno_commit_vote.
Qed.

(** An honest signature on a ledger info is a vote. *)
Lemma signed_is_vote a (li : LedgerInfo) s :
  byz a = false → network s → vv_verify vv a li s = Ok () →
  ∃ v, EvVote v ∈ history a ∧ v_ledger_info v = li.
Proof.
  intros Ha Hs (pk & Hpk & Hver)%vv_verify_ok.
  destruct (Hunf a pk _ s Ha Hpk Hs Hver) as ([v|t|t|d|li'] & Hin & Hm); simpl in Hm.
  - exists v. split; [done|]. by apply ledger_info_message_inj.
  - by destruct (li_not_timeout li t).
  - by destruct (li_not_timeout2 li t).
  - by destruct (li_not_block li d).
  - by destruct (no_commit_votes a li' Ha).
Qed.

(** An honest signature on a 2-chain timeout is one. *)
Lemma signed_is_timeout a (t : TimeoutSigningRepr) s :
  byz a = false → network s → vv_verify vv a t s = Ok () → EvTimeout2 t ∈ history a.
Proof.
  intros Ha Hs (pk & Hpk & Hver)%vv_verify_ok.
  destruct (Hunf a pk _ s Ha Hpk Hs Hver) as ([v|t'|t'|d|li'] & Hin & Hm); simpl in Hm.
  - by destruct (li_not_timeout2 (v_ledger_info v) t).
  - by destruct (timeout2_not_timeout t t').
  - by apply timeout_message_inj in Hm as ->.
  - by destruct (timeout2_not_block t d).
  - by destruct (li_not_timeout2 li' t).
Qed.

(** Every honest member of the quorum satisfies [P]. *)
Definition quorum_of (P : AccountAddress → Prop) : Prop :=
  ∃ q, NoDup q ∧ check_voting_power vv q = Ok () ∧ ∀ a, a ∈ q → byz a = false → P a.

Lemma quorum_meet P Q : quorum_of P → quorum_of Q → ∃ a, byz a = false ∧ P a ∧ Q a.
Proof.
  intros (q1 & Hn1 & Hp1 & H1) (q2 & Hn2 & Hp2 & H2).
  destruct (quorums_share_honest vv byz q1 q2) as (a & Ha1 & Ha2 & Ha); [done..|].
  exists a. auto.
Qed.

Definition voted (vd : VoteData) (li : LedgerInfo) (a : AccountAddress) : Prop :=
  ∃ v, EvVote v ∈ history a ∧ v_vote_data v = vd ∧ v_ledger_info v = li.

Lemma signatures_quorum lis :
  lis_verify_signatures lis vv = Ok () → known_signatures (lis_signatures lis) →
  quorum_of (λ a, ∃ v, EvVote v ∈ history a ∧ v_ledger_info v = lis_ledger_info lis).
Proof.
  unfold lis_verify_signatures. rewrite batch_verify_aggregated_eq.
  unfold verify_aggregated_struct_signature. intros H Hk. r_inv H.
  apply r_for_ok in H. exists (btree_keys (lis_signatures lis)).
  split; [apply NoDup_btree_keys|]. split; [by destruct a0|].
  intros b [sig Hsig]%elem_of_btree_keys Ha.
  apply signed_is_vote with sig; [done|by eapply Hk|].
  rewrite Forall_forall in H. by apply (H (b, sig)), elem_of_btree_iter.
Qed.

(** The hash in the ledger info of an honest vote is the hash of its vote data. *)
Lemma honest_hash a v :
  byz a = false → EvVote v ∈ history a →
  li_consensus_data_hash (v_ledger_info v) = crypto_hash (v_vote_data v).
Proof.
  intros Ha Hv. destruct (honest_inv a Ha) as (vvs & sd & _ & Hinv).
  destruct (inv_vote _ _ _ _ Hinv v (or_introl Hv)) as (b & Hb & _).
  by apply vote_call_for in Hb as [].
Qed.

Lemma honest_vote a v :
  byz a = false → EvVote v ∈ history a → v_epoch v = epoch →
  ∃ b, vote_call (λ _, vv) allowed b v.
Proof.
  intros Ha Hv He. destruct (honest_inv a Ha) as (vvs & sd & Hvv & Hinv).
  destruct (inv_vote _ _ _ _ Hinv v (or_introl Hv)) as (b & Hb & _). exists b.
  destruct Hb as [ts p tc ? ? Hb|ts p ? ? Hb]; rewrite He, Hvv in Hb.
  - by apply (vote_call2 _ _ _ _ ts p tc).
  - by apply (vote_call3 _ _ _ _ ts p).
Qed.

Lemma certified_quorum vd : certified vd → ∃ li, quorum_of (voted vd li).
Proof.
  intros (qc & Hver & Hk & <- & _ & Hr). unfold QuorumCert_verify in Hver.
  r_inv Hver. unfold qc_certified_block in Hver.
  destruct (Z.eqb_spec (bi_round (vd_proposed (qc_vote_data qc))) 0); [lia|].
  r_inv Hver. exists (qc_ledger_info qc).
  destruct (signatures_quorum (qc_signed_ledger_info qc)) as (q & Hn & Hp & Hq); [by destruct a0|done|].
  exists q. split; [done|]. split; [done|]. intros b Hb Hbyz.
  destruct (Hq b Hb Hbyz) as (v & Hv & Hli). exists v. split; [done|]. split; [|done].
  apply vote_data_hash_inj. rewrite <- (honest_hash b v Hbyz Hv), Hli.
  by apply Z.eqb_eq in Hs.
Qed.

(** The certificate of an honest voter's block certifies the parent. *)
Lemma voted_parent vd li a :
  byz a = false → voted vd li a → bi_epoch (vd_proposed vd) = epoch →
  0 < bi_round (vd_parent vd) →
  bi_round (vd_parent vd) < bi_round (vd_proposed vd) ∧
  ∃ vd', certified vd' ∧ vd_proposed vd' = vd_parent vd.
Proof.
  intros Ha (v & Hv & <- & _) He Hr. destruct (honest_vote a v Ha Hv He) as [b Hb].
  pose proof (vote_call_for _ _ _ _ Hb) as Hf. simpl in Hf.
  rewrite (vf_parent _ _ _ Hf) in *.
  assert (Hpe : bi_epoch (qc_certified_block (b_quorum_cert b)) = epoch).
  { rewrite (vf_parent_epoch _ _ _ Hf), <- (vf_epoch _ _ _ Hf). done. }
  split.
  { pose proof (vf_parent_round _ _ _ Hf). rewrite <- (vf_round _ _ _ Hf) in *. done. }
  exists (qc_vote_data (b_quorum_cert b)). split; [|done].
  exists (b_quorum_cert b). split; [apply Hf|]. split; [|done].
  destruct Hb as [ts p tc Hal Hcb _|ts p Hal Hcb _]; by eapply Hallowed_qc.
Qed.

(** One certified block per round. *)
Lemma certified_unique vd1 vd2 :
  certified vd1 → certified vd2 →
  bi_round (vd_proposed vd1) = bi_round (vd_proposed vd2) → vd1 = vd2.
Proof.
  intros H1 H2 Hr. destruct (certified_quorum _ H1) as [li1 Hq1].
  destruct (certified_quorum _ H2) as [li2 Hq2].
  destruct (quorum_meet _ _ Hq1 Hq2) as (a & Ha & (v1 & Hv1 & <- & _) & (v2 & Hv2 & <- & _)).
  destruct (honest_inv a Ha) as (vvs & sd & _ & Hinv).
  destruct H1 as (_ & _ & _ & _ & He1 & _), H2 as (_ & _ & _ & _ & He2 & _).
  f_equal. eapply (inv_unique _ _ _ _ Hinv); [by left|by left| |done].
  unfold v_epoch. congruence.
Qed.

Lemma certified_step vd b : certified vd → extends (vd_parent vd) b → extends (vd_proposed vd) b.
Proof. intros Hc Hb. eapply rtc_l; [|exact Hb]. by exists vd. Qed.

(** Behind a commit there is a quorum of votes for the same vote data. *)
Lemma committed_quorum b :
  committed b → ∃ vd li, quorum_of (voted vd li) ∧ li_commit_info li = b.
Proof.
  intros (lis & Hver & Hk & Hb & He & Hr).
  pose proof (signatures_quorum lis Hver Hk) as Hq.
  destruct (quorum_meet _ _ Hq Hq) as (a & Ha & (v & Hv & Hli) & _).
  exists (v_vote_data v), (lis_ledger_info lis). split; [|done].
  destruct Hq as (q & Hn & Hp & Hq). exists q. split; [done|]. split; [done|].
  intros a' Ha' Hbyz. destruct (Hq a' Ha' Hbyz) as (v' & Hv' & Hli'). exists v'.
  split; [done|]. split; [|done]. apply vote_data_hash_inj.
  rewrite <- (honest_hash a' v'), <- (honest_hash a v) by done. congruence.
Qed.

(** The blocks of a committed block's descendants. *)
Lemma commit_order b1 b2 vd1 vd2 :
  certified vd1 → vd_proposed vd1 = b1 → certified vd2 → vd_proposed vd2 = b2 →
  (∀ vd, certified vd → bi_round b1 < bi_round (vd_proposed vd) → extends (vd_proposed vd) b1) →
  bi_round b1 ≤ bi_round b2 → extends b2 b1.
Proof.
  intros H1 <- H2 <- Hmain Hle.
  destruct (decide (bi_round (vd_proposed vd1) = bi_round (vd_proposed vd2))) as [Heq|Hne].
  - rewrite (certified_unique vd1 vd2); [apply rtc_refl|done..].
  - apply Hmain; [done|lia].
Qed.

(** ** The 2-chain rules *)

Section two_chain.
Context (Honly2 : ∀ ts p, ¬ allowed (CallVote ts p))
  (Htc : ∀ ts p tc b, allowed (CallVote2 ts p (Some tc)) →
     call_block (CallVote2 ts p (Some tc)) = Some b →
     tc_known tc ∧ tctc_epoch tc = b_epoch b).

Lemma commit_2chain b h li :
  construct_ledger_info_2chain b h = Ok li → 0 < bi_round (li_commit_info li) →
  li_commit_info li = qc_certified_block (b_quorum_cert b) ∧
  b_round b = bi_round (qc_certified_block (b_quorum_cert b)) + 1.
Proof.
  unfold construct_ledger_info_2chain. intros H Hr. r_inv H.
  apply next_round_ok in Hs as ->. simpl in *.
  destruct (Z.eqb_spec (bi_round (qc_certified_block (b_quorum_cert b)) + 1) (b_round b));
    simpl in *; [done|lia].
Qed.

(** Behind a commit there is a quorum of votes for a child in the next round. *)
Lemma committed_2chain b :
  committed b → ∃ vd li, quorum_of (voted vd li) ∧ vd_parent vd = b ∧
    bi_epoch (vd_proposed vd) = epoch ∧ bi_round (vd_proposed vd) = bi_round b + 1.
Proof.
  intros Hb. destruct (committed_quorum b Hb) as (vd & li & Hq & Hli).
  destruct Hb as (_ & _ & _ & _ & He & Hr). exists vd, li. split; [done|].
  destruct (quorum_meet _ _ Hq Hq) as (a & Ha & (v & Hv & <- & Hvli) & _).
  destruct (honest_inv a Ha) as (vvs & sd & _ & Hinv).
  destruct (inv_vote _ _ _ _ Hinv v (or_introl Hv)) as (blk & Hblk & _).
  destruct Hblk as [ts p tc Hal Hcb [Hf _ _ Hc]|ts p Hal _ _]; [|by destruct (Honly2 ts p)].
  apply commit_2chain in Hc as [Hc Hround]; [|congruence].
  rewrite Hvli, Hli in Hc. destruct Hf as [Hfe Hfr _ Hfp Hfpe _ _ _ _].
  unfold v_epoch, v_round in *. subst b. split_and!; congruence.
Qed.

Lemma tc_signatures_loop (tc : TwoChainTimeoutCertificate) l acc res :
  r_fold (λ signed_round '(author, (qc_round, signature)),
      let t := mkTimeoutSigningRepr (tct_epoch (tctc_timeout tc))
                 (tct_round (tctc_timeout tc)) qc_round in
      r_map_err (λ _, "Failed to verify TimeoutSigningRepr"%string)
        (vv_verify vv author t signature) ;?
      Ok (Z.max signed_round qc_round)) l acc = Ok res →
  acc ≤ res ∧ ∀ a q s, (a, (q, s)) ∈ l → q ≤ res ∧
    vv_verify vv a (mkTimeoutSigningRepr (tctc_epoch tc) (tctc_round tc) q) s = Ok ().
Proof.
  revert acc. induction l as [|[a [q s]] l IH]; intros acc.
  - intros [= ->]. split; [lia|]. intros a q s H. by apply not_elem_of_nil in H.
  - cbn [r_fold]. intros H. r_inv H. apply IH in H as [Hle Hall]. split; [lia|].
    intros a' q' s' [[= -> -> ->]|Hin]%elem_of_cons; [|by apply Hall].
    split; [lia|]. by destruct a1.
Qed.

(** Behind a timeout certificate there is a quorum of timeouts, none with a certificate
    higher than the one the timeout certificate shows. *)
Lemma tc_quorum tc :
  TwoChainTimeoutCertificate_verify tc vv = Ok () → tc_known tc →
  quorum_of (λ a, ∃ q, q ≤ tctc_highest_hqc_round tc ∧
    EvTimeout2 (mkTimeoutSigningRepr (tctc_epoch tc) (tctc_round tc) q) ∈ history a).
Proof.
  unfold TwoChainTimeoutCertificate_verify. intros H Hk. r_inv H.
  apply Z.eqb_eq in Hs3. apply tc_signatures_loop in Hs2 as [_ Hall].
  exists (btree_keys (tctc_signatures tc)). split; [apply NoDup_btree_keys|].
  split; [by destruct a1|]. intros b [[q sig] Hsig]%elem_of_btree_keys Ha. exists q.
  apply elem_of_btree_iter in Hsig as Hin. destruct (Hall _ _ _ Hin) as [Hle Hv].
  unfold tctc_highest_hqc_round. rewrite Hs3. split; [done|].
  apply signed_is_timeout with sig; [done| |done].
  apply (Hk b). by rewrite lookup_fmap, Hsig.
Qed.

Lemma safe_to_vote_ok b tc :
  safe_to_vote b tc = Ok () →
  b_round b = bi_round (qc_certified_block (b_quorum_cert b)) + 1 ∨
  ∃ t, b_round b = t + 1 ∧ t = from_option tctc_round 0 tc ∧
    from_option tctc_highest_hqc_round 0 tc ≤ bi_round (qc_certified_block (b_quorum_cert b)).
Proof.
  unfold safe_to_vote. intros H. r_inv H. destruct a; [|done].
  apply r_or_true in Hs as [Hn|Hs]; [left; by apply next_round_eqb|right].
  apply r_and_true in Hs as [Hn Hle]. injection Hle as Hle.
  exists (from_option tctc_round 0 tc). split; [by apply next_round_eqb|]. split; [done|lia].
Qed.

(** The parent of a block certified after a commit is not older than the commit. *)
Lemma parent_after_commit_2chain b vd :
  committed b → certified vd → bi_round b + 1 < bi_round (vd_proposed vd) →
  bi_round b ≤ bi_round (vd_parent vd).
Proof.
  intros Hb Hvd Hlt. assert (Hrb : 0 < bi_round b) by (by destruct Hb as (_ & _ & _ & _ & _ & ?)).
  destruct (committed_2chain b Hb) as (vd1 & li1 & Hq1 & Hp1 & He1 & Hr1).
  destruct (certified_quorum vd Hvd) as [li Hq].
  destruct (quorum_meet _ _ Hq Hq) as (a & Ha & (v & Hv & Hvv & _) & _).
  destruct Hvd as (_ & _ & _ & _ & He & _).
  destruct (honest_vote a v Ha Hv) as [blk Hblk]; [unfold v_epoch; congruence|].
  pose proof (vote_call_for _ _ _ _ Hblk) as Hf. simpl in Hf.
  assert (Hround : b_round blk = bi_round (vd_proposed vd)).
  { rewrite <- (vf_round _ _ _ Hf). unfold v_round. by rewrite Hvv. }
  assert (Hpar : vd_parent vd = qc_certified_block (b_quorum_cert blk)).
  { rewrite <- (vf_parent _ _ _ Hf). by rewrite Hvv. }
  destruct Hblk as [ts p [tc|] Hal Hcb [_ Hver Hsafe _]|ts p Hal _ _]; [| |by destruct (Honly2 ts p)].
  - apply safe_to_vote_ok in Hsafe as [Hs|(t & Ht & -> & Hle)]; [rewrite Hpar; lia|].
    simpl in Ht, Hle. destruct (Htc _ _ _ _ Hal Hcb) as [Hk Hte].
    pose proof (tc_quorum tc Hver Hk) as Hqt.
    destruct (quorum_meet _ _ Hq1 Hqt) as (a' & Ha' & (v1 & Hv1 & Hv1d & _) & (q & Hqle & Hto)).
    destruct (honest_inv a' Ha') as (vvs & sd & _ & Hinv).
    assert (Hlock : v_parent_round v1 ≤ q).
    { apply (inv_lock _ _ _ _ Hinv v1 _ (or_introl Hv1) Hto); simpl.
      - unfold v_epoch. rewrite Hv1d, Hte. rewrite <- (vf_epoch _ _ _ Hf).
        unfold v_epoch. congruence.
      - unfold v_round. rewrite Hv1d. lia. }
    unfold v_parent_round in Hlock. rewrite Hv1d, Hp1 in Hlock. rewrite Hpar. lia.
  - apply safe_to_vote_ok in Hsafe as [Hs|(t & Ht & -> & _)]; [rewrite Hpar; lia|].
    simpl in Ht. lia.
Qed.

(** The committed block itself is certified. *)
Lemma committed_certified_2chain b : committed b → ∃ vd, certified vd ∧ vd_proposed vd = b.
Proof.
  intros Hb. assert (Hrb : 0 < bi_round b) by (by destruct Hb as (_ & _ & _ & _ & _ & ?)).
  destruct (committed_2chain b Hb) as (vd1 & li1 & Hq1 & Hp1 & He1 & Hr1).
  destruct (quorum_meet _ _ Hq1 Hq1) as (a & Ha & Hv & _).
  destruct (voted_parent _ _ _ Ha Hv He1) as [_ ?]; by rewrite Hp1 in *.
Qed.

(** Everything certified after a commit extends the committed block. *)
Lemma certified_extends_2chain b vd :
  committed b → certified vd → bi_round b < bi_round (vd_proposed vd) →
  extends (vd_proposed vd) b.
Proof.
  intros Hb. remember (Z.to_nat (bi_round (vd_proposed vd))) as n eqn:Hn.
  revert vd Hn. induction (lt_wf n) as [n _ IH]. intros vd -> Hvd Hlt.
  assert (Hrb : 0 < bi_round b) by (by destruct Hb as (_ & _ & _ & _ & _ & ?)).
  destruct (committed_certified_2chain b Hb) as (vdb & Hvdb & Hvdb').
  destruct (certified_quorum vd Hvd) as [li Hq].
  assert (He : bi_epoch (vd_proposed vd) = epoch) by (by destruct Hvd as (_ & _ & _ & _ & ? & _)).
  apply certified_step; [done|].
  destruct (decide (bi_round (vd_proposed vd) = bi_round b + 1)) as [Heq|Hne].
  - (* the child of the commit *)
    destruct (committed_2chain b Hb) as (vd1 & li1 & Hq1 & Hp1 & He1 & Hr1).
    destruct (quorum_meet _ _ Hq Hq1) as (a & Ha & (v & Hv & Hvd' & _) & (v1 & Hv1 & Hvd1 & _)).
    destruct (honest_inv a Ha) as (vvs & sd & _ & Hinv).
    assert (v = v1) as ->.
    { apply (inv_unique _ _ _ _ Hinv); [by left|by left|..]; unfold v_epoch, v_round; congruence. }
    rewrite <- Hp1, <- Hvd1, Hvd'. apply rtc_refl.
  - (* a later block: its parent is certified and not older than the commit *)
    assert (Hpr : bi_round b ≤ bi_round (vd_parent vd)) by (apply parent_after_commit_2chain; [done..|lia]).
    destruct (quorum_meet _ _ Hq Hq) as (a & Ha & Hv & _).
    destruct (voted_parent _ _ _ Ha Hv He) as (Hdown & vd' & Hvd' & Hprop); [lia|].
    rewrite <- Hprop in *.
    destruct (decide (bi_round (vd_proposed vd') = bi_round b)) as [Hsame|Hdiff].
    + rewrite <- Hvdb' in *. rewrite (certified_unique vd' vdb); [apply rtc_refl|done..].
    + eapply IH; [|reflexivity|done|lia]. lia.
Qed.

Lemma commits_agree_2chain b1 b2 :
  committed b1 → committed b2 → extends b1 b2 ∨ extends b2 b1.
Proof.
  intros H1 H2. destruct (committed_certified_2chain b1 H1) as (vd1 & Hc1 & Hp1).
  destruct (committed_certified_2chain b2 H2) as (vd2 & Hc2 & Hp2).
  destruct (Z.le_ge_cases (bi_round b1) (bi_round b2)); [right|left].
  - eapply (commit_order b1 b2 vd1 vd2); eauto using certified_extends_2chain.
  - eapply (commit_order b2 b1 vd2 vd1); eauto using certified_extends_2chain.
Qed.
End two_chain.

(** ** The 3-chain rules *)

Section three_chain.
Context (Honly3 : only_three_chain allowed).

Lemma commit_3chain b h li :
  construct_ledger_info b h = Ok li → 0 < bi_round (li_commit_info li) →
  li_commit_info li = qc_parent_block (b_quorum_cert b) ∧
  bi_round (qc_certified_block (b_quorum_cert b))
    = bi_round (qc_parent_block (b_quorum_cert b)) + 1 ∧
  b_round b = bi_round (qc_certified_block (b_quorum_cert b)) + 1.
Proof.
  unfold construct_ledger_info. intros H Hr. r_inv H. destruct a; simpl in *; [|lia].
  apply r_and_true in Hs as [H1 H2]. split; [done|].
  apply r_bind_ok in H1 as (n1 & ->%next_round_ok & [= H1]).
  apply r_bind_ok in H2 as (n2 & ->%next_round_ok & [= H2]). lia.
Qed.

Lemma vote_data_verify_epoch qc vv' :
  QuorumCert_verify qc vv' = Ok () → bi_round (qc_certified_block qc) ≠ 0 →
  bi_epoch (qc_parent_block qc) = bi_epoch (qc_certified_block qc).
Proof.
  unfold QuorumCert_verify. intros H Hr. r_inv H.
  destruct (Z.eqb_spec (bi_round (qc_certified_block qc)) 0); [done|]. r_inv H.
  unfold VoteData_verify in Hs1. r_inv Hs1. unfold qc_parent_block, qc_certified_block. lia.
Qed.

(** What an honest vote that commits a block says, and the lock it sets. *)
Lemma commit_vote_3chain a v :
  byz a = false → EvVote v ∈ history a →
  bi_epoch (li_commit_info (v_ledger_info v)) = epoch →
  0 < bi_round (li_commit_info (v_ledger_info v)) →
  let b := li_commit_info (v_ledger_info v) in
  v_epoch v = epoch ∧ v_round v = bi_round b + 2 ∧
  (∃ vdm, certified vdm ∧ vd_proposed vdm = vd_parent (v_vote_data v) ∧
     vd_parent vdm = b ∧ bi_round (vd_proposed vdm) = bi_round b + 1) ∧
  ∀ v', EvVote v' ∈ history a → v_epoch v' = epoch → v_round v < v_round v' →
        bi_round b ≤ v_parent_round v'.
Proof.
  intros Ha Hv He Hr b. destruct (honest_inv a Ha) as (vvs & sd & Hvv & Hinv).
  destruct (inv_vote _ _ _ _ Hinv v (or_introl Hv)) as (blk & Hblk & _ & Hlock).
  destruct Hblk as [ts p tc Hal _ _|ts p Hal Hcb [Hf Hc]]; [by destruct (Honly3 ts p tc)|].
  apply commit_3chain in Hc as (Hc & Hr1 & Hr2); [|done]. subst b.
  pose proof (vote_data_verify_epoch _ _ (vf_qc _ _ _ Hf)) as Hve.
  rewrite Hc in He, Hr |- *.
  assert (Hepoch : v_epoch v = epoch).
  { rewrite (vf_epoch _ _ _ Hf), <- (vf_parent_epoch _ _ _ Hf), <- Hve; [done|lia]. }
  split; [done|]. split; [rewrite (vf_round _ _ _ Hf); lia|]. split.
  - exists (qc_vote_data (b_quorum_cert blk)).
    rewrite (vf_parent _ _ _ Hf). split; [|split_and!; [done..|exact Hr1]].
    exists (b_quorum_cert blk). rewrite <- Hvv, <- Hepoch. split; [apply Hf|].
    split; [by eapply Hallowed_qc|]. split; [done|].
    change (vd_proposed (qc_vote_data (b_quorum_cert blk)))
      with (qc_certified_block (b_quorum_cert blk)).
    rewrite (vf_parent_epoch _ _ _ Hf), <- (vf_epoch _ _ _ Hf). split; [done|lia].
  - intros v' Hv' He' Hlt. apply Hlock; [done|by left|congruence|done].
Qed.


(** The committed block itself is certified. *)
Lemma committed_certified_3chain b : committed b → ∃ vd, certified vd ∧ vd_proposed vd = b.
Proof.
  intros Hb. destruct (committed_quorum b Hb) as (vd1 & li1 & Hq1 & Hli1).
  destruct Hb as (_ & _ & _ & _ & Heb & Hrb).
  destruct (quorum_meet _ _ Hq1 Hq1) as (a & Ha & (v1 & Hv1 & _ & Hvli1) & _).
  destruct (commit_vote_3chain a v1 Ha Hv1) as (_ & _ & (vdm & Hvdm & _ & Hmb & _) & _);
    [congruence..|]. rewrite Hvli1, Hli1 in Hmb.
  destruct (certified_quorum vdm Hvdm) as [lim Hqm].
  destruct (quorum_meet _ _ Hqm Hqm) as (am & Ham & Hvm & _).
  destruct (voted_parent _ _ _ Ham Hvm) as (_ & vdb & Hvdb & Hvdb');
    [by destruct Hvdm as (_ & _ & _ & _ & ? & _)|by rewrite Hmb|].
  exists vdb. by rewrite Hmb in Hvdb'.
Qed.

(** Everything certified after a commit extends the committed block. *)
Lemma certified_extends_3chain b vd :
  committed b → certified vd → bi_round b < bi_round (vd_proposed vd) →
  extends (vd_proposed vd) b.
Proof.
  intros Hb. destruct (committed_quorum b Hb) as (vd1 & li1 & Hq1 & Hli1).
  destruct (committed_certified_3chain b Hb) as (vdb & Hvdb & Hvdb').
  destruct Hb as (_ & _ & _ & _ & Heb & Hrb).
  remember (Z.to_nat (bi_round (vd_proposed vd))) as n eqn:Hn.
  revert vd Hn. induction (lt_wf n) as [n _ IH]. intros vd -> Hvd Hlt.
  destruct (certified_quorum vd Hvd) as [li Hq].
  assert (He : bi_epoch (vd_proposed vd) = epoch) by (by destruct Hvd as (_ & _ & _ & _ & ? & _)).
  destruct (quorum_meet _ _ Hq Hq1) as (a & Ha & Hva & (v1 & Hv1 & Hvd1 & Hvli1)).
  pose proof Hva as (v & Hv & Hvd' & _).
  destruct (commit_vote_3chain a v1 Ha Hv1) as (He1 & Hr1 & (vdm & Hvdm & Hmp & Hmb & Hmr) & Hlock);
    [congruence..|]. rewrite Hvli1, Hli1 in *.
  destruct (honest_inv a Ha) as (vvs & sd & _ & Hinv).
  apply certified_step; [done|].
  assert (Hround : v_round v = bi_round (vd_proposed vd)) by (unfold v_round; by rewrite Hvd').
  destruct (Z.lt_trichotomy (v_round v) (v_round v1)) as [Hl|[Heq|Hg]].
  - (* the child of the commit *)
    rewrite (certified_unique vd vdm), Hmb; [apply rtc_refl|done..|lia].
  - (* the grandchild *)
    assert (v = v1) as ->.
    { apply (inv_unique _ _ _ _ Hinv); [by left|by left| |done]. unfold v_epoch in *. congruence. }
    rewrite <- Hvd', <- Hmp. apply certified_step; [done|]. rewrite Hmb. apply rtc_refl.
  - (* a later block: its parent is certified and not older than the commit *)
    assert (Hpr : bi_round b ≤ bi_round (vd_parent vd)).
    { rewrite <- Hvd'. apply Hlock; [done|unfold v_epoch; congruence|done]. }
    destruct (voted_parent _ _ _ Ha Hva He) as (Hdown & vd' & Hvd'' & Hprop); [lia|].
    rewrite <- Hprop in *.
    destruct (decide (bi_round (vd_proposed vd') = bi_round b)) as [Hsame|Hdiff].
    + rewrite <- Hvdb' in *. rewrite (certified_unique vd' vdb); [apply rtc_refl|done..].
    + eapply IH; [|reflexivity|done|lia]. lia.
Qed.

Lemma commits_agree_3chain b1 b2 :
  committed b1 → committed b2 → extends b1 b2 ∨ extends b2 b1.
Proof.
  intros H1 H2. destruct (committed_certified_3chain b1 H1) as (vd1 & Hc1 & Hp1).
  destruct (committed_certified_3chain b2 H2) as (vd2 & Hc2 & Hp2).
  destruct (Z.le_ge_cases (bi_round b1) (bi_round b2)); [right|left].
  - eapply (commit_order b1 b2 vd1 vd2); eauto using certified_extends_3chain.
  - eapply (commit_order b2 b1 vd2 vd1); eauto using certified_extends_3chain.
Qed.
End three_chain.
End safety.
