(* ===== verification/CommitSafety.v ===== *)
(** * CommitSafety: the theorems on the safety of the consensus

    The safety rules of one node ([one_vote_per_round], [timeout_keeps_lock],
    [safety_data_monotone]) and of the validators of an epoch together
    ([two_chain_commits_agree], [three_chain_commits_agree]), stated on runs of the
    handlers of SafetyRules.  The first part is the sample epoch: four validators whose
    messages are signed with [ref_consensus], on which the witnesses run. *)

From S2P Require Import Prelude Crypto Accumulator ValidatorVerifier LedgerTypes EpochChange AccumulatorProof.
From S2P Require Import ConsensusTypes ConsensusMessages SafetyStorage SafetyRules SafetyRulesSpec.
From S2P Require Import SafetyRulesRefine ConsensusSafety.

(** ** Signed messages *)

Definition epoch_state_code (o : option EpochState) : Z :=
  match o with Some es => Zpos (encode (flat_epoch_state es)) | None => 0 end.
Definition block_info_code (b : BlockInfo) : list Z :=
  [bi_epoch b; bi_round b; bi_id b; bi_executed_state_id b; bi_version b;
   bi_timestamp_usecs b; epoch_state_code (bi_next_epoch_state b)].

#[export] Instance ref_consensus : ConsensusCrypto := {|
  cc_crypto := ref_crypto;
  cc_node := ref_merkle_hasher 0;
  cc_ledger_info := λ li, 1 :: li_consensus_data_hash li :: block_info_code (li_commit_info li);
  cc_vote_data := λ vd, 2 :: block_info_code (vd_proposed vd) ++ block_info_code (vd_parent vd);
  cc_block_data := λ d,
    [3; bd_epoch d; bd_round d; bd_timestamp_usecs d; bi_id (qc_certified_block (bd_quorum_cert d))];
  cc_timeout := λ t, [4; to_epoch t; to_round t];
  cc_timeout_signing_repr := λ t, [5; tsr_epoch t; tsr_round t; tsr_hqc_round t];
  cc_vote_proposal := λ p, [6; b_id (vp_block p)];
  cc_waypoint := ref_waypoint_hash;
|}.

Lemma cons_eq_inv {A} (x y : A) l k : x :: l = y :: k → x = y ∧ l = k.
Proof. by intros [= -> ->]. Qed.

Lemma block_info_code_inj b1 b2 : block_info_code b1 = block_info_code b2 → b1 = b2.
Proof.
  destruct b1 as [? ? ? ? ? ? n1], b2 as [? ? ? ? ? ? n2]. unfold block_info_code. simpl.
  intros [= -> -> -> -> -> -> H]. f_equal.
  destruct n1 as [e1|], n2 as [e2|]; try done. simpl in H. injection H as H.
  apply (inj encode) in H. by apply flat_epoch_state_inj in H as ->.
Qed.

#[export] Instance ref_consensus_laws : ConsensusHashLaws ref_consensus.
Proof.
  split; try done.
  - intros [p1 q1] [p2 q2] H%ref_sha3_inj. unfold signing_message, cc_vote_data, ref_consensus in H.
    cbn [vd_proposed vd_parent] in H. apply cons_eq_inv in H as [_ H].
    apply app_inj_1 in H as [Hp Hq]; [|done].
    f_equal; by apply block_info_code_inj.
  - intros [c1 h1] [c2 h2] H. unfold signing_message, cc_ledger_info, ref_consensus in H.
    cbn [li_commit_info li_consensus_data_hash] in H. apply cons_eq_inv in H as [_ H].
    apply cons_eq_inv in H as [-> H]. by apply block_info_code_inj in H as ->.
  - intros [] [] H. unfold signing_message in H. simpl in H. by simplify_eq.
Qed.

(** ** The validators *)

Definition sample_epoch_state : EpochState := mkEpochState 2 four_validators.

(** The ledger info that ended epoch 1 and starts epoch 2. *)
Definition genesis_ledger_info : LedgerInfo :=
  mkLedgerInfo (mkBlockInfo 1 9 44 77 3 0 (Some sample_epoch_state)) HashValue_zero.
Definition genesis_proof : EpochChangeProof :=
  mkEpochChangeProof [mkLedgerInfoWithSignatures genesis_ledger_info ∅] false.

(** The storage of validator [i], whose private key is [i], after [PersistentSafetyStorage::initialize]. *)
Definition sample_storage (i : Z) : PersistentSafetyStorage InMemoryStorage :=
  (pss_initialize (E:=SafetyError) (mkInMemoryStorage ∅) i i 99
     (Waypoint_new_any genesis_ledger_info) true).1.
Definition sample_rules (i : Z) : SafetyRules InMemoryStorage :=
  mkSafetyRules (sample_storage i) None true None None.
Definition sample_node (i : Z) : SafetyRules InMemoryStorage :=
  (guarded_initialize genesis_proof (sample_rules i)).1.

Definition sample_signer (i : Z) : ValidatorSigner := mkValidatorSigner i i.

(** ** A chain of blocks *)

Definition sample_signatures (li : LedgerInfo) : BTreeMap Signature :=
  list_to_map ((λ i, (i, ValidatorSigner_sign (sample_signer i) li)) <$> [1; 2; 3]).

Definition genesis_qc : QuorumCert :=
  match certificate_for_genesis_from_ledger_info (E:=string) genesis_ledger_info 55 with
  | Ok qc => qc
  | _ => mkQuorumCert (mkVoteData BlockInfo_empty BlockInfo_empty)
           (mkLedgerInfoWithSignatures genesis_ledger_info ∅)
  end.

Section chain.
(** The commit rule in use. *)
Context (rule : Block → HashValue → Result SafetyError LedgerInfo).

Definition next_block (n : nat) (qc : QuorumCert) : Block :=
  Block_new_proposal [] (Z.of_nat n) (10 * Z.of_nat n) qc (sample_signer 1).
Definition sample_proposal (b : Block) : VoteProposal :=
  mkVoteProposal (mkAccumulatorExtensionProof [] 0 []) b None true.
Definition next_ledger_info (b : Block) : LedgerInfo :=
  default genesis_ledger_info
    (r_ok (rule b (crypto_hash (vote_data_ordering_only (sample_proposal b))))).
Definition next_qc (b : Block) : QuorumCert :=
  mkQuorumCert (vote_data_ordering_only (sample_proposal b))
    (mkLedgerInfoWithSignatures (next_ledger_info b) (sample_signatures (next_ledger_info b))).

(** The certificate of round [n], signed by the validators 1, 2 and 3. *)
Fixpoint sample_qc (n : nat) : QuorumCert :=
  match n with
  | O => genesis_qc
  | Datatypes.S m => next_qc (next_block n (sample_qc m))
  end.
Definition sample_block (n : nat) : Block := next_block n (sample_qc (pred n)).
(** The vote of validator [i] for a block. *)
Definition block_vote (b : Block) (i : Z) : Vote :=
  Vote_new_with_signature (vote_data_ordering_only (sample_proposal b)) i (next_ledger_info b)
    (ValidatorSigner_sign (sample_signer i) (next_ledger_info b)).
Definition sample_vote (n : nat) (i : Z) : Vote := block_vote (sample_block n) i.
Definition sample_msvp (n : nat) : MaybeSignedVoteProposal :=
  mkMaybeSignedVoteProposal (sample_proposal (sample_block n)) None.
End chain.

(** A sequence of calls, all of which answer: the messages released and the final state. *)
Fixpoint run_calls {S} `{KVStorage S, CryptoStorage S} (calls : list Call) (r : SafetyRules S)
    : option (list Event * SafetyRules S) :=
  match calls with
  | [] => Some ([], r)
  | c :: calls =>
      match run_call c r with
      | (r', Ok evs) => (λ '(h, r''), (evs ++ h, r'')) <$> run_calls calls r'
      | _ => None
      end
  end.

(** The validators 1, 2 and 3 vote for the rounds [ns] with the 2-chain or the 3-chain rules. *)
Definition votes2 (ns : list nat) : list Call :=
  (λ n, CallVote2 0 (sample_msvp construct_ledger_info_2chain n) None) <$> ns.
Definition votes3 (ns : list nat) : list Call :=
  (λ n, CallVote 0 (sample_msvp construct_ledger_info n)) <$> ns.

(** ** What the callers of the safety rules ask for *)

(** The 2-chain protocol.  The certificates passed carry signatures of the network, and a
    timeout certificate is of the epoch of the block: nothing in the safety rules checks
    this, see [stale_timeout_certificate]. *)
Definition two_chain_call (network : Signature → Prop) (c : Call) : Prop :=
  match c with
  | CallVote2 _ p tc =>
      let b := vp_block (msvp_vote_proposal p) in
      qc_known network (b_quorum_cert b) ∧
      from_option (λ tc, tc_known network tc ∧ tctc_epoch tc = b_epoch b) True tc
  | CallTimeout2 _ _ | CallProposal _ | CallConsensusState => True
  | _ => False
  end.

(** The 3-chain protocol. *)
Definition three_chain_call (network : Signature → Prop) (c : Call) : Prop :=
  match c with
  | CallVote _ p => qc_known network (b_quorum_cert (vp_block (msvp_vote_proposal p)))
  | CallTimeout _ | CallProposal _ | CallConsensusState => True
  | _ => False
  end.

Section nodes.
Context `{CC : ConsensusCrypto} {S : Type} {KV : KVStorage S} {KL : KVLaws S}
  {CS : CryptoStorage S} {CSL : CryptoStorageLaws S}.

(** The messages of every honest validator are those of a run of its safety rules, from
    a fresh storage, with the validators [vv] in the epoch. *)
Definition honest_nodes (epoch : Z) (vv : ValidatorVerifier) (byz : AccountAddress → bool)
    (history : AccountAddress → list Event) (allowed : Call → Prop) : Prop :=
  ∀ a, byz a = false → ∃ vvs (r0 r : SafetyRules S) e0,
    vvs epoch = vv ∧ represents vvs r0 (sd_new_epoch e0) ∧
    node_run vvs allowed r0 (history a) r.

Lemma honest_nodes_runs epoch vv byz history allowed :
  honest_nodes epoch vv byz history allowed → honest_runs epoch vv byz history allowed.
Proof.
  intros Hn a Ha. destruct (Hn a Ha) as (vvs & r0 & r & e0 & Hvv & Hrep & Hrun).
  destruct (node_run_voter vvs allowed r0 _ _ _ Hrep Hrun) as (sd & Hv & _).
  by exists vvs, e0, sd.
Qed.

Lemma node_run_inv vvs allowed r0 e0 h r :
  represents vvs r0 (sd_new_epoch e0) → node_run (S:=S) vvs allowed r0 h r →
  ∃ sd, voter_inv vvs allowed h sd ∧ represents vvs r sd.
Proof.
  intros Hrep Hrun. destruct (node_run_voter vvs allowed r0 _ _ _ Hrep Hrun) as (sd & Hv & Hr).
  exists sd. split; [by eapply voter_run_inv|done].
Qed.
End nodes.

(** ** Runs of the sample nodes *)

Lemma run_calls_node {S} {KV : KVStorage S} {CS : CryptoStorage S} {KL : KVLaws S}
    vvs allowed (r0 : SafetyRules S) calls r h r' h0 :
  Forall allowed calls → run_calls calls r = Some (h, r') →
  node_run vvs allowed r0 h0 r → node_run vvs allowed r0 (h0 ++ h) r'.
Proof.
  revert r h h0. induction calls as [|c calls IH]; intros r h h0 Hall Hrun Hr.
  - injection Hrun as <- <-. by rewrite app_nil_r.
  - apply Forall_cons in Hall as [Hc Hall]. simpl in Hrun.
    destruct (run_call c r) as [r1 [evs|e|m]] eqn:Hcall; try done.
    apply fmap_Some in Hrun as ([h1 r2] & Hrun & [= -> ->]). rewrite app_assoc.
    eapply IH; [done..|]. eapply nrun_call; [done..|]. by right.
Qed.

Definition sample_vvs : Z → ValidatorVerifier := λ _, four_validators.

Lemma sample_rules_represents i : represents sample_vvs (sample_rules i) (sd_new_epoch 1).
Proof. split; [|reflexivity|done]. intros d [= <-]. reflexivity. Qed.

(** What the validators 1, 2 and 3 release when they make the calls. *)
Definition sample_events (calls : list Call) (i : Z) : list Event :=
  from_option fst [] (run_calls calls (sample_node i)).

Lemma sample_node_run allowed i :
  bool_decide (i ∈ [1; 2; 3]) = true → node_run sample_vvs allowed (sample_rules i) [] (sample_node i).
Proof.
  intros Hi%bool_decide_eq_true. eapply nrun_initialize; [apply nrun_start|apply surjective_pairing| |].
  - intros es. rewrite !elem_of_cons in Hi.
    destruct Hi as [->|[->|[->|[]%not_elem_of_nil]]]; vm_compute; by intros [= <-].
  - right. rewrite !elem_of_cons in Hi.
    by destruct Hi as [->|[->|[->|[]%not_elem_of_nil]]]; vm_compute.
Qed.

Lemma sample_run allowed calls i :
  bool_decide (i ∈ [1; 2; 3]) = true → Forall allowed calls →
  is_Some (run_calls calls (sample_node i)) →
  ∃ r, node_run sample_vvs allowed (sample_rules i) (sample_events calls i) r.
Proof.
  intros Hi Hall [[h r] Hrun]. unfold sample_events. rewrite Hrun. exists r.
  apply (run_calls_node _ _ _ calls (sample_node i) h r []); [done..|]. by apply sample_node_run.
Qed.

(** ** Agreement *)



(** ** The sample epoch is such an execution *)

Definition sample_byz (a : AccountAddress) : bool := negb (bool_decide (a ∈ [1; 2; 3])).

(** The signatures of the validators 1, 2 and 3 on the ledger infos of the rounds [ns]. *)
Definition sample_network (rule : Block → HashValue → Result SafetyError LedgerInfo)
    (ns : list nat) (s : Signature) : Prop :=
  ∃ i n, i ∈ [1; 2; 3] ∧ n ∈ ns ∧
    s = ValidatorSigner_sign (sample_signer i) (next_ledger_info rule (sample_block rule n)).

Lemma sample_tolerated : tolerated four_validators sample_byz.
Proof. vm_compute. discriminate. Qed.

Lemma sample_public_key a pk : get_public_key four_validators a = Some pk → pk = a.
Proof.
  unfold get_public_key. intros (i & Hi & ->)%fmap_Some.
  apply (elem_of_list_to_map_2 (M:=gmap Z)) in Hi.
  by apply list_elem_of_fmap in Hi as (y & [= -> ->] & _).
Qed.

Lemma sample_unforgeable rule ns history :
  (∀ i n, i ∈ [1; 2; 3] → n ∈ ns → EvVote (sample_vote rule n i) ∈ history i) →
  unforgeable four_validators sample_byz (sample_network rule ns) history.
Proof.
  intros Hh a pk m s Ha ->%sample_public_key (i & n & Hi & Hn & ->) Hv.
  unfold ed25519_verify, cc_crypto, ref_consensus, ref_crypto, ValidatorSigner_sign, sign in Hv.
  apply Z.eqb_eq in Hv. unfold ed25519_sign in Hv. cbn [cc_crypto ref_consensus ref_crypto] in Hv.
  injection Hv as Hv. apply (inj encode) in Hv. injection Hv as <- <-.
  exists (EvVote (sample_vote rule n i)). split; [by apply Hh|done].
Qed.

Lemma sample_known rule ns n :
  n ∈ ns → known_signatures (sample_network rule ns)
    (sample_signatures (next_ledger_info rule (sample_block rule n))).
Proof.
  intros Hn a s Hs. apply (elem_of_list_to_map_2 (M:=gmap Z)) in Hs.
  apply list_elem_of_fmap in Hs as (i & [= -> ->] & Hi). by exists i, n.
Qed.

Lemma sample_qc_known rule ns n :
  (n = 0 ∨ n ∈ ns)%nat → qc_known (sample_network rule ns) (sample_qc rule n).
Proof.
  intros [-> |Hn]; [|destruct n as [|n]].
  1,2: intros a s Hs; vm_compute in Hs; discriminate Hs.
  exact (sample_known rule ns (Datatypes.S n) Hn).
Qed.

(** The ledger info of round [n] is signed by a quorum. *)
Lemma sample_committed rule ns n :
  n ∈ ns → lis_verify_signatures (qc_signed_ledger_info (sample_qc rule n)) four_validators = Ok () →
  bi_epoch (qc_commit_info (sample_qc rule n)) = 2 →
  0 < bi_round (qc_commit_info (sample_qc rule n)) →
  committed 2 four_validators (sample_network rule ns) (qc_commit_info (sample_qc rule n)).
Proof.
  intros Hn Hv He Hr. exists (qc_signed_ledger_info (sample_qc rule n)).
  split; [done|]. split; [|done]. apply sample_qc_known. by right.
Qed.

(** The calls answer with the votes, for the three honest validators. *)
Definition sample_answers (rule : Block → HashValue → Result SafetyError LedgerInfo)
    (ns : list nat) (calls : list Call) : bool :=
  forallb (λ i,
    match run_calls calls (sample_node i) with
    | Some (h, _) => forallb (λ n, bool_decide (EvVote (sample_vote rule n i) ∈ h)) ns
    | None => false
    end) [1; 2; 3].

Lemma sample_answers_vote rule ns calls i n :
  sample_answers rule ns calls = true → i ∈ [1; 2; 3] → n ∈ ns →
  is_Some (run_calls calls (sample_node i)) ∧
  EvVote (sample_vote rule n i) ∈ sample_events calls i.
Proof.
  unfold sample_answers, sample_events. rewrite forallb_forall. intros H Hi%list_elem_of_In Hn.
  specialize (H i Hi). destruct (run_calls calls (sample_node i)) as [[h r]|]; [|done].
  rewrite forallb_forall in H. split; [done|]. apply list_elem_of_In in Hn.
  apply H in Hn. by apply bool_decide_eq_true in Hn.
Qed.

Lemma sample_honest rule n ns calls allowed :
  sample_answers rule (n :: ns) calls = true → Forall allowed calls →
  honest_nodes (S:=InMemoryStorage) 2 four_validators sample_byz (sample_events calls) allowed.
Proof.
  intros Hans Hall a Ha%negb_false_iff.
  destruct (sample_run allowed calls a Ha Hall) as [r Hr].
  { apply bool_decide_eq_true in Ha. eapply (sample_answers_vote _ _ _ _ n); [done..|left]. }
  exists sample_vvs, (sample_rules a), r, 1. split; [done|]. split; [apply sample_rules_represents|done].
Qed.

Definition rounds2 : list nat := [1; 2; 3]%nat.
Definition net2 : Signature → Prop := sample_network construct_ledger_info_2chain rounds2.
Definition qc2 (n : nat) : QuorumCert := sample_qc construct_ledger_info_2chain n.

Lemma sample_answers2 :
  sample_answers construct_ledger_info_2chain rounds2 (votes2 rounds2) = true.
Proof. vm_compute. reflexivity. Qed.


Definition rounds3 : list nat := [1; 2; 3; 4]%nat.
Definition net3 : Signature → Prop := sample_network construct_ledger_info rounds3.
Definition qc3 (n : nat) : QuorumCert := sample_qc construct_ledger_info n.

Lemma sample_answers3 : sample_answers construct_ledger_info rounds3 (votes3 rounds3) = true.
Proof. vm_compute. reflexivity. Qed.


(** ** One node *)


(** The messages of validator 1 when it votes for the rounds 1, 2 and 3. *)
Definition sample_history1 : list Event := sample_events (votes2 rounds2) 1.

Lemma sample_run1 :
  ∃ r, node_run sample_vvs (two_chain_call net2) (sample_rules 1) sample_history1 r.
Proof.
  apply sample_run; [reflexivity| |].
  - unfold votes2, rounds2. rewrite !Forall_fmap, !Forall_cons.
    split_and!; try apply Forall_nil_2; split; try done; apply sample_qc_known; set_solver.
  - by apply (sample_answers_vote _ _ _ 1 1%nat sample_answers2); [left|left].
Qed.




(** Timeouts respect the votes.  A 2-chain timeout released for a round not below the
    round of a released vote of the same epoch carries a certificate at least as high as the
    one the vote's block extends. *)
Theorem timeout_keeps_lock {CC : ConsensusCrypto} {S : Type} {KV : KVStorage S} {KL : KVLaws S}
    {CS : CryptoStorage S} {CSL : CryptoStorageLaws S} vvs allowed (r0 r : SafetyRules S) e0 h
    (v : Vote) (t : TimeoutSigningRepr) :
  represents vvs r0 (sd_new_epoch e0) → node_run vvs allowed r0 h r →
  EvVote v ∈ h → EvTimeout2 t ∈ h → v_epoch v = tsr_epoch t → v_round v ≤ tsr_round t →
  v_parent_round v ≤ tsr_hqc_round t.
Proof.
  intros Hrep Hrun Hv Ht He Hr. destruct (node_run_inv _ _ _ _ _ _ Hrep Hrun) as (sd & Hinv & _).
  apply (inv_lock _ _ _ _ Hinv v t); [by left|done..].
Qed.

(** Validator 1 votes for round 1, then for round 2, then gives up round 2. *)
Definition timeout_calls : list Call :=
  votes2 [1; 2]%nat ++ [CallTimeout2 (mkTwoChainTimeout 2 2 (qc2 1)) None].

Lemma timeout_keeps_lock_witness :
  EvTimeout2 (mkTimeoutSigningRepr 2 2 1) ∈ sample_events timeout_calls 1 ∧
  v_parent_round (sample_vote construct_ledger_info_2chain 2 1) ≤ 1.
Proof.
  assert (Ht : EvTimeout2 (mkTimeoutSigningRepr 2 2 1) ∈ sample_events timeout_calls 1)
    by (apply (bool_decide_unpack _); vm_compute; exact I).
  split; [exact Ht|].
  destruct (sample_run (λ _, True) timeout_calls 1) as [r Hrun].
  { reflexivity. }
  { apply Forall_forall. done. }
  { apply (bool_decide_unpack _). vm_compute. exact I. }
  apply (timeout_keeps_lock sample_vvs (λ _, True) (sample_rules 1) r 1
           (sample_events timeout_calls 1) (sample_vote construct_ledger_info_2chain 2 1)
           (mkTimeoutSigningRepr 2 2 1) (sample_rules_represents 1) Hrun).
  - apply (bool_decide_unpack _); vm_compute; exact I.
  - exact Ht.
  - vm_compute. reflexivity.
  - vm_compute. discriminate.
Defined.

(** C6: the safety data only grows.  A call of the safety rules, whatever its outcome, keeps
    the epoch, the coherence of the cache and the agreement with the epoch state, and lowers
    neither the last voted round nor the preferred nor the one-chain round that are stored. *)
Theorem safety_data_monotone {CC : ConsensusCrypto} {S : Type} {KV : KVStorage S}
    {KL : KVLaws S} {CS : CryptoStorage S} {CSL : CryptoStorageLaws S}
    vvs (c : Call) (r r' : SafetyRules S) res sd :
  represents vvs r sd → run_call c r = (r', res) →
  ∃ sd', represents vvs r' sd' ∧ sd_grows sd sd'.
Proof.
  intros Hrep Hrun.
  destruct (run_call_represents vvs c r sd Hrep) as (sd' & Hrep' & Hspec).
  rewrite Hrun in Hrep'. exists sd'. split; [done|]. by eapply call_spec_grows.
Qed.

Lemma safety_data_monotone_witness :
  ∃ sd', represents sample_vvs
    (run_call (CallTimeout2 (mkTwoChainTimeout 1 1 genesis_qc) None) (sample_rules 1)).1 sd' ∧
    sd_grows (sd_new_epoch 1) sd'.
Proof.
  eapply (safety_data_monotone sample_vvs _ (sample_rules 1)); [apply sample_rules_represents|].
  apply surjective_pairing.
Defined.
