(* ===== verification/SafetyGaps.v ===== *)
(** * SafetyGaps: what the safety rules do not check

    Three executions of the handlers that show where the rules of
    src/consensus/safety-rules/src rely on their caller: a timeout certificate of another
    epoch is accepted and lets honest validators commit conflicting blocks; a commit vote can
    be turned into a second vote for a round; and an initialization whose write fails late
    leaves the validators of the old epoch in charge of the new one. *)

From S2P Require Import Prelude Crypto Accumulator ValidatorVerifier LedgerTypes EpochChange.
From S2P Require Import AccumulatorProof ConsensusTypes ConsensusMessages SafetyStorage.
From S2P Require Import SafetyStorage SafetyRules SafetyRulesSpec CommitSafety.

(** ** A timeout certificate of another epoch *)

(** In epoch 1 the first five rounds timed out; the same validators run epoch 2. *)
Definition stale_tc : TwoChainTimeoutCertificate :=
  mkTwoChainTimeoutCertificate (mkTwoChainTimeout 1 5 genesis_qc)
    (list_to_map ((λ i, (i, (0, ValidatorSigner_sign (sample_signer i)
                                  (mkTimeoutSigningRepr 1 5 0)))) <$> [1; 2; 3])).

(** A block of round 6 on the genesis block, and its child. *)
Definition fork_block6 : Block := next_block 6 genesis_qc.
Definition fork_qc6 : QuorumCert := next_qc construct_ledger_info_2chain fork_block6.
Definition fork_block7 : Block := next_block 7 fork_qc6.
Definition fork_qc7 : QuorumCert := next_qc construct_ledger_info_2chain fork_block7.
Definition fork_msvp (b : Block) : MaybeSignedVoteProposal :=
  mkMaybeSignedVoteProposal (sample_proposal b) None.

(** Votes for the rounds 1 and 2, which commit the block of round 1, then for the fork. *)
Definition fork_calls : list Call :=
  votes2 [1; 2]%nat ++
  [CallVote2 0 (fork_msvp fork_block6) (Some stale_tc); CallVote2 0 (fork_msvp fork_block7) None].

Definition commit_qc2 : QuorumCert := sample_qc construct_ledger_info_2chain 2.
Definition sample_block2 : Block := sample_block construct_ledger_info_2chain 2.

(** C36: the epoch of a timeout certificate is not checked.  Three honest validators that
    have voted for the rounds 1 and 2 of epoch 2, and so committed the block of round 1,
    accept a timeout certificate of epoch 1 and vote for blocks of the rounds 6 and 7 on the
    genesis block, which commits the block of round 6: with the certificate made of their
    votes both ledger infos verify, and the committed blocks are not on one chain. *)
Theorem stale_timeout_certificate :
  tctc_epoch stale_tc = 1 ∧ b_epoch fork_block6 = 2 ∧
  (∀ i, i ∈ [1; 2; 3] → ∃ h r, run_calls fork_calls (sample_node i) = Some (h, r) ∧
     Forall (λ b, EvVote (block_vote construct_ledger_info_2chain b i) ∈ h)
       [sample_block2; fork_block6; fork_block7]) ∧
  QuorumCert_verify commit_qc2 four_validators = Ok () ∧
  QuorumCert_verify fork_qc6 four_validators = Ok () ∧
  QuorumCert_verify fork_qc7 four_validators = Ok () ∧
  bi_round (qc_commit_info commit_qc2) = 1 ∧
  qc_commit_info fork_qc7 = qc_certified_block fork_qc6 ∧
  bi_round (qc_commit_info fork_qc7) = 6 ∧
  bi_round (qc_parent_block fork_qc6) = 0.
Proof.
  split; [reflexivity|]. split; [reflexivity|]. split; [|by vm_compute].
  assert (H : forallb (λ i,
    match run_calls fork_calls (sample_node i) with
    | Some (h, _) => bool_decide (Forall (λ b,
        EvVote (block_vote construct_ledger_info_2chain b i) ∈ h)
        [sample_block2; fork_block6; fork_block7])
    | None => false
    end) [1; 2; 3] = true) by (vm_compute; reflexivity).
  rewrite forallb_forall in H. intros i Hi%list_elem_of_In. specialize (H i Hi).
  destruct (run_calls fork_calls (sample_node i)) as [[h r]|]; [|done].
  exists h, r. split; [done|]. by apply bool_decide_eq_true in H.
Qed.

(** ** A commit vote that is a vote *)

(** Another block in round 2, on the block of round 1. *)
Definition other_vote_data : VoteData :=
  let vd := qc_vote_data commit_qc2 in
  mkVoteData (mkBlockInfo 2 2 666 (bi_executed_state_id (vd_proposed vd)) 0
                (bi_timestamp_usecs (vd_proposed vd)) None) (vd_parent vd).
(** The ordered ledger info of round 3, with the hash of that vote data. *)
Definition ordered_li : LedgerInfoWithSignatures :=
  qc_signed_ledger_info (sample_qc construct_ledger_info_2chain 3).
Definition other_li : LedgerInfo :=
  mkLedgerInfo (lis_commit_info ordered_li) (crypto_hash other_vote_data).
Definition other_vote : Vote :=
  Vote_new_with_signature other_vote_data 1 other_li
    (ValidatorSigner_sign (sample_signer 1) other_li).

(** C37: [sign_commit_vote] does not look at the consensus data hash it signs.  A validator
    that has voted in round 2 can be asked for a commit vote whose ledger info carries the
    hash of a vote for another block of round 2: the signature it returns makes a vote that
    verifies, the second one of that validator for the round. *)
Theorem commit_vote_equivocates :
  match run_calls (votes2 [1; 2; 3]%nat) (sample_node 1) with
  | Some (h, r) =>
      EvVote (sample_vote construct_ledger_info_2chain 2 1) ∈ h ∧
      (guarded_sign_commit_vote ordered_li other_li r).2 = Ok (v_signature other_vote)
  | None => False
  end ∧
  Vote_verify other_vote four_validators = Ok () ∧
  v_epoch other_vote = v_epoch (sample_vote construct_ledger_info_2chain 2 1) ∧
  v_round other_vote = v_round (sample_vote construct_ledger_info_2chain 2 1) ∧
  v_vote_data other_vote ≠ v_vote_data (sample_vote construct_ledger_info_2chain 2 1).
Proof.
  split.
  - destruct (run_calls (votes2 [1; 2; 3]%nat) (sample_node 1)) as [[h r]|] eqn:H.
    + assert (Hb : match run_calls (votes2 [1; 2; 3]%nat) (sample_node 1) with
        | Some (h, r) =>
            bool_decide (EvVote (sample_vote construct_ledger_info_2chain 2 1) ∈ h)
            && match (guarded_sign_commit_vote ordered_li other_li r).2 with
               | Ok s => s =? v_signature other_vote
               | _ => false
               end
        | None => false
        end = true) by (vm_compute; reflexivity).
      rewrite H in Hb. apply andb_true_iff in Hb as [H1%bool_decide_eq_true H2].
      split; [done|]. destruct (guarded_sign_commit_vote _ _ _).2 as [s|e|m];
        [|discriminate H2..]. apply Z.eqb_eq in H2. rewrite H2. reflexivity.
    + vm_compute in H. discriminate H.
  - split; [vm_compute; reflexivity|]. split; [vm_compute; reflexivity|].
    split; [vm_compute; reflexivity|]. apply (bool_decide_unpack _). vm_compute. exact I.
Qed.

(** ** An initialization that fails late *)

(** A storage that writes and then, when [fs_armed], loses the answer. *)
Record FaultyStorage := mkFaultyStorage {
  fs_data : gmap string StoredValue;
  fs_armed : bool;
}.

#[export] Instance FaultyStorage_kv : KVStorage FaultyStorage := {|
  kv_get key := λ s, (s, ok_or (fs_data s !! key) (KeyNotSet key));
  kv_set key value := λ s,
    (mkFaultyStorage (<[key := value]> (fs_data s)) (fs_armed s),
     if fs_armed s && bool_decide (key = SAFETY_DATA) then Err (InternalError "timeout") else Ok ());
|}.

#[export] Instance FaultyStorage_laws : KVLaws FaultyStorage.
Proof.
  refine {| storage_view := fs_data |}.
  - done.
  - intros k s s' v [= <- H]. by apply ok_or_ok in H.
  - intros k v s s' H. by injection H as <- _.
  - intros k v s s' r H. injection H as <- _. by right.
  - intros k v s m. simpl. by destruct (_ && _).
Defined.

(** The end of epoch 2, with other validators for epoch 3. *)
Definition epoch3_state : EpochState :=
  mkEpochState 3 (mkValidatorVerifier
    (list_to_map ((λ i, (i, mkValidatorConsensusInfo i 1)) <$> [1; 5; 6; 7])) 3 4).
Definition epoch3_li : LedgerInfo :=
  mkLedgerInfo (mkBlockInfo 2 8 45 78 9 100 (Some epoch3_state)) HashValue_zero.
Definition epoch3_proof : EpochChangeProof :=
  mkEpochChangeProof
    [mkLedgerInfoWithSignatures genesis_ledger_info ∅;
     mkLedgerInfoWithSignatures epoch3_li (sample_signatures epoch3_li)] false.

(** Validator 1 in epoch 2, on that storage. *)
Definition faulty_node : SafetyRules FaultyStorage :=
  let p := sr_persistent_storage (sample_node 1) in
  mkSafetyRules (mkPersistentSafetyStorage true (pss_cached_safety_data p)
                   (mkFaultyStorage (ims_data (pss_internal_store p)) true))
    None true (sr_validator_signer (sample_node 1)) (sr_epoch_state (sample_node 1)).

(** An initialization can change the stored epoch without the epoch state.  When the
    write of the new epoch's safety data reaches the storage but reports an error,
    [initialize] returns that error with the safety data already of epoch 3 while the
    validator set in use is still the one of epoch 2, which then judges the certificates of
    epoch 3. *)
Theorem torn_initialization :
  let '(r, res) := guarded_initialize epoch3_proof faulty_node in
  res = Err (SecureStorageUnexpectedError (InternalError "timeout")) ∧
  pss_view (sr_persistent_storage r) = Some (SVSafetyData (mkSafetyData 3 0 0 0 None)) ∧
  sr_epoch_state r = Some sample_epoch_state ∧
  (∃ r', sr_storage pss_safety_data r = (r', Ok (mkSafetyData 3 0 0 0 None)) ∧
         sr_epoch_state r' = Some sample_epoch_state).
Proof.
  vm_compute. split_and!; try reflexivity. eexists. split; reflexivity.
Qed.
