(* ===== verification/PendingVotes.v ===== *)
(** * PendingVotes: aggregating the votes of a round

    Models src/consensus/src/pending_votes.rs, and shows that the certificates it builds
    from verified votes verify, that a validator counts for one ledger info only, and that
    a quorum certificate is built as soon as there is a quorum. *)

From S2P Require Import Prelude Crypto Accumulator ValidatorVerifier LedgerTypes EpochChange.
From S2P Require Import AccumulatorProof ConsensusTypes ConsensusMessages SafetyRules.
From S2P Require Import ConsensusSafety CommitSafety SafetyGaps.

Inductive VoteReceptionResult :=
| VoteAdded (voting_power : Z)
| DuplicateVote
| EquivocateVote
| NewQuorumCertificate (qc : QuorumCert)
| NewTimeoutCertificate (tc : TimeoutCertificate)
| New2ChainTimeoutCertificate (tc : TwoChainTimeoutCertificate)
| ErrorAddingVote (e : VerifyError)
| UnexpectedRound (vote_round current_round : Round)
| ReceptionPanic (msg : string) (* the process stops *).

Record PendingVotes := mkPendingVotes {
  pv_li_digest_to_votes : gmap HashValue LedgerInfoWithSignatures;
  pv_maybe_partial_tc : option TimeoutCertificate;
  pv_maybe_partial_2chain_tc : option TwoChainTimeoutCertificate;
  pv_author_to_vote : gmap Author Vote;
}.

Definition PendingVotes_new : PendingVotes := mkPendingVotes ∅ None None ∅.

Section pending_votes.
Context `{CC : ConsensusCrypto}.

(** Step 1: has the author voted before?  The result to return at once, if any. *)
Definition previous_vote_check (pv : PendingVotes) (vote : Vote) : option VoteReceptionResult :=
  match pv_author_to_vote pv !! v_author vote with
  | Some previously_seen_vote =>
      if crypto_hash (v_ledger_info vote) =? crypto_hash (v_ledger_info previously_seen_vote)
      then
        let new_timeout_vote := v_is_timeout vote && negb (v_is_timeout previously_seen_vote) in
        if new_timeout_vote then None else Some DuplicateVote
      else Some EquivocateVote
  | None => None
  end.

(** Step 4: the timeout certificate of the 3-chain rules. *)
Definition process_timeout (vote : Vote) (vv : ValidatorVerifier) (pv : PendingVotes)
    : PendingVotes * option VoteReceptionResult :=
  match v_timeout_signature vote with
  | None => (pv, None)
  | Some timeout_signature =>
      let timeout := generate_timeout vote in
      let partial_tc :=
        tc_add_signature (default (TimeoutCertificate_new timeout) (pv_maybe_partial_tc pv))
          (v_author vote) timeout_signature in
      (mkPendingVotes (pv_li_digest_to_votes pv) (Some partial_tc)
         (pv_maybe_partial_2chain_tc pv) (pv_author_to_vote pv),
       match check_voting_power vv (btree_keys (tc_signatures partial_tc)) with
       | Ok _ => Some (NewTimeoutCertificate partial_tc)
       | Err (TooLittleVotingPower _ _) => None
       | Err error => Some (ErrorAddingVote error)
       | Panic m => Some (ReceptionPanic m)
       end)
  end.

(** Step 4.1: the timeout certificate of the 2-chain rules. *)
Definition process_2chain_timeout (vote : Vote) (vv : ValidatorVerifier) (pv : PendingVotes)
    : PendingVotes * option VoteReceptionResult :=
  match v_two_chain_timeout vote with
  | None => (pv, None)
  | Some (timeout, signature) =>
      let partial_tc :=
        TwoChainTimeoutCertificate_add
          (default (TwoChainTimeoutCertificate_new timeout) (pv_maybe_partial_2chain_tc pv))
          (v_author vote) timeout signature in
      (mkPendingVotes (pv_li_digest_to_votes pv) (pv_maybe_partial_tc pv)
         (Some partial_tc) (pv_author_to_vote pv),
       match check_voting_power vv (btree_keys (tctc_signatures partial_tc)) with
       | Ok _ => Some (New2ChainTimeoutCertificate partial_tc)
       | Err (TooLittleVotingPower _ _) => None
       | Err error => Some (ErrorAddingVote error)
       | Panic m => Some (ReceptionPanic m)
       end)
  end.

Definition insert_vote (vote : Vote) (vv : ValidatorVerifier) (pv : PendingVotes)
    : PendingVotes * VoteReceptionResult :=
  let li_digest := crypto_hash (v_ledger_info vote) in
  match previous_vote_check pv vote with
  | Some result => (pv, result)
  | None =>
      let author_to_vote := <[v_author vote := vote]> (pv_author_to_vote pv) in
      let li_with_sig :=
        lis_add_signature
          (default (mkLedgerInfoWithSignatures (v_ledger_info vote) ∅)
             (pv_li_digest_to_votes pv !! li_digest))
          (v_author vote) (v_signature vote) in
      let pv :=
        mkPendingVotes (<[li_digest := li_with_sig]> (pv_li_digest_to_votes pv))
          (pv_maybe_partial_tc pv) (pv_maybe_partial_2chain_tc pv) author_to_vote in
      match check_voting_power vv (btree_keys (lis_signatures li_with_sig)) with
      | Ok _ => (pv, NewQuorumCertificate (mkQuorumCert (v_vote_data vote) li_with_sig))
      | Err (TooLittleVotingPower voting_power _) =>
          match process_timeout vote vv pv with
          | (pv, Some result) => (pv, result)
          | (pv, None) =>
              match process_2chain_timeout vote vv pv with
              | (pv, Some result) => (pv, result)
              | (pv, None) => (pv, VoteAdded voting_power)
              end
          end
      | Err error => (pv, ErrorAddingVote error)
      | Panic m => (pv, ReceptionPanic m)
      end
  end.

(** The votes of a round, in the order they arrive. *)
Fixpoint insert_votes (votes : list Vote) (vv : ValidatorVerifier) (pv : PendingVotes)
    : PendingVotes * list VoteReceptionResult :=
  match votes with
  | [] => (pv, [])
  | vote :: votes =>
      let '(pv, result) := insert_vote vote vv pv in
      let '(pv, results) := insert_votes votes vv pv in
      (pv, result :: results)
  end.

(** ** The invariant *)

Context {HLI : Inj (=) (=) (crypto_hash (T:=LedgerInfo))}.
Context (vv : ValidatorVerifier) (epoch : Z) (round : Round).

(** A vote of the round that was verified when it was received; a timeout comes with a
    certificate of an earlier round (later ones move the receiver to another round). *)
Record vote_accepted (v : Vote) : Prop := {
  va_verified : Vote_verify v vv = Ok ();
  va_epoch : v_epoch v = epoch;
  va_round : v_round v = round;
  va_timeout : ∀ t s, v_two_chain_timeout v = Some (t, s) → 0 ≤ tct_hqc_round t < round;
}.

Definition signatures_verify {T} `{CryptoHash T} (m : T) (sigs : BTreeMap Signature) : Prop :=
  ∀ a s, sigs !! a = Some s → vv_verify vv a m s = Ok ().

Record tc2_ok (pv : PendingVotes) (tc : TwoChainTimeoutCertificate) : Prop := {
  tc2_epoch : tctc_epoch tc = epoch;
  tc2_round : tctc_round tc = round;
  tc2_hqc : 0 ≤ tct_hqc_round (tctc_timeout tc) < round;
  tc2_qc : QuorumCert_verify (tct_quorum_cert (tctc_timeout tc)) vv = Ok ();
  tc2_signatures : ∀ a q s, tctc_signatures tc !! a = Some (q, s) →
    q ≤ tctc_highest_hqc_round tc ∧
    vv_verify vv a (mkTimeoutSigningRepr epoch round q) s = Ok () ∧
    ∃ v, pv_author_to_vote pv !! a = Some v ∧ v_is_timeout v = true;
  tc2_max : ∃ a s, tctc_signatures tc !! a = Some (tctc_highest_hqc_round tc, s);
}.

Record pv_inv (pv : PendingVotes) : Prop := {
  pvi_votes : ∀ a v, pv_author_to_vote pv !! a = Some v → v_author v = a ∧ vote_accepted v;
  pvi_digest : ∀ d lis, pv_li_digest_to_votes pv !! d = Some lis →
    d = crypto_hash (lis_ledger_info lis) ∧
    signatures_verify (lis_ledger_info lis) (lis_signatures lis);
  pvi_voters : ∀ a li,
    (∃ lis, pv_li_digest_to_votes pv !! crypto_hash li = Some lis ∧
            is_Some (lis_signatures lis !! a)) ↔
    (∃ v, pv_author_to_vote pv !! a = Some v ∧ v_ledger_info v = li);
  pvi_tc : ∀ tc, pv_maybe_partial_tc pv = Some tc →
    tc_timeout tc = mkTimeout epoch round ∧ signatures_verify (tc_timeout tc) (tc_signatures tc);
  pvi_tc2 : ∀ tc, pv_maybe_partial_2chain_tc pv = Some tc → tc2_ok pv tc;
}.

Lemma Vote_verify_ok v :
  Vote_verify v vv = Ok () →
  li_consensus_data_hash (v_ledger_info v) = crypto_hash (v_vote_data v) ∧
  vv_verify vv (v_author v) (v_ledger_info v) (v_signature v) = Ok () ∧
  (∀ s, v_timeout_signature v = Some s →
     vv_verify vv (v_author v) (generate_timeout v) s = Ok ()) ∧
  (∀ t s, v_two_chain_timeout v = Some (t, s) →
     tct_epoch t = v_epoch v ∧ tct_round t = v_round v ∧
     QuorumCert_verify (tct_quorum_cert t) vv = Ok () ∧
     vv_verify vv (v_author v) (tct_signing_format t) s = Ok ()) ∧
  VoteData_verify (v_vote_data v) = Ok ().
Proof.
  unfold Vote_verify. intros H. r_inv H. split; [by apply Z.eqb_eq|].
  split; [by destruct a1|]. split; [|split; [|done]].
  - intros s Hs'. rewrite Hs' in Hs2. apply r_map_err_ok in Hs2. by destruct a2.
  - intros t s Hs'. rewrite Hs' in Hs3. r_inv Hs3.
    split_and!; [lia|lia|by destruct a5|by destruct a3].
Qed.

(** ** Storing the vote *)

Definition store_vote (vote : Vote) (pv : PendingVotes) : PendingVotes :=
  mkPendingVotes
    (<[crypto_hash (v_ledger_info vote) :=
         lis_add_signature
           (default (mkLedgerInfoWithSignatures (v_ledger_info vote) ∅)
              (pv_li_digest_to_votes pv !! crypto_hash (v_ledger_info vote)))
           (v_author vote) (v_signature vote)]> (pv_li_digest_to_votes pv))
    (pv_maybe_partial_tc pv) (pv_maybe_partial_2chain_tc pv)
    (<[v_author vote := vote]> (pv_author_to_vote pv)).

(** The author is new, or voted for the same ledger info without a timeout. *)
Lemma previous_vote_none pv vote v :
  previous_vote_check pv vote = None → pv_author_to_vote pv !! v_author vote = Some v →
  v_ledger_info v = v_ledger_info vote ∧ v_is_timeout vote = true ∧ v_is_timeout v = false.
Proof.
  unfold previous_vote_check. intros Hc Hv. rewrite Hv in Hc.
  destruct (Z.eqb_spec (crypto_hash (v_ledger_info vote)) (crypto_hash (v_ledger_info v)))
    as [Heq|]; [|done].
  apply HLI in Heq. destruct (v_is_timeout vote), (v_is_timeout v); simpl in Hc; done.
Qed.

Lemma previous_lis pv vote :
  pv_inv pv →
  lis_ledger_info (default (mkLedgerInfoWithSignatures (v_ledger_info vote) ∅)
    (pv_li_digest_to_votes pv !! crypto_hash (v_ledger_info vote))) = v_ledger_info vote ∧
  signatures_verify (v_ledger_info vote)
    (lis_signatures (default (mkLedgerInfoWithSignatures (v_ledger_info vote) ∅)
      (pv_li_digest_to_votes pv !! crypto_hash (v_ledger_info vote)))).
Proof.
  intros Hinv. destruct (pv_li_digest_to_votes pv !! _) as [lis|] eqn:Hl; simpl.
  - destruct (pvi_digest _ Hinv _ _ Hl) as [Hd Hs]. apply HLI in Hd. by rewrite Hd.
  - split; [done|]. intros a s Hs. by rewrite lookup_empty in Hs.
Qed.

Lemma or_insert_signatures_verify {T} `{CryptoHash T} (m : T) a s sigs :
  vv_verify vv a m s = Ok () → signatures_verify m sigs → signatures_verify m (or_insert a s sigs).
Proof.
  intros Hv Hs b t. rewrite or_insert_lookup. destruct (sigs !! b) eqn:Hb.
  - intros [= <-]. by apply Hs.
  - case_decide as Hab; [|done]. intros [= <-]. by subst.
Qed.

(** Who is counted for a ledger info. *)
Lemma store_vote_voters vote pv a li :
  previous_vote_check pv vote = None → pv_inv pv →
  (∃ lis, pv_li_digest_to_votes (store_vote vote pv) !! crypto_hash li = Some lis ∧
          is_Some (lis_signatures lis !! a)) ↔
  (∃ v, pv_author_to_vote (store_vote vote pv) !! a = Some v ∧ v_ledger_info v = li).
Proof.
  intros Hprev Hinv. pose proof (pvi_voters _ Hinv a li) as Hold. simpl.
  rewrite !lookup_insert. simpl. unfold lis_add_signature.
  destruct (decide (crypto_hash (v_ledger_info vote) = crypto_hash li)) as [Heq|Hne].
  - apply HLI in Heq. subst li. split.
    + intros (lis & [= <-] & Hs). simpl in Hs. rewrite or_insert_lookup in Hs.
      case_decide as Ha; [by exists vote|].
      apply Hold. destruct (pv_li_digest_to_votes pv !! _) as [lis|]; simpl in Hs.
      * exists lis. split; [done|]. by destruct (lis_signatures lis !! a).
      * rewrite lookup_empty in Hs. by destruct Hs.
    + intros (v & Hv & Hli). eexists. split; [done|]. simpl. rewrite or_insert_lookup.
      case_decide as Ha; [by case_match|].
      destruct (proj2 Hold) as (lis & Hl & [s Hs]); [by exists v|].
      rewrite Hl. simpl. by rewrite Hs.
  - case_decide as Ha; [|done]. split.
    + intros (v & Hv & Hli)%Hold. subst a.
      destruct (previous_vote_none _ _ _ Hprev Hv) as [Hsame _]. congruence.
    + intros (v & [= <-] & Hli). congruence.
Qed.

(** The author's timeout is not counted yet. *)
Definition fresh_timeout (vote : Vote) (pv : PendingVotes) : Prop :=
  ∀ tc, pv_maybe_partial_2chain_tc pv = Some tc → tctc_signatures tc !! v_author vote = None.

Lemma fresh_timeout_ok vote pv :
  previous_vote_check pv vote = None → pv_inv pv → fresh_timeout vote pv.
Proof.
  intros Hprev Hinv tc Htc. destruct (pvi_tc2 _ Hinv tc Htc) as [_ _ _ _ Hs _].
  destruct (tctc_signatures tc !! v_author vote) as [[q s]|] eqn:Hq; [|done].
  destruct (Hs _ _ _ Hq) as (_ & _ & v & Hv & Ht).
  destruct (previous_vote_none _ _ _ Hprev Hv) as (_ & _ & Hf). congruence.
Qed.

Lemma store_vote_inv vote pv :
  vote_accepted vote → previous_vote_check pv vote = None → pv_inv pv →
  pv_inv (store_vote vote pv).
Proof.
  intros Hacc Hprev Hinv. pose proof (fresh_timeout_ok _ _ Hprev Hinv) as Hfresh.
  destruct (previous_lis pv vote Hinv) as [Hli Hsigs].
  destruct (Vote_verify_ok vote (va_verified _ Hacc)) as (_ & Hsig & _).
  split; simpl.
  - intros a v. rewrite lookup_insert. case_decide; [|by apply Hinv].
    intros [= <-]. done.
  - intros d lis. rewrite lookup_insert. case_decide; [|by apply Hinv].
    intros [= <-]. simpl. rewrite Hli. split; [done|]. by apply or_insert_signatures_verify.
  - intros a li. by apply store_vote_voters.
  - apply Hinv.
  - intros tc Htc. specialize (Hfresh tc Htc).
    destruct (pvi_tc2 _ Hinv tc Htc) as [H1 H2 H3 H4 H5 H6]. split; try done.
    intros a q s Hq. destruct (H5 _ _ _ Hq) as (? & ? & v & Hv & Ht).
    split; [done|]. split; [done|]. exists v. split; [|done]. simpl.
    rewrite lookup_insert_ne; [done|]. intros <-. congruence.
Qed.

Lemma process_timeout_inv vote pv :
  vote_accepted vote → pv_inv pv →
  pv_inv (process_timeout vote vv pv).1 ∧
  pv_maybe_partial_2chain_tc (process_timeout vote vv pv).1 = pv_maybe_partial_2chain_tc pv ∧
  pv_author_to_vote (process_timeout vote vv pv).1 = pv_author_to_vote pv.
Proof.
  intros Hacc Hinv. unfold process_timeout.
  destruct (v_timeout_signature vote) as [s|] eqn:Hs; [|done]. simpl. split; [|done].
  destruct (Vote_verify_ok vote (va_verified _ Hacc)) as (_ & _ & Ht & _).
  assert (Hgen : generate_timeout vote = mkTimeout epoch round).
  { unfold generate_timeout. by rewrite (va_epoch _ Hacc), (va_round _ Hacc). }
  destruct Hinv as [I1 I2 I3 I4 I5]. split; simpl; try done.
  - intros tc [= <-]. simpl.
    assert (Hdef : let tc := default (TimeoutCertificate_new (generate_timeout vote))
                              (pv_maybe_partial_tc pv) in
      tc_timeout tc = mkTimeout epoch round ∧ signatures_verify (tc_timeout tc) (tc_signatures tc)).
    { destruct (pv_maybe_partial_tc pv) as [tc|] eqn:Htc; [by apply I4|]. simpl.
      split; [done|]. intros a t Hat. by rewrite lookup_empty in Hat. }
    destruct Hdef as [Hto Hver]. split; [done|]. apply or_insert_signatures_verify; [|done].
    rewrite Hto, <- Hgen. by apply Ht.
  - intros tc Htc. destruct (I5 tc Htc). by split.
Qed.

(** The certificate after one more timeout. *)
Lemma tc2_add_ok pv tc a t s :
  (tctc_signatures tc = ∅ ∧ tctc_timeout tc = t ∨ tc2_ok pv tc) →
  tctc_signatures tc !! a = None →
  tct_epoch t = epoch → tct_round t = round → 0 ≤ tct_hqc_round t < round →
  QuorumCert_verify (tct_quorum_cert t) vv = Ok () →
  vv_verify vv a (tct_signing_format t) s = Ok () →
  (∃ v, pv_author_to_vote pv !! a = Some v ∧ v_is_timeout v = true) →
  tc2_ok pv (TwoChainTimeoutCertificate_add tc a t s).
Proof.
  intros Htc Hnew He Hr Hlt Hqc Hver Hauth.
  assert (Hsr : tct_signing_format t = mkTimeoutSigningRepr epoch round (tct_hqc_round t)).
  { unfold tct_signing_format. by rewrite He, Hr. }
  rewrite Hsr in Hver. unfold TwoChainTimeoutCertificate_add.
  destruct Htc as [[Hemp Hto]|[H1 H2 H3 H4 H5 (am & sm & H6)]].
  - rewrite Hto, Hemp, Z.ltb_irrefl. split; try done; unfold tctc_highest_hqc_round; simpl.
    + intros b q s'. rewrite lookup_insert, lookup_empty. case_decide as Hab; [|done].
      intros [= <- <-]. subst b. split; [lia|]. by split.
    + exists a, s. apply lookup_insert_eq.
  - unfold tctc_highest_hqc_round, tctc_epoch, tctc_round in *.
    destruct (Z.ltb_spec (tct_hqc_round (tctc_timeout tc)) (tct_hqc_round t)) as [Hl|Hge];
      split; unfold tctc_highest_hqc_round, tctc_epoch, tctc_round; simpl; try done.
    + intros b q s'. rewrite lookup_insert. case_decide as Hab.
      * intros [= <- <-]. subst b. split; [lia|]. by split.
      * intros Hb. destruct (H5 _ _ _ Hb) as (? & ? & ?). split; [lia|]. by split.
    + exists a, s. apply lookup_insert_eq.
    + intros b q s'. rewrite lookup_insert. case_decide as Hab.
      * intros [= <- <-]. subst b. split; [lia|]. by split.
      * intros Hb. by apply H5.
    + exists am, sm. rewrite lookup_insert_ne; [done|]. intros ->. congruence.
Qed.

Lemma process_2chain_inv vote pv :
  vote_accepted vote → pv_author_to_vote pv !! v_author vote = Some vote →
  fresh_timeout vote pv → pv_inv pv → pv_inv (process_2chain_timeout vote vv pv).1.
Proof.
  intros Hacc Hauth Hfresh Hinv. unfold process_2chain_timeout.
  destruct (v_two_chain_timeout vote) as [[t s]|] eqn:Hs; [|done]. simpl.
  destruct (Vote_verify_ok vote (va_verified _ Hacc)) as (_ & _ & _ & Ht & _).
  destruct (Ht t s Hs) as (Hte & Htr & Hqc & Hver).
  destruct Hinv as [I1 I2 I3 I4 I5]. split; simpl; try done.
  intros tc [= <-].
  assert (Hok : tc2_ok pv (TwoChainTimeoutCertificate_add
    (default (TwoChainTimeoutCertificate_new t) (pv_maybe_partial_2chain_tc pv))
    (v_author vote) t s)).
  { apply tc2_add_ok; try done.
    - destruct (pv_maybe_partial_2chain_tc pv) as [tc|] eqn:Htc; [right; by apply I5|by left].
    - destruct (pv_maybe_partial_2chain_tc pv) as [tc|] eqn:Htc; [by apply Hfresh|].
      apply lookup_empty.
    - by rewrite Hte, (va_epoch _ Hacc).
    - by rewrite Htr, (va_round _ Hacc).
    - by apply (va_timeout _ Hacc t s).
    - exists vote. split; [done|]. unfold v_is_timeout. rewrite Hs.
      apply orb_true_iff. right. by apply bool_decide_eq_true. }
  by destruct Hok.
Qed.

(** ** The certificates *)

Context {CL : CryptoLaws cc_crypto} (Hwf : vv_wf vv) (Hround : 0 < round).

Definition certificate_verifies (result : VoteReceptionResult) : Prop :=
  match result with
  | NewQuorumCertificate qc => QuorumCert_verify qc vv = Ok ()
  | NewTimeoutCertificate tc => TimeoutCertificate_verify tc vv = Ok ()
  | New2ChainTimeoutCertificate tc => TwoChainTimeoutCertificate_verify tc vv = Ok ()
  | _ => True
  end.

Lemma aggregated_verify {T} `{CryptoHash T} (m : T) (sigs : BTreeMap Signature) :
  signatures_verify m sigs → check_voting_power vv (btree_keys sigs) = Ok () →
  verify_aggregated_struct_signature vv m sigs = Ok ().
Proof.
  intros Hs [Hk Hp]%check_voting_power_ok; [|done|apply NoDup_btree_keys].
  apply verify_aggregated_ok; [done|]. by split.
Qed.

Lemma qc_verifies vote pv :
  vote_accepted vote → pv_inv pv →
  ∀ lis, pv_li_digest_to_votes pv !! crypto_hash (v_ledger_info vote) = Some lis →
  check_voting_power vv (btree_keys (lis_signatures lis)) = Ok () →
  QuorumCert_verify (mkQuorumCert (v_vote_data vote) lis) vv = Ok ().
Proof.
  intros Hacc Hinv lis Hl Hp. destruct (pvi_digest _ Hinv _ _ Hl) as [Hd Hs].
  apply HLI in Hd. destruct (Vote_verify_ok vote (va_verified _ Hacc)) as (Hh & _ & _ & _ & Hvd).
  pose proof (va_round _ Hacc) as Hr. unfold v_round in Hr.
  unfold QuorumCert_verify, qc_ledger_info, qc_certified_block. simpl.
  rewrite <- Hd, Hh, Z.eqb_refl, Hr. simpl.
  destruct (Z.eqb_spec round 0); [lia|].
  unfold lis_verify_signatures. rewrite batch_verify_aggregated_eq, aggregated_verify by done.
  simpl. by rewrite Hvd.
Qed.

Lemma tc2_loop (tc : TwoChainTimeoutCertificate) l acc m :
  (∀ a q s, (a, (q, s)) ∈ l → q ≤ m ∧
     vv_verify vv a (mkTimeoutSigningRepr (tct_epoch (tctc_timeout tc))
                       (tct_round (tctc_timeout tc)) q) s = Ok ()) →
  acc ≤ m → (acc = m ∨ ∃ a s, (a, (m, s)) ∈ l) →
  r_fold (λ signed_round '(author, (qc_round, signature)),
        let t := mkTimeoutSigningRepr (tct_epoch (tctc_timeout tc))
                   (tct_round (tctc_timeout tc)) qc_round in
        r_map_err (λ _, "Failed to verify TimeoutSigningRepr"%string)
          (vv_verify vv author t signature) ;?
        Ok (Z.max signed_round qc_round)) l acc = Ok m.
Proof.
  revert acc. induction l as [|[a [q s]] l IH]; intros acc Hall Hacc Hmax.
  - destruct Hmax as [-> |(a & s & Hin)]; [done|]. by apply not_elem_of_nil in Hin.
  - cbn [r_fold]. destruct (Hall a q s) as [Hq Hv]; [left|].
    cbv zeta. rewrite Hv. cbn [r_map_err r_bind]. apply IH.
    + intros b q' s' Hin. apply Hall. by right.
    + lia.
    + destruct Hmax as [-> |(b & s' & [[= -> <- ->]|Hin]%elem_of_cons)]; [left; lia..|right; eauto].
Qed.

Lemma tc2_verifies pv tc :
  tc2_ok pv tc → check_voting_power vv (btree_keys (tctc_signatures tc)) = Ok () →
  TwoChainTimeoutCertificate_verify tc vv = Ok ().
Proof.
  intros [He Hr Hlt Hqc Hs (am & sm & Hm)] Hp. unfold TwoChainTimeoutCertificate_verify.
  unfold tctc_epoch, tctc_round, tctc_highest_hqc_round in *.
  rewrite (proj2 (Z.ltb_lt _ _)) by lia. cbn [ensure r_bind].
  rewrite Hqc, Hp. cbn [r_map_err r_bind].
  rewrite (tc2_loop tc _ 0 (tct_hqc_round (tctc_timeout tc))).
  - cbn [r_bind]. by rewrite Z.eqb_refl.
  - intros a q s Hin%elem_of_btree_iter. destruct (Hs _ _ _ Hin) as (? & ? & _).
    by rewrite He, Hr.
  - lia.
  - right. exists am, sm. by apply elem_of_btree_iter.
Qed.

Lemma process_timeout_result vote pv result :
  vote_accepted vote → pv_inv pv → (process_timeout vote vv pv).2 = Some result →
  certificate_verifies result.
Proof.
  intros Hacc Hinv. pose proof (process_timeout_inv vote pv Hacc Hinv) as (Hinv' & _).
  revert Hinv'. unfold process_timeout. destruct (v_timeout_signature vote) as [s|]; [|done].
  cbn [fst snd]. intros Hinv'.
  destruct (check_voting_power _ _) as [[]|[]|m] eqn:Hp; intros [= <-]; try done.
  destruct (pvi_tc _ Hinv' _ eq_refl) as [_ Hs]. unfold certificate_verifies, TimeoutCertificate_verify.
  by rewrite aggregated_verify.
Qed.

Lemma process_2chain_result vote pv result :
  pv_inv (process_2chain_timeout vote vv pv).1 →
  (process_2chain_timeout vote vv pv).2 = Some result → certificate_verifies result.
Proof.
  unfold process_2chain_timeout. destruct (v_two_chain_timeout vote) as [[t s]|]; [|done].
  cbn [fst snd]. intros Hinv'.
  destruct (check_voting_power _ _) as [[]|[]|m] eqn:Hp; intros [= <-]; try done.
  eapply tc2_verifies; [|done]. by apply (pvi_tc2 _ Hinv').
Qed.

Lemma insert_vote_inv vote pv :
  vote_accepted vote → pv_inv pv →
  pv_inv (insert_vote vote vv pv).1 ∧ certificate_verifies (insert_vote vote vv pv).2.
Proof.
  intros Hacc Hinv. unfold insert_vote.
  destruct (previous_vote_check pv vote) as [res|] eqn:Hprev.
  { simpl. split; [done|]. revert Hprev. unfold previous_vote_check.
    repeat case_match; intros; by simplify_eq. }
  pose proof (store_vote_inv vote pv Hacc Hprev Hinv) as Hinv1.
  pose proof (fresh_timeout_ok vote pv Hprev Hinv) as Hfresh.
  change (mkPendingVotes _ _ _ _) with (store_vote vote pv). set (pv1 := store_vote vote pv) in *.
  assert (Hauth : pv_author_to_vote pv1 !! v_author vote = Some vote) by apply lookup_insert_eq.
  assert (Hlis : ∃ lis, pv_li_digest_to_votes pv1 !! crypto_hash (v_ledger_info vote) = Some lis ∧
    lis = lis_add_signature (default (mkLedgerInfoWithSignatures (v_ledger_info vote) ∅)
      (pv_li_digest_to_votes pv !! crypto_hash (v_ledger_info vote))) (v_author vote) (v_signature vote)).
  { eexists. split; [apply lookup_insert_eq|done]. }
  destruct Hlis as (lis & Hlis & <-).
  destruct (process_timeout_inv vote pv1 Hacc Hinv1) as (Hinv2 & Htc2 & Hauth2).
  pose proof (process_timeout_result vote pv1) as Hres.
  destruct (check_voting_power vv (btree_keys (lis_signatures lis))) as [[]|[]|m] eqn:Hp; try done.
  { split; [done|]. simpl. by apply (qc_verifies vote pv1). }
  destruct (process_timeout vote vv pv1) as [pv2 [res|]]; simpl in *; [by auto|].
  assert (Hinv3 : pv_inv (process_2chain_timeout vote vv pv2).1).
  { apply process_2chain_inv; [done| | |done].
    - by rewrite Hauth2.
    - intros tc Htc. apply Hfresh. by rewrite <- Htc2. }
  pose proof (process_2chain_result vote pv2) as Hres2.
  destruct (process_2chain_timeout vote vv pv2) as [pv3 [res|]]; simpl in *; auto.
Qed.

Lemma insert_votes_inv votes pv :
  Forall vote_accepted votes → pv_inv pv →
  pv_inv (insert_votes votes vv pv).1 ∧
  Forall certificate_verifies (insert_votes votes vv pv).2.
Proof.
  revert pv. induction votes as [|v votes IH]; intros pv Hall Hinv; simpl; [by split|].
  apply Forall_cons in Hall as [Hv Hall].
  destruct (insert_vote_inv v pv Hv Hinv) as [Hinv1 Hc].
  destruct (insert_vote v vv pv) as [pv1 res]. simpl in *.
  destruct (IH pv1 Hall Hinv1) as [Hinv2 Hcs].
  destruct (insert_votes votes vv pv1) as [pv2 ress]. simpl in *. auto.
Qed.

Lemma pv_inv_new : pv_inv PendingVotes_new.
Proof.
  split; simpl; try done.
  intros a li. split; [intros (lis & Hl & _)|intros (v & Hv & _)]; by rewrite lookup_empty in *.
Qed.

(** The authors whose stored vote is for the ledger info. *)
Definition voters_for (li : LedgerInfo) (pv : PendingVotes) : list Author :=
  btree_keys (filter (λ av, v_ledger_info av.2 = li) (pv_author_to_vote pv)).

Lemma voters_for_keys li pv lis :
  pv_inv pv → pv_li_digest_to_votes pv !! crypto_hash li = Some lis →
  voters_for li pv ≡ₚ btree_keys (lis_signatures lis).
Proof.
  intros Hinv Hl. apply NoDup_Permutation; [apply NoDup_btree_keys..|].
  intros a. unfold voters_for. rewrite !elem_of_btree_keys. split.
  - intros [v [Hv Hli]%map_lookup_filter_Some].
    destruct (proj2 (pvi_voters _ Hinv a li)) as (lis' & Hl' & Hs); [by exists v|]. congruence.
  - intros Hs. destruct (proj1 (pvi_voters _ Hinv a li)) as (v & Hv & Hli); [by exists lis|].
    exists v. by apply map_lookup_filter_Some.
Qed.

Lemma signatures_known {T} `{CryptoHash T} (m : T) (sigs : BTreeMap Signature) :
  signatures_verify m sigs → known vv (btree_keys sigs).
Proof.
  intros Hs. apply Forall_forall. intros a [s Ha]%elem_of_btree_keys.
  apply Hs, vv_verify_ok in Ha as (pk & Hpk & _). unfold get_public_key, get_voting_power in *.
  by destruct (address_to_validator_info vv !! a).
Qed.

Lemma process_timeout_no_qc vote pv qc :
  (process_timeout vote vv pv).2 ≠ Some (NewQuorumCertificate qc).
Proof.
  unfold process_timeout. destruct (v_timeout_signature vote); [|done]. cbn [snd].
  by destruct (check_voting_power _ _) as [|[]|].
Qed.

Lemma process_2chain_no_qc vote pv qc :
  (process_2chain_timeout vote vv pv).2 ≠ Some (NewQuorumCertificate qc) ∧
  pv_author_to_vote (process_2chain_timeout vote vv pv).1 = pv_author_to_vote pv.
Proof.
  unfold process_2chain_timeout. destruct (v_two_chain_timeout vote) as [[t s]|]; [|done].
  cbn [fst snd]. by destruct (check_voting_power _ _) as [|[]|].
Qed.

(** The stored vote completes a certificate if and only if its voters are a quorum. *)
Lemma insert_vote_quorum vote pv :
  vote_accepted vote → previous_vote_check pv vote = None → pv_inv pv →
  (∃ qc, (insert_vote vote vv pv).2 = NewQuorumCertificate qc) ↔
  vv_quorum_voting_power vv
    ≤ power_of vv (voters_for (v_ledger_info vote) (insert_vote vote vv pv).1).
Proof.
  intros Hacc Hprev Hinv. pose proof (store_vote_inv vote pv Hacc Hprev Hinv) as Hinv1.
  unfold insert_vote. rewrite Hprev.
  change (mkPendingVotes (<[_ := _]> _) _ _ _) with (store_vote vote pv).
  set (lis := lis_add_signature _ _ _). set (pv1 := store_vote vote pv) in *.
  assert (Hlis : pv_li_digest_to_votes pv1 !! crypto_hash (v_ledger_info vote) = Some lis)
    by apply lookup_insert_eq.
  pose proof (voters_for_keys _ _ _ Hinv1 Hlis) as Hperm.
  assert (Hcheck := check_voting_power_eq vv (btree_keys (lis_signatures lis)) Hwf
    (NoDup_btree_keys _) (signatures_known _ _ (proj2 (pvi_digest _ Hinv1 _ _ Hlis)))).
  destruct (process_timeout_inv vote pv1 Hacc Hinv1) as (_ & _ & Hsame).
  rewrite Hcheck.
  assert (Hpow : ∀ pv', pv_author_to_vote pv' = pv_author_to_vote pv1 →
    power_of vv (voters_for (v_ledger_info vote) pv') = power_of vv (btree_keys (lis_signatures lis))).
  { intros pv' Hpv'. unfold power_of, voters_for in *. by rewrite Hpv', Hperm. }
  destruct (Z.ltb_spec (power_of vv (btree_keys (lis_signatures lis))) (vv_quorum_voting_power vv)).
  - assert (Hno : ∀ qc, (process_timeout vote vv pv1).2 ≠ Some (NewQuorumCertificate qc))
      by (intros; apply process_timeout_no_qc).
    destruct (process_timeout vote vv pv1) as [pv2 [res|]]; simpl in *.
    { split; [intros [qc ->]; by destruct (Hno qc)|]. rewrite Hpow by done. lia. }
    assert (Hno2 := λ qc, process_2chain_no_qc vote pv2 qc).
    destruct (process_2chain_timeout vote vv pv2) as [pv3 [res|]]; simpl in *;
      (split; [intros [qc Hqc]|rewrite Hpow; [lia|]]).
    + destruct (Hno2 qc) as [[] _]. by f_equal.
    + rewrite (proj2 (Hno2 (mkQuorumCert (v_vote_data vote) lis))). done.
    + done.
    + rewrite (proj2 (Hno2 (mkQuorumCert (v_vote_data vote) lis))). done.
  - simpl. rewrite Hpow by done. split; [done|]. intros _. by eexists.
Qed.
End pending_votes.

(** ** Theorems *)


(** Nobody is counted twice.  Among the votes collected for a round an author has a
    signature on one ledger info only, equivocating votes are dropped. *)
Theorem pending_votes_one_ledger_info {CC : ConsensusCrypto} {CL : CryptoLaws cc_crypto}
    {HLI : Inj (=) (=) (crypto_hash (T:=LedgerInfo))} vv epoch round (votes : list Vote)
    a d1 d2 lis1 lis2 :
  vv_wf vv → 0 < round → Forall (vote_accepted vv epoch round) votes →
  let pv := (insert_votes votes vv PendingVotes_new).1 in
  pv_li_digest_to_votes pv !! d1 = Some lis1 → pv_li_digest_to_votes pv !! d2 = Some lis2 →
  is_Some (lis_signatures lis1 !! a) → is_Some (lis_signatures lis2 !! a) →
  d1 = d2 ∧ lis1 = lis2.
Proof.
  intros Hwf Hr Hall pv H1 H2 Ha1 Ha2.
  destruct (insert_votes_inv vv epoch round Hwf Hr votes PendingVotes_new Hall
              (pv_inv_new vv epoch round)) as [Hinv _]. fold pv in Hinv.
  destruct (pvi_digest _ _ _ _ Hinv _ _ H1) as [-> _], (pvi_digest _ _ _ _ Hinv _ _ H2) as [-> _].
  destruct (proj1 (pvi_voters _ _ _ _ Hinv a _) (ex_intro _ lis1 (conj H1 Ha1))) as (v1 & Hv1 & Hl1).
  destruct (proj1 (pvi_voters _ _ _ _ Hinv a _) (ex_intro _ lis2 (conj H2 Ha2))) as (v2 & Hv2 & Hl2).
  rewrite Hv1 in Hv2. injection Hv2 as <-. split; congruence.
Qed.

(** A quorum is enough.  The vote of an author not seen before (or its first timeout)
    completes a quorum certificate if and only if the authors whose votes for the same
    ledger info have arrived hold the quorum voting power. *)
Theorem quorum_forms_certificate {CC : ConsensusCrypto} {CL : CryptoLaws cc_crypto}
    {HLI : Inj (=) (=) (crypto_hash (T:=LedgerInfo))} vv epoch round (votes : list Vote) vote :
  vv_wf vv → 0 < round → Forall (vote_accepted vv epoch round) (vote :: votes) →
  let pv := (insert_votes votes vv PendingVotes_new).1 in
  previous_vote_check pv vote = None →
  (∃ qc, (insert_vote vote vv pv).2 = NewQuorumCertificate qc) ↔
  vv_quorum_voting_power vv
    ≤ power_of vv (voters_for (v_ledger_info vote) (insert_vote vote vv pv).1).
Proof.
  intros Hwf Hr [Hv Hall]%Forall_cons pv Hprev.
  destruct (insert_votes_inv vv epoch round Hwf Hr votes PendingVotes_new Hall
              (pv_inv_new vv epoch round)) as [Hinv _].
  by apply (insert_vote_quorum vv epoch round Hwf).
Qed.

(** ** The votes of the sample epoch *)

#[export] Instance ref_ledger_info_inj : Inj (=) (=) (crypto_hash (T:=LedgerInfo)).
Proof. intros li1 li2 H%ref_sha3_inj. by apply ledger_info_message_inj. Qed.

Definition round2_vote (i : Z) : Vote := sample_vote construct_ledger_info_2chain 2 i.

(** Validator 4 votes in round 2 and at once gives it up. *)
Definition gave_up_vote : Vote :=
  let v := sample_vote construct_ledger_info_2chain 2 4 in
  let t := mkTwoChainTimeout 2 2 (sample_qc construct_ledger_info_2chain 1) in
  mkVote (v_vote_data v) 4 (v_ledger_info v) (v_signature v) None
    (Some (t, TwoChainTimeout_sign t (sample_signer 4))).

Lemma round2_accepted i :
  i ∈ [1; 2; 3] → vote_accepted four_validators 2 2 (round2_vote i).
Proof.
  rewrite !elem_of_cons. intros [->|[->|[->|[]%not_elem_of_nil]]];
    (split; [vm_compute; reflexivity..|intros t s H; vm_compute in H; discriminate H]).
Qed.

Lemma gave_up_vote_accepted : vote_accepted four_validators 2 2 gave_up_vote.
Proof.
  split; [vm_compute; reflexivity..|]. intros t s [= <- _]. vm_compute. split; [discriminate|reflexivity].
Qed.

Definition sample_votes : list Vote := [round2_vote 1; gave_up_vote; round2_vote 2].

Lemma sample_votes_accepted : Forall (vote_accepted four_validators 2 2) (round2_vote 3 :: sample_votes).
Proof.
  repeat apply Forall_cons_2; try apply gave_up_vote_accepted; try (apply round2_accepted; set_solver).
  apply Forall_nil_2.
Qed.


(** Validator 1 votes for two blocks of round 2; the second vote is dropped. *)
Definition equivocating_votes : list Vote := [round2_vote 1; other_vote; round2_vote 2].

Lemma other_vote_accepted : vote_accepted four_validators 2 2 other_vote.
Proof. split; [vm_compute; reflexivity..|]. intros t s H. vm_compute in H. discriminate H. Qed.

Lemma pending_votes_one_ledger_info_witness :
  let votes := equivocating_votes in
  let pv := (insert_votes votes four_validators PendingVotes_new).1 in
  (insert_votes votes four_validators PendingVotes_new).2
    = [VoteAdded 1; EquivocateVote; VoteAdded 2] ∧
  map_Forall (λ d1 lis1, map_Forall (λ d2 lis2,
    is_Some (lis_signatures lis1 !! 1) → is_Some (lis_signatures lis2 !! 1) →
    d1 = d2 ∧ lis1 = lis2) (pv_li_digest_to_votes pv)) (pv_li_digest_to_votes pv).
Proof.
  split; [vm_compute; reflexivity|]. intros d1 lis1 H1 d2 lis2 H2.
  apply (pending_votes_one_ledger_info four_validators 2 2 equivocating_votes 1); [| | |exact H1|exact H2].
  - apply four_validators_bft.
  - reflexivity.
  - apply Forall_cons_2; [apply round2_accepted; left|].
    apply Forall_cons_2; [apply other_vote_accepted|].
    apply Forall_cons_2; [apply round2_accepted; right; left|apply Forall_nil_2].
Defined.

Lemma quorum_forms_certificate_witness :
  let pv := (insert_votes [round2_vote 1; gave_up_vote] four_validators PendingVotes_new).1 in
  (∃ qc, (insert_vote (round2_vote 3) four_validators pv).2 = NewQuorumCertificate qc) ↔
  3 ≤ power_of four_validators
        (voters_for (v_ledger_info (round2_vote 3)) (insert_vote (round2_vote 3) four_validators pv).1).
Proof.
  apply (quorum_forms_certificate four_validators 2 2 [round2_vote 1; gave_up_vote] (round2_vote 3)).
  - apply four_validators_bft.
  - reflexivity.
  - repeat apply Forall_cons_2; try apply gave_up_vote_accepted; try (apply round2_accepted; set_solver).
    apply Forall_nil_2.
  - vm_compute. reflexivity.
Defined.
