(* ===== verification/SparseMerkle.v ===== *)
(** * SparseMerkle: proofs of the state tree

    Models [SparseMerkleProof] and [SparseMerkleRangeProof] of
    src/types/src/proof/definition.rs and [SparseMerkleLeafNode] of
    src/types/src/proof/mod.rs.  The reference is a tree whose leaves carry a key
    and the hash of a value ([smt]); its hash is the one the storage computes.
    Soundness: a proof verified against the hash of a tree tells what the tree
    holds under the key.  Completeness: the tree has a proof for every key. *)

From S2P Require Import Prelude Crypto Accumulator.

Record SparseMerkleLeafNode := mkSparseMerkleLeafNode {
  smln_key : HashValue;
  smln_value_hash : HashValue;
}.

#[export] Instance SparseMerkleLeafNode_eq_dec : EqDecision SparseMerkleLeafNode.
Proof. solve_decision. Defined.

(** SHA-3 of the key and the value hash under the leaf hasher's seed. *)
Class SparseLeafHasher := sparse_leaf_hash : HashValue → HashValue → HashValue.

(** [Iterator::skip] *)
Definition skipZ {A} (n : Z) (l : list A) : list A :=
  if Z.of_nat (length l) <=? n then [] else drop (Z.to_nat n) l.

Section sparse.
Context `{MH : MerkleHasher} `{LH : SparseLeafHasher}.

(** [SparseMerkleLeafNode::hash] *)
Definition smln_hash (leaf : SparseMerkleLeafNode) : HashValue :=
  sparse_leaf_hash (smln_key leaf) (smln_value_hash leaf).

(** ** SparseMerkleProof *)

Record SparseMerkleProof := mkSparseMerkleProof {
  smp_leaf : option SparseMerkleLeafNode;
  smp_siblings : list HashValue;
}.

(** The [fold]: one step up with the sibling and the bit of the key. *)
Definition sparse_step (hash : HashValue) (sb : HashValue * bool) : HashValue :=
  if sb.2 then merkle_node sb.1 hash else merkle_node hash sb.1.

(** [element_value] is given by its hash ([value.hash()]). *)
Definition SparseMerkleProof_verify (p : SparseMerkleProof)
    (expected_root_hash element_key : HashValue) (element_value : option HashValue)
    : AnyResult unit :=
  ensure (Z.of_nat (length (smp_siblings p)) <=? HashValue_LENGTH_IN_BITS)
    "Sparse Merkle Tree proof has too many siblings." ;?
  match element_value, smp_leaf p with
  | Some hash, Some leaf =>
      ensure (element_key =? smln_key leaf) "Keys do not match." ;?
      ensure (hash =? smln_value_hash leaf) "Value hashes do not match."
  | Some _, None => Err "Expected inclusion proof. Found non-inclusion proof."
  | None, Some leaf =>
      ensure (negb (element_key =? smln_key leaf))
        "Expected non-inclusion proof, but key exists in proof." ;?
      ensure (Z.of_nat (length (smp_siblings p)) <=?
              Z.of_nat (HashValue_common_prefix_bits_len element_key (smln_key leaf)))
        "Key would not have ended up in the subtree where the provided key in proof is the only existing key, if it existed. So this is not a valid non-inclusion proof."
  | None, None => Ok ()
  end ;?
  let current_hash :=
    match smp_leaf p with Some leaf => smln_hash leaf | None => SPARSE_MERKLE_PLACEHOLDER_HASH end in
  let actual_root_hash :=
    foldl sparse_step current_hash
      (zip (smp_siblings p)
         (skipZ (HashValue_LENGTH_IN_BITS - Z.of_nat (length (smp_siblings p)))
            (reverse (HashValue_iter_bits element_key)))) in
  ensure (actual_root_hash =? expected_root_hash) "Root hashes do not match.".

(** ** SparseMerkleRangeProof *)

(** The loop over the bits; the iterators over the left siblings (argument) and
    the right siblings (of the proof). *)
Fixpoint sparse_range_loop (bits : list bool) (lefts rights : list HashValue)
    (current_hash : HashValue) : AnyResult HashValue :=
  match bits with
  | [] => Ok current_hash
  | true :: bits =>
      match lefts with
      | [] => Err "Missing left sibling."
      | left_hash :: lefts =>
          sparse_range_loop bits lefts rights (merkle_node left_hash current_hash)
      end
  | false :: bits =>
      match rights with
      | [] => Err "Missing right sibling."
      | right_hash :: rights =>
          sparse_range_loop bits lefts rights (merkle_node current_hash right_hash)
      end
  end.

(** The proof is its list of right siblings.  The number of skipped bits is a
    [usize] subtraction, which wraps when there are more than 256 siblings. *)
Definition SparseMerkleRangeProof_verify (right_siblings : list HashValue)
    (expected_root_hash : HashValue) (rightmost_known_leaf : SparseMerkleLeafNode)
    (left_siblings : list HashValue) : AnyResult unit :=
  let num_siblings := Z.of_nat (length left_siblings) + Z.of_nat (length right_siblings) in
  let? current_hash :=
    sparse_range_loop
      (skipZ (wrap64 (HashValue_LENGTH_IN_BITS - num_siblings))
         (reverse (HashValue_iter_bits (smln_key rightmost_known_leaf))))
      left_siblings right_siblings (smln_hash rightmost_known_leaf) in
  ensure (current_hash =? expected_root_hash) "Root hashes do not match.".

(** ** The reference tree *)

Inductive smt :=
| SEmpty
| SLeaf (leaf : SparseMerkleLeafNode)
| SNode (l r : smt).

Fixpoint smt_hash (t : smt) : HashValue :=
  match t with
  | SEmpty => SPARSE_MERKLE_PLACEHOLDER_HASH
  | SLeaf leaf => smln_hash leaf
  | SNode l r => merkle_node (smt_hash l) (smt_hash r)
  end.

(** The node reached by the bits of a key. *)
Fixpoint smt_find (t : smt) (bits : list bool) : option SparseMerkleLeafNode :=
  match t, bits with
  | SEmpty, _ => None
  | SLeaf leaf, _ => Some leaf
  | SNode l r, b :: bits => smt_find (if b then r else l) bits
  | SNode _ _, [] => None
  end.

Definition smt_lookup (t : smt) (key : HashValue) : option HashValue :=
  match smt_find t (HashValue_iter_bits key) with
  | Some leaf => if smln_key leaf =? key then Some (smln_value_hash leaf) else None
  | None => None
  end.

(** Every leaf is on the path of its key, and the tree is not deeper than a key. *)
Fixpoint smt_wf (prefix : list bool) (t : smt) : Prop :=
  match t with
  | SEmpty => True
  | SLeaf leaf => prefix `prefix_of` HashValue_iter_bits (smln_key leaf)
  | SNode l r =>
      (length prefix < Z.to_nat HashValue_LENGTH_IN_BITS)%nat
      ∧ smt_wf (prefix ++ [false]) l ∧ smt_wf (prefix ++ [true]) r
  end.

(** The proof for the key with the given bits: the leaf and the siblings, bottom first. *)
Fixpoint smt_prove (t : smt) (bits : list bool) : option SparseMerkleLeafNode * list HashValue :=
  match t, bits with
  | SNode l r, b :: bits =>
      let '(leaf, siblings) := smt_prove (if b then r else l) bits in
      (leaf, siblings ++ [smt_hash (if b then l else r)])
  | SLeaf leaf, _ => (Some leaf, [])
  | _, _ => (None, [])
  end.
End sparse.

(** ** Collision freeness

    What the proofs rely on of SHA-3: the hashes of internal nodes and of leaves
    determine their inputs, and nodes, leaves and the placeholder (hashed under
    different seeds, or not hashed at all) never collide. *)
Class SparseHashLaws (MH : MerkleHasher) (LH : SparseLeafHasher) : Prop := {
  sparse_node_inj :: Inj2 (=) (=) (=) (merkle_node (MerkleHasher:=MH));
  sparse_leaf_inj :: Inj2 (=) (=) (=) (sparse_leaf_hash (SparseLeafHasher:=LH));
  sparse_node_leaf : ∀ a b k v, merkle_node a b ≠ sparse_leaf_hash k v;
  sparse_node_placeholder : ∀ a b, merkle_node a b ≠ SPARSE_MERKLE_PLACEHOLDER_HASH;
  sparse_leaf_placeholder : ∀ k v, sparse_leaf_hash k v ≠ SPARSE_MERKLE_PLACEHOLDER_HASH;
}.

(** A concrete instance: negative numbers that encode their inputs. *)
Definition ref_sparse_leaf_hasher : SparseLeafHasher := λ k v, Zneg (encode (0, k, v)).

#[export] Instance ref_sparse_laws : SparseHashLaws (ref_merkle_hasher 1) ref_sparse_leaf_hasher.
Proof.
  split; [apply _|exact (ref_merkle_inj 0)|..].
  - intros a b k v H. unfold merkle_node, ref_merkle_hasher, sparse_leaf_hash, ref_sparse_leaf_hasher in H.
    injection H as H. by apply (inj encode) in H.
  - intros a b H. vm_compute in H. discriminate H.
  - intros a b H. vm_compute in H. discriminate H.
Qed.

Section facts.
Context `{MH : MerkleHasher} `{LH : SparseLeafHasher}.

Lemma iter_bits_length h : length (HashValue_iter_bits h) = 256%nat.
Proof. unfold HashValue_iter_bits. by rewrite length_fmap, length_seqZ. Qed.

(** [rev().skip(256 - n)]: the first [n] bits, last one first. *)
Lemma skipZ_rev_bits h (n : nat) :
  (n ≤ 256)%nat →
  skipZ (HashValue_LENGTH_IN_BITS - Z.of_nat n) (reverse (HashValue_iter_bits h))
  = reverse (take n (HashValue_iter_bits h)).
Proof.
  intros Hn. unfold skipZ. rewrite length_reverse, iter_bits_length.
  change HashValue_LENGTH_IN_BITS with 256. change (Z.of_nat 256) with 256.
  destruct (Z.leb_spec 256 (256 - Z.of_nat n)).
  - by assert (n = 0)%nat as -> by lia.
  - rewrite <- (take_drop n (HashValue_iter_bits h)) at 1.
    rewrite reverse_app, drop_app_length'; [done|].
    rewrite length_reverse, length_drop, iter_bits_length. lia.
Qed.

Lemma sparse_fold_cons cur sibs s (bits : list bool) b :
  length sibs = length bits →
  foldl sparse_step cur (zip (sibs ++ [s]) (reverse (b :: bits)))
  = sparse_step (foldl sparse_step cur (zip sibs (reverse bits))) (s, b).
Proof.
  intros Hl. rewrite reverse_cons, zip_with_app by (by rewrite length_reverse).
  by rewrite foldl_app.
Qed.

Lemma common_prefix_len_prefix (p a b : list bool) :
  p `prefix_of` a → p `prefix_of` b → (length p ≤ common_prefix_len a b)%nat.
Proof.
  intros [a' ->] [b' ->]. induction p as [|x p IH]; simpl; [lia|].
  rewrite Bool.eqb_reflx. lia.
Qed.

(** The generated proof hashes up to the root and leads to the leaf found. *)
Lemma smt_prove_spec t prefix bits leaf sibs :
  smt_wf prefix t → (length prefix + length bits)%nat = 256%nat →
  smt_prove t bits = (leaf, sibs) →
  (length sibs ≤ length bits)%nat ∧ smt_find t bits = leaf ∧
  smt_hash t = foldl sparse_step
    match leaf with Some lf => smln_hash lf | None => SPARSE_MERKLE_PLACEHOLDER_HASH end
    (zip sibs (reverse (take (length sibs) bits))) ∧
  match leaf with
  | Some lf => prefix ++ take (length sibs) bits `prefix_of` HashValue_iter_bits (smln_key lf)
  | None => True
  end.
Proof.
  revert prefix bits leaf sibs.
  induction t as [|lf|l IHl r IHr]; intros prefix bits leaf sibs Hwf Hlen Hp; simpl in *.
  - injection Hp as <- <-. simpl. split_and!; try done. lia.
  - injection Hp as <- <-. simpl. rewrite take_0, app_nil_r. split_and!; try done. lia.
  - destruct Hwf as (Hd & Hl & Hr). change (Z.to_nat HashValue_LENGTH_IN_BITS) with 256%nat in Hd.
    destruct bits as [|b bits]; [simpl in Hlen; lia|].
    destruct (smt_prove (if b then r else l) bits) as [leaf' sibs'] eqn:Hp'.
    injection Hp as <- <-.
    assert (IH : (length sibs' ≤ length bits)%nat ∧ smt_find (if b then r else l) bits = leaf' ∧
      smt_hash (if b then r else l) = foldl sparse_step
        match leaf' with Some lf => smln_hash lf | None => SPARSE_MERKLE_PLACEHOLDER_HASH end
        (zip sibs' (reverse (take (length sibs') bits))) ∧
      match leaf' with
      | Some lf => (prefix ++ [b]) ++ take (length sibs') bits `prefix_of` HashValue_iter_bits (smln_key lf)
      | None => True end).
    { destruct b; [apply IHr|apply IHl]; try done; rewrite length_app; simpl in *; lia. }
    destruct IH as (IH1 & IH2 & IH3 & IH4).
    rewrite length_app. simpl length. rewrite Nat.add_1_r. cbn [take].
    split_and!.
    + simpl. lia.
    + done.
    + rewrite sparse_fold_cons by (rewrite length_take; lia). rewrite <- IH3.
      by destruct b.
    + destruct leaf'; [|done]. by rewrite <- app_assoc in IH4.
Qed.

Context {HL : SparseHashLaws MH LH}.

Lemma smt_hash_step_inv t h s b :
  smt_hash t = sparse_step h (s, b) →
  ∃ l r, t = SNode l r ∧ smt_hash (if b : bool then r else l) = h.
Proof using HL.
  unfold sparse_step. simpl. destruct t as [|leaf|l r]; simpl.
  - intros H. symmetry in H. destruct b; by apply sparse_node_placeholder in H.
  - unfold smln_hash. intros H. symmetry in H. destruct b; by apply sparse_node_leaf in H.
  - destruct b; intros [? ?]%(inj2 merkle_node); eauto.
Qed.

(** The siblings lead from the root to a node with the hash of the bottom. *)
Lemma sparse_path_sound t cur sibs bits :
  length sibs = length bits →
  smt_hash t = foldl sparse_step cur (zip sibs (reverse bits)) →
  ∃ t', smt_hash t' = cur ∧ ∀ rest, smt_find t (bits ++ rest) = smt_find t' rest.
Proof using HL.
  revert t sibs. induction bits as [|b bits IH]; intros t sibs Hl Hh.
  - destruct sibs; [|done]. exists t. done.
  - destruct sibs as [|s sibs _] using rev_ind; [done|].
    rewrite length_app in Hl. simpl in Hl.
    rewrite sparse_fold_cons in Hh by lia.
    apply smt_hash_step_inv in Hh as (l & r & -> & Hh).
    destruct (IH _ sibs ltac:(lia) Hh) as (t' & Ht' & Hf). exists t'. split; [done|].
    intros rest. simpl. apply Hf.
Qed.

Lemma smt_hash_leaf_inv t leaf : smt_hash t = smln_hash leaf → t = SLeaf leaf.
Proof using HL.
  destruct t as [|[k v]|l r]; simpl; unfold smln_hash; intros H.
  - symmetry in H. by apply sparse_leaf_placeholder in H.
  - destruct leaf as [k' v']. simpl in H.
    by apply (inj2 sparse_leaf_hash) in H as [-> ->].
  - by apply sparse_node_leaf in H.
Qed.

Lemma smt_hash_empty_inv t : smt_hash t = SPARSE_MERKLE_PLACEHOLDER_HASH → t = SEmpty.
Proof using HL.
  destruct t as [|leaf|l r]; simpl; unfold smln_hash; intros H; [done| |].
  - by apply sparse_leaf_placeholder in H.
  - by apply sparse_node_placeholder in H.
Qed.

Lemma SparseMerkleProof_verify_find p t key value :
  SparseMerkleProof_verify p (smt_hash t) key value = Ok () →
  smt_find t (HashValue_iter_bits key) = smp_leaf p.
Proof using HL.
  intros Hv. unfold SparseMerkleProof_verify in Hv. cbv zeta in Hv. r_inv Hv.
  apply Z.leb_le in Hs. apply Z.eqb_eq in Hv. change HashValue_LENGTH_IN_BITS with 256 in Hs.
  rewrite skipZ_rev_bits in Hv by lia. symmetry in Hv.
  apply sparse_path_sound in Hv as (t' & Ht' & Hfind).
  2:{ rewrite length_take, iter_bits_length. lia. }
  rewrite <- (take_drop (length (smp_siblings p)) (HashValue_iter_bits key)), Hfind.
  destruct (smp_leaf p) as [leaf|].
  - by apply smt_hash_leaf_inv in Ht' as ->.
  - by apply smt_hash_empty_inv in Ht' as ->.
Qed.
End facts.

Section range_facts.
Context `{MH : MerkleHasher} `{LH : SparseLeafHasher}.

(** The range loop is the fold of a membership proof whose siblings are taken
    from the left or from the right as the bits say. *)
Lemma sparse_range_loop_fold bits lefts rights cur h :
  sparse_range_loop bits lefts rights cur = Ok h →
  ∃ sibs, length sibs = length bits ∧ h = foldl sparse_step cur (zip sibs bits).
Proof.
  revert lefts rights cur. induction bits as [|[] bits IH]; intros lefts rights cur Hrun; simpl in Hrun.
  - injection Hrun as <-. by exists [].
  - destruct lefts as [|x lefts]; [done|].
    destruct (IH _ _ _ Hrun) as (sibs & Hl & ->). exists (x :: sibs). simpl. by rewrite Hl.
  - destruct rights as [|x rights]; [done|].
    destruct (IH _ _ _ Hrun) as (sibs & Hl & ->). exists (x :: sibs). simpl. by rewrite Hl.
Qed.

Lemma skipZ_rev_suffix {A} n (l : list A) :
  0 ≤ n → ∃ m, skipZ n (reverse l) = reverse (take m l).
Proof.
  intros Hn. unfold skipZ. rewrite length_reverse. destruct (Z.leb_spec (Z.of_nat (length l)) n).
  - by exists 0%nat.
  - exists (length l - Z.to_nat n)%nat.
    rewrite <- (take_drop (length l - Z.to_nat n) l) at 1.
    rewrite reverse_app, drop_app_length'; [done|].
    rewrite length_reverse, length_drop. lia.
Qed.
End range_facts.

Lemma SparseMerkleProof_verify_lookup {MH : MerkleHasher} {LH : SparseLeafHasher}
    {HL : SparseHashLaws MH LH} p t key value :
  SparseMerkleProof_verify p (smt_hash t) key value = Ok () → smt_lookup t key = value.
Proof.
  intros Hv. pose proof (SparseMerkleProof_verify_find _ _ _ _ Hv) as Hf.
  unfold smt_lookup. rewrite Hf. unfold SparseMerkleProof_verify in Hv.
  apply r_bind_ok in Hv as ([] & _ & Hv). apply r_bind_ok in Hv as ([] & Hm & _).
  destruct value as [hash|], (smp_leaf p) as [leaf|]; try done.
  - r_inv Hm. apply Z.eqb_eq in Hs, Hm. subst. by rewrite Z.eqb_refl.
  - r_inv Hm. apply negb_true_iff in Hs. by rewrite Z.eqb_sym, Hs.
Qed.

(** C21: soundness of sparse Merkle proofs.  A proof that verifies against the root
    hash of a state tree tells exactly what the tree stores under the key: the
    value with the given hash, or nothing when it is a non-inclusion proof; so two
    verified proofs for a key agree. *)
Theorem sparse_proof_sound {MH : MerkleHasher} {LH : SparseLeafHasher}
    {HL : SparseHashLaws MH LH} p t key value :
  SparseMerkleProof_verify p (smt_hash t) key value = Ok () →
  smt_lookup t key = value ∧
  ∀ p' value', SparseMerkleProof_verify p' (smt_hash t) key value' = Ok () → value' = value.
Proof.
  intros Hv. pose proof (SparseMerkleProof_verify_lookup _ _ _ _ Hv) as Hl.
  split; [done|]. intros p' value' Hv'. rewrite <- Hl. symmetry.
  by eapply SparseMerkleProof_verify_lookup.
Qed.

(** Soundness of sparse Merkle range proofs.  When the proof verifies against
    the root hash of a tree, the rightmost known leaf is in that tree, whatever
    the number of siblings supplied. *)
Theorem sparse_range_proof_sound {MH : MerkleHasher} {LH : SparseLeafHasher}
    {HL : SparseHashLaws MH LH} rights t leaf lefts :
  SparseMerkleRangeProof_verify rights (smt_hash t) leaf lefts = Ok () →
  smt_lookup t (smln_key leaf) = Some (smln_value_hash leaf).
Proof.
  intros Hv. unfold SparseMerkleRangeProof_verify in Hv. cbv zeta in Hv.
  apply r_bind_ok in Hv as (h & Hrun & Hv). apply ensure_ok, Z.eqb_eq in Hv as ->.
  destruct (skipZ_rev_suffix (wrap64 (HashValue_LENGTH_IN_BITS -
    (Z.of_nat (length lefts) + Z.of_nat (length rights)))) (HashValue_iter_bits (smln_key leaf)))
    as [m Hm]; [apply Z.mod_pos_bound; lia|].
  rewrite Hm in Hrun. apply sparse_range_loop_fold in Hrun as (sibs & Hl & Hh).
  rewrite length_reverse in Hl. apply sparse_path_sound in Hh as (t' & Ht' & Hfind); [|done].
  apply smt_hash_leaf_inv in Ht' as ->. unfold smt_lookup.
  rewrite <- (take_drop m (HashValue_iter_bits (smln_key leaf))), Hfind. simpl.
  by rewrite Z.eqb_refl.
Qed.

(** Completeness of sparse Merkle proofs.  Every well-formed tree has, for every
    key, a proof that verifies for exactly what it stores under the key. *)
Theorem sparse_proof_complete {MH : MerkleHasher} {LH : SparseLeafHasher} t key :
  smt_wf [] t →
  let '(leaf, siblings) := smt_prove t (HashValue_iter_bits key) in
  SparseMerkleProof_verify (mkSparseMerkleProof leaf siblings) (smt_hash t) key
    (smt_lookup t key) = Ok ().
Proof.
  intros Hwf. destruct (smt_prove t (HashValue_iter_bits key)) as [leaf sibs] eqn:Hp.
  apply (smt_prove_spec t [] _ leaf sibs) in Hp as (Hlen & Hfind & Hhash & Hpre); [|done|].
  2:{ by rewrite iter_bits_length. }
  rewrite iter_bits_length in Hlen. unfold SparseMerkleProof_verify, smt_lookup. simpl.
  rewrite Hfind, skipZ_rev_bits, <- Hhash, Z.eqb_refl by done.
  rewrite (proj2 (Z.leb_le _ _)) by (change HashValue_LENGTH_IN_BITS with 256; lia). simpl.
  destruct leaf as [lf|]; [|done]. simpl in Hpre.
  destruct (Z.eqb_spec (smln_key lf) key) as [<-|Hne].
  - by rewrite !Z.eqb_refl.
  - rewrite (proj2 (Z.eqb_neq key (smln_key lf))) by done. simpl.
    rewrite (proj2 (Z.leb_le _ _)); [done|]. apply inj_le.
    rewrite <- (length_take_le (HashValue_iter_bits key) (length sibs)) at 1
      by (by rewrite iter_bits_length).
    apply common_prefix_len_prefix; [apply prefix_take|done].
Qed.

(** A tree with three leaves, whose keys differ in their first or second bit. *)
Definition sample_smt : smt :=
  SNode (SLeaf (mkSparseMerkleLeafNode 7 70))
    (SNode (SLeaf (mkSparseMerkleLeafNode (2 ^ 255 + 9) 90))
       (SLeaf (mkSparseMerkleLeafNode (2 ^ 255 + 2 ^ 254) 30))).

Definition sample_proof (key : HashValue) : SparseMerkleProof :=
  let '(leaf, siblings) :=
    smt_prove (MH:=ref_merkle_hasher 1) (LH:=ref_sparse_leaf_hasher) sample_smt
      (HashValue_iter_bits key) in
  mkSparseMerkleProof leaf siblings.

Lemma sparse_proof_sound_witness :
  smt_lookup sample_smt (2 ^ 255 + 9) = Some 90 ∧ smt_lookup sample_smt 8 = None.
Proof.
  split.
  - apply (sparse_proof_sound (HL:=ref_sparse_laws) (sample_proof (2 ^ 255 + 9))).
    vm_compute. reflexivity.
  - apply (sparse_proof_sound (HL:=ref_sparse_laws) (sample_proof 8)).
    vm_compute. reflexivity.
Defined.

Lemma sparse_proof_complete_witness :
  SparseMerkleProof_verify (MH:=ref_merkle_hasher 1) (LH:=ref_sparse_leaf_hasher)
    (sample_proof 7) (smt_hash (MH:=ref_merkle_hasher 1) (LH:=ref_sparse_leaf_hasher) sample_smt)
    7 (Some 70) = Ok ().
Proof.
  pose proof (sparse_proof_complete (MH:=ref_merkle_hasher 1) (LH:=ref_sparse_leaf_hasher)
    sample_smt 7) as H.
  vm_compute. vm_compute in H. apply H. clear H.
  repeat split; repeat constructor; first [exists (drop 1 (HashValue_iter_bits 7)); reflexivity
    | exists (drop 2 (HashValue_iter_bits (2 ^ 255 + 9))); reflexivity
    | exists (drop 2 (HashValue_iter_bits (2 ^ 255 + 2 ^ 254))); reflexivity].
Defined.

Lemma sparse_range_proof_sound_witness :
  smt_lookup sample_smt (2 ^ 255 + 9) = Some 90.
Proof.
  apply (sparse_range_proof_sound (HL:=ref_sparse_laws)
    [sparse_leaf_hash (SparseLeafHasher:=ref_sparse_leaf_hasher) (2 ^ 255 + 2 ^ 254) 30]
    sample_smt (mkSparseMerkleLeafNode (2 ^ 255 + 9) 90)
    [sparse_leaf_hash (SparseLeafHasher:=ref_sparse_leaf_hasher) 7 70]).
  vm_compute. reflexivity.
Defined.
