(* ===== verification/LedgerProofs.v ===== *)
(** * LedgerProofs: proofs from a ledger info down to transactions, events and states

    Models [verify_transaction_info] of src/types/src/proof/mod.rs and the composed
    proofs of src/types/src/proof/definition.rs: [TransactionInfoWithProof],
    [AccountStateProof], [EventProof], [TransactionInfoListWithProof].  The
    theorems relate them to the ledger, the list of all transaction infos whose
    accumulator root the ledger info carries. *)

From S2P Require Import Prelude Bits Crypto Accumulator AccumulatorFacts ConsistencyFacts.
From S2P Require Import Position PositionFacts ValidatorVerifier LedgerTypes AccumulatorProof.
From S2P Require Import ProofFacts SparseMerkle.

Record TransactionInfoWithProof := mkTransactionInfoWithProof {
  tip_ledger_info_to_transaction_info_proof : AccumulatorProof;
  tip_transaction_info : TransactionInfo;
}.

Record AccountStateProof := mkAccountStateProof {
  asp_transaction_info_with_proof : TransactionInfoWithProof;
  asp_transaction_info_to_account_proof : SparseMerkleProof;
}.

Record EventProof := mkEventProof {
  ep_transaction_info_with_proof : TransactionInfoWithProof;
  ep_transaction_info_to_event_proof : AccumulatorProof;
}.

Record TransactionInfoListWithProof := mkTransactionInfoListWithProof {
  tilp_ledger_info_to_transaction_infos_proof : AccumulatorRangeProof;
  tilp_transaction_infos : list TransactionInfo;
}.

Section ledger_proofs.
Context `{C : Crypto} `{HTI : CryptoHash TransactionInfo}.
(** The hashers of the transaction accumulator, of the event accumulators and of
    the sparse Merkle tree. *)
Context (TH EH SH : MerkleHasher) (LH : SparseLeafHasher).

Definition verify_transaction_info (ledger_info : LedgerInfo) (transaction_version : Version)
    (transaction_info : TransactionInfo) (proof : AccumulatorProof) : AnyResult unit :=
  ensure (transaction_version <=? li_version ledger_info)
    "Transaction version is newer than LedgerInfo version." ;?
  let transaction_info_hash := crypto_hash transaction_info in
  AccumulatorProof_verify (MH:=TH) proof (li_transaction_accumulator_hash ledger_info)
    transaction_info_hash transaction_version ;?
  Ok ().

Definition TransactionInfoWithProof_verify (p : TransactionInfoWithProof)
    (ledger_info : LedgerInfo) (transaction_version : Version) : AnyResult unit :=
  verify_transaction_info ledger_info transaction_version (tip_transaction_info p)
    (tip_ledger_info_to_transaction_info_proof p) ;?
  Ok ().

(** [account_state_blob] is given by its hash. *)
Definition AccountStateProof_verify (p : AccountStateProof) (ledger_info : LedgerInfo)
    (state_version : Version) (account_address_hash : HashValue)
    (account_state_blob : option HashValue) : AnyResult unit :=
  SparseMerkleProof_verify (MH:=SH) (LH:=LH) (asp_transaction_info_to_account_proof p)
    (ti_state_change_hash (tip_transaction_info (asp_transaction_info_with_proof p)))
    account_address_hash account_state_blob ;?
  TransactionInfoWithProof_verify (asp_transaction_info_with_proof p) ledger_info state_version ;?
  Ok ().

Definition EventProof_verify (p : EventProof) (ledger_info : LedgerInfo)
    (event_hash : HashValue) (transaction_version : Version)
    (event_version_within_transaction : Version) : AnyResult unit :=
  AccumulatorProof_verify (MH:=EH) (ep_transaction_info_to_event_proof p)
    (ti_event_root_hash (tip_transaction_info (ep_transaction_info_with_proof p)))
    event_hash event_version_within_transaction ;?
  TransactionInfoWithProof_verify (ep_transaction_info_with_proof p) ledger_info
    transaction_version ;?
  Ok ().

Definition TransactionInfoListWithProof_new_empty : TransactionInfoListWithProof :=
  mkTransactionInfoListWithProof AccumulatorRangeProof_new_empty [].

Definition TransactionInfoListWithProof_verify (p : TransactionInfoListWithProof)
    (ledger_info : LedgerInfo) (first_transaction_info_version : option Version)
    : AnyResult unit :=
  let txn_info_hashes := crypto_hash <$> tilp_transaction_infos p in
  AccumulatorRangeProof_verify (MH:=TH) (tilp_ledger_info_to_transaction_infos_proof p)
    (li_transaction_accumulator_hash ledger_info) first_transaction_info_version txn_info_hashes.

Definition verify_extends_ledger (p : TransactionInfoListWithProof) (num_txns_in_ledger : Z)
    (root : HashValue) (first_transaction_info_version : option Version) : AnyResult Z :=
  match first_transaction_info_version with
  | Some first_version =>
      ensure (first_version <=? num_txns_in_ledger) "Transaction list too new." ;?
      let num_overlap_txns := num_txns_in_ledger - first_version in
      if Z.of_nat (length (tilp_transaction_infos p)) <? num_overlap_txns
      then Ok (Z.of_nat (length (tilp_transaction_infos p)))
      else
        let overlap_txn_infos := take (Z.to_nat num_overlap_txns) (tilp_transaction_infos p) in
        let frozen_subtree_roots_from_proof :=
          reverse (left_siblings (tilp_ledger_info_to_transaction_infos_proof p)) in
        let? accu :=
          InMemoryAccumulator_new (MH:=TH) frozen_subtree_roots_from_proof first_version in
        let? accu_from_proof := append (MH:=TH) accu (crypto_hash <$> overlap_txn_infos) in
        ensure (root_hash accu_from_proof =? root)
          "Fork happens because the current synced_trees doesn't match the txn list provided." ;?
        Ok num_overlap_txns
  | None =>
      ensure (bool_decide (tilp_transaction_infos p = [])) "input is not empty" ;?
      Ok 0
  end.

(** ** The ledger *)

(** The ledger info [li] commits to the ledger [infos]. *)
Definition commits_to (li : LedgerInfo) (infos : list TransactionInfo) : Prop :=
  li_transaction_accumulator_hash li = merkle_root (MH:=TH) (crypto_hash <$> infos) ∧
  li_version li = Z.of_nat (length infos) - 1.

(** What the proofs rely on of the hash of a transaction info. *)
Class TransactionInfoHashLaws : Prop := {
  txn_info_hash_inj :: Inj (=) (=) (crypto_hash (T:=TransactionInfo));
  txn_info_hash_leaf : ∀ info : TransactionInfo, leaf_hash (MH:=TH) (crypto_hash info);
}.

Context {TL : TransactionInfoHashLaws} {TA : AccumulatorHashLaws TH}.

Lemma txn_info_hashes_leaves (infos : list TransactionInfo) :
  Forall (leaf_hash (MH:=TH)) (crypto_hash <$> infos).
Proof using TL. apply Forall_fmap, Forall_true. apply txn_info_hash_leaf. Qed.

Lemma TransactionInfoWithProof_verify_sound p li v infos :
  commits_to li infos → 0 ≤ v → TransactionInfoWithProof_verify p li v = Ok () →
  infos !! Z.to_nat v = Some (tip_transaction_info p).
Proof using TL TA.
  intros [Hroot Hver] Hv Hrun. unfold TransactionInfoWithProof_verify, verify_transaction_info in Hrun.
  apply r_bind_ok in Hrun as ([] & Hrun & _). apply r_bind_ok in Hrun as ([] & Hle & Hrun).
  apply ensure_ok, Z.leb_le in Hle. cbv zeta in Hrun. apply r_bind_ok in Hrun as ([] & Hrun & _).
  rewrite Hroot in Hrun. unfold AccumulatorProof_verify in Hrun. cbv zeta in Hrun. r_inv Hrun.
  apply Z.eqb_eq in Hrun. apply climb_leaf_sound in Hrun; [|rewrite length_fmap; lia|
    apply txn_info_hash_leaf|apply txn_info_hashes_leaves].
  rewrite list_lookup_fmap, fmap_Some in Hrun. destruct Hrun as (info & Hi & Heq).
  apply (inj crypto_hash) in Heq as ->. done.
Qed.
End ledger_proofs.

(** A concrete hash of transaction infos, for the witnesses. *)
#[export] Instance ModuleId_eq_dec : EqDecision ModuleId.
Proof. solve_decision. Defined.
#[export] Instance AbortLocation_eq_dec : EqDecision AbortLocation.
Proof. solve_decision. Defined.
#[export] Instance KeptVMStatus_eq_dec : EqDecision KeptVMStatus.
Proof. solve_decision. Defined.
#[export] Instance TransactionInfo_eq_dec : EqDecision TransactionInfo.
Proof. solve_decision. Defined.

Definition AbortLocation_code (l : AbortLocation) : option (Z * string) :=
  match l with ALModule id => Some (mid_address id, mid_name id) | ALScript => None end.
Definition KeptVMStatus_code (s : KeptVMStatus) : Z * option (Z * string) * Z * Z :=
  match s with
  | Executed => (0, None, 0, 0)
  | OutOfGas => (1, None, 0, 0)
  | MoveAbort l c => (2, AbortLocation_code l, c, 0)
  | ExecutionFailure l f o => (3, AbortLocation_code l, f, o)
  | MiscellaneousError => (4, None, 0, 0)
  end.
#[export] Instance ref_txn_info_hash : CryptoHash TransactionInfo := λ t,
  [7; Zpos (encode (ti_gas_used t, KeptVMStatus_code (ti_status t), ti_transaction_hash t,
        ti_event_root_hash t, ti_state_change_hash t, ti_state_checkpoint_hash t))].

Lemma ref_txn_info_laws :
  TransactionInfoHashLaws (C:=ref_crypto) (HTI:=ref_txn_info_hash) (ref_merkle_hasher 1).
Proof.
  split.
  - intros [g s th e st cp] [g' s' th' e' st' cp'] H%ref_sha3_inj.
    injection H as H. apply (inj encode) in H.
    simpl in H. injection H as -> Hs -> -> -> ->. f_equal.
    destruct s as [| |l c|l f o|], s' as [| |l' c'|l' f' o'|]; try done; simpl in Hs;
      simplify_eq; f_equal; destruct l as [[]|], l' as [[]|]; by simplify_eq/=.
  - intros info. unfold crypto_hash.
    pose proof (ref_sha3_large (signing_message info)) as Hbig. split.
    + intros a b H. unfold merkle_node, ref_merkle_hasher in H. lia.
    + intros H. rewrite H in Hbig. vm_compute in Hbig. discriminate Hbig.
Qed.

(** C22: soundness of account state proofs.  When the proof verifies against a ledger
    info that commits to the ledger [infos], the transaction info is the one of that
    version, and any state tree with its root holds exactly the given blob (or
    nothing) under the account's key. *)
Theorem account_state_proof_sound `{C : Crypto} `{HTI : CryptoHash TransactionInfo}
    (TH SH : MerkleHasher) (LH : SparseLeafHasher)
    (TL : TransactionInfoHashLaws TH) (TA : AccumulatorHashLaws TH) (SL : SparseHashLaws SH LH)
    p li infos version key blob :
  commits_to TH li infos → 0 ≤ version →
  AccountStateProof_verify TH SH LH p li version key blob = Ok () →
  ∃ info, infos !! Z.to_nat version = Some info ∧
    ∀ t, smt_hash (MH:=SH) (LH:=LH) t = ti_state_change_hash info → smt_lookup t key = blob.
Proof.
  intros Hli Hv Hrun. unfold AccountStateProof_verify in Hrun.
  apply r_bind_ok in Hrun as ([] & Hsp & Hrun). apply r_bind_ok in Hrun as ([] & Hti & _).
  apply (TransactionInfoWithProof_verify_sound TH) with (infos := infos) in Hti; [|done..].
  eexists; split; [exact Hti|]. intros t Ht. rewrite <- Ht in Hsp.
  pose proof (SparseMerkleProof_verify_find _ _ _ _ Hsp) as Hf.
  by eapply SparseMerkleProof_verify_lookup.
Qed.

(** A ledger of two transactions; the second one leaves the state of [sample_smt] and
    emitted one event. *)
Definition sample_ledger : list TransactionInfo :=
  [TransactionInfo_new 1 2 3 0 Executed;
   TransactionInfo_new 4
     (smt_hash (MH:=ref_merkle_hasher 1) (LH:=ref_sparse_leaf_hasher) sample_smt) 77 10
     (MoveAbort ALScript 3)].

Definition sample_ledger_hashes : list HashValue :=
  crypto_hash (C:=ref_crypto) <$> sample_ledger.

Definition sample_ledger_info : LedgerInfo :=
  mkLedgerInfo (mkBlockInfo 1 1 0
    (merkle_root (MH:=ref_merkle_hasher 1) sample_ledger_hashes) 1 0 None) 0.

Definition sample_info_proof : TransactionInfoWithProof :=
  mkTransactionInfoWithProof [crypto_hash (C:=ref_crypto) (TransactionInfo_new 1 2 3 0 Executed)]
    (TransactionInfo_new 4
       (smt_hash (MH:=ref_merkle_hasher 1) (LH:=ref_sparse_leaf_hasher) sample_smt) 77 10
       (MoveAbort ALScript 3)).

Lemma account_state_proof_witness :
  ∃ info, sample_ledger !! 1%nat = Some info ∧
    ∀ t, smt_hash (MH:=ref_merkle_hasher 1) (LH:=ref_sparse_leaf_hasher) t =
           ti_state_change_hash info → smt_lookup t 7 = Some 70.
Proof.
  apply (account_state_proof_sound (C:=ref_crypto) (ref_merkle_hasher 1) (ref_merkle_hasher 1)
    ref_sparse_leaf_hasher ref_txn_info_laws (ref_accumulator_laws 1) ref_sparse_laws
    (mkAccountStateProof sample_info_proof (sample_proof 7)) sample_ledger_info sample_ledger 1);
    [split; reflexivity|lia|vm_compute; reflexivity].
Defined.

(** Soundness of event proofs.  When the proof verifies, the transaction info is
    the one of that version in the ledger, and the event is the one at that index
    under its event root. *)
Theorem event_proof_sound `{C : Crypto} `{HTI : CryptoHash TransactionInfo}
    (TH EH : MerkleHasher) (TL : TransactionInfoHashLaws TH) (TA : AccumulatorHashLaws TH)
    (EA : AccumulatorHashLaws EH) p li infos event version index :
  commits_to TH li infos → 0 ≤ version →
  EventProof_verify TH EH p li event version index = Ok () →
  ∃ info, infos !! Z.to_nat version = Some info ∧
    ∀ events, merkle_root (MH:=EH) events = ti_event_root_hash info →
      0 ≤ index < Z.of_nat (length events) →
      Forall (leaf_hash (MH:=EH)) (event :: events) → events !! Z.to_nat index = Some event.
Proof.
  intros Hli Hv Hrun. unfold EventProof_verify in Hrun.
  apply r_bind_ok in Hrun as ([] & Hev & Hrun). apply r_bind_ok in Hrun as ([] & Hti & _).
  apply (TransactionInfoWithProof_verify_sound TH) with (infos := infos) in Hti; [|done..].
  eexists; split; [exact Hti|]. intros events Hroot Hi [Hx Hall]%Forall_cons.
  unfold AccumulatorProof_verify in Hev. cbv zeta in Hev. r_inv Hev.
  apply Z.eqb_eq in Hev. rewrite <- Hroot in Hev. by eapply climb_leaf_sound.
Qed.

Lemma event_proof_witness :
  ∃ info, sample_ledger !! 1%nat = Some info ∧
    ∀ events, merkle_root (MH:=ref_merkle_hasher 2) events = ti_event_root_hash info →
      0 ≤ 0 < Z.of_nat (length events) →
      Forall (leaf_hash (MH:=ref_merkle_hasher 2)) (77 :: events) → events !! 0%nat = Some 77.
Proof.
  apply (event_proof_sound (C:=ref_crypto) (ref_merkle_hasher 1) (ref_merkle_hasher 2)
    ref_txn_info_laws (ref_accumulator_laws 1) (ref_accumulator_laws 2)
    (mkEventProof sample_info_proof []) sample_ledger_info sample_ledger 77 1 0);
    [split; reflexivity|lia|vm_compute; reflexivity].
Defined.

(** A list of transaction infos that verifies against a ledger info is the part of
    its ledger that starts at the given version. *)
Theorem transaction_info_list_sound `{C : Crypto} `{HTI : CryptoHash TransactionInfo}
    (TH : MerkleHasher) (TL : TransactionInfoHashLaws TH) (TA : AccumulatorHashLaws TH)
    p li infos first :
  commits_to TH li infos → 0 ≤ first →
  first + Z.of_nat (length (tilp_transaction_infos p)) ≤ Z.of_nat (length infos)
    ≤ MAX_ACCUMULATOR_LEAVES →
  TransactionInfoListWithProof_verify TH p li (Some first) = Ok () →
  take (length (tilp_transaction_infos p)) (drop (Z.to_nat first) infos)
  = tilp_transaction_infos p.
Proof.
  intros [Hroot Hver] Hf Hb Hrun. unfold TransactionInfoListWithProof_verify in Hrun.
  cbv zeta in Hrun. rewrite Hroot in Hrun.
  apply range_verify_sound in Hrun; [|done|by rewrite !length_fmap|
    by apply (txn_info_hashes_leaves TH)..].
  rewrite length_fmap, <- fmap_drop, <- fmap_take in Hrun.
  by apply (inj (fmap crypto_hash)) in Hrun.
Qed.

Lemma transaction_info_list_witness :
  take 1 (drop 1 sample_ledger) = [tip_transaction_info sample_info_proof].
Proof.
  apply (transaction_info_list_sound (C:=ref_crypto) (ref_merkle_hasher 1) ref_txn_info_laws
    (ref_accumulator_laws 1)
    (mkTransactionInfoListWithProof
       (mkAccumulatorRangeProof [crypto_hash (C:=ref_crypto) (TransactionInfo_new 1 2 3 0 Executed)] [])
       [tip_transaction_info sample_info_proof]) sample_ledger_info sample_ledger 1);
    [split; reflexivity|lia|vm_compute; split; congruence|vm_compute; reflexivity].
Defined.

(** Fork detection.  When [verify_extends_ledger] accepts a list that reaches the
    end of the local ledger, the overlap it returns is exact and the overlapping
    transaction infos are those of the local ledger. *)
Theorem verify_extends_ledger_sound `{C : Crypto} `{HTI : CryptoHash TransactionInfo}
    (TH : MerkleHasher) (TL : TransactionInfoHashLaws TH) (TA : AccumulatorHashLaws TH)
    p ledger first n :
  0 ≤ first → Z.of_nat (length ledger) ≤ u64_max →
  verify_extends_ledger TH p (Z.of_nat (length ledger))
    (merkle_root (MH:=TH) (crypto_hash <$> ledger)) (Some first) = Ok n →
  Z.of_nat (length ledger) ≤ first + Z.of_nat (length (tilp_transaction_infos p)) →
  n = Z.of_nat (length ledger) - first ∧
  take (Z.to_nat n) (tilp_transaction_infos p) = drop (Z.to_nat first) ledger.
Proof.
  intros Hf Hb Hrun Hreach. unfold verify_extends_ledger in Hrun.
  apply r_bind_ok in Hrun as ([] & Hle & Hrun). apply ensure_ok, Z.leb_le in Hle.
  destruct (Z.ltb_spec (Z.of_nat (length (tilp_transaction_infos p)))
    (Z.of_nat (length ledger) - first)) as [|Hge]; [lia|].
  apply r_bind_ok in Hrun as (acc & Hnew & Hrun). apply r_bind_ok in Hrun as (acc' & Happ & Hrun).
  apply r_bind_ok in Hrun as ([] & Hroot & [= <-]). apply ensure_ok, Z.eqb_eq in Hroot.
  split; [done|]. set (n := Z.to_nat (Z.of_nat (length ledger) - first)) in *.
  assert (Hlen : length (take n (tilp_transaction_infos p)) = n) by (apply length_take_le; lia).
  eapply append_root_inv in Hnew as (l0 & Hl & _); [|done| | |exact Happ|exact Hroot].
  2,3: rewrite ?length_fmap, ?Hlen; lia.
  apply (inj (fmap crypto_hash)). rewrite fmap_drop, Hl.
  rewrite drop_app_length'; [done|].
  apply (f_equal length) in Hl. rewrite length_app, !length_fmap, Hlen in Hl. lia.
Qed.

Lemma verify_extends_ledger_witness :
  1 = Z.of_nat (length sample_ledger) - 1 ∧
  take 1 [tip_transaction_info sample_info_proof] = drop 1 sample_ledger.
Proof.
  apply (verify_extends_ledger_sound (C:=ref_crypto) (ref_merkle_hasher 1) ref_txn_info_laws
    (ref_accumulator_laws 1)
    (mkTransactionInfoListWithProof
       (mkAccumulatorRangeProof [crypto_hash (C:=ref_crypto) (TransactionInfo_new 1 2 3 0 Executed)] [])
       [tip_transaction_info sample_info_proof]) sample_ledger 1 1);
    [lia|vm_compute; congruence|vm_compute; reflexivity|vm_compute; congruence].
Defined.
