(* ===== verification/NibblePath.v ===== *)
(** * NibblePath: paths of four-bit steps

    Models src/types/src/nibble/mod.rs and src/types/src/nibble/nibble_path/mod.rs: a path in the
    state tree, two nibbles to a byte, with its iterators.  The byte form is related to the list
    of nibbles it stands for ([path_of]); the nibbles of a key are [key_nibbles]. *)

From S2P Require Import Prelude Crypto.

Local Open Scope nat_scope.

(** [HashValue::LENGTH * 2] *)
Definition ROOT_NIBBLE_HEIGHT : nat := 64.

Abbreviation Nibble := Z (only parsing).

(** [Nibble::from] *)
Definition Nibble_from (nibble : Z) : AnyResult Nibble :=
  if (nibble <? 16)%Z then Ok nibble else Panic "Nibble out of range".

(** [HashValue::to_vec] and [HashValue::from_slice] *)
Definition HashValue_to_vec (h : HashValue) : Bytes := hash_byte h <$> seqZ 0 HashValue_LENGTH.
Definition HashValue_from_slice (bytes : Bytes) : option HashValue :=
  if length bytes =? 32 then Some (HashValue_new bytes) else None.

(** ** NibblePath *)

Record NibblePath := mkNibblePath {
  num_nibbles : nat;
  np_bytes : Bytes;
}.
Global Instance NibblePath_eq_dec : EqDecision NibblePath.
Proof. solve_decision. Defined.
Global Instance NibblePath_countable : Countable NibblePath.
Proof. apply (inj_countable' (λ p, (num_nibbles p, np_bytes p)) (λ x, mkNibblePath x.1 x.2)). by intros []. Defined.

Definition NibblePath_new (bytes : Bytes) : AnyResult NibblePath :=
  if length bytes <=? ROOT_NIBBLE_HEIGHT / 2 then Ok (mkNibblePath (length bytes * 2) bytes)
  else Panic "assertion failed: bytes.len() <= ROOT_NIBBLE_HEIGHT / 2".

Definition NibblePath_new_odd (bytes : Bytes) : AnyResult NibblePath :=
  if length bytes <=? ROOT_NIBBLE_HEIGHT / 2 then
    let? b := expect (last bytes) "Should have odd number of nibbles." in
    if (Z.land b 15 =? 0)%Z then Ok (mkNibblePath (length bytes * 2 - 1) bytes) else Panic "Last nibble must be 0."
  else Panic "assertion failed: bytes.len() <= ROOT_NIBBLE_HEIGHT / 2".

Definition NibblePath_push (p : NibblePath) (nibble : Nibble) : AnyResult NibblePath :=
  if num_nibbles p <? ROOT_NIBBLE_HEIGHT then
    if Nat.even (num_nibbles p) then Ok (mkNibblePath (num_nibbles p + 1) (np_bytes p ++ [Z.shiftl nibble 4]))
    else
      let? b := expect (np_bytes p !! (num_nibbles p / 2)) "index out of bounds" in
      Ok (mkNibblePath (num_nibbles p + 1) (<[num_nibbles p / 2 := Z.lor b nibble]> (np_bytes p)))
  else Panic "assertion failed: ROOT_NIBBLE_HEIGHT > self.num_nibbles".

Definition NibblePath_pop (p : NibblePath) : option Nibble * NibblePath :=
  match last (np_bytes p) with
  | None => (None, p)
  | Some last_byte =>
      if Nat.even (num_nibbles p)
      then (Some (Z.land last_byte 15),
            mkNibblePath (num_nibbles p - 1) (take (length (np_bytes p) - 1) (np_bytes p) ++ [Z.land last_byte 240]))
      else (Some (Z.shiftr last_byte 4), mkNibblePath (num_nibbles p - 1) (take (length (np_bytes p) - 1) (np_bytes p)))
  end.

Definition NibblePath_get_nibble (p : NibblePath) (i : nat) : AnyResult Nibble :=
  if i <? num_nibbles p then
    let? b := expect (np_bytes p !! (i / 2)) "index out of bounds" in
    Nibble_from (Z.land (Z.shiftr b (if Nat.odd i then 0 else 4)) 15)
  else Panic "assertion failed: i < self.num_nibbles".

Definition NibblePath_is_empty (p : NibblePath) : bool := num_nibbles p =? 0.

(** ** NibbleIterator *)

(** [ni_pos] and [ni_end] are the range [pos]. *)
Record NibbleIterator := mkNibbleIterator {
  ni_path : NibblePath;
  ni_start : nat;
  ni_pos : nat;
  ni_end : nat;
}.

Definition NibbleIterator_new (p : NibblePath) (start end_ : nat) : NibbleIterator := mkNibbleIterator p start start end_.
Definition NibblePath_nibbles (p : NibblePath) : NibbleIterator := NibbleIterator_new p 0 (num_nibbles p).

Definition ni_peek (it : NibbleIterator) : AnyResult (option Nibble) :=
  if ni_pos it <? ni_end it then let? n := NibblePath_get_nibble (ni_path it) (ni_pos it) in Ok (Some n)
  else Ok None.
Definition ni_next (it : NibbleIterator) : AnyResult (option Nibble * NibbleIterator) :=
  if ni_pos it <? ni_end it then
    let? n := NibblePath_get_nibble (ni_path it) (ni_pos it) in
    Ok (Some n, mkNibbleIterator (ni_path it) (ni_start it) (ni_pos it + 1) (ni_end it))
  else Ok (None, it).

Definition ni_visited_nibbles (it : NibbleIterator) : NibbleIterator := NibbleIterator_new (ni_path it) (ni_start it) (ni_pos it).
Definition ni_remaining_nibbles (it : NibbleIterator) : NibbleIterator := NibbleIterator_new (ni_path it) (ni_pos it) (ni_end it).
Definition ni_is_finished (it : NibbleIterator) : AnyResult bool :=
  let? o := ni_peek it in Ok (match o with None => true | Some _ => false end).

(** [collect]: pushes the nibbles of the iterator on a path. *)
Definition ni_collect (p : NibblePath) (it : NibbleIterator) : AnyResult NibblePath :=
  r_fold (λ p i, let? n := NibblePath_get_nibble (ni_path it) i in NibblePath_push p n)
    (seq (ni_pos it) (ni_end it - ni_pos it)) p.
Definition empty_path : NibblePath := mkNibblePath 0 [].
Definition ni_get_nibble_path (it : NibbleIterator) : AnyResult NibblePath :=
  let? p := ni_collect empty_path (ni_visited_nibbles it) in ni_collect p (ni_remaining_nibbles it).

(** The loop ends when [x] does: [fuel] is the number of nibbles left in it, plus one. *)
Fixpoint skip_loop (fuel : nat) (x y : NibbleIterator) (count : nat) : AnyResult (nat * NibbleIterator * NibbleIterator) :=
  match fuel with
  | O => Ok (count, x, y)
  | S fuel =>
      let? x_peek := ni_peek x in
      let? y_peek := ni_peek y in
      match x_peek, y_peek with
      | Some a, Some b =>
          if (a =? b)%Z then
            let? (_, x) := ni_next x in
            let? (_, y) := ni_next y in
            skip_loop fuel x y (count + 1)
          else Ok (count, x, y)
      | _, _ => Ok (count, x, y)
      end
  end.
Definition skip_common_prefix (x y : NibbleIterator) : AnyResult (nat * NibbleIterator * NibbleIterator) :=
  skip_loop (ni_end x - ni_pos x + 1) x y 0.

(** ** Paths and lists of nibbles *)

Definition is_nibble (n : Z) : Prop := (0 ≤ n < 16)%Z.

(** Two nibbles to a byte, the last one padded with zero. *)
Fixpoint pack_nibbles (ns : list Z) : Bytes :=
  match ns with
  | [] => []
  | [a] => [Z.shiftl a 4]
  | a :: b :: ns => Z.lor (Z.shiftl a 4) b :: pack_nibbles ns
  end.
Definition path_of (ns : list Z) : NibblePath := mkNibblePath (length ns) (pack_nibbles ns).

(** The nibbles of a key. *)
Definition key_nibbles (k : HashValue) : list Z := HashValue_nibble k <$> seqZ 0 64.
Definition is_hash (k : HashValue) : Prop := (0 ≤ k < 2 ^ 256)%Z.

(** Properties of pairs of nibbles are checked on all of them. *)
Lemma nibble_pairs (P : Z → Z → bool) :
  forallb (λ a, forallb (P a) (seqZ 0 16)) (seqZ 0 16) = true → ∀ a b, is_nibble a → is_nibble b → P a b = true.
Proof.
  rewrite forallb_forall. intros H a b Ha Hb. specialize (H a). rewrite forallb_forall in H.
  apply H; apply list_elem_of_In, elem_of_seqZ; unfold is_nibble in *; lia.
Qed.
Lemma byte_high a b : is_nibble a → is_nibble b → Z.land (Z.shiftr (Z.lor (Z.shiftl a 4) b) 4) 15 = a.
Proof. intros Ha Hb. apply Z.eqb_eq. revert a b Ha Hb. apply nibble_pairs. vm_compute. reflexivity. Qed.
Lemma byte_low a b : is_nibble a → is_nibble b → Z.land (Z.shiftr (Z.lor (Z.shiftl a 4) b) 0) 15 = b.
Proof. intros Ha Hb. apply Z.eqb_eq. revert a b Ha Hb. apply nibble_pairs. vm_compute. reflexivity. Qed.
Lemma byte_clear_low a b : is_nibble a → is_nibble b → Z.land (Z.lor (Z.shiftl a 4) b) 240 = Z.shiftl a 4.
Proof. intros Ha Hb. apply Z.eqb_eq. revert a b Ha Hb. apply nibble_pairs. vm_compute. reflexivity. Qed.
Lemma byte_pad a : is_nibble a → Z.shiftl a 4 = Z.lor (Z.shiftl a 4) 0.
Proof. intros _. by rewrite Z.lor_0_r. Qed.
Lemma nibble_zero : is_nibble 0.
Proof. unfold is_nibble. lia. Qed.

Lemma pack_length ns : length (pack_nibbles ns) = (length ns + 1) / 2.
Proof.
  induction ns as [| |a b ns IH] using list_pair_ind; [done..|]. cbn [pack_nibbles length]. rewrite IH.
  replace (S (S (length ns)) + 1) with (length ns + 1 + 1 * 2) by lia. rewrite Nat.div_add by lia. lia.
Qed.

(** The byte of a nibble. *)
Lemma pack_lookup ns i n : Forall is_nibble ns → ns !! i = Some n →
  ∃ b, pack_nibbles ns !! (i / 2) = Some b ∧ Z.land (Z.shiftr b (if Nat.odd i then 0 else 4)) 15 = n.
Proof.
  revert i. induction ns as [|a|a b ns IH] using list_pair_ind; intros i Hns Hi; [done|..].
  - destruct i as [|i]; [|done]. injection Hi as ->. inversion Hns; subst. exists (Z.shiftl n 4). split; [done|].
    rewrite byte_pad by done. by apply byte_high, nibble_zero.
  - apply Forall_cons in Hns as [Ha Hns]. apply Forall_cons in Hns as [Hb Hns].
    destruct i as [|[|i]]; simpl in Hi; simplify_eq.
    + exists (Z.lor (Z.shiftl n 4) b). split; [done|]. by apply byte_high.
    + exists (Z.lor (Z.shiftl a 4) n). split; [done|]. by apply byte_low.
    + destruct (IH i Hns Hi) as (c & Hc & Hn). exists c.
      replace (S (S i) / 2) with (S (i / 2)) by (replace (S (S i)) with (i + 1 * 2) by lia; rewrite Nat.div_add by lia; lia).
      split; [done|]. done.
Qed.

Lemma get_nibble_path_of ns i n : Forall is_nibble ns → ns !! i = Some n → NibblePath_get_nibble (path_of ns) i = Ok n.
Proof.
  intros Hns Hi. unfold NibblePath_get_nibble, path_of. cbn [num_nibbles np_bytes].
  rewrite (proj2 (Nat.ltb_lt _ _)) by (by eapply lookup_lt_Some).
  destruct (pack_lookup _ _ _ Hns Hi) as (b & -> & Hb). cbn [expect r_bind]. rewrite Hb. unfold Nibble_from.
  rewrite (proj2 (Z.ltb_lt _ _)); [done|]. rewrite Forall_lookup in Hns. apply Hns in Hi. unfold is_nibble in Hi. lia.
Qed.

Lemma path_of_inj ns ns' : Forall is_nibble ns → Forall is_nibble ns' → path_of ns = path_of ns' → ns = ns'.
Proof.
  intros H H' Heq. assert (length ns = length ns') as Hlen by (by injection Heq).
  apply list_eq_same_length with (length ns); [done..|]. intros i x y Hi Hx Hy.
  pose proof (get_nibble_path_of _ _ _ H Hx) as Hp. pose proof (get_nibble_path_of _ _ _ H' Hy) as Hp'.
  rewrite Heq in Hp. congruence.
Qed.

Lemma even_div_2 n : Nat.even n = true → n = n / 2 * 2.
Proof. intros [m ->]%Nat.even_spec. rewrite (Nat.mul_comm 2 m), Nat.div_mul by lia. done. Qed.
Lemma odd_div_2 n : Nat.even n = false → n = n / 2 * 2 + 1.
Proof.
  intros H. rewrite <- Nat.negb_odd in H. apply negb_false_iff, Nat.odd_spec in H as [m ->].
  replace (2 * m + 1) with (1 + m * 2) at 2 by lia. rewrite Nat.div_add by lia. change (1 / 2) with 0. lia.
Qed.

Lemma pack_app_even ns n : Nat.even (length ns) = true → pack_nibbles (ns ++ [n]) = pack_nibbles ns ++ [Z.shiftl n 4].
Proof. induction ns as [| |a b ns IH] using list_pair_ind; intros H; [done..|]. cbn. f_equal. by apply IH. Qed.
Lemma pack_app_odd ns a n : Nat.even (length ns) = true →
  pack_nibbles ((ns ++ [a]) ++ [n]) = pack_nibbles ns ++ [Z.lor (Z.shiftl a 4) n].
Proof. induction ns as [| |x y ns IH] using list_pair_ind; intros H; [done..|]. cbn. f_equal. by apply IH. Qed.

Lemma push_path_of ns n : length ns < ROOT_NIBBLE_HEIGHT → NibblePath_push (path_of ns) n = Ok (path_of (ns ++ [n])).
Proof.
  intros Hl. unfold NibblePath_push, path_of. cbn [num_nibbles np_bytes]. rewrite (proj2 (Nat.ltb_lt _ _)) by done.
  destruct (Nat.even (length ns)) eqn:He.
  - by rewrite pack_app_even, length_app by done.
  - destruct ns as [|a ns _] using rev_ind; [done|]. rewrite length_app in *. cbn [length] in *.
    assert (Nat.even (length ns) = true) as He'.
    { rewrite Nat.add_1_r, Nat.even_succ, <- Nat.negb_even in He. by apply negb_false_iff in He. }
    rewrite pack_app_odd, pack_app_even by done.
    assert ((length ns + 1) / 2 = length (pack_nibbles ns)) as -> by (by rewrite pack_length).
    rewrite list_lookup_middle by done. cbn [expect r_bind]. rewrite insert_app_r_alt by lia.
    rewrite Nat.sub_diag. cbn. do 2 f_equal. rewrite !length_app. simpl. lia.
Qed.

Lemma pop_path_of ns n : Forall is_nibble ns → is_nibble n → NibblePath_pop (path_of (ns ++ [n])) = (Some n, path_of ns).
Proof.
  intros Hns Hn. unfold NibblePath_pop, path_of. cbn [num_nibbles np_bytes]. rewrite length_app. cbn [length].
  destruct (Nat.even (length ns)) eqn:He.
  - rewrite pack_app_even, last_snoc by done. rewrite Nat.add_1_r, Nat.even_succ, <- Nat.negb_even, He. simpl.
    rewrite length_app. cbn [length]. rewrite Nat.add_sub, take_app_length, Nat.sub_0_r. f_equal. f_equal.
    rewrite Z.shiftr_shiftl_l, Z.shiftl_0_r by lia. done.
  - destruct ns as [|a ns _] using rev_ind; [done|]. apply Forall_app in Hns as [Hns Ha]. inversion Ha as [|? ? Ha' _]; subst.
    rewrite length_app in *. cbn [length] in *. assert (Nat.even (length ns) = true) as He'.
    { rewrite Nat.add_1_r, Nat.even_succ, <- Nat.negb_even in He. by apply negb_false_iff in He. }
    rewrite pack_app_odd, last_snoc by done. replace (length ns + 1 + 1) with (S (S (length ns))) by lia. simpl.
    rewrite He'. rewrite length_app. cbn [length]. rewrite Nat.add_sub, take_app_length, byte_clear_low by done.
    rewrite pack_app_even by done. f_equal; [|f_equal; lia]. f_equal. rewrite <- (Z.shiftr_0_r (Z.lor _ _)). by apply byte_low.
Qed.

(** ** Keys *)

Local Ltac div_lia := Z.to_euclidean_division_equations; lia.

Lemma hash_byte_bits h pos i : (0 ≤ i < 8)%Z → (0 ≤ pos < 32)%Z → Z.testbit (hash_byte h pos) i = Z.testbit h (8 * (31 - pos) + i).
Proof.
  intros Hi Hp. unfold hash_byte. change HashValue_LENGTH with 32%Z. change 255%Z with (Z.ones 8).
  rewrite Z.land_ones, Z.mod_pow2_bits_low, Z.shiftr_spec by lia. f_equal. lia.
Qed.
Lemma hash_byte_range h pos : (0 ≤ hash_byte h pos < 256)%Z.
Proof. unfold hash_byte. change 255%Z with (Z.ones 8). rewrite Z.land_ones by lia. apply Z.mod_pos_bound. lia. Qed.
Lemma HashValue_bit_testbit h i : (0 ≤ i < 256)%Z → HashValue_bit h i = Z.testbit h (255 - i).
Proof.
  intros Hi. unfold HashValue_bit. change 1%Z with (Z.ones 1). rewrite Z.land_ones by lia. change (2 ^ 1)%Z with 2%Z.
  rewrite <- Z.bit0_mod, Z.shiftr_spec, hash_byte_bits by div_lia.
  replace (8 * (31 - i / 8) + (0 + (7 - i mod 8)))%Z with (255 - i)%Z by div_lia. by destruct (Z.testbit h _).
Qed.
Lemma HashValue_nibble_testbit h i j : (0 ≤ i < 64)%Z → (0 ≤ j < 4)%Z →
  Z.testbit (HashValue_nibble h i) j = Z.testbit h (252 - 4 * i + j).
Proof.
  intros Hi Hj. unfold HashValue_nibble. change 15%Z with (Z.ones 4). rewrite Z.land_ones, Z.mod_pow2_bits_low, Z.shiftr_spec by lia.
  destruct (Z.eqb_spec (i mod 2) 0); rewrite hash_byte_bits by div_lia; f_equal; div_lia.
Qed.
Lemma HashValue_nibble_range h i : is_nibble (HashValue_nibble h i).
Proof. unfold HashValue_nibble, is_nibble. change 15%Z with (Z.ones 4). rewrite Z.land_ones by lia. apply Z.mod_pos_bound. lia. Qed.

Lemma key_nibbles_length k : length (key_nibbles k) = 64.
Proof. unfold key_nibbles. by rewrite length_fmap, length_seqZ. Qed.
Lemma key_nibbles_range k : Forall is_nibble (key_nibbles k).
Proof. apply Forall_fmap, Forall_forall. intros i _. apply HashValue_nibble_range. Qed.
Lemma key_nibbles_lookup k i : i < 64 → key_nibbles k !! i = Some (HashValue_nibble k (Z.of_nat i)).
Proof. intros Hi. unfold key_nibbles. rewrite list_lookup_fmap, lookup_seqZ_lt by lia. by rewrite Z.add_0_l. Qed.

(** The four bits of a nibble, most significant first. *)
Definition nibble_bits (n : Z) : list bool := Z.testbit n <$> [3; 2; 1; 0]%Z.
Definition path_bits (ns : list Z) : list bool := ns ≫= nibble_bits.

Lemma key_bits k : HashValue_iter_bits k = path_bits (key_nibbles k).
Proof.
  transitivity ((λ i, Z.testbit k (255 - i)) <$> seqZ 0 256).
  { unfold HashValue_iter_bits. apply list_fmap_ext. intros ? i Hi. apply lookup_seqZ in Hi. apply HashValue_bit_testbit. lia. }
  transitivity (seqZ 0 64 ≫= λ i, (λ j, Z.testbit k (252 - 4 * i + j)) <$> [3; 2; 1; 0]%Z); [reflexivity|].
  unfold path_bits, key_nibbles. assert (∀ l, Forall (λ i, 0 ≤ i < 64)%Z l →
    (l ≫= λ i, (λ j, Z.testbit k (252 - 4 * i + j)) <$> [3; 2; 1; 0]%Z) = (HashValue_nibble k <$> l) ≫= nibble_bits) as H.
  { induction 1 as [|i l Hi _ IH]; [done|]. cbn [mbind list_bind fmap list_fmap]. f_equal; [|exact IH].
    unfold nibble_bits. cbn [fmap list_fmap]. by rewrite !HashValue_nibble_testbit by lia. }
  apply H, Forall_forall. intros i Hi%elem_of_seqZ. lia.
Qed.
Lemma path_bits_app p q : path_bits (p ++ q) = path_bits p ++ path_bits q.
Proof. unfold path_bits. by rewrite bind_app. Qed.
Lemma path_bits_length p : length (path_bits p) = 4 * length p.
Proof. induction p as [|n p IH]; [done|]. cbn. unfold path_bits in IH. rewrite IH. lia. Qed.

Lemma byte_split b : (0 ≤ b < 256)%Z → Z.lor (Z.shiftl (Z.land (Z.shiftr b 4) 15) 4) (Z.land (Z.shiftr b 0) 15) = b.
Proof.
  intros Hb. apply Z.eqb_eq. assert (forallb (λ b, Z.lor (Z.shiftl (Z.land (Z.shiftr b 4) 15) 4) (Z.land (Z.shiftr b 0) 15) =? b)%Z
    (seqZ 0 256) = true) as H by (vm_compute; reflexivity).
  rewrite forallb_forall in H. apply H, list_elem_of_In, elem_of_seqZ. lia.
Qed.
Lemma to_vec_pack k : HashValue_to_vec k = pack_nibbles (key_nibbles k).
Proof.
  transitivity ((λ i, Z.lor (Z.shiftl (HashValue_nibble k (2 * i)) 4) (HashValue_nibble k (2 * i + 1))) <$> seqZ 0 32);
    [|reflexivity].
  unfold HashValue_to_vec. apply list_fmap_ext. intros ? i _. unfold HashValue_nibble.
  rewrite (Z.mul_comm 2 i), Z.div_mul, Z.mod_mul by lia. rewrite Z.div_add_l by lia. change (1 / 2)%Z with 0%Z. rewrite Z.add_0_r.
  rewrite (Z.add_comm (i * 2)), Z.mod_add by lia. cbn [Z.eqb]. change (1 mod 2 =? 0)%Z with false. cbn iota.
  symmetry. apply byte_split, hash_byte_range.
Qed.
Lemma key_path k : NibblePath_new (HashValue_to_vec k) = Ok (path_of (key_nibbles k)).
Proof.
  unfold NibblePath_new. rewrite to_vec_pack. unfold path_of. rewrite key_nibbles_length, pack_length, key_nibbles_length. done.
Qed.

Lemma new_to_vec_take k n : is_hash k → n ≤ 32 →
  HashValue_new (take n (HashValue_to_vec k)) = Z.shiftr k (8 * (32 - Z.of_nat n)).
Proof.
  intros Hk. unfold HashValue_new. induction n as [|n IH]; intros Hn.
  - change (8 * (32 - Z.of_nat 0))%Z with 256%Z. rewrite Z.shiftr_div_pow2, Z.div_small by (unfold is_hash in Hk; lia). done.
  - assert (HashValue_to_vec k !! n = Some (hash_byte k (Z.of_nat n))) as Hb.
    { unfold HashValue_to_vec. rewrite list_lookup_fmap, lookup_seqZ_lt by (change HashValue_LENGTH with 32%Z; lia). by rewrite Z.add_0_l. }
    rewrite (take_S_r _ _ _ Hb), foldl_snoc, IH by lia. unfold hash_byte. change HashValue_LENGTH with 32%Z.
    change 255%Z with (Z.ones 8). rewrite Z.land_ones by lia. rewrite !Z.shiftr_div_pow2 by lia. change (2 ^ 8)%Z with 256%Z.
    replace (2 ^ (8 * (32 - Z.of_nat n)))%Z with (2 ^ (8 * (32 - 1 - Z.of_nat n)) * 256)%Z.
    2:{ change 256%Z with (2 ^ 8)%Z. rewrite <- Z.pow_add_r by lia. f_equal. lia. }
    rewrite <- Z.div_div by lia. replace (32 - Z.of_nat (S n))%Z with (32 - 1 - Z.of_nat n)%Z by lia. div_lia.
Qed.
Lemma key_from_path k : is_hash k → HashValue_from_slice (np_bytes (path_of (key_nibbles k))) = Some k.
Proof.
  intros Hk. unfold path_of. cbn [np_bytes]. rewrite <- to_vec_pack. unfold HashValue_from_slice.
  assert (length (HashValue_to_vec k) = 32) as Hl by (unfold HashValue_to_vec; by rewrite length_fmap, length_seqZ).
  rewrite Hl. change (32 =? 32) with true. cbn iota. rewrite <- (take_ge (HashValue_to_vec k) 32) at 1 by lia.
  rewrite new_to_vec_take by (done || lia). change (8 * (32 - Z.of_nat 32))%Z with 0%Z. by rewrite Z.shiftr_0_r.
Qed.
Lemma key_nibbles_inj k k' : is_hash k → is_hash k' → key_nibbles k = key_nibbles k' → k = k'.
Proof. intros Hk Hk' H. apply key_from_path in Hk, Hk'. rewrite H in Hk. congruence. Qed.

(** ** Iterators over the nibbles of a list *)

Abbreviation iter ns start pos end_ := (mkNibbleIterator (path_of ns) start pos end_).
(** The nibbles an iterator has not visited. *)
Definition slice (ns : list Z) (pos end_ : nat) : list Z := take (end_ - pos) (drop pos ns).

Fixpoint common_len (l1 l2 : list Z) : nat :=
  match l1, l2 with
  | a :: l1, b :: l2 => if (a =? b)%Z then S (common_len l1 l2) else 0
  | _, _ => 0
  end.

Section iterators.
Context (ns : list Z) (Hns : Forall is_nibble ns).

Lemma slice_cons pos end_ n : ns !! pos = Some n → pos < end_ → slice ns pos end_ = n :: slice ns (pos + 1) end_.
Proof.
  intros Hn Hlt. unfold slice. rewrite (drop_S _ _ _ Hn). replace (end_ - pos) with (S (end_ - (pos + 1))) by lia.
  simpl. by rewrite Nat.add_1_r.
Qed.
Lemma slice_nil pos end_ : end_ ≤ pos → slice ns pos end_ = [].
Proof. intros H. unfold slice. by replace (end_ - pos) with 0 by lia. Qed.
Lemma slice_head pos end_ : end_ ≤ length ns → pos < end_ → ∃ n, ns !! pos = Some n.
Proof. intros He Hlt. apply lookup_lt_is_Some. lia. Qed.

Lemma ni_peek_at start pos end_ : end_ ≤ length ns → ni_peek (iter ns start pos end_) = Ok (head (slice ns pos end_)).
Proof using Hns.
  intros He. unfold ni_peek. cbn [ni_pos ni_end ni_path]. destruct (Nat.ltb_spec pos end_).
  - destruct (slice_head pos end_) as [n Hn]; [done..|]. by rewrite (get_nibble_path_of _ _ _ Hns Hn), (slice_cons _ _ _ Hn).
  - by rewrite slice_nil.
Qed.
Lemma ni_next_at start pos end_ n : ns !! pos = Some n → pos < end_ →
  ni_next (iter ns start pos end_) = Ok (Some n, iter ns start (pos + 1) end_).
Proof using Hns.
  intros Hn Hlt. unfold ni_next. cbn [ni_pos ni_end ni_path ni_start]. rewrite (proj2 (Nat.ltb_lt _ _)) by done.
  by rewrite (get_nibble_path_of _ _ _ Hns Hn).
Qed.
Lemma ni_next_end start pos end_ : end_ ≤ pos → ni_next (iter ns start pos end_) = Ok (None, iter ns start pos end_).
Proof. intros H. unfold ni_next. cbn [ni_pos ni_end]. by rewrite (proj2 (Nat.ltb_ge _ _)). Qed.
Lemma ni_is_finished_at start pos end_ : end_ ≤ length ns → ni_is_finished (iter ns start pos end_) = Ok (end_ <=? pos).
Proof using Hns.
  intros He. unfold ni_is_finished. rewrite ni_peek_at by done. cbn [r_bind]. destruct (Nat.leb_spec end_ pos).
  - by rewrite slice_nil.
  - destruct (slice_head pos end_) as [n Hn]; [done..|]. by rewrite (slice_cons _ _ _ Hn).
Qed.

Lemma ni_collect_at p start pos end_ : end_ ≤ length ns → length p + (end_ - pos) ≤ ROOT_NIBBLE_HEIGHT →
  ni_collect (path_of p) (iter ns start pos end_) = Ok (path_of (p ++ slice ns pos end_)).
Proof using Hns.
  intros He Hlen. unfold ni_collect. cbn [ni_pos ni_end ni_path].
  remember (end_ - pos) as k eqn:Hk. revert p pos Hlen Hk. induction k as [|k IH]; intros p pos Hlen Hk; cbn [seq r_fold].
  - by rewrite slice_nil, app_nil_r by lia.
  - destruct (slice_head pos end_) as [n Hn]; [lia..|]. rewrite (get_nibble_path_of _ _ _ Hns Hn). cbn [r_bind].
    rewrite push_path_of by lia. cbn [r_bind]. rewrite <- Nat.add_1_r. rewrite IH by (rewrite ?length_app; simpl; lia).
    rewrite (slice_cons pos end_ n) by (done || lia). by rewrite <- app_assoc.
Qed.
Lemma ni_get_nibble_path_at pos : length ns ≤ ROOT_NIBBLE_HEIGHT → pos ≤ length ns →
  ni_get_nibble_path (iter ns 0 pos (length ns)) = Ok (path_of ns).
Proof using Hns.
  intros Hl Hpos. unfold ni_get_nibble_path, ni_visited_nibbles, ni_remaining_nibbles, NibbleIterator_new.
  cbn [ni_path ni_start ni_pos ni_end]. change empty_path with (path_of []). rewrite ni_collect_at by (simpl; lia). cbn [r_bind].
  rewrite ni_collect_at.
  - do 2 f_equal. unfold slice. rewrite Nat.sub_0_r, drop_0, (take_ge (drop pos ns)) by (rewrite length_drop; lia).
    apply take_drop.
  - lia.
  - unfold slice. rewrite app_nil_l, length_take, length_drop. lia.
Qed.
End iterators.

Lemma skip_loop_at x y sx sy ex ey fuel px py count :
  Forall is_nibble x → Forall is_nibble y → ex ≤ length x → ey ≤ length y → ex - px < fuel →
  let n := common_len (slice x px ex) (slice y py ey) in
  skip_loop fuel (iter x sx px ex) (iter y sy py ey) count = Ok (count + n, iter x sx (px + n) ex, iter y sy (py + n) ey).
Proof.
  intros Hx Hy Hex Hey. revert px py count. induction fuel as [|fuel IH]; intros px py count Hf; [lia|]. cbn [skip_loop].
  rewrite !ni_peek_at by done. cbn [r_bind]. cbv zeta.
  destruct (Nat.lt_ge_cases px ex) as [Hpx|Hpx]; [|rewrite (slice_nil x) by done; simpl; by rewrite !Nat.add_0_r].
  destruct (slice_head x px ex) as [a Ha]; [done..|]. rewrite (slice_cons x _ _ _ Ha) by done. cbn [head hd_error].
  destruct (Nat.lt_ge_cases py ey) as [Hpy|Hpy]; [|rewrite (slice_nil y) by done; simpl; by rewrite !Nat.add_0_r].
  destruct (slice_head y py ey) as [b Hb]; [done..|]. rewrite (slice_cons y _ _ _ Hb) by done. cbn.
  destruct (Z.eqb_spec a b) as [->|Hne]; [|by rewrite !Nat.add_0_r].
  rewrite (ni_next_at x Hx _ _ _ _ Ha), (ni_next_at y Hy _ _ _ _ Hb) by done. cbn [r_bind].
  rewrite IH by lia. cbv zeta. rewrite <- !Nat.add_assoc, Nat.add_1_l. done.
Qed.
Lemma skip_common_prefix_at x y sx sy px py ex ey : Forall is_nibble x → Forall is_nibble y → ex ≤ length x → ey ≤ length y →
  let n := common_len (slice x px ex) (slice y py ey) in
  skip_common_prefix (iter x sx px ex) (iter y sy py ey) = Ok (n, iter x sx (px + n) ex, iter y sy (py + n) ey).
Proof. intros Hx Hy Hex Hey. unfold skip_common_prefix. cbn [ni_pos ni_end]. apply (skip_loop_at x y sx sy ex ey _ px py 0); done || lia. Qed.

Lemma common_len_prefix l1 l2 : take (common_len l1 l2) l1 = take (common_len l1 l2) l2.
Proof. revert l2. induction l1 as [|a l1 IH]; intros [|b l2]; try done. simpl. destruct (Z.eqb_spec a b) as [->|]; [|done]. simpl. by rewrite IH. Qed.
Lemma common_len_diff l1 l2 a b : l1 !! common_len l1 l2 = Some a → l2 !! common_len l1 l2 = Some b → a ≠ b.
Proof.
  revert l2. induction l1 as [|x l1 IH]; intros [|y l2]; try done. simpl. destruct (Z.eqb_spec x y) as [->|]; simpl; [apply IH|]. congruence.
Qed.
Lemma common_len_le l1 l2 : common_len l1 l2 ≤ length l1 ∧ common_len l1 l2 ≤ length l2.
Proof.
  revert l2. induction l1 as [|x l1 IH]; intros [|y l2]; simpl; try lia. destruct (x =? y)%Z; simpl; [|lia].
  specialize (IH l2). lia.
Qed.
