(* ===== verification/JellyfishNode.v ===== *)
(** * JellyfishNode: the nodes of the Jellyfish Merkle tree

    Models src/storage/jellyfish-merkle/src/node_type/mod.rs: node keys, children, internal nodes
    with sixteen children and their hash as a binary tree of four levels, and leaves.  Shows that
    the hash and the siblings of a child are those of that binary tree ([expand]).  The maps of
    children are iterated in some order, on which no result depends.  A bitmap is a u16. *)

From S2P Require Import Prelude Bits Crypto Accumulator SparseMerkle NibblePath.

(** ** Node keys *)

Record NodeKey := mkNodeKey {
  nk_version : Z;
  nk_nibble_path : NibblePath;
}.
Global Instance NodeKey_eq_dec : EqDecision NodeKey.
Proof. solve_decision. Defined.
Global Instance NodeKey_countable : Countable NodeKey.
Proof. apply (inj_countable' (λ k, (nk_version k, nk_nibble_path k)) (λ x, mkNodeKey x.1 x.2)). by intros []. Defined.

Definition NodeKey_new_empty_path (version : Z) : NodeKey := mkNodeKey version empty_path.
Definition gen_child_node_key (k : NodeKey) (version : Z) (n : Nibble) : AnyResult NodeKey :=
  let? node_nibble_path := NibblePath_push (nk_nibble_path k) n in Ok (mkNodeKey version node_nibble_path).
Definition gen_parent_node_key (k : NodeKey) : AnyResult NodeKey :=
  match NibblePath_pop (nk_nibble_path k) with
  | (Some _, node_nibble_path) => Ok (mkNodeKey (nk_version k) node_nibble_path)
  | (None, _) => Panic "Current node key is root."
  end.
Definition set_version (version : Z) (k : NodeKey) : NodeKey := mkNodeKey version (nk_nibble_path k).

(** ** Internal nodes *)

Inductive NodeType := NTLeaf | NTInternalLegacy | NTInternal (leaf_count : Z).
Record Child := mkChild {
  c_hash : HashValue;
  c_version : Z;
  c_node_type : NodeType;
}.
Definition Child_is_leaf (c : Child) : bool := match c_node_type c with NTLeaf => true | _ => false end.
Definition Child_leaf_count (c : Child) : option Z :=
  match c_node_type c with
  | NTLeaf => Some 1
  | NTInternalLegacy => None
  | NTInternal leaf_count => Some leaf_count
  end.

Abbreviation Children := (gmap Z Child).

Record InternalNode := mkInternalNode {
  in_children : Children;
  in_leaf_count : option Z;
  in_leaf_count_migration : bool;
}.

Definition sum_leaf_count (children : Children) : option Z :=
  map_fold (λ _ child leaf_count, n ← Child_leaf_count child; m ← leaf_count; Some (wrap64 (m + n))) (Some 0) children.

Definition InternalNode_new_impl (children : Children) (leaf_count_migration : bool) : AnyResult InternalNode :=
  ensure (negb (size children =? 0)%nat) "Children must not be empty" ;?
  (if (size children =? 1)%nat then
     let? (_, child) := expect (head (map_to_list children)) "Must have 1 element" in
     ensure (negb (Child_is_leaf child)) "If there's only one child, it must not be a leaf."
   else Ok ()) ;?
  Ok (mkInternalNode children (sum_leaf_count children) leaf_count_migration).
Definition InternalNode_new_migration (children : Children) (leaf_count_migration : bool) : AnyResult InternalNode :=
  match InternalNode_new_impl children leaf_count_migration with
  | Err _ => Panic "Input children are logical."
  | r => r
  end.

Definition InternalNode_node_type (node : InternalNode) : NodeType :=
  match in_leaf_count node with Some leaf_count => NTInternal leaf_count | None => NTInternalLegacy end.

Definition InternalNode_child (node : InternalNode) (n : Nibble) : option Child := in_children node !! n.

Definition bitmap_step (i : Nibble) (child : Child) (bitmaps : Z * Z) : Z * Z :=
  (Z.lor bitmaps.1 (Z.shiftl 1 i), if Child_is_leaf child then Z.lor bitmaps.2 (Z.shiftl 1 i) else bitmaps.2).
(** The children that exist, and those that are leaves. *)
Definition generate_bitmaps (node : InternalNode) : AnyResult (Z * Z) :=
  let '(existence_bitmap, leaf_bitmap) :=
    map_fold bitmap_step (0, 0) (in_children node) in
  if Z.lor existence_bitmap leaf_bitmap =? existence_bitmap then Ok (existence_bitmap, leaf_bitmap)
  else Panic "assertion failed: `(left == right)`".

Definition range_bitmaps (start width : Z) (bitmaps : Z * Z) : AnyResult (Z * Z) :=
  if (start <? 16) && (count_ones width =? 1) && (start mod width =? 0) then
    if (width <=? 16) && (start + width <=? 16) then
      let mask := Z.land (Z.shiftl (Z.shiftl 1 width - 1) start) 65535 in
      Ok (Z.land bitmaps.1 mask, Z.land bitmaps.2 mask)
    else Panic "assertion failed: width <= 16 && (start + width) <= 16"
  else Panic "assertion failed: start < 16 && width.count_ones() == 1 && start % width == 0".

Section hash.
Context `{MH : MerkleHasher} `{LH : SparseLeafHasher}.

(** The width of the range is two to the power of [height]. *)
Fixpoint merkle_hash (node : InternalNode) (height : nat) (start : Z) (bitmaps : Z * Z) : AnyResult HashValue :=
  let width := Z.shiftl 1 (Z.of_nat height) in
  let? (range_existence_bitmap, range_leaf_bitmap) := range_bitmaps start width bitmaps in
  if range_existence_bitmap =? 0 then Ok SPARSE_MERKLE_PLACEHOLDER_HASH
  else if (width =? 1) || ((count_ones range_existence_bitmap =? 1) && negb (range_leaf_bitmap =? 0)) then
    let? only_child_index := Nibble_from (trailing_zeros range_existence_bitmap) in
    let? child := expect (InternalNode_child node only_child_index) "Corrupted internal node" in
    Ok (c_hash child)
  else
    match height with
    | O => Panic "not reached: the width is greater than one"
    | S height =>
        let? left_child := merkle_hash node height start (range_existence_bitmap, range_leaf_bitmap) in
        let? right_child := merkle_hash node height (start + width / 2) (range_existence_bitmap, range_leaf_bitmap) in
        Ok (merkle_node left_child right_child)
    end.

Definition InternalNode_hash (node : InternalNode) : AnyResult HashValue :=
  let? bitmaps := generate_bitmaps node in merkle_hash node 4 0 bitmaps.

(** On u8. *)
Definition get_child_and_sibling_half_start (n : Nibble) (height : Z) : Z * Z :=
  let child_half_start := Z.land (Z.shiftl 255 height mod 256) n in
  (child_half_start, Z.lxor child_half_start (Z.shiftl 1 height)).

(** The loop over the heights, from the height below the given one down. *)
Fixpoint child_with_siblings_loop (node : InternalNode) (node_key : NodeKey) (n : Nibble) (bitmaps : Z * Z) (heights : nat)
    (siblings : list HashValue) : AnyResult (option NodeKey * list HashValue) :=
  match heights with
  | O => Panic "Impossible to get here without returning even at the lowest level."
  | S h =>
      let width := Z.shiftl 1 (Z.of_nat h) in
      let '(child_half_start, sibling_half_start) := get_child_and_sibling_half_start n (Z.of_nat h) in
      let? sibling := merkle_hash node h sibling_half_start bitmaps in
      let siblings := siblings ++ [sibling] in
      let? (range_existence_bitmap, range_leaf_bitmap) := range_bitmaps child_half_start width bitmaps in
      if range_existence_bitmap =? 0 then Ok (None, siblings)
      else if (width =? 1) || ((count_ones range_existence_bitmap =? 1) && negb (range_leaf_bitmap =? 0)) then
        let? only_child_index := Nibble_from (trailing_zeros range_existence_bitmap) in
        let? child := expect (InternalNode_child node only_child_index) "Corrupted internal node" in
        let? k := gen_child_node_key node_key (c_version child) only_child_index in
        Ok (Some k, siblings)
      else child_with_siblings_loop node node_key n bitmaps h siblings
  end.
Definition get_child_with_siblings (node : InternalNode) (node_key : NodeKey) (n : Nibble)
    : AnyResult (option NodeKey * list HashValue) :=
  let? bitmaps := generate_bitmaps node in child_with_siblings_loop node node_key n bitmaps 4 [].
End hash.

(** ** Leaves and nodes *)

Section nodes.
Context `{C : Crypto} {V : Type} `{HV : CryptoHash V} `{MH : MerkleHasher} `{LH : SparseLeafHasher}.

Record LeafNode := mkLeafNode {
  ln_account_key : HashValue;
  ln_value_hash : HashValue;
  ln_value : V;
}.
Definition LeafNode_new (account_key : HashValue) (value : V) : LeafNode := mkLeafNode account_key (crypto_hash value) value.
(** [From<LeafNode>] for [SparseMerkleLeafNode] *)
Definition to_sparse_leaf (l : LeafNode) : SparseMerkleLeafNode := mkSparseMerkleLeafNode (ln_account_key l) (ln_value_hash l).
Definition LeafNode_hash (l : LeafNode) : HashValue := smln_hash (to_sparse_leaf l).

Inductive Node := Null | Internal (node : InternalNode) | Leaf (leaf : LeafNode).

Definition Node_is_leaf (n : Node) : bool := match n with Leaf _ => true | _ => false end.
Definition Node_node_type (n : Node) : AnyResult NodeType :=
  match n with
  | Null => Panic "internal error: entered unreachable code"
  | Leaf _ => Ok NTLeaf
  | Internal n => Ok (InternalNode_node_type n)
  end.
Definition Node_leaf_count (n : Node) : option Z :=
  match n with Null => Some 0 | Leaf _ => Some 1 | Internal n => in_leaf_count n end.
Definition Node_hash (n : Node) : AnyResult HashValue :=
  match n with
  | Null => Ok SPARSE_MERKLE_PLACEHOLDER_HASH
  | Internal internal_node => InternalNode_hash internal_node
  | Leaf leaf_node => Ok (LeafNode_hash leaf_node)
  end.
End nodes.
Arguments LeafNode V : clear implicits.
Arguments Node V : clear implicits.

(** ** The binary tree of an internal node *)

(** The children as subtrees, with a flag for leaves.  A range with one child that is a leaf is
    that leaf. *)
Fixpoint expand (h : nat) (start : Z) (f : Z → option (bool * smt)) : smt :=
  match h with
  | O => match f start with Some (_, t) => t | None => SEmpty end
  | S h' =>
      let halves := SNode (expand h' start f) (expand h' (start + 2 ^ Z.of_nat h') f) in
      match filter (λ n, is_Some (f n)) (seqZ start (2 ^ Z.of_nat h)) with
      | [] => SEmpty
      | [n] => match f n with Some (true, t) => t | _ => halves end
      | _ => halves
      end
  end.

Definition leaf_flag (c : option (bool * smt)) : bool := match c with Some (true, _) => true | _ => false end.

(** The bitmaps describe the children in a range. *)
Definition bitmaps_match (f : Z → option (bool * smt)) (bitmaps : Z * Z) (start width : Z) : Prop :=
  0 ≤ bitmaps.1 ∧ 0 ≤ bitmaps.2 ∧
  ∀ i, start ≤ i < start + width →
    Z.testbit bitmaps.1 i = bool_decide (is_Some (f i)) ∧ Z.testbit bitmaps.2 i = leaf_flag (f i).
(** A range of the binary tree. *)
Definition tree_range (h : nat) (start : Z) : Prop := (h ≤ 4)%nat ∧ 0 ≤ start ∧ start + 2 ^ Z.of_nat h ≤ 16 ∧ start mod 2 ^ Z.of_nat h = 0.

Lemma count_ones_pow2 (n : nat) : count_ones (2 ^ Z.of_nat n) = 1.
Proof. pose proof (count_ones_mul_pow2 1 n). rewrite Z.mul_1_l in H. by rewrite H. Qed.
Lemma trailing_zeros_pow2 n : 0 ≤ n → trailing_zeros (2 ^ n) = n.
Proof.
  intros Hn. pose proof (trailing_zeros_mul_pow2 1 (Z.to_nat n)) as H. rewrite Z.mul_1_l, Z2Nat.id in H by done.
  rewrite H by lia. change (trailing_zeros 1) with 0. lia.
Qed.
Lemma count_ones_one x : 0 ≤ x → count_ones x = 1 → ∃ n, 0 ≤ n ∧ x = 2 ^ n.
Proof.
  intros Hx H. destruct (Z.eq_dec x 0) as [->|Hne]; [done|]. destruct (trailing_zeros_spec x) as (m & Hm & Heq); [lia|].
  exists (trailing_zeros x). split; [apply trailing_zeros_nonneg|]. rewrite Heq in H.
  rewrite <- (Z2Nat.id (trailing_zeros x)) in H at 1 by apply trailing_zeros_nonneg.
  rewrite count_ones_mul_pow2, count_ones_succ_double in H by lia. assert (m = 0) as -> by (apply count_ones_zero; lia). lia.
Qed.

Lemma NoDup_singleton_eq {A} (l : list A) x : NoDup l → (∀ y, y ∈ l ↔ y = x) → l = [x].
Proof.
  intros Hnd H. apply Permutation_singleton_r. apply NoDup_Permutation; [done|apply NoDup_singleton|].
  intros y. by rewrite H, list_elem_of_singleton.
Qed.

Section range.
Context (f : Z → option (bool * smt)) (h : nat) (start : Z) (Hr : tree_range h start).
Local Abbreviation width := (2 ^ Z.of_nat h).
Local Abbreviation kids := (filter (λ n, is_Some (f n)) (seqZ start width)).

Lemma kids_elem n : n ∈ kids ↔ is_Some (f n) ∧ start ≤ n < start + width.
Proof. by rewrite list_elem_of_filter, elem_of_seqZ. Qed.
Lemma width_pos : 0 < width ≤ 16.
Proof using Hr. destruct Hr as (Hh & _). destruct h as [|[|[|[|[|]]]]]; simpl; lia. Qed.

Lemma range_bitmaps_ok bitmaps : bitmaps_match f bitmaps start width →
  ∃ re rl, range_bitmaps start (Z.shiftl 1 (Z.of_nat h)) bitmaps = Ok (re, rl) ∧ bitmaps_match f (re, rl) start width ∧
    ∀ i, ¬ (start ≤ i < start + width) → Z.testbit re i = false ∧ Z.testbit rl i = false.
Proof using Hr.
  intros (He & Hl & Hbits). pose proof width_pos as Hw. destruct Hr as (Hh & Hs & Hsw & Hmod). rewrite Z.shiftl_1_l.
  unfold range_bitmaps. rewrite (proj2 (Z.ltb_lt start 16)), (count_ones_pow2 h), Hmod by lia. cbn [Z.eqb andb Pos.eqb].
  rewrite !(proj2 (Z.leb_le _ _)) by lia. cbn [andb].
  set (mask := Z.land (Z.shiftl _ _) _). assert (Hmask : ∀ i, 0 ≤ i → Z.testbit mask i = bool_decide (start ≤ i < start + width)).
  { intros i Hi. unfold mask. rewrite Z.shiftl_1_l. change 65535 with (Z.ones 16). rewrite Z.land_spec, Z.shiftl_spec by done.
    rewrite Z.sub_1_r, <- Z.ones_equiv, (Z.testbit_ones 16) by lia. destruct (Z.le_gt_cases start i).
    - rewrite Z.testbit_ones by lia. case_bool_decide; [|apply andb_false_iff; left]; repeat
        match goal with |- context [Z.leb ?a ?b] => destruct (Z.leb_spec a b) | |- context [Z.ltb ?a ?b] => destruct (Z.ltb_spec a b) end; simpl; lia || done.
    - rewrite Z.testbit_neg_r by lia. rewrite bool_decide_false by lia. done. }
  do 2 eexists. split; [reflexivity|]. split; [split_and!|].
  - apply Z.land_nonneg. by left.
  - apply Z.land_nonneg. by left.
  - intros i Hi. cbn [fst snd]. rewrite !Z.land_spec, Hmask, bool_decide_true, !andb_true_r by lia. by apply Hbits.
  - intros i Hi. destruct (Z.lt_ge_cases i 0); [by rewrite !Z.testbit_neg_r by done|].
    rewrite !Z.land_spec, Hmask, bool_decide_false, !andb_false_r by done. done.
Qed.

(** What the range holds: nothing, one child, or more. *)
Lemma range_cases re rl : bitmaps_match f (re, rl) start width →
  (∀ i, ¬ (start ≤ i < start + width) → Z.testbit re i = false ∧ Z.testbit rl i = false) →
  (kids = [] ∧ re = 0) ∨
  (∃ n, kids = [n] ∧ re = 2 ^ n ∧ start ≤ n < start + width ∧ (rl = 0 ↔ leaf_flag (f n) = false)) ∨
  (∃ a b l, kids = a :: b :: l ∧ re ≠ 0 ∧ count_ones re ≠ 1).
Proof using Hr.
  intros (He & Hl & Hbits) Hout. cbn [fst snd] in *.
  assert (Hre : ∀ i, Z.testbit re i = true ↔ i ∈ kids).
  { intros i. rewrite kids_elem. destruct (decide (start ≤ i < start + width)) as [Hi|Hi].
    - rewrite (proj1 (Hbits i Hi)), bool_decide_eq_true. naive_solver.
    - rewrite (proj1 (Hout i Hi)). naive_solver. }
  destruct kids as [|a [|b l]] eqn:Hk.
  - left. split; [done|]. apply Z.bits_inj'. intros i Hi. rewrite Z.bits_0. destruct (Z.testbit re i) eqn:Hb; [|done].
    apply Hre in Hb. by apply elem_of_nil in Hb.
  - right; left. exists a. split; [done|]. assert (a ∈ kids) as Ha by (rewrite Hk; left). apply kids_elem in Ha as [Hfa Ha].
    assert (0 ≤ start) by apply Hr. split_and!; [|lia..|].
    + apply Z.bits_inj'. intros i Hi. destruct (decide (i = a)) as [->|Hne].
      * rewrite Z.pow2_bits_true by lia. apply Hre. left.
      * rewrite Z.pow2_bits_false by done. destruct (Z.testbit re i) eqn:Hb; [|done]. apply Hre, list_elem_of_singleton in Hb. done.
    + split.
      * intros ->. rewrite <- (proj2 (Hbits a Ha)). apply Z.bits_0.
      * intros Hflag. apply Z.bits_inj'. intros i Hi. rewrite Z.bits_0.
        destruct (decide (start ≤ i < start + width)) as [Hi'|Hi']; [|apply (Hout i Hi')].
        rewrite (proj2 (Hbits i Hi')). destruct (decide (i = a)) as [->|Hne]; [done|].
        destruct (f i) as [[]|] eqn:Hfi; [|done]. assert (i ∈ kids) as Hin by (apply kids_elem; eauto).
        rewrite Hk, list_elem_of_singleton in Hin. done.
  - right; right. exists a, b, l. split; [done|]. assert (NoDup (a :: b :: l)) as Hnd by (rewrite <- Hk; apply NoDup_filter, NoDup_seqZ).
    assert (a ≠ b) as Hab by (inversion Hnd as [|? ? Hx]; set_solver). assert (Z.testbit re a = true ∧ Z.testbit re b = true) as [Ha Hb] by (split; apply Hre; set_solver).
    split. { intros ->. by rewrite Z.bits_0 in Ha. } intros Hc. destruct (count_ones_one re He Hc) as (n & Hn & ->).
    rewrite Z.pow2_bits_eqb in Ha, Hb by done. apply Z.eqb_eq in Ha, Hb. congruence.
Qed.
End range.

Lemma tree_range_left h start : tree_range (S h) start → tree_range h start.
Proof.
  unfold tree_range. rewrite Nat2Z.inj_succ, Z.pow_succ_r by lia. intros (Hh & Hs & Hsw & Hmod).
  assert (0 < 2 ^ Z.of_nat h) by (apply Z.pow_pos_nonneg; lia). split_and!; [lia..|].
  apply Z.mod_divide in Hmod as [q ->]; [|lia]. apply Z.mod_divide; [lia|]. exists (q * 2). lia.
Qed.
Lemma tree_range_right h start : tree_range (S h) start → tree_range h (start + 2 ^ Z.of_nat h).
Proof.
  unfold tree_range. rewrite Nat2Z.inj_succ, Z.pow_succ_r by lia. intros (Hh & Hs & Hsw & Hmod).
  assert (0 < 2 ^ Z.of_nat h) by (apply Z.pow_pos_nonneg; lia). split_and!; [lia..|].
  apply Z.mod_divide in Hmod as [q ->]; [|lia]. apply Z.mod_divide; [lia|]. exists (q * 2 + 1). lia.
Qed.
Lemma bitmaps_match_sub f bitmaps start width start' width' : bitmaps_match f bitmaps start width →
  start ≤ start' → start' + width' ≤ start + width → bitmaps_match f bitmaps start' width'.
Proof. intros (He & Hl & Hb) Hs Hw. split_and!; [done..|]. intros i Hi. apply Hb. lia. Qed.

(** ** Hashes and siblings *)

Fixpoint low_bits (n : Z) (k : nat) : list bool :=
  match k with O => [] | S k => Z.testbit n (Z.of_nat k) :: low_bits n k end.
(** The range of the given height around a nibble. *)
Definition range_start (n : Z) (h : nat) : Z := n - n mod 2 ^ Z.of_nat h.

Lemma half_starts n (h : nat) : is_nibble n → (h < 4)%nat →
  get_child_and_sibling_half_start n (Z.of_nat h) =
    (range_start n (S h) + (if Z.testbit n (Z.of_nat h) then 2 ^ Z.of_nat h else 0),
     range_start n (S h) + (if Z.testbit n (Z.of_nat h) then 0 else 2 ^ Z.of_nat h)) ∧
  range_start n h = range_start n (S h) + (if Z.testbit n (Z.of_nat h) then 2 ^ Z.of_nat h else 0) ∧
  tree_range (S h) (range_start n (S h)).
Proof.
  intros Hn Hh. set (P := λ (n h : Z), let h := Z.to_nat h in bool_decide (
    get_child_and_sibling_half_start n (Z.of_nat h) =
      (range_start n (S h) + (if Z.testbit n (Z.of_nat h) then 2 ^ Z.of_nat h else 0),
       range_start n (S h) + (if Z.testbit n (Z.of_nat h) then 0 else 2 ^ Z.of_nat h)) ∧
    range_start n h = range_start n (S h) + (if Z.testbit n (Z.of_nat h) then 2 ^ Z.of_nat h else 0) ∧
    0 ≤ range_start n (S h) ∧ range_start n (S h) + 2 ^ Z.of_nat (S h) ≤ 16 ∧ range_start n (S h) mod 2 ^ Z.of_nat (S h) = 0)).
  assert (forallb (λ n, forallb (P n) (seqZ 0 4)) (seqZ 0 16) = true) as H by (vm_compute; reflexivity).
  rewrite forallb_forall in H. specialize (H n). rewrite forallb_forall in H. specialize (H ltac:(apply list_elem_of_In, elem_of_seqZ; done) (Z.of_nat h)).
  unfold P in H. rewrite Nat2Z.id in H. specialize (H ltac:(apply list_elem_of_In, elem_of_seqZ; lia)).
  apply bool_decide_eq_true in H as (? & ? & ? & ? & ?). split_and!; [done..|]. unfold tree_range. split_and!; lia || done.
Qed.

Lemma bitmaps_fold (m : Children) : (∀ i, is_Some (m !! i) → 0 ≤ i) →
  let bm := map_fold bitmap_step (0, 0) m in 0 ≤ bm.1 ∧ 0 ≤ bm.2 ∧ ∀ i, 0 ≤ i →
    Z.testbit bm.1 i = bool_decide (is_Some (m !! i)) ∧ Z.testbit bm.2 i = match m !! i with Some c => Child_is_leaf c | None => false end.
Proof.
  set (P := λ (bm : Z * Z) (m : Children), (∀ i, is_Some (m !! i) → 0 ≤ i) → 0 ≤ bm.1 ∧ 0 ≤ bm.2 ∧ ∀ i, 0 ≤ i →
    Z.testbit bm.1 i = bool_decide (is_Some (m !! i)) ∧ Z.testbit bm.2 i = match m !! i with Some c => Child_is_leaf c | None => false end).
  change (P (map_fold bitmap_step (0, 0) m) m). apply (map_fold_weak_ind P); unfold P; clear P m.
  - intros _. split_and!; [done..|]. intros i Hi. rewrite lookup_empty, bool_decide_false by (by intros []). simpl. by rewrite Z.bits_0.
  - intros j c m' [e l] Hj IH Hpos. destruct IH as (He & Hl & IH).
    { intros i Hi. apply Hpos. destruct (decide (i = j)) as [->|]; [by rewrite lookup_insert_eq|by rewrite lookup_insert_ne]. }
    assert (0 ≤ j) as Hj0 by (apply Hpos; by rewrite lookup_insert_eq).
    assert (0 ≤ Z.shiftl 1 j) by (apply Z.shiftl_nonneg; lia). unfold bitmap_step. cbn [fst snd] in *.
    split; [apply Z.lor_nonneg; lia|]. split; [destruct (Child_is_leaf c); [apply Z.lor_nonneg; lia|done]|].
    intros i Hi. destruct (IH i Hi) as [IHe IHl]. rewrite Z.shiftl_1_l, Z.lor_spec, Z.pow2_bits_eqb, IHe by done.
    destruct (decide (i = j)) as [->|Hne].
    + rewrite lookup_insert_eq, Z.eqb_refl, orb_true_r, bool_decide_true by eauto. split; [done|].
      rewrite Hj in IHl. destruct (Child_is_leaf c); [by rewrite Z.lor_spec, Z.pow2_bits_true, orb_true_r|done].
    + rewrite lookup_insert_ne, (proj2 (Z.eqb_neq j i)), orb_false_r by done. split; [done|].
      destruct (Child_is_leaf c); [|done]. by rewrite Z.lor_spec, Z.pow2_bits_false, orb_false_r.
Qed.

Section node.
Context `{MH : MerkleHasher} `{LH : SparseLeafHasher}.
Context (node : InternalNode) (f : Z → option (bool * smt)).

(** The children of the node stand for the subtrees. *)
Definition children_match : Prop :=
  (∀ n, is_Some (f n) → is_nibble n) ∧
  ∀ n, match in_children node !! n, f n with
       | Some c, Some (leaf, t) => c_hash c = smt_hash t ∧ Child_is_leaf c = leaf
       | None, None => True
       | _, _ => False
       end.
Context (Hch : children_match).

Lemma child_of n leaf t : f n = Some (leaf, t) → ∃ c, InternalNode_child node n = Some c ∧ c_hash c = smt_hash t ∧ Child_is_leaf c = leaf.
Proof using Hch.
  intros Hf. destruct Hch as [_ H]. specialize (H n). rewrite Hf in H. unfold InternalNode_child.
  destruct (in_children node !! n) as [c|]; [|done]. exists c. naive_solver.
Qed.

Lemma generate_bitmaps_ok : ∃ bitmaps, generate_bitmaps node = Ok bitmaps ∧ bitmaps_match f bitmaps 0 16.
Proof using Hch.
  destruct Hch as [Hrange Hmatch]. unfold generate_bitmaps.
  assert (Hsome : ∀ n, is_Some (in_children node !! n) ↔ is_Some (f n)).
  { intros n. specialize (Hmatch n). by destruct (in_children node !! n), (f n). }
  destruct (bitmaps_fold (in_children node)) as (He & Hl & Hb); [by intros i Hi%Hsome%Hrange; apply Hi|].
  destruct (map_fold bitmap_step (0, 0) (in_children node)) as [e l]. cbn [fst snd] in *.
  assert (Z.lor e l = e) as ->.
  { apply Z.bits_inj'. intros i Hi. rewrite Z.lor_spec. destruct (Hb i Hi) as [-> ->].
    destruct (in_children node !! i) as [c|]; [|by rewrite orb_false_r]. by rewrite bool_decide_true by eauto. }
  rewrite Z.eqb_refl. eexists. split; [done|]. split_and!; [done..|]. intros i Hi. cbn [fst snd].
  destruct (Hb i ltac:(lia)) as [-> ->]. split; [by apply bool_decide_ext|].
  specialize (Hmatch i). destruct (in_children node !! i) as [c|], (f i) as [[leaf t]|]; try done. simpl. destruct Hmatch as [_ ->]. by destruct leaf.
Qed.

Lemma only_child n : is_nibble n →
  Nibble_from (trailing_zeros (2 ^ n)) = Ok n.
Proof.
  intros Hn. unfold is_nibble in Hn. rewrite trailing_zeros_pow2 by lia. unfold Nibble_from. by rewrite (proj2 (Z.ltb_lt _ _)) by lia.
Qed.
Lemma range_nibble h start n : tree_range h start → start ≤ n < start + 2 ^ Z.of_nat h → is_nibble n.
Proof. intros (_ & ? & ? & _) Hn. unfold is_nibble. lia. Qed.
Lemma pow2_nonzero n : (2 ^ n =? 0) = true → n < 0.
Proof. intros H%Z.eqb_eq. destruct (Z.lt_ge_cases n 0); [done|]. pose proof (Z.pow_pos_nonneg 2 n). lia. Qed.

(** The test of the code for an end of the descent. *)
Definition ends (h : nat) (re rl : Z) : bool :=
  (Z.shiftl 1 (Z.of_nat h) =? 1) || ((count_ones re =? 1) && negb (rl =? 0)).
(** How the range starts, in the cases the code tells apart. *)
Lemma expand_cases h start bitmaps : tree_range h start → bitmaps_match f bitmaps start (2 ^ Z.of_nat h) →
  ∃ re rl, range_bitmaps start (Z.shiftl 1 (Z.of_nat h)) bitmaps = Ok (re, rl) ∧ bitmaps_match f (re, rl) start (2 ^ Z.of_nat h) ∧
  ((re = 0 ∧ expand h start f = SEmpty) ∨
   (∃ n leaf t, re = 2 ^ n ∧ re ≠ 0 ∧ ends h re rl = true ∧ is_nibble n ∧ start ≤ n < start + 2 ^ Z.of_nat h ∧
      f n = Some (leaf, t) ∧ expand h start f = t ∧ (h ≠ 0%nat → leaf = true)) ∨
   (∃ h', h = S h' ∧ re ≠ 0 ∧ ends h re rl = false ∧
      expand h start f = SNode (expand h' start f) (expand h' (start + 2 ^ Z.of_nat h') f))).
Proof.
  intros Hr Hb. destruct (range_bitmaps_ok f h start Hr _ Hb) as (re & rl & Hrb & Hm & Hout).
  exists re, rl. split; [done|]. split; [done|]. unfold ends. rewrite Z.shiftl_1_l.
  assert (Hw : h ≠ 0%nat → (2 ^ Z.of_nat h =? 1) = false).
  { intros Hh. apply Z.eqb_neq. assert (2 ^ 1 ≤ 2 ^ Z.of_nat h) by (apply Z.pow_le_mono_r; lia). lia. }
  destruct (range_cases f h start Hr re rl Hm Hout) as [[Hk ->]|[(n & Hk & -> & Hn & Hl)|(a & b & l & Hk & Hre & Hc)]].
  - left. split; [done|]. destruct h as [|h]; cbn [expand]; [|by rewrite Hk].
    destruct (f start) as [[]|] eqn:Hf; [|done]. assert (start ∈ []) as Hin; [|by apply elem_of_nil in Hin].
    rewrite <- Hk. apply kids_elem. rewrite Hf. split; [eauto|]. change (2 ^ Z.of_nat 0) with 1. lia.
  - assert (n ∈ [n]) as Hin by left. rewrite <- Hk in Hin. apply kids_elem in Hin as [[[leaf t] Hf] _].
    pose proof (range_nibble _ _ _ Hr Hn) as Hnn. assert (2 ^ n ≠ 0) as Hpow by (apply Z.pow_nonzero; [lia|apply Hnn]).
    assert (count_ones (2 ^ n) = 1) as -> by (rewrite <- (Z2Nat.id n) by apply Hnn; apply count_ones_pow2). cbn [Z.eqb Pos.eqb andb].
    destruct h as [|h].
    + right; left. exists n, leaf, t. split_and!; try (done || apply Hn || apply Hnn). cbn [expand]. change (2 ^ Z.of_nat 0) with 1 in Hn.
      assert (start = n) as -> by lia. by rewrite Hf.
    + rewrite Hw by done. cbn [orb]. rewrite Hf in Hl. destruct leaf.
      * right; left. exists n, true, t. split_and!; try (done || apply Hn || apply Hnn).
        { apply negb_true_iff, Z.eqb_neq. intros ->. by specialize (proj1 Hl eq_refl). }
        cbn [expand]. by rewrite Hk, Hf.
      * right; right. exists h. split_and!; try done. { apply negb_false_iff, Z.eqb_eq. by apply Hl. } cbn [expand]. by rewrite Hk, Hf.
  - right; right. destruct h as [|h].
    { exfalso. pose proof (length_filter (λ n, is_Some (f n)) (seqZ start (2 ^ Z.of_nat 0))) as Hle. rewrite Hk, length_seqZ in Hle. simpl in Hle. lia. }
    exists h. rewrite Hw by done. rewrite (proj2 (Z.eqb_neq _ _)) by done. split_and!; try done. cbn [expand]. by rewrite Hk.
Qed.

Lemma merkle_hash_expand h start bitmaps : tree_range h start → bitmaps_match f bitmaps start (2 ^ Z.of_nat h) →
  merkle_hash node h start bitmaps = Ok (smt_hash (expand h start f)).
Proof using Hch.
  revert start bitmaps. induction h as [|h IH]; intros start bitmaps Hr Hb;
    (destruct (expand_cases _ start bitmaps Hr Hb) as
       (re & rl & Hrb & Hm & [[-> Hx]|[(n & leaf & t & Hre & Hne & He & Hn & Hin & Hf & Hx & _)|(h' & Hh & Hre & He & Hx)]]);
     cbn [merkle_hash]; rewrite Hrb; cbn [r_bind]; rewrite Hx); try done; unfold ends in He; rewrite He, (proj2 (Z.eqb_neq _ _)) by done.
  1,2: rewrite Hre, only_child by done; cbn [r_bind]; destruct (child_of _ _ _ Hf) as (c & -> & Hc & _); simpl; by rewrite Hc.
  injection Hh as <-. assert (Hdiv : Z.shiftl 1 (Z.of_nat (S h)) / 2 = 2 ^ Z.of_nat h).
  { rewrite Z.shiftl_1_l, Nat2Z.inj_succ, Z.pow_succ_r, Z.mul_comm, Z.div_mul by lia. done. }
  rewrite Nat2Z.inj_succ, Z.pow_succ_r in Hm by lia. assert (0 ≤ 2 ^ Z.of_nat h) by (apply Z.pow_nonneg; lia).
  rewrite IH by (eauto using tree_range_left || (eapply bitmaps_match_sub; [exact Hm|lia..])). cbn [r_bind]. rewrite Hdiv.
  rewrite IH by (eauto using tree_range_right || (eapply bitmaps_match_sub; [exact Hm|lia..])). done.
Qed.

Lemma InternalNode_hash_expand : InternalNode_hash node = Ok (smt_hash (expand 4 0 f)).
Proof using Hch.
  unfold InternalNode_hash. destruct generate_bitmaps_ok as (bm & -> & Hb). cbn [r_bind].
  apply merkle_hash_expand; [|done]. unfold tree_range. simpl. split_and!; done || lia.
Qed.

(** The way to a child: its siblings complete a proof of its subtree to one of the node. *)
Definition way (p : list Z) (n : Z) (t : smt) (bits : list bool) (ck : option NodeKey) (sibs : list HashValue) : Prop :=
  ∃ sub, (∀ rest, smt_prove t (bits ++ rest) = let '(leaf, s) := smt_prove sub rest in (leaf, s ++ reverse sibs)) ∧
    ((ck = None ∧ sub = SEmpty) ∨
     ∃ i leaf c, ck = Some (mkNodeKey (c_version c) (path_of (p ++ [i]))) ∧ in_children node !! i = Some c ∧
       f i = Some (leaf, sub) ∧ (leaf = true ∨ i = n)).

Context (Hleaf : ∀ n t, f n = Some (true, t) → ∃ leaf, t = SLeaf leaf).

Lemma child_with_siblings_way p version n bm (h : nat) acc :
  is_nibble n → (h < 4)%nat → (length p < ROOT_NIBBLE_HEIGHT)%nat → bitmaps_match f bm 0 16 →
  expand (S h) (range_start n (S h)) f =
    SNode (expand h (range_start n (S h)) f) (expand h (range_start n (S h) + 2 ^ Z.of_nat h) f) →
  ∃ ck sibs, child_with_siblings_loop node (mkNodeKey version (path_of p)) n bm (S h) acc = Ok (ck, acc ++ sibs) ∧
    way p n (expand (S h) (range_start n (S h)) f) (low_bits n (S h)) ck sibs.
Proof using Hch Hleaf.
  intros Hn. revert acc. induction h as [h IH] using lt_wf_ind; intros acc Hh Hp Hb Hx.
  destruct (half_starts n h Hn Hh) as (Hhs & Hrs & Hr). cbn [child_with_siblings_loop]. rewrite Hhs, Hx. rewrite <- Hrs.
  set (b := Z.testbit n (Z.of_nat h)) in *. assert (0 < 2 ^ Z.of_nat h) as Hpos by (apply Z.pow_pos_nonneg; lia).
  assert (Hrc : tree_range h (range_start n h)) by (rewrite Hrs; destruct b; rewrite ?Z.add_0_r; eauto using tree_range_left, tree_range_right).
  set (sib := range_start n (S h) + _). assert (Hrsib : tree_range h sib) by (unfold sib; destruct b; rewrite ?Z.add_0_r; eauto using tree_range_left, tree_range_right).
  assert (Hsub : ∀ s, tree_range h s → bitmaps_match f bm s (2 ^ Z.of_nat h)).
  { intros s (_ & ? & ? & _). eapply bitmaps_match_sub; [exact Hb|lia..]. }
  rewrite merkle_hash_expand by auto. cbn [r_bind].
  assert (Hprove : ∀ rest, smt_prove (SNode (expand h (range_start n (S h)) f) (expand h (range_start n (S h) + 2 ^ Z.of_nat h) f)) (low_bits n (S h) ++ rest) =
    let '(leaf, s) := smt_prove (expand h (range_start n h) f) (low_bits n h ++ rest) in (leaf, s ++ [smt_hash (expand h sib f)])).
  { intros rest. cbn [low_bits app smt_prove]. fold b. rewrite Hrs. unfold sib. destruct b; by rewrite ?Z.add_0_r. }
  destruct (expand_cases h (range_start n h) bm Hrc (Hsub _ Hrc)) as
    (re & rl & -> & _ & [[-> Hy]|[(i & leaf & t & Hre & Hne & He & Hi & Hin & Hf & Hy & Hlf)|(h' & -> & Hre & He & Hy)]]); cbn [r_bind].
  - exists None, [smt_hash (expand h sib f)]. split; [done|]. exists SEmpty. split; [|by left]. intros rest. rewrite Hprove, Hy. by destruct (low_bits n h ++ rest), rest.
  - unfold ends in He. rewrite He, (proj2 (Z.eqb_neq _ _)) by done. rewrite Hre, only_child by done. cbn [r_bind].
    destruct (child_of _ _ _ Hf) as (c & Hc & _). rewrite Hc. cbn [expect r_bind]. unfold gen_child_node_key. cbn [nk_nibble_path].
    rewrite push_path_of by done. cbn [r_bind]. do 2 eexists. split; [reflexivity|]. exists t. split.
    + intros rest. rewrite Hprove, Hy. destruct h as [|h]; [by cbn|]. destruct leaf; [|by discriminate Hlf].
      destruct (Hleaf _ _ Hf) as [lf ->]. done.
    + right. exists i, leaf, c. split_and!; [done..|]. destruct h as [|h]; [right|left; by apply Hlf].
      unfold range_start in Hin. change (2 ^ Z.of_nat 0) with 1 in Hin. rewrite Z.mod_1_r in Hin. lia.
  - unfold ends in He. rewrite He, (proj2 (Z.eqb_neq _ _)) by done.
    destruct (IH h' ltac:(lia) (acc ++ [smt_hash (expand (S h') sib f)]) ltac:(lia) Hp Hb Hy) as (ck & sibs & Hrun & sub & Hpr & Hck).
    rewrite Hrun. exists ck, (smt_hash (expand (S h') sib f) :: sibs). split; [by rewrite <- app_assoc|].
    exists sub. split; [|done]. intros rest. rewrite Hprove, Hpr. destruct (smt_prove sub rest). by rewrite reverse_cons, app_assoc.
Qed.

Lemma get_child_with_siblings_way p version n : is_nibble n → (length p < ROOT_NIBBLE_HEIGHT)%nat →
  expand 4 0 f = SNode (expand 3 0 f) (expand 3 8 f) →
  ∃ ck sibs, get_child_with_siblings node (mkNodeKey version (path_of p)) n = Ok (ck, sibs) ∧ way p n (expand 4 0 f) (nibble_bits n) ck sibs.
Proof using Hch Hleaf.
  intros Hn Hp Hx. unfold get_child_with_siblings. destruct generate_bitmaps_ok as (bm & -> & Hb). cbn [r_bind].
  assert (range_start n 4 = 0) as Hrs.
  { unfold range_start. change (2 ^ Z.of_nat 4) with 16. rewrite Z.mod_small by done. lia. }
  destruct (child_with_siblings_way p version n bm 3 [] Hn ltac:(lia) Hp Hb) as (ck & sibs & Hrun & Hw).
  { by rewrite Hrs. }
  rewrite Hrun. rewrite Hrs in Hw. eauto.
Qed.
End node.
