(* ===== verification/JellyfishTree.v ===== *)
(** * JellyfishTree: the versioned state tree

    Models src/storage/jellyfish-merkle/src/lib.rs and tree_cache/mod.rs: insertion of values one
    by one ([put_value_sets]) and in batches ([batch_put_value_sets]), and the values and proofs
    read from a version ([get_with_proof]).  The storage is the class [TreeReader]; the cache of
    the nodes of a batch is threaded through.  The recursion over the nibbles of a key is on a
    bound of [ROOT_NIBBLE_HEIGHT] steps and one more, which the theorems show is not reached. *)

From S2P Require Import Prelude Bits Crypto Accumulator SparseMerkle NibblePath JellyfishNode.

Local Open Scope nat_scope.

(** [TreeReader] *)
Class TreeReader (R V : Type) := get_node_option : R → NodeKey → AnyResult (option (Node V)).
#[export] Hint Mode TreeReader ! - : typeclass_instances.

(** A storage that is a map. *)
Global Instance node_store_reader V : TreeReader (gmap NodeKey (Node V)) V := λ store k, Ok (store !! k).

Definition PRE_GENESIS_VERSION : Z := u64_max.

(** A [for] loop of stateful code. *)
Fixpoint st_fold {S E A X} (f : X → A → ST S E X) (l : list A) (x : X) : ST S E X :=
  match l with [] => st_ret x | a :: l => let! x := f x a in st_fold f l x end.

Record NodeStats := mkNodeStats {
  new_nodes : nat;
  new_leaves : Z;
  stale_nodes : nat;
  stale_leaves : Z;
}.

(** [NibbleExt::get_nibble] *)
Definition get_nibble (h : HashValue) (index : nat) : AnyResult Nibble :=
  if index / 2 <? 32 then
    Nibble_from (if Nat.even index then Z.shiftr (hash_byte h (Z.of_nat (index / 2))) 4
                 else Z.land (hash_byte h (Z.of_nat (index / 2))) 15)
  else Panic "index out of bounds".

(** ** The ranges of equal nibbles in sorted keys *)

Section ranges.
Context {V : Type}.
Implicit Types kvs : list (HashValue * V).

(** Binary search for the last index with the nibble; [fuel] is the length of the range. *)
Fixpoint range_search (fuel : nat) kvs (nibble_idx : nat) (cur_nibble : Z) (i j : nat) : AnyResult nat :=
  match fuel with
  | O => Ok i
  | S fuel =>
      if i <? j then
        let mid := j - (j - i) / 2 in
        let? kv := expect (kvs !! mid) "index out of bounds" in
        if (HashValue_nibble kv.1 (Z.of_nat nibble_idx) >? cur_nibble)%Z
        then range_search fuel kvs nibble_idx cur_nibble i (mid - 1)
        else range_search fuel kvs nibble_idx cur_nibble mid j
      else Ok i
  end.

(** [NibbleRangeIterator::next] *)
Definition range_next kvs (nibble_idx pos : nat) : AnyResult (option (nat * nat)) :=
  match kvs !! pos with
  | None => Ok None
  | Some kv =>
      let? i := range_search (length kvs) kvs nibble_idx (HashValue_nibble kv.1 (Z.of_nat nibble_idx)) pos (length kvs - 1) in
      Ok (Some (pos, i))
  end.
Fixpoint ranges_from (fuel : nat) kvs (nibble_idx pos : nat) : AnyResult (list (nat * nat)) :=
  match fuel with
  | O => Ok []
  | S fuel =>
      let? o := range_next kvs nibble_idx pos in
      match o with
      | None => Ok []
      | Some (lo, hi) => let? l := ranges_from fuel kvs nibble_idx (hi + 1) in Ok ((lo, hi) :: l)
      end
  end.
(** All the ranges of the iterator. *)
Definition nibble_ranges kvs (nibble_idx : nat) : AnyResult (list (nat * nat)) :=
  if nibble_idx <? ROOT_NIBBLE_HEIGHT then ranges_from (S (length kvs)) kvs nibble_idx 0
  else Panic "assertion failed: nibble_idx < ROOT_NIBBLE_HEIGHT".

(** [&kvs[left..=right]] *)
Definition kvs_range kvs (r : nat * nat) : list (HashValue * V) := take (r.2 + 1 - r.1) (drop r.1 kvs).
End ranges.

Section tree.
Context `{C : Crypto} {R V : Type} `{HV : CryptoHash V} `{MH : MerkleHasher} `{LH : SparseLeafHasher} `{TR : TreeReader R V}.

Definition reader_get_node (reader : R) (node_key : NodeKey) : AnyResult (Node V) :=
  let? o := get_node_option reader node_key in ok_or o "Missing node".

(** ** The cache *)

Record FrozenTreeCache := mkFrozenTreeCache {
  ft_node_cache : gmap NodeKey (Node V);
  ft_stale_node_index_cache : gset (Z * NodeKey);
  ft_node_stats : list NodeStats;
  ft_root_hashes : list HashValue;
}.
Record TreeCache := mkTreeCache {
  tc_root_node_key : NodeKey;
  tc_next_version : Z;
  tc_node_cache : gmap NodeKey (Node V);
  tc_num_new_leaves : Z;
  tc_stale_node_index_cache : gset NodeKey;
  tc_num_stale_leaves : Z;
  tc_frozen_cache : FrozenTreeCache;
  tc_reader : R;
}.
Abbreviation CacheM := (ST TreeCache string).

Definition TreeCache_new (reader : R) (next_version : Z) : AnyResult TreeCache :=
  let make root_node_key node_cache :=
    mkTreeCache root_node_key next_version node_cache 0 ∅ 0 (mkFrozenTreeCache ∅ ∅ [] []) reader in
  if (next_version =? 0)%Z then
    let pre_genesis_root_key := NodeKey_new_empty_path PRE_GENESIS_VERSION in
    let? pre_genesis_root := get_node_option (V:=V) reader pre_genesis_root_key in
    match pre_genesis_root with
    | Some _ => Ok (make pre_genesis_root_key ∅)
    | None =>
        let genesis_root_key := NodeKey_new_empty_path 0 in
        Ok (make genesis_root_key {[genesis_root_key := Null]})
    end
  else Ok (make (NodeKey_new_empty_path (next_version - 1)) ∅).

Definition get_node (c : TreeCache) (node_key : NodeKey) : AnyResult (Node V) :=
  match tc_node_cache c !! node_key with
  | Some node => Ok node
  | None =>
      match ft_node_cache (tc_frozen_cache c) !! node_key with
      | Some node => Ok node
      | None => reader_get_node (tc_reader c) node_key
      end
  end.
Definition cache_get (node_key : NodeKey) : CacheM (Node V) := λ c, (c, get_node c node_key).

Definition set_root_node_key (root_node_key : NodeKey) : CacheM unit := λ c,
  (mkTreeCache root_node_key (tc_next_version c) (tc_node_cache c) (tc_num_new_leaves c) (tc_stale_node_index_cache c)
     (tc_num_stale_leaves c) (tc_frozen_cache c) (tc_reader c), Ok ()).

Definition put_node (node_key : NodeKey) (new_node : Node V) : CacheM unit := λ c,
  match tc_node_cache c !! node_key with
  | None =>
      (mkTreeCache (tc_root_node_key c) (tc_next_version c) (<[node_key := new_node]> (tc_node_cache c))
         (if Node_is_leaf new_node then wrap64 (tc_num_new_leaves c + 1) else tc_num_new_leaves c)
         (tc_stale_node_index_cache c) (tc_num_stale_leaves c) (tc_frozen_cache c) (tc_reader c), Ok ())
  | Some _ => (c, Err "Node with key already exists in NodeBatch")
  end.

Definition delete_node (old_node_key : NodeKey) (is_leaf : bool) : CacheM unit := λ c,
  match tc_node_cache c !! old_node_key with
  | None =>
      if bool_decide (old_node_key ∈ tc_stale_node_index_cache c) then (c, Panic "Node gets stale twice unexpectedly.")
      else
        (mkTreeCache (tc_root_node_key c) (tc_next_version c) (tc_node_cache c) (tc_num_new_leaves c)
           ({[old_node_key]} ∪ tc_stale_node_index_cache c)
           (if is_leaf then wrap64 (tc_num_stale_leaves c + 1) else tc_num_stale_leaves c) (tc_frozen_cache c) (tc_reader c), Ok ())
  | Some _ =>
      (mkTreeCache (tc_root_node_key c) (tc_next_version c) (delete old_node_key (tc_node_cache c))
         (if is_leaf then wrap64 (tc_num_new_leaves c - 1) else tc_num_new_leaves c)
         (tc_stale_node_index_cache c) (tc_num_stale_leaves c) (tc_frozen_cache c) (tc_reader c), Ok ())
  end.

Definition freeze : CacheM unit := λ c,
  match get_node c (tc_root_node_key c) with
  | Ok root_node =>
      match Node_hash root_node with
      | Ok root_hash =>
          let fz := tc_frozen_cache c in
          let node_stats :=
            mkNodeStats (size (tc_node_cache c)) (tc_num_new_leaves c) (size (tc_stale_node_index_cache c)) (tc_num_stale_leaves c) in
          let stale := set_map (λ node_key, (tc_next_version c, node_key)) (tc_stale_node_index_cache c) in
          (mkTreeCache (tc_root_node_key c) (wrap64 (tc_next_version c + 1)) ∅ 0 ∅ 0
             (mkFrozenTreeCache (tc_node_cache c ∪ ft_node_cache fz) (stale ∪ ft_stale_node_index_cache fz)
                (ft_node_stats fz ++ [node_stats]) (ft_root_hashes fz ++ [root_hash])) (tc_reader c), Ok ())
      | Err e => (c, Err e)
      | Panic m => (c, Panic m)
      end
  | _ => (c, Panic "internal error: entered unreachable code: Root node must exist")
  end.

Record TreeUpdateBatch := mkTreeUpdateBatch {
  node_batch : gmap NodeKey (Node V);
  stale_node_index_batch : gset (Z * NodeKey);
  node_stats : list NodeStats;
}.
(** [From<TreeCache>] *)
Definition cache_into (c : TreeCache) : list HashValue * TreeUpdateBatch :=
  let fz := tc_frozen_cache c in
  (ft_root_hashes fz, mkTreeUpdateBatch (ft_node_cache fz) (ft_stale_node_index_cache fz) (ft_node_stats fz)).

(** ** Insertion of a batch *)

Section insert.
Context (leaf_count_migration : bool).

(** Nodes by path, hashed beforehand. *)
Abbreviation HashCache := (option (gmap NibblePath HashValue)).

Definition get_hash (node_key : NodeKey) (node : Node V) (hash_cache : HashCache) : AnyResult HashValue :=
  match hash_cache with
  | Some cache => expect (cache !! nk_nibble_path node_key) "internal error: entered unreachable code: can not be found in hash cache"
  | None => Node_hash node
  end.

(** [children.insert] of the child made of a new node. *)
Definition insert_child (children : Children) (child_index : Nibble) (version : Z) (new_child : NodeKey * Node V)
    (hash_cache : HashCache) : AnyResult Children :=
  let? hash := get_hash new_child.1 new_child.2 hash_cache in
  let? node_type := Node_node_type new_child.2 in
  Ok (<[child_index := mkChild hash version node_type]> children).

(** The new internal node is cached and returned. *)
Definition put_internal (node_key : NodeKey) (children : Children) : CacheM (NodeKey * Node V) :=
  let! new_internal_node := st_lift (InternalNode_new_migration children leaf_count_migration) in
  put_node node_key (Internal new_internal_node) ;!
  st_ret (node_key, Internal new_internal_node).
Definition put_leaf (node_key : NodeKey) (leaf_node : LeafNode V) : CacheM (NodeKey * Node V) :=
  put_node node_key (Leaf leaf_node) ;! st_ret (node_key, Leaf leaf_node).

Fixpoint batch_create_subtree (fuel : nat) (node_key : NodeKey) (version : Z) (kvs : list (HashValue * V)) (depth : nat)
    (hash_cache : HashCache) : CacheM (NodeKey * Node V) :=
  match fuel with
  | O => st_lift (Panic "stack overflow")
  | S fuel =>
      match kvs with
      | [(key, value)] => put_leaf node_key (LeafNode_new key value)
      | _ =>
          let! ranges := st_lift (nibble_ranges kvs depth) in
          let! children := st_fold (λ children r,
            let! kv := st_lift (expect (kvs !! r.1) "index out of bounds") in
            let! child_index := st_lift (get_nibble kv.1 depth) in
            let! child_node_key := st_lift (gen_child_node_key node_key version child_index) in
            let! new_child := batch_create_subtree fuel child_node_key version (kvs_range kvs r) (depth + 1) hash_cache in
            st_lift (insert_child children child_index version new_child hash_cache)) ranges ∅ in
          put_internal node_key children
      end
  end.

(** [kvs.len() == 1 && kvs[0].0 == existing_leaf_key], with the value. *)
Definition only_value (existing_leaf_key : HashValue) (kvs : list (HashValue * V)) : option V :=
  match kvs with [(key, value)] => if (key =? existing_leaf_key)%Z then Some value else None | _ => None end.

Fixpoint batch_create_subtree_with_existing_leaf (fuel : nat) (node_key : NodeKey) (version : Z) (existing_leaf_node : LeafNode V)
    (kvs : list (HashValue * V)) (depth : nat) (hash_cache : HashCache) : CacheM (NodeKey * Node V) :=
  match fuel with
  | O => st_lift (Panic "stack overflow")
  | S fuel =>
      let existing_leaf_key := ln_account_key existing_leaf_node in
      match only_value existing_leaf_key kvs with
      | Some value => put_leaf node_key (LeafNode_new existing_leaf_key value)
      | None =>
          let! existing_leaf_bucket := st_lift (get_nibble existing_leaf_key depth) in
          let! ranges := st_lift (nibble_ranges kvs depth) in
          let! (children, isolated_existing_leaf) := st_fold (λ '(children, isolated_existing_leaf) r,
            let! kv := st_lift (expect (kvs !! r.1) "index out of bounds") in
            let! child_index := st_lift (get_nibble kv.1 depth) in
            let! child_node_key := st_lift (gen_child_node_key node_key version child_index) in
            let same_bucket := (existing_leaf_bucket =? child_index)%Z in
            let! new_child :=
              if same_bucket then
                batch_create_subtree_with_existing_leaf fuel child_node_key version existing_leaf_node (kvs_range kvs r) (depth + 1) hash_cache
              else batch_create_subtree fuel child_node_key version (kvs_range kvs r) (depth + 1) hash_cache in
            let! children := st_lift (insert_child children child_index version new_child hash_cache) in
            st_ret (children, isolated_existing_leaf && negb same_bucket)) ranges (∅, true) in
          if isolated_existing_leaf then
            let! existing_leaf_node_key := st_lift (gen_child_node_key node_key version existing_leaf_bucket) in
            let children := <[existing_leaf_bucket := mkChild (LeafNode_hash existing_leaf_node) version NTLeaf]> children in
            put_node existing_leaf_node_key (Leaf existing_leaf_node) ;!
            put_internal node_key children
          else put_internal node_key children
      end
  end.

Fixpoint batch_insert_at (fuel : nat) (node_key : NodeKey) (version : Z) (kvs : list (HashValue * V)) (depth : nat)
    (hash_cache : HashCache) : CacheM (NodeKey * Node V) :=
  match fuel with
  | O => st_lift (Panic "stack overflow")
  | S fuel =>
      (match kvs with [] => st_lift (Panic "assertion failed: !kvs.is_empty()") | _ => st_ret () end) ;!
      let! node := cache_get node_key in
      match node with
      | Internal internal_node =>
          delete_node node_key false ;!
          let! ranges := st_lift (nibble_ranges kvs depth) in
          let! children := st_fold (λ children r,
            let! kv := st_lift (expect (kvs !! r.1) "index out of bounds") in
            let! child_index := st_lift (get_nibble kv.1 depth) in
            let! new_child :=
              match InternalNode_child internal_node child_index with
              | Some child =>
                  let! child_node_key := st_lift (gen_child_node_key node_key (c_version child) child_index) in
                  batch_insert_at fuel child_node_key version (kvs_range kvs r) (depth + 1) hash_cache
              | None =>
                  let! new_child_node_key := st_lift (gen_child_node_key node_key version child_index) in
                  batch_create_subtree fuel new_child_node_key version (kvs_range kvs r) (depth + 1) hash_cache
              end in
            st_lift (insert_child children child_index version new_child hash_cache)) ranges (in_children internal_node) in
          put_internal (set_version version node_key) children
      | Leaf leaf_node =>
          delete_node node_key true ;!
          batch_create_subtree_with_existing_leaf (S fuel) (set_version version node_key) version leaf_node kvs depth hash_cache
      | Null =>
          if NibblePath_is_empty (nk_nibble_path node_key) then
            (if (nk_version node_key =? version)%Z then delete_node node_key false else st_ret ()) ;!
            batch_create_subtree (S fuel) (NodeKey_new_empty_path version) version kvs depth hash_cache
          else st_lift (Err "Null node exists for non-root node")
      end
  end.

(** One more than the depth of the tree. *)
Definition MAX_DEPTH : nat := ROOT_NIBBLE_HEIGHT + 1.

Definition batch_put_value_set (version : Z) (value_set : list (HashValue * V)) (hash_set : HashCache) : CacheM unit :=
  match value_set with
  | [] => st_lift (Panic "Transactions that output empty write set should not be included.")
  | _ =>
      let deduped_and_sorted_kvs := btree_iter (foldl (λ m kv, <[kv.1 := kv.2]> m) ∅ value_set) in
      let! tree_cache := st_get in
      let! (new_root_node_key, _) := batch_insert_at MAX_DEPTH (tc_root_node_key tree_cache) version deduped_and_sorted_kvs 0 hash_set in
      set_root_node_key new_root_node_key ;!
      freeze
  end.

Definition run_batch (sets : list (Z * list (HashValue * V) * HashCache)) : CacheM unit :=
  st_fold (λ _ '(idx, value_set, hash_set), batch_put_value_set idx value_set hash_set) sets ().

(** The versions of the sets of a batch. *)
Definition versions_from (first_version : Z) (n : nat) : list Z := (λ idx, wrap64 (first_version + idx)) <$> seqZ 0 (Z.of_nat n).

Definition batch_put_value_sets (reader : R) (value_sets : list (list (HashValue * V)))
    (node_hashes : option (list (gmap NibblePath HashValue))) (first_version : Z) : AnyResult (list HashValue * TreeUpdateBatch) :=
  let? tree_cache := TreeCache_new reader first_version in
  let hash_sets := match node_hashes with Some hashes => Some <$> hashes | None => replicate (length value_sets) None end in
  if length value_sets =? length hash_sets then
    match run_batch (zip (zip (versions_from first_version (length value_sets)) value_sets) hash_sets) tree_cache with
    | (c, Ok _) => Ok (cache_into c)
    | (_, Err e) => Err e
    | (_, Panic m) => Panic m
    end
  else Panic "itertools: .zip_eq() reached end of one iterator before the other".

(** ** Insertion of one value *)

Definition create_leaf_node (node_key : NodeKey) (nibble_iter : NibbleIterator) (value : V) : CacheM (NodeKey * Node V) :=
  let! nibble_path := st_lift (ni_get_nibble_path nibble_iter) in
  let! key := st_lift (expect (HashValue_from_slice (np_bytes nibble_path)) "LeafNode must have full nibble path.") in
  put_leaf node_key (LeafNode_new key value).

(** The loop at the end of [insert_at_leaf_node]: an internal node with one child for every
    nibble the two keys still share. *)
Fixpoint extend_up (n : nat) (version : Z) (common_nibble_path : NibblePath) (node_key : NodeKey) (next_internal_node : Node V)
    : CacheM (NodeKey * Node V) :=
  match n with
  | O => st_ret (node_key, next_internal_node)
  | S n =>
      let '(popped, common_nibble_path) := NibblePath_pop common_nibble_path in
      let! nibble := st_lift (expect popped "Common nibble_path below internal node ran out of nibble") in
      let node_key := mkNodeKey version common_nibble_path in
      let! hash := st_lift (Node_hash next_internal_node) in
      let! node_type := st_lift (Node_node_type next_internal_node) in
      let! (node_key, next_internal_node) := put_internal node_key {[nibble := mkChild hash version node_type]} in
      extend_up n version common_nibble_path node_key next_internal_node
  end.

Definition insert_at_leaf_node (node_key : NodeKey) (existing_leaf_node : LeafNode V) (version : Z) (nibble_iter : NibbleIterator)
    (value : V) : CacheM (NodeKey * Node V) :=
  delete_node node_key true ;!
  let visited_nibble_iter := ni_visited_nibbles nibble_iter in
  let! existing_leaf_nibble_path := st_lift (NibblePath_new (HashValue_to_vec (ln_account_key existing_leaf_node))) in
  let! (_, visited_nibble_iter, existing_leaf_nibble_iter) :=
    st_lift (skip_common_prefix visited_nibble_iter (NibblePath_nibbles existing_leaf_nibble_path)) in
  let! visited_finished := st_lift (ni_is_finished visited_nibble_iter) in
  (if visited_finished then st_ret () else st_lift (Panic "Leaf nodes failed to share the same visited nibbles before index")) ;!
  let! (num_common_nibbles_below_internal, nibble_iter, existing_leaf_nibble_iter_below_internal) :=
    st_lift (skip_common_prefix nibble_iter (ni_remaining_nibbles existing_leaf_nibble_iter)) in
  let! common_nibble_path := st_lift (ni_collect empty_path (ni_visited_nibbles nibble_iter)) in
  let! finished := st_lift (ni_is_finished nibble_iter) in
  if finished then
    let! below_finished := st_lift (ni_is_finished existing_leaf_nibble_iter_below_internal) in
    (if below_finished then st_ret ()
     else st_lift (Panic "assertion failed: existing_leaf_nibble_iter_below_internal.is_finished()")) ;!
    create_leaf_node (set_version version node_key) nibble_iter value
  else
    let! (existing, _) := st_lift (ni_next existing_leaf_nibble_iter_below_internal) in
    let! existing_leaf_index := st_lift (expect existing "Ran out of nibbles") in
    let! (new, nibble_iter) := st_lift (ni_next nibble_iter) in
    let! new_leaf_index := st_lift (expect new "Ran out of nibbles") in
    (if (existing_leaf_index =? new_leaf_index)%Z then st_lift (Panic "assertion failed: `(left != right)`") else st_ret ()) ;!
    let children := {[existing_leaf_index := mkChild (LeafNode_hash existing_leaf_node) version NTLeaf]} in
    let node_key := mkNodeKey version common_nibble_path in
    let! existing_leaf_node_key := st_lift (gen_child_node_key node_key version existing_leaf_index) in
    put_node existing_leaf_node_key (Leaf existing_leaf_node) ;!
    let! new_leaf_node_key := st_lift (gen_child_node_key node_key version new_leaf_index) in
    let! (_, new_leaf_node) := create_leaf_node new_leaf_node_key nibble_iter value in
    let! hash := st_lift (Node_hash new_leaf_node) in
    let children := <[new_leaf_index := mkChild hash version NTLeaf]> children in
    let! (node_key, next_internal_node) := put_internal node_key children in
    extend_up num_common_nibbles_below_internal version common_nibble_path node_key next_internal_node.

(** [insert_at], with [insert_at_internal_node] in its case. *)
Fixpoint insert_at (fuel : nat) (node_key : NodeKey) (version : Z) (nibble_iter : NibbleIterator) (value : V)
    : CacheM (NodeKey * Node V) :=
  match fuel with
  | O => st_lift (Panic "stack overflow")
  | S fuel =>
      let! node := cache_get node_key in
      match node with
      | Internal internal_node =>
          delete_node node_key false ;!
          let! (child_index, nibble_iter) := st_lift (ni_next nibble_iter) in
          let! child_index := st_lift (expect child_index "Ran out of nibbles") in
          let! (_, new_child_node) :=
            match InternalNode_child internal_node child_index with
            | Some child =>
                let! child_node_key := st_lift (gen_child_node_key node_key (c_version child) child_index) in
                insert_at fuel child_node_key version nibble_iter value
            | None =>
                let! new_child_node_key := st_lift (gen_child_node_key node_key version child_index) in
                create_leaf_node new_child_node_key nibble_iter value
            end in
          let! hash := st_lift (Node_hash new_child_node) in
          let! node_type := st_lift (Node_node_type new_child_node) in
          let children := <[child_index := mkChild hash version node_type]> (in_children internal_node) in
          put_internal (set_version version node_key) children
      | Leaf leaf_node => insert_at_leaf_node node_key leaf_node version nibble_iter value
      | Null =>
          if NibblePath_is_empty (nk_nibble_path node_key) then
            (if (nk_version node_key =? version)%Z then delete_node node_key false else st_ret ()) ;!
            create_leaf_node (NodeKey_new_empty_path version) nibble_iter value
          else st_lift (Err "Null node exists for non-root node")
      end
  end.

Definition put (key : HashValue) (value : V) (version : Z) : CacheM unit :=
  let! nibble_path := st_lift (NibblePath_new (HashValue_to_vec key)) in
  let! tree_cache := st_get in
  let! (new_root_node_key, _) := insert_at MAX_DEPTH (tc_root_node_key tree_cache) version (NibblePath_nibbles nibble_path) value in
  set_root_node_key new_root_node_key.

Definition put_value_set (version : Z) (value_set : list (HashValue * V)) : CacheM unit :=
  match value_set with
  | [] => st_lift (Panic "Transactions that output empty write set should not be included.")
  | _ => st_fold (λ _ '(key, value), put key value version) value_set () ;! freeze
  end.

Definition put_value_sets (reader : R) (value_sets : list (list (HashValue * V))) (first_version : Z)
    : AnyResult (list HashValue * TreeUpdateBatch) :=
  let? tree_cache := TreeCache_new reader first_version in
  match st_fold (λ _ '(version, value_set), put_value_set version value_set)
          (zip (versions_from first_version (length value_sets)) value_sets) () tree_cache with
  | (c, Ok _) => Ok (cache_into c)
  | (_, Err e) => Err e
  | (_, Panic m) => Panic m
  end.
End insert.

(** ** Reading a version *)

Definition MissingRootError : string := "Missing state root node, probably pruned.".

(** The loop of [get_with_proof]; [rounds] counts down from [ROOT_NIBBLE_HEIGHT + 1]. *)
Fixpoint get_with_proof_loop (rounds : nat) (reader : R) (key : HashValue) (first : bool) (next_node_key : NodeKey)
    (nibble_iter : NibbleIterator) (siblings : list HashValue) : AnyResult (option V * SparseMerkleProof) :=
  match rounds with
  | O => Err "Jellyfish Merkle tree has cyclic graph inside."
  | S rounds =>
      let? next_node := match reader_get_node reader next_node_key with
                        | Err e => Err (if first then MissingRootError else e)
                        | r => r
                        end in
      match next_node with
      | Internal internal_node =>
          let? (o, nibble_iter) := ni_next nibble_iter in
          let? queried_child_index := ok_or o "ran out of nibbles" in
          let? (child_node_key, siblings_in_internal) := get_child_with_siblings internal_node next_node_key queried_child_index in
          let siblings := siblings ++ siblings_in_internal in
          match child_node_key with
          | Some node_key => get_with_proof_loop rounds reader key false node_key nibble_iter siblings
          | None => Ok (None, mkSparseMerkleProof None (reverse siblings))
          end
      | Leaf leaf_node =>
          Ok (if (ln_account_key leaf_node =? key)%Z then Some (ln_value leaf_node) else None,
              mkSparseMerkleProof (Some (to_sparse_leaf leaf_node)) (reverse siblings))
      | Null => if first then Ok (None, mkSparseMerkleProof None []) else Err "Non-root null node exists"
      end
  end.
Definition get_with_proof (reader : R) (key : HashValue) (version : Z) : AnyResult (option V * SparseMerkleProof) :=
  let? nibble_path := NibblePath_new (HashValue_to_vec key) in
  get_with_proof_loop (ROOT_NIBBLE_HEIGHT + 1) reader key true (NodeKey_new_empty_path version) (NibblePath_nibbles nibble_path) [].

(** The right siblings of the proof of a range. *)
Definition get_range_proof (reader : R) (rightmost_key_to_prove : HashValue) (version : Z) : AnyResult (list HashValue) :=
  let? (account, proof) := get_with_proof reader rightmost_key_to_prove version in
  ensure (bool_decide (is_Some account)) "rightmost_key_to_prove must exist." ;?
  Ok (reverse (omap (λ '(sibling, bit), if bit : bool then None else Some sibling)
                 (zip (reverse (smp_siblings proof)) (HashValue_iter_bits rightmost_key_to_prove)))).

Definition get_root_node_option (reader : R) (version : Z) : AnyResult (option (Node V)) :=
  get_node_option reader (NodeKey_new_empty_path version).
Definition get_root_node (reader : R) (version : Z) : AnyResult (Node V) :=
  let? o := get_root_node_option reader version in ok_or o "Root node not found for version".
Definition get_root_hash (reader : R) (version : Z) : AnyResult HashValue :=
  let? n := get_root_node reader version in Node_hash n.
Definition get_root_hash_option (reader : R) (version : Z) : AnyResult (option HashValue) :=
  let? o := get_root_node_option reader version in
  match o with Some n => let? h := Node_hash n in Ok (Some h) | None => Ok None end.
Definition get_leaf_count (leaf_count_migration : bool) (reader : R) (version : Z) : AnyResult (option Z) :=
  if leaf_count_migration then let? n := get_root_node reader version in Ok (Node_leaf_count n) else Ok None.
End tree.
