(* ===== verification/JellyfishFacts.v ===== *)
(** * JellyfishFacts: the tree a state stands for

    [state_tree] is the sparse Merkle tree of a finite map, by definition; [tree_at] says that the
    nodes of a store under a path are the Jellyfish tree of a map.  Shows that the hash of such a
    node is that of the map, and that [get_with_proof] returns the value of the map with a proof
    that verifies. *)

From S2P Require Import Prelude Bits Crypto Accumulator SparseMerkle NibblePath JellyfishNode JellyfishTree.

Local Open Scope nat_scope.

(** ** The reference tree *)

(** The keys whose nibble at depth [d] is [n]. *)
Definition bucket {V} (d : nat) (n : Z) (m : gmap Z V) : gmap Z V :=
  filter (λ kv, HashValue_nibble kv.1 (Z.of_nat d) = n) m.
Definition bit_half {V} (i : nat) (b : bool) (m : gmap Z V) : gmap Z V := filter (λ kv, Z.testbit kv.1 (Z.of_nat i) = b) m.

Section reference.
Context `{C : Crypto} {V : Type} `{HV : CryptoHash V}.
Implicit Types m : gmap Z V.

Definition state_leaf (k : Z) (v : V) : smt := SLeaf (mkSparseMerkleLeafNode k (crypto_hash v)).
(** The tree of the keys that agree but in the last [h] bits. *)
Fixpoint state_tree (h : nat) m : smt :=
  match map_to_list m with
  | [] => SEmpty
  | [(k, v)] => state_leaf k v
  | _ => match h with O => SEmpty | S h => SNode (state_tree h (bit_half h false m)) (state_tree h (bit_half h true m)) end
  end.
Definition state_root `{MH : MerkleHasher} `{LH : SparseLeafHasher} m : HashValue := smt_hash (state_tree 256 m).

Lemma state_tree_empty h : state_tree h ∅ = SEmpty.
Proof. destruct h; simpl; by rewrite map_to_list_empty. Qed.
Lemma state_tree_singleton h k v : state_tree h {[k := v]} = state_leaf k v.
Proof. destruct h; simpl; by rewrite map_to_list_singleton. Qed.
Lemma size_cases m : m = ∅ ∨ (∃ k v, m = {[k := v]}) ∨ 2 ≤ size m.
Proof.
  rewrite <- length_map_to_list. pose proof (list_to_map_to_list m) as Hm. destruct (map_to_list m) as [|[k v] [|]]; simpl in *.
  - by left.
  - right; left. by exists k, v.
  - right; right. lia.
Qed.
Lemma state_tree_node h m : 2 ≤ size m →
  state_tree (S h) m = SNode (state_tree h (bit_half h false m)) (state_tree h (bit_half h true m)).
Proof. rewrite <- length_map_to_list. simpl. destruct (map_to_list m) as [|[k v] [|]]; simpl; done || lia. Qed.

Definition prefixed (bits : list bool) m : Prop := ∀ k, is_Some (m !! k) → is_hash k ∧ bits `prefix_of` HashValue_iter_bits k.

Lemma iter_bits_lookup k i : i < 256 → HashValue_iter_bits k !! i = Some (Z.testbit k (Z.of_nat (255 - i))).
Proof.
  intros Hi. unfold HashValue_iter_bits. rewrite list_lookup_fmap, lookup_seqZ_lt by (change HashValue_LENGTH_IN_BITS with 256%Z; lia).
  simpl. rewrite HashValue_bit_testbit by lia. do 2 f_equal. lia.
Qed.
Lemma prefix_snoc_bit bits h k : length bits + S h = 256 → bits `prefix_of` HashValue_iter_bits k →
  HashValue_iter_bits k = bits ++ Z.testbit k (Z.of_nat h) :: drop (S (length bits)) (HashValue_iter_bits k).
Proof.
  intros Hl [rest Hr]. rewrite Hr at 1. f_equal.
  assert (HashValue_iter_bits k !! length bits = Some (Z.testbit k (Z.of_nat h))) as Hb.
  { rewrite iter_bits_lookup by lia. do 3 f_equal. lia. }
  rewrite Hr in Hb. rewrite Hr. rewrite lookup_app_r, Nat.sub_diag in Hb by done. destruct rest as [|b rest]; [done|].
  injection Hb as <-. f_equal. rewrite drop_app_ge by lia. by replace (S (length bits) - length bits) with 1 by lia.
Qed.
Lemma bit_half_lookup h b m k : bit_half h b m !! k = if bool_decide (Z.testbit k (Z.of_nat h) = b) then m !! k else None.
Proof. unfold bit_half. rewrite map_lookup_filter. destruct (m !! k); simpl; [|by case_bool_decide]. case_guard; case_bool_decide; done. Qed.
Lemma bit_half_prefixed bits h b m : length bits + S h = 256 → prefixed bits m → prefixed (bits ++ [b]) (bit_half h b m).
Proof.
  intros Hl Hp k Hk. rewrite bit_half_lookup in Hk. case_bool_decide as Hb; [|by destruct Hk].
  destruct (Hp k Hk) as [Hh Hpre]. split; [done|]. rewrite (prefix_snoc_bit _ _ _ Hl Hpre), Hb.
  exists (drop (S (length bits)) (HashValue_iter_bits k)). by rewrite <- app_assoc.
Qed.

Lemma state_tree_wf h bits m : prefixed bits m → length bits + h = 256 → smt_wf bits (state_tree h m).
Proof.
  revert bits m. induction h as [|h IH]; intros bits m Hp Hl; destruct (size_cases m) as [->|[(k & v & ->)|Hs]];
    rewrite ?state_tree_empty, ?state_tree_singleton; try done.
  1,3: apply Hp; by rewrite lookup_singleton_eq.
  - simpl. rewrite <- length_map_to_list in Hs. destruct (map_to_list m) as [|[] [|]]; simpl in *; done || lia.
  - rewrite state_tree_node by done. cbn [smt_wf]. change (Z.to_nat HashValue_LENGTH_IN_BITS) with 256.
    split_and!; [lia|..]; apply IH; try (rewrite length_app; simpl; lia); by apply bit_half_prefixed.
Qed.

Lemma hash_high_bits k i : is_hash k → (256 ≤ i)%Z → Z.testbit k i = false.
Proof. intros Hk Hi. rewrite <- (Z.mod_small k (2 ^ 256)) by done. apply Z.mod_pow2_bits_high. lia. Qed.
Lemma prefixed_full bits m : prefixed bits m → length bits = 256 → size m ≤ 1.
Proof.
  intros Hp Hl. destruct (size_cases m) as [->|[(k & v & ->)|Hs]]; [rewrite map_size_empty; lia|by rewrite map_size_singleton|].
  rewrite <- length_map_to_list in *. pose proof (NoDup_fst_map_to_list m) as Hnd. pose proof (λ k v, elem_of_map_to_list m k v) as Hel.
  destruct (map_to_list m) as [|[k v] [|[k' v'] l]]; simpl in *; [lia..|]. exfalso.
  assert (∀ k v, m !! k = Some v → is_hash k ∧ HashValue_iter_bits k = bits) as Hk.
  { intros k0 v0 H0. destruct (Hp k0 ltac:(eauto)) as [Hh Hpre]. split; [done|]. symmetry. apply prefix_length_eq; [done|]. rewrite iter_bits_length. lia. }
  destruct (Hk k v) as [Hh Hb]; [apply Hel; set_solver|]. destruct (Hk k' v') as [Hh' Hb']; [apply Hel; set_solver|].
  assert (k = k'); [|apply NoDup_cons in Hnd; set_solver]. apply Z.bits_inj'. intros i Hi. destruct (Z.lt_ge_cases i 256).
  - assert (Hx : ∀ x, Z.testbit x i = Z.testbit x (Z.of_nat (255 - (255 - Z.to_nat i)))) by (intros; f_equal; lia). rewrite !Hx.
    apply (inj Some). rewrite <- !iter_bits_lookup by lia. congruence.
  - by rewrite !hash_high_bits.
Qed.

Definition leaf_value (o : option SparseMerkleLeafNode) (k : Z) : option HashValue :=
  match o with Some leaf => if (smln_key leaf =? k)%Z then Some (smln_value_hash leaf) else None | None => None end.
Lemma state_tree_find h bits m k : prefixed bits m → length bits + h = 256 → bits `prefix_of` HashValue_iter_bits k →
  leaf_value (smt_find (state_tree h m) (drop (length bits) (HashValue_iter_bits k))) k = crypto_hash <$> m !! k.
Proof.
  revert bits m. induction h as [|h IH]; intros bits m Hp Hl Hk; destruct (size_cases m) as [->|[(k' & v & ->)|Hs]].
  1,4: by rewrite state_tree_empty, lookup_empty.
  1,3: rewrite state_tree_singleton; cbn [state_leaf smt_find leaf_value smln_key smln_value_hash]; destruct (Z.eqb_spec k' k) as [->|];
    [by rewrite lookup_singleton_eq|by rewrite lookup_singleton_ne].
  - apply prefixed_full in Hp; lia.
  - rewrite state_tree_node by done. rewrite (prefix_snoc_bit _ _ _ Hl Hk) at 1. rewrite drop_app_length. cbn [smt_find].
    set (b := Z.testbit k (Z.of_nat h)).
    transitivity (leaf_value (smt_find (state_tree h (bit_half h b m)) (drop (length (bits ++ [b])) (HashValue_iter_bits k))) k).
    { rewrite length_app, Nat.add_1_r. by destruct b. }
    rewrite IH; [|by apply bit_half_prefixed|rewrite length_app; simpl; lia|].
    + by rewrite bit_half_lookup, bool_decide_true.
    + rewrite (prefix_snoc_bit _ _ _ Hl Hk). exists (drop (S (length bits)) (HashValue_iter_bits k)). by rewrite <- app_assoc.
Qed.

Definition all_hashes m : Prop := ∀ k, is_Some (m !! k) → is_hash k.
Lemma all_hashes_prefixed m : all_hashes m → prefixed [] m.
Proof. intros H k Hk. split; [by apply H|apply prefix_nil]. Qed.
Lemma state_tree_lookup m k : all_hashes m → smt_lookup (state_tree 256 m) k = crypto_hash <$> m !! k.
Proof.
  intros Hm. pose proof (state_tree_find 256 [] m k) as H. generalize dependent (state_tree 256 m). intros t H. rewrite <- H; [|by apply all_hashes_prefixed|done|apply prefix_nil].
  reflexivity.
Qed.

(** The proof of the reference tree, and that it verifies. *)
Definition state_proof `{MH : MerkleHasher} `{LH : SparseLeafHasher} m (key : Z) : SparseMerkleProof :=
  let '(leaf, siblings) := smt_prove (state_tree 256 m) (HashValue_iter_bits key) in mkSparseMerkleProof leaf siblings.
Lemma state_proof_verifies `{MH : MerkleHasher} `{LH : SparseLeafHasher} m key : all_hashes m →
  SparseMerkleProof_verify (state_proof m key) (state_root m) key (crypto_hash <$> m !! key) = Ok ().
Proof.
  intros Hm. unfold state_root, state_proof. rewrite <- state_tree_lookup by done.
  assert (smt_wf [] (state_tree 256 m)) as Hwf by (apply state_tree_wf; [by apply all_hashes_prefixed|done]).
  revert Hwf. generalize (state_tree 256 m). intros t Hwf. pose proof (sparse_proof_complete t key Hwf) as H. by destruct (smt_prove _ _).
Qed.

(** ** Sixteen children *)

Definition kids (d : nat) m : Z → option (bool * smt) := λ n,
  let sub := bucket d n m in
  if size sub =? 0 then None else Some (size sub =? 1, state_tree (4 * (63 - d)) sub).
(** The keys whose nibble is in a range of the binary tree. *)
Definition nibble_range (d h : nat) (start : Z) m : gmap Z V :=
  filter (λ kv, start ≤ HashValue_nibble kv.1 (Z.of_nat d) < start + 2 ^ Z.of_nat h)%Z m.

Lemma bucket_lookup d n m k : bucket d n m !! k = if bool_decide (HashValue_nibble k (Z.of_nat d) = n) then m !! k else None.
Proof. unfold bucket. rewrite map_lookup_filter. destruct (m !! k); simpl; [|by case_bool_decide]. case_guard; case_bool_decide; done. Qed.
Lemma nibble_range_lookup d h s m k :
  nibble_range d h s m !! k = if bool_decide (s ≤ HashValue_nibble k (Z.of_nat d) < s + 2 ^ Z.of_nat h)%Z then m !! k else None.
Proof. unfold nibble_range. rewrite map_lookup_filter. destruct (m !! k); simpl; [|by case_bool_decide]. case_guard; case_bool_decide; done. Qed.
Lemma kids_some d m n : is_Some (kids d m n) ↔ ∃ k, is_Some (m !! k) ∧ HashValue_nibble k (Z.of_nat d) = n.
Proof.
  unfold kids. destruct (Nat.eqb_spec (size (bucket d n m)) 0) as [H|H].
  - split; [by intros []|]. intros (k & Hk & Hn). apply map_size_empty_inv in H. pose proof (bucket_lookup d n m k) as Hl.
    rewrite H, bool_decide_true, lookup_empty in Hl by done. rewrite <- Hl in Hk. by destruct Hk.
  - split; [|by eauto]. intros _. apply map_size_non_empty_iff, map_choose in H as (k & v & Hk). rewrite bucket_lookup in Hk.
    case_bool_decide; [eauto|done].
Qed.
Lemma kids_nibble d m n : is_Some (kids d m n) → is_nibble n.
Proof. intros (k & _ & <-)%kids_some. apply HashValue_nibble_range. Qed.
Lemma kids_leaf d m n t : kids d m n = Some (true, t) → ∃ leaf, t = SLeaf leaf.
Proof.
  unfold kids. destruct (size_cases (bucket d n m)) as [->|[(k & v & ->)|Hs]].
  - done.
  - rewrite map_size_singleton, state_tree_singleton. intros [= <-]. by eexists.
  - rewrite !(proj2 (Nat.eqb_neq _ _)) by lia. done.
Qed.

Lemma half_nibble n s h : is_nibble n → tree_range (S h) s → (s ≤ n < s + 2 ^ Z.of_nat (S h))%Z →
  Z.testbit n (Z.of_nat h) = bool_decide (s + 2 ^ Z.of_nat h ≤ n)%Z.
Proof.
  intros Hn (Hh & Hs & Hsw & Hmod) Hr.
  set (P := λ n s h, let h := Z.to_nat h in if decide ((s mod 2 ^ Z.of_nat (S h) = 0)%Z ∧ (s ≤ n < s + 2 ^ Z.of_nat (S h))%Z)
    then Bool.eqb (Z.testbit n (Z.of_nat h)) (bool_decide (s + 2 ^ Z.of_nat h ≤ n)%Z) else true).
  assert (forallb (λ n, forallb (λ s, forallb (P n s) (seqZ 0 4)) (seqZ 0 16)) (seqZ 0 16) = true) as H by (vm_compute; reflexivity).
  rewrite forallb_forall in H. specialize (H n). rewrite forallb_forall in H. specialize (H ltac:(apply list_elem_of_In, elem_of_seqZ; done) s).
  rewrite forallb_forall in H. assert (0 < 2 ^ Z.of_nat (S h))%Z by (apply Z.pow_pos_nonneg; lia).
  specialize (H ltac:(apply list_elem_of_In, elem_of_seqZ; lia) (Z.of_nat h) ltac:(apply list_elem_of_In, elem_of_seqZ; lia)).
  unfold P in H. rewrite Nat2Z.id, decide_True in H by done. by apply Bool.eqb_prop.
Qed.

Lemma nibble_range_half d h s b m : d < 64 → tree_range (S h) s →
  bit_half (4 * (63 - d) + h) b (nibble_range d (S h) s m) = nibble_range d h (if b : bool then s + 2 ^ Z.of_nat h else s)%Z m.
Proof.
  intros Hd Hr. assert (h < 4) by (destruct Hr; lia). apply map_eq. intros k. rewrite bit_half_lookup, !nibble_range_lookup.
  pose proof (HashValue_nibble_range k (Z.of_nat d)) as Hn. set (n := HashValue_nibble k (Z.of_nat d)) in *.
  assert (Z.testbit k (Z.of_nat (4 * (63 - d) + h)) = Z.testbit n (Z.of_nat h)) as ->.
  { unfold n. rewrite HashValue_nibble_testbit by lia. f_equal. lia. }
  assert (2 ^ Z.of_nat (S h) = 2 * 2 ^ Z.of_nat h)%Z as Hpow by (rewrite Nat2Z.inj_succ, Z.pow_succ_r; lia).
  assert (0 < 2 ^ Z.of_nat h)%Z by (apply Z.pow_pos_nonneg; lia).
  destruct (decide (s ≤ n < s + 2 ^ Z.of_nat (S h))%Z) as [Hin|Hin].
  - rewrite (half_nibble n s h Hn Hr Hin). rewrite (bool_decide_true (s ≤ n < s + 2 ^ Z.of_nat (S h))%Z) by done.
    rewrite Hpow in Hin. repeat case_bool_decide; destruct b; done || lia.
  - rewrite (bool_decide_false (s ≤ n < s + 2 ^ Z.of_nat (S h))%Z) by done.
    rewrite (bool_decide_false (_ ∧ _)); [by case_bool_decide|]. rewrite Hpow in Hin. destruct b; lia.
Qed.

Lemma nibble_range_0 d s m : nibble_range d 0 s m = bucket d s m.
Proof.
  apply map_eq. intros k. rewrite nibble_range_lookup, bucket_lookup. change (2 ^ Z.of_nat 0)%Z with 1%Z.
  repeat case_bool_decide; done || lia.
Qed.

(** The binary tree of the children is the tree of the map. *)
Lemma expand_state d m h s : d < 64 → tree_range h s → expand h s (kids d m) = state_tree (4 * (63 - d) + h) (nibble_range d h s m).
Proof.
  intros Hd. revert s. induction h as [|h IH]; intros s Hr.
  - rewrite nibble_range_0, Nat.add_0_r. cbn [expand]. unfold kids. destruct (Nat.eqb_spec (size (bucket d s m)) 0) as [->%map_size_empty_inv|]; [|done].
    by rewrite state_tree_empty.
  - cbn [expand]. rewrite (IH s), (IH (s + _)%Z) by eauto using tree_range_left, tree_range_right.
    rewrite <- (nibble_range_half d h s true m Hd Hr), <- (nibble_range_half d h s false m Hd Hr).
    set (M := nibble_range d (S h) s m). pose proof (λ n, kids_elem (kids d m) (S h) s n) as Hk.
    set (l := filter _ _) in *. assert (Hnd : NoDup l) by apply NoDup_filter, NoDup_seqZ.
    assert (HM : ∀ k, is_Some (M !! k) → HashValue_nibble k (Z.of_nat d) ∈ l).
    { intros k Hm. unfold M in Hm. rewrite nibble_range_lookup in Hm. case_bool_decide; [|by destruct Hm]. apply Hk. rewrite kids_some. eauto. }
    rewrite Nat.add_succ_r. destruct l as [|n [|n' l']].
    + assert (M = ∅) as ->; [|by rewrite state_tree_empty]. apply map_empty. intros k. apply eq_None_not_Some. intros Hm%HM. by apply elem_of_nil in Hm.
    + assert (M = bucket d n m) as HMn.
      { apply map_eq. intros k. rewrite bucket_lookup. destruct (M !! k) as [v|] eqn:HMk.
        - pose proof (HM k ltac:(eauto)) as Hin. apply list_elem_of_singleton in Hin. rewrite bool_decide_true by done.
          unfold M in HMk. rewrite nibble_range_lookup in HMk. by case_bool_decide.
        - unfold M in HMk. rewrite nibble_range_lookup in HMk. assert (n ∈ [n]) as [_ Hn]%Hk by left.
          repeat case_bool_decide; done || lia. }
      assert (is_Some (kids d m n)) as [[leaf t] Hn] by (apply Hk; left). rewrite Hn. unfold kids in Hn. rewrite <- HMn in Hn.
      destruct (size_cases M) as [HM0|[(k & v & HM1)|Hs]].
      * rewrite HM0, map_size_empty in Hn. done.
      * rewrite HM1, map_size_singleton, state_tree_singleton in Hn. injection Hn as <- <-. by rewrite HM1, state_tree_singleton.
      * rewrite !(proj2 (Nat.eqb_neq _ _)) in Hn by lia. injection Hn as <- _. by rewrite state_tree_node.
    + rewrite state_tree_node; [done|]. assert (∀ x, x ∈ n :: n' :: l' → ∃ k v, M !! k = Some v ∧ HashValue_nibble k (Z.of_nat d) = x) as Hx.
      { intros x ((k & [v Hv] & Hkx)%kids_some & Hin)%Hk. exists k, v. split; [|done]. unfold M. rewrite nibble_range_lookup, bool_decide_true; [done|]. by rewrite Hkx. }
      destruct (Hx n ltac:(set_solver)) as (k & v & Hv & Hkn). destruct (Hx n' ltac:(set_solver)) as (k' & v' & Hv' & Hkn').
      assert (k ≠ k') by (intros ->; apply NoDup_cons in Hnd; set_solver).
      destruct (size_cases M) as [HM0|[(k0 & v0 & HM1)|Hs]]; [..|done]; exfalso.
      * by rewrite HM0 in Hv.
      * rewrite HM1 in Hv, Hv'. apply lookup_singleton_Some in Hv as [], Hv' as []. congruence.
Qed.

Lemma expand_root d m : d < 64 → expand 4 0 (kids d m) = state_tree (4 * (64 - d)) m.
Proof.
  intros Hd. rewrite expand_state; [|done|unfold tree_range; simpl; split_and!; done || lia].
  replace (4 * (63 - d) + 4) with (4 * (64 - d)) by lia. f_equal. apply map_eq. intros k. rewrite nibble_range_lookup.
  by rewrite bool_decide_true by apply HashValue_nibble_range.
Qed.
Lemma expand_halves d m : d < 64 → 2 ≤ size m → expand 4 0 (kids d m) = SNode (expand 3 0 (kids d m)) (expand 3 8 (kids d m)).
Proof.
  intros Hd Hs. rewrite expand_root by done. replace (4 * (64 - d)) with (S (4 * (63 - d) + 3)) by lia. rewrite state_tree_node by done.
  assert (nibble_range d 4 0 m = m) as HM.
  { apply map_eq. intros k. rewrite nibble_range_lookup. by rewrite bool_decide_true by apply HashValue_nibble_range. }
  assert (tree_range 4 0) as Hr by (unfold tree_range; simpl; split_and!; done || lia).
  rewrite (expand_state d m 3 0), (expand_state d m 3 8); [|done|exact (tree_range_right 3 0 Hr)|done|exact (tree_range_left 3 0 Hr)].
  rewrite <- HM at 1 2. by rewrite (nibble_range_half d 3 0 false m Hd Hr), (nibble_range_half d 3 0 true m Hd Hr).
Qed.
End reference.

(** ** Trees in a store *)

Section store.
Context `{C : Crypto} {V : Type} `{HV : CryptoHash V} `{MH : MerkleHasher} `{LH : SparseLeafHasher}.
(** Whether nodes written before leaves were counted may be in the store. *)
Context (legacy : bool).
Implicit Types (m : gmap Z V) (get : NodeKey → option (Node V)).

Definition node_key (v : Z) (p : list Z) : NodeKey := mkNodeKey v (path_of p).

Definition type_ok m (node_type : NodeType) : Prop :=
  match node_type with
  | NTLeaf => size m = 1
  | NTInternalLegacy => legacy = true ∧ 2 ≤ size m
  | NTInternal n => 2 ≤ size m ∧ n = wrap64 (Z.of_nat (size m))
  end.
Definition count_ok m (leaf_count : option Z) : Prop :=
  match leaf_count with Some n => n = wrap64 (Z.of_nat (size m)) | None => legacy = true end.

(** The child of a node of depth [d] stands for a map. *)
Definition child_ok (d : nat) m (c : Child) : Prop :=
  m ≠ ∅ ∧ c_hash c = smt_hash (state_tree (4 * (63 - d)) m) ∧ type_ok m (c_node_type c).
Definition internal_ok (d : nat) m (n : InternalNode) : Prop :=
  2 ≤ size m ∧ count_ok m (in_leaf_count n) ∧
  ∀ i, match in_children n !! i with Some c => child_ok d (bucket d i m) c | None => bucket d i m = ∅ end.

(** The nodes at and below a path are the tree of the map. *)
Inductive tree_at get : list Z → Z → gmap Z V → Prop :=
| tree_leaf p v k x : get (node_key v p) = Some (Leaf (LeafNode_new k x)) → tree_at get p v {[k := x]}
| tree_internal p v m n : length p < ROOT_NIBBLE_HEIGHT → get (node_key v p) = Some (Internal n) → internal_ok (length p) m n →
    (∀ i c, in_children n !! i = Some c → tree_at get (p ++ [i]) (c_version c) (bucket (length p) i m)) →
    tree_at get p v m.

(** The nodes reached from a node. *)
Inductive reach get : list Z → Z → NodeKey → Prop :=
| reach_here p v : reach get p v (node_key v p)
| reach_child p v n i c k : get (node_key v p) = Some (Internal n) → in_children n !! i = Some c →
    reach get (p ++ [i]) (c_version c) k → reach get p v k.

Definition keys_at (p : list Z) m : Prop := ∀ k, is_Some (m !! k) → is_hash k ∧ p `prefix_of` key_nibbles k.
(** A key of a node at or below a path. *)
Definition under (p : list Z) (k : NodeKey) : Prop := ∃ q, Forall is_nibble (p ++ q) ∧ nk_nibble_path k = path_of (p ++ q).

Lemma internal_children d m n : internal_ok d m n → children_match n (kids d m).
Proof.
  intros (_ & _ & Hc). split; [apply kids_nibble|]. intros i. specialize (Hc i). unfold kids.
  destruct (in_children n !! i) as [c|].
  - destruct Hc as (Hne%map_size_non_empty_iff & Hh & Ht). rewrite (proj2 (Nat.eqb_neq _ _)) by done. split; [done|].
    unfold Child_is_leaf. destruct (c_node_type c); simpl in Ht; [by rewrite Ht|by rewrite (proj2 (Nat.eqb_neq _ _)) by lia..].
  - by rewrite Hc, map_size_empty.
Qed.

Lemma internal_hash d m n : d < 64 → internal_ok d m n → InternalNode_hash n = Ok (smt_hash (state_tree (4 * (64 - d)) m)).
Proof. intros Hd Hn. rewrite (InternalNode_hash_expand n (kids d m)) by by apply internal_children. by rewrite expand_root. Qed.

Lemma tree_root_hash get p v m : tree_at get p v m →
  ∃ node, get (node_key v p) = Some node ∧ Node_hash node = Ok (smt_hash (state_tree (4 * (64 - length p)) m)) ∧
    (∃ t, Node_node_type node = Ok t ∧ type_ok m t) ∧ count_ok m (Node_leaf_count node) ∧ m ≠ ∅.
Proof.
  destruct 1 as [p v k x Hg|p v m n Hp Hg Hn _].
  - eexists. split; [done|]. rewrite state_tree_singleton. split; [done|]. split; [|split; [|apply map_non_empty_singleton]].
    + eexists. split; [done|]. apply map_size_singleton.
    + simpl. by rewrite map_size_singleton.
  - eexists. split; [done|]. split; [by apply internal_hash|]. destruct Hn as (Hs & Hc & _). split_and!; [|done|].
    + eexists. split; [done|]. unfold InternalNode_node_type. destruct (in_leaf_count n); done.
    + intros ->. rewrite map_size_empty in Hs. lia.
Qed.

Lemma bucket_keys p i m : keys_at p m → length p < 64 → keys_at (p ++ [i]) (bucket (length p) i m).
Proof.
  intros Hk Hp k. rewrite bucket_lookup. case_bool_decide as Hi; [|by intros []]. intros [Hh [q Hq]]%Hk. split; [done|].
  pose proof (key_nibbles_lookup k (length p) Hp) as Hl. rewrite Hq, lookup_app_r, Nat.sub_diag in Hl by done.
  destruct q as [|a q]; [done|]. exists q. simpl in Hl. rewrite Hq, <- app_assoc. simpl. congruence.
Qed.

(** What [get_with_proof] finds below a node: the proof of the reference tree, and the value when its leaf is that of the key. *)
Definition found m (bits : list bool) (h : nat) (key : Z) (acc : list HashValue) (r : AnyResult (option V * SparseMerkleProof)) : Prop :=
  ∃ leaf sibs, smt_prove (state_tree h m) bits = (leaf, sibs) ∧
    r = Ok (match leaf with Some l => if (smln_key l =? key)%Z then m !! key else None | None => None end,
            mkSparseMerkleProof leaf (sibs ++ reverse acc)).
End store.

Definition rget {R V} `{TR : TreeReader R V} (reader : R) (k : NodeKey) : option (Node V) :=
  match get_node_option reader k with Ok o => o | _ => None end.

Section read.
Context `{C : Crypto} {R V : Type} `{HV : CryptoHash V} `{MH : MerkleHasher} `{LH : SparseLeafHasher} `{TR : TreeReader R V}.
Context (legacy : bool) (reader : R).
Implicit Types (x : V) (m : gmap Z V).

Lemma rget_get_node k (n : Node V) : rget reader k = Some n → reader_get_node reader k = Ok n.
Proof. unfold rget, reader_get_node. destruct (get_node_option reader k) as [o| |]; [|done..]. by intros ->. Qed.

Lemma loop_leaf p v k x key rounds first it acc bits h : rget reader (node_key v p) = Some (Leaf (LeafNode_new k x)) →
  found {[k := x]} bits h key acc (get_with_proof_loop (S rounds) reader key first (node_key v p) it acc).
Proof.
  intros Hg. exists (Some (mkSparseMerkleLeafNode k (crypto_hash x))), []. rewrite state_tree_singleton. split; [done|].
  cbn [get_with_proof_loop]. rewrite (rget_get_node _ _ Hg). cbn [r_bind LeafNode_new ln_account_key ln_value smln_key].
  destruct (Z.eqb_spec k key) as [->|]; [by rewrite lookup_singleton_eq|done].
Qed.

Lemma get_with_proof_loop_tree p v m key rounds first acc : tree_at legacy (rget reader) p v m →
  length p ≤ 64 → 64 < rounds + length p →
  found m (path_bits (drop (length p) (key_nibbles key))) (4 * (64 - length p)) key acc
    (get_with_proof_loop rounds reader key first (node_key v p) (iter (key_nibbles key) 0 (length p) 64) acc).
Proof.
  intros Ht. revert rounds first acc. induction Ht as [p v k x Hg|p v m n Hp Hg Hn Hc IH]; intros rounds first acc Hlp Hr.
  { destruct rounds; [lia|by apply loop_leaf]. }
  destruct rounds as [|rounds]; [lia|]. cbn [get_with_proof_loop].
  rewrite (rget_get_node _ _ Hg). cbn [r_bind]. pose proof (key_nibbles_lookup key (length p) Hp) as Hl.
  rewrite (ni_next_at _ (key_nibbles_range key) _ _ _ _ Hl) by done. cbn [r_bind ok_or].
  set (nb := HashValue_nibble key _) in *.
  destruct (get_child_with_siblings_way n (kids (length p) m) (internal_children _ _ _ _ Hn) (kids_leaf _ _) p v nb) as (ck & sibs & Hrun & sub & Hprove & Hck).
  { apply HashValue_nibble_range. } { done. } { apply expand_halves; [done|apply Hn]. }
  unfold node_key. rewrite Hrun. cbn [r_bind]. rewrite (drop_S _ _ _ Hl).
  change (path_bits (nb :: ?l)) with (nibble_bits nb ++ path_bits l).
  rewrite expand_root in Hprove by done. unfold found. rewrite Hprove. destruct Hck as [[-> ->]|(i & leaf & c & -> & Hi & Hf & Hor)].
  { exists None, (reverse sibs). split; [done|]. by rewrite reverse_app. }
  assert (Hsub : sub = state_tree (4 * (63 - length p)) (bucket (length p) i m)).
  { unfold kids in Hf. case_match; [done|]. by injection Hf. }
  assert (Hchild : found (bucket (length p) i m) (path_bits (drop (S (length p)) (key_nibbles key))) (4 * (63 - length p)) key (acc ++ sibs)
    (get_with_proof_loop rounds reader key false (node_key (c_version c) (p ++ [i])) (iter (key_nibbles key) 0 (length p + 1) 64) (acc ++ sibs))).
  { destruct Hor as [->| ->].
    - specialize (Hc i c Hi). assert (size (bucket (length p) i m) = 1) as Hs.
      { unfold kids in Hf. case_match; [done|]. injection Hf as Hs _. by apply Nat.eqb_eq. }
      destruct rounds; [unfold ROOT_NIBBLE_HEIGHT in Hp; lia|]. inversion Hc as [? ? ? ? Hgc|? ? ? ? ? ? (Hs' & _)]; [by apply loop_leaf|lia].
    - specialize (IH nb c Hi rounds false (acc ++ sibs)). rewrite length_app in IH. cbn [length] in IH. rewrite Nat.add_1_r in *.
      replace (64 - S (length p)) with (63 - length p) in IH by lia. apply IH; unfold ROOT_NIBBLE_HEIGHT in *; lia. }
  destruct Hchild as (lf & ss & Hpr & Heq). unfold node_key in Heq. rewrite Heq, Hsub.
  exists lf, (ss ++ reverse sibs). rewrite Hpr. split; [done|]. rewrite reverse_app, app_assoc. do 2 f_equal.
  destruct lf as [lf|]; [|done]. destruct (Z.eqb_spec (smln_key lf) key) as [Hk|]; [|done].
  rewrite bucket_lookup. destruct (bool_decide_reflect (HashValue_nibble key (Z.of_nat (length p)) = i)) as [|Hne]; [done|].
  exfalso. destruct Hor as [->|Hor]; [|by rewrite Hor in Hne]. unfold kids in Hf. destruct (size_cases (bucket (length p) i m)) as [Hb|[(k' & x & Hb)|Hs]].
  - by rewrite Hb, map_size_empty in Hf.
  - rewrite Hb, state_tree_singleton in Hpr. injection Hpr as <- _. simpl in Hk. subst k'. pose proof (bucket_lookup (length p) i m key) as Hbl.
    by rewrite Hb, lookup_singleton_eq, bool_decide_false in Hbl.
  - rewrite !(proj2 (Nat.eqb_neq _ _)) in Hf by lia. done.
Qed.

#[local] Opaque state_tree.
(** A version whose nodes are the tree of a map. *)
Definition root_at m (v : Z) : Prop := tree_at legacy (rget reader) [] v m ∨ (m = ∅ ∧ rget reader (node_key v []) = Some Null).

Lemma get_with_proof_root m v key : root_at m v → all_hashes m → get_with_proof reader key v = Ok (m !! key, state_proof m key).
Proof.
  intros Hroot Hm. unfold get_with_proof. rewrite key_path. cbn [r_bind]. unfold NibblePath_nibbles, NibbleIterator_new.
  cbn [num_nibbles path_of]. rewrite key_nibbles_length. pose proof (state_tree_lookup m key Hm) as Hlook.
  assert (found m (HashValue_iter_bits key) 256 key [] (get_with_proof_loop (ROOT_NIBBLE_HEIGHT + 1) reader key true (node_key v [])
    (iter (key_nibbles key) 0 0 64) [])) as (leaf & sibs & Hp & Hrun).
  { destruct Hroot as [Ht|[-> Hg]].
    - rewrite key_bits. apply (get_with_proof_loop_tree [] v m key _ true [] Ht); simpl; lia.
    - exists None, []. rewrite state_tree_empty. split; [done|]. cbn [get_with_proof_loop Nat.add ROOT_NIBBLE_HEIGHT].
      by rewrite (rget_get_node _ _ Hg). }
  unfold NodeKey_new_empty_path, state_proof. change empty_path with (path_of []). rewrite Hp.
  unfold node_key in Hrun. rewrite Hrun, app_nil_r. do 2 f_equal. unfold smt_lookup in Hlook.
  apply (smt_prove_spec _ []) in Hp as (_ & Hfind & _); [|by apply state_tree_wf; [apply all_hashes_prefixed|]|by rewrite iter_bits_length].
  rewrite Hfind in Hlook. destruct leaf as [lf|]; [destruct (smln_key lf =? key)%Z; [done|]|]; by destruct (m !! key).
Qed.
End read.

(** ** Range proofs *)

Section range.
Context `{MH : MerkleHasher}.

Definition right_sibling : HashValue * bool → option HashValue := λ '(sibling, bit), if bit : bool then None else Some sibling.
Definition left_sibling : HashValue * bool → option HashValue := λ '(sibling, bit), if bit : bool then Some sibling else None.

Lemma side_siblings_complete sibs (bits : list bool) cur : length sibs = length bits →
  sparse_range_loop bits (omap left_sibling (zip sibs bits)) (omap right_sibling (zip sibs bits)) cur = Ok (foldl sparse_step cur (zip sibs bits)).
Proof.
  revert bits cur. induction sibs as [|s sibs IH]; intros [|[] bits] cur Hl; try done; injection Hl as Hl; cbn; by apply IH.
Qed.
Lemma omap_reverse {A B} (f : A → option B) l : omap f (reverse l) = reverse (omap f l).
Proof.
  induction l as [|a l IH]; [done|]. rewrite reverse_cons. change (omap f (a :: l)) with (match f a with Some y => y :: omap f l | None => omap f l end).
  rewrite omap_app, IH. destruct (f a) eqn:Ha; [rewrite reverse_cons|]; cbn; rewrite Ha; by rewrite ?app_nil_r.
Qed.
Lemma zip_reverse {A B} (l : list A) (k : list B) : length l = length k → reverse (zip l k) = zip (reverse l) (reverse k).
Proof.
  revert k. induction l as [|a l IH]; intros [|b k] Hl; try done. injection Hl as Hl. cbn [zip zip_with]. rewrite !reverse_cons, IH by done.
  rewrite zip_with_app by (by rewrite !length_reverse). done.
Qed.
Lemma zip_take_r {A B} (l : list A) (k : list B) : zip l k = zip l (take (length l) k).
Proof. revert k. induction l as [|a l IH]; intros [|b k]; try done. cbn. by rewrite IH. Qed.
Lemma siblings_length sibs (bits : list bool) : length sibs = length bits →
  length (omap left_sibling (zip sibs bits)) + length (omap right_sibling (zip sibs bits)) = length sibs.
Proof. revert bits. induction sibs as [|s sibs IH]; intros [|[] bits] Hl; try done; injection Hl as Hl; cbn; specialize (IH bits Hl); lia. Qed.
End range.

Section range_proof.
Context `{C : Crypto} {R V : Type} `{HV : CryptoHash V} `{MH : MerkleHasher} `{LH : SparseLeafHasher} `{TR : TreeReader R V}.
Context (legacy : bool) (reader : R).
Implicit Types (x : V) (m : gmap Z V).

#[local] Opaque state_tree.
(** The siblings of a key on one side, from the bottom. *)
Definition side_siblings (side : HashValue * bool → option HashValue) m (key : Z) : list HashValue :=
  reverse (omap side (zip (reverse (smp_siblings (state_proof m key))) (HashValue_iter_bits key))).

Lemma get_range_proof_root m v key x : root_at legacy reader m v → all_hashes m → m !! key = Some x →
  get_range_proof reader key v = Ok (side_siblings right_sibling m key) ∧
  SparseMerkleRangeProof_verify (side_siblings right_sibling m key) (state_root m) (mkSparseMerkleLeafNode key (crypto_hash x))
    (side_siblings left_sibling m key) = Ok ().
Proof.
  intros Hroot Hm Hx. split.
  { unfold get_range_proof. rewrite (get_with_proof_root legacy reader m) by done. cbn [r_bind]. rewrite Hx, bool_decide_true by eauto. cbn [ensure r_bind].
    done. }
  assert (Hwf : smt_wf [] (state_tree 256 m)) by (apply state_tree_wf; [by apply all_hashes_prefixed|done]).
  pose proof (state_tree_lookup m key Hm) as Hlook. unfold side_siblings, state_proof, state_root. revert Hwf Hlook. generalize (state_tree 256 m). intros t Hwf Hlook.
  destruct (smt_prove t (HashValue_iter_bits key)) as [leaf sibs] eqn:Hp. cbn [smp_siblings].
  apply (smt_prove_spec t []) in Hp as (Hlen & Hfind & Hhash & _); [|done|by rewrite iter_bits_length]. rewrite iter_bits_length in Hlen.
  unfold smt_lookup in Hlook. rewrite Hfind, Hx in Hlook. destruct leaf as [lf|]; [|done]. destruct (Z.eqb_spec (smln_key lf) key) as [Hk|]; [|done]. injection Hlook as Hv.
  assert (lf = mkSparseMerkleLeafNode key (crypto_hash x)) as -> by (destruct lf; simpl in *; congruence).
  set (bits := reverse (take (length sibs) (HashValue_iter_bits key))).
  assert (Hlb : length sibs = length bits) by (unfold bits; rewrite length_reverse, length_take, iter_bits_length; lia).
  assert (Hside : ∀ side : HashValue * bool → option HashValue, reverse (omap side (zip (reverse sibs) (HashValue_iter_bits key))) = omap side (zip sibs bits)).
  { intros side. rewrite <- omap_reverse, (zip_take_r (reverse sibs)), length_reverse, zip_reverse by (rewrite length_reverse, length_take, iter_bits_length; lia).
    by rewrite reverse_involutive. }
  rewrite !Hside. unfold SparseMerkleRangeProof_verify. cbn [smln_key]. rewrite <- Nat2Z.inj_add, siblings_length by done.
  assert (wrap64 (HashValue_LENGTH_IN_BITS - Z.of_nat (length sibs)) = HashValue_LENGTH_IN_BITS - Z.of_nat (length sibs))%Z as ->.
  { unfold wrap64. apply Z.mod_small. change HashValue_LENGTH_IN_BITS with 256%Z. lia. }
  rewrite skipZ_rev_bits by lia. fold bits. rewrite side_siblings_complete by done. cbn [r_bind]. rewrite Hhash. fold bits. by rewrite Z.eqb_refl.
Qed.
End range_proof.
