(* ===== verification/JellyfishPut.v ===== *)
(** * JellyfishPut: insertion keeps the tree

    The nibble ranges of sorted keys are their groups; inserting a batch of values below a path
    turns the tree of a map there into the tree of the updated map, touches nothing else, and
    marks as stale exactly the nodes of earlier versions that are replaced. *)

From S2P Require Import Prelude Bits Crypto Accumulator SparseMerkle NibblePath JellyfishNode JellyfishTree JellyfishFacts.

Local Open Scope nat_scope.

(** ** Nibble ranges *)

Section ranges.
Context {V : Type} (d : nat).
Implicit Types (kvs : list (Z * V)) (kv : Z * V).

Abbreviation nib kv := (HashValue_nibble kv.1 (Z.of_nat d)).
Definition sorted_nibbles kvs : Prop := ∀ i j a b, i ≤ j → kvs !! i = Some a → kvs !! j = Some b → (nib a ≤ nib b)%Z.

(** The last index of the nibble. *)
Definition last_index kvs (n : Z) (pos i : nat) : Prop :=
  pos ≤ i < length kvs ∧ (∀ j a, pos ≤ j ≤ i → kvs !! j = Some a → nib a = n) ∧ ∀ j a, i < j → kvs !! j = Some a → (n < nib a)%Z.

Lemma range_search_spec kvs pos kv fuel i j : sorted_nibbles kvs → kvs !! pos = Some kv →
  pos ≤ i ≤ j → j < length kvs → j - i < fuel →
  (∀ a, kvs !! i = Some a → nib a = nib kv) → (∀ k a, j < k → kvs !! k = Some a → (nib kv < nib a)%Z) →
  ∃ r, range_search fuel kvs d (nib kv) i j = Ok r ∧ last_index kvs (nib kv) pos r.
Proof.
  intros Hs Hpos. revert i j. induction fuel as [|fuel IH]; intros i j Hij Hj Hf Hi Hgt; [lia|]. cbn [range_search].
  destruct (Nat.ltb_spec i j) as [Hlt|Hge].
  - set (mid := j - (j - i) / 2). assert ((j - i) / 2 < j - i) by (apply Nat.div_lt; lia). assert (0 < mid) by lia.
    destruct (lookup_lt_is_Some_2 kvs mid) as [a Ha]; [lia|]. rewrite Ha. cbn [expect r_bind].
    destruct (Z.gtb_spec (nib a) (nib kv)) as [Hgta|Hle].
    + apply IH; try lia; [done|]. intros k b Hk Hb. destruct (decide (k < mid)); [lia|].
      pose proof (Hs mid k a b ltac:(lia) Ha Hb). lia.
    + apply IH; try lia; [|done]. intros b Hb. rewrite Ha in Hb. injection Hb as <-. pose proof (Hs pos mid kv a ltac:(lia) Hpos Ha). lia.
  - assert (i = j) as -> by lia. exists j. split; [done|]. split; [lia|]. split; [|done]. intros k a Hk Ha.
    destruct (lookup_lt_is_Some_2 kvs j) as [b Hb]; [lia|]. pose proof (Hs pos k kv a ltac:(lia) Hpos Ha).
    pose proof (Hs k j a b ltac:(lia) Ha Hb). rewrite (Hi b Hb) in *. lia.
Qed.

Definition range_nib kvs (r : nat * nat) : Z := HashValue_nibble (default 0%Z (fst <$> kvs !! r.1)) (Z.of_nat d).
Definition good_range kvs (r : nat * nat) : Prop :=
  ∃ kv, kvs !! r.1 = Some kv ∧ kvs_range kvs r = filter (λ kv', nib kv' = nib kv) kvs.

Lemma filter_false {A} (P : A → Prop) `{∀ x, Decision (P x)} (l : list A) : (∀ x, x ∈ l → ¬ P x) → filter P l = [].
Proof.
  intros Hl. induction l as [|a l IH]; [done|]. rewrite filter_cons_False by (apply Hl; left). apply IH. intros x Hx. apply Hl. by right.
Qed.
Lemma filter_true {A} (P : A → Prop) `{∀ x, Decision (P x)} (l : list A) : (∀ x, x ∈ l → P x) → filter P l = l.
Proof.
  intros Hl. induction l as [|a l IH]; [done|]. rewrite filter_cons_True by (apply Hl; left). f_equal. apply IH. intros x Hx. apply Hl. by right.
Qed.

Lemma range_filter kvs pos kv i : sorted_nibbles kvs → kvs !! pos = Some kv → last_index kvs (nib kv) pos i →
  (∀ j a, j < pos → kvs !! j = Some a → (nib a < nib kv)%Z) → good_range kvs (pos, i).
Proof.
  intros Hs Hpos (Hi & Hin & Hafter) Hbefore. exists kv. split; [done|]. unfold kvs_range. cbn [fst snd].
  assert (kvs = take pos kvs ++ take (i + 1 - pos) (drop pos kvs) ++ drop (i + 1) kvs) as Hsplit.
  { rewrite <- (take_drop pos kvs) at 1. f_equal. rewrite <- (take_drop (i + 1 - pos) (drop pos kvs)) at 1. f_equal. rewrite drop_drop. f_equal. lia. }
  rewrite Hsplit at 2. rewrite !filter_app. rewrite (filter_false _ (take pos kvs)), (filter_false _ (drop _ kvs)), app_nil_l, app_nil_r.
  - symmetry. apply filter_true. intros x [j Hx]%list_elem_of_lookup. apply lookup_take_Some in Hx as [Hx Hlt]. rewrite lookup_drop in Hx.
    eapply Hin; [|exact Hx]. lia.
  - intros x [j Hx]%list_elem_of_lookup. rewrite lookup_drop in Hx. pose proof (Hafter (i + 1 + j) x ltac:(lia) Hx). lia.
  - intros x [j Hx]%list_elem_of_lookup. apply lookup_take_Some in Hx as [Hx Hlt]. specialize (Hbefore _ _ Hlt Hx). lia.
Qed.

Lemma ranges_from_spec kvs fuel pos : sorted_nibbles kvs → length kvs < fuel + pos →
  (∀ i j a b, i < pos ≤ j → kvs !! i = Some a → kvs !! j = Some b → (nib a < nib b)%Z) →
  ∃ rs, ranges_from fuel kvs d pos = Ok rs ∧ Forall (good_range kvs) rs ∧ Forall (λ r, pos ≤ r.1) rs ∧ NoDup (range_nib kvs <$> rs) ∧
    ∀ j a, pos ≤ j → kvs !! j = Some a → nib a ∈ range_nib kvs <$> rs.
Proof.
  intros Hs. revert pos. induction fuel as [|fuel IH]; intros pos Hf Hsep; cbn [ranges_from].
  { exists []. split_and!; try done; [constructor|]. intros j a Hj Ha. apply lookup_lt_Some in Ha. lia. }
  unfold range_next. destruct (kvs !! pos) as [kv|] eqn:Hpos; cbn [r_bind].
  2:{ exists []. split_and!; try done; [constructor|]. intros j a Hj Ha. apply lookup_lt_Some in Ha. apply lookup_ge_None in Hpos. lia. }
  pose proof (lookup_lt_Some _ _ _ Hpos) as Hlt.
  destruct (range_search_spec kvs pos kv (length kvs) pos (length kvs - 1) Hs Hpos) as (i & -> & Hlast); try lia.
  { intros a Ha. congruence. } { intros k a Hk Ha. apply lookup_lt_Some in Ha. lia. }
  cbn [r_bind]. pose proof Hlast as (Hi & Hin & Hafter). destruct (IH (i + 1)) as (rs & -> & Hg & Hge & Hnd & Hall); [lia|..].
  { intros j k a b Hjk Ha Hb. destruct (decide (j < pos)).
    - eapply (Hsep j k); [lia|done..].
    - rewrite (Hin j a ltac:(lia) Ha). eapply Hafter; [|done]. lia. }
  exists ((pos, i) :: rs). cbn [r_bind]. assert (Hn : range_nib kvs (pos, i) = nib kv) by (unfold range_nib; simpl; by rewrite Hpos).
  split_and!; [done|..].
  - constructor; [|done]. eapply range_filter; try done. intros j a Hj Ha. eapply (Hsep j pos); done || lia.
  - constructor; [simpl; lia|]. eapply Forall_impl; [exact Hge|]. simpl. intros; lia.
  - cbn [fmap list_fmap]. constructor; [|done]. rewrite Hn. intros (r & Hr & Hin')%list_elem_of_fmap.
    rewrite Forall_forall in Hg, Hge. specialize (Hge r Hin'). destruct (Hg r Hin') as (b & Hb & _).
    unfold range_nib in Hr. rewrite Hb in Hr. simpl in Hr. pose proof (Hafter r.1 b ltac:(lia) Hb). lia.
  - intros j a Hj Ha. cbn [fmap list_fmap]. destruct (decide (j ≤ i)).
    + rewrite (Hin j a ltac:(lia) Ha), Hn. left.
    + right. eapply Hall; [|done]. lia.
Qed.

Lemma nibble_ranges_spec kvs : sorted_nibbles kvs → d < 64 →
  ∃ rs, nibble_ranges kvs d = Ok rs ∧ Forall (good_range kvs) rs ∧ NoDup (range_nib kvs <$> rs) ∧ ∀ kv, kv ∈ kvs → nib kv ∈ range_nib kvs <$> rs.
Proof.
  intros Hs Hd. unfold nibble_ranges. rewrite (proj2 (Nat.ltb_lt _ _)) by done.
  destruct (ranges_from_spec kvs (S (length kvs)) 0 Hs) as (rs & -> & Hg & _ & Hnd & Hall); [lia|lia|].
  exists rs. split_and!; try done. intros kv [j Hj]%list_elem_of_lookup. eapply Hall; [|done]. lia.
Qed.
End ranges.

(** [get_nibble] and [HashValue::nibble] agree. *)
Lemma get_nibble_spec k d : d < 64 → get_nibble k d = Ok (HashValue_nibble k (Z.of_nat d)).
Proof.
  intros Hd. unfold get_nibble. assert (d / 2 < 32) as H by (apply Nat.Div0.div_lt_upper_bound; lia). rewrite (proj2 (Nat.ltb_lt _ _)) by done.
  assert (Hn : (if Nat.even d then Z.shiftr (hash_byte k (Z.of_nat (d / 2))) 4 else Z.land (hash_byte k (Z.of_nat (d / 2))) 15) = HashValue_nibble k (Z.of_nat d)).
  { unfold HashValue_nibble. rewrite Nat2Z.inj_div. change (Z.of_nat 2) with 2%Z.
    pose proof (hash_byte_range k (Z.of_nat d / 2)) as Hb. destruct (Nat.even d) eqn:He.
    - rewrite (proj2 (Z.eqb_eq _ _)). 2:{ apply even_div_2 in He. rewrite He, Nat2Z.inj_mul. apply Z.mod_mul. lia. }
      change 15%Z with (Z.ones 4). rewrite Z.land_ones, Z.mod_small by lia || (rewrite Z.shiftr_div_pow2 by lia; change (2 ^ 4)%Z with 16%Z;
        Z.to_euclidean_division_equations; lia). done.
    - rewrite (proj2 (Z.eqb_neq _ _)). 2:{ apply odd_div_2 in He. Z.to_euclidean_division_equations; lia. } done. }
  rewrite Hn. unfold Nibble_from. rewrite (proj2 (Z.ltb_lt _ _)); [done|]. apply HashValue_nibble_range.
Qed.

Definition kmap {V} (kvs : list (Z * V)) : gmap Z V := list_to_map kvs.
Definition sorted_keys {V} (kvs : list (Z * V)) : Prop := StronglySorted Z.lt kvs.*1.

(** ** Sorted keys *)

Lemma nibble_div k d : d < 64 → HashValue_nibble k (Z.of_nat d) = ((k / 2 ^ Z.of_nat (4 * (63 - d))) mod 16)%Z.
Proof.
  intros Hd. apply Z.bits_inj'. intros j Hj. change 16%Z with (2 ^ 4)%Z. destruct (Z.lt_ge_cases j 4).
  - rewrite HashValue_nibble_testbit, Z.mod_pow2_bits_low, Z.div_pow2_bits by lia. f_equal. lia.
  - rewrite Z.mod_pow2_bits_high by lia. rewrite <- (Z.mod_small (HashValue_nibble k (Z.of_nat d)) (2 ^ 4)) by apply HashValue_nibble_range.
    by rewrite Z.mod_pow2_bits_high by lia.
Qed.
Lemma prefix_high p k k' : is_hash k → is_hash k' → p `prefix_of` key_nibbles k → p `prefix_of` key_nibbles k' → length p ≤ 64 →
  (k / 2 ^ Z.of_nat (4 * (64 - length p)) = k' / 2 ^ Z.of_nat (4 * (64 - length p)))%Z.
Proof.
  intros Hk Hk' [q Hq] [q' Hq'] Hp. apply Z.bits_inj'. intros j Hj. rewrite !Z.div_pow2_bits by lia.
  set (i := (j + Z.of_nat (4 * (64 - length p)))%Z). destruct (Z.lt_ge_cases i 256) as [Hi|Hi]; [|by rewrite !hash_high_bits].
  set (a := Z.to_nat ((255 - i) / 4)). assert (((255 - i) / 4)%Z = Z.of_nat a ∧ a < length p) as [Ha Hlt].
  { unfold a. unfold i in *. Z.to_euclidean_division_equations; lia. }
  assert (Hx : ∀ x, Z.testbit x i = Z.testbit (HashValue_nibble x (Z.of_nat a)) (i mod 4)).
  { intros x. rewrite HashValue_nibble_testbit by (Z.to_euclidean_division_equations; lia). f_equal. Z.to_euclidean_division_equations; lia. }
  rewrite !Hx. f_equal. apply (inj Some). rewrite <- !key_nibbles_lookup by lia. rewrite Hq, Hq', !lookup_app_l by lia. done.
Qed.
Lemma prefix_nibble_le p k k' : is_hash k → is_hash k' → p `prefix_of` key_nibbles k → p `prefix_of` key_nibbles k' → length p < 64 →
  (k ≤ k')%Z → (HashValue_nibble k (Z.of_nat (length p)) ≤ HashValue_nibble k' (Z.of_nat (length p)))%Z.
Proof.
  intros Hk Hk' Hpre Hpre' Hp Hle. pose proof (prefix_high p k k' Hk Hk' Hpre Hpre' ltac:(lia)) as Hh.
  rewrite !nibble_div by done. set (s := 4 * (63 - length p)) in *. replace (4 * (64 - length p)) with (s + 4) in Hh by lia.
  rewrite Nat2Z.inj_add, Z.pow_add_r, <- !Z.div_div in Hh by lia. change (2 ^ Z.of_nat 4)%Z with 16%Z in Hh.
  assert (k / 2 ^ Z.of_nat s ≤ k' / 2 ^ Z.of_nat s)%Z by (apply Z.div_le_mono; [apply Z.pow_pos_nonneg|]; lia).
  Z.to_euclidean_division_equations; lia.
Qed.

Section keys.
Context {V : Type}.
Implicit Types (kvs : list (Z * V)) (m : gmap Z V).

Lemma sorted_NoDup kvs : sorted_keys kvs → NoDup kvs.*1.
Proof.
  unfold sorted_keys. induction 1 as [|a l Hl IH Ha]; constructor; [|done]. intros Hin. rewrite Forall_forall in Ha. specialize (Ha a Hin). lia.
Qed.
Lemma kmap_elem kvs k v : sorted_keys kvs → (k, v) ∈ kvs ↔ kmap kvs !! k = Some v.
Proof. intros Hs%sorted_NoDup. by apply elem_of_list_to_map. Qed.
Lemma kmap_size kvs : sorted_keys kvs → size (kmap kvs) = length kvs.
Proof. intros Hs%sorted_NoDup. unfold kmap. rewrite <- length_map_to_list. by rewrite map_to_list_to_map. Qed.
Lemma kmap_keys p kvs kv : sorted_keys kvs → keys_at p (kmap kvs) → kv ∈ kvs → is_hash kv.1 ∧ p `prefix_of` key_nibbles kv.1.
Proof. intros Hs Hk Hin. apply Hk. destruct kv as [k v]. apply kmap_elem in Hin; eauto. Qed.

Lemma StronglySorted_lookup {A} (R : A → A → Prop) l i j x y : StronglySorted R l → l !! i = Some x → l !! j = Some y → i < j → R x y.
Proof.
  intros Hs. revert i j. induction Hs as [|a l Hl IH Ha]; intros [|i] [|j] Hx Hy Hij; simpl in *; try (done || lia).
  - injection Hx as <-. rewrite Forall_forall in Ha. apply Ha. by eapply list_elem_of_lookup_2.
  - eapply IH; try done. lia.
Qed.
Lemma sorted_keys_nibbles p kvs : sorted_keys kvs → keys_at p (kmap kvs) → length p < 64 → sorted_nibbles (length p) kvs.
Proof.
  intros Hs Hk Hp i j a b Hij Ha Hb. pose proof (kmap_keys p kvs a Hs Hk ltac:(by eapply list_elem_of_lookup_2)) as [].
  pose proof (kmap_keys p kvs b Hs Hk ltac:(by eapply list_elem_of_lookup_2)) as []. apply prefix_nibble_le; try done.
  destruct (decide (i = j)) as [->|Hne]; [assert (a = b) as -> by congruence; lia|]. apply Z.lt_le_incl.
  eapply (StronglySorted_lookup _ kvs.*1 i j); try (rewrite list_lookup_fmap; by rewrite ?Ha, ?Hb); [done|lia].
Qed.
Lemma sorted_keys_filter kvs (P : Z * V → Prop) `{∀ x, Decision (P x)} : sorted_keys kvs → sorted_keys (filter P kvs).
Proof.
  unfold sorted_keys. induction kvs as [|a l IH]; [done|]. cbn [fmap list_fmap]. inversion 1 as [|? ? Hl Ha]; subst. rewrite filter_cons.
  case_decide; [|by apply IH]. cbn [fmap list_fmap]. constructor; [by apply IH|]. rewrite Forall_forall in *.
  intros x (y & -> & Hy)%list_elem_of_fmap. apply list_elem_of_filter in Hy as [_ Hy]. apply Ha. apply list_elem_of_fmap. eauto.
Qed.
Lemma kmap_filter d n kvs : sorted_keys kvs → kmap (filter (λ kv, HashValue_nibble kv.1 (Z.of_nat d) = n) kvs) = bucket d n (kmap kvs).
Proof.
  intros Hs. apply map_eq. intros k. apply option_eq. intros v. rewrite <- kmap_elem by by apply sorted_keys_filter.
  rewrite list_elem_of_filter, kmap_elem, bucket_lookup by done. simpl. case_bool_decide; naive_solver.
Qed.
Lemma bucket_union d n m m' : bucket d n (m ∪ m') = bucket d n m ∪ bucket d n m'.
Proof. apply map_eq. intros k. rewrite lookup_union, !bucket_lookup, lookup_union. by case_bool_decide. Qed.
Lemma keys_at_union p m m' : keys_at p m → keys_at p m' → keys_at p (m ∪ m').
Proof. intros H H' k Hk. apply lookup_union_is_Some in Hk as []; auto. Qed.
Lemma keys_at_size p m : keys_at p m → length p ≤ 64 → 2 ≤ size m → length p < 64.
Proof.
  intros Hk Hp Hs. destruct (decide (length p = 64)) as [He|]; [|lia]. exfalso. enough (size m ≤ 1) by lia.
  apply (prefixed_full (path_bits p)); [|rewrite path_bits_length; lia]. intros k [Hh [q Hq]]%Hk. split; [done|].
  rewrite key_bits, Hq, path_bits_app. apply prefix_app_r. done.
Qed.
Lemma bucket_empty_range d n m : bucket d n m ≠ ∅ → is_nibble n.
Proof. intros (k & v & Hk)%map_choose. rewrite bucket_lookup in Hk. case_bool_decide as Hn; [|done]. rewrite <- Hn. apply HashValue_nibble_range. Qed.
End keys.

(** ** Paths and the nodes below them *)

Lemma under_here p v : Forall is_nibble p → under p (node_key v p).
Proof. intros Hp. exists []. by rewrite app_nil_r. Qed.
Lemma under_child p i k : under (p ++ [i]) k → under p k.
Proof. intros (q & Hq & Hk). exists (i :: q). rewrite <- app_assoc in Hq, Hk. by split. Qed.
Lemma under_nibble p i k : under (p ++ [i]) k → is_nibble i.
Proof. intros (q & Hq & _). rewrite !Forall_app in Hq. destruct Hq as [[_ Hi] _]. by inversion Hi. Qed.
Lemma under_cases p k : under p k → nk_nibble_path k = path_of p ∨ ∃ i, under (p ++ [i]) k.
Proof.
  intros ([|i q] & Hq & Hk); [left; by rewrite app_nil_r in Hk|]. right. exists i, q. by rewrite <- app_assoc.
Qed.
Lemma under_inj p i j k : under (p ++ [i]) k → under (p ++ [j]) k → i = j.
Proof.
  intros (q & Hq & Hk) (q' & Hq' & Hk'). rewrite Hk in Hk'. apply path_of_inj in Hk'; [|done..].
  rewrite <- !app_assoc in Hk'. apply app_inv_head in Hk'. by injection Hk'.
Qed.
Lemma under_not_here p i k : under (p ++ [i]) k → nk_nibble_path k ≠ path_of p.
Proof. intros (q & Hq & Hk) Hp. rewrite Hk in Hp. apply (f_equal num_nibbles) in Hp. simpl in Hp. rewrite !length_app in Hp. simpl in Hp. lia. Qed.
Lemma node_key_path k p : nk_nibble_path k = path_of p → k = node_key (nk_version k) p.
Proof. destruct k. simpl. by intros ->. Qed.
Lemma nibble_snoc p i : Forall is_nibble p → is_nibble i → Forall is_nibble (p ++ [i]).
Proof. intros. apply Forall_app. split; [done|]. by constructor. Qed.

Definition path_nibbles (np : NibblePath) : list Z :=
  (λ i, match NibblePath_get_nibble np i with Ok n => n | _ => 0%Z end) <$> seq 0 (num_nibbles np).
Lemma path_nibbles_of ns : Forall is_nibble ns → path_nibbles (path_of ns) = ns.
Proof.
  intros Hns. unfold path_nibbles. cbn [num_nibbles path_of]. apply list_eq_same_length with (length ns); [done|by rewrite length_fmap, length_seq|].
  intros i x y Hi Hx Hy. apply list_lookup_fmap_Some in Hx as (j & -> & [-> _]%lookup_seq). cbn [Nat.add]. by rewrite (get_nibble_path_of ns i y Hns Hy).
Qed.
Global Instance under_dec p k : Decision (under p k).
Proof.
  destruct (decide (Forall is_nibble (path_nibbles (nk_nibble_path k)) ∧ p `prefix_of` path_nibbles (nk_nibble_path k) ∧
    nk_nibble_path k = path_of (path_nibbles (nk_nibble_path k)))) as [H|H].
  - left. destruct H as (Hn & [q Hq] & Hk). exists q. by rewrite <- Hq.
  - right. intros (q & Hq & Hk). apply H. rewrite Hk, path_nibbles_of by done. split_and!; [done|by exists q|done].
Defined.

Section frame.
Context `{C : Crypto} {V : Type} `{HV : CryptoHash V} `{MH : MerkleHasher} `{LH : SparseLeafHasher} (legacy : bool).
Implicit Types (m : gmap Z V) (get : NodeKey → option (Node V)).

Lemma internal_child_nibble d m n i c : internal_ok legacy d m n → in_children n !! i = Some c → is_nibble i.
Proof. intros (_ & _ & H) Hi. specialize (H i). rewrite Hi in H. by eapply bucket_empty_range, H. Qed.

Lemma tree_frame get get' p v m : Forall is_nibble p → (∀ k, under p k → get' k = get k) →
  tree_at legacy get p v m → tree_at legacy get' p v m.
Proof.
  intros Hp Hg Ht. revert Hp Hg. induction Ht as [p v k x Hk|p v m n Hlp Hk Hn Hc IH]; intros Hp Hg.
  - apply tree_leaf. by rewrite Hg by by apply under_here.
  - eapply tree_internal; [done|by rewrite Hg by by apply under_here|done|]. intros i c Hi.
    apply (IH i c Hi); [eauto using nibble_snoc, internal_child_nibble|]. intros k Hu. by apply Hg, under_child with i.
Qed.
Lemma tree_inv get p v m : tree_at legacy get p v m →
  (∃ k x, m = {[k := x]} ∧ get (node_key v p) = Some (Leaf (LeafNode_new k x))) ∨
  (∃ n, length p < ROOT_NIBBLE_HEIGHT ∧ get (node_key v p) = Some (Internal n) ∧ internal_ok legacy (length p) m n).
Proof. destruct 1; [left|right]; eauto 6. Qed.
Lemma tree_get_internal get p v m n : tree_at legacy get p v m → get (node_key v p) = Some (Internal n) →
  length p < ROOT_NIBBLE_HEIGHT ∧ internal_ok legacy (length p) m n ∧
  ∀ i c, in_children n !! i = Some c → tree_at legacy get (p ++ [i]) (c_version c) (bucket (length p) i m).
Proof. destruct 1 as [? ? ? ? Hg|? ? ? ? ? Hg]; rewrite Hg; intros [= <-]; done. Qed.
Lemma reach_under get p v m k : Forall is_nibble p → tree_at legacy get p v m → reach get p v k → under p k.
Proof.
  intros Hp Ht Hr. revert m Hp Ht. induction Hr as [p v|p v n i c k Hg Hi Hr IH]; intros m Hp Ht; [by apply under_here|].
  destruct (tree_get_internal _ _ _ _ _ Ht Hg) as (_ & Hn & Hc). apply under_child with i.
  eapply IH; eauto using nibble_snoc, internal_child_nibble.
Qed.
Lemma reach_frame get get' p v m k : Forall is_nibble p → (∀ k, under p k → get' k = get k) → tree_at legacy get p v m →
  reach get' p v k ↔ reach get p v k.
Proof.
  assert (Hdir : ∀ get get' m, Forall is_nibble p → (∀ k, under p k → get' k = get k) → tree_at legacy get p v m → reach get p v k → reach get' p v k).
  { clear. intros get get' m Hp Hg Ht Hr. revert m Hp Hg Ht. induction Hr as [p v|p v n i c k Hk Hi Hr IH]; intros m Hp Hg Ht; [constructor|].
    destruct (tree_get_internal _ _ _ _ _ Ht Hk) as (_ & Hn & Hc). eapply reach_child; [by rewrite Hg by by apply under_here|done|].
    eapply IH; eauto using nibble_snoc, internal_child_nibble, under_child. }
  intros Hp Hg Ht. split; [|by eapply Hdir]. eapply Hdir; [done|by symmetry; apply Hg|by eapply tree_frame].
Qed.
(** A tree depends on the nodes it reaches only. *)
Lemma tree_reach_frame get get' p v m : (∀ k, reach get p v k → get' k = get k) → tree_at legacy get p v m → tree_at legacy get' p v m.
Proof.
  intros Hg Ht. revert Hg. induction Ht as [p v k x Hk|p v m n Hlp Hk Hn Hc IH]; intros Hg.
  - apply tree_leaf. by rewrite Hg by constructor.
  - eapply tree_internal; [done|by rewrite Hg by constructor|done|]. intros i c Hi. apply (IH i c Hi). intros k Hr. apply Hg. by eapply reach_child.
Qed.
Lemma reach_reach_frame get get' p v k : (∀ k, reach get p v k → get' k = get k) → reach get' p v k ↔ reach get p v k.
Proof.
  intros Hg. split; intros Hr; revert Hg; induction Hr as [p v|p v n i c k Hk Hi Hr IH]; intros Hg; try constructor.
  - rewrite Hg in Hk by constructor. eapply reach_child; [done..|]. apply IH. intros k' Hr'. apply Hg. by eapply reach_child.
  - eapply reach_child; [by rewrite Hg by constructor|done|]. apply IH. intros k' Hr'. apply Hg. by eapply reach_child.
Qed.
(** The nodes below a child are those it reaches. *)
Lemma reach_child_inv get p v m n i k : Forall is_nibble p → tree_at legacy get p v m → get (node_key v p) = Some (Internal n) →
  reach get p v k → under (p ++ [i]) k → ∃ c, in_children n !! i = Some c ∧ reach get (p ++ [i]) (c_version c) k.
Proof.
  intros Hp Ht Hg Hr Hu. destruct Hr as [p v|p v n' j c k Hg' Hj Hr].
  - by apply under_not_here in Hu.
  - rewrite Hg in Hg'. injection Hg' as <-. destruct (tree_get_internal _ _ _ _ _ Ht Hg) as (_ & Hn & Hc).
    assert (under (p ++ [j]) k) as Hu' by (eapply reach_under; eauto using nibble_snoc, internal_child_nibble).
    rewrite (under_inj _ _ _ _ Hu Hu'). eauto.
Qed.
Lemma reach_root_inv get p v m k : Forall is_nibble p → tree_at legacy get p v m → reach get p v k → nk_nibble_path k = path_of p → k = node_key v p.
Proof.
  intros Hp Ht Hr Hk. destruct Hr as [|p v n j c k Hg' Hj Hr]; [done|]. destruct (tree_get_internal _ _ _ _ _ Ht Hg') as (_ & Hn & Hc).
  assert (under (p ++ [j]) k) as Hu' by (eapply reach_under; eauto using nibble_snoc, internal_child_nibble).
  by apply under_not_here in Hu'.
Qed.
Lemma reach_inv get p v k : reach get p v k → k = node_key v p ∨
  ∃ n i c, get (node_key v p) = Some (Internal n) ∧ in_children n !! i = Some c ∧ reach get (p ++ [i]) (c_version c) k.
Proof. destruct 1; [by left|right; eauto 6]. Qed.
Lemma reach_leaf_inv get p v l k : get (node_key v p) = Some (Leaf l) → reach get p v k → k = node_key v p.
Proof. intros Hg Hr. destruct Hr as [|? ? ? ? ? ? Hg']; [done|]. by rewrite Hg in Hg'. Qed.
End frame.
