(* ===== verification/JellyfishBatch.v ===== *)
(** * JellyfishBatch: the invariant of a transaction

    [Inv] says what the cache holds below a path while a version is being written: the tree of a
    map, made of nodes written now and of nodes of before, with exactly the replaced ones stale.
    The operations of a batch keep it, and touch nothing outside of their path. *)

From S2P Require Import Prelude Bits Crypto Accumulator SparseMerkle NibblePath JellyfishNode JellyfishTree JellyfishFacts JellyfishPut.

Local Open Scope nat_scope.

(** ** Code that returns *)

Definition runs {S E A} (c : ST S E A) (s : S) (Q : A → S → Prop) : Prop :=
  match c s with (s', Ok a) => Q a s' | _ => False end.

Section runs.
Context {S E : Type}.
Implicit Types s : S.
Lemma runs_ret {A} (a : A) s (Q : A → S → Prop) : Q a s → runs (st_ret (E:=E) a) s Q.
Proof. done. Qed.
Lemma runs_lift {A} (r : Result E A) a s (Q : A → S → Prop) : r = Ok a → Q a s → runs (st_lift r) s Q.
Proof. by intros ->. Qed.
Lemma runs_bind {A B} (c : ST S E A) (f : A → ST S E B) s Q : runs c s (λ a s', runs (f a) s' Q) → runs (st_bind c f) s Q.
Proof. unfold runs, st_bind. by destruct (c s) as [s' []]. Qed.
Lemma runs_bind_inv {A B} (c : ST S E A) (f : A → ST S E B) s Q : runs (st_bind c f) s Q → runs c s (λ a s', runs (f a) s' Q).
Proof. unfold runs, st_bind. by destruct (c s) as [s' []]. Qed.
Lemma runs_mono {A} (c : ST S E A) s (Q Q' : A → S → Prop) : runs c s Q → (∀ a s', Q a s' → Q' a s') → runs c s Q'.
Proof. unfold runs. destruct (c s) as [s' []]; auto. Qed.
Lemma runs_fold {A X} (f : X → A → ST S E X) (I : list A → X → S → Prop) l x s :
  I l x s → (∀ a l x s, I (a :: l) x s → runs (f x a) s (I l)) → runs (st_fold f l x) s (I []).
Proof.
  intros HI Hstep. revert x s HI. induction l as [|a l IH]; intros x s HI; [done|]. cbn [st_fold]. apply runs_bind.
  eapply runs_mono; [by apply Hstep|]. intros. by apply IH.
Qed.
End runs.

Ltac run_lift H := apply runs_bind; eapply runs_lift; [exact H|cbv beta iota].

(** The count of the leaves is that of the keys. *)
Lemma sum_leaf_count_ok {V} legacy d (m : gmap Z V) (ch : Children) :
  (∀ i, match ch !! i with Some ce => type_ok legacy (bucket d i m) (c_node_type ce) | None => bucket d i m = ∅ end) →
  count_ok legacy m (sum_leaf_count ch).
Proof.
  revert m. unfold sum_leaf_count. set (P := λ (r : option Z) (ch : Children), ∀ m : gmap Z V,
    (∀ i, match ch !! i with Some ce => type_ok legacy (bucket d i m) (c_node_type ce) | None => bucket d i m = ∅ end) → count_ok legacy m r).
  match goal with |- ∀ m, _ → count_ok _ _ ?r => change (P r ch) end. apply (map_fold_weak_ind P); unfold P; clear P.
  - intros m Hm. assert (m = ∅) as ->; [|simpl; by rewrite map_size_empty]. apply map_empty. intros k.
    specialize (Hm (HashValue_nibble k (Z.of_nat d))). rewrite lookup_empty in Hm. pose proof (bucket_lookup d (HashValue_nibble k (Z.of_nat d)) m k) as Hb.
    by rewrite Hm, lookup_empty, bool_decide_true in Hb.
  - intros i ce ch' r Hi IH m Hm. pose proof (Hm i) as Hmi. rewrite lookup_insert_eq in Hmi.
    set (m0 := filter (λ kv, ¬ (HashValue_nibble kv.1 (Z.of_nat d) = i)) m).
    assert (Hsize : size m = size (bucket d i m) + size m0).
    { rewrite <- map_size_disj_union by apply map_disjoint_filter_complement. f_equal. symmetry. apply map_filter_union_complement. }
    assert (Hm0 : ∀ j, bucket d j m0 = if decide (j = i) then ∅ else bucket d j m).
    { intros j. apply map_eq. intros k. rewrite bucket_lookup. unfold m0. rewrite map_lookup_filter.
      destruct (decide (j = i)) as [->|]; rewrite ?bucket_lookup, ?lookup_empty; case_bool_decide; try done; destruct (m !! k); simpl; try done;
        case_guard; simpl in *; congruence. }
    specialize (IH m0). assert (count_ok legacy m0 r) as Hr.
    { apply IH. intros j. rewrite Hm0. specialize (Hm j). destruct (decide (j = i)) as [->|]; [by rewrite Hi|by rewrite lookup_insert_ne in Hm]. }
    unfold Child_leaf_count. destruct (c_node_type ce) as [| |n]; simpl in Hmi; destruct r as [n0|]; simpl in *; try (done || apply Hmi);
      rewrite Hsize, Hr; unfold wrap64; [rewrite Hmi|destruct Hmi as [_ ->]; unfold wrap64];
      rewrite ?Zplus_mod_idemp_l, ?Zplus_mod_idemp_r; f_equal; lia.
Qed.

Section txn.
Context `{C : Crypto} {R V : Type} `{HV : CryptoHash V} `{MH : MerkleHasher} `{LH : SparseLeafHasher} `{TR : TreeReader R V}.
Context (legacy leaf_count_migration : bool).
(** The version written, and the nodes of the tree before it. *)
Context (ver : Z) (old : NodeKey → Prop) (Hold : ∀ k, old k → nk_version k ≠ ver).
Implicit Types (m : gmap Z V) (c : TreeCache (R:=R) (V:=V)).

Definition cget c (k : NodeKey) : option (Node V) := match get_node c k with Ok n => Some n | _ => None end.
Abbreviation cache c := (tc_node_cache c).
Abbreviation stale c := (tc_stale_node_index_cache c).
Abbreviation tree c := (tree_at legacy (cget c)).
Abbreviation reaches c := (reach (cget c)).

Record Inv (p : list Z) (v : Z) m c : Prop := {
  inv_tree : tree c p v m;
  inv_reach k : reaches c p v k → (k ∉ stale c) ∧ (nk_version k = ver → is_Some (cache c !! k)) ∧ (nk_version k = ver ∨ old k);
  inv_cache k : is_Some (cache c !! k) → under p k → nk_version k = ver ∧ reaches c p v k;
  inv_stale k : k ∈ stale c → under p k → old k;
  inv_old k : old k → under p k → reaches c p v k ∨ k ∈ stale c;
}.
(** No node at a key: if there was one before, it is stale. *)
Definition gone c (k : NodeKey) : Prop := cache c !! k = None ∧ (k ∈ stale c ↔ old k).
Definition empty_below (p : list Z) c : Prop := ∀ k, under p k → gone c k.
Definition root_gone (p : list Z) c : Prop := ∀ k, nk_nibble_path k = path_of p → gone c k.

(** The parts of the cache a transaction does not write before it ends. *)
Definition fixed c c' : Prop :=
  tc_frozen_cache c' = tc_frozen_cache c ∧ tc_reader c' = tc_reader c ∧ tc_next_version c' = tc_next_version c ∧
  tc_root_node_key c' = tc_root_node_key c.
Definition same_at c c' (k : NodeKey) : Prop := cache c' !! k = cache c !! k ∧ (k ∈ stale c' ↔ k ∈ stale c).
Definition frame (p : list Z) c c' : Prop := fixed c c' ∧ ∀ k, ¬ under p k → same_at c c' k.

Lemma same_get c c' k : fixed c c' → same_at c c' k → cget c' k = cget c k.
Proof. intros (Hf & Hr & _) [Hc _]. unfold cget, get_node. by rewrite Hc, Hf, Hr. Qed.
Lemma gone_same c c' k : same_at c c' k → gone c k → gone c' k.
Proof. intros [Hc Hs] [? ?]. split; [by rewrite Hc|]. by rewrite Hs. Qed.
Lemma Inv_same p v m c c' : Forall is_nibble p → fixed c c' → (∀ k, under p k → same_at c c' k) → Inv p v m c → Inv p v m c'.
Proof using.
  intros Hp Hf Hs HI. destruct HI as [Ht H1 H2 H3 H4].
  assert (Hg : ∀ k, under p k → cget c' k = cget c k) by (intros; apply same_get; auto).
  assert (Hr : ∀ k, reaches c' p v k ↔ reaches c p v k) by (intros; by eapply reach_frame).
  split; [by eapply tree_frame|..]; intros k; rewrite ?Hr.
  - intros Hk. assert (under p k) as Hu by by eapply reach_under. destruct (Hs k Hu) as [-> ->]. auto.
  - intros Hk Hu. destruct (Hs k Hu) as [Hc _]. rewrite Hc in Hk. auto.
  - intros Hk Hu. destruct (Hs k Hu) as [_ Hst]. apply H3; [|done]. by apply Hst.
  - intros Hk Hu. destruct (Hs k Hu) as [_ ->]. auto.
Qed.

Lemma fixed_refl c : fixed c c.
Proof. done. Qed.
Lemma fixed_trans c1 c2 c3 : fixed c1 c2 → fixed c2 c3 → fixed c1 c3.
Proof. unfold fixed. intuition congruence. Qed.
Lemma frame_refl p c : frame p c c.
Proof. by split. Qed.
Lemma frame_trans p c1 c2 c3 : frame p c1 c2 → frame p c2 c3 → frame p c1 c3.
Proof.
  intros [Hf Hs] [Hf' Hs']. split; [by eapply fixed_trans|]. intros k Hk. destruct (Hs k Hk) as [H1 H2], (Hs' k Hk) as [H3 H4].
  split; [congruence|by rewrite H4].
Qed.
Lemma frame_child p i c c' : frame (p ++ [i]) c c' → frame p c c'.
Proof. intros [Hf Hs]. split; [done|]. intros k Hk. apply Hs. by intros ?%under_child. Qed.
(** What an operation below a child leaves alone. *)
Lemma frame_sibling p i j c c' k : frame (p ++ [i]) c c' → i ≠ j → under (p ++ [j]) k → same_at c c' k.
Proof. intros [_ Hs] Hij Hk. apply Hs. intros Hk'. by apply Hij, (under_inj p i j k). Qed.
Lemma frame_here p i c c' k : frame (p ++ [i]) c c' → nk_nibble_path k = path_of p → same_at c c' k.
Proof. intros [_ Hs] Hk. apply Hs. intros Hk'. by apply under_not_here in Hk'. Qed.

(** ** Taking a node apart *)

(** The children of a node at [p] being rewritten: child [i] holds the map [f i]. *)
Definition children_state (p : list Z) (ch : Children) (f : Z → gmap Z V) c : Prop :=
  (∀ i, is_Some (ch !! i) → is_nibble i) ∧
  ∀ i, is_nibble i →
    match ch !! i with
    | Some ce => child_ok legacy (length p) (f i) ce ∧ Inv (p ++ [i]) (c_version ce) (f i) c
    | None => f i = ∅ ∧ empty_below (p ++ [i]) c
    end.

Lemma delete_root p v m c is_leaf : Forall is_nibble p → Inv p v m c →
  runs (delete_node (node_key v p) is_leaf) c (λ _ c', fixed c c' ∧ (∀ k, k ≠ node_key v p → same_at c c' k) ∧ gone c' (node_key v p)).
Proof using Hold.
  intros Hp HI. destruct (inv_reach _ _ _ _ HI (node_key v p)) as (Hns & Hc & Ho); [constructor|]. unfold runs, delete_node.
  destruct (cache c !! node_key v p) as [n|] eqn:Hn.
  - split; [done|]. split.
    + intros k Hk. split; [cbn [tc_node_cache]; by rewrite lookup_delete_ne|done].
    + split; [cbn [tc_node_cache]; by rewrite lookup_delete_eq|]. cbn [tc_stale_node_index_cache].
      destruct (inv_cache _ _ _ _ HI (node_key v p)) as [Hv _]; [by eauto|by apply under_here|]. split; [done|]. intros []%Hold. done.
  - rewrite bool_decide_false by done. split; [done|]. split.
    + intros k Hk. split; [done|]. cbn [tc_stale_node_index_cache]. set_solver.
    + split; [done|]. cbn [tc_stale_node_index_cache]. split; [|set_solver]. intros _. destruct Ho as [Hv|]; [|done].
      apply Hc in Hv as [? ?]. congruence.
Qed.

(** Other keys at the path of a root. *)
Lemma root_others p v m c k : Forall is_nibble p → Inv p v m c → nk_nibble_path k = path_of p → k ≠ node_key v p → gone c k.
Proof using.
  intros Hp HI Hk Hne. assert (under p k) as Hu by (rewrite (node_key_path _ _ Hk); by apply under_here).
  assert (¬ reaches c p v k) as Hr by (intros Hr; by eapply Hne, reach_root_inv; [..|exact Hr|]; [|apply HI|]). split.
  - apply eq_None_not_Some. intros Hs. by destruct (inv_cache _ _ _ _ HI k Hs Hu).
  - split; [intros Hs; by apply (inv_stale _ _ _ _ HI)|]. intros Ho. by destruct (inv_old _ _ _ _ HI k Ho Hu).
Qed.

Lemma delete_leaf p v m c l : Forall is_nibble p → Inv p v m c → cget c (node_key v p) = Some (Leaf l) →
  runs (delete_node (node_key v p) true) c (λ _ c', frame p c c' ∧ empty_below p c').
Proof using Hold.
  intros Hp HI Hl. eapply runs_mono; [by apply (delete_root p v m)|]. intros [] c' (Hf & Hs & Hg). split.
  - split; [done|]. intros k Hk. apply Hs. intros ->. by apply Hk, under_here.
  - intros k Hk. destruct (decide (k = node_key v p)) as [->|Hne]; [done|]. apply (gone_same c); [by apply Hs|].
    assert (¬ reaches c p v k) as Hr by (intros Hr; by eapply Hne, reach_leaf_inv). split.
    + apply eq_None_not_Some. intros Hc. by destruct (inv_cache _ _ _ _ HI k Hc Hk).
    + split; [intros Hst; by apply (inv_stale _ _ _ _ HI)|]. intros Ho. by destruct (inv_old _ _ _ _ HI k Ho Hk).
Qed.

Lemma Inv_child p v m c n i ce : Forall is_nibble p → Inv p v m c → cget c (node_key v p) = Some (Internal n) →
  in_children n !! i = Some ce → Inv (p ++ [i]) (c_version ce) (bucket (length p) i m) c.
Proof using.
  intros Hp HI Hn Hi. destruct (tree_get_internal _ _ _ _ _ _ (inv_tree _ _ _ _ HI) Hn) as (_ & Hok & Hc).
  assert (Hsub : ∀ k, reaches c p v k → under (p ++ [i]) k → reaches c (p ++ [i]) (c_version ce) k).
  { intros k Hr Hu. destruct (reach_child_inv _ _ _ _ _ _ _ _ Hp (inv_tree _ _ _ _ HI) Hn Hr Hu) as (ce' & Hi' & Hr').
    rewrite Hi in Hi'. by injection Hi' as <-. }
  split; [by apply Hc|..].
  - intros k Hr. apply (inv_reach _ _ _ _ HI). by eapply reach_child.
  - intros k Hk Hu. destruct (inv_cache _ _ _ _ HI k Hk) as [Hv Hr]; [by eapply under_child|]. auto.
  - intros k Hk Hu. apply (inv_stale _ _ _ _ HI k Hk). by eapply under_child.
  - intros k Hk Hu. destruct (inv_old _ _ _ _ HI k Hk) as [Hr|]; [by eapply under_child|left; auto|by right].
Qed.
Lemma empty_child p v m c n i : Forall is_nibble p → Inv p v m c → cget c (node_key v p) = Some (Internal n) →
  in_children n !! i = None → empty_below (p ++ [i]) c.
Proof using.
  intros Hp HI Hn Hi k Hu. assert (under p k) as Hu' by by eapply under_child.
  assert (¬ reaches c p v k) as Hr.
  { intros Hr. destruct (reach_child_inv _ _ _ _ _ _ _ _ Hp (inv_tree _ _ _ _ HI) Hn Hr Hu) as (ce' & Hi' & _). congruence. }
  split.
  - apply eq_None_not_Some. intros Hc. by destruct (inv_cache _ _ _ _ HI k Hc Hu').
  - split; [intros Hst; by apply (inv_stale _ _ _ _ HI)|]. intros Ho. by destruct (inv_old _ _ _ _ HI k Ho Hu').
Qed.

Lemma delete_internal p v m c n : Forall is_nibble p → Inv p v m c → cget c (node_key v p) = Some (Internal n) →
  runs (delete_node (node_key v p) false) c (λ _ c', frame p c c' ∧ root_gone p c' ∧
    children_state p (in_children n) (λ i, bucket (length p) i m) c').
Proof using Hold.
  intros Hp HI Hn. eapply runs_mono; [by apply (delete_root p v m)|]. intros [] c' (Hf & Hs & Hg).
  destruct (tree_get_internal _ _ _ _ _ _ (inv_tree _ _ _ _ HI) Hn) as (_ & Hok & _).
  assert (Hs' : ∀ i k, under (p ++ [i]) k → same_at c c' k).
  { intros i k Hu. apply Hs. intros ->. by apply under_not_here in Hu. }
  split_and!.
  - split; [done|]. intros k Hk. apply Hs. intros ->. by apply Hk, under_here.
  - intros k Hk. destruct (decide (k = node_key v p)) as [->|Hne]; [done|]. apply (gone_same c); [by apply Hs|by eapply root_others].
  - split. { intros i [ce Hi]. by eapply internal_child_nibble. }
    intros i Hi. pose proof (proj2 (proj2 Hok) i) as Hx.
    destruct (in_children n !! i) as [ce|] eqn:Hci.
    + split; [done|]. eapply Inv_same; [by apply nibble_snoc|exact Hf|by apply Hs'|by eapply Inv_child].
    + split; [done|]. intros k Hu. apply (gone_same c); [by eapply Hs'|by eapply empty_child].
Qed.

(** ** Putting a node together *)

Definition written (p : list Z) m c (r : NodeKey * Node V) c' : Prop :=
  r.1 = node_key ver p ∧ cget c' (node_key ver p) = Some r.2 ∧ Inv p ver m c' ∧ frame p c c'.

Lemma put_node_gone c k n : gone c k →
  runs (put_node k n) c (λ _ c', fixed c c' ∧ cache c' = <[k := n]> (cache c) ∧ stale c' = stale c).
Proof. intros [Hc _]. unfold runs, put_node. by rewrite Hc. Qed.
Lemma put_same c c' k n k' : fixed c c' → cache c' = <[k := n]> (cache c) → stale c' = stale c → k' ≠ k → same_at c c' k'.
Proof. intros Hf Hc Hs Hk. split; [by rewrite Hc, lookup_insert_ne|by rewrite Hs]. Qed.
Lemma put_get c c' k n : cache c' = <[k := n]> (cache c) → cget c' k = Some n.
Proof. intros Hc. unfold cget, get_node. by rewrite Hc, lookup_insert_eq. Qed.

Lemma put_leaf_node p k x c : Forall is_nibble p → empty_below p c →
  runs (put_node (node_key ver p) (Leaf (LeafNode_new k x))) c (λ _, written p {[k := x]} c (node_key ver p, Leaf (LeafNode_new k x))).
Proof using Hold.
  intros Hp He. eapply runs_mono; [by apply put_node_gone, He, under_here|].
  intros [] c' (Hf & Hc & Hs). pose proof (put_get _ _ _ _ Hc) as Hg. split_and!; [done..|split|split; [done|]].
  - by apply tree_leaf.
  - intros k' ->%(reach_leaf_inv _ _ _ _ _ Hg). destruct (He (node_key ver p)) as [_ Hst]; [by apply under_here|]. split_and!.
    + rewrite Hs, Hst. intros []%Hold. done.
    + intros _. rewrite Hc, lookup_insert_eq. eauto.
    + by left.
  - intros k' Hk' Hu. rewrite Hc in Hk'. destruct (decide (k' = node_key ver p)) as [->|Hne]; [split; [done|constructor]|].
    rewrite lookup_insert_ne in Hk' by done. destruct (He k' Hu) as [He' _]. rewrite He' in Hk'. by destruct Hk'.
  - intros k' Hk' Hu. rewrite Hs in Hk'. by apply (He k' Hu).
  - intros k' Hk' Hu. right. rewrite Hs. by apply (He k' Hu).
  - intros k' Hk'. eapply put_same; try done. intros ->. by apply Hk', under_here.
Qed.

Lemma put_leaf_spec p k x c : Forall is_nibble p → empty_below p c →
  runs (put_leaf (node_key ver p) (LeafNode_new k x)) c (written p {[k := x]} c).
Proof using Hold. intros Hp He. apply runs_bind. eapply runs_mono; [by apply put_leaf_node|]. by intros []. Qed.

Lemma new_migration_ok d m (ch : Children) : 2 ≤ size m → (∀ i, match ch !! i with Some ce => child_ok legacy d (bucket d i m) ce | None => bucket d i m = ∅ end) →
  ∃ n, InternalNode_new_migration ch leaf_count_migration = Ok n ∧ in_children n = ch ∧ internal_ok legacy d m n.
Proof using.
  intros Hs Hch. assert (Hcount : count_ok legacy m (sum_leaf_count ch)).
  { apply (sum_leaf_count_ok _ d). intros i. specialize (Hch i). destruct (ch !! i); [apply Hch|done]. }
  assert (Hne : ∀ k, is_Some (m !! k) → is_Some (ch !! HashValue_nibble k (Z.of_nat d))).
  { intros k Hk. specialize (Hch (HashValue_nibble k (Z.of_nat d))). destruct (ch !! _) eqn:Hc; [done|].
    pose proof (bucket_lookup d (HashValue_nibble k (Z.of_nat d)) m k) as Hb. rewrite Hch, lookup_empty, bool_decide_true in Hb by done. rewrite <- Hb in Hk. by destruct Hk. }
  exists (mkInternalNode ch (sum_leaf_count ch) leaf_count_migration). split; [|done]. unfold InternalNode_new_migration, InternalNode_new_impl.
  destruct (Nat.eqb_spec (size ch) 0) as [H0|H0]; cbn [negb ensure r_bind].
  - apply map_size_empty_inv in H0. subst ch. assert (m ≠ ∅) as (k & v & Hk)%map_choose by (intros ->; rewrite map_size_empty in Hs; lia).
    destruct (Hne k) as [? Hx]; [by eauto|]. by rewrite lookup_empty in Hx.
  - destruct (Nat.eqb_spec (size ch) 1) as [H1|H1]; [|done]. pose proof (list_to_map_to_list ch) as Hl. rewrite <- length_map_to_list in H1.
    destruct (map_to_list ch) as [|[i ce] [|]]; try done. cbn [head expect r_bind]. simpl in Hl.
    assert (bucket d i m = m) as Hb.
    { apply map_eq. intros k. rewrite bucket_lookup. case_bool_decide as Hn; [done|]. symmetry. apply eq_None_not_Some. intros [ce' Hk]%Hne.
      rewrite <- Hl in Hk. apply lookup_insert_Some in Hk as [[]|[]]; done. }
    specialize (Hch i). rewrite <- Hl, lookup_insert_eq, Hb in Hch. destruct Hch as (_ & _ & Ht). unfold Child_is_leaf.
    destruct (c_node_type ce); [simpl in Ht; lia|done..].
Qed.

Lemma Inv_assemble p m n c : Forall is_nibble p → length p < 64 → cget c (node_key ver p) = Some (Internal n) →
  is_Some (cache c !! node_key ver p) → node_key ver p ∉ stale c → internal_ok legacy (length p) m n →
  (∀ k, nk_nibble_path k = path_of p → k ≠ node_key ver p → gone c k) →
  (∀ i, is_nibble i → match in_children n !! i with
                      | Some ce => Inv (p ++ [i]) (c_version ce) (bucket (length p) i m) c
                      | None => empty_below (p ++ [i]) c
                      end) →
  Inv p ver m c.
Proof using Hold.
  intros Hp Hlp Hg Hc Hst Hn Hothers Hch.
  assert (Hdown : ∀ i ce k, in_children n !! i = Some ce → reaches c (p ++ [i]) (c_version ce) k → reaches c p ver k) by (intros; by eapply reach_child).
  assert (Hsub : ∀ k, under p k → k = node_key ver p ∨ gone c k ∨
    ∃ i ce, under (p ++ [i]) k ∧ in_children n !! i = Some ce ∧ Inv (p ++ [i]) (c_version ce) (bucket (length p) i m) c).
  { intros k [Hk|[i Hu]]%under_cases; [destruct (decide (k = node_key ver p)); auto|]. right.
    specialize (Hch i (under_nibble _ _ _ Hu)). destruct (in_children n !! i) as [ce|] eqn:Hi; [right; eauto|left; by apply Hch]. }
  split.
  - eapply tree_internal; [done..|]. intros i ce Hi. specialize (Hch i (internal_child_nibble _ _ _ _ _ _ Hn Hi)). rewrite Hi in Hch. apply Hch.
  - intros k [->|(n' & i & ce & Hg' & Hi & Hr)]%reach_inv; [by split_and!; [..|left]|]. rewrite Hg in Hg'. injection Hg' as <-.
    specialize (Hch i (internal_child_nibble _ _ _ _ _ _ Hn Hi)). rewrite Hi in Hch. by apply Hch.
  - intros k Hk Hu. destruct (Hsub k Hu) as [->|[[Hno _]|(i & ce & Hui & Hi & HI)]]; [split; [done|constructor]|rewrite Hno in Hk; by destruct Hk|].
    destruct (inv_cache _ _ _ _ HI k Hk Hui). eauto.
  - intros k Hk Hu. destruct (Hsub k Hu) as [->|[[_ Hs]|(i & ce & Hui & Hi & HI)]]; [done|by apply Hs|by apply (inv_stale _ _ _ _ HI)].
  - intros k Hk Hu. destruct (Hsub k Hu) as [->|[[_ Hs]|(i & ce & Hui & Hi & HI)]]; [left; constructor|right; by apply Hs|].
    destruct (inv_old _ _ _ _ HI k Hk Hui); eauto.
Qed.

Lemma put_internal_spec p m ch f c : Forall is_nibble p → length p < 64 → 2 ≤ size m → (∀ i, is_nibble i → f i = bucket (length p) i m) →
  root_gone p c → children_state p ch f c →
  runs (put_internal leaf_count_migration (node_key ver p) ch) c (written p m c).
Proof using Hold.
  intros Hp Hlp Hs Hf Hr [Hrange Hch].
  assert (Hok : ∀ i, match ch !! i with Some ce => child_ok legacy (length p) (bucket (length p) i m) ce | None => bucket (length p) i m = ∅ end).
  { intros i. destruct (decide (0 ≤ i < 16)%Z) as [Hi|Hi].
    - specialize (Hch i Hi). rewrite <- Hf by done. destruct (ch !! i); apply Hch.
    - destruct (ch !! i) eqn:Hci; [by destruct Hi; apply Hrange|]. apply dec_stable. intros Hne%bucket_empty_range. done. }
  destruct (new_migration_ok (length p) m ch Hs Hok) as (n & Hn & Hnc & Hin). unfold put_internal. run_lift Hn.
  apply runs_bind. eapply runs_mono; [by apply put_node_gone, Hr|]. intros [] c' (Hfx & Hc & Hst). apply runs_ret.
  pose proof (put_get _ _ _ _ Hc) as Hg. assert (Hsame : ∀ k, k ≠ node_key ver p → same_at c c' k) by (intros; by eapply put_same).
  split_and!; [done..| |split; [done|]].
  - eapply Inv_assemble; try done.
    + rewrite Hc, lookup_insert_eq. eauto.
    + rewrite Hst. intros Hx. destruct (Hr (node_key ver p) eq_refl) as [_ Ho]. apply Ho in Hx. by apply Hold in Hx.
    + intros k Hk Hne. apply (gone_same c); auto.
    + intros i Hi. assert (Hun : ∀ k, under (p ++ [i]) k → same_at c c' k) by (intros k Hu; apply Hsame; intros ->; by apply under_not_here in Hu).
      specialize (Hch i Hi). rewrite Hf in Hch by done. rewrite Hnc. destruct (ch !! i) as [ce|].
      * eapply Inv_same; [by apply nibble_snoc|exact Hfx|exact Hun|apply Hch].
      * intros k Hu. apply (gone_same c); [by apply Hun|by apply Hch].
  - intros k Hk. apply Hsame. intros ->. by apply Hk, under_here.
Qed.

(** ** Children one by one *)

(** The part of a map below a path. *)
Definition restrict (q : list Z) m : gmap Z V := filter (λ kv, q `prefix_of` key_nibbles kv.1) m.
Lemma restrict_lookup q m k : restrict q m !! k = if bool_decide (q `prefix_of` key_nibbles k) then m !! k else None.
Proof. unfold restrict. rewrite map_lookup_filter. destruct (m !! k); simpl; [|by case_bool_decide]. case_guard; case_bool_decide; done. Qed.
Lemma prefix_snoc_nibble p i k : length p < 64 → p ++ [i] `prefix_of` key_nibbles k ↔ p `prefix_of` key_nibbles k ∧ HashValue_nibble k (Z.of_nat (length p)) = i.
Proof.
  intros Hp. pose proof (key_nibbles_lookup k (length p) Hp) as Hl. split.
  - intros [q Hq]. rewrite <- app_assoc in Hq. split; [by eexists|]. rewrite Hq, lookup_app_r, Nat.sub_diag in Hl by done. simpl in Hl. congruence.
  - intros [[q Hq] Hi]. rewrite Hq, lookup_app_r, Nat.sub_diag in Hl by done. destruct q as [|a q]; [done|]. exists q.
    rewrite Hq, <- app_assoc. simpl in *. congruence.
Qed.
Lemma bucket_restrict p i m : length p < 64 → bucket (length p) i (restrict p m) = restrict (p ++ [i]) m.
Proof.
  intros Hp. apply map_eq. intros k. rewrite bucket_lookup, !restrict_lookup.
  pose proof (prefix_snoc_nibble p i k Hp). repeat case_bool_decide; tauto.
Qed.
Lemma restrict_nil m : restrict [] m = m.
Proof. apply map_eq. intros k. rewrite restrict_lookup. by rewrite bool_decide_true by apply prefix_nil. Qed.

(** The hashes given for the nodes that the values [KV] touch are those of the final map. *)
Definition hash_cache_ok (hc : option (gmap NibblePath HashValue)) (KV : list (Z * V)) (Mf : gmap Z V) : Prop :=
  match hc with
  | None => True
  | Some h => ∀ q i kv, kv ∈ KV → q ++ [i] `prefix_of` key_nibbles kv.1 → 2 ≤ size (restrict q Mf) →
      h !! path_of (q ++ [i]) = Some (smt_hash (state_tree (4 * (63 - length q)) (restrict (q ++ [i]) Mf)))
  end.
Context (hc : option (gmap NibblePath HashValue)) (KV : list (Z * V)) (Mf : gmap Z V) (Hhc : hash_cache_ok hc KV Mf).

Lemma insert_child_ok p i m c r c' ch kv : length p < 64 → written (p ++ [i]) m c r c' → m = restrict (p ++ [i]) Mf →
  2 ≤ size (restrict p Mf) → kv ∈ KV → p ++ [i] `prefix_of` key_nibbles kv.1 →
  ∃ ce, insert_child ch i ver r hc = Ok (<[i := ce]> ch) ∧ c_version ce = ver ∧ child_ok legacy (length p) m ce.
Proof using Hhc.
  intros Hp (Hk & Hg & HI & _) Hm Hs Hkv Hpre. destruct (tree_root_hash _ _ _ _ _ (inv_tree _ _ _ _ HI)) as (n & Hn & Hh & (t & Ht & Htok) & _ & Hne).
  rewrite Hg in Hn. injection Hn as Hn. rewrite length_app, Nat.add_1_r in Hh. replace (64 - S (length p)) with (63 - length p) in Hh by lia.
  exists (mkChild (smt_hash (state_tree (4 * (63 - length p)) m)) ver t). split; [|done]. unfold insert_child.
  assert (get_hash r.1 r.2 hc = Ok (smt_hash (state_tree (4 * (63 - length p)) m))) as ->; [|by rewrite Hn, Ht].
  unfold get_hash. rewrite Hn, Hk. destruct hc as [h|]; [|done]. cbn [node_key nk_nibble_path]. rewrite (Hhc p i kv Hkv Hpre Hs). by rewrite Hm.
Qed.

(** After the children with the nibbles [todo], the maps [f1] take the place of [f0]. *)
Definition mixed (f0 f1 : Z → gmap Z V) (todo : list Z) (i : Z) : gmap Z V := if decide (i ∈ todo) then f0 i else f1 i.
Definition loop_inv (p : list Z) (f0 f1 : Z → gmap Z V) c0 (todo : list Z) (ch : Children) c : Prop :=
  children_state p ch (mixed f0 f1 todo) c ∧ root_gone p c ∧ frame p c0 c ∧ NoDup todo.

Lemma loop_step p f0 f1 c0 i todo ch c r c' ce : Forall is_nibble p → is_nibble i → loop_inv p f0 f1 c0 (i :: todo) ch c → written (p ++ [i]) (f1 i) c r c' →
  c_version ce = ver → child_ok legacy (length p) (f1 i) ce → loop_inv p f0 f1 c0 todo (<[i := ce]> ch) c'.
Proof using.
  intros Hp Hi ([Hr Hch] & Hg & Hf & Hnd) (_ & _ & HI & Hf') Hv Hce. apply NoDup_cons in Hnd as [Hnin Hnd]. split_and!; [split| | |done].
  - intros j Hj. destruct (decide (j = i)) as [->|]; [done|]. rewrite lookup_insert_ne in Hj by done. auto.
  - intros j Hj. destruct (decide (j = i)) as [->|Hne].
    + rewrite lookup_insert_eq. unfold mixed. rewrite decide_False by done. rewrite Hv. done.
    + rewrite lookup_insert_ne by done. specialize (Hch j Hj). assert (mixed f0 f1 (i :: todo) j = mixed f0 f1 todo j) as Heq.
      { unfold mixed. destruct (decide (j ∈ todo)); [rewrite decide_True by (by right)|rewrite decide_False by (by intros [?|?]%elem_of_cons)]; done. }
      rewrite Heq in Hch. assert (Hs : ∀ k, under (p ++ [j]) k → same_at c c' k) by (intros k Hu; eapply (frame_sibling p i j); done).
      destruct (ch !! j) as [ce'|].
      * split; [apply Hch|]. eapply Inv_same; [by apply nibble_snoc|apply Hf'|exact Hs|apply Hch].
      * split; [apply Hch|]. intros k Hu. apply (gone_same c); [by apply Hs|by apply Hch].
  - intros k Hk. apply (gone_same c); [by eapply frame_here|by apply Hg].
  - eapply frame_trans; [exact Hf|by eapply frame_child].
Qed.

Lemma empty_children p c : Forall is_nibble p → empty_below p c → root_gone p c ∧ children_state p ∅ (λ _, ∅) c.
Proof using.
  intros Hp He. split_and!; [|split].
  - intros k Hk. apply He. rewrite (node_key_path _ _ Hk). by apply under_here.
  - intros i []%lookup_empty_is_Some.
  - intros i Hi. rewrite lookup_empty. split; [done|]. intros k Hu. by apply He, (under_child p i).
Qed.
Lemma children_state_ext p ch f g c : (∀ i, is_nibble i → f i = g i) → children_state p ch f c → children_state p ch g c.
Proof. intros Hfg [Hr Hch]. split; [done|]. intros i Hi. rewrite <- Hfg by done. by apply Hch. Qed.

Lemma gen_child_spec v v' p i : length p < 64 → gen_child_node_key (node_key v p) v' i = Ok (node_key v' (p ++ [i])).
Proof. intros Hp. unfold gen_child_node_key. cbn [node_key nk_nibble_path]. by rewrite push_path_of. Qed.

(** A sorted batch below a path, part of the values written. *)
Record batch_at (p : list Z) (kvs : list (Z * V)) : Prop := {
  ba_sorted : sorted_keys kvs;
  ba_keys : keys_at p (kmap kvs);
  ba_some : kvs ≠ [];
  ba_all : ∀ kv, kv ∈ kvs → kv ∈ KV;
}.
Lemma batch_lookup p kvs k kv : batch_at p kvs → kvs !! k = Some kv → kv ∈ KV ∧ p `prefix_of` key_nibbles kv.1.
Proof. intros [Hs Hk _ Ha] Hl%list_elem_of_lookup_2. split; [by apply Ha|]. by apply (kmap_keys p kvs). Qed.

(** The first step of every round of the loop over the ranges. *)
Lemma range_facts p kvs r : length p < 64 → batch_at p kvs → good_range (length p) kvs r →
  ∃ kv i, (expect (kvs !! r.1) "index out of bounds" : AnyResult _) = Ok kv ∧ get_nibble kv.1 (length p) = Ok i ∧ range_nib (length p) kvs r = i ∧ is_nibble i ∧
    kv ∈ KV ∧ p ++ [i] `prefix_of` key_nibbles kv.1 ∧
    batch_at (p ++ [i]) (kvs_range kvs r) ∧ kmap (kvs_range kvs r) = bucket (length p) i (kmap kvs).
Proof using.
  intros Hp Hb (kv & Hkv & Hr). destruct (batch_lookup _ _ _ _ Hb Hkv) as [HKV Hpre]. exists kv, (HashValue_nibble kv.1 (Z.of_nat (length p))).
  rewrite Hkv. split; [done|]. split; [by apply get_nibble_spec|]. split; [unfold range_nib; by rewrite Hkv|]. split; [apply HashValue_nibble_range|].
  split; [done|]. split; [by apply prefix_snoc_nibble|]. rewrite Hr. rewrite kmap_filter by apply Hb. split; [|done]. split.
  - apply sorted_keys_filter, Hb.
  - rewrite kmap_filter by apply Hb. apply bucket_keys; [apply Hb|done].
  - intros Hnil. eapply (not_elem_of_nil kv). rewrite <- Hnil. apply list_elem_of_filter. split; [done|by eapply list_elem_of_lookup_2].
  - intros kv' [_ Hin]%list_elem_of_filter. by apply Hb.
Qed.

(** The loop over the ranges, for a body that writes the child of a range. *)
Lemma ranges_loop {X} (body : X → nat * nat → ST TreeCache string X) (children : X → Children) (J : list Z → X → Prop) p kvs f0 f1 c0 x0 ranges :
  Forall is_nibble p → length p < 64 → batch_at p kvs → 2 ≤ size (restrict p Mf) →
  (∀ i, bucket (length p) i (kmap kvs) ≠ ∅ → f1 i = restrict (p ++ [i]) Mf) →
  Forall (good_range (length p) kvs) ranges → loop_inv p f0 f1 c0 (range_nib (length p) kvs <$> ranges) (children x0) c0 →
  J (range_nib (length p) kvs <$> ranges) x0 →
  (∀ r x c i kv todo, (expect (kvs !! r.1) "index out of bounds" : AnyResult _) = Ok kv → get_nibble kv.1 (length p) = Ok i → is_nibble i →
     batch_at (p ++ [i]) (kvs_range kvs r) → kmap (kvs_range kvs r) = bucket (length p) i (kmap kvs) →
     loop_inv p f0 f1 c0 (i :: todo) (children x) c → J (i :: todo) x →
     (∀ nr c1, written (p ++ [i]) (f1 i) c nr c1 → ∃ ch, insert_child (children x) i ver nr hc = Ok ch) →
     runs (body x r) c (λ x' c', J todo x' ∧ ∃ r c1, written (p ++ [i]) (f1 i) c r c1 ∧ c' = c1 ∧
       Ok (children x') = insert_child (children x) i ver r hc)) →
  runs (st_fold body ranges x0) c0 (λ x c, loop_inv p f0 f1 c0 [] (children x) c ∧ J [] x).
Proof using Hhc.
  intros Hp Hlp Hb Hs Hf1 Hg Hinv HJ Hbody. eapply runs_mono.
  - apply (runs_fold _ (λ rs x c, loop_inv p f0 f1 c0 (range_nib (length p) kvs <$> rs) (children x) c ∧ J (range_nib (length p) kvs <$> rs) x ∧ Forall (good_range (length p) kvs) rs)); [done|].
    clear x0 Hinv HJ Hg ranges. intros r rs x c (Hinv & HJ & Hg). apply Forall_cons in Hg as [Hr Hg].
    destruct (range_facts p kvs r Hlp Hb Hr) as (kv & i & Hkv & Hni & Hrn & Hi & HKV & Hpre & Hbr & Hkm).
    cbn [fmap list_fmap] in Hinv, HJ. rewrite Hrn in Hinv, HJ.     assert (f1 i = restrict (p ++ [i]) Mf) as Hfi.
    { apply Hf1. rewrite <- Hkm. intros He. apply (ba_some _ _ Hbr). apply map_size_empty_iff in He. rewrite kmap_size in He by apply Hbr. by apply length_zero_iff_nil. }
    assert (Hins : ∀ nr c1, written (p ++ [i]) (f1 i) c nr c1 → _) by (intros nr c1 Hw; exact (insert_child_ok p i _ _ _ _ (children x) kv Hlp Hw Hfi Hs HKV Hpre)).
    eapply runs_mono. { apply (Hbody r x c i kv (range_nib (length p) kvs <$> rs)); try done. intros nr c1 Hw. destruct (Hins nr c1 Hw) as (ce & Hce & _). eauto. }
    intros x' c' (HJ' & nr & ? & Hw & -> & Heq). split; [|done]. destruct (Hins _ _ Hw) as (ce & Hce & Hv & Hok). clear Hins. rename Heq into Hins.
    rewrite Hce in Hins. injection Hins as Hins. rewrite Hins. by eapply loop_step.
  - intros x c (H1 & H2 & _). done.
Qed.

Definition start_ok (fuel : nat) (p : list Z) : Prop := Forall is_nibble p ∧ length p ≤ 64 ∧ 65 ≤ fuel + length p.
Lemma start_child fuel p i : start_ok (S fuel) p → length p < 64 → is_nibble i → start_ok fuel (p ++ [i]).
Proof. intros (Hp & Hl & Hf) Hlt Hi. split_and!; [by apply nibble_snoc|rewrite length_app; simpl; lia..]. Qed.

Lemma ranges_of p kvs : batch_at p kvs → length p < 64 →
  ∃ rs, nibble_ranges kvs (length p) = Ok rs ∧ Forall (good_range (length p) kvs) rs ∧ NoDup (range_nib (length p) kvs <$> rs) ∧
    ∀ i, i ∈ range_nib (length p) kvs <$> rs ↔ bucket (length p) i (kmap kvs) ≠ ∅.
Proof using.
  intros Hb Hlp. destruct (nibble_ranges_spec (length p) kvs) as (rs & Hrs & Hgood & Hnd & Hall); [apply sorted_keys_nibbles; [apply Hb..|done]|done|].
  exists rs. split_and!; try done. intros i. split.
  - intros (r & -> & Hr)%list_elem_of_fmap. rewrite Forall_forall in Hgood. specialize (Hgood r Hr).
    destruct (range_facts p kvs r Hlp Hb Hgood) as (kv & i & _ & _ & -> & _ & _ & _ & Hbr & <-).
    intros He. apply (ba_some _ _ Hbr). apply map_size_empty_iff in He. rewrite kmap_size in He by apply Hbr. by apply length_zero_iff_nil.
  - intros (k & v & Hk)%map_choose. rewrite bucket_lookup in Hk. case_bool_decide as Hi; [|done]. apply kmap_elem, Hall in Hk; [|apply Hb].
    by rewrite <- Hi.
Qed.
Lemma loop_start p f0 f1 ch c todo : Forall is_nibble p → root_gone p c → children_state p ch f0 c → NoDup todo →
  (∀ i, i ∉ todo → f1 i = f0 i) → loop_inv p f0 f1 c todo ch c.
Proof using.
  intros Hp Hr Hch Hnd Hf. split_and!; [|done|apply frame_refl|done]. eapply children_state_ext; [|exact Hch]. intros i Hi. unfold mixed.
  case_decide; [done|]. symmetry. auto.
Qed.
Lemma loop_child p f0 f1 c0 i todo ch c : is_nibble i → loop_inv p f0 f1 c0 (i :: todo) ch c →
  match ch !! i with
  | Some ce => child_ok legacy (length p) (f0 i) ce ∧ Inv (p ++ [i]) (c_version ce) (f0 i) c
  | None => f0 i = ∅ ∧ empty_below (p ++ [i]) c
  end.
Proof using. intros Hi ([_ Hch] & _). specialize (Hch i Hi). unfold mixed in Hch. by rewrite decide_True in Hch by left. Qed.
Lemma loop_child_empty p f1 c0 i todo ch c : is_nibble i → loop_inv p (λ _, ∅) f1 c0 (i :: todo) ch c → empty_below (p ++ [i]) c.
Proof using. intros Hi Hinv%loop_child; [|done]. destruct (ch !! i); [by destruct Hinv as [[[] _] _]|apply Hinv]. Qed.
Lemma loop_end p f0 f1 c0 ch c : loop_inv p f0 f1 c0 [] ch c → children_state p ch f1 c ∧ root_gone p c ∧ frame p c0 c.
Proof using.
  intros (Hch & Hr & Hf & _). split_and!; [|done..]. eapply children_state_ext; [|exact Hch]. intros i _. unfold mixed. rewrite decide_False; [done|].
  apply not_elem_of_nil.
Qed.
Lemma written_frame p m c0 c r c' : frame p c0 c → written p m c r c' → written p m c0 r c'.
Proof using. intros Hf (H1 & H2 & H3 & H4). split_and!; try done. by eapply frame_trans. Qed.
Lemma length_child p (i : Z) : length p + 1 = length (p ++ [i]).
Proof. by rewrite length_app. Qed.

Lemma create_spec fuel p kvs c : start_ok fuel p → batch_at p kvs → kmap kvs = restrict p Mf → empty_below p c →
  runs (batch_create_subtree leaf_count_migration fuel (node_key ver p) ver kvs (length p) hc) c (written p (kmap kvs) c).
Proof using Hold Hhc.
  revert p kvs c. induction fuel as [|fuel IH]; intros p kvs c Hst Hb Hm He; [destruct Hst as (_ & ? & ?); lia|].
  pose proof Hst as (Hp & Hl & Hfuel). cbn [batch_create_subtree]. destruct kvs as [|[k x] [|kv' kvs']] eqn:Hkvs; [by destruct (ba_some _ _ Hb)|by apply put_leaf_spec|].
  rewrite <- Hkvs in *. assert (2 ≤ size (kmap kvs)) as Hsz by (rewrite kmap_size by apply Hb; rewrite Hkvs; simpl; lia). clear Hkvs.
  assert (Hlp : length p < 64) by (eapply keys_at_size; [apply Hb|done..]).
  destruct (ranges_of p kvs Hb Hlp) as (rs & Hrs & Hgood & Hnd & Hall). run_lift Hrs. apply runs_bind.
  destruct (empty_children p c Hp He) as [Hroot Hch]. set (f1 i := bucket (length p) i (kmap kvs)).
  eapply runs_mono; [apply (ranges_loop _ id (λ _ _, True) p kvs (λ _, ∅) f1); try done|].
  - by rewrite <- Hm.
  - intros i _. unfold f1. by rewrite Hm, bucket_restrict.
  - apply loop_start; try done. intros i Hi. rewrite Hall in Hi. by apply dec_stable.
  - intros r ch c1 i kv todo Hkv Hni Hi Hbr Hkm Hinv _ Hins. run_lift Hkv. run_lift Hni. run_lift (gen_child_spec ver ver p i Hlp).
    apply runs_bind. rewrite (length_child p i). eapply runs_mono.
    { apply (IH (p ++ [i])); [by apply start_child|done|by rewrite Hkm, Hm, bucket_restrict|by eapply loop_child_empty]. }
    intros nr c2 Hw. rewrite Hkm in Hw. destruct (Hins nr c2 Hw) as [ch' Hch']. eapply runs_lift; [exact Hch'|]. split; [done|]. by exists nr, c2.
  - intros ch c1 [Hinv _]. apply loop_end in Hinv as (Hch' & Hr & Hf). eapply runs_mono; [by eapply put_internal_spec|].
    intros nr c2 Hw. by eapply written_frame.
Qed.

Lemma bucket_singleton d i k (x : V) : bucket d i {[k := x]} = if decide (HashValue_nibble k (Z.of_nat d) = i) then {[k := x]} else ∅.
Proof.
  unfold bucket. case_decide; [by rewrite map_filter_singleton_True|by rewrite map_filter_singleton_False].
Qed.
Lemma union_size_two kvs k (x : V) : sorted_keys kvs → kvs ≠ [] → only_value k kvs = None → 2 ≤ size (kmap kvs ∪ {[k := x]}).
Proof.
  intros Hs Hne Ho. destruct kvs as [|[k1 v1] [|[k2 v2] kvs]]; [done|..].
  - simpl in Ho. destruct (Z.eqb_spec k1 k) as [|Hk]; [done|]. unfold kmap. simpl.
    rewrite insert_empty, <- insert_union_singleton_l, map_size_insert_None, map_size_singleton by (by rewrite lookup_singleton_ne). lia.
  - transitivity (size (kmap ((k1, v1) :: (k2, v2) :: kvs))); [rewrite kmap_size by done; simpl; lia|]. apply map_subseteq_size, map_union_subseteq_l.
Qed.

(** The leaf that stays alone in its bucket. *)
Lemma isolated_leaf p k x (f1 f2 : Z → gmap Z V) ch c : Forall is_nibble p → length p < 64 →
  let b := HashValue_nibble k (Z.of_nat (length p)) in
  f1 b = ∅ → f2 b = {[k := x]} → (∀ i, i ≠ b → f2 i = f1 i) → root_gone p c → children_state p ch f1 c →
  runs (put_node (node_key ver (p ++ [b])) (Leaf (LeafNode_new k x))) c (λ _ c', frame p c c' ∧ root_gone p c' ∧
    children_state p (<[b := mkChild (LeafNode_hash (LeafNode_new k x)) ver NTLeaf]> ch) f2 c').
Proof using Hold.
  intros Hp Hlp b Hf1 Hf2 Hf Hr Hch. assert (Hb : is_nibble b) by apply HashValue_nibble_range.
  assert (He : empty_below (p ++ [b]) c).
  { destruct Hch as [_ Hch]. specialize (Hch b Hb). destruct (ch !! b); [|apply Hch]. destruct Hch as [[Hne _] _]. by rewrite Hf1 in Hne. }
  eapply runs_mono; [apply put_leaf_node; [by apply nibble_snoc|done]|]. intros [] c' Hw.
  rewrite <- Hf2 in Hw. assert (loop_inv p f1 f2 c [] (<[b := mkChild (LeafNode_hash (LeafNode_new k x)) ver NTLeaf]> ch) c') as Hinv.
  { eapply loop_step; [done..| |exact Hw|done|].
    - apply loop_start; try done; [apply NoDup_singleton|]. intros i Hi. apply Hf. intros ->. by apply Hi, list_elem_of_singleton.
    - rewrite Hf2. split_and!; [apply map_non_empty_singleton|by rewrite state_tree_singleton|apply map_size_singleton]. }
  apply loop_end in Hinv as (? & ? & ?). done.
Qed.

Lemma batch_bucket p i kvs kvs' : batch_at (p ++ [i]) kvs' → kmap kvs' = bucket (length p) i (kmap kvs) → bucket (length p) i (kmap kvs) ≠ ∅.
Proof using.
  intros Hb <- He. apply (ba_some _ _ Hb). apply map_size_empty_iff in He. rewrite kmap_size in He by apply Hb. by apply length_zero_iff_nil.
Qed.

(** The map of a child once the values have been put there, the leaf aside when it is alone. *)
Definition rebuilt (p : list Z) (kvs : list (Z * V)) m (i : Z) : gmap Z V :=
  if decide (bucket (length p) i (kmap kvs) = ∅) then ∅ else bucket (length p) i (kmap kvs ∪ m).

(** The end of [batch_create_subtree_with_existing_leaf]. *)
Lemma existing_end p k x kvs ch iso c : Forall is_nibble p → length p < 64 → 2 ≤ size (kmap kvs ∪ {[k := x]}) →
  let b := HashValue_nibble k (Z.of_nat (length p)) in
  iso = bool_decide (b ∈ [] ∨ bucket (length p) b (kmap kvs) = ∅) →
  root_gone p c → children_state p ch (rebuilt p kvs {[k := x]}) c →
  runs (if iso : bool then
          let! existing_leaf_node_key := st_lift (gen_child_node_key (node_key ver p) ver b) in
          put_node existing_leaf_node_key (Leaf (LeafNode_new k x)) ;!
          put_internal leaf_count_migration (node_key ver p) (<[b := mkChild (LeafNode_hash (LeafNode_new k x)) ver NTLeaf]> ch)
        else put_internal leaf_count_migration (node_key ver p) ch) c (written p (kmap kvs ∪ {[k := x]}) c).
Proof using Hold.
  intros Hp Hlp Hsz b Hiso Hr Hch. set (M := kmap kvs ∪ {[k := x]}) in *. set (f1 := rebuilt p kvs {[k := x]}) in *.
  assert (Hbx : bucket (length p) b {[k := x]} = {[k := x]}) by (rewrite bucket_singleton; by rewrite decide_True).
  assert (Hne : ∀ i, i ≠ b → bucket (length p) i M = f1 i).
  { intros i Hi. assert (bucket (length p) i {[k := x]} = ∅) as Hi0 by (rewrite bucket_singleton; by rewrite decide_False).
    unfold f1, rebuilt, M. rewrite bucket_union, Hi0, !map_union_empty. by destruct (decide (bucket (length p) i (kmap kvs) = ∅)). }
  destruct iso; symmetry in Hiso.
  - apply bool_decide_eq_true in Hiso as [[]%not_elem_of_nil|Hb0]. run_lift (gen_child_spec ver ver p b Hlp).
    apply runs_bind. eapply runs_mono.
    { apply (isolated_leaf p k x f1 (λ i, bucket (length p) i M)); try done.
      - unfold f1, rebuilt. by rewrite decide_True.
      - change (bucket (length p) b M = {[k := x]}). unfold M. by rewrite bucket_union, Hb0, Hbx, map_empty_union. }
    intros [] c2 (Hf2 & Hr2 & Hch2). eapply runs_mono; [by eapply put_internal_spec|]. intros nr c3 Hw. by eapply written_frame.
  - apply (put_internal_spec p M ch f1); try done. intros i _. destruct (decide (i = b)) as [->|]; [|by rewrite Hne]. unfold f1, rebuilt.
    rewrite decide_False; [done|]. intros Hb0. apply bool_decide_eq_false in Hiso. tauto.
Qed.

Lemma existing_spec fuel p k x kvs c : start_ok fuel p → batch_at p kvs → keys_at p {[k := x]} → kmap kvs ∪ {[k := x]} = restrict p Mf → empty_below p c →
  runs (batch_create_subtree_with_existing_leaf leaf_count_migration fuel (node_key ver p) ver (LeafNode_new k x) kvs (length p) hc) c
    (written p (kmap kvs ∪ {[k := x]}) c).
Proof using Hold Hhc.
  revert p kvs c. induction fuel as [|fuel IH]; intros p kvs c Hst Hb Hk Hm He; [destruct Hst as (_ & ? & ?); lia|].
  pose proof Hst as (Hp & Hl & Hfuel). cbn [batch_create_subtree_with_existing_leaf]. cbn [LeafNode_new ln_account_key].
  destruct (only_value k kvs) as [v|] eqn:Ho.
  { destruct kvs as [|[k1 v1] []]; simpl in Ho; try done. destruct (Z.eqb_spec k1 k) as [->|]; [|done]. injection Ho as ->.
    replace (kmap [(k, v)] ∪ {[k := x]}) with ({[k := v]} : gmap Z V); [by apply put_leaf_spec|]. unfold kmap. simpl.
    rewrite insert_empty, <- insert_union_singleton_l. by rewrite insert_singleton_eq. }
  assert (Hsz : 2 ≤ size (kmap kvs ∪ {[k := x]})) by (apply union_size_two; [apply Hb..|done]).
  assert (Hlp : length p < 64) by (eapply keys_at_size; [by apply keys_at_union; [apply Hb|]|done..]).
  set (M := kmap kvs ∪ {[k := x]}) in *. set (b := HashValue_nibble k (Z.of_nat (length p))). run_lift (get_nibble_spec k (length p) Hlp). fold b.
  destruct (ranges_of p kvs Hb Hlp) as (rs & Hrs & Hgood & Hnd & Hall). run_lift Hrs. apply runs_bind.
  destruct (empty_children p c Hp He) as [Hroot Hch].
  set (f1 := rebuilt p kvs {[k := x]}).
  eapply runs_mono; [apply (ranges_loop _ fst (λ todo x, x.2 = bool_decide (b ∈ todo ∨ bucket (length p) b (kmap kvs) = ∅)) p kvs (λ _, ∅) f1); try done|].
  - by rewrite <- Hm.
  - intros i Hi. unfold f1, rebuilt. fold M. by rewrite decide_False, Hm, bucket_restrict.
  - apply loop_start; try done. intros i Hi. rewrite Hall in Hi. unfold f1, rebuilt. rewrite decide_True; [done|]. by apply dec_stable.
  - cbn [snd]. rewrite bool_decide_true; [done|]. rewrite Hall. destruct (decide (bucket (length p) b (kmap kvs) = ∅)); auto.
  - intros r [ch iso] c1 i kv todo Hkv Hni Hi Hbr Hkm Hinv HJ Hins. cbn [fst snd] in *. run_lift Hkv. run_lift Hni. run_lift (gen_child_spec ver ver p i Hlp).
    assert (Hfi : f1 i = bucket (length p) i (kmap kvs) ∪ bucket (length p) i {[k := x]}).
    { unfold f1, rebuilt. rewrite decide_False by by eapply batch_bucket. apply bucket_union. }
    assert (Hfm : f1 i = restrict (p ++ [i]) Mf) by (unfold f1, rebuilt; fold M; rewrite decide_False by (by eapply batch_bucket); by rewrite Hm, bucket_restrict).
    apply runs_bind. rewrite (length_child p i). eapply runs_mono with (Q := written (p ++ [i]) (f1 i) c1).
    { rewrite bucket_singleton in Hfi. fold b in Hfi. destruct (Z.eqb_spec b i) as [Hbi|Hbi].
      - subst i. rewrite decide_True in Hfi by done. rewrite Hfi, <- Hkm. apply IH; [by apply start_child|done|..|by eapply loop_child_empty].
        + pose proof (bucket_keys p b _ Hk Hlp) as Hkb. by rewrite bucket_singleton, decide_True in Hkb.
        + by rewrite Hkm, <- Hfi.
      - rewrite decide_False, map_union_empty in Hfi by done. rewrite Hfi, <- Hkm.
        apply create_spec; [by apply start_child|done|by rewrite Hkm, <- Hfi|by eapply loop_child_empty]. }
    intros nr c2 Hw. destruct (Hins nr c2 Hw) as [ch' Hch']. run_lift Hch'. apply runs_ret. split; [|by exists nr, c2].
    cbn [snd]. rewrite HJ. destruct Hinv as (_ & _ & _ & [Hnin _]%NoDup_cons). destruct (Z.eqb_spec b i) as [Hbi|Hbi]; cbn [negb].
    + subst i. rewrite andb_false_r. symmetry. apply bool_decide_false. intros [|Hb0]; [done|]. by eapply batch_bucket.
    + rewrite andb_true_r. apply bool_decide_ext. rewrite elem_of_cons. tauto.
  - intros [ch iso] c1 [Hinv HJ]. cbn [fst snd] in *. apply loop_end in Hinv as (Hch' & Hr & Hf).
    eapply runs_mono; [by apply (existing_end p k x kvs)|]. intros nr c2 Hw. by eapply written_frame.
Qed.

Lemma cget_run c k n (Q : Node V → TreeCache → Prop) : cget c k = Some n → Q n c → runs (cache_get k) c Q.
Proof. unfold cget, runs, cache_get. destruct (get_node c k); [|done..]. by intros [= ->]. Qed.
Lemma insert_child_shape (ch : Children) i (r : NodeKey * Node V) ch' : insert_child ch i ver r hc = Ok ch' → ∃ ce, ch' = <[i := ce]> ch.
Proof. unfold insert_child. intros H. r_inv H. eauto. Qed.

Lemma insert_spec fuel p v m kvs c : start_ok fuel p → batch_at p kvs → keys_at p m → kmap kvs ∪ m = restrict p Mf → Inv p v m c →
  runs (batch_insert_at leaf_count_migration fuel (node_key v p) ver kvs (length p) hc) c (written p (kmap kvs ∪ m) c).
Proof using Hold Hhc.
  revert p v m kvs c. induction fuel as [|fuel IH]; intros p v m kvs c Hst Hb Hk Hm HI; [destruct Hst as (_ & ? & ?); lia|].
  pose proof Hst as (Hp & Hl & Hfuel). cbn [batch_insert_at]. apply runs_bind. eapply runs_mono with (Q := λ _ c', c' = c); [by destruct kvs; [destruct (ba_some _ _ Hb)|]|].
  intros [] ? ->. apply runs_bind. destruct (tree_inv _ _ _ _ _ (inv_tree _ _ _ _ HI)) as [(k & x & -> & Hg)|(n & Hlp & Hg & Hn)];
    (eapply cget_run; [exact Hg|cbv beta iota]); apply runs_bind.
  { eapply runs_mono; [by eapply delete_leaf|]. intros [] c1 [Hf He]. change (set_version ver (node_key v p)) with (node_key ver p).
    eapply runs_mono; [by apply existing_spec|]. intros nr c2 Hw. by eapply written_frame. }
  eapply runs_mono; [by eapply delete_internal|]. intros [] c1 (Hf & Hroot & Hch).
  set (M := kmap kvs ∪ m) in *. assert (Hsz : 2 ≤ size M).
  { destruct Hn as [Hn _]. transitivity (size m); [done|]. apply (dom_subseteq_size (D:=gset Z)). unfold M. rewrite dom_union. apply union_subseteq_r. }
  destruct (ranges_of p kvs Hb Hlp) as (rs & Hrs & Hgood & Hnd & Hall). run_lift Hrs. apply runs_bind.
  eapply runs_mono; [apply (ranges_loop _ id (λ todo ch, ∀ i, i ∈ todo → ch !! i = in_children n !! i) p kvs
    (λ i, bucket (length p) i m) (λ i, bucket (length p) i M)); try done|].
  - by rewrite <- Hm.
  - intros i _. by rewrite Hm, bucket_restrict.
  - apply loop_start; try done. intros i Hi. rewrite Hall in Hi. apply dec_stable in Hi. unfold M. by rewrite bucket_union, Hi, map_empty_union.
  - intros r ch c2 i kv todo Hkv Hni Hi Hbr Hkm Hinv HJ Hins. cbn [id] in *. run_lift Hkv. run_lift Hni. apply runs_bind.
    eapply runs_mono with (Q := written (p ++ [i]) (bucket (length p) i M) c2).
    { pose proof (loop_child _ _ _ _ _ _ _ _ Hi Hinv) as Hci. rewrite (HJ i) in Hci by left. unfold InternalNode_child. rewrite (length_child p i).
      assert (Hmi : bucket (length p) i M = kmap (kvs_range kvs r) ∪ bucket (length p) i m) by (unfold M; by rewrite bucket_union, Hkm).
      assert (HMi : bucket (length p) i M = restrict (p ++ [i]) Mf) by (by rewrite Hm, bucket_restrict). rewrite HMi in Hmi |- *.
      destruct (in_children n !! i) as [ce|].
      - run_lift (gen_child_spec v (c_version ce) p i Hlp). rewrite Hmi. apply IH; [by apply start_child|done|by apply bucket_keys|done|apply Hci].
      - destruct Hci as [Hci He]. rewrite Hci, map_union_empty in Hmi. run_lift (gen_child_spec v ver p i Hlp). rewrite Hmi.
        apply create_spec; [by apply start_child|done..]. }
    intros nr c3 Hw. destruct (Hins nr c3 Hw) as [ch' Hch']. eapply runs_lift; [exact Hch'|]. split; [|by exists nr, c3].
    destruct (insert_child_shape _ _ _ _ Hch') as [ce ->]. intros j Hj. destruct Hinv as (_ & _ & _ & [Hnin _]%NoDup_cons).
    rewrite lookup_insert_ne by (by intros ->). apply HJ. by right.
  - intros ch c2 [Hinv _]. apply loop_end in Hinv as (Hch' & Hr & Hf'). change (set_version ver (node_key v p)) with (node_key ver p).
    eapply runs_mono; [by eapply put_internal_spec|]. intros nr c3 Hw. eapply written_frame; [|exact Hw]. by eapply frame_trans.
Qed.
End txn.
