(* ===== verification/JellyfishSingle.v ===== *)
(** * JellyfishSingle: insertion of one value

    [insert_at] keeps the invariant of a transaction, as the operations of a batch do: at an
    internal node, at a leaf with the same key, and at a leaf whose key parts from the new one
    after some more nibbles, above which a chain of internal nodes is built. *)

From S2P Require Import Prelude Bits Crypto Accumulator SparseMerkle NibblePath JellyfishNode JellyfishTree JellyfishFacts JellyfishPut JellyfishBatch.

Local Open Scope nat_scope.

Lemma under_app p q k : under (p ++ q) k → under p k.
Proof. intros (r & Hr & Hk). exists (q ++ r). by rewrite app_assoc. Qed.
Lemma slice_all ns pos : pos ≤ length ns → slice ns pos (length ns) = drop pos ns.
Proof. intros H. unfold slice. apply take_ge. rewrite length_drop. lia. Qed.
Lemma common_len_app (p l1 l2 : list Z) : common_len (p ++ l1) (p ++ l2) = length p + common_len l1 l2.
Proof. induction p as [|a p IH]; [done|]. simpl. by rewrite Z.eqb_refl, IH. Qed.
Lemma take_prefix (p l : list Z) n : p `prefix_of` l → n = length p → take n l = p.
Proof. intros [q ->] ->. by rewrite take_app_length. Qed.

Section single.
Context `{C : Crypto} {R V : Type} `{HV : CryptoHash V} `{MH : MerkleHasher} `{LH : SparseLeafHasher} `{TR : TreeReader R V}.
Context (legacy leaf_count_migration : bool) (ver : Z) (old : NodeKey → Prop) (Hold : ∀ k, old k → nk_version k ≠ ver).
Implicit Types (m : gmap Z V) (c : TreeCache (R:=R) (V:=V)).
Abbreviation inv := (Inv legacy ver old).
Abbreviation wrote := (written legacy ver old).
Abbreviation key_iter key pos := (iter (key_nibbles key) 0 pos 64).

Lemma create_leaf_spec p key x pos c : Forall is_nibble p → is_hash key → pos ≤ 64 → empty_below old p c →
  runs (create_leaf_node (node_key ver p) (key_iter key pos) x) c (wrote p {[key := x]} c).
Proof using Hold.
  intros Hp Hk Hpos He. unfold create_leaf_node. assert (ni_get_nibble_path (key_iter key pos) = Ok (path_of (key_nibbles key))) as Hpath.
  { pose proof (ni_get_nibble_path_at (key_nibbles key) (key_nibbles_range key) pos) as H. rewrite key_nibbles_length in H. apply H; [unfold ROOT_NIBBLE_HEIGHT|]; lia. }
  run_lift Hpath. apply runs_bind. eapply runs_lift; [by rewrite (key_from_path key Hk)|]. by apply put_leaf_spec.
Qed.

(** A node with one child above another. *)
Lemma chain_children q i node m c ce : Forall is_nibble (q ++ [i]) → length q < 64 → keys_at (q ++ [i]) m → inv (q ++ [i]) ver m c →
  (∀ k, under q k → ¬ under (q ++ [i]) k → gone old c k) → cget c (node_key ver (q ++ [i])) = Some node →
  c_version ce = ver → child_ok legacy (length q) m ce →
  root_gone old q c ∧ children_state legacy ver old q {[i := ce]} (λ j, bucket (length q) j m) c.
Proof using.
  intros Hq Hl Hk HI Hgone Hn Hv Hce. apply Forall_app in Hq as [Hq Hi]. assert (is_nibble i) as Hi' by by inversion Hi.
  assert (Hb : ∀ j, bucket (length q) j m = if decide (j = i) then m else ∅).
  { intros j. apply map_eq. intros k. rewrite bucket_lookup. destruct (m !! k) eqn:Hmk; [|by case_bool_decide; case_decide; rewrite ?lookup_empty].
    destruct (Hk k) as [_ Hpre]; [by eauto|]. apply prefix_snoc_nibble in Hpre as [_ ->]; [|done].
    destruct (decide (j = i)) as [->|]; [by rewrite bool_decide_true|by rewrite bool_decide_false by done]. }
  split; [|split].
  - intros k Hkp. apply Hgone; [rewrite (node_key_path _ _ Hkp); by apply under_here|]. by intros ?%under_not_here.
  - intros j [? Hj]. apply lookup_singleton_Some in Hj as [<- _]. done.
  - intros j Hj. rewrite Hb. destruct (decide (j = i)) as [->|Hne].
    + rewrite lookup_singleton_eq. by rewrite Hv.
    + rewrite lookup_singleton_ne by done. split; [done|]. intros k Hu. apply Hgone; [by eapply under_child|]. intros Hu'. by apply Hne, (under_inj q j i k).
Qed.

Lemma extend_spec n r q node m c : Forall is_nibble q → length q ≤ 64 → n ≤ length q → r = take (length q - n) q → keys_at q m → 2 ≤ size m →
  inv q ver m c → cget c (node_key ver q) = Some node → (∀ k, under r k → ¬ under q k → gone old c k) →
  runs (extend_up leaf_count_migration n ver (path_of q) (node_key ver q) node) c (wrote r m c).
Proof using Hold.
  revert q node c. induction n as [|n IH]; intros q node c Hq Hl Hn Hr Hk Hs HI Hnode Hgone; cbn [extend_up].
  { rewrite Nat.sub_0_r, take_ge in Hr by lia. subst r. split_and!; [done..|apply frame_refl]. }
  destruct q as [|i q _] using rev_ind; [simpl in Hn; lia|]. rewrite length_app in *. cbn [length] in *. pose proof Hq as [Hq' Hi]%Forall_app.
  assert (is_nibble i) as Hi' by by inversion Hi. rewrite pop_path_of by done.
  assert (Hrq : r = take (length q - n) q). { rewrite Hr, take_app_le by lia. f_equal. lia. }
  destruct (tree_root_hash _ _ _ _ _ (inv_tree _ _ _ _ _ _ _ HI)) as (node' & Hn' & Hh & (t & Ht & Htok) & _ & Hne).
  rewrite Hnode in Hn'. injection Hn' as <-. rewrite length_app in Hh. cbn [length] in Hh. replace (64 - (length q + 1)) with (63 - length q) in Hh by lia.
  apply runs_bind. eapply runs_lift; [done|]. run_lift Hh. run_lift Ht.
  assert (Hunder : ∀ k, under q k → under r k) by (intros k Hu; rewrite <- (take_drop (length q - n) q), <- Hrq in Hu; by eapply under_app).
  destruct (chain_children q i node m c (mkChild (smt_hash (state_tree (4 * (63 - length q)) m)) ver t)) as [Hroot Hch]; try done; [lia|auto|].
  apply runs_bind. eapply runs_mono; [eapply (put_internal_spec legacy leaf_count_migration ver old Hold q m); [done|lia|done| |done|exact Hch]; done|].
  intros [k' node'] c' (Hk' & Hn' & HI' & Hf'). cbn [fst snd] in *. subst k'.
  eapply runs_mono; [apply (IH q); try done; [lia|lia|by intros k [Hh' Hpre]%Hk; split; [|by apply prefix_app_l in Hpre]|]|].
  - intros k Hu Hnu. apply (gone_same old c); [by apply Hf'|]. apply Hgone; [done|]. by intros ?%under_child.
  - intros nr c2 Hw. eapply written_frame; [|exact Hw]. destruct Hf' as [Hf1 Hf2]. split; [done|]. intros k Hnu. apply Hf2. auto.
Qed.

(** Where the keys of two leaves below a path part. *)
Definition parting (p : list Z) (key k : Z) : nat := length p + common_len (drop (length p) (key_nibbles key)) (drop (length p) (key_nibbles k)).

Lemma parting_bounds p key k : length p ≤ 64 → length p ≤ parting p key k ≤ 64.
Proof.
  intros Hp. unfold parting. pose proof (common_len_le (drop (length p) (key_nibbles key)) (drop (length p) (key_nibbles k))) as [H _].
  rewrite length_drop, key_nibbles_length in H. lia.
Qed.
Lemma parting_prefix p key k : length p ≤ 64 → p `prefix_of` key_nibbles key → p `prefix_of` key_nibbles k →
  take (parting p key k) (key_nibbles key) = take (parting p key k) (key_nibbles k).
Proof.
  intros Hp [q Hq] [q' Hq']. unfold parting. rewrite Hq, Hq', !drop_app_length, !take_app_add. f_equal. apply common_len_prefix.
Qed.
Lemma parting_end p key k : is_hash key → is_hash k → length p ≤ 64 → p `prefix_of` key_nibbles key → p `prefix_of` key_nibbles k →
  64 ≤ parting p key k → key = k.
Proof.
  intros Hk Hk' Hl Hp Hp' H. apply key_nibbles_inj; [done..|]. pose proof (parting_prefix p key k Hl Hp Hp') as He.
  by rewrite !take_ge in He by (rewrite key_nibbles_length; lia).
Qed.
Lemma parting_differs p key k : length p ≤ 64 → parting p key k < 64 →
  HashValue_nibble key (Z.of_nat (parting p key k)) ≠ HashValue_nibble k (Z.of_nat (parting p key k)).
Proof.
  intros Hl Hlt. eapply (common_len_diff (drop (length p) (key_nibbles key)) (drop (length p) (key_nibbles k)));
    rewrite lookup_drop; by apply key_nibbles_lookup.
Qed.

Lemma skip_visited p key k : length p ≤ 64 → p `prefix_of` key_nibbles key → p `prefix_of` key_nibbles k →
  skip_common_prefix (iter (key_nibbles key) 0 0 (length p)) (key_iter k 0) =
    Ok (length p, iter (key_nibbles key) 0 (length p) (length p), key_iter k (length p)).
Proof.
  intros Hl Hp [q Hq]. pose proof (skip_common_prefix_at (key_nibbles key) (key_nibbles k) 0 0 0 0 (length p) 64 (key_nibbles_range _) (key_nibbles_range _)) as H.
  cbv zeta in H. rewrite !key_nibbles_length in H. rewrite H by lia. assert (slice (key_nibbles key) 0 (length p) = p) as ->.
  { unfold slice. rewrite Nat.sub_0_r, drop_0. by apply take_prefix. }
  assert (slice (key_nibbles k) 0 64 = p ++ q) as ->. { rewrite <- (key_nibbles_length k), slice_all by lia. by rewrite drop_0. }
  assert (common_len p (p ++ q) = length p) as ->; [|done].
  pose proof (common_len_app p [] q) as Hc. rewrite app_nil_r in Hc. rewrite Hc. simpl. lia.
Qed.
Lemma skip_rest p key k : length p ≤ 64 →
  skip_common_prefix (key_iter key (length p)) (iter (key_nibbles k) (length p) (length p) 64) =
    Ok (parting p key k - length p, key_iter key (parting p key k), iter (key_nibbles k) (length p) (parting p key k) 64).
Proof.
  intros Hl. pose proof (skip_common_prefix_at (key_nibbles key) (key_nibbles k) 0 (length p) (length p) (length p) 64 64 (key_nibbles_range _) (key_nibbles_range _)) as H.
  cbv zeta in H. rewrite !key_nibbles_length in H. rewrite H by lia.
  assert (Hs : ∀ x, slice (key_nibbles x) (length p) 64 = drop (length p) (key_nibbles x)).
  { intros x. rewrite <- (key_nibbles_length x) at 1. apply slice_all. rewrite key_nibbles_length. lia. }
  rewrite !Hs. unfold parting. do 3 f_equal. lia.
Qed.

(** The two leaves, and the node above them. *)
Lemma fork_spec q k x0 key x c : Forall is_nibble q → length q < 64 → empty_below old q c →
  let a := HashValue_nibble k (Z.of_nat (length q)) in let b := HashValue_nibble key (Z.of_nat (length q)) in
  a ≠ b → is_hash key →
  runs (put_node (node_key ver (q ++ [a])) (Leaf (LeafNode_new k x0)) ;!
        let! (_, new_leaf_node) := create_leaf_node (node_key ver (q ++ [b])) (key_iter key (length q + 1)) x in
        let! hash := st_lift (Node_hash new_leaf_node) in
        put_internal leaf_count_migration (node_key ver q)
          (<[b := mkChild hash ver NTLeaf]> {[a := mkChild (LeafNode_hash (LeafNode_new k x0)) ver NTLeaf]})) c
    (wrote q (<[key := x]> {[k := x0]}) c).
Proof using Hold.
  intros Hq Hl He a b Hab Hkey. destruct (empty_children legacy ver old q c Hq He) as [Hroot Hch].
  assert (Hbk : ∀ i, bucket (length q) i ({[k := x0]} : gmap Z V) = if decide (a = i) then {[k := x0]} else ∅) by (intros; apply bucket_singleton).
  apply runs_bind. eapply runs_mono.
  { apply (isolated_leaf legacy ver old Hold q k x0 (λ _, ∅) (λ i, bucket (length q) i {[k := x0]}) ∅); try done.
    - fold a. by rewrite Hbk, decide_True. - fold a. intros i Hi. by rewrite Hbk, decide_False. }
  fold a. intros [] c1 (Hf1 & Hr1 & Hch1). apply runs_bind. assert (Hb : is_nibble b) by apply HashValue_nibble_range.
  set (f1 := λ i, bucket (length q) i (<[key := x]> {[k := x0]})).
  assert (Hf : ∀ i, f1 i = if decide (b = i) then {[key := x]} else bucket (length q) i {[k := x0]}).
  { intros i. unfold f1. rewrite insert_union_singleton_l, bucket_union, bucket_singleton. fold b. destruct (decide (b = i)) as [<-|]; [|by rewrite map_empty_union].
    by rewrite Hbk, decide_False, map_union_empty. }
  eapply runs_mono; [apply (create_leaf_spec (q ++ [b]) key x (length q + 1)); [by apply nibble_snoc|done|lia|]|].
  { destruct Hch1 as [_ Hch1]. specialize (Hch1 b Hb). rewrite Hbk, decide_False, lookup_insert_ne in Hch1 by done. apply Hch1. }
  intros [lk leaf] c2 Hw. pose proof Hw as (_ & Hg & HI & _). cbn [fst snd] in Hg.
  destruct (tree_root_hash _ _ _ _ _ (inv_tree _ _ _ _ _ _ _ HI)) as (leaf' & Hg' & Hh & _). rewrite Hg in Hg'. injection Hg' as <-. run_lift Hh.
  set (ce := mkChild _ ver NTLeaf). assert (Hinv : loop_inv legacy ver old q (λ i, bucket (length q) i {[k := x0]}) f1 c1 []
    (<[b := ce]> {[a := mkChild (LeafNode_hash (LeafNode_new k x0)) ver NTLeaf]}) c2).
  { eapply (loop_step legacy ver old q _ _ c1 b []); [done|done| | |done|].
    - apply loop_start; try done; [apply NoDup_singleton|]. intros i Hi. rewrite Hf, decide_False; [done|]. intros ->. by apply Hi, list_elem_of_singleton.
    - rewrite Hf, decide_True by done. exact Hw.
    - rewrite Hf, decide_True by done. split_and!; [apply map_non_empty_singleton| |apply map_size_singleton]. cbn [c_hash ce].
      by rewrite !state_tree_singleton. }
  apply loop_end in Hinv as (Hch2 & Hr2 & Hf2).
  eapply runs_mono; [eapply (put_internal_spec legacy leaf_count_migration ver old Hold q (<[key := x]> {[k := x0]})); [done|done| |done|done|exact Hch2]|].
  - rewrite map_size_insert_None, map_size_singleton; [done|]. apply lookup_singleton_ne. intros ->. done.
  - intros nr c3 Hw3. eapply written_frame; [|exact Hw3]. eapply frame_trans; [exact Hf1|done].
Qed.

(** The end of [insert_at_leaf_node], for keys that share the path [q] below [p] and part there. *)
Lemma leaf_fork p q k x0 key x c : Forall is_nibble q → length q < 64 → p `prefix_of` q → q `prefix_of` key_nibbles key → q `prefix_of` key_nibbles k →
  is_hash key → is_hash k → empty_below old p c →
  let a := HashValue_nibble k (Z.of_nat (length q)) in let b := HashValue_nibble key (Z.of_nat (length q)) in a ≠ b →
  runs (let! existing_leaf_node_key := st_lift (gen_child_node_key (node_key ver q) ver a) in
        put_node existing_leaf_node_key (Leaf (LeafNode_new k x0)) ;!
        let! new_leaf_node_key := st_lift (gen_child_node_key (node_key ver q) ver b) in
        let! (_, new_leaf_node) := create_leaf_node new_leaf_node_key (key_iter key (length q + 1)) x in
        let! hash := st_lift (Node_hash new_leaf_node) in
        let! (node_key, next_internal_node) := put_internal leaf_count_migration (node_key ver q)
          (<[b := mkChild hash ver NTLeaf]> {[a := mkChild (LeafNode_hash (LeafNode_new k x0)) ver NTLeaf]}) in
        extend_up leaf_count_migration (length q - length p) ver (path_of q) node_key next_internal_node) c
    (wrote p (<[key := x]> {[k := x0]}) c).
Proof using Hold.
  intros Hq Hl [p' ->] Hkq Hkq' Hkey Hk He a b Hab. assert (Hunder : ∀ k, under (p ++ p') k → under p k) by (intros k'; apply under_app).
  run_lift (gen_child_spec ver ver (p ++ p') a Hl).
  assert (Hfork := fork_spec (p ++ p') k x0 key x c Hq Hl ltac:(intros k' Hu; apply He; auto) Hab Hkey). apply runs_bind_inv in Hfork.
  apply runs_bind. eapply runs_mono; [exact Hfork|]. clear Hfork. intros [] c2 Hfork. apply runs_bind_inv in Hfork.
  run_lift (gen_child_spec ver ver (p ++ p') b Hl).
  apply runs_bind. eapply runs_mono; [exact Hfork|]. clear Hfork. intros [lk leaf] c3 Hfork. cbv beta iota in Hfork. apply runs_bind_inv in Hfork.
  apply runs_bind. eapply runs_mono; [exact Hfork|]. clear Hfork. intros hash c4 Hfork.
  apply runs_bind. eapply runs_mono; [exact Hfork|]. clear Hfork. intros [nk node] c5 (Hnk & Hnode & HI5 & Hf5). cbn [fst snd] in *. subst nk.
  eapply runs_mono; [apply (extend_spec _ p (p ++ p') node (<[key := x]> {[k := x0]})); try done; try lia|].
  - rewrite length_app. replace (length p + length p' - (length p + length p' - length p)) with (length p) by lia. by rewrite take_app_length.
  - intros k' [<-|[_ ->%lookup_singleton_is_Some]]%lookup_insert_is_Some; done.
  - rewrite map_size_insert_None, map_size_singleton; [done|]. apply lookup_singleton_ne. intros ->. done.
  - intros k' Hu Hnu. apply (gone_same old c); [by apply Hf5|by apply He].
  - intros nr c6 Hw. eapply written_frame; [|exact Hw]. destruct Hf5 as [Hf51 Hf52]. split; [done|]. auto.
Qed.

Lemma finished_at key st pos e : e ≤ 64 → ni_is_finished (iter (key_nibbles key) st pos e) = Ok (e <=? pos).
Proof. intros He. apply ni_is_finished_at; [apply key_nibbles_range|by rewrite key_nibbles_length]. Qed.

Lemma leaf_spec p v k x0 key x c : Forall is_nibble p → length p ≤ 64 → is_hash key → p `prefix_of` key_nibbles key → keys_at p ({[k := x0]} : gmap Z V) →
  inv p v {[k := x0]} c → cget c (node_key v p) = Some (Leaf (LeafNode_new k x0)) →
  runs (insert_at_leaf_node leaf_count_migration (node_key v p) (LeafNode_new k x0) ver (key_iter key (length p)) x) c
    (wrote p (<[key := x]> {[k := x0]}) c).
Proof using Hold.
  intros Hp Hl Hkey Hpre Hk HI Hg. destruct (Hk k) as [Hkh Hkpre]; [by rewrite lookup_singleton_eq|].
  unfold insert_at_leaf_node. apply runs_bind. eapply runs_mono; [by eapply delete_leaf|]. intros [] c1 [Hf He].
  cbn [LeafNode_new ln_account_key]. run_lift (key_path k). unfold ni_visited_nibbles, NibblePath_nibbles, NibbleIterator_new.
  cbn [ni_path ni_start ni_pos ni_end num_nibbles path_of]. rewrite key_nibbles_length. fold (path_of (key_nibbles k)). fold (path_of (key_nibbles key)).
  run_lift (skip_visited p key k Hl Hpre Hkpre). run_lift (finished_at key 0 (length p) (length p) Hl). rewrite Nat.leb_refl. apply runs_bind, runs_ret.
  unfold ni_remaining_nibbles, NibbleIterator_new. cbn [ni_path ni_pos ni_end]. run_lift (skip_rest p key k Hl).
  pose proof (parting_bounds p key k Hl) as Hn. pose proof (parting_prefix p key k Hl Hpre Hkpre) as Hsame. pose proof (parting_differs p key k Hl) as Hdiff.
  pose proof (parting_end p key k Hkey Hkh Hl Hpre Hkpre) as Hend. set (n := parting p key k) in *.
  assert (Hq : slice (key_nibbles key) 0 n = take n (key_nibbles key)) by (unfold slice; by rewrite Nat.sub_0_r, drop_0).
  cbn [ni_path ni_start ni_pos ni_end]. apply runs_bind. eapply runs_lift.
  { change empty_path with (path_of []). apply (ni_collect_at (key_nibbles key) (key_nibbles_range key) [] 0 0 n); [rewrite key_nibbles_length; lia|simpl; unfold ROOT_NIBBLE_HEIGHT; lia]. }
  rewrite Hq, app_nil_l. set (q := take n (key_nibbles key)) in *. assert (Hlq : length q = n) by (unfold q; rewrite length_take, key_nibbles_length; lia).
  run_lift (finished_at key 0 n 64 (le_n _)). destruct (Nat.leb_spec 64 n) as [Hge|Hlt].
  { run_lift (finished_at k (length p) n 64 (le_n _)). rewrite (proj2 (Nat.leb_le _ _)) by done. apply runs_bind, runs_ret.
    rewrite <- (Hend Hge), insert_singleton_eq. change (set_version ver (node_key v p)) with (node_key ver p).
    eapply runs_mono; [apply create_leaf_spec; [done|done|lia|done]|]. intros nr c2 Hw. by eapply written_frame. }
  run_lift (ni_next_at _ (key_nibbles_range k) (length p) n 64 _ (key_nibbles_lookup k n Hlt) Hlt). apply runs_bind. eapply runs_lift; [done|].
  run_lift (ni_next_at _ (key_nibbles_range key) 0 n 64 _ (key_nibbles_lookup key n Hlt) Hlt). apply runs_bind. eapply runs_lift; [done|].
  specialize (Hdiff Hlt). rewrite (proj2 (Z.eqb_neq _ _)) by done. apply runs_bind, runs_ret.
  change (mkNodeKey ver (path_of q)) with (node_key ver q). rewrite <- Hlq in Hdiff |- *.
  eapply runs_mono; [apply leaf_fork; try done; try lia|].
  - apply Forall_take, key_nibbles_range.
  - destruct Hpre as [r Hr]. unfold q. rewrite Hr, take_app_ge by lia. by eexists.
  - apply prefix_take.
  - rewrite Hsame. apply prefix_take.
  - intros nr c2 Hw. by eapply written_frame.
Qed.

Lemma bucket_insert d i m key x : bucket d i (<[key := x]> m) =
  if decide (HashValue_nibble key (Z.of_nat d) = i) then <[key := x]> (bucket d i m) else bucket d i m.
Proof.
  rewrite insert_union_singleton_l, bucket_union, bucket_singleton. case_decide; [by rewrite <- insert_union_singleton_l|by rewrite map_empty_union].
Qed.
Lemma keys_at_insert p m key x : is_hash key → p `prefix_of` key_nibbles key → keys_at p m → keys_at p (<[key := x]> m).
Proof. intros Hk Hp Hm k [<-|[_ H]]%lookup_insert_is_Some; [done|by apply Hm]. Qed.

Lemma single_spec fuel p v m key x c : start_ok fuel p → is_hash key → p `prefix_of` key_nibbles key → keys_at p m → inv p v m c →
  runs (insert_at leaf_count_migration fuel (node_key v p) ver (key_iter key (length p)) x) c (wrote p (<[key := x]> m) c).
Proof using Hold.
  revert p v m c. induction fuel as [|fuel IH]; intros p v m c Hst Hkey Hpre Hk HI; [destruct Hst as (_ & ? & ?); lia|].
  pose proof Hst as (Hp & Hl & Hfuel). cbn [insert_at]. apply runs_bind.
  destruct (tree_inv _ _ _ _ _ (inv_tree _ _ _ _ _ _ _ HI)) as [(k & x0 & -> & Hg)|(n & Hlp & Hg & Hn)]; (eapply cget_run; [exact Hg|cbv beta iota]).
  { by apply leaf_spec. }
  apply runs_bind. eapply runs_mono; [by eapply delete_internal|]. intros [] c1 (Hf & Hroot & Hch).
  set (i := HashValue_nibble key (Z.of_nat (length p))). assert (Hi : is_nibble i) by apply HashValue_nibble_range.
  run_lift (ni_next_at _ (key_nibbles_range key) 0 (length p) 64 _ (key_nibbles_lookup key (length p) Hlp) Hlp). apply runs_bind. eapply runs_lift; [done|]. fold i.
  assert (Hpi : p ++ [i] `prefix_of` key_nibbles key) by by apply prefix_snoc_nibble.
  set (f1 := λ j, bucket (length p) j (<[key := x]> m)). assert (Hfi : f1 i = <[key := x]> (bucket (length p) i m)) by (unfold f1; by rewrite bucket_insert, decide_True).
  apply runs_bind. rewrite (length_child p i). eapply runs_mono with (Q := wrote (p ++ [i]) (f1 i) c1).
  { pose proof Hch as [_ Hci]. specialize (Hci i Hi). unfold InternalNode_child. rewrite Hfi. destruct (in_children n !! i) as [ce|].
    - run_lift (gen_child_spec v (c_version ce) p i Hlp). apply IH; [by apply start_child|done|done|by apply bucket_keys|apply Hci].
    - destruct Hci as [-> He]. run_lift (gen_child_spec v ver p i Hlp). rewrite insert_empty. apply create_leaf_spec; [by apply nibble_snoc|done| |done].
      rewrite length_app. simpl. unfold ROOT_NIBBLE_HEIGHT in Hlp. lia. }
  intros [nk node] c2 Hw. pose proof Hw as (_ & Hg2 & HI2 & _). cbn [fst snd] in Hg2.
  destruct (tree_root_hash _ _ _ _ _ (inv_tree _ _ _ _ _ _ _ HI2)) as (node' & Hg2' & Hh & (t & Ht & Htok) & _ & Hne). rewrite Hg2 in Hg2'. injection Hg2' as <-.
  rewrite length_app in Hh. cbn [length] in Hh. replace (64 - (length p + 1)) with (63 - length p) in Hh by lia. run_lift Hh. run_lift Ht.
  assert (Hinv : loop_inv legacy ver old p (λ j, bucket (length p) j m) f1 c1 [] (<[i := mkChild (smt_hash (state_tree (4 * (63 - length p)) (f1 i))) ver t]> (in_children n)) c2).
  { eapply (loop_step legacy ver old p _ _ c1 i []); [done|done| |exact Hw|done|done].
    apply loop_start; try done; [apply NoDup_singleton|]. intros j Hj. unfold f1. rewrite bucket_insert, decide_False; [done|].
    intros Hij. apply Hj, list_elem_of_singleton. by rewrite <- Hij. }
  apply loop_end in Hinv as (Hch2 & Hr2 & Hf2). change (set_version ver (node_key v p)) with (node_key ver p).
  eapply runs_mono; [eapply (put_internal_spec legacy leaf_count_migration ver old Hold p (<[key := x]> m)); [done|done| |done|done|exact Hch2]|].
  - destruct Hn as [Hn _]. pose proof (map_size_insert key x m) as Hs. case_match; simpl in Hs; lia.
  - intros nr c3 Hw3. eapply written_frame; [|exact Hw3]. by eapply frame_trans.
Qed.
End single.
