(* ===== verification/JellyfishSafety.v ===== *)
(** * JellyfishSafety: the versions of the state

    [db_ok] says that a store of nodes holds the tree of every readable version, and that its
    index of stale nodes is exact.  A batch keeps it and adds its versions, pruning keeps it for
    the versions that stay readable, and the values read from a version verify. *)

From S2P Require Import Prelude Bits Crypto Accumulator SparseMerkle NibblePath JellyfishNode JellyfishTree JellyfishFacts JellyfishPut.
From S2P Require Import JellyfishBatch JellyfishSingle.

Local Open Scope nat_scope.
#[local] Opaque state_tree.

(** The map after a set of values, later ones first. *)
Definition apply_set {V} (m : gmap Z V) (value_set : list (Z * V)) : gmap Z V := foldl (λ m kv, <[kv.1 := kv.2]> m) m value_set.

Section db.
Context `{C : Crypto} {V : Type} `{HV : CryptoHash V} `{MH : MerkleHasher} `{LH : SparseLeafHasher}.
Context (legacy leaf_count_migration : bool).
Implicit Types (m : gmap Z V) (store : gmap NodeKey (Node V)) (index : gset (Z * NodeKey)) (hist : Z → gmap Z V).

Abbreviation look store := (λ k, store !! k).
Abbreviation in_version store v := (reach (look store) [] v).

(** The versions from [least] to [next] are readable, with the maps of [hist]. *)
Record db_ok store index (least next : Z) hist : Prop := {
  db_bounds : (0 ≤ least ≤ next)%Z ∧ (next ≤ u64_max)%Z;
  db_start : (next = 0%Z ∧ store = ∅) ∨ (least < next)%Z;
  db_tree v : (least ≤ v < next)%Z → tree_at legacy (look store) [] v (hist v) ∧ all_hashes (hist v);
  db_version v k : (least ≤ v < next)%Z → in_version store v k → (0 ≤ nk_version k ≤ v)%Z;
  db_index s k : (s, k) ∈ index → (0 < s < next)%Z ∧ (nk_version k < s)%Z ∧ ((least < s)%Z → in_version store (s - 1) k) ∧
    ∀ v, (least ≤ v)%Z → (s ≤ v < next)%Z → ¬ in_version store v k;
  db_live k : is_Some (store !! k) → in_version store (next - 1) k ∨ ∃ s, (least < s)%Z ∧ (s, k) ∈ index;
}.

(** What a transaction adds to a store. *)
Record txn_adds store (prev : NodeKey → Prop) (ver : Z) m new (stale : gset NodeKey) : Prop := {
  ta_tree : tree_at legacy (look (new ∪ store)) [] ver m;
  ta_hash : all_hashes m;
  ta_new k : is_Some (new !! k) → nk_version k = ver ∧ in_version (new ∪ store) ver k;
  ta_reach k : in_version (new ∪ store) ver k → (k ∉ stale) ∧ (nk_version k = ver ∨ prev k);
  ta_stale k : k ∈ stale → prev k;
  ta_old k : prev k → in_version (new ∪ store) ver k ∨ k ∈ stale;
}.

Definition hist_set hist (v : Z) m : Z → gmap Z V := λ w, if (w =? v)%Z then m else hist w.

Lemma db_step store index least next hist m new stale :
  db_ok store index least next hist → (next < u64_max)%Z →
  txn_adds store (λ k, (next ≠ 0)%Z ∧ in_version store (next - 1) k) next m new stale →
  db_ok (new ∪ store) (set_map (pair next) stale ∪ index) least (next + 1) (hist_set hist next m).
Proof.
  intros [Hb Hstart Ht Hv Hi Hl] Hmax [At Ah An Ar As Ao].
  assert (Hlast : (next ≠ 0)%Z → (least ≤ next - 1 < next)%Z) by (intros; destruct Hstart as [[? _]|]; lia).
  assert (Hsame : ∀ v k, (least ≤ v < next)%Z → in_version store v k → (new ∪ store) !! k = store !! k).
  { intros v k Hvr Hr. apply Hv in Hr; [|done]. rewrite lookup_union. destruct (new !! k) eqn:Hk; [|by destruct (store !! k)].
    destruct (An k) as [? _]; [by eauto|]. lia. }
  assert (Hreach : ∀ v k, (least ≤ v < next)%Z → in_version (new ∪ store) v k ↔ in_version store v k).
  { intros v k Hvr. apply reach_reach_frame. intros k' Hr. by eapply Hsame. }
  split.
  - lia.
  - right. destruct Hstart as [[? _]|]; lia.
  - intros v Hvr. unfold hist_set. destruct (Z.eqb_spec v next) as [->|Hne]; [done|]. split; [|apply Ht; lia].
    eapply tree_reach_frame; [|apply Ht; lia]. intros k Hr. eapply (Hsame v); [lia|done].
  - intros v k Hvr Hr. destruct (Z.eq_dec v next) as [->|Hne].
    + apply Ar in Hr as [_ [->|[H0 Hr]]]; [lia|]. apply Hv in Hr; [lia|auto].
    + apply Hreach in Hr; [|lia]. apply Hv in Hr; lia.
  - intros s k [(k' & [= -> ->] & Hk)%elem_of_map|Hk]%elem_of_union.
    + destruct (As k' Hk) as [H0 Hp]. specialize (Hlast H0). pose proof (Hv _ _ Hlast Hp). split_and!; [lia..| |].
      * intros _. by apply Hreach.
      * intros v _ Hvr Hr. assert (v = next) as -> by lia. by apply Ar in Hr as [].
    + destruct (Hi s k Hk) as (Hs & Hks & Hprev & Hno). split_and!; [lia..| |].
      * intros Hls. apply Hreach; [lia|auto].
      * intros v Hlv Hvr Hr. destruct (Z.eq_dec v next) as [->|Hne].
        -- apply Ar in Hr as [_ [Hk'|[H0 Hr]]]; [lia|]. revert Hr. apply Hno; lia.
        -- apply Hreach in Hr; [|lia]. revert Hr. apply Hno; lia.
  - intros k Hk. replace (next + 1 - 1)%Z with next by lia. apply lookup_union_is_Some in Hk as [Hk|Hk]; [left; by apply An|].
    destruct (Z.eq_dec next 0%Z) as [H0|H0]. { destruct Hstart as [[_ ->]|]; [|lia]. rewrite lookup_empty in Hk. by destruct Hk. }
    destruct (Hl k Hk) as [Hr|(s & Hs & Hin)]; [|right; exists s; set_solver].
    destruct (Ao k) as [|Hst]; [done|by left|]. right. exists next. specialize (Hlast H0). split; [lia|]. apply elem_of_union_l, elem_of_map. eauto.
Qed.

(** ** Sets of values *)

Lemma apply_set_union (m : gmap Z V) vs : apply_set m vs = apply_set ∅ vs ∪ m.
Proof.
  unfold apply_set. rewrite <- (map_empty_union m) at 1. generalize (∅ : gmap Z V). induction vs as [|kv vs IH]; intros m1; [done|].
  simpl. by rewrite insert_union_l, IH.
Qed.
Lemma apply_set_hashes m vs : all_hashes m → (∀ kv, kv ∈ vs → is_hash kv.1) → all_hashes (apply_set m vs).
Proof.
  revert m. induction vs as [|kv vs IH]; intros m Hm Hvs; [done|]. simpl. apply IH; [|by intros; apply Hvs; right].
  intros k. rewrite lookup_insert_is_Some. intros [<-|[_ Hk]]; [apply Hvs; left|by apply Hm].
Qed.
Lemma apply_set_nonempty m vs : vs ≠ [] → apply_set m vs ≠ ∅.
Proof.
  intros Hne. destruct vs as [|kv vs] using rev_ind; [done|]. unfold apply_set. rewrite foldl_app. simpl. apply insert_non_empty.
Qed.
Lemma btree_iter_batch (D : gmap Z V) : sorted_keys (btree_iter D) ∧ kmap (btree_iter D) = D.
Proof.
  split.
  - unfold sorted_keys. pose proof (NoDup_btree_keys D) as Hnd. unfold btree_keys, btree_iter in *.
    assert (StronglySorted key_le (merge_sort key_le (map_to_list D))) as Hs.
    { assert (Transitive (@key_le V)) by (intros a b d; unfold key_le; lia). assert (Total (@key_le V)) by (intros a b; unfold key_le; lia).
      apply (StronglySorted_merge_sort _). }
    revert Hnd. induction Hs as [|kv l Hl IH Hkv]; intros Hnd; [constructor|]. cbn [fmap list_fmap] in *. apply NoDup_cons in Hnd as [Hnin Hnd]. constructor; [by apply IH|].
    apply Forall_forall. intros k (kv' & -> & Hin)%list_elem_of_fmap. apply (proj1 (Forall_forall _ _) Hkv) in Hin as Hle'. unfold key_le in Hle'.
    assert (kv.1 ≠ kv'.1); [|lia]. intros Heq. apply Hnin. rewrite Heq. apply list_elem_of_fmap. eauto.
  - unfold kmap. rewrite <- (list_to_map_to_list D) at 2. apply list_to_map_proper; [apply NoDup_btree_keys|apply btree_iter_perm].
Qed.

(** ** One transaction *)

Implicit Types c : TreeCache (R:=gmap NodeKey (Node V)) (V:=V).

(** The nodes of earlier transactions. *)
Definition base c : gmap NodeKey (Node V) := ft_node_cache (tc_frozen_cache c) ∪ tc_reader c.
(** The cache between two transactions; version 0 starts from a null root. *)
Definition txn_start c (next : Z) : Prop :=
  tc_next_version c = next ∧ tc_stale_node_index_cache c = ∅ ∧
  ((next ≠ 0%Z ∧ tc_node_cache c = ∅ ∧ tc_root_node_key c = node_key (next - 1) []) ∨
   (next = 0%Z ∧ tc_node_cache c = {[node_key 0 [] := Null]} ∧ tc_root_node_key c = node_key 0 [])).
Definition prev_keys c (next : Z) (k : NodeKey) : Prop := next ≠ 0%Z ∧ in_version (base c) (next - 1) k.
Definition prev_map hist (next : Z) : gmap Z V := if (next =? 0)%Z then ∅ else hist (next - 1)%Z.

Lemma cget_lookup c k : cget c k = (tc_node_cache c ∪ base c) !! k.
Proof.
  unfold cget, get_node, base, reader_get_node, get_node_option, node_store_reader. rewrite !lookup_union.
  destruct (tc_node_cache c !! k), (ft_node_cache (tc_frozen_cache c) !! k), (tc_reader c !! k); done.
Qed.

Section txn.
Context c0 index least next hist (Hdb : db_ok (base c0) index least next hist) (Hmax : (next < u64_max)%Z) (Hstart : txn_start c0 next).
Abbreviation old := (prev_keys c0 next).
Abbreviation m0 := (prev_map hist next).
Abbreviation inv := (Inv legacy next old).

Lemma last_readable : next ≠ 0%Z → (least ≤ next - 1 < next)%Z.
Proof using Hdb. intros. destruct (db_bounds _ _ _ _ _ Hdb), (db_start _ _ _ _ _ Hdb) as [[? _]|]; lia. Qed.
Lemma old_version k : old k → nk_version k ≠ next.
Proof using Hdb. intros [H0 Hr]. apply (db_version _ _ _ _ _ Hdb) in Hr; [lia|by apply last_readable]. Qed.
Lemma m0_hashes : all_hashes m0.
Proof using Hdb.
  unfold prev_map. destruct (Z.eqb_spec next 0%Z); [intros k []%lookup_empty_is_Some|]. apply (db_tree _ _ _ _ _ Hdb). by apply last_readable.
Qed.

Lemma start_inv : next ≠ 0%Z → inv [] (next - 1) m0 c0.
Proof using Hdb Hstart.
  intros H0. destruct Hstart as (_ & Hst & [(_ & Hc & _)|[? _]]); [|done]. pose proof (last_readable H0) as Hl.
  assert (Hg : ∀ k, cget c0 k = look (base c0) k) by (intros k; by rewrite cget_lookup, Hc, map_empty_union).
  assert (Hr : ∀ k, reach (cget c0) [] (next - 1) k ↔ in_version (base c0) (next - 1) k) by (intros k; by apply reach_reach_frame).
  split.
  - unfold prev_map. rewrite (proj2 (Z.eqb_neq _ _)) by done. eapply tree_reach_frame; [by intros; apply Hg|]. by apply (db_tree _ _ _ _ _ Hdb).
  - intros k Hk%Hr. rewrite Hst. split_and!; [apply not_elem_of_empty| |right; by split].
    intros Hv. by destruct (old_version k).
  - intros k Hk. rewrite Hc in Hk. by apply lookup_empty_is_Some in Hk.
  - intros k Hk. rewrite Hst in Hk. by apply not_elem_of_empty in Hk.
  - intros k [_ Hk] _. left. by apply Hr.
Qed.
Lemma start_empty c : next = 0%Z → tc_node_cache c = ∅ → tc_stale_node_index_cache c = ∅ → empty_below old [] c.
Proof using. intros H0 Hc Hs k _. split; [by rewrite Hc|]. rewrite Hs. split; [by intros ?%not_elem_of_empty|]. by intros []. Qed.

(** What the cache holds when all values of the version are inserted. *)
Definition txn_done m c : Prop :=
  inv [] next m c ∧ tc_frozen_cache c = tc_frozen_cache c0 ∧ tc_reader c = tc_reader c0 ∧ tc_next_version c = next ∧
  (∀ k, ¬ under [] k → tc_node_cache c !! k = None ∧ k ∉ tc_stale_node_index_cache c).

Lemma txn_done_adds m c : txn_done m c → all_hashes m → txn_adds (base c0) old next m (tc_node_cache c) (tc_stale_node_index_cache c).
Proof using Hdb.
  intros (HI & Hf & Hr & _ & Hout) Hm. assert (Hb : base c = base c0) by (unfold base; by rewrite Hf, Hr).
  assert (Hg : ∀ k, cget c k = look (tc_node_cache c ∪ base c0) k) by (intros k; by rewrite cget_lookup, Hb).
  assert (Hreach : ∀ k, reach (cget c) [] next k ↔ in_version (tc_node_cache c ∪ base c0) next k) by (intros k; by apply reach_reach_frame).
  assert (Hu : ∀ k, is_Some (tc_node_cache c !! k) ∨ k ∈ tc_stale_node_index_cache c → under [] k).
  { intros k Hk. apply dec_stable. intros [Hc Hs]%Hout. rewrite Hc in Hk. by destruct Hk as [[]|]. }
  assert (Hp : ∀ k, old k → under [] k).
  { intros k [H0 Hk]. eapply reach_under; [constructor|by apply (db_tree _ _ _ _ _ Hdb), last_readable|done]. }
  destruct HI as [It Ir Ic Is Io]. split; [|done|..].
  - eapply tree_reach_frame; [|exact It]. intros. by rewrite Hg.
  - intros k Hk. destruct (Ic k Hk) as [Hv Hk']; [by auto|]. split; [done|]. by apply Hreach.
  - intros k Hk%Hreach. destruct (Ir k Hk) as (? & _ & ?). done.
  - intros k Hk. by apply Is; [|apply Hu; right].
  - intros k Hk. rewrite <- Hreach. by apply Io; [|apply Hp].
Qed.

(** What a transaction leaves behind. *)
Definition txn_result m c : Prop :=
  ∃ new stale, txn_adds (base c0) old next m new stale ∧ base c = new ∪ base c0 ∧ tc_reader c = tc_reader c0 ∧
    ft_stale_node_index_cache (tc_frozen_cache c) = set_map (pair next) stale ∪ ft_stale_node_index_cache (tc_frozen_cache c0) ∧
    ft_root_hashes (tc_frozen_cache c) = ft_root_hashes (tc_frozen_cache c0) ++ [state_root m] ∧
    length (ft_node_stats (tc_frozen_cache c)) = length (ft_node_stats (tc_frozen_cache c0)) + 1 ∧ txn_start c (next + 1).

Lemma freeze_result m c : txn_done m c → all_hashes m → tc_root_node_key c = node_key next [] → runs freeze c (λ _, txn_result m).
Proof using Hdb Hmax.
  intros Hd Hm Hroot. pose proof (txn_done_adds m c Hd Hm) as Hadds. destruct Hd as (HI & Hf & Hr & Hn & _).
  destruct (tree_root_hash _ _ _ _ _ (inv_tree _ _ _ _ _ _ _ HI)) as (node & Hg & Hh & _). unfold runs, freeze. rewrite Hroot.
  unfold cget in Hg. destruct (get_node c (node_key next [])) as [n| |]; [|done..]. injection Hg as ->.
  change (4 * (64 - length [])) with 256 in Hh. fold (state_root m) in Hh. rewrite Hh.
  exists (tc_node_cache c), (tc_stale_node_index_cache c). split; [done|].
  cbn [tc_frozen_cache tc_reader ft_stale_node_index_cache ft_root_hashes ft_node_stats tc_next_version]. split_and!.
  - unfold base. cbn [tc_frozen_cache tc_reader ft_node_cache]. by rewrite Hf, Hr, map_union_assoc.
  - done.
  - by rewrite Hf, Hn.
  - by rewrite Hf.
  - by rewrite Hf, length_app.
  - pose proof (db_bounds _ _ _ _ _ Hdb) as [Hb1 Hb2]. split_and!; cbn [tc_next_version tc_stale_node_index_cache tc_node_cache tc_root_node_key]; [|done|].
    + rewrite Hn. unfold wrap64. apply Z.mod_small. unfold u64_max in *. lia.
    + left. split_and!; [lia|done|]. f_equal. lia.
Qed.


Lemma root_start : start_ok MAX_DEPTH [].
Proof. split_and!; [constructor|simpl; lia..]. Qed.

Lemma batch_done vs hc : vs ≠ [] → (∀ kv, kv ∈ vs → is_hash kv.1) → hash_cache_ok hc (btree_iter (apply_set ∅ vs)) (apply_set m0 vs) →
  runs (batch_insert_at leaf_count_migration MAX_DEPTH (tc_root_node_key c0) next (btree_iter (apply_set ∅ vs)) 0 hc) c0
    (λ r c, r.1 = node_key next [] ∧ txn_done (apply_set m0 vs) c).
Proof using Hdb Hstart.
  intros Hne Hvs Hhc. destruct (btree_iter_batch (apply_set ∅ vs)) as [Hsort Hkm]. set (kvs := btree_iter (apply_set ∅ vs)) in *.
  assert (Hb : batch_at kvs [] kvs).
  { split; [done|..|done].
    - rewrite Hkm. intros k Hk. split; [|apply prefix_nil]. by apply (apply_set_hashes ∅ vs); [intros ? []%lookup_empty_is_Some|..].
    - intros H0. apply (apply_set_nonempty ∅ vs Hne). by rewrite <- Hkm, H0. }
  assert (Hm : kmap kvs ∪ m0 = restrict [] (apply_set m0 vs)) by (rewrite restrict_nil, Hkm; symmetry; apply apply_set_union).
  assert (Hstale : tc_stale_node_index_cache c0 = ∅) by apply Hstart.
  destruct (Z.eq_dec next 0%Z) as [H0|H0].
  - destruct Hstart as (Hn & Hst & [[? _]|(_ & Hc & Hroot)]); [done|]. rewrite Hroot. change MAX_DEPTH with (S 64). cbn [batch_insert_at].
    apply runs_bind. eapply runs_mono with (Q := λ _ c', c' = c0); [by destruct kvs; [destruct (ba_some _ _ _ Hb)|]|]. intros [] ? ->.
    apply runs_bind. eapply cget_run; [rewrite cget_lookup, Hc; apply lookup_union_Some_l; by rewrite lookup_singleton_eq|].
    cbv beta iota. change (NibblePath_is_empty _) with true. cbv iota. cbn [node_key nk_version]. rewrite H0. cbn [Z.eqb].
    apply runs_bind. unfold runs at 1, delete_node. rewrite Hc. change (mkNodeKey 0 (path_of [])) with (node_key 0 []). rewrite lookup_singleton_eq.
    set (c1 := mkTreeCache _ _ _ _ _ _ _ _). assert (Hm1 : kmap kvs = restrict [] (apply_set m0 vs)).
    { rewrite <- Hm. unfold prev_map. rewrite H0. simpl. by rewrite map_union_empty. }
    eapply runs_mono.
    { change (NodeKey_new_empty_path 0) with (node_key 0 []). rewrite <- H0.
      apply (create_spec legacy leaf_count_migration next old old_version hc kvs (apply_set m0 vs) Hhc (S 64) [] kvs c1); [exact root_start|done|done|].
      apply start_empty; [done|unfold c1; cbn [tc_node_cache]; apply delete_singleton_eq|done]. }
    intros r c (Hr & _ & HI & (Hf1 & Hf2 & Hf3 & _) & Hout). rewrite <- H0. split; [done|]. rewrite Hm1, restrict_nil in HI.
    split_and!; try done; [by rewrite Hf3|]. intros k [-> Hs]%Hout. unfold c1. cbn [tc_node_cache]. rewrite delete_singleton_eq.
    split; [done|]. rewrite Hs. unfold c1. cbn [tc_stale_node_index_cache]. rewrite Hst. apply not_elem_of_empty.
  - destruct Hstart as (Hn & Hst & [(_ & Hc & ->)|[? _]]); [|done]. eapply runs_mono.
    { apply (insert_spec legacy leaf_count_migration next old old_version hc kvs (apply_set m0 vs) Hhc MAX_DEPTH [] (next - 1) m0); [exact root_start|done| |done|by apply start_inv].
      intros k Hk. split; [by apply m0_hashes|apply prefix_nil]. }
    intros r c (Hr & _ & HI & Hf & Hout). split; [done|]. rewrite Hm, restrict_nil in HI. destruct Hf as (Hf1 & Hf2 & Hf3 & _).
    split_and!; try done; [congruence|]. intros k [-> ->]%Hout. rewrite Hc, Hst. split; [done|apply not_elem_of_empty].
Qed.

Lemma set_root_done m c k : txn_done m c → runs (set_root_node_key k) c (λ _ c', txn_done m c' ∧ tc_root_node_key c' = k).
Proof using.
  intros (HI & Hf & Hr & Hn & Hout). unfold runs, set_root_node_key. split; [|done]. split_and!; try done.
  destruct HI as [It Ir Ic Is Io]. split; done.
Qed.

Lemma batch_txn vs hc : vs ≠ [] → (∀ kv, kv ∈ vs → is_hash kv.1) → hash_cache_ok hc (btree_iter (apply_set ∅ vs)) (apply_set m0 vs) →
  runs (batch_put_value_set leaf_count_migration next vs hc) c0 (λ _, txn_result (apply_set m0 vs)).
Proof using Hdb Hmax Hstart.
  intros Hne Hvs Hhc. unfold batch_put_value_set. destruct vs as [|kv vs'] eqn:Hv; [done|]. rewrite <- Hv in *.
  apply runs_bind. unfold runs at 1, st_get. apply runs_bind. eapply runs_mono; [by apply batch_done|]. intros [k n] c [Hk Hd]. cbn [fst] in Hk. subst k.
  apply runs_bind. eapply runs_mono; [by apply (set_root_done (apply_set m0 vs))|]. intros [] c' [Hd' Hroot].
  apply freeze_result; [done| |done]. apply apply_set_hashes; [apply m0_hashes|done].
Qed.

(** Values put one by one. *)
Lemma written_done m c r c' : written legacy next old [] m c r c' → tc_frozen_cache c = tc_frozen_cache c0 → tc_reader c = tc_reader c0 →
  tc_next_version c = next → (∀ k, ¬ under [] k → tc_node_cache c !! k = None ∧ k ∉ tc_stale_node_index_cache c) →
  r.1 = node_key next [] ∧ txn_done m c'.
Proof using.
  intros (Hr & _ & HI & (Hf1 & Hf2 & Hf3 & _) & Hout) Hfz Hrd Hn Hun. split; [done|]. split_and!; [done|congruence..|].
  intros k Hk. destruct (Hout k Hk) as [-> ->]. by apply Hun.
Qed.
Lemma start_out k : ¬ under [] k → tc_node_cache c0 !! k = None ∧ k ∉ tc_stale_node_index_cache c0.
Proof using Hstart.
  intros Hk. destruct Hstart as (_ & -> & [(_ & -> & _)|(_ & -> & _)]); (split; [|apply not_elem_of_empty]); [done|]. apply lookup_singleton_ne.
  intros <-. apply Hk, under_here. constructor.
Qed.

Lemma put_first key x : is_hash key →
  runs (put leaf_count_migration key x next) c0 (λ _ c, txn_done (<[key := x]> m0) c ∧ tc_root_node_key c = node_key next []).
Proof using Hdb Hstart.
  intros Hkey. unfold put. run_lift (key_path key). apply runs_bind. unfold runs at 1, st_get. unfold NibblePath_nibbles, NibbleIterator_new.
  cbn [num_nibbles path_of]. rewrite key_nibbles_length. fold (path_of (key_nibbles key)). apply runs_bind.
  eapply runs_mono with (Q := λ r c, r.1 = node_key next [] ∧ txn_done (<[key := x]> m0) c).
  2:{ intros [k n] c [Hk Hd]. cbn [fst] in Hk. subst k. by apply set_root_done. }
  pose proof Hstart as (Hn & Hst & [(H0 & Hc & Hroot)|(H0 & Hc & Hroot)]); rewrite Hroot.
  - eapply runs_mono; [apply (single_spec legacy leaf_count_migration next old old_version MAX_DEPTH [] (next - 1) m0);
      [exact root_start|done|apply prefix_nil|intros k Hk; split; [by apply m0_hashes|apply prefix_nil]|by apply start_inv]|].
    intros r c Hw. eapply written_done; [exact Hw|done..|apply start_out].
  - change MAX_DEPTH with (S 64). cbn [insert_at].
    apply runs_bind. eapply cget_run; [rewrite cget_lookup, Hc; apply lookup_union_Some_l; by rewrite lookup_singleton_eq|].
    cbv beta iota. change (NibblePath_is_empty _) with true. cbv iota. cbn [node_key nk_version]. rewrite H0. cbn [Z.eqb].
    apply runs_bind. unfold runs at 1, delete_node. rewrite Hc. change (mkNodeKey 0 (path_of [])) with (node_key 0 []). rewrite lookup_singleton_eq.
    set (c1 := mkTreeCache _ _ _ _ _ _ _ _). change (NodeKey_new_empty_path 0) with (node_key 0 []). rewrite <- H0.
    replace (<[key := x]> m0) with ({[key := x]} : gmap Z V) by (unfold prev_map; rewrite H0; simpl; by rewrite insert_empty).
    eapply runs_mono; [apply (create_leaf_spec legacy next old old_version [] key x 0 c1);
      [constructor|done|lia|apply start_empty; [done|unfold c1; cbn [tc_node_cache]; apply delete_singleton_eq|done]]|].
    intros r c Hw. eapply written_done; [exact Hw|done..|]. intros k _. unfold c1. cbn [tc_node_cache tc_stale_node_index_cache].
    rewrite delete_singleton_eq, Hst. split; [done|apply not_elem_of_empty].
Qed.
Lemma put_next m key x c : is_hash key → all_hashes m → txn_done m c → tc_root_node_key c = node_key next [] →
  runs (put leaf_count_migration key x next) c (λ _ c', txn_done (<[key := x]> m) c' ∧ tc_root_node_key c' = node_key next []).
Proof using Hdb.
  intros Hkey Hm (HI & Hf & Hr & Hn & Hout) Hroot. unfold put. run_lift (key_path key). apply runs_bind. unfold runs at 1, st_get. unfold NibblePath_nibbles, NibbleIterator_new.
  cbn [num_nibbles path_of]. rewrite key_nibbles_length. fold (path_of (key_nibbles key)). apply runs_bind. rewrite Hroot.
  eapply runs_mono; [apply (single_spec legacy leaf_count_migration next old old_version MAX_DEPTH [] next m);
    [exact root_start|done|apply prefix_nil|intros k Hk; split; [by apply Hm|apply prefix_nil]|done]|].
  intros [k n] c' Hw. eapply written_done in Hw as [Hk Hd]; [|done..]. cbn [fst] in Hk. subst k. by apply set_root_done.
Qed.
Lemma put_txn vs : vs ≠ [] → (∀ kv, kv ∈ vs → is_hash kv.1) →
  runs (put_value_set leaf_count_migration next vs) c0 (λ _, txn_result (apply_set m0 vs)).
Proof using Hdb Hmax Hstart.
  intros Hne Hvs. unfold put_value_set. destruct vs as [|[k x] vs']; [done|]. apply runs_bind. cbn [st_fold]. apply runs_bind.
  eapply runs_mono; [apply put_first, (Hvs (k, x)); left|]. intros [] c [Hd Hroot]. cbn [apply_set foldl fst snd].
  assert (Hm : all_hashes (<[k := x]> m0)) by (apply (apply_set_hashes m0 [(k, x)]); [apply m0_hashes|]; intros kv ->%list_elem_of_singleton; apply (Hvs (k, x)); left).
  assert (Hvs' : ∀ kv, kv ∈ vs' → is_hash kv.1) by (intros; apply Hvs; by right). clear Hvs Hne. fold (apply_set (<[k := x]> m0) vs').
  revert Hd Hm. generalize (<[k := x]> m0). revert c Hroot. induction vs' as [|[k' x'] vs' IH]; intros c Hroot m Hd Hm; cbn [st_fold].
  - apply runs_ret. by apply freeze_result.
  - apply runs_bind. eapply runs_mono; [apply (put_next m); [apply (Hvs' (k', x')); left|done..]|]. intros [] c' [Hd' Hroot'].
    apply (IH ltac:(intros; apply Hvs'; by right) c' Hroot' (<[k' := x']> m) Hd'). apply (apply_set_hashes m [(k', x')]); [done|].
    intros kv ->%list_elem_of_singleton. apply (Hvs' (k', x')). left.
Qed.
End txn.

(** ** A batch of transactions *)

(** The maps after each set of values. *)
Fixpoint states m (value_sets : list (list (Z * V))) : list (gmap Z V) :=
  match value_sets with [] => [] | vs :: value_sets => apply_set m vs :: states (apply_set m vs) value_sets end.
Fixpoint hist_app hist (next : Z) (ms : list (gmap Z V)) : Z → gmap Z V :=
  match ms with [] => hist | m :: ms => hist_app (hist_set hist next m) (next + 1) ms end.
Fixpoint hash_caches_ok m (value_sets : list (list (Z * V))) (hcs : list (option (gmap NibblePath HashValue))) : Prop :=
  match value_sets, hcs with
  | [], [] => True
  | vs :: value_sets, hc :: hcs =>
      hash_cache_ok hc (btree_iter (apply_set ∅ vs)) (apply_set m vs) ∧ hash_caches_ok (apply_set m vs) value_sets hcs
  | _, _ => False
  end.
(** No set is empty, and keys are hashes. *)
Definition valid_sets (value_sets : list (list (Z * V))) : Prop := Forall (λ vs, vs ≠ [] ∧ ∀ kv, kv ∈ vs → is_hash kv.1) value_sets.

(** The cache after transactions that started with the root hashes [hs]. *)
Definition batch_state store index least c0 (next : Z) hist (ms : list (gmap Z V)) c : Prop :=
  db_ok (base c) (ft_stale_node_index_cache (tc_frozen_cache c) ∪ index) least next hist ∧ txn_start c next ∧ tc_reader c = store ∧
  ft_root_hashes (tc_frozen_cache c) = ft_root_hashes (tc_frozen_cache c0) ++ (state_root <$> ms) ∧
  length (ft_node_stats (tc_frozen_cache c)) = length (ft_node_stats (tc_frozen_cache c0)) + length ms.

Lemma batch_state_step store index least c0 next hist ms c m c' : (next < u64_max)%Z → batch_state store index least c0 next hist ms c →
  txn_result c next m c' → batch_state store index least c0 (next + 1) (hist_set hist next m) (ms ++ [m]) c'.
Proof.
  intros Hmax (Hdb & Hst & Hr & Hh & Hn) (new & stale & Hadds & Hb & Hrd & Hidx & Hhash & Hstats & Hst'). split_and!; [|done|congruence|..].
  - rewrite Hb, Hidx, <- (assoc_L (∪)). by apply db_step.
  - rewrite Hhash, Hh, fmap_app, app_assoc. done.
  - rewrite Hstats, Hn, length_app. simpl. lia.
Qed.
Lemma prev_map_step hist next m : (0 ≤ next)%Z → prev_map (hist_set hist next m) (next + 1) = m.
Proof. intros H. unfold prev_map, hist_set. rewrite (proj2 (Z.eqb_neq _ _)) by lia. by rewrite Z.add_simpl_r, Z.eqb_refl. Qed.

Lemma run_batch_spec store index least c0 vss hcs : ∀ next hist ms c,
  batch_state store index least c0 next hist ms c → (next + Z.of_nat (length vss) ≤ u64_max)%Z → valid_sets vss →
  hash_caches_ok (prev_map hist next) vss hcs →
  runs (run_batch leaf_count_migration (zip (zip (seqZ next (Z.of_nat (length vss))) vss) hcs)) c
    (λ _, batch_state store index least c0 (next + Z.of_nat (length vss)) (hist_app hist next (states (prev_map hist next) vss))
            (ms ++ states (prev_map hist next) vss)).
Proof.
  revert hcs. induction vss as [|vs vss IH]; intros hcs next hist ms c Hb Hmax Hv Hhc.
  - unfold run_batch. cbn [length]. rewrite Z.add_0_r. cbn [Z.of_nat]. rewrite seqZ_nil by done. simpl. by rewrite app_nil_r.
  - destruct hcs as [|hc hcs]; [done|]. destruct Hhc as [Hhc Hhcs]. apply Forall_cons in Hv as [[Hne Hk] Hv]. cbn [length] in *.
    pose proof Hb as (Hdb & Hst & _). pose proof (db_bounds _ _ _ _ _ Hdb) as [Hb1 Hb2].
    rewrite seqZ_cons by lia. replace (Z.pred (Z.of_nat (S (length vss)))) with (Z.of_nat (length vss)) by lia.
    unfold run_batch. cbn [zip zip_with st_fold]. apply runs_bind.
    eapply runs_mono; [eapply (batch_txn c); [exact Hdb|lia|exact Hst|done..]|]. intros [] c' Hres.
    eapply batch_state_step in Hres; [|lia|exact Hb]. cbn [states hist_app].
    specialize (IH hcs (next + 1)%Z (hist_set hist next (apply_set (prev_map hist next) vs)) _ c' Hres).
    rewrite prev_map_step in IH by lia. replace (next + 1 + Z.of_nat (length vss))%Z with (next + Z.of_nat (S (length vss)))%Z in IH by lia.
    rewrite <- app_assoc in IH. unfold Z.succ. apply IH; [lia|done|done].
Qed.

Lemma versions_from_seqZ first (n : nat) : (0 ≤ first)%Z → (first + Z.of_nat n ≤ u64_max)%Z → versions_from first n = seqZ first (Z.of_nat n).
Proof.
  intros H0 Hmax. transitivity (Z.add first <$> seqZ 0 (Z.of_nat n)); [|by rewrite fmap_add_seqZ, Z.add_0_r]. apply list_fmap_ext.
  intros i x Hx. apply lookup_seqZ in Hx as [-> Hi]. unfold wrap64. apply Z.mod_small. unfold u64_max in *. lia.
Qed.
Lemma new_cache_start store index least next hist : db_ok store index least next hist →
  ∃ c, TreeCache_new store next = Ok c ∧ txn_start c next ∧ base c = store ∧ tc_reader c = store ∧ tc_frozen_cache c = mkFrozenTreeCache ∅ ∅ [] [].
Proof.
  intros Hdb. pose proof (db_bounds _ _ _ _ _ Hdb) as [Hb1 Hb2]. unfold TreeCache_new. destruct (Z.eqb_spec next 0%Z) as [->|H0].
  - destruct (db_start _ _ _ _ _ Hdb) as [[_ ->]|]; [|lia]. unfold get_node_option, node_store_reader. rewrite lookup_empty. cbn [r_bind].
    eexists. split; [done|]. split_and!; [|done..]. split_and!; [done..|]. by right.
  - eexists. split; [done|]. split_and!; [|by apply map_empty_union|done..]. split_and!; [done..|]. left. done.
Qed.

Lemma batch_refines store index least next hist vss node_hashes :
  db_ok store index least next hist → (next + Z.of_nat (length vss) ≤ u64_max)%Z → valid_sets vss →
  hash_caches_ok (prev_map hist next) vss (match node_hashes with Some hs => Some <$> hs | None => replicate (length vss) None end) →
  ∃ b, batch_put_value_sets leaf_count_migration store vss node_hashes next = Ok (state_root <$> states (prev_map hist next) vss, b) ∧
    length (node_stats b) = length vss ∧
    db_ok (node_batch b ∪ store) (stale_node_index_batch b ∪ index) least (next + Z.of_nat (length vss)) (hist_app hist next (states (prev_map hist next) vss)).
Proof.
  intros Hdb Hmax Hv Hhc. destruct (new_cache_start _ _ _ _ _ Hdb) as (c & Hnew & Hst & Hbase & Hr & Hfz).
  pose proof (db_bounds _ _ _ _ _ Hdb) as [Hb1 Hb2]. unfold batch_put_value_sets. rewrite Hnew. cbn [r_bind]. set (hcs := match node_hashes with Some _ => _ | None => _ end) in *.
  assert (length vss = length hcs) as Hlen.
  { clear -Hhc. revert Hhc. generalize (prev_map hist next). generalize hcs. induction vss as [|vs vss IH]; intros [|hc l] m0; simpl; try done. intros [_ H%IH]. lia. }
  rewrite (proj2 (Nat.eqb_eq _ _) Hlen). rewrite versions_from_seqZ by lia.
  assert (Hstate : batch_state store index least c next hist [] c).
  { split_and!; [|done|done|by rewrite app_nil_r|simpl; lia]. rewrite Hbase, Hfz. cbn [ft_stale_node_index_cache]. by rewrite (left_id_L ∅ (∪)). }
  pose proof (run_batch_spec store index least c vss hcs next hist [] c Hstate Hmax Hv Hhc) as Hrun. unfold runs in Hrun.
  destruct (run_batch _ _ c) as [c' [[]| |]]; [|done..]. destruct Hrun as (Hdb' & _ & Hr' & Hh' & Hn'). unfold cache_into.
  exists (mkTreeUpdateBatch (ft_node_cache (tc_frozen_cache c')) (ft_stale_node_index_cache (tc_frozen_cache c')) (ft_node_stats (tc_frozen_cache c'))).
  cbn [node_batch stale_node_index_batch node_stats]. split_and!.
  - rewrite Hh', Hfz. done.
  - rewrite Hn', Hfz. simpl. clear. generalize (prev_map hist next). induction vss as [|vs vss IH]; intros m0; simpl; [done|]. by rewrite IH.
  - unfold base in Hdb'. by rewrite Hr' in Hdb'.
Qed.

Lemma run_puts_spec store index least c0 vss : ∀ next hist ms c,
  batch_state store index least c0 next hist ms c → (next + Z.of_nat (length vss) ≤ u64_max)%Z → valid_sets vss →
  runs (st_fold (λ _ '(version, value_set), put_value_set leaf_count_migration version value_set) (zip (seqZ next (Z.of_nat (length vss))) vss) ()) c
    (λ _, batch_state store index least c0 (next + Z.of_nat (length vss)) (hist_app hist next (states (prev_map hist next) vss))
            (ms ++ states (prev_map hist next) vss)).
Proof.
  induction vss as [|vs vss IH]; intros next hist ms c Hb Hmax Hv.
  - cbn [length]. rewrite Z.add_0_r. cbn [Z.of_nat]. rewrite seqZ_nil by done. simpl. by rewrite app_nil_r.
  - apply Forall_cons in Hv as [[Hne Hk] Hv]. cbn [length] in *. pose proof Hb as (Hdb & Hst & _). pose proof (db_bounds _ _ _ _ _ Hdb) as [Hb1 Hb2].
    rewrite seqZ_cons by lia. replace (Z.pred (Z.of_nat (S (length vss)))) with (Z.of_nat (length vss)) by lia. cbn [zip zip_with st_fold]. apply runs_bind.
    eapply runs_mono; [eapply (put_txn c); [exact Hdb|lia|exact Hst|done..]|]. intros [] c' Hres.
    eapply batch_state_step in Hres; [|lia|exact Hb]. cbn [states hist_app].
    specialize (IH (next + 1)%Z (hist_set hist next (apply_set (prev_map hist next) vs)) _ c' Hres).
    rewrite prev_map_step in IH by lia. replace (next + 1 + Z.of_nat (length vss))%Z with (next + Z.of_nat (S (length vss)))%Z in IH by lia.
    rewrite <- app_assoc in IH. unfold Z.succ. apply IH; [lia|done].
Qed.
Lemma puts_refine store index least next hist vss :
  db_ok store index least next hist → (next + Z.of_nat (length vss) ≤ u64_max)%Z → valid_sets vss →
  ∃ b, put_value_sets leaf_count_migration store vss next = Ok (state_root <$> states (prev_map hist next) vss, b) ∧
    db_ok (node_batch b ∪ store) (stale_node_index_batch b ∪ index) least (next + Z.of_nat (length vss)) (hist_app hist next (states (prev_map hist next) vss)).
Proof.
  intros Hdb Hmax Hv. destruct (new_cache_start _ _ _ _ _ Hdb) as (c & Hnew & Hst & Hbase & Hr & Hfz).
  pose proof (db_bounds _ _ _ _ _ Hdb) as [Hb1 Hb2]. unfold put_value_sets. rewrite Hnew. cbn [r_bind]. rewrite versions_from_seqZ by lia.
  assert (Hstate : batch_state store index least c next hist [] c).
  { split_and!; [|done|done|by rewrite app_nil_r|simpl; lia]. rewrite Hbase, Hfz. cbn [ft_stale_node_index_cache]. by rewrite (left_id_L ∅ (∪)). }
  pose proof (run_puts_spec store index least c vss next hist [] c Hstate Hmax Hv) as Hrun. unfold runs in Hrun.
  destruct (st_fold _ _ _ c) as [c' [[]| |]]; [|done..]. destruct Hrun as (Hdb' & _ & Hr' & Hh' & _). unfold cache_into.
  exists (mkTreeUpdateBatch (ft_node_cache (tc_frozen_cache c')) (ft_stale_node_index_cache (tc_frozen_cache c')) (ft_node_stats (tc_frozen_cache c'))).
  cbn [node_batch stale_node_index_batch]. split.
  - rewrite Hh', Hfz. done.
  - unfold base in Hdb'. by rewrite Hr' in Hdb'.
Qed.

(** ** Reading *)

Lemma db_node_live store index least next hist k : db_ok store index least next hist → is_Some (store !! k) →
  ∃ v, (least ≤ v < next)%Z ∧ in_version store v k.
Proof.
  intros Hdb Hk. pose proof (db_bounds _ _ _ _ _ Hdb) as [Hb1 Hb2]. destruct (db_start _ _ _ _ _ Hdb) as [[_ ->]|Hln].
  { rewrite lookup_empty in Hk. by destruct Hk. }
  destruct (db_live _ _ _ _ _ Hdb k Hk) as [Hr|(s & Hs & Hin)]; [exists (next - 1)%Z; split; [lia|done]|].
  destruct (db_index _ _ _ _ _ Hdb s k Hin) as (? & _ & Hr & _). exists (s - 1)%Z. split; [lia|auto].
Qed.
Lemma db_root_exists store index least next hist v : db_ok store index least next hist → is_Some (store !! node_key v []) → (least ≤ v < next)%Z.
Proof.
  intros Hdb (w & Hw & Hr)%(db_node_live _ _ _ _ _ _ Hdb). destruct (db_tree _ _ _ _ _ Hdb w Hw) as [Ht _].
  eapply reach_root_inv in Hr; [|constructor|exact Ht|done]. injection Hr as ->. done.
Qed.

Lemma db_read store index least next hist v key : db_ok store index least next hist → (least ≤ v < next)%Z →
  get_with_proof store key v = Ok (hist v !! key, state_proof (hist v) key) ∧
  SparseMerkleProof_verify (state_proof (hist v) key) (state_root (hist v)) key (crypto_hash <$> hist v !! key) = Ok ().
Proof.
  intros Hdb Hv. destruct (db_tree _ _ _ _ _ Hdb v Hv) as [Ht Hh]. split; [|by apply state_proof_verifies].
  apply (get_with_proof_root legacy); [|done]. by left.
Qed.
Lemma db_root_hash store index least next hist v : db_ok store index least next hist → (least ≤ v < next)%Z →
  get_root_hash store v = Ok (state_root (hist v)).
Proof.
  intros Hdb Hv. destruct (db_tree _ _ _ _ _ Hdb v Hv) as [Ht _]. destruct (tree_root_hash _ _ _ _ _ Ht) as (n & Hn & Hh & _).
  unfold get_root_hash, get_root_node, get_root_node_option, get_node_option, node_store_reader. change (NodeKey_new_empty_path v) with (node_key v []).
  cbn [r_bind]. rewrite Hn. exact Hh.
Qed.
Lemma db_unreadable store index least next hist v key : db_ok store index least next hist → ¬ (least ≤ v < next)%Z →
  get_with_proof store key v = Err MissingRootError.
Proof.
  intros Hdb Hv. unfold get_with_proof. rewrite key_path. cbn [r_bind]. change (ROOT_NIBBLE_HEIGHT + 1) with (S 64). cbn [get_with_proof_loop].
  unfold reader_get_node, get_node_option, node_store_reader. change (NodeKey_new_empty_path v) with (node_key v []). cbn [r_bind].
  destruct (store !! node_key v []) eqn:Hn; [|done]. destruct Hv. eapply db_root_exists; eauto.
Qed.

(** ** Pruning *)

Lemma delete_list_lookup store (ks : list NodeKey) k : foldl (λ db k, delete k db) store ks !! k = if decide (k ∈ ks) then None else store !! k.
Proof.
  revert store. induction ks as [|k' ks IH]; intros store; cbn [foldl]; [by rewrite decide_False by apply not_elem_of_nil|]. rewrite IH.
  destruct (decide (k = k')) as [->|Hne]; [rewrite lookup_delete_eq, (decide_True (P:=k' ∈ k' :: ks)) by left; by case_decide|].
  rewrite lookup_delete_ne by done. destruct (decide (k ∈ ks)); [rewrite decide_True by (by right)|rewrite decide_False by (by intros [?|?]%elem_of_cons)]; done.
Qed.

(** Pruning the nodes stale since a version or before. *)
Lemma db_prune store index least next hist (w : Z) store' : db_ok store index least next hist → (w < next)%Z →
  (∀ k, store' !! k = store !! k ∨ (store' !! k = None ∧ ∃ s, (s ≤ w)%Z ∧ (s, k) ∈ index)) →
  (∀ k s, (least < s ≤ w)%Z → (s, k) ∈ index → store' !! k = None) →
  db_ok store' index (Z.max least w) next hist.
Proof.
  intros Hdb Hw Hst Hdel. pose proof (db_bounds _ _ _ _ _ Hdb) as [Hb1 Hb2].
  assert (Hsame : ∀ v k, (Z.max least w ≤ v < next)%Z → in_version store v k → store' !! k = store !! k).
  { intros v k Hv Hr. destruct (Hst k) as [|(_ & s & Hs & Hin)]; [done|]. destruct (db_index _ _ _ _ _ Hdb s k Hin) as (_ & _ & _ & Hno).
    exfalso. revert Hr. apply Hno; lia. }
  assert (Hreach : ∀ v k, (Z.max least w ≤ v < next)%Z → in_version store' v k ↔ in_version store v k).
  { intros v k Hv. apply reach_reach_frame. intros k' Hr. by eapply Hsame. }
  split.
  - lia.
  - destruct (db_start _ _ _ _ _ Hdb) as [[H0 He]|]; [|right; lia]. left. split; [done|]. apply map_empty. intros k. destruct (Hst k) as [->|[? _]]; [|done].
    by rewrite He.
  - intros v Hv. destruct (db_tree _ _ _ _ _ Hdb v ltac:(lia)) as [Ht Hh]. split; [|done]. eapply tree_reach_frame; [|exact Ht]. intros k Hr. by eapply Hsame.
  - intros v k Hv Hr. apply Hreach in Hr; [|done]. apply (db_version _ _ _ _ _ Hdb) in Hr; [done|lia].
  - intros s k Hin. destruct (db_index _ _ _ _ _ Hdb s k Hin) as (Hs & Hks & Hprev & Hno). split_and!; [lia..| |].
    + intros Hls. apply Hreach; [lia|]. apply Hprev. lia.
    + intros v Hlv Hv Hr. apply Hreach in Hr; [|lia]. revert Hr. apply Hno; lia.
  - intros k Hk. assert (is_Some (store !! k)) as Hk'. { destruct (Hst k) as [Heq|[Heq _]]; rewrite Heq in Hk; [done|by destruct Hk]. }
    destruct (db_live _ _ _ _ _ Hdb k Hk') as [Hr|(s & Hs & Hin)].
    + destruct (db_start _ _ _ _ _ Hdb) as [[_ He]|]; [rewrite He, lookup_empty in Hk'; by destruct Hk'|]. left. apply Hreach; [lia|done].
    + right. exists s. split; [|done]. destruct (decide (s ≤ w)%Z) as [Hsw|]; [|lia]. rewrite (Hdel k s) in Hk by (done || lia). by destruct Hk.
Qed.
End db.

(** ** Theorems *)

(** C9: [batch_put_value_sets] implements the history of states.  On a store whose readable
    versions are the trees of their maps, a batch of non-empty sets of values always returns: its
    root hashes are those of the maps updated set by set (computed from the definition of the
    sparse Merkle tree), and with its nodes written and its stale nodes indexed the store holds
    the old readable versions unchanged and the new ones, whether nodes are hashed here or their
    hashes are given. *)
Theorem batch_put_value_sets_refines `{C : Crypto} {V : Type} `{HV : CryptoHash V} `{MH : MerkleHasher} `{LH : SparseLeafHasher}
    legacy leaf_count_migration (store : gmap NodeKey (Node V)) index least next hist value_sets node_hashes :
  db_ok legacy store index least next hist → (next + Z.of_nat (length value_sets) ≤ u64_max)%Z → valid_sets value_sets →
  hash_caches_ok (prev_map hist next) value_sets
    (match node_hashes with Some hs => Some <$> hs | None => replicate (length value_sets) None end) →
  let maps := states (prev_map hist next) value_sets in
  ∃ b, batch_put_value_sets leaf_count_migration store value_sets node_hashes next = Ok (state_root <$> maps, b) ∧
    length (node_stats b) = length value_sets ∧
    db_ok legacy (node_batch b ∪ store) (stale_node_index_batch b ∪ index) least (next + Z.of_nat (length value_sets)) (hist_app hist next maps).
Proof. apply batch_refines. Qed.

(** C11: inserting a batch and inserting its values one by one are equivalent.  Both return, with
    the same root hashes, and the two stores answer every query for a value with its proof
    alike, at every version and for every key. *)
Theorem put_value_sets_equiv `{C : Crypto} {V : Type} `{HV : CryptoHash V} `{MH : MerkleHasher} `{LH : SparseLeafHasher}
    legacy leaf_count_migration (store : gmap NodeKey (Node V)) index least next hist value_sets :
  db_ok legacy store index least next hist → (next + Z.of_nat (length value_sets) ≤ u64_max)%Z → valid_sets value_sets →
  ∃ root_hashes b b', batch_put_value_sets leaf_count_migration store value_sets None next = Ok (root_hashes, b) ∧
    put_value_sets leaf_count_migration store value_sets next = Ok (root_hashes, b') ∧
    ∀ key v, get_with_proof (node_batch b ∪ store) key v = get_with_proof (node_batch b' ∪ store) key v.
Proof.
  intros Hdb Hmax Hv. destruct (batch_refines legacy leaf_count_migration _ _ _ _ _ value_sets None Hdb Hmax Hv) as (b & Hb & _ & Hdb1).
  { generalize (prev_map hist next). clear. induction value_sets as [|vs vss IH]; intros m; [done|]. split; [done|apply IH]. }
  destruct (puts_refine legacy leaf_count_migration _ _ _ _ _ value_sets Hdb Hmax Hv) as (b' & Hb' & Hdb2).
  do 3 eexists. split_and!; [exact Hb|exact Hb'|]. intros key v.
  destruct (decide (least ≤ v < next + Z.of_nat (length value_sets))%Z) as [Hr|Hr].
  - destruct (db_read _ _ _ _ _ _ v key Hdb1 Hr) as [-> _], (db_read _ _ _ _ _ _ v key Hdb2 Hr) as [-> _]. done.
  - by rewrite (db_unreadable _ _ _ _ _ _ v key Hdb1 Hr), (db_unreadable _ _ _ _ _ _ v key Hdb2 Hr).
Qed.

(** C12: what is read from a version.  At a readable version every key gets the value of the map,
    with the proof of the sparse Merkle tree, which [SparseMerkleProof::verify] accepts against the
    root hash of the version; the number of leaves is the number of keys.  At every other version
    the error is that the root is missing. *)
Theorem version_served `{C : Crypto} {V : Type} `{HV : CryptoHash V} `{MH : MerkleHasher} `{LH : SparseLeafHasher}
    (store : gmap NodeKey (Node V)) index least next hist v key :
  db_ok false store index least next hist →
  if decide (least ≤ v < next)%Z then
    get_with_proof store key v = Ok (hist v !! key, state_proof (hist v) key) ∧
    get_root_hash store v = Ok (state_root (hist v)) ∧
    SparseMerkleProof_verify (state_proof (hist v) key) (state_root (hist v)) key (crypto_hash <$> hist v !! key) = Ok () ∧
    get_leaf_count true store v = Ok (Some (wrap64 (Z.of_nat (size (hist v)))))
  else get_with_proof store key v = Err MissingRootError.
Proof.
  intros Hdb. case_decide as Hr; [|by eapply db_unreadable]. destruct (db_read _ _ _ _ _ _ v key Hdb Hr) as [Hg Hv].
  split_and!; [done|by eapply db_root_hash|done|]. destruct (db_tree _ _ _ _ _ _ Hdb v Hr) as [Ht _].
  destruct (tree_root_hash _ _ _ _ _ Ht) as (n & Hn & _ & _ & Hc & _).
  unfold get_leaf_count, get_root_node, get_root_node_option, get_node_option, node_store_reader. change (NodeKey_new_empty_path v) with (node_key v []).
  cbn [r_bind]. rewrite Hn. cbn [ok_or r_bind]. destruct (Node_leaf_count n); [|done]. by rewrite Hc.
Qed.

(** Completeness of range proofs.  For a key that a readable version holds, [get_range_proof]
    returns the right siblings of its path, and [SparseMerkleRangeProof::verify] accepts them with
    the leaf and the left siblings against the root hash. *)
Theorem range_proof_served `{C : Crypto} {V : Type} `{HV : CryptoHash V} `{MH : MerkleHasher} `{LH : SparseLeafHasher}
    legacy (store : gmap NodeKey (Node V)) index least next hist v key x :
  db_ok legacy store index least next hist → (least ≤ v < next)%Z → hist v !! key = Some x →
  get_range_proof store key v = Ok (side_siblings right_sibling (hist v) key) ∧
  SparseMerkleRangeProof_verify (side_siblings right_sibling (hist v) key) (state_root (hist v))
    (mkSparseMerkleLeafNode key (crypto_hash x)) (side_siblings left_sibling (hist v) key) = Ok ().
Proof.
  intros Hdb Hv Hx. destruct (db_tree _ _ _ _ _ _ Hdb v Hv) as [Ht Hh]. apply (get_range_proof_root legacy); [|done..]. by left.
Qed.

(** ** A sample history *)

Section sample.
(** Small hashes, so that the code can be run. *)
#[local] Instance sample_merkle_hasher : MerkleHasher := λ a b, ((3 * a + 5 * b + 1) mod (2 ^ 61 - 1))%Z.
#[local] Instance sample_leaf_hasher : SparseLeafHasher := λ k v, ((7 * k + 11 * v) mod (2 ^ 61 - 1))%Z.
#[local] Instance sample_value_hash : CryptoHash Z := ref_crypto_hash 7.
#[local] Existing Instance ref_crypto.

(** Three values, two of them with six nibbles in common, then an update and a new key. *)
Definition sample_sets : list (list (Z * Z)) :=
  [[(2 ^ 255, 1); (5 * 2 ^ 232, 2); (6 * 2 ^ 232, 3)]; [(5 * 2 ^ 232, 4); (7, 5)]]%Z.

Lemma sample_valid : valid_sets sample_sets.
Proof.
  constructor; [|constructor; [|constructor]]; (split; [done|]); intros kv Hkv;
    repeat (apply elem_of_cons in Hkv as [->|Hkv]; [split; vm_compute; [discriminate|reflexivity]|]); by apply elem_of_nil in Hkv.
Qed.
Lemma empty_db (V : Type) `{HV : CryptoHash V} legacy : db_ok (V:=V) legacy ∅ ∅ 0 0 (λ _, ∅).
Proof.
  split; try (intros; lia).
  - unfold u64_max. lia.
  - by left.
  - intros s k []%not_elem_of_empty.
  - intros k []%lookup_empty_is_Some.
Qed.

Definition sample_maps : list (gmap Z Z) := states ∅ sample_sets.
Lemma sample_caches : hash_caches_ok (prev_map (λ _, ∅) 0) sample_sets (replicate (length sample_sets) None).
Proof. done. Qed.
(** The store after the sample, from the empty one. *)
Lemma sample_db : ∃ store index, db_ok false store index 0 2 (hist_app (λ _, ∅) 0 sample_maps).
Proof.
  destruct (batch_refines false true ∅ ∅ 0 0 (λ _, ∅) sample_sets None (empty_db Z false) ltac:(unfold u64_max; simpl; lia) sample_valid sample_caches) as (b & _ & _ & H).
  eauto.
Qed.

(** The code run on the sample returns the reference root hashes. *)
Example sample_runs :
  (let? (roots, b) := batch_put_value_sets true (∅ : gmap NodeKey (Node Z)) sample_sets None 0 in
   let? (roots', b') := put_value_sets true (∅ : gmap NodeKey (Node Z)) sample_sets 0 in
   Ok (bool_decide (roots = state_root <$> sample_maps ∧ roots' = roots), size (node_batch b), size (stale_node_index_batch b), size (node_batch b'))) =
  Ok (true, 17, 7, 17).
Proof. vm_compute. reflexivity. Qed.

Lemma batch_put_value_sets_refines_witness :
  ∃ b, batch_put_value_sets true (∅ : gmap NodeKey (Node Z)) sample_sets None 0 = Ok (state_root <$> sample_maps, b) ∧
    length (node_stats b) = 2 ∧ db_ok false (node_batch b ∪ ∅) (stale_node_index_batch b ∪ ∅) 0 2 (hist_app (λ _, ∅) 0 sample_maps).
Proof.
  apply (batch_put_value_sets_refines false true ∅ ∅ 0 0 (λ _, ∅) sample_sets None (empty_db Z false)); [unfold u64_max; simpl; lia|exact sample_valid|exact sample_caches].
Defined.
Lemma put_value_sets_equiv_witness :
  ∃ root_hashes b b', batch_put_value_sets true (∅ : gmap NodeKey (Node Z)) sample_sets None 0 = Ok (root_hashes, b) ∧
    put_value_sets true (∅ : gmap NodeKey (Node Z)) sample_sets 0 = Ok (root_hashes, b') ∧
    ∀ key v, get_with_proof (node_batch b ∪ ∅) key v = get_with_proof (node_batch b' ∪ ∅) key v.
Proof.
  apply (put_value_sets_equiv false true ∅ ∅ 0 0 (λ _, ∅) sample_sets (empty_db Z false)); [unfold u64_max; simpl; lia|exact sample_valid].
Defined.
Lemma version_served_witness :
  ∃ store : gmap NodeKey (Node Z), get_with_proof store (5 * 2 ^ 232) 1 = Ok (Some 4%Z, state_proof (hist_app (λ _, ∅) 0 sample_maps 1) (5 * 2 ^ 232)) ∧
    get_with_proof store 7 0 = Ok (None, state_proof (hist_app (λ _, ∅) 0 sample_maps 0) 7) ∧ get_with_proof store 7 2 = Err MissingRootError.
Proof.
  destruct sample_db as (store & index & Hdb). exists store. split_and!.
  - pose proof (version_served store index 0 2 _ 1 (5 * 2 ^ 232) Hdb) as H. rewrite decide_True in H by lia. apply H.
  - pose proof (version_served store index 0 2 _ 0 7 Hdb) as H. rewrite decide_True in H by lia. apply H.
  - pose proof (version_served store index 0 2 _ 2 7 Hdb) as H. rewrite decide_False in H by lia. apply H.
Defined.
Lemma range_proof_served_witness :
  ∃ store : gmap NodeKey (Node Z), get_range_proof store (5 * 2 ^ 232) 1 = Ok (side_siblings right_sibling (hist_app (λ _, ∅) 0 sample_maps 1) (5 * 2 ^ 232)).
Proof.
  destruct sample_db as (store & index & Hdb). exists store.
  apply (range_proof_served false store index 0 2 _ 1 (5 * 2 ^ 232) 4%Z Hdb); [lia|vm_compute; reflexivity].
Defined.
End sample.
