(* ===== verification/StatePruner.v ===== *)
(** * StatePruner: pruning of old versions

    Models src/storage/diemdb/src/pruner/mod.rs: the commands sent when versions are committed, the
    worker that receives them, a round of pruning, the purge of the index and a restart, as steps
    of a system together with the commits of batches of JellyfishTree.  In every order of these
    steps the versions of the window stay readable.  Reads and writes of the database succeed. *)

From S2P Require Import Prelude Bits Crypto Accumulator SparseMerkle NibblePath JellyfishNode JellyfishTree JellyfishFacts JellyfishPut.
From S2P Require Import JellyfishBatch JellyfishSafety.

Local Open Scope nat_scope.
#[local] Opaque state_tree.

(** ** Rounds of pruning *)

(** The versions of the index, in the order of its iterator. *)
Definition index_versions (index : gset (Z * NodeKey)) : list Z := merge_sort Z.le (remove_dups (elements index).*1).

Definition indices_of (index : gset (Z * NodeKey)) (version : Z) : Z * list NodeKey :=
  (version, (filter (λ e, e.1 = version) (elements index)).*2).
(** [StaleNodeIndicesByVersionIterator] *)
Definition stale_node_indices_by_version (index : gset (Z * NodeKey)) (least_readable_version target_least_readable_version : Z)
    : list (Z * list NodeKey) :=
  indices_of index <$> filter (λ v, least_readable_version ≤ v ≤ target_least_readable_version)%Z (index_versions index).

Definition prune_state {V} (db : gmap NodeKey (Node V)) (index : gset (Z * NodeKey)) (least_readable_version target_least_readable_version : Z)
    (max_versions : nat) : Z * gmap NodeKey (Node V) :=
  let indices := take max_versions (stale_node_indices_by_version index least_readable_version target_least_readable_version) in
  match last indices with
  | None => (least_readable_version, db)
  | Some (new_least_readable_version, _) =>
      (new_least_readable_version, foldl (λ db k, delete k db) db (concat indices.*2))
  end.

(** ** The worker *)

Inductive Command := Quit | Prune (least_readable_version : Z).

(** [Pruner::wake]: the command sent, if any. *)
Definition wake (historical_versions_to_keep latest_version : Z) : option Command :=
  if (latest_version >? historical_versions_to_keep)%Z then Some (Prune (latest_version - historical_versions_to_keep)) else None.

Record Worker := mkWorker {
  w_target_least_readable_version : Z;
  w_least_readable_version : Z;
  w_blocking_recv : bool;
  w_index_min_nonpurged_version : Z;
}.
Definition Worker_new : Worker := mkWorker 0 0 true 0.
Definition MAX_VERSIONS_TO_PRUNE_PER_BATCH : nat := 100.

Definition get_least_readable_version (index : gset (Z * NodeKey)) : AnyResult Z :=
  match head (index_versions index) with
  | None => Ok 0%Z
  | Some stale_since_version => expect (checked_sub stale_since_version 1) "Nothing is stale since version 0."
  end.
Definition record_progress (least_readable_version : Z) (w : Worker) : Worker :=
  mkWorker (w_target_least_readable_version w) least_readable_version (w_blocking_recv w) (w_index_min_nonpurged_version w).
Definition initialize (w : Worker) (index : gset (Z * NodeKey)) : AnyResult Worker :=
  let? least_readable_version := get_least_readable_version index in
  Ok (record_progress least_readable_version
        (mkWorker least_readable_version (w_least_readable_version w) (w_blocking_recv w) (w_index_min_nonpurged_version w))).

(** Over the commands in the channel; [None] when the worker waits for one. *)
Fixpoint receive_commands (w : Worker) (channel : list Command) : option (bool * Worker * list Command) :=
  match channel with
  | [] => if w_blocking_recv w then None else Some (true, w, [])
  | Quit :: channel => Some (false, w, channel)
  | Prune least_readable_version :: channel =>
      receive_commands
        (if (least_readable_version >? w_target_least_readable_version w)%Z
         then mkWorker least_readable_version (w_least_readable_version w) false (w_index_min_nonpurged_version w) else w) channel
  end.

(** The body of the loop of [work], up to the purge of the index. *)
Definition work_round {V} (w : Worker) (db : gmap NodeKey (Node V)) (index : gset (Z * NodeKey)) : Worker * gmap NodeKey (Node V) :=
  let least_readable_version := w_least_readable_version w in
  let '(new_least_readable_version, db) :=
    prune_state db index least_readable_version (w_target_least_readable_version w) MAX_VERSIONS_TO_PRUNE_PER_BATCH in
  let blocking_recv := (new_least_readable_version =? least_readable_version)%Z
    || (new_least_readable_version =? w_target_least_readable_version w)%Z in
  (mkWorker (w_target_least_readable_version w) new_least_readable_version blocking_recv (w_index_min_nonpurged_version w), db).

Definition MIN_VERSIONS : Z := 60000.
(** [interval_passed]: a minute has passed since the last purge. *)
Definition maybe_purge_index (interval_passed : bool) (w : Worker) (index : gset (Z * NodeKey)) : Worker * gset (Z * NodeKey) :=
  if interval_passed && (wrap64 (wrap64 (w_least_readable_version w - w_index_min_nonpurged_version w) + 1) >? MIN_VERSIONS)%Z then
    let new_min_non_purged_version := wrap64 (w_least_readable_version w + 1) in
    (mkWorker (w_target_least_readable_version w) (w_least_readable_version w) (w_blocking_recv w) new_min_non_purged_version,
     filter (λ e, ¬ (w_index_min_nonpurged_version w ≤ e.1 < new_min_non_purged_version)%Z) index)
  else (w, index).

(** ** A round on a good database *)

Lemma index_versions_elem index s : s ∈ index_versions index ↔ ∃ k, (s, k) ∈ index.
Proof.
  unfold index_versions. rewrite merge_sort_Permutation, elem_of_remove_dups, list_elem_of_fmap. split.
  - intros ([s' k] & -> & Hin%elem_of_elements). eauto.
  - intros [k Hk]. exists (s, k). split; [done|]. by apply elem_of_elements.
Qed.
Lemma index_versions_sorted index : StronglySorted Z.lt (index_versions index).
Proof.
  assert (NoDup (index_versions index)) as Hnd by (unfold index_versions; rewrite merge_sort_Permutation; apply NoDup_remove_dups).
  assert (StronglySorted Z.le (index_versions index)) as Hs by apply (StronglySorted_merge_sort _).
  revert Hnd. induction Hs as [|a l Hl IH Ha]; intros Hnd; [constructor|]. apply NoDup_cons in Hnd as [Hnin Hnd]. constructor; [by apply IH|].
  apply Forall_forall. intros x Hx. apply (proj1 (Forall_forall _ _) Ha) in Hx as Hle. assert (a ≠ x) by (by intros ->). lia.
Qed.
Lemma sorted_filter (P : Z → Prop) `{∀ x, Decision (P x)} l : StronglySorted Z.lt l → StronglySorted Z.lt (filter P l).
Proof.
  induction 1 as [|a l Hl IH Ha]; [constructor|]. rewrite filter_cons. case_decide; [|done]. constructor; [done|].
  apply Forall_forall. intros x [_ Hx]%list_elem_of_filter. by apply (proj1 (Forall_forall _ _) Ha).
Qed.
(** The first versions of a sorted list are those up to the last of them. *)
Lemma take_sorted n (l : list Z) w : StronglySorted Z.lt l → last (take n l) = Some w → ∀ x, x ∈ take n l ↔ x ∈ l ∧ (x ≤ w)%Z.
Proof.
  intros Hs Hw x. rewrite last_lookup in Hw. apply lookup_take_Some in Hw as Hw'. destruct Hw' as [Hlw Hlt]. split.
  - intros [i Hi]%list_elem_of_lookup. apply lookup_take_Some in Hi as Hi'. destruct Hi' as [Hli Hin]. split; [by eapply list_elem_of_lookup_2|].
    apply lookup_lt_Some in Hi. destruct (decide (i = pred (length (take n l)))) as [->|Hne]; [assert (x = w) by congruence; lia|].
    apply Z.lt_le_incl. eapply (StronglySorted_lookup _ l i (pred (length (take n l)))); try done. lia.
  - intros [[i Hi]%list_elem_of_lookup Hx]. apply list_elem_of_lookup. exists i. apply lookup_take_Some. split; [done|].
    apply dec_stable. intros Hni. apply lookup_lt_Some in Hi as Hil.
    assert (w < x)%Z; [|lia]. eapply (StronglySorted_lookup _ l (pred (length (take n l))) i); try done. rewrite length_take in *. lia.
Qed.

Section prune.
Context {V : Type}.
Implicit Types (db : gmap NodeKey (Node V)) (index : gset (Z * NodeKey)).

(** What a round deletes: the nodes stale since a version between where it starts and where it ends. *)
Lemma prune_state_spec db index least target n new db' : prune_state db index least target n = (new, db') →
  (new = least ∧ db' = db ∧ (n ≠ 0 → ∀ s k, (s, k) ∈ index → ¬ (least ≤ s ≤ target)%Z)) ∨
  ((least ≤ new ≤ target)%Z ∧ (∃ k, (new, k) ∈ index) ∧
   (∀ k, db' !! k = db !! k ∨ (db' !! k = None ∧ ∃ s, (s ≤ new)%Z ∧ (s, k) ∈ index)) ∧
   (∀ s k, (least ≤ s ≤ new)%Z → (s, k) ∈ index → db' !! k = None) ∧
   (2 ≤ n → ∀ s k, (least < s ≤ target)%Z → (s, k) ∈ index → (least < new)%Z)).
Proof.
  unfold prune_state, stale_node_indices_by_version. rewrite <- fmap_take, fmap_last. set (vs := filter _ _).
  assert (Hvs : ∀ s, s ∈ vs ↔ (least ≤ s ≤ target)%Z ∧ ∃ k, (s, k) ∈ index) by (intros s; unfold vs; by rewrite list_elem_of_filter, index_versions_elem).
  assert (Hsort : StronglySorted Z.lt vs) by apply sorted_filter, index_versions_sorted. clearbody vs.
  destruct (last (take n vs)) as [w|] eqn:Hlast; cbn [fmap option_fmap option_map indices_of]; intros [= <- <-].
  - right. pose proof (take_sorted n vs w Hsort Hlast) as Htake. assert (w ∈ take n vs) as Hw by by apply last_Some_elem_of.
    apply Htake in Hw as [Hw _]. apply Hvs in Hw as [Hw Hwk].
    assert (Hdel : ∀ k, k ∈ concat (indices_of index <$> take n vs).*2 ↔ ∃ s, (least ≤ s ≤ w)%Z ∧ (s, k) ∈ index).
    { intros k. rewrite list_elem_of_In, in_concat. setoid_rewrite <- list_elem_of_In. rewrite <- list_fmap_compose. setoid_rewrite list_elem_of_fmap. split.
      - intros (l & (s & -> & [Hs Hle]%Htake) & Hk). apply Hvs in Hs as [Hs _]. cbn in Hk. apply list_elem_of_fmap in Hk as ([s' k'] & -> & [Heq Hin]%list_elem_of_filter).
        simpl in *. subst s'. exists s. split; [lia|by apply elem_of_elements].
      - intros (s & Hs & Hin). eexists. split; [exists s; split; [reflexivity|]|].
        + apply Htake. split; [apply Hvs; split; [lia|eauto]|lia].
        + cbn. apply list_elem_of_fmap. exists (s, k). split; [done|]. apply list_elem_of_filter. split; [done|]. by apply elem_of_elements. }
    split_and!; [lia..|done| | |].
    + intros k. rewrite delete_list_lookup. case_decide as Hk; [|by left]. right. split; [done|]. apply Hdel in Hk as (s & Hs & Hin). exists s. split; [lia|done].
    + intros s k Hs Hin. rewrite delete_list_lookup, decide_True; [done|]. apply Hdel. eauto.
    + intros Hn s k Hs Hin. apply dec_stable. intros Hge. assert (w = least) as -> by lia.
      assert (s ∈ vs) as Hs' by (apply Hvs; split; [lia|eauto]).
      destruct vs as [|a [|b l]]; [by apply elem_of_nil in Hs'|..]; destruct n as [|[|n]]; try lia.
      * injection Hlast as ->. apply list_elem_of_singleton in Hs'. lia.
      * assert (a < b)%Z by (apply StronglySorted_inv in Hsort as [_ Hf]; by inversion Hf).
        destruct (proj1 (Htake b)) as [_ Hb]; [right; left|]. destruct (proj1 (Hvs a)); [left|]. lia.
  - left. split_and!; [done..|]. intros Hn s k Hin Hs. assert (s ∈ vs) as Hin' by (apply Hvs; eauto). destruct vs; [by apply elem_of_nil in Hin'|]. destruct n; [done|]. 
    apply last_None in Hlast. done.
Qed.

(** Rounds with the same target. *)
Definition work_rounds (n : nat) (w : Worker) db index : Worker * gmap NodeKey (Node V) := Nat.iter n (λ '(w, db), work_round w db index) (w, db).

Lemma work_round_spec w db index w' db' : work_round w db index = (w', db') →
  w_target_least_readable_version w' = w_target_least_readable_version w ∧
  w_index_min_nonpurged_version w' = w_index_min_nonpurged_version w ∧
  prune_state db index (w_least_readable_version w) (w_target_least_readable_version w) MAX_VERSIONS_TO_PRUNE_PER_BATCH =
    (w_least_readable_version w', db').
Proof. unfold work_round. destruct (prune_state _ _ _ _ _) as [new db1]. by intros [= <- <-]. Qed.

Lemma rounds_complete index (fuel : nat) w db : (Z.to_nat (w_target_least_readable_version w - w_least_readable_version w) < fuel) →
  ∃ n, n ≤ fuel ∧ let '(w', db') := work_rounds n w db index in
    w_target_least_readable_version w' = w_target_least_readable_version w ∧
    (∀ k, db' !! k = db !! k ∨ (db' !! k = None ∧ ∃ s, (s ≤ w_target_least_readable_version w)%Z ∧ (s, k) ∈ index)) ∧
    ∀ s k, (s, k) ∈ index → (w_least_readable_version w ≤ s ≤ w_target_least_readable_version w)%Z → db' !! k = None.
Proof.
  revert w db. induction fuel as [|fuel IH]; intros w db Hf; [lia|]. destruct (work_round w db index) as [w1 db1] eqn:Hr.
  destruct (work_round_spec _ _ _ _ _ Hr) as (Ht & _ & [(Hl & -> & Hnone)|(Hl & _ & Hsub & Hdel & Hprog)]%prune_state_spec).
  { exists 0. split; [lia|]. simpl. split_and!; [done|by left|]. intros s k Hin Hs. by destruct (Hnone ltac:(done) s k Hin). }
  assert (Hmono : ∀ k, db1 !! k = db !! k ∨ (db1 !! k = None ∧ ∃ s, (s ≤ w_target_least_readable_version w)%Z ∧ (s, k) ∈ index)).
  { intros k. destruct (Hsub k) as [|(? & s & Hs & ?)]; [by left|]. right. split; [done|]. exists s. split; [lia|done]. }
  destruct (Z.eq_dec (w_least_readable_version w1) (w_least_readable_version w)) as [Heq|Hne].
  { exists 1. split; [lia|]. cbn. rewrite Hr. split_and!; [done..|]. intros s k Hin Hs. apply (Hdel s k); [|done]. split; [lia|]. rewrite Heq.
    apply dec_stable. intros Hgt. specialize (Hprog ltac:(unfold MAX_VERSIONS_TO_PRUNE_PER_BATCH; lia) s k ltac:(lia) Hin). lia. }
  destruct (IH w1 db1) as (n & Hn & Hrun); [rewrite Ht; lia|]. exists (S n). split; [lia|]. unfold work_rounds in *. rewrite Nat.iter_succ_r, Hr.
  destruct (Nat.iter n _ _) as [w' db']. destruct Hrun as (Ht' & Hm' & Hall). rewrite Ht in *. split_and!; [done| |].
  { intros k. destruct (Hm' k) as [->|]; [apply Hmono|by right]. }
  intros s k Hin Hs. destruct (decide (s ≤ w_least_readable_version w1)%Z).
  { destruct (Hm' k) as [->|[? _]]; [|done]. apply (Hdel s k); [lia|done]. }
  apply (Hall s k); [done|lia].
Qed.
End prune.

(** ** The system *)

Section system.
Context `{C : Crypto} {V : Type} `{HV : CryptoHash V} `{MH : MerkleHasher} `{LH : SparseLeafHasher}.
Context (leaf_count_migration : bool) (historical_versions_to_keep : Z).
Implicit Types (store : gmap NodeKey (Node V)) (hist : Z → gmap Z V).

(** [sy_hist]: the maps of the versions committed. *)
Record System := mkSystem {
  sy_store : gmap NodeKey (Node V);
  sy_index : gset (Z * NodeKey);
  sy_next : Z;
  sy_hist : Z → gmap Z V;
  sy_worker : Worker;
  sy_channel : list Command;
}.
Definition init_system : System := mkSystem ∅ ∅ 0 (λ _, ∅) Worker_new [].

(** A batch is written in one go; every other step is one of the pruner. *)
Inductive sys_step : System → System → Prop :=
| step_commit s vss node_hashes roots b :
    valid_sets vss → (sy_next s + Z.of_nat (length vss) ≤ u64_max)%Z →
    hash_caches_ok (prev_map (sy_hist s) (sy_next s)) vss
      (match node_hashes with Some hs => Some <$> hs | None => replicate (length vss) None end) →
    batch_put_value_sets leaf_count_migration (sy_store s) vss node_hashes (sy_next s) = Ok (roots, b) →
    sys_step s (mkSystem (node_batch b ∪ sy_store s) (stale_node_index_batch b ∪ sy_index s) (sy_next s + Z.of_nat (length vss))
      (hist_app (sy_hist s) (sy_next s) (states (prev_map (sy_hist s) (sy_next s)) vss)) (sy_worker s) (sy_channel s))
| step_wake s cmd : (0 < sy_next s)%Z → wake historical_versions_to_keep (sy_next s - 1) = Some cmd →
    sys_step s (mkSystem (sy_store s) (sy_index s) (sy_next s) (sy_hist s) (sy_worker s) (sy_channel s ++ [cmd]))
| step_receive s w channel : receive_commands (sy_worker s) (sy_channel s) = Some (true, w, channel) →
    sys_step s (mkSystem (sy_store s) (sy_index s) (sy_next s) (sy_hist s) w channel)
| step_work s w db : work_round (sy_worker s) (sy_store s) (sy_index s) = (w, db) →
    sys_step s (mkSystem db (sy_index s) (sy_next s) (sy_hist s) w (sy_channel s))
| step_purge s interval_passed w index : maybe_purge_index interval_passed (sy_worker s) (sy_index s) = (w, index) →
    sys_step s (mkSystem (sy_store s) index (sy_next s) (sy_hist s) w (sy_channel s))
| step_restart s w : initialize Worker_new (sy_index s) = Ok w →
    sys_step s (mkSystem (sy_store s) (sy_index s) (sy_next s) (sy_hist s) w []).

(** The first version that is not to be pruned. *)
Definition window_start (next : Z) : Z := Z.max 0 (next - 1 - historical_versions_to_keep).
Definition command_ok (next : Z) (cmd : Command) : Prop := match cmd with Quit => True | Prune v => (v ≤ window_start next)%Z end.
Definition sys_inv (s : System) : Prop :=
  ∃ least, db_ok false (sy_store s) (sy_index s) least (sy_next s) (sy_hist s) ∧ (least ≤ window_start (sy_next s))%Z ∧
    (0 ≤ w_least_readable_version (sy_worker s) ≤ least)%Z ∧
    (w_target_least_readable_version (sy_worker s) ≤ window_start (sy_next s))%Z ∧ Forall (command_ok (sy_next s)) (sy_channel s).
Context (Hkeep : (0 ≤ historical_versions_to_keep)%Z).

Lemma init_inv : sys_inv init_system.
Proof.
  exists 0%Z. split; [|cbn; unfold window_start; split_and!; try (done || lia)]. split; cbn.
  - unfold u64_max. lia.
  - by left.
  - intros v Hv. lia.
  - intros v k Hv. lia.
  - intros s k []%not_elem_of_empty.
  - intros k []%lookup_empty_is_Some.
Qed.

Lemma window_mono next next' : (next ≤ next')%Z → (window_start next ≤ window_start next')%Z.
Proof. unfold window_start. lia. Qed.
Lemma window_lt next : (0 < next)%Z → (window_start next < next)%Z.
Proof using Hkeep. unfold window_start. lia. Qed.

Lemma sys_commit_inv s vss node_hashes roots b : sys_inv s → valid_sets vss → (sy_next s + Z.of_nat (length vss) ≤ u64_max)%Z →
  hash_caches_ok (prev_map (sy_hist s) (sy_next s)) vss
    (match node_hashes with Some hs => Some <$> hs | None => replicate (length vss) None end) →
  batch_put_value_sets leaf_count_migration (sy_store s) vss node_hashes (sy_next s) = Ok (roots, b) →
  sys_inv (mkSystem (node_batch b ∪ sy_store s) (stale_node_index_batch b ∪ sy_index s) (sy_next s + Z.of_nat (length vss))
    (hist_app (sy_hist s) (sy_next s) (states (prev_map (sy_hist s) (sy_next s)) vss)) (sy_worker s) (sy_channel s)).
Proof using.
  intros (least & Hdb & Hl & Hwl & Ht & Hc) Hv Hmax Hhc Hrun.
  destruct (batch_refines false leaf_count_migration _ _ _ _ _ vss node_hashes Hdb Hmax Hv Hhc) as (b' & Hrun' & _ & Hdb').
  rewrite Hrun in Hrun'. injection Hrun' as -> ->. exists least. pose proof (window_mono (sy_next s) (sy_next s + Z.of_nat (length vss)) ltac:(lia)).
  cbn. split_and!; try (done || lia). eapply Forall_impl; [exact Hc|]. intros [|v]; cbn; [done|lia].
Qed.
Lemma wake_inv s cmd : sys_inv s → (0 < sy_next s)%Z → wake historical_versions_to_keep (sy_next s - 1) = Some cmd →
  sys_inv (mkSystem (sy_store s) (sy_index s) (sy_next s) (sy_hist s) (sy_worker s) (sy_channel s ++ [cmd])).
Proof using.
  intros (least & Hdb & Hl & Hwl & Ht & Hc) Hn Hw. exists least. split_and!; try done; [apply Hwl..|]. apply Forall_app. split; [done|]. constructor; [|done].
  unfold wake in Hw. case_match eqn:Hgt; [|done]. injection Hw as <-. cbn. unfold window_start. lia.
Qed.
Lemma receive_target next w channel b w' channel' : receive_commands w channel = Some (b, w', channel') →
  (w_target_least_readable_version w ≤ window_start next)%Z → Forall (command_ok next) channel →
  (w_target_least_readable_version w' ≤ window_start next)%Z ∧ w_least_readable_version w' = w_least_readable_version w ∧ Forall (command_ok next) channel'.
Proof using.
  revert w. induction channel as [|[|v] channel IH]; intros w; cbn [receive_commands].
  - case_match; [done|]. by intros [= <- <- <-].
  - intros [= <- <- <-] Ht Hc. apply Forall_cons in Hc as [_ Hc]. done.
  - intros Hr Ht Hc. apply Forall_cons in Hc as [Hv Hc]. cbn in Hv. apply IH in Hr; [|by case_match|done].
    destruct Hr as (? & Hl & ?). split_and!; [done| |done]. rewrite Hl. by case_match.
Qed.
Lemma work_inv s w db : sys_inv s → work_round (sy_worker s) (sy_store s) (sy_index s) = (w, db) →
  sys_inv (mkSystem db (sy_index s) (sy_next s) (sy_hist s) w (sy_channel s)).
Proof using.
  intros (least & Hdb & Hl & Hwl & Ht & Hc) Hr. destruct (work_round_spec _ _ _ _ _ Hr) as (Ht' & _ & Hp).
  apply prune_state_spec in Hp as [(Hl' & -> & _)|(Hl' & (k & Hk) & Hsub & Hdel & _)].
  - exists least. cbn. rewrite Ht', Hl'. done.
  - exists (Z.max least (w_least_readable_version w)). cbn. rewrite Ht'. split_and!; try (done || lia).
    destruct (db_index _ _ _ _ _ _ Hdb _ _ Hk) as [? _]. apply (db_prune false (sy_store s)); [done|lia|done|]. intros k' s' Hs' Hin. apply (Hdel s' k'); [lia|done].
Qed.
Lemma purge_inv s interval_passed w index : sys_inv s → maybe_purge_index interval_passed (sy_worker s) (sy_index s) = (w, index) →
  sys_inv (mkSystem (sy_store s) index (sy_next s) (sy_hist s) w (sy_channel s)).
Proof using.
  intros (least & Hdb & Hl & Hwl & Ht & Hc) Hp. unfold maybe_purge_index in Hp. case_match; injection Hp as <- <-; [|by exists least].
  exists least. cbn. split_and!; try (done || lia). destruct Hdb as [Hb Hs Htr Hv Hi Hlv]. split; [done..| |].
  - intros s' k [_ Hin]%elem_of_filter. by apply Hi.
  - intros k Hk. destruct (Hlv k Hk) as [|(s' & Hs' & Hin)]; [by left|]. right. exists s'. split; [done|]. apply elem_of_filter. split; [|done]. cbn.
    destruct Hb as [Hb1 Hb2]. destruct (Hi s' k Hin) as [Hs'' _]. unfold wrap64. rewrite Z.mod_small by (unfold u64_max in *; lia). lia.
Qed.

(** The root of the first readable version is the first stale node that is left. *)
Lemma next_stale store index least next hist : db_ok false store index least next hist → (least + 1 < next)%Z → (least + 1, node_key least [])%Z ∈ index.
Proof using.
  intros Hdb Hln. destruct (db_tree _ _ _ _ _ _ Hdb least ltac:(destruct (db_bounds _ _ _ _ _ _ Hdb); lia)) as [Ht _].
  destruct (tree_root_hash _ _ _ _ _ Ht) as (n & Hn & _).
  destruct (db_live _ _ _ _ _ _ Hdb (node_key least [])) as [Hr|(s & Hs & Hin)]; [by eauto|..].
  - destruct (db_tree _ _ _ _ _ _ Hdb (next - 1)%Z ltac:(lia)) as [Ht' _]. eapply reach_root_inv in Hr; [|constructor|exact Ht'|done]. injection Hr as Hr. lia.
  - destruct (db_index _ _ _ _ _ _ Hdb s _ Hin) as (Hsn & _ & Hr & _). specialize (Hr Hs).
    destruct (db_tree _ _ _ _ _ _ Hdb (s - 1)%Z ltac:(lia)) as [Ht' _]. eapply reach_root_inv in Hr; [|constructor|exact Ht'|done]. injection Hr as Hr.
    by replace (least + 1)%Z with s by lia.
Qed.
Lemma initial_least store index least next hist : db_ok false store index least next hist →
  ∃ l, get_least_readable_version index = Ok l ∧ (0 ≤ l ≤ least)%Z.
Proof using.
  intros Hdb. pose proof (db_bounds _ _ _ _ _ _ Hdb) as [Hb1 Hb2]. unfold get_least_readable_version.
  destruct (index_versions index) as [|s l] eqn:Hi; cbn [head]; [exists 0%Z; split; [done|lia]|].
  assert (Hmin : ∀ s' k, (s', k) ∈ index → (s ≤ s')%Z).
  { intros s' k Hin. assert (s' ∈ index_versions index) as Hs' by (apply index_versions_elem; eauto). pose proof (index_versions_sorted index) as Hsort.
    rewrite Hi in Hs', Hsort. apply StronglySorted_inv in Hsort as [_ Hf]. apply elem_of_cons in Hs' as [->|Hs']; [lia|].
    apply (proj1 (Forall_forall _ _) Hf) in Hs'. lia. }
  assert (∃ k, (s, k) ∈ index) as [k Hk] by (apply index_versions_elem; rewrite Hi; left).
  destruct (db_index _ _ _ _ _ _ Hdb s k Hk) as [Hs _]. exists (s - 1)%Z. unfold checked_sub. rewrite (proj2 (Z.leb_le _ _)) by lia. split; [done|].
  split; [lia|]. destruct (decide (least + 1 < next)%Z) as [Hln|]; [|lia]. specialize (Hmin _ _ (next_stale _ _ _ _ _ Hdb Hln)). lia.
Qed.
Lemma restart_inv s w : sys_inv s → initialize Worker_new (sy_index s) = Ok w →
  sys_inv (mkSystem (sy_store s) (sy_index s) (sy_next s) (sy_hist s) w []).
Proof using.
  intros (least & Hdb & Hl & Hwl & Ht & Hc) Hi. destruct (initial_least _ _ _ _ _ Hdb) as (l & Hl' & Hle). unfold initialize in Hi. rewrite Hl' in Hi.
  injection Hi as <-. exists least. cbn. split_and!; try (done || lia).
Qed.

Lemma sys_step_inv s s' : sys_inv s → sys_step s s' → sys_inv s'.
Proof using.
  intros HI Hs. destruct Hs as [s vss nh roots b Hv Hmax Hhc Hrun|s cmd Hn Hw|s w ch Hr|s w db Hr|s ip w index Hp|s w Hi].
  - by eapply sys_commit_inv.
  - by apply wake_inv.
  - destruct HI as (least & Hdb & Hl & Hwl & Ht & Hc). destruct (receive_target _ _ _ _ _ _ Hr Ht Hc) as (? & Hwl' & ?). exists least. cbn. by rewrite Hwl'.
  - by apply work_inv.
  - by eapply purge_inv.
  - by apply restart_inv.
Qed.
Lemma reachable_inv s : rtc sys_step init_system s → sys_inv s.
Proof using Hkeep.
  intros Hr. assert (∀ s1 s2, rtc sys_step s1 s2 → sys_inv s1 → sys_inv s2) as H.
  { clear. induction 1; [done|]. intros. eauto using sys_step_inv. }
  eapply H; [exact Hr|apply init_inv].
Qed.
End system.

(** ** Theorems *)

(** C10: the pruning window.  Whatever the order in which batches are committed, the pruner is
    woken, its worker receives commands, prunes, purges the index and is restarted: every version
    of the window (the latest one and the [historical_versions_to_keep] before it) serves every key
    with the value committed and a proof that verifies against its root hash, and a query for any
    other version either does so too or fails because the root is missing, and never returns a
    wrong answer. *)
Theorem window_always_served `{C : Crypto} {V : Type} `{HV : CryptoHash V} `{MH : MerkleHasher} `{LH : SparseLeafHasher}
    leaf_count_migration historical_versions_to_keep (s : System (V:=V)) v key :
  (0 ≤ historical_versions_to_keep)%Z → rtc (sys_step leaf_count_migration historical_versions_to_keep) init_system s →
  let m := sy_hist s v in
  let served := get_with_proof (sy_store s) key v = Ok (m !! key, state_proof m key) ∧ get_root_hash (sy_store s) v = Ok (state_root m) ∧
    SparseMerkleProof_verify (state_proof m key) (state_root m) key (crypto_hash <$> m !! key) = Ok () in
  ((window_start historical_versions_to_keep (sy_next s) ≤ v < sy_next s)%Z → served) ∧
  (served ∨ get_with_proof (sy_store s) key v = Err MissingRootError).
Proof.
  intros Hk (least & Hdb & Hl & _)%reachable_inv m served; [|done].
  assert (Hserved : (least ≤ v < sy_next s)%Z → served).
  { intros Hv. destruct (db_read _ _ _ _ _ _ v key Hdb Hv). split_and!; [done|by eapply db_root_hash|done]. }
  split; [intros; apply Hserved; lia|]. destruct (decide (least ≤ v < sy_next s)%Z); [left; auto|right]. by eapply db_unreadable.
Qed.


Section sample.
#[local] Existing Instances sample_merkle_hasher sample_leaf_hasher sample_value_hash ref_crypto.

(** Two versions are committed, the pruner is told to keep the latest only, and prunes. *)
Lemma sample_system : ∃ s : System (V:=Z), rtc (sys_step true 0) init_system s ∧ sy_next s = 2%Z ∧ sy_hist s = hist_app (λ _, ∅) 0 sample_maps.
Proof.
  destruct (batch_refines false true ∅ ∅ 0 0 (λ _, ∅) sample_sets None (empty_db Z false) ltac:(unfold u64_max; simpl; lia) sample_valid sample_caches) as (b & Hb & _).
  destruct (work_round (mkWorker 1 0 false 0) (node_batch b ∪ ∅) (stale_node_index_batch b ∪ ∅)) as [w db] eqn:Hw.
  eexists. split.
  - eapply rtc_l; [eapply (step_commit true 0 init_system sample_sets None); [exact sample_valid|unfold u64_max; simpl; lia|exact sample_caches|exact Hb]|].
    eapply rtc_l; [eapply (step_wake _ _ _ (Prune 1)); [done|reflexivity]|].
    eapply rtc_l; [eapply (step_receive _ _ _ (mkWorker 1 0 false 0) []); reflexivity|].
    eapply rtc_l; [eapply step_work; exact Hw|]. apply rtc_refl.
  - split; reflexivity.
Qed.
Lemma window_always_served_witness :
  ∃ s : System (V:=Z), sy_hist s 1 !! (5 * 2 ^ 232)%Z = Some 4%Z ∧
    get_with_proof (sy_store s) (5 * 2 ^ 232) 1 = Ok (sy_hist s 1 !! (5 * 2 ^ 232)%Z, state_proof (sy_hist s 1) (5 * 2 ^ 232)).
Proof.
  destruct sample_system as (s & Hr & Hn & Hh). exists s. split; [rewrite Hh; vm_compute; reflexivity|].
  apply (window_always_served true 0 s 1 (5 * 2 ^ 232) ltac:(lia) Hr). rewrite Hn. vm_compute. split; [discriminate|reflexivity].
Defined.
End sample.
