(* ===== verification/AccumulatorStore.v ===== *)
(** * AccumulatorStore: the accumulator persisted in a key-value store

    Models src/storage/accumulator/src/lib.rs: appending leaves to an accumulator whose
    frozen nodes are in a storage, and the proofs served from it.  The trait [HashReader] is
    a class; the storage the writes of [append] go to is a finite map by position.  The
    [while] loops run on a bound of iterations: a path has at most 64 nodes, and a walk over
    the frozen subtrees of two sizes of an accumulator at most 128; the theorems show that
    the bounds are not reached.  The second part proves that what is stored and served is
    that of the Merkle tree over the list of leaves. *)

From S2P Require Import Prelude Bits Crypto Accumulator AccumulatorFacts ConsistencyFacts Position PositionFacts.
From S2P Require Import LedgerTypes AccumulatorProof ProofFacts.

Class HashReader (R : Type) := reader_get : R → Position → AnyResult HashValue.
#[export] Hint Mode HashReader ! : typeclass_instances.

(** A storage of the nodes by their position. *)
#[export] Instance node_map_reader : HashReader (gmap Position HashValue) :=
  λ nodes position, ok_or (nodes !! position) "Node not found.".

(** A node is a hash at a position. *)
Abbreviation Node := (Position * HashValue)%type (only parsing).

Section view.
Context `{MH : MerkleHasher} {R : Type} `{HR : HashReader R}.
Implicit Types reader : R.

Definition hash_internal_node (left right : HashValue) : HashValue := merkle_node left right.

(** The left sibling of [pos], taken from the nodes made by this call or from the storage;
    [left_siblings] has its last element first. *)
Definition take_left_sibling reader (left_siblings : list Node) (sibling : Position)
    : AnyResult (HashValue * list Node) :=
  match left_siblings with
  | (x, left_hash) :: left_siblings =>
      if x =? sibling then Ok (left_hash, left_siblings)
      else Panic "assertion failed: `(left == right)`"
  | [] => let? left_hash := reader_get reader sibling in Ok (left_hash, [])
  end.

(** The loop [while pos.is_right_child()] of [append]; [to_freeze] are the nodes of this
    loop. *)
Fixpoint freeze_loop (fuel : nat) reader (pos : Position) (hash : HashValue)
    (left_siblings : list Node)
    : AnyResult (Position * HashValue * list Node * list Node) :=
  if is_right_child pos then
    match fuel with
    | O => Panic "the loop did not finish"
    | S fuel =>
        let? (left_hash, left_siblings) := take_left_sibling reader left_siblings (sibling pos) in
        let hash := hash_internal_node left_hash hash in
        let pos := parent pos in
        let? (p, h, left_siblings, to_freeze) := freeze_loop fuel reader pos hash left_siblings in
        Ok (p, h, left_siblings, (pos, hash) :: to_freeze)
    end
  else Ok (pos, hash, left_siblings, []).

(** The iteration of [append] for one leaf. *)
Definition append_leaf reader (leaf_index : Z) (left_siblings to_freeze : list Node)
    (leaf : HashValue) : AnyResult (list Node * list Node) :=
  let leaf_pos := from_leaf_index leaf_index in
  let? (pos, hash, left_siblings, frozen) := freeze_loop 64 reader leaf_pos leaf left_siblings in
  Ok ((pos, hash) :: left_siblings, to_freeze ++ (leaf_pos, leaf) :: frozen).

Fixpoint append_leaves reader (leaf_index : Z) (left_siblings to_freeze : list Node)
    (leaves : list HashValue) : AnyResult (list Node * list Node) :=
  match leaves with
  | [] => Ok (left_siblings, to_freeze)
  | leaf :: leaves =>
      let? (left_siblings, to_freeze) := append_leaf reader leaf_index left_siblings to_freeze leaf in
      append_leaves reader (wrap64 (leaf_index + 1)) left_siblings to_freeze leaves
  end.

(** The loop [for _ in pos.level()..root_level] that completes the root hash. *)
Fixpoint complete_root (steps : nat) reader (pos : Position) (hash : HashValue)
    (left_siblings : list Node)
    : AnyResult (HashValue * list Node) :=
  match steps with
  | O => Ok (hash, left_siblings)
  | S steps =>
      if is_left_child pos then
        complete_root steps reader (parent pos)
          (hash_internal_node hash ACCUMULATOR_PLACEHOLDER_HASH) left_siblings
      else
        let? (left_hash, left_siblings) := take_left_sibling reader left_siblings (sibling pos) in
        complete_root steps reader (parent pos) (hash_internal_node left_hash hash) left_siblings
  end.

Definition rightmost_leaf_index (num_leaves : Z) : Z := wrap64 (num_leaves - 1).

(** [get_hash]; the recursion goes down one level at a time. *)
Fixpoint get_hash_rec (fuel : nat) reader (num_leaves : Z) (position : Position)
    : AnyResult HashValue :=
  let idx := rightmost_leaf_index num_leaves in
  if is_placeholder position idx then Ok ACCUMULATOR_PLACEHOLDER_HASH
  else if is_freezable position idx then reader_get reader position
  else
    match fuel with
    | O => Panic "the recursion did not finish"
    | S fuel =>
        let? left_pos := left_child position in
        let? left_hash := get_hash_rec fuel reader num_leaves left_pos in
        let? right_pos := right_child position in
        let? right_hash := get_hash_rec fuel reader num_leaves right_pos in
        Ok (hash_internal_node left_hash right_hash)
    end.
Definition get_hash reader (num_leaves : Z) (position : Position) : AnyResult HashValue :=
  get_hash_rec 63 reader num_leaves position.

Fixpoint get_hashes reader (num_leaves : Z) (positions : list Position)
    : AnyResult (list HashValue) :=
  match positions with
  | [] => Ok []
  | p :: positions =>
      let? h := get_hash reader num_leaves p in
      let? hs := get_hashes reader num_leaves positions in
      Ok (h :: hs)
  end.

Definition get_root_hash reader (num_leaves : Z) : AnyResult HashValue :=
  let? root := root_from_leaf_count num_leaves in get_hash reader num_leaves root.

(** [MerkleAccumulator::append]: the new root hash and the nodes to freeze. *)
Definition MerkleAccumulator_append reader (num_leaves : Z) (new_leaves : list HashValue)
    : AnyResult (HashValue * list Node) :=
  match new_leaves with
  | [] =>
      if num_leaves =? 0 then Ok (ACCUMULATOR_PLACEHOLDER_HASH, [])
      else let? root_hash := get_root_hash reader num_leaves in Ok (root_hash, [])
  | _ :: _ =>
      let last_new_leaf_count := wrap64 (num_leaves + Z.of_nat (length new_leaves)) in
      let? root_level := root_level_from_leaf_count last_new_leaf_count in
      let? (left_siblings, to_freeze) := append_leaves reader num_leaves [] [] new_leaves in
      let? (top, left_siblings) :=
        expect (match left_siblings with x :: l => Some (x, l) | [] => None end)
          "Must have at least one node" in
      let '(pos, hash) := top in
      let? (hash, left_siblings) :=
        complete_root (Z.to_nat (root_level - level pos)) reader pos hash left_siblings in
      match left_siblings with
      | [] => Ok (hash, to_freeze)
      | _ => Panic "assertion failed: left_siblings.is_empty()"
      end
  end.

(** [iter_ancestor_sibling().take(n)] *)
Fixpoint ancestor_siblings (n : nat) (p : Position) : list Position :=
  match n with
  | O => []
  | S n => let '(s, p) := AncestorSiblingIterator_next p in s :: ancestor_siblings n p
  end.

Definition get_sibling_positions (num_leaves leaf_index : Z) (keep : Position → bool)
    : AnyResult (list Position) :=
  let? root_pos := root_from_leaf_count num_leaves in
  Ok (filter (λ p, keep p = true)
        (ancestor_siblings (Z.to_nat (level root_pos)) (from_leaf_index leaf_index))).

Definition get_siblings reader (num_leaves leaf_index : Z) (keep : Position → bool)
    : AnyResult (list HashValue) :=
  let? positions := get_sibling_positions num_leaves leaf_index keep in
  get_hashes reader num_leaves positions.

(** [MerkleAccumulator::get_proof] *)
Definition get_proof reader (num_leaves leaf_index : Z) : AnyResult AccumulatorProof :=
  ensure (leaf_index <? num_leaves) "invalid leaf_index" ;?
  get_siblings reader num_leaves leaf_index (λ _, true).

(** [iter.map(|p| self.reader.get(p)).collect()] over the sibling subtrees. *)
Fixpoint read_subtree_siblings (fuel : nat) reader (it : FrozenSubtreeSiblingIterator)
    : AnyResult (list HashValue) :=
  match FrozenSubtreeSiblingIterator_next it with
  | None => Ok []
  | Some (p, it) =>
      match fuel with
      | O => Panic "the loop did not finish"
      | S fuel =>
          let? h := reader_get reader p in
          let? hs := read_subtree_siblings fuel reader it in
          Ok (h :: hs)
      end
  end.

(** [MerkleAccumulator::get_consistency_proof] *)
Definition get_consistency_proof reader (num_leaves sub_acc_leaves : Z)
    : AnyResult (list HashValue) :=
  ensure (sub_acc_leaves <=? num_leaves)
    "Can't get accumulator consistency proof for a version newer than the local version." ;?
  let? it := FrozenSubtreeSiblingIterator_new sub_acc_leaves num_leaves in
  read_subtree_siblings 128 reader it.

(** [MerkleAccumulator::get_range_proof_positions] *)
Definition get_range_proof_positions (full_acc_leaves : Z) (first_leaf_index : option Z)
    (num_leaves : Z) : AnyResult (list Position * list Position) :=
  match first_leaf_index with
  | None =>
      ensure (num_leaves =? 0) "num_leaves is not zero while first_leaf_index is None." ;?
      Ok ([], [])
  | Some first_leaf_index =>
      ensure (0 <? num_leaves) "num_leaves is zero while first_leaf_index is not None." ;?
      let? last_leaf_index :=
        ok_or (checked_add first_leaf_index (num_leaves - 1)) "Requesting too many leaves." in
      ensure (last_leaf_index <? full_acc_leaves) "Invalid last_leaf_index" ;?
      let? left_siblings := get_sibling_positions full_acc_leaves first_leaf_index is_left_child in
      let? right_siblings := get_sibling_positions full_acc_leaves last_leaf_index is_right_child in
      Ok (left_siblings, right_siblings)
  end.

(** [MerkleAccumulator::get_range_proof] *)
Definition get_range_proof reader (full_acc_leaves : Z) (first_leaf_index : option Z)
    (num_leaves : Z) : AnyResult AccumulatorRangeProof :=
  let? (lefts, rights) := get_range_proof_positions full_acc_leaves first_leaf_index num_leaves in
  let? left_siblings := get_hashes reader full_acc_leaves lefts in
  let? right_siblings := get_hashes reader full_acc_leaves rights in
  Ok (mkAccumulatorRangeProof left_siblings right_siblings).

Fixpoint read_frozen_subtrees (fuel : nat) reader (it : FrozenSubTreeIterator)
    : AnyResult (list HashValue) :=
  match FrozenSubTreeIterator_next it with
  | None => Ok []
  | Some (p, it) =>
      match fuel with
      | O => Panic "the loop did not finish"
      | S fuel =>
          let? h := reader_get reader p in
          let? hs := read_frozen_subtrees fuel reader it in
          Ok (h :: hs)
      end
  end.

(** [MerkleAccumulator::get_frozen_subtree_hashes] *)
Definition get_frozen_subtree_hashes reader (num_leaves : Z) : AnyResult (list HashValue) :=
  read_frozen_subtrees 64 reader (FrozenSubTreeIterator_new num_leaves).
End view.

(** Writing the frozen nodes that [append] returned. *)
Definition write_nodes (nodes : list Node) (store : gmap Position HashValue)
    : gmap Position HashValue :=
  list_to_map (reverse nodes) ∪ store.

(** ** The levels of the tree *)

Section levels.
Context `{MH : MerkleHasher}.

Lemma up_S k l : up (S k) l = pairs (up k l).
Proof. revert l. induction k as [|k IH]; intros l; [done|]. apply IH. Qed.

Lemma up_pad_S k l : up_pad (S k) l = pairs_pad (up_pad k l).
Proof. revert l. induction k as [|k IH]; intros l; [done|]. apply IH. Qed.

Lemma up_add j k l : up (j + k) l = up k (up j l).
Proof. revert l. induction j as [|j IH]; intros l; [done|]. apply IH. Qed.

Lemma pairs_lookup_inv l j h :
  pairs l !! j = Some h →
  ∃ a b, l !! (2 * j)%nat = Some a ∧ l !! (2 * j + 1)%nat = Some b ∧ h = merkle_node a b.
Proof.
  revert j. induction l as [|a|a b l IH] using list_pair_ind; intros j; [done..|].
  destruct j as [|j]; simpl.
  - intros [= <-]. by exists a, b.
  - intros (a' & b' & Ha & Hb & ->)%IH. exists a', b'.
    replace (j + S (j + 0))%nat with (S (2 * j)) by lia.
    replace (S (2 * j) + 1)%nat with (S (2 * j + 1)) by lia. done.
Qed.

(** The nodes without padding are the first ones of a padded level, and appending leaves
    keeps them. *)
Lemma up_lookup_pad k l q h : up k l !! q = Some h → up_pad k l !! q = Some h.
Proof.
  revert q h. induction k as [|k IH]; intros q h; [done|].
  rewrite up_S, up_pad_S. intros (a & b & Ha & Hb & ->)%pairs_lookup_inv.
  rewrite (pairs_pad_lookup_Some _ _ a) by auto. by rewrite (IH _ _ Hb).
Qed.

Lemma up_lookup_app k l l' q h : up k l !! q = Some h → up k (l ++ l') !! q = Some h.
Proof.
  revert q h. induction k as [|k IH]; intros q h; [apply lookup_app_l_Some|].
  rewrite !up_S. intros (a & b & Ha & Hb & ->)%pairs_lookup_inv. by apply pairs_lookup; apply IH.
Qed.

Lemma up_length_div k l : length (up k l) = (length l / 2 ^ k)%nat.
Proof.
  induction k as [|k IH]; [by rewrite Nat.div_1_r|].
  rewrite up_S, pairs_length, IH, Nat.div2_div, Nat.Div0.div_div. f_equal. simpl. lia.
Qed.

Lemma up_pad_length_div k l : length (up_pad k l) = ((length l + (2 ^ k - 1)) / 2 ^ k)%nat.
Proof.
  induction k as [|k IH]; [by rewrite Nat.div_1_r, Nat.add_0_r|].
  rewrite up_pad_S, pairs_pad_length, IH, Nat.div2_div.
  pose proof (Nat.pow_nonzero 2 k ltac:(lia)).
  replace (S ((length l + (2 ^ k - 1)) / 2 ^ k))
    with ((length l + (2 ^ k - 1) + 1 * 2 ^ k) / 2 ^ k)%nat by (rewrite Nat.div_add; lia).
  rewrite Nat.Div0.div_div. f_equal; simpl; lia.
Qed.
End levels.

(** ** Reading nodes *)

Section reading.
Context `{MH : MerkleHasher} {R : Type} `{HR : HashReader R}.
Implicit Types reader : R.

Definition store_holds reader (l : list HashValue) : Prop :=
  ∀ k q h, up k l !! q = Some h →
    reader_get reader (node_at (Z.of_nat k) (Z.of_nat q)) = Ok h.

(** The hash of the node [q] of level [k]. *)
Definition node_hash (l : list HashValue) (k q : nat) : HashValue :=
  default ACCUMULATOR_PLACEHOLDER_HASH (up_pad k l !! q).

Lemma pow2_nat k : 2 ^ Z.of_nat k = Z.of_nat (2 ^ k).
Proof. by rewrite Nat2Z.inj_pow. Qed.

Lemma up_pad_lookup_None k l q : up_pad k l !! q = None ↔ (length l ≤ q * 2 ^ k)%nat.
Proof.
  rewrite lookup_ge_None, up_pad_length_div. pose proof (Nat.pow_nonzero 2 k ltac:(lia)).
  split; intros Hq.
  - pose proof (Nat.mul_succ_div_gt (length l + (2 ^ k - 1)) (2 ^ k) ltac:(lia)). nia.
  - apply Nat.lt_succ_r, Nat.Div0.div_lt_upper_bound. nia.
Qed.

Lemma up_lookup_is_Some k l q : is_Some (up k l !! q) ↔ ((q + 1) * 2 ^ k ≤ length l)%nat.
Proof.
  rewrite lookup_lt_is_Some, up_length_div. pose proof (Nat.pow_nonzero 2 k ltac:(lia)).
  split; intros Hq.
  - pose proof (Nat.Div0.mul_div_le (length l) (2 ^ k)). nia.
  - apply Nat.le_succ_l. apply Nat.div_le_lower_bound; nia.
Qed.

Lemma get_hash_rec_spec fuel reader l (k q : nat) :
  store_holds reader l → l ≠ [] → Z.of_nat (length l) ≤ 2 ^ 63 →
  in_tree (Z.of_nat k) (Z.of_nat q) → (k ≤ fuel)%nat →
  get_hash_rec fuel reader (Z.of_nat (length l)) (node_at (Z.of_nat k) (Z.of_nat q))
  = Ok (node_hash l k q).
Proof.
  intros Hst Hne Hlen. assert (0 < length l)%nat by (destruct l; simpl; [done|lia]).
  assert (Hr : rightmost_leaf_index (Z.of_nat (length l)) = Z.of_nat (length l) - 1)
    by (unfold rightmost_leaf_index, wrap64; rewrite Z.mod_small; lia).
  assert (Hkind : ∀ k q, in_tree (Z.of_nat k) (Z.of_nat q) →
    is_placeholder (node_at (Z.of_nat k) (Z.of_nat q)) (Z.of_nat (length l) - 1)
      = bool_decide (up_pad k l !! q = None) ∧
    is_freezable (node_at (Z.of_nat k) (Z.of_nat q)) (Z.of_nat (length l) - 1)
      = bool_decide (is_Some (up k l !! q))).
  { intros k' q' Hin. rewrite is_placeholder_node_at, is_freezable_node_at, pow2_nat by (done || lia).
    split; apply eq_true_iff_eq; rewrite Z.leb_le, bool_decide_eq_true.
    - rewrite up_pad_lookup_None. lia.
    - rewrite up_lookup_is_Some. lia. }
  revert fuel q. induction k as [|k IH]; intros fuel q Hin Hf;
    destruct (Hkind _ _ Hin) as [Hp Hfz]; unfold node_hash;
    (destruct fuel as [|fuel]; [try lia|]); cbn [get_hash_rec]; rewrite Hr, Hp, Hfz; clear Hp Hfz;
    (case_bool_decide as Hnone; [by rewrite Hnone|]);
    (case_bool_decide as Hsome; [destruct Hsome as [h Hh]; by rewrite (up_lookup_pad _ _ _ _ Hh), (Hst _ _ _ Hh)|]).
  1, 2: exfalso; apply Hsome; simpl in *; by destruct (l !! q).
  unfold left_child, right_child. rewrite !child_node_at by (done || lia). cbn [r_bind].
  destruct (in_tree_child _ _ 0 Hin ltac:(lia) ltac:(lia)) as [Hk0 Hq0].
  destruct (in_tree_child _ _ 1 Hin ltac:(lia) ltac:(lia)) as [Hk1 Hq1].
  replace (Z.of_nat (S k) - 1) with (Z.of_nat k) in * by lia.
  replace (2 * Z.of_nat q + 0) with (Z.of_nat (2 * q)) in * by lia.
  replace (2 * Z.of_nat q + 1) with (Z.of_nat (2 * q + 1)) in * by lia.
  rewrite !IH by (done || lia). cbn [r_bind]. f_equal. rewrite up_pad_S in *.
  destruct (pairs_pad (up_pad k l) !! q) as [h|] eqn:Hh; [|done].
  apply pairs_pad_lookup in Hh as (a & Ha & ->). unfold node_hash. by rewrite Ha.
Qed.

Lemma get_hash_spec reader l (k q : nat) :
  store_holds reader l → l ≠ [] → Z.of_nat (length l) ≤ 2 ^ 63 →
  in_tree (Z.of_nat k) (Z.of_nat q) →
  get_hash reader (Z.of_nat (length l)) (node_at (Z.of_nat k) (Z.of_nat q)) = Ok (node_hash l k q).
Proof. intros ??? Hin. apply get_hash_rec_spec; try done. destruct Hin as [? _]. lia. Qed.

(** *** The root *)

Lemma log2_up_of_nat n : (0 < n)%nat → Z.log2_up (Z.of_nat n) = Z.of_nat (Nat.log2_up n).
Proof.
  intros Hn. destruct (decide (n = 1)%nat) as [->|Hne]; [done|].
  pose proof (Nat.log2_up_spec n ltac:(lia)) as [Hlo Hhi].
  pose proof (Nat.log2_up_pos n ltac:(lia)).
  apply Z.log2_up_unique; [lia|]. rewrite pow2_nat.
  replace (Z.pred (Z.of_nat (Nat.log2_up n))) with (Z.of_nat (Nat.pred (Nat.log2_up n))) by lia.
  rewrite pow2_nat. lia.
Qed.

Lemma root_position (l : list HashValue) :
  l ≠ [] → Z.of_nat (length l) ≤ 2 ^ 63 →
  let d := Nat.log2_up (length l) in
  (d ≤ 63)%nat ∧ (length l ≤ 2 ^ d)%nat ∧
  root_from_leaf_count (E:=string) (Z.of_nat (length l)) = Ok (node_at (Z.of_nat d) 0) ∧
  root_level_from_leaf_count (E:=string) (Z.of_nat (length l)) = Ok (Z.of_nat d).
Proof.
  intros Hne Hlen d. assert (0 < length l)%nat by (destruct l; simpl; [done|lia]).
  assert (Hd : (d ≤ 63)%nat) by (by apply log2_up_le_63).
  assert (Hin : in_tree (Z.of_nat d) 0) by (split; lia).
  destruct (root_from_leaf_count_spec (Z.of_nat (length l))) as (root & Hr & Hlv & Hl & Hroot & _).
  { change MAX_ACCUMULATOR_LEAVES with (2 ^ 63). lia. }
  rewrite log2_up_of_nat in * by lia. rewrite from_level_and_pos_node_at in Hroot by done.
  rewrite Hl in Hlv. split_and!; [done| |by rewrite Hr, Hroot|done].
  destruct (decide (length l = 1)%nat); [pose proof (Nat.pow_nonzero 2 d); lia|].
  apply Nat.log2_up_spec. lia.
Qed.

Lemma node_hash_root l : node_hash l (Nat.log2_up (length l)) 0 = merkle_root l.
Proof.
  unfold node_hash, merkle_root. rewrite <- (Nat.add_0_r (Nat.log2_up (length l))) at 2.
  rewrite root_at_add. simpl. by destruct (up_pad _ l).
Qed.

Lemma get_root_hash_spec reader l :
  store_holds reader l → l ≠ [] → Z.of_nat (length l) ≤ 2 ^ 63 →
  get_root_hash reader (Z.of_nat (length l)) = Ok (merkle_root l).
Proof.
  intros Hst Hne Hlen. destruct (root_position l Hne Hlen) as (Hd & _ & Hr & _).
  unfold get_root_hash. rewrite Hr. cbn [r_bind]. rewrite <- node_hash_root.
  apply (get_hash_spec reader l _ 0); try done. split; lia.
Qed.

(** *** Siblings on the path of a leaf *)

Definition sibling_index (q : nat) : nat := if Nat.even q then (q + 1)%nat else (q - 1)%nat.

(** The hashes of the siblings from the node [q] of level [k] up, those kept for which the
    node is a left child ([keep true]) or a right child ([keep false]). *)
Fixpoint sibling_hashes (keep : bool → bool) (d : nat) (l : list HashValue) (k q : nat)
    : list HashValue :=
  match d with
  | O => []
  | S d =>
      (if keep (Nat.even q) then [node_hash l k (sibling_index q)] else [])
      ++ sibling_hashes keep d l (S k) (q / 2)
  end.

Lemma even_of_nat n : Z.even (Z.of_nat n) = Nat.even n.
Proof.
  apply eq_true_iff_eq. rewrite Z.even_spec, Nat.even_spec. split; intros [c Hc].
  - exists (Z.to_nat c). lia.
  - exists (Z.of_nat c). lia.
Qed.

Lemma sibling_nat (k q : nat) :
  in_tree (Z.of_nat k) (Z.of_nat q) → (k < 63)%nat →
  sibling (node_at (Z.of_nat k) (Z.of_nat q)) = node_at (Z.of_nat k) (Z.of_nat (sibling_index q)) ∧
  in_tree (Z.of_nat k) (Z.of_nat (sibling_index q)) ∧
  is_left_child (node_at (Z.of_nat k) (Z.of_nat (sibling_index q))) = negb (Nat.even q) ∧
  parent (node_at (Z.of_nat k) (Z.of_nat q)) = node_at (Z.of_nat (S k)) (Z.of_nat (q / 2)) ∧
  in_tree (Z.of_nat (S k)) (Z.of_nat (q / 2)).
Proof.
  intros Hin Hk. destruct (sibling_bounds _ _ Hin ltac:(lia)) as (Hs & _ & Hev).
  assert (Hx : Z.lxor (Z.of_nat q) 1 = Z.of_nat (sibling_index q)).
  { rewrite lxor_1 by lia. unfold sibling_index.
    rewrite even_of_nat. destruct (Nat.even q) eqn:He; [lia|]. destruct q; [done|]. lia. }
  assert (Hq2 : Z.of_nat (q / 2) = Z.of_nat q / 2) by (by rewrite Nat2Z.inj_div).
  rewrite Hx in *. rewrite sibling_node_at, Hx by (done || lia).
  rewrite is_left_child_node_at, Hev, even_of_nat by (done || lia).
  rewrite parent_node_at by (done || lia). rewrite Hq2.
  replace (Z.of_nat (S k)) with (Z.of_nat k + 1) by lia.
  split_and!; try done. apply in_tree_parent; [done|lia].
Qed.

Lemma sibling_positions_hashes reader l keep keepb d (k q : nat) :
  store_holds reader l → l ≠ [] → Z.of_nat (length l) ≤ 2 ^ 63 →
  in_tree (Z.of_nat k) (Z.of_nat q) → (k + d ≤ 63)%nat →
  (∀ p, keep p = keepb (negb (is_left_child p))) →
  get_hashes reader (Z.of_nat (length l))
    (filter (λ p, keep p = true) (ancestor_siblings d (node_at (Z.of_nat k) (Z.of_nat q))))
  = Ok (sibling_hashes keepb d l k q).
Proof.
  intros Hst Hne Hlen Hin Hd Hkeep. revert k q Hin Hd.
  induction d as [|d IH]; intros k q Hin Hd; [done|].
  destruct (sibling_nat k q Hin ltac:(lia)) as (Hs & Hsin & Hlc & Hp & Hpin).
  cbn [ancestor_siblings AncestorSiblingIterator_next sibling_hashes]. rewrite Hs, Hp.
  specialize (IH _ _ Hpin ltac:(lia)). rewrite filter_cons, (Hkeep (node_at _ _)), Hlc, negb_involutive.
  destruct (keepb (Nat.even q)); [rewrite decide_True by done|rewrite decide_False by done]; [|done].
  cbn [get_hashes]. rewrite get_hash_spec by done. cbn [r_bind]. by rewrite IH.
Qed.

Lemma sibling_hashes_leaf_siblings d l k q :
  sibling_hashes (λ _, true) d l k q = leaf_siblings d (up_pad k l) q.
Proof.
  revert k q. induction d as [|d IH]; intros k q; [done|]. cbn. rewrite IH, up_pad_S. done.
Qed.

Lemma get_proof_spec reader l (i : nat) x :
  store_holds reader l → Z.of_nat (length l) ≤ 2 ^ 63 → l !! i = Some x →
  get_proof reader (Z.of_nat (length l)) (Z.of_nat i)
  = Ok (leaf_siblings (Nat.log2_up (length l)) l i).
Proof.
  intros Hst Hlen Hi. pose proof (lookup_lt_Some _ _ _ Hi).
  assert (Hne : l ≠ []) by (by destruct l).
  destruct (root_position l Hne Hlen) as (Hd & _ & Hr & _).
  unfold get_proof, get_siblings, get_sibling_positions.
  rewrite (proj2 (Z.ltb_lt _ _)) by lia. cbn [r_bind ensure]. rewrite Hr. cbn [r_bind].
  rewrite level_node_at, Nat2Z.id by (split; lia).
  rewrite from_leaf_index_node_at by lia.
  rewrite (sibling_positions_hashes reader l _ (λ _, true) _ 0 i); try done.
  - by rewrite sibling_hashes_leaf_siblings.
  - split; lia.
Qed.
End reading.

(** ** Appending *)

Section appending.
Context `{MH : MerkleHasher} {R : Type} `{HR : HashReader R}.
Implicit Types (reader : R) (l m : list HashValue) (rest : list Node).

(** The roots of the frozen subtrees of the level-[k] nodes [l] with their positions,
    smallest first. *)
Fixpoint frozen_nodes_of (p : positive) (k : nat) l : list Node :=
  match p with
  | xH => (λ x, (node_at (Z.of_nat k) 0, x)) <$> l
  | xO p => frozen_nodes_of p (S k) (pairs l)
  | xI p =>
      match last l with Some x => [(node_at (Z.of_nat k) (2 * Zpos p), x)] | None => [] end
      ++ frozen_nodes_of p (S k) (pairs l)
  end.
Definition frozen_nodes (k : nat) l : list Node :=
  match Z.of_nat (length l) with Zpos p => frozen_nodes_of p k l | _ => [] end.

Lemma frozen_nodes_even k l :
  Nat.Even (length l) → frozen_nodes k l = frozen_nodes (S k) (pairs l).
Proof.
  intros He. apply even_length_pairs in He. unfold frozen_nodes. rewrite He at 1.
  destruct (length (pairs l)) as [|n]; [done|]. rewrite Nat2Z.inj_mul.
  destruct (Z.of_nat (S n)) as [|p|p] eqn:Hp; try lia. done.
Qed.

Lemma frozen_nodes_odd k l x :
  Nat.Even (length l) →
  frozen_nodes k (l ++ [x]) =
    (node_at (Z.of_nat k) (Z.of_nat (length l)), x) :: frozen_nodes (S k) (pairs l).
Proof.
  intros He. pose proof (even_length_pairs l He) as Hl. unfold frozen_nodes.
  rewrite length_app. simpl length. rewrite Hl at 1.
  destruct (length (pairs l)) as [|n] eqn:Hn.
  { destruct l; [done|simpl in Hl; lia]. }
  rewrite Nat2Z.inj_add, Nat2Z.inj_mul.
  destruct (Z.of_nat (S n)) as [|p|p] eqn:Hp; try lia.
  change (Z.of_nat 2 * Zpos p + Z.of_nat 1) with (Zpos (xI p)). cbn [frozen_nodes_of].
  rewrite last_snoc, pairs_snoc_even by done. simpl app. do 3 f_equal. lia.
Qed.

Lemma frozen_nodes_up k l p h :
  (p, h) ∈ frozen_nodes k l →
  ∃ j q, p = node_at (Z.of_nat (k + j)) (Z.of_nat q) ∧ up j l !! q = Some h.
Proof.
  revert k. induction l as [|l Hne He IH|l x He IH] using level_ind; intros k.
  - intros []%not_elem_of_nil.
  - rewrite frozen_nodes_even by done. intros (j & q & -> & Hj)%IH.
    exists (S j), q. by rewrite Nat.add_succ_r.
  - rewrite frozen_nodes_odd by done. intros [[= -> ->]|(j & q & -> & Hj)%IH]%elem_of_cons.
    + exists 0%nat, (length l). rewrite Nat.add_0_r. split; [done|]. by apply list_lookup_middle.
    + exists (S j), q. rewrite Nat.add_succ_r. split; [done|]. simpl. by rewrite pairs_snoc_even.
Qed.

Definition readable reader rest : Prop := ∀ p h, (p, h) ∈ rest → reader_get reader p = Ok h.

Lemma frozen_nodes_readable reader l : store_holds reader l → readable reader (frozen_nodes 0 l).
Proof. intros Hst p h (j & q & -> & Hj)%frozen_nodes_up. by apply Hst. Qed.

Lemma take_left_sibling_spec reader (lefts rest F : list Node) p h :
  lefts ++ rest = (p, h) :: F → readable reader rest →
  ∃ lefts' rest', take_left_sibling reader lefts p = Ok (h, lefts') ∧
    F = lefts' ++ rest' ∧ readable reader rest'.
Proof.
  intros HF Hr. destruct lefts as [|[x y] lefts]; simpl in HF.
  - subst rest. exists [], F. unfold take_left_sibling.
    rewrite (Hr p h) by left. split_and!; [done..|]. intros p' h' Hin. apply Hr. by right.
  - injection HF as -> -> <-. exists lefts, rest. simpl. by rewrite Z.eqb_refl.
Qed.

(** The number of frozen nodes of an accumulator with [n] leaves. *)
Definition frozen_count (n : Z) : Z := 2 * n - count_ones n.

(** The nodes [T] are those that the last of the level-[k] nodes [m ++ [x]] completes. *)
Record completes (k : nat) m x (T : list Node) : Prop := {
  completes_sound : ∀ p h, (p, h) ∈ T →
    ∃ j q, p = node_at (Z.of_nat (k + j)) (Z.of_nat q) ∧ up j (m ++ [x]) !! q = Some h;
  completes_all : ∀ j q h, up j (m ++ [x]) !! q = Some h →
    up j m !! q = Some h ∨ (node_at (Z.of_nat (k + j)) (Z.of_nat q), h) ∈ T;
  completes_order :
    to_postorder_index <$> T.*1
    = seqZ (postorder_at (Z.of_nat k) (Z.of_nat (length m))) (Z.of_nat (length T));
  completes_count :
    postorder_at (Z.of_nat k) (Z.of_nat (length m)) + Z.of_nat (length T)
    = frozen_count ((Z.of_nat (length m) + 1) * 2 ^ Z.of_nat k);
}.

Lemma up_even_snoc j m x : Nat.Even (length m) → (0 < j)%nat → up j (m ++ [x]) = up j m.
Proof. intros He Hj. destruct j as [|j]; [lia|]. simpl. by rewrite pairs_snoc_even. Qed.

Lemma even_double (n : nat) : Nat.Even n → ∃ c, 0 ≤ c ∧ Z.of_nat n = 2 * c.
Proof. intros [c ->]. exists (Z.of_nat c). lia. Qed.

Lemma completes_even k m x :
  Nat.Even (length m) → in_tree (Z.of_nat k) (Z.of_nat (length m)) →
  completes k m x [(node_at (Z.of_nat k) (Z.of_nat (length m)), x)].
Proof.
  intros He Hin. split.
  - intros p h [= -> ->]%list_elem_of_singleton. exists 0%nat, (length m).
    rewrite Nat.add_0_r. split; [done|]. by apply list_lookup_middle.
  - intros [|j] q h; [|rewrite up_even_snoc by (done || lia); auto].
    intros [Hq|[<- [= <-]]]%lookup_snoc_Some; [left; apply Hq|].
    right. rewrite Nat.add_0_r. apply list_elem_of_singleton. done.
  - simpl. by rewrite inorder_to_postorder_node_at.
  - destruct (even_double _ He) as (c & Hc & Heq). unfold frozen_count, postorder_at.
    rewrite Heq, count_ones_mul_pow2, (count_ones_double c), (count_ones_succ_double c) by lia.
    rewrite Z.pow_add_r by lia. simpl length. lia.
Qed.

Lemma postorder_at_parent k q : 0 ≤ k → 0 ≤ q → postorder_at (k + 1) q = postorder_at k (2 * q + 1) + 1.
Proof.
  intros Hk Hq. unfold postorder_at. rewrite count_ones_succ_double by done.
  rewrite (Z.pow_add_r 2 (k + 1)) by lia. lia.
Qed.

Lemma completes_odd k m y x T :
  Nat.Even (length m) → in_tree (Z.of_nat k) (Z.of_nat (length (m ++ [y]))) →
  completes (S k) (pairs m) (merkle_node y x) T →
  completes k (m ++ [y]) x ((node_at (Z.of_nat k) (Z.of_nat (length (m ++ [y]))), x) :: T).
Proof.
  intros He Hin [Hs Ha Ho Hc].
  assert (Hup : ∀ j, up (S j) ((m ++ [y]) ++ [x]) = up j (pairs m ++ [merkle_node y x])).
  { intros j. simpl. rewrite <- app_assoc. simpl. by rewrite pairs_snoc2. }
  assert (Hup' : ∀ j, up (S j) (m ++ [y]) = up j (pairs m)).
  { intros j. simpl. by rewrite pairs_snoc_even. }
  assert (Hlen : Z.of_nat (length (m ++ [y])) = 2 * Z.of_nat (length (pairs m)) + 1).
  { rewrite length_app, (even_length_pairs m He). simpl. lia. }
  assert (Hpost : postorder_at (Z.of_nat (S k)) (Z.of_nat (length (pairs m)))
                  = postorder_at (Z.of_nat k) (Z.of_nat (length (m ++ [y]))) + 1).
  { rewrite Nat2Z.inj_succ, <- Z.add_1_r, postorder_at_parent by lia. by rewrite Hlen. }
  split.
  - intros p h [[= -> ->]|(j & q & -> & Hj)%Hs]%elem_of_cons.
    + exists 0%nat, (length (m ++ [y])). rewrite Nat.add_0_r. split; [done|]. by apply list_lookup_middle.
    + exists (S j), q. rewrite Nat.add_succ_r. split; [done|]. by rewrite Hup.
  - intros [|j] q h.
    + intros [Hq|[<- [= <-]]]%lookup_snoc_Some; [left; apply Hq|]. right. rewrite Nat.add_0_r. left.
    + rewrite Hup, Hup'. intros [Hq|Hq]%Ha; [by left|]. right. right.
      by rewrite Nat.add_succ_r.
  - cbn [fmap list_fmap fst length]. rewrite Ho, Hpost, Nat2Z.inj_succ, (seqZ_cons _ (Z.succ _)) by lia. f_equal.
    + by apply inorder_to_postorder_node_at.
    + f_equal; lia.
  - cbn [length]. rewrite Hpost in Hc. rewrite Nat2Z.inj_succ.
    replace ((Z.of_nat (length (pairs m)) + 1) * 2 ^ Z.of_nat (S k))
      with ((Z.of_nat (length (m ++ [y])) + 1) * 2 ^ Z.of_nat k) in Hc; [lia|].
    rewrite Hlen, Nat2Z.inj_succ, Z.pow_succ_r by lia. lia.
Qed.

Lemma snoc_odd_index m y :
  Nat.Even (length m) →
  sibling_index (length (m ++ [y])) = length m ∧ (length (m ++ [y]) / 2)%nat = length (pairs m).
Proof.
  intros He. rewrite length_app, Nat.add_1_r. split.
  - unfold sibling_index.
    rewrite Nat.even_succ, <- Nat.negb_even, (proj2 (Nat.even_spec _) He). simpl. lia.
  - rewrite (even_length_pairs m He) at 1.
    rewrite <- Nat.add_1_r, Nat.mul_comm, Nat.div_add_l by lia. simpl. lia.
Qed.

Lemma freeze_loop_spec fuel reader (k : nat) m x lefts rest :
  frozen_nodes k m = lefts ++ rest → readable reader rest →
  in_tree (Z.of_nat k) (Z.of_nat (length m)) → (63 ≤ fuel + k)%nat →
  ∃ p h lefts' rest' T,
    freeze_loop fuel reader (node_at (Z.of_nat k) (Z.of_nat (length m))) x lefts
      = Ok (p, h, lefts', T) ∧
    frozen_nodes k (m ++ [x]) = ((p, h) :: lefts') ++ rest' ∧ readable reader rest' ∧
    completes k m x ((node_at (Z.of_nat k) (Z.of_nat (length m)), x) :: T).
Proof.
  revert k m x lefts rest. induction fuel as [|fuel IH]; intros k m x lefts rest HF Hr Hin Hf;
    (assert (Hpos : pos_of (node_at (Z.of_nat k) (Z.of_nat (length m))) (Z.of_nat (length m)))
       by (left; eauto));
    cbn [freeze_loop]; rewrite (pos_of_right_child _ _ Hpos);
    destruct (Nat.Even_or_Odd (length m)) as [He|Ho].
  1, 3: rewrite <- Z.negb_even, even_of_nat, (proj2 (Nat.even_spec _) He); simpl;
    eexists _, _, lefts, rest, []; split; [done|];
    rewrite frozen_nodes_odd, <- frozen_nodes_even, HF by done;
    split_and!; [done..|by apply completes_even].
  all: rewrite <- Z.negb_even, even_of_nat, <- Nat.negb_odd, (proj2 (Nat.odd_spec _) Ho); simpl negb; cbn iota.
  all: apply odd_snoc in Ho as (m' & y & -> & He).
  all: assert (Hlen : Z.of_nat (length (m' ++ [y])) = Z.of_nat (length m') + 1)
    by (rewrite length_app; simpl; lia).
  all: assert (Hk : (k < 63)%nat)
    by (destruct Hin as [Hk Hq]; destruct (decide (k = 63%nat)) as [->|]; [simpl in Hq; lia|lia]).
  - lia.
  - destruct (sibling_nat k _ Hin Hk) as (Hs & _ & _ & Hp & Hpin).
    destruct (snoc_odd_index m' y He) as [Hsi Hh].
    rewrite Hs, Hsi, Hp, Hh in *. rewrite frozen_nodes_odd in HF by done.
    destruct (take_left_sibling_spec reader lefts rest _ _ _ (eq_sym HF) Hr)
      as (lefts1 & rest1 & Ht & HF1 & Hr1).
    rewrite Ht. cbn [r_bind].
    destruct (IH (S k) (pairs m') (merkle_node y x) lefts1 rest1 HF1 Hr1 Hpin ltac:(lia))
      as (p & h & lefts2 & rest2 & T & Hrun & HF2 & Hr2 & Hc).
    unfold hash_internal_node. rewrite Hrun. cbn [r_bind].
    eexists p, h, lefts2, rest2, _. split; [done|]. split_and!; [|done|by apply completes_odd].
    rewrite <- HF2, <- app_assoc. simpl. rewrite frozen_nodes_even.
    + by rewrite pairs_snoc2.
    + rewrite length_app. simpl. destruct He as [c ->]. exists (S c). lia.
Qed.
(** The nodes [T] are the frozen nodes of the leaves [l ++ new] that those of [l] lack. *)
Record adds l (new : list HashValue) (T : list Node) : Prop := {
  adds_sound : ∀ p h, (p, h) ∈ T →
    ∃ j q, p = node_at (Z.of_nat j) (Z.of_nat q) ∧ up j (l ++ new) !! q = Some h;
  adds_all : ∀ j q h, up j (l ++ new) !! q = Some h →
    up j l !! q = Some h ∨ (node_at (Z.of_nat j) (Z.of_nat q), h) ∈ T;
  adds_order :
    to_postorder_index <$> T.*1
    = seqZ (frozen_count (Z.of_nat (length l))) (Z.of_nat (length T));
  adds_count :
    frozen_count (Z.of_nat (length l)) + Z.of_nat (length T)
    = frozen_count (Z.of_nat (length (l ++ new)));
}.

Lemma adds_nil l : adds l [] [].
Proof.
  split; rewrite ?app_nil_r.
  - intros p h []%not_elem_of_nil.
  - auto.
  - done.
  - simpl. lia.
Qed.

Lemma adds_cons l x new T T' : completes 0 l x T → adds (l ++ [x]) new T' → adds l (x :: new) (T ++ T').
Proof.
  intros [Hs Ha Ho Hc] [Hs' Ha' Ho' Hc']. rewrite <- app_assoc in *. simpl app in *.
  assert (Hp0 : postorder_at 0 (Z.of_nat (length l)) = frozen_count (Z.of_nat (length l)))
    by (unfold postorder_at, frozen_count; lia).
  change (Z.of_nat 0) with 0 in *. rewrite Hp0 in *. rewrite length_app in Ho', Hc'. simpl length in *.
  rewrite Z.mul_1_r in Hc. replace (Z.of_nat (length l + 1)) with (Z.of_nat (length l) + 1) in * by lia.
  rewrite <- Hc in *. split.
  - intros p h [(j & q & -> & Hj)%Hs|Hin]%elem_of_app; [|by apply Hs'].
    exists j, q. split; [done|].
    replace (l ++ x :: new) with ((l ++ [x]) ++ new) by (by rewrite <- app_assoc).
    by apply up_lookup_app.
  - intros j q h [Hj|Hj]%Ha'; [apply Ha in Hj as [?|?]|]; rewrite elem_of_app; auto.
  - rewrite fmap_app, fmap_app, Ho, Ho', length_app, Nat2Z.inj_add, seqZ_app by lia. done.
  - rewrite length_app. lia.
Qed.

Lemma append_leaves_spec reader (new : list HashValue) l lefts rest tf :
  frozen_nodes 0 l = lefts ++ rest → readable reader rest →
  Z.of_nat (length l + length new) ≤ 2 ^ 63 →
  ∃ lefts' rest' T,
    append_leaves reader (Z.of_nat (length l)) lefts tf new = Ok (lefts', tf ++ T) ∧
    frozen_nodes 0 (l ++ new) = lefts' ++ rest' ∧ readable reader rest' ∧
    (new ≠ [] → lefts' ≠ []) ∧ adds l new T.
Proof.
  revert l lefts rest tf. induction new as [|x new IH]; intros l lefts rest tf HF Hr Hlen; simpl in Hlen.
  { exists lefts, rest, []. rewrite !app_nil_r. split_and!; try done. apply adds_nil. }
  destruct (freeze_loop_spec 64 reader 0 l x lefts rest) as (p & h & lefts1 & rest1 & T & Hrun & HF1 & Hr1 & Hc);
    [done..|split; lia|lia|].
  destruct (IH (l ++ [x]) ((p, h) :: lefts1) rest1
              (tf ++ (from_leaf_index (Z.of_nat (length l)), x) :: T) HF1 Hr1)
    as (lefts2 & rest2 & T' & Hrun2 & HF2 & Hr2 & Hne & Hadd).
  { rewrite length_app. simpl. lia. }
  cbn [append_leaves]. unfold append_leaf. rewrite from_leaf_index_node_at in * by lia.
  change (Z.of_nat 0) with 0 in Hrun. rewrite Hrun. cbn [r_bind].
  replace (wrap64 (Z.of_nat (length l) + 1)) with (Z.of_nat (length (l ++ [x])))
    by (rewrite length_app; unfold wrap64; rewrite Z.mod_small; simpl; lia).
  rewrite Hrun2. exists lefts2, rest2, (((node_at 0 (Z.of_nat (length l)), x) :: T) ++ T').
  rewrite <- !app_assoc in *. split_and!; try done.
  - intros _ ->. destruct new as [|y new]; [|by apply Hne].
    simpl in Hrun2. by injection Hrun2.
  - by apply adds_cons.
Qed.

Lemma complete_root_spec d reader (k : nat) m x lefts rest :
  frozen_nodes k m = lefts ++ rest → readable reader rest →
  (k + d ≤ 63)%nat → (length m < 2 ^ d)%nat →
  complete_root d reader (node_at (Z.of_nat k) (Z.of_nat (length m))) x lefts
  = Ok (root_at d (m ++ [x]), []).
Proof.
  revert k m x lefts rest. induction d as [|d IH]; intros k m x lefts rest HF Hr Hk Hlen.
  { destruct m; [|simpl in Hlen; lia]. symmetry in HF. by apply app_eq_nil in HF as [-> _]. }
  assert (Hin : in_tree (Z.of_nat k) (Z.of_nat (length m))).
  { split; [lia|]. split; [lia|]. apply (Z.lt_le_trans _ (2 ^ Z.of_nat (S d))).
    - rewrite pow2_nat. lia.
    - apply Z.pow_le_mono_r; lia. }
  destruct (sibling_nat k _ Hin ltac:(lia)) as (Hs & _ & _ & Hp & Hpin).
  cbn [complete_root root_at]. rewrite is_left_child_node_at, even_of_nat, Hp by (done || lia).
  destruct (Nat.Even_or_Odd (length m)) as [He|Ho].
  - rewrite (proj2 (Nat.even_spec _) He). pose proof (even_length_pairs m He) as Hl.
    rewrite pairs_pad_app by done. simpl pairs_pad.
    replace (length m / 2)%nat with (length (pairs m)) by (rewrite Hl, Nat.mul_comm, Nat.div_mul; lia).
    apply IH with (rest := rest); [by rewrite <- frozen_nodes_even|done|lia|].
    rewrite Hl in Hlen. simpl in Hlen. lia.
  - pose proof Ho as Ho'. apply odd_snoc in Ho as (m' & y & -> & He).
    pose proof (even_length_pairs m' He) as Hl.
    destruct (snoc_odd_index m' y He) as [Hsi Hh].
    rewrite <- Nat.negb_odd, (proj2 (Nat.odd_spec _) Ho'). simpl negb. cbn iota.
    rewrite Hs, Hsi, Hh. rewrite frozen_nodes_odd in HF by done.
    destruct (take_left_sibling_spec reader lefts rest _ _ _ (eq_sym HF) Hr)
      as (lefts1 & rest1 & -> & HF1 & Hr1). cbn [r_bind].
    rewrite <- app_assoc, pairs_pad_app by done. simpl pairs_pad.
    apply IH with (rest := rest1); [done..|lia|].
    rewrite length_app, Hl in Hlen. simpl in Hlen. lia.
Qed.

Lemma frozen_nodes_head k l p h F :
  frozen_nodes k l = (p, h) :: F →
  ∃ j m, p = node_at (Z.of_nat (k + j)) (Z.of_nat (length m)) ∧ up_pad j l = m ++ [h] ∧
    frozen_nodes (k + j) m = F ∧ length l = ((length m + 1) * 2 ^ j)%nat.
Proof.
  revert k. induction l as [|l Hne He IH|l x He IH] using level_ind; intros k; [done| |].
  - rewrite frozen_nodes_even by done. intros (j & m & -> & Hup & HF & Hlen)%IH.
    exists (S j), m. rewrite Nat.add_succ_r. simpl up_pad. rewrite pairs_pad_even by done.
    split_and!; [done..|]. rewrite (even_length_pairs l He), Hlen. simpl. lia.
  - rewrite frozen_nodes_odd by done. intros [= <- <- <-]. exists 0%nat, l.
    rewrite Nat.add_0_r, length_app. split_and!; [done..| |simpl; lia].
    by rewrite frozen_nodes_even.
Qed.

Lemma merkle_append_spec reader l new :
  store_holds reader l → Z.of_nat (length l + length new) ≤ 2 ^ 63 →
  ∃ T, MerkleAccumulator_append reader (Z.of_nat (length l)) new = Ok (merkle_root (l ++ new), T) ∧
    adds l new T.
Proof.
  intros Hst Hlen. destruct (decide (new = [])) as [->|Hnew].
  { exists []. rewrite app_nil_r. split; [|apply adds_nil]. simpl. rewrite Nat.add_0_r in Hlen.
    destruct (decide (l = [])) as [->|Hne]; [done|].
    rewrite (proj2 (Z.eqb_neq _ _)) by (destruct l; simpl; [done|lia]).
    by rewrite get_root_hash_spec. }
  destruct (append_leaves_spec reader new l [] (frozen_nodes 0 l) [] eq_refl) as
    (lefts & rest & T & Hrun & HF & Hr & Hne & Hadd); [by apply frozen_nodes_readable|done|].
  assert (Hne' : l ++ new ≠ []) by (by destruct l).
  destruct (root_position (l ++ new) Hne') as (Hd & Hdl & _ & Hlv); [rewrite length_app; lia|].
  exists T. split; [|done]. unfold MerkleAccumulator_append.
  destruct new as [|y new]; [done|]. set (new' := y :: new) in *.
  replace (wrap64 (Z.of_nat (length l) + Z.of_nat (length new')))
    with (Z.of_nat (length (l ++ new')))
    by (rewrite length_app; unfold wrap64; rewrite Z.mod_small; lia).
  rewrite Hlv, Hrun. cbn [r_bind]. destruct lefts as [|[p h] lefts]; [by destruct Hne|].
  cbn [expect r_bind]. destruct (frozen_nodes_head _ _ _ _ _ HF) as (j & m & -> & Hup & HF' & Hl).
  set (d := Nat.log2_up (length (l ++ new'))) in *. simpl Nat.add in *.
  assert (Hjd : (j ≤ d)%nat).
  { apply (Nat.pow_le_mono_r_iff 2); [lia|]. rewrite Hl in Hdl. nia. }
  assert (Hm : (length m < 2 ^ (d - j))%nat).
  { apply Nat.lt_succ_r. rewrite <- Nat.add_1_r. replace d with (d - j + j)%nat in Hdl by lia.
    rewrite Hl, Nat.pow_add_r in Hdl. pose proof (Nat.pow_nonzero 2 j). nia. }
  rewrite level_node_at.
  2: { split; [lia|]. split; [lia|].
       replace (63 - Z.of_nat j) with (Z.of_nat (63 - j)) by lia. rewrite pow2_nat.
       pose proof (Nat.pow_le_mono_r 2 (d - j) (63 - j)). lia. }
  replace (Z.to_nat (Z.of_nat d - Z.of_nat j)) with (d - j)%nat by lia.
  rewrite (complete_root_spec (d - j) reader j m h lefts rest) by (done || lia). cbn [r_bind].
  do 2 f_equal. unfold merkle_root. fold d.
  replace d with (j + (d - j))%nat at 2 by lia. by rewrite root_at_add, Hup.
Qed.
End appending.
