(* ===== verification/AccumulatorServed.v ===== *)
(** * AccumulatorServed: the proofs served from a storage are accepted

    Composes src/storage/accumulator/src/lib.rs with the verifiers of
    src/types/src/proof: whatever is appended to a storage, the root hash, the frozen
    subtrees and the membership, range and consistency proofs read from it are those of the
    ledger, and every client accepts them. *)

From S2P Require Import Prelude Bits Crypto Accumulator AccumulatorFacts ConsistencyFacts.
From S2P Require Import Position PositionFacts LedgerTypes AccumulatorProof ProofFacts.
From S2P Require Import AccumulatorStore.

(** ** Subtrees *)

Section subtrees.
Context `{MH : MerkleHasher} {R : Type} `{HR : HashReader R}.
Implicit Types (reader : R) (l new : list HashValue).

(** A block of [2 ^ k] aligned leaves is one frozen node. *)
Lemma aligned_block l b rest m k :
  length l = (m * 2 ^ k)%nat → length b = (2 ^ k)%nat →
  ∃ h, up k b = [h] ∧ frozen b = [h] ∧ up k (l ++ b ++ rest) !! m = Some h.
Proof.
  intros Hl Hb. assert (length (up k b) = 1%nat) as H1 by (apply up_length; lia).
  destruct (up k b) as [|h [|]] eqn:Hup; try done. exists h. split_and!; [done|..].
  - rewrite <- (frozen_up k 1 b) by lia. by rewrite Hup.
  - rewrite (up_app k m) by done. rewrite lookup_app_r by (rewrite (up_length k m); lia).
    rewrite (up_length k m), Nat.sub_diag, (up_app k 1) by lia. by rewrite Hup.
Qed.

(** The position the iterators compute for it. *)
Lemma block_position (m k : nat) :
  2 * Z.of_nat (m * 2 ^ k) + 2 ^ Z.of_nat k - 1 = node_at (Z.of_nat k) (Z.of_nat m).
Proof. unfold node_at. rewrite Z.pow_add_r, Nat2Z.inj_mul, <- pow2_nat by lia. lia. Qed.

Lemma split_at_block new k :
  (2 ^ k ≤ length new)%nat →
  ∃ b rest, new = b ++ rest ∧ length b = (2 ^ k)%nat ∧ length rest = (length new - 2 ^ k)%nat.
Proof.
  intros Hk. exists (take (2 ^ k) new), (drop (2 ^ k) new).
  rewrite take_drop, length_take, length_drop. split_and!; lia || done.
Qed.

(** The largest power of two in [n]. *)
Lemma log2_block n :
  (0 < n)%nat → let k := Nat.log2 n in
  Z.log2 (Z.of_nat n) = Z.of_nat k ∧ (2 ^ k ≤ n < 2 * 2 ^ k)%nat.
Proof.
  intros Hn k. pose proof (Nat.log2_spec n Hn) as [H1 H2]. fold k in H1, H2.
  rewrite Nat.pow_succ_r' in H2. split; [|done].
  apply Z.log2_unique; [lia|]. rewrite <- Nat2Z.inj_succ, !pow2_nat, Nat.pow_succ_r'. lia.
Qed.

Lemma testbit_below x n i : 0 ≤ x < 2 ^ n → 0 ≤ n ≤ i → Z.testbit x i = false.
Proof.
  intros Hx Hi. rewrite <- (Z.mod_small x (2 ^ n)) by done. by apply Z.mod_pow2_bits_high.
Qed.

Lemma land_not_pow2 k r :
  0 ≤ k < 64 → 0 ≤ r < 2 ^ k → Z.land (2 ^ k + r) (not64 (2 ^ k)) = r.
Proof.
  intros Hk Hr. apply Z.bits_inj'. intros i Hi.
  rewrite Z.land_spec, testbit_not64, Z.pow2_bits_eqb by (done || lia || by apply pow2_u64).
  destruct (Z.lt_trichotomy i k) as [Hlt|[->|Hgt]].
  - rewrite (proj2 (Z.ltb_lt _ _)), (proj2 (Z.eqb_neq _ _)), andb_true_r by lia.
    rewrite <- (Z.mod_pow2_bits_low (2 ^ k + r) k) by lia.
    replace (2 ^ k + r) with (r + 1 * 2 ^ k) by lia. rewrite Z.mod_add by lia.
    by rewrite Z.mod_pow2_bits_low.
  - rewrite Z.eqb_refl, !andb_false_r. symmetry. apply (testbit_below _ k); lia.
  - rewrite (testbit_below (2 ^ k + r) (k + 1)), (testbit_below r k) by (rewrite ?Z.pow_add_r; lia).
    done.
Qed.

(** *** The frozen subtrees *)

Lemma FrozenSubTreeIterator_next_spec (n c j : nat) :
  (2 ^ j ≤ n < 2 * 2 ^ j)%nat → Z.of_nat (c * 2 ^ j + n) ≤ 2 ^ 63 →
  Z.log2 (Z.of_nat n) = Z.of_nat j →
  FrozenSubTreeIterator_next (mkFrozenSubTreeIterator (Z.of_nat n) (Z.of_nat (c * 2 ^ j)))
  = Some (node_at (Z.of_nat j) (Z.of_nat c),
          mkFrozenSubTreeIterator (Z.of_nat (n - 2 ^ j)) (Z.of_nat (c * 2 ^ j + 2 ^ j))).
Proof.
  intros Hn Hb Hlog. pose proof (pow2_nat j) as Hj. pose proof (Nat.pow_nonzero 2 j ltac:(lia)).
  assert (Hj63 : Z.of_nat j ≤ 63).
  { apply (Z.pow_le_mono_r_iff 2); lia. }
  unfold FrozenSubTreeIterator_next. cbn [fst_bitmap fst_seen_leaves].
  rewrite (proj2 (Z.eqb_neq _ _)), smear_ones_spec, Hlog by lia.
  rewrite Z.ones_equiv, Z.shiftr_div_pow2, Z.add_1_r, Z.pow_succ_r by lia.
  replace (Z.pred (2 * 2 ^ Z.of_nat j) / 2 ^ 1) with (2 ^ Z.of_nat j - 1).
  2: { apply Z.div_unique with 1; lia. }
  assert (Hc : Z.of_nat (c * 2 ^ j) < 2 ^ 63) by lia.
  rewrite from_leaf_index_node_at, node_at_leaf by lia.
  replace (2 * Z.of_nat (c * 2 ^ j) + (2 ^ Z.of_nat j - 1)) with (node_at (Z.of_nat j) (Z.of_nat c))
    by (rewrite <- block_position; lia).
  rewrite <- block_position. unfold wrap64. rewrite !Z.mod_small by lia.
  rewrite Z.sub_add. do 3 f_equal; [|lia].
  replace (Z.of_nat n) with (2 ^ Z.of_nat j + Z.of_nat (n - 2 ^ j)) by lia.
  apply land_not_pow2; lia.
Qed.

Lemma read_frozen_subtrees_spec fuel reader l new m k :
  store_holds reader (l ++ new) → Z.of_nat (length (l ++ new)) ≤ 2 ^ 63 →
  length l = (m * 2 ^ k)%nat → (length new < 2 ^ k)%nat → (k ≤ fuel)%nat →
  read_frozen_subtrees fuel reader
    (mkFrozenSubTreeIterator (Z.of_nat (length new)) (Z.of_nat (length l)))
  = Ok (reverse (frozen new)).
Proof.
  revert l new m k. induction fuel as [|fuel IH]; intros l new m k Hst Hlen Hl Hnew Hf;
    (destruct (decide (new = [])) as [->|Hne]; [done|]).
  { replace k with 0%nat in Hnew by lia. destruct new; [done|simpl in Hnew; lia]. }
  assert (Hpos : (0 < length new)%nat) by (destruct new; simpl; [done|lia]).
  destruct (log2_block (length new) Hpos) as [Hlog Hj]. set (j := Nat.log2 (length new)) in *.
  assert (Hjk : (j < k)%nat) by (apply (Nat.pow_lt_mono_r_iff 2); lia).
  destruct (split_at_block new j) as (b & rest & Hbr & Hb & Hrest); [lia|].
  assert (Hl2 : length l = (m * 2 ^ (k - j) * 2 ^ j)%nat).
  { rewrite Hl, <- Nat.mul_assoc, <- Nat.pow_add_r. do 2 f_equal. lia. }
  rewrite Hbr in Hst. destruct (aligned_block l b rest _ j Hl2 Hb) as (h & _ & Hfb & Hh).
  rewrite length_app in Hlen.
  cbn [read_frozen_subtrees]. rewrite Hl2, (FrozenSubTreeIterator_next_spec _ _ j) by (done || lia).
  rewrite (Hst _ _ _ Hh). cbn [r_bind]. rewrite <- Hrest, <- Hl2, <- Hb, <- length_app.
  rewrite (IH (l ++ b) rest (m * 2 ^ (k - j) + 1)%nat j) by
    (rewrite <- ?app_assoc, ?length_app; done || lia).
  cbn [r_bind]. rewrite Hbr, (frozen_app_small j 1), Hfb, reverse_app by lia. done.
Qed.

Lemma get_frozen_subtree_hashes_spec reader l :
  store_holds reader l → Z.of_nat (length l) ≤ 2 ^ 63 →
  get_frozen_subtree_hashes reader (Z.of_nat (length l)) = Ok (reverse (frozen l)).
Proof.
  intros Hst Hlen. apply (read_frozen_subtrees_spec 64 reader [] l 0 64); try done.
  apply Nat2Z.inj_lt. rewrite <- pow2_nat. change (Z.of_nat 64) with 64. lia.
Qed.

(** *** The subtrees on the right of an accumulator *)

Lemma trailing_zeros_bound n : 0 < n ≤ 2 ^ 63 → 0 ≤ trailing_zeros n ≤ 63.
Proof.
  intros Hn. pose proof (trailing_zeros_nonneg n). destruct (trailing_zeros_spec n) as (m & Hm & Heq); [lia|].
  split; [done|]. apply (Z.pow_le_mono_r_iff 2); [lia..|]. nia.
Qed.

Lemma FrozenSubtreeSiblingIterator_next_spec (c j rem : nat) :
  (2 ^ j ≤ rem)%nat → Z.of_nat (c * 2 ^ j + rem) ≤ 2 ^ 63 →
  let it := mkFrozenSubtreeSiblingIterator (Z.of_nat (c * 2 ^ j)) (Z.of_nat rem) in
  next_subtree_leaves it = 2 ^ Z.of_nat j →
  FrozenSubtreeSiblingIterator_next it
  = Some (node_at (Z.of_nat j) (Z.of_nat c),
          mkFrozenSubtreeSiblingIterator (Z.of_nat (c * 2 ^ j + 2 ^ j)) (Z.of_nat (rem - 2 ^ j))).
Proof.
  intros Hrem Hb it Hn. pose proof (pow2_nat j) as Hj. pose proof (Nat.pow_nonzero 2 j ltac:(lia)).
  unfold FrozenSubtreeSiblingIterator_next. rewrite Hn. unfold it.
  cbn [fss_remaining_new_leaves fss_current_num_leaves].
  rewrite (proj2 (Z.eqb_neq _ _)) by lia. rewrite <- block_position. unfold wrap64.
  rewrite (Z.mod_small (Z.of_nat (c * 2 ^ j) + 2 ^ Z.of_nat j - 1)) by lia.
  rewrite !Z.mod_small by lia. do 3 f_equal; lia.
Qed.

Lemma next_new_leaf_batch_spec cur (rem : nat) :
  (0 < rem)%nat → Z.of_nat rem ≤ 2 ^ 63 →
  next_new_leaf_batch (mkFrozenSubtreeSiblingIterator cur (Z.of_nat rem)) = 2 ^ Z.of_nat (Nat.log2 rem).
Proof.
  intros Hr Hb. destruct (log2_block rem Hr) as [Hlog [Hle _]].
  unfold next_new_leaf_batch, leading_zeros. cbn [fss_remaining_new_leaves].
  destruct (Z.of_nat rem) as [|p|p] eqn:Hp; try lia. rewrite Hlog.
  assert (Z.of_nat (Nat.log2 rem) ≤ 63).
  { apply (Z.pow_le_mono_r_iff 2); [lia..|]. rewrite pow2_nat. lia. }
  change MAX_ACCUMULATOR_PROOF_DEPTH with 63.
  replace (63 - (63 - Z.of_nat (Nat.log2 rem))) with (Z.of_nat (Nat.log2 rem)) by lia.
  apply shl64_one. lia.
Qed.

Lemma next_subtree_leaves_small (m k rem : nat) :
  (0 < rem < 2 ^ k)%nat → Z.of_nat (m * 2 ^ k + rem) ≤ 2 ^ 63 →
  next_subtree_leaves (mkFrozenSubtreeSiblingIterator (Z.of_nat (m * 2 ^ k)) (Z.of_nat rem))
  = 2 ^ Z.of_nat (Nat.log2 rem).
Proof.
  intros Hr Hb. unfold next_subtree_leaves. cbn [fss_current_num_leaves fss_remaining_new_leaves].
  rewrite next_new_leaf_batch_spec by lia.
  destruct (Z.ltb_spec 0 (Z.of_nat (m * 2 ^ k))) as [Hpos|]; [|done].
  pose proof (trailing_zeros_bound (Z.of_nat (m * 2 ^ k)) ltac:(lia)) as Htz.
  rewrite shl64_one by lia. rewrite (proj2 (Z.leb_gt _ _)); [done|].
  rewrite Nat2Z.inj_mul, <- pow2_nat, trailing_zeros_mul_pow2, Z.pow_add_r, pow2_nat
    by (lia || apply trailing_zeros_nonneg).
  pose proof (Z.pow_pos_nonneg 2 (trailing_zeros (Z.of_nat m)) ltac:(lia) (trailing_zeros_nonneg _)). nia.
Qed.

Lemma read_small_siblings fuel reader l new m k :
  store_holds reader (l ++ new) → Z.of_nat (length (l ++ new)) ≤ 2 ^ 63 →
  length l = (m * 2 ^ k)%nat → (length new < 2 ^ k)%nat → (k ≤ fuel)%nat →
  read_subtree_siblings fuel reader
    (mkFrozenSubtreeSiblingIterator (Z.of_nat (length l)) (Z.of_nat (length new)))
  = Ok (reverse (frozen new)).
Proof.
  revert l new m k. induction fuel as [|fuel IH]; intros l new m k Hst Hlen Hl Hnew Hf;
    (destruct (decide (new = [])) as [->|Hne]; [done|]).
  { replace k with 0%nat in Hnew by lia. destruct new; [done|simpl in Hnew; lia]. }
  assert (Hpos : (0 < length new)%nat) by (destruct new; simpl; [done|lia]).
  destruct (log2_block (length new) Hpos) as [Hlog Hj]. set (j := Nat.log2 (length new)) in *.
  assert (Hjk : (j < k)%nat) by (apply (Nat.pow_lt_mono_r_iff 2); lia).
  destruct (split_at_block new j) as (b & rest & Hbr & Hb & Hrest); [lia|].
  assert (Hl2 : length l = (m * 2 ^ (k - j) * 2 ^ j)%nat).
  { rewrite Hl, <- Nat.mul_assoc, <- Nat.pow_add_r. do 2 f_equal. lia. }
  rewrite Hbr in Hst. destruct (aligned_block l b rest _ j Hl2 Hb) as (h & _ & Hfb & Hh).
  rewrite length_app in Hlen.
  pose proof (next_subtree_leaves_small m k (length new) ltac:(lia) ltac:(lia)) as Hn.
  rewrite <- Hl in Hn. cbn [read_subtree_siblings].
  rewrite Hl2 in *. rewrite (FrozenSubtreeSiblingIterator_next_spec _ j) by (done || lia).
  rewrite (Hst _ _ _ Hh). cbn [r_bind]. rewrite <- Hrest, <- Hl2, <- Hb, <- length_app.
  rewrite (IH (l ++ b) rest (m * 2 ^ (k - j) + 1)%nat j) by
    (rewrite <- ?app_assoc, ?length_app; done || lia).
  cbn [r_bind]. rewrite Hbr, (frozen_app_small j 1), Hfb, reverse_app by lia. done.
Qed.

Lemma read_subtree_siblings_spec fuel reader l new subtrees :
  sibling_subtrees l new subtrees →
  store_holds reader (l ++ new) → Z.of_nat (length (l ++ new)) ≤ 2 ^ 63 →
  127 ≤ Z.of_nat fuel + trailing_zeros (Z.of_nat (length l)) →
  read_subtree_siblings fuel reader
    (mkFrozenSubtreeSiblingIterator (Z.of_nat (length l)) (Z.of_nat (length new)))
  = Ok subtrees.
Proof.
  intros Hsub. revert fuel.
  induction Hsub as [l new k m Hl Hlt|l b new k m h subs Hl Hb Hup _ IH]; intros fuel Hst Hlen Hf;
    rewrite Hl, trailing_zeros_odd_part in Hf; rewrite length_app in Hlen;
    (assert (Hk : Z.of_nat k ≤ 63)
       by (apply (Z.pow_le_mono_r_iff 2); [lia..|]; rewrite pow2_nat; nia)).
  - apply (read_small_siblings fuel reader l new (2 * m + 1) k); try done.
    + rewrite length_app. lia.
    + lia.
  - destruct fuel as [|fuel]; [lia|]. cbn [read_subtree_siblings].
    destruct (aligned_block l b new _ k Hl Hb) as (h' & Hup' & _ & Hh).
    rewrite Hup in Hup'. injection Hup' as <-. rewrite length_app in Hlen.
    rewrite Hl, (FrozenSubtreeSiblingIterator_next_spec _ k); [|rewrite length_app; lia..|].
    + rewrite (Hst _ _ _ Hh). cbn [r_bind]. rewrite length_app.
      replace (length b + length new - 2 ^ k)%nat with (length new) by lia.
      replace ((2 * m + 1) * 2 ^ k + 2 ^ k)%nat with (length (l ++ b)) by (rewrite length_app; lia).
      rewrite IH; [done|by rewrite <- app_assoc|rewrite !length_app; lia|].
      rewrite length_app, Hl, Hb.
      replace ((2 * m + 1) * 2 ^ k + 2 ^ k)%nat with ((m + 1) * 2 ^ S k)%nat by (simpl; lia).
      rewrite Nat2Z.inj_mul, <- pow2_nat, trailing_zeros_mul_pow2 by lia.
      pose proof (trailing_zeros_nonneg (Z.of_nat (m + 1))). lia.
    + unfold next_subtree_leaves. cbn [fss_current_num_leaves fss_remaining_new_leaves].
      rewrite trailing_zeros_odd_part, shl64_one by lia.
      pose proof (Nat.pow_nonzero 2 k ltac:(lia)).
      rewrite (proj2 (Z.ltb_lt _ _)) by nia.
      rewrite (proj2 (Z.leb_le _ _)); [done|]. rewrite pow2_nat, length_app. lia.
Qed.

Lemma get_consistency_proof_spec reader l new :
  store_holds reader (l ++ new) → Z.of_nat (length (l ++ new)) ≤ 2 ^ 63 → l ≠ [] →
  ∃ subtrees, sibling_subtrees l new subtrees ∧
    get_consistency_proof reader (Z.of_nat (length (l ++ new))) (Z.of_nat (length l)) = Ok subtrees.
Proof.
  intros Hst Hlen Hne. destruct (sibling_subtrees_exist new l Hne) as (subs & Hsub).
  exists subs. split; [done|]. unfold get_consistency_proof, FrozenSubtreeSiblingIterator_new.
  rewrite length_app in *. rewrite (proj2 (Z.leb_le _ _)) by lia. cbn [ensure r_bind].
  change MAX_ACCUMULATOR_LEAVES with (2 ^ 63). rewrite (proj2 (Z.leb_le _ (2 ^ 63))) by lia.
  simpl negb. cbn iota. cbn [r_bind].
  replace (Z.of_nat (length l + length new) - Z.of_nat (length l)) with (Z.of_nat (length new)) by lia.
  apply read_subtree_siblings_spec; [done..|rewrite length_app; lia|].
  pose proof (trailing_zeros_nonneg (Z.of_nat (length l))). lia.
Qed.
End subtrees.

(** ** Range proofs *)

Section ranges.
Context `{MH : MerkleHasher}.
Implicit Types l U : list HashValue.

(** A level padded to an even length. *)
Definition pad_even U : list HashValue :=
  if Nat.even (length U) then U else U ++ [ACCUMULATOR_PLACEHOLDER_HASH].

Lemma pad_even_length U : Nat.Even (length (pad_even U)).
Proof.
  unfold pad_even. destruct (Nat.even (length U)) eqn:He; [by apply Nat.even_spec|].
  rewrite length_app. apply Nat.even_spec. simpl. rewrite Nat.add_1_r, Nat.even_succ, <- Nat.negb_even.
  by rewrite He.
Qed.

Lemma pairs_pad_even_pairs U : pairs_pad U = pairs (pad_even U).
Proof.
  unfold pad_even. destruct (Nat.even (length U)) eqn:He; [apply pairs_pad_even, Nat.even_spec, He|].
  destruct (odd_snoc U) as (U' & x & -> & He').
  { apply Nat.odd_spec. by rewrite <- Nat.negb_even, He. }
  rewrite pairs_pad_app, <- app_assoc by done. simpl. by rewrite pairs_snoc2.
Qed.

Lemma pairs_drop_take U (s n : nat) :
  (2 * (s + n) ≤ length U)%nat →
  pairs (take (2 * n) (drop (2 * s) U)) = take n (drop s (pairs U)).
Proof.
  intros Hlen.
  assert (HU : U = take (2 * s) U ++ take (2 * n) (drop (2 * s) U) ++ drop (2 * n) (drop (2 * s) U))
    by (by rewrite !take_drop).
  assert (H1 : length (take (2 * s) U) = (2 * s)%nat) by (apply length_take_le; lia).
  assert (H2 : length (take (2 * n) (drop (2 * s) U)) = (2 * n)%nat)
    by (apply length_take_le; rewrite length_drop; lia).
  rewrite HU at 2. rewrite (pairs_app (take (2 * s) U)), (pairs_app (take (2 * n) _))
    by (rewrite ?H1, ?H2; eexists; reflexivity).
  rewrite drop_app_length', take_app_length'; [done|..]; try symmetry; by apply pairs_length_mul.
Qed.

(** The forward direction of a level of the verification. *)
Lemma range_level_forward p q cur pre post lefts rights :
  pos_of p q → cur ≠ [] → length pre = Z.to_nat (q mod 2) → (length post ≤ 1)%nat →
  Nat.Even (length (pre ++ cur ++ post)) →
  range_level p cur (pre ++ lefts) (post ++ rights) = Ok (pairs (pre ++ cur ++ post), lefts, rights).
Proof.
  intros Hpos Hcur Hpre Hpost He. unfold range_level. rewrite (pos_of_right_child _ _ Hpos).
  rewrite Zmod_odd in Hpre.
  assert (Hchunks : ∀ first c, Nat.Even (length (c ++ post)) →
    (let '(parents, remainder) := combine_chunks c in
     match remainder with
     | [] => Ok (first ++ parents, lefts, post ++ rights)
     | left_hash :: _ =>
         let? (right_hash, rights) :=
           ok_or (match post ++ rights with h :: rights => Some (h, rights) | [] => None end)
             "Last child is a left child, but missing sibling on the right." in
         Ok (first ++ parents ++ [merkle_node left_hash right_hash], lefts, rights)
     end) = Ok (E:=string) (first ++ pairs (c ++ post), lefts, rights)).
  { intros first c Hev. destruct (combine_chunks_spec c) as (r & Hp & Hr & Hcase).
    destruct (combine_chunks c) as [parents remainder]. simpl in Hp, Hr. subst parents remainder.
    destruct Hcase as [[-> Hc]|(x & c' & -> & -> & Hc)].
    - destruct post as [|y [|]]; simpl in Hpost; [|exfalso|lia].
      + by rewrite app_nil_r.
      + rewrite length_app in Hev. simpl in Hev. destruct Hc as [a Ha], Hev as [b Hb]. lia.
    - destruct post as [|y [|]]; simpl in Hpost; [exfalso| |lia].
      + rewrite app_nil_r, length_app in Hev. simpl in Hev. destruct Hc as [a Ha], Hev as [b Hb]. lia.
      + rewrite <- app_assoc. simpl. rewrite pairs_snoc2, pairs_snoc_even by done. done. }
  destruct (Z.odd q) eqn:Hodd.
  - destruct pre as [|x [|]]; simpl in Hpre; try done. destruct cur as [|c cur]; [done|].
    cbn [app ok_or expect r_bind]. etrans; [apply (Hchunks [merkle_node x c] cur)|done].
    simpl in He. destruct He as [a Ha]. exists (a - 1)%nat. lia.
  - destruct pre as [|]; simpl in Hpre; [|done]. cbn [r_bind app]. by apply (Hchunks [] cur).
Qed.

(** The nodes from [a] to [b] of a level. *)
Definition slice U (a b : nat) : list HashValue := take (b + 1 - a) (drop a U).

(** The node [j] of a level, padded with placeholders. *)
Definition node_or_pad U (j : nat) : HashValue := default ACCUMULATOR_PLACEHOLDER_HASH (U !! j).

Lemma take_drop_seq U s n :
  (s + n ≤ length U)%nat → take n (drop s U) = node_or_pad U <$> seq s n.
Proof.
  intros Hlen. apply list_eq. intros i. destruct (decide (i < n)%nat) as [Hi|Hi].
  - rewrite lookup_take_lt, lookup_drop, list_lookup_fmap, lookup_seq_lt by done.
    simpl. unfold node_or_pad. by destruct (lookup_lt_is_Some_2 U (s + i)) as [x ->]; [lia|].
  - rewrite !(proj2 (lookup_ge_None _ _)); [done|rewrite length_fmap, length_seq; lia|].
    rewrite length_take, length_drop. lia.
Qed.

Lemma slice_length U a b : (a ≤ b < length U)%nat → length (slice U a b) = (b + 1 - a)%nat.
Proof. intros Hb. unfold slice. apply length_take_le. rewrite length_drop. lia. Qed.

Lemma pad_even_node U j : node_or_pad (pad_even U) j = node_or_pad U j.
Proof.
  unfold node_or_pad, pad_even. destruct (Nat.even _); [done|].
  destruct (decide (j < length U)%nat); [by rewrite lookup_app_l|].
  rewrite lookup_app_r, (proj2 (lookup_ge_None U j)) by lia. by destruct (j - length U)%nat.
Qed.

Lemma even_mod n : Nat.even n = bool_decide (n mod 2 = 0)%nat.
Proof.
  apply eq_true_iff_eq. rewrite Nat.even_spec, bool_decide_eq_true.
  rewrite Nat.Div0.mod_divides by lia. split; intros [c ->]; exists c; lia.
Qed.

(** A slice with its missing siblings is a slice of the padded level, of complete pairs. *)
Lemma slice_with_siblings U a b :
  (a ≤ b < length U)%nat →
  (if Nat.even a then [] else [node_or_pad U (a - 1)]) ++ slice U a b
  ++ (if Nat.even b then [node_or_pad U (b + 1)] else [])
  = take (2 * (b / 2 + 1 - a / 2)) (drop (2 * (a / 2)) (pad_even U)) ∧
  (2 * (a / 2 + (b / 2 + 1 - a / 2)) ≤ length (pad_even U))%nat.
Proof.
  intros Hb. pose proof (Nat.div_mod_eq a 2) as Ha2. pose proof (Nat.div_mod_eq b 2) as Hb2.
  pose proof (Nat.mod_upper_bound a 2 ltac:(lia)). pose proof (Nat.mod_upper_bound b 2 ltac:(lia)).
  assert (Hlen : (2 * (a / 2 + (b / 2 + 1 - a / 2)) ≤ length (pad_even U))%nat).
  { assert (length U ≤ length (pad_even U))%nat.
    { unfold pad_even. destruct (Nat.even _); rewrite ?length_app; lia. }
    destruct (pad_even_length U) as [c Hc]. lia. }
  split; [|done]. unfold slice. rewrite !take_drop_seq by lia.
  rewrite (list_fmap_ext _ (node_or_pad U) (seq (2 * (a / 2)) _)) by (intros; apply pad_even_node).
  rewrite !even_mod.
  replace (2 * (b / 2 + 1 - a / 2))%nat
    with (a mod 2 + ((b + 1 - a) + (1 - b mod 2)))%nat by lia.
  rewrite !seq_app, !fmap_app. f_equal; [|f_equal].
  - case_bool_decide as Hm; [by rewrite Hm|]. replace (a mod 2)%nat with 1%nat by lia.
    cbn [seq fmap list_fmap]. do 2 f_equal. lia.
  - do 2 f_equal. lia.
  - case_bool_decide as Hm; [rewrite Hm|replace (b mod 2)%nat with 1%nat by lia; done].
    cbn [Nat.sub seq fmap list_fmap]. do 2 f_equal. lia.
Qed.

Lemma range_loop_complete d fuel l (k a b : nat) :
  (a ≤ b < length (up_pad k l))%nat → (length (up_pad k l) ≤ 2 ^ d)%nat → (k + d ≤ 63)%nat →
  range_loop fuel (node_at (Z.of_nat k) (Z.of_nat a)) (slice (up_pad k l) a b)
    (sibling_hashes negb d l k a) (sibling_hashes id d l k b) = Ok [root_at d (up_pad k l)] ∨
  range_loop fuel (node_at (Z.of_nat k) (Z.of_nat a)) (slice (up_pad k l) a b)
    (sibling_hashes negb d l k a) (sibling_hashes id d l k b) = Panic "the loop did not finish".
Proof.
  revert fuel k a b. induction d as [|d IH]; intros fuel k a b Hb Hlen Hk.
  { left. simpl in Hlen. assert (a = 0 ∧ b = 0)%nat as [-> ->] by lia.
    destruct (up_pad k l) as [|x [|]]; simpl in *; try lia. by destruct fuel. }
  assert (Hin : in_tree (Z.of_nat k) (Z.of_nat a)).
  { split; [lia|]. split; [lia|]. apply (Z.lt_le_trans _ (2 ^ Z.of_nat (S d))).
    - rewrite pow2_nat. lia.
    - apply Z.pow_le_mono_r; lia. }
  destruct (sibling_nat k a Hin ltac:(lia)) as (_ & _ & _ & Hp & _).
  destruct (slice_with_siblings (up_pad k l) a b Hb) as [Hslice Hpairs].
  pose proof (slice_length _ _ _ Hb) as Hsl.
  set (pre := if Nat.even a then [] else [node_or_pad (up_pad k l) (a - 1)]) in *.
  set (post := if Nat.even b then [node_or_pad (up_pad k l) (b + 1)] else []) in *.
  assert (Hpre : sibling_hashes negb (S d) l k a = pre ++ sibling_hashes negb d l (S k) (a / 2)).
  { unfold pre. cbn [sibling_hashes]. unfold sibling_index. by destruct (Nat.even a). }
  assert (Hpost : sibling_hashes id (S d) l k b = post ++ sibling_hashes id d l (S k) (b / 2)).
  { unfold post. cbn [sibling_hashes]. unfold sibling_index. by destruct (Nat.even b). }
  rewrite Hpre, Hpost.
  assert (Hnext : pairs (pre ++ slice (up_pad k l) a b ++ post)
                  = slice (up_pad (S k) l) (a / 2) (b / 2)).
  { rewrite Hslice, pairs_drop_take, <- pairs_pad_even_pairs, <- up_pad_S by done. done. }
  assert (Hcond : ((1 <? Z.of_nat (length (slice (up_pad k l) a b)))
      || negb (bool_decide (pre ++ sibling_hashes negb d l (S k) (a / 2) = []))
      || negb (bool_decide (post ++ sibling_hashes id d l (S k) (b / 2) = []))) = true).
  { rewrite Hsl. destruct (decide (a = b)) as [<-|]; [|by rewrite (proj2 (Z.ltb_lt _ _)) by lia].
    unfold pre, post. destruct (Nat.even a); simpl; rewrite ?orb_true_r; done. }
  destruct fuel as [|fuel]; cbn [range_loop]; rewrite Hcond; [by right|].
  rewrite (range_level_forward _ (Z.of_nat a)); [|left; eauto|..].
  - cbn [r_bind]. rewrite Hp, Hnext. cbn [root_at]. rewrite <- up_pad_S. apply IH; [|..|lia].
    + pose proof (Nat.Div0.div_le_mono a b 2 ltac:(lia)).
      rewrite up_pad_S, pairs_pad_even_pairs. destruct (pad_even_length (up_pad k l)) as [c Hc].
      rewrite (pairs_length_mul _ c Hc). lia.
    + rewrite up_pad_S, pairs_pad_length, Nat.div2_div. apply Nat.lt_succ_r.
      apply Nat.Div0.div_lt_upper_bound. simpl in Hlen. lia.
  - intros Hnil. rewrite Hnil in Hsl. simpl in Hsl. lia.
  - unfold pre. rewrite Zmod_even, even_of_nat. by destruct (Nat.even a).
  - unfold post. destruct (Nat.even b); simpl; lia.
  - rewrite Hslice, length_take_le by (rewrite length_drop; lia). eexists. reflexivity.
Qed.

Lemma sibling_hashes_length keep d l k q : (length (sibling_hashes keep d l k q) ≤ d)%nat.
Proof.
  revert k q. induction d as [|d IH]; intros k q; [done|]. cbn [sibling_hashes].
  rewrite length_app. specialize (IH (S k) (q / 2)%nat). destruct (keep _); cbn [length]; lia.
Qed.

Lemma range_proof_accepted l (first n : nat) :
  (0 < n)%nat → (first + n ≤ length l)%nat → Z.of_nat (length l) ≤ 2 ^ 63 →
  let d := Nat.log2_up (length l) in
  AccumulatorRangeProof_verify
    (mkAccumulatorRangeProof (sibling_hashes negb d l 0 first)
       (sibling_hashes id d l 0 (first + n - 1)))
    (merkle_root l) (Some (Z.of_nat first)) (take n (drop first l)) = Ok ().
Proof.
  intros Hn Hlen Hb d. assert (Hd : (d ≤ 63)%nat) by (by apply log2_up_le_63).
  assert (Hdl : (length l ≤ 2 ^ d)%nat).
  { destruct (root_position l) as (_ & ? & _); [by destruct l; [simpl in Hlen; lia|]|done..]. }
  set (rp := mkAccumulatorRangeProof _ _).
  assert (Hne : take n (drop first l) ≠ []).
  { intros H%(f_equal length). rewrite length_take, length_drop in H. simpl in H. lia. }
  destruct (range_loop_complete d
    (length (take n (drop first l)) + length (left_siblings rp) + length (right_siblings rp))
    l 0 first (first + n - 1)) as [Hrun|Hpanic]; [simpl; lia|done|lia|..];
    unfold slice in *; replace (first + n - 1 + 1 - first)%nat with n in * by lia; simpl up_pad in *;
    change (Z.of_nat 0) with 0 in *.
  - unfold AccumulatorRangeProof_verify. change MAX_ACCUMULATOR_PROOF_DEPTH with 63.
    pose proof (sibling_hashes_length negb d l 0 first).
    pose proof (sibling_hashes_length id d l 0 (first + n - 1)).
    rewrite !(proj2 (Z.leb_le _ 63)) by (simpl; lia).
    rewrite bool_decide_eq_false_2 by done. cbn [ensure r_bind negb].
    rewrite from_leaf_index_node_at by lia. unfold rp at 3 4. cbn [left_siblings right_siblings].
    rewrite Hrun. cbn. by rewrite Z.eqb_refl.
  - exfalso. revert Hpanic. apply range_loop_no_panic with (q := Z.of_nat first); try done; [|lia].
    left. exists 0. split; [|done]. split; lia.
Qed.
End ranges.

Section serving.
Context `{MH : MerkleHasher} {R : Type} `{HR : HashReader R}.
Implicit Types (reader : R) (l new : list HashValue).

Lemma get_sibling_positions_spec reader l (i : nat) keep keepb :
  store_holds reader l → (i < length l)%nat → Z.of_nat (length l) ≤ 2 ^ 63 →
  (∀ p, keep p = keepb (negb (is_left_child p))) →
  ∃ positions,
    get_sibling_positions (Z.of_nat (length l)) (Z.of_nat i) keep = Ok positions ∧
    get_hashes reader (Z.of_nat (length l)) positions
    = Ok (sibling_hashes keepb (Nat.log2_up (length l)) l 0 i).
Proof.
  intros Hst Hi Hlen Hkeep. assert (Hne : l ≠ []) by (by destruct l; [simpl in Hi; lia|]).
  destruct (root_position l Hne Hlen) as (Hd & _ & Hr & _).
  unfold get_sibling_positions. rewrite Hr. cbn [r_bind]. eexists. split; [done|].
  rewrite level_node_at, Nat2Z.id, from_leaf_index_node_at by (split; lia) || lia.
  apply (sibling_positions_hashes reader l keep keepb _ 0 i); try done. split; lia.
Qed.

Lemma get_range_proof_spec reader l (first n : nat) :
  store_holds reader l → (0 < n)%nat → (first + n ≤ length l)%nat → Z.of_nat (length l) ≤ 2 ^ 63 →
  let d := Nat.log2_up (length l) in
  get_range_proof reader (Z.of_nat (length l)) (Some (Z.of_nat first)) (Z.of_nat n)
  = Ok (mkAccumulatorRangeProof (sibling_hashes negb d l 0 first)
          (sibling_hashes id d l 0 (first + n - 1))).
Proof.
  intros Hst Hn Hlen Hb d.
  destruct (get_sibling_positions_spec reader l first is_left_child negb) as (lefts & Hl & Hlh);
    [done|lia|done|intros; by rewrite negb_involutive|].
  destruct (get_sibling_positions_spec reader l (first + n - 1) is_right_child id)
    as (rights & Hr & Hrh); [done|lia|done..|].
  unfold get_range_proof, get_range_proof_positions, checked_add.
  rewrite (proj2 (Z.ltb_lt 0 _)) by lia. cbn [ensure r_bind].
  replace (Z.of_nat first + (Z.of_nat n - 1)) with (Z.of_nat (first + n - 1)) by lia.
  rewrite (proj2 (Z.leb_le _ u64_max)) by (unfold u64_max; lia). cbn [ok_or r_bind].
  rewrite (proj2 (Z.ltb_lt _ _)) by lia. cbn [ensure r_bind].
  rewrite Hl, Hr. cbn [r_bind]. by rewrite Hlh, Hrh.
Qed.
End serving.

(** ** Writing the nodes *)

Lemma node_at_inj (j q j' q' : nat) :
  node_at (Z.of_nat j) (Z.of_nat q) = node_at (Z.of_nat j') (Z.of_nat q') → j = j' ∧ q = q'.
Proof.
  intros H%(f_equal (λ p, p + 1)). rewrite !node_at_succ in H by lia.
  assert (Hj : j = j').
  { apply (f_equal trailing_zeros) in H. rewrite !trailing_zeros_mul_pow2, !trailing_zeros_odd in H by lia.
    lia. }
  subst j'. apply Z.mul_reg_r in H; lia.
Qed.

Lemma write_nodes_holds `{MH : MerkleHasher} (store : gmap Position HashValue) l new T :
  store_holds store l → adds l new T → store_holds (write_nodes T store) (l ++ new).
Proof.
  intros Hst [Hs Ha _ _] j q h Hj. unfold reader_get, node_map_reader, write_nodes.
  rewrite lookup_union. destruct (list_to_map (reverse T) !! _) as [h'|] eqn:Hl.
  - rewrite union_Some_l. apply elem_of_list_to_map_2 in Hl. rewrite elem_of_reverse in Hl.
    destruct (Hs _ _ Hl) as (j' & q' & [<- <-]%node_at_inj & Hj'). simpl. congruence.
  - rewrite (left_id_L None (∪)). apply not_elem_of_list_to_map_2 in Hl.
    destruct (Ha _ _ _ Hj) as [Hold|Hin]; [by apply Hst|]. destruct Hl.
    rewrite fmap_reverse, elem_of_reverse. by apply (list_elem_of_fmap_2 fst _ (_, h)).
Qed.

Lemma empty_store_holds `{MH : MerkleHasher} : store_holds (∅ : gmap Position HashValue) [].
Proof. intros k q h Hup. apply lookup_lt_Some in Hup. rewrite up_length_div, Nat.Div0.div_0_l in Hup. lia. Qed.

(** ** Theorems *)

(** C34: the persisted accumulator grows with the ledger.  When the storage holds the frozen
    nodes of the leaves [l], appending leaves returns the root of the Merkle tree over all
    of them, and after the returned nodes are written the storage holds the frozen nodes of
    the extended ledger.  The nodes come in the order of their post-order index, without
    gaps from the first index not in use, so that the storage is only appended to. *)
Theorem store_append_correct {MH : MerkleHasher} (store : gmap Position HashValue)
    (l new : list HashValue) :
  store_holds store l → Z.of_nat (length l + length new) ≤ MAX_ACCUMULATOR_LEAVES →
  ∃ nodes,
    MerkleAccumulator_append store (Z.of_nat (length l)) new = Ok (merkle_root (l ++ new), nodes) ∧
    store_holds (write_nodes nodes store) (l ++ new) ∧
    to_postorder_index <$> nodes.*1
      = seqZ (frozen_count (Z.of_nat (length l))) (Z.of_nat (length nodes)) ∧
    frozen_count (Z.of_nat (length l)) + Z.of_nat (length nodes)
      = frozen_count (Z.of_nat (length (l ++ new))).
Proof.
  intros Hst Hlen. destruct (merkle_append_spec store l new Hst Hlen) as (T & Hrun & Hadd).
  exists T. split; [done|]. split; [by apply write_nodes_holds|]. by destruct Hadd.
Qed.

(** Membership proofs served from a storage.  The root hash read from the storage is
    the root of the ledger, and for every leaf the storage serves a proof that every
    client accepts against it. *)
Theorem served_proof_accepted {MH : MerkleHasher} {R : Type} {HR : HashReader R} (reader : R)
    (l : list HashValue) (i : nat) x :
  store_holds reader l → Z.of_nat (length l) ≤ MAX_ACCUMULATOR_LEAVES → l !! i = Some x →
  ∃ root p, get_root_hash reader (Z.of_nat (length l)) = Ok root ∧ root = merkle_root l ∧
    get_proof reader (Z.of_nat (length l)) (Z.of_nat i) = Ok p ∧
    AccumulatorProof_verify p root x (Z.of_nat i) = Ok ().
Proof.
  intros Hst Hlen Hi. assert (Hne : l ≠ []) by (by destruct l).
  exists (merkle_root l), (leaf_siblings (Nat.log2_up (length l)) l i).
  rewrite get_root_hash_spec by done. rewrite (get_proof_spec reader l i x) by done.
  split_and!; [done..|]. by apply accumulator_proof_complete.
Qed.

(** Range proofs served from a storage.  For every non-empty range of leaves the
    storage serves a proof that is accepted for exactly these leaves. *)
Theorem served_range_accepted {MH : MerkleHasher} {R : Type} {HR : HashReader R} (reader : R)
    (l : list HashValue) (first n : nat) :
  store_holds reader l → Z.of_nat (length l) ≤ MAX_ACCUMULATOR_LEAVES →
  (0 < n)%nat → (first + n ≤ length l)%nat →
  ∃ p, get_range_proof reader (Z.of_nat (length l)) (Some (Z.of_nat first)) (Z.of_nat n) = Ok p ∧
    AccumulatorRangeProof_verify p (merkle_root l) (Some (Z.of_nat first)) (take n (drop first l))
    = Ok ().
Proof.
  intros Hst Hlen Hn Hf. eexists. split; [by apply get_range_proof_spec|]. by apply range_proof_accepted.
Qed.

(** C35: consistency proofs served from a storage.  A client with the summary of a prefix of
    the ledger extends it, with the proof the storage serves, to the summary of the whole
    ledger; and the frozen subtrees read from the storage are those of that summary. *)
Theorem served_consistency_accepted {MH : MerkleHasher} {R : Type} {HR : HashReader R} (reader : R)
    (l new : list HashValue) acc li :
  store_holds reader (l ++ new) → Z.of_nat (length (l ++ new)) ≤ MAX_ACCUMULATOR_LEAVES →
  l ≠ [] → from_leaves l = Ok acc →
  li_transaction_accumulator_hash li = merkle_root (l ++ new) →
  li_version li = Z.of_nat (length (l ++ new)) - 1 →
  ∃ subtrees acc',
    get_consistency_proof reader (Z.of_nat (length (l ++ new))) (Z.of_nat (length l)) = Ok subtrees ∧
    try_extend_with_proof acc subtrees li = Ok acc' ∧ from_leaves (l ++ new) = Ok acc' ∧
    get_frozen_subtree_hashes reader (Z.of_nat (length (l ++ new))) = Ok (frozen_subtree_roots acc').
Proof.
  intros Hst Hlen Hne Hacc Hroot Hver. change MAX_ACCUMULATOR_LEAVES with (2 ^ 63) in Hlen.
  destruct (from_leaves_spec l) as (acc0 & Hacc0 & Hrep).
  { rewrite length_app in Hlen. unfold u64_max. lia. }
  rewrite Hacc in Hacc0. injection Hacc0 as <-.
  destruct (from_leaves_spec (l ++ new)) as (acc' & Hacc' & Hrep'); [unfold u64_max; lia|].
  destruct (get_consistency_proof_spec reader l new) as (subs & Hsub & Hget); [done..|].
  destruct (append_subtrees_accepts acc l new subs) as (acc1 & Hrun & Hrep1);
    [done..|by rewrite <- length_app|done|].
  rewrite (repr_unique acc1 acc' (l ++ new)) in Hrun by done.
  exists subs, acc'. split_and!; [done|by apply (try_extend_accepts acc l new)|done|].
  destruct Hrep' as [_ -> _]. by apply get_frozen_subtree_hashes_spec.
Qed.

(** ** A storage of five leaves *)

#[local] Instance sample_hasher : MerkleHasher := ref_merkle_hasher 1.

Definition stored_leaves : list HashValue := [10; 20; 30; 40; 50].
Definition sample_store : gmap Position HashValue :=
  match MerkleAccumulator_append (∅ : gmap Position HashValue) 0 stored_leaves with
  | Ok (_, nodes) => write_nodes nodes ∅
  | _ => ∅
  end.

Lemma sample_store_holds : store_holds sample_store stored_leaves.
Proof.
  destruct (merkle_append_spec (∅ : gmap Position HashValue) [] stored_leaves empty_store_holds)
    as (T & Hrun & Hadd); [done|].
  unfold sample_store. change 0 with (Z.of_nat (length (@nil HashValue))). rewrite Hrun.
  apply (write_nodes_holds ∅ [] stored_leaves T empty_store_holds Hadd).
Qed.

Lemma store_append_correct_witness :
  ∃ nodes,
    MerkleAccumulator_append sample_store 5 [60; 70]
      = Ok (merkle_root [10; 20; 30; 40; 50; 60; 70], nodes) ∧
    store_holds (write_nodes nodes sample_store) [10; 20; 30; 40; 50; 60; 70] ∧
    to_postorder_index <$> nodes.*1 = [8; 9; 10].
Proof.
  destruct (store_append_correct sample_store stored_leaves [60; 70] sample_store_holds)
    as (nodes & Hrun & Hst & Hord & Hcount); [done|].
  exists nodes. split; [exact Hrun|]. split; [exact Hst|]. rewrite Hord.
  replace (Z.of_nat (length nodes)) with 3; [reflexivity|].
  change (8 + Z.of_nat (length nodes) = 11) in Hcount. lia.
Defined.

Lemma served_proof_accepted_witness :
  ∃ root p, get_root_hash sample_store 5 = Ok root ∧ root = merkle_root stored_leaves ∧
    get_proof sample_store 5 2 = Ok p ∧ AccumulatorProof_verify p root 30 2 = Ok ().
Proof.
  apply (served_proof_accepted sample_store stored_leaves 2 30 sample_store_holds); done.
Defined.

Lemma served_range_accepted_witness :
  ∃ p, get_range_proof sample_store 5 (Some 1) 3 = Ok p ∧
    AccumulatorRangeProof_verify p (merkle_root stored_leaves) (Some 1) [20; 30; 40] = Ok ().
Proof.
  apply (served_range_accepted sample_store stored_leaves 1 3 sample_store_holds); [done|lia|simpl; lia].
Defined.

Lemma served_consistency_accepted_witness :
  ∃ acc subtrees acc', from_leaves [10; 20; 30] = Ok acc ∧
    get_consistency_proof sample_store 5 3 = Ok subtrees ∧
    try_extend_with_proof acc subtrees
      (mkLedgerInfo (mkBlockInfo 1 1 0 (merkle_root stored_leaves) 4 0 None) 0) = Ok acc' ∧
    from_leaves stored_leaves = Ok acc' ∧
    get_frozen_subtree_hashes sample_store 5 = Ok (frozen_subtree_roots acc').
Proof.
  eexists. 
  destruct (served_consistency_accepted sample_store [10; 20; 30] [40; 50]
    (mkInMemoryAccumulator [merkle_node 10 20; 30] 3 (merkle_root [10; 20; 30]))
    (mkLedgerInfo (mkBlockInfo 1 1 0 (merkle_root stored_leaves) 4 0 None) 0))
    as (subs & acc' & H1 & H2 & H3 & H4).
  - exact sample_store_holds.
  - done.
  - done.
  - reflexivity.
  - reflexivity.
  - reflexivity.
  - exists subs, acc'. split; [reflexivity|]. auto.
Defined.
