(* ===== verification/BlockTree.v ===== *)
(** * BlockTree: the tree of pending blocks

    Models src/consensus/src/block_storage/block_tree.rs and the parts of
    src/consensus/consensus-types/src/executed_block.rs and
    src/execution/executor-types/src/lib.rs it uses: the blocks known to a replica with
    their parent and child links, the two roots, the highest certificates, and pruning.
    Rust's [HashMap] and [HashSet] iterate in an unspecified order: the order is the
    class [HashIter], whose laws only say that every entry is visited once. *)

From S2P Require Import Prelude Crypto Accumulator ValidatorVerifier LedgerTypes.
From S2P Require Import AccumulatorProof ConsensusTypes.

(** ** Iteration over hash tables *)

Class HashIter := {
  set_iter : gset HashValue → list HashValue;
  map_iter : ∀ {A}, gmap HashValue A → list (HashValue * A);
  set_iter_perm : ∀ s, set_iter s ≡ₚ elements s;
  map_iter_perm : ∀ A (m : gmap HashValue A), map_iter m ≡ₚ map_to_list m;
}.

(** ** Executed blocks *)

Inductive TransactionStatus :=
| Keep (status : Z)
| Discard (status : Z)
| Retry.

Record StateComputeResult := mkStateComputeResult {
  scr_root_hash : HashValue;
  scr_frozen_subtree_roots : list HashValue;
  scr_num_leaves : Z;
  scr_parent_frozen_subtree_roots : list HashValue;
  scr_parent_num_leaves : Z;
  scr_epoch_state : option EpochState;
  scr_compute_status : list TransactionStatus;
  scr_transaction_info_hashes : list HashValue;
  scr_reconfig_events : list (list Z);
  scr_signature : option Signature;
}.

Definition scr_version (r : StateComputeResult) : Version := Z.max (scr_num_leaves r) 1 - 1.
Definition scr_has_reconfiguration (r : StateComputeResult) : bool :=
  bool_decide (is_Some (scr_epoch_state r)).
Definition scr_extension_proof (r : StateComputeResult) : AccumulatorExtensionProof :=
  mkAccumulatorExtensionProof (scr_parent_frozen_subtree_roots r) (scr_parent_num_leaves r)
    (scr_transaction_info_hashes r).
Definition new_dummy_with_root_hash (root_hash : HashValue) : StateComputeResult :=
  mkStateComputeResult root_hash [] 0 [] 0 None [] [] [] None.
Definition new_dummy : StateComputeResult :=
  new_dummy_with_root_hash ACCUMULATOR_PLACEHOLDER_HASH.

Record ExecutedBlock := mkExecutedBlock {
  eb_block : Block;
  eb_state_compute_result : StateComputeResult;
}.

Definition eb_id (b : ExecutedBlock) : HashValue := b_id (eb_block b).
Definition eb_quorum_cert (b : ExecutedBlock) : QuorumCert := b_quorum_cert (eb_block b).
Definition eb_parent_id (b : ExecutedBlock) : HashValue :=
  bi_id (qc_certified_block (eb_quorum_cert b)).
Definition eb_round (b : ExecutedBlock) : Round := b_round (eb_block b).
Definition eb_block_info (b : ExecutedBlock) : BlockInfo :=
  gen_block_info (eb_block b) (scr_root_hash (eb_state_compute_result b))
    (scr_version (eb_state_compute_result b)) (scr_epoch_state (eb_state_compute_result b)).
Definition eb_maybe_signed_vote_proposal (b : ExecutedBlock) (decoupled_execution : bool)
    : MaybeSignedVoteProposal :=
  mkMaybeSignedVoteProposal
    (mkVoteProposal (scr_extension_proof (eb_state_compute_result b)) (eb_block b)
       (scr_epoch_state (eb_state_compute_result b)) decoupled_execution)
    (scr_signature (eb_state_compute_result b)).
Definition eb_is_reconfiguration_suffix (b : ExecutedBlock) : bool :=
  scr_has_reconfiguration (eb_state_compute_result b)
  && bool_decide (scr_compute_status (eb_state_compute_result b) = []).

(** ** The tree *)

Record LinkableBlock := mkLinkableBlock {
  lb_executed_block : ExecutedBlock;
  lb_children : gset HashValue;
}.

Definition LinkableBlock_new (block : ExecutedBlock) : LinkableBlock := mkLinkableBlock block ∅.
Definition lb_id (b : LinkableBlock) : HashValue := eb_id (lb_executed_block b).
Definition add_child {E} (child_id : HashValue) (b : LinkableBlock) : Result E LinkableBlock :=
  if bool_decide (child_id ∈ lb_children b) then Panic "Block already existed."
  else Ok (mkLinkableBlock (lb_executed_block b) ({[child_id]} ∪ lb_children b)).

Record BlockTree := mkBlockTree {
  bt_id_to_block : gmap HashValue LinkableBlock;
  bt_ordered_root_id : HashValue;
  bt_commit_root_id : HashValue;
  bt_highest_certified_block_id : HashValue;
  bt_highest_quorum_cert : QuorumCert;
  bt_highest_timeout_cert : option TimeoutCertificate;
  bt_highest_2chain_timeout_cert : option TwoChainTimeoutCertificate;
  bt_highest_ordered_cert : QuorumCert;
  bt_highest_ledger_info : LedgerInfoWithSignatures;
  bt_id_to_quorum_cert : gmap HashValue QuorumCert;
  bt_pruned_block_ids : list HashValue;
  bt_max_pruned_blocks_in_mem : nat;
}.

(** Assignments to fields of [self]. *)

Definition set_blocks (m : gmap HashValue LinkableBlock) (t : BlockTree) : BlockTree :=
  mkBlockTree m (bt_ordered_root_id t) (bt_commit_root_id t) (bt_highest_certified_block_id t)
    (bt_highest_quorum_cert t) (bt_highest_timeout_cert t) (bt_highest_2chain_timeout_cert t)
    (bt_highest_ordered_cert t) (bt_highest_ledger_info t) (bt_id_to_quorum_cert t)
    (bt_pruned_block_ids t) (bt_max_pruned_blocks_in_mem t).
Definition set_roots (ordered commit : HashValue) (t : BlockTree) : BlockTree :=
  mkBlockTree (bt_id_to_block t) ordered commit (bt_highest_certified_block_id t)
    (bt_highest_quorum_cert t) (bt_highest_timeout_cert t) (bt_highest_2chain_timeout_cert t)
    (bt_highest_ordered_cert t) (bt_highest_ledger_info t) (bt_id_to_quorum_cert t)
    (bt_pruned_block_ids t) (bt_max_pruned_blocks_in_mem t).
Definition set_certified (id : HashValue) (qc : QuorumCert) (t : BlockTree) : BlockTree :=
  mkBlockTree (bt_id_to_block t) (bt_ordered_root_id t) (bt_commit_root_id t) id
    qc (bt_highest_timeout_cert t) (bt_highest_2chain_timeout_cert t)
    (bt_highest_ordered_cert t) (bt_highest_ledger_info t) (bt_id_to_quorum_cert t)
    (bt_pruned_block_ids t) (bt_max_pruned_blocks_in_mem t).
Definition set_timeout_certs (tc : option TimeoutCertificate)
    (tc2 : option TwoChainTimeoutCertificate) (t : BlockTree) : BlockTree :=
  mkBlockTree (bt_id_to_block t) (bt_ordered_root_id t) (bt_commit_root_id t)
    (bt_highest_certified_block_id t) (bt_highest_quorum_cert t) tc tc2
    (bt_highest_ordered_cert t) (bt_highest_ledger_info t) (bt_id_to_quorum_cert t)
    (bt_pruned_block_ids t) (bt_max_pruned_blocks_in_mem t).
Definition set_ordered_cert (qc : QuorumCert) (t : BlockTree) : BlockTree :=
  mkBlockTree (bt_id_to_block t) (bt_ordered_root_id t) (bt_commit_root_id t)
    (bt_highest_certified_block_id t) (bt_highest_quorum_cert t) (bt_highest_timeout_cert t)
    (bt_highest_2chain_timeout_cert t) qc (bt_highest_ledger_info t) (bt_id_to_quorum_cert t)
    (bt_pruned_block_ids t) (bt_max_pruned_blocks_in_mem t).
Definition set_ledger_info (li : LedgerInfoWithSignatures) (t : BlockTree) : BlockTree :=
  mkBlockTree (bt_id_to_block t) (bt_ordered_root_id t) (bt_commit_root_id t)
    (bt_highest_certified_block_id t) (bt_highest_quorum_cert t) (bt_highest_timeout_cert t)
    (bt_highest_2chain_timeout_cert t) (bt_highest_ordered_cert t) li (bt_id_to_quorum_cert t)
    (bt_pruned_block_ids t) (bt_max_pruned_blocks_in_mem t).
Definition set_quorum_certs (m : gmap HashValue QuorumCert) (t : BlockTree) : BlockTree :=
  mkBlockTree (bt_id_to_block t) (bt_ordered_root_id t) (bt_commit_root_id t)
    (bt_highest_certified_block_id t) (bt_highest_quorum_cert t) (bt_highest_timeout_cert t)
    (bt_highest_2chain_timeout_cert t) (bt_highest_ordered_cert t) (bt_highest_ledger_info t) m
    (bt_pruned_block_ids t) (bt_max_pruned_blocks_in_mem t).
Definition set_pruned (l : list HashValue) (t : BlockTree) : BlockTree :=
  mkBlockTree (bt_id_to_block t) (bt_ordered_root_id t) (bt_commit_root_id t)
    (bt_highest_certified_block_id t) (bt_highest_quorum_cert t) (bt_highest_timeout_cert t)
    (bt_highest_2chain_timeout_cert t) (bt_highest_ordered_cert t) (bt_highest_ledger_info t)
    (bt_id_to_quorum_cert t) l (bt_max_pruned_blocks_in_mem t).

Definition BlockTree_new {E} (root : ExecutedBlock) (root_quorum_cert root_ordered_cert : QuorumCert)
    (root_commit_ledger_info : LedgerInfoWithSignatures) (max_pruned_blocks_in_mem : nat)
    (highest_timeout_cert : option TimeoutCertificate)
    (highest_2chain_timeout_cert : option TwoChainTimeoutCertificate) : Result E BlockTree :=
  if eb_id root =? bi_id (qc_commit_info root_ordered_cert) then
    Ok (mkBlockTree {[eb_id root := LinkableBlock_new root]} (eb_id root) (eb_id root) (eb_id root)
          root_quorum_cert highest_timeout_cert highest_2chain_timeout_cert root_ordered_cert
          root_commit_ledger_info
          {[bi_id (qc_certified_block root_quorum_cert) := root_quorum_cert]}
          [] max_pruned_blocks_in_mem)
  else Panic "inconsistent root and ledger info".

Definition get_linkable_block (t : BlockTree) (block_id : HashValue) : option LinkableBlock :=
  bt_id_to_block t !! block_id.
Definition block_exists (t : BlockTree) (block_id : HashValue) : bool :=
  bool_decide (is_Some (bt_id_to_block t !! block_id)).
Definition get_block (t : BlockTree) (block_id : HashValue) : option ExecutedBlock :=
  lb_executed_block <$> get_linkable_block t block_id.

Section iteration.
Context `{HI : HashIter}.

Definition get_all_quorum_certs_with_commit_info (t : BlockTree) : list QuorumCert :=
  filter (λ qc, qc_commit_info qc ≠ BlockInfo_empty) (map_iter (bt_id_to_quorum_cert t)).*2.
Definition get_all_block_id (t : BlockTree) : list HashValue := (map_iter (bt_id_to_block t)).*1.
End iteration.

Definition linkable_root {E} (t : BlockTree) : Result E LinkableBlock :=
  expect (get_linkable_block t (bt_commit_root_id t)) "Root must exist".
Definition ordered_root {E} (t : BlockTree) : Result E ExecutedBlock :=
  expect (get_block t (bt_ordered_root_id t)) "Root must exist".
Definition commit_root {E} (t : BlockTree) : Result E ExecutedBlock :=
  expect (get_block t (bt_commit_root_id t)) "Commit root must exist".
Definition highest_certified_block {E} (t : BlockTree) : Result E ExecutedBlock :=
  expect (get_block t (bt_highest_certified_block_id t)) "Highest cerfified block must exist".
Definition get_quorum_cert_for_block (t : BlockTree) (block_id : HashValue) : option QuorumCert :=
  bt_id_to_quorum_cert t !! block_id.

Definition remove_block (block_id : HashValue) (t : BlockTree) : BlockTree :=
  set_quorum_certs (delete block_id (bt_id_to_quorum_cert t))
    (set_blocks (delete block_id (bt_id_to_block t)) t).

Definition replace_2chain_timeout_cert (tc : TwoChainTimeoutCertificate) (t : BlockTree) : BlockTree :=
  set_timeout_certs (bt_highest_timeout_cert t) (Some tc) t.
Definition replace_timeout_cert (tc : TimeoutCertificate) (t : BlockTree) : BlockTree :=
  set_timeout_certs (Some tc) (bt_highest_2chain_timeout_cert t) t.

(** The [checked_verify_eq!] of the computed results is compiled to nothing in a build
    without the MIRAI checker. *)
Definition insert_block (block : ExecutedBlock) : ST BlockTree string ExecutedBlock := λ t,
  let block_id := eb_id block in
  match get_block t block_id with
  | Some existing_block => (t, Ok existing_block)
  | None =>
      match get_linkable_block t (eb_parent_id block) with
      | None => (t, Err "Parent block not found")
      | Some parent_block =>
          match add_child block_id parent_block with
          | Ok parent' =>
              let m := <[eb_parent_id block := parent']> (bt_id_to_block t) in
              let t' := set_blocks (<[block_id := LinkableBlock_new block]> m) t in
              if bool_decide (m !! block_id = None) then (t', Ok block)
              else (t', Panic "assertion failed: insert is none")
          | Err e => (t, Err e)
          | Panic m => (t, Panic m)
          end
      end
  end.

Definition update_ordered_root (root_id : HashValue) : ST BlockTree string unit := λ t,
  if block_exists t root_id then (set_roots root_id (bt_commit_root_id t) t, Ok ())
  else (t, Panic "assertion failed: self.block_exists(&root_id)").
Definition update_commit_root (root_id : HashValue) : ST BlockTree string unit := λ t,
  if block_exists t root_id then (set_roots (bt_ordered_root_id t) root_id t, Ok ())
  else (t, Panic "assertion failed: self.block_exists(&root_id)").

Definition update_highest_ledger_info (li : LedgerInfoWithSignatures) : ST BlockTree string unit := λ t,
  if bi_round (lis_commit_info (bt_highest_ledger_info t)) <? bi_round (lis_commit_info li)
  then update_commit_root (bi_id (lis_commit_info li)) (set_ledger_info li t)
  else (t, Ok ()).

Definition insert_quorum_cert (qc : QuorumCert) : ST BlockTree string unit := λ t,
  let block_id := bi_id (qc_certified_block qc) in
  match get_block t block_id with
  | None => (t, Err "Block not found")
  | Some block =>
      match highest_certified_block (E:=string) t with
      | Ok highest =>
          let t1 := if eb_round highest <? eb_round block
                    then set_certified (eb_id block) qc t else t in
          let t2 := set_quorum_certs (or_insert block_id qc (bt_id_to_quorum_cert t1)) t1 in
          let t3 := if bi_round (qc_commit_info (bt_highest_ordered_cert t2))
                       <? bi_round (qc_commit_info qc)
                    then set_ordered_cert qc t2 else t2 in
          (t3, Ok ())
      | Err e => (t, Err e)
      | Panic m => (t, Panic m)
      end
  end.

(** ** Pruning *)

Section prune.
Context `{HI : HashIter}.

(** The children of a popped block are pushed in turn, except the new root. *)
Fixpoint push_children {E} (t : BlockTree) (next_root_id : HashValue) (children : list HashValue)
    (stack : list LinkableBlock) : Result E (list LinkableBlock) :=
  match children with
  | [] => Ok stack
  | child_id :: children =>
      if next_root_id =? child_id then push_children t next_root_id children stack
      else let? child := expect (get_linkable_block t child_id) "Child must exist in the tree" in
           push_children t next_root_id children (child :: stack)
  end.

(** The stack has its top first; [fuel] bounds the number of blocks popped. *)
Fixpoint prune_loop {E} (fuel : nat) (t : BlockTree) (next_root_id : HashValue)
    (blocks_to_be_pruned : list LinkableBlock) (blocks_pruned : list HashValue)
    : Result E (list HashValue) :=
  match blocks_to_be_pruned, fuel with
  | [], _ => Ok blocks_pruned
  | _ :: _, O => Panic "out of fuel"
  | block_to_remove :: stack, Datatypes.S fuel =>
      let? stack' := push_children t next_root_id (set_iter (lb_children block_to_remove)) stack in
      prune_loop fuel t next_root_id stack' (blocks_pruned ++ [lb_id block_to_remove])
  end.

Definition find_blocks_to_prune {E} (t : BlockTree) (next_root_id : HashValue)
    : Result E (list HashValue) :=
  if next_root_id =? bt_commit_root_id t then Ok []
  else let? root := linkable_root t in
       prune_loop (size (bt_id_to_block t)) t next_root_id [root] [].

(** [pop_front] and [remove_block], [n] times. *)
Fixpoint remove_front (n : nat) (t : BlockTree) : BlockTree :=
  match n with
  | O => t
  | Datatypes.S n =>
      match bt_pruned_block_ids t with
      | [] => remove_front n t
      | id :: ids => remove_front n (remove_block id (set_pruned ids t))
      end
  end.

Definition process_pruned_blocks (newly_pruned_blocks : list HashValue) (t : BlockTree) : BlockTree :=
  let t := set_pruned (bt_pruned_block_ids t ++ newly_pruned_blocks) t in
  if (bt_max_pruned_blocks_in_mem t <? length (bt_pruned_block_ids t))%nat
  then remove_front (length (bt_pruned_block_ids t) - bt_max_pruned_blocks_in_mem t) t
  else t.

(** ** Paths *)

(** The walk to the parents; [fuel] bounds the number of blocks collected. *)
Fixpoint path_loop {E} (fuel : nat) (t : BlockTree) (root_round : Round) (cur_block_id : HashValue)
    (res : list ExecutedBlock) : Result E (option (HashValue * list ExecutedBlock)) :=
  match get_block t cur_block_id with
  | None => Ok None
  | Some block =>
      if eb_round block <=? root_round then Ok (Some (cur_block_id, res))
      else match fuel with
           | O => Panic "out of fuel"
           | Datatypes.S fuel => path_loop fuel t root_round (eb_parent_id block) (res ++ [block])
           end
  end.

Definition path_from_root_to_block {E} (t : BlockTree) (block_id root_id : HashValue)
    (root_round : Round) : Result E (option (list ExecutedBlock)) :=
  let? walked := path_loop (size (bt_id_to_block t)) t root_round block_id [] in
  Ok (match walked with
      | None => None
      | Some (cur_block_id, res) => if cur_block_id =? root_id then Some (reverse res) else None
      end).

Definition path_from_ordered_root {E} (t : BlockTree) (block_id : HashValue)
    : Result E (option (list ExecutedBlock)) :=
  let? root := ordered_root t in
  path_from_root_to_block t block_id (bt_ordered_root_id t) (eb_round root).
Definition path_from_commit_root {E} (t : BlockTree) (block_id : HashValue)
    : Result E (option (list ExecutedBlock)) :=
  let? root := commit_root t in
  path_from_root_to_block t block_id (bt_commit_root_id t) (eb_round root).

(** The ids handed to [storage.prune_tree] are the result; its failure is only logged. *)
Definition commit_callback (blocks_to_commit : list ExecutedBlock)
    (commit_proof : LedgerInfoWithSignatures) : ST BlockTree string (list HashValue) :=
  let! block_to_commit := st_lift (expect (last blocks_to_commit) "unwrap on a None value") in
  let! t := st_get in
  let! current := st_lift (commit_root t) in
  let! id_to_remove := st_lift (find_blocks_to_prune t (eb_id block_to_commit)) in
  st_put (process_pruned_blocks id_to_remove t) ;!
  update_highest_ledger_info commit_proof ;!
  st_ret id_to_remove.
End prune.
