(* ===== verification/BlockTreeFacts.v ===== *)
(** * BlockTreeFacts: links, walks and pruning of the block tree

    [tree_links] is the consistency of parent and child links ("for all parent links, a
    child link exists") with rounds that grow along them.  Under it the two loops of
    BlockTree end, the walk to the parents returns exactly the chain from the root, and
    the pruning worklist visits exactly the blocks that do not descend from the new root,
    each once and parents first. *)

From S2P Require Import Prelude Crypto Accumulator ValidatorVerifier LedgerTypes.
From S2P Require Import AccumulatorProof ConsensusTypes BlockTree.

Section links.
Context (t : BlockTree).
Local Abbreviation blocks := (bt_id_to_block t).

(** A child link. *)
Definition edge (p c : HashValue) : Prop :=
  ∃ lp, blocks !! p = Some lp ∧ c ∈ lb_children lp.
(** [c] descends from [a], or is [a]. *)
Definition reach : HashValue → HashValue → Prop := rtc edge.

Definition lb_parent_id (b : LinkableBlock) : HashValue := eb_parent_id (lb_executed_block b).
Definition lb_round (b : LinkableBlock) : Round := eb_round (lb_executed_block b).

Record tree_links : Prop := {
  tl_key id lb : blocks !! id = Some lb → lb_id lb = id;
  tl_child p lp c : blocks !! p = Some lp → c ∈ lb_children lp →
    ∃ lc, blocks !! c = Some lc ∧ lb_parent_id lc = p;
  tl_parent c lc p lp : blocks !! c = Some lc → blocks !! p = Some lp →
    lb_parent_id lc = p → c ∈ lb_children lp;
  tl_round c lc p lp : blocks !! c = Some lc → blocks !! p = Some lp →
    lb_parent_id lc = p → lb_round lp < lb_round lc;
}.

Context (TL : tree_links).

Lemma edge_block p c : edge p c →
  ∃ lp lc, blocks !! p = Some lp ∧ blocks !! c = Some lc ∧ lb_parent_id lc = p
           ∧ lb_round lp < lb_round lc.
Proof.
  intros (lp & Hp & Hc). destruct (tl_child TL _ _ _ Hp Hc) as (lc & Hlc & Hpar).
  pose proof (tl_round TL _ _ _ _ Hlc Hp Hpar). eauto 10.
Qed.

Lemma edge_parent p q c : edge p c → edge q c → p = q.
Proof. intros (?&?&?&?&?&?)%edge_block (?&?&?&?&?&?)%edge_block. naive_solver. Qed.

Lemma reach_in a c : is_Some (blocks !! a) → reach a c → is_Some (blocks !! c).
Proof.
  intros Ha H. apply rtc_inv_r in H as [->|(d & _ & (?&?&?&?&?)%edge_block)]; eauto.
Qed.

(** Rounds grow along child links. *)
Lemma reach_round a c la lc : blocks !! a = Some la → blocks !! c = Some lc →
  reach a c → a = c ∨ lb_round la < lb_round lc.
Proof.
  intros Ha Hc H. revert la Ha. induction H as [|a b c Hab H IH]; [auto|]. intros la Ha.
  destruct (edge_block _ _ Hab) as (la' & lb & ? & ? & ? & ?). simplify_eq.
  right. destruct (IH Hc lb) as [->|]; simplify_eq; [done..|lia].
Qed.

Lemma reach_antisym a b : is_Some (blocks !! a) → reach a b → reach b a → a = b.
Proof.
  intros [la Ha] H1 H2. destruct (reach_in a b) as [lb Hb]; [eauto..|].
  destruct (reach_round _ _ _ _ Ha Hb H1); [done|].
  destruct (reach_round _ _ _ _ Hb Ha H2); [done|lia].
Qed.

(** ** The walk to the parents *)

(** [linked root id path]: the blocks after [root] up to [id], oldest first. *)
Inductive linked (root : HashValue) : HashValue → list ExecutedBlock → Prop :=
| linked_nil : linked root root []
| linked_snoc id b l : get_block t id = Some b → linked root (eb_parent_id b) l →
    linked root id (l ++ [b]).

Lemma get_block_Some id b : get_block t id = Some b ↔ ∃ lb, blocks !! id = Some lb ∧ lb_executed_block lb = b.
Proof. unfold get_block, get_linkable_block. rewrite fmap_Some. naive_solver. Qed.

Lemma linked_reach root id path : is_Some (blocks !! root) → linked root id path → reach root id.
Proof.
  intros Hr. induction 1 as [|id b l Hb _ IH]; [constructor|].
  apply get_block_Some in Hb as (lb & Hlb & <-).
  destruct (reach_in _ _ Hr IH) as [lp Hp].
  eapply rtc_r; [exact IH|]. exists lp. split; [done|]. by eapply (tl_parent TL).
Qed.

Lemma reach_linked root id : reach root id → ∃ path, linked root id path.
Proof.
  revert id. apply rtc_ind_r; [by exists []; constructor|]. intros p c _ He [path IH].
  destruct (edge_block _ _ He) as (lp & lc & _ & Hc & <- & _).
  exists (path ++ [lb_executed_block lc]). constructor; [|done]. apply get_block_Some; eauto.
Qed.

Lemma linked_last root id path b : linked root id path → last path = Some b → get_block t id = Some b.
Proof. destruct 1; [done|]. rewrite last_snoc. by intros [= <-]. Qed.

Lemma linked_nonempty root id path : linked root id path → id ≠ root → ∃ l b,
  path = l ++ [b] ∧ get_block t id = Some b.
Proof. destruct 1; [done|eauto]. Qed.

(** The blocks collected so far are distinct and newer than the current one. *)
Definition walk_inv (cur_round : Round) (res : list ExecutedBlock) : Prop :=
  NoDup (eb_id <$> res)
  ∧ ∀ b, b ∈ res → cur_round < eb_round b ∧ get_block t (eb_id b) = Some b.

Lemma walk_room cur_round res id b :
  walk_inv cur_round res → get_block t id = Some b → cur_round = eb_round b →
  walk_inv cur_round res ∧ NoDup (eb_id <$> (res ++ [b])) ∧ (length res < size blocks)%nat.
Proof.
  intros [Hnd Hall] Hb ->. split; [by split|].
  assert (Hnd' : NoDup (eb_id <$> (res ++ [b]))).
  { rewrite fmap_app. apply NoDup_app. split; [done|]. split; [|apply NoDup_singleton].
    intros x (b' & -> & Hb')%list_elem_of_fmap Hx%list_elem_of_singleton.
    destruct (Hall b' Hb') as [Hlt Hg]. apply get_block_Some in Hb as (lb & Hl & <-).
    pose proof (tl_key TL _ _ Hl) as Hid. apply get_block_Some in Hg as (lb' & Hl' & <-).
    unfold lb_id in Hid. rewrite Hx, Hid in Hl'. simplify_eq. lia. }
  split; [done|].
  cut (length (eb_id <$> (res ++ [b])) ≤ size blocks)%nat; [rewrite length_fmap, length_app; simpl; lia|].
  rewrite <- (size_dom (D:=gset HashValue) blocks).
  rewrite <- (size_list_to_set (C:=gset HashValue) (eb_id <$> (res ++ [b]))) by done.
  apply subseteq_size. intros x Hx%elem_of_list_to_set.
  apply list_elem_of_fmap in Hx as (b' & -> & [Hb'| ->%list_elem_of_singleton]%elem_of_app);
    apply elem_of_dom.
  - destruct (Hall b' Hb') as [_ (lb & ? & _)%get_block_Some]. eauto.
  - apply get_block_Some in Hb as (lb & Hl & <-).
    pose proof (tl_key TL _ _ Hl) as Hid. unfold lb_id in Hid. rewrite Hid. eauto.
Qed.

Lemma walk_next cur_round res id b :
  walk_inv cur_round res → get_block t id = Some b → cur_round = eb_round b →
  ∀ b', get_block t (eb_parent_id b) = Some b' → walk_inv (eb_round b') (res ++ [b]).
Proof.
  intros Hw Hb -> b' Hb'. destruct (walk_room _ _ _ _ Hw Hb eq_refl) as ([_ Hall] & Hnd & _).
  split; [done|].
  pose proof Hb as (lb & Hl & <-)%get_block_Some. apply get_block_Some in Hb' as (lb' & Hl' & <-).
  pose proof (tl_round TL _ _ _ _ Hl Hl' eq_refl) as Hr. unfold lb_round in Hr.
  intros x [Hx| ->%list_elem_of_singleton]%elem_of_app.
  - destruct (Hall x Hx). split; [lia|done].
  - split; [done|]. pose proof (tl_key TL _ _ Hl) as Hid. unfold lb_id in Hid. by rewrite Hid.
Qed.

(** The loop ends; it stops at the first ancestor whose round is at most [root_round]. *)
Lemma path_loop_spec {E} fuel root_round id res :
  (∀ b, get_block t id = Some b → walk_inv (eb_round b) res) →
  (size blocks ≤ fuel + length res)%nat →
  ∃ o, path_loop (E:=E) fuel t root_round id res = Ok o ∧
    match o with
    | None => ∀ anc path b, linked anc id path → get_block t anc = Some b → root_round < eb_round b
    | Some (anc, res') => ∃ path b, res' = res ++ reverse path ∧ linked anc id path
        ∧ get_block t anc = Some b ∧ eb_round b ≤ root_round
        ∧ Forall (λ x, root_round < eb_round x) path
    end.
Proof.
  revert id res. induction fuel as [|fuel IH]; intros id res Hw Hf; simpl;
    destruct (get_block t id) as [b|] eqn:Hb.
  2,4: eexists; split; [done|]; intros anc path b Hl; inversion Hl; congruence.
  - destruct (Z.leb_spec (eb_round b) root_round).
    + eexists; split; [done|]. exists [], b. rewrite app_nil_r. repeat split; eauto using linked.
    + destruct (walk_room _ _ _ _ (Hw b eq_refl) Hb eq_refl) as (_ & _ & ?). lia.
  - destruct (Z.leb_spec (eb_round b) root_round).
    { eexists; split; [done|]. exists [], b. rewrite app_nil_r. repeat split; eauto using linked. }
    destruct (IH (eb_parent_id b) (res ++ [b])) as (o & Ho & Hspec).
    { eauto using walk_next. }
    { rewrite length_app. simpl. lia. }
    exists o. split; [done|]. destruct o as [[anc res']|].
    + destruct Hspec as (path & b' & -> & Hl & Hanc & Hle & Hall).
      exists (path ++ [b]), b'. rewrite reverse_app, <- app_assoc. split; [done|].
      split; [by constructor|]. repeat split; [done..|].
      apply Forall_app. eauto.
    + intros anc path b' Hl Hanc. inversion Hl; simplify_eq; [done|]. by eapply Hspec.
Qed.

(** Every block after the root is newer than the root. *)
Lemma linked_rounds root_id root id path : get_block t root_id = Some root →
  linked root_id id path → Forall (λ b, eb_round root < eb_round b) path.
Proof.
  intros (lr & Hr & <-)%get_block_Some. assert (is_Some (blocks !! root_id)) as Hin by eauto.
  induction 1 as [|id b l Hb Hl IH]; [constructor|]. apply Forall_app. split; [done|].
  apply Forall_singleton. apply get_block_Some in Hb as (lb & Hlb & <-).
  pose proof (linked_reach _ _ _ Hin Hl) as Hre. destruct (reach_in _ _ Hin Hre) as [lp Hlp].
  pose proof (tl_round TL _ _ _ _ Hlb Hlp eq_refl) as Hlt. unfold lb_round in Hlt.
  destruct (reach_round _ _ _ _ Hr Hlp Hre) as [Heq|Hlt']; [|unfold lb_round in Hlt'; lia].
  rewrite Heq in Hr. simplify_eq. lia.
Qed.

(** A walk that stops at the first block of round at most [r] has one result. *)
Lemma linked_stop_unique r anc anc' b b' id path path' :
  linked anc id path → linked anc' id path' →
  get_block t anc = Some b → get_block t anc' = Some b' → eb_round b ≤ r → eb_round b' ≤ r →
  Forall (λ x, r < eb_round x) path → Forall (λ x, r < eb_round x) path' →
  anc = anc' ∧ path = path'.
Proof.
  intros Hl. revert path'. induction Hl as [|id c l Hc Hl IH]; intros path' Hl' Hb Hb' ? ? Hp Hp'.
  - inversion Hl'; [done|]. subst. rewrite Forall_app, Forall_singleton in Hp'.
    simplify_eq. lia.
  - rewrite Forall_app, Forall_singleton in Hp. destruct Hp as [Hp ?].
    inversion Hl'; simplify_eq; [lia|]. apply Forall_app in Hp' as [??]. destruct (IH l0); [done..|by subst].
Qed.

(** [path_from_root_to_block] always returns, and returns the chain from the root to the
    block when the block descends from the root, [None] otherwise. *)
Lemma path_from_root_spec {E} root_id root id :
  get_block t root_id = Some root →
  ∃ o, path_from_root_to_block (E:=E) t id root_id (eb_round root) = Ok o ∧
    match o with
    | Some path => linked root_id id path
    | None => ¬ reach root_id id
    end.
Proof.
  intros Hroot. unfold path_from_root_to_block.
  destruct (path_loop_spec (E:=E) (size blocks) (eb_round root) id []) as (o & -> & Ho).
  { split; [constructor|]. intros b' []%elem_of_nil. }
  { simpl; lia. }
  cbn [r_bind]. destruct o as [[anc res]|].
  - destruct Ho as (path & b & -> & Hl & Hb & Hle & Hall). simpl.
    rewrite reverse_involutive. eexists; split; [done|].
    destruct (Z.eqb_spec anc root_id) as [->|Hne]; [done|].
    intros (path' & Hl')%reach_linked. apply Hne.
    by apply (linked_stop_unique (eb_round root) _ _ _ _ _ _ _ Hl Hl' Hb Hroot);
      eauto using linked_rounds.
  - eexists; split; [done|]. intros (path & Hl)%reach_linked.
    pose proof (Ho _ _ _ Hl Hroot). lia.
Qed.

(** ** Pruning *)

Section pruning.
Context `{HI : HashIter} (root next : HashValue) (Hroot : is_Some (blocks !! root)).

(** A descendant of the root found without passing through the new root. *)
Definition avoids : HashValue → HashValue → Prop := rtc (λ p c, edge p c ∧ c ≠ next).

Lemma avoids_reach a c : avoids a c → reach a c.
Proof. apply rtc_subrel. by intros ?? [??]. Qed.

Lemma reach_avoids c : reach root c → avoids root c ∨ reach next c.
Proof.
  revert c. apply rtc_ind_r; [left; constructor|]. intros p c _ He [IH|IH].
  - destruct (decide (c = next)) as [->|]; [right; constructor|].
    left. by eapply rtc_r.
  - right. by eapply rtc_r.
Qed.

Lemma avoids_not_reach c : reach root next → root ≠ next → avoids root c → ¬ reach next c.
Proof.
  intros Hn Hne. revert c. apply rtc_ind_r.
  - intros Hr. apply Hne. by apply reach_antisym.
  - intros p c _ [He Hc] IH Hr. apply rtc_inv_r in Hr as [->|(q & Hq & He')]; [done|].
    apply IH. by rewrite (edge_parent _ _ _ He He').
Qed.

Record prune_inv (pruned : list HashValue) (stack : list LinkableBlock) : Prop := {
  pi_nodup : NoDup (pruned ++ (lb_id <$> stack));
  pi_stack b : b ∈ stack → blocks !! lb_id b = Some b;
  pi_avoids x : x ∈ pruned ++ (lb_id <$> stack) → avoids root x;
  pi_parent x : x ∈ lb_id <$> stack → x ≠ root → ∃ lx, blocks !! x = Some lx ∧ lb_parent_id lx ∈ pruned;
  pi_order l1 x l2 : pruned = l1 ++ x :: l2 → x ≠ root →
    ∃ lx, blocks !! x = Some lx ∧ lb_parent_id lx ∈ l1;
  pi_closed x c : x ∈ pruned → edge x c → c ≠ next → c ∈ pruned ++ (lb_id <$> stack);
  pi_root : root ∈ pruned ++ (lb_id <$> stack);
}.

Lemma push_children_spec {E} cs stack :
  (∀ c, c ∈ cs → is_Some (blocks !! c)) →
  ∃ bs, push_children (E:=E) t next cs stack = Ok (reverse bs ++ stack)
    ∧ lb_id <$> bs = filter (λ c, c ≠ next) cs
    ∧ ∀ b, b ∈ bs → blocks !! lb_id b = Some b.
Proof.
  revert stack. induction cs as [|c cs IH]; intros stack Hcs.
  { exists []. repeat split. by intros b ?%elem_of_nil. }
  simpl. rewrite filter_cons. destruct (Z.eqb_spec next c) as [<-|Hne].
  { rewrite decide_False by (by intros []). apply IH. intros; apply Hcs. by right. }
  rewrite decide_True by done. destruct (Hcs c) as [b Hb]; [by left|].
  unfold get_linkable_block. rewrite Hb. cbn [expect r_bind].
  destruct (IH (b :: stack)) as (bs & -> & Hids & Hbs); [intros; apply Hcs; by right|].
  pose proof (tl_key TL _ _ Hb) as Hid.
  exists (b :: bs). rewrite reverse_cons, <- app_assoc. split; [done|].
  split; [by rewrite fmap_cons, Hids, Hid|].
  intros b' [->|?]%elem_of_cons; [by rewrite Hid|auto].
Qed.

Lemma set_iter_elem s c : c ∈ set_iter s ↔ c ∈ s.
Proof. by rewrite set_iter_perm, elem_of_elements. Qed.
Lemma set_iter_NoDup s : NoDup (set_iter s).
Proof. rewrite set_iter_perm. apply NoDup_elements. Qed.

(** Popping a block and pushing its children keeps the invariant. *)
Lemma prune_inv_step pruned b stack bs :
  prune_inv pruned (b :: stack) →
  lb_id <$> bs = filter (λ c, c ≠ next) (set_iter (lb_children b)) →
  (∀ b, b ∈ bs → blocks !! lb_id b = Some b) →
  prune_inv (pruned ++ [lb_id b]) (reverse bs ++ stack).
Proof.
  intros [Hnd Hst Hav Hpar Hord Hcl Hrt] Hids Hbs.
  assert (Hb : blocks !! lb_id b = Some b) by (apply Hst; left).
  assert (Hkids : ∀ c, c ∈ lb_id <$> bs ↔ edge (lb_id b) c ∧ c ≠ next).
  { intros c. rewrite Hids, list_elem_of_filter, set_iter_elem. unfold edge.
    split; [naive_solver|]. intros [(lp & ? & ?) ?]. simplify_eq. done. }
  assert (Hperm : (pruned ++ [lb_id b]) ++ (lb_id <$> (reverse bs ++ stack))
                  ≡ₚ (lb_id <$> bs) ++ (pruned ++ (lb_id <$> b :: stack))).
  { rewrite fmap_app, fmap_reverse, reverse_Permutation, fmap_cons.
    rewrite <- (app_assoc pruned), (app_assoc _ pruned), (Permutation_app_comm (lb_id <$> bs) pruned).
    rewrite <- app_assoc. apply Permutation_app_head. simpl. apply Permutation_middle. }
  assert (Hnew : ∀ c, c ∈ lb_id <$> bs → c ∉ pruned ++ (lb_id <$> b :: stack)).
  { intros c [He Hc]%Hkids Hin. destruct (decide (c = root)) as [->|Hcr].
    - assert (Hre : reach root (lb_id b)) by (apply avoids_reach, Hav, elem_of_app; right; left).
      destruct (edge_block _ _ He) as (lp & lc & Hlp & Hlc & _ & Hlt).
      destruct (reach_round _ _ _ _ Hlc Hlp Hre) as [Heq|?]; [|lia].
      rewrite Heq in Hlc. simplify_eq. lia.
    - assert (Hpp : lb_id b ∈ pruned).
      { apply elem_of_app in Hin as [(l1 & l2 & Heq)%list_elem_of_split|Hin].
        - destruct (Hord l1 c l2 Heq Hcr) as (lc & Hlc & Hl1).
          destruct (edge_block _ _ He) as (_ & lc' & _ & Hlc' & Hp & _). simplify_eq.
          rewrite <- Hp. apply elem_of_app. by left.
        - destruct (Hpar c Hin Hcr) as (lc & Hlc & Hl1).
          destruct (edge_block _ _ He) as (_ & lc' & _ & Hlc' & Hp & _). simplify_eq. by rewrite <- Hp. }
      apply NoDup_app in Hnd as (_ & Hd & _). apply (Hd _ Hpp). left. }
  split.
  - rewrite Hperm. apply NoDup_app. split; [|by auto].
    rewrite Hids. apply NoDup_filter, set_iter_NoDup.
  - intros b'. rewrite elem_of_app, elem_of_reverse. intros [?|?]; [auto|]. apply Hst. by right.
  - intros x. rewrite Hperm, elem_of_app, Hkids. intros [[He Hne]|Hx]; [|by apply Hav].
    eapply rtc_r; [apply (Hav (lb_id b))|done]. apply elem_of_app. right. left.
  - intros x. rewrite fmap_app, elem_of_app, fmap_reverse, elem_of_reverse.
    intros [[He _]%Hkids|Hx] Hne.
    + destruct (edge_block _ _ He) as (_ & lc & _ & Hlc & Hp & _). exists lc. split; [done|].
      rewrite Hp, elem_of_app. right. left.
    + destruct (Hpar x) as (lx & ? & ?); [by right|done|]. exists lx. rewrite elem_of_app. auto.
  - intros l1 x l2 Heq Hne. destruct l2 as [|y l2 _] using rev_ind.
    + apply app_inj_tail in Heq as [-> <-]. destruct (Hpar (lb_id b)) as (lx & ? & ?); [left|done|].
      eauto.
    + rewrite app_comm_cons, app_assoc in Heq. apply app_inj_tail in Heq as [-> _]. by eapply Hord.
  - intros x c. rewrite Hperm, elem_of_app, elem_of_app, list_elem_of_singleton, Hkids.
    intros [Hx| ->]; [|by auto]. right. by eapply Hcl.
  - rewrite Hperm. apply elem_of_app. by right.
Qed.

Lemma prune_inv_in pruned stack x : prune_inv pruned stack →
  x ∈ pruned ++ (lb_id <$> stack) → is_Some (blocks !! x).
Proof. intros Hi Hx. eapply reach_in; [done|]. by eapply avoids_reach, pi_avoids. Qed.

(** The worklist runs dry within as many pops as there are blocks. *)
Lemma prune_loop_spec {E} fuel pruned stack :
  prune_inv pruned stack → (size blocks ≤ fuel + length pruned)%nat →
  ∃ l, prune_loop (E:=E) fuel t next stack pruned = Ok l ∧ prune_inv l [].
Proof.
  revert pruned stack. induction fuel as [|fuel IH]; intros pruned [|b stack] Hi Hf; simpl; eauto.
  - exfalso. cut (length (pruned ++ (lb_id <$> b :: stack)) ≤ size blocks)%nat.
    { rewrite length_app. simpl in *. lia. }
    rewrite <- (size_dom (D:=gset HashValue) blocks).
    rewrite <- (size_list_to_set (C:=gset HashValue) (pruned ++ (lb_id <$> b :: stack))) by apply Hi.
    apply subseteq_size. intros x Hx%elem_of_list_to_set. apply elem_of_dom.
    by eapply prune_inv_in.
  - destruct (push_children_spec (E:=E) (set_iter (lb_children b)) stack) as (bs & -> & Hids & Hbs).
    { intros c Hc%set_iter_elem. destruct (tl_child TL (lb_id b) b c) as (? & ? & _); eauto.
      apply (pi_stack _ _ Hi). left. }
    cbn [r_bind]. apply IH; [by eapply prune_inv_step|]. rewrite length_app. simpl. lia.
Qed.

Lemma prune_inv_start b : blocks !! root = Some b → prune_inv [] [b].
Proof.
  intros Hb. pose proof (tl_key TL _ _ Hb) as Hid. split; simpl; rewrite ?Hid.
  - apply NoDup_singleton.
  - intros b' ->%list_elem_of_singleton. by rewrite Hid.
  - intros x ->%list_elem_of_singleton. constructor.
  - by intros x ->%list_elem_of_singleton.
  - by intros [] ??.
  - by intros ?? ?%elem_of_nil.
  - left.
Qed.
End pruning.

(** [find_blocks_to_prune] returns, without a panic, the descendants of the commit root that
    do not descend from the new root: each once, a parent before its children. *)
Lemma find_blocks_to_prune_spec `{HI : HashIter} {E} next :
  is_Some (blocks !! bt_commit_root_id t) → reach (bt_commit_root_id t) next →
  ∃ l, find_blocks_to_prune (E:=E) t next = Ok l ∧ NoDup l
    ∧ (∀ x, x ∈ l ↔ reach (bt_commit_root_id t) x ∧ ¬ reach next x)
    ∧ (∀ l1 x l2, l = l1 ++ x :: l2 → x ≠ bt_commit_root_id t →
         ∃ lx, blocks !! x = Some lx ∧ lb_parent_id lx ∈ l1).
Proof.
  intros Hroot Hnext. unfold find_blocks_to_prune. destruct (Z.eqb_spec next (bt_commit_root_id t)) as [->|Hne].
  { exists []. split; [done|]. split; [constructor|]. split; [|by intros []].
    intros x. rewrite elem_of_nil. naive_solver. }
  unfold linkable_root, get_linkable_block. destruct Hroot as [b Hb]. rewrite Hb. cbn [expect r_bind].
  destruct (prune_loop_spec (bt_commit_root_id t) next (mk_is_Some _ _ Hb) (E:=E) (size blocks) [] [b])
    as (l & Hl & Hi); [by apply prune_inv_start|simpl; lia|].
  exists l. split; [done|]. destruct Hi as [Hnd _ Hav _ Hord Hcl Hrt].
  simpl in *. rewrite app_nil_r in *. repeat split; [done| | | |done].
  - eapply avoids_reach, Hav. done.
  - apply avoids_not_reach with (bt_commit_root_id t); eauto.
  - intros [Hr Hnr]. destruct (reach_avoids (bt_commit_root_id t) next x Hr) as [Ha|]; [|done].
    clear Hr Hnr. revert x Ha. apply rtc_ind_r; [done|]. intros p c _ [He Hc] Hp.
    by apply (Hcl p).
Qed.
End links.

(** The links depend on the blocks only. *)
Lemma tree_links_ext t t' : bt_id_to_block t' = bt_id_to_block t → tree_links t → tree_links t'.
Proof. intros Heq [????]. split; rewrite ?Heq; assumption. Qed.
Lemma reach_ext t t' a c : bt_id_to_block t' = bt_id_to_block t → reach t a c → reach t' a c.
Proof. intros Heq. apply rtc_subrel. intros p q. unfold edge. by rewrite Heq. Qed.
