(* ===== verification/BlockTreeInv.v ===== *)
(** * BlockTreeInv: the invariant of the block tree

    [tree_inv] holds of the tree of a running block store: the links are consistent, both
    roots and the highest certified block are in the tree, pruned blocks wait in an order in
    which parents leave before their children, and a block that left never comes back.
    Every operation of the tree keeps it, and none of them panics. *)

From S2P Require Import Prelude Crypto Accumulator ValidatorVerifier LedgerTypes.
From S2P Require Import AccumulatorProof ConsensusTypes BlockTree BlockTreeFacts.

(** The blocks of an epoch: an id determines the block data, and a block is newer than the
    block whose certificate it carries. *)
Record chain_blocks (U : Block → Prop) : Prop := {
  cb_id a b : U a → U b → b_id a = b_id b → b_block_data a = b_block_data b;
  cb_round p c : U p → U c → b_parent_id c = b_id p → b_round p < b_round c;
}.

(** The tree without the highest certificates and the pruned blocks. *)
Definition in_tree (t : BlockTree) (id : HashValue) : Prop := is_Some (bt_id_to_block t !! id).
Definition round_of (t : BlockTree) (id : HashValue) : Round :=
  from_option lb_round 0 (bt_id_to_block t !! id).

Lemma round_of_eq t id lb : bt_id_to_block t !! id = Some lb → round_of t id = lb_round lb.
Proof. unfold round_of. by intros ->. Qed.

(** ** Insertion of a block *)

Definition with_child (t : BlockTree) (b : ExecutedBlock) (lp : LinkableBlock) : BlockTree :=
  set_blocks (<[eb_id b := LinkableBlock_new b]>
    (<[eb_parent_id b := mkLinkableBlock (lb_executed_block lp) ({[eb_id b]} ∪ lb_children lp)]>
       (bt_id_to_block t))) t.

Lemma insert_block_spec t b : tree_links t →
  insert_block b t =
    match bt_id_to_block t !! eb_id b with
    | Some lb => (t, Ok (lb_executed_block lb))
    | None =>
        match bt_id_to_block t !! eb_parent_id b with
        | None => (t, Err "Parent block not found")
        | Some lp => (with_child t b lp, Ok b)
        end
    end.
Proof.
  intros TL. unfold insert_block, get_block, get_linkable_block.
  destruct (bt_id_to_block t !! eb_id b) as [lb|] eqn:Hb; [done|]. simpl.
  destruct (bt_id_to_block t !! eb_parent_id b) as [lp|] eqn:Hp; [|done].
  unfold add_child. rewrite bool_decide_eq_false_2.
  - rewrite bool_decide_eq_true_2; [done|]. rewrite lookup_insert_ne; [done|].
    intros Heq. congruence.
  - intros Hc. destruct (tl_child _ TL _ _ _ Hp Hc) as (? & ? & _). congruence.
Qed.

Section insertion.
Context (t : BlockTree) (b : ExecutedBlock) (lp : LinkableBlock).
Context (Hnew : bt_id_to_block t !! eb_id b = None) (Hp : bt_id_to_block t !! eb_parent_id b = Some lp).
Local Abbreviation t' := (with_child t b lp).

Lemma with_child_lookup id lb :
  bt_id_to_block t' !! id = Some lb ↔
    (id = eb_id b ∧ lb = LinkableBlock_new b)
    ∨ (id = eb_parent_id b ∧ lb = mkLinkableBlock (lb_executed_block lp) ({[eb_id b]} ∪ lb_children lp))
    ∨ (id ≠ eb_id b ∧ id ≠ eb_parent_id b ∧ bt_id_to_block t !! id = Some lb).
Proof.
  assert (eb_id b ≠ eb_parent_id b) by congruence. simpl.
  rewrite lookup_insert_Some, lookup_insert_Some. naive_solver.
Qed.

(** The executed blocks other than the new one are those of [t]. *)
Lemma with_child_old id lb : bt_id_to_block t' !! id = Some lb → id ≠ eb_id b →
  ∃ lb0, bt_id_to_block t !! id = Some lb0 ∧ lb_executed_block lb = lb_executed_block lb0
    ∧ lb_children lb = (if decide (id = eb_parent_id b) then {[eb_id b]} else ∅) ∪ lb_children lb0.
Proof.
  intros [[-> ->]|[[-> ->]|(? & ? & ?)]]%with_child_lookup Hne; [done|..].
  - exists lp. rewrite decide_True by done. done.
  - exists lb. rewrite decide_False by done. repeat split; [done|]. set_solver.
Qed.
Lemma with_child_keeps id lb0 : bt_id_to_block t !! id = Some lb0 →
  ∃ lb, bt_id_to_block t' !! id = Some lb ∧ lb_executed_block lb = lb_executed_block lb0
    ∧ lb_children lb = (if decide (id = eb_parent_id b) then {[eb_id b]} else ∅) ∪ lb_children lb0.
Proof.
  intros H. destruct (decide (id = eb_parent_id b)) as [->|Hne].
  - simplify_eq. eexists. rewrite with_child_lookup. split; [by right; left|]. done.
  - exists lb0. rewrite with_child_lookup. split; [|set_solver].
    right; right. split_and!; [congruence|done..].
Qed.

Lemma with_child_in id : in_tree t' id ↔ id = eb_id b ∨ in_tree t id.
Proof.
  split.
  - intros [lb Hlb]. destruct (decide (id = eb_id b)); [by left|right].
    destruct (with_child_old _ _ Hlb) as (? & ? & _); [done|]. eexists; eauto.
  - intros [->|[lb0 H0]].
    + eexists. apply with_child_lookup. by left.
    + destruct (with_child_keeps _ _ H0) as (? & ? & _). eexists; eauto.
Qed.

Lemma with_child_round id : in_tree t id → round_of t' id = round_of t id.
Proof.
  intros [lb0 H0]. destruct (with_child_keeps _ _ H0) as (lb & Hlb & He & _).
  rewrite (round_of_eq _ _ _ Hlb), (round_of_eq _ _ _ H0). unfold lb_round. by rewrite He.
Qed.

Lemma with_child_edge p c : edge t' p c ↔ (p = eb_parent_id b ∧ c = eb_id b) ∨ edge t p c.
Proof.
  split.
  - intros (lb & Hlb & Hc). destruct (decide (p = eb_id b)) as [->|Hne].
    { apply with_child_lookup in Hlb as [[_ ->]|[[? _]|[? _]]]; [set_solver|congruence|done]. }
    destruct (with_child_old _ _ Hlb Hne) as (lb0 & H0 & _ & Hch). rewrite Hch in Hc.
    destruct (decide (p = eb_parent_id b)); [|right; exists lb0; set_solver].
    apply elem_of_union in Hc as [?%elem_of_singleton|?]; [by left|right; by exists lb0].
  - intros [[-> ->]|(lb0 & H0 & Hc)].
    + destruct (with_child_keeps _ _ Hp) as (lb & Hlb & _ & Hch). exists lb. split; [done|].
      rewrite Hch, decide_True by done. set_solver.
    + destruct (with_child_keeps _ _ H0) as (lb & Hlb & _ & Hch). exists lb. split; [done|].
      rewrite Hch. set_solver.
Qed.

Lemma with_child_reach a c : reach t a c → reach t' a c.
Proof. apply rtc_subrel. intros ?? ?. apply with_child_edge. by right. Qed.

Lemma with_child_reach_old a c : tree_links t → c ≠ eb_id b → reach t' a c → reach t a c.
Proof.
  intros TL Hc H. induction H as [|a d c He H IH]; [constructor|].
  apply with_child_edge in He as [[-> ->]|He]; [|by eapply rtc_l; [|apply IH]].
  exfalso. clear IH. apply rtc_inv in H as [<-|(d' & He' & _)]; [done|].
  apply with_child_edge in He' as [[? _]|(l & Hl & _)]; congruence.
Qed.

Lemma with_child_links : tree_links t → (∀ c lc, bt_id_to_block t !! c = Some lc → lb_parent_id lc ≠ eb_id b) →
  eb_round (lb_executed_block lp) < eb_round b → tree_links t'.
Proof.
  intros TL Horphan Hr. assert (Hne : eb_id b ≠ eb_parent_id b) by congruence. split.
  - intros id lb Hlb. destruct (decide (id = eb_id b)) as [->|Hid].
    { apply with_child_lookup in Hlb as [[_ ->]|[[? _]|[? _]]]; [done|congruence|done]. }
    destruct (with_child_old _ _ Hlb Hid) as (lb0 & H0 & He & _).
    unfold lb_id. rewrite He. by apply (tl_key _ TL).
  - intros p lb c Hlb Hc. assert (edge t' p c) as [[-> ->]|He]%with_child_edge by by exists lb.
    { exists (LinkableBlock_new b). rewrite with_child_lookup. auto. }
    destruct He as (lb0 & H0 & Hc0). destruct (tl_child _ TL _ _ _ H0 Hc0) as (lc & Hlc & <-).
    destruct (with_child_keeps _ _ Hlc) as (lc' & Hlc' & He & _). exists lc'. split; [done|].
    unfold lb_parent_id. by rewrite He.
  - intros c lc p lb Hc Hlb Hpar. cut (edge t' p c); [intros (?&?&?); by simplify_eq|].
    apply with_child_edge. destruct (decide (c = eb_id b)) as [->|Hcn].
    { left. apply with_child_lookup in Hc as [[_ ->]|[[? _]|[? _]]]; [|congruence|done]. by subst. }
    destruct (with_child_old _ _ Hc Hcn) as (lc0 & Hc0 & He & _).
    unfold lb_parent_id in Hpar. rewrite He in Hpar.
    destruct (decide (p = eb_id b)) as [->|Hpn]; [by destruct (Horphan _ _ Hc0)|].
    destruct (with_child_old _ _ Hlb Hpn) as (lb0 & H0 & _). right. exists lb0. split; [done|].
    by eapply (tl_parent _ TL).
  - intros c lc p lb Hc Hlb Hpar. unfold lb_parent_id, lb_round in *.
    destruct (decide (c = eb_id b)) as [->|Hcn].
    { apply with_child_lookup in Hc as [[_ ->]|[[? _]|[? _]]]; [|congruence|done]. simpl in *. subst p.
      apply with_child_lookup in Hlb as [[? _]|[[_ ->]|(_ & ? & _)]]; [congruence|done|done]. }
    destruct (with_child_old _ _ Hc Hcn) as (lc0 & Hc0 & Hec & _). rewrite Hec in *.
    destruct (decide (p = eb_id b)) as [->|Hpn]; [by destruct (Horphan _ _ Hc0)|].
    destruct (with_child_old _ _ Hlb Hpn) as (lb0 & H0 & Heb & _). rewrite Heb.
    by eapply (tl_round _ TL).
Qed.
End insertion.

(** ** The invariant *)

Section inv.
Context (U : Block → Prop) (HU : chain_blocks U).

(** [hist]: the blocks that were ever in the tree. *)
Record tree_inv (hist : list Block) (t : BlockTree) : Prop := {
  ti_links : tree_links t;
  ti_exists b : b ∈ hist → U b;
  ti_hist id lb : bt_id_to_block t !! id = Some lb → eb_block (lb_executed_block lb) ∈ hist;
  ti_closed b : b ∈ hist → (∃ p, p ∈ hist ∧ b_id p = b_parent_id b)
    ∨ b_round b ≤ round_of t (bt_ordered_root_id t);
  ti_gone b : b ∈ hist → ¬ in_tree t (b_id b) →
    b_round b ≤ round_of t (bt_ordered_root_id t) ∨ ¬ in_tree t (b_parent_id b);
  ti_commit_root : in_tree t (bt_commit_root_id t);
  ti_ordered_root : reach t (bt_commit_root_id t) (bt_ordered_root_id t);
  ti_certified : reach t (bt_ordered_root_id t) (bt_highest_certified_block_id t);
  ti_pruned_nodup : NoDup (bt_pruned_block_ids t);
  ti_pruned_in x : x ∈ bt_pruned_block_ids t → in_tree t x;
  ti_pruned_dead x : x ∈ bt_pruned_block_ids t → ¬ reach t (bt_commit_root_id t) x;
  ti_pruned_order l1 x l2 lx : bt_pruned_block_ids t = l1 ++ x :: l2 →
    bt_id_to_block t !! x = Some lx → in_tree t (lb_parent_id lx) → lb_parent_id lx ∈ l1;
  ti_pruned_len : (length (bt_pruned_block_ids t) ≤ bt_max_pruned_blocks_in_mem t)%nat;
  ti_root_parent lr : bt_id_to_block t !! bt_commit_root_id t = Some lr →
    in_tree t (lb_parent_id lr) → lb_parent_id lr ∈ bt_pruned_block_ids t;
  ti_ledger_info :
    bi_round (lis_commit_info (bt_highest_ledger_info t)) ≤ round_of t (bt_commit_root_id t);
}.

Lemma tree_inv_ordered hist t : tree_inv hist t → in_tree t (bt_ordered_root_id t).
Proof. intros Hi. eapply reach_in; [apply Hi|apply (ti_commit_root _ _ Hi)|apply Hi]. Qed.
Lemma tree_inv_certified hist t : tree_inv hist t → in_tree t (bt_highest_certified_block_id t).
Proof. intros Hi. eapply reach_in; [apply Hi|by eapply tree_inv_ordered|apply Hi]. Qed.

(** ** A block that left does not come back *)

Lemma fresh_block hist t b :
  tree_inv hist t → U b → ¬ in_tree t (b_id b) → in_tree t (b_parent_id b) →
  round_of t (bt_ordered_root_id t) < b_round b →
  (∀ b', b' ∈ hist → b_id b' ≠ b_id b)
  ∧ (∀ c, c ∈ hist → b_parent_id c ≠ b_id b).
Proof.
  intros Hi HUb Hnew Hpar Hround. assert (Hfresh : ∀ b', b' ∈ hist → b_id b' ≠ b_id b).
  { intros b' Hb' Hid. pose proof (cb_id _ HU b' b (ti_exists _ _ Hi _ Hb') HUb Hid) as Hdata.
    destruct (ti_gone _ _ Hi _ Hb') as [Hle|Hnp].
    - by rewrite Hid.
    - unfold b_round in *. rewrite Hdata in Hle. lia.
    - apply Hnp. unfold b_parent_id, b_quorum_cert in *. by rewrite Hdata. }
  split; [done|]. intros c Hc Hid. destruct (ti_closed _ _ Hi _ Hc) as [(p & Hp & Heq)|Hle].
  - apply (Hfresh p Hp). by rewrite Heq.
  - pose proof (cb_round _ HU b c HUb (ti_exists _ _ Hi _ Hc) Hid). lia.
Qed.

(** Inserting a block newer than the ordered root keeps the invariant. *)
Lemma with_child_inv hist t b lp :
  tree_inv hist t → U (eb_block b) →
  bt_id_to_block t !! eb_id b = None → bt_id_to_block t !! eb_parent_id b = Some lp →
  round_of t (bt_ordered_root_id t) < eb_round b →
  tree_inv (eb_block b :: hist) (with_child t b lp).
Proof.
  intros Hi HUb Hnew Hp Hround. pose proof (ti_links _ _ Hi) as TL.
  destruct (fresh_block hist t (eb_block b)) as [Hfresh Horph]; try done.
  { intros [? ?]. unfold eb_id in *. congruence. }
  { by exists lp. }
  assert (Hold : ∀ id, in_tree t id → id ≠ eb_id b) by (intros ? [??] ?; congruence).
  assert (Hor := tree_inv_ordered _ _ Hi).
  assert (Hrd : eb_round (lb_executed_block lp) < eb_round b).
  { apply (cb_round _ HU); [by eapply (ti_exists _ _ Hi), (ti_hist _ _ Hi)|done|].
    symmetry. apply (tl_key _ TL _ _ Hp). }
  split; cbn [with_child set_blocks bt_ordered_root_id bt_commit_root_id bt_pruned_block_ids
              bt_highest_certified_block_id bt_max_pruned_blocks_in_mem bt_highest_ledger_info].
  - apply with_child_links; try done. intros c lc Hc. apply (Horph _ (ti_hist _ _ Hi _ _ Hc)).
  - intros b' [->|?]%elem_of_cons; [done|]. by apply (ti_exists _ _ Hi).
  - intros id lb Hlb. destruct (decide (id = eb_id b)) as [->|Hne].
    + apply with_child_lookup in Hlb as [[_ ->]|[[? _]|[? _]]]; [left|congruence|done|done..].
    + destruct (with_child_old _ _ _ Hnew Hp _ _ Hlb Hne) as (lb0 & H0 & -> & _).
      right. by apply (ti_hist _ _ Hi _ _ H0).
  - intros b'. rewrite with_child_round by done. intros [->|Hb']%elem_of_cons.
    + left. exists (eb_block (lb_executed_block lp)). split; [right; by eapply (ti_hist _ _ Hi)|].
      apply (tl_key _ TL _ _ Hp).
    + destruct (ti_closed _ _ Hi _ Hb') as [(p & ? & ?)|?]; [left|by right].
      exists p. by split; [right|].
  - intros b'. rewrite with_child_round, !with_child_in by done. intros [->|Hb']%elem_of_cons Hn.
    + destruct Hn. by left.
    + destruct (ti_gone _ _ Hi _ Hb'); [naive_solver|by left|]. right.
      intros [Heq|?]; [|done]. by apply (Horph _ Hb').
  - apply with_child_in; [done..|]. right. apply Hi.
  - by apply with_child_reach, Hi.
  - by apply with_child_reach, Hi.
  - apply Hi.
  - intros x Hx. apply with_child_in; [done..|]. right. by apply Hi.
  - intros x Hx Hr. apply (ti_pruned_dead _ _ Hi _ Hx).
    eapply with_child_reach_old; eauto. by apply Hold, (ti_pruned_in _ _ Hi).
  - intros l1 x l2 lx Heq Hx. assert (x ≠ eb_id b) as Hne.
    { apply Hold, (ti_pruned_in _ _ Hi). rewrite Heq. set_solver. }
    destruct (with_child_old _ _ _ Hnew Hp _ _ Hx Hne) as (lx0 & H0 & He & _).
    unfold lb_parent_id. rewrite He, with_child_in by done. intros [Hc|Hin].
    { by destruct (Horph _ (ti_hist _ _ Hi _ _ H0)). }
    by eapply (ti_pruned_order _ _ Hi).
  - apply Hi.
  - intros lr Hr. assert (bt_commit_root_id t ≠ eb_id b) as Hne by apply Hold, Hi.
    destruct (with_child_old _ _ _ Hnew Hp _ _ Hr Hne) as (lr0 & H0 & He & _).
    unfold lb_parent_id. rewrite He, with_child_in by done. intros [Hc|Hin].
    { by destruct (Horph _ (ti_hist _ _ Hi _ _ H0)). }
    by apply (ti_root_parent _ _ Hi _ H0).
  - rewrite with_child_round; [|done|done|]; apply Hi.
Qed.

(** ** Eviction of pruned blocks *)

Definition delete_all {A} (l : list HashValue) (m : gmap HashValue A) : gmap HashValue A :=
  filter (λ kv, kv.1 ∉ l) m.
(** The oldest [n] pruned blocks leave. *)
Definition evict (n : nat) (t : BlockTree) : BlockTree :=
  set_pruned (drop n (bt_pruned_block_ids t))
    (set_quorum_certs (delete_all (take n (bt_pruned_block_ids t)) (bt_id_to_quorum_cert t))
       (set_blocks (delete_all (take n (bt_pruned_block_ids t)) (bt_id_to_block t)) t)).

Lemma delete_all_nil {A} (m : gmap HashValue A) : delete_all [] m = m.
Proof. apply map_filter_id. intros. apply not_elem_of_nil. Qed.
Lemma delete_all_cons {A} x l (m : gmap HashValue A) :
  delete_all (x :: l) m = delete_all l (delete x m).
Proof.
  apply map_eq. intros k. apply option_eq. intros v. unfold delete_all.
  rewrite !map_lookup_filter_Some, lookup_delete_Some. simpl. set_solver.
Qed.
Lemma delete_all_Some {A} l (m : gmap HashValue A) k v :
  delete_all l m !! k = Some v ↔ m !! k = Some v ∧ k ∉ l.
Proof. unfold delete_all. by rewrite map_lookup_filter_Some. Qed.

Lemma remove_front_evict n t : remove_front n t = evict n t.
Proof.
  revert t. induction n as [|n IH]; intros t; simpl.
  - unfold evict. rewrite take_0, drop_0, !delete_all_nil. by destruct t.
  - destruct t as [m o c h q tc tc2 oc li qs [|x l] mx]; rewrite IH; unfold evict; simpl.
    + by rewrite take_nil, drop_nil.
    + by rewrite !delete_all_cons.
Qed.

Lemma process_pruned_blocks_evict l t :
  process_pruned_blocks l t =
    evict (length (bt_pruned_block_ids t ++ l) - bt_max_pruned_blocks_in_mem t)
      (set_pruned (bt_pruned_block_ids t ++ l) t).
Proof.
  unfold process_pruned_blocks. cbn [set_pruned bt_pruned_block_ids bt_max_pruned_blocks_in_mem].
  destruct (Nat.ltb_spec (bt_max_pruned_blocks_in_mem t) (length (bt_pruned_block_ids t ++ l)));
    rewrite <- remove_front_evict; [done|]. by replace (_ - _)%nat with O by lia.
Qed.

(** ** The callback and the ordered root *)

Section ordered_root.
Context `{HI : HashIter}.

Lemma push_children_blocks {E} t t' next cs stack : bt_id_to_block t' = bt_id_to_block t →
  push_children (E:=E) t' next cs stack = push_children t next cs stack.
Proof.
  intros Heq. revert stack. induction cs as [|c cs IH]; intros stack; simpl; [done|].
  unfold get_linkable_block. rewrite Heq. destruct (next =? c); [done|].
  destruct (bt_id_to_block t !! c); simpl; auto.
Qed.

Lemma prune_loop_blocks {E} fuel t t' next stack pruned : bt_id_to_block t' = bt_id_to_block t →
  prune_loop (E:=E) fuel t' next stack pruned = prune_loop fuel t next stack pruned.
Proof.
  intros Heq. revert stack pruned.
  induction fuel as [|fuel IH]; intros [|b stack] pruned; simpl; try done.
  rewrite (push_children_blocks t t' _ _ _ Heq). destruct (push_children _ _ _ _); simpl; auto.
Qed.

(** The callback neither reads nor moves the ordered root: it may run before or after the
    update of the ordered root by the commit that queued it. *)
Lemma commit_callback_ordered_root blocks proof t o :
  commit_callback blocks proof (set_roots o (bt_commit_root_id t) t)
  = let '(t', r) := commit_callback blocks proof t in (set_roots o (bt_commit_root_id t') t', r).
Proof.
  unfold commit_callback, st_bind, st_lift, st_get, st_put, st_ret.
  destruct (last blocks) as [b|]; simpl; [|done].
  change (commit_root (set_roots _ _ t)) with (commit_root (E:=string) t).
  destruct (commit_root t) as [r|e|m]; [|done..].
  assert (Hf : find_blocks_to_prune (E:=string) (set_roots o (bt_commit_root_id t) t) (eb_id b)
               = find_blocks_to_prune t (eb_id b)).
  { unfold find_blocks_to_prune. simpl. destruct (_ =? _); [done|].
    change (linkable_root (set_roots _ _ t)) with (linkable_root (E:=string) t).
    destruct (linkable_root t); simpl; [by apply prune_loop_blocks|done..]. }
  rewrite Hf. destruct (find_blocks_to_prune t (eb_id b)) as [l|e|m]; [|done..].
  rewrite !process_pruned_blocks_evict. unfold update_highest_ledger_info. simpl.
  destruct (_ <? _); [|done]. unfold update_commit_root, block_exists. simpl.
  by destruct (bool_decide _).
Qed.
End ordered_root.

(** ** Commit *)

Section committing.
Context (hist : list Block) (t : BlockTree) (b : HashValue) (l : list HashValue).
Context (Hi : tree_inv hist t) (Hb : reach t (bt_commit_root_id t) b).
Context (Hordered : reach t b (bt_ordered_root_id t)).
Context (Hnd : NoDup l)
  (Hl : ∀ x, x ∈ l ↔ reach t (bt_commit_root_id t) x ∧ ¬ reach t b x)
  (Hord : ∀ l1 x l2, l = l1 ++ x :: l2 → x ≠ bt_commit_root_id t →
     ∃ lx, bt_id_to_block t !! x = Some lx ∧ lb_parent_id lx ∈ l1).
Local Abbreviation P := (bt_pruned_block_ids t ++ l).
Local Abbreviation n := (length P - bt_max_pruned_blocks_in_mem t)%nat.
Local Abbreviation t' := (evict n (set_pruned P t)).

Lemma waiting_dead x : x ∈ P → ¬ reach t b x.
Proof.
  intros [Hx|Hx]%elem_of_app Hr; [|by apply Hl in Hx as [_ ?]].
  apply (ti_pruned_dead _ _ Hi _ Hx). by etrans.
Qed.

Lemma waiting_in x : x ∈ P → in_tree t x.
Proof.
  intros [Hx|[Hx _]%Hl]%elem_of_app; [by apply Hi|].
  eapply reach_in; [apply Hi|apply (ti_commit_root _ _ Hi)|done].
Qed.

Lemma waiting_NoDup : NoDup P.
Proof.
  apply NoDup_app. split; [apply Hi|]. split; [|done].
  intros x Hx [Hr _]%Hl. by apply (ti_pruned_dead _ _ Hi _ Hx).
Qed.

Lemma waiting_order l1 x l2 lx : P = l1 ++ x :: l2 →
  bt_id_to_block t !! x = Some lx → in_tree t (lb_parent_id lx) → lb_parent_id lx ∈ l1.
Proof.
  intros Heq Hx Hin. assert (Hnew : ∀ k, l = k ++ x :: l2 → lb_parent_id lx ∈ bt_pruned_block_ids t ++ k).
  { intros k Hk. apply elem_of_app. destruct (decide (x = bt_commit_root_id t)) as [->|Hne].
    - left. by apply (ti_root_parent _ _ Hi).
    - right. destruct (Hord _ _ _ Hk Hne) as (? & ? & ?). by simplify_eq. }
  apply app_eq_inv in Heq as [(k & Hk & Hxl)|(k & -> & Hk)]; [|by apply Hnew].
  destruct k as [|y k]; simpl in Hxl.
  - rewrite app_nil_r in Hk. subst l1. specialize (Hnew [] (eq_sym Hxl)). by rewrite app_nil_r in Hnew.
  - injection Hxl as <- ->. by eapply (ti_pruned_order _ _ Hi).
Qed.

Lemma leaving_waiting x : x ∈ take n P → x ∈ P.
Proof. intros Hx. rewrite <- (take_drop n P). apply elem_of_app. by left. Qed.
Lemma staying_waiting x : x ∈ drop n P → x ∈ P.
Proof. intros Hx. rewrite <- (take_drop n P). apply elem_of_app. by right. Qed.

Lemma staying_NoDup : (∀ x, x ∈ take n P → x ∉ drop n P) ∧ NoDup (drop n P).
Proof.
  pose proof waiting_NoDup as H. rewrite <- (take_drop n P) in H.
  by apply NoDup_app in H as (_ & ? & ?).
Qed.

(** With a block leave its parent and its older relatives. *)
Lemma leaving_parent c lc : c ∈ take n P → bt_id_to_block t !! c = Some lc →
  in_tree t (lb_parent_id lc) → lb_parent_id lc ∈ take n P.
Proof.
  intros (l1 & l2 & Heq)%list_elem_of_split Hc Hin. rewrite Heq. apply elem_of_app. left.
  apply (waiting_order l1 c (l2 ++ drop n P) lc); [|done..].
  rewrite app_comm_cons, app_assoc, <- Heq. by rewrite take_drop.
Qed.

Lemma evicted_lookup id lb : bt_id_to_block t' !! id = Some lb ↔
  bt_id_to_block t !! id = Some lb ∧ id ∉ take n P.
Proof. apply delete_all_Some. Qed.
Lemma evicted_in id : in_tree t' id ↔ in_tree t id ∧ id ∉ take n P.
Proof. unfold in_tree, is_Some. setoid_rewrite evicted_lookup. naive_solver. Qed.
Lemma evicted_reach a c : reach t' a c → reach t a c.
Proof.
  apply rtc_subrel. intros p q (lp & [Hp _]%evicted_lookup & Hq). by exists lp.
Qed.
Lemma live_stays x : reach t b x → x ∉ take n P.
Proof. intros Hx Hin. eapply waiting_dead; [|done]. by apply leaving_waiting. Qed.

Lemma evicted_reach_live_from a c : reach t b a → reach t a c → reach t' a c.
Proof.
  intros Ha. revert c. apply rtc_ind_r; [constructor|]. intros p c Hp (lp & Hlp & Hc) IH.
  eapply rtc_r; [exact IH|]. exists lp. rewrite evicted_lookup. split_and!; [done| |done].
  apply live_stays. by etrans.
Qed.
Lemma evicted_reach_live c : reach t b c → reach t' b c.
Proof. apply evicted_reach_live_from. constructor. Qed.

Lemma evicted_links : tree_links t'.
Proof.
  pose proof (ti_links _ _ Hi) as TL. split.
  - intros id lb [H _]%evicted_lookup. by apply (tl_key _ TL).
  - intros p lp c [Hp Hpn]%evicted_lookup Hc. destruct (tl_child _ TL _ _ _ Hp Hc) as (lc & Hlc & <-).
    exists lc. rewrite evicted_lookup. split_and!; [done| |done]. intros Hin. apply Hpn.
    apply (leaving_parent c lc); [done|done|by exists lp].
  - intros c lc p lp [Hc _]%evicted_lookup [Hp _]%evicted_lookup. by apply (tl_parent _ TL c lc p lp).
  - intros c lc p lp [Hc _]%evicted_lookup [Hp _]%evicted_lookup. by apply (tl_round _ TL c lc p lp).
Qed.

Lemma evicted_round id : id ∉ take n P → round_of t' id = round_of t id.
Proof.
  intros Hn. unfold round_of. destruct (bt_id_to_block t !! id) as [lb|] eqn:Hlb.
  - by rewrite (proj2 (evicted_lookup _ _) (conj Hlb Hn)).
  - destruct (bt_id_to_block t' !! id) eqn:Hlb'; [|done].
    apply evicted_lookup in Hlb' as [? _]. congruence.
Qed.

(** A block that left in this commit left after its parent. *)
Lemma evicted_gone c : c ∈ hist → ¬ in_tree t' (b_id c) →
  b_round c ≤ round_of t (bt_ordered_root_id t) ∨ ¬ in_tree t' (b_parent_id c).
Proof.
  intros Hc Hn. rewrite evicted_in in *. destruct (decide (in_tree t (b_id c))) as [[lb Hlb]|Hnt].
  2: { destruct (ti_gone _ _ Hi _ Hc Hnt); [by left|right; naive_solver]. }
  right. intros [Hpin Hpn]. apply Hn. split; [by eexists|]. intros Hin. apply Hpn.
  assert (Hpar : lb_parent_id lb = b_parent_id c).
  { unfold lb_parent_id, eb_parent_id, eb_quorum_cert, b_parent_id, b_quorum_cert.
    rewrite (cb_id _ HU (eb_block (lb_executed_block lb)) c); [done|..].
    - eapply (ti_exists _ _ Hi), (ti_hist _ _ Hi _ _ Hlb).
    - by apply (ti_exists _ _ Hi).
    - by apply (tl_key _ (ti_links _ _ Hi)). }
  rewrite <- Hpar in *. by apply (leaving_parent (b_id c) lb).
Qed.

(** The parent of the new root waits to leave, or has left. *)
Lemma new_root_parent lr : bt_id_to_block t !! b = Some lr → in_tree t (lb_parent_id lr) →
  lb_parent_id lr ∈ P.
Proof.
  intros Hr Hpin. apply elem_of_app. destruct (decide (b = bt_commit_root_id t)) as [Heq|Hne].
  - rewrite Heq in Hr. left. by apply (ti_root_parent _ _ Hi).
  - right. apply rtc_inv_r in Hb as [?|(p & Hp & He)]; [done|].
    destruct (edge_block _ (ti_links _ _ Hi) _ _ He) as (lp & lr' & Hlp & Hlr' & Hpar & Hlt).
    simplify_eq. apply Hl. split; [done|]. intros Hbp.
    destruct (reach_round _ (ti_links _ _ Hi) _ _ _ _ Hr Hlp Hbp) as [->|?]; simplify_eq; lia.
Qed.

Lemma new_root_in : in_tree t' b.
Proof.
  apply evicted_in. split; [eapply reach_in; [apply Hi|apply (ti_commit_root _ _ Hi)|done]|].
  apply live_stays. constructor.
Qed.

Lemma commit_inv li :
  bi_round (lis_commit_info li) ≤ round_of t b →
  tree_inv hist (set_roots (bt_ordered_root_id t) b (set_ledger_info li t')).
Proof.
  intros Hli. pose proof (live_stays _ Hordered) as Ho.
  assert (Hbl : b ∉ take n P) by (apply live_stays; constructor).
  pose proof (evicted_round _ Ho) as Hround.
  split; cbn [set_roots set_ledger_info bt_commit_root_id bt_ordered_root_id bt_pruned_block_ids
              bt_highest_certified_block_id bt_max_pruned_blocks_in_mem bt_highest_ledger_info
              bt_id_to_block].
  - apply (tree_links_ext t'); [done|apply evicted_links].
  - apply Hi.
  - intros id lb [H _]%evicted_lookup. by apply (ti_hist _ _ Hi _ _ H).
  - intros b' Hb'. change (round_of _ _) with (round_of t' (bt_ordered_root_id t)).
    rewrite Hround. by apply (ti_closed _ _ Hi).
  - intros b' Hb' Hn. change (round_of _ _) with (round_of t' (bt_ordered_root_id t)).
    rewrite Hround. by apply evicted_gone.
  - apply new_root_in.
  - by apply evicted_reach_live.
  - apply (evicted_reach_live_from (bt_ordered_root_id t)); [done|apply Hi].
  - apply staying_NoDup.
  - intros x Hx. apply evicted_in. split; [apply waiting_in; by apply staying_waiting|].
    intros Hx'. by apply (proj1 staying_NoDup x).
  - intros x Hx Hr%evicted_reach. eapply waiting_dead; [|done]. by apply staying_waiting.
  - intros l1 x l2 lx Heq [Hx _]%evicted_lookup [Hpin Hpn]%evicted_in.
    assert (HP : P = (take n P ++ l1) ++ x :: l2).
    { rewrite <- app_assoc. rewrite <- (take_drop n P) at 1. f_equal. exact Heq. }
    pose proof (waiting_order _ _ _ _ HP Hx Hpin) as [?|?]%elem_of_app; done.
  - simpl. rewrite length_drop. lia.
  - intros lr [Hr _]%evicted_lookup [Hpin Hpn]%evicted_in.
    pose proof (new_root_parent _ Hr Hpin) as Hin. rewrite <- (take_drop n P) in Hin.
    by apply elem_of_app in Hin as [?|?].
  - change (round_of _ _) with (round_of t' b). by rewrite evicted_round.
Qed.
End committing.

(** Only a ledger info of the commit root itself is not newer than the highest one. *)
Lemma commit_not_newer hist t b :
  tree_inv hist t → reach t (bt_commit_root_id t) b →
  round_of t b ≤ bi_round (lis_commit_info (bt_highest_ledger_info t)) → b = bt_commit_root_id t.
Proof.
  intros Hi Hb Hle. pose proof (ti_ledger_info _ _ Hi) as Hle'. pose proof (ti_links _ _ Hi) as TL.
  destruct (ti_commit_root _ _ Hi) as [lr Hr].
  destruct (reach_in _ TL _ _ (ti_commit_root _ _ Hi) Hb) as [lb Hlb].
  rewrite (round_of_eq _ _ _ Hlb) in Hle. rewrite (round_of_eq _ _ _ Hr) in Hle'.
  destruct (reach_round _ TL _ _ _ _ Hr Hlb Hb); [done|lia].
Qed.

(** The callback moves the commit root to the last committed block, evicts the oldest
    pruned blocks beyond the limit, and returns the ids newly pruned. *)
Lemma commit_callback_spec `{HI : HashIter} hist t blocks proof b :
  tree_inv hist t → last blocks = Some b →
  reach t (bt_commit_root_id t) (eb_id b) → reach t (eb_id b) (bt_ordered_root_id t) →
  bi_id (lis_commit_info proof) = eb_id b →
  bi_round (lis_commit_info proof) = round_of t (eb_id b) →
  ∃ l t', commit_callback blocks proof t = (t', Ok l)
    ∧ tree_inv hist t'
    ∧ (∀ x, x ∈ l ↔ reach t (bt_commit_root_id t) x ∧ ¬ reach t (eb_id b) x)
    ∧ bt_commit_root_id t' = eb_id b
    ∧ (∃ li n, t' = set_roots (bt_ordered_root_id t) (eb_id b)
                      (set_ledger_info li (evict n (set_pruned (bt_pruned_block_ids t ++ l) t)))
               ∧ (li = proof ∨ eb_id b = bt_commit_root_id t)
               ∧ n = (length (bt_pruned_block_ids t ++ l) - bt_max_pruned_blocks_in_mem t)%nat).
Proof.
  intros Hi Hlast Hb Hbo Hid Hround. pose proof (ti_links _ _ Hi) as TL.
  destruct (find_blocks_to_prune_spec _ TL (E:=string) (eb_id b) (ti_commit_root _ _ Hi) Hb)
    as (l & Hf & Hnd & Hl & Hord).
  pose proof (new_root_in _ _ _ _ Hi Hb Hl) as Hin.
  pose proof (commit_inv _ _ _ _ Hi Hb Hbo Hnd Hl Hord) as Hinv.
  exists l. destruct (ti_commit_root _ _ Hi) as [lr Hr].
  unfold commit_callback, commit_root, get_block, get_linkable_block, st_bind, st_lift, st_get, st_put, st_ret.
  rewrite Hlast, Hr. cbn [expect fmap option_fmap option_map].
  rewrite Hf, process_pruned_blocks_evict. unfold update_highest_ledger_info.
  cbn [evict set_pruned set_quorum_certs set_blocks bt_highest_ledger_info].
  destruct (Z.ltb_spec (bi_round (lis_commit_info (bt_highest_ledger_info t)))
              (bi_round (lis_commit_info proof))) as [?|Hle].
  - unfold update_commit_root, block_exists. rewrite Hid, bool_decide_eq_true_2 by exact Hin.
    eexists. split; [done|]. split; [apply (Hinv proof); lia|]. split; [done|]. split; [done|].
    exists proof. eexists. split; [done|]. auto.
  - assert (Heq : eb_id b = bt_commit_root_id t) by (eapply commit_not_newer; eauto; lia).
    eexists. split; [done|]. rewrite <- Heq in Hl.
    specialize (Hinv (bt_highest_ledger_info t)). rewrite Heq in *.
    split; [apply Hinv, (ti_ledger_info _ _ Hi)|]. split; [done|]. split; [done|].
    exists (bt_highest_ledger_info t). eexists. split; [done|]. auto.
Qed.

(** ** Certificates *)

(** The highest certificates are the highest of those kept. *)
Record cert_inv (t : BlockTree) : Prop := {
  ci_key id qc : bt_id_to_quorum_cert t !! id = Some qc →
    bi_id (qc_certified_block qc) = id ∧ in_tree t id;
  ci_highest : bi_id (qc_certified_block (bt_highest_quorum_cert t)) = bt_highest_certified_block_id t;
  ci_certified id qc : bt_id_to_quorum_cert t !! id = Some qc →
    round_of t id ≤ round_of t (bt_highest_certified_block_id t);
  ci_ordered id qc : bt_id_to_quorum_cert t !! id = Some qc →
    bi_round (qc_commit_info qc) ≤ bi_round (qc_commit_info (bt_highest_ordered_cert t));
}.

(** A certified block newer than every other one extends the ordered root: the safety of
    the consensus, for the certificates that reach this replica. *)
Definition safe_cert (t : BlockTree) (qc : QuorumCert) : Prop :=
  let id := bi_id (qc_certified_block qc) in
  in_tree t id → round_of t (bt_highest_certified_block_id t) < round_of t id →
  reach t (bt_ordered_root_id t) id.

(** What the invariant reads of the tree, apart from the highest certified block. *)
Definition same_tree (t t' : BlockTree) : Prop :=
  bt_id_to_block t' = bt_id_to_block t ∧ bt_ordered_root_id t' = bt_ordered_root_id t
  ∧ bt_commit_root_id t' = bt_commit_root_id t ∧ bt_pruned_block_ids t' = bt_pruned_block_ids t
  ∧ bt_max_pruned_blocks_in_mem t' = bt_max_pruned_blocks_in_mem t
  ∧ bt_highest_ledger_info t' = bt_highest_ledger_info t.

Lemma tree_inv_same hist t t' : same_tree t t' → tree_inv hist t →
  reach t (bt_ordered_root_id t) (bt_highest_certified_block_id t') → tree_inv hist t'.
Proof.
  destruct t as [m o c h q tc tc2 oc li qs p mx], t' as [m' o' c' h' q' tc' tc2' oc' li' qs' p' mx'].
  intros (Hm & Ho & Hc & Hp & Hmx & Hli) [] Hh; simpl in *; subst. split; try done.
  by eapply tree_links_ext; [|done].
Qed.

(** The tree after a certificate of one of its blocks. *)
Definition with_cert (qc : QuorumCert) (t : BlockTree) : BlockTree :=
  let id := bi_id (qc_certified_block qc) in
  let higher := round_of t (bt_highest_certified_block_id t) <? round_of t id in
  let newer := bi_round (qc_commit_info (bt_highest_ordered_cert t)) <? bi_round (qc_commit_info qc) in
  mkBlockTree (bt_id_to_block t) (bt_ordered_root_id t) (bt_commit_root_id t)
    (if higher then id else bt_highest_certified_block_id t)
    (if higher then qc else bt_highest_quorum_cert t)
    (bt_highest_timeout_cert t) (bt_highest_2chain_timeout_cert t)
    (if newer then qc else bt_highest_ordered_cert t) (bt_highest_ledger_info t)
    (or_insert id qc (bt_id_to_quorum_cert t)) (bt_pruned_block_ids t) (bt_max_pruned_blocks_in_mem t).

Lemma insert_quorum_cert_spec hist t qc : tree_inv hist t →
  insert_quorum_cert qc t =
    match bt_id_to_block t !! bi_id (qc_certified_block qc) with
    | Some _ => (with_cert qc t, Ok ())
    | None => (t, Err "Block not found")
    end.
Proof.
  intros Hi. set (id := bi_id (qc_certified_block qc)).
  unfold insert_quorum_cert, highest_certified_block, get_block, get_linkable_block. fold id.
  destruct (bt_id_to_block t !! id) as [lb|] eqn:Hlb; [|done].
  destruct (tree_inv_certified _ _ Hi) as [lh Hlh]. rewrite Hlh. simpl.
  pose proof (tl_key _ (ti_links _ _ Hi) _ _ Hlb) as Hid. unfold lb_id in Hid. rewrite Hid.
  f_equal. unfold with_cert. fold id. rewrite (round_of_eq _ _ _ Hlb), (round_of_eq _ _ _ Hlh).
  unfold lb_round. destruct (eb_round (lb_executed_block lh) <? eb_round (lb_executed_block lb));
    simpl; by destruct (bi_round _ <? bi_round _).
Qed.

Lemma with_cert_inv hist t qc :
  tree_inv hist t → in_tree t (bi_id (qc_certified_block qc)) → safe_cert t qc →
  tree_inv hist (with_cert qc t).
Proof.
  intros Hi Hin Hsafe. apply (tree_inv_same hist t); [done..|]. simpl.
  destruct (Z.ltb_spec (round_of t (bt_highest_certified_block_id t))
              (round_of t (bi_id (qc_certified_block qc)))); [by apply Hsafe|apply Hi].
Qed.

Lemma with_cert_certs t qc : cert_inv t → in_tree t (bi_id (qc_certified_block qc)) →
  cert_inv (with_cert qc t).
Proof.
  intros [Hkey Hhi Hmax Hord] Hin.
  set (id := bi_id (qc_certified_block qc)) in *.
  assert (Hor : ∀ k c, or_insert id qc (bt_id_to_quorum_cert t) !! k = Some c →
    (k = id ∧ c = qc) ∨ bt_id_to_quorum_cert t !! k = Some c).
  { intros k c. unfold or_insert. destruct (bt_id_to_quorum_cert t !! id); [by right|].
    rewrite lookup_insert_Some. naive_solver. }
  assert (Hr : ∀ k, round_of (with_cert qc t) k = round_of t k) by done.
  split.
  - simpl. fold id. intros k c [[-> ->]|?]%Hor; [done|by apply Hkey].
  - simpl. by destruct (_ <? _).
  - intros k c Hk. rewrite !Hr. simpl in Hk |- *. fold id in Hk |- *.
    destruct (Z.ltb_spec (round_of t (bt_highest_certified_block_id t)) (round_of t id));
      apply Hor in Hk as [[-> ->]|Hk]; try lia; specialize (Hmax _ _ Hk); lia.
  - simpl. intros k c Hk. destruct (Z.ltb_spec (bi_round (qc_commit_info (bt_highest_ordered_cert t)))
                               (bi_round (qc_commit_info qc)));
      apply Hor in Hk as [[-> ->]|Hk]; try lia; specialize (Hord _ _ Hk); lia.
Qed.

Lemma with_child_certs t b lp :
  bt_id_to_block t !! eb_id b = None → bt_id_to_block t !! eb_parent_id b = Some lp →
  in_tree t (bt_highest_certified_block_id t) → cert_inv t → cert_inv (with_child t b lp).
Proof.
  intros Hnew Hp Hh [Hkey Hhi Hmax Hord]. split.
  - intros id qc Hqc. destruct (Hkey _ _ Hqc). split; [done|]. apply with_child_in; auto.
  - done.
  - intros id qc Hqc. rewrite !with_child_round; eauto. by eapply Hkey.
  - done.
Qed.

Lemma evict_certs n t li o r : cert_inv t →
  bt_highest_certified_block_id t ∉ take n (bt_pruned_block_ids t) →
  cert_inv (set_roots o r (set_ledger_info li (evict n t))).
Proof.
  intros [Hkey Hhi Hmax Hord] Hh.
  assert (Hlook : ∀ id, id ∉ take n (bt_pruned_block_ids t) →
    delete_all (take n (bt_pruned_block_ids t)) (bt_id_to_block t) !! id = bt_id_to_block t !! id).
  { intros id Hid. apply option_eq. intros lb. rewrite delete_all_Some. naive_solver. }
  split; simpl.
  - intros id qc [Hqc Hn]%delete_all_Some. destruct (Hkey _ _ Hqc). split; [done|].
    unfold in_tree. simpl. by rewrite Hlook.
  - done.
  - intros id qc [Hqc Hn]%delete_all_Some. unfold round_of. simpl. rewrite !Hlook by done.
    by apply (Hmax _ qc).
  - intros id qc [Hqc Hn]%delete_all_Some. by eapply Hord.
Qed.

(** ** The ordered root *)

Lemma update_ordered_root_inv hist t b :
  tree_inv hist t → reach t (bt_ordered_root_id t) b → reach t b (bt_highest_certified_block_id t) →
  update_ordered_root b t = (set_roots b (bt_commit_root_id t) t, Ok ())
  ∧ tree_inv hist (set_roots b (bt_commit_root_id t) t).
Proof.
  intros Hi Hb Hc. pose proof (ti_links _ _ Hi) as TL.
  assert (Hin : in_tree t b) by (eapply reach_in; [done|by eapply tree_inv_ordered|done]).
  assert (Hle : round_of t (bt_ordered_root_id t) ≤ round_of t b).
  { destruct (tree_inv_ordered _ _ Hi) as [lo Ho], Hin as [lb Hlb].
    rewrite (round_of_eq _ _ _ Ho), (round_of_eq _ _ _ Hlb).
    destruct (reach_round _ TL _ _ _ _ Ho Hlb Hb) as [Heq|?]; [|lia]. rewrite Heq in Ho. simplify_eq. lia. }
  split; [unfold update_ordered_root, block_exists; by rewrite bool_decide_eq_true_2|].
  destruct Hi. split; try done; simpl.
  - by eapply tree_links_ext; [|done].
  - intros b' Hb'. change (round_of _ b) with (round_of t b).
    destruct (ti_closed0 _ Hb'); [by left|right; lia].
  - intros b' Hb' Hn. change (round_of _ b) with (round_of t b).
    destruct (ti_gone0 _ Hb' Hn); [left; lia|by right].
  - unfold reach in *. by etrans.
Qed.

(** ** A new tree *)

Lemma BlockTree_new_inv root qc oc li mx tc tc2 :
  U (eb_block root) → eb_id root = bi_id (qc_commit_info oc) →
  bi_id (qc_certified_block qc) = eb_id root →
  bi_round (lis_commit_info li) ≤ eb_round root →
  bi_round (qc_commit_info qc) ≤ bi_round (qc_commit_info oc) →
  ∃ t, BlockTree_new (E:=string) root qc oc li mx tc tc2 = Ok t
    ∧ tree_inv [eb_block root] t ∧ cert_inv t
    ∧ bt_ordered_root_id t = eb_id root ∧ bt_commit_root_id t = eb_id root
    ∧ bt_id_to_block t = {[eb_id root := LinkableBlock_new root]}.
Proof.
  intros HUr Hid Hqc Hli Hoc. unfold BlockTree_new.
  assert (Hpar : eb_parent_id root ≠ eb_id root).
  { intros Heq. pose proof (cb_round _ HU _ _ HUr HUr Heq). lia. }
  rewrite <- Hid, Z.eqb_refl, Hqc.
  assert (Hrd : ∀ t, bt_id_to_block t = {[eb_id root := LinkableBlock_new root]} →
                     round_of t (eb_id root) = eb_round root).
  { intros t Ht. unfold round_of. by rewrite Ht, lookup_singleton_eq. }
  eexists. split; [done|]. split; [|split; [|done]].
  - split; simpl; rewrite ?Hrd by done; try done.
    + split; simpl.
      * by intros id lb [<- <-]%lookup_singleton_Some.
      * intros p lp c [<- <-]%lookup_singleton_Some Hc. simpl in Hc. set_solver.
      * intros c lc p lp [<- <-]%lookup_singleton_Some [<- <-]%lookup_singleton_Some ?. done.
      * intros c lc p lp [<- <-]%lookup_singleton_Some [<- <-]%lookup_singleton_Some ?. done.
    + by intros b ->%list_elem_of_singleton.
    + intros id lb [<- <-]%lookup_singleton_Some. left.
    + intros b ->%list_elem_of_singleton. by right.
    + intros b ->%list_elem_of_singleton ?. by left.
    + eexists. apply lookup_singleton_eq.
    + constructor.
    + by intros x ?%elem_of_nil.
    + by intros x ?%elem_of_nil.
    + by intros [] ????.
    + lia.
    + intros lr [_ <-]%lookup_singleton_Some [lp Hlp]. simpl in Hlp.
      apply lookup_singleton_Some in Hlp as [Heq _]. by destruct Hpar.
  - split; simpl.
    + intros id c [<- <-]%lookup_singleton_Some. split; [done|]. eexists. apply lookup_singleton_eq.
    + done.
    + by intros id c [<- <-]%lookup_singleton_Some.
    + by intros id c [<- <-]%lookup_singleton_Some.
Qed.
End inv.
