(* ===== verification/BlockStore.v ===== *)
(** * BlockStore: the block store over the tree, and recovery after a restart

    Models src/consensus/src/block_storage/block_store.rs, the two tests of sync_manager.rs
    on the store (need_sync_for_ledger_info, need_fetch_for_quorum_cert) and the recovery
    data of src/consensus/src/persistent_liveness_storage.rs.  The state computer and the
    persistent storage are classes of operations on states of their own; locks, counters,
    logging and waiting for the local clock have no counterpart. *)

From S2P Require Import Prelude Crypto Accumulator ValidatorVerifier LedgerTypes EpochChange.
From S2P Require Import AccumulatorProof ConsensusTypes ConsensusMessages BlockTree.

(** ** What is read back after a restart *)

Record RootInfo := mkRootInfo {
  ri_block : Block;
  ri_quorum_cert : QuorumCert;
  ri_ordered_cert : QuorumCert;
  ri_commit_ledger_info : LedgerInfoWithSignatures;
}.

Record RootMetadata := mkRootMetadata {
  rm_accu_hash : HashValue;
  rm_frozen_root_hashes : list HashValue;
  rm_num_leaves : Version;
}.

Record LedgerRecoveryData := mkLedgerRecoveryData {
  lrd_storage_ledger : LedgerInfoWithSignatures;
}.

Record RecoveryData := mkRecoveryData {
  rd_last_vote : option Vote;
  rd_root : RootInfo;
  rd_root_metadata : RootMetadata;
  rd_blocks : list Block;
  rd_quorum_certs : list QuorumCert;
  rd_blocks_to_prune : option (list HashValue);
  rd_highest_timeout_certificate : option TimeoutCertificate;
  rd_highest_2chain_timeout_certificate : option TwoChainTimeoutCertificate;
}.

Inductive LivenessStorageData :=
| FullRecoveryData (d : RecoveryData)
| PartialRecoveryData (d : LedgerRecoveryData).

Definition expect_recovery_data {E} (msg : string) (d : LivenessStorageData) : Result E RecoveryData :=
  match d with FullRecoveryData data => Ok data | PartialRecoveryData _ => Panic msg end.

(** ** What the store calls *)

Inductive ExecutionError :=
| BlockNotFound (id : HashValue)
| BadNumTxnsToCommit
| InternalError
| SerializationError
| EmptyBlocks.

(** The trait StateComputer.  [commit] takes a callback, which
    both implementations put in a queue: it is [bs_callbacks] below. *)
Class StateComputer (C : Type) := {
  compute : Block → HashValue → ST C ExecutionError StateComputeResult;
  sc_commit : list ExecutedBlock → LedgerInfoWithSignatures → ST C ExecutionError unit;
  sync_to : LedgerInfoWithSignatures → ST C string unit;
}.

Class PersistentLivenessStorage (P : Type) := {
  save_tree : list Block → list QuorumCert → ST P string unit;
  prune_tree : list HashValue → ST P string unit;
  save_vote : Vote → ST P string unit;
  start : ST P string LivenessStorageData;
  save_highest_timeout_cert : TimeoutCertificate → ST P string unit;
  save_highest_2chain_timeout_cert : TwoChainTimeoutCertificate → ST P string unit;
  retrieve_epoch_change_proof : Version → ST P string EpochChangeProof;
}.

Record BlockStore (C P : Type) := mkBlockStore {
  bs_inner : BlockTree;
  bs_state_computer : C;
  bs_storage : P;
  bs_back_pressure_limit : Round;
  (** The commit callbacks not run yet, oldest first, with their arguments. *)
  bs_callbacks : list (list ExecutedBlock * LedgerInfoWithSignatures);
}.
Arguments mkBlockStore {C P}.
Arguments bs_inner {C P}.
Arguments bs_state_computer {C P}.
Arguments bs_storage {C P}.
Arguments bs_back_pressure_limit {C P}.
Arguments bs_callbacks {C P}.

Section store.
Context `{HI : HashIter} {C P : Type} `{SC : StateComputer C} `{PS : PersistentLivenessStorage P}.
Local Abbreviation BS := (BlockStore C P).

Definition put_inner (t : BlockTree) (s : BS) : BS :=
  mkBlockStore t (bs_state_computer s) (bs_storage s) (bs_back_pressure_limit s) (bs_callbacks s).
Definition put_state_computer (c : C) (s : BS) : BS :=
  mkBlockStore (bs_inner s) c (bs_storage s) (bs_back_pressure_limit s) (bs_callbacks s).
Definition put_storage (p : P) (s : BS) : BS :=
  mkBlockStore (bs_inner s) (bs_state_computer s) p (bs_back_pressure_limit s) (bs_callbacks s).
Definition put_callbacks (q : list (list ExecutedBlock * LedgerInfoWithSignatures)) (s : BS) : BS :=
  mkBlockStore (bs_inner s) (bs_state_computer s) (bs_storage s) (bs_back_pressure_limit s) q.

(** A read of the tree, a write to it, a call of a collaborator. *)
Definition reading {E A} (f : BlockTree → Result E A) : ST BS E A := λ s, (s, f (bs_inner s)).
Definition writing {E A} (c : ST BlockTree E A) : ST BS E A := st_zoom bs_inner put_inner c.
Definition with_storage {E A} (c : ST P E A) : ST BS E A := st_zoom bs_storage put_storage c.
Definition with_computer {E A} (c : ST C E A) : ST BS E A := st_zoom bs_state_computer put_state_computer c.

(** [anyhow::Error] from an execution error, and [context]. *)
Definition from_execution_error {A} (r : Result ExecutionError A) : AnyResult A :=
  r_map_err (λ _, "execution error") r.
Definition context {A} (msg : string) (r : AnyResult A) : AnyResult A := r_map_err (λ _, msg) r.

(** ** Blocks *)

Definition execute_block (block : Block) : ST BS ExecutionError ExecutedBlock :=
  let! state_compute_result := with_computer (compute block (b_parent_id block)) in
  st_ret (mkExecutedBlock block state_compute_result).

(** The loop that recovers the executor's tree. *)
Fixpoint reexecute_blocks (blocks : list ExecutedBlock) : ST BS ExecutionError unit :=
  match blocks with
  | [] => st_ret ()
  | block :: blocks => execute_block (eb_block block) ;! reexecute_blocks blocks
  end.

Definition execute_or_recover (block : Block) : ST BS ExecutionError ExecutedBlock := λ s,
  match execute_block block s with
  | (s', Err (BlockNotFound parent_block_id)) =>
      (let! path := reading (λ t, path_from_ordered_root t parent_block_id) in
       reexecute_blocks (default [] path) ;!
       execute_block block) s'
  | r => r
  end.

Definition execute_and_insert_block (block : Block) : ST BS string ExecutedBlock :=
  let! existing := reading (λ t, Ok (get_block t (b_id block))) in
  match existing with
  | Some existing_block => st_ret existing_block
  | None =>
      let! root := reading ordered_root in
      st_lift (ensure (eb_round root <? b_round block) "Block with old round") ;!
      let! executed_block := st_map_res from_execution_error (execute_or_recover block) in
      st_map_res (context "Insert block failed when saving block")
        (with_storage (save_tree [eb_block executed_block] [])) ;!
      writing (insert_block executed_block)
  end.

(** ** Certificates *)

Definition insert_single_quorum_cert (qc : QuorumCert) : ST BS string unit :=
  let! block := reading (λ t, Ok (get_block t (bi_id (qc_certified_block qc)))) in
  match block with
  | Some executed_block =>
      st_lift (ensure (match_ordered_only (eb_block_info executed_block) (qc_certified_block qc))
                 "QC for block has different than local")
  | None => st_lift (Err "Insert without having the block in store first")
  end ;!
  st_map_res (context "Insert block failed when saving quorum")
    (with_storage (save_tree [] [qc])) ;!
  writing (insert_quorum_cert qc).

Definition insert_timeout_certificate (tc : TimeoutCertificate) : ST BS string unit :=
  let! cur_tc_round := reading (λ t,
    Ok (from_option tctc_round 0 (bt_highest_2chain_timeout_cert t))) in
  if to_round (tc_timeout tc) <=? cur_tc_round then st_ret () else
  st_map_res (context "Timeout certificate insert failed when persisting to DB")
    (with_storage (save_highest_timeout_cert tc)) ;!
  writing (λ t, (replace_timeout_cert tc t, Ok ())).

Definition insert_2chain_timeout_certificate (tc : TwoChainTimeoutCertificate) : ST BS string unit :=
  let! cur_tc_round := reading (λ t,
    Ok (from_option tctc_round 0 (bt_highest_2chain_timeout_cert t))) in
  if tctc_round tc <=? cur_tc_round then st_ret () else
  st_map_res (context "Timeout certificate insert failed when persisting to DB")
    (with_storage (save_highest_2chain_timeout_cert tc)) ;!
  writing (λ t, (replace_2chain_timeout_cert tc t, Ok ())).

Definition sync_info {E} (t : BlockTree) : Result E SyncInfo :=
  SyncInfo_new_decoupled (bt_highest_quorum_cert t) (bt_highest_ordered_cert t)
    (Some (bt_highest_ledger_info t)) (bt_highest_timeout_cert t)
    (bt_highest_2chain_timeout_cert t).

(** ** Commit *)

(** The callback of the oldest [n] batches: the buffer manager may run one callback with the
    blocks of several batches and the proof of the last of them; coupled execution runs
    each batch by itself ([n = 1]). *)
Definition run_callback (n : nat) : ST BS string unit :=
  let! s := st_get in
  match last (take n (bs_callbacks s)) with
  | None => st_ret ()
  | Some (_, commit_decision) =>
      let blocks := concat (take n (bs_callbacks s)).*1 in
      st_put (put_callbacks (drop n (bs_callbacks s)) s) ;!
      let! id_to_remove := writing (commit_callback blocks commit_decision) in
      (λ s, let '(p, _) := prune_tree id_to_remove (bs_storage s) in
            (put_storage p s, Ok ()))
  end.

Definition commit (finality_proof : LedgerInfoWithSignatures) : ST BS string unit :=
  let block_id_to_commit := bi_id (lis_commit_info finality_proof) in
  let! block_to_commit := reading (λ t,
    ok_or (get_block t block_id_to_commit) "Committed block id not found") in
  let! root := reading ordered_root in
  st_lift (ensure (eb_round root <? eb_round block_to_commit)
             "Committed block round lower than root") ;!
  let! path := reading (λ t, path_from_ordered_root t block_id_to_commit) in
  let blocks_to_commit := default [] path in
  st_lift (if bool_decide (blocks_to_commit = []) then Panic "assertion failed: !blocks_to_commit.is_empty()"
           else Ok ()) ;!
  st_map_res (λ r, match r with Ok a => Ok a | _ => Panic "Failed to persist commit" end)
    (with_computer (sc_commit blocks_to_commit finality_proof)) ;!
  (λ s, (put_callbacks (bs_callbacks s ++ [(blocks_to_commit, finality_proof)]) s, Ok ())) ;!
  writing (update_ordered_root (eb_id block_to_commit)).

(** ** Building a store from recovered data *)

Definition rm_version (m : RootMetadata) : Version := Z.max (rm_num_leaves m) 1 - 1.

Fixpoint insert_blocks (blocks : list Block) : ST BS string unit :=
  match blocks with
  | [] => st_ret ()
  | block :: blocks => execute_and_insert_block block ;! insert_blocks blocks
  end.
Fixpoint insert_quorum_certs (quorum_certs : list QuorumCert) : ST BS string unit :=
  match quorum_certs with
  | [] => st_ret ()
  | qc :: quorum_certs => insert_single_quorum_cert qc ;! insert_quorum_certs quorum_certs
  end.
(** [unwrap_or_else(|e| panic!(..))] *)
Definition or_panic {A} (msg : string) (r : AnyResult A) : AnyResult A :=
  match r with Err _ => Panic msg | _ => r end.

(** The state computer and the storage are shared, their states are threaded through. *)
Definition build (root : RootInfo) (root_metadata : RootMetadata) (blocks : list Block)
    (quorum_certs : list QuorumCert) (highest_timeout_cert : option TimeoutCertificate)
    (highest_2chain_timeout_cert : option TwoChainTimeoutCertificate) (state_computer : C)
    (storage : P) (max_pruned_blocks_in_mem : nat) (back_pressure_limit : Round)
    (callbacks : list (list ExecutedBlock * LedgerInfoWithSignatures)) : AnyResult BS :=
  let certified := qc_certified_block (ri_quorum_cert root) in
  (if (bi_version certified =? 0) || (bi_version certified =? rm_version root_metadata)
   then Ok () else Panic "root qc version doesn't match committed trees") ;?
  (if (bi_executed_state_id certified =? ACCUMULATOR_PLACEHOLDER_HASH)
      || (bi_executed_state_id certified =? rm_accu_hash root_metadata)
   then Ok () else Panic "root qc state id doesn't match committed trees") ;?
  let result := mkStateComputeResult (rm_accu_hash root_metadata) (rm_frozen_root_hashes root_metadata)
                  (rm_num_leaves root_metadata) [] 0 None [] [] [] None in
  let? tree := BlockTree_new (mkExecutedBlock (ri_block root) result) (ri_quorum_cert root)
                 (ri_ordered_cert root) (ri_commit_ledger_info root) max_pruned_blocks_in_mem
                 highest_timeout_cert highest_2chain_timeout_cert in
  let '(s, r) :=
    (st_map_res (or_panic "[BlockStore] failed to insert block during build") (insert_blocks blocks) ;!
     st_map_res (or_panic "[BlockStore] failed to insert quorum during build")
       (insert_quorum_certs quorum_certs))
      (mkBlockStore tree state_computer storage back_pressure_limit callbacks) in
  r ;? Ok s.

(** A stable sort by a key. *)
Fixpoint insert_by_key {A} (key : A → Z * Z) (x : A) (l : list A) : list A :=
  match l with
  | [] => [x]
  | y :: l' =>
      if ((key x).1 <? (key y).1) || (((key x).1 =? (key y).1) && ((key x).2 <=? (key y).2))
      then x :: l else y :: insert_by_key key x l'
  end.
Definition sort_by_key {A} (key : A → Z * Z) (l : list A) : list A := foldr (insert_by_key key) [] l.

Fixpoint commit_certs (certs : list QuorumCert) : ST BS string unit :=
  match certs with
  | [] => st_ret ()
  | qc :: certs =>
      let! root := reading commit_root in
      (if eb_round root <? bi_round (qc_commit_info qc)
       then (λ s, let '(s', r) := commit (qc_signed_ledger_info qc) s in
                  (s', match r with Panic m => Panic m | _ => Ok () end))
       else st_ret ()) ;!
      commit_certs certs
  end.
Definition try_commit : ST BS string unit := λ s,
  commit_certs (sort_by_key (λ qc, (bi_round (qc_commit_info qc), 0))
                  (get_all_quorum_certs_with_commit_info (bs_inner s))) s.

(** The tree of the new store replaces the one of [self]; the callbacks still queued hold a
    reference to [self]'s tree and so act on the new one. *)
Definition rebuild (root : RootInfo) (root_metadata : RootMetadata) (blocks : list Block)
    (quorum_certs : list QuorumCert) : ST BS string unit := λ s,
  let t := bs_inner s in
  match build root root_metadata blocks quorum_certs (bt_highest_timeout_cert t)
          (bt_highest_2chain_timeout_cert t) (bs_state_computer s) (bs_storage s)
          (bt_max_pruned_blocks_in_mem t) (bs_back_pressure_limit s) (bs_callbacks s) with
  | Ok built =>
      let '(p, _) := prune_tree (get_all_block_id t) (bs_storage built) in
      try_commit (put_storage p built)
  | Err e => (s, Err e)
  | Panic m => (s, Panic m)
  end.

(** ** Recovery data *)

Definition position_of (root_id : HashValue) (blocks : list Block) : option (nat * Block) :=
  list_find (λ b, b_id b = root_id) blocks.

(** The blocks and certificates are changed in place. *)
Definition find_root `{CC : ConsensusCrypto} (d : LedgerRecoveryData) (blocks : list Block)
    (quorum_certs : list QuorumCert) : AnyResult (RootInfo * list Block * list QuorumCert) :=
  let storage_ledger := lrd_storage_ledger d in
  let ledger_info := lis_ledger_info storage_ledger in
  let? (root_id, latest_ledger_info_sig, blocks, quorum_certs) :=
    if li_ends_epoch ledger_info then
      let? genesis := make_genesis_block_from_ledger_info ledger_info in
      let? genesis_qc := certificate_for_genesis_from_ledger_info ledger_info (b_id genesis) in
      Ok (b_id genesis, qc_signed_ledger_info genesis_qc, blocks ++ [genesis],
          quorum_certs ++ [genesis_qc])
    else Ok (bi_id (li_commit_info ledger_info), storage_ledger, blocks, quorum_certs) in
  let blocks := sort_by_key (λ b, (b_epoch b, b_round b)) blocks in
  let? (root_idx, root_block) := ok_or (position_of root_id blocks) "unable to find root" in
  let blocks := delete root_idx blocks in
  let? (_, root_quorum_cert) :=
    ok_or (list_find (λ qc, bi_id (qc_certified_block qc) = b_id root_block) quorum_certs)
      "No QC found for root" in
  let? (_, root_ordered_cert) :=
    ok_or (list_find (λ qc, bi_id (qc_commit_info qc) = b_id root_block) quorum_certs)
      "No LI found for root" in
  Ok (mkRootInfo root_block root_quorum_cert root_ordered_cert latest_ledger_info_sig, blocks,
      quorum_certs).

(** [blocks.retain]: the blocks kept, the ids removed and the ids of the tree. *)
Fixpoint retain_descendants (tree : gset HashValue) (blocks : list Block)
    : list Block * list HashValue * gset HashValue :=
  match blocks with
  | [] => ([], [], tree)
  | block :: blocks =>
      if bool_decide (b_parent_id block ∈ tree) then
        let '(kept, removed, tree') := retain_descendants ({[b_id block]} ∪ tree) blocks in
        (block :: kept, removed, tree')
      else
        let '(kept, removed, tree') := retain_descendants tree blocks in
        (kept, b_id block :: removed, tree')
  end.
Definition recovery_blocks_to_prune (root_id : HashValue) (blocks : list Block)
    (quorum_certs : list QuorumCert) : list Block * list QuorumCert * list HashValue :=
  let '(kept, to_remove, tree) := retain_descendants {[root_id]} blocks in
  (kept, filter (λ qc, bi_id (qc_certified_block qc) ∈ tree) quorum_certs, to_remove).

Definition RecoveryData_new `{CC : ConsensusCrypto} (last_vote : option Vote)
    (ledger_recovery_data : LedgerRecoveryData) (blocks : list Block) (root_metadata : RootMetadata)
    (quorum_certs : list QuorumCert) (highest_timeout_certificate : option TimeoutCertificate)
    (highest_2chain_timeout_cert : option TwoChainTimeoutCertificate) : AnyResult RecoveryData :=
  let? (root, blocks, quorum_certs) :=
    context "Root id, Blocks in db, Quorum Certs in db" (find_root ledger_recovery_data blocks quorum_certs) in
  let '(blocks, quorum_certs, to_prune) :=
    recovery_blocks_to_prune (b_id (ri_block root)) blocks quorum_certs in
  let epoch := b_epoch (ri_block root) in
  Ok (mkRecoveryData (opt_filter (λ v, v_epoch v =? epoch) last_vote) root root_metadata blocks
        quorum_certs (Some to_prune)
        (opt_filter (λ tc, to_epoch (tc_timeout tc) =? epoch) highest_timeout_certificate)
        (opt_filter (λ tc, tctc_epoch tc =? epoch) highest_2chain_timeout_cert)).

Definition BlockStore_new (storage : P) (initial_data : RecoveryData) (state_computer : C)
    (max_pruned_blocks_in_mem : nat) (back_pressure_limit : Round) : AnyResult BS :=
  let? s := build (rd_root initial_data) (rd_root_metadata initial_data) (rd_blocks initial_data)
              (rd_quorum_certs initial_data) (rd_highest_timeout_certificate initial_data)
              (rd_highest_2chain_timeout_certificate initial_data) state_computer storage
              max_pruned_blocks_in_mem back_pressure_limit [] in
  let '(s', r) := try_commit s in
  r ;? Ok s'.

(** ** Certificates received from peers *)

Definition need_sync_for_ledger_info {E} (li : LedgerInfoWithSignatures) (s : BS) : Result E bool :=
  let? root := ordered_root (bs_inner s) in
  Ok (wrap64 (eb_round root + bs_back_pressure_limit s) <? bi_round (lis_commit_info li)).

Inductive NeedFetchResult :=
| QCRoundBeforeRoot
| QCAlreadyExist
| QCBlockExist
| NeedFetch.

Definition need_fetch_for_quorum_cert {E} (qc : QuorumCert) (t : BlockTree) : Result E NeedFetchResult :=
  let? root := ordered_root t in
  Ok (if qc_round qc <? eb_round root then QCRoundBeforeRoot
      else if bool_decide (is_Some (get_quorum_cert_for_block t (bi_id (qc_certified_block qc))))
      then QCAlreadyExist
      else if block_exists t (bi_id (qc_certified_block qc)) then QCBlockExist
      else NeedFetch).

End store.
