(* ===== verification/BlockStoreFacts.v ===== *)
(** * BlockStoreFacts: contracts of the operations of the block store

    [store_inv] extends the invariant of the tree by the commit callbacks that wait: they
    lead in steps from the commit root to the ordered root.  Every operation keeps it and
    does not panic, whatever the state computer and the storage answer. *)

From S2P Require Import Prelude Crypto Accumulator ValidatorVerifier LedgerTypes.
From S2P Require Import AccumulatorProof ConsensusTypes ConsensusMessages BlockTree.
From S2P Require Import BlockTreeFacts BlockTreeInv BlockStore.

(** ** Callbacks that wait *)

Section callbacks.
Context (t : BlockTree).

(** From [a], each batch ends in a descendant of the previous one, with a proof of it; the
    last one ends in [e]. *)
Fixpoint callback_chain (a : HashValue) (q : list (list ExecutedBlock * LedgerInfoWithSignatures))
    (e : HashValue) : Prop :=
  match q with
  | [] => a = e
  | (blocks, proof) :: q => ∃ b,
      last blocks = Some b ∧ reach t a (eb_id b)
      ∧ bi_id (lis_commit_info proof) = eb_id b
      ∧ bi_round (lis_commit_info proof) = round_of t (eb_id b)
      ∧ callback_chain (eb_id b) q e
  end.

Lemma callback_chain_reach a q e : callback_chain a q e → reach t a e.
Proof.
  revert a. induction q as [|[blocks proof] q IH]; simpl; intros a.
  - intros ->. constructor.
  - intros (b & _ & Hr & _ & _ & Hc). unfold reach in *. etrans; eauto.
Qed.

Lemma callback_chain_app a q1 q2 e :
  callback_chain a (q1 ++ q2) e ↔ ∃ m, callback_chain a q1 m ∧ callback_chain m q2 e.
Proof.
  revert a. induction q1 as [|[blocks proof] q1 IH]; simpl; intros a; [naive_solver|].
  split.
  - intros (b & ? & ? & ? & ? & (m & ? & ?)%IH). exists m. eauto 10.
  - intros (m & (b & ? & ? & ? & ? & ?) & ?). exists b. rewrite IH. eauto 10.
Qed.

(** The last of some batches determines where they end. *)
Lemma callback_chain_last a q m blocks proof :
  callback_chain a q m → last q = Some (blocks, proof) →
  ∃ b, last (concat q.*1) = Some b ∧ eb_id b = m
    ∧ bi_id (lis_commit_info proof) = eb_id b ∧ bi_round (lis_commit_info proof) = round_of t (eb_id b).
Proof.
  intros Hc Hl. apply last_Some in Hl as [q' ->].
  apply callback_chain_app in Hc as (m' & _ & (b & Hb & _ & Hid & Hr & <-)).
  exists b. rewrite fmap_app, concat_app. simpl. rewrite app_nil_r, last_app, Hb. done.
Qed.
End callbacks.

(** The chain depends on the descendants of its start. *)
Lemma callback_chain_ext t t' a q e :
  (∀ x y, reach t a x → reach t x y → reach t' x y) →
  (∀ x, reach t a x → round_of t' x = round_of t x) →
  callback_chain t a q e → callback_chain t' a q e.
Proof.
  revert a. induction q as [|[blocks proof] q IH]; simpl; intros a Hr Hrd; [done|].
  intros (b & Hl & Hb & Hid & Hrb & Hc). exists b. split_and!; [done| |done| |].
  - apply Hr; [constructor|done].
  - by rewrite Hrd.
  - apply IH; [|intros x Hx; apply Hrd; unfold reach in *; by etrans|done].
    intros x y Hx. apply Hr. unfold reach in *. by etrans.
Qed.

Section store.
Context (U : Block → Prop) (HU : chain_blocks U).
Context `{HI : HashIter} {C P : Type} `{SC : StateComputer C} `{PS : PersistentLivenessStorage P}.
Local Abbreviation BS := (BlockStore C P).

Definition store_tree_inv (t : BlockTree)
    (q : list (list ExecutedBlock * LedgerInfoWithSignatures)) : Prop :=
  (∃ hist, tree_inv U hist t) ∧ cert_inv t
  ∧ callback_chain t (bt_commit_root_id t) q (bt_ordered_root_id t).
Definition store_inv (s : BS) : Prop := store_tree_inv (bs_inner s) (bs_callbacks s).

(** The collaborators return: the state computer may fail to compute a block, the storage
    may fail to save, but blocks that are ordered are persisted. *)
Record collaborators : Prop := {
  co_compute b p c m : (compute b p c).2 ≠ Panic m;
  co_commit blocks proof c : (sc_commit blocks proof c).2 = Ok ();
  co_save_tree bs qcs p m : (save_tree bs qcs p).2 ≠ Panic m;
  co_save_tc tc p m : (save_highest_timeout_cert tc p).2 ≠ Panic m;
  co_save_2tc tc p m : (save_highest_2chain_timeout_cert tc p).2 ≠ Panic m;
}.
Context (HC : collaborators).

(** ** Operations that leave the tree alone *)

Section frame.
Context (t : BlockTree) (q : list (list ExecutedBlock * LedgerInfoWithSignatures)).
Definition at_tree (s : BS) : Prop := bs_inner s = t ∧ bs_callbacks s = q.

Lemma reading_bind {E A B} (f : BlockTree → Result E A) a (k : A → ST BS E B) Post Exc :
  f t = Ok a → st_triple at_tree (k a) Post Exc →
  st_triple at_tree (let! x := reading f in k x) Post Exc.
Proof. intros Hf Hk s Hs. unfold reading, st_bind. rewrite (proj1 Hs), Hf. by apply Hk. Qed.

Lemma storage_bind {A B} msg (c : ST P string A) (k : A → ST BS string B) Post Exc :
  (∀ p m, (c p).2 ≠ Panic m) → (∀ s, at_tree s → Exc s) →
  (∀ a, st_triple at_tree (k a) Post Exc) →
  st_triple at_tree (let! x := st_map_res (context msg) (with_storage c) in k x) Post Exc.
Proof.
  intros Hc Hexc Hk. eapply (st_triple_bind _ (λ _, at_tree)); [|exact Hk].
  intros s [Ht Hq]. unfold st_map_res, with_storage, st_zoom. specialize (Hc (bs_storage s)).
  destruct (c (bs_storage s)) as [p [a|e|m]]; simpl; [by split|by apply Hexc|]. by eapply Hc.
Qed.

Lemma ensure_bind {B} b e (k : unit → ST BS string B) Post Exc :
  (∀ s, at_tree s → Exc s) → (b = true → st_triple at_tree (k tt) Post Exc) →
  st_triple at_tree (let! x := st_lift (ensure b e) in k x) Post Exc.
Proof.
  intros Hexc Hk s Hs. unfold st_bind, st_lift, ensure. destruct b; [by apply Hk|by apply Hexc].
Qed.

Lemma execute_block_triple b :
  st_triple at_tree (execute_block b) (λ eb s, eb_block eb = b ∧ at_tree s) at_tree.
Proof.
  intros s [Ht Hq]. unfold execute_block, with_computer, st_zoom, st_bind, st_ret.
  pose proof (co_compute HC b (b_parent_id b) (bs_state_computer s)) as Hc.
  destruct (compute b (b_parent_id b) (bs_state_computer s)) as [c [r|e|m]]; simpl.
  - by repeat split.
  - by split.
  - by eapply Hc.
Qed.

Lemma reexecute_blocks_triple bs :
  st_triple at_tree (reexecute_blocks bs) (λ _, at_tree) at_tree.
Proof.
  induction bs as [|b bs IH]; simpl; [by apply st_triple_ret|].
  eapply st_triple_bind; [apply execute_block_triple|]. intros eb.
  apply st_triple_pure. by intros _.
Qed.

Lemma execute_or_recover_triple b : store_tree_inv t q →
  st_triple at_tree (execute_or_recover b) (λ eb s, eb_block eb = b ∧ at_tree s) at_tree.
Proof.
  intros ((hist & Hi) & _ & _) s Hs. unfold execute_or_recover.
  pose proof (execute_block_triple b s Hs) as He.
  destruct (execute_block b s) as [s1 [eb|[id| | | |]|m]]; try done.
  destruct (tree_inv_ordered _ _ _ Hi) as [lo Ho].
  destruct (path_from_root_spec _ (ti_links _ _ _ Hi) (E:=ExecutionError) (bt_ordered_root_id t)
              (lb_executed_block lo) id) as (path & Hpath & _).
  { apply get_block_Some. eauto. }
  eapply (reading_bind _ path); [|  |exact He].
  - unfold path_from_ordered_root, ordered_root, get_block, get_linkable_block.
    rewrite Ho. exact Hpath.
  - eapply st_triple_bind; [apply reexecute_blocks_triple|].
    intros ?. apply execute_block_triple.
Qed.
End frame.

Lemma at_tree_inv t q s : store_tree_inv t q → at_tree t q s → store_inv s.
Proof. intros H [Ht Hq]. unfold store_inv. by rewrite Ht, Hq. Qed.

(** To reason from the tree the operation starts with. *)
Lemma store_inv_triple {A} (c : ST BS string A) Post Exc :
  (∀ t q, store_tree_inv t q → st_triple (at_tree t q) c Post Exc) → st_triple store_inv c Post Exc.
Proof. intros H s Hs. by apply (H _ _ Hs s). Qed.

(** ** Blocks *)

Lemma with_child_store t q b lp :
  store_tree_inv t q → U (eb_block b) →
  bt_id_to_block t !! eb_id b = None → bt_id_to_block t !! eb_parent_id b = Some lp →
  round_of t (bt_ordered_root_id t) < eb_round b →
  store_tree_inv (with_child t b lp) q.
Proof.
  intros ((hist & Hi) & Hc & Hq) HUb Hnew Hp Hround. split; [|split].
  - eexists. by apply with_child_inv.
  - apply with_child_certs; try done. by eapply tree_inv_certified.
  - simpl. eapply callback_chain_ext; [| |exact Hq].
    + intros x y _. by apply with_child_reach.
    + intros x Hx. apply with_child_round; [done..|].
      eapply reach_in; [apply Hi|apply (ti_commit_root _ _ _ Hi)|done].
Qed.

Lemma insert_block_triple t q b :
  store_tree_inv t q → U (eb_block b) → round_of t (bt_ordered_root_id t) < eb_round b →
  st_triple (at_tree t q) (writing (insert_block b))
    (λ eb s, get_block (bs_inner s) (eb_id b) = Some eb ∧ store_inv s) store_inv.
Proof.
  intros Hinv HUb Hround s [Ht Hq]. pose proof Hinv as ((hist & Hi) & _ & _).
  unfold writing, st_zoom. rewrite Ht, (insert_block_spec t b (ti_links _ _ _ Hi)).
  unfold store_inv, get_block, get_linkable_block.
  destruct (bt_id_to_block t !! eb_id b) as [lb|] eqn:Hb; [|destruct (bt_id_to_block t !! eb_parent_id b) as [lp|] eqn:Hp].
  - simpl. rewrite Hb, Hq. done.
  - cbn [bs_inner put_inner bs_callbacks]. split; [|rewrite Hq; by apply with_child_store].
    rewrite (proj2 (with_child_lookup _ _ _ Hb Hp _ (LinkableBlock_new b))); [done|]. by left.
  - simpl. by rewrite Hq.
Qed.

(** [execute_and_insert_block]: on success the store holds the block. *)
Lemma execute_and_insert_block_triple b : U b →
  st_triple store_inv (execute_and_insert_block b)
    (λ eb s, get_block (bs_inner s) (b_id b) = Some eb ∧ store_inv s) store_inv.
Proof.
  intros HUb. apply store_inv_triple. intros t q Hinv. pose proof Hinv as ((hist & Hi) & _ & _).
  destruct (tree_inv_ordered _ _ _ Hi) as [lo Ho].
  pose proof (at_tree_inv t q) as Hexc. unfold execute_and_insert_block.
  apply (reading_bind _ _ _ (get_block t (b_id b))); [done|].
  destruct (get_block t (b_id b)) as [eb|] eqn:Hb.
  { apply st_triple_ret. intros s Hs. split; [by rewrite (proj1 Hs)|by apply Hexc]. }
  apply (reading_bind _ _ _ (lb_executed_block lo)).
  { unfold ordered_root, get_block, get_linkable_block. by rewrite Ho. }
  apply ensure_bind; [auto|]. intros Hround%Z.ltb_lt.
  eapply (st_triple_bind _ (λ eb s, eb_block eb = b ∧ at_tree t q s)).
  { intros s Hat. pose proof (execute_or_recover_triple t q b Hinv s Hat) as H.
    unfold st_map_res. destruct (execute_or_recover b s) as [s1 [eb|e|m]]; simpl; auto. }
  intros eb. apply st_triple_pure. intros <-.
  apply storage_bind; [apply (co_save_tree HC)|auto|]. intros _.
  apply insert_block_triple; [done..|]. by rewrite (round_of_eq _ _ _ Ho).
Qed.

(** ** Certificates *)

Lemma with_cert_store t q qc :
  store_tree_inv t q → in_tree t (bi_id (qc_certified_block qc)) → safe_cert t qc →
  store_tree_inv (with_cert qc t) q.
Proof.
  intros ((hist & Hi) & Hc & Hq) Hin Hsafe. split; [|split].
  - exists hist. by apply with_cert_inv.
  - by apply with_cert_certs.
  - by apply (callback_chain_ext t).
Qed.

Lemma insert_single_quorum_cert_triple qc :
  st_triple (λ s, store_inv s ∧ safe_cert (bs_inner s) qc) (insert_single_quorum_cert qc)
    (λ _ s, is_Some (bt_id_to_quorum_cert (bs_inner s) !! bi_id (qc_certified_block qc)) ∧ store_inv s)
    store_inv.
Proof.
  intros s0 [Hs0 Hsafe]. set (t := bs_inner s0) in *. set (q := bs_callbacks s0).
  assert (Hat : at_tree t q s0) by done. assert (Hinv : store_tree_inv t q) by done.
  clearbody t q. clear Hs0. revert s0 Hat.
  pose proof (at_tree_inv t q) as Hexc. unfold insert_single_quorum_cert.
  apply (reading_bind _ _ _ (get_block t (bi_id (qc_certified_block qc)))); [done|].
  unfold get_block, get_linkable_block.
  destruct (bt_id_to_block t !! bi_id (qc_certified_block qc)) as [lb|] eqn:Hlb; simpl.
  2: { intros s Hs. simpl. by apply Hexc. }
  apply ensure_bind; [auto|]. intros _.
  apply storage_bind; [apply (co_save_tree HC)|auto|]. intros _ s [Ht Hq].
  pose proof Hinv as ((hist & Hi) & _ & _).
  unfold writing, st_zoom. rewrite Ht, (insert_quorum_cert_spec _ _ _ _ Hi), Hlb.
  unfold store_inv. simpl. rewrite Hq. split; [|by apply with_cert_store; [|exists lb|]].
  rewrite or_insert_lookup, decide_True by done.
  destruct (bt_id_to_quorum_cert t !! bi_id (qc_certified_block qc)); eauto.
Qed.

Lemma insert_timeout_certificate_triple tc :
  st_triple store_inv (insert_timeout_certificate tc) (λ _, store_inv) store_inv.
Proof.
  apply store_inv_triple. intros t q Hinv. pose proof (at_tree_inv t q) as Hexc.
  unfold insert_timeout_certificate. eapply reading_bind; [done|].
  destruct (_ <=? _); [apply st_triple_ret; auto|].
  apply storage_bind; [apply (co_save_tc HC)|auto|]. intros _ s [Ht Hq].
  unfold store_inv. simpl. rewrite Ht, Hq. destruct Hinv as ((hist & Hi) & [] & Hc).
  split; [exists hist|split]; [|by split|by apply (callback_chain_ext t)].
  apply (tree_inv_same _ _ t); [done..|apply Hi].
Qed.

Lemma insert_2chain_timeout_certificate_triple tc :
  st_triple store_inv (insert_2chain_timeout_certificate tc) (λ _, store_inv) store_inv.
Proof.
  apply store_inv_triple. intros t q Hinv. pose proof (at_tree_inv t q) as Hexc.
  unfold insert_2chain_timeout_certificate. eapply reading_bind; [done|].
  destruct (_ <=? _); [apply st_triple_ret; auto|].
  apply storage_bind; [apply (co_save_2tc HC)|auto|]. intros _ s [Ht Hq].
  unfold store_inv. simpl. rewrite Ht, Hq. destruct Hinv as ((hist & Hi) & [] & Hc).
  split; [exists hist|split]; [|by split|by apply (callback_chain_ext t)].
  apply (tree_inv_same _ _ t); [done..|apply Hi].
Qed.

(** ** Commit *)

(** A proof of a block of the tree states its round, and a block ordered after the ordered
    root is between it and the highest certified block: the safety of the consensus. *)
Definition safe_commit (t : BlockTree) (proof : LedgerInfoWithSignatures) : Prop :=
  let id := bi_id (lis_commit_info proof) in
  in_tree t id →
  bi_round (lis_commit_info proof) = round_of t id
  ∧ (round_of t (bt_ordered_root_id t) < round_of t id →
     reach t (bt_ordered_root_id t) id ∧ reach t id (bt_highest_certified_block_id t)).

Lemma path_from_ordered_root_spec {E} t hist id : tree_inv U hist t →
  ∃ o, path_from_ordered_root (E:=E) t id = Ok o ∧
    match o with
    | Some path => linked t (bt_ordered_root_id t) id path
    | None => ¬ reach t (bt_ordered_root_id t) id
    end.
Proof.
  intros Hi. destruct (tree_inv_ordered _ _ _ Hi) as [lo Ho].
  unfold path_from_ordered_root, ordered_root, get_block, get_linkable_block. rewrite Ho. simpl.
  apply path_from_root_spec; [apply Hi|]. apply get_block_Some. eauto.
Qed.

(** Ordering a block appends its batch to the queue. *)
Lemma order_store t q path id b proof :
  store_tree_inv t q → reach t (bt_ordered_root_id t) id → reach t id (bt_highest_certified_block_id t) →
  bi_id (lis_commit_info proof) = id → bi_round (lis_commit_info proof) = round_of t id →
  last path = Some b → eb_id b = id →
  store_tree_inv (set_roots id (bt_commit_root_id t) t) (q ++ [(path, proof)]).
Proof.
  intros ((hist & Hi) & [] & Hq) Hr Hc Hid Hround Hlast Hb. split; [|split].
  - exists hist. by apply update_ordered_root_inv.
  - by split.
  - simpl. apply callback_chain_app. exists (bt_ordered_root_id t). split.
    + by apply (callback_chain_ext t).
    + exists b. by rewrite Hb.
Qed.

Lemma commit_triple proof :
  st_triple (λ s, store_inv s ∧ safe_commit (bs_inner s) proof) (commit proof)
    (λ _ s, bt_ordered_root_id (bs_inner s) = bi_id (lis_commit_info proof) ∧ store_inv s) store_inv.
Proof.
  intros s0 [Hs0 Hsafe]. set (t := bs_inner s0) in *. set (q := bs_callbacks s0).
  assert (Hat : at_tree t q s0) by done. assert (Hinv : store_tree_inv t q) by done.
  clearbody t q. clear Hs0. revert s0 Hat. pose proof (at_tree_inv t q) as Hexc.
  pose proof Hinv as ((hist & Hi) & _ & _). unfold commit. set (id := bi_id (lis_commit_info proof)) in *.
  destruct (get_block t id) as [b|] eqn:Hb.
  2: { intros s Hs. unfold st_bind, reading. rewrite (proj1 Hs), Hb. by apply Hexc. }
  apply (reading_bind _ _ _ b); [by rewrite Hb|].
  destruct (tree_inv_ordered _ _ _ Hi) as [lo Ho].
  apply (reading_bind _ _ _ (lb_executed_block lo)).
  { unfold ordered_root, get_block, get_linkable_block. by rewrite Ho. }
  apply ensure_bind; [auto|]. intros Hlt%Z.ltb_lt.
  apply get_block_Some in Hb as (lb & Hlb & <-).
  destruct (Hsafe (mk_is_Some _ _ Hlb)) as [Hround Hreach].
  fold id in Hround, Hreach. rewrite (round_of_eq _ _ _ Ho), (round_of_eq _ _ _ Hlb) in Hreach.
  destruct (Hreach Hlt) as [Hreach' Hcert]. clear Hreach.
  destruct (path_from_ordered_root_spec (E:=string) t hist id Hi) as (o & Hpath & Hlinked).
  apply (reading_bind _ _ _ o); [done|]. destruct o as [path|]; [|done]. simpl.
  assert (Hne : id ≠ bt_ordered_root_id t) by (intros Heq; rewrite Heq in Hlb; simplify_eq; lia).
  destruct (linked_nonempty _ _ _ _ Hlinked Hne) as (l & b & -> & Hb).
  apply get_block_Some in Hb as (lb' & Hlb' & <-). simplify_eq.
  pose proof (tl_key _ (ti_links _ _ _ Hi) _ _ Hlb) as Hid. unfold lb_id in Hid.
  rewrite bool_decide_eq_false_2 by (by intros []%app_nil).
  intros s [Ht Hq]. unfold st_bind, st_lift, st_map_res, with_computer, st_zoom.
  pose proof (co_commit HC (l ++ [lb_executed_block lb]) proof (bs_state_computer s)) as Hcommit.
  destruct (sc_commit _ _ _) as [c r]. simpl in Hcommit. subst r. cbn [put_callbacks].
  destruct (update_ordered_root_inv _ _ _ _ Hi Hreach' Hcert) as [Hup _].
  unfold writing, st_zoom. simpl. rewrite Ht, Hid, Hup. split; [done|].
  unfold store_inv. simpl. rewrite Hq. eapply order_store; eauto. apply last_snoc.
Qed.

(** ** Callbacks *)

Lemma run_callback_triple n :
  st_triple store_inv (run_callback n) (λ _, store_inv) store_inv.
Proof.
  apply store_inv_triple. intros t q Hinv s [Ht Hq].
  pose proof Hinv as ((hist & Hi) & Hc & Hchain).
  unfold run_callback, st_bind, st_get. rewrite Hq.
  destruct (last (take n q)) as [[bs proof]|] eqn:Hlast.
  2: { simpl. by apply (at_tree_inv t q). }
  rewrite <- (take_drop n q) in Hchain.
  apply callback_chain_app in Hchain as (m & Hfirst & Hrest).
  destruct (callback_chain_last _ _ _ _ _ _ Hfirst Hlast) as (b & Hb & <- & Hid & Hround).
  pose proof (callback_chain_reach _ _ _ _ Hfirst) as Hr1.
  pose proof (callback_chain_reach _ _ _ _ Hrest) as Hr2.
  destruct (commit_callback_spec U HU hist t (concat (take n q).*1) proof b Hi Hb Hr1 Hr2 Hid Hround)
    as (l & t' & Hcb & Hi' & Hl & Hroot & li & k & -> & _ & Hk).
  unfold st_put, writing, st_zoom. simpl. rewrite Ht, Hcb. simpl.
  destruct (prune_tree l _) as [p ?]. unfold store_inv. simpl.
  split; [by exists hist|]. split.
  - apply evict_certs; [by destruct Hc|]. simpl. subst k. eapply live_stays; eauto.
    unfold reach in *. etrans; [exact Hr2|]. apply (ti_certified _ _ _ Hi).
  - simpl. eapply (callback_chain_ext t); [..|exact Hrest].
    + intros x y Hx Hy. subst k. by eapply (evicted_reach_live_from U hist t (eb_id b)).
    + intros x Hx. subst k. apply evicted_round. eapply live_stays; eauto.
Qed.
End store.
