(* ===== verification/BlockRecovery.v ===== *)
(** * BlockRecovery: a restarted node rebuilds its block store

    [RecoveryData_new] keeps of the saved blocks those that descend from the last committed
    one, parents first; [build] then inserts them and their certificates without failing. *)

From S2P Require Import Prelude Crypto Accumulator ValidatorVerifier LedgerTypes.
From S2P Require Import AccumulatorProof ConsensusTypes ConsensusMessages BlockTree.
From S2P Require Import BlockTreeFacts BlockTreeInv BlockStore BlockStoreFacts.

(** ** The blocks kept *)

(** From the ids [T], every block of the list has its parent before it; [T'] are all ids. *)
Inductive topological : gset HashValue → list Block → gset HashValue → Prop :=
| topological_nil T : topological T [] T
| topological_cons T b bs T' : b_parent_id b ∈ T → topological ({[b_id b]} ∪ T) bs T' →
    topological T (b :: bs) T'.

Lemma retain_topological T bs kept removed T' :
  retain_descendants T bs = (kept, removed, T') → topological T kept T'.
Proof.
  revert T kept removed. induction bs as [|b bs IH]; simpl; intros T kept removed.
  - intros [= <- <- <-]. constructor.
  - destruct (bool_decide (b_parent_id b ∈ T)) eqn:Hp.
    + destruct (retain_descendants _ bs) as [[k r] T1] eqn:Hr. intros [= <- <- <-].
      apply bool_decide_eq_true in Hp. constructor; eauto.
    + destruct (retain_descendants _ bs) as [[k r] T1] eqn:Hr. intros [= <- <- <-]. eauto.
Qed.

Lemma topological_ids T bs T' : topological T bs T' → ∀ id, id ∈ T' ↔ id ∈ T ∨ id ∈ b_id <$> bs.
Proof.
  induction 1 as [|T b bs T' Hp _ IH]; intros id.
  - rewrite elem_of_nil. naive_solver.
  - rewrite IH, fmap_cons, elem_of_cons, elem_of_union, elem_of_singleton. naive_solver.
Qed.

(** A saved block descends from the root through saved blocks. *)
Inductive descends (bs : list Block) (root_id : HashValue) : HashValue → Prop :=
| descends_root : descends bs root_id root_id
| descends_block b : b ∈ bs → descends bs root_id (b_parent_id b) → descends bs root_id (b_id b).

Lemma retain_subset T bs kept removed T' :
  retain_descendants T bs = (kept, removed, T') → ∀ b, b ∈ kept → b ∈ bs.
Proof.
  revert T kept removed. induction bs as [|x bs IH]; simpl; intros T kept removed.
  - by intros [= <- <- <-].
  - destruct (bool_decide _); destruct (retain_descendants _ bs) as [[k r] T1] eqn:Hr;
      intros [= <- <- <-] b; [|intros Hb; right; eauto].
    intros [->|Hb]%elem_of_cons; [left|right; eauto].
Qed.

Lemma retain_descends bs all root_id T kept removed T' :
  retain_descendants T bs = (kept, removed, T') →
  (∀ b, b ∈ bs → b ∈ all) → (∀ id, id ∈ T → descends all root_id id) →
  (∀ b, b ∈ kept → descends all root_id (b_parent_id b)) ∧ (∀ id, id ∈ T' → descends all root_id id).
Proof.
  revert T kept removed. induction bs as [|x bs IH]; simpl; intros T kept removed.
  { intros [= <- <- <-] _ HT. split; [by intros b ?%elem_of_nil|done]. }
  destruct (bool_decide (b_parent_id x ∈ T)) eqn:Hp;
    destruct (retain_descendants _ bs) as [[k r] T1] eqn:Hr; intros [= <- <- <-] Hall HT.
  - apply bool_decide_eq_true in Hp. destruct (IH _ _ _ Hr) as [Hk HT1].
    + intros b' ?. apply Hall. by right.
    + intros id [->%elem_of_singleton|?]%elem_of_union; [|auto].
      constructor; [apply Hall; left|auto].
    + split; [|done]. intros b' [->|?]%elem_of_cons; auto.
  - apply (IH _ _ _ Hr); [intros; apply Hall; by right|auto].
Qed.

(** [b] does not come before a block it is the child of. *)
Definition parents_first (bs : list Block) : Prop :=
  ∀ l1 b l2 b', bs = l1 ++ b :: l2 → b' ∈ b :: l2 → b_id b' ≠ b_parent_id b.

(** With parents first, nothing that descends from the root is dropped. *)
Lemma retain_complete T bs kept removed T' b :
  retain_descendants T bs = (kept, removed, T') → parents_first bs →
  b ∈ bs → b_parent_id b ∈ T' → b ∈ kept.
Proof.
  revert T kept removed. induction bs as [|x bs IH]; simpl; intros T kept removed Hr Hord Hb Hp.
  { by apply elem_of_nil in Hb. }
  assert (Hord' : parents_first bs).
  { intros l1 y l2 y' ->. by apply (Hord (x :: l1)). }
  destruct (bool_decide (b_parent_id x ∈ T)) eqn:Hpx;
    destruct (retain_descendants _ bs) as [[k r] T1] eqn:Hr1; injection Hr as <- <- <-.
  - apply elem_of_cons in Hb as [->|Hb]; [left|]. right. by eapply IH.
  - apply bool_decide_eq_false in Hpx. apply elem_of_cons in Hb as [->|Hb]; [|by eapply IH].
    exfalso. rewrite (topological_ids _ _ _ (retain_topological _ _ _ _ _ Hr1)) in Hp.
    destruct Hp as [Hp|(b' & Hid & Hb')%list_elem_of_fmap]; [done|].
    apply (Hord [] x bs b'); [done| |done]. right. by eapply retain_subset.
Qed.

Lemma retain_exact root_id bs kept removed T' b :
  retain_descendants {[root_id]} bs = (kept, removed, T') → parents_first bs →
  b ∈ kept ↔ b ∈ bs ∧ descends bs root_id (b_parent_id b).
Proof.
  intros Hr Hord. split.
  - intros Hb. split; [by eapply retain_subset|].
    destruct (retain_descends bs bs root_id _ _ _ _ Hr) as [Hk _]; [done| |auto].
    intros id ->%elem_of_singleton. constructor.
  - intros [Hb Hd]. eapply retain_complete; [done..|]. revert Hd.
    generalize (b_parent_id b) as id. clear b Hb.
    pose proof (topological_ids _ _ _ (retain_topological _ _ _ _ _ Hr)) as Hids.
    induction 1 as [|b Hb Hd IH]; apply Hids.
    + left. set_solver.
    + right. apply list_elem_of_fmap_2. by eapply retain_complete.
Qed.

(** ** Sorting *)

Section sort.
Context {A : Type} (key : A → Z * Z).
Definition key_before (x y : A) : Prop :=
  (key x).1 < (key y).1 ∨ ((key x).1 = (key y).1 ∧ (key x).2 ≤ (key y).2).

Lemma insert_by_key_perm x l : insert_by_key key x l ≡ₚ x :: l.
Proof.
  induction l as [|y l IH]; simpl; [done|]. destruct (_ || _); [done|]. rewrite IH.
  apply Permutation_swap.
Qed.
Lemma sort_by_key_perm l : sort_by_key key l ≡ₚ l.
Proof. induction l as [|x l IH]; simpl; [done|]. by rewrite insert_by_key_perm, IH. Qed.

Lemma insert_by_key_sorted x l : StronglySorted key_before l → StronglySorted key_before (insert_by_key key x l).
Proof.
  induction 1 as [|y l Hl IH Hy]; simpl; [by repeat constructor|].
  destruct ((key x).1 <? (key y).1) eqn:H1, ((key x).1 =? (key y).1) eqn:H2,
    ((key x).2 <=? (key y).2) eqn:H3; simpl;
    rewrite ?Z.ltb_lt, ?Z.ltb_ge, ?Z.eqb_eq, ?Z.eqb_neq, ?Z.leb_le, ?Z.leb_gt in *.
  all: try (constructor; [by constructor|]; constructor; [unfold key_before; lia|];
            eapply Forall_impl; [exact Hy|]; unfold key_before; intros; lia).
  all: constructor; [done|]; rewrite insert_by_key_perm; constructor; [unfold key_before; lia|done].
Qed.
Lemma sort_by_key_sorted l : StronglySorted key_before (sort_by_key key l).
Proof. induction l; simpl; [constructor|by apply insert_by_key_sorted]. Qed.

Lemma StronglySorted_delete (R : A → A → Prop) i l : StronglySorted R l → StronglySorted R (delete i l).
Proof.
  intros H. revert i. induction H as [|x l Hl IH Hx]; intros [|i]; simpl; [constructor..|done|].
  constructor; [apply IH|]. by apply Forall_delete.
Qed.
Lemma StronglySorted_after (R : A → A → Prop) l1 x l2 y :
  StronglySorted R (l1 ++ x :: l2) → y ∈ l2 → R x y.
Proof.
  intros H Hy. apply StronglySorted_app in H as (_ & _ & H). inversion H as [|? ? _ Hf].
  by apply (proj1 (Forall_forall _ _) Hf).
Qed.
End sort.

(** ** The root *)

Section roots.
Context `{CC : ConsensusCrypto}.

(** The blocks read from the storage, with the genesis block of an epoch that starts. *)
Definition saved_blocks (d : LedgerRecoveryData) (blocks : list Block) : list Block :=
  let li := lis_ledger_info (lrd_storage_ledger d) in
  if li_ends_epoch li then
    match make_genesis_block_from_ledger_info (E:=string) li with
    | Ok genesis => blocks ++ [genesis]
    | _ => blocks
    end
  else blocks.

Lemma find_root_spec d blocks qcs root blocks' qcs' :
  find_root d blocks qcs = Ok (root, blocks', qcs') →
  let sorted := sort_by_key (λ b, (b_epoch b, b_round b)) (saved_blocks d blocks) in
  (∃ i, sorted !! i = Some (ri_block root) ∧ blocks' = delete i sorted)
  ∧ bi_id (qc_certified_block (ri_quorum_cert root)) = b_id (ri_block root)
  ∧ bi_id (qc_commit_info (ri_ordered_cert root)) = b_id (ri_block root)
  ∧ ri_quorum_cert root ∈ qcs'.
Proof.
  unfold find_root. intros H. apply r_bind_ok in H as ([[[root_id li] bs] cs] & H1 & H).
  assert (Hbs : bs = saved_blocks d blocks).
  { unfold saved_blocks. destruct (li_ends_epoch _); [|by injection H1 as <- <- <- <-].
    apply r_bind_ok in H1 as (g & -> & H1). apply r_bind_ok in H1 as (gqc & _ & H1).
    by injection H1 as <- <- <- <-. }
  subst bs. apply r_bind_ok in H as ([i b] & Hi%ok_or_ok & H).
  apply r_bind_ok in H as ([j qc] & Hj%ok_or_ok & H). apply r_bind_ok in H as ([k oc] & Hk%ok_or_ok & H).
  injection H as <- <- <-. simpl. unfold position_of in Hi.
  apply list_find_Some in Hi as (Hi & _ & _). apply list_find_Some in Hj as (Hj & Hjid & _).
  apply list_find_Some in Hk as (_ & Hkid & _).
  split_and!; [eauto|done|done|]. by eapply list_elem_of_lookup_2.
Qed.

Lemma descends_mono bs bs' root_id id : (∀ b, b ∈ bs → b_id b = root_id ∨ b ∈ bs') →
  descends bs root_id id → descends bs' root_id id.
Proof.
  intros Hsub. induction 1 as [|b Hb _ IH]; [constructor|].
  destruct (Hsub b Hb) as [->|Hb']; by constructor.
Qed.

(** In the order of the sort a block comes after its parent. *)
Lemma sorted_parents_first bs U : chain_blocks U → Forall U bs →
  (∀ b p, b ∈ bs → p ∈ bs → b_id p = b_parent_id b → b_epoch p = b_epoch b) →
  StronglySorted (key_before (λ b, (b_epoch b, b_round b))) bs → parents_first bs.
Proof.
  intros HU HF Hep Hs l1 b l2 b' -> Hb' Hid.
  assert (Hb : b ∈ l1 ++ b :: l2) by (apply elem_of_app; right; left).
  assert (Hb'' : b' ∈ l1 ++ b :: l2) by (apply elem_of_app; by right).
  rewrite Forall_forall in HF. pose proof (cb_round _ HU b' b (HF _ Hb'') (HF _ Hb) (eq_sym Hid)) as Hlt.
  pose proof (Hep _ _ Hb Hb'' Hid). apply elem_of_cons in Hb' as [->|Hb']; [lia|].
  pose proof (StronglySorted_after _ _ _ _ _ Hs Hb') as Hk. unfold key_before in Hk. simpl in Hk. lia.
Qed.

(** What [RecoveryData_new] returns, in terms of the list the root was taken from. *)
Lemma RecoveryData_new_spec last_vote lrd blocks metadata qcs tc tc2 d :
  RecoveryData_new last_vote lrd blocks metadata qcs tc tc2 = Ok d →
  let sorted := sort_by_key (λ b, (b_epoch b, b_round b)) (saved_blocks lrd blocks) in
  let root_id := b_id (ri_block (rd_root d)) in
  ∃ i T removed, sorted !! i = Some (ri_block (rd_root d))
    ∧ retain_descendants {[root_id]} (delete i sorted) = (rd_blocks d, removed, T)
    ∧ (∀ qc, qc ∈ rd_quorum_certs d → bi_id (qc_certified_block qc) ∈ T)
    ∧ bi_id (qc_certified_block (ri_quorum_cert (rd_root d))) = root_id
    ∧ bi_id (qc_commit_info (ri_ordered_cert (rd_root d))) = root_id.
Proof.
  unfold RecoveryData_new. intros H. apply r_bind_ok in H as ([[root bs] cs] & Hf & H).
  apply r_map_err_ok in Hf. destruct (find_root_spec _ _ _ _ _ _ Hf) as ((i & Hi & ->) & Hq & Ho & _).
  unfold recovery_blocks_to_prune in H.
  destruct (retain_descendants _ _) as [[kept removed] T] eqn:Hr. injection H as <-. simpl.
  exists i, T, removed. split_and!; try done. by intros qc [? _]%list_elem_of_filter.
Qed.

(** No saved block that descends from the root is lost. *)
Lemma recovery_complete U last_vote lrd blocks metadata qcs tc tc2 d b : chain_blocks U →
  RecoveryData_new last_vote lrd blocks metadata qcs tc tc2 = Ok d →
  (∀ b, b ∈ saved_blocks lrd blocks → U b) →
  (∀ b b', b ∈ saved_blocks lrd blocks → b' ∈ saved_blocks lrd blocks →
     b_id b' = b_parent_id b → b_epoch b' = b_epoch b) →
  b ∈ saved_blocks lrd blocks → b ≠ ri_block (rd_root d) →
  descends (saved_blocks lrd blocks) (b_id (ri_block (rd_root d))) (b_parent_id b) → b ∈ rd_blocks d.
Proof.
  intros HU Hd HUs Hep Hb Hne Hdesc.
  destruct (RecoveryData_new_spec _ _ _ _ _ _ _ _ Hd) as (i & T & removed & Hi & Hr & _).
  set (sorted := sort_by_key _ _) in *.
  assert (Hperm : saved_blocks lrd blocks ≡ₚ ri_block (rd_root d) :: delete i sorted).
  { rewrite <- (sort_by_key_perm (λ b, (b_epoch b, b_round b)) (saved_blocks lrd blocks)).
    by apply delete_Permutation. }
  assert (Hsub : ∀ x, x ∈ delete i sorted → x ∈ saved_blocks lrd blocks).
  { intros x Hx. rewrite Hperm. by right. }
  apply (retain_exact _ _ _ _ _ _ Hr).
  - apply (sorted_parents_first _ U HU); [by apply Forall_forall; auto|by auto|].
    apply StronglySorted_delete, sort_by_key_sorted.
  - split; [rewrite Hperm in Hb; by apply elem_of_cons in Hb as [?|?]|].
    eapply descends_mono; [|exact Hdesc]. intros x Hx. rewrite Hperm in Hx.
    apply elem_of_cons in Hx as [->|?]; auto.
Qed.
End roots.

(** ** Building *)

Section building.
Context (U : Block → Prop) (HU : chain_blocks U).
Context `{HI : HashIter} {C P : Type} `{SC : StateComputer C} `{PS : PersistentLivenessStorage P}.
Local Abbreviation BS := (BlockStore C P).

(** The executor computes every block and the storage saves. *)
Record reliable : Prop := {
  re_compute b p c : ∃ r, (compute b p c).2 = Ok r;
  re_save_tree bs qcs p : (save_tree bs qcs p).2 = Ok ();
}.
Context (root : HashValue).

(** The tree under construction: the blocks [T], all below the root, nothing committed. *)
Record building (T : gset HashValue) (s : BS) : Prop := {
  bu_inv : store_inv U s;
  bu_callbacks : bs_callbacks s = [];
  bu_ordered : bt_ordered_root_id (bs_inner s) = root;
  bu_commit : bt_commit_root_id (bs_inner s) = root;
  bu_ids id : in_tree (bs_inner s) id ↔ id ∈ T;
  bu_reach id : in_tree (bs_inner s) id → reach (bs_inner s) root id;
}.

(** The store over the root alone. *)
Lemma fresh_building (t : BlockTree) (c : C) (p : P) bp root_block :
  tree_inv U [eb_block root_block] t → cert_inv t → eb_id root_block = root →
  bt_ordered_root_id t = root → bt_commit_root_id t = root →
  bt_id_to_block t = {[root := LinkableBlock_new root_block]} →
  building {[root]} (mkBlockStore t c p bp []).
Proof.
  intros Hi Hc Hid Ho Hr Hm. split; simpl; try done.
  - split; [by eexists|]. split; [done|]. simpl. congruence.
  - intros id. unfold in_tree. rewrite Hm. split.
    + intros [lb [<- _]%lookup_singleton_Some]. set_solver.
    + intros ->%elem_of_singleton. rewrite lookup_singleton_eq. eauto.
  - intros id [lb Hlb]. rewrite Hm in Hlb. apply lookup_singleton_Some in Hlb as [<- _]. constructor.
Qed.

Context (HR : reliable).

Lemma execute_or_recover_reliable t q b (s : BS) : at_tree t q s →
  ∃ s' r, execute_or_recover b s = (s', Ok (mkExecutedBlock b r)) ∧ at_tree t q s'.
Proof.
  intros [Ht Hq]. unfold execute_or_recover, execute_block, with_computer, st_zoom, st_bind, st_ret.
  destruct (re_compute HR b (b_parent_id b) (bs_state_computer s)) as [r Hr].
  destruct (compute _ _ _) as [c' r']. simpl in Hr. subst r'. by eexists _, r.
Qed.

Lemma execute_and_insert_reliable t q b lo lp (s : BS) :
  at_tree t q s → tree_links t →
  bt_id_to_block t !! bt_ordered_root_id t = Some lo → lb_round lo < b_round b →
  bt_id_to_block t !! b_id b = None → bt_id_to_block t !! b_parent_id b = Some lp →
  ∃ s' r, execute_and_insert_block b s = (s', Ok (mkExecutedBlock b r))
    ∧ at_tree (with_child t (mkExecutedBlock b r) lp) q s'.
Proof.
  intros Hat TL Hlo Hround Hb Hlp.
  destruct (execute_or_recover_reliable t q b s Hat) as (s1 & r & He & [Ht1 Hq1]).
  pose proof (re_save_tree HR [b] [] (bs_storage s1)) as Hsave.
  unfold execute_and_insert_block, st_bind, reading, ordered_root, get_block, get_linkable_block, st_lift, ensure.
  rewrite (proj1 Hat), Hb. simpl. rewrite (proj1 Hat), Hlo. simpl. apply Z.ltb_lt in Hround. unfold lb_round in Hround. rewrite Hround.
  unfold st_map_res, with_storage, writing, st_zoom. rewrite He. simpl.
  destruct (save_tree [b] [] (bs_storage s1)) as [p' r']. simpl in Hsave. subst r'. simpl.
  rewrite Ht1, (insert_block_spec t _ TL).
  change (eb_id _) with (b_id b). change (eb_parent_id _) with (b_parent_id b).
  rewrite Hb, Hlp. by eexists _, r.
Qed.

Lemma building_round T s b lo lp : building T s → U b →
  bt_id_to_block (bs_inner s) !! b_parent_id b = Some lp →
  bt_id_to_block (bs_inner s) !! bt_ordered_root_id (bs_inner s) = Some lo →
  lb_round lo < b_round b.
Proof.
  intros [((hist & Hi) & _) _ Ho _ _ Hreach] HUb Hlp Hlo. pose proof (ti_links _ _ _ Hi) as TL.
  assert (Hlt : eb_round (lb_executed_block lp) < b_round b).
  { apply (cb_round _ HU); [by eapply (ti_exists _ _ _ Hi), (ti_hist _ _ _ Hi)|done|].
    symmetry. apply (tl_key _ TL _ _ Hlp). }
  assert (Hre : reach (bs_inner s) root (b_parent_id b)) by (apply Hreach; by exists lp).
  rewrite <- Ho in Hre. destruct (reach_round _ TL _ _ _ _ Hlo Hlp Hre) as [Heq|Hr].
  - rewrite Heq in Hlo. simplify_eq. done.
  - unfold lb_round in *. lia.
Qed.

Lemma insert_block_building T s b : building T s → U b → b_parent_id b ∈ T →
  ∃ s' eb, execute_and_insert_block b s = (s', Ok eb) ∧ building ({[b_id b]} ∪ T) s'.
Proof.
  intros Hbu HUb Hp. pose proof (λ lo lp, building_round _ _ b lo lp Hbu HUb) as Hround.
  destruct Hbu as [Hinv Hq Ho Hc Hids Hreach].
  pose proof Hinv as ((hist & Hi) & Hcert & Hchain). pose proof (ti_links _ _ _ Hi) as TL.
  apply Hids in Hp as [lp Hlp]. destruct (tree_inv_ordered _ _ _ Hi) as [lo Hlo].
  destruct (bt_id_to_block (bs_inner s) !! b_id b) as [lb|] eqn:Hb.
  { exists s, (lb_executed_block lb). split.
    { unfold execute_and_insert_block, st_bind, reading, get_block, get_linkable_block. by rewrite Hb. }
    split; try done. intros id. rewrite Hids. assert (b_id b ∈ T) by (apply Hids; by exists lb). set_solver. }
  specialize (Hround _ _ Hlp Hlo).
  destruct (execute_and_insert_reliable (bs_inner s) [] b lo lp s) as (s' & r & -> & [Ht' Hq']); try done.
  eexists s', _. split; [done|]. split; rewrite ?Ht', ?Hq'; try done.
  - unfold store_inv. rewrite Ht', Hq', <- Hq. apply (with_child_store U HU); try done.
    by rewrite (round_of_eq _ _ _ Hlo).
  - intros id. rewrite with_child_in, Hids by done. change (eb_id _) with (b_id b). set_solver.
  - intros id. rewrite with_child_in by done. intros [->|Hin].
    + eapply rtc_r; [apply with_child_reach; [done..|]|apply with_child_edge; auto].
      apply (Hreach (b_parent_id b)). by exists lp.
    + apply with_child_reach; auto.
Qed.

Lemma insert_blocks_building T bs T' : topological T bs T' → Forall U bs → ∀ s, building T s →
  ∃ s', insert_blocks bs s = (s', Ok ()) ∧ building T' s'.
Proof.
  induction 1 as [|T b bs T' Hp _ IH]; intros HF s Hs; [by exists s|].
  apply Forall_cons in HF as [Hb HF].
  destruct (insert_block_building T s b Hs Hb Hp) as (s1 & eb & He & Hs1).
  destruct (IH HF s1 Hs1) as (s' & Hrun & Hs'). exists s'. split; [|done].
  simpl. unfold st_bind. by rewrite He.
Qed.

(** A certificate states the epoch, round and time of the block it certifies. *)
Definition cert_matches (qc : QuorumCert) : Prop :=
  ∀ b, U b → b_id b = bi_id (qc_certified_block qc) →
    bi_epoch (qc_certified_block qc) = b_epoch b ∧ qc_round qc = b_round b
    ∧ bi_timestamp_usecs (qc_certified_block qc) = b_timestamp_usecs b.

Lemma insert_cert_building T s qc : building T s → bi_id (qc_certified_block qc) ∈ T → cert_matches qc →
  ∃ s', insert_single_quorum_cert qc s = (s', Ok ()) ∧ building T s'
    ∧ bt_id_to_quorum_cert (bs_inner s')
      = or_insert (bi_id (qc_certified_block qc)) qc (bt_id_to_quorum_cert (bs_inner s)).
Proof.
  intros [Hinv Hq Ho Hc Hids Hreach] Hin Hm.
  pose proof Hinv as ((hist & Hi) & Hcert & Hchain). pose proof (ti_links _ _ _ Hi) as TL.
  apply Hids in Hin as Hlb. destruct Hlb as [lb Hlb]. pose proof (tl_key _ TL _ _ Hlb) as Hid.
  destruct (Hm (eb_block (lb_executed_block lb))) as (He & Hr & Hts); [|done|].
  { eapply (ti_exists _ _ _ Hi), (ti_hist _ _ _ Hi _ _ Hlb). }
  assert (Hmatch : match_ordered_only (eb_block_info (lb_executed_block lb)) (qc_certified_block qc) = true).
  { unfold match_ordered_only, eb_block_info, gen_block_info. cbn [bi_epoch bi_round bi_id bi_timestamp_usecs].
    unfold qc_round in Hr. rewrite He, Hr, Hts, <- Hid. by rewrite !Z.eqb_refl. }
  unfold insert_single_quorum_cert, st_bind, reading, get_block, get_linkable_block, st_lift, ensure.
  rewrite Hlb. simpl. rewrite Hmatch. unfold st_map_res, with_storage, writing, st_zoom.
  pose proof (re_save_tree HR [] [qc] (bs_storage s)) as Hsave.
  destruct (save_tree [] [qc] (bs_storage s)) as [p' r']. simpl in Hsave. subst r'. simpl.
  rewrite (insert_quorum_cert_spec _ _ _ _ Hi), Hlb. eexists. split; [done|]. split; [|done].
  split; try done. unfold store_inv. simpl. apply with_cert_store; [done|by exists lb|].
  intros Hin' _. rewrite Ho. by apply Hreach.
Qed.

Lemma insert_certs_building T qcs : (∀ qc, qc ∈ qcs → bi_id (qc_certified_block qc) ∈ T ∧ cert_matches qc) →
  ∀ s, building T s →
  ∃ s', insert_quorum_certs qcs s = (s', Ok ()) ∧ building T s'
    ∧ (∀ id, is_Some (bt_id_to_quorum_cert (bs_inner s) !! id) → is_Some (bt_id_to_quorum_cert (bs_inner s') !! id))
    ∧ (∀ qc, qc ∈ qcs → is_Some (bt_id_to_quorum_cert (bs_inner s') !! bi_id (qc_certified_block qc))).
Proof.
  induction qcs as [|qc qcs IH]; intros Hall s Hs.
  { exists s. split_and!; try done. by intros qc ?%elem_of_nil. }
  destruct (Hall qc) as [Hin Hm]; [left|].
  destruct (insert_cert_building T s qc Hs Hin Hm) as (s1 & He & Hs1 & Hq1).
  destruct IH with s1 as (s' & Hrun & Hs' & Hmono & Hnew); [intros; apply Hall; by right|done|].
  exists s'. simpl. unfold st_bind. rewrite He. split_and!; [done|done| |].
  - intros id [c Hc]. apply Hmono. rewrite Hq1, or_insert_lookup, Hc. eauto.
  - intros qc' [->|?]%elem_of_cons; [|auto]. apply Hmono. rewrite Hq1, or_insert_lookup, decide_True by done.
    destruct (bt_id_to_quorum_cert (bs_inner s) !! _); eauto.
Qed.
End building.
