(* ===== verification/BlockStoreSafety.v ===== *)
(** * BlockStoreSafety: what the block store guarantees

    Runs of the operations of the store from a fresh tree keep the invariant and never
    panic; pruning, paths, commits and recovery are exact. *)

From S2P Require Import Prelude Crypto Accumulator ValidatorVerifier LedgerTypes EpochChange.
From S2P Require Import AccumulatorProof ConsensusTypes ConsensusMessages BlockTree.
From S2P Require Import BlockTreeFacts BlockTreeInv BlockStore BlockStoreFacts BlockRecovery.
From S2P Require Import SafetyStorage SafetyRules CommitSafety.

Section runs.
Context (U : Block → Prop) (HU : chain_blocks U).
Context `{HI : HashIter} {C P : Type} `{SC : StateComputer C} `{PS : PersistentLivenessStorage P}.
Local Abbreviation BS := (BlockStore C P).

(** The operations other components call, and the run of waiting callbacks. *)
Inductive StoreOp :=
| OpBlock (b : Block)
| OpCert (qc : QuorumCert)
| OpTimeoutCert (tc : TimeoutCertificate)
| OpTwoChainTimeoutCert (tc : TwoChainTimeoutCertificate)
| OpCommit (proof : LedgerInfoWithSignatures)
| OpCallback (n : nat).

Definition run_op (op : StoreOp) : ST BS string unit :=
  match op with
  | OpBlock b => execute_and_insert_block b ;! st_ret ()
  | OpCert qc => insert_single_quorum_cert qc
  | OpTimeoutCert tc => insert_timeout_certificate tc
  | OpTwoChainTimeoutCert tc => insert_2chain_timeout_certificate tc
  | OpCommit proof => commit proof
  | OpCallback n => run_callback n
  end.

(** What the consensus protocol guarantees of the arguments. *)
Definition admissible (t : BlockTree) (op : StoreOp) : Prop :=
  match op with
  | OpBlock b => U b
  | OpCert qc => safe_cert t qc
  | OpCommit proof => safe_commit t proof
  | _ => True
  end.

Inductive store_run (s : BS) : list StoreOp → BS → Prop :=
| store_run_nil : store_run s [] s
| store_run_snoc ops s1 op s2 r : store_run s ops s1 → admissible (bs_inner s1) op →
    run_op op s1 = (s2, r) → store_run s (ops ++ [op]) s2.

Lemma run_op_triple op : collaborators →
  st_triple (λ s, store_inv U s ∧ admissible (bs_inner s) op) (run_op op) (λ _, store_inv U) (store_inv U).
Proof.
  intros HC. destruct op; simpl.
  - eapply (st_triple_bind _ (λ _, store_inv U)); [|intros ?; by apply st_triple_ret].
    intros s [Hs Hb]. pose proof (execute_and_insert_block_triple U HU HC b Hb s Hs) as H.
    destruct (execute_and_insert_block b s) as [s1 [eb|e|m]]; naive_solver.
  - intros s Hs. pose proof (insert_single_quorum_cert_triple U HC qc s Hs) as H.
    destruct (insert_single_quorum_cert qc s) as [s1 [eb|e|m]]; naive_solver.
  - intros s [Hs _]. apply (insert_timeout_certificate_triple U HC tc s Hs).
  - intros s [Hs _]. apply (insert_2chain_timeout_certificate_triple U HC tc s Hs).
  - intros s Hs. pose proof (commit_triple U HC proof s Hs) as H.
    destruct (commit proof s) as [s1 [eb|e|m]]; naive_solver.
  - intros s [Hs _]. apply (run_callback_triple U HU n s Hs).
Qed.

(** A store over a tree that [BlockTree::new] made of a root, its certificate, a
    certificate that orders it and a ledger info that is not newer. *)
Definition store_start (s : BS) : Prop := ∃ root qc oc li mx tc tc2,
  BlockTree_new (E:=string) root qc oc li mx tc tc2 = Ok (bs_inner s)
  ∧ bi_id (qc_certified_block qc) = eb_id root
  ∧ bi_round (lis_commit_info li) ≤ eb_round root
  ∧ bi_round (qc_commit_info qc) ≤ bi_round (qc_commit_info oc)
  ∧ U (eb_block root) ∧ bs_callbacks s = [].

Lemma store_start_inv s : store_start s → store_inv U s.
Proof.
  intros (root & qc & oc & li & mx & tc & tc2 & Hnew & Hqc & Hli & Hoc & Hb & Hq).
  assert (Hid : eb_id root = bi_id (qc_commit_info oc)).
  { unfold BlockTree_new in Hnew. destruct (Z.eqb_spec (eb_id root) (bi_id (qc_commit_info oc))); done. }
  destruct (BlockTree_new_inv U HU root qc oc li mx tc tc2) as (t & Ht & Hi & Hc & Ho & Hr & _); try done.
  rewrite Ht in Hnew. injection Hnew as Hnew. unfold store_inv. rewrite <- Hnew, Hq. split; [by eexists|].
  split; [done|]. simpl. congruence.
Qed.

Lemma store_run_inv s ops s' : collaborators → store_inv U s → store_run s ops s' → store_inv U s'.
Proof.
  intros HC Hs. induction 1 as [|ops s1 op s2 r _ IH Hadm Hop]; [done|].
  pose proof (run_op_triple op HC s1 (conj IH Hadm)) as H. rewrite Hop in H. by destruct r.
Qed.


(** A commit prunes exactly.  In a tree with the invariant, let the callback of a commit
    run for a block between the two roots.  It returns, once each, the ids of the
    descendants of the old commit root that do not descend from the committed block, which
    becomes the commit root; every descendant of the committed block stays; a block leaves
    memory only if it was pruned, and no more than needed to keep the limit do. *)
Theorem commit_prunes_exactly hist t blocks proof b :
  tree_inv U hist t → last blocks = Some b →
  reach t (bt_commit_root_id t) (eb_id b) → reach t (eb_id b) (bt_ordered_root_id t) →
  bi_id (lis_commit_info proof) = eb_id b →
  bi_round (lis_commit_info proof) = round_of t (eb_id b) →
  ∃ l t', commit_callback blocks proof t = (t', Ok l)
    ∧ tree_inv U hist t' ∧ bt_commit_root_id t' = eb_id b ∧ NoDup l
    ∧ (∀ x, x ∈ l ↔ reach t (bt_commit_root_id t) x ∧ ¬ reach t (eb_id b) x)
    ∧ (∀ x, reach t (eb_id b) x → bt_id_to_block t' !! x = bt_id_to_block t !! x)
    ∧ (∀ x, in_tree t x → ¬ in_tree t' x → x ∈ bt_pruned_block_ids t ++ l)
    ∧ length (bt_pruned_block_ids t')
      = Nat.min (length (bt_pruned_block_ids t ++ l)) (bt_max_pruned_blocks_in_mem t).
Proof.
  intros Hi Hlast Hb Hbo Hid Hround.
  destruct (commit_callback_spec U HU hist t blocks proof b Hi Hlast Hb Hbo Hid Hround)
    as (l & t' & Hcb & Hi' & Hl & Hroot & li & n & -> & _ & ->).
  destruct (find_blocks_to_prune_spec _ (ti_links _ _ _ Hi) (E:=string) (eb_id b) (ti_commit_root _ _ _ Hi) Hb)
    as (l' & Hf & Hnd & _ & _).
  assert (Hll : l' = l).
  { destruct (ti_commit_root _ _ _ Hi) as [lr Hlr].
    unfold commit_callback, commit_root, get_block, get_linkable_block, st_bind, st_lift, st_get, st_put, st_ret in Hcb.
    rewrite Hlast, Hlr in Hcb. cbn [expect fmap option_fmap option_map] in Hcb. rewrite Hf in Hcb.
    destruct (update_highest_ledger_info _ _) as [? []]; congruence. }
  subst l'. eexists l, _. split; [done|]. split_and!; try done; simpl.
  - intros x Hx. apply option_eq. intros lb. rewrite delete_all_Some.
    pose proof (live_stays _ _ _ _ _ Hi Hb Hl _ Hx). naive_solver.
  - intros x [lx Hlx] Hn. destruct (decide (x ∈ take
      (length (bt_pruned_block_ids t ++ l) - bt_max_pruned_blocks_in_mem t) (bt_pruned_block_ids t ++ l))).
    { by apply leaving_waiting. }
    destruct Hn. exists lx. by apply delete_all_Some.
  - rewrite length_drop. lia.
Qed.

(** [path_from_root_to_block] always returns, and what it returns is decided by the
    links: the chain of blocks from the root to the block, oldest first, when the block
    descends from the root, and [None] exactly when it does not. *)
Theorem path_from_root_exact t root_id root id :
  tree_links t → get_block t root_id = Some root →
  (∀ path, path_from_root_to_block (E:=string) t id root_id (eb_round root) = Ok (Some path)
           ↔ linked t root_id id path)
  ∧ (path_from_root_to_block (E:=string) t id root_id (eb_round root) = Ok None
     ↔ ¬ reach t root_id id).
Proof.
  intros TL Hroot. destruct (path_from_root_spec _ TL (E:=string) _ _ id Hroot) as (o & -> & Ho).
  assert (Hin : is_Some (bt_id_to_block t !! root_id)).
  { apply get_block_Some in Hroot as (lb & ? & _). eauto. }
  split.
  - intros path. destruct o as [p|].
    + split; [by intros [= <-]|]. intros Hl. do 2 f_equal.
      apply (linked_stop_unique t (eb_round root) root_id root_id root root id); try done;
        by eapply linked_rounds.
    + split; [done|]. intros Hl. destruct Ho. by eapply linked_reach.
  - destruct o as [p|]; [|done]. split; [done|]. intros []. by eapply linked_reach.
Qed.

(** What [commit] answers, on a store with the invariant and a state computer that
    persists.  A proof of a block that is not in the tree, or that is not newer than the
    ordered root, is an error and changes nothing; a proof of a newer block that does not
    descend from the ordered root stops the process; otherwise the block becomes the
    ordered root and the blocks after the old one are queued for the commit root. *)
Theorem commit_outcomes (s : BS) proof :
  (∀ blocks p c, (sc_commit blocks p c).2 = Ok ()) → store_inv U s →
  let t := bs_inner s in
  let id := bi_id (lis_commit_info proof) in
  match get_block t id with
  | None => commit proof s = (s, Err "Committed block id not found")
  | Some b =>
      if eb_round b <=? round_of t (bt_ordered_root_id t)
      then commit proof s = (s, Err "Committed block round lower than root")
      else (¬ reach t (bt_ordered_root_id t) id ∧ ∃ m, commit proof s = (s, Panic m))
           ∨ ∃ path s', linked t (bt_ordered_root_id t) id path ∧ commit proof s = (s', Ok ())
               ∧ bs_inner s' = set_roots id (bt_commit_root_id t) t
               ∧ bs_callbacks s' = bs_callbacks s ++ [(path, proof)]
  end.
Proof.
  intros Hcommit ((hist & Hi) & _ & _) t id. fold t in Hi. pose proof (ti_links _ _ _ Hi) as TL.
  unfold commit, st_bind, reading. fold t id. destruct (get_block t id) as [b|] eqn:Hb; [|done].
  destruct (tree_inv_ordered _ _ _ Hi) as [lo Ho]. simpl.
  assert (Hor : ordered_root (E:=string) t = Ok (lb_executed_block lo)).
  { unfold ordered_root, get_block, get_linkable_block. by rewrite Ho. }
  fold t. rewrite Hor, (round_of_eq _ _ _ Ho). unfold st_lift, ensure, lb_round.
  apply get_block_Some in Hb as (lb & Hlb & <-). pose proof (tl_key _ TL _ _ Hlb) as Hid.
  destruct (Z.leb_spec (eb_round (lb_executed_block lb)) (eb_round (lb_executed_block lo))) as [Hle|Hlt].
  { rewrite (proj2 (Z.ltb_ge _ _) Hle). done. }
  rewrite (proj2 (Z.ltb_lt _ _) Hlt). fold t.
  destruct (path_from_ordered_root_spec U (E:=string) t hist id Hi) as (o & -> & Hlinked).
  destruct o as [path|]; simpl; [right|left; by eauto].
  assert (Hne : id ≠ bt_ordered_root_id t) by (intros Heq; rewrite Heq in Hlb; simplify_eq; lia).
  destruct (linked_nonempty _ _ _ _ Hlinked Hne) as (l & b & -> & _).
  rewrite bool_decide_eq_false_2 by (by intros []%app_nil).
  unfold st_map_res, with_computer, st_zoom. specialize (Hcommit (l ++ [b]) proof (bs_state_computer s)).
  destruct (sc_commit _ _ _) as [c r]. simpl in Hcommit. subst r.
  unfold writing, st_zoom, update_ordered_root, block_exists. simpl. fold t. unfold lb_id in Hid.
  rewrite Hid, bool_decide_eq_true_2 by by exists lb. by eexists _, _.
Qed.

(** What the recovered data must satisfy besides what [RecoveryData_new] checks: its blocks
    are of the chain, its certificates state the blocks they certify, and the root agrees
    with the ledger in the storage. *)
Definition recovered_ok (d : RecoveryData) : Prop :=
  let root := rd_root d in
  let certified := qc_certified_block (ri_quorum_cert root) in
  U (ri_block root)
  ∧ (∀ b, b ∈ rd_blocks d → U b) ∧ (∀ qc, qc ∈ rd_quorum_certs d → cert_matches U qc)
  ∧ bi_round (lis_commit_info (ri_commit_ledger_info root)) ≤ b_round (ri_block root)
  ∧ bi_round (qc_commit_info (ri_quorum_cert root)) ≤ bi_round (qc_commit_info (ri_ordered_cert root))
  ∧ (bi_version certified = 0 ∨ bi_version certified = rm_version (rd_root_metadata d))
  ∧ (bi_executed_state_id certified = ACCUMULATOR_PLACEHOLDER_HASH
     ∨ bi_executed_state_id certified = rm_accu_hash (rd_root_metadata d)).

(** [build] on recovered data inserts every block and every certificate. *)
Lemma build_recovered (d : RecoveryData) T removed bs (c : C) (p : P) mx bp :
  let root_id := b_id (ri_block (rd_root d)) in
  reliable → recovered_ok d → retain_descendants {[root_id]} bs = (rd_blocks d, removed, T) →
  (∀ qc, qc ∈ rd_quorum_certs d → bi_id (qc_certified_block qc) ∈ T) →
  bi_id (qc_certified_block (ri_quorum_cert (rd_root d))) = root_id →
  bi_id (qc_commit_info (ri_ordered_cert (rd_root d))) = root_id →
  ∃ s, build (rd_root d) (rd_root_metadata d) (rd_blocks d) (rd_quorum_certs d)
         (rd_highest_timeout_certificate d) (rd_highest_2chain_timeout_certificate d) c p mx bp [] = Ok s
    ∧ building U root_id T s
    ∧ (∀ qc, qc ∈ rd_quorum_certs d →
         is_Some (bt_id_to_quorum_cert (bs_inner s) !! bi_id (qc_certified_block qc))).
Proof.
  intros root_id HR (HUr & HUb & Hm & Hli & Hoc & Hv & He) Hret HT Hq Ho. unfold build.
  assert (Hv' : (bi_version (qc_certified_block (ri_quorum_cert (rd_root d))) =? 0)
    || (bi_version (qc_certified_block (ri_quorum_cert (rd_root d))) =? rm_version (rd_root_metadata d)) = true).
  { apply orb_true_iff. rewrite !Z.eqb_eq. exact Hv. }
  assert (He' : (bi_executed_state_id (qc_certified_block (ri_quorum_cert (rd_root d)))
       =? ACCUMULATOR_PLACEHOLDER_HASH)
    || (bi_executed_state_id (qc_certified_block (ri_quorum_cert (rd_root d)))
        =? rm_accu_hash (rd_root_metadata d)) = true).
  { apply orb_true_iff. rewrite !Z.eqb_eq. exact He. }
  rewrite Hv', He'. cbn [r_bind]. set (root := mkExecutedBlock _ _).
  destruct (BlockTree_new_inv U HU root (ri_quorum_cert (rd_root d)) (ri_ordered_cert (rd_root d))
    (ri_commit_ledger_info (rd_root d)) mx (rd_highest_timeout_certificate d)
    (rd_highest_2chain_timeout_certificate d)) as (t & -> & Hi & Hc & Hot & Hct & Hmt); try done.
  cbn [r_bind].
  pose proof (fresh_building U HU root_id t c p bp root Hi Hc eq_refl Hot Hct Hmt) as Hb0.
  destruct (insert_blocks_building U HU root_id HR _ _ _ (retain_topological _ _ _ _ _ Hret)
    (proj2 (Forall_forall _ _) HUb) _ Hb0) as (s1 & Hrun1 & Hb1).
  destruct (insert_certs_building U root_id HR T (rd_quorum_certs d)
    (λ qc H, conj (HT qc H) (Hm qc H)) s1 Hb1) as (s2 & Hrun2 & Hb2 & _ & Hcerts).
  exists s2. split; [|done]. unfold st_bind, st_map_res. rewrite Hrun1. simpl. rewrite Hrun2. done.
Qed.

End runs.

(** ** A concrete store *)

#[export] Instance elements_iter : HashIter := {|
  set_iter := elements;
  map_iter := λ A, map_to_list;
  set_iter_perm := λ s, reflexivity (elements s);
  map_iter_perm := λ A m, reflexivity (map_to_list m);
|}.

(** A state computer that orders only, and a storage that always saves. *)
#[export] Instance ordering_computer : StateComputer unit := {|
  compute := λ _ _ c, (c, Ok new_dummy);
  sc_commit := λ _ _ c, (c, Ok ());
  sync_to := λ _ c, (c, Ok ());
|}.
#[export] Instance null_storage : PersistentLivenessStorage unit := {|
  save_tree := λ _ _ p, (p, Ok ());
  prune_tree := λ _ p, (p, Ok ());
  save_vote := λ _ p, (p, Ok ());
  start := λ p, (p, Panic "nothing to recover");
  save_highest_timeout_cert := λ _ p, (p, Ok ());
  save_highest_2chain_timeout_cert := λ _ p, (p, Ok ());
  retrieve_epoch_change_proof := λ _ p, (p, Err "no epoch change");
|}.

Lemma sample_collaborators : collaborators (C:=unit) (P:=unit).
Proof. by split. Qed.
Lemma sample_reliable : reliable (C:=unit) (P:=unit).
Proof. split; [by eexists|done]. Qed.

(** The genesis block of the sample epoch and two blocks after it. *)
Definition chain_root : Block :=
  match make_genesis_block_from_ledger_info (E:=string) genesis_ledger_info with
  | Ok b => b
  | _ => sample_block construct_ledger_info_2chain 1
  end.
Definition chain_root_qc : QuorumCert :=
  match certificate_for_genesis_from_ledger_info (E:=string) genesis_ledger_info (b_id chain_root) with
  | Ok qc => qc
  | _ => genesis_qc
  end.
Definition chain_block1 : Block := next_block 1 chain_root_qc.
Definition chain_qc1 : QuorumCert := next_qc construct_ledger_info_2chain chain_block1.
Definition chain_block2 : Block := next_block 2 chain_qc1.
(** A block whose parent is not known. *)
Definition chain_stray : Block := sample_block construct_ledger_info_2chain 3.
Definition chain_sample (b : Block) : Prop :=
  b ∈ [chain_root; chain_block1; chain_block2; chain_stray].

Lemma chain_sample_blocks : chain_blocks chain_sample.
Proof.
  split.
  - intros a b Ha Hb. unfold chain_sample in *. 
    repeat (apply elem_of_cons in Ha as [->|Ha]); try by apply elem_of_nil in Ha.
    all: repeat (apply elem_of_cons in Hb as [->|Hb]); try by apply elem_of_nil in Hb.
    all: try done; vm_compute; discriminate.
  - intros a b Ha Hb. unfold chain_sample in *. 
    repeat (apply elem_of_cons in Ha as [->|Ha]); try by apply elem_of_nil in Ha.
    all: repeat (apply elem_of_cons in Hb as [->|Hb]); try by apply elem_of_nil in Hb.
    all: vm_compute; done.
Qed.

Definition chain_proof (b : Block) : LedgerInfoWithSignatures :=
  mkLedgerInfoWithSignatures (mkLedgerInfo (gen_block_info b 0 0 None) 0) ∅.
Definition sample_tree : BlockTree :=
  match BlockTree_new (E:=string) (mkExecutedBlock chain_root new_dummy) chain_root_qc chain_root_qc
          (qc_signed_ledger_info chain_root_qc) 10 None None with
  | Ok t => t
  | _ => mkBlockTree ∅ 0 0 0 chain_root_qc None None chain_root_qc
           (qc_signed_ledger_info chain_root_qc) ∅ [] 0
  end.
Definition sample_store : BlockStore unit unit := mkBlockStore sample_tree tt tt 10 [].

(** The store after the operations [ops]. *)
Definition run_ops (ops : list StoreOp) (s : BlockStore unit unit) : BlockStore unit unit :=
  fold_left (λ s op, (run_op op s).1) ops s.
Definition sample_ops : list StoreOp :=
  [OpBlock chain_block1; OpCert chain_qc1; OpCommit (chain_proof chain_block1); OpBlock chain_block2].

Lemma sample_store_start : store_start chain_sample sample_store.
Proof.
  exists (mkExecutedBlock chain_root new_dummy), chain_root_qc, chain_root_qc,
    (qc_signed_ledger_info chain_root_qc), 10%nat, None, None.
  split_and!; [by vm_compute..|left|done].
Qed.

(** A child link, by computation. *)
Lemma edge_compute t p c :
  match bt_id_to_block t !! p with Some lp => bool_decide (c ∈ lb_children lp) | None => false end = true →
  edge t p c.
Proof. unfold edge. destruct (_ !! p) as [lp|]; [|done]. intros ?%bool_decide_eq_true. eauto. Qed.

Lemma store_run_ops s ops s' op :
  store_run chain_sample s ops s' → admissible chain_sample (bs_inner s') op →
  store_run chain_sample s (ops ++ [op]) (run_op op s').1.
Proof. intros Hr Ha. destruct (run_op op s') as [s2 r] eqn:Ho. by econstructor. Qed.

Lemma sample_store_run : store_run chain_sample sample_store sample_ops (run_ops sample_ops sample_store).
Proof.
  unfold sample_ops. 
  apply (store_run_ops _ [OpBlock chain_block1; OpCert chain_qc1; OpCommit (chain_proof chain_block1)]);
    [|right; right; left].
  apply (store_run_ops _ [OpBlock chain_block1; OpCert chain_qc1]).
  apply (store_run_ops _ [OpBlock chain_block1]).
  apply (store_run_ops _ []); [constructor|right; left].
  - intros _ _. apply rtc_once, edge_compute. by vm_compute.
  - intros _. split; [by vm_compute|]. intros _. split.
    + apply rtc_once, edge_compute. by vm_compute.
    + match goal with |- reach _ ?a ?b => replace b with a by (by vm_compute) end. constructor.
Qed.


Definition sample_run_tree : BlockTree := bs_inner (run_ops sample_ops sample_store).

Lemma sample_run_inv : store_inv chain_sample (run_ops sample_ops sample_store).
Proof.
  exact (store_run_inv chain_sample chain_sample_blocks _ _ _ sample_collaborators
           (store_start_inv chain_sample chain_sample_blocks _ sample_store_start) sample_store_run).
Qed.

Lemma commit_prunes_exactly_witness :
  ∃ l t', commit_callback [mkExecutedBlock chain_block1 new_dummy] (chain_proof chain_block1) sample_run_tree
            = (t', Ok l)
    ∧ bt_commit_root_id t' = b_id chain_block1
    ∧ (b_id chain_root ∈ l → ¬ reach sample_run_tree (b_id chain_block1) (b_id chain_root)).
Proof.
  destruct sample_run_inv as ((hist & Hi) & _). fold sample_run_tree in Hi.
  destruct (commit_prunes_exactly chain_sample chain_sample_blocks hist sample_run_tree
    [mkExecutedBlock chain_block1 new_dummy] (chain_proof chain_block1)
    (mkExecutedBlock chain_block1 new_dummy)) as (l & t' & Hc & _ & Hr & _ & Hl & _).
  - exact Hi.
  - reflexivity.
  - apply rtc_once, edge_compute. by vm_compute.
  - match goal with |- reach _ ?a ?b => replace b with a by (by vm_compute) end. constructor.
  - by vm_compute.
  - by vm_compute.
  - exists l, t'. split; [exact Hc|]. split; [exact Hr|]. intros Hx. by apply Hl in Hx as [_ ?].
Defined.

Lemma path_from_root_exact_witness :
  ∃ root, get_block sample_run_tree (b_id chain_root) = Some root
    ∧ path_from_root_to_block (E:=string) sample_run_tree (b_id chain_stray) (b_id chain_root) (eb_round root)
      = Ok None
    ∧ ¬ reach sample_run_tree (b_id chain_root) (b_id chain_stray).
Proof.
  destruct sample_run_inv as ((hist & Hi) & _).
  eexists. split; [by vm_compute|]. split; [by vm_compute|].
  apply (path_from_root_exact sample_run_tree (b_id chain_root) (mkExecutedBlock chain_root new_dummy)
           (b_id chain_stray) (ti_links _ _ _ Hi)); by vm_compute.
Defined.

Lemma commit_outcomes_witness :
  commit (chain_proof chain_stray) (run_ops sample_ops sample_store)
    = (run_ops sample_ops sample_store, Err "Committed block id not found").
Proof.
  pose proof (commit_outcomes chain_sample (run_ops sample_ops sample_store) (chain_proof chain_stray)
    (λ _ _ _, eq_refl) sample_run_inv) as H. vm_compute in H |- *. exact H.
Defined.

Definition sample_recovery : AnyResult RecoveryData :=
  RecoveryData_new None
    (mkLedgerRecoveryData (mkLedgerInfoWithSignatures genesis_ledger_info ∅))
    [chain_block2; chain_stray; chain_block1] (mkRootMetadata 77 [] 4) [chain_qc1] None None.

Lemma sample_recovery_field {A} (f : RecoveryData → A) d x :
  sample_recovery = Ok d → f <$> r_ok sample_recovery = Some x → f d = x.
Proof. intros ->. by intros [= <-]. Qed.

Lemma sample_certs_match qc : qc ∈ [chain_qc1; chain_root_qc] → cert_matches chain_sample qc.
Proof.
  intros Hqc b Hb. unfold chain_sample in Hb.
  repeat (apply elem_of_cons in Hqc as [->|Hqc]); try by apply elem_of_nil in Hqc.
  all: repeat (apply elem_of_cons in Hb as [->|Hb]); try by apply elem_of_nil in Hb.
  all: vm_compute; done.
Qed.

Lemma sample_recovered_ok d : sample_recovery = Ok d → recovered_ok chain_sample d.
Proof.
  intros Hd. unfold recovered_ok. split_and!.
  - rewrite (sample_recovery_field (λ d, ri_block (rd_root d)) d chain_root Hd) by by vm_compute. left.
  - rewrite (sample_recovery_field rd_blocks d [chain_block1; chain_block2] Hd) by by vm_compute.
    intros b Hb. apply elem_of_cons in Hb as [->|Hb]; [right; left|].
    apply list_elem_of_singleton in Hb as ->. right; right; left.
  - rewrite (sample_recovery_field rd_quorum_certs d [chain_qc1; chain_root_qc] Hd) by by vm_compute.
    apply sample_certs_match.
  - rewrite (sample_recovery_field (λ d, bi_round (lis_commit_info (ri_commit_ledger_info (rd_root d)))) d 0 Hd)
      by by vm_compute.
    by rewrite (sample_recovery_field (λ d, b_round (ri_block (rd_root d))) d 0 Hd) by by vm_compute.
  - rewrite (sample_recovery_field (λ d, bi_round (qc_commit_info (ri_quorum_cert (rd_root d)))) d 0 Hd)
      by by vm_compute.
    by rewrite (sample_recovery_field (λ d, bi_round (qc_commit_info (ri_ordered_cert (rd_root d)))) d 0 Hd)
      by by vm_compute.
  - right. apply (sample_recovery_field (λ d, bi_version (qc_certified_block (ri_quorum_cert (rd_root d))))
      d _ Hd). rewrite (sample_recovery_field (λ d, rm_version (rd_root_metadata d)) d 3 Hd) by by vm_compute.
    by vm_compute.
  - right. apply (sample_recovery_field (λ d, bi_executed_state_id (qc_certified_block (ri_quorum_cert (rd_root d))))
      d _ Hd). rewrite (sample_recovery_field (λ d, rm_accu_hash (rd_root_metadata d)) d 77 Hd) by by vm_compute.
    by vm_compute.
Qed.


(** ** A timeout certificate that goes back *)

(** [insert_timeout_certificate] compares the round of the new certificate with that of the
    highest 2-chain certificate, not with that of the certificate it replaces: while no
    2-chain certificate is known, an older certificate takes the place of a newer one. *)
Theorem timeout_certificate_goes_back {C P} `{SC : StateComputer C} `{PS : PersistentLivenessStorage P}
    (s : BlockStore C P) old tc :
  (∀ p, (save_highest_timeout_cert tc p).2 = Ok ()) →
  bt_highest_timeout_cert (bs_inner s) = Some old → bt_highest_2chain_timeout_cert (bs_inner s) = None →
  0 < to_round (tc_timeout tc) < to_round (tc_timeout old) →
  bt_highest_timeout_cert (bs_inner (insert_timeout_certificate tc s).1) = Some tc.
Proof.
  intros Hsave Hold Hnone Hround.
  unfold insert_timeout_certificate, st_bind, reading, st_map_res, with_storage, writing, st_zoom.
  rewrite Hnone. simpl. destruct (Z.leb_spec (to_round (tc_timeout tc)) 0); [lia|].
  specialize (Hsave (bs_storage s)). destruct (save_highest_timeout_cert tc _) as [p r]. simpl in Hsave.
  by subst r.
Qed.
