(* ===== verification/ProposerElection.v ===== *)
(** * ProposerElection: who proposes in a round

    Models src/consensus/src/liveness/{proposer_election,rotating_proposer_election,
    round_proposer_election,leader_reputation}.rs: the trait ProposerElection is the class
    below, with the three elections as instances.  The events of committed blocks come from
    the database, a parameter.  Shows the fairness of the elections and one proposal per leader. *)

From S2P Require Import Prelude Crypto Accumulator ValidatorVerifier LedgerTypes EpochChange AccumulatorProof.
From S2P Require Import ConsensusTypes.

(** [get_valid_proposer] may refresh a cache and may stop the process;
    [is_valid_proposal] may remember the proposal. *)
Class ProposerElection (E : Type) := {
  get_valid_proposer : Round → ST E string Author;
  is_valid_proposal : Block → ST E string bool;
}.

Section trait.
Context {E : Type}.

(** The default methods of the trait. *)
Definition is_valid_proposer_with (proposer : Round → ST E string Author) (author : Author) (round : Round)
    : ST E string bool :=
  let! p := proposer round in st_ret (p =? author).
Definition default_is_valid_proposal (proposer : Round → ST E string Author) (block : Block)
    : ST E string bool :=
  match b_author block with
  | None => st_ret false
  | Some author => is_valid_proposer_with proposer author (b_round block)
  end.

Definition is_valid_proposer `{PE : ProposerElection E} : Author → Round → ST E string bool :=
  is_valid_proposer_with get_valid_proposer.
End trait.

(** ** Rotation *)

Record RotatingProposer := mkRotatingProposer {
  rp_proposers : list Author;
  rp_contiguous_rounds : Z;
}.

Definition choose_leader {E} (peers : list Author) : Result E Author :=
  match peers with
  | [] => Panic "No trusted peers found!"
  | p :: peers => Ok (foldl Z.min p peers)
  end.

Definition rotating_proposer (round : Round) (rp : RotatingProposer) : Result string Author :=
  if rp_contiguous_rounds rp =? 0 then Panic "attempt to divide by zero"
  else
    let len := Z.of_nat (length (rp_proposers rp)) in
    if len =? 0 then Panic "attempt to calculate the remainder with a divisor of zero"
    else expect (rp_proposers rp !! Z.to_nat ((round / rp_contiguous_rounds rp) mod len))
           "index out of bounds".

#[export] Instance rotating_election : ProposerElection RotatingProposer := {|
  get_valid_proposer := λ round rp, (rp, rotating_proposer round rp);
  is_valid_proposal := default_is_valid_proposal (λ round rp, (rp, rotating_proposer round rp));
|}.

(** ** Given proposers *)

Record RoundProposer := mkRoundProposer {
  rdp_proposers : gmap Z Author;
  rdp_default_proposer : Author;
}.
Definition round_proposer (round : Round) (rp : RoundProposer) : Author :=
  match rdp_proposers rp !! round with
  | None => rdp_default_proposer rp
  | Some round_proposer => round_proposer
  end.
#[export] Instance round_election : ProposerElection RoundProposer := {|
  get_valid_proposer := λ round rp, (rp, Ok (round_proposer round rp));
  is_valid_proposal := default_is_valid_proposal (λ round rp, (rp, Ok (round_proposer round rp)));
|}.

(** ** Reputation *)

Record NewBlockEvent := mkNewBlockEvent {
  nbe_round : Round;
  nbe_proposer : AccountAddress;
  nbe_votes : list AccountAddress;
  nbe_timestamp : Z;
}.

(** The database: the latest events of new blocks, newest first, each with its version;
    [None] is an event whose bytes do not decode. *)
Class NewBlockDb (D : Type) := {
  get_new_block_events : Z → D → Result string (list (Version * option NewBlockEvent));
  get_latest_version : D → Result string Version;
}.

Section reputation.
Context {D : Type} `{DB : NewBlockDb D}.

Record DiemDBBackend := mkDiemDBBackend {
  db_window_size : nat;
  db_diem_db : D;
  db_window : list (Version * NewBlockEvent);
}.

(** The loop over the events: those up to the target round, at most [window_size]. *)
Fixpoint window_of (window_size : nat) (target_round : Round)
    (events : list (Version * option NewBlockEvent)) (result : list (Version * NewBlockEvent))
    : Result string (list (Version * NewBlockEvent)) :=
  match events with
  | [] => Ok result
  | (_, None) :: _ => Err "bcs"
  | (v, Some e) :: events =>
      window_of window_size target_round events
        (if (nbe_round e <=? target_round) && (length result <? window_size)%nat
         then result ++ [(v, e)] else result)
  end.

Definition refresh_window (target_round : Round) : ST DiemDBBackend string unit := λ b,
  match (let? events := get_new_block_events (Z.of_nat (db_window_size b) + 10) (db_diem_db b) in
         window_of (db_window_size b) target_round events []) with
  | Ok result => (mkDiemDBBackend (db_window_size b) (db_diem_db b) result, Ok ())
  | Err e => (b, Err e)
  | Panic m => (b, Panic m)
  end.

Definition get_block_metadata (target_round : Round) : ST DiemDBBackend string (list NewBlockEvent) := λ b,
  let '(known_version, known_round) :=
    match db_window b with (v, e) :: _ => (v, nbe_round e) | [] => (0, 0) end in
  let latest := match get_latest_version (db_diem_db b) with Ok v => v | _ => 0 end in
  if (known_round =? target_round) || (known_version =? latest)
  then (b, Ok (db_window b).*2)
  else match refresh_window target_round b with
       | (b', Ok _) => (b', Ok (db_window b').*2)
       | (b', Err _) => (b', Ok [])
       | (b', Panic m) => (b', Panic m)
       end.

Record ActiveInactiveHeuristic := mkActiveInactiveHeuristic {
  ai_author : Author;
  ai_active_weight : Z;
  ai_inactive_weight : Z;
}.

(** The validators seen in the history; the two counters only feed metrics. *)
Definition seen (history : list NewBlockEvent) : gset Author :=
  foldl (λ set meta, list_to_set (nbe_votes meta) ∪ ({[nbe_proposer meta]} ∪ set)) ∅ history.
Definition get_weights (h : ActiveInactiveHeuristic) (candidates : list Author)
    (history : list NewBlockEvent) : list Z :=
  let set := seen history in
  (λ author, if bool_decide (author ∈ set) then ai_active_weight h else ai_inactive_weight h) <$> candidates.

Record LeaderReputation := mkLeaderReputation {
  lr_proposers : list Author;
  lr_backend : DiemDBBackend;
  lr_heuristic : ActiveInactiveHeuristic;
  lr_already_proposed : Round * gmap Author HashValue;
  lr_exclude_round : Z;
}.

(** Each weight is replaced by the sum up to it. *)
Fixpoint accumulate (total_weight : Z) (weights : list Z) : Z * list Z :=
  match weights with
  | [] => (total_weight, [])
  | w :: weights =>
      let total_weight := wrap64 (total_weight + w) in
      let '(total, acc) := accumulate total_weight weights in
      (total, total_weight :: acc)
  end.

(** [binary_search_by] with an order that is never [Equal]: it returns [Err(left)]. *)
Fixpoint binary_search (fuel : nat) (less : Z → bool) (l : list Z) (left right : nat) : Result string nat :=
  if (left <? right)%nat then
    match fuel with
    | O => Panic "out of fuel"
    | Datatypes.S fuel =>
        let mid := (left + (right - left) / 2)%nat in
        match l !! mid with
        | None => Panic "index out of bounds"
        | Some w => if less w then binary_search fuel less l (mid + 1) right
                    else binary_search fuel less l left mid
        end
    end
  else Ok left.

Definition choose_index (weights : list Z) (seed : Z) : Result string nat :=
  let '(total_weight, weights) := accumulate 0 weights in
  if total_weight =? 0 then Panic "attempt to calculate the remainder with a divisor of zero"
  else
    let chosen_weight := seed mod total_weight in
    binary_search (length weights) (λ w, w <=? chosen_weight) weights 0 (length weights).

(** [round.to_le_bytes()] and [u64::from_le_bytes] of the first bytes of the hash. *)
Definition to_le_bytes (x : Z) : list Z := (λ i, (x / 256 ^ i) mod 256) <$> seqZ 0 8.
Definition from_le_bytes (bytes : list Z) : Z := foldr (λ b acc, b + 256 * acc) 0 bytes.
Definition next `{CR : Crypto} (state : list Z) : list Z * Z :=
  let h := sha3_256 state in
  (hash_byte h <$> seqZ 0 32, from_le_bytes (hash_byte h <$> seqZ 0 8)).

Definition set_backend (b : DiemDBBackend) (lr : LeaderReputation) : LeaderReputation :=
  mkLeaderReputation (lr_proposers lr) b (lr_heuristic lr) (lr_already_proposed lr) (lr_exclude_round lr).
Definition set_already_proposed (p : Round * gmap Author HashValue) (lr : LeaderReputation) : LeaderReputation :=
  mkLeaderReputation (lr_proposers lr) (lr_backend lr) (lr_heuristic lr) p (lr_exclude_round lr).

Context `{CR : Crypto}.

Definition reputation_proposer (round : Round) : ST LeaderReputation string Author :=
  let! lr := st_get in
  let target_round := Z.max 0 (round - lr_exclude_round lr) in
  let! sliding_window := st_zoom lr_backend set_backend (get_block_metadata target_round) in
  let weights := get_weights (lr_heuristic lr) (lr_proposers lr) sliding_window in
  st_lift (if (length weights =? length (lr_proposers lr))%nat then Ok () else Panic "assertion failed") ;!
  let! chosen_index := st_lift (choose_index weights (next (to_le_bytes round)).2) in
  st_lift (expect (lr_proposers lr !! chosen_index) "index out of bounds").

Definition reputation_valid_proposal (block : Block) : ST LeaderReputation string bool :=
  match b_author block with
  | None => st_ret false
  | Some author =>
      let! valid := is_valid_proposer_with reputation_proposer author (b_round block) in
      if negb valid then st_ret false else λ lr,
      let '(round, proposed) := lr_already_proposed lr in
      match b_round block ?= round with
      | Gt => (set_already_proposed (b_round block, {[author := b_id block]}) lr, Ok true)
      | Eq =>
          match proposed !! author with
          | Some id =>
              if id =? b_id block
              then (set_already_proposed (round, <[author := b_id block]> proposed) lr, Ok true)
              else (lr, Ok false)
          | None => (set_already_proposed (round, <[author := b_id block]> proposed) lr, Ok true)
          end
      | Lt => (lr, Ok false)
      end
  end.

#[export] Instance reputation_election : ProposerElection LeaderReputation := {|
  get_valid_proposer := reputation_proposer;
  is_valid_proposal := reputation_valid_proposal;
|}.
End reputation.
Arguments DiemDBBackend : clear implicits.
Arguments LeaderReputation : clear implicits.

(** ** Rotation *)

Lemma rotating_proposer_eq rp round :
  0 < rp_contiguous_rounds rp → rp_proposers rp ≠ [] →
  rotating_proposer round rp
  = expect (rp_proposers rp !! Z.to_nat ((round / rp_contiguous_rounds rp) mod Z.of_nat (length (rp_proposers rp))))
      "index out of bounds".
Proof.
  intros Hk Hne. unfold rotating_proposer. rewrite (proj2 (Z.eqb_neq _ _)) by lia.
  rewrite (proj2 (Z.eqb_neq _ _)); [done|]. destruct (rp_proposers rp); [done|]. simpl. lia.
Qed.

(** The turns of a proposer: from round [r] on, the first round of the next block of
    [k] rounds whose number is [i] modulo [n]. *)
Lemma next_turn n k i r : 0 < n → 0 < k → 0 ≤ i < n → 0 ≤ r →
  ∃ q, 0 ≤ q ∧ q mod n = i ∧ r ≤ q * k ∧ q * k + k ≤ r + (n + 1) * k.
Proof.
  intros Hn Hk Hi Hr. set (q0 := (r + k - 1) / k).
  exists (q0 + (i - q0) mod n).
  pose proof (Z.mod_pos_bound (i - q0) n Hn) as Hm.
  pose proof (Z.div_mod (r + k - 1) k ltac:(lia)) as Hd. fold q0 in Hd.
  pose proof (Z.mod_pos_bound (r + k - 1) k Hk) as Hb.
  split; [nia|]. split; [|split; nia].
  rewrite Z.add_mod_idemp_r by lia. replace (q0 + (i - q0)) with i by lia. by apply Z.mod_small.
Qed.

(** C29: every proposer gets its turn.  In a rotation over [n] proposers, [k] rounds each,
    from any round on and within [(n + 1) * k] rounds there are [k] rounds in a row in which
    a given proposer is the valid one. *)
Theorem rotation_is_fair rp p round :
  p ∈ rp_proposers rp → 0 < rp_contiguous_rounds rp → 0 ≤ round →
  ∃ start, round ≤ start
    ∧ start + rp_contiguous_rounds rp
      ≤ round + (Z.of_nat (length (rp_proposers rp)) + 1) * rp_contiguous_rounds rp
    ∧ ∀ r, start ≤ r < start + rp_contiguous_rounds rp → rotating_proposer r rp = Ok p.
Proof.
  intros (i & Hi)%list_elem_of_lookup Hk Hr.
  pose proof (lookup_lt_Some _ _ _ Hi) as Hlt.
  set (k := rp_contiguous_rounds rp) in *. set (n := Z.of_nat (length (rp_proposers rp))).
  destruct (next_turn n k (Z.of_nat i) round) as (q & Hq & Hmod & Hlo & Hhi); [lia..|].
  exists (q * k). split; [lia|]. split; [lia|]. intros r Hrr.
  rewrite rotating_proposer_eq; [|done|by destruct (rp_proposers rp)].
  replace (r / rp_contiguous_rounds rp) with q.
  - fold n. rewrite Hmod, Nat2Z.id, Hi. done.
  - apply (Z.div_unique_pos _ _ _ (r - q * k)); fold k; lia.
Qed.

Definition three_proposers : RotatingProposer := mkRotatingProposer [7; 8; 9] 2.
Lemma rotation_is_fair_witness :
  ∃ start, 100 ≤ start ∧ start + 2 ≤ 108 ∧ rotating_proposer start three_proposers = Ok 8.
Proof.
  destruct (rotation_is_fair three_proposers 8 100) as (start & Hlo & Hhi & H).
  - right. left.
  - reflexivity.
  - lia.
  - exists start. simpl in Hhi. split; [exact Hlo|]. split; [lia|]. apply H. simpl. lia.
Defined.

(** ** Weighted choice *)

(** The sum of the first [i] weights. *)
Definition weight_before (weights : list Z) (i : nat) : Z := foldr Z.add 0 (take i weights).

Lemma accumulate_spec weights total :
  Forall (λ w, 0 ≤ w) weights → 0 ≤ total → total + foldr Z.add 0 weights ≤ u64_max →
  ∃ acc, accumulate total weights = (total + foldr Z.add 0 weights, acc)
    ∧ length acc = length weights
    ∧ ∀ i a, acc !! i = Some a → a = total + weight_before weights (i + 1).
Proof.
  revert total. induction weights as [|w weights IH]; intros total HF Ht Hmax.
  { exists []. simpl. rewrite Z.add_0_r. done. }
  apply Forall_cons in HF as [Hw HF]. simpl in Hmax.
  assert (Hsum : 0 ≤ foldr Z.add 0 weights) by (clear -HF; induction HF; simpl; lia).
  assert (Hwrap : wrap64 (total + w) = total + w).
  { unfold wrap64, u64_max in *. apply Z.mod_small. lia. }
  destruct (IH (total + w)) as (acc & Hacc & Hlen & Hnth); [done|lia|lia|].
  exists (total + w :: acc). simpl. rewrite Hwrap, Hacc. split; [f_equal; lia|].
  split; [by simpl; rewrite Hlen|]. intros [|i] a; simpl.
  - intros [= <-]. unfold weight_before. simpl. lia.
  - intros H%Hnth. unfold weight_before in *. simpl. rewrite H. lia.
Qed.

(** The search ends at the first place where [less] fails. *)
Lemma binary_search_spec fuel less l lo hi :
  (lo ≤ hi ≤ length l)%nat → (hi - lo ≤ fuel)%nat →
  (∀ i j a b, (i ≤ j)%nat → l !! i = Some a → l !! j = Some b → less b = true → less a = true) →
  (∀ i a, (i < lo)%nat → l !! i = Some a → less a = true) →
  (∀ i a, (hi ≤ i)%nat → l !! i = Some a → less a = false) →
  ∃ p, binary_search fuel less l lo hi = Ok p ∧ (lo ≤ p ≤ hi)%nat
    ∧ (∀ i a, l !! i = Some a → less a = bool_decide (i < p)%nat).
Proof.
  revert lo hi. induction fuel as [|fuel IH]; intros lo hi Hb Hf Hmono Hlo Hhi; cbn [binary_search];
    destruct (Nat.ltb_spec lo hi) as [Hlt|Hge].
  1: lia.
  1,3: exists lo; split; [done|]; split; [lia|]; intros i a Hi;
    destruct (decide (i < lo)%nat) as [Hil|Hil];
    [rewrite bool_decide_eq_true_2 by done; by eapply Hlo
    |rewrite bool_decide_eq_false_2 by done; eapply Hhi; [|done]; lia].
  pose proof (Nat.div_lt (hi - lo) 2 ltac:(lia) ltac:(lia)) as Hdiv.
  set (mid := (lo + (hi - lo) / 2)%nat). destruct (lookup_lt_is_Some_2 l mid) as [w Hw]; [lia|].
  rewrite Hw. destruct (less w) eqn:Hl.
  - destruct (IH (mid + 1) hi)%nat as (p & Hp & Hr & Hspec); [lia|lia|done| |done|].
    + intros i a Hi Ha. eapply (Hmono i mid); [lia|done|done|done].
    + exists p. split; [done|]. split; [lia|done].
  - destruct (IH lo mid) as (p & Hp & Hr & Hspec); [lia|lia|done|done| |].
    + intros i a Hi Ha. destruct (less a) eqn:Hla; [|done].
      rewrite (Hmono mid i w a) in Hl; [done|lia|done|done|done].
    + exists p. split; [done|]. split; [lia|done].
Qed.

Lemma weight_before_mono weights i j : Forall (λ w, 0 ≤ w) weights → (i ≤ j)%nat →
  weight_before weights i ≤ weight_before weights j.
Proof.
  unfold weight_before. intros HF. revert i j. induction HF as [|w weights Hw HF IH]; intros i j Hij.
  { rewrite !take_nil. done. }
  destruct j as [|j]; [by replace i with 0%nat by lia|]. destruct i as [|i].
  - simpl. clear -Hw HF. specialize (Forall_take _ j _ HF) as H. induction H; simpl in *; lia.
  - simpl. specialize (IH i j ltac:(lia)). lia.
Qed.

(** The reputation election chooses by weight.  For weights that do not overflow and are
    not all zero, every seed chooses an index, and it chooses index [i] exactly when the
    seed, modulo the total weight, lies in the share of [i]: the interval from the sum of
    the weights before [i] that is as long as the weight of [i]. *)
Theorem reputation_chooses_by_weight weights seed i :
  Forall (λ w, 0 ≤ w) weights → 0 < foldr Z.add 0 weights ≤ u64_max → 0 ≤ seed →
  (∃ j, choose_index weights seed = Ok j ∧ (j < length weights)%nat)
  ∧ (choose_index weights seed = Ok i
     ↔ weight_before weights i ≤ seed mod foldr Z.add 0 weights < weight_before weights (i + 1)).
Proof.
  intros HF Htot Hseed. unfold choose_index.
  destruct (accumulate_spec weights 0 HF) as (acc & -> & Hlen & Hnth); [lia|lia|].
  rewrite Z.add_0_l. cbv beta iota zeta. rewrite (proj2 (Z.eqb_neq _ _)) by lia. set (total := foldr Z.add 0 weights) in *.
  set (c := seed mod total). pose proof (Z.mod_pos_bound seed total ltac:(lia)) as Hc. fold c in Hc.
  assert (Hall : weight_before weights (length weights) = total).
  { unfold weight_before. by rewrite firstn_all. }
  destruct (binary_search_spec (length acc) (λ w, w <=? c) acc 0 (length acc)) as (p & -> & Hp & Hspec).
  - lia.
  - lia.
  - intros x y a b Hxy Ha Hb. rewrite !Z.leb_le. apply Hnth in Ha as ->. apply Hnth in Hb as ->.
    pose proof (weight_before_mono weights (x + 1) (y + 1) HF ltac:(lia)). lia.
  - intros; lia.
  - intros x a Hx Ha%lookup_lt_Some. lia.
  - assert (Hlow : weight_before weights p ≤ c).
    { destruct p as [|p]; [unfold weight_before; simpl; lia|].
      destruct (lookup_lt_is_Some_2 acc p) as [a Ha]; [lia|]. pose proof (Hspec _ _ Ha) as Hs.
      rewrite bool_decide_eq_true_2, Z.leb_le, (Hnth _ _ Ha) in Hs by lia.
      replace (Datatypes.S p) with (p + 1)%nat by lia. lia. }
    assert (Hp' : (p < length weights)%nat).
    { destruct (decide (p = length weights)) as [->|]; [lia|lia]. }
    assert (Hhigh : c < weight_before weights (p + 1)).
    { destruct (lookup_lt_is_Some_2 acc p) as [a Ha]; [lia|]. pose proof (Hspec _ _ Ha) as Hs.
      rewrite bool_decide_eq_false_2, Z.leb_gt, (Hnth _ _ Ha) in Hs by lia. lia. }
    split; [eauto|]. split; [by intros [= <-]|]. intros [H1 H2]. f_equal.
    destruct (decide (i = p)) as [|Hne]; [done|]. exfalso. destruct (decide (i < p)%nat).
    + pose proof (weight_before_mono weights (i + 1) p HF ltac:(lia)). lia.
    + pose proof (weight_before_mono weights (p + 1) i HF ltac:(lia)). lia.
Qed.

Lemma reputation_chooses_by_weight_witness :
  choose_index [1; 99; 99] 150 = Ok 2%nat.
Proof.
  apply (reputation_chooses_by_weight [1; 99; 99] 150 2).
  - repeat constructor; lia.
  - split; reflexivity || (vm_compute; discriminate).
  - lia.
  - vm_compute. split; [discriminate|reflexivity].
Defined.

(** ** One proposal per leader *)

Section proposals.
Context {D : Type} `{DB : NewBlockDb D} `{CR : Crypto}.

Lemma reputation_proposer_keeps round (lr : LeaderReputation D) :
  lr_already_proposed (reputation_proposer round lr).1 = lr_already_proposed lr.
Proof.
  unfold reputation_proposer, st_get, st_zoom, st_bind, st_lift.
  destruct (get_block_metadata _ _) as [b [w|e|m]]; [|done..].
  destruct (_ =? _)%nat; [|done]. destruct (choose_index _ _) as [i|e|m]; [|done..].
  by destruct (expect _ _).
Qed.

(** What a call of [is_valid_proposal] does to the memory of proposals. *)
Lemma reputation_valid_proposal_spec block (lr lr' : LeaderReputation D) r :
  reputation_valid_proposal block lr = (lr', r) →
  let '(round, proposed) := lr_already_proposed lr in
  match r with
  | Ok true => ∃ a, b_author block = Some a
      ∧ ((round < b_round block ∧ lr_already_proposed lr' = (b_round block, {[a := b_id block]}))
         ∨ (b_round block = round ∧ (∀ id, proposed !! a = Some id → id = b_id block)
            ∧ lr_already_proposed lr' = (round, <[a := b_id block]> proposed)))
  | _ => lr_already_proposed lr' = lr_already_proposed lr
  end.
Proof.
  unfold reputation_valid_proposal, is_valid_proposer_with, st_bind, st_ret.
  destruct (b_author block) as [a|].
  2: { intros [= <- <-]. by destruct (lr_already_proposed lr). }
  pose proof (reputation_proposer_keeps (b_round block) lr) as Hk.
  destruct (reputation_proposer (b_round block) lr) as [lr1 [p|e|m]]; simpl in Hk.
  2,3: intros [= <- <-]; by destruct (lr_already_proposed lr).
  destruct (p =? a); simpl.
  2: { intros [= <- <-]. by destruct (lr_already_proposed lr). }
  rewrite Hk. destruct (lr_already_proposed lr) as [round proposed].
  destruct (Z.compare_spec (b_round block) round) as [Heq|Hlt|Hgt].
  - destruct (proposed !! a) as [id|] eqn:Hid; [destruct (Z.eqb_spec id (b_id block)) as [->|Hne]|];
      intros [= <- <-]; [|done|]; exists a; (split; [done|]); right;
        (split; [done|]); (split; [naive_solver|done]).
  - by intros [= <- <-].
  - intros [= <- <-]. exists a. split; [done|]. by left.
Qed.

(** The proposals accepted in a sequence of calls; before each call the node may have
    read a new window of events.  A panic ends the sequence. *)
Fixpoint accepted (calls : list (DiemDBBackend D * Block)) (lr : LeaderReputation D) : list Block :=
  match calls with
  | [] => []
  | (backend, block) :: calls =>
      match reputation_valid_proposal block (set_backend backend lr) with
      | (lr', Ok true) => block :: accepted calls lr'
      | (lr', Panic _) => []
      | (lr', _) => accepted calls lr'
      end
  end.

Definition remembers (round : Round) (proposed : gmap Author HashValue) (history : list Block) : Prop :=
  ∀ b, b ∈ history → b_round b ≤ round
    ∧ ∀ a, b_author b = Some a → b_round b = round → proposed !! a = Some (b_id b).
Definition consistent (history : list Block) : Prop :=
  ∀ b1 b2 a, b1 ∈ history → b2 ∈ history → b_author b1 = Some a → b_author b2 = Some a →
    b_round b1 = b_round b2 → b_id b1 = b_id b2.

Lemma accepted_consistent calls lr history :
  remembers (lr_already_proposed lr).1 (lr_already_proposed lr).2 history → consistent history →
  consistent (history ++ accepted calls lr).
Proof.
  revert lr history. induction calls as [|[backend block] calls IH]; simpl; intros lr history Hrem Hcons.
  { by rewrite app_nil_r. }
  destruct (reputation_valid_proposal block (set_backend backend lr)) as [lr' r] eqn:Hv.
  pose proof (reputation_valid_proposal_spec _ _ _ _ Hv) as Hs. simpl in Hs.
  destruct (lr_already_proposed lr) as [round proposed]. simpl in Hrem.
  destruct r as [[]|e|m]; [|apply IH; [by rewrite Hs|done]..|by rewrite app_nil_r].
  destruct Hs as (a & Ha & Hs).
  replace (history ++ block :: accepted calls lr') with ((history ++ [block]) ++ accepted calls lr')
    by by rewrite <- app_assoc.
  apply IH.
  - intros b [Hb| ->%list_elem_of_singleton]%elem_of_app.
    + destruct (Hrem _ Hb) as [Hle Hm]. destruct Hs as [[Hlt ->]|(Heq & Hid & ->)]; simpl.
      * split; [lia|]. intros; lia.
      * split; [done|]. intros a' Ha' Hrd. destruct (decide (a' = a)) as [->|Hne].
        -- rewrite lookup_insert_eq. f_equal. symmetry. apply Hid. by apply Hm.
        -- rewrite lookup_insert_ne by done. by apply Hm.
    + destruct Hs as [[Hlt ->]|(Heq & Hid & ->)]; simpl; (split; [lia|]); intros a' Ha' _;
        simplify_eq; [by rewrite lookup_singleton_eq|by rewrite lookup_insert_eq].
  - assert (Hnew : ∀ b, b ∈ history → b_author b = Some a → b_round b = b_round block → b_id b = b_id block).
    { intros b Hb Hab Hrd. destruct (Hrem _ Hb) as [Hle Hm].
      destruct Hs as [[Hlt _]|(Heq & Hid & _)]; [lia|]. apply Hid, Hm; [done|lia]. }
    intros b1 b2 a' [H1| ->%list_elem_of_singleton]%elem_of_app [H2| ->%list_elem_of_singleton]%elem_of_app Ha1 Ha2 Hrd;
      simplify_eq; [by eapply Hcons|by apply Hnew|symmetry; by apply Hnew|done].
Qed.

(** One proposal per leader.  Whatever proposals a node checks with the reputation
    election, in any order and with any history of committed blocks in between, two
    proposals it accepts for the same round from the same author are the same block. *)
Theorem one_proposal_per_leader calls (lr : LeaderReputation D) b1 b2 a :
  b1 ∈ accepted calls lr → b2 ∈ accepted calls lr →
  b_author b1 = Some a → b_author b2 = Some a → b_round b1 = b_round b2 → b_id b1 = b_id b2.
Proof.
  apply (accepted_consistent calls lr []).
  - by intros b ?%elem_of_nil.
  - by intros ??? ?%elem_of_nil.
Qed.
End proposals.

(** Three proposals of one leader, the second one for another block. *)
#[export] Instance empty_db : NewBlockDb unit := {|
  get_new_block_events := λ _ _, Ok [];
  get_latest_version := λ _, Ok 0;
|}.
Definition lone_backend : DiemDBBackend unit := mkDiemDBBackend 10 tt [].
Definition lone_leader : LeaderReputation unit :=
  mkLeaderReputation [7] lone_backend (mkActiveInactiveHeuristic 7 99 1) (0, ∅) 4.
Definition lone_qc : QuorumCert :=
  mkQuorumCert (mkVoteData BlockInfo_empty BlockInfo_empty)
    (mkLedgerInfoWithSignatures (mkLedgerInfo BlockInfo_empty 0) ∅).
Definition lone_block (id : HashValue) : Block :=
  mkBlock id (mkBlockData 1 5 0 lone_qc (BTProposal [] 7)) None.
Definition lone_calls : list (DiemDBBackend unit * Block) :=
  [(lone_backend, lone_block 1); (lone_backend, lone_block 2); (lone_backend, lone_block 1)].
#[local] Existing Instance ref_crypto.

Lemma one_proposal_per_leader_witness :
  length (accepted lone_calls lone_leader) = 2%nat
  ∧ Forall (λ b, b_id b = 1) (accepted lone_calls lone_leader).
Proof.
  assert (Hacc : accepted lone_calls lone_leader = [lone_block 1; lone_block 1]) by by vm_compute.
  split; [by rewrite Hacc|]. apply Forall_forall. intros b Hb.
  assert (Hb' : b = lone_block 1).
  { rewrite Hacc in Hb. by apply elem_of_cons in Hb as [->| ->%list_elem_of_singleton]. }
  change 1 with (b_id (lone_block 1)).
  apply (one_proposal_per_leader lone_calls lone_leader b (lone_block 1) 7 Hb).
  - rewrite Hacc. left.
  - by rewrite Hb'.
  - reflexivity.
  - by rewrite Hb'.
Defined.
