(* ===== verification/BlockRetrieval.v ===== *)
(** * BlockRetrieval: asking peers for missing blocks

    Models src/consensus/consensus-types/src/block_retrieval.rs, the BlockRetriever of
    src/consensus/src/block_storage/sync_manager.rs, [request_block] of src/consensus/src/
    network.rs and the answering side, [process_block_retrieval] of round_manager.rs.  The
    network is a class: what a peer answers is up to it. *)

From S2P Require Import Prelude Crypto Accumulator ValidatorVerifier LedgerTypes EpochChange AccumulatorProof.
From S2P Require Import ConsensusTypes ConsensusMessages SafetyStorage SafetyRules CommitSafety BlockTree BlockTreeFacts.
From S2P Require Import BlockTreeInv BlockStoreSafety.

Definition MAX_BLOCKS_PER_REQUEST : Z := 10.

Record BlockRetrievalRequest := mkBlockRetrievalRequest {
  brq_block_id : HashValue;
  brq_num_blocks : Z;
  brq_target_block_id : option HashValue;
}.
Definition match_target_id (r : BlockRetrievalRequest) (hash_value : HashValue) : bool :=
  match brq_target_block_id r with Some id => id =? hash_value | None => false end.

Inductive BlockRetrievalStatus :=
| Succeeded
| IdNotFound
| NotEnoughBlocks
| SucceededWithTarget.
#[export] Instance block_retrieval_status_eq_dec : EqDecision BlockRetrievalStatus.
Proof. solve_decision. Defined.

Record BlockRetrievalResponse := mkBlockRetrievalResponse {
  brp_status : BlockRetrievalStatus;
  brp_blocks : list Block;
}.

Section retrieval.
Context `{CC : ConsensusCrypto}.
(** The local clock, which [verify_well_formed] reads. *)
Context (current_ts : Z).

(** [try_fold] over the blocks: each one is the parent the one before expects. *)
Fixpoint verify_chain (expected_id : HashValue) (blocks : list Block) (sig_verifier : ValidatorVerifier)
    : AnyResult unit :=
  match blocks with
  | [] => Ok ()
  | block :: blocks =>
      validate_signature block sig_verifier ;?
      Block_verify_well_formed current_ts block ;?
      ensure (b_id block =? expected_id) "blocks doesn't form a chain" ;?
      verify_chain (b_parent_id block) blocks sig_verifier
  end.

Definition BlockRetrievalResponse_verify (r : BlockRetrievalResponse)
    (retrieval_request : BlockRetrievalRequest) (sig_verifier : ValidatorVerifier) : AnyResult unit :=
  ensure (bool_decide (brp_status r ≠ Succeeded)
          || (Z.of_nat (length (brp_blocks r)) =? brq_num_blocks retrieval_request))
    "not enough blocks returned" ;?
  ensure (bool_decide (brp_status r ≠ SucceededWithTarget)
          || match last (brp_blocks r) with
             | Some b => match_target_id retrieval_request (b_id b)
             | None => false
             end)
    "target not found in blocks returned" ;?
  verify_chain (brq_block_id retrieval_request) (brp_blocks r) sig_verifier.

(** ** The answering side *)

(** [todo]: the blocks the request still asks for. *)
Fixpoint collect_blocks (todo : nat) (t : BlockTree) (request : BlockRetrievalRequest) (id : HashValue)
    (blocks : list Block) : BlockRetrievalStatus * list Block :=
  match todo with
  | O => (Succeeded, blocks)
  | Datatypes.S todo =>
      match get_block t id with
      | Some executed_block =>
          let blocks := blocks ++ [eb_block executed_block] in
          if match_target_id request id then (SucceededWithTarget, blocks)
          else collect_blocks todo t request (eb_parent_id executed_block) blocks
      | None => (NotEnoughBlocks, blocks)
      end
  end.

Definition process_block_retrieval (t : BlockTree) (request : BlockRetrievalRequest)
    : BlockRetrievalResponse :=
  let '(status, blocks) :=
    collect_blocks (Z.to_nat (brq_num_blocks request)) t request (brq_block_id request) [] in
  mkBlockRetrievalResponse (if bool_decide (blocks = []) then IdNotFound else status) blocks.

(** ** The asking side *)

(** A remote procedure call to a peer, [None] if its answer is another kind of message, and
    the random choice among [n] peers. *)
Class PeerNetwork (N : Type) := {
  nw_author : N → Author;
  send_rpc : Author → BlockRetrievalRequest → ST N string (option BlockRetrievalResponse);
  gen_range : nat → N → N * nat;
}.

Context {N : Type} `{NW : PeerNetwork N} (validators : ValidatorVerifier) (preferred_peer : Author).

Definition request_block (retrieval_request : BlockRetrievalRequest) (from : Author)
    : ST N string BlockRetrievalResponse :=
  let! n := st_get in
  st_lift (ensure (negb (from =? nw_author n)) "Retrieve block from self") ;!
  let! response_msg := send_rpc from retrieval_request in
  match response_msg with
  | Some response =>
      st_lift (BlockRetrievalResponse_verify response retrieval_request validators) ;!
      st_ret response
  | None => st_lift (Err "Invalid response to request")
  end.

(** [Vec::remove] *)
Definition vec_remove {E A} (i : nat) (l : list A) : Result E (A * list A) :=
  match l !! i with Some x => Ok (x, delete i l) | None => Panic "removal index out of range" end.

Definition pick_peer (attempt : Z) (peers : list AccountAddress)
    : ST N string (AccountAddress * list AccountAddress) :=
  if bool_decide (peers = []) then st_lift (Panic "pick_peer on empty peer list") else
  if attempt =? 0 then
    st_ret (preferred_peer,
            match list_find (λ p, p = preferred_peer) peers with
            | Some (i, _) => delete i peers
            | None => peers
            end)
  else
    let! peer_idx := (λ n, let '(n', i) := gen_range (length peers) n in (n', Ok i)) in
    st_lift (vec_remove peer_idx peers).

(** The local variables of [retrieve_block_for_id]. *)
Record RetrieveState := mkRetrieveState {
  rt_attempt : Z;
  rt_progress : Z;
  rt_last_block_id : HashValue;
  rt_result_blocks : list Block;
  rt_batch_size : Z;
  rt_peer : AccountAddress;
  rt_peers : list AccountAddress;
}.

(** A failed request: the next peer, if any. *)
Definition try_next_peer (r : RetrieveState) : ST N string RetrieveState :=
  if bool_decide (rt_peers r = []) then st_lift (Err "Failed to fetch block: no more peers available")
  else
    let! (peer, peers) := pick_peer (rt_attempt r) (rt_peers r) in
    st_ret (mkRetrieveState (rt_attempt r) (rt_progress r) (rt_last_block_id r) (rt_result_blocks r)
              (rt_batch_size r) peer peers).

(** One turn of the loop: the blocks on [break], the next state otherwise. *)
Definition retrieve_turn (target_block_id : HashValue) (num_blocks : Z) (r : RetrieveState)
    : ST N string (RetrieveState + list Block) := λ n,
  let batch := Z.min (rt_batch_size r) (num_blocks - rt_progress r) in
  let r := mkRetrieveState (rt_attempt r + 1) (rt_progress r) (rt_last_block_id r) (rt_result_blocks r)
             batch (rt_peer r) (rt_peers r) in
  let retry := (let! r' := try_next_peer r in st_ret (inl r')) in
  match request_block (mkBlockRetrievalRequest (rt_last_block_id r) batch (Some target_block_id))
          (rt_peer r) n with
  | (n, Ok result) =>
      match brp_status result with
      | Succeeded =>
          match last (brp_blocks result) with
          | None => (n, Panic "unwrap on a None value")
          | Some b =>
              (n, Ok (inl (mkRetrieveState (rt_attempt r)
                             (rt_progress r + Z.of_nat (length (brp_blocks result))) (b_parent_id b)
                             (rt_result_blocks r ++ brp_blocks result) batch (rt_peer r) (rt_peers r))))
          end
      | SucceededWithTarget => (n, Ok (inr (rt_result_blocks r ++ brp_blocks result)))
      | _ => retry n
      end
  | (n, Err _) => retry n
  | (n, Panic m) => (n, Panic m)
  end.

(** [fuel] bounds the requests: each one makes progress or uses up a peer. *)
Fixpoint retrieve_loop (fuel : nat) (target_block_id : HashValue) (num_blocks : Z) (r : RetrieveState)
    : ST N string (list Block) :=
  if rt_progress r <? num_blocks then
    match fuel with
    | O => st_lift (Panic "out of fuel")
    | Datatypes.S fuel =>
        let! next := retrieve_turn target_block_id num_blocks r in
        match next with
        | inl r' => retrieve_loop fuel target_block_id num_blocks r'
        | inr blocks => st_ret blocks
        end
    end
  else st_ret (rt_result_blocks r).

Definition retrieve_block_for_id (block_id target_block_id : HashValue) (peers : list AccountAddress)
    (num_blocks : Z) : ST N string (list Block) :=
  if bool_decide (peers = []) then st_lift (Err "Failed to fetch block: no more peers available")
  else
    let! (peer, peers) := pick_peer 0 peers in
    let! result_blocks :=
      retrieve_loop (Z.to_nat num_blocks + length peers) target_block_id num_blocks
        (mkRetrieveState 0 0 block_id [] MAX_BLOCKS_PER_REQUEST peer peers) in
    match last result_blocks with
    | None => st_lift (Panic "unwrap on a None value")
    | Some b => if b_id b =? target_block_id then st_ret result_blocks
                else st_lift (Panic "assertion failed: left == right")
    end.

Definition retrieve_block_for_qc (qc : QuorumCert) (num_blocks : Z) (target_block_id : HashValue)
    : ST N string (list Block) :=
  retrieve_block_for_id (bi_id (qc_certified_block qc)) target_block_id
    (btree_keys (lis_signatures (qc_signed_ledger_info qc))) num_blocks.
End retrieval.

Section facts.
Context `{CC : ConsensusCrypto} (current_ts : Z).

(** The block is signed by its proposer and well formed. *)
Definition block_valid (vv : ValidatorVerifier) (b : Block) : Prop :=
  validate_signature b vv = Ok () ∧ Block_verify_well_formed current_ts b = Ok ().

(** Each block is the parent of the one before; the first has the id [id]. *)
Inductive parent_chain : HashValue → list Block → Prop :=
| parent_chain_nil id : parent_chain id []
| parent_chain_cons b bs : parent_chain (b_parent_id b) bs → parent_chain (b_id b) (b :: bs).

Lemma verify_chain_ok vv id bs :
  verify_chain current_ts id bs vv = Ok () ↔ parent_chain id bs ∧ Forall (block_valid vv) bs.
Proof.
  revert id. induction bs as [|b bs IH]; intros id; simpl.
  { split; [repeat constructor|done]. }
  rewrite Forall_cons. unfold block_valid. split.
  - intros H. r_inv H. destruct a, a0. apply Z.eqb_eq in Hs1 as <-. apply IH in H as [??].
    split; [by constructor|done].
  - intros [Hc [[-> ->] HF]]. inversion Hc; subst. simpl. rewrite Z.eqb_refl. simpl. by apply IH.
Qed.

Lemma parent_chain_app id bs b bs' :
  parent_chain id (bs ++ [b]) → parent_chain (b_parent_id b) bs' → parent_chain id (bs ++ [b] ++ bs').
Proof.
  revert id. induction bs as [|x bs IH]; intros id; simpl.
  - intros H Hc. inversion H; subst. by constructor.
  - intros H Hc. inversion H; subst. constructor. by apply IH.
Qed.

(** ** The answering side *)

Lemma collect_blocks_spec todo t req id blocks status blocks' :
  (∀ i lb, bt_id_to_block t !! i = Some lb → lb_id lb = i) →
  collect_blocks todo t req id blocks = (status, blocks') →
  ∃ new, blocks' = blocks ++ new ∧ parent_chain id new
    ∧ (status = Succeeded → length new = todo)
    ∧ (status = SucceededWithTarget → ∃ b, last new = Some b ∧ match_target_id req (b_id b) = true)
    ∧ status ≠ IdNotFound.
Proof.
  intros Hkey. revert id blocks. induction todo as [|todo IH]; intros id blocks; simpl.
  { intros [= <- <-]. exists []. rewrite app_nil_r. repeat split; [constructor|done..]. }
  destruct (get_block t id) as [eb|] eqn:Hb.
  2: { intros [= <- <-]. exists []. rewrite app_nil_r. repeat split; [constructor|done..]. }
  apply get_block_Some in Hb as (lb & Hlb & <-). apply Hkey in Hlb. unfold lb_id, eb_id in Hlb.
  destruct (match_target_id req id) eqn:Ht.
  - intros [= <- <-]. eexists. split; [done|]. rewrite <- Hlb. repeat split; try done.
    + repeat constructor.
    + intros _. eexists. split; [done|]. by rewrite Hlb.
  - intros H. apply IH in H as (new & -> & Hc & Hs & Htar & Hne).
    exists (eb_block (lb_executed_block lb) :: new). rewrite <- app_assoc. split; [done|].
    rewrite <- Hlb. repeat split; [by constructor|simpl; intros; f_equal; auto| |done].
    intros (b & Hl & Hm)%Htar. exists b. split; [|done]. destruct new; [done|]. by rewrite last_cons_cons.
Qed.

(** C33: an honest answer is accepted.  The response a node makes from its block tree, for
    any request, passes [BlockRetrievalResponse::verify] of the asking side exactly when
    the blocks in it are signed and well formed. *)
Theorem served_blocks_verify t req vv :
  tree_links t → 0 ≤ brq_num_blocks req →
  BlockRetrievalResponse_verify current_ts (process_block_retrieval t req) req vv = Ok ()
  ↔ Forall (block_valid vv) (brp_blocks (process_block_retrieval t req)).
Proof.
  intros TL Hnum. unfold process_block_retrieval.
  destruct (collect_blocks _ t req (brq_block_id req) []) as [status blocks] eqn:Hc.
  apply collect_blocks_spec in Hc as (new & -> & Hchain & Hs & Ht & Hne); [|apply (tl_key _ TL)].
  simpl. unfold BlockRetrievalResponse_verify. simpl.
  assert (H1 : bool_decide ((if bool_decide (new = []) then IdNotFound else status) ≠ Succeeded)
    || (Z.of_nat (length new) =? brq_num_blocks req) = true).
  { destruct (bool_decide (new = [])) eqn:Hn; [done|]. destruct (decide (status = Succeeded)) as [->|Hd].
    - rewrite (Hs eq_refl), Z2Nat.id, Z.eqb_refl by done. by rewrite orb_true_r.
    - by rewrite bool_decide_eq_true_2. }
  assert (H2 : bool_decide ((if bool_decide (new = []) then IdNotFound else status) ≠ SucceededWithTarget)
    || match last new with Some b => match_target_id req (b_id b) | None => false end = true).
  { destruct (bool_decide (new = [])) eqn:Hn; [done|].
    destruct (decide (status = SucceededWithTarget)) as [->|Hd].
    - destruct (Ht eq_refl) as (b & -> & ->). by rewrite orb_true_r.
    - by rewrite bool_decide_eq_true_2. }
  unfold ensure. rewrite H1, H2. simpl. rewrite verify_chain_ok. naive_solver.
Qed.

(** ** The asking side *)

Context {N : Type} `{NW : PeerNetwork N} (validators : ValidatorVerifier) (preferred_peer : Author).

(** The network returns, and the random choice is in range. *)
Record network_ok : Prop := {
  no_rpc p r n m : (send_rpc p r n).2 ≠ Panic m;
  no_range k n : (0 < k)%nat → ((gen_range k n).2 < k)%nat;
}.
Context (HN : network_ok).

Lemma request_block_spec req peer n :
  match request_block current_ts validators req peer n with
  | (_, Ok resp) => BlockRetrievalResponse_verify current_ts resp req validators = Ok ()
  | (_, Err _) => True
  | (_, Panic m) => ∃ resp, BlockRetrievalResponse_verify current_ts resp req validators = Panic m
  end.
Proof.
  unfold request_block, st_bind, st_get, st_lift, ensure. destruct (negb _); [|done].
  pose proof (no_rpc HN peer req n) as Hp.
  destruct (send_rpc peer req n) as [n' [[resp|]|e|m]]; simpl; [|done|done|by destruct (Hp m)].
  destruct (BlockRetrievalResponse_verify _ _ _ _) as [[]|e|m] eqn:Hv; simpl; eauto.
Qed.

(** Verification itself does not panic. *)
Lemma vv_verify_no_panic {T} `{CryptoHash T} a (m : T) sg : no_panic (vv_verify validators a m sg).
Proof. unfold vv_verify. solve_no_panic. Qed.
Lemma lis_verify_no_panic lis : no_panic (lis_verify_signatures lis validators).
Proof.
  unfold lis_verify_signatures, batch_verify_aggregated_signatures, verify_aggregated_struct_signature,
    check_num_of_signatures, check_voting_power, r_for.
  solve_no_panic; try apply vv_verify_no_panic; cbv zeta; solve_no_panic; apply vv_verify_no_panic.
Qed.
#[local] Hint Resolve vv_verify_no_panic lis_verify_no_panic : diem.

Lemma response_verify_no_panic resp req :
  no_panic (BlockRetrievalResponse_verify current_ts resp req validators).
Proof.
  unfold BlockRetrievalResponse_verify. do 2 (apply no_panic_bind; [apply no_panic_ensure|intros _]).
  generalize (brq_block_id req). induction (brp_blocks resp) as [|b bs IH]; intros id; simpl; [apply no_panic_Ok|].
  apply no_panic_bind; [|intros _]; [|apply no_panic_bind; [|intros _]; [|apply no_panic_bind; auto with diem]].
  - unfold validate_signature, QuorumCert_verify, VoteData_verify.
    solve_no_panic.
  - unfold Block_verify_well_formed. solve_no_panic.
Qed.

(** What was collected so far continues in the block asked for next. *)
Record collected (start : HashValue) (num : Z) (r : RetrieveState) : Prop := {
  col_chain : ∀ bs, parent_chain (rt_last_block_id r) bs → parent_chain start (rt_result_blocks r ++ bs);
  col_valid : Forall (block_valid validators) (rt_result_blocks r);
  col_progress : rt_progress r = Z.of_nat (length (rt_result_blocks r));
  col_bound : rt_progress r ≤ num;
  col_batch : 0 < rt_batch_size r;
}.

(** The blocks of a retrieval that ended. *)
Definition retrieved (start target : HashValue) (num : Z) (blocks : list Block) : Prop :=
  parent_chain start blocks ∧ Forall (block_valid validators) blocks
  ∧ ((∃ b, last blocks = Some b ∧ b_id b = target) ∨ Z.of_nat (length blocks) = num).

Definition turns_left (num : Z) (r : RetrieveState) : nat :=
  (Z.to_nat (num - rt_progress r) + length (rt_peers r))%nat.

Lemma pick_peer_spec attempt peers n : peers ≠ [] →
  match pick_peer preferred_peer attempt peers n with
  | (_, Ok (_, peers')) => (length peers' ≤ length peers)%nat
      ∧ (attempt ≠ 0 → (length peers' < length peers)%nat)
  | _ => False
  end.
Proof.
  intros Hne. unfold pick_peer. rewrite bool_decide_eq_false_2 by done.
  destruct (Z.eqb_spec attempt 0) as [->|Ha].
  - simpl. split; [|done]. destruct (list_find _ peers) as [[i x]|] eqn:Hf; [|lia].
    apply list_find_Some in Hf as (Hi & _ & _). rewrite length_delete by eauto. lia.
  - unfold st_bind. assert (Hlt : (0 < length peers)%nat) by (destruct peers; [done|simpl; lia]).
    pose proof (no_range HN (length peers) n Hlt) as Hr.
    destruct (gen_range (length peers) n) as [n' i]. simpl in *. unfold vec_remove, st_lift.
    destruct (lookup_lt_is_Some_2 peers i Hr) as [x Hx]. rewrite Hx.
    rewrite length_delete by eauto. lia.
Qed.

Lemma try_next_peer_spec start num r n : collected start num r → rt_attempt r ≠ 0 →
  match try_next_peer preferred_peer r n with
  | (_, Ok r') => collected start num r' ∧ (turns_left num r' < turns_left num r)%nat ∧ rt_attempt r' = rt_attempt r
  | (_, Err _) => True
  | (_, Panic _) => False
  end.
Proof.
  intros [Hc Hv Hp Hb Hs] Ha. unfold try_next_peer.
  destruct (bool_decide (rt_peers r = [])) eqn:Hne; [done|]. apply bool_decide_eq_false in Hne.
  unfold st_bind, st_ret. pose proof (pick_peer_spec (rt_attempt r) (rt_peers r) n Hne) as H.
  destruct (pick_peer _ _ _ _) as [n' [[p ps]|e|m]]; [|done..]. destruct H as [_ H].
  specialize (H Ha). split; [by split|]. unfold turns_left. simpl. split; [lia|done].
Qed.

(** A verified batch continues the chain. *)
Lemma collected_batch start num r req resp b peer peers attempt batch :
  collected start num r → req = mkBlockRetrievalRequest (rt_last_block_id r) batch (brq_target_block_id req) →
  0 < batch ≤ num - rt_progress r →
  BlockRetrievalResponse_verify current_ts resp req validators = Ok () →
  brp_status resp = Succeeded → last (brp_blocks resp) = Some b →
  collected start num (mkRetrieveState attempt (rt_progress r + Z.of_nat (length (brp_blocks resp)))
    (b_parent_id b) (rt_result_blocks r ++ brp_blocks resp) batch peer peers)
  ∧ Z.of_nat (length (brp_blocks resp)) = batch.
Proof.
  intros [Hc Hv Hp Hbd Hs] Hreq Hbatch Hver Hst Hlast. unfold BlockRetrievalResponse_verify in Hver.
  r_inv Hver. rewrite Hst, bool_decide_eq_false_2 in Hs0 by auto. simpl in Hs0. apply Z.eqb_eq in Hs0.
  apply verify_chain_ok in Hver as [Hchain Hvalid]. rewrite Hreq in Hs0, Hchain. simpl in Hs0, Hchain.
  split; [|done]. split; simpl.
  - intros bs Hbs. rewrite <- app_assoc. apply Hc. apply last_Some in Hlast as [l Hl]. rewrite Hl in *.
    rewrite <- app_assoc. by apply parent_chain_app.
  - by apply Forall_app.
  - rewrite length_app. lia.
  - lia.
  - lia.
Qed.

Lemma retrieve_turn_spec start target num r n : collected start num r → rt_progress r < num →
  0 ≤ rt_attempt r →
  match retrieve_turn current_ts validators preferred_peer target num r n with
  | (_, Ok (inl r')) => collected start num r' ∧ (turns_left num r' < turns_left num r)%nat ∧ 0 ≤ rt_attempt r'
  | (_, Ok (inr blocks)) => retrieved start target num blocks
  | (_, Err _) => True
  | (_, Panic _) => False
  end.
Proof.
  intros Hcol Hlt Ha. pose proof Hcol as [Hc Hv Hp Hbd Hs]. unfold retrieve_turn.
  set (batch := Z.min (rt_batch_size r) (num - rt_progress r)).
  set (r1 := mkRetrieveState (rt_attempt r + 1) _ _ _ batch _ _).
  assert (Hcol1 : collected start num r1) by (split; simpl; [done..|lia]).
  assert (Hretry : ∀ n, match (let! r' := try_next_peer preferred_peer r1 in st_ret (inl r')) n with
    | (_, Ok (inl r')) => collected start num r' ∧ (turns_left num r' < turns_left num r)%nat ∧ 0 ≤ rt_attempt r'
    | (_, Ok (inr blocks)) => retrieved start target num blocks
    | (_, Err _) => True
    | (_, Panic _) => False
    end).
  { intros n'. unfold st_bind, st_ret. pose proof (try_next_peer_spec start num r1 n' Hcol1) as H.
    destruct (try_next_peer preferred_peer r1 n') as [n2 [r'|e|m]]; [|done|apply H; simpl; lia].
    destruct H as (? & ? & Heq); [simpl; lia|]. split; [done|]. split; [done|]. rewrite Heq. simpl. lia. }
  set (req := mkBlockRetrievalRequest (rt_last_block_id r1) batch (Some target)).
  pose proof (request_block_spec req (rt_peer r1) n) as Hreq.
  destruct (request_block _ _ req (rt_peer r1) n) as [n1 [resp|e|m]]; [|apply Hretry|].
  2: { destruct Hreq as (resp & Hm). by destruct (response_verify_no_panic resp req m). }
  destruct (brp_status resp) eqn:Hst; [|apply Hretry|apply Hretry|].
  - destruct (last (brp_blocks resp)) as [b|] eqn:Hlast.
    + destruct (collected_batch start num r1 req resp b (rt_peer r1) (rt_peers r1) (rt_attempt r1) batch)
        as [Hcol2 Hlen]; try done; [simpl; lia|].
      split; [exact Hcol2|]. unfold turns_left. simpl. split; lia.
    + unfold BlockRetrievalResponse_verify in Hreq. r_inv Hreq. rewrite Hst, bool_decide_eq_false_2 in Hs0 by auto.
      apply Z.eqb_eq in Hs0. apply last_None in Hlast. rewrite Hlast in Hs0. simpl in Hs0. lia.
  - unfold BlockRetrievalResponse_verify in Hreq. r_inv Hreq.
    rewrite Hst, (bool_decide_eq_false_2 (SucceededWithTarget ≠ SucceededWithTarget)) in Hs1 by auto.
    simpl in Hs1. destruct (last (brp_blocks resp)) as [b|] eqn:Hlast; [|done].
    apply verify_chain_ok in Hreq as [Hchain Hvalid]. unfold retrieved. split; [by apply Hc|].
    split; [by apply Forall_app|]. left. exists b. split; [|by apply Z.eqb_eq in Hs1].
    rewrite last_app, Hlast. done.
Qed.

Lemma retrieve_loop_spec start target num fuel r n : collected start num r → 0 ≤ rt_attempt r →
  (turns_left num r ≤ fuel)%nat →
  match retrieve_loop current_ts validators preferred_peer fuel target num r n with
  | (_, Ok blocks) => retrieved start target num blocks
  | (_, Err _) => True
  | (_, Panic _) => False
  end.
Proof.
  revert r n. induction fuel as [|fuel IH]; intros r n Hcol Ha Hf; simpl;
    destruct (Z.ltb_spec (rt_progress r) num) as [Hlt|Hge].
  1: unfold turns_left in Hf; lia.
  1,3: destruct Hcol as [Hc Hv Hp Hbd Hs]; unfold retrieved; simpl;
    specialize (Hc [] (parent_chain_nil _)); rewrite app_nil_r in Hc;
    split; [done|]; split; [done|]; right; lia.
  unfold st_bind. pose proof (retrieve_turn_spec start target num r n Hcol Hlt Ha) as H.
  destruct (retrieve_turn _ _ _ _ _ r n) as [n1 [[r'|blocks]|e|m]]; [|done..].
  destruct H as (Hcol' & Hlt' & Ha'). apply IH; [done|done|lia].
Qed.

(** C32: a retrieval returns the chain that was asked for.  Whatever the peers answer and
    whichever of them are asked, [retrieve_block_for_id] ends; if it returns blocks, they are
    the chain of ancestors from the requested block to the target, every one signed and
    well formed; it stops the process only when a peer answered with as many verified
    ancestors as were asked for, the last of which is not the target. *)
Theorem retrieval_returns_chain block_id target peers num n :
  0 < num →
  match retrieve_block_for_id current_ts validators preferred_peer block_id target peers num n with
  | (_, Ok blocks) => parent_chain block_id blocks ∧ Forall (block_valid validators) blocks
      ∧ ∃ b, last blocks = Some b ∧ b_id b = target
  | (_, Err _) => True
  | (_, Panic m) => m = "assertion failed: left == right"
      ∧ ∃ blocks b, parent_chain block_id blocks ∧ Forall (block_valid validators) blocks
      ∧ Z.of_nat (length blocks) = num ∧ last blocks = Some b ∧ b_id b ≠ target
  end.
Proof.
  intros Hnum. unfold retrieve_block_for_id.
  destruct (bool_decide (peers = [])) eqn:Hne; [done|]. apply bool_decide_eq_false in Hne.
  unfold st_bind. pose proof (pick_peer_spec 0 peers n Hne) as Hp.
  destruct (pick_peer preferred_peer 0 peers n) as [n1 [[p ps]|e|m]]; [|done..].
  pose proof (retrieve_loop_spec block_id target num (Z.to_nat num + length ps)
    (mkRetrieveState 0 0 block_id [] MAX_BLOCKS_PER_REQUEST p ps) n1) as H.
  destruct (retrieve_loop _ _ _ _ _ _ _ n1) as [n2 [blocks|e|m]].
  - destruct H as (Hc & Hv & Hend).
    { split; simpl; [done|constructor|done|lia|done]. }
    { simpl. lia. }
    { unfold turns_left. simpl. rewrite Z.sub_0_r. lia. }
    destruct (last blocks) as [b|] eqn:Hlast.
    + destruct (Z.eqb_spec (b_id b) target) as [Heq|Hneq]; simpl; [by eauto 10|].
      split; [done|]. exists blocks, b. split_and!; try done. destruct Hend as [(b' & Hb' & Hid)|Hlen]; [|done]. by simplify_eq.
    + exfalso. apply last_None in Hlast as ->. destruct Hend as [(b & ? & _)|Hlen]; [done|]. simpl in Hlen. lia.
  - done.
  - exfalso. apply H.
    { split; simpl; [done|constructor|done|lia|done]. }
    { simpl. lia. }
    { unfold turns_left. simpl. rewrite Z.sub_0_r. lia. }
Qed.
End facts.

(** ** What a retrieval leaves alone *)

Section within.
Context `{CC : ConsensusCrypto} (current_ts : Z) {N : Type} `{NW : PeerNetwork N}.
Context (validators : ValidatorVerifier) (preferred_peer : Author).
Context (R : N → N → Prop) `{!PreOrder R}.
Context (Hrpc : ∀ p r, st_within R (send_rpc p r)) (Hrange : ∀ k n, R n (gen_range k n).1).

Lemma pick_peer_within attempt peers : st_within R (pick_peer preferred_peer attempt peers).
Proof.
  unfold pick_peer. st_steps. intros n. specialize (Hrange (length peers) n).
  by destruct (gen_range (length peers) n).
Qed.

Lemma request_block_within req peer : st_within R (request_block current_ts validators req peer).
Proof. unfold request_block. st_steps. apply Hrpc. Qed.

Lemma retrieve_turn_within target num r :
  st_within R (retrieve_turn current_ts validators preferred_peer target num r).
Proof.
  assert (Hretry : ∀ r, st_within R (let! r' := try_next_peer preferred_peer r in
    st_ret (inl r') : ST N string (RetrieveState + list Block))).
  { intros r'. unfold try_next_peer. st_steps. apply pick_peer_within. }
  intros n. unfold retrieve_turn. pose proof (request_block_within (mkBlockRetrievalRequest
    (rt_last_block_id r) (Z.min (rt_batch_size r) (num - rt_progress r)) (Some target)) (rt_peer r) n) as H.
  simpl in *. destruct (request_block _ _ _ _ n) as [n1 [resp|e|m]]; simpl in *.
  - destruct (brp_status resp); [by destruct (last _)|..|done]; (etrans; [exact H|apply Hretry]).
  - etrans; [exact H|apply Hretry].
  - done.
Qed.

Lemma retrieve_within id target peers num :
  st_within R (retrieve_block_for_id current_ts validators preferred_peer id target peers num).
Proof.
  unfold retrieve_block_for_id. st_steps; [apply pick_peer_within|].
  lazymatch goal with |- st_within _ (retrieve_loop _ _ _ ?n _ _ ?r) =>
    generalize r; induction n as [|fuel IH]; intros r'; simpl; st_steps end.
  - apply retrieve_turn_within.
  - apply IH.
Qed.
End within.

(** ** A network with one answer *)

Definition answering (resp : BlockRetrievalResponse) : PeerNetwork unit := {|
  nw_author := λ _, 4;
  send_rpc := λ _ _ n, (n, Ok (Some resp));
  gen_range := λ _ n, (n, 0%nat);
|}.
Lemma answering_ok resp : network_ok (NW:=answering resp).
Proof. split; [done|]. intros k n Hk. exact Hk. Qed.

(** A chain whose rounds 4 and 5 timed out. *)
Definition gap_block : Block := next_block 6 (sample_qc construct_ledger_info_2chain 3).
Definition gap_chain : list Block :=
  gap_block :: (sample_block construct_ledger_info_2chain <$> [3; 2; 1]%nat).
Definition gap_target : HashValue := b_id (sample_block construct_ledger_info_2chain 3).
(** The number of blocks [fast_forward_sync] asks for: the rounds between the ends. *)
Definition gap_num : Z := 6 - 3 + 1.

(** Evaluates both sides without writing down the value, in which the hashes are large. *)
Ltac by_vm := lazymatch goal with |- ?a = ?b => exact (eq_refl b <: a = b) end.

Definition retrieve_gap (resp : BlockRetrievalResponse) : Result string (list Block) :=
  (retrieve_block_for_id (NW:=answering resp) 1000 four_validators 1 (b_id gap_block) gap_target [1; 2; 3]
     gap_num tt).2.

(** A peer that knows the chain can stop the process of a node that asks it for the blocks
    down to a target: it ignores the target and answers [Succeeded] with as many blocks as
    were asked for.  Every block is signed and the answer is verified; the retrieval ends
    in its last assertion.  An honest answer to the same request is returned. *)
Theorem peer_can_stop_retrieval :
  retrieve_gap (mkBlockRetrievalResponse Succeeded gap_chain) = Panic "assertion failed: left == right"
  ∧ retrieve_gap (mkBlockRetrievalResponse SucceededWithTarget (take 2 gap_chain)) = Ok (take 2 gap_chain).
Proof. split; by_vm. Qed.

Lemma retrieval_returns_chain_witness :
  ∃ blocks, retrieve_gap (mkBlockRetrievalResponse SucceededWithTarget (take 2 gap_chain)) = Ok blocks
    ∧ parent_chain (b_id gap_block) blocks ∧ Forall (block_valid 1000 four_validators) blocks
    ∧ ∃ b, last blocks = Some b ∧ b_id b = gap_target.
Proof.
  set (resp := mkBlockRetrievalResponse SucceededWithTarget (take 2 gap_chain)).
  assert (Hok : retrieve_gap resp = Ok (take 2 gap_chain)) by by_vm.
  assert (Hnum : 0 < gap_num) by reflexivity.
  pose proof (retrieval_returns_chain (NW:=answering resp) 1000 four_validators 1 (answering_ok resp)
    (b_id gap_block) gap_target [1; 2; 3] gap_num tt Hnum) as H.
  unfold retrieve_gap in Hok |- *. exists (take 2 gap_chain). split; [exact Hok|].
  destruct (retrieve_block_for_id _ _ _ _ _ _ _ _) as [n r]. cbn [snd] in Hok. rewrite Hok in H. exact H.
Defined.

(** A node whose tree has two blocks after the genesis block answers for both. *)
Definition served_request : BlockRetrievalRequest :=
  mkBlockRetrievalRequest (b_id chain_block2) 2 (Some (b_id chain_block1)).

Lemma served_blocks_verify_witness :
  brp_blocks (process_block_retrieval sample_run_tree served_request) = [chain_block2; chain_block1]
  ∧ BlockRetrievalResponse_verify 1000 (process_block_retrieval sample_run_tree served_request)
      served_request four_validators = Ok ().
Proof.
  assert (Hb : brp_blocks (process_block_retrieval sample_run_tree served_request)
    = [chain_block2; chain_block1]) by by_vm.
  split; [exact Hb|]. destruct sample_run_inv as ((hist & Hi) & _).
  apply (served_blocks_verify 1000 sample_run_tree served_request four_validators (ti_links _ _ _ Hi)).
  - discriminate.
  - rewrite Hb. repeat constructor; by_vm.
Defined.
