(* ===== verification/RoundState.v ===== *)
(** * RoundState: the current round, its timer, and the proposals of a node

    Models src/consensus/src/liveness/round_state.rs and proposal_generator.rs.  A duration is a number of
    nanoseconds.  The clock and the scheduler of the time service are a class, and so is the
    trait RoundTimeInterval, whose implementation computes powers of floating point numbers. *)

From S2P Require Import Prelude Crypto Accumulator ValidatorVerifier LedgerTypes EpochChange AccumulatorProof.
From S2P Require Import ConsensusTypes ConsensusMessages PendingVotes BlockTree.

Abbreviation Duration := Z (only parsing).
Abbreviation AbortHandle := Z (only parsing).

(** Durations hold a u64 number of seconds; their addition stops the process beyond. *)
Definition duration_add {E} (a b : Duration) : Result E Duration :=
  if a + b <? 2 ^ 64 * 10 ^ 9 then Ok (a + b) else Panic "overflow when adding durations".
Definition from_micros (micros : Z) : Duration := micros * 1000.
Definition as_micros (d : Duration) : Z := d / 1000.

(** The time service: the clock, and the task that sends the timeout of a round later. *)
Class TimeService (T : Type) := {
  get_current_timestamp : T → T * Duration;
  run_after : Duration → Round → T → T * AbortHandle;
  abort : AbortHandle → T → T;
}.

Class RoundTimeInterval (I : Type) := {
  get_round_duration : I → Z → Duration;
}.

Inductive NewRoundReason := QCReady | TimeoutReason.

Record NewRoundEvent := mkNewRoundEvent {
  nre_round : Round;
  nre_reason : NewRoundReason;
  nre_timeout : Duration;
}.

Record RoundState (I T : Type) := mkRoundState {
  rs_time_interval : I;
  rs_highest_committed_round : Round;
  rs_current_round : Round;
  rs_current_round_deadline : Duration;
  rs_time_service : T;
  rs_pending_votes : PendingVotes;
  rs_vote_sent : option Vote;
  rs_abort_handle : option AbortHandle;
}.
Arguments mkRoundState {I T}.
Arguments rs_time_interval {I T}.
Arguments rs_highest_committed_round {I T}.
Arguments rs_current_round {I T}.
Arguments rs_current_round_deadline {I T}.
Arguments rs_time_service {I T}.
Arguments rs_pending_votes {I T}.
Arguments rs_vote_sent {I T}.
Arguments rs_abort_handle {I T}.

Section round_state.
Context `{CC : ConsensusCrypto} {I T : Type} `{TI : RoundTimeInterval I} `{TS : TimeService T}.
Local Abbreviation RS := (RoundState I T).

Definition RoundState_new (time_interval : I) (time_service : T) : RS :=
  let '(time_service, now) := get_current_timestamp time_service in
  mkRoundState time_interval 0 0 now time_service PendingVotes_new None None.

Definition set_deadline (deadline : Duration) (time_service : T) (handle : option AbortHandle) (s : RS) : RS :=
  mkRoundState (rs_time_interval s) (rs_highest_committed_round s) (rs_current_round s) deadline
    time_service (rs_pending_votes s) (rs_vote_sent s) handle.
Definition set_pending_votes (votes : PendingVotes) (s : RS) : RS :=
  mkRoundState (rs_time_interval s) (rs_highest_committed_round s) (rs_current_round s)
    (rs_current_round_deadline s) (rs_time_service s) votes (rs_vote_sent s) (rs_abort_handle s).
Definition set_vote_sent (vote : option Vote) (s : RS) : RS :=
  mkRoundState (rs_time_interval s) (rs_highest_committed_round s) (rs_current_round s)
    (rs_current_round_deadline s) (rs_time_service s) (rs_pending_votes s) vote (rs_abort_handle s).
Definition set_rounds (committed current : Round) (s : RS) : RS :=
  mkRoundState (rs_time_interval s) committed current (rs_current_round_deadline s)
    (rs_time_service s) (rs_pending_votes s) (rs_vote_sent s) (rs_abort_handle s).

(** The number of rounds since the one that could have committed. *)
Definition round_index_after_committed_round (s : RS) : Z :=
  if rs_highest_committed_round s =? 0 then wrap64 (rs_current_round s - 1)
  else if rs_current_round s <? wrap64 (rs_highest_committed_round s + 3) then 0
  else wrap64 (rs_current_round s - rs_highest_committed_round s - 3).

Definition setup_deadline : ST RS string Duration := λ s,
  let timeout := get_round_duration (rs_time_interval s) (round_index_after_committed_round s) in
  let '(time_service, now) := get_current_timestamp (rs_time_service s) in
  match duration_add now timeout with
  | Ok deadline => (set_deadline deadline time_service (rs_abort_handle s) s, Ok timeout)
  | Err e => (s, Err e)
  | Panic m => (s, Panic m)
  end.

Definition setup_timeout : ST RS string Duration :=
  let! timeout := setup_deadline in
  λ s,
    let '(time_service, abort_handle) := run_after timeout (rs_current_round s) (rs_time_service s) in
    let time_service :=
      match rs_abort_handle s with Some handle => abort handle time_service | None => time_service end in
    (set_deadline (rs_current_round_deadline s) time_service (Some abort_handle) s, Ok timeout).

Definition rs_process_local_timeout (round : Round) : ST RS string bool :=
  let! s := st_get in
  if negb (round =? rs_current_round s) then st_ret false
  else setup_timeout ;! st_ret true.

Definition rs_process_certificates (sync_info : SyncInfo) : ST RS string (option NewRoundEvent) :=
  let! s := st_get in
  let committed :=
    if rs_highest_committed_round s <? highest_ordered_round sync_info
    then highest_ordered_round sync_info else rs_highest_committed_round s in
  let new_round := wrap64 (highest_round sync_info + 1) in
  if rs_current_round s <? new_round then
    st_put (set_vote_sent None (set_pending_votes PendingVotes_new (set_rounds committed new_round s))) ;!
    let! timeout := setup_timeout in
    let new_round_reason :=
      if wrap64 (highest_certified_round sync_info + 1) =? new_round then QCReady else TimeoutReason in
    st_ret (Some (mkNewRoundEvent new_round new_round_reason timeout))
  else
    st_put (set_rounds committed (rs_current_round s) s) ;!
    st_ret None.

Definition rs_insert_vote (vote : Vote) (verifier : ValidatorVerifier) (s : RS) : RS * VoteReceptionResult :=
  if v_round vote =? rs_current_round s then
    let '(votes, result) := insert_vote vote verifier (rs_pending_votes s) in
    (set_pending_votes votes s, result)
  else (s, UnexpectedRound (v_round vote) (rs_current_round s)).

Definition record_vote (vote : Vote) (s : RS) : RS :=
  if v_round vote =? rs_current_round s then set_vote_sent (Some vote) s else s.
End round_state.

(** [pull_txns]: also whether it waited for transactions, and so ran the callback it was
    given. *)
Class TxnManager (M : Type) := {
  pull_txns : Z → list Payload → bool → M → M * (bool * Result string Payload);
}.

Record ProposalGenerator (M : Type) := mkProposalGenerator {
  pg_author : Author;
  pg_txn_manager : M;
  pg_max_block_size : Z;
  pg_last_round_generated : Round;
}.
Arguments mkProposalGenerator {M}.
Arguments pg_author {M}.
Arguments pg_txn_manager {M}.
Arguments pg_max_block_size {M}.
Arguments pg_last_round_generated {M}.

Section generator.
Context `{CC : ConsensusCrypto} {M T : Type} `{TM : TxnManager M} `{TS : TimeService T}.

Definition ensure_highest_quorum_cert (t : BlockTree) (round : Round) : AnyResult QuorumCert :=
  let hqc := bt_highest_quorum_cert t in
  ensure (qc_round hqc <? round) "Given round is lower than hqc round" ;?
  ensure (negb (qc_ends_epoch hqc)) "The epoch has already ended,a proposal is not allowed to generated" ;?
  Ok hqc.

Definition generate_nil_block (t : BlockTree) (round : Round) : AnyResult Block :=
  let? hqc := ensure_highest_quorum_cert t round in
  Ok (Block_new_nil round hqc).

(** The state of a call: the generator, the clock it shares, and whether the callback ran. *)
Record Generating := mkGenerating {
  gg_generator : ProposalGenerator M;
  gg_time_service : T;
  gg_waited : bool;
}.

Definition set_last_round_generated (round : Round) (g : Generating) : Generating :=
  let p := gg_generator g in
  mkGenerating (mkProposalGenerator (pg_author p) (pg_txn_manager p) (pg_max_block_size p) round)
    (gg_time_service g) (gg_waited g).

Definition now : ST Generating string Duration := λ g,
  let '(ts, d) := get_current_timestamp (gg_time_service g) in
  (mkGenerating (gg_generator g) ts (gg_waited g), Ok d).

Definition pull (exclude_payload : list Payload) (pending_ordering : bool) : ST Generating string Payload := λ g,
  let p := gg_generator g in
  let '(m, (waited, r)) :=
    pull_txns (pg_max_block_size p) exclude_payload pending_ordering (pg_txn_manager p) in
  (mkGenerating (mkProposalGenerator (pg_author p) m (pg_max_block_size p) (pg_last_round_generated p))
     (gg_time_service g) (waited || gg_waited g),
   r_map_err (λ _, "Fail to retrieve txn") r).

(** The payload and the timestamp of a proposal on top of [hqc]. *)
Definition payload_and_timestamp (t : BlockTree) (hqc : QuorumCert) : ST Generating string (Payload * Z) :=
  let parent := qc_certified_block hqc in
  if bi_has_reconfiguration parent then st_ret ([], bi_timestamp_usecs parent)
  else
    let! path := st_lift (path_from_commit_root t (bi_id parent)) in
    let! pending_blocks := st_lift (ok_or path "HQC already pruned") in
    let! root := st_lift (commit_root t) in
    let exclude_payload := omap (λ b, b_payload (eb_block b)) (pending_blocks ++ [root]) in
    let! ordered := st_lift (path_from_ordered_root t (bi_id parent)) in
    let! ordered_blocks := st_lift (ok_or ordered "HQC already pruned") in
    let pending_ordering :=
      existsb (λ b, negb (from_option (λ txns, bool_decide (txns = [])) true (b_payload (eb_block b))))
        ordered_blocks in
    let! timestamp := now in
    let! payload := pull exclude_payload pending_ordering in
    st_ret (payload, wrap64 (as_micros timestamp)).

Definition generate_proposal (t : BlockTree) (round : Round) : ST Generating string BlockData :=
  let! g := st_get in
  (if pg_last_round_generated (gg_generator g) <? round
   then st_put (set_last_round_generated round g)
   else st_lift (Err "Already proposed in the round")) ;!
  let! hqc := st_lift (ensure_highest_quorum_cert t round) in
  let! (payload, timestamp) := payload_and_timestamp t hqc in
  st_ret (BlockData_new_proposal payload (pg_author (gg_generator g)) round timestamp hqc).
End generator.
Arguments Generating : clear implicits.
Arguments mkGenerating {M T}.
