(* ===== verification/MetricsSafetyRules.v ===== *)
(** * MetricsSafetyRules: the safety rules as the round manager calls them

    Models src/consensus/src/metrics_safety_rules.rs: a call that fails because the safety
    rules are not initialized for the epoch initializes them from the epoch changes in the
    storage and is made again.  Shows that the initialization ends. *)

From S2P Require Import Prelude Crypto Accumulator ValidatorVerifier LedgerTypes EpochChange.
From S2P Require Import AccumulatorProof ConsensusTypes ConsensusMessages SafetyStorage SafetyRules.
From S2P Require Import BlockTree BlockStore.

(** The storage is shared with the block store. *)
Record MetricsSafetyRules (S P : Type) := mkMetricsSafetyRules {
  msr_inner : SafetyRules S;
  msr_storage : P;
}.
Arguments mkMetricsSafetyRules {S P}.
Arguments msr_inner {S P}.
Arguments msr_storage {S P}.

Section metrics.
Context `{CC : ConsensusCrypto} {S : Type} `{KV : KVStorage S} `{CS : CryptoStorage S}.
Context {P : Type} `{PS : PersistentLivenessStorage P}.
Local Abbreviation MSR := (MetricsSafetyRules S P).

Definition with_inner {E A} (c : ST (SafetyRules S) E A) : ST MSR E A :=
  st_zoom msr_inner (λ r m, mkMetricsSafetyRules r (msr_storage m)) c.
Definition with_liveness_storage {E A} (c : ST P E A) : ST MSR E A :=
  st_zoom msr_storage (λ p m, mkMetricsSafetyRules (msr_inner m) p) c.

(** The loop of [perform_initialize]; [fuel] bounds its turns. *)
Fixpoint initialize_loop (fuel : nat) (waypoint_version : Version) : ST MSR SafetyError unit :=
  match fuel with
  | O => st_lift (Panic "out of fuel")
  | Datatypes.S fuel =>
      let! proofs :=
        st_map_res (r_map_err (λ _, SafetyInternalError "Unable to retrieve Waypoint state from storage"))
          (with_liveness_storage (retrieve_epoch_change_proof waypoint_version)) in
      λ m,
        match with_inner (guarded_initialize proofs) m with
        | (m, Err (WaypointOutOfDate prev_version curr_version current_epoch provided_epoch)) =>
            if prev_version <? curr_version then initialize_loop fuel curr_version m
            else (m, Err (WaypointOutOfDate prev_version curr_version current_epoch provided_epoch))
        | result => result
        end
  end.

Definition perform_initialize (fuel : nat) : ST MSR SafetyError unit :=
  let! consensus_state := with_inner guarded_consensus_state in
  initialize_loop fuel (wp_version (cs_waypoint consensus_state)).

Definition retry {A} (fuel : nat) (f : ST (SafetyRules S) SafetyError A) : ST MSR SafetyError A := λ m,
  match with_inner f m with
  | (m, Err (NotInitialized _)) | (m, Err (IncorrectEpoch _ _))
  | (m, Err (WaypointOutOfDate _ _ _ _)) => (perform_initialize fuel ;! with_inner f) m
  | result => result
  end.
End metrics.

(** ** The initialization ends *)

Definition outdated (e : SafetyError) : bool :=
  match e with WaypointOutOfDate _ _ _ _ => true | _ => false end.

(** A computation that does not report an old waypoint. *)
Definition not_outdated {St A} (c : ST St SafetyError A) : Prop :=
  ∀ s e, (c s).2 = Err e → outdated e = false.

Lemma not_outdated_bind {St A B} (c : ST St SafetyError A) (f : A → ST St SafetyError B) :
  not_outdated c → (∀ a, not_outdated (f a)) → not_outdated (st_bind c f).
Proof.
  intros Hc Hf s e. unfold st_bind. specialize (Hc s).
  destruct (c s) as [s1 [a|e1|m]]; simpl in *; [apply Hf|intros [= <-]; by apply Hc|done].
Qed.
Lemma not_outdated_zoom {St St' A} get put (c : ST St' SafetyError A) :
  not_outdated c → not_outdated (st_zoom (S:=St) get put c).
Proof. intros Hc s e. unfold st_zoom. specialize (Hc (get s)). destruct (c (get s)) as [s1 r]. apply Hc. Qed.

Section initialize_ends.
Context `{CC : ConsensusCrypto} {S : Type} {KV : KVStorage S} {KL : KVLaws S} {CS : CryptoStorage S}.
Context {P : Type} `{PS : PersistentLivenessStorage P}.
Implicit Types r : SafetyRules S.

Lemma not_outdated_store {A} (c : ST S StorageError A) : not_outdated (pss_store_q c).
Proof.
  intros p e. unfold pss_store_q, pss_store, st_map_res, st_zoom.
  destruct (c (pss_internal_store p)) as [s [a|[]|m]]; simpl; by intros [= <-].
Qed.

Lemma not_outdated_reconcile author es : not_outdated (reconcile_key (S:=S) author es).
Proof.
  intros r e. unfold reconcile_key. destruct (get_public_key _ _) as [key|]; [|by intros [= <-]].
  destruct (bool_decide _); [done|]. destruct (sr_export_consensus_key r).
  - pose proof (not_outdated_zoom sr_persistent_storage sr_set_storage _ (not_outdated_store
      (export_private_key_for_version CONSENSUS_KEY key)) r) as H.
    unfold sr_storage, consensus_key_for_version. destruct (st_zoom _ _ _ r) as [r' [k|e1|m]]; simpl in *; [done| |done].
    specialize (H e1 eq_refl). destruct e1; simpl; intros [= <-]; done.
  - destruct (sr_sign _ _) as [r' [s|e1|m]]; simpl; by intros [= <-].
Qed.

(** The stored waypoint. *)
Definition stored_waypoint r : option StoredValue :=
  storage_view (pss_internal_store (sr_persistent_storage r)) !! WAYPOINT.

Lemma read_keeps_view {A} (c : ST S StorageError A) p :
  keeps_view c → storage_view (pss_internal_store (pss_store_q c p).1) = storage_view (pss_internal_store p).
Proof.
  intros Hc. unfold pss_store_q, pss_store, st_map_res, st_zoom. specialize (Hc (pss_internal_store p)).
  by destruct (c (pss_internal_store p)).
Qed.

Lemma read_value_keeps {T} (from : StoredValue → option T) k :
  keeps_view (S:=S) (let! v := kv_get k in st_lift (decode_value from v)).
Proof. apply keeps_view_bind; [apply keeps_view_get|intros; apply keeps_view_lift]. Qed.

Lemma st_get_bind {St E A} (f : St → ST St E A) s : st_bind st_get f s = f s s.
Proof. done. Qed.

Lemma safety_data_keeps p :
  storage_view (pss_internal_store (pss_safety_data p).1) = storage_view (pss_internal_store p)
  ∧ ∀ e, (pss_safety_data p).2 = Err e → outdated e = false.
Proof.
  unfold pss_safety_data. rewrite !st_get_bind. destruct (negb _).
  - pose proof (read_keeps_view _ p (read_value_keeps (result_from_value (E:=SafetyError) (T:=SafetyData)) SAFETY_DATA)) as Hv.
    set (c := (let! v := kv_get SAFETY_DATA in st_lift (decode_value _ v))) in *.
    pose proof (not_outdated_store c p) as Ho. unfold st_bind.
    destruct (pss_store_q c p) as [p1 [v|e|m]] eqn:Hq; simpl in *; [|by split; [done|intros ? [= <-]; apply Ho]..].
    apply pss_store_q_ok, st_bind_ok in Hq as (v0 & s1 & _ & Hd). injection Hd as _ Hd. by apply ok_or_ok in Hd.
  - destruct (pss_cached_safety_data p); [done|].
    pose proof (read_keeps_view _ p (keeps_view_storage_get (V:=SafetyData_stored) SAFETY_DATA)) as Hv.
    pose proof (not_outdated_store (storage_get (V:=SafetyData_stored) SAFETY_DATA) p) as Ho.
    unfold st_bind. destruct (pss_store_q _ p) as [p1 [v|e|m]]; simpl in *; by split; [done|intros ? [= <-]; apply Ho].
Qed.

Lemma initialize_tail_not_outdated es : not_outdated (
  (λ r, (sr_set_epoch_state (Some es) r, Ok ())) ;!
  let! author := sr_storage pss_author in
  λ r, match reconcile_key author es r with
       | (r', Err error) => (sr_set_signer None r', Err error)
       | res => res
       end).
Proof.
  apply not_outdated_bind; [done|intros _].
  apply not_outdated_bind; [apply not_outdated_zoom, not_outdated_store|intros author r e].
  pose proof (not_outdated_reconcile author es r) as H.
  destruct (reconcile_key author es r) as [r' [u|e1|m]]; simpl in *; [done|apply H|done].
Qed.

Lemma set_safety_data_not_outdated d : not_outdated (pss_set_safety_data (S:=S) d).
Proof.
  intros p e. unfold pss_set_safety_data. destruct (pss_store _ p) as [p1 [u|e1|m]]; simpl; by intros [= <-].
Qed.

(** After the new waypoint was made. *)
Lemma initialize_store_outdated w nw es r r' prev curr e1 e2 :
  ((if wp_version w <? wp_version nw then sr_storage (pss_set_waypoint nw) else st_ret ()) ;!
   let! safety_data := sr_storage pss_safety_data in
   let current_epoch := sd_epoch safety_data in
   (match current_epoch ?= es_epoch es with
    | Gt => st_lift (Err (WaypointOutOfDate (wp_version w) (wp_version nw) current_epoch (es_epoch es)))
    | Lt => sr_storage (pss_set_safety_data (mkSafetyData (es_epoch es) 0 0 0 None))
    | Eq => st_ret ()
    end) ;!
   (λ r, (sr_set_epoch_state (Some es) r, Ok ())) ;!
   let! author := sr_storage pss_author in
   λ r, match reconcile_key author es r with
        | (r', Err error) => (sr_set_signer None r', Err error)
        | res => res
        end) r = (r', Err (WaypointOutOfDate prev curr e1 e2)) → prev < curr →
  wp_version w = prev ∧ wp_version nw = curr ∧ stored_waypoint r' = Some (SVWaypoint nw).
Proof.
  intros Hi Hlt. pose proof (initialize_tail_not_outdated es) as Htail. unfold not_outdated in Htail.
  set (tail := st_bind (λ r, (sr_set_epoch_state (Some es) r, Ok ())) _) in *.
  unfold st_bind at 1 in Hi. set (c1 := if wp_version w <? _ then _ else _) in Hi.
  assert (Hc1 : not_outdated c1).
  { subst c1. destruct (_ <? _); [apply not_outdated_zoom, not_outdated_store|done]. }
  specialize (Hc1 r). destruct (c1 r) as [r1 [[]|e|m]] eqn:Hr1; simpl in *;
    [|injection Hi as _ ->; by specialize (Hc1 _ eq_refl)|done].
  unfold st_bind at 1, sr_storage at 1, st_zoom at 1 in Hi.
  destruct (safety_data_keeps (sr_persistent_storage r1)) as [Hv Ho].
  destruct (pss_safety_data _) as [p [d|e|m]]; simpl in *; [|injection Hi as _ ->; by specialize (Ho _ eq_refl)|done].
  unfold st_bind in Hi. destruct (_ ?= _); simpl in Hi.
  - specialize (Htail (sr_set_storage p r1) _ (f_equal snd Hi)). done.
  - pose proof (set_safety_data_not_outdated (mkSafetyData (es_epoch es) 0 0 0 None) p) as Hs.
    unfold sr_storage, st_zoom in Hi. simpl in Hi.
    destruct (pss_set_safety_data _ p) as [p2 [[]|e|m]]; simpl in *; [|injection Hi as _ ->; by specialize (Hs _ eq_refl)|done].
    specialize (Htail _ _ (f_equal snd Hi)). done.
  - injection Hi as <- <- <- <- <-. split_and!; [done..|]. unfold stored_waypoint. simpl. rewrite Hv.
    subst c1. rewrite (proj2 (Z.ltb_lt _ _) Hlt) in Hr1. unfold sr_storage, st_zoom in Hr1.
    destruct (pss_set_waypoint nw _) as [p1 [[]|e|m]] eqn:Hset; try done. injection Hr1 as <-.
    apply pss_store_q_ok, kv_set_ok in Hset. simpl. rewrite Hset. apply lookup_insert_eq.
Qed.

(** An initialization that found an old waypoint and can go on has stored a newer one, the
    version of the last ledger info of the proof. *)
Lemma initialize_outdated proof r r' prev curr e1 e2 :
  guarded_initialize proof r = (r', Err (WaypointOutOfDate prev curr e1 e2)) → prev < curr →
  ∃ w w' lis, stored_waypoint r = Some (SVWaypoint w) ∧ wp_version w = prev
    ∧ stored_waypoint r' = Some (SVWaypoint w') ∧ wp_version w' = curr
    ∧ last (ecp_ledger_info_with_sigs proof) = Some lis ∧ curr = li_version (lis_ledger_info lis).
Proof.
  intros Hi Hlt. unfold guarded_initialize in Hi. unfold st_bind at 1, sr_storage at 1, st_zoom at 1 in Hi.
  pose proof (read_keeps_view _ (sr_persistent_storage r) (keeps_view_storage_get (V:=Waypoint_stored) WAYPOINT)) as Hv.
  pose proof (not_outdated_store (storage_get (V:=Waypoint_stored) WAYPOINT) (sr_persistent_storage r)) as Ho.
  unfold pss_waypoint in Hi.
  destruct (pss_store_q _ _) as [p [w|e|m]] eqn:Hw; simpl in Hv, Ho; [|injection Hi as _ ->; by specialize (Ho _ eq_refl)|done].
  apply pss_store_q_ok, (storage_get_ok (V:=Waypoint_stored)) in Hw as ([] & Hw & [= <-]).
  unfold st_bind at 1, st_lift at 1 in Hi.
  destruct (EpochChangeProof_verify proof (to_dyn waypoint)) as [lis|e|m] eqn:Hver; simpl in Hi; [|done..].
  unfold st_bind at 1, st_lift at 1 in Hi. destruct (li_next_epoch_state _) as [es|]; simpl in Hi; [|done].
  unfold st_bind at 1, st_lift at 1 in Hi.
  destruct (Waypoint_new_epoch_boundary _) as [nw|e|m] eqn:Hnw; simpl in Hi; [|done..].
  destruct (initialize_store_outdated _ _ _ _ _ _ _ _ _ Hi Hlt) as (H1 & H2 & H3).
  exists waypoint, nw, lis. split_and!; [done..| |].
  - unfold EpochChangeProof_verify in Hver. r_inv Hver. by destruct (last _); simplify_eq/=.
  - rewrite <- H2. unfold Waypoint_new_epoch_boundary in Hnw. r_inv Hnw. done.
Qed.

(** The storage returns ledger infos whose versions are u64 numbers, as all versions are. *)
Context (Hversions : ∀ version (p p' : P) proof lis,
  retrieve_epoch_change_proof version p = (p', Ok proof) →
  last (ecp_ledger_info_with_sigs proof) = Some lis → li_version (lis_ledger_info lis) < 2 ^ 64).

(** The turns left: the stored version goes up in each. *)
Definition turns (r : SafetyRules S) : nat :=
  match stored_waypoint r with Some (SVWaypoint w) => Z.to_nat (2 ^ 64 - wp_version w) | _ => 0%nat end.

(** The loop of [perform_initialize] ends: more fuel than the versions above the stored
    waypoint changes nothing. *)
Lemma initialize_loop_ends fuel more version (m : MetricsSafetyRules S P) :
  (turns (msr_inner m) < fuel)%nat →
  initialize_loop (fuel + more) version m = initialize_loop fuel version m.
Proof.
  revert version m. induction fuel as [|fuel IH]; intros version m Hfuel; [lia|]. simpl.
  unfold st_bind, st_map_res, with_liveness_storage, st_zoom.
  destruct (retrieve_epoch_change_proof version (msr_storage m)) as [p [proof|e|x]] eqn:Hp; simpl; [|done..].
  unfold with_inner, st_zoom. simpl.
  destruct (guarded_initialize proof (msr_inner m)) as [r x] eqn:Hini.
  destruct x as [u|[]|x]; try done.
  destruct (_ <? _) eqn:Hlt; [apply Z.ltb_lt in Hlt|done].
  apply IH. destruct (initialize_outdated _ _ _ _ _ _ _ Hini Hlt) as (w & w' & lis & H1 & H2 & H3 & H4 & H5 & H6).
  specialize (Hversions _ _ _ _ _ Hp H5). unfold turns in *. simpl. rewrite H1 in Hfuel. rewrite H3. lia.
Qed.
End initialize_ends.
