(* ===== verification/SyncManager.v ===== *)
(** * SyncManager: bringing the block store up to the certificates of a peer

    Models the part of src/consensus/src/block_storage/sync_manager.rs that acts on the
    block store ([add_certs] and what it calls), over the retrieval of BlockRetrieval, and
    the sending side of src/consensus/src/network.rs.  What is sent is recorded in the order
    of sending; delivery is up to the network. *)

From S2P Require Import Prelude Crypto Accumulator ValidatorVerifier LedgerTypes EpochChange.
From S2P Require Import AccumulatorProof ConsensusTypes ConsensusMessages BlockTree BlockStore.
From S2P Require Import BlockRetrieval.

(** ** Sending *)

Inductive ConsensusMsg :=
| MsgProposal (m : ProposalMsg)
| MsgVote (m : VoteMsg)
| MsgSyncInfo (m : SyncInfo)
| MsgEpochChangeProof (m : EpochChangeProof)
| MsgCommitDecision (ledger_info : LedgerInfoWithSignatures).

(** To everyone, this node included, or to some validators. *)
Inductive Recipients :=
| Everyone
| Only (recipients : list Author).

Record NetworkSender (N : Type) := mkNetworkSender {
  ns_peers : N;
  ns_sent : list (Recipients * ConsensusMsg);
}.
Arguments mkNetworkSender {N}.
Arguments ns_peers {N}.
Arguments ns_sent {N}.

Section network.
Context {N : Type} `{NW : PeerNetwork N}.

#[export] Instance network_sender_peers : PeerNetwork (NetworkSender N) := {|
  nw_author := λ ns, nw_author (ns_peers ns);
  send_rpc := λ p r, st_zoom ns_peers (λ n ns, mkNetworkSender n (ns_sent ns)) (send_rpc p r);
  gen_range := λ k ns, let '(n, i) := gen_range k (ns_peers ns) in (mkNetworkSender n (ns_sent ns), i);
|}.

Definition send_msg (to : Recipients) (msg : ConsensusMsg) (ns : NetworkSender N) : NetworkSender N :=
  mkNetworkSender (ns_peers ns) (ns_sent ns ++ [(to, msg)]).
Definition broadcast (msg : ConsensusMsg) : NetworkSender N → NetworkSender N := send_msg Everyone msg.
Definition send (msg : ConsensusMsg) (recipients : list Author) : NetworkSender N → NetworkSender N :=
  send_msg (Only recipients) msg.
Definition send_vote (vote_msg : VoteMsg) (recipients : list Author) : NetworkSender N → NetworkSender N :=
  send (MsgVote vote_msg) recipients.
Definition send_sync_info (sync_info : SyncInfo) (recipient : Author) : NetworkSender N → NetworkSender N :=
  send (MsgSyncInfo sync_info) [recipient].
Definition notify_epoch_change (proof : EpochChangeProof) (ns : NetworkSender N) : NetworkSender N :=
  send (MsgEpochChangeProof proof) [nw_author (ns_peers ns)] ns.
Definition notify_commit_proof (ledger_info : LedgerInfoWithSignatures) (ns : NetworkSender N)
    : NetworkSender N :=
  send (MsgCommitDecision ledger_info) [nw_author (ns_peers ns)] ns.
End network.

Section sync.
Context `{HI : HashIter} {C P : Type} `{SC : StateComputer C} `{PS : PersistentLivenessStorage P}.
Context {N : Type} `{NW : PeerNetwork N}.
Context `{CC : ConsensusCrypto} (current_ts : Z) (validators : ValidatorVerifier).
Local Abbreviation BS := (BlockStore C P).
Local Abbreviation NS := (NetworkSender N).

(** An action on the store, on the network, and a message sent. *)
Definition on_store {E A} (c : ST BS E A) : ST (BS * NS) E A := st_zoom fst (λ s sn, (s, sn.2)) c.
Definition on_network {E A} (c : ST NS E A) : ST (BS * NS) E A := st_zoom snd (λ n sn, (sn.1, n)) c.
Definition sending {E} (f : NS → NS) : ST (BS * NS) E unit := λ sn, ((sn.1, f sn.2), Ok ()).

(** ** Fetching what a certificate needs *)

Section retriever.
Context (preferred_peer : Author).

(** The blocks missing below a certificate, the oldest first; [fuel] bounds the chain. *)
Fixpoint fetch_chain (fuel : nat) (t : BlockTree) (retrieve_qc : QuorumCert) (pending : list Block)
    : ST NS string (list Block) :=
  let id := bi_id (qc_certified_block retrieve_qc) in
  if block_exists t id then st_ret pending
  else match fuel with
       | O => st_lift (Panic "out of fuel")
       | Datatypes.S fuel =>
           let! blocks := retrieve_block_for_qc current_ts validators preferred_peer retrieve_qc 1 id in
           let! (block, _) := st_lift (vec_remove 0 blocks) in
           fetch_chain fuel t (b_quorum_cert block) (block :: pending)
       end.

Fixpoint insert_fetched (blocks : list Block) : ST BS string unit :=
  match blocks with
  | [] => st_ret ()
  | block :: blocks =>
      insert_single_quorum_cert (b_quorum_cert block) ;!
      execute_and_insert_block block ;!
      insert_fetched blocks
  end.

(** Rounds fall along the chain. *)
Definition fetch_quorum_cert (qc : QuorumCert) : ST (BS * NS) string unit :=
  let! sn := st_get in
  let! pending := on_network (fetch_chain (Z.to_nat (qc_round qc) + 1) (bs_inner sn.1) qc []) in
  on_store (insert_fetched pending ;! insert_single_quorum_cert qc).

(** [BlockStore::insert_quorum_cert] *)
Definition insert_quorum_cert_and_commit (qc : QuorumCert) : ST (BS * NS) string unit :=
  let! need := on_store (reading (need_fetch_for_quorum_cert qc)) in
  match need with
  | NeedFetch => fetch_quorum_cert qc
  | QCBlockExist => on_store (insert_single_quorum_cert qc)
  | _ => st_ret ()
  end ;!
  let! root := on_store (reading ordered_root) in
  if eb_round root <? bi_round (qc_commit_info qc) then
    let finality_proof := qc_signed_ledger_info qc in
    on_store (commit finality_proof) ;!
    if qc_ends_epoch qc
    then sending (broadcast (MsgEpochChangeProof (mkEpochChangeProof [finality_proof] false)))
    else st_ret ()
  else st_ret ().

(** ** Fast forward *)

(** [assert_eq!(block.id(), quorum_certs[i].certified_block().id())] for every block. *)
Fixpoint assert_certified (blocks : list Block) (quorum_certs : list QuorumCert) : AnyResult unit :=
  match blocks, quorum_certs with
  | [], _ => Ok ()
  | _, [] => Panic "index out of bounds"
  | block :: blocks, qc :: quorum_certs =>
      if b_id block =? bi_id (qc_certified_block qc) then assert_certified blocks quorum_certs
      else Panic "assertion failed: left == right"
  end.

Definition fast_forward_sync (highest_ordered_cert : QuorumCert)
    (highest_ledger_info : LedgerInfoWithSignatures) : ST (BS * NS) string RecoveryData :=
  let num_blocks :=
    wrap64 (wrap64 (qc_round highest_ordered_cert - bi_round (lis_commit_info highest_ledger_info)) + 1) in
  let! blocks := on_network (retrieve_block_for_qc current_ts validators preferred_peer
    highest_ordered_cert num_blocks (bi_id (lis_commit_info highest_ledger_info))) in
  let! first := st_lift (expect (head blocks) "blocks are empty") in
  st_lift (if b_id first =? bi_id (qc_certified_block highest_ordered_cert) then Ok ()
           else Panic "Expecting in the retrieval response, first block") ;!
  let! last := st_lift (expect (last blocks) "blocks are empty") in
  st_lift (if b_id last =? bi_id (lis_commit_info highest_ledger_info) then Ok ()
           else Panic "assertion failed: left == right") ;!
  st_lift (if num_blocks <? 2 ^ 64 - 1 then Ok ()
           else Panic "assertion failed: num_blocks < std::usize::MAX as u64") ;!
  let quorum_certs :=
    highest_ordered_cert :: (b_quorum_cert <$> take (Z.to_nat (wrap64 (num_blocks - 1))) blocks) in
  st_lift (assert_certified blocks quorum_certs) ;!
  on_store (with_storage (save_tree blocks quorum_certs)) ;!
  on_store (with_computer (sync_to highest_ledger_info)) ;!
  let! data := on_store (with_storage start) in
  st_lift (expect_recovery_data "Failed to construct recovery data after fast forward sync" data).

Definition sync_to_highest_ordered_cert (highest_ordered_cert : QuorumCert)
    (highest_ledger_info : LedgerInfoWithSignatures) : ST (BS * NS) string unit :=
  let! sn := st_get in
  let! need := st_lift (need_sync_for_ledger_info highest_ledger_info sn.1) in
  if negb need then st_ret () else
  let! d := fast_forward_sync highest_ordered_cert highest_ledger_info in
  on_store (rebuild (rd_root d) (rd_root_metadata d) (rd_blocks d) (rd_quorum_certs d)) ;!
  if li_ends_epoch (lis_ledger_info highest_ledger_info)
  then sending (notify_epoch_change
                  (mkEpochChangeProof [qc_signed_ledger_info highest_ordered_cert] false))
  else st_ret ().

(** A commit proof for a block in the pipeline goes to the buffer manager. *)
Definition sync_to_highest_commit_cert (ledger_info : LedgerInfoWithSignatures)
    : ST (BS * NS) string unit :=
  let commit_info := lis_commit_info ledger_info in
  let! root := on_store (reading commit_root) in
  let! present := on_store (reading (λ t, Ok (block_exists t (bi_id commit_info)))) in
  if negb ((eb_round root <? bi_round commit_info) && present) then st_ret () else
  let! ordered := on_store (reading ordered_root) in
  if bi_round commit_info <=? eb_round ordered then sending (notify_commit_proof ledger_info)
  else st_ret ().

Definition add_certs (sync_info : SyncInfo) : ST (BS * NS) string unit :=
  sync_to_highest_commit_cert (highest_ledger_info sync_info) ;!
  sync_to_highest_ordered_cert (highest_ordered_cert sync_info) (highest_ledger_info sync_info) ;!
  insert_quorum_cert_and_commit (highest_ordered_cert sync_info) ;!
  insert_quorum_cert_and_commit (si_highest_quorum_cert sync_info) ;!
  match si_highest_timeout_cert sync_info with
  | Some tc => on_store (insert_timeout_certificate tc)
  | None => st_ret ()
  end ;!
  match si_highest_2chain_timeout_cert sync_info with
  | Some tc => on_store (insert_2chain_timeout_certificate tc)
  | None => st_ret ()
  end.
End retriever.
End sync.
