(* ===== verification/RoundManager.v ===== *)
(** * RoundManager: the event handlers of the consensus

    Models src/consensus/src/round_manager.rs: the handler of each event, on a state that
    holds the components of the files before.  The storage is the one of the block store;
    the clock the verification of blocks reads is the argument [current_ts].  Counters, logs
    and fault injection are left out. *)

From S2P Require Import Prelude Crypto Accumulator ValidatorVerifier LedgerTypes EpochChange.
From S2P Require Import AccumulatorProof ConsensusTypes ConsensusMessages SafetyStorage SafetyRules.
From S2P Require Import BlockTree BlockStore BlockRetrieval PendingVotes ProposerElection RoundState.
From S2P Require Import MetricsSafetyRules SyncManager RoundState.

(** ** The on-chain configuration *)

Record ConsensusConfigV1 := mkConsensusConfigV1 {
  v1_two_chain : bool;
}.
Record ConsensusConfigV2 := mkConsensusConfigV2 {
  v2_two_chain : bool;
  v2_decoupled_execution : bool;
  v2_back_pressure_limit : Z;
  v2_exclude_round : Z;
}.
Inductive OnChainConsensusConfig :=
| ConfigV1 (config : ConsensusConfigV1)
| ConfigV2 (config : ConsensusConfigV2).

Definition config_two_chain (c : OnChainConsensusConfig) : bool :=
  match c with ConfigV1 config => v1_two_chain config | ConfigV2 config => v2_two_chain config end.
Definition config_decoupled_execution (c : OnChainConsensusConfig) : bool :=
  match c with ConfigV2 config => v2_decoupled_execution config | _ => false end.
Definition config_back_pressure_limit (c : OnChainConsensusConfig) : Z :=
  if negb (config_decoupled_execution c) then 10
  else match c with ConfigV2 config => v2_back_pressure_limit config | _ => 10 end.

(** ** Events *)

Record CommitVote := mkCommitVote {
  cv_author : Author;
  cv_ledger_info : LedgerInfo;
  cv_signature : Signature;
}.

Inductive UnverifiedEvent :=
| UnverifiedProposal (m : ProposalMsg)
| UnverifiedVote (m : VoteMsg)
| UnverifiedSync (m : SyncInfo)
| UnverifiedCommitVote (m : CommitVote)
| UnverifiedCommitDecision (ledger_info : LedgerInfoWithSignatures).

Inductive VerifiedEvent :=
| VerifiedProposal (m : ProposalMsg)
| VerifiedVote (m : VoteMsg)
| UnverifiedSyncInfo (m : SyncInfo)
| VerifiedCommitVote (m : CommitVote)
| VerifiedCommitDecision (ledger_info : LedgerInfoWithSignatures)
| VerifiedBlockRetrieval (request : BlockRetrievalRequest)
| LocalTimeout (round : Round).

Section events.
Context `{CC : ConsensusCrypto}.

Definition CommitVote_verify (cv : CommitVote) (validator : ValidatorVerifier) : AnyResult unit :=
  context "Failed to verify Commit Vote"
    (r_map_err VerifyError_to_string (vv_verify validator (cv_author cv) (cv_ledger_info cv) (cv_signature cv))).
Definition CommitDecision_verify (ledger_info : LedgerInfoWithSignatures) (validator : ValidatorVerifier)
    : AnyResult unit :=
  context "Failed to verify Commit Decision"
    (r_map_err VerifyError_to_string (lis_verify_signatures ledger_info validator)).

Definition UnverifiedEvent_verify (current_ts : Z) (e : UnverifiedEvent) (validator : ValidatorVerifier)
    : AnyResult VerifiedEvent :=
  match e with
  | UnverifiedProposal p => ProposalMsg_verify current_ts p validator ;? Ok (VerifiedProposal p)
  | UnverifiedVote v => VoteMsg_verify v validator ;? Ok (VerifiedVote v)
  | UnverifiedSync s => Ok (UnverifiedSyncInfo s)
  | UnverifiedCommitVote cv => CommitVote_verify cv validator ;? Ok (VerifiedCommitVote cv)
  | UnverifiedCommitDecision cd => CommitDecision_verify cd validator ;? Ok (VerifiedCommitDecision cd)
  end.
Definition UnverifiedEvent_epoch (e : UnverifiedEvent) : Z :=
  match e with
  | UnverifiedProposal p => b_epoch (pm_proposal p)
  | UnverifiedVote v => v_epoch (vm_vote v)
  | UnverifiedSync s => si_epoch s
  | UnverifiedCommitVote cv => li_epoch (cv_ledger_info cv)
  | UnverifiedCommitDecision cd => li_epoch (lis_ledger_info cd)
  end.
End events.

(** ** The round manager *)

Record RoundManager (C P I T L M N S : Type) := mkRoundManager {
  rm_epoch_state : EpochState;
  rm_block_store : BlockStore C P;
  rm_round_state : RoundState I T;
  rm_proposer_election : L;
  rm_proposal_generator : ProposalGenerator M;
  rm_safety_rules : SafetyRules S;
  rm_network : NetworkSender N;
  rm_sync_only : bool;
  rm_onchain_config : OnChainConsensusConfig;
}.
Arguments mkRoundManager {C P I T L M N S}.
Arguments rm_epoch_state {C P I T L M N S}.
Arguments rm_block_store {C P I T L M N S}.
Arguments rm_round_state {C P I T L M N S}.
Arguments rm_proposer_election {C P I T L M N S}.
Arguments rm_proposal_generator {C P I T L M N S}.
Arguments rm_safety_rules {C P I T L M N S}.
Arguments rm_network {C P I T L M N S}.
Arguments rm_sync_only {C P I T L M N S}.
Arguments rm_onchain_config {C P I T L M N S}.

Section manager.
Context `{CC : ConsensusCrypto} `{HI : HashIter}.
Context {C P I T L M N S : Type} `{SC : StateComputer C} `{PS : PersistentLivenessStorage P}.
Context `{TI : RoundTimeInterval I} `{TS : TimeService T} `{PE : ProposerElection L}.
Context `{TM : TxnManager M} `{NW : PeerNetwork N} `{KV : KVStorage S} `{CS : CryptoStorage S}.
Local Abbreviation RM := (RoundManager C P I T L M N S).

(** [current_ts]: the wall clock; [init_fuel]: a bound on the epoch changes read at once. *)
Context (current_ts : Z) (init_fuel : nat).

(** *** Access to the components *)

Definition put_block_store (s : BlockStore C P) (m : RM) : RM :=
  mkRoundManager (rm_epoch_state m) s (rm_round_state m) (rm_proposer_election m)
    (rm_proposal_generator m) (rm_safety_rules m) (rm_network m) (rm_sync_only m) (rm_onchain_config m).
Definition put_round_state (s : RoundState I T) (m : RM) : RM :=
  mkRoundManager (rm_epoch_state m) (rm_block_store m) s (rm_proposer_election m)
    (rm_proposal_generator m) (rm_safety_rules m) (rm_network m) (rm_sync_only m) (rm_onchain_config m).
Definition put_proposer_election (e : L) (m : RM) : RM :=
  mkRoundManager (rm_epoch_state m) (rm_block_store m) (rm_round_state m) e
    (rm_proposal_generator m) (rm_safety_rules m) (rm_network m) (rm_sync_only m) (rm_onchain_config m).
Definition put_proposal_generator (g : ProposalGenerator M) (m : RM) : RM :=
  mkRoundManager (rm_epoch_state m) (rm_block_store m) (rm_round_state m) (rm_proposer_election m)
    g (rm_safety_rules m) (rm_network m) (rm_sync_only m) (rm_onchain_config m).
Definition put_safety_rules (r : SafetyRules S) (m : RM) : RM :=
  mkRoundManager (rm_epoch_state m) (rm_block_store m) (rm_round_state m) (rm_proposer_election m)
    (rm_proposal_generator m) r (rm_network m) (rm_sync_only m) (rm_onchain_config m).
Definition put_network (n : NetworkSender N) (m : RM) : RM :=
  mkRoundManager (rm_epoch_state m) (rm_block_store m) (rm_round_state m) (rm_proposer_election m)
    (rm_proposal_generator m) (rm_safety_rules m) n (rm_sync_only m) (rm_onchain_config m).

Definition on_block_store {A} (c : ST (BlockStore C P) string A) : ST RM string A :=
  st_zoom rm_block_store put_block_store c.
Definition on_round_state {A} (c : ST (RoundState I T) string A) : ST RM string A :=
  st_zoom rm_round_state put_round_state c.
Definition on_proposer_election {A} (c : ST L string A) : ST RM string A :=
  st_zoom rm_proposer_election put_proposer_election c.
Definition on_sync {A} (c : ST (BlockStore C P * NetworkSender N) string A) : ST RM string A :=
  st_zoom (λ m, (rm_block_store m, rm_network m)) (λ sn m, put_block_store sn.1 (put_network sn.2 m)) c.
(** A read of the tree. *)
Definition on_tree {A} (f : BlockTree → Result string A) : ST RM string A := on_block_store (reading f).
Definition transmit (f : NetworkSender N → NetworkSender N) : ST RM string unit := λ m,
  (put_network (f (rm_network m)) m, Ok ()).

(** A call of the safety rules; its error becomes an [anyhow::Error]. *)
Definition on_safety_rules {A} (c : ST (SafetyRules S) SafetyError A) : ST RM string A :=
  st_map_res (r_map_err (λ _, "safety rules error"))
    (st_zoom (λ m, mkMetricsSafetyRules (rm_safety_rules m) (bs_storage (rm_block_store m)))
       (λ r m, put_safety_rules (msr_inner r)
                 (put_block_store (put_storage (msr_storage r) (rm_block_store m)) m))
       (retry init_fuel c)).

(** The clock of the proposal generator is the one of the round state. *)
Definition on_generator {A} (c : ST (Generating M T) string A) : ST RM string (bool * Result string A) := λ m,
  let '(g, r) := c (mkGenerating (rm_proposal_generator m) (rs_time_service (rm_round_state m)) false) in
  let rs := rm_round_state m in
  (put_proposal_generator (gg_generator g)
     (put_round_state (set_deadline (rs_current_round_deadline rs) (gg_time_service g) (rs_abort_handle rs) rs) m),
   Ok (gg_waited g, r)).

Definition two_chain (m : RM) : bool := config_two_chain (rm_onchain_config m).
Definition decoupled_execution (m : RM) : bool := config_decoupled_execution (rm_onchain_config m).
Definition back_pressure_limit (m : RM) : Z := config_back_pressure_limit (rm_onchain_config m).

(** *** New rounds *)

Definition rm_generate_proposal (new_round_event : NewRoundEvent) : ST RM string ProposalMsg :=
  let! si := on_tree sync_info in
  let! m := st_get in
  let! (waited, r) :=
    on_generator (generate_proposal (bs_inner (rm_block_store m)) (nre_round new_round_event)) in
  (if (waited : bool) then transmit (broadcast (MsgSyncInfo si)) else st_ret ()) ;!
  let! proposal := st_lift r in
  let! signature := on_safety_rules (guarded_sign_proposal proposal) in
  let signed_proposal := new_proposal_from_block_data_and_signature proposal signature in
  let! si' := on_tree sync_info in
  st_ret (mkProposalMsg signed_proposal si').

Definition process_new_round_event (new_round_event : NewRoundEvent) : ST RM string unit :=
  let! m := st_get in
  let! valid := on_proposer_election
    (is_valid_proposer (pg_author (rm_proposal_generator m)) (nre_round new_round_event)) in
  if (valid : bool) then
    let! proposal_msg := rm_generate_proposal new_round_event in
    transmit (broadcast (MsgProposal proposal_msg))
  else st_ret ().

Definition process_certificates : ST RM string unit :=
  let! si := on_tree sync_info in
  let! e := on_round_state (rs_process_certificates si) in
  match e with
  | Some new_round_event => process_new_round_event new_round_event
  | None => st_ret ()
  end.

(** *** Synchronization *)

(** [self.process_certificates().await?; result] *)
Definition then_process_certificates (c : ST RM string unit) : ST RM string unit := λ m,
  match c m with
  | (m, Panic msg) => (m, Panic msg)
  | (m, result) => (process_certificates ;! st_lift result) m
  end.

Definition sync_up (si : SyncInfo) (author : Author) (help_remote : bool) : ST RM string unit :=
  let! local_sync_info := on_tree sync_info in
  (if help_remote && has_newer_certificates local_sync_info si
   then transmit (send_sync_info local_sync_info author) else st_ret ()) ;!
  if has_newer_certificates si local_sync_info then
    let! m := st_get in
    let verifier := es_verifier (rm_epoch_state m) in
    st_lift (SyncInfo_verify si verifier) ;!
    then_process_certificates (on_sync (add_certs current_ts verifier author si))
  else st_ret ().

Definition ensure_round_and_sync_up (message_round : Round) (si : SyncInfo) (author : Author)
    (help_remote : bool) : ST RM string bool :=
  let! m := st_get in
  if message_round <? rs_current_round (rm_round_state m) then st_ret false
  else
    sync_up si author help_remote ;!
    let! m := st_get in
    st_lift (ensure (message_round =? rs_current_round (rm_round_state m))
               "After sync, round doesn't match local") ;!
    st_ret true.

Definition process_sync_info_msg (si : SyncInfo) (peer : Author) : ST RM string unit :=
  let! round := st_lift (ok_or (checked_add (highest_round si) 1) "Operation results in overflow/underflow") in
  st_map_res (context "[RoundManager] Failed to process sync info msg")
    (ensure_round_and_sync_up round si peer false) ;!
  st_ret ().

Definition sync_only : ST RM string bool :=
  let! m := st_get in
  if decoupled_execution m then
    let! commit_root := on_tree commit_root in
    let! ordered_root := on_tree ordered_root in
    st_ret (rm_sync_only m
            || (wrap64 (back_pressure_limit m + eb_round commit_root) <? eb_round ordered_root))
  else st_ret (rm_sync_only m).

(** *** Votes *)

Definition execute_and_vote (proposed_block : Block) : ST RM string Vote :=
  let! executed_block :=
    st_map_res (context "[RoundManager] Failed to execute_and_insert the block")
      (on_block_store (execute_and_insert_block proposed_block)) in
  let! m := st_get in
  st_lift (ensure (bool_decide (rs_vote_sent (rm_round_state m) = None))
             "[RoundManager] Already vote on this round") ;!
  let! stop := sync_only in
  st_lift (ensure (negb stop) "[RoundManager] sync_only flag is set, stop voting") ;!
  let proposal := eb_maybe_signed_vote_proposal executed_block (decoupled_execution m) in
  let! vote :=
    st_map_res (context "[RoundManager] SafetyRules Rejected")
      (if two_chain m
       then on_safety_rules (guarded_construct_and_sign_vote_two_chain current_ts proposal
              (bt_highest_2chain_timeout_cert (bs_inner (rm_block_store m))))
       else on_safety_rules (guarded_construct_and_sign_vote current_ts proposal)) in
  st_map_res (context "[RoundManager] Fail to persist last vote")
    (on_block_store (with_storage (save_vote vote))) ;!
  st_ret vote.

Definition record (vote : Vote) : ST RM string unit :=
  on_round_state (λ s, (record_vote vote s, Ok ())).

Definition process_proposal (proposal : Block) : ST RM string unit :=
  st_lift (expect (b_author proposal) "Proposal should be verified having an author") ;!
  let! valid := on_proposer_election (is_valid_proposal proposal) in
  st_lift (ensure valid "[RoundManager] Proposer for block is not a valid proposer for this round") ;!
  let! m := st_get in
  st_lift (ensure (from_micros (b_timestamp_usecs proposal)
                   <? rs_current_round_deadline (rm_round_state m))
             "[RoundManager] Waiting until proposal block timestamp usecs would exceed the round duration") ;!
  let proposal_round := b_round proposal in
  let! vote := st_map_res (context "[RoundManager] Process proposal") (execute_and_vote proposal) in
  let! recipients := on_proposer_election (get_valid_proposer (wrap64 (proposal_round + 1))) in
  record vote ;!
  let! si := on_tree sync_info in
  transmit (send_vote (mkVoteMsg vote si) [recipients]).

Definition process_proposal_msg (proposal_msg : ProposalMsg) : ST RM string unit :=
  let! author := st_lift (proposer proposal_msg) in
  let! current :=
    st_map_res (context "[RoundManager] Process proposal")
      (ensure_round_and_sync_up (b_round (pm_proposal proposal_msg)) (pm_sync_info proposal_msg) author true) in
  if (current : bool) then process_proposal (pm_proposal proposal_msg)
  else st_lift (Err "Stale proposal").

(** The vote of this round, with the timeout added. *)
Definition add_timeout (vote : Vote) : ST RM string Vote :=
  let! m := st_get in
  if v_is_timeout vote then st_ret vote
  else if two_chain m then
    let t := bs_inner (rm_block_store m) in
    let timeout := generate_2chain_timeout vote (bt_highest_quorum_cert t) in
    let! signature :=
      st_map_res (context "[RoundManager] SafetyRules signs 2-chain timeout")
        (on_safety_rules (guarded_sign_timeout_with_qc timeout (bt_highest_2chain_timeout_cert t))) in
    st_lift (add_2chain_timeout vote timeout signature)
  else
    let! signature :=
      st_map_res (context "[RoundManager] SafetyRules signs timeout")
        (on_safety_rules (guarded_sign_timeout (generate_timeout vote))) in
    st_lift (add_timeout_signature vote signature).

(** The vote to send with a timeout: the one sent before, or one for a NIL block. *)
Definition timeout_vote (round : Round) : ST RM string Vote :=
  let! m := st_get in
  let backup :=
    let! nil_block := on_tree (λ t, generate_nil_block t round) in
    execute_and_vote nil_block in
  match rs_vote_sent (rm_round_state m) with
  | Some vote => if v_round vote =? round then st_ret vote else backup
  | None => backup
  end.

Definition process_local_timeout (round : Round) : ST RM string unit :=
  let! current := on_round_state (rs_process_local_timeout round) in
  if negb current then st_ret () else
  let! stop := sync_only in
  if (stop : bool) then
    let! si := on_tree sync_info in
    transmit (broadcast (MsgSyncInfo si)) ;!
    st_lift (Err "[RoundManager] sync_only flag is set, broadcasting SyncInfo")
  else
    let! vote := timeout_vote round in
    let! vote := add_timeout vote in
    record vote ;!
    let! si := on_tree sync_info in
    transmit (broadcast (MsgVote (mkVoteMsg vote si))) ;!
    on_proposer_election (get_valid_proposer round) ;!
    st_lift (Err "Round timeout, broadcast to all peers").

Definition new_qc_aggregated (qc : QuorumCert) (preferred_peer : Author) : ST RM string unit :=
  let! m := st_get in
  then_process_certificates
    (st_map_res (context "[RoundManager] Failed to process a newly aggregated QC")
       (on_sync (insert_quorum_cert_and_commit current_ts (es_verifier (rm_epoch_state m)) preferred_peer qc))).
Definition new_tc_aggregated (tc : TimeoutCertificate) : ST RM string unit :=
  then_process_certificates
    (st_map_res (context "[RoundManager] Failed to process a newly aggregated TC")
       (on_block_store (insert_timeout_certificate tc))).
Definition new_2chain_tc_aggregated (tc : TwoChainTimeoutCertificate) : ST RM string unit :=
  then_process_certificates
    (st_map_res (context "[RoundManager] Failed to process a newly aggregated 2-chain TC")
       (on_block_store (insert_2chain_timeout_certificate tc))).

Definition process_vote (vote : Vote) : ST RM string unit :=
  let! m := st_get in
  (if v_is_timeout vote then st_ret ()
   else
     let! valid := on_proposer_election
       (is_valid_proposer (pg_author (rm_proposal_generator m)) (wrap64 (v_round vote + 1))) in
     st_lift (ensure valid "[RoundManager] Received vote, but I am not a valid proposer, ignore.")) ;!
  let! known := on_tree (λ t, Ok (get_quorum_cert_for_block t (bi_id (vd_proposed (v_vote_data vote))))) in
  if bool_decide (is_Some known) then st_ret () else
  let! result := on_round_state (λ s,
    let '(s, result) := rs_insert_vote vote (es_verifier (rm_epoch_state m)) s in (s, Ok result)) in
  match result with
  | NewQuorumCertificate qc => new_qc_aggregated qc (v_author vote)
  | NewTimeoutCertificate tc => new_tc_aggregated tc
  | New2ChainTimeoutCertificate tc => new_2chain_tc_aggregated tc
  | ReceptionPanic msg => st_lift (Panic msg)
  | _ => st_ret ()
  end.

Definition process_vote_msg (vote_msg : VoteMsg) : ST RM string unit :=
  let vote := vm_vote vote_msg in
  let! current :=
    st_map_res (context "[RoundManager] Stop processing vote")
      (ensure_round_and_sync_up (v_round vote) (vm_sync_info vote_msg) (v_author vote) true) in
  if (current : bool)
  then st_map_res (context "[RoundManager] Add a new vote") (process_vote vote)
  else st_ret ().

(** *** The loop *)

Definition rm_init (last_vote_sent : option Vote) : ST RM string unit :=
  let! si := on_tree sync_info in
  let! e := on_round_state (rs_process_certificates si) in
  let! new_round_event :=
    st_lift (expect e "Can not jump start a round_state from existing certificates.") in
  match last_vote_sent with Some vote => record vote | None => st_ret () end ;!
  λ m, match process_new_round_event new_round_event m with
       | (m, Err _) => (m, Ok ())
       | result => result
       end.

(** One turn of [start]; an error is logged and the loop goes on.  The answer to a retrieval
    goes back on a channel of the request, and a shutdown ends the loop. *)
Definition process_event (peer_id : Author) (event : VerifiedEvent) : ST RM string unit :=
  match event with
  | VerifiedProposal proposal_msg => process_proposal_msg proposal_msg
  | VerifiedVote vote_msg => process_vote_msg vote_msg
  | UnverifiedSyncInfo si => process_sync_info_msg si peer_id
  | VerifiedBlockRetrieval request =>
      on_tree (λ t, Ok (process_block_retrieval t request)) ;! st_ret ()
  | LocalTimeout round => process_local_timeout round
  | VerifiedCommitVote _ | VerifiedCommitDecision _ => st_lift (Panic "Unexpected event")
  end.
End manager.
