(* ===== verification/RoundManagerFacts.v ===== *)
(** * RoundManagerFacts: what a node that runs the round manager sends

    The votes the round manager sends are votes its safety rules released, so the theorems
    on the safety rules hold for the messages of a node; it proposes once per round; its
    round never goes back and keeps up with the certificates in its store. *)

From S2P Require Import Prelude Crypto Accumulator ValidatorVerifier LedgerTypes EpochChange.
From S2P Require Import AccumulatorProof ConsensusTypes ConsensusMessages SafetyStorage.
From S2P Require Import SafetyRules SafetyRulesSpec SafetyRulesRefine CommitSafety BlockTree BlockStore.
From S2P Require Import BlockRetrieval PendingVotes ProposerElection RoundState.
From S2P Require Import MetricsSafetyRules SyncManager RoundState RoundManager.

(** ** Messages *)

Definition is_vote_or_proposal (x : Recipients * ConsensusMsg) : Prop :=
  match x.2 with MsgVote _ | MsgProposal _ => True | _ => False end.

(** Nothing but other messages was sent. *)
Definition quiet {N} (n n' : NetworkSender N) : Prop :=
  ∃ l, ns_sent n' = ns_sent n ++ l ∧ Forall (λ x, ¬ is_vote_or_proposal x) l.

#[export] Instance quiet_preorder {N} : PreOrder (quiet (N:=N)).
Proof.
  split.
  - intros n. exists []. by rewrite app_nil_r.
  - intros n1 n2 n3 (l & H & Hl) (l' & H' & Hl'). exists (l ++ l'). rewrite H', H, <- app_assoc.
    split; [done|]. by apply Forall_app.
Qed.

Lemma quiet_send {N} to msg (n : NetworkSender N) :
  ¬ is_vote_or_proposal (to, msg) → quiet n (send_msg to msg n).
Proof. intros H. exists [(to, msg)]. split; [done|]. by constructor. Qed.

Lemma quiet_elem {N} (n n' : NetworkSender N) x :
  quiet n n' → is_vote_or_proposal x → x ∈ ns_sent n' → x ∈ ns_sent n.
Proof.
  intros (l & -> & Hl) Hx [?|Hin]%elem_of_app; [done|]. rewrite Forall_forall in Hl. by destruct (Hl x).
Qed.

(** ** Synchronization *)

Section sync.
Context `{HI : HashIter} {C P N : Type} `{SC : StateComputer C} `{PS : PersistentLivenessStorage P}.
Context `{NW : PeerNetwork N} `{CC : ConsensusCrypto} (current_ts : Z) (validators : ValidatorVerifier).
Context (preferred_peer : Author).

Definition quiet_sync (sn sn' : BlockStore C P * NetworkSender N) : Prop := quiet sn.2 sn'.2.
#[export] Instance quiet_sync_preorder : PreOrder quiet_sync.
Proof.
  split.
  - intros sn. apply (reflexivity (R:=quiet)).
  - intros sn1 sn2 sn3 H1 H2. exact (transitivity (R:=quiet) H1 H2).
Qed.

Lemma on_store_quiet {E A} (c : ST (BlockStore C P) E A) : st_within quiet_sync (on_store (N:=N) c).
Proof. intros sn. unfold on_store, st_zoom. destruct (c sn.1). apply (reflexivity (R:=quiet)). Qed.

Lemma sending_quiet {E} f : (∀ n, quiet n (f n)) → st_within quiet_sync (sending (E:=E) f).
Proof. intros Hf sn. apply Hf. Qed.

Lemma retrieve_quiet qc num target :
  st_within quiet (retrieve_block_for_qc (N:=NetworkSender N) current_ts validators preferred_peer qc num target).
Proof.
  apply retrieve_within; [apply _| |].
  - intros p r. eapply (st_within_zoom _ (λ _ _, True)); [done|]. intros n n' _. exists [].
    by rewrite app_nil_r.
  - intros k n. simpl. destruct (gen_range k (ns_peers n)). exists []. by rewrite app_nil_r.
Qed.

Lemma on_network_quiet {E A} (c : ST (NetworkSender N) E A) :
  st_within quiet c → st_within quiet_sync (on_network (C:=C) (P:=P) c).
Proof. intros Hc. eapply st_within_zoom; [exact Hc|]. done. Qed.

Lemma fetch_chain_quiet fuel t qc l :
  st_within quiet (fetch_chain (N:=N) current_ts validators preferred_peer fuel t qc l).
Proof.
  revert qc l. induction fuel as [|fuel IH]; intros qc l; simpl; st_steps;
    [apply retrieve_quiet|apply IH].
Qed.

Lemma insert_cert_quiet qc :
  st_within quiet_sync (insert_quorum_cert_and_commit current_ts validators preferred_peer qc).
Proof.
  unfold insert_quorum_cert_and_commit, fetch_quorum_cert. st_steps;
    try apply on_store_quiet; try (apply sending_quiet; intros n; apply quiet_send; intros []).
  apply on_network_quiet, fetch_chain_quiet.
Qed.

Lemma add_certs_quiet si : st_within quiet_sync (add_certs current_ts validators preferred_peer si).
Proof.
  unfold add_certs, sync_to_highest_commit_cert, sync_to_highest_ordered_cert, fast_forward_sync.
  st_steps; try apply on_store_quiet; try apply insert_cert_quiet;
    try (apply sending_quiet; intros n; apply quiet_send; intros []).
  apply on_network_quiet, retrieve_quiet.
Qed.
End sync.

(** ** Certificates *)

(** The certificates in a tree that a round may follow. *)
Definition cert_view (t : BlockTree) :=
  (bt_highest_quorum_cert t, bt_highest_ordered_cert t, bt_highest_timeout_cert t,
   bt_highest_2chain_timeout_cert t).

Lemma sync_info_view t t' si :
  cert_view t' = cert_view t → sync_info (E:=string) t' = Ok si →
  ∃ si', sync_info (E:=string) t = Ok si' ∧ highest_round si' = highest_round si
    ∧ highest_certified_round si' = highest_certified_round si.
Proof.
  intros [= H1 H2 H3 H4]. unfold sync_info, SyncInfo_new_decoupled. rewrite H1, H2, H3, H4.
  destruct (_ || _); [|done]. intros [= <-]. by eexists.
Qed.

(** ** Steps of the round manager *)

Section manager.
Context `{CC : ConsensusCrypto} `{HI : HashIter}.
Context {C P I T L M N S : Type} `{SC : StateComputer C} `{PS : PersistentLivenessStorage P}.
Context `{TI : RoundTimeInterval I} `{TS : TimeService T} `{PE : ProposerElection L}.
Context `{TM : TxnManager M} `{NW : PeerNetwork N} `{KV : KVStorage S} `{CS : CryptoStorage S}.
Local Abbreviation RM := (RoundManager C P I T L M N S).
Context (current_ts : Z) (init_fuel : nat).

(** The round state may move to a later round, where nothing was voted for. *)
Definition round_moves (s s' : RoundState I T) : Prop :=
  rs_current_round s ≤ rs_current_round s'
  ∧ (rs_vote_sent s' = rs_vote_sent s ∨ rs_vote_sent s' = None)
  ∧ (rs_pending_votes s' = rs_pending_votes s ∨ rs_pending_votes s' = PendingVotes_new).

(** The certificates of the store stay. *)
Definition certs_same (s s' : BlockStore C P) : Prop := cert_view (bs_inner s') = cert_view (bs_inner s).
#[export] Instance certs_same_preorder : PreOrder certs_same.
Proof. split; [by intros s|]. intros s1 s2 s3 H1 H2. unfold certs_same in *. congruence. Qed.

(** A relation between states that reads, elections and new rounds stay in. *)
Class Frame (R : RM → RM → Prop) := {
  frame_preorder :: PreOrder R;
  frame_store m s : bs_inner s = bs_inner (rm_block_store m) → R m (put_block_store s m);
  frame_round m s : round_moves (rm_round_state m) s → R m (put_round_state s m);
  frame_election m e : R m (put_proposer_election e m);
}.

Section frame.
Context (R : RM → RM → Prop) `{!Frame R}.

Lemma on_tree_within {A} (f : BlockTree → Result string A) : st_within R (on_tree f).
Proof. intros m. by apply frame_store. Qed.
Lemma on_proposer_election_within {A} (c : ST L string A) : st_within R (on_proposer_election c).
Proof. intros m. unfold on_proposer_election, st_zoom. destruct (c _). apply frame_election. Qed.
Lemma on_round_state_within {A} (c : ST (RoundState I T) string A) :
  st_within round_moves c → st_within R (on_round_state c).
Proof. intros Hc. eapply st_within_zoom; [exact Hc|]. intros m s. apply frame_round. Qed.
End frame.

#[export] Instance round_moves_preorder : PreOrder round_moves.
Proof.
  split.
  - intros s. split_and!; [done|by left..].
  - intros s1 s2 s3 (Hle & H & Hp) (Hle' & H' & Hp'). split_and!; [lia|..].
    + destruct H' as [->|]; auto.
    + destruct Hp' as [->|]; auto.
Qed.

Lemma setup_timeout_within : st_within round_moves setup_timeout.
Proof.
  unfold setup_timeout. st_steps.
  - intros s. unfold setup_deadline. destruct (get_current_timestamp _) as [ts n].
    destruct (duration_add _ _); [split_and!; [done|by left..]|done..].
  - intros s. destruct (run_after _ _ _). split_and!; [done|by left..].
Qed.

Lemma local_timeout_within round : st_within round_moves (rs_process_local_timeout round).
Proof. unfold rs_process_local_timeout. st_steps. apply setup_timeout_within. Qed.

Lemma rs_certificates_within si : st_within round_moves (rs_process_certificates si).
Proof.
  intros s. unfold rs_process_certificates. unfold st_bind at 1, st_get.
  destruct (Z.ltb_spec (rs_current_round s) (wrap64 (highest_round si + 1))).
  - unfold st_bind at 1, st_put. set (s1 := set_vote_sent _ _).
    assert (H1 : round_moves s s1) by (split_and!; [simpl; lia|by right..]).
    etrans; [exact H1|]. revert s1 H1. intros s1 _. unfold st_bind.
    pose proof (setup_timeout_within s1). by destruct (setup_timeout s1) as [? []].
  - split_and!; [done|by left..].
Qed.

(** Executing and inserting a block changes no certificate. *)
Lemma with_storage_certs {E A} (c : ST P E A) : st_within certs_same (with_storage (C:=C) c).
Proof. eapply (st_within_zoom _ (λ _ _, True)); done. Qed.
Lemma execute_block_certs b : st_within certs_same (execute_block (P:=P) (C:=C) b).
Proof.
  unfold execute_block. st_steps. unfold with_computer. eapply (st_within_zoom _ (λ _ _, True)); done.
Qed.

Lemma execute_and_insert_certs b : st_within certs_same (execute_and_insert_block (C:=C) (P:=P) b).
Proof.
  assert (Hr : ∀ bs, st_within certs_same (reexecute_blocks (C:=C) (P:=P) bs)).
  { induction bs as [|x bs IH]; simpl; st_steps; [apply execute_block_certs|done]. }
  unfold execute_and_insert_block. st_steps; try (intros s; reflexivity); try apply with_storage_certs.
  - intros s. unfold execute_or_recover. pose proof (execute_block_certs b s) as H.
    destruct (execute_block b s) as [s1 [eb|[]|m]]; try done. simpl in H. etrans; [exact H|].
    revert s1 H. intros s1 _. generalize s1. apply st_within_bind; [apply _|by intros ?|intros path].
    st_steps; [apply Hr|apply execute_block_certs].
  - unfold writing. eapply (st_within_zoom _ (λ t t', cert_view t' = cert_view t)); [|done].
    intros t. unfold insert_block, st_bind. repeat case_match; simplify_eq; done.
Qed.

(** ** The round never goes back *)

(** A relation that every step stays in that does not make a proposal and brings no
    certificate into the store. *)
Class FullFrame (R : RM → RM → Prop) := {
  full_frame :: Frame R;
  full_insert m s : certs_same (rm_block_store m) s → R m (put_block_store s m);
  full_rules m r : R m (put_safety_rules r m);
  full_vote m vote : R m (put_round_state (record_vote vote (rm_round_state m)) m);
  full_pending m votes : R m (put_round_state (set_pending_votes votes (rm_round_state m)) m);
  full_send m to msg : (∀ p, msg ≠ MsgProposal p) → R m (put_network (send_msg to msg (rm_network m)) m);
  full_quiet m n : quiet (rm_network m) n → R m (put_network n m);
}.

Section full.
Context (R : RM → RM → Prop) `{!FullFrame R}.

Lemma on_block_store_within {A} (c : ST (BlockStore C P) string A) :
  st_within certs_same c → st_within R (on_block_store c).
Proof. intros Hc. eapply st_within_zoom; [exact Hc|]. intros m s. apply full_insert. Qed.

Lemma on_safety_rules_within {A} (c : ST (SafetyRules S) SafetyError A) :
  st_within R (on_safety_rules init_fuel c).
Proof.
  unfold on_safety_rules. st_steps. intros m. unfold st_zoom. destruct (retry _ _ _) as [r res].
  simpl. trans (put_block_store (put_storage (msr_storage r) (rm_block_store m)) m);
    [by apply frame_store|apply full_rules].
Qed.

Lemma transmit_within to msg : (∀ p, msg ≠ MsgProposal p) → st_within R (transmit (send_msg to msg)).
Proof. intros Hmsg m. by apply full_send. Qed.

Lemma record_within vote : st_within R (record vote).
Proof. intros m. apply full_vote. Qed.

Lemma sync_only_within : st_within R sync_only.
Proof. unfold sync_only. st_steps; apply on_tree_within, _. Qed.

Lemma execute_and_vote_within b : st_within R (execute_and_vote current_ts init_fuel b).
Proof.
  unfold execute_and_vote. st_steps; try apply sync_only_within; try apply on_safety_rules_within;
    apply on_block_store_within; try apply _; [apply execute_and_insert_certs|apply with_storage_certs].
Qed.

Lemma process_proposal_within b : st_within R (process_proposal current_ts init_fuel b).
Proof.
  unfold process_proposal. st_steps; try apply on_proposer_election_within; try apply execute_and_vote_within;
    try apply record_within; try apply on_tree_within; try (apply transmit_within; intros ?; discriminate); apply _.
Qed.

Lemma process_local_timeout_within round : st_within R (process_local_timeout current_ts init_fuel round).
Proof.
  unfold process_local_timeout, timeout_vote, add_timeout. st_steps;
    try apply on_proposer_election_within; try apply execute_and_vote_within; try apply sync_only_within;
    try apply record_within; try apply on_tree_within; try (apply transmit_within; intros ?; discriminate);
    try apply on_safety_rules_within; try apply _.
  apply on_round_state_within; [apply _|]. apply local_timeout_within.
Qed.

Lemma insert_vote_within vote vv : st_within R (on_round_state (λ s,
  let '(s, result) := rs_insert_vote vote vv s in (s, Ok result))).
Proof.
  intros m. unfold on_round_state, st_zoom, rs_insert_vote.
  destruct (v_round vote =? rs_current_round (rm_round_state m)); [destruct (insert_vote _ _ _)|].
  - apply full_pending.
  - by apply frame_round.
Qed.

(** The other handlers bring certificates into the store, and may start a round. *)
Context (Hnew : ∀ e, st_within R (process_new_round_event init_fuel e)).

Lemma certificates_within : st_within R (process_certificates init_fuel).
Proof.
  unfold process_certificates. st_steps.
  - apply on_tree_within, _.
  - apply on_round_state_within; [apply _|]. apply rs_certificates_within.
  - apply Hnew.
Qed.

Context (Hstore : ∀ m s, R m (put_block_store s m)).

Lemma any_store_within {A} (c : ST (BlockStore C P) string A) : st_within R (on_block_store c).
Proof. intros m. unfold on_block_store, st_zoom. destruct (c _). apply Hstore. Qed.
Lemma on_sync_within {A} (c : ST (BlockStore C P * NetworkSender N) string A) :
  st_within quiet_sync c → st_within R (on_sync c).
Proof.
  intros Hc m. specialize (Hc (rm_block_store m, rm_network m)). unfold on_sync, st_zoom.
  destruct (c _) as [[s n] r]. simpl in *. etrans; [by apply full_quiet|apply Hstore].
Qed.

Lemma then_certificates_within c :
  st_within R c → st_within R (then_process_certificates init_fuel c).
Proof.
  intros Hc m. specialize (Hc m). unfold then_process_certificates.
  destruct (c m) as [m1 [a|e|x]]; simpl in Hc; [..|done]; (etrans; [exact Hc|]);
    apply st_within_bind; try apply certificates_within; try apply _; intros; apply st_within_lift, _.
Qed.

Lemma ensure_round_within round si author help :
  st_within R (ensure_round_and_sync_up current_ts init_fuel round si author help).
Proof.
  unfold ensure_round_and_sync_up, sync_up. st_steps; try apply on_tree_within; try (apply transmit_within; intros ?; discriminate);
    try apply _.
  apply then_certificates_within, on_sync_within, add_certs_quiet.
Qed.

Lemma process_vote_within vote : st_within R (process_vote current_ts init_fuel vote).
Proof.
  unfold process_vote, new_qc_aggregated, new_tc_aggregated, new_2chain_tc_aggregated. st_steps;
    try apply then_certificates_within; st_steps; try apply on_proposer_election_within;
    try apply on_tree_within; try apply any_store_within; try apply on_sync_within, insert_cert_quiet;
    try apply insert_vote_within; apply _.
Qed.

Lemma process_event_within peer event : st_within R (process_event current_ts init_fuel peer event).
Proof.
  destruct event; simpl.
  - unfold process_proposal_msg. st_steps; [apply ensure_round_within|apply process_proposal_within].
  - unfold process_vote_msg. st_steps; [apply ensure_round_within|apply process_vote_within].
  - unfold process_sync_info_msg. st_steps. apply ensure_round_within.
  - st_steps.
  - st_steps.
  - st_steps. apply on_tree_within, _.
  - apply process_local_timeout_within.
Qed.
End full.

(** A new round, for relations that proposals stay in as well. *)
Lemma new_round_event_within (R : RM → RM → Prop) `{!FullFrame R} e :
  (∀ m g, R m (put_proposal_generator g m)) → (∀ m n, R m (put_network n m)) →
  st_within R (process_new_round_event init_fuel e).
Proof.
  intros Hgen Hnet. unfold process_new_round_event, rm_generate_proposal. st_steps;
    try apply on_proposer_election_within; try apply on_tree_within; try apply on_safety_rules_within;
    try (intros m; apply Hnet); try apply _.
  intros m. unfold on_generator. destruct (generate_proposal _ _ _) as [g r]. simpl. etrans; [|apply Hgen].
  apply frame_round. split_and!; [done|by left..].
Qed.

Definition round_le (m m' : RM) : Prop :=
  rs_current_round (rm_round_state m) ≤ rs_current_round (rm_round_state m')
  ∧ rm_epoch_state m' = rm_epoch_state m ∧ rm_onchain_config m' = rm_onchain_config m.

#[export] Instance round_le_frame : FullFrame round_le.
Proof.
  split; [split|..]; try (intros; split_and!; simpl; done).
  - split; [by intros m|]. intros m1 m2 m3 (? & ? & ?) (? & ? & ?). split_and!; [lia|congruence..].
  - intros m s (Hle & _). by split_and!.
  - intros m vote. split_and!; [|done..]. simpl. unfold record_vote. by case_match.
Qed.

(** ** The round keeps up with the certificates *)

(** The round is past every certificate in the store. *)
Definition in_step (m : RM) : Prop :=
  ∀ si, sync_info (E:=string) (bs_inner (rm_block_store m)) = Ok si →
    wrap64 (highest_round si + 1) ≤ rs_current_round (rm_round_state m).

Definition step_le (m m' : RM) : Prop :=
  certs_same (rm_block_store m) (rm_block_store m')
  ∧ rs_current_round (rm_round_state m) ≤ rs_current_round (rm_round_state m').

#[export] Instance step_le_frame : FullFrame step_le.
Proof.
  split; [split|..]; try (intros; split; simpl; done).
  - split; [by intros m|]. intros m1 m2 m3 [H1 ?] [H2 ?]. split; [by etrans|lia].
  - intros m s Hs. split; [|done]. unfold certs_same. simpl. by rewrite Hs.
  - by intros m s (Hle & _).
  - intros m vote. split; [done|]. simpl. unfold record_vote. by case_match.
Qed.

Lemma step_le_in_step m m' : step_le m m' → in_step m → in_step m'.
Proof.
  intros [Hc Hle] H si Hsi. destruct (sync_info_view _ _ _ Hc Hsi) as (si' & Hsi' & Hr & _).
  specialize (H si' Hsi'). rewrite Hr in H. lia.
Qed.

(** Unless the process stops, the property holds after. *)
Definition keeps {A} (Q : RM → Prop) (c : ST RM string A) : Prop :=
  ∀ m, Q m → match c m with (_, Panic _) => True | (m', _) => Q m' end.

Lemma keeps_bind {A B} Q (c : ST RM string A) (f : A → ST RM string B) :
  keeps Q c → (∀ a, keeps Q (f a)) → keeps Q (st_bind c f).
Proof. intros Hc Hf m Hm. specialize (Hc m Hm). unfold st_bind. destruct (c m) as [m1 []]; auto. by apply Hf. Qed.
Lemma keeps_map_res {A B} Q (f : Result string A → Result string B) (c : ST RM string A) :
  (∀ x, ∃ y, f (Panic x) = Panic y) → keeps Q c → keeps Q (st_map_res f c).
Proof.
  intros Hf Hc m Hm. specialize (Hc m Hm). unfold st_map_res. destruct (c m) as [m' [a|e|x]].
  - by destruct (f (Ok a)).
  - by destruct (f (Err e)).
  - by destruct (Hf x) as [y ->].
Qed.
Lemma keeps_in_step {A} (c : ST RM string A) : st_within step_le c → keeps in_step c.
Proof.
  intros Hc m Hm. specialize (Hc m). destruct (c m) as [m' r].
  pose proof (step_le_in_step _ _ Hc Hm). by destruct r.
Qed.

(** Whatever becomes of the timer. *)
Lemma rs_certificates_round si (s : RoundState I T) :
  wrap64 (highest_round si + 1) ≤ rs_current_round (rs_process_certificates si s).1.
Proof.
  unfold rs_process_certificates. unfold st_bind at 1, st_get.
  destruct (Z.ltb_spec (rs_current_round s) (wrap64 (highest_round si + 1))).
  - unfold st_bind at 1, st_put. set (s1 := set_vote_sent _ _). unfold st_bind.
    pose proof (setup_timeout_within s1) as [Hle _].
    destruct (setup_timeout s1) as [s2 [d|e|x]]; simpl in *; done.
  - unfold st_bind, st_put. simpl. lia.
Qed.

(** Whatever was done to the store, [process_certificates] catches up. *)
Lemma certificates_in_step m :
  match process_certificates init_fuel m with (_, Panic _) => True | (m', _) => in_step m' end.
Proof.
  unfold process_certificates. unfold st_bind at 1, on_tree at 1, on_block_store at 1, st_zoom at 1, reading.
  destruct (sync_info (bs_inner (rm_block_store m))) as [si|e|x] eqn:Hsi; [| |done].
  2: { intros si. simpl. by rewrite Hsi. }
  unfold st_bind at 1, on_round_state, st_zoom.
  pose proof (rs_certificates_round si (rm_round_state m)) as Hr. simpl.
  destruct (rs_process_certificates si (rm_round_state m)) as [s [e|e|x]]; [| |done].
  - assert (Hin : in_step (put_round_state s (put_block_store (rm_block_store m) m))).
    { intros si'. simpl. rewrite Hsi. by intros [= <-]. }
    destruct e as [e|]; [|done].
    refine (keeps_in_step _ (new_round_event_within step_le e _ _) _ Hin); by intros; split.
  - intros si'. simpl. rewrite Hsi. by intros [= <-].
Qed.

(** And the round is past those of the certificates even if the node stops there. *)
Lemma certificates_round (m : RM) si :
  sync_info (E:=string) (bs_inner (rm_block_store m)) = Ok si →
  wrap64 (highest_round si + 1) ≤ rs_current_round (rm_round_state (process_certificates init_fuel m).1).
Proof.
  intros Hsi. unfold process_certificates. unfold st_bind at 1, on_tree at 1, on_block_store at 1, st_zoom at 1, reading.
  rewrite Hsi. unfold st_bind at 1, on_round_state, st_zoom.
  pose proof (rs_certificates_round si (rm_round_state m)) as Hr. simpl.
  destruct (rs_process_certificates si (rm_round_state m)) as [s [[e|]|e|x]]; simpl in *; try done.
  assert (Hle : st_within step_le (process_new_round_event init_fuel e)).
  { apply new_round_event_within; [apply _|by intros; split..]. }
  set (m1 := put_round_state s _). destruct (Hle m1) as [_ H]. simpl in *. lia.
Qed.

Lemma then_certificates_in_step c : keeps in_step (then_process_certificates init_fuel c).
Proof.
  intros m _. unfold then_process_certificates. destruct (c m) as [m1 [a|e|x]]; [..|done].
  all: unfold st_bind; pose proof (certificates_in_step m1) as H;
    by destruct (process_certificates init_fuel m1) as [m2 [[]|e'|x]].
Qed.

Lemma ensure_round_in_step round si author help :
  keeps in_step (ensure_round_and_sync_up current_ts init_fuel round si author help).
Proof.
  unfold ensure_round_and_sync_up, sync_up. apply keeps_bind; [by intros m|intros m].
  destruct (_ <? _); [by apply keeps_in_step, st_within_ret, _|].
  apply keeps_bind; [|intros _; apply keeps_in_step; st_steps].
  apply keeps_bind; [apply keeps_in_step, on_tree_within, _|intros local].
  apply keeps_bind; [apply keeps_in_step; st_steps; by apply transmit_within; [apply _|]|intros _].
  destruct (has_newer_certificates _ _); [|by apply keeps_in_step, st_within_ret, _].
  apply keeps_bind; [by intros m'|intros m'].
  apply keeps_bind; [by apply keeps_in_step, st_within_lift, _|intros _]. apply then_certificates_in_step.
Qed.

Lemma process_vote_in_step vote : keeps in_step (process_vote current_ts init_fuel vote).
Proof.
  unfold process_vote. apply keeps_bind; [by intros m|intros m].
  apply keeps_bind; [apply keeps_in_step; st_steps; apply on_proposer_election_within, _|intros _].
  apply keeps_bind; [apply keeps_in_step, on_tree_within, _|intros known].
  destruct (bool_decide _); [by apply keeps_in_step, st_within_ret, _|].
  apply keeps_bind; [apply keeps_in_step, insert_vote_within, _|intros res].
  destruct res; try solve [apply keeps_in_step; st_steps]; unfold new_qc_aggregated.
  1: apply keeps_bind; [by intros m'|intros m'].
  all: apply then_certificates_in_step.
Qed.

Lemma process_event_in_step peer event : keeps in_step (process_event current_ts init_fuel peer event).
Proof.
  assert (Hctx : ∀ A msg (x : string), ∃ y, context (A:=A) msg (Panic x) = Panic y) by (by eexists).
  destruct event; simpl.
  - unfold process_proposal_msg. apply keeps_bind; [by apply keeps_in_step, st_within_lift, _|intros a].
    apply keeps_bind; [apply keeps_map_res; [apply Hctx|apply ensure_round_in_step]|intros []].
    + apply keeps_in_step, process_proposal_within, _.
    + by apply keeps_in_step, st_within_lift, _.
  - unfold process_vote_msg.
    apply keeps_bind; [apply keeps_map_res; [apply Hctx|apply ensure_round_in_step]|intros []].
    + apply keeps_map_res; [apply Hctx|apply process_vote_in_step].
    + by apply keeps_in_step, st_within_ret, _.
  - unfold process_sync_info_msg. apply keeps_bind; [by apply keeps_in_step, st_within_lift, _|intros a].
    apply keeps_bind; [apply keeps_map_res; [apply Hctx|apply ensure_round_in_step]|intros b].
    by apply keeps_in_step, st_within_ret, _.
  - apply keeps_in_step. st_steps.
  - apply keeps_in_step. st_steps.
  - apply keeps_in_step. st_steps. apply on_tree_within, _.
  - apply keeps_in_step, process_local_timeout_within, _.
Qed.

(** Neither a commit nor its callback changes a certificate. *)
Lemma commit_certs_same li : st_within certs_same (commit (C:=C) (P:=P) li).
Proof.
  unfold commit. cbv zeta. st_steps; try (intros s; reflexivity).
  - unfold with_computer. eapply (st_within_zoom _ (λ _ _, True)); done.
  - unfold writing. eapply (st_within_zoom _ (λ t t', cert_view t' = cert_view t)); [|done].
    intros t. unfold update_ordered_root. by destruct (block_exists t _).
Qed.

Lemma run_callback_certs n : st_within certs_same (run_callback (C:=C) (P:=P) n).
Proof.
  assert (Hfront : ∀ k t, cert_view (remove_front k t) = cert_view t).
  { induction k as [|k IH]; intros t; simpl; [done|]. destruct (bt_pruned_block_ids t); by rewrite IH. }
  assert (Hpruned : ∀ l t, cert_view (process_pruned_blocks l t) = cert_view t).
  { intros l t. unfold process_pruned_blocks. destruct (_ <? _)%nat; [|done]. by rewrite Hfront. }
  assert (Hcb : ∀ bs li, st_within (λ t t', cert_view t' = cert_view t) (commit_callback bs li)).
  { intros bs li t. unfold commit_callback. unfold st_bind at 1, st_lift.
    destruct (expect _ _); [|done..]. unfold st_bind at 1, st_get. unfold st_bind at 1.
    destruct (commit_root t); [|done..]. unfold st_bind at 1. destruct (find_blocks_to_prune _ _) as [l|?|?]; [|done..].
    unfold st_bind at 1, st_put. unfold st_bind, update_highest_ledger_info, update_commit_root.
    repeat case_match; simplify_eq; simpl; apply Hpruned. }
  intros s. unfold run_callback. unfold st_bind at 1, st_get. destruct (last _) as [[bs li]|]; [|done].
  unfold st_bind at 1, st_put. unfold st_bind at 1, writing, st_zoom. simpl.
  pose proof (Hcb (concat (take n (bs_callbacks s)).*1) li (bs_inner s)) as H.
  destruct (commit_callback _ _ _) as [t [l|e|x]]; simpl in *; [|done..]. by destruct (prune_tree _ _).
Qed.
End manager.
