(* ===== verification/NodeVotes.v ===== *)
(** * NodeVotes: the votes and proposals a node sends

    The votes the round manager sends, directly or with a timeout, are votes that a run of
    its safety rules released: what is proved of the safety rules holds for the messages of
    a node.  The proposals it sends are for increasing rounds in which it was elected. *)

From S2P Require Import Prelude Crypto Accumulator ValidatorVerifier LedgerTypes EpochChange.
From S2P Require Import AccumulatorProof ConsensusTypes ConsensusMessages SafetyStorage.
From S2P Require Import SafetyRules SafetyRulesSpec SafetyRulesRefine CommitSafety BlockTree BlockStore.
From S2P Require Import BlockRetrieval PendingVotes ProposerElection RoundState.
From S2P Require Import MetricsSafetyRules SyncManager RoundState RoundManager RoundManagerFacts.

(** The same vote, up to the timeout that is added to it. *)
Definition same_vote (v w : Vote) : Prop :=
  v_vote_data v = v_vote_data w ∧ v_author v = v_author w
  ∧ v_ledger_info v = v_ledger_info w ∧ v_signature v = v_signature w.

Definition released_vote (h : list Event) (v : Vote) : Prop :=
  ∃ w, EvVote w ∈ h ∧ same_vote w v.

Lemma released_vote_mono h h' v : released_vote h v → h ⊆ h' → released_vote h' v.
Proof. intros (w & Hw & Hs) Hsub. exists w. split; [by apply Hsub|done]. Qed.

Lemma released_vote_same h v w : released_vote h v → same_vote v w → released_vote h w.
Proof.
  intros (u & Hu & H1 & H2 & H3 & H4) (G1 & G2 & G3 & G4). exists u. split; [done|].
  split_and!; congruence.
Qed.

Section votes.
Context `{CC : ConsensusCrypto} `{HI : HashIter}.
Context {C P I T L M N S : Type} `{SC : StateComputer C} `{PS : PersistentLivenessStorage P}.
Context `{TI : RoundTimeInterval I} `{TS : TimeService T} `{PE : ProposerElection L}.
Context `{TM : TxnManager M} `{NW : PeerNetwork N} `{KV : KVStorage S} `{CS : CryptoStorage S}.
Local Abbreviation RM := (RoundManager C P I T L M N S).
Context (current_ts : Z) (init_fuel : nat).

(** ** Calls of the safety rules *)

Context {KL : KVLaws S} (vvs : Z → ValidatorVerifier) (r0 : SafetyRules S).
Local Abbreviation run := (node_run vvs (λ _, True) r0).

(** What the epoch change proofs in the storage install is what they are trusted for. *)
Definition trusted_storage : Prop :=
  ∀ h r version (p p' : P) proof r' res, run h r →
    retrieve_epoch_change_proof version p = (p', Ok proof) → guarded_initialize proof r = (r', res) →
    (∀ es, sr_epoch_state r' = Some es → es_verifier es = vvs (es_epoch es)) ∧
    (pss_view (sr_persistent_storage r') = pss_view (sr_persistent_storage r) ∨
     sr_epoch_state r' ≠ sr_epoch_state r).
Context (Htrust : trusted_storage).

Lemma initialize_loop_run fuel version (m m' : MetricsSafetyRules S P) res h :
  run h (msr_inner m) → initialize_loop fuel version m = (m', res) → run h (msr_inner m').
Proof.
  revert version m. induction fuel as [|fuel IH]; intros version m Hrun; simpl; [by intros [= <- _]|].
  unfold st_bind at 1, st_map_res, with_liveness_storage, st_zoom.
  destruct (retrieve_epoch_change_proof version (msr_storage m)) as [p [proof|e|x]] eqn:Hp; simpl;
    [|by intros [= <- _]..].
  unfold with_inner, st_zoom. simpl.
  destruct (guarded_initialize proof (msr_inner m)) as [r x] eqn:Hini.
  assert (Hr : run h r).
  { destruct (Htrust _ _ _ _ _ _ _ _ Hrun Hp Hini). by eapply nrun_initialize. }
  assert (Hend : run h (msr_inner (mkMetricsSafetyRules r p))) by done.
  destruct x as [[]|[]|x]; try (intros [= <- _]; exact Hend).
  destruct (_ <? _); [|intros [= <- _]; exact Hend]. by apply IH.
Qed.

(** The messages of a call of the interface, read off its value. *)
Definition call_of {A} (call : Call) (c : ST (SafetyRules S) SafetyError A) (evs : A → list Event) : Prop :=
  ∀ r, run_call call r = ((c r).1, r_map evs (c r).2).

Ltac solve_call := intros r; simpl; unfold st_bind, st_ret; repeat case_match; simplify_eq; done.

Lemma vote_call ts d : call_of (CallVote ts d) (guarded_construct_and_sign_vote ts d) (λ v, [EvVote v]).
Proof. solve_call. Qed.
Lemma vote2_call ts d tc :
  call_of (CallVote2 ts d tc) (guarded_construct_and_sign_vote_two_chain ts d tc) (λ v, [EvVote v]).
Proof. solve_call. Qed.
Lemma timeout_call t : call_of (CallTimeout t) (guarded_sign_timeout t) (λ _, [EvTimeout t]).
Proof. solve_call. Qed.
Lemma timeout2_call t tc :
  call_of (CallTimeout2 t tc) (guarded_sign_timeout_with_qc t tc) (λ _, [EvTimeout2 (tct_signing_format t)]).
Proof. solve_call. Qed.
Lemma proposal_call d : call_of (CallProposal d) (guarded_sign_proposal d) (λ _, [EvProposal d]).
Proof. solve_call. Qed.
Lemma consensus_state_call : call_of CallConsensusState guarded_consensus_state (λ _, []).
Proof. solve_call. Qed.

Lemma call_run {A} call (c : ST (SafetyRules S) SafetyError A) evs (m m' : MetricsSafetyRules S P) res h :
  call_of call c evs → run h (msr_inner m) → with_inner c m = (m', res) →
  run (h ++ released (r_map evs res)) (msr_inner m').
Proof.
  intros Hcall Hrun. unfold with_inner, st_zoom. specialize (Hcall (msr_inner m)).
  destruct (c (msr_inner m)) as [r x]. intros [= <- <-]. simpl in *.
  eapply nrun_call; [exact Hrun|done|exact Hcall|by right].
Qed.

Lemma retry_run {A} call (c : ST (SafetyRules S) SafetyError A) evs (m m' : MetricsSafetyRules S P) res h :
  call_of call c evs → run h (msr_inner m) → retry init_fuel c m = (m', res) →
  ∃ h', run (h ++ h') (msr_inner m') ∧ ∀ a, res = Ok a → evs a ⊆ h ++ h'.
Proof.
  intros Hcall Hrun. unfold retry. destruct (with_inner c m) as [m1 x] eqn:Hx.
  pose proof (call_run _ _ _ _ _ _ _ Hcall Hrun Hx) as Hrun1.
  assert (Hdone : (m1, x) = (m', res) →
    ∃ h', run (h ++ h') (msr_inner m') ∧ ∀ a, res = Ok a → evs a ⊆ h ++ h').
  { intros [= <- <-]. eexists. split; [exact Hrun1|]. intros a ->. simpl. set_solver. }
  assert (Hagain : (perform_initialize init_fuel ;! with_inner c) m1 = (m', res) → released (r_map evs x) = [] →
    ∃ h', run (h ++ h') (msr_inner m') ∧ ∀ a, res = Ok a → evs a ⊆ h ++ h').
  { intros Hi Hx'. rewrite Hx', app_nil_r in Hrun1. unfold perform_initialize, st_bind at 1 2 in Hi.
    destruct (with_inner guarded_consensus_state m1) as [m2 y] eqn:Hy.
    pose proof (call_run _ _ _ _ _ _ _ consensus_state_call Hrun1 Hy) as Hrun2.
    assert (Hnil : released (r_map (λ _ : ConsensusState, []) y) = []) by (by destruct y).
    rewrite Hnil, app_nil_r in Hrun2.
    destruct y as [cs|e|msg]; [|injection Hi as <- <-; exists []; rewrite app_nil_r; done..].
    destruct (initialize_loop _ _ m2) as [m3 z] eqn:Hz.
    pose proof (initialize_loop_run _ _ _ _ _ _ Hrun2 Hz) as Hrun3.
    destruct z as [[]|e|msg]; [|injection Hi as <- <-; exists []; rewrite app_nil_r; done..].
    pose proof (call_run _ _ _ _ _ _ _ Hcall Hrun3 Hi) as Hrun4.
    eexists. split; [exact Hrun4|]. intros a ->. simpl. set_solver. }
  destruct x as [a|[]|msg]; try exact Hdone; intros Hi; by apply Hagain.
Qed.

(** ** The votes of a node *)

(** Every vote sent, and the vote kept for a timeout, was released. *)
Definition votes_released (h : list Event) (m : RM) : Prop :=
  (∀ to vm, (to, MsgVote vm) ∈ ns_sent (rm_network m) → released_vote h (vm_vote vm))
  ∧ (∀ v, rs_vote_sent (rm_round_state m) = Some v → released_vote h v).

(** [F] is what is known of the history besides. *)
Definition votes_inv (F : list Event → Prop) (m : RM) : Prop :=
  ∃ h, run h (rm_safety_rules m) ∧ votes_released h m ∧ F h.
Definition grows (F : list Event → Prop) : Prop := ∀ h h', F h → F (h ++ h').

(** The safety rules are not called, no vote is sent or kept. *)
Definition no_vote (m m' : RM) : Prop :=
  rm_safety_rules m' = rm_safety_rules m
  ∧ (∀ to vm, (to, MsgVote vm) ∈ ns_sent (rm_network m') → (to, MsgVote vm) ∈ ns_sent (rm_network m))
  ∧ (rs_vote_sent (rm_round_state m') = rs_vote_sent (rm_round_state m)
     ∨ rs_vote_sent (rm_round_state m') = None).

#[export] Instance no_vote_frame : Frame no_vote.
Proof.
  split; try (intros; split_and!; simpl; auto; done).
  - split; [by intros m; split_and!; auto|]. intros m1 m2 m3 (H1 & H2 & H3) (G1 & G2 & G3).
    split_and!; [congruence|auto|]. destruct G3 as [->|]; auto.
  - intros m s (_ & Hv & _). by split_and!.
Qed.

Lemma no_vote_inv F m m' : no_vote m m' → votes_inv F m → votes_inv F m'.
Proof.
  intros (Hr & Hs & Hv) (h & Hrun & [Hsent Hkept] & HF). exists h. rewrite Hr. split; [done|].
  split; [|done]. split; [by eauto|]. intros v Hv'. apply Hkept. destruct Hv as [<-|Hv]; congruence.
Qed.

Lemma votes_weaken (F G : list Event → Prop) m : (∀ h, F h → G h) → votes_inv F m → votes_inv G m.
Proof. intros HFG (h & ? & ? & ?). exists h. auto. Qed.

Local Abbreviation safe F c := (st_partial (votes_inv F) c (λ _, votes_inv F) (votes_inv F)).

Lemma safe_no_vote {A} F (c : ST RM string A) : st_within no_vote c → safe F c.
Proof. intros Hc. eapply st_partial_within; [exact Hc|]. intros m m'. apply no_vote_inv. Qed.

Lemma safe_bind {A B} F (c : ST RM string A) (f : A → ST RM string B) :
  safe F c → (∀ a, safe F (f a)) → safe F (st_bind c f).
Proof. intros Hc Hf. by eapply st_partial_bind. Qed.

Lemma safe_context {A} F msg (c : ST RM string A) : safe F c → safe F (st_map_res (context msg) c).
Proof.
  intros Hc. eapply (st_partial_map_res _ _ (λ _, votes_inv F)); [exact Hc| |done].
  intros [a|e|x] b H; try done. by exists a.
Qed.

(** A call of the safety rules: what it released is in the history. *)
Lemma on_safety_rules_votes {A} F call (c : ST (SafetyRules S) SafetyError A) evs :
  grows F → call_of call c evs →
  st_partial (votes_inv F) (on_safety_rules init_fuel c)
    (λ a, votes_inv (λ h, F h ∧ evs a ⊆ h)) (votes_inv F).
Proof.
  intros HF Hcall m (h & Hrun & Hrel & Hh). unfold on_safety_rules, st_map_res, st_zoom.
  destruct (retry _ _ _) as [r res] eqn:Hretry.
  destruct (retry_run call c evs (mkMetricsSafetyRules (rm_safety_rules m) (bs_storage (rm_block_store m)))
    _ _ _ Hcall Hrun Hretry) as (h' & Hrun' & Hevs).
  assert (Hrel' : votes_released (h ++ h') (put_safety_rules (msr_inner r)
    (put_block_store (put_storage (msr_storage r) (rm_block_store m)) m))).
  { destruct Hrel as [Hsent Hkept]. split.
    - intros to vm Hvm. eapply released_vote_mono; [by eapply Hsent|]. set_solver.
    - intros v Hv. eapply released_vote_mono; [by eapply Hkept|]. set_solver. }
  destruct res as [a|e|x]; simpl.
  - exists (h ++ h'). split_and!; [done|done|by apply HF|by apply Hevs].
  - exists (h ++ h'). split_and!; [done|done|by apply HF].
  - exists (h ++ h'). split_and!; [done|done|by apply HF].
Qed.

Lemma safe_rules {A} F call (c : ST (SafetyRules S) SafetyError A) evs :
  grows F → call_of call c evs → safe F (on_safety_rules init_fuel c).
Proof.
  intros HF Hcall. eapply st_partial_conseq; [by apply (on_safety_rules_votes F call c evs)|done| |done].
  intros a m. apply votes_weaken. by intros h [].
Qed.

(** *** Steps without a vote *)

Lemma store_no_vote {A} (c : ST (BlockStore C P) string A) : st_within no_vote (on_block_store c).
Proof. intros m. unfold on_block_store, st_zoom. destruct (c _). by split_and!; auto. Qed.

Lemma sync_no_vote {A} (c : ST (BlockStore C P * NetworkSender N) string A) :
  st_within quiet_sync c → st_within no_vote (on_sync c).
Proof.
  intros Hc m. specialize (Hc (rm_block_store m, rm_network m)). unfold on_sync, st_zoom.
  destruct (c _) as [[s n] r]. simpl in *. split_and!; [done| |by left].
  intros to vm. by apply (quiet_elem _ _ _ Hc).
Qed.

Lemma generator_no_vote {A} (c : ST (Generating M T) string A) : st_within no_vote (on_generator c).
Proof. intros m. unfold on_generator. destruct (c _). by split_and!; auto. Qed.

Lemma transmit_no_vote to msg :
  (∀ vm, msg ≠ MsgVote vm) → st_within no_vote (transmit (send_msg to msg)).
Proof.
  intros Hmsg m. split_and!; [done| |by left]. intros to' vm. simpl. rewrite elem_of_app, list_elem_of_singleton.
  intros [?|[= -> <-]]; [done|]. by destruct (Hmsg vm).
Qed.

Lemma insert_vote_no_vote vote vv : st_within no_vote (on_round_state (λ s,
  let '(s, result) := rs_insert_vote vote vv s in (s, Ok result))).
Proof.
  intros m. unfold on_round_state, st_zoom, rs_insert_vote.
  destruct (v_round vote =? _); [destruct (insert_vote _ _ _)|]; by split_and!; auto.
Qed.

Ltac no_vote_step :=
  apply safe_no_vote;
  first [ apply st_within_lift; apply _ | apply st_within_ret; apply _ | apply st_within_get; apply _
        | apply on_tree_within; apply _ | apply on_proposer_election_within; apply _
        | apply store_no_vote | apply generator_no_vote | apply insert_vote_no_vote
        | apply transmit_no_vote; intros ?; discriminate
        | apply sync_no_vote; first [apply add_certs_quiet|apply insert_cert_quiet]
        | apply on_round_state_within; [apply _|];
          first [apply rs_certificates_within|apply local_timeout_within] ].

Ltac safe_steps :=
  repeat lazymatch goal with
  | |- st_partial (votes_inv _) (st_bind _ _) _ _ => apply safe_bind; [|intros ?]
  | |- st_partial (votes_inv _) (st_map_res (context _) _) _ _ => apply safe_context
  | |- st_partial (votes_inv _) (match ?x with _ => _ end) _ _ => destruct x
  | |- _ => no_vote_step
  end.

Lemma new_round_event_safe F e : grows F → safe F (process_new_round_event init_fuel e).
Proof.
  intros HF. unfold process_new_round_event, rm_generate_proposal. safe_steps.
  eapply safe_rules; [done|apply proposal_call].
Qed.

Lemma certificates_safe F : grows F → safe F (process_certificates init_fuel).
Proof. intros HF. unfold process_certificates. safe_steps. by apply new_round_event_safe. Qed.

Lemma then_certificates_safe F c : grows F → safe F c → safe F (then_process_certificates init_fuel c).
Proof.
  intros HF Hc m Hm. specialize (Hc m Hm). unfold then_process_certificates.
  destruct (c m) as [m1 [a|e|x]]; [..|done].
  all: apply (safe_bind F (process_certificates init_fuel) (λ _, st_lift _));
    [by apply certificates_safe|intros ?; no_vote_step|done].
Qed.

Lemma ensure_round_safe F round si author help :
  grows F → safe F (ensure_round_and_sync_up current_ts init_fuel round si author help).
Proof.
  intros HF. unfold ensure_round_and_sync_up, sync_up. safe_steps.
  apply then_certificates_safe; [done|]. no_vote_step.
Qed.

(** *** Votes made *)

Lemma execute_and_vote_released F b :
  grows F → st_partial (votes_inv F) (execute_and_vote current_ts init_fuel b)
    (λ v, votes_inv (λ h, F h ∧ released_vote h v)) (votes_inv F).
Proof.
  intros HF. unfold execute_and_vote.
  eapply (st_partial_bind _ (λ _, votes_inv F)); [safe_steps|intros eb].
  eapply (st_partial_bind _ (λ _, votes_inv F)); [no_vote_step|intros m].
  eapply (st_partial_bind _ (λ _, votes_inv F)); [no_vote_step|intros _].
  eapply (st_partial_bind _ (λ _, votes_inv F)); [unfold sync_only; safe_steps|intros stop].
  eapply (st_partial_bind _ (λ _, votes_inv F)); [no_vote_step|intros _].
  eapply (st_partial_bind _ (λ v, votes_inv (λ h, F h ∧ [EvVote v] ⊆ h))).
  - eapply (st_partial_map_res _ _ (λ v, votes_inv (λ h, F h ∧ [EvVote v] ⊆ h))).
    + destruct (two_chain m).
      * apply (on_safety_rules_votes F _ _ _ HF (vote2_call _ _ _)).
      * apply (on_safety_rules_votes F _ _ _ HF (vote_call _ _)).
    + intros [a|e|x] v' H; try done. injection H as ->. by exists v'.
    + intros v m'. apply votes_weaken. by intros h [].
  - intros v. set (G := λ h, F h ∧ released_vote h v).
    assert (HG : grows G).
    { intros h h' [H1 H2]. split; [by apply HF|]. eapply released_vote_mono; [exact H2|set_solver]. }
    eapply (st_partial_conseq (votes_inv _) (votes_inv G) _ (λ v', λ m', v' = v ∧ votes_inv G m') _ (votes_inv G)).
    + eapply (st_partial_bind _ (λ _, votes_inv G)); [safe_steps|intros _]. by apply st_partial_ret.
    + intros m'. apply votes_weaken. intros h [H1 H2]. split; [done|]. exists v. split; [set_solver|done].
    + by intros v' m' [-> H].
    + intros m'. apply votes_weaken. by intros h [].
Qed.

(** What is known when [v] is about to be sent. *)
Definition and_released (F : list Event → Prop) (v : Vote) (h : list Event) : Prop :=
  F h ∧ released_vote h v.

Lemma and_released_grows F v : grows F → grows (and_released F v).
Proof.
  intros HF h h' [H1 H2]. split; [by apply HF|]. eapply released_vote_mono; [exact H2|set_solver].
Qed.

Lemma forget_released {A} F v (c : ST RM string A) Post :
  st_partial (votes_inv (and_released F v)) c Post (votes_inv (and_released F v)) →
  st_partial (votes_inv (and_released F v)) c Post (votes_inv F).
Proof.
  intros Hc. eapply st_partial_conseq; [exact Hc|done|done|]. intros m. apply votes_weaken. by intros h [].
Qed.

Lemma record_safe F v : safe (and_released F v) (record v).
Proof.
  intros m (h & Hrun & [Hsent Hkept] & HF). simpl. exists h. split; [done|]. split; [|done].
  split; [done|]. simpl. unfold record_vote. destruct (v_round v =? _); [|done].
  intros w [= <-]. apply HF.
Qed.

Lemma send_vote_safe F v to si : safe (and_released F v) (transmit (send_msg to (MsgVote (mkVoteMsg v si)))).
Proof.
  intros m (h & Hrun & [Hsent Hkept] & HF). simpl. exists h. split; [done|]. split; [|done].
  split; [|done]. intros to' vm. simpl. rewrite elem_of_app, list_elem_of_singleton.
  intros [?|[= -> ->]]; [by eauto|]. apply HF.
Qed.

Lemma process_proposal_safe F b : grows F → safe F (process_proposal current_ts init_fuel b).
Proof.
  intros HF. unfold process_proposal.
  do 5 (apply safe_bind; [no_vote_step|intros ?]).
  eapply (st_partial_bind _ (λ v, votes_inv (and_released F v))).
  { eapply st_partial_map_res; [by apply execute_and_vote_released| |].
    - intros [v|e|x] w H; try done. injection H as ->. by exists w.
    - intros v m. apply votes_weaken. by intros h []. }
  intros v. apply forget_released.
  eapply (st_partial_conseq _ (votes_inv (and_released F v)) _ (λ _, votes_inv (and_released F v)));
    [|done|intros _ m; apply votes_weaken; by intros h []|done].
  apply safe_bind; [no_vote_step|intros to]. apply safe_bind; [apply record_safe|intros _].
  apply safe_bind; [no_vote_step|intros si]. apply send_vote_safe.
Qed.

(** *** Timeouts *)

Lemma timeout_vote_released F round :
  grows F → st_partial (votes_inv F) (timeout_vote current_ts init_fuel round)
    (λ v, votes_inv (and_released F v)) (votes_inv F).
Proof.
  intros HF m Hm. unfold timeout_vote. unfold st_bind at 1, st_get.
  assert (Hbackup : st_partial (votes_inv F)
    (let! nil_block := on_tree (λ t, generate_nil_block t round) in execute_and_vote current_ts init_fuel nil_block)
    (λ v, votes_inv (and_released F v)) (votes_inv F)).
  { eapply (st_partial_bind _ (λ _, votes_inv F)); [no_vote_step|intros b]. by apply execute_and_vote_released. }
  destruct (rs_vote_sent (rm_round_state m)) as [v|] eqn:Hv; [|by apply Hbackup].
  destruct (v_round v =? round); [|by apply Hbackup].
  destruct Hm as (h & Hrun & [Hsent Hkept] & Hh). exists h. split; [done|]. split; [done|].
  split; [done|]. by apply Hkept.
Qed.

Lemma add_timeout_released F v :
  grows F → st_partial (votes_inv (and_released F v)) (add_timeout init_fuel v)
    (λ w, votes_inv (and_released F w)) (votes_inv F).
Proof.
  intros HF. apply forget_released. pose proof (and_released_grows F v HF) as HG.
  assert (Hsame : ∀ w, same_vote v w → ∀ m, votes_inv (and_released F v) m → votes_inv (and_released F w) m).
  { intros w Hw m. apply votes_weaken. intros h [H1 H2]. split; [done|]. by eapply released_vote_same. }
  unfold add_timeout. eapply (st_partial_bind _ (λ _, votes_inv (and_released F v))); [no_vote_step|intros m].
  destruct (v_is_timeout v); [by apply st_partial_ret|].
  destruct (two_chain m).
  - eapply (st_partial_bind _ (λ _, votes_inv (and_released F v))).
    { apply safe_context. eapply safe_rules; [done|apply timeout2_call]. }
    intros sig. apply st_partial_lift; [|done]. intros w m' Hw. apply Hsame. unfold add_2chain_timeout in Hw.
    destruct (v_timeout_signature v); [done|]. by injection Hw as <-.
  - eapply (st_partial_bind _ (λ _, votes_inv (and_released F v))).
    { apply safe_context. eapply safe_rules; [done|apply timeout_call]. }
    intros sig. apply st_partial_lift; [|done]. intros w m' Hw. apply Hsame. unfold add_timeout_signature in Hw.
    destruct (v_two_chain_timeout v); [done|]. destruct (v_timeout_signature v); by injection Hw as <-.
Qed.

Lemma process_local_timeout_safe F round : grows F → safe F (process_local_timeout current_ts init_fuel round).
Proof.
  intros HF. unfold process_local_timeout. apply safe_bind; [no_vote_step|intros current].
  destruct (negb current); [no_vote_step|]. apply safe_bind; [unfold sync_only; safe_steps|intros stop].
  destruct stop; [safe_steps|].
  eapply (st_partial_bind _ (λ v, votes_inv (and_released F v))); [by apply timeout_vote_released|intros v].
  eapply (st_partial_bind _ (λ w, votes_inv (and_released F w))); [by apply add_timeout_released|intros w].
  apply forget_released.
  eapply (st_partial_conseq _ (votes_inv (and_released F w)) _ (λ _, votes_inv (and_released F w)));
    [|done|intros _ m; apply votes_weaken; by intros h []|done].
  apply safe_bind; [apply record_safe|intros _]. apply safe_bind; [no_vote_step|intros si].
  apply safe_bind; [apply send_vote_safe|intros _]. safe_steps.
Qed.

Lemma process_vote_safe F vote : grows F → safe F (process_vote current_ts init_fuel vote).
Proof.
  intros HF. unfold process_vote, new_qc_aggregated, new_tc_aggregated, new_2chain_tc_aggregated.
  safe_steps; (apply then_certificates_safe; [done|]); safe_steps.
Qed.

Lemma process_event_safe F peer event : grows F → safe F (process_event current_ts init_fuel peer event).
Proof.
  intros HF. destruct event; simpl.
  - unfold process_proposal_msg. apply safe_bind; [no_vote_step|intros a].
    apply safe_bind; [by apply safe_context, ensure_round_safe|intros []].
    + by apply process_proposal_safe.
    + no_vote_step.
  - unfold process_vote_msg. apply safe_bind; [by apply safe_context, ensure_round_safe|intros []].
    + by apply safe_context, process_vote_safe.
    + no_vote_step.
  - unfold process_sync_info_msg. apply safe_bind; [no_vote_step|intros a].
    apply safe_bind; [by apply safe_context, ensure_round_safe|intros b]. no_vote_step.
  - no_vote_step.
  - no_vote_step.
  - safe_steps.
  - by apply process_local_timeout_safe.
Qed.
End votes.
