(* ===== verification/NodeSafety.v ===== *)
(** * NodeSafety: what holds of a node that runs the round manager

    The events of a node, from its start: the votes it sends are released by its safety
    rules, one per round; it proposes once per round, when elected; its round keeps up with
    the certificates and moves on when a quorum voted.  The sample node is validator 1 of the
    sample epoch with a store that holds the genesis block, on a silent network. *)

From S2P Require Import Prelude Crypto Accumulator ValidatorVerifier LedgerTypes EpochChange AccumulatorProof.
From S2P Require Import ConsensusTypes ConsensusMessages SafetyStorage SafetyRules SafetyRulesSpec.
From S2P Require Import SafetyRulesRefine ConsensusSafety CommitSafety PendingVotes BlockTree BlockTreeFacts.
From S2P Require Import BlockTreeInv BlockStore BlockStoreFacts BlockStoreSafety ProposerElection BlockRetrieval.
From S2P Require Import BlockRetrieval RoundState MetricsSafetyRules SyncManager RoundManager.
From S2P Require Import RoundManagerFacts NodeVotes.

(** The clock stands still at 10 microseconds, a round lasts a second. *)
#[export] Instance still_clock : TimeService unit := {|
  get_current_timestamp := λ t, (t, 10000);
  run_after := λ _ _ t, (t, 0);
  abort := λ _ t, t;
|}.
#[export] Instance second_rounds : RoundTimeInterval unit := {|
  get_round_duration := λ _ _, 1000000000;
|}.
(** No transactions wait. *)
#[export] Instance empty_mempool : TxnManager unit := {|
  pull_txns := λ _ _ _ m, (m, (false, Ok []));
|}.
(** Nobody answers. *)
#[export] Instance silent_network : PeerNetwork unit := {|
  nw_author := λ _, 1;
  send_rpc := λ _ _ n, (n, Err "timeout");
  gen_range := λ _ n, (n, 0%nat);
|}.

Definition sample_config : OnChainConsensusConfig := ConfigV2 (mkConsensusConfigV2 true true 10 20).
(** Ten rounds per proposer, the first ones are validator 1's. *)
Definition sample_election : RotatingProposer := mkRotatingProposer [1; 2; 3; 4] 10.

Abbreviation SampleManager :=
  (RoundManager unit unit unit unit RotatingProposer unit unit InMemoryStorage).
Definition sample_manager : SampleManager :=
  mkRoundManager sample_epoch_state sample_store (RoundState_new tt tt) sample_election
    (mkProposalGenerator 1 tt 10 0) (sample_node 1) (mkNetworkSender tt []) false sample_config.

(** After its start the node is in round 1, and has sent its proposal. *)
Definition started_manager : SampleManager := (rm_init 1 None sample_manager).1.
Definition sample_sync_info : SyncInfo :=
  default (mkSyncInfo chain_root_qc None None None None)
    (r_ok (sync_info (E:=string) sample_tree)).

(** ** Runs of a node *)

(** An event, with the time it is handled at, or a commit callback. *)
Inductive NodeStep :=
| NodeEvent (current_ts : Z) (peer : Author) (event : VerifiedEvent)
| NodeCallback (n : nat).

Section node.
Context `{CC : ConsensusCrypto} `{HI : HashIter}.
Context {C P I T L M N S : Type} `{SC : StateComputer C} `{PS : PersistentLivenessStorage P}.
Context `{TI : RoundTimeInterval I} `{TS : TimeService T} `{PE : ProposerElection L}.
Context `{TM : TxnManager M} `{NW : PeerNetwork N} `{KV : KVStorage S} `{CS : CryptoStorage S}.
Local Abbreviation RM := (RoundManager C P I T L M N S).
Context (init_fuel : nat).

Definition node_step (st : NodeStep) : ST RM string unit :=
  match st with
  | NodeEvent ts peer event => process_event ts init_fuel peer event
  | NodeCallback n => on_block_store (run_callback n)
  end.

(** Errors are logged and the node goes on; it stops at a panic. *)
Inductive node_steps (m0 : RM) : list NodeStep → RM → Prop :=
| node_steps_nil : node_steps m0 [] m0
| node_steps_snoc steps m st m' res : node_steps m0 steps m → node_step st m = (m', res) →
    (∀ x, res ≠ Panic x) → node_steps m0 (steps ++ [st]) m'.

(** From the start of the round manager. *)
Definition started (last_vote : option Vote) (m0 : RM) (steps : list NodeStep) (m : RM) : Prop :=
  ∃ m1, rm_init init_fuel last_vote m0 = (m1, Ok ()) ∧ node_steps m1 steps m.

(** *** Relations that all steps stay in *)

Section relation.
Context (R : RM → RM → Prop) `{!FullFrame R}.
Context (Hnew : ∀ e, st_within R (process_new_round_event init_fuel e)).
Context (Hstore : ∀ m s, R m (put_block_store s m)).

Lemma node_step_within st : st_within R (node_step st).
Proof.
  destruct st as [ts peer event|n]; simpl.
  - by apply process_event_within.
  - by apply any_store_within.
Qed.

Lemma node_steps_within m0 steps m : node_steps m0 steps m → R m0 m.
Proof.
  induction 1 as [|steps m st m' res _ IH Hst _]; [done|]. etrans; [exact IH|].
  pose proof (node_step_within st m) as H. by rewrite Hst in H.
Qed.

Lemma rm_init_within last_vote : st_within R (rm_init init_fuel last_vote).
Proof.
  unfold rm_init. st_steps.
  - apply on_tree_within, _.
  - apply on_round_state_within; [apply _|]. apply rs_certificates_within.
  - by apply record_within.
  - intros m. pose proof (Hnew a1 m) as H. by destruct (process_new_round_event init_fuel a1 m) as [m' []].
Qed.
End relation.

(** ** The round *)

Lemma rm_init_in_step last_vote (m m' : RM) :
  rm_init init_fuel last_vote m = (m', Ok ()) → in_step m'.
Proof.
  unfold rm_init. unfold st_bind at 1, on_tree, on_block_store, st_zoom, reading.
  destruct (sync_info _) as [si|e|x] eqn:Hsi; [|done..].
  unfold st_bind at 1, on_round_state, st_zoom. simpl.
  pose proof (rs_certificates_round si (rm_round_state m)) as Hr.
  destruct (rs_process_certificates si (rm_round_state m)) as [s [e|e|x]]; [|done..].
  set (m1 := put_round_state s _).
  assert (Hin : in_step m1) by (intros si'; simpl; rewrite Hsi; by intros [= <-]).
  unfold st_bind at 1, st_lift. destruct (expect e _) as [ev|?|?]; [|done..].
  unfold st_bind.
  assert (Hrec : keeps (in_step (C:=C) (P:=P) (I:=I) (T:=T) (L:=L) (M:=M) (N:=N) (S:=S))
    match last_vote with Some vote => record vote | None => st_ret () end).
  { apply keeps_in_step. st_steps. apply record_within, _. }
  specialize (Hrec _ Hin). destruct (match last_vote with Some vote => record vote | None => _ end m1)
    as [m2 [[]|e'|x]]; [|done..].
  assert (Hnew : keeps (in_step (C:=C) (P:=P) (I:=I) (T:=T) (L:=L) (M:=M) (N:=N) (S:=S))
    (process_new_round_event init_fuel ev)).
  { apply keeps_in_step, new_round_event_within; [apply _|by intros; split..]. }
  specialize (Hnew _ Hrec). destruct (process_new_round_event init_fuel ev m2) as [m3 [[]|e'|x]]; [..|done];
    intros H; by simplify_eq.
Qed.

(** C27: the round of a node keeps up.  From the start of a node on, whatever events it
    handles and whether they succeed, its round never goes back, and after every event it
    is past the round of each quorum and timeout certificate in its store. *)
Theorem node_round_in_step last_vote (m0 m1 : RM) steps m :
  rm_init init_fuel last_vote m0 = (m1, Ok ()) → node_steps m1 steps m →
  rs_current_round (rm_round_state m1) ≤ rs_current_round (rm_round_state m) ∧ in_step m.
Proof.
  intros Hinit Hsteps. split.
  - assert (Hle : round_le m1 m); [|apply Hle].
    refine (node_steps_within round_le _ _ _ _ _ Hsteps); [|by intros; split_and!].
    intros e. apply new_round_event_within; [apply _|by intros; split_and!..].
  - apply rm_init_in_step in Hinit. induction Hsteps as [|steps m st m' res _ IH Hst Hp]; [done|].
    destruct st as [ts peer event|n]; simpl in Hst.
    + pose proof (process_event_in_step ts init_fuel peer event m IH) as H. rewrite Hst in H.
      destruct res; [done..|]. by destruct (Hp msg).
    + pose proof (keeps_in_step _ (on_block_store_within step_le _ (run_callback_certs n)) m IH) as H.
      rewrite Hst in H. destruct res; [done..|]. by destruct (Hp msg).
Qed.

(** ** Votes *)

Section votes.
Context {KL : KVLaws S} {CSL : CryptoStorageLaws S} (vvs : Z → ValidatorVerifier) (r0 : SafetyRules S).
Local Abbreviation run := (node_run vvs (λ _, True) r0).

(** The votes a node sent, in messages of any kind. *)
Definition votes_sent (m : RM) : list Vote :=
  omap (λ x, match x.2 with MsgVote vm => Some (vm_vote vm) | _ => None end) (ns_sent (rm_network m)).

Lemma rm_init_safe last_vote F :
  trusted_storage (P:=P) vvs r0 → grows F →
  (∀ h v, F h → last_vote = Some v → released_vote h v) →
  st_partial (votes_inv (C:=C) (P:=P) (I:=I) (T:=T) (L:=L) (M:=M) (N:=N) vvs r0 F)
    (rm_init init_fuel last_vote) (λ _, votes_inv vvs r0 F) (votes_inv vvs r0 F).
Proof.
  intros Ht HF Hlast. unfold rm_init.
  apply safe_bind; [apply safe_no_vote, on_tree_within, _|intros si].
  apply safe_bind; [apply safe_no_vote, on_round_state_within; [apply _|apply rs_certificates_within]|intros e].
  apply safe_bind; [apply safe_no_vote, st_within_lift, _|intros ev].
  apply safe_bind.
  - destruct last_vote as [v|]; [|apply safe_no_vote, st_within_ret, _].
    eapply (st_partial_conseq _ (votes_inv vvs r0 (and_released F v)) _ (λ _, votes_inv vvs r0 (and_released F v)));
      [apply record_safe|..].
    + intros m. apply votes_weaken. intros h Hh. split; [done|]. by apply (Hlast h).
    + intros _ m. apply votes_weaken. by intros h [].
    + intros m. apply votes_weaken. by intros h [].
  - intros _ m Hm. pose proof (new_round_event_safe init_fuel vvs r0 Ht F ev HF m Hm) as H.
    by destruct (process_new_round_event init_fuel ev m) as [m' []].
Qed.

Lemma node_step_safe F st :
  trusted_storage (P:=P) vvs r0 → grows F →
  st_partial (votes_inv (C:=C) (P:=P) (I:=I) (T:=T) (L:=L) (M:=M) (N:=N) vvs r0 F)
    (node_step st) (λ _, votes_inv vvs r0 F) (votes_inv vvs r0 F).
Proof.
  intros Ht HF. destruct st as [ts peer event|n]; simpl.
  - by apply process_event_safe.
  - apply safe_no_vote, store_no_vote.
Qed.

End votes.

(** ** Proposals *)

Definition proposal_of (x : Recipients * ConsensusMsg) : option ProposalMsg :=
  match x.2 with MsgProposal p => Some p | _ => None end.
Definition proposals_sent (m : RM) : list ProposalMsg := omap proposal_of (ns_sent (rm_network m)).

(** What holds of the proposals sent so far: [A] is this node. *)
Record proposals_ok (A : Author) (m : RM) : Prop := {
  po_author : pg_author (rm_proposal_generator m) = A;
  po_sorted : StronglySorted Z.lt ((λ p, b_round (pm_proposal p)) <$> proposals_sent m);
  po_last p : p ∈ proposals_sent m →
    b_round (pm_proposal p) ≤ pg_last_round_generated (rm_proposal_generator m);
  po_elected p : p ∈ proposals_sent m → b_author (pm_proposal p) = Some A
    ∧ ∃ e e' : L, is_valid_proposer A (b_round (pm_proposal p)) e = (e', Ok true);
}.

Definition proposals_kept (A : Author) (m m' : RM) : Prop := proposals_ok A m → proposals_ok A m'.

Lemma same_proposals_kept A m m' :
  rm_proposal_generator m' = rm_proposal_generator m → proposals_sent m' = proposals_sent m →
  proposals_kept A m m'.
Proof. intros Hg Hp [H1 H2 H3 H4]. split; rewrite ?Hg, ?Hp; done. Qed.

Lemma proposals_sent_app (m : RM) n l :
  ns_sent n = ns_sent (rm_network m) ++ l → proposals_sent (put_network n m) = proposals_sent m ++ omap proposal_of l.
Proof. intros Hn. unfold proposals_sent. simpl. by rewrite Hn, omap_app. Qed.

Lemma other_messages l : Forall (λ x, ¬ is_vote_or_proposal x) l → omap proposal_of l = [].
Proof.
  induction 1 as [|[to msg] l Hx _ IH]; [done|].
  assert (Hnone : proposal_of (to, msg) = None) by (destruct msg; [by destruct Hx|done..]).
  cbn [omap list_omap]. by rewrite Hnone.
Qed.

#[export] Instance proposals_kept_frame A : FullFrame (proposals_kept A).
Proof.
  split; [split|..]; try (intros; by apply same_proposals_kept).
  - split; [by intros m H|]. intros m1 m2 m3 H1 H2 H. auto.
  - intros m to msg Hmsg. apply same_proposals_kept; [done|].
    rewrite (proposals_sent_app m _ [(to, msg)]) by done.
    destruct msg; try by rewrite app_nil_r. by destruct (Hmsg m0).
  - intros m n (l & Hn & Hl). apply same_proposals_kept; [done|].
    by rewrite (proposals_sent_app m _ l), other_messages, app_nil_r.
Qed.

(** A generated proposal is for a round that had none. *)
Lemma generate_proposal_spec t round (g : Generating M T) :
  let '(g', r) := generate_proposal t round g in
  let last := pg_last_round_generated (gg_generator g) in
  pg_author (gg_generator g') = pg_author (gg_generator g)
  ∧ last ≤ pg_last_round_generated (gg_generator g')
  ∧ ∀ d, r = Ok d → last < round ∧ pg_last_round_generated (gg_generator g') = round
      ∧ bd_round d = round ∧ bd_author d = Some (pg_author (gg_generator g)).
Proof.
  unfold generate_proposal. unfold st_bind at 1, st_get.
  destruct (Z.ltb_spec (pg_last_round_generated (gg_generator g)) round) as [Hlt|Hge]; [|by simpl].
  unfold st_bind at 1, st_put. unfold st_bind at 1, st_lift.
  destruct (ensure_highest_quorum_cert t round) as [hqc|?|?]; simpl; [|split_and!; [done|lia|done]..].
  set (g1 := set_last_round_generated round g).
  assert (Hkeep : st_within (λ g g' : Generating M T,
    pg_author (gg_generator g') = pg_author (gg_generator g)
    ∧ pg_last_round_generated (gg_generator g') = pg_last_round_generated (gg_generator g))
    (payload_and_timestamp t hqc)).
  { assert (PreOrder (λ g g' : Generating M T, pg_author (gg_generator g') = pg_author (gg_generator g)
      ∧ pg_last_round_generated (gg_generator g') = pg_last_round_generated (gg_generator g))).
    { split; [done|]. intros ? ? ? [] []. split; congruence. }
    unfold payload_and_timestamp. cbv zeta. st_steps.
    - intros g'. unfold now. by destruct (get_current_timestamp _).
    - intros g'. unfold pull. by destruct (pull_txns _ _ _ _) as [? []]. }
  unfold st_bind. specialize (Hkeep g1). destruct (payload_and_timestamp t hqc g1) as [g2 [[payload ts]|?|?]];
    destruct Hkeep as [Ha Hl]; simpl in *; (split_and!; [done|lia|]); try done.
  intros d [= <-]. by split_and!.
Qed.

(** About to send a proposal for [round]. *)
Definition about_to_propose (A : Author) (round : Round) (m : RM) : Prop :=
  proposals_ok A m ∧ pg_last_round_generated (rm_proposal_generator m) = round
  ∧ ∀ p, p ∈ proposals_sent m → b_round (pm_proposal p) < round.

Lemma about_same A round m m' :
  rm_proposal_generator m' = rm_proposal_generator m → proposals_sent m' = proposals_sent m →
  about_to_propose A round m → about_to_propose A round m'.
Proof.
  intros Hg Hp (H1 & H2 & H3). split; [by apply (same_proposals_kept A m m')|].
  unfold about_to_propose. rewrite Hg, Hp. done.
Qed.

Lemma send_proposal A m p :
  about_to_propose A (b_round (pm_proposal p)) m → b_author (pm_proposal p) = Some A →
  (∃ e e' : L, is_valid_proposer A (b_round (pm_proposal p)) e = (e', Ok true)) →
  proposals_ok A (transmit (broadcast (MsgProposal p)) m).1.
Proof.
  intros ([H1 H2 H3 H4] & Hlast & Hlt) Ha He. unfold transmit. simpl.
  assert (Hs : proposals_sent (put_network (broadcast (MsgProposal p) (rm_network m)) m) = proposals_sent m ++ [p])
    by exact (proposals_sent_app m (broadcast (MsgProposal p) (rm_network m)) [(Everyone, MsgProposal p)] eq_refl).
  split; rewrite ?Hs; try done.
  - rewrite fmap_app. simpl. apply StronglySorted_app_2; [|done|by repeat constructor].
    intros x y (q & -> & Hq)%list_elem_of_fmap ->%list_elem_of_singleton. by apply Hlt.
  - intros q [Hq| ->%list_elem_of_singleton]%elem_of_app; [by apply H3|]. simpl. lia.
  - intros q [Hq| ->%list_elem_of_singleton]%elem_of_app; [by apply H4|]. done.
Qed.

(** Steps that leave the proposals and the generator alone. *)
Definition proposals_same (m m' : RM) : Prop :=
  rm_proposal_generator m' = rm_proposal_generator m ∧ proposals_sent m' = proposals_sent m.
#[export] Instance proposals_same_preorder : PreOrder proposals_same.
Proof. split; [by intros m|]. intros m1 m2 m3 [] []. split; congruence. Qed.

Lemma sign_proposals_same {A} (c : ST (SafetyRules S) SafetyError A) :
  st_within proposals_same (on_safety_rules init_fuel c).
Proof. unfold on_safety_rules. st_steps. intros m. unfold st_zoom. by destruct (retry _ _ _). Qed.

Lemma tree_proposals_same {A} (f : BlockTree → Result string A) : st_within proposals_same (on_tree f).
Proof. by intros m. Qed.

Lemma generate_proposal_about A ev :
  st_partial (proposals_ok A) (rm_generate_proposal init_fuel ev)
    (λ p m, about_to_propose A (nre_round ev) m ∧ b_round (pm_proposal p) = nre_round ev
            ∧ b_author (pm_proposal p) = Some A)
    (proposals_ok A).
Proof.
  intros m Hm. unfold rm_generate_proposal. unfold st_bind at 1, on_tree at 1, on_block_store, st_zoom, reading.
  destruct (sync_info _) as [si|?|?]; [|by apply (same_proposals_kept A m)..].
  unfold st_bind at 1, st_get. unfold st_bind at 1, on_generator. simpl.
  set (g := mkGenerating _ _ _).
  pose proof (generate_proposal_spec (bs_inner (rm_block_store m)) (nre_round ev) g) as Hg.
  destruct (generate_proposal _ _ g) as [g' r]. destruct Hg as (Ha & Hle & Hok). set (m1 := put_proposal_generator _ _).
  assert (H1 : proposals_ok A m1).
  { destruct Hm as [G1 G2 G3 G4]. split; try done; [simpl in *; congruence|].
    intros p Hp. specialize (G3 p Hp). simpl in *. lia. }
  assert (Habout : ∀ d, r = Ok d → about_to_propose A (nre_round ev) m1 ∧ bd_round d = nre_round ev
    ∧ bd_author d = Some A).
  { intros d Hd. destruct (Hok d Hd) as (Hlt & Hl & Hr & Hau). split_and!; [|done|].
    - split; [done|]. split; [done|]. intros p Hp. pose proof (po_last _ _ Hm p Hp). simpl in *. lia.
    - rewrite Hau. f_equal. apply (po_author _ _ Hm). }
  clearbody m1. clear Hok Hle Ha.
  assert (Hwait : st_within proposals_same (if gg_waited g' then transmit (broadcast (MsgSyncInfo si)) else st_ret ())).
  { destruct (gg_waited g'); [|apply st_within_ret, _]. intros m2. split; [done|]. simpl.
    rewrite (proposals_sent_app m2 (broadcast (MsgSyncInfo si) (rm_network m2)) [(Everyone, MsgSyncInfo si)] eq_refl).
    by rewrite app_nil_r. }
  assert (Hsame : st_within proposals_same
    ((if gg_waited g' then transmit (broadcast (MsgSyncInfo si)) else st_ret ()) ;!
     let! proposal := st_lift r in
     let! signature := on_safety_rules init_fuel (guarded_sign_proposal proposal) in
     let! si' := on_tree sync_info in
     st_ret (mkProposalMsg (new_proposal_from_block_data_and_signature proposal signature) si'))).
  { apply st_within_bind; [apply _|exact Hwait|intros _]. st_steps; [apply sign_proposals_same|apply tree_proposals_same]. }
  specialize (Hsame m1).
  match goal with |- match ?c m1 with _ => _ end => set (rest := c) in * end.
  destruct (rest m1) as [m2 [p|e|x]] eqn:Hrest; destruct Hsame as [Hsg Hsp]; simpl in *;
    [|by apply (same_proposals_kept A m1)..].
  assert (Hp : ∃ d sig si', r = Ok d ∧ p = mkProposalMsg (new_proposal_from_block_data_and_signature d sig) si').
  { apply st_bind_ok in Hrest as ([] & s1 & _ & Hrest). apply st_bind_ok in Hrest as (d & s2 & Hd & Hrest).
    injection Hd as <- Hd. apply st_bind_ok in Hrest as (sig & s3 & _ & Hrest).
    apply st_bind_ok in Hrest as (si' & s4 & _ & Hrest). injection Hrest as _ <-. by exists d, sig, si'. }
  destruct Hp as (d & sig & si' & Hd & ->). destruct (Habout d Hd) as (Hab & Hr & Hau).
  split_and!; [by apply (about_same A (nre_round ev) m1)|done|done].
Qed.

Lemma new_round_event_proposals A ev : st_within (proposals_kept A) (process_new_round_event init_fuel ev).
Proof.
  intros m Hm. unfold process_new_round_event. unfold st_bind at 1, st_get.
  unfold st_bind at 1, on_proposer_election, st_zoom.
  destruct (is_valid_proposer _ _ (rm_proposer_election m)) as [e' [valid|?|?]] eqn:He;
    [|by apply (same_proposals_kept A m)..].
  set (m1 := put_proposer_election e' m).
  assert (H1 : proposals_ok A m1) by (by apply (same_proposals_kept A m)).
  destruct valid; [|done]. unfold st_bind. pose proof (generate_proposal_about A ev m1 H1) as H.
  destruct (rm_generate_proposal init_fuel ev m1) as [m2 [p|?|?]]; [|done..]. destruct H as (Hab & Hr & Hau).
  apply send_proposal; [by rewrite Hr|done|]. rewrite Hr. rewrite (po_author _ _ Hm) in He. eauto.
Qed.

End node.

(** ** A run of the sample node *)

Lemma st_result {St E A} (c : ST St E A) s x : (c s).2 = x → c s = ((c s).1, x).
Proof. intros <-. apply surjective_pairing. Qed.

(** It starts, receives its own proposal and votes, and then the round times out. *)
Definition own_proposal : NodeStep :=
  NodeEvent 1000 1 (VerifiedProposal (mkProposalMsg chain_block1 sample_sync_info)).
Definition round_timeout : NodeStep := NodeEvent 1000 1 (LocalTimeout 1).

Lemma sample_init : rm_init 1 None sample_manager = (started_manager, Ok ()).
Proof.
  assert (H : (rm_init 1 None sample_manager).2 = Ok ()) by by_vm.
  exact (st_result (rm_init 1 None) sample_manager _ H).
Qed.

Definition voted_manager : SampleManager := (node_step 1 own_proposal started_manager).1.

Lemma sample_steps : node_steps 1 started_manager [own_proposal] voted_manager.
Proof.
  apply (node_steps_snoc _ _ [] started_manager own_proposal _ (Ok ())); [apply node_steps_nil| |done].
  assert (H : (node_step 1 own_proposal started_manager).2 = Ok ()) by by_vm.
  exact (st_result (node_step 1 own_proposal) started_manager _ H).
Qed.

Lemma node_round_in_step_witness :
  rs_current_round (rm_round_state started_manager) = 1
  ∧ 1 ≤ rs_current_round (rm_round_state voted_manager) ∧ in_step voted_manager.
Proof.
  assert (H : rs_current_round (rm_round_state started_manager) = 1) by by_vm.
  split; [exact H|]. pose proof (node_round_in_step 1 None sample_manager started_manager [own_proposal]
    voted_manager sample_init sample_steps) as [H1 H2]. rewrite H in H1. exact (conj H1 H2).
Defined.


