(* ===== verification/NodeLiveness.v ===== *)
(** * NodeLiveness: a quorum of votes moves a node on

    When the votes for a block reach the quorum, the node that collects them inserts the
    certificate and enters the next round. *)

From S2P Require Import Prelude Crypto Accumulator ValidatorVerifier LedgerTypes EpochChange.
From S2P Require Import AccumulatorProof ConsensusTypes ConsensusMessages SafetyStorage SafetyRules.
From S2P Require Import CommitSafety BlockTree BlockTreeFacts BlockTreeInv BlockStore BlockStoreFacts.
From S2P Require Import BlockStoreSafety BlockRetrieval PendingVotes ProposerElection RoundState.
From S2P Require Import MetricsSafetyRules SyncManager RoundState RoundManager RoundManagerFacts.
From S2P Require Import BlockRetrieval NodeSafety.

Section liveness.
Context `{CC : ConsensusCrypto} {CL : CryptoLaws cc_crypto}.
Context {HLI : Inj (=) (=) (crypto_hash (T:=LedgerInfo))} `{HI : HashIter}.
Context {C P I T L M N S : Type} `{SC : StateComputer C} `{PS : PersistentLivenessStorage P}.
Context `{TI : RoundTimeInterval I} `{TS : TimeService T} `{PE : ProposerElection L}.
Context `{TM : TxnManager M} `{NW : PeerNetwork N} `{KV : KVStorage S} `{CS : CryptoStorage S}.
Local Abbreviation RM := (RoundManager C P I T L M N S).
Context (U : Block → Prop) (HU : chain_blocks U) (HC : collaborators (C:=C) (P:=P)).
Context (Hsave : ∀ qc (p : P), (save_tree [] [qc] p).2 = Ok ()).

(** The certificate of a block of the store, higher than the others, goes in. *)
Lemma insert_highest_cert qc eb (s : BlockStore C P) :
  store_inv U s → get_block (bs_inner s) (bi_id (qc_certified_block qc)) = Some eb →
  match_ordered_only (eb_block_info eb) (qc_certified_block qc) = true →
  insert_single_quorum_cert qc s
    = (put_inner (with_cert qc (bs_inner s)) (put_storage (save_tree [] [qc] (bs_storage s)).1 s), Ok ()).
Proof.
  intros ((hist & Hi) & _) Hb Hm. unfold insert_single_quorum_cert.
  unfold st_bind at 1, reading. rewrite Hb. simpl. rewrite Hm. unfold st_bind at 1, st_lift, ensure.
  unfold st_bind at 1, st_map_res, with_storage, st_zoom. specialize (Hsave qc (bs_storage s)).
  destruct (save_tree [] [qc] (bs_storage s)) as [p r]. simpl in *. subst r. simpl.
  unfold writing, st_zoom. simpl. rewrite (insert_quorum_cert_spec _ _ _ _ Hi).
  apply get_block_Some in Hb as (lb & -> & _). done.
Qed.

Lemma insert_cert_advances ts vv peer qc eb (s : BlockStore C P) (n : NetworkSender N) :
  store_inv U s → get_block (bs_inner s) (bi_id (qc_certified_block qc)) = Some eb →
  match_ordered_only (eb_block_info eb) (qc_certified_block qc) = true →
  get_quorum_cert_for_block (bs_inner s) (bi_id (qc_certified_block qc)) = None →
  round_of (bs_inner s) (bt_highest_certified_block_id (bs_inner s)) < qc_round qc →
  safe_cert (bs_inner s) qc → safe_commit (with_cert qc (bs_inner s)) (qc_signed_ledger_info qc) →
  let '(sn, r) := insert_quorum_cert_and_commit ts vv peer qc (s, n) in
  (∀ x, r ≠ Panic x) ∧ cert_view (bs_inner sn.1) = cert_view (with_cert qc (bs_inner s)).
Proof.
  intros Hinv Hb Hm Hnone Hlt Hsafe Hsc. pose proof Hinv as ((hist & Hi) & _). set (t := bs_inner s) in *.
  destruct (tree_inv_ordered _ _ _ Hi) as [lo Hlo].
  assert (Hroot : ordered_root (E:=string) t = Ok (lb_executed_block lo)).
  { unfold ordered_root, get_block, get_linkable_block. by rewrite Hlo. }
  assert (Hle : lb_round lo < qc_round qc).
  { destruct (tree_inv_certified _ _ _ Hi) as [lh Hlh]. rewrite (round_of_eq _ _ _ Hlh) in Hlt.
    destruct (reach_round _ (ti_links _ _ _ Hi) _ _ _ _ Hlo Hlh (ti_certified _ _ _ Hi)) as [Heq|?]; [|lia].
    rewrite Heq in Hlo. simplify_eq. done. }
  unfold insert_quorum_cert_and_commit. unfold st_bind at 1, on_store at 1, st_zoom at 1, reading at 1.
  unfold need_fetch_for_quorum_cert. simpl. fold t. rewrite Hroot. simpl. unfold lb_round in Hle.
  rewrite (proj2 (Z.ltb_ge _ _)) by lia.
  assert (Hex : block_exists t (bi_id (qc_certified_block qc)) = true).
  { unfold block_exists. apply get_block_Some in Hb as (lb & Hlb & _). by apply bool_decide_eq_true_2; exists lb. }
  rewrite Hnone, bool_decide_eq_false_2 by (by intros []). rewrite Hex.
  unfold st_bind at 1, on_store at 1, st_zoom at 1. simpl.
  pose proof (insert_single_quorum_cert_triple U HC qc s (conj Hinv Hsafe)) as Hs1.
  rewrite (insert_highest_cert qc eb s Hinv Hb Hm) in *. simpl. fold t in Hs1 |- *.
  set (s1 := put_inner (with_cert qc t) _) in *. destruct Hs1 as [_ Hs1].
  unfold st_bind at 1, on_store at 1, st_zoom at 1, reading at 1. simpl.
  assert (Hroot1 : ordered_root (E:=string) (with_cert qc t) = Ok (lb_executed_block lo)) by exact Hroot.
  rewrite Hroot1. destruct (_ <? _); [|done].
  unfold st_bind at 1, on_store at 1, st_zoom at 1. simpl.
  pose proof (commit_triple U HC (qc_signed_ledger_info qc) s1 (conj Hs1 Hsc)) as Hc.
  pose proof (commit_certs_same (qc_signed_ledger_info qc) s1) as Hv. unfold certs_same in Hv.
  destruct (commit (qc_signed_ledger_info qc) s1) as [s2 [[]|e|x]]; simpl in *; [|done|done].
  destruct (qc_ends_epoch qc); done.
Qed.

Lemma sync_info_certified t si :
  sync_info (E:=string) t = Ok si → qc_round (bt_highest_quorum_cert t) ≤ highest_round si.
Proof.
  unfold sync_info, SyncInfo_new_decoupled. destruct (_ || _); [|done]. intros [= <-].
  unfold highest_round, highest_certified_round. simpl. lia.
Qed.

(** A certificate higher than the ones known is the highest of the sync info. *)
Lemma sync_info_with_cert qc t si :
  sync_info (E:=string) t = Ok si →
  round_of t (bt_highest_certified_block_id t) < round_of t (bi_id (qc_certified_block qc)) →
  qc_round (bt_highest_quorum_cert t) ≤ qc_round qc → 0 ≤ qc_round qc →
  ∃ si', sync_info (E:=string) (with_cert qc t) = Ok si' ∧ qc_round qc ≤ highest_round si'
    ∧ highest_round si' ≤ Z.max (qc_round qc) (highest_round si).
Proof.
  unfold sync_info, SyncInfo_new_decoupled. intros Hsi Hlt Hle H0. unfold with_cert. simpl.
  rewrite (proj2 (Z.ltb_lt _ _) Hlt). set (q := bt_highest_quorum_cert t) in *.
  assert (Hf : ∀ A (f : A → Z) o, opt_filter (λ x, qc_round q <? f x) o = None →
    opt_filter (λ x, qc_round qc <? f x) o = None).
  { intros A f [x|]; [|done]. simpl. destruct (Z.ltb_spec (qc_round q) (f x)); [done|].
    intros _. by rewrite (proj2 (Z.ltb_ge _ _)) by lia. }
  assert (Hm : ∀ A (f : A → Z) o, from_option f 0 (opt_filter (λ x, qc_round qc <? f x) o)
    ≤ Z.max 0 (from_option f 0 (opt_filter (λ x, qc_round q <? f x) o))).
  { intros A f [x|]; [|done]. simpl.
    destruct (Z.ltb_spec (qc_round qc) (f x)), (Z.ltb_spec (qc_round q) (f x)); simpl; lia. }
  destruct (_ || _) eqn:Hor; [|done]. injection Hsi as <-. eexists.
  assert (Hor' : bool_decide (opt_filter (λ tc, qc_round qc <? to_round (tc_timeout tc)) (bt_highest_timeout_cert t) = None)
    || bool_decide (opt_filter (λ tc, qc_round qc <? tctc_round tc) (bt_highest_2chain_timeout_cert t) = None) = true).
  { apply orb_true_iff in Hor. apply orb_true_iff. rewrite !bool_decide_eq_true in *. destruct Hor; eauto. }
  rewrite Hor'. split; [done|]. unfold highest_round, highest_certified_round, highest_timeout_round. simpl.
  pose proof (Hm _ (λ tc, to_round (tc_timeout tc)) (bt_highest_timeout_cert t)).
  pose proof (Hm _ tctc_round (bt_highest_2chain_timeout_cert t)).
  cbv beta in *. lia.
Qed.

(** The vote that completes a quorum makes a certificate for its block. *)
Lemma quorum_certificate vv epoch round vote pv :
  vv_wf vv → 0 < round → vote_accepted vv epoch round vote → pv_inv vv epoch round pv →
  previous_vote_check pv vote = None →
  vv_quorum_voting_power vv ≤ power_of vv (voters_for (v_ledger_info vote) (insert_vote vote vv pv).1) →
  ∃ pv' qc, insert_vote vote vv pv = (pv', NewQuorumCertificate qc)
    ∧ qc_vote_data qc = v_vote_data vote
    ∧ lis_ledger_info (qc_signed_ledger_info qc) = v_ledger_info vote.
Proof.
  intros Hwf Hr Hacc Hinv Hprev Hq.
  destruct (proj2 (insert_vote_quorum vv epoch round Hwf vote pv Hacc Hprev Hinv) Hq) as [qc Hqc].
  destruct (insert_vote vote vv pv) as [pv' res] eqn:Hins. simpl in Hqc. subst res.
  exists pv', qc. split; [done|]. unfold insert_vote in Hins. rewrite Hprev in Hins.
  destruct (previous_lis vv epoch round pv vote Hinv) as [Hli _].
  destruct (check_voting_power vv _) as [[]|[]|]; try (by simplify_eq).
  destruct (process_timeout vote vv _) as [pv1 [r|]] eqn:Ht.
  - apply (f_equal snd) in Ht. injection Hins as _ ->. by apply process_timeout_no_qc in Ht.
  - destruct (process_2chain_timeout vote vv pv1) as [pv2 [r|]] eqn:H2; [|done].
    apply (f_equal snd) in H2. injection Hins as _ ->. by apply process_2chain_no_qc in H2.
Qed.

(** A newly made certificate, once inserted, takes the node to the round after it. *)
Lemma new_qc_moves_round ts fuel qc eb peer si (m : RM) :
  let t := bs_inner (rm_block_store m) in
  store_inv U (rm_block_store m) → get_block t (bi_id (qc_certified_block qc)) = Some eb →
  match_ordered_only (eb_block_info eb) (qc_certified_block qc) = true →
  get_quorum_cert_for_block t (bi_id (qc_certified_block qc)) = None →
  round_of t (bt_highest_certified_block_id t) < qc_round qc →
  safe_cert t qc → safe_commit (with_cert qc t) (qc_signed_ledger_info qc) →
  sync_info (E:=string) t = Ok si → qc_round (bt_highest_quorum_cert t) ≤ qc_round qc →
  0 ≤ qc_round qc < 2 ^ 64 - 1 → highest_round si < 2 ^ 64 - 1 →
  qc_round qc < rs_current_round (rm_round_state (new_qc_aggregated ts fuel qc peer m).1).
Proof.
  intros t Hinv Hb Hm Hnone Hlt Hsafe Hsc Hsi Hhqc Hq Hr.
  unfold new_qc_aggregated. unfold st_bind at 1, st_get, then_process_certificates, st_map_res.
  unfold on_sync, st_zoom at 1. simpl.
  pose proof (insert_cert_advances ts (es_verifier (rm_epoch_state m)) peer qc eb _ (rm_network m)
    Hinv Hb Hm Hnone Hlt Hsafe Hsc) as H.
  destruct (insert_quorum_cert_and_commit _ _ _ _ _) as [[s n] r]. destruct H as [Hp Hview].
  assert (Heq : round_of t (bi_id (qc_certified_block qc)) = qc_round qc).
  { apply get_block_Some in Hb as (lb & Hlb & <-). rewrite (round_of_eq _ _ _ Hlb).
    unfold match_ordered_only in Hm. rewrite !andb_true_iff, !Z.eqb_eq in Hm. tauto. }
  destruct (sync_info_with_cert qc t si Hsi) as (si' & Hsi' & Hle & Hle'); [lia..|].
  destruct (sync_info_view _ _ _ (eq_sym Hview) Hsi') as (si2 & Hsi2 & Hr2 & _).
  set (m1 := put_block_store s (put_network n m)). pose proof (certificates_round fuel m1 si2 Hsi2) as Hround.
  unfold wrap64 in Hround. rewrite Hr2, Z.mod_small in Hround by lia.
  destruct r as [u|e|x]; [| |by destruct (Hp x)];
    simpl; unfold st_bind; fold m1; destruct (process_certificates fuel m1) as [m2 [[]|e'|x]]; simpl in *; lia.
Qed.

(** A message of the round with nothing newer than the node has is processed at once. *)
Lemma nothing_to_sync ts fuel round si peer local (m : RM) :
  round = rs_current_round (rm_round_state m) →
  sync_info (E:=string) (bs_inner (rm_block_store m)) = Ok local →
  has_newer_certificates si local = false →
  ∃ n, ensure_round_and_sync_up ts fuel round si peer true m = (put_network n m, Ok true).
Proof.
  intros -> Hsi Hnew. unfold ensure_round_and_sync_up. unfold st_bind at 1, st_get at 1.
  rewrite Z.ltb_irrefl. unfold sync_up, st_bind, on_tree, on_block_store, st_zoom, reading. rewrite Hsi, Hnew.
  destruct m. destruct (true && _); simpl; rewrite Z.eqb_refl; by eexists.
Qed.

(** What the node does with a vote, by the outcome of its insertion. *)
Definition vote_outcome ts fuel (author : Author) (r : VoteReceptionResult) : ST RM string unit :=
  match r with
  | NewQuorumCertificate qc => new_qc_aggregated ts fuel qc author
  | NewTimeoutCertificate tc => new_tc_aggregated fuel tc
  | New2ChainTimeoutCertificate tc => new_2chain_tc_aggregated fuel tc
  | ReceptionPanic msg => st_lift (Panic msg)
  | _ => st_ret ()
  end.

(** A vote of the round for a block not certified yet goes to the pending votes. *)
Lemma vote_inserted ts fuel vote (m : RM) :
  v_round vote = rs_current_round (rm_round_state m) →
  (v_is_timeout vote = true
   ∨ (is_valid_proposer (pg_author (rm_proposal_generator m)) (wrap64 (v_round vote + 1))
       (rm_proposer_election m)).2 = Ok true) →
  get_quorum_cert_for_block (bs_inner (rm_block_store m)) (bi_id (vd_proposed (v_vote_data vote))) = None →
  ∃ m1, rm_block_store m1 = rm_block_store m ∧
    process_vote ts fuel vote m
      = vote_outcome ts fuel (v_author vote)
          (insert_vote vote (es_verifier (rm_epoch_state m)) (rs_pending_votes (rm_round_state m))).2 m1.
Proof.
  intros Hround Hprop Hnone. unfold process_vote. unfold st_bind at 1, st_get at 1.
  set (c := if v_is_timeout vote then _ else _).
  assert (∃ e, c m = (put_proposer_election e m, Ok ())) as [e Hc].
  { subst c. destruct (v_is_timeout vote); [by exists (rm_proposer_election m); destruct m|].
    destruct Hprop as [|Hprop]; [done|]. unfold st_bind, on_proposer_election, st_zoom.
    destruct (is_valid_proposer _ _ _) as [e r]. simpl in Hprop. subst r. by exists e. }
  unfold st_bind at 1. rewrite Hc. unfold st_bind at 1, on_tree, on_block_store, st_zoom, reading. simpl.
  rewrite Hnone, bool_decide_eq_false_2 by (by intros []). unfold st_bind, on_round_state, st_zoom. simpl.
  unfold rs_insert_vote. rewrite (proj2 (Z.eqb_eq _ _) Hround).
  destruct (insert_vote _ _ _) as [pv r]. simpl. eexists. split; [|unfold vote_outcome; reflexivity]. done.
Qed.

End liveness.

(** ** The third vote of the sample node *)

Definition chain_vote (i : Z) : Vote := block_vote construct_ledger_info_2chain chain_block1 i.
(** The node has collected its own vote and the one of validator 2. *)
Definition waiting_manager : SampleManager :=
  put_round_state
    (set_pending_votes (insert_votes (chain_vote <$> [1; 2]) four_validators PendingVotes_new).1
       (rm_round_state voted_manager)) voted_manager.

Lemma chain_votes_accepted : Forall (vote_accepted four_validators 2 1) (chain_vote <$> [1; 2; 3]).
Proof.
  repeat apply Forall_cons_2; try apply Forall_nil_2; (split; [by_vm..|]); intros t s H; discriminate H.
Qed.

Lemma waiting_store : rm_block_store waiting_manager = run_ops [OpBlock chain_block1] sample_store.
Proof. by_vm. Qed.

Lemma waiting_store_inv : store_inv chain_sample (run_ops [OpBlock chain_block1] sample_store).
Proof.
  refine (store_run_inv chain_sample chain_sample_blocks _ _ _ sample_collaborators
           (store_start_inv chain_sample chain_sample_blocks _ sample_store_start) _).
  apply (store_run_ops _ []); [constructor|right; left].
Qed.

Lemma waiting_sync : sync_info (E:=string) (bs_inner (rm_block_store waiting_manager)) = Ok sample_sync_info.
Proof. by_vm. Qed.

Lemma waiting_in_step : in_step waiting_manager.
Proof.
  assert (Hr : (wrap64 (highest_round sample_sync_info + 1) <=? rs_current_round (rm_round_state waiting_manager)) = true)
    by by_vm.
  intros si. rewrite waiting_sync. intros [= <-]. by apply Z.leb_le.
Qed.

Lemma waiting_pending : pv_inv four_validators 2 1 (rs_pending_votes (rm_round_state waiting_manager)).
Proof.
  pose proof chain_votes_accepted as Hv.
  apply (insert_votes_inv four_validators 2 1 (proj1 four_validators_bft) eq_refl);
    [|apply pv_inv_new]. simpl in *. by repeat (apply Forall_cons in Hv as [? Hv]; constructor; [done|]).
Qed.

(** The certificate is on a child of the root, and commits no more than the root. *)
Lemma waiting_safe (qc : QuorumCert) :
  let t := bs_inner (rm_block_store waiting_manager) in
  qc_vote_data qc = v_vote_data (chain_vote 3) →
  lis_ledger_info (qc_signed_ledger_info qc) = v_ledger_info (chain_vote 3) →
  safe_cert t qc ∧ safe_commit (with_cert qc t) (qc_signed_ledger_info qc).
Proof.
  intros t Hvd Hli. subst t. rewrite waiting_store. set (t := bs_inner _). split.
  - intros _ _. unfold qc_certified_block. rewrite Hvd. apply rtc_once, edge_compute. by_vm.
  - unfold safe_commit, lis_commit_info. rewrite Hli. cbv zeta. intros _.
    assert (Hid : bi_id (li_commit_info (v_ledger_info (chain_vote 3))) = bt_ordered_root_id t) by by_vm.
    assert (Hr : bi_round (li_commit_info (v_ledger_info (chain_vote 3))) = round_of t (bt_ordered_root_id t)) by by_vm.
    rewrite Hid, Hr. split; [done|]. intros H. exfalso. apply (Z.lt_irrefl _ H).
Qed.

