(* ===== verification/MVHashMap.v ===== *)
(** * MVHashMap: the multi-version map of the parallel executor

    Models src/diem-move/mvhashmap/src/lib.rs.  A cell is written or skipped at most once; a
    second assignment fails an assertion, which is a panic here.  The hash map is a finite map;
    the code iterates over it only to take a maximum.  Shows that the construction by parallel
    splitting builds the same map as the sequential one, and what a read finds. *)

From S2P Require Import Prelude.

Local Open Scope nat_scope.

(** [OnceCell<Option<V>>]: [None] is not assigned, [Some None] is skipped. *)
Abbreviation WriteCell V := (option (option V)).

Definition WriteCell_new {V} : WriteCell V := None.
Definition is_assigned {V} (c : WriteCell V) : bool := bool_decide (is_Some c).
Definition cell_set {E V} (c : WriteCell V) (v : option V) : Result E (WriteCell V) :=
  if is_assigned c then Panic "assertion failed: self.0.set(..).is_ok()" else Ok (Some v).
Definition cell_write {E V} (c : WriteCell V) (v : V) : Result E (WriteCell V) := cell_set c (Some v).
Definition cell_skip {E V} (c : WriteCell V) : Result E (WriteCell V) := cell_set c None.

Inductive MVError := UnexpectedWrite | NotInMap.

Definition PARALLEL_THRESHOLD : nat := 1000.

Section mvhashmap.
Context {K V : Type} `{HK : Countable K}.

(** [BTreeMap<Version, WriteCell<V>>] *)
Local Abbreviation Cells := (gmap nat (WriteCell V)).
Local Abbreviation MVHashMap := (gmap K Cells).
Implicit Types (m : MVHashMap) (possible_writes : list (K * nat)).

(** [entry(key).or_default().insert(version, WriteCell::new())] *)
Definition insert_cell m (w : K * nat) : MVHashMap :=
  <[w.1 := <[w.2 := WriteCell_new]> (default ∅ (m !! w.1))]> m.

Definition max_len m : nat := map_fold (λ _ cells n, Nat.max n (size cells)) 0 m.

Definition new_from possible_writes : MVHashMap * nat :=
  let outer_map := fold_left insert_cell possible_writes ∅ in
  (outer_map, max_len outer_map).

Definition get_entry m (key : K) (version : nat) : Result MVError (WriteCell V) :=
  let? cells := ok_or (m !! key) UnexpectedWrite in
  ok_or (cells !! version) UnexpectedWrite.

Definition set_entry m (key : K) (version : nat) (c : WriteCell V) : MVHashMap :=
  <[key := <[version := c]> (default ∅ (m !! key))]> m.

Definition mv_write m (key : K) (version : nat) (data : V) : Result MVError MVHashMap :=
  let? entry := get_entry m key version in
  let? c := cell_write entry data in
  Ok (set_entry m key version c).

Definition mv_skip m (key : K) (version : nat) : Result MVError MVHashMap :=
  let? entry := get_entry m key version in
  let? c := cell_skip entry in
  Ok (set_entry m key version c).

Definition skip_if_not_set m (key : K) (version : nat) : Result MVError MVHashMap :=
  let? entry := get_entry m key version in
  if is_assigned entry then Ok m
  else let? c := cell_skip entry in Ok (set_entry m key version c).

(** What a read returns: [Ok(v)], [Err(None)] or [Err(Some(version))]. *)
Inductive ReadResult :=
| ReadValue (v : V)
| ReadNothing
| ReadBlocked (version : nat).

(** The entries below [version], from the highest on. *)
Fixpoint read_below (cells : Cells) (version : nat) : ReadResult :=
  match version with
  | O => ReadNothing
  | S version =>
      match cells !! version with
      | None | Some (Some None) => read_below cells version
      | Some (Some (Some v)) => ReadValue v
      | Some None => ReadBlocked version
      end
  end.

Definition mv_read m (key : K) (version : nat) : ReadResult :=
  match m !! key with
  | None => ReadNothing
  | Some cells => read_below cells version
  end.

(** ** Construction in parallel *)

Context (key_lt : K → K → bool).

(** The loop of one part: the map and the largest number of versions of a key. *)
Definition insert_counting (acc : nat * MVHashMap) (w : K * nat) : nat * MVHashMap :=
  let place := <[w.2 := WriteCell_new]> (default ∅ (acc.2 !! w.1)) in
  (Nat.max acc.1 (size place), <[w.1 := place]> acc.2).

Fixpoint split_merge {E} (fuel num_cpus recursion_depth : nat) (split : list (K * nat))
    : Result E (nat * MVHashMap) :=
  match fuel with
  | O => Panic "out of fuel"
  | S fuel =>
      if (num_cpus <? 2 ^ recursion_depth) || (length split <? PARALLEL_THRESHOLD) then
        Ok (fold_left insert_counting split (0, ∅))
      else
        let? pivot := expect (split !! (length split / 2)) "index out of bounds" in
        let left := filter (λ w, key_lt w.1 pivot.1 = true) split in
        let right := filter (λ w, key_lt w.1 pivot.1 ≠ true) split in
        let? (m0, left_map) := split_merge fuel num_cpus (recursion_depth + 1) left in
        let? (m1, right_map) := split_merge fuel num_cpus (recursion_depth + 1) right in
        Ok (Nat.max m0 m1, right_map ∪ left_map)
  end.

(** The recursion stops at depth [d] with [2 ^ d > num_cpus]. *)
Definition new_from_parallel {E} (num_cpus : nat) possible_writes : Result E (MVHashMap * nat) :=
  let? (max_dependency_len, data) := split_merge (num_cpus + 1) num_cpus 0 possible_writes in
  Ok (data, max_dependency_len).
End mvhashmap.
Arguments ReadResult : clear implicits.
Abbreviation MVHashMap K V := (gmap K (gmap nat (WriteCell V))).

(** ** Facts *)

Section facts.
Context {K V : Type} `{HK : Countable K}.
Implicit Types (m : MVHashMap K V) (l : list (K * nat)).

(** The largest number of versions of a key, by what it is. *)
Definition is_max_len m n : Prop :=
  (∀ k cells, m !! k = Some cells → size cells ≤ n) ∧
  (n = 0 ∨ ∃ k cells, m !! k = Some cells ∧ size cells = n).

Lemma is_max_len_unique m n1 n2 : is_max_len m n1 → is_max_len m n2 → n1 = n2.
Proof.
  intros [H1 [->|(k1 & c1 & Hk1 & <-)]] [H2 [->|(k2 & c2 & Hk2 & <-)]]; [done|..].
  - specialize (H1 _ _ Hk2). lia.
  - specialize (H2 _ _ Hk1). lia.
  - specialize (H1 _ _ Hk2). specialize (H2 _ _ Hk1). lia.
Qed.

Lemma is_max_len_empty : is_max_len ∅ 0.
Proof. split; [|by left]. intros k cells. by rewrite lookup_empty. Qed.

Lemma is_max_len_insert m n k cells :
  is_max_len m n → size (default ∅ (m !! k)) ≤ size cells →
  is_max_len (<[k := cells]> m) (Nat.max n (size cells)).
Proof.
  intros [H1 H2] Hsize. split.
  - intros k' cells' [[-> ->]|[_ Hk']]%lookup_insert_Some; [lia|]. specialize (H1 _ _ Hk'). lia.
  - destruct (Nat.max_spec n (size cells)) as [[Hlt ->]|[Hle ->]].
    { right. exists k, cells. by rewrite lookup_insert_eq. }
    destruct H2 as [->|(k' & cells' & Hk' & Heq)]; [by left|]. right.
    destruct (decide (k' = k)) as [->|Hne].
    + exists k, cells. rewrite lookup_insert_eq. rewrite Hk' in Hsize. simpl in Hsize. split; [done|lia].
    + exists k', cells'. by rewrite lookup_insert_ne.
Qed.

Lemma max_len_spec m : is_max_len m (max_len m).
Proof.
  unfold max_len. induction m as [|k cells m Hk IH] using map_ind.
  { rewrite map_fold_empty. apply is_max_len_empty. }
  rewrite map_fold_insert_L; [|intros; lia|done].
  apply is_max_len_insert; [done|]. rewrite Hk. simpl. rewrite map_size_empty. lia.
Qed.

(** The versions listed for a key. *)
Definition versions_of (k : K) l : list nat := (filter (λ w, w.1 = k) l).*2.

(** The map holds the listed cells, none of them assigned. *)
Definition holds_cells l m : Prop :=
  ∀ k, m !! k = match versions_of k l with
                | [] => None
                | _ => Some (gset_to_gmap WriteCell_new (list_to_set (versions_of k l)))
                end.

Lemma holds_cells_unique l m m' : holds_cells l m → holds_cells l m' → m = m'.
Proof. intros H H'. apply map_eq. intros k. by rewrite H, H'. Qed.

Lemma holds_cells_empty : holds_cells [] (∅ : MVHashMap K V).
Proof. intros k. by rewrite lookup_empty. Qed.

Lemma holds_cells_default l m k :
  holds_cells l m → default ∅ (m !! k) = gset_to_gmap WriteCell_new (list_to_set (versions_of k l)).
Proof.
  intros H. rewrite H. destruct (versions_of k l) as [|v vs]; simpl; [|done]. by rewrite gset_to_gmap_empty.
Qed.

Lemma versions_of_app k l l' : versions_of k (l ++ l') = versions_of k l ++ versions_of k l'.
Proof. unfold versions_of. by rewrite filter_app, fmap_app. Qed.

Lemma versions_of_one k w : versions_of k [w] = if decide (w.1 = k) then [w.2] else [].
Proof.
  unfold versions_of. destruct (decide (w.1 = k)); [by rewrite filter_cons_True|by rewrite filter_cons_False].
Qed.

Lemma holds_cells_insert l m w : holds_cells l m → holds_cells (l ++ [w]) (insert_cell m w).
Proof.
  intros H k. unfold insert_cell. rewrite versions_of_app, versions_of_one.
  rewrite (holds_cells_default _ _ _ H). destruct (decide (w.1 = k)) as [->|Hne].
  - rewrite lookup_insert_eq. rewrite <- gset_to_gmap_union_singleton.
    rewrite list_to_set_app_L. simpl. destruct (versions_of k l ++ [w.2]) eqn:Hvs; [by destruct (versions_of k l)|].
    do 2 f_equal. set_solver.
  - rewrite lookup_insert_ne by done. rewrite app_nil_r. apply H.
Qed.

Lemma holds_cells_fold l l0 m :
  holds_cells l0 m → holds_cells (l0 ++ l) (fold_left insert_cell l m).
Proof.
  revert l0 m. induction l as [|w l IH]; intros l0 m Hm; simpl; [by rewrite app_nil_r|].
  rewrite (cons_middle w). rewrite app_assoc. by apply IH, holds_cells_insert.
Qed.

Lemma new_from_holds l : holds_cells l (new_from (V:=V) l).1.
Proof. apply (holds_cells_fold l []), holds_cells_empty. Qed.

Lemma insert_counting_fold l n m :
  is_max_len m n →
  ∃ n', fold_left insert_counting l (n, m) = (n', fold_left insert_cell l m)
    ∧ is_max_len (fold_left insert_cell l m) n'.
Proof.
  revert n m. induction l as [|[k v] l IH]; intros n m Hn; simpl; [by exists n|].
  apply IH, is_max_len_insert; [done|].
  simpl. rewrite map_size_insert. case_match; simpl; lia.
Qed.

(** A part of the keys. *)
Lemma versions_of_filter (P : K → Prop) `{!∀ k, Decision (P k)} k l :
  versions_of k (filter (λ w, P w.1) l) = if decide (P k) then versions_of k l else [].
Proof.
  induction l as [|w l IH]; [by destruct (decide (P k))|].
  rewrite filter_cons.
  change (w :: l) with ([w] ++ l). rewrite (versions_of_app k [w] l), versions_of_one.
  destruct (decide (P w.1)) as [Hw|Hw].
  - change (w :: filter (λ w, P w.1) l) with ([w] ++ filter (λ w, P w.1) l).
    rewrite versions_of_app, versions_of_one, IH.
    destruct (decide (w.1 = k)) as [<-|Hne]; [by rewrite !decide_True|done].
  - rewrite IH. destruct (decide (w.1 = k)) as [<-|Hne]; [by rewrite !decide_False|done].
Qed.

Lemma holds_cells_union (P Q : K → Prop) `{!∀ k, Decision (P k), !∀ k, Decision (Q k)} l m1 m2 :
  (∀ k, Q k ↔ ¬ P k) →
  holds_cells (filter (λ w, P w.1) l) m1 → holds_cells (filter (λ w, Q w.1) l) m2 →
  holds_cells l (m2 ∪ m1) ∧ ∀ k, m1 !! k = None ∨ m2 !! k = None.
Proof.
  intros HQ H1 H2.
  assert (Hk : ∀ k, (m1 !! k = None ∨ m2 !! k = None) ∧ (m2 ∪ m1) !! k = match versions_of k l with
                | [] => None
                | _ => Some (gset_to_gmap WriteCell_new (list_to_set (versions_of k l)))
                end); [|split; intros k; apply Hk].
  intros k. specialize (H1 k). specialize (H2 k). rewrite lookup_union, H1, H2.
  rewrite (versions_of_filter P k l), (versions_of_filter Q k l). specialize (HQ k).
  destruct (decide (P k)), (decide (Q k)); try tauto; destruct (versions_of k l); auto.
Qed.

Lemma is_max_len_union m1 m2 n1 n2 :
  (∀ k, m1 !! k = None ∨ m2 !! k = None) → is_max_len m1 n1 → is_max_len m2 n2 →
  is_max_len (m2 ∪ m1) (Nat.max n1 n2).
Proof.
  intros Hdis [H1 H1'] [H2 H2']. split.
  - intros k cells [Hk|[_ Hk]]%lookup_union_Some_raw.
    + specialize (H2 _ _ Hk). lia.
    + specialize (H1 _ _ Hk). lia.
  - destruct (Nat.max_spec n1 n2) as [[_ ->]|[_ ->]].
    + destruct H2' as [->|(k & cells & Hk & <-)]; [by left|]. right. exists k, cells.
      by rewrite lookup_union_Some_raw; split; [left|].
    + destruct H1' as [->|(k & cells & Hk & <-)]; [by left|]. right. exists k, cells.
      rewrite lookup_union_Some_raw. split; [right|done]. split; [|done].
      destruct (Hdis k); congruence.
Qed.

Lemma split_merge_spec {E} key_lt fuel num_cpus depth l :
  0 < fuel → num_cpus < fuel + depth →
  ∃ n m, split_merge (E:=E) (V:=V) key_lt fuel num_cpus depth l = Ok (n, m)
    ∧ holds_cells l m ∧ is_max_len m n.
Proof.
  revert depth l. induction fuel as [|fuel IH]; intros depth l H0 Hfuel; [lia|].
  cbn [split_merge].
  destruct (num_cpus <? 2 ^ depth) eqn:Hcpus; cbn [orb].
  2: destruct (Nat.ltb_spec (length l) PARALLEL_THRESHOLD) as [_|Hlen].
  1,2: destruct (insert_counting_fold l 0 ∅ is_max_len_empty) as (n & -> & Hn);
    eexists n, _; split; [done|]; split; [|done]; apply (holds_cells_fold l []), holds_cells_empty.
  apply Nat.ltb_ge in Hcpus. pose proof (Nat.pow_gt_lin_r 2 depth ltac:(lia)) as Hpow.
  destruct (l !! (length l / 2)) as [pivot|] eqn:Hp; cbn [expect r_bind].
  2: { apply lookup_ge_None in Hp. unfold PARALLEL_THRESHOLD in Hlen.
       pose proof (Nat.div_lt (length l) 2). lia. }
  destruct (IH (depth + 1) (filter (λ w, key_lt w.1 pivot.1 = true) l)) as (n1 & m1 & -> & Hm1 & Hn1); [lia..|].
  destruct (IH (depth + 1) (filter (λ w, key_lt w.1 pivot.1 ≠ true) l)) as (n2 & m2 & -> & Hm2 & Hn2); [lia..|].
  simpl. exists (Nat.max n1 n2), (m2 ∪ m1). split; [done|].
  destruct (holds_cells_union (λ k, key_lt k pivot.1 = true) (λ k, key_lt k pivot.1 ≠ true) l m1 m2)
    as [Hu Hdis]; [done..|]. split; [done|]. by apply is_max_len_union.
Qed.
Lemma new_from_parallel_spec {E} key_lt num_cpus l :
  ∃ m n, new_from_parallel (E:=E) (V:=V) key_lt num_cpus l = Ok (m, n) ∧ holds_cells l m ∧ is_max_len m n.
Proof.
  unfold new_from_parallel.
  destruct (split_merge_spec (E:=E) key_lt (num_cpus + 1) num_cpus 0 l) as (n & m & -> & Hm & Hn); [lia..|].
  by exists m, n.
Qed.
End facts.

(** The map built in parallel is the map.  On any number of processors, and whatever the
    order of the keys, the divide-and-conquer construction returns exactly the map and the
    largest number of versions per key that the sequential construction returns. *)
Theorem new_from_parallel_equiv {K V E : Type} `{HK : Countable K} (key_lt : K → K → bool)
    num_cpus (possible_writes : list (K * nat)) :
  new_from_parallel (E:=E) (V:=V) key_lt num_cpus possible_writes = Ok (new_from possible_writes).
Proof.
  destruct (new_from_parallel_spec (V:=V) (E:=E) key_lt num_cpus possible_writes) as (m & n & -> & Hm & Hn).
  assert (m = (new_from possible_writes).1) as ->.
  { apply (holds_cells_unique possible_writes); [done|apply new_from_holds]. }
  unfold new_from. simpl in *. do 2 f_equal. apply (is_max_len_unique _ _ _ Hn), max_len_spec.
Qed.
