(* ===== verification/ParallelExecutor.v ===== *)
(** * ParallelExecutor: execution of a block of transactions by several threads

    Models src/diem-move/parallel-executor/src (task.rs, errors.rs, scheduler.rs,
    outcome_array.rs, executor.rs).  The threads share the multi-version map, the scheduler and
    the array of outcomes.  Each is a machine whose steps access the shared state once: an
    operation on an atomic, on the lock-free queue or on a write-once cell, or a critical
    section of a dependency list (the only access that it can interleave with, the store of a
    status, commutes with the push).  A schedule says which thread takes the next step.  Memory
    is sequentially consistent; indices are natural numbers, all below the number of
    transactions plus the number of threads. *)

From S2P Require Import Prelude MVHashMap.

Local Open Scope nat_scope.

(** ** task.rs, errors.rs *)

Inductive ExecutionStatus (O E : Type) :=
| Success (output : O)
| Abort (err : E)
| SkipRest (output : O).
Arguments Success {O E}.
Arguments Abort {O E}.
Arguments SkipRest {O E}.

Inductive ExecError (E : Type) :=
| InvariantViolation
| InferencerError
| UnestimatedWrite
| UserError (err : E).
Arguments InvariantViolation {E}.
Arguments InferencerError {E}.
Arguments UnestimatedWrite {E}.
Arguments UserError {E}.

Record Accesses (K : Type) := mkAccesses {
  keys_read : list K;
  keys_written : list K;
}.
Arguments mkAccesses {K}.
Arguments keys_read {K}.
Arguments keys_written {K}.

(** What [ExecutorTask::execute_transaction] does with its view: it reads keys, one after the
    other, and returns a status.  A read gives [Ok(value)] or the error of a dependency that
    is not computed yet, here [None]. *)
Inductive Task (K V O E : Type) :=
| TaskReturn (status : ExecutionStatus O E)
| TaskRead (key : K) (cont : option (option V) → Task K V O E).
Arguments TaskReturn {K V O E}.
Arguments TaskRead {K V O E}.

(** ** scheduler.rs *)

Record Scheduler := mkScheduler {
  execution_marker : nat;
  stop_at_version : nat;
  txn_buffer : list nat;
  txn_dependency : list (list nat);
  txn_status : list bool;
}.

Definition Scheduler_new (num_txns : nat) : Scheduler :=
  mkScheduler 0 num_txns [] (replicate num_txns []) (replicate num_txns false).

(** [txn_buffer.pop()] *)
Definition pop_buffer (s : Scheduler) : option (nat * Scheduler) :=
  match txn_buffer s with
  | [] => None
  | version :: buffer =>
      Some (version, mkScheduler (execution_marker s) (stop_at_version s) buffer (txn_dependency s) (txn_status s))
  end.
(** [execution_marker.fetch_add(1)] *)
Definition fetch_marker (s : Scheduler) : nat * Scheduler :=
  (execution_marker s,
   mkScheduler (execution_marker s + 1) (stop_at_version s) (txn_buffer s) (txn_dependency s) (txn_status s)).
Definition num_txn_to_execute (s : Scheduler) : nat := stop_at_version s.

Definition set_dependency (version : nat) (deps : list nat) (s : Scheduler) : Scheduler :=
  mkScheduler (execution_marker s) (stop_at_version s) (txn_buffer s)
    (<[version := deps]> (txn_dependency s)) (txn_status s).

Definition add_dependency {E} (version dep_version : nat) (s : Scheduler) : Result E (Scheduler * bool) :=
  let? stored_deps := expect (txn_dependency s !! dep_version) "index out of bounds" in
  let? status := expect (txn_status s !! dep_version) "index out of bounds" in
  if (status : bool) then Ok (s, false)
  else Ok (set_dependency dep_version (stored_deps ++ [version]) s, true).

(** The parts of [finish_execution]: the status, the list, the pushes. *)
Definition store_executed (version : nat) (s : Scheduler) : Scheduler :=
  mkScheduler (execution_marker s) (stop_at_version s) (txn_buffer s) (txn_dependency s)
    (<[version := true]> (txn_status s)).
Definition take_dependencies {E} (version : nat) (s : Scheduler) : Result E (Scheduler * list nat) :=
  let? stored_deps := expect (txn_dependency s !! version) "index out of bounds" in
  Ok (set_dependency version [] s, merge_sort (≤) stored_deps).
Definition add_transaction (version : nat) (s : Scheduler) : Scheduler :=
  mkScheduler (execution_marker s) (stop_at_version s) (txn_buffer s ++ [version]) (txn_dependency s) (txn_status s).

Definition set_stop_version (stop_version : nat) (s : Scheduler) : Scheduler :=
  mkScheduler (execution_marker s) (Nat.min (stop_at_version s) stop_version) (txn_buffer s)
    (txn_dependency s) (txn_status s).

Section executor.
Context {K V T O E : Type} `{HK : Countable K}.
Local Abbreviation Task := (Task K V O E).
Local Abbreviation Outcome := (ExecutionStatus O (ExecError E)).

(** The traits Transaction, TransactionOutput, ExecutorTask and ReadWriteSetInferencer. *)
Context (key_lt : K → K → bool) (get_writes : O → list (K * V)) (skip_output : O).
Context (execute_transaction : T → Task) (infer_reads_writes : T → option (Accesses K)).

(** ** outcome_array.rs *)

Local Abbreviation OutcomeArray := (list (option Outcome)).

Definition OutcomeArray_new (len : nat) : OutcomeArray := replicate len None.

Definition set_result (idx : nat) (res : Outcome) (outcomes : OutcomeArray) : Result (ExecError E) OutcomeArray :=
  let? entry := expect (outcomes !! idx) "index out of bounds" in
  match entry with
  | None => Ok (<[idx := Some res]> outcomes)
  | Some _ => Panic "assertion failed: entry.set(res).is_ok()"
  end.

(** The loop of [get_all_results] from index [idx] on. *)
Fixpoint collect_results (stop_at idx : nat) (results : OutcomeArray) : Result (ExecError E) (list O) :=
  match results with
  | [] => Ok []
  | status :: results =>
      let? t :=
        match status with
        | Some (Success t) => Ok t
        | Some (SkipRest t) => if idx =? stop_at - 1 then Ok t else Err InvariantViolation
        | Some (Abort err) => Err err
        | None => Err InvariantViolation
        end in
      let? final_results := collect_results stop_at (idx + 1) results in
      Ok (t :: final_results)
  end.

Definition get_all_results (stop_at : nat) (outcomes : OutcomeArray) : Result (ExecError E) (list O) :=
  let? final_results := collect_results stop_at 0 (take stop_at outcomes) in
  if length final_results =? stop_at
  then Ok (resize (length outcomes) skip_output final_results)
  else Panic "assertion failed: final_results.len() == stop_at".

(** ** executor.rs *)

(** The state the threads share. *)
Record Shared := mkShared {
  versioned_data_cache : MVHashMap K V;
  scheduler : Scheduler;
  outcomes : OutcomeArray;
}.
Definition with_cache (m : MVHashMap K V) (sh : Shared) : Shared := mkShared m (scheduler sh) (outcomes sh).
Definition with_scheduler (s : Scheduler) (sh : Shared) : Shared :=
  mkShared (versioned_data_cache sh) s (outcomes sh).
Definition with_outcomes (o : OutcomeArray) (sh : Shared) : Shared :=
  mkShared (versioned_data_cache sh) (scheduler sh) o.

(** Where a thread is in its loop. *)
Inductive Thread :=
(** [next_txn_to_execute]: before the pop, before the [fetch_add], before the comparison *)
| AtNext
| AtFetch
| AtBound (next_to_execute : nat)
(** the keys of the estimated read set still to look up, and the dependency one of them has *)
| AtCheck (idx : nat) (keys : list K)
| AtCheckDep (idx dep_id : nat) (keys : list K)
(** running the transaction, with the flag [has_unexpected_read] of the view, and the parts
    of a read that found a dependency *)
| AtRun (idx : nat) (task : Task) (has_unexpected_read : bool)
| AtReadDep (idx dep_idx : nat) (task : Task)
| AtRequeue (idx : nat) (task : Task)
(** committing the writes left of an output *)
| AtWrite (idx : nat) (writes : list (K * V)) (output : O) (skip_rest : bool)
| AtStop (idx : nat) (commit_result : Outcome)
(** skipping the estimated keys that were not written *)
| AtSkip (idx : nat) (keys : list K) (commit_result : Outcome)
(** [finish_execution] after the status was stored, and the outcome *)
| AtTake (idx : nat) (commit_result : Outcome)
| AtPush (idx : nat) (deps : list nat) (commit_result : Outcome)
| Exited
| Panicked.

Section threads.
Context (signature_verified_block : list T) (infer_result : list (Accesses K)).

(** The keys estimated for the transaction [idx]. *)
Definition reads_of (idx : nat) : list K := from_option keys_read [] (infer_result !! idx).
Definition writes_of (idx : nat) : list K := from_option keys_written [] (infer_result !! idx).

(** The loop body up to the check of the reads. *)
Definition begin_txn (idx : nat) : Thread :=
  match signature_verified_block !! idx, infer_result !! idx with
  | Some _, Some accesses => AtCheck idx (keys_read accesses)
  | _, _ => Panicked
  end.

Definition begin_execution (idx : nat) : Thread :=
  match signature_verified_block !! idx with
  | Some txn => AtRun idx (execute_transaction txn) false
  | None => Panicked
  end.

(** The match on [execute_result]. *)
Definition begin_commit (idx : nat) (execute_result : ExecutionStatus O E) : Thread :=
  match execute_result with
  | Success output => AtWrite idx (get_writes output) output false
  | SkipRest output => AtWrite idx (get_writes output) output true
  | Abort err => AtStop idx (Abort (UserError err))
  end.

(** One step of a thread; a thread that exited or panicked has none. *)
Definition thread_step (sh : Shared) (th : Thread) : option (Shared * Thread) :=
  let s := scheduler sh in
  let m := versioned_data_cache sh in
  match th with
  | AtNext =>
      Some match pop_buffer s with
           | Some (version, s) => (with_scheduler s sh, begin_txn version)
           | None => (sh, AtFetch)
           end
  | AtFetch => let '(next, s) := fetch_marker s in Some (with_scheduler s sh, AtBound next)
  | AtBound next => Some (sh, if next <? num_txn_to_execute s then begin_txn next else Exited)
  | AtCheck idx [] => Some (sh, begin_execution idx)
  | AtCheck idx (k :: keys) =>
      Some (sh, match mv_read m k idx with
                | ReadBlocked dep_id => AtCheckDep idx dep_id keys
                | _ => AtCheck idx keys
                end)
  | AtCheckDep idx dep_id keys =>
      Some match add_dependency (E:=ExecError E) idx dep_id s with
           | Ok (s, true) => (with_scheduler s sh, AtNext)
           | Ok (s, false) => (with_scheduler s sh, AtCheck idx keys)
           | _ => (sh, Panicked)
           end
  | AtRun idx (TaskRead k cont) unexpected =>
      Some (sh, match mv_read m k idx with
                | ReadValue v => AtRun idx (cont (Some (Some v))) unexpected
                | ReadNothing => AtRun idx (cont (Some None)) unexpected
                | ReadBlocked dep_idx => AtReadDep idx dep_idx (cont None)
                end)
  | AtReadDep idx dep_idx task =>
      Some match add_dependency (E:=ExecError E) idx dep_idx s with
           | Ok (s, true) => (with_scheduler s sh, AtRun idx task true)
           | Ok (s, false) => (with_scheduler s sh, AtRequeue idx task)
           | _ => (sh, Panicked)
           end
  | AtRequeue idx task => Some (with_scheduler (add_transaction idx s) sh, AtRun idx task true)
  | AtRun idx (TaskReturn _) true => Some (sh, AtNext)
  | AtRun idx (TaskReturn status) false => Some (sh, begin_commit idx status)
  | AtWrite idx ((k, v) :: writes) output skip_rest =>
      Some match mv_write m k idx v with
           | Ok m => (with_cache m sh, AtWrite idx writes output skip_rest)
           | Err _ => (sh, AtSkip idx (writes_of idx) (Abort UnestimatedWrite))
           | Panic _ => (sh, Panicked)
           end
  | AtWrite idx [] output true => Some (sh, AtStop idx (SkipRest output))
  | AtWrite idx [] output false => Some (sh, AtSkip idx (writes_of idx) (Success output))
  | AtStop idx res =>
      Some (with_scheduler (set_stop_version (idx + 1) s) sh, AtSkip idx (writes_of idx) res)
  | AtSkip idx (k :: keys) res =>
      Some match skip_if_not_set m k idx with
           | Ok m => (with_cache m sh, AtSkip idx keys res)
           | _ => (sh, Panicked)
           end
  | AtSkip idx [] res => Some (with_scheduler (store_executed idx s) sh, AtTake idx res)
  | AtTake idx res =>
      Some match take_dependencies (E:=ExecError E) idx s with
           | Ok (s, deps) => (with_scheduler s sh, AtPush idx deps res)
           | _ => (sh, Panicked)
           end
  | AtPush idx (dep :: deps) res => Some (with_scheduler (add_transaction dep s) sh, AtPush idx deps res)
  | AtPush idx [] res =>
      Some match set_result idx res (outcomes sh) with
           | Ok o => (with_outcomes o sh, AtNext)
           | _ => (sh, Panicked)
           end
  | Exited | Panicked => None
  end.

(** ** Schedules *)

Record System := mkSystem {
  shared : Shared;
  threads : list Thread;
}.

Definition system_step (i : nat) (sys : System) : option System :=
  th ← threads sys !! i;
  '(sh, th') ← thread_step (shared sys) th;
  Some (mkSystem sh (<[i := th']> (threads sys))).

(** The threads of [schedule] step in turn; one that cannot is passed over. *)
Definition run_schedule (schedule : list nat) (sys : System) : System :=
  fold_left (λ sys i, default sys (system_step i sys)) schedule sys.

Definition is_exited (th : Thread) : bool := match th with Exited => true | _ => false end.
Definition is_panicked (th : Thread) : bool := match th with Panicked => true | _ => false end.
Definition finished (sys : System) : bool :=
  forallb (λ th, is_exited th || is_panicked th) (threads sys).

(** The end of the scope passes on a panic; otherwise the outcomes are collected. *)
Definition system_result (sys : System) : Result (ExecError E) (list O) :=
  if existsb is_panicked (threads sys) then Panic "a thread panicked"
  else get_all_results (num_txn_to_execute (scheduler (shared sys))) (outcomes (shared sys)).
End threads.

(** [collect::<AResult<Vec<_>>>()] of the estimates. *)
Definition infer_all (block : list T) : option (list (Accesses K)) := mapM infer_reads_writes block.

Definition path_version_tuples (infer_result : list (Accesses K)) : list (K * nat) :=
  concat (imap (λ idx accesses, (λ ap, (ap, idx)) <$> keys_written accesses) infer_result).

Definition compute_cpus (num_cpus num_txns max_dependency_level : nat) : nat :=
  Nat.min (num_txns / max_dependency_level) (Nat.min (1 + num_txns / 50) (num_cpus - 1)).

Definition initial_system (num_threads num_txns : nat) (cache : MVHashMap K V) : System :=
  mkSystem (mkShared cache (Scheduler_new num_txns) (OutcomeArray_new num_txns))
    (replicate num_threads AtNext).

(** The result under a schedule; [None] if the schedule leaves a thread running. *)
Definition execute_transactions_parallel (num_cpus : nat) (schedule : list nat) (block : list T)
    : option (Result (ExecError E) (list O)) :=
  if bool_decide (length block = 0) then Some (Ok [])
  else
    let num_txns := length block in
    match infer_all block with
    | None => Some (Err InferencerError)
    | Some infer_result =>
        match new_from_parallel key_lt num_cpus (path_version_tuples infer_result) with
        | Ok (cache, max_dependency_level) =>
            if max_dependency_level =? 0 then Some (Err InferencerError)
            else
              let sys :=
                run_schedule block infer_result schedule
                  (initial_system (compute_cpus num_cpus num_txns max_dependency_level) num_txns cache) in
              if finished sys then Some (system_result sys) else None
        | Err e => Some (Err e)
        | Panic msg => Some (Panic msg)
        end
    end.

(** ** Sequential execution *)

(** A task on the values that the transactions before wrote. *)
Fixpoint run_task (overlay : gmap K V) (task : Task) : ExecutionStatus O E :=
  match task with
  | TaskReturn status => status
  | TaskRead k cont => run_task overlay (cont (Some (overlay !! k)))
  end.

(** The writes up to the first one outside of the estimate, and whether all are inside. *)
Fixpoint estimated (keys : list K) (writes : list (K * V)) : list (K * V) * bool :=
  match writes with
  | [] => ([], true)
  | (k, v) :: writes =>
      if bool_decide (k ∈ keys) then
        let '(inside, all) := estimated keys writes in ((k, v) :: inside, all)
      else ([], false)
  end.

(** One transaction: what its output is, and the writes it leaves for the ones after it. *)
Definition run_txn (overlay : gmap K V) (keys : list K) (txn : T) : Outcome * gmap K V :=
  match run_task overlay (execute_transaction txn) with
  | Success output =>
      let '(inside, all) := estimated keys (get_writes output) in
      (if (all : bool) then Success output else Abort UnestimatedWrite, list_to_map inside ∪ overlay)
  | SkipRest output =>
      let '(inside, all) := estimated keys (get_writes output) in
      (if (all : bool) then SkipRest output else Abort UnestimatedWrite, list_to_map inside ∪ overlay)
  | Abort err => (Abort (UserError err), overlay)
  end.

(** The block, one transaction after the other, until one aborts it or skips the rest. *)
Fixpoint execute_sequential (overlay : gmap K V) (block : list (T * Accesses K))
    : Result (ExecError E) (list O) :=
  match block with
  | [] => Ok []
  | (txn, accesses) :: block =>
      match run_txn overlay (keys_written accesses) txn with
      | (Success output, overlay) =>
          let? outputs := execute_sequential overlay block in Ok (output :: outputs)
      | (SkipRest output, _) => Ok (output :: replicate (length block) skip_output)
      | (Abort err, _) => Err err
      end
  end.

(** What a block gives; the executor refuses one whose estimates name no write at all. *)
Definition execute_reference (block : list T) : Result (ExecError E) (list O) :=
  if bool_decide (length block = 0) then Ok []
  else match infer_all block with
       | None => Err InferencerError
       | Some infer_result =>
           if bool_decide (path_version_tuples infer_result = []) then Err InferencerError
           else execute_sequential ∅ (zip block infer_result)
       end.
End executor.
