(* ===== verification/ParallelFacts.v ===== *)
(** * ParallelFacts: the invariant of the parallel executor

    The reference values of a block executed in order, and the invariant that every step of
    every thread keeps: each transaction is in one place, its cells hold what the transaction
    writes in the sequential execution, and its outcome is the sequential one. *)

From S2P Require Import Prelude MVHashMap ParallelExecutor.

Local Open Scope nat_scope.

Section parallel.
Context {K V T O E : Type} `{HK : Countable K}.
Context (get_writes : O → list (K * V)) (execute_transaction : T → Task K V O E).
Context (block : list T) (infer_result : list (Accesses K)).
Local Abbreviation Outcome := (ExecutionStatus O (ExecError E)).
Local Abbreviation Task := (Task K V O E).
Local Abbreviation Thread := (Thread (K:=K) (V:=V) (O:=O) (E:=E)).
Local Abbreviation Shared := (Shared (K:=K) (V:=V) (O:=O) (E:=E)).
Local Abbreviation System := (System (K:=K) (V:=V) (O:=O) (E:=E)).
Local Abbreviation writes_of := (writes_of infer_result).
Implicit Types (m : MVHashMap K V) (th : Thread) (sh : Shared) (sys : System).

(** What the executor relies on: a task whose read failed does not read on, and an output
    writes a key once. *)
Definition returns (t : Task) : Prop := match t with TaskReturn _ => True | _ => False end.
Definition distinct_writes (s : ExecutionStatus O E) : Prop :=
  match s with Success o | SkipRest o => NoDup (get_writes o).*1 | Abort _ => True end.
Fixpoint well_behaved (t : Task) : Prop :=
  match t with
  | TaskReturn s => distinct_writes s
  | TaskRead k cont => returns (cont None) ∧ ∀ r, well_behaved (cont (Some r))
  end.

(** ** The reference values *)

Definition run_at (overlay : gmap K V) (i : nat) : Outcome * gmap K V :=
  match block !! i with
  | Some txn => run_txn get_writes execute_transaction overlay (writes_of i) txn
  | None => (Abort InvariantViolation, overlay)
  end.
Fixpoint overlay_at (i : nat) : gmap K V :=
  match i with 0 => ∅ | S i => (run_at (overlay_at i) i).2 end.
Definition outcome_at (i : nat) : Outcome := (run_at (overlay_at i) i).1.

(** The result of the task of [i], and the writes it commits. *)
Definition raw_at (i : nat) : option (ExecutionStatus O E) :=
  (λ txn, run_task (overlay_at i) (execute_transaction txn)) <$> block !! i.
Definition output_of (s : ExecutionStatus O E) : option O :=
  match s with Success o | SkipRest o => Some o | Abort _ => None end.
Definition committed (i : nat) : gmap K V :=
  match raw_at i ≫= output_of with
  | Some o => list_to_map (estimated (writes_of i) (get_writes o)).1
  | None => ∅
  end.

Lemma overlay_S i : overlay_at (S i) = committed i ∪ overlay_at i.
Proof.
  simpl. unfold run_at, committed, raw_at. destruct (block !! i) as [txn|]; simpl; [|by rewrite map_empty_union].
  unfold run_txn. destruct (run_task _ _) as [o|e|o]; simpl; [|by rewrite map_empty_union|];
    by destruct (estimated _ _).
Qed.

Lemma estimated_keys (keys : list K) (ws : list (K * V)) k v : (k, v) ∈ (estimated keys ws).1 → k ∈ keys.
Proof.
  induction ws as [|[k' v'] ws IH]; simpl; [by intros ?%elem_of_nil|].
  destruct (bool_decide (k' ∈ keys)) eqn:Hk; [|by intros ?%elem_of_nil].
  destruct (estimated keys ws) as [inside all]. simpl. intros [[= -> ->]|?]%elem_of_cons; [|by apply IH].
  by apply bool_decide_eq_true in Hk.
Qed.

Lemma committed_keys i k : is_Some (committed i !! k) → k ∈ writes_of i.
Proof.
  intros [v Hv]. unfold committed in Hv. destruct (raw_at i ≫= output_of); [|done].
  apply elem_of_list_to_map_2 in Hv. by eapply estimated_keys.
Qed.

(** ** Cells *)

Definition cell m (k : K) (i : nat) : option (WriteCell V) := m !! k ≫= λ cells, cells !! i.
Definition assigned m (k : K) (i : nat) : Prop := ∃ x, cell m k i = Some (Some x).

Lemma get_entry_cell m k i : get_entry m k i = ok_or (cell m k i) UnexpectedWrite.
Proof. unfold get_entry, cell. by destruct (m !! k). Qed.

Lemma cell_set_entry m k i c k' i' :
  is_Some (cell m k i) →
  cell (set_entry m k i c) k' i' = if decide (k' = k ∧ i' = i) then Some c else cell m k' i'.
Proof.
  intros [c0 Hc0]. unfold set_entry, cell in *. destruct (m !! k) as [cells|] eqn:Hk; [|done]. simpl in *.
  destruct (decide (k' = k)) as [->|Hne].
  - rewrite lookup_insert_eq, Hk. simpl. destruct (decide (i' = i)) as [->|Hne'].
    + by rewrite lookup_insert_eq, decide_True.
    + rewrite lookup_insert_ne by done. rewrite decide_False by tauto. done.
  - rewrite lookup_insert_ne by done. by rewrite decide_False by tauto.
Qed.

(** ** Reads *)

Section reads.
Context (m : MVHashMap K V).
Context (Hdom : ∀ k i, is_Some (cell m k i) ↔ k ∈ writes_of i).
Context (Hval : ∀ k i x, cell m k i = Some (Some x) → x = committed i !! k).

Lemma read_below_spec k cells idx :
  m !! k = Some cells →
  match read_below cells idx with
  | ReadValue v => overlay_at idx !! k = Some v
  | ReadNothing => overlay_at idx !! k = None
  | ReadBlocked d => d < idx ∧ cell m k d = Some None
  end.
Proof.
  intros Hk. induction idx as [|idx IH]; [done|].
  assert (Hc : cells !! idx = cell m k idx) by (unfold cell; by rewrite Hk).
  cbn [read_below]. rewrite overlay_S, lookup_union, Hc.
  destruct (cell m k idx) as [[[v|]|]|] eqn:Hcell.
  - apply Hval in Hcell. rewrite <- Hcell. by destruct (overlay_at idx !! k).
  - apply Hval in Hcell. rewrite <- Hcell. rewrite (left_id_L None union).
    destruct (read_below cells idx); [done..|]. destruct IH. split; [lia|done].
  - split; [lia|done].
  - assert (Hnone : committed idx !! k = None).
    { apply eq_None_not_Some. intros Hs%committed_keys%Hdom. rewrite Hcell in Hs. by destruct Hs. }
    rewrite Hnone, (left_id_L None union). destruct (read_below cells idx); [done..|]. destruct IH. split; [lia|done].
Qed.

Lemma read_spec k idx :
  match mv_read m k idx with
  | ReadValue v => overlay_at idx !! k = Some v
  | ReadNothing => overlay_at idx !! k = None
  | ReadBlocked d => d < idx ∧ cell m k d = Some None
  end.
Proof.
  unfold mv_read. destruct (m !! k) as [cells|] eqn:Hk; [by apply read_below_spec|].
  induction idx as [|idx IH]; [done|]. rewrite overlay_S, lookup_union, IH.
  assert (Hnone : committed idx !! k = None).
  { apply eq_None_not_Some. intros Hs%committed_keys%Hdom. unfold cell in Hs. rewrite Hk in Hs. by destruct Hs. }
  by rewrite Hnone.
Qed.
End reads.

(** ** Where a transaction is *)

(** Not handed out yet; beyond the stop version; waiting in a queue; in the hands of thread
    [i], which is before (0) or in (1) its commit, or has stored the status (2) and taken the
    dependencies (3); done. *)
Inductive Phase := Unfetched | Dropped | Queued | Owned (i stage : nat) | Ended.

Definition stage (p : Phase) : nat := match p with Owned _ g => g | Ended => 4 | _ => 0 end.

Definition owns th : option (nat * nat) :=
  match th with
  | AtBound v | AtCheck v _ | AtCheckDep v _ _ | AtRun v _ false | AtReadDep v _ _ | AtRequeue v _ => Some (v, 0)
  | AtWrite v _ _ _ | AtStop v _ | AtSkip v _ _ => Some (v, 1)
  | AtTake v _ => Some (v, 2)
  | AtPush v _ _ => Some (v, 3)
  | AtNext | AtFetch | AtRun _ _ true | Exited | Panicked => None
  end.

(** The waiting transactions a thread is about to put into the buffer. *)
Definition pushing th : list nat := match th with AtPush _ deps _ => deps | _ => [] end.

Definition queue sh (ths : list Thread) : list nat :=
  txn_buffer (scheduler sh) ++ concat (txn_dependency (scheduler sh)) ++ concat (pushing <$> ths).

(** A thread that looks at the buffer before it exits. *)
Definition will_pop th : Prop :=
  match th with AtFetch | AtBound _ | Exited | Panicked => False | _ => True end.

(** An outcome that ends the block. *)
Definition stopping (o : Outcome) : Prop :=
  match o with SkipRest _ | Abort (UserError _) => True | _ => False end.

Local Abbreviation n := (length block).
Local Abbreviation stop sh := (stop_at_version (scheduler sh)).
Local Abbreviation marker sh := (execution_marker (scheduler sh)).
Local Abbreviation cache := versioned_data_cache.

(** What holds of a thread. *)
Definition thread_ok sh th : Prop :=
  match th with
  | AtNext | AtFetch | AtBound _ => True
  | AtCheck idx _ => idx < n
  | AtCheckDep idx dep _ => idx < n ∧ dep < idx
  | AtRun idx t false => idx < n ∧ well_behaved t ∧ Some (run_task (overlay_at idx) t) = raw_at idx
  | AtRun idx t true => returns t
  | AtReadDep idx dep t => idx < n ∧ dep < idx ∧ returns t
  | AtRequeue idx t => idx < n ∧ returns t
  | AtWrite idx ws o skip_rest => idx < n
      ∧ raw_at idx = Some (if skip_rest then SkipRest o else Success o) ∧ NoDup (get_writes o).*1
      ∧ ∃ written, get_writes o = written ++ ws ∧ Forall (λ kv, kv.1 ∈ writes_of idx) written
          ∧ ∀ k, assigned (cache sh) k idx ↔ k ∈ written.*1
  | AtStop idx res => idx < n ∧ res = outcome_at idx ∧ stopping res
      ∧ ∀ k, is_Some (committed idx !! k) → assigned (cache sh) k idx
  | AtSkip idx keys res => idx < n ∧ res = outcome_at idx ∧ (stopping res → stop sh ≤ idx + 1)
      ∧ (∀ k, is_Some (committed idx !! k) → assigned (cache sh) k idx)
      ∧ (∀ k, k ∈ writes_of idx → k ∈ keys ∨ assigned (cache sh) k idx) ∧ keys ⊆ writes_of idx
  | AtTake idx res | AtPush idx _ res => idx < n ∧ res = outcome_at idx ∧ (stopping res → stop sh ≤ idx + 1)
  | Exited => stop sh ≤ marker sh
  | Panicked => False
  end.

(** The queue holds each queued transaction once. *)
Definition queue_ok (ph : nat → Phase) (q : list nat) : Prop :=
  NoDup q ∧ (∀ v, ph v = Queued ↔ v ∈ q) ∧ ∀ v, v ∈ q → v < n.

Record inv (ph : nat → Phase) sh (ths : list Thread) : Prop := {
  inv_dep_len : length (txn_dependency (scheduler sh)) = n;
  inv_status_len : length (txn_status (scheduler sh)) = n;
  inv_out_len : length (outcomes sh) = n;
  inv_owned v i g : ph v = Owned i g ↔ ∃ th, ths !! i = Some th ∧ owns th = Some (v, g);
  inv_queue : queue_ok ph (queue sh ths);
  inv_unfetched v : ph v = Unfetched ↔ marker sh ≤ v;
  inv_dropped v : ph v = Dropped → stop sh ≤ v;
  inv_ended v : ph v = Ended ↔ ∃ o, outcomes sh !! v = Some (Some o);
  inv_status v : txn_status (scheduler sh) !! v = Some true ↔ 2 ≤ stage (ph v);
  inv_deps d l v : txn_dependency (scheduler sh) !! d = Some l → v ∈ l → d < v ∧ stage (ph d) ≤ 2;
  inv_dom k v : is_Some (cell (cache sh) k v) ↔ k ∈ writes_of v;
  inv_value k v x : cell (cache sh) k v = Some (Some x) → x = committed v !! k ∧ 1 ≤ stage (ph v);
  inv_assigned k v : 2 ≤ stage (ph v) → k ∈ writes_of v → assigned (cache sh) k v;
  inv_outcome v o : outcomes sh !! v = Some (Some o) → o = outcome_at v ∧ (stopping o → stop sh ≤ v + 1);
  inv_stop : stop sh ≤ n ∧ (stop sh = n ∨ ∃ j, j < n ∧ stop sh = j + 1 ∧ stopping (outcome_at j));
  inv_pop : txn_buffer (scheduler sh) ≠ [] → ∃ i th, ths !! i = Some th ∧ will_pop th;
  inv_threads i th : ths !! i = Some th → thread_ok sh th;
}.

(** ** Moves of a thread *)

Definition set_ph (v : nat) (p : Phase) (ph : nat → Phase) : nat → Phase :=
  λ w, if decide (w = v) then p else ph w.
Lemma set_ph_eq v p ph : set_ph v p ph v = p.
Proof. unfold set_ph. by rewrite decide_True. Qed.
Lemma set_ph_ne v w p ph : w ≠ v → set_ph v p ph w = ph w.
Proof. intros. unfold set_ph. by rewrite decide_False. Qed.

Lemma stage_set_ph v w p ph : stage p = stage (ph v) → stage (set_ph v p ph w) = stage (ph w).
Proof. intros H. unfold set_ph. by destruct (decide (w = v)) as [->|]. Qed.

Lemma queue_ok_perm ph q q' : q' ≡ₚ q → queue_ok ph q → queue_ok ph q'.
Proof. intros Hp (H1 & H2 & H3). unfold queue_ok. setoid_rewrite Hp. done. Qed.
Lemma queue_ok_set ph q v p : p ≠ Queued → ph v ≠ Queued → queue_ok ph q → queue_ok (set_ph v p ph) q.
Proof.
  intros Hp Hv (H1 & H2 & H3). split_and!; [done| |done]. intros w. rewrite <- H2.
  unfold set_ph. destruct (decide (w = v)) as [->|]; naive_solver.
Qed.
Lemma queue_ok_leave ph q v p : p ≠ Queued → queue_ok ph (v :: q) → queue_ok (set_ph v p ph) q.
Proof.
  intros Hp ([Hv H1]%NoDup_cons & H2 & H3). split_and!; [done| |].
  - intros w. unfold set_ph. destruct (decide (w = v)) as [->|Hne]; [naive_solver|].
    rewrite H2, elem_of_cons. naive_solver.
  - intros w Hw. apply H3, elem_of_cons. by right.
Qed.
Lemma queue_ok_enter ph q v : ph v ≠ Queued → v < n → queue_ok ph q → queue_ok (set_ph v Queued ph) (v :: q).
Proof.
  intros Hp Hlt (H1 & H2 & H3). split_and!.
  - apply NoDup_cons. split; [|done]. by rewrite <- H2.
  - intros w. rewrite elem_of_cons. unfold set_ph. destruct (decide (w = v)) as [->|Hne]; [naive_solver|].
    rewrite H2. naive_solver.
  - intros w. rewrite elem_of_cons. naive_solver.
Qed.

Lemma concat_insert_snoc {A} (ls : list (list A)) d l x :
  ls !! d = Some l → concat (<[d := l ++ [x]]> ls) ≡ₚ x :: concat ls.
Proof.
  intros Hl. rewrite <- (take_drop_middle ls d l Hl) at 2. rewrite insert_take_drop by by eapply lookup_lt_Some.
  rewrite !concat_app. simpl. solve_Permutation.
Qed.

(** The condition on a thread survives what the others do. *)
Lemma thread_ok_frame sh sh' th :
  stop sh' ≤ stop sh → marker sh ≤ marker sh' →
  (∀ v g, owns th = Some (v, g) → ∀ k, cell (cache sh') k v = cell (cache sh) k v) →
  thread_ok sh th → thread_ok sh' th.
Proof.
  intros Hstop Hmark Hcell Hok.
  assert (Has : ∀ v g, owns th = Some (v, g) → ∀ k, assigned (cache sh') k v ↔ assigned (cache sh) k v).
  { intros v g Hv k. unfold assigned. by setoid_rewrite (Hcell v g Hv k). }
  destruct th as [| | | | |idx t []| | | | | | | | |]; try exact Hok; simpl in *; try specialize (Has _ _ eq_refl).
  - destruct Hok as (H1 & H2 & H3 & written & H4 & H5 & H6). split_and!; [done..|].
    exists written. split_and!; [done..|]. intros k. by rewrite Has.
  - destruct Hok as (H1 & H2 & H3 & H4). split_and!; [done..|]. intros k Hk. by apply Has, H4.
  - destruct Hok as (H1 & H2 & H3 & H4 & H5 & H6). split_and!; [done..| | | |done].
    + intros Hs. specialize (H3 Hs). lia.
    + intros k Hk. by apply Has, H4.
    + intros k Hk. destruct (H5 k Hk); [by left|right; by apply Has].
  - destruct Hok as (H1 & H2 & H3). split_and!; [done..|]. intros Hs. specialize (H3 Hs). lia.
  - destruct Hok as (H1 & H2 & H3). split_and!; [done..|]. intros Hs. specialize (H3 Hs). lia.
  - lia.
Qed.

Section move.
Context (ths : list Thread) (i : nat) (th th' : Thread).
Context (Hi : ths !! i = Some th).

Lemma threads_insert j t : <[i := th']> ths !! j = Some t ↔ (j = i ∧ t = th') ∨ (j ≠ i ∧ ths !! j = Some t).
Proof.
  rewrite list_lookup_insert_Some. apply lookup_lt_Some in Hi. naive_solver.
Qed.

Lemma owned_move (ph ph' : nat → Phase) :
  (∀ v j g, ph v = Owned j g ↔ ∃ t, ths !! j = Some t ∧ owns t = Some (v, g)) →
  (∀ v g, ph' v = Owned i g ↔ owns th' = Some (v, g)) →
  (∀ v j g, j ≠ i → ph' v = Owned j g ↔ ph v = Owned j g) →
  ∀ v j g, ph' v = Owned j g ↔ ∃ t, <[i := th']> ths !! j = Some t ∧ owns t = Some (v, g).
Proof.
  intros Hown H1 H2 v j g. setoid_rewrite threads_insert. destruct (decide (j = i)) as [->|Hne].
  - rewrite H1. naive_solver.
  - rewrite H2, Hown by done. naive_solver.
Qed.

Lemma pop_move : (will_pop th → will_pop th') →
  (∃ j t, ths !! j = Some t ∧ will_pop t) → ∃ j t, <[i := th']> ths !! j = Some t ∧ will_pop t.
Proof.
  intros Hp (j & t & Hj & Ht). destruct (decide (j = i)) as [->|Hne].
  - exists i, th'. rewrite threads_insert. split; [by left|]. apply Hp. congruence.
  - exists j, t. rewrite threads_insert. split; [by right|done].
Qed.

Lemma pushing_move : concat (pushing <$> <[i := th']> ths) ++ pushing th ≡ₚ concat (pushing <$> ths) ++ pushing th'.
Proof.
  rewrite <- (take_drop_middle ths i th Hi) at 2. rewrite insert_take_drop by (by eapply lookup_lt_Some).
  rewrite !fmap_app, !concat_app. simpl. solve_Permutation.
Qed.

(** The other threads keep their conditions. *)
Lemma threads_move sh sh' :
  (∀ j t, ths !! j = Some t → thread_ok sh t) → thread_ok sh' th' →
  stop sh' ≤ stop sh → marker sh ≤ marker sh' →
  (∀ j t v g, j ≠ i → ths !! j = Some t → owns t = Some (v, g) →
    ∀ k, cell (cache sh') k v = cell (cache sh) k v) →
  ∀ j t, <[i := th']> ths !! j = Some t → thread_ok sh' t.
Proof.
  intros Hok Hth' Hstop Hmark Hcell j t Hj. apply threads_insert in Hj as [[-> ->]|[Hne Hj]]; [done|].
  eapply thread_ok_frame; eauto.
Qed.
End move.

(** What a thread owns it owns alone. *)
Lemma owner_unique ph (ths : list Thread) v i j g g' t t' :
  (∀ v i g, ph v = Owned i g ↔ ∃ t, ths !! i = Some t ∧ owns t = Some (v, g)) →
  ths !! i = Some t → owns t = Some (v, g) → ths !! j = Some t' → owns t' = Some (v, g') → i = j.
Proof.
  intros Hown Hi Ht Hj Ht'. assert (ph v = Owned i g) by (apply Hown; eauto).
  assert (ph v = Owned j g') by (apply Hown; eauto). congruence.
Qed.

Section steps.
Context (ph : nat → Phase) (sh : Shared) (ths : list Thread) (i : nat) (th th' : Thread).
Context (Hinv : inv ph sh ths) (Hi : ths !! i = Some th).

Lemma owned_self v g : ph v = Owned i g ↔ owns th = Some (v, g).
Proof. rewrite (inv_owned _ _ _ Hinv). split; [|eauto]. intros (t & Ht & Ho). congruence. Qed.

Lemma queue_move sh' extra :
  txn_buffer (scheduler sh') = txn_buffer (scheduler sh) →
  txn_dependency (scheduler sh') = txn_dependency (scheduler sh) →
  pushing th' = extra ++ pushing th → queue sh' (<[i := th']> ths) ≡ₚ extra ++ queue sh ths.
Proof.
  intros Hb Hd Hp. unfold queue. rewrite Hb, Hd. pose proof (pushing_move _ _ _ th' Hi) as H.
  rewrite Hp in H. apply (Permutation_app_inv_r (pushing th)).
  rewrite <- !app_assoc, H. solve_Permutation.
Qed.

(** Moves inside one stage that leave the shared state alone. *)
Lemma inv_local :
  owns th' = owns th → pushing th' = pushing th →
  (txn_buffer (scheduler sh) ≠ [] → will_pop th → will_pop th') →
  thread_ok sh th' → inv ph sh (<[i := th']> ths).
Proof.
  intros Ho Hp Hpop Hok.
  assert (Hq : queue sh (<[i := th']> ths) ≡ₚ queue sh ths) by by apply (queue_move sh []).
  destruct Hinv. constructor; try done.
  - eapply owned_move; [done..| |done]. intros v g. rewrite Ho. apply owned_self.
  - by eapply queue_ok_perm.
  - intros Hb. eapply pop_move; eauto.
  - eapply threads_move; eauto.
Qed.

(** Moves of a transaction [v] to the phase [p]. *)
Lemma owned_set v p :
  (∀ j g, ph v = Owned j g → j = i) → (∀ j g, p = Owned j g ↔ j = i ∧ owns th' = Some (v, g)) →
  (∀ w g, w ≠ v → owns th = Some (w, g) ↔ owns th' = Some (w, g)) →
  ∀ w j g, set_ph v p ph w = Owned j g ↔ ∃ t, <[i := th']> ths !! j = Some t ∧ owns t = Some (w, g).
Proof.
  intros Hv Hp Hother. eapply owned_move; [done|apply Hinv|..].
  - intros w g. unfold set_ph. destruct (decide (w = v)) as [->|Hne]; [naive_solver|].
    rewrite owned_self. by apply Hother.
  - intros w j g Hj. unfold set_ph. destruct (decide (w = v)) as [->|Hne]; [naive_solver|done].
Qed.

(** Moves between phases before the commit. *)
Lemma inv_phase sh' v p :
  (∀ j g, ph v = Owned j g → j = i) → (∀ j g, p = Owned j g ↔ j = i ∧ owns th' = Some (v, g)) →
  (∀ w g, w ≠ v → owns th = Some (w, g) ↔ owns th' = Some (w, g)) →
  cache sh' = cache sh → outcomes sh' = outcomes sh → stop sh' = stop sh → marker sh ≤ marker sh' →
  txn_status (scheduler sh') = txn_status (scheduler sh) →
  length (txn_dependency (scheduler sh')) = n →
  stage (ph v) = 0 → stage p = 0 → (p = Dropped → stop sh ≤ v) →
  queue_ok (set_ph v p ph) (queue sh' (<[i := th']> ths)) →
  (∀ w, set_ph v p ph w = Unfetched ↔ marker sh' ≤ w) →
  (∀ d l w, txn_dependency (scheduler sh') !! d = Some l → w ∈ l → d < w ∧ stage (ph d) ≤ 2) →
  (txn_buffer (scheduler sh') ≠ [] → ∃ j t, <[i := th']> ths !! j = Some t ∧ will_pop t) →
  thread_ok sh' th' →
  inv (set_ph v p ph) sh' (<[i := th']> ths).
Proof.
  intros Hv Hp Hother Hc Ho Hs Hm Hst Hdl Hg Hg' Hdrop Hq Hunf Hdeps Hpop Hok.
  assert (Hstage : ∀ w, stage (set_ph v p ph w) = stage (ph w)) by (intros; apply stage_set_ph; lia).
  pose proof Hinv as []. constructor; rewrite ?Hc, ?Ho, ?Hs, ?Hst; setoid_rewrite Hstage || idtac; try done.
  - by apply owned_set.
  - intros w. unfold set_ph. destruct (decide (w = v)) as [->|]; auto.
  - intros w. unfold set_ph. destruct (decide (w = v)) as [->|]; [|done].
    rewrite <- inv_ended0. split; [intros -> |intros He; rewrite He in Hg]; done.
  - eapply threads_move; eauto; [lia|]. intros. by rewrite Hc.
Qed.
End steps.

(** ** The steps *)

(** The facts on phases and owners of a move. *)
Ltac phases := intros; repeat split; intros; destruct_and?; simplify_eq; auto; try congruence.

Section protocol.
Context (ph : nat → Phase) (sh : Shared) (ths : list Thread) (i : nat).
Context (Hinv : inv ph sh ths).

Lemma owner_facts v g th : ths !! i = Some th → owns th = Some (v, g) → ph v = Owned i g ∧ v < marker sh.
Proof.
  intros Hi Ho. assert (Hv : ph v = Owned i g) by (apply (inv_owned _ _ _ Hinv); eauto). split; [done|].
  destruct (decide (marker sh ≤ v)) as [Hle|]; [|lia]. apply (inv_unfetched _ _ _ Hinv) in Hle. congruence.
Qed.

Lemma unfetched_set v p w :
  p ≠ Unfetched → ph v ≠ Unfetched → set_ph v p ph w = Unfetched ↔ marker sh ≤ w.
Proof.
  intros Hp Hv. rewrite <- (inv_unfetched _ _ _ Hinv). unfold set_ph.
  destruct (decide (w = v)) as [->|]; naive_solver.
Qed.

Lemma fetch_inv : ths !! i = Some AtFetch →
  inv (set_ph (marker sh) (Owned i 0) ph) (with_scheduler (fetch_marker (scheduler sh)).2 sh)
    (<[i := AtBound (marker sh)]> ths).
Proof.
  intros Hi. assert (Hv : ph (marker sh) = Unfetched) by by apply (inv_unfetched _ _ _ Hinv).
  eapply inv_phase; try done; simpl.
  - phases.
  - phases.
  - phases.
  - lia.
  - apply Hinv.
  - by rewrite Hv.
  - eapply queue_ok_perm; [by eapply (queue_move _ _ _ _ _ Hi _ [])|].
    apply queue_ok_set; [done|congruence|apply Hinv].
  - intros w. unfold set_ph. destruct (decide (w = marker sh)) as [->|]; [split; [done|lia]|].
    rewrite (inv_unfetched _ _ _ Hinv). lia.
  - apply Hinv.
  - intros Hb. apply (pop_move _ _ _ _ Hi); [done|by apply Hinv].
Qed.

Lemma drop_inv v : ths !! i = Some (AtBound v) → stop sh ≤ v →
  inv (set_ph v Dropped ph) sh (<[i := Exited]> ths).
Proof.
  intros Hi Hstop. destruct (owner_facts v 0 _ Hi eq_refl) as [Hv Hlt].
  eapply inv_phase; try done; simpl.
  - phases.
  - phases.
  - phases.
  - apply Hinv.
  - by rewrite Hv.
  - eapply queue_ok_perm; [by eapply (queue_move _ _ _ _ _ Hi _ [])|].
    apply queue_ok_set; [done|congruence|apply Hinv].
  - intros w. apply unfetched_set; [done|congruence].
  - apply Hinv.
  - intros Hb. apply (pop_move _ _ _ _ Hi); [done|by apply Hinv].
  - lia.
Qed.

Lemma pop_inv v s th' : ths !! i = Some AtNext → pop_buffer (scheduler sh) = Some (v, s) →
  (∃ keys, th' = AtCheck v keys) →
  inv (set_ph v (Owned i 0) ph) (with_scheduler s sh) (<[i := th']> ths) ∧ v < n.
Proof.
  intros Hi Hs [keys ->]. unfold pop_buffer in Hs. destruct (txn_buffer _) as [|v' buf] eqn:Hb; [done|].
  injection Hs as -> <-. pose proof (inv_queue _ _ _ Hinv) as Hq. unfold queue in Hq. rewrite Hb in Hq.
  assert (Hv : ph v = Queued) by (apply Hq; rewrite !elem_of_app, elem_of_cons; auto).
  assert (Hlt : v < n) by (by apply Hq, Hq).
  split; [|done]. eapply inv_phase; try done; simpl.
  - phases.
  - phases.
  - phases.
  - apply Hinv.
  - by rewrite Hv.
  - eapply queue_ok_perm; [|by eapply (queue_ok_leave _ _ v), Hq]. unfold queue. simpl.
    pose proof (pushing_move _ _ _ (AtCheck v keys) Hi) as Hp. simpl in Hp. rewrite !app_nil_r in Hp.
    by rewrite Hp.
  - intros w. apply unfetched_set; [done|congruence].
  - apply Hinv.
  - intros _. exists i, (AtCheck v keys). split; [|done].
    apply list_lookup_insert_eq. by eapply lookup_lt_Some.
Qed.

(** The thread gives the transaction up to the list of [d]. *)
Lemma add_dependency_inv th th' idx d s :
  ths !! i = Some th → owns th = Some (idx, 0) → pushing th = [] → idx < n → d < idx →
  owns th' = None → pushing th' = [] → will_pop th' → thread_ok (with_scheduler s sh) th' →
  add_dependency (E:=ExecError E) idx d (scheduler sh) = Ok (s, true) →
  inv (set_ph idx Queued ph) (with_scheduler s sh) (<[i := th']> ths).
Proof.
  intros Hi Ho Hp Hidx Hd Ho' Hp' Hpop Hok Hadd. destruct (owner_facts idx 0 _ Hi Ho) as [Hv Hlt].
  unfold add_dependency in Hadd.
  destruct (txn_dependency (scheduler sh) !! d) as [l|] eqn:Hl; [|done]. simpl in Hadd.
  destruct (txn_status (scheduler sh) !! d) as [[]|] eqn:Hst; [done| |done]. injection Hadd as <-.
  assert (Hgd : stage (ph d) ≤ 1).
  { destruct (decide (2 ≤ stage (ph d))) as [Hg|]; [|lia]. apply (inv_status _ _ _ Hinv) in Hg. congruence. }
  assert (Hlen : i < length ths) by by eapply lookup_lt_Some.
  eapply inv_phase; try done; simpl.
  - phases.
  - phases.
  - phases.
  - rewrite length_insert. apply Hinv.
  - by rewrite Hv.
  - eapply queue_ok_perm; [|eapply queue_ok_enter; [congruence|done|apply Hinv]].
    unfold queue. simpl. rewrite (concat_insert_snoc _ _ _ _ Hl).
    pose proof (pushing_move _ _ _ th' Hi) as Hpm. rewrite Hp, Hp', !app_nil_r in Hpm. rewrite Hpm.
    solve_Permutation.
  - intros w. apply unfetched_set; [done|congruence].
  - intros d' l' w [(-> & <- & _)|[_ Hl']]%list_lookup_insert_Some; [|by eapply inv_deps].
    intros [Hw|Hw%list_elem_of_singleton]%elem_of_app; [by eapply inv_deps|]. subst w. lia.
  - intros _. exists i, th'. split; [by apply list_lookup_insert_eq|done].
Qed.

Lemma requeue_inv th idx t : ths !! i = Some th → th = AtRequeue idx t → thread_ok sh th →
  inv (set_ph idx Queued ph) (with_scheduler (add_transaction idx (scheduler sh)) sh)
    (<[i := AtRun idx t true]> ths).
Proof.
  intros Hi -> [Hidx Hret]. destruct (owner_facts idx 0 _ Hi eq_refl) as [Hv Hlt].
  assert (Hlen : i < length ths) by by eapply lookup_lt_Some.
  eapply inv_phase; try done; simpl.
  - phases.
  - phases.
  - phases.
  - apply Hinv.
  - by rewrite Hv.
  - eapply queue_ok_perm; [|eapply queue_ok_enter; [congruence|done|apply Hinv]].
    pose proof (pushing_move _ _ _ (AtRun idx t true) Hi) as Hpm. simpl in Hpm. rewrite !app_nil_r in Hpm.
    unfold queue. simpl. rewrite Hpm. solve_Permutation.
  - intros w. apply unfetched_set; [done|congruence].
  - apply Hinv.
  - intros _. exists i, (AtRun idx t true). split; [by apply list_lookup_insert_eq|done].
Qed.

(** A transaction in the hands of the thread advances; the maps stay. *)
Lemma inv_advance th th' sh' idx g p :
  ths !! i = Some th → owns th = Some (idx, g) → g ≤ stage p →
  (∀ j g', p = Owned j g' ↔ j = i ∧ owns th' = Some (idx, g')) → (∀ w g', w ≠ idx → owns th' ≠ Some (w, g')) →
  (p = Ended ∨ ∃ g', p = Owned i g') →
  cache sh' = cache sh → stop sh' = stop sh → marker sh' = marker sh →
  txn_buffer (scheduler sh') = txn_buffer (scheduler sh) →
  length (txn_dependency (scheduler sh')) = n → length (txn_status (scheduler sh')) = n →
  length (outcomes sh') = n →
  queue sh' (<[i := th']> ths) ≡ₚ queue sh ths →
  (∀ v, txn_status (scheduler sh') !! v = Some true ↔ 2 ≤ stage (set_ph idx p ph v)) →
  (∀ d l v, txn_dependency (scheduler sh') !! d = Some l → v ∈ l → d < v ∧ stage (set_ph idx p ph d) ≤ 2) →
  (∀ k, 2 ≤ stage p → k ∈ writes_of idx → assigned (cache sh) k idx) →
  (∀ v, set_ph idx p ph v = Ended ↔ ∃ o, outcomes sh' !! v = Some (Some o)) →
  (∀ v o, outcomes sh' !! v = Some (Some o) → o = outcome_at v ∧ (stopping o → stop sh ≤ v + 1)) →
  will_pop th' → thread_ok sh' th' →
  inv (set_ph idx p ph) sh' (<[i := th']> ths).
Proof.
  intros Hi Ho Hg Hp Hother Hpp Hc Hs Hm Hb Hl1 Hl2 Hl3 Hq Hst Hd Has He Hout Hpop Hok.
  destruct (owner_facts idx g _ Hi Ho) as [Hv Hlt].
  pose proof Hinv as []. constructor; rewrite ?Hc, ?Hs, ?Hm, ?Hb; try done.
  - eapply owned_set; [done..|by phases|done|]. intros w g' Hw. phases. by destruct (Hother w g').
  - eapply queue_ok_perm; [done|]. apply queue_ok_set; [naive_solver|congruence|done].
  - intros w. apply unfetched_set; [naive_solver|congruence].
  - intros w. unfold set_ph. destruct (decide (w = idx)) as [->|]; [naive_solver|auto].
  - intros k w x Hx. destruct (inv_value0 k w x Hx) as [-> Hw]. split; [done|]. unfold set_ph.
    destruct (decide (w = idx)) as [->|]; [rewrite Hv in Hw; simpl in Hw; lia|done].
  - intros k w. unfold set_ph. destruct (decide (w = idx)) as [->|]; auto.
  - intros _. exists i, th'. split; [|done]. apply list_lookup_insert_eq. by eapply lookup_lt_Some.
  - eapply threads_move; eauto; [lia..|]. intros. by rewrite Hc.
Qed.

Lemma status_set idx g p v :
  ph idx = Owned i g → (2 ≤ stage p ↔ 2 ≤ g) →
  txn_status (scheduler sh) !! v = Some true ↔ 2 ≤ stage (set_ph idx p ph v).
Proof.
  intros Hv Hp. rewrite (inv_status _ _ _ Hinv). unfold set_ph. destruct (decide (v = idx)) as [->|]; [|done].
  rewrite Hv. simpl. tauto.
Qed.
Lemma deps_set idx p d l v :
  stage p ≤ 2 → txn_dependency (scheduler sh) !! d = Some l → v ∈ l → d < v ∧ stage (set_ph idx p ph d) ≤ 2.
Proof.
  intros Hp Hl Hv. destruct (inv_deps _ _ _ Hinv d l v Hl Hv). unfold set_ph.
  destruct (decide (d = idx)); auto.
Qed.
Lemma ended_set idx g p v :
  ph idx = Owned i g → p ≠ Ended → set_ph idx p ph v = Ended ↔ ∃ o, outcomes sh !! v = Some (Some o).
Proof.
  intros Hv Hp. rewrite <- (inv_ended _ _ _ Hinv). unfold set_ph. destruct (decide (v = idx)) as [->|]; [|done].
  rewrite Hv. naive_solver.
Qed.

Lemma begin_commit_inv th th' idx :
  ths !! i = Some th → owns th = Some (idx, 0) → owns th' = Some (idx, 1) → pushing th = [] → pushing th' = [] →
  will_pop th' → thread_ok sh th' → inv (set_ph idx (Owned i 1) ph) sh (<[i := th']> ths).
Proof.
  intros Hi Ho Ho' Hp Hp' Hpop Hok. destruct (owner_facts idx 0 _ Hi Ho) as [Hv Hlt].
  eapply inv_advance; try done; simpl; try apply Hinv.
  - lia.
  - phases.
  - phases.
  - eauto.
  - apply (queue_move _ _ _ _ _ Hi sh []); [done..|]. by rewrite Hp, Hp'.
  - intros v. eapply status_set; [done|]. simpl. lia.
  - intros d l v. apply deps_set. simpl. lia.
  - lia.
  - intros v. by eapply ended_set.
Qed.

Lemma store_inv th idx res : ths !! i = Some th → th = AtSkip idx [] res → thread_ok sh th →
  inv (set_ph idx (Owned i 2) ph) (with_scheduler (store_executed idx (scheduler sh)) sh)
    (<[i := AtTake idx res]> ths).
Proof.
  intros Hi -> (Hidx & Hres & Hstop & Hcom & Hkeys & _). destruct (owner_facts idx 1 _ Hi eq_refl) as [Hv Hlt].
  eapply inv_advance; try done; simpl; try apply Hinv.
  - lia.
  - phases.
  - phases.
  - eauto.
  - rewrite length_insert. apply Hinv.
  - by apply (queue_move _ _ _ _ _ Hi _ []).
  - intros v. unfold set_ph. destruct (decide (v = idx)) as [->|Hne]; simpl.
    + rewrite list_lookup_insert_eq by (rewrite (inv_status_len _ _ _ Hinv); lia). split; [lia|done].
    + rewrite list_lookup_insert_ne by done. apply Hinv.
  - intros d l v. apply deps_set. simpl. lia.
  - intros k _ Hk. destruct (Hkeys k Hk) as [?%elem_of_nil|]; done.
  - intros v. by eapply ended_set.
Qed.

Lemma concat_insert_nil {A} (ls : list (list A)) d l :
  ls !! d = Some l → concat (<[d := []]> ls) ++ l ≡ₚ concat ls.
Proof.
  intros Hl. rewrite <- (take_drop_middle ls d l Hl) at 2. rewrite insert_take_drop by by eapply lookup_lt_Some.
  rewrite !concat_app. simpl. solve_Permutation.
Qed.

Lemma take_inv th idx res s deps : ths !! i = Some th → th = AtTake idx res → thread_ok sh th →
  take_dependencies (E:=ExecError E) idx (scheduler sh) = Ok (s, deps) →
  inv (set_ph idx (Owned i 3) ph) (with_scheduler s sh) (<[i := AtPush idx deps res]> ths).
Proof.
  intros Hi -> Hok Htake. destruct (owner_facts idx 2 _ Hi eq_refl) as [Hv Hlt].
  unfold take_dependencies in Htake.
  destruct (txn_dependency (scheduler sh) !! idx) as [l|] eqn:Hl; [|done]. injection Htake as <- <-.
  eapply inv_advance; try done; simpl; try apply Hinv.
  - lia.
  - phases.
  - phases.
  - eauto.
  - rewrite length_insert. apply Hinv.
  - unfold queue. simpl. rewrite <- (concat_insert_nil _ _ _ Hl).
    pose proof (pushing_move _ _ _ (AtPush idx (merge_sort (≤) l) res) Hi) as Hpm. simpl in Hpm.
    rewrite app_nil_r in Hpm. rewrite Hpm, merge_sort_Permutation. solve_Permutation.
  - intros v. eapply status_set; [done|]. simpl. lia.
  - intros d l' v [(-> & <- & _)|[Hne Hl']]%list_lookup_insert_Some Hv'; [by apply elem_of_nil in Hv'|].
    rewrite set_ph_ne by done. by eapply inv_deps.
  - intros k _ Hk. apply (inv_assigned _ _ _ Hinv); [|done]. by rewrite Hv.
  - intros v. by eapply ended_set.
Qed.

Lemma finish_inv th idx res o : ths !! i = Some th → th = AtPush idx [] res → thread_ok sh th →
  set_result idx res (outcomes sh) = Ok o →
  inv (set_ph idx Ended ph) (with_outcomes o sh) (<[i := AtNext]> ths).
Proof.
  intros Hi -> (Hidx & Hres & Hstop) Hset. destruct (owner_facts idx 3 _ Hi eq_refl) as [Hv Hlt].
  unfold set_result in Hset. destruct (outcomes sh !! idx) as [[]|] eqn:Ho; [done| |done]. injection Hset as <-.
  assert (Hlen : idx < length (outcomes sh)) by by eapply lookup_lt_Some.
  eapply inv_advance; try done; simpl; try apply Hinv.
  - lia.
  - phases.
  - auto.
  - rewrite length_insert. apply Hinv.
  - by apply (queue_move _ _ _ _ _ Hi _ []).
  - intros v. eapply status_set; [done|]. simpl. lia.
  - intros d l v Hl Hv'. destruct (inv_deps _ _ _ Hinv d l v Hl Hv') as [Hd Hg].
    rewrite set_ph_ne; [done|]. intros ->. rewrite Hv in Hg. simpl in Hg. lia.
  - intros k _ Hk. apply (inv_assigned _ _ _ Hinv); [|done]. rewrite Hv. simpl. lia.
  - intros v. unfold set_ph. destruct (decide (v = idx)) as [->|Hne].
    + rewrite list_lookup_insert_eq by done. naive_solver.
    + rewrite list_lookup_insert_ne by done. apply Hinv.
  - intros v o [(-> & [= <-] & _)|[_ Ho']]%list_lookup_insert_Some; [done|by apply (inv_outcome _ _ _ Hinv)].
Qed.

Lemma set_result_ok th idx res : ths !! i = Some th → th = AtPush idx [] res → thread_ok sh th →
  outcomes sh !! idx = Some None.
Proof.
  intros Hi -> (Hidx & _). destruct (owner_facts idx 3 _ Hi eq_refl) as [Hv Hlt].
  destruct (outcomes sh !! idx) as [[o|]|] eqn:Ho; [|done|].
  - assert (ph idx = Ended) by (apply (inv_ended _ _ _ Hinv); eauto). congruence.
  - apply lookup_ge_None in Ho. rewrite (inv_out_len _ _ _ Hinv) in Ho. lia.
Qed.

Lemma push_inv th idx dep deps res : ths !! i = Some th → th = AtPush idx (dep :: deps) res → thread_ok sh th →
  inv ph (with_scheduler (add_transaction dep (scheduler sh)) sh) (<[i := AtPush idx deps res]> ths).
Proof.
  intros Hi -> Hok. assert (Hlen : i < length ths) by by eapply lookup_lt_Some.
  pose proof Hinv as []. constructor; try done.
  - eapply owned_move; [done..| |done]. intros v g. by rewrite (owned_self _ _ _ _ _ Hinv Hi).
  - eapply queue_ok_perm; [|done]. unfold queue. simpl.
    pose proof (pushing_move _ _ _ (AtPush idx deps res) Hi) as Hpm. simpl in Hpm.
    apply (Permutation_app_inv_r (dep :: deps)). rewrite <- !app_assoc, Hpm. solve_Permutation.
  - intros _. exists i, (AtPush idx deps res). split; [by apply list_lookup_insert_eq|done].
  - eapply threads_move; eauto.
Qed.

Lemma cell_inv th th' idx k x :
  ths !! i = Some th → owns th = Some (idx, 1) → owns th' = Some (idx, 1) → pushing th = [] → pushing th' = [] →
  will_pop th' → is_Some (cell (cache sh) k idx) → x = committed idx !! k →
  thread_ok (with_cache (set_entry (cache sh) k idx (Some x)) sh) th' →
  inv ph (with_cache (set_entry (cache sh) k idx (Some x)) sh) (<[i := th']> ths).
Proof.
  intros Hi Ho Ho' Hp Hp' Hpop Hk Hx Hok. destruct (owner_facts idx 1 _ Hi Ho) as [Hv Hlt].
  pose proof Hinv as []. constructor; simpl; try done.
  - eapply owned_move; [done..| |done]. intros v g. rewrite (owned_self _ _ _ _ _ Hinv Hi). by rewrite Ho, Ho'.
  - eapply queue_ok_perm; [|done]. apply (queue_move _ _ _ _ _ Hi _ []); [done..|]. by rewrite Hp, Hp'.
  - intros k' v. rewrite cell_set_entry by done.
    destruct (decide (k' = k ∧ v = idx)) as [[-> ->]|]; [|apply inv_dom0].
    rewrite <- inv_dom0. by split.
  - intros k' v x'. rewrite cell_set_entry by done.
    destruct (decide (k' = k ∧ v = idx)) as [[-> ->]|]; [|apply inv_value0].
    intros [= <-]. rewrite Hv. simpl. auto.
  - intros k' v Hg Hk'. unfold assigned. setoid_rewrite cell_set_entry; [|done].
    destruct (decide (k' = k ∧ v = idx)) as [[-> ->]|]; [eauto|by apply inv_assigned0].
  - intros Hb. exists i, th'. split; [|done]. apply list_lookup_insert_eq. by eapply lookup_lt_Some.
  - eapply threads_move; eauto. intros j t v g Hj Ht Hot k'. simpl. rewrite cell_set_entry by done.
    rewrite decide_False; [done|]. intros [-> ->]. apply Hj. symmetry. eapply owner_unique; eauto.
Qed.

Lemma stop_inv th idx res : ths !! i = Some th → th = AtStop idx res → thread_ok sh th →
  inv ph (with_scheduler (set_stop_version (idx + 1) (scheduler sh)) sh)
    (<[i := AtSkip idx (writes_of idx) res]> ths).
Proof.
  intros Hi -> (Hidx & Hres & Hs & Hcom). pose proof Hinv as []. constructor; simpl; try done.
  - eapply owned_move; [done..| |done]. intros v g. by rewrite (owned_self _ _ _ _ _ Hinv Hi).
  - eapply queue_ok_perm; [|done]. by apply (queue_move _ _ _ _ _ Hi _ []).
  - intros v Hv%inv_dropped0. lia.
  - intros v o Ho. destruct (inv_outcome0 v o Ho) as [-> Hle]. split; [done|]. intros H%Hle. lia.
  - destruct inv_stop0 as [Hn Hj]. destruct (Nat.min_spec (stop sh) (idx + 1)) as [[_ ->]|[_ ->]]; [done|].
    split; [lia|]. right. exists idx. by subst res.
  - intros Hb. apply (pop_move _ _ _ _ Hi); auto.
  - eapply threads_move; eauto; simpl; [|lia]. split_and!; [done..| | | |done].
    + intros _. lia.
    + done.
    + auto.
Qed.
End protocol.

(** ** The commit of the writes *)

Lemma estimated_app (keys : list K) (written ws : list (K * V)) :
  Forall (λ kv, kv.1 ∈ keys) written →
  estimated keys (written ++ ws) = (written ++ (estimated keys ws).1, (estimated keys ws).2).
Proof.
  induction 1 as [|[k v] l Hk _ IH]; simpl; [by destruct (estimated keys ws)|].
  simpl in Hk. rewrite bool_decide_true by done. by rewrite IH.
Qed.

(** The outcome in terms of the result of the task. *)
Lemma outcome_raw idx s : raw_at idx = Some s →
  outcome_at idx = match s with
                   | Success o =>
                       if (estimated (writes_of idx) (get_writes o)).2 then Success o else Abort UnestimatedWrite
                   | SkipRest o =>
                       if (estimated (writes_of idx) (get_writes o)).2 then SkipRest o else Abort UnestimatedWrite
                   | Abort err => Abort (UserError err)
                   end.
Proof.
  unfold raw_at, outcome_at, run_at. destruct (block !! idx) as [txn|]; [|done]. simpl. intros [= <-].
  unfold run_txn. destruct (run_task _ _); try done; by destruct (estimated _ _).
Qed.

Section writing.
Context (idx : nat) (o : O) (skip_rest : bool) (written ws : list (K * V)).
Context (Hraw : raw_at idx = Some (if skip_rest then SkipRest o else Success o)).
Context (Hws : get_writes o = written ++ ws) (Hin : Forall (λ kv, kv.1 ∈ writes_of idx) written).

Lemma committed_written : committed idx = list_to_map (written ++ (estimated (writes_of idx) ws).1).
Proof. unfold committed. rewrite Hraw. simpl. destruct skip_rest; simpl; by rewrite Hws, estimated_app. Qed.

Lemma outcome_written :
  outcome_at idx = if (estimated (writes_of idx) ws).2
                   then (if skip_rest then SkipRest o else Success o) else Abort UnestimatedWrite.
Proof.
  rewrite (outcome_raw _ _ Hraw). destruct skip_rest; simpl; by rewrite Hws, estimated_app.
Qed.

Lemma committed_assigned m :
  (estimated (writes_of idx) ws).1 = [] → (∀ k, assigned m k idx ↔ k ∈ written.*1) →
  ∀ k, is_Some (committed idx !! k) → assigned m k idx.
Proof.
  intros Hest Has k [v Hv]. rewrite committed_written, Hest, app_nil_r in Hv. apply Has.
  apply elem_of_list_to_map_2 in Hv. apply list_elem_of_fmap. by exists (k, v).
Qed.

Lemma committed_next k v rest :
  ws = (k, v) :: rest → k ∈ writes_of idx → NoDup (get_writes o).*1 → committed idx !! k = Some v.
Proof.
  intros Hcons Hk Hnd. rewrite committed_written, Hcons. rewrite Hws, Hcons, fmap_app in Hnd. simpl in Hnd.
  apply NoDup_app in Hnd as (_ & Hnotin & _).
  rewrite list_to_map_app, lookup_union_r.
  - simpl. rewrite bool_decide_true by done. destruct (estimated _ rest). simpl. by rewrite lookup_insert_eq.
  - apply not_elem_of_list_to_map_1. intros H%Hnotin. apply H. by left.
Qed.
End writing.

(** ** Every step keeps the invariant *)

Context (Hlen : length infer_result = n).
Context (Hwb : ∀ txn, txn ∈ block → well_behaved (execute_transaction txn)).
Local Abbreviation step := (thread_step get_writes execute_transaction block infer_result).

Lemma with_scheduler_id sh : with_scheduler (scheduler sh) sh = sh.
Proof. by destruct sh. Qed.
Lemma with_cache_id sh : with_cache (cache sh) sh = sh.
Proof. by destruct sh. Qed.

Section step.
Context (ph : nat → Phase) (sh : Shared) (ths : list Thread) (i : nat).
Context (Hinv : inv ph sh ths).

Lemma begin_txn_ok v : v < n → (begin_txn block infer_result v : Thread) = AtCheck v (reads_of infer_result v).
Proof.
  intros Hv. unfold begin_txn, reads_of. destruct (lookup_lt_is_Some_2 block v Hv) as [txn ->].
  destruct (lookup_lt_is_Some_2 infer_result v) as [a ->]; [lia|]. done.
Qed.

Lemma begin_execution_ok idx : idx < n →
  ∃ t, begin_execution execute_transaction block idx = AtRun idx t false ∧ thread_ok sh (AtRun idx t false).
Proof.
  intros Hv. unfold begin_execution. destruct (lookup_lt_is_Some_2 block idx Hv) as [txn Htxn]. rewrite Htxn.
  eexists. split; [done|]. simpl. split_and!; [done| |].
  - apply Hwb. by eapply list_elem_of_lookup_2.
  - unfold raw_at. by rewrite Htxn.
Qed.

Lemma add_dependency_cases idx d : idx < n → d < idx →
  (∃ s, add_dependency (E:=ExecError E) idx d (scheduler sh) = Ok (s, true)) ∨
  add_dependency (E:=ExecError E) idx d (scheduler sh) = Ok (scheduler sh, false).
Proof.
  intros Hidx Hd. unfold add_dependency.
  destruct (lookup_lt_is_Some_2 (txn_dependency (scheduler sh)) d) as [l ->];
    [rewrite (inv_dep_len _ _ _ Hinv); lia|].
  destruct (lookup_lt_is_Some_2 (txn_status (scheduler sh)) d) as [b ->];
    [rewrite (inv_status_len _ _ _ Hinv); lia|]. simpl. destruct b; eauto.
Qed.

Lemma read_ok k idx :
  match mv_read (cache sh) k idx with
  | ReadValue v => overlay_at idx !! k = Some v
  | ReadNothing => overlay_at idx !! k = None
  | ReadBlocked d => d < idx ∧ cell (cache sh) k d = Some None
  end.
Proof.
  apply read_spec; [apply Hinv|]. intros k' j x Hx. by apply (inv_value _ _ _ Hinv) in Hx as [? _].
Qed.

(** The steps of a transaction before its commit. *)
Lemma check_step th sh' th' idx keys :
  ths !! i = Some th → th = AtCheck idx keys → step sh th = Some (sh', th') →
  ∃ ph', inv ph' sh' (<[i := th']> ths).
Proof.
  intros Hi -> Hstep. pose proof (inv_threads _ _ _ Hinv _ _ Hi) as Hidx. simpl in Hidx.
  exists ph. destruct keys as [|k keys]; injection Hstep as <- <-.
  - destruct (begin_execution_ok idx Hidx) as (t & -> & Hok). by eapply inv_local.
  - pose proof (read_ok k idx) as Hr. destruct (mv_read _ _ _); (eapply inv_local; [done..|]); simpl; tauto.
Qed.

Lemma check_dep_step th sh' th' idx d keys :
  ths !! i = Some th → th = AtCheckDep idx d keys → step sh th = Some (sh', th') →
  ∃ ph', inv ph' sh' (<[i := th']> ths).
Proof.
  intros Hi -> Hstep. destruct (inv_threads _ _ _ Hinv _ _ Hi) as [Hidx Hd]. simpl in Hstep.
  destruct (add_dependency_cases idx d Hidx Hd) as [[s Hs]|Hs]; rewrite Hs in Hstep; injection Hstep as <- <-.
  - eexists. by eapply add_dependency_inv.
  - exists ph. rewrite with_scheduler_id. by eapply inv_local.
Qed.

Lemma read_dep_step th sh' th' idx d t :
  ths !! i = Some th → th = AtReadDep idx d t → step sh th = Some (sh', th') →
  ∃ ph', inv ph' sh' (<[i := th']> ths).
Proof.
  intros Hi -> Hstep. destruct (inv_threads _ _ _ Hinv _ _ Hi) as (Hidx & Hd & Ht). simpl in Hstep.
  destruct (add_dependency_cases idx d Hidx Hd) as [[s Hs]|Hs]; rewrite Hs in Hstep; injection Hstep as <- <-.
  - eexists. by eapply add_dependency_inv.
  - exists ph. rewrite with_scheduler_id. by eapply inv_local.
Qed.

Lemma run_step th sh' th' idx t b :
  ths !! i = Some th → th = AtRun idx t b → step sh th = Some (sh', th') →
  ∃ ph', inv ph' sh' (<[i := th']> ths).
Proof.
  intros Hi -> Hstep. pose proof (inv_threads _ _ _ Hinv _ _ Hi) as Hok.
  destruct b.
  { destruct t as [st|]; [|done]. injection Hstep as <- <-. exists ph. by eapply inv_local. }
  destruct Hok as (Hidx & Hw & Hraw). destruct (owner_facts _ _ _ _ Hinv idx 0 _ Hi eq_refl) as [Hv _].
  destruct t as [st|k cont]; injection Hstep as <- <-.
  - simpl in Hraw. eexists. eapply (begin_commit_inv _ _ _ _ Hinv _ _ _ Hi); try done; try (by destruct st).
    assert (Hno : ∀ k, assigned (cache sh) k idx ↔ k ∈ @nil K).
    { intros k. split; [|by intros ?%elem_of_nil]. intros [x [_ Hg]%(inv_value _ _ _ Hinv)].
      rewrite Hv in Hg. simpl in Hg. lia. }
    destruct st as [o|e|o]; simpl.
    + split_and!; [done..|]. by exists [].
    + split_and!; [done|by rewrite (outcome_raw _ _ (eq_sym Hraw))|done|].
      intros k. unfold committed. rewrite <- Hraw. simpl. rewrite lookup_empty. by intros [].
    + split_and!; [done..|]. by exists [].
  - exists ph. simpl in Hw, Hraw. destruct Hw as [Hnone Hsome]. pose proof (read_ok k idx) as Hr.
    destruct (mv_read _ _ _); (eapply inv_local; [done..|]); simpl; try rewrite Hr in Hraw; [auto..|tauto].
Qed.

Lemma assigned_set_entry m k idx x k' :
  is_Some (cell m k idx) → assigned (set_entry m k idx (Some x)) k' idx ↔ k' = k ∨ assigned m k' idx.
Proof.
  intros Hk. unfold assigned. setoid_rewrite cell_set_entry; [|done].
  destruct (decide (k' = k ∧ idx = idx)) as [[-> _]|Hne]; [split; eauto|]. naive_solver.
Qed.

(** The steps of the commit. *)
Lemma write_step th sh' th' idx ws o b :
  ths !! i = Some th → th = AtWrite idx ws o b → step sh th = Some (sh', th') →
  ∃ ph', inv ph' sh' (<[i := th']> ths).
Proof.
  intros Hi -> Hstep. exists ph.
  destruct (inv_threads _ _ _ Hinv _ _ Hi) as (Hidx & Hraw & Hnd & written & Hws & Hin & Has).
  pose proof (outcome_written _ _ _ _ _ Hraw Hws Hin) as Hout.
  pose proof (committed_assigned _ _ _ _ _ Hraw Hws Hin (cache sh)) as Hcom.
  destruct ws as [|[k v] ws].
  { simpl in Hout, Hcom. destruct b; injection Hstep as <- <-; (eapply inv_local; [done..|]); simpl; split_and!; auto; done. }
  simpl in Hstep. unfold mv_write in Hstep. rewrite get_entry_cell in Hstep.
  pose proof (inv_dom _ _ _ Hinv k idx) as Hdom.
  destruct (cell (cache sh) k idx) as [[x|]|] eqn:Hc; simpl in Hstep; injection Hstep as <- <-.
  - exfalso. assert (Hk : k ∈ written.*1) by (apply Has; by exists x).
    rewrite Hws, fmap_app in Hnd. apply NoDup_app in Hnd as (_ & Hnot & _). apply (Hnot _ Hk). by left.
  - assert (Hk : k ∈ writes_of idx) by (apply Hdom; eauto).
    eapply (cell_inv _ _ _ _ Hinv _ _ _ _ _ Hi); try done.
    + by rewrite (committed_next _ _ _ _ _ Hraw Hws Hin k v ws).
    + simpl. split_and!; [done..|]. exists (written ++ [(k, v)]). rewrite <- app_assoc. split_and!; [done| |].
      * apply Forall_app. split; [done|]. by constructor.
      * intros k'. rewrite assigned_set_entry by (by rewrite Hc).
        rewrite fmap_app, elem_of_app, <- Has. simpl. rewrite list_elem_of_singleton. tauto.
  - assert (Hk : k ∉ writes_of idx) by (intros ?%Hdom; by apply is_Some_None in H).
    simpl in Hout, Hcom. rewrite bool_decide_false in Hout, Hcom by done. simpl in Hout, Hcom.
    eapply inv_local; [done..|]. simpl. split_and!; auto. done.
Qed.

Lemma skip_step th sh' th' idx keys res :
  ths !! i = Some th → th = AtSkip idx keys res → step sh th = Some (sh', th') →
  ∃ ph', inv ph' sh' (<[i := th']> ths).
Proof.
  intros Hi -> Hstep. pose proof (inv_threads _ _ _ Hinv _ _ Hi) as Hok.
  destruct keys as [|k keys].
  { injection Hstep as <- <-. eexists. by eapply store_inv. }
  destruct Hok as (Hidx & Hres & Hstop & Hcom & Hkeys & Hsub). exists ph.
  assert (Hk : k ∈ writes_of idx) by (apply Hsub; by left).
  assert (Hsub' : keys ⊆ writes_of idx) by (intros k' Hk'; apply Hsub; by right).
  simpl in Hstep. unfold skip_if_not_set in Hstep. rewrite get_entry_cell in Hstep.
  pose proof (inv_dom _ _ _ Hinv k idx) as Hdom.
  destruct (cell (cache sh) k idx) as [[x|]|] eqn:Hc; simpl in Hstep.
  - injection Hstep as <- <-. rewrite with_cache_id.
    eapply inv_local; [done..|]. simpl. split_and!; [done..| |done].
    intros k' [[->|]%elem_of_cons|]%Hkeys; [|by left|by right]. right. by exists x.
  - injection Hstep as <- <-. eapply (cell_inv _ _ _ _ Hinv _ _ _ _ _ Hi); try done.
    + symmetry. apply eq_None_not_Some. intros [x Hx]%Hcom. congruence.
    + simpl. assert (Hc' : is_Some (cell (cache sh) k idx)) by by rewrite Hc.
      split_and!; [done..| | |done]; intros k'.
      * rewrite assigned_set_entry by done. auto.
      * rewrite assigned_set_entry by done. intros [[->|]%elem_of_cons|]%Hkeys; auto.
  - exfalso. apply Hdom in Hk. by apply is_Some_None in Hk.
Qed.

Theorem step_inv th sh' th' :
  ths !! i = Some th → step sh th = Some (sh', th') → ∃ ph', inv ph' sh' (<[i := th']> ths).
Proof.
  intros Hi Hstep. pose proof (inv_threads _ _ _ Hinv _ _ Hi) as Hok.
  destruct th as [| |v| | | | | | |idx res| |idx res|idx deps res| |].
  - simpl in Hstep. destruct (pop_buffer (scheduler sh)) as [[v s]|] eqn:Hpop; injection Hstep as <- <-.
    + destruct (pop_inv _ _ _ _ Hinv v s (AtCheck v []) Hi Hpop) as [_ Hv]; [eauto|].
      rewrite begin_txn_ok by done. eexists. eapply pop_inv; eauto.
    + exists ph. eapply inv_local; [done..| |done]. intros Hb. unfold pop_buffer in Hpop.
      by destruct (txn_buffer _).
  - injection Hstep as <- <-. eexists. by apply fetch_inv.
  - injection Hstep as <- <-. unfold num_txn_to_execute. destruct (Nat.ltb_spec v (stop sh)) as [Hv|Hv].
    + assert (Hn : v < n) by (destruct (inv_stop _ _ _ Hinv); lia).
      rewrite begin_txn_ok by done. exists ph. by eapply inv_local.
    + eexists. by apply drop_inv.
  - by eapply check_step.
  - by eapply check_dep_step.
  - by eapply run_step.
  - by eapply read_dep_step.
  - injection Hstep as <- <-. eexists. by eapply requeue_inv.
  - by eapply write_step.
  - injection Hstep as <- <-. eexists. by eapply stop_inv.
  - by eapply skip_step.
  - simpl in Hstep. unfold take_dependencies in Hstep.
    destruct (lookup_lt_is_Some_2 (txn_dependency (scheduler sh)) idx) as [l Hl];
      [rewrite (inv_dep_len _ _ _ Hinv); apply Hok|].
    rewrite Hl in Hstep. injection Hstep as <- <-. eexists. eapply take_inv; try done.
    unfold take_dependencies. by rewrite Hl.
  - destruct deps as [|dep deps]; simpl in Hstep.
    + unfold set_result in Hstep. erewrite set_result_ok in Hstep by done. injection Hstep as <- <-.
      eexists. eapply finish_inv; try done. unfold set_result. by erewrite set_result_ok.
    + injection Hstep as <- <-. exists ph. by eapply push_inv.
  - done.
  - done.
Qed.
End step.
End parallel.
