(* ===== verification/ParallelSafety.v ===== *)
(** * ParallelSafety: the parallel executor computes the sequential result

    Whatever the schedule, the result of the threads is the one of the transactions executed
    one after the other; no thread panics, and no transaction before the stop version is lost.  The sample block increments counters
    under three keys; it also shows what the executor relies on: a task that reads on after a
    failed read is queued twice and its second execution panics, and one processor alone has no
    thread. *)

From S2P Require Import Prelude MVHashMap ParallelExecutor ParallelFacts.

Local Open Scope nat_scope.

Local Abbreviation CounterTask := (Task Z Z (list (Z * Z)) unit).

(** Adds one to the counter; an estimate of its accesses; the block. *)
Definition increment (key : Z) : CounterTask :=
  TaskRead key (λ r, match r with
                     | Some v => TaskReturn (Success [(key, (default 0 v + 1)%Z)])
                     | None => TaskReturn (Abort tt)
                     end).
Definition counter_accesses (key : Z) : option (Accesses Z) := Some (mkAccesses [key] [key]).
Definition counter_block : list Z := (λ i, Z.of_nat (i mod 3)) <$> seq 0 60.

Lemma increment_behaved (key : Z) : well_behaved id (increment key).
Proof. split; [done|]. intros [v|]; simpl; apply NoDup_singleton. Qed.

(** Turns of two threads, and the result under them. *)
Definition two_threads (turns : nat) : list nat := concat (replicate turns [0; 1; 1; 0; 1]).
Definition counter_run (num_cpus : nat) (schedule : list nat) : option (Result (ExecError unit) (list (list (Z * Z)))) :=
  execute_transactions_parallel Z.ltb id [] increment counter_accesses num_cpus schedule counter_block.

Definition counter_result : Result (ExecError unit) (list (list (Z * Z))) :=
  default (Panic "not finished") (counter_run 4 (two_threads 200)).
Lemma counter_run_ends :
  execute_transactions_parallel Z.ltb id [] increment counter_accesses 4 (two_threads 200) counter_block =
  Some counter_result.
Proof. vm_compute. reflexivity. Qed.

(** One processor leaves no thread to execute the block. *)
Lemma one_processor_fails : counter_run 1 [] = Some (Err InvariantViolation).
Proof. vm_compute. reflexivity. Qed.

(** A task that does not look at the result of its first read, the estimate left out.  While
    thread 0 executes the first transaction, thread 1 finds it missing twice for the fourth,
    which is then executed twice. *)
Definition careless (key : Z) : CounterTask := TaskRead key (λ _, increment key).
Definition no_reads (key : Z) : option (Accesses Z) := Some (mkAccesses [] [key]).

Lemma careless_task_panics :
  execute_transactions_parallel Z.ltb id [] careless no_reads 4
    (replicate 4 0 ++ replicate 1000 1 ++ replicate 1000 0) counter_block = Some (Panic "a thread panicked").
Proof. vm_compute. reflexivity. Qed.

(** An output that writes a key twice. *)
Definition write_twice (key : Z) : CounterTask := TaskReturn (Success [(key, 1%Z); (key, 2%Z)]).

Lemma double_write_panics :
  execute_transactions_parallel Z.ltb id [] write_twice counter_accesses 4 (two_threads 20) counter_block =
  Some (Panic "a thread panicked").
Proof. vm_compute. reflexivity. Qed.

Section safety.
Context {K V T O E : Type} `{HK : Countable K}.
Context (key_lt : K → K → bool) (get_writes : O → list (K * V)) (skip_output : O).
Context (execute_transaction : T → Task K V O E) (infer_reads_writes : T → option (Accesses K)).

Section block.
Context (block : list T) (infer_result : list (Accesses K)).
Local Abbreviation n := (length block).
Local Abbreviation System := (System (K:=K) (V:=V) (O:=O) (E:=E)).
Local Abbreviation inv := (inv get_writes execute_transaction block infer_result).
Local Abbreviation outcome_at := (outcome_at get_writes execute_transaction block infer_result).
Local Abbreviation overlay_at := (overlay_at get_writes execute_transaction block infer_result).
Local Abbreviation writes_of := (writes_of infer_result).
Local Abbreviation run_schedule := (run_schedule get_writes execute_transaction block infer_result).
Implicit Types (sys : System).

Definition sys_inv sys : Prop := ∃ ph, inv ph (shared sys) (threads sys).

(** ** The start *)

Lemma path_version_elem k v : (k, v) ∈ path_version_tuples infer_result ↔ k ∈ writes_of v.
Proof.
  unfold path_version_tuples, ParallelExecutor.writes_of.
  rewrite list_elem_of_In, in_concat. setoid_rewrite <- list_elem_of_In. split.
  - intros (l & [j Hj]%list_elem_of_lookup & H). rewrite list_lookup_imap in Hj.
    destruct (infer_result !! j) as [a|] eqn:Ha; [|done]. injection Hj as <-.
    apply list_elem_of_fmap in H as (ap & [= -> ->] & H). by rewrite Ha.
  - destruct (infer_result !! v) as [a|] eqn:Ha; simpl; [|by intros ?%elem_of_nil]. intros Hk.
    exists ((λ ap, (ap, v)) <$> keys_written a). split.
    + apply list_elem_of_lookup. exists v. by rewrite list_lookup_imap, Ha.
    + apply list_elem_of_fmap. eauto.
Qed.

Lemma versions_of_elem l (k : K) v : v ∈ versions_of k l ↔ (k, v) ∈ l.
Proof.
  unfold versions_of. rewrite list_elem_of_fmap. split.
  - intros ([k' v'] & -> & [Hk H]%list_elem_of_filter). simpl in *. by subst.
  - intros H. exists (k, v). split; [done|]. by apply list_elem_of_filter.
Qed.

Lemma holds_cell m k v : holds_cells (path_version_tuples infer_result) m →
  cell (V:=V) m k v = if bool_decide (k ∈ writes_of v) then Some None else None.
Proof.
  intros Hm. unfold cell. specialize (Hm k).
  assert (Hiff : v ∈ versions_of k (path_version_tuples infer_result) ↔ k ∈ writes_of v)
    by by rewrite versions_of_elem, path_version_elem.
  rewrite Hm. destruct (versions_of k _) as [|v0 vs] eqn:Hvs; simpl.
  { rewrite bool_decide_false; [done|]. rewrite <- Hiff. by intros ?%elem_of_nil. }
  rewrite lookup_gset_to_gmap. case_bool_decide as Hk.
  - rewrite option_guard_True; [done|]. apply Hiff in Hk. set_solver.
  - rewrite option_guard_False; [done|]. rewrite <- Hiff in Hk. set_solver.
Qed.

Lemma concat_replicate_nil {A} k : concat (replicate k (@nil A)) = [].
Proof. by induction k. Qed.

Lemma initial_inv num_threads m :
  holds_cells (path_version_tuples infer_result) m → sys_inv (initial_system num_threads n m).
Proof.
  intros Hm. exists (λ _, Unfetched). unfold initial_system, OutcomeArray_new. simpl.
  pose proof (concat_replicate_nil (A:=nat) n) as Hdeps.
  assert (Hpush : concat (pushing (K:=K) (V:=V) (O:=O) (E:=E) <$> replicate num_threads AtNext) = []).
  { rewrite fmap_replicate. apply concat_replicate_nil. }
  assert (Hths : ∀ i th, replicate num_threads AtNext !! i = Some th → th = AtNext (K:=K) (V:=V) (O:=O) (E:=E)).
  { intros i th [-> _]%lookup_replicate. done. }
  constructor; simpl; try (by rewrite length_replicate).
  - intros v i g. split; [done|]. intros (th & ->%Hths & [=]).
  - unfold queue_ok, queue. simpl. rewrite Hdeps, Hpush. simpl. split_and!; [constructor| |].
    + intros v. rewrite elem_of_nil. by split.
    + by intros v ?%elem_of_nil.
  - intros v. split; [lia|done].
  - done.
  - intros v. split; [done|]. intros [o Ho]. apply lookup_replicate in Ho. naive_solver.
  - intros v. split; [|lia]. intros Ho. apply lookup_replicate in Ho. naive_solver.
  - intros d l v [-> _]%lookup_replicate. by intros ?%elem_of_nil.
  - intros k v. rewrite holds_cell by done. case_bool_decide; split; naive_solver.
  - intros k v x. rewrite holds_cell by done. by case_bool_decide.
  - lia.
  - intros v o [? _]%lookup_replicate. done.
  - auto.
  - done.
  - intros i th ->%Hths. done.
Qed.

(** ** The number of threads *)

Lemma max_len_zero m l : holds_cells (path_version_tuples infer_result) m → is_max_len (V:=V) m l →
  l = 0 ↔ path_version_tuples infer_result = [].
Proof.
  intros Hm [Hle Hex]. split.
  - intros ->. destruct (path_version_tuples infer_result) as [|[k v] ts] eqn:Hts; [done|]. exfalso.
    assert (Hc : cell m k v = Some None).
    { rewrite holds_cell by (by rewrite Hts). rewrite bool_decide_true; [done|]. apply path_version_elem. rewrite Hts. by left. }
    unfold cell in Hc. destruct (m !! k) as [cells|] eqn:Hk; [|done]. simpl in Hc. specialize (Hle _ _ Hk).
    assert (Hz : size cells = 0) by lia. apply map_size_empty_inv in Hz as ->. by rewrite lookup_empty in Hc.
  - intros Hts. destruct Hex as [->|(k & cells & Hk & _)]; [done|]. specialize (Hm k).
    unfold versions_of in Hm. rewrite Hts in Hm. simpl in Hm. congruence.
Qed.

Lemma compute_cpus_pos num_cpus l : 2 ≤ num_cpus → l ≠ 0 → l ≤ n → 1 ≤ compute_cpus num_cpus n l.
Proof.
  intros Hc Hl Hn. unfold compute_cpus. assert (1 ≤ n / l) by (apply Nat.div_le_lower_bound; lia).
  set (a := n / l) in *. set (b := n / 50). lia.
Qed.

Context (Hlen : length infer_result = length block).

Lemma max_len_bound m l : holds_cells (path_version_tuples infer_result) m → is_max_len (V:=V) m l → l ≤ n.
Proof.
  intros Hm [_ [->|(k & cells & Hk & <-)]]; [lia|].
  rewrite <- size_dom, <- (size_set_seq (C:=gset nat) 0 n). apply subseteq_size.
  intros v [c Hc]%elem_of_dom. apply elem_of_set_seq. split; [lia|].
  assert (Hcell : cell m k v = Some c) by (unfold cell; by rewrite Hk). rewrite holds_cell in Hcell by done.
  case_bool_decide as Hw; [|done]. unfold ParallelExecutor.writes_of in Hw.
  destruct (infer_result !! v) eqn:Ha; [|by apply elem_of_nil in Hw]. apply lookup_lt_Some in Ha. lia.
Qed.

Context (Hwb : ∀ txn, txn ∈ block → well_behaved get_writes (execute_transaction txn)).

(** ** The run *)

Lemma system_step_inv i sys sys' :
  sys_inv sys → system_step get_writes execute_transaction block infer_result i sys = Some sys' → sys_inv sys'.
Proof.
  intros [ph Hinv] Hstep. unfold system_step in Hstep.
  destruct (threads sys !! i) as [th|] eqn:Hi; [|done]. simpl in Hstep.
  destruct (thread_step _ _ _ _ _ _) as [[sh' th']|] eqn:Hth; [|done]. injection Hstep as <-.
  by eapply step_inv.
Qed.

Lemma run_schedule_inv schedule sys : sys_inv sys → sys_inv (run_schedule schedule sys).
Proof.
  revert sys. induction schedule as [|i schedule IH]; intros sys Hinv; [done|]. simpl. apply IH.
  destruct (system_step _ _ _ _ i sys) as [sys'|] eqn:Hs; simpl; [|done]. by eapply system_step_inv.
Qed.

Lemma system_step_threads i sys sys' :
  system_step get_writes execute_transaction block infer_result i sys = Some sys' →
  length (threads sys') = length (threads sys).
Proof.
  unfold system_step. destruct (threads sys !! i); [|done]. simpl.
  destruct (thread_step _ _ _ _ _ _) as [[? ?]|]; [|done]. intros [= <-]. apply length_insert.
Qed.

Lemma run_schedule_threads schedule sys : length (threads (run_schedule schedule sys)) = length (threads sys).
Proof.
  revert sys. induction schedule as [|i schedule IH]; intros sys; [done|]. simpl. rewrite IH.
  destruct (system_step _ _ _ _ i sys) as [sys'|] eqn:Hs; simpl; [|done]. by eapply system_step_threads.
Qed.

(** ** The result *)

Local Abbreviation stop sys := (stop_at_version (scheduler (shared sys))).

(** At the end all threads exited, and every transaction before the stop version has its
    outcome: one that waits for another waits for one before it that is not done either. *)
Lemma finished_exited sys i th :
  sys_inv sys → finished sys = true → threads sys !! i = Some th → th = Exited.
Proof.
  intros [ph Hinv] Hfin Hi. unfold finished in Hfin. rewrite forallb_forall in Hfin.
  specialize (Hfin th). rewrite <- list_elem_of_In in Hfin.
  specialize (Hfin (list_elem_of_lookup_2 _ _ _ Hi)). pose proof (inv_threads _ _ _ _ _ _ _ Hinv _ _ Hi) as Hok.
  by destruct th.
Qed.

Lemma finished_outcomes sys v :
  sys_inv sys → finished sys = true → threads sys ≠ [] → v < stop sys →
  outcomes (shared sys) !! v = Some (Some (outcome_at v)).
Proof.
  intros Hsys Hfin Hne Hv. pose proof Hsys as [ph Hinv].
  pose proof (λ i th, finished_exited sys i th Hsys Hfin) as Hexit.
  destruct (threads sys) as [|th0 ths] eqn:Hths; [done|]. rewrite <- Hths in *.
  assert (Hmark : stop sys ≤ execution_marker (scheduler (shared sys))).
  { assert (H0 : threads sys !! 0 = Some th0) by by rewrite Hths.
    pose proof (inv_threads _ _ _ _ _ _ _ Hinv _ _ H0) as Hok. by rewrite (Hexit _ _ H0) in Hok. }
  assert (Hbuf : txn_buffer (scheduler (shared sys)) = []).
  { destruct (txn_buffer _) eqn:Hb; [done|]. destruct (inv_pop _ _ _ _ _ _ _ Hinv) as (i & th & Hi & Hp).
    { by rewrite Hb. } by rewrite (Hexit _ _ Hi) in Hp. }
  assert (Hpush : ∀ w, w ∉ concat (pushing <$> threads sys)).
  { intros w. rewrite list_elem_of_In, in_concat. setoid_rewrite <- list_elem_of_In.
    intros (l & (th & -> & [i Hi]%list_elem_of_lookup)%list_elem_of_fmap & Hw).
    rewrite (Hexit _ _ Hi) in Hw. by apply elem_of_nil in Hw. }
  enough (Hend : ph v = Ended).
  { apply (inv_ended _ _ _ _ _ _ _ Hinv) in Hend as [o Ho].
    by destruct (inv_outcome _ _ _ _ _ _ _ Hinv v o Ho) as [-> _]. }
  revert Hv. induction (lt_wf v) as [v _ IH]. intros Hv. destruct (ph v) as [| | |i g|] eqn:Hph; [..|done].
  - apply (inv_unfetched _ _ _ _ _ _ _ Hinv) in Hph. lia.
  - apply (inv_dropped _ _ _ _ _ _ _ Hinv) in Hph. lia.
  - exfalso. apply (inv_queue _ _ _ _ _ _ _ Hinv) in Hph. unfold queue in Hph. rewrite Hbuf in Hph. simpl in Hph.
    apply elem_of_app in Hph as [Hd|Hp]; [|by apply (Hpush v)].
    rewrite list_elem_of_In, in_concat in Hd. setoid_rewrite <- list_elem_of_In in Hd.
    destruct Hd as (l & [d Hd]%list_elem_of_lookup & Hl).
    destruct (inv_deps _ _ _ _ _ _ _ Hinv d l v Hd Hl) as [Hlt Hg]. rewrite IH in Hg by lia. simpl in Hg. lia.
  - apply (inv_owned _ _ _ _ _ _ _ Hinv) in Hph as (th & Hi & Ho). by rewrite (Hexit _ _ Hi) in Ho.
Qed.

(** The reference, seen as a walk over the outcomes. *)
Lemma sequential_from i :
  i < n →
  execute_sequential get_writes skip_output execute_transaction (overlay_at i) (drop i (zip block infer_result)) =
  match outcome_at i with
  | Success o =>
      let? outputs := execute_sequential get_writes skip_output execute_transaction (overlay_at (S i))
                        (drop (S i) (zip block infer_result)) in Ok (o :: outputs)
  | SkipRest o => Ok (o :: replicate (n - S i) skip_output)
  | Abort err => Err err
  end.
Proof.
  intros Hi. destruct (lookup_lt_is_Some_2 block i Hi) as [txn Htxn].
  destruct (lookup_lt_is_Some_2 infer_result i) as [a Ha]; [lia|].
  assert (Hz : zip block infer_result !! i = Some (txn, a)) by (rewrite lookup_zip_with, Htxn; simpl; by rewrite Ha).
  rewrite (drop_S _ _ _ Hz). cbn [execute_sequential overlay_at ParallelFacts.overlay_at].
  unfold ParallelFacts.outcome_at, run_at, ParallelExecutor.writes_of. rewrite Htxn, Ha. simpl.
  destruct (run_txn _ _ _ _ _) as [[o|e|o] ov]; simpl; [done..|].
  rewrite length_drop, length_zip_with, Hlen. do 2 f_equal. f_equal. lia.
Qed.

Definition padded (stop_at : nat) (r : Result (ExecError E) (list O)) : Result (ExecError E) (list O) :=
  let? l := r in Ok (l ++ replicate (n - stop_at) skip_output).

Lemma collect_sequential stop_at k i :
  stop_at = i + k → stop_at ≤ n →
  (∀ v, i ≤ v → v < stop_at → stopping (outcome_at v) → stop_at ≤ v + 1) →
  (stop_at = n ∨ 0 < k ∧ stopping (outcome_at (stop_at - 1))) →
  padded stop_at (collect_results stop_at i ((λ v, Some (outcome_at v)) <$> seq i k)) =
  execute_sequential get_writes skip_output execute_transaction (overlay_at i) (drop i (zip block infer_result)).
Proof.
  revert i. induction k as [|k IH]; intros i Hs Hn Hstop Hend.
  { destruct Hend as [Hend|[]]; [|lia]. rewrite drop_ge by (rewrite length_zip_with; lia).
    unfold padded. simpl. by replace (n - stop_at) with 0 by lia. }
  rewrite sequential_from by lia. specialize (IH (S i)).
  set (rest := execute_sequential _ _ _ (overlay_at (S i)) _) in *.
  cbn [seq fmap list_fmap collect_results].
  destruct (outcome_at i) as [o|e|o] eqn:Ho; simpl; [|done|].
  - rewrite <- IH; [|lia..| |].
    + unfold padded. replace (i + 1) with (S i) by lia. by destruct (collect_results _ _ _).
    + intros v Hv. apply Hstop. lia.
    + destruct Hend as [|[_ Hend]]; [by left|]. destruct k; [|right; split; [lia|done]].
      replace (stop_at - 1) with i in Hend by lia. by rewrite Ho in Hend.
  - assert (k = 0) as ->. { specialize (Hstop i). rewrite Ho in Hstop. simpl in Hstop. lia. }
    simpl. replace (i =? stop_at - 1) with true by (symmetry; apply Nat.eqb_eq; lia). simpl.
    unfold padded. simpl. by replace (n - stop_at) with (n - S i) by lia.
Qed.

Lemma collect_length stop_at i rs l : collect_results (E:=E) (O:=O) stop_at i rs = Ok l → length l = length rs.
Proof.
  revert i l. induction rs as [|r rs IH]; intros i l; simpl; [by intros [= <-]|].
  destruct (match r with Some (Success t) => Ok t | _ => _ end); [|done..]. simpl.
  destruct (collect_results _ _ rs) as [l'| |] eqn:Hl; [|done..]. intros [= <-]. simpl. by rewrite (IH _ _ Hl).
Qed.

Lemma all_results_padded stop_at os :
  stop_at ≤ n → length os = n →
  get_all_results skip_output stop_at os = padded stop_at (collect_results stop_at 0 (take stop_at os)).
Proof.
  intros Hs Ho. unfold get_all_results, padded. destruct (collect_results _ _ _) as [l| |] eqn:Hl; [|done..].
  apply collect_length in Hl. rewrite length_take in Hl. simpl.
  replace (length l =? stop_at) with true by (symmetry; apply Nat.eqb_eq; lia).
  rewrite resize_spec, take_ge by lia. do 3 f_equal. lia.
Qed.

Lemma finished_result sys :
  sys_inv sys → finished sys = true → threads sys ≠ [] →
  system_result skip_output sys =
  execute_sequential get_writes skip_output execute_transaction ∅ (zip block infer_result).
Proof.
  intros Hsys Hfin Hne. pose proof (λ v, finished_outcomes sys v Hsys Hfin Hne) as Hout.
  pose proof (λ i th, finished_exited sys i th Hsys Hfin) as Hexit. pose proof Hsys as [ph Hinv].
  unfold system_result, num_txn_to_execute.
  replace (existsb is_panicked (threads sys)) with false; cycle 1.
  { symmetry. apply not_true_iff_false. rewrite existsb_exists. setoid_rewrite <- list_elem_of_In.
    intros (th & [i Hi]%list_elem_of_lookup & Hp). by rewrite (Hexit _ _ Hi) in Hp. }
  destruct (inv_stop _ _ _ _ _ _ _ Hinv) as [Hs Hend]. pose proof (inv_out_len _ _ _ _ _ _ _ Hinv) as Hol.
  rewrite all_results_padded by done.
  assert (take (stop sys) (outcomes (shared sys)) = (λ v, Some (outcome_at v)) <$> seq 0 (stop sys)) as ->.
  { apply list_eq. intros v. rewrite list_lookup_fmap. destruct (decide (v < stop sys)) as [Hv|Hv].
    - rewrite lookup_take_lt, Hout, lookup_seq_lt by done. done.
    - rewrite lookup_take_ge, lookup_seq_ge by lia. done. }
  rewrite collect_sequential; [done|lia|done| |].
  - intros v _ Hv Hst. by apply (inv_outcome _ _ _ _ _ _ _ Hinv v _ (Hout v Hv)).
  - destruct Hend as [|(j & Hj & -> & Hst)]; [by left|right]. split; [lia|]. by replace (j + 1 - 1) with j by lia.
Qed.
End block.

End safety.

