(* ===== verification/ParallelLiveness.v ===== *)
(** * ParallelLiveness: the threads of the parallel executor finish

    A measure that every step of a thread lowers.  A transaction that has to wait is tried
    again only after the one it waits for was executed, and it never waits for that one again,
    so the number of attempts is bounded by the transactions before it that are not executed. *)

From S2P Require Import Prelude MVHashMap ParallelExecutor ParallelFacts ParallelSafety.

Local Open Scope nat_scope.

(** ** Sums *)

Lemma sum_insert {A} (f : A → nat) l i x y :
  l !! i = Some x → sum_list_with f (<[i := y]> l) + f x = sum_list_with f l + f y.
Proof.
  revert i. induction l as [|z l IH]; intros [|i] Hi; simpl in *; simplify_eq; [lia|done..|].
  specialize (IH _ Hi). lia.
Qed.

Lemma sum_mono {A} (f g : A → nat) l :
  (∀ x, x ∈ l → f x ≤ g x) → sum_list_with f l ≤ sum_list_with g l.
Proof.
  induction l as [|x l IH]; intros H; simpl; [done|].
  pose proof (H x (list_elem_of_here _ _)). specialize (IH (λ y Hy, H y (list_elem_of_further _ _ _ Hy))). lia.
Qed.

(** The sum over the entries with their indices. *)
Definition isum {A} (f : nat → A → nat) (l : list A) : nat := sum_list (imap f l).

Lemma isum_insert {A} (f : nat → A → nat) l i x y :
  l !! i = Some x → isum f (<[i := y]> l) + f i x = isum f l + f i y.
Proof.
  unfold isum. revert f i. induction l as [|z l IH]; intros f [|i] Hi; simpl in *; simplify_eq; [lia|].
  specialize (IH (f ∘ S) _ Hi). simpl in IH. lia.
Qed.

Lemma isum_mono {A} (f g : nat → A → nat) l :
  (∀ i x, l !! i = Some x → f i x ≤ g i x) → isum f l ≤ isum g l.
Proof.
  unfold isum. revert f g. induction l as [|x l IH]; intros f g H; simpl; [done|].
  pose proof (H 0 x eq_refl). specialize (IH (f ∘ S) (g ∘ S) (λ i, H (S i))). lia.
Qed.

(** ** Executed transactions *)

(** The transactions before [v] that are not executed. *)
Definition waits (status : list bool) (v : nat) : nat := length (filter (λ b, b = false) (take v status)).
Definition executed (status : list bool) (d : nat) : nat := if decide (status !! d = Some true) then 1 else 0.

Lemma waits_store status d v :
  waits (<[d := true]> status) v ≤ waits status v ∧
  (d < v → waits (<[d := true]> status) v + executed (<[d := true]> status) d
           ≤ waits status v + executed status d).
Proof.
  unfold waits, executed. revert d v. induction status as [|b status IH]; intros d v.
  { rewrite list_insert_ge by (simpl; lia). done. }
  destruct d as [|d]; destruct v as [|v]; simpl; try lia.
  - rewrite filter_cons_False by done.
    destruct b; [rewrite filter_cons_False by done|rewrite filter_cons_True by done]; simpl; [lia|].
    repeat case_decide; try done; simpl; lia.
  - specialize (IH d v). destruct b; [rewrite !filter_cons_False by done|rewrite !filter_cons_True by done]; simpl;
    destruct IH as [IH1 IH2]; (split; [lia|]); intros; specialize (IH2 ltac:(lia)); lia.
Qed.

Lemma waits_executed_store status d v d' : d' < v →
  waits (<[d := true]> status) v + executed (<[d := true]> status) d' ≤ waits status v + executed status d'.
Proof.
  intros Hd. destruct (decide (d' = d)) as [->|Hne]; [by apply waits_store|].
  pose proof (proj1 (waits_store status d v)). unfold executed. rewrite list_lookup_insert_ne by done. lia.
Qed.

Section liveness.
Context {K V T O E : Type} `{HK : Countable K}.
Context (key_lt : K → K → bool) (get_writes : O → list (K * V)) (skip_output : O).
Context (execute_transaction : T → Task K V O E) (infer_reads_writes : T → option (Accesses K)).

(** The reads of a task on given values. *)
Fixpoint run_len (overlay : gmap K V) (t : Task K V O E) : nat :=
  match t with
  | TaskReturn _ => 0
  | TaskRead k cont => S (run_len overlay (cont (Some (overlay !! k))))
  end.

Section block.
Context (block : list T) (infer_result : list (Accesses K)).
Local Abbreviation n := (length block).
Local Abbreviation Thread := (Thread (K:=K) (V:=V) (O:=O) (E:=E)).
Local Abbreviation Shared := (Shared (K:=K) (V:=V) (O:=O) (E:=E)).
Local Abbreviation System := (System (K:=K) (V:=V) (O:=O) (E:=E)).
Local Abbreviation inv := (inv get_writes execute_transaction block infer_result).
Local Abbreviation overlay_at := (overlay_at get_writes execute_transaction block infer_result).
Local Abbreviation raw_at := (raw_at get_writes execute_transaction block infer_result).
Local Abbreviation writes_of := (writes_of infer_result).
Local Abbreviation reads_of := (reads_of infer_result).
Local Abbreviation step := (thread_step get_writes execute_transaction block infer_result).
Implicit Types (sys : System) (sh : Shared) (th : Thread) (status : list bool).

(** ** The costs *)

(** From the result of the task to the outcome; an attempt from the task on; an attempt. *)
Definition commit_cost (v : nat) : nat :=
  length (from_option get_writes [] (raw_at v ≫= output_of)) + length (writes_of v) + 10.
Definition run_cost (v : nat) : nat :=
  from_option (λ txn, run_len (overlay_at v) (execute_transaction txn)) 0 (block !! v) + commit_cost v + 1.
Definition attempt_cost (v : nat) : nat := 2 * length (reads_of v) + run_cost v + 1.

(** A transaction that is free to run has one attempt more than there are transactions before
    it to wait for; one that waits for [d] has used one of them. *)
Definition free_cost status (v : nat) : nat := attempt_cost v * (waits status v + 1).
Definition waiting_cost status (d v : nat) : nat := attempt_cost v * (waits status v + executed status d) + 1.

Definition thread_cost status th : nat :=
  match th with
  | Exited | Panicked => 0
  | AtBound v => 1 + if v <? n then free_cost status v else 0
  | AtFetch => 2
  | AtNext => 3
  | AtRun _ _ true => 4
  | AtCheck v keys => attempt_cost v * waits status v + 2 * length keys + run_cost v + 1
  | AtCheckDep v _ keys => attempt_cost v * waits status v + 2 * length keys + run_cost v + 2
  | AtRun v t false => attempt_cost v * waits status v + run_len (overlay_at v) t + commit_cost v
  | AtReadDep v d _ => waiting_cost status d v + 5
  | AtRequeue v _ => free_cost status v + 5
  | AtWrite v ws _ _ => length ws + length (writes_of v) + 9
  | AtStop v _ => length (writes_of v) + 8
  | AtSkip v keys _ => length keys + 7
  | AtTake _ _ => 6
  | AtPush _ deps _ => sum_list_with (λ v, free_cost status v + 1) deps + 5
  end.

Definition shared_cost sh : nat :=
  let s := scheduler sh in
  let status := txn_status s in
  sum_list_with (free_cost status) (seq (execution_marker s) (n - execution_marker s))
  + sum_list_with (free_cost status) (txn_buffer s)
  + isum (λ d, sum_list_with (waiting_cost status d)) (txn_dependency s).

Definition measure sys : nat :=
  shared_cost (shared sys) + sum_list_with (thread_cost (txn_status (scheduler (shared sys)))) (threads sys).

(** ** The steps *)

(** The cost that a thread carries with the shared state. *)
Definition cost sh th : nat := shared_cost sh + thread_cost (txn_status (scheduler sh)) th.

Lemma measure_move sh sh' (ths : list Thread) i th th' :
  ths !! i = Some th → txn_status (scheduler sh') = txn_status (scheduler sh) → cost sh' th' < cost sh th →
  measure (mkSystem sh' (<[i := th']> ths)) < measure (mkSystem sh ths).
Proof.
  unfold measure, cost. simpl. intros Hi -> Hlt.
  pose proof (sum_insert (thread_cost (txn_status (scheduler sh))) ths i th th' Hi). lia.
Qed.

Lemma free_cost_eq status v :
  free_cost status v = attempt_cost v * waits status v + (2 * length (reads_of v) + run_cost v + 1).
Proof. unfold free_cost. by rewrite Nat.mul_add_distr_l, Nat.mul_1_r. Qed.

Lemma free_cost_store status d v : free_cost (<[d := true]> status) v ≤ free_cost status v.
Proof. unfold free_cost. apply Nat.mul_le_mono_l. pose proof (proj1 (waits_store status d v)). lia. Qed.
Lemma waiting_cost_store status d d' v :
  d' < v → waiting_cost (<[d := true]> status) d' v ≤ waiting_cost status d' v.
Proof.
  intros Hd. unfold waiting_cost. apply Nat.add_le_mono_r, Nat.mul_le_mono_l. by apply waits_executed_store.
Qed.

Lemma thread_cost_store sh status d th :
  thread_ok get_writes execute_transaction block infer_result sh th →
  thread_cost (<[d := true]> status) th ≤ thread_cost status th.
Proof.
  intros Hok. pose proof (λ v, free_cost_store status d v) as Hf. pose proof (λ v, proj1 (waits_store status d v)) as Hw.
  destruct th as [| |v| | |v t []| | | | | | |v deps res| |]; simpl; try done.
  - case_match; [specialize (Hf v); lia|done].
  - pose proof (Nat.mul_le_mono_l _ _ (attempt_cost idx) (Hw idx)). lia.
  - pose proof (Nat.mul_le_mono_l _ _ (attempt_cost idx) (Hw idx)). lia.
  - pose proof (Nat.mul_le_mono_l _ _ (attempt_cost v) (Hw v)). lia.
  - apply Nat.add_le_mono_r, waiting_cost_store. apply Hok.
  - specialize (Hf idx). lia.
  - apply Nat.add_le_mono_r, sum_mono. intros w _. specialize (Hf w). lia.
Qed.

Lemma store_measure ph sh (ths : list Thread) i idx res :
  inv ph sh ths → ths !! i = Some (AtSkip idx [] res) →
  measure (mkSystem (with_scheduler (store_executed idx (scheduler sh)) sh) (<[i := AtTake idx res]> ths))
  < measure (mkSystem sh ths).
Proof.
  intros Hinv Hi. unfold measure, shared_cost. simpl.
  set (status := txn_status (scheduler sh)). set (status' := <[idx := true]> status).
  pose proof (sum_insert (thread_cost status') ths i _ (AtTake idx res) Hi) as Hs. simpl in Hs.
  assert (Hths : sum_list_with (thread_cost status') ths ≤ sum_list_with (thread_cost status) ths).
  { apply sum_mono. intros th [j Hj]%list_elem_of_lookup. eapply thread_cost_store, inv_threads; eauto. }
  assert (Hfree : ∀ l, sum_list_with (free_cost status') l ≤ sum_list_with (free_cost status) l).
  { intros l. apply sum_mono. intros v _. apply free_cost_store. }
  pose proof (Hfree (seq (execution_marker (scheduler sh)) (n - execution_marker (scheduler sh)))).
  pose proof (Hfree (txn_buffer (scheduler sh))).
  assert (isum (λ d, sum_list_with (waiting_cost status' d)) (txn_dependency (scheduler sh))
          ≤ isum (λ d, sum_list_with (waiting_cost status d)) (txn_dependency (scheduler sh))).
  { apply isum_mono. intros d l Hd. apply sum_mono. intros v Hv. apply waiting_cost_store.
    by destruct (inv_deps _ _ _ _ _ _ _ Hinv d l v Hd Hv). }
  lia.
Qed.

Context (Hlen : length infer_result = n).
Context (Hwb : ∀ txn, txn ∈ block → well_behaved get_writes (execute_transaction txn)).

Section steps.
Context (ph : nat → Phase) (sh : Shared) (ths : list Thread) (i : nat).
Context (Hinv : inv ph sh ths).
Local Abbreviation status := (txn_status (scheduler sh)).

(** The step of a thread, other than the store of the status. *)
Definition lowers th : Prop :=
  ∀ sh' th', step sh th = Some (sh', th') →
    txn_status (scheduler sh') = status ∧ cost sh' th' < cost sh th.

Lemma next_lowers : ths !! i = Some AtNext → lowers AtNext.
Proof.
  intros Hi sh' th' Hstep. simpl in Hstep. destruct (pop_buffer (scheduler sh)) as [[v s]|] eqn:Hpop.
  - destruct (pop_inv _ _ _ _ _ _ _ _ Hinv v s (AtCheck v []) Hi Hpop) as [_ Hv]; [eauto|].
    injection Hstep as <- <-. rewrite begin_txn_ok by done.
    unfold pop_buffer in Hpop. destruct (txn_buffer (scheduler sh)) as [|v' buf] eqn:Hb; [done|].
    injection Hpop as -> <-. split; [done|]. unfold cost, shared_cost. simpl. rewrite Hb. simpl.
    rewrite free_cost_eq. lia.
  - injection Hstep as <- <-. split; [done|]. unfold cost. simpl. lia.
Qed.

Lemma fetch_lowers : lowers AtFetch.
Proof.
  intros sh' th' Hstep. injection Hstep as <- <-. split; [done|]. unfold cost, shared_cost. simpl.
  set (m := execution_marker (scheduler sh)). destruct (Nat.ltb_spec m n) as [Hm|Hm].
  - replace (n - m) with (S (n - (m + 1))) by lia. replace (m + 1) with (S m) by lia. simpl. lia.
  - replace (n - (m + 1)) with 0 by lia. simpl. lia.
Qed.

Lemma bound_lowers v : lowers (AtBound v).
Proof.
  intros sh' th' Hstep. injection Hstep as <- <-. split; [done|]. unfold num_txn_to_execute.
  destruct (Nat.ltb_spec v (stop_at_version (scheduler sh))) as [Hv|Hv]; [|unfold cost; simpl; lia].
  assert (Hn : v < n) by (destruct (inv_stop _ _ _ _ _ _ _ Hinv); lia).
  rewrite begin_txn_ok by done. unfold cost. simpl. rewrite (proj2 (Nat.ltb_lt v n) Hn).
  rewrite free_cost_eq. lia.
Qed.

Lemma check_lowers idx keys : idx < n → lowers (AtCheck idx keys).
Proof.
  intros Hidx sh' th' Hstep. destruct keys as [|k keys]; injection Hstep as <- <-; (split; [done|]); unfold cost.
  - unfold begin_execution. destruct (lookup_lt_is_Some_2 block idx Hidx) as [txn Htxn]. rewrite Htxn. simpl.
    unfold run_cost. rewrite Htxn. simpl. lia.
  - destruct (mv_read _ _ _); simpl; lia.
Qed.

(** The thread gives the transaction up, or the dependency is executed. *)
Lemma add_dependency_cost idx d s b :
  add_dependency (E:=ExecError E) idx d (scheduler sh) = Ok (s, b) →
  txn_status s = status ∧
  if b then shared_cost (with_scheduler s sh) = shared_cost sh + waiting_cost status d idx ∧ executed status d = 0
  else s = scheduler sh ∧ executed status d = 1.
Proof.
  unfold add_dependency. destruct (txn_dependency (scheduler sh) !! d) as [l|] eqn:Hl; [|done]. simpl.
  destruct (txn_status (scheduler sh) !! d) as [[]|] eqn:Hst; simpl; [..|done]; intros [= <- <-]; simpl.
  - unfold executed. by rewrite decide_True.
  - split; [done|]. unfold executed. rewrite decide_False by congruence. split; [|done].
    unfold shared_cost. simpl.
    pose proof (isum_insert (λ d, sum_list_with (waiting_cost status d)) _ d l (l ++ [idx]) Hl) as Hs.
    simpl in Hs. rewrite sum_list_with_app in Hs. simpl in Hs. lia.
Qed.

Lemma add_dependency_total idx d : idx < n → d < idx →
  ∃ s b, add_dependency (E:=ExecError E) idx d (scheduler sh) = Ok (s, b).
Proof.
  intros Hidx Hd.
  destruct (add_dependency_cases _ _ _ _ Hlen _ _ _ Hinv idx d Hidx Hd) as [[s ?]|?]; eauto.
Qed.

Lemma check_dep_lowers idx d keys : ths !! i = Some (AtCheckDep idx d keys) → lowers (AtCheckDep idx d keys).
Proof.
  intros Hi sh' th' Hstep. destruct (inv_threads _ _ _ _ _ _ _ Hinv _ _ Hi) as [Hidx Hd]. simpl in Hstep.
  destruct (add_dependency_total idx d Hidx Hd) as (s & b & Hadd). rewrite Hadd in Hstep.
  apply add_dependency_cost in Hadd as [Hst Hb].
  assert (Hr : 3 < run_cost idx) by (unfold run_cost, commit_cost; lia).
  destruct b; injection Hstep as <- <-; (split; [done|]); unfold cost; simpl; rewrite ?Hst.
  - destruct Hb as [-> He]. unfold waiting_cost. rewrite He, Nat.add_0_r. lia.
  - destruct Hb as [-> _]. rewrite with_scheduler_id. lia.
Qed.

Lemma read_dep_lowers idx d t : ths !! i = Some (AtReadDep idx d t) → lowers (AtReadDep idx d t).
Proof.
  intros Hi sh' th' Hstep. destruct (inv_threads _ _ _ _ _ _ _ Hinv _ _ Hi) as (Hidx & Hd & _). simpl in Hstep.
  destruct (add_dependency_total idx d Hidx Hd) as (s & b & Hadd). rewrite Hadd in Hstep.
  apply add_dependency_cost in Hadd as [Hst Hb].
  destruct b; injection Hstep as <- <-; (split; [done|]); unfold cost; simpl; rewrite ?Hst.
  - destruct Hb as [-> He]. lia.
  - destruct Hb as [-> He]. rewrite with_scheduler_id. unfold waiting_cost, free_cost. rewrite He. lia.
Qed.

Lemma requeue_lowers idx t : lowers (AtRequeue idx t).
Proof.
  intros sh' th' Hstep. injection Hstep as <- <-. split; [done|]. unfold cost, shared_cost. simpl.
  rewrite sum_list_with_app. simpl. lia.
Qed.

Lemma run_lowers idx t b : ths !! i = Some (AtRun idx t b) → lowers (AtRun idx t b).
Proof.
  intros Hi sh' th' Hstep. pose proof (inv_threads _ _ _ _ _ _ _ Hinv _ _ Hi) as Hok. destruct b.
  { destruct t; [|done]. injection Hstep as <- <-. split; [done|]. unfold cost. simpl. lia. }
  destruct Hok as (Hidx & _ & Hraw). destruct t as [st|k cont]; injection Hstep as <- <-; (split; [done|]).
  - unfold cost. simpl in *. unfold commit_cost. rewrite <- Hraw. destruct st; simpl; lia.
  - pose proof (read_ok _ _ _ _ _ _ _ Hinv k idx) as Hr. unfold cost.
    destruct (mv_read _ _ _) as [v| |d]; simpl; [rewrite Hr; lia..|].
    unfold waiting_cost, commit_cost, executed. rewrite decide_False; [rewrite Nat.add_0_r; lia|].
    intros Hd%(inv_status _ _ _ _ _ _ _ Hinv). destruct Hr as [_ Hc].
    destruct (inv_assigned _ _ _ _ _ _ _ Hinv k d Hd) as [x Hx]; [|congruence].
    apply (inv_dom _ _ _ _ _ _ _ Hinv). by rewrite Hc.
Qed.

Lemma write_lowers idx ws o b : lowers (AtWrite idx ws o b).
Proof.
  intros sh' th' Hstep. destruct ws as [|[k v] ws].
  { destruct b; injection Hstep as <- <-; (split; [done|]); unfold cost; simpl; lia. }
  simpl in Hstep. destruct (mv_write _ _ _ _); injection Hstep as <- <-; (split; [done|]);
    unfold cost, shared_cost; simpl; lia.
Qed.

Lemma stop_lowers idx res : lowers (AtStop idx res).
Proof. intros sh' th' Hstep. injection Hstep as <- <-. split; [done|]. unfold cost, shared_cost. simpl. lia. Qed.

Lemma skip_lowers idx k keys res : lowers (AtSkip idx (k :: keys) res).
Proof.
  intros sh' th' Hstep. simpl in Hstep.
  destruct (skip_if_not_set _ _ _); injection Hstep as <- <-; (split; [done|]); unfold cost, shared_cost; simpl; lia.
Qed.

Lemma take_lowers idx res : ths !! i = Some (AtTake idx res) → lowers (AtTake idx res).
Proof.
  intros Hi sh' th' Hstep. simpl in Hstep. unfold take_dependencies in Hstep.
  destruct (txn_dependency (scheduler sh) !! idx) as [l|] eqn:Hl; injection Hstep as <- <-; (split; [done|]);
    unfold cost; simpl; [|lia].
  assert (He : executed status idx = 1).
  { unfold executed. rewrite decide_True; [done|]. apply (inv_status _ _ _ _ _ _ _ Hinv).
    by destruct (owner_facts _ _ _ _ _ _ _ _ Hinv idx 2 _ Hi eq_refl) as [-> _]. }
  unfold shared_cost. simpl.
  pose proof (isum_insert (λ d, sum_list_with (waiting_cost status d)) _ idx l [] Hl) as Hs. simpl in Hs.
  assert (Hw : sum_list_with (waiting_cost status idx) l = sum_list_with (λ v, free_cost status v + 1) l).
  { unfold waiting_cost. by rewrite He. }
  rewrite merge_sort_Permutation. lia.
Qed.

Lemma push_lowers idx deps res : lowers (AtPush idx deps res).
Proof.
  intros sh' th' Hstep. destruct deps as [|d deps]; simpl in Hstep.
  - destruct (set_result _ _ _); injection Hstep as <- <-; (split; [done|]); unfold cost, shared_cost; simpl; lia.
  - injection Hstep as <- <-. split; [done|]. unfold cost, shared_cost. simpl. rewrite sum_list_with_app. simpl. lia.
Qed.

Lemma step_measure th sh' th' :
  ths !! i = Some th → step sh th = Some (sh', th') →
  measure (mkSystem sh' (<[i := th']> ths)) < measure (mkSystem sh ths).
Proof.
  intros Hi Hstep.
  assert (Hcase : lowers th ∨ ∃ idx res, th = AtSkip idx [] res).
  { pose proof (inv_threads _ _ _ _ _ _ _ Hinv _ _ Hi) as Hok.
    destruct th as [| | | | | | | | | |idx [|k keys] res| | | |]; [left..|right|left|left|left|left|left]; eauto using
      next_lowers, fetch_lowers, bound_lowers, check_lowers, check_dep_lowers, run_lowers, read_dep_lowers,
      requeue_lowers, write_lowers, stop_lowers, skip_lowers, take_lowers, push_lowers; by intros ? ?. }
  destruct Hcase as [Hl|(idx & res & ->)].
  - destruct (Hl _ _ Hstep). by eapply measure_move.
  - injection Hstep as <- <-. by eapply store_measure.
Qed.
End steps.

(** ** Schedules *)

Local Abbreviation system_step := (system_step get_writes execute_transaction block infer_result).
Local Abbreviation run_schedule := (run_schedule get_writes execute_transaction block infer_result).
Local Abbreviation sys_inv := (sys_inv get_writes execute_transaction block infer_result).

Definition running th : Prop := is_exited th = false ∧ is_panicked th = false.

Lemma step_running sh th : running th → is_Some (step sh th).
Proof.
  intros [He Hp]. destruct th as [| | |idx [|]| |idx [|] []| | |idx [|[]] ? []| |idx [|]| |idx [|]| |]; try done.
Qed.

Lemma system_step_measure i sys sys' : sys_inv sys → system_step i sys = Some sys' → measure sys' < measure sys.
Proof.
  intros [ph Hinv] Hstep. unfold ParallelExecutor.system_step in Hstep. destruct sys as [sh ths]. simpl in *.
  destruct (ths !! i) as [th|] eqn:Hi; [|done]. simpl in Hstep.
  destruct (step sh th) as [[sh' th']|] eqn:Hth; [|done]. injection Hstep as <-. by eapply step_measure.
Qed.

Lemma run_schedule_measure schedule sys : sys_inv sys →
  measure (run_schedule schedule sys) ≤ measure sys ∧
  (∀ i th, i ∈ schedule → threads sys !! i = Some th → running th →
    measure (run_schedule schedule sys) < measure sys).
Proof.
  revert sys. induction schedule as [|j schedule IH]; intros sys Hinv.
  { split; [done|]. by intros i th ?%elem_of_nil. }
  simpl. destruct (system_step j sys) as [sys'|] eqn:Hj; simpl.
  - destruct (IH sys') as [Hle _]; [by eapply system_step_inv|].
    pose proof (system_step_measure j sys sys' Hinv Hj). split; [lia|intros; lia].
  - destruct (IH sys Hinv) as [Hle Hlt]. split; [done|]. intros i th [->|Hi]%elem_of_cons Hth Hr; [|by eapply Hlt].
    unfold ParallelExecutor.system_step in Hj. rewrite Hth in Hj. simpl in Hj.
    destruct (step_running (shared sys) th Hr) as [[sh' th'] Hs]. by rewrite Hs in Hj.
Qed.

Lemma not_finished sys : finished sys = false → ∃ i th, threads sys !! i = Some th ∧ running th.
Proof.
  unfold finished. intros H. apply not_true_iff_false in H. rewrite forallb_forall in H.
  destruct (decide (Exists (λ th, is_exited th || is_panicked th = false) (threads sys))) as [He|He].
  - apply Exists_exists in He as (th & [i Hi]%list_elem_of_lookup & Hth).
    apply orb_false_iff in Hth. exists i, th. done.
  - destruct H. intros th Hth%list_elem_of_In. apply not_false_iff_true. intros Hf. apply He, Exists_exists. eauto.
Qed.

Lemma finished_stays schedule sys : finished sys = true → run_schedule schedule sys = sys.
Proof.
  unfold finished. rewrite forallb_forall. setoid_rewrite <- list_elem_of_In. intros Hf.
  induction schedule as [|i schedule IH]; [done|]. simpl.
  assert (system_step i sys = None) as ->; [|done]. unfold ParallelExecutor.system_step.
  destruct (threads sys !! i) as [th|] eqn:Hi; [|done]. simpl.
  specialize (Hf th (list_elem_of_lookup_2 _ _ _ Hi)). by destruct th.
Qed.

Lemma run_schedule_app s1 s2 sys : run_schedule (s1 ++ s2) sys = run_schedule s2 (run_schedule s1 sys).
Proof. apply fold_left_app. Qed.

(** Rounds that give every thread a turn. *)
Lemma rounds_finish rounds sys :
  sys_inv sys → Forall (λ round, ∀ i, i < length (threads sys) → i ∈ round) rounds →
  measure sys ≤ length rounds → finished (run_schedule (concat rounds) sys) = true.
Proof.
  revert sys. induction rounds as [|round rounds IH]; intros sys Hinv Hr Hm; destruct (finished sys) eqn:Hfin;
    try (by rewrite finished_stays).
  - destruct (not_finished sys Hfin) as (i & th & Hi & Hrun). exfalso. simpl in Hm.
    destruct (run_schedule_measure [i] sys Hinv) as [_ Hlt]. specialize (Hlt i th ltac:(by left) Hi Hrun). lia.
  - apply Forall_cons in Hr as [Hround Hr]. destruct (not_finished sys Hfin) as (i & th & Hi & Hrun).
    destruct (run_schedule_measure round sys Hinv) as [_ Hlt].
    specialize (Hlt i th (Hround i (lookup_lt_Some _ _ _ Hi)) Hi Hrun).
    simpl. rewrite run_schedule_app. apply IH.
    + by apply run_schedule_inv.
    + by rewrite run_schedule_threads.
    + simpl in Hm. lia.
Qed.
End block.

End liveness.

