(* ===== verification/FileFormat.v ===== *)
(** * FileFormat: compiled Move modules and scripts

    Models src/language/move-binary-format/src/file_format.rs (abilities, types, handles,
    definitions, bytecode) and the table accessors of access.rs and binary_views.rs.  Indices
    are natural numbers; an access outside of a table panics.  Of an error only its status code
    is kept, not the location and the message. *)

From S2P Require Import Prelude.

Local Open Scope nat_scope.

(** The status codes that the modelled passes return. *)
Inductive StatusCode :=
| INDEX_OUT_OF_BOUNDS | NUMBER_OF_TYPE_ARGUMENTS_MISMATCH | TOO_MANY_LOCALS | NO_MODULE_HANDLES
| VERIFIER_INVARIANT_VIOLATION | INVALID_OPERATION_IN_SCRIPT
| INVALID_SIGNATURE_TOKEN | CONSTRAINT_NOT_SATISFIED | INVALID_PHANTOM_TYPE_PARAM_POSITION
| GENERIC_MEMBER_OPCODE_MISMATCH | INVALID_CONSTANT_TYPE | MALFORMED_CONSTANT_DATA
| EMPTY_CODE_UNIT | INVALID_FALL_THROUGH | INVALID_LOOP_CONTINUE | INVALID_LOOP_BREAK | INVALID_LOOP_SPLIT
| NEGATIVE_STACK_SIZE_WITHIN_BLOCK | POSITIVE_STACK_SIZE_AT_BLOCK_END
| BORROWFIELD_TYPE_MISMATCH_ERROR | BORROWFIELD_BAD_FIELD_ERROR | BORROWLOC_REFERENCE_ERROR
| BORROWGLOBAL_TYPE_MISMATCH_ERROR | BORROWGLOBAL_WITHOUT_KEY_ABILITY | CALL_TYPE_MISMATCH_ERROR
| PACK_TYPE_MISMATCH_ERROR | UNPACK_TYPE_MISMATCH_ERROR | EXISTS_WITHOUT_KEY_ABILITY_OR_BAD_ARGUMENT
| MOVEFROM_WITHOUT_KEY_ABILITY | MOVEFROM_TYPE_MISMATCH_ERROR | MOVETO_WITHOUT_KEY_ABILITY
| MOVETO_TYPE_MISMATCH_ERROR | TYPE_MISMATCH | POP_WITHOUT_DROP_ABILITY | BR_TYPE_MISMATCH_ERROR
| STLOC_TYPE_MISMATCH_ERROR | ABORT_TYPE_MISMATCH_ERROR | RET_TYPE_MISMATCH_ERROR
| FREEZEREF_TYPE_MISMATCH_ERROR | COPYLOC_WITHOUT_COPY_ABILITY | READREF_WITHOUT_COPY_ABILITY
| READREF_TYPE_MISMATCH_ERROR | WRITEREF_NO_MUTABLE_REFERENCE_ERROR | WRITEREF_WITHOUT_DROP_ABILITY
| WRITEREF_TYPE_MISMATCH_ERROR | INTEGER_OP_TYPE_MISMATCH_ERROR | BOOLEAN_OP_TYPE_MISMATCH_ERROR
| EQUALITY_OP_TYPE_MISMATCH_ERROR
| STLOC_UNSAFE_TO_DESTROY_ERROR | MOVELOC_UNAVAILABLE_ERROR | COPYLOC_UNAVAILABLE_ERROR
| BORROWLOC_UNAVAILABLE_ERROR | UNSAFE_RET_UNUSED_VALUES_WITHOUT_DROP
| DUPLICATE_ELEMENT | ZERO_SIZED_STRUCT | INVALID_MODULE_HANDLE | UNIMPLEMENTED_HANDLE | DUPLICATE_ACQUIRES_ANNOTATION
| INVALID_FRIEND_DECL_WITH_SELF | INVALID_FRIEND_DECL_WITH_MODULES_OUTSIDE_ACCOUNT_ADDRESS | FIELD_MISSING_TYPE_ABILITY
| INVALID_MAIN_FUNCTION_SIGNATURE.

Abbreviation PartialVMResult := (Result StatusCode).

(** [&pool[idx]] *)
Definition at_index {A} (pool : list A) (idx : nat) : PartialVMResult A :=
  expect (pool !! idx) "index out of bounds".

(** ** Abilities *)

Inductive Ability := Copy | Drop | Store | Key.

Definition ability_bits (a : Ability) : Z :=
  match a with Copy => 1 | Drop => 2 | Store => 4 | Key => 8 end.

(** [AbilitySet(u8)] *)
Abbreviation AbilitySet := Z.

Definition EMPTY : AbilitySet := 0.
Definition PRIMITIVES : AbilitySet := Z.lor (Z.lor (ability_bits Copy) (ability_bits Drop)) (ability_bits Store).
Definition REFERENCES : AbilitySet := Z.lor (ability_bits Copy) (ability_bits Drop).
Definition SIGNER : AbilitySet := ability_bits Drop.
Definition VECTOR : AbilitySet := Z.lor (Z.lor (ability_bits Copy) (ability_bits Drop)) (ability_bits Store).

Definition ALL : AbilitySet := Z.lor (Z.lor (Z.lor (ability_bits Copy) (ability_bits Drop)) (ability_bits Store)) (ability_bits Key).

Definition has_ability (s : AbilitySet) (a : Ability) : bool := (Z.land (ability_bits a) s =? ability_bits a)%Z.
Definition has_copy (s : AbilitySet) : bool := has_ability s Copy.
Definition has_drop (s : AbilitySet) : bool := has_ability s Drop.
Definition has_key (s : AbilitySet) : bool := has_ability s Key.
Definition is_subset (sub sup : AbilitySet) : bool := (Z.land sub sup =? sub)%Z.

(** [AbilitySetIterator]: the members, from the lowest bit on. *)
Definition abilities_of (s : AbilitySet) : list Ability := filter (λ a, has_ability s a = true) [Copy; Drop; Store; Key].

Definition required_by (a : Ability) : AbilitySet :=
  match a with
  | Copy => Z.lor EMPTY (ability_bits Copy)
  | Drop => Z.lor EMPTY (ability_bits Drop)
  | Store => Z.lor (Z.lor EMPTY (ability_bits Store)) (ability_bits Key)
  | Key => EMPTY
  end.

Definition requires (a : Ability) : Ability := match a with Copy => Copy | Drop => Drop | Store => Store | Key => Store end.

Definition polymorphic_abilities (declared_abilities : AbilitySet) (declared_phantom_parameters : list bool)
    (type_arguments : list AbilitySet) : PartialVMResult AbilitySet :=
  if negb (length declared_phantom_parameters =? length type_arguments) then Err VERIFIER_INVARIANT_VIOLATION
  else
    Ok (fold_left Z.land
          ((λ ty_arg, fold_left Z.lor (required_by <$> abilities_of ty_arg.1) EMPTY) <$>
            filter (λ ty_arg, ty_arg.2 = false) (zip type_arguments declared_phantom_parameters))
          declared_abilities).

(** ** Types *)

Inductive SignatureToken :=
| Bool | U8 | U64 | U128 | Address | Signer
| Vector (t : SignatureToken)
| Struct (idx : nat)
| StructInstantiation (idx : nat) (type_args : list SignatureToken)
| Reference (t : SignatureToken)
| MutableReference (t : SignatureToken)
| TypeParameter (idx : nat).

Abbreviation Signature := (list SignatureToken).

Global Instance SignatureToken_eq_dec : EqDecision SignatureToken.
Proof.
  refine (fix go (s t : SignatureToken) {struct s} : Decision (s = t) :=
    match s, t with
    | Bool, Bool | U8, U8 | U64, U64 | U128, U128 | Address, Address | Signer, Signer => left eq_refl
    | Vector s, Vector t => cast_if (go s t)
    | Struct i, Struct j => cast_if (decide (i = j))
    | StructInstantiation i ss, StructInstantiation j ts =>
        cast_if_and (decide (i = j)) (@decide (ss = ts) (@list_eq_dec _ go ss ts))
    | Reference s, Reference t => cast_if (go s t)
    | MutableReference s, MutableReference t => cast_if (go s t)
    | TypeParameter i, TypeParameter j => cast_if (decide (i = j))
    | _, _ => right _
    end); abstract congruence.
Defined.

Definition is_integer (t : SignatureToken) : bool := match t with U8 | U64 | U128 => true | _ => false end.
Definition is_reference (t : SignatureToken) : bool :=
  match t with Reference _ | MutableReference _ => true | _ => false end.
Definition is_mutable_reference (t : SignatureToken) : bool := match t with MutableReference _ => true | _ => false end.
Fixpoint is_valid_for_constant (t : SignatureToken) : bool :=
  match t with
  | Bool | U8 | U64 | U128 | Address => true
  | Vector inner => is_valid_for_constant inner
  | _ => false
  end.

(** ** Handles and definitions *)

Record ModuleHandle := mkModuleHandle { mh_address : nat; mh_name : nat }.
Record StructTypeParameter := mkStructTypeParameter { constraints : AbilitySet; is_phantom : bool }.
Record StructHandle := mkStructHandle {
  sh_module : nat;
  sh_name : nat;
  sh_abilities : AbilitySet;
  sh_type_parameters : list StructTypeParameter;
}.
Definition type_param_constraints (sh : StructHandle) : list AbilitySet := constraints <$> sh_type_parameters sh.
Record FunctionHandle := mkFunctionHandle {
  fh_module : nat;
  fh_name : nat;
  fh_parameters : nat;
  fh_return : nat;
  fh_type_parameters : list AbilitySet;
}.
Record FieldHandle := mkFieldHandle { owner : nat; field : nat }.
Record FieldDefinition := mkFieldDefinition { fd_name : nat; fd_signature : SignatureToken }.
Inductive StructFieldInformation := Native | Declared (fields : list FieldDefinition).
Record StructDefinition := mkStructDefinition {
  struct_handle : nat;
  field_information : StructFieldInformation;
}.
Record StructDefInstantiation := mkStructDefInstantiation { sdi_def : nat; sdi_type_parameters : nat }.
Record FunctionInstantiation := mkFunctionInstantiation { fi_handle : nat; fi_type_parameters : nat }.
Record FieldInstantiation := mkFieldInstantiation { fdi_handle : nat; fdi_type_parameters : nat }.
Record Constant := mkConstant { type_ : SignatureToken; data : list Z }.

(** ** Bytecode *)

Module Bytecode.
Inductive Bytecode :=
| Pop | Ret
| BrTrue (offset : nat) | BrFalse (offset : nat) | Branch (offset : nat)
| LdU8 (n : Z) | LdU64 (n : Z) | LdU128 (n : Z)
| CastU8 | CastU64 | CastU128
| LdConst (idx : nat) | LdTrue | LdFalse
| CopyLoc (idx : nat) | MoveLoc (idx : nat) | StLoc (idx : nat)
| Call (idx : nat) | CallGeneric (idx : nat)
| Pack (idx : nat) | PackGeneric (idx : nat)
| Unpack (idx : nat) | UnpackGeneric (idx : nat)
| ReadRef | WriteRef | FreezeRef
| MutBorrowLoc (idx : nat) | ImmBorrowLoc (idx : nat)
| MutBorrowField (idx : nat) | MutBorrowFieldGeneric (idx : nat)
| ImmBorrowField (idx : nat) | ImmBorrowFieldGeneric (idx : nat)
| MutBorrowGlobal (idx : nat) | MutBorrowGlobalGeneric (idx : nat)
| ImmBorrowGlobal (idx : nat) | ImmBorrowGlobalGeneric (idx : nat)
| Add | Sub | Mul | Mod | Div
| BitOr | BitAnd | Xor
| Or | And | Not
| Eq | Neq | Lt | Gt | Le | Ge
| Abort | Nop
| Exists (idx : nat) | ExistsGeneric (idx : nat)
| MoveFrom (idx : nat) | MoveFromGeneric (idx : nat)
| MoveTo (idx : nat) | MoveToGeneric (idx : nat)
| Shl | Shr
| VecPack (idx : nat) (num : N) | VecLen (idx : nat)
| VecImmBorrow (idx : nat) | VecMutBorrow (idx : nat)
| VecPushBack (idx : nat) | VecPopBack (idx : nat)
| VecUnpack (idx : nat) (num : N) | VecSwap (idx : nat).
End Bytecode.
Abbreviation Bytecode := Bytecode.Bytecode.

Definition is_unconditional_branch (b : Bytecode) : bool :=
  match b with Bytecode.Ret | Bytecode.Abort | Bytecode.Branch _ => true | _ => false end.
Definition is_conditional_branch (b : Bytecode) : bool :=
  match b with Bytecode.BrFalse _ | Bytecode.BrTrue _ => true | _ => false end.
Definition is_branch (b : Bytecode) : bool := is_conditional_branch b || is_unconditional_branch b.
(** [Bytecode::offset] *)
Definition branch_offset (b : Bytecode) : option nat :=
  match b with
  | Bytecode.BrFalse offset | Bytecode.BrTrue offset | Bytecode.Branch offset => Some offset
  | _ => None
  end.

(** The offsets that can be executed after [pc], in ascending order.  The precondition is
    checked; [65533] is [u16::MAX - 2]. *)
Definition get_successors (pc : nat) (code : list Bytecode) : PartialVMResult (list nat) :=
  if negb ((Z.of_nat pc <=? 65533)%Z && (pc <? length code)) then Panic "Program counter out of bounds"
  else
    let? bytecode := at_index code pc in
    let v := match branch_offset bytecode with Some offset => [offset] | None => [] end in
    let next_pc := pc + 1 in
    if length code <=? next_pc then Ok v
    else
      let v := if negb (is_unconditional_branch bytecode) && negb (bool_decide (next_pc ∈ v))
               then v ++ [next_pc] else v in
      Ok match v with
         | [a; b] => if b <? a then [b; a] else v
         | _ => v
         end.

Record CodeUnit := mkCodeUnit { locals : nat; code : list Bytecode }.
Record FunctionDefinition := mkFunctionDefinition {
  function : nat;
  acquires_global_resources : list nat;
  fn_code : option CodeUnit;
}.

(** ** Modules and scripts *)

Record CompiledScript := mkCompiledScript {
  s_version : Z;
  s_module_handles : list ModuleHandle;
  s_struct_handles : list StructHandle;
  s_function_handles : list FunctionHandle;
  s_function_instantiations : list FunctionInstantiation;
  s_signatures : list Signature;
  s_identifiers : list string;
  s_address_identifiers : list Z;
  s_constant_pool : list Constant;
  s_type_parameters : list AbilitySet;
  s_parameters : nat;
  s_code : CodeUnit;
}.
Record CompiledModule := mkCompiledModule {
  m_version : Z;
  self_module_handle_idx : nat;
  m_module_handles : list ModuleHandle;
  m_struct_handles : list StructHandle;
  m_function_handles : list FunctionHandle;
  m_field_handles : list FieldHandle;
  m_friend_decls : list ModuleHandle;
  m_struct_def_instantiations : list StructDefInstantiation;
  m_function_instantiations : list FunctionInstantiation;
  m_field_instantiations : list FieldInstantiation;
  m_signatures : list Signature;
  m_identifiers : list string;
  m_address_identifiers : list Z;
  m_constant_pool : list Constant;
  m_struct_defs : list StructDefinition;
  m_function_defs : list FunctionDefinition;
}.

(** ** binary_views.rs *)

Inductive BinaryIndexedView := ModuleView (m : CompiledModule) | ScriptView (s : CompiledScript).
Implicit Types (view : BinaryIndexedView).

Definition view_version view := match view with ModuleView m => m_version m | ScriptView s => s_version s end.
Definition view_module_handles view := match view with ModuleView m => m_module_handles m | ScriptView s => s_module_handles s end.
Definition view_struct_handles view := match view with ModuleView m => m_struct_handles m | ScriptView s => s_struct_handles s end.
Definition view_function_handles view :=
  match view with ModuleView m => m_function_handles m | ScriptView s => s_function_handles s end.
Definition view_identifiers view := match view with ModuleView m => m_identifiers m | ScriptView s => s_identifiers s end.
Definition view_address_identifiers view :=
  match view with ModuleView m => m_address_identifiers m | ScriptView s => s_address_identifiers s end.
Definition view_constant_pool view := match view with ModuleView m => m_constant_pool m | ScriptView s => s_constant_pool s end.
Definition view_signatures view := match view with ModuleView m => m_signatures m | ScriptView s => s_signatures s end.
Definition view_function_instantiations view :=
  match view with ModuleView m => m_function_instantiations m | ScriptView s => s_function_instantiations s end.
(** The tables that a script does not have. *)
Definition view_field_handles view := match view with ModuleView m => Some (m_field_handles m) | ScriptView _ => None end.
Definition view_friend_decls view := match view with ModuleView m => Some (m_friend_decls m) | ScriptView _ => None end.
Definition view_struct_instantiations view :=
  match view with ModuleView m => Some (m_struct_def_instantiations m) | ScriptView _ => None end.
Definition view_field_instantiations view :=
  match view with ModuleView m => Some (m_field_instantiations m) | ScriptView _ => None end.
Definition view_struct_defs view := match view with ModuleView m => Some (m_struct_defs m) | ScriptView _ => None end.
Definition view_function_defs view := match view with ModuleView m => Some (m_function_defs m) | ScriptView _ => None end.

Definition constant_at view idx := at_index (view_constant_pool view) idx.
Definition signature_at view idx := at_index (view_signatures view) idx.
Definition struct_handle_at view idx := at_index (view_struct_handles view) idx.
Definition function_handle_at view idx := at_index (view_function_handles view) idx.
Definition function_instantiation_at view idx := at_index (view_function_instantiations view) idx.

(** An access to a table that a script does not have is an error. *)
Definition at_index_opt {A} (pool : option (list A)) (idx : nat) : PartialVMResult A :=
  let? pool := ok_or pool INVALID_OPERATION_IN_SCRIPT in at_index pool idx.
Definition field_handle_at view idx := at_index_opt (view_field_handles view) idx.
Definition struct_instantiation_at view idx := at_index_opt (view_struct_instantiations view) idx.
Definition field_instantiation_at view idx := at_index_opt (view_field_instantiations view) idx.
Definition struct_def_at view idx := at_index_opt (view_struct_defs view) idx.

(** [map(..).collect::<PartialVMResult<Vec<_>>>()] *)
Definition r_collect {E A B} (f : A → Result E B) : list A → Result E (list B) :=
  fix go l := match l with [] => Ok [] | x :: l => let? y := f x in let? ys := go l in Ok (y :: ys) end.

(** The abilities of a type; a type parameter has those of its constraint. *)
Fixpoint abilities view (ty : SignatureToken) (constraints : list AbilitySet) : PartialVMResult AbilitySet :=
  match ty with
  | Bool | U8 | U64 | U128 | Address => Ok PRIMITIVES
  | Reference _ | MutableReference _ => Ok REFERENCES
  | Signer => Ok SIGNER
  | TypeParameter idx => at_index constraints idx
  | Vector ty =>
      let? a := abilities view ty constraints in
      polymorphic_abilities VECTOR [false] [a]
  | Struct idx =>
      let? sh := struct_handle_at view idx in Ok (sh_abilities sh)
  | StructInstantiation idx type_args =>
      let? sh := struct_handle_at view idx in
      let? type_arguments := r_collect (λ arg, abilities view arg constraints) type_args in
      polymorphic_abilities (sh_abilities sh) (is_phantom <$> sh_type_parameters sh) type_arguments
  end.
