(* ===== verification/CodeFlow.v ===== *)
(** * CodeFlow: the control flow of a function

    Models src/language/move-binary-format/src/control_flow_graph.rs (the basic blocks of the
    bytecode), the function views of binary_views.rs and
    src/language/move-bytecode-verifier/src/control_flow.rs (the check that loops are well
    nested).  Offsets are u16 in the code; the deserializer admits at most 65535 instructions.
    The stack of loops has its top at the head. *)

From S2P Require Import Prelude FileFormat.

Local Open Scope nat_scope.

(** ** control_flow_graph.rs *)

Record BasicBlock := mkBasicBlock {
  entry : nat;
  exit : nat;
  successors : list nat;
}.

(** The map from block ids to blocks, as the list of its blocks: they are inserted under their
    entries, which ascend. *)
Abbreviation VMControlFlowGraph := (list BasicBlock).

Definition ENTRY_BLOCK_ID : nat := 0.

Definition record_block_ids (pc : nat) (code : list Bytecode) (block_ids : gset nat) : PartialVMResult (gset nat) :=
  let? bytecode := at_index code pc in
  let block_ids := match branch_offset bytecode with Some offset => {[offset]} ∪ block_ids | None => block_ids end in
  Ok (if is_branch bytecode && (pc + 1 <? length code) then {[pc + 1]} ∪ block_ids else block_ids).

Definition is_end_of_block (pc : nat) (code : list Bytecode) (block_ids : gset nat) : bool :=
  (pc + 1 =? length code) || bool_decide (pc + 1 ∈ block_ids).

(** One round of the loop that creates the blocks. *)
Definition create_block (code : list Bytecode) (block_ids : gset nat) (acc : nat * VMControlFlowGraph) (pc : nat)
    : PartialVMResult (nat * VMControlFlowGraph) :=
  let '(entry, blocks) := acc in
  if is_end_of_block pc code block_ids then
    let? successors := get_successors pc code in
    Ok (pc + 1, blocks ++ [mkBasicBlock entry pc successors])
  else Ok (entry, blocks).

Definition VMControlFlowGraph_new (code : list Bytecode) : PartialVMResult VMControlFlowGraph :=
  let? block_ids := r_fold (λ ids pc, record_block_ids pc code ids) (seq 0 (length code)) {[ENTRY_BLOCK_ID]} in
  let? (entry, blocks) := r_fold (create_block code block_ids) (seq 0 (length code)) (0, []) in
  if entry =? length code then Ok blocks else Panic "assertion failed: entry == code.len()".

Definition block_at (cfg : VMControlFlowGraph) (block_id : nat) : PartialVMResult BasicBlock :=
  expect (snd <$> list_find (λ b, entry b = block_id) cfg) "no entry found for key".
Definition cfg_blocks (cfg : VMControlFlowGraph) : list nat := entry <$> cfg.
(** [block_start..=block_end] *)
Definition instr_indexes (b : BasicBlock) : list nat := seq (entry b) (exit b + 1 - entry b).

(** ** FunctionView *)

Record FunctionView := mkFunctionView {
  fv_code : list Bytecode;
  fv_parameters : Signature;
  fv_return : Signature;
  fv_locals : Signature;
  fv_type_parameters : list AbilitySet;
  fv_cfg : VMControlFlowGraph;
}.

Definition FunctionView_function (m : CompiledModule) (c : CodeUnit) (fh : FunctionHandle) : PartialVMResult FunctionView :=
  let? parameters := signature_at (ModuleView m) (fh_parameters fh) in
  let? return_ := signature_at (ModuleView m) (fh_return fh) in
  let? locals := signature_at (ModuleView m) (locals c) in
  let? cfg := VMControlFlowGraph_new (code c) in
  Ok (mkFunctionView (code c) parameters return_ locals (fh_type_parameters fh) cfg).

Definition FunctionView_script (s : CompiledScript) : PartialVMResult FunctionView :=
  let c := s_code s in
  let? parameters := signature_at (ScriptView s) (s_parameters s) in
  let? locals := signature_at (ScriptView s) (locals c) in
  let? cfg := VMControlFlowGraph_new (code c) in
  Ok (mkFunctionView (code c) parameters [] locals (s_type_parameters s) cfg).

(** ** control_flow.rs *)

Inductive Label := Loop (last_continue : nat) | Code.

(** A jump back, or "continue". *)
Definition back_jump (i : nat) (instr : Bytecode) : option nat :=
  match branch_offset instr with Some j => if j <=? i then Some j else None | None => None end.
Definition forward_jump (i : nat) (instr : Bytecode) : option nat :=
  match branch_offset instr with Some j => if j <=? i then None else Some j | None => None end.

Definition set_label (labels : list Label) (c : nat * Bytecode) : list Label :=
  match back_jump c.1 c.2 with Some prev => <[prev := Loop c.1]> labels | None => labels end.

(** [context.code()] *)
Definition enumerate {A} (l : list A) : list (nat * A) := imap pair l.

Definition instruction_labels (code : list Bytecode) : list Label :=
  fold_left set_label (enumerate code) (replicate (length code) Code).

(** The loops that are open, innermost first: head and last continue. *)
Abbreviation LoopStack := (list (nat * nat)).

Definition check_instr (check : LoopStack → nat → Bytecode → PartialVMResult unit)
    (loop_stack : LoopStack) (c : nat * Bytecode * Label) : PartialVMResult LoopStack :=
  let '(i, instr, label) := c in
  let loop_stack := match label with Loop last_continue => (i, last_continue) :: loop_stack | Code => loop_stack end in
  check loop_stack i instr ;?
  match back_jump i instr with
  | Some _ =>
      let? (_, last_continue) := expect (head loop_stack) "called Option::unwrap() on a None value" in
      Ok (if i =? last_continue then tail loop_stack else loop_stack)
  | None => Ok loop_stack
  end.

Definition check_code (code : list Bytecode) (labels : list Label)
    (check : LoopStack → nat → Bytecode → PartialVMResult unit) : PartialVMResult unit :=
  let? _ := r_fold (check_instr check) (zip (enumerate code) labels) [] in Ok ().

Definition check_continue (loop_stack : LoopStack) (i : nat) (instr : Bytecode) : PartialVMResult unit :=
  match back_jump i instr with
  | Some j =>
      let? (cur_loop, _) := expect (head loop_stack) "called Option::unwrap() on a None value" in
      if negb (j =? cur_loop) then Err INVALID_LOOP_CONTINUE else Ok ()
  | None => Ok ()
  end.

Definition check_break (loop_stack : LoopStack) (i : nat) (instr : Bytecode) : PartialVMResult unit :=
  match forward_jump i instr with
  | Some j =>
      match head loop_stack with
      | Some (_, last_continue) =>
          if (last_continue <? j) && negb (j =? last_continue + 1) then Err INVALID_LOOP_BREAK else Ok ()
      | None => Ok ()
      end
  | None => Ok ()
  end.

Definition is_break (loop_stack : LoopStack) (jump_target : nat) : bool :=
  match head loop_stack with None => false | Some (_, last_continue) => last_continue <? jump_target end.

(** [usize] subtraction, with its check *)
Definition checked_pred (n : nat) : PartialVMResult nat :=
  match n with O => Panic "attempt to subtract with overflow" | S n => Ok n end.

Definition count_step (last_continues : gset nat) (acc : nat * list nat) (c : nat * Label) : PartialVMResult (nat * list nat) :=
  let '(count, counts) := acc in
  let count := match c.2 with Loop _ => count + 1 | Code => count end in
  let counts := counts ++ [count] in
  if bool_decide (c.1 ∈ last_continues) then let? count := checked_pred count in Ok (count, counts)
  else Ok (count, counts).

Definition count_loop_depth (labels : list Label) : PartialVMResult (list nat) :=
  let last_continues := list_to_set (omap (λ l, match l with Loop last_continue => Some last_continue | Code => None end) labels) in
  let? (_, counts) := r_fold (count_step last_continues) (enumerate labels) (0, []) in Ok counts.

Definition check_no_loop_split (labels : list Label) (loop_depth : list nat)
    (loop_stack : LoopStack) (i : nat) (instr : Bytecode) : PartialVMResult unit :=
  match forward_jump i instr with
  | Some j =>
      if is_break loop_stack j then Ok ()
      else
        let? before_depth := at_index loop_depth i in
        let? label := at_index labels j in
        let? depth := at_index loop_depth j in
        let? after_depth := match label with Loop _ => checked_pred depth | Code => Ok depth end in
        if negb (before_depth =? after_depth) then Err INVALID_LOOP_SPLIT else Ok ()
  | None => Ok ()
  end.

Definition check_jumps (code : list Bytecode) (labels : list Label) : PartialVMResult unit :=
  check_code code labels check_continue ;?
  check_code code labels check_break ;?
  let? loop_depth := count_loop_depth labels in
  check_code code labels (check_no_loop_split labels loop_depth).

Definition control_flow_verify (code : list Bytecode) : PartialVMResult unit :=
  match last code with
  | None => Err EMPTY_CODE_UNIT
  | Some b =>
      if negb (is_unconditional_branch b) then Err INVALID_FALL_THROUGH
      else check_jumps code (instruction_labels code)
  end.
