(* ===== verification/BoundsCheck.v ===== *)
(** * BoundsCheck: the indices of a module or script are in bounds

    Models src/language/move-binary-format/src/check_bounds.rs, the first pass of the bytecode
    verifier. *)

From S2P Require Import Prelude FileFormat.

Local Open Scope nat_scope.

(** [preorder_traversal]: the type and its parts, from left to right. *)
Fixpoint preorder_traversal (ty : SignatureToken) : list SignatureToken :=
  ty :: match ty with
        | Reference inner | MutableReference inner | Vector inner => preorder_traversal inner
        | StructInstantiation _ inner_toks => concat (map preorder_traversal inner_toks)
        | _ => []
        end.

Definition check_bounds_impl (len idx : nat) : PartialVMResult unit := ensure (idx <? len) INDEX_OUT_OF_BOUNDS.
Definition check_bounds_impl_opt {A} (pool : option (list A)) (idx : nat) : PartialVMResult unit :=
  match pool with Some p => check_bounds_impl (length p) idx | None => Ok () end.

Section view.
Context (view : BinaryIndexedView).

(** ** Types *)

Definition check_type_token (ty : SignatureToken) : PartialVMResult unit :=
  match ty with
  | Struct idx =>
      check_bounds_impl (length (view_struct_handles view)) idx ;?
      match view_struct_handles view !! idx with
      | Some sh =>
          if negb (length (sh_type_parameters sh) =? 0) then Err NUMBER_OF_TYPE_ARGUMENTS_MISMATCH else Ok ()
      | None => Ok ()
      end
  | StructInstantiation idx type_params =>
      check_bounds_impl (length (view_struct_handles view)) idx ;?
      match view_struct_handles view !! idx with
      | Some sh =>
          if negb (length (sh_type_parameters sh) =? length type_params) then Err NUMBER_OF_TYPE_ARGUMENTS_MISMATCH
          else Ok ()
      | None => Ok ()
      end
  | _ => Ok ()
  end.
Definition check_type (ty : SignatureToken) : PartialVMResult unit := r_for check_type_token (preorder_traversal ty).

Definition check_type_parameter_token (type_param_count : nat) (ty : SignatureToken) : PartialVMResult unit :=
  match ty with
  | TypeParameter idx => if type_param_count <=? idx then Err INDEX_OUT_OF_BOUNDS else Ok ()
  | _ => Ok ()
  end.
Definition check_type_parameter (type_param_count : nat) (ty : SignatureToken) : PartialVMResult unit :=
  r_for (check_type_parameter_token type_param_count) (preorder_traversal ty).

(** [if let Some(sig) = signatures.get(idx)]: its type parameters *)
Definition check_signature_parameters (type_param_count idx : nat) : PartialVMResult unit :=
  match view_signatures view !! idx with
  | Some sig => r_for (check_type_parameter type_param_count) sig
  | None => Ok ()
  end.

(** ** The tables *)

Definition bc_check_signature (signature : Signature) : PartialVMResult unit := r_for check_type signature.
Definition check_constant (constant : Constant) : PartialVMResult unit := check_type (type_ constant).
Definition check_module_handle (h : ModuleHandle) : PartialVMResult unit :=
  check_bounds_impl (length (view_address_identifiers view)) (mh_address h) ;?
  check_bounds_impl (length (view_identifiers view)) (mh_name h).
Definition check_self_module_handle : PartialVMResult unit :=
  match view with
  | ModuleView m => check_bounds_impl (length (view_module_handles view)) (self_module_handle_idx m)
  | ScriptView _ => Ok ()
  end.
Definition check_struct_handle (h : StructHandle) : PartialVMResult unit :=
  check_bounds_impl (length (view_module_handles view)) (sh_module h) ;?
  check_bounds_impl (length (view_identifiers view)) (sh_name h).
Definition check_function_handle (h : FunctionHandle) : PartialVMResult unit :=
  check_bounds_impl (length (view_module_handles view)) (fh_module h) ;?
  check_bounds_impl (length (view_identifiers view)) (fh_name h) ;?
  check_bounds_impl (length (view_signatures view)) (fh_parameters h) ;?
  check_bounds_impl (length (view_signatures view)) (fh_return h) ;?
  let type_param_count := length (fh_type_parameters h) in
  check_signature_parameters type_param_count (fh_parameters h) ;?
  check_signature_parameters type_param_count (fh_return h).

(** [field_information]: the number of fields, none for a native struct *)
Definition field_count (d : StructDefinition) : nat :=
  match field_information d with Native => 0 | Declared fields => length fields end.

Definition check_field_handle (h : FieldHandle) : PartialVMResult unit :=
  check_bounds_impl_opt (view_struct_defs view) (owner h) ;?
  match view_struct_defs view ≫= λ d, d !! owner h with
  | Some struct_def => if field_count struct_def <=? field h then Err INDEX_OUT_OF_BOUNDS else Ok ()
  | None => Ok ()
  end.
Definition check_struct_instantiation (i : StructDefInstantiation) : PartialVMResult unit :=
  check_bounds_impl_opt (view_struct_defs view) (sdi_def i) ;?
  check_bounds_impl (length (view_signatures view)) (sdi_type_parameters i).
Definition check_function_instantiation (i : FunctionInstantiation) : PartialVMResult unit :=
  check_bounds_impl (length (view_function_handles view)) (fi_handle i) ;?
  check_bounds_impl (length (view_signatures view)) (fi_type_parameters i).
Definition check_field_instantiation (i : FieldInstantiation) : PartialVMResult unit :=
  check_bounds_impl_opt (view_field_handles view) (fdi_handle i) ;?
  check_bounds_impl (length (view_signatures view)) (fdi_type_parameters i).
Definition check_struct_def (d : StructDefinition) : PartialVMResult unit :=
  check_bounds_impl (length (view_struct_handles view)) (struct_handle d) ;?
  match field_information d with
  | Declared fields =>
      let type_param_count :=
        match view_struct_handles view !! struct_handle d with Some sh => length (sh_type_parameters sh) | None => 0 end in
      r_for (λ f, check_bounds_impl (length (view_identifiers view)) (fd_name f) ;?
                  check_type (fd_signature f) ;?
                  check_type_parameter type_param_count (fd_signature f)) fields
  | Native => Ok ()
  end.

(** ** Code *)

Definition get_locals (c : CodeUnit) : PartialVMResult Signature :=
  ok_or (view_signatures view !! locals c) INDEX_OUT_OF_BOUNDS.

Definition check_bytecode (code_len locals_count type_param_count : nat) (bytecode : Bytecode) : PartialVMResult unit :=
  match bytecode with
  | Bytecode.LdConst idx => check_bounds_impl (length (view_constant_pool view)) idx
  | Bytecode.MutBorrowField idx | Bytecode.ImmBorrowField idx => check_bounds_impl_opt (view_field_handles view) idx
  | Bytecode.MutBorrowFieldGeneric idx | Bytecode.ImmBorrowFieldGeneric idx =>
      check_bounds_impl_opt (view_field_instantiations view) idx ;?
      match view_field_instantiations view ≫= λ f, f !! idx with
      | Some field_inst => check_signature_parameters type_param_count (fdi_type_parameters field_inst)
      | None => Ok ()
      end
  | Bytecode.Call idx => check_bounds_impl (length (view_function_handles view)) idx
  | Bytecode.CallGeneric idx =>
      check_bounds_impl (length (view_function_instantiations view)) idx ;?
      match view_function_instantiations view !! idx with
      | Some func_inst => check_signature_parameters type_param_count (fi_type_parameters func_inst)
      | None => Ok ()
      end
  | Bytecode.Pack idx | Bytecode.Unpack idx | Bytecode.Exists idx | Bytecode.ImmBorrowGlobal idx
  | Bytecode.MutBorrowGlobal idx | Bytecode.MoveFrom idx | Bytecode.MoveTo idx =>
      check_bounds_impl_opt (view_struct_defs view) idx
  | Bytecode.PackGeneric idx | Bytecode.UnpackGeneric idx | Bytecode.ExistsGeneric idx
  | Bytecode.ImmBorrowGlobalGeneric idx | Bytecode.MutBorrowGlobalGeneric idx
  | Bytecode.MoveFromGeneric idx | Bytecode.MoveToGeneric idx =>
      check_bounds_impl_opt (view_struct_instantiations view) idx ;?
      match view_struct_instantiations view ≫= λ s, s !! idx with
      | Some struct_inst => check_signature_parameters type_param_count (sdi_type_parameters struct_inst)
      | None => Ok ()
      end
  | Bytecode.BrTrue offset | Bytecode.BrFalse offset | Bytecode.Branch offset =>
      if code_len <=? offset then Err INDEX_OUT_OF_BOUNDS else Ok ()
  | Bytecode.CopyLoc idx | Bytecode.MoveLoc idx | Bytecode.StLoc idx | Bytecode.MutBorrowLoc idx
  | Bytecode.ImmBorrowLoc idx => if locals_count <=? idx then Err INDEX_OUT_OF_BOUNDS else Ok ()
  | Bytecode.VecPack idx _ | Bytecode.VecLen idx | Bytecode.VecImmBorrow idx | Bytecode.VecMutBorrow idx
  | Bytecode.VecPushBack idx | Bytecode.VecPopBack idx | Bytecode.VecUnpack idx _ | Bytecode.VecSwap idx =>
      check_bounds_impl (length (view_signatures view)) idx ;?
      check_signature_parameters type_param_count idx
  | _ => Ok ()
  end.

Definition bc_check_code (c : CodeUnit) (type_parameters : list AbilitySet) (parameters : Signature) : PartialVMResult unit :=
  check_bounds_impl (length (view_signatures view)) (locals c) ;?
  let? locals := get_locals c in
  let locals_count := length locals + length parameters in
  let type_param_count := length type_parameters in
  r_for (check_type_parameter type_param_count) locals ;?
  r_for (check_bytecode (length (code c)) locals_count type_param_count) (code c).

Definition check_function_def (d : FunctionDefinition) : PartialVMResult unit :=
  check_bounds_impl (length (view_function_handles view)) (function d) ;?
  r_for (check_bounds_impl_opt (view_struct_defs view)) (acquires_global_resources d) ;?
  match fn_code d with
  | None => Ok ()
  | Some code_unit =>
      let? function_handle := at_index (view_function_handles view) (function d) in
      let? parameters := at_index (view_signatures view) (fh_parameters function_handle) in
      let? locals := get_locals code_unit in
      if 256 <? length locals + length parameters then Err TOO_MANY_LOCALS
      else bc_check_code code_unit (fh_type_parameters function_handle) parameters
  end.

Definition verify_impl : PartialVMResult unit :=
  r_for bc_check_signature (view_signatures view) ;?
  r_for check_constant (view_constant_pool view) ;?
  r_for check_module_handle (view_module_handles view) ;?
  check_self_module_handle ;?
  r_for check_struct_handle (view_struct_handles view) ;?
  r_for check_function_handle (view_function_handles view) ;?
  r_for check_field_handle (default [] (view_field_handles view)) ;?
  r_for check_module_handle (default [] (view_friend_decls view)) ;?
  r_for check_struct_instantiation (default [] (view_struct_instantiations view)) ;?
  r_for check_function_instantiation (view_function_instantiations view) ;?
  r_for check_field_instantiation (default [] (view_field_instantiations view)) ;?
  r_for check_struct_def (default [] (view_struct_defs view)) ;?
  r_for check_function_def (default [] (view_function_defs view)).
End view.

Definition BoundsChecker_verify_module (m : CompiledModule) : PartialVMResult unit :=
  match m_module_handles m with
  | [] => Err NO_MODULE_HANDLES
  | _ => verify_impl (ModuleView m)
  end.

Definition BoundsChecker_verify_script (s : CompiledScript) : PartialVMResult unit :=
  verify_impl (ScriptView s) ;?
  match s_signatures s !! s_parameters s with
  | Some signature => bc_check_code (ScriptView s) (s_code s) (s_type_parameters s) signature
  | None => Err INDEX_OUT_OF_BOUNDS
  end.
