(* ===== verification/Declarations.v ===== *)
(** * Declarations: the passes over the declarations of a module

    Models the passes of src/language/move-bytecode-verifier/src over tables and declarations
    that do not look at code: check_duplication.rs, friends.rs, ability_field_requirements.rs,
    script_signature.rs and signature.rs. *)

From S2P Require Import Prelude FileFormat.

Local Open Scope nat_scope.

Global Instance ModuleHandle_eq_dec : EqDecision ModuleHandle.
Proof. solve_decision. Defined.
Global Instance FieldHandle_eq_dec : EqDecision FieldHandle.
Proof. solve_decision. Defined.
Global Instance StructDefInstantiation_eq_dec : EqDecision StructDefInstantiation.
Proof. solve_decision. Defined.
Global Instance FunctionInstantiation_eq_dec : EqDecision FunctionInstantiation.
Proof. solve_decision. Defined.
Global Instance FieldInstantiation_eq_dec : EqDecision FieldInstantiation.
Proof. solve_decision. Defined.
Global Instance Constant_eq_dec : EqDecision Constant.
Proof. solve_decision. Defined.

(** ** check_duplication.rs *)

(** [first_duplicate_element], with the elements seen so far and their number *)
Fixpoint first_duplicate_from {A} `{EqDecision A} (uniq : list A) (i : nat) (l : list A) : option nat :=
  match l with
  | [] => None
  | x :: l => if bool_decide (x ∈ uniq) then Some i else first_duplicate_from (x :: uniq) (i + 1) l
  end.
Definition first_duplicate_element {A} `{EqDecision A} (l : list A) : option nat := first_duplicate_from [] 0 l.

Definition check_unique {A} `{EqDecision A} (l : list A) : PartialVMResult unit :=
  match first_duplicate_element l with Some _ => Err DUPLICATE_ELEMENT | None => Ok () end.

Definition check_struct_handles (struct_handles : list StructHandle) : PartialVMResult unit :=
  check_unique ((λ x, (sh_module x, sh_name x)) <$> struct_handles).
Definition check_function_handles (function_handles : list FunctionHandle) : PartialVMResult unit :=
  check_unique ((λ x, (fh_module x, fh_name x)) <$> function_handles).

Definition check_field_names (struct_def : StructDefinition) : PartialVMResult unit :=
  match field_information struct_def with
  | Native => Ok ()
  | Declared fields =>
      match fields with [] => Err ZERO_SIZED_STRUCT | _ => check_unique (fd_name <$> fields) end
  end.

(** Every definition is of the module itself. *)
Definition check_self_handle (self_handle_idx : nat) (handle_module : nat → PartialVMResult nat) (idx : nat) : PartialVMResult unit :=
  let? module := handle_module idx in
  if negb (module =? self_handle_idx) then Err INVALID_MODULE_HANDLE else Ok ().
(** Every handle of the module itself has a definition. *)
Definition check_implemented (self_handle_idx : nat) (handle_module : nat → PartialVMResult nat) (implemented : list nat) (idx : nat)
    : PartialVMResult unit :=
  let? module := handle_module idx in
  if (module =? self_handle_idx) && negb (bool_decide (idx ∈ implemented)) then Err UNIMPLEMENTED_HANDLE else Ok ().

Definition check_struct_definitions (m : CompiledModule) : PartialVMResult unit :=
  let handle_module idx := let? sh := struct_handle_at (ModuleView m) idx in Ok (sh_module sh) in
  check_unique (struct_handle <$> m_struct_defs m) ;?
  r_for check_field_names (m_struct_defs m) ;?
  r_for (check_self_handle (self_module_handle_idx m) handle_module) (struct_handle <$> m_struct_defs m) ;?
  r_for (check_implemented (self_module_handle_idx m) handle_module (struct_handle <$> m_struct_defs m))
    (seq 0 (length (m_struct_handles m))).

Definition check_acquires (d : FunctionDefinition) : PartialVMResult unit :=
  match first_duplicate_element (acquires_global_resources d) with
  | Some _ => Err DUPLICATE_ACQUIRES_ANNOTATION
  | None => Ok ()
  end.

Definition check_function_defintions (m : CompiledModule) : PartialVMResult unit :=
  let handle_module idx := let? fh := function_handle_at (ModuleView m) idx in Ok (fh_module fh) in
  check_unique (function <$> m_function_defs m) ;?
  r_for check_acquires (m_function_defs m) ;?
  r_for (check_self_handle (self_module_handle_idx m) handle_module) (function <$> m_function_defs m) ;?
  r_for (check_implemented (self_module_handle_idx m) handle_module (function <$> m_function_defs m))
    (seq 0 (length (m_function_handles m))).

Definition DuplicationChecker_verify_module (m : CompiledModule) : PartialVMResult unit :=
  check_unique (m_identifiers m) ;?
  check_unique (m_address_identifiers m) ;?
  check_unique (m_constant_pool m) ;?
  check_unique (m_signatures m) ;?
  check_unique (m_module_handles m) ;?
  check_unique (m_friend_decls m) ;?
  check_struct_handles (m_struct_handles m) ;?
  check_function_handles (m_function_handles m) ;?
  check_unique (m_function_instantiations m) ;?
  check_unique (m_field_handles m) ;?
  check_unique (m_field_instantiations m) ;?
  check_function_defintions m ;?
  check_struct_definitions m ;?
  check_unique (m_struct_def_instantiations m).

Definition DuplicationChecker_verify_script (s : CompiledScript) : PartialVMResult unit :=
  check_unique (s_identifiers s) ;?
  check_unique (s_address_identifiers s) ;?
  check_unique (s_constant_pool s) ;?
  check_unique (s_signatures s) ;?
  check_unique (s_module_handles s) ;?
  check_struct_handles (s_struct_handles s) ;?
  check_function_handles (s_function_handles s) ;?
  check_unique (s_function_instantiations s).

(** ** friends.rs *)

Definition address_of (m : CompiledModule) (handle : ModuleHandle) : PartialVMResult Z :=
  at_index (m_address_identifiers m) (mh_address handle).

(** [any(|handle| address_identifier_at(handle.address) != self_address)] *)
Fixpoint has_external_friend (m : CompiledModule) (self_address : Z) (friends : list ModuleHandle) : PartialVMResult bool :=
  match friends with
  | [] => Ok false
  | handle :: friends =>
      let? address := address_of m handle in
      if negb (address =? self_address)%Z then Ok true else has_external_friend m self_address friends
  end.

Definition friends_verify_module (m : CompiledModule) : PartialVMResult unit :=
  let? self_handle := at_index (m_module_handles m) (self_module_handle_idx m) in
  if bool_decide (self_handle ∈ m_friend_decls m) then Err INVALID_FRIEND_DECL_WITH_SELF
  else
    let? self_address := address_of m self_handle in
    let? external := has_external_friend m self_address (m_friend_decls m) in
    if external then Err INVALID_FRIEND_DECL_WITH_MODULES_OUTSIDE_ACCOUNT_ADDRESS else Ok ().

(** ** ability_field_requirements.rs *)

Definition required_abilities (a : AbilitySet) : AbilitySet :=
  fold_left (λ acc required, Z.lor acc (ability_bits required)) (requires <$> abilities_of a) EMPTY.

Definition check_field_abilities (view : BinaryIndexedView) (required : AbilitySet) (type_parameter_abilities : list AbilitySet)
    (f : FieldDefinition) : PartialVMResult unit :=
  let? field_abilities := abilities view (fd_signature f) type_parameter_abilities in
  if negb (is_subset required field_abilities) then Err FIELD_MISSING_TYPE_ABILITY else Ok ().

Definition check_struct_abilities (m : CompiledModule) (struct_def : StructDefinition) : PartialVMResult unit :=
  let? sh := struct_handle_at (ModuleView m) (struct_handle struct_def) in
  match field_information struct_def with
  | Native => Ok ()
  | Declared fields =>
      r_for (check_field_abilities (ModuleView m) (required_abilities (sh_abilities sh)) ((λ _, ALL) <$> sh_type_parameters sh))
        fields
  end.
Definition ability_field_requirements_verify_module (m : CompiledModule) : PartialVMResult unit :=
  r_for (check_struct_abilities m) (m_struct_defs m).

(** ** script_signature.rs *)

Fixpoint skip_while {A} (p : A → bool) (l : list A) : list A :=
  match l with x :: l' => if p x then skip_while p l' else l | [] => [] end.

Definition verify_main_signature_impl (resolver : BinaryIndexedView) (parameters : nat) (return_type_opt : option nat)
    : PartialVMResult unit :=
  let? arguments := signature_at resolver parameters in
  let is_signer typ :=
    if (view_version resolver <=? 1)%Z then match typ with Reference Signer => true | _ => false end
    else match typ with Signer => true | _ => false end in
  let all_args_have_valid_type := forallb is_valid_for_constant (skip_while is_signer arguments) in
  let? has_valid_return_type :=
    match return_type_opt with
    | Some idx => let? sig := signature_at resolver idx in Ok (bool_decide (sig = []))
    | None => Ok true
    end in
  if negb all_args_have_valid_type || negb has_valid_return_type then Err INVALID_MAIN_FUNCTION_SIGNATURE else Ok ().

Definition script_signature_verify_script (s : CompiledScript) : PartialVMResult unit :=
  verify_main_signature_impl (ScriptView s) (s_parameters s) None.

Section checker.
Context (resolver : BinaryIndexedView).

(** ** signature.rs *)

(** No references are permitted. *)
Fixpoint check_signature_token (ty : SignatureToken) : PartialVMResult unit :=
  match ty with
  | Reference _ | MutableReference _ => Err INVALID_SIGNATURE_TOKEN
  | Vector ty => check_signature_token ty
  | StructInstantiation _ type_arguments =>
      (fix check_signature_tokens tys :=
         match tys with
         | [] => Ok ()
         | ty :: tys => check_signature_token ty ;? check_signature_tokens tys
         end) type_arguments
  | _ => Ok ()
  end.
Definition check_signature_tokens (tys : list SignatureToken) : PartialVMResult unit := r_for check_signature_token tys.

(** References are only permitted at the top level. *)
Definition check_signature (idx : nat) : PartialVMResult unit :=
  let? signature := signature_at resolver idx in
  r_for (λ token, match token with
                  | Reference inner | MutableReference inner => check_signature_token inner
                  | _ => check_signature_token token
                  end) signature.

Definition check_generic_instance (type_arguments : list SignatureToken) (constraints global_abilities : list AbilitySet)
    : PartialVMResult unit :=
  if negb (length type_arguments =? length constraints) then Err NUMBER_OF_TYPE_ARGUMENTS_MISMATCH
  else
    r_for (λ c, let? given := abilities resolver c.2 global_abilities in
                if negb (is_subset c.1 given) then Err CONSTRAINT_NOT_SATISFIED else Ok ())
      (zip constraints type_arguments).

Definition check_type_instantiation (type_parameters : list AbilitySet) (ty : SignatureToken) : PartialVMResult unit :=
  match ty with
  | StructInstantiation idx type_arguments =>
      let? sh := struct_handle_at resolver idx in
      check_generic_instance type_arguments (type_param_constraints sh) type_parameters
  | _ => Ok ()
  end.

Definition check_instantiation (idx : nat) (type_parameters : list AbilitySet) : PartialVMResult unit :=
  let? signature := signature_at resolver idx in r_for (check_type_instantiation type_parameters) signature.

(** Phantom type parameters are only used in phantom position. *)
Fixpoint check_phantom_params (type_parameters : list StructTypeParameter) (is_phantom_pos : bool) (ty : SignatureToken)
    : PartialVMResult unit :=
  match ty with
  | Vector ty => check_phantom_params type_parameters false ty
  | StructInstantiation idx type_arguments =>
      let? sh := struct_handle_at resolver idx in
      (fix go i tys :=
         match tys with
         | [] => Ok ()
         | ty :: tys =>
             let? p := at_index (sh_type_parameters sh) i in
             check_phantom_params type_parameters (is_phantom p) ty ;? go (i + 1) tys
         end) 0 type_arguments
  | TypeParameter idx =>
      let? p := at_index type_parameters idx in
      if is_phantom p && negb is_phantom_pos then Err INVALID_PHANTOM_TYPE_PARAM_POSITION else Ok ()
  | _ => Ok ()
  end.

Definition verify_function_signature (fh : FunctionHandle) : PartialVMResult unit :=
  check_signature (fh_return fh) ;?
  check_instantiation (fh_return fh) (fh_type_parameters fh) ;?
  check_signature (fh_parameters fh) ;?
  check_instantiation (fh_parameters fh) (fh_type_parameters fh).

Definition verify_field (sh : StructHandle) (f : FieldDefinition) : PartialVMResult unit :=
  check_signature_token (fd_signature f) ;?
  check_type_instantiation (type_param_constraints sh) (fd_signature f) ;?
  check_phantom_params (sh_type_parameters sh) false (fd_signature f).
Definition verify_fields (d : StructDefinition) : PartialVMResult unit :=
  match field_information d with
  | Native => Ok ()
  | Declared fields =>
      let? sh := struct_handle_at resolver (struct_handle d) in
      r_for (verify_field sh) fields
  end.

Definition verify_bytecode (type_parameters : list AbilitySet) (instr : Bytecode) : PartialVMResult unit :=
  match instr with
  | Bytecode.CallGeneric idx =>
      let? func_inst := function_instantiation_at resolver idx in
      let? func_handle := function_handle_at resolver (fi_handle func_inst) in
      let? type_arguments := signature_at resolver (fi_type_parameters func_inst) in
      check_signature_tokens type_arguments ;?
      check_generic_instance type_arguments (fh_type_parameters func_handle) type_parameters
  | Bytecode.PackGeneric idx | Bytecode.UnpackGeneric idx | Bytecode.ExistsGeneric idx
  | Bytecode.MoveFromGeneric idx | Bytecode.MoveToGeneric idx
  | Bytecode.ImmBorrowGlobalGeneric idx | Bytecode.MutBorrowGlobalGeneric idx =>
      let? struct_inst := struct_instantiation_at resolver idx in
      let? struct_def := struct_def_at resolver (sdi_def struct_inst) in
      let? sh := struct_handle_at resolver (struct_handle struct_def) in
      let? type_arguments := signature_at resolver (sdi_type_parameters struct_inst) in
      check_signature_tokens type_arguments ;?
      check_generic_instance type_arguments (type_param_constraints sh) type_parameters
  | Bytecode.ImmBorrowFieldGeneric idx | Bytecode.MutBorrowFieldGeneric idx =>
      let? field_inst := field_instantiation_at resolver idx in
      let? field_handle := field_handle_at resolver (fdi_handle field_inst) in
      let? struct_def := struct_def_at resolver (owner field_handle) in
      let? sh := struct_handle_at resolver (struct_handle struct_def) in
      let? type_arguments := signature_at resolver (fdi_type_parameters field_inst) in
      check_signature_tokens type_arguments ;?
      check_generic_instance type_arguments (type_param_constraints sh) type_parameters
  | Bytecode.VecPack idx _ | Bytecode.VecLen idx | Bytecode.VecImmBorrow idx | Bytecode.VecMutBorrow idx
  | Bytecode.VecPushBack idx | Bytecode.VecPopBack idx | Bytecode.VecUnpack idx _ | Bytecode.VecSwap idx =>
      let? type_arguments := signature_at resolver idx in
      if negb (length type_arguments =? 1) then Err NUMBER_OF_TYPE_ARGUMENTS_MISMATCH
      else check_signature_tokens type_arguments
  | _ => Ok ()
  end.

Definition verify_code (c : CodeUnit) (type_parameters : list AbilitySet) : PartialVMResult unit :=
  check_signature (locals c) ;?
  check_instantiation (locals c) type_parameters ;?
  r_for (verify_bytecode type_parameters) (code c).

Definition verify_code_unit (d : FunctionDefinition) : PartialVMResult unit :=
  match fn_code d with
  | None => Ok ()
  | Some c =>
      let? func_handle := function_handle_at resolver (function d) in
      verify_code c (fh_type_parameters func_handle)
  end.

(** ** instruction_consistency.rs *)

Definition check_type_op (struct_def_index : nat) (generic : bool) : PartialVMResult unit :=
  let? struct_def := struct_def_at resolver struct_def_index in
  let? sh := struct_handle_at resolver (struct_handle struct_def) in
  if eqb (length (sh_type_parameters sh) =? 0) generic then Err GENERIC_MEMBER_OPCODE_MISMATCH else Ok ().
Definition check_field_op (field_handle_index : nat) (generic : bool) : PartialVMResult unit :=
  let? field_handle := field_handle_at resolver field_handle_index in
  check_type_op (owner field_handle) generic.
Definition check_function_op (func_handle_index : nat) (generic : bool) : PartialVMResult unit :=
  let? function_handle := function_handle_at resolver func_handle_index in
  if eqb (length (fh_type_parameters function_handle) =? 0) generic then Err GENERIC_MEMBER_OPCODE_MISMATCH else Ok ().

Definition check_instruction (instr : Bytecode) : PartialVMResult unit :=
  match instr with
  | Bytecode.MutBorrowField idx | Bytecode.ImmBorrowField idx => check_field_op idx false
  | Bytecode.MutBorrowFieldGeneric idx | Bytecode.ImmBorrowFieldGeneric idx =>
      let? field_inst := field_instantiation_at resolver idx in check_field_op (fdi_handle field_inst) true
  | Bytecode.Call idx => check_function_op idx false
  | Bytecode.CallGeneric idx =>
      let? func_inst := function_instantiation_at resolver idx in check_function_op (fi_handle func_inst) true
  | Bytecode.Pack idx | Bytecode.Unpack idx | Bytecode.MutBorrowGlobal idx | Bytecode.ImmBorrowGlobal idx
  | Bytecode.Exists idx | Bytecode.MoveFrom idx | Bytecode.MoveTo idx => check_type_op idx false
  | Bytecode.PackGeneric idx | Bytecode.UnpackGeneric idx | Bytecode.MutBorrowGlobalGeneric idx
  | Bytecode.ImmBorrowGlobalGeneric idx | Bytecode.ExistsGeneric idx | Bytecode.MoveFromGeneric idx
  | Bytecode.MoveToGeneric idx =>
      let? struct_inst := struct_instantiation_at resolver idx in check_type_op (sdi_def struct_inst) true
  | _ => Ok ()
  end.
Definition check_instructions (c : CodeUnit) : PartialVMResult unit := r_for check_instruction (code c).
End checker.

Definition SignatureChecker_verify_module (m : CompiledModule) : PartialVMResult unit :=
  let resolver := ModuleView m in
  r_for (check_signature resolver) (seq 0 (length (m_signatures m))) ;?
  r_for (verify_function_signature resolver) (m_function_handles m) ;?
  r_for (verify_fields resolver) (m_struct_defs m) ;?
  r_for (verify_code_unit resolver) (m_function_defs m).

Definition SignatureChecker_verify_script (s : CompiledScript) : PartialVMResult unit :=
  let resolver := ScriptView s in
  r_for (check_signature resolver) (seq 0 (length (s_signatures s))) ;?
  r_for (verify_function_signature resolver) (s_function_handles s) ;?
  verify_code resolver (s_code s) (s_type_parameters s).

Definition InstructionConsistency_verify_module (m : CompiledModule) : PartialVMResult unit :=
  r_for (λ d, match fn_code d with None => Ok () | Some c => check_instructions (ModuleView m) c end) (m_function_defs m).
Definition InstructionConsistency_verify_script (s : CompiledScript) : PartialVMResult unit :=
  check_instructions (ScriptView s) (s_code s).

(** ** constants.rs *)

Section constants.
(** [MoveValue::simple_deserialize] of the data at the type succeeds. *)
Context (simple_deserialize : list Z → SignatureToken → bool).

Definition verify_constant (constant : Constant) : PartialVMResult unit :=
  (if is_valid_for_constant (type_ constant) then Ok () else Err INVALID_CONSTANT_TYPE) ;?
  (if simple_deserialize (data constant) (type_ constant) then Ok () else Err MALFORMED_CONSTANT_DATA).
Definition constants_verify_module (m : CompiledModule) : PartialVMResult unit := r_for verify_constant (m_constant_pool m).
Definition constants_verify_script (s : CompiledScript) : PartialVMResult unit := r_for verify_constant (s_constant_pool s).
End constants.
