(* ===== verification/TypeSafety.v ===== *)
(** * TypeSafety: the number and the types of operands

    Models src/language/move-bytecode-verifier/src/stack_usage_verifier.rs, which counts the
    operands of each basic block, and type_safety.rs, an abstract execution of each basic
    block on a stack of types.  The stack has its top at the head; [unwrap] of an
    empty stack panics. *)

From S2P Require Import Prelude FileFormat CodeFlow BoundsCheck.

Local Open Scope nat_scope.

Section verifier.
Context (resolver : BinaryIndexedView) (code : list Bytecode) (return_ : Signature).

(** [len() as u64] *)
Definition len64 {A} (l : list A) : Z := Z.of_nat (length l).

Definition call_effect (idx : nat) : PartialVMResult (Z * Z) :=
  let? function_handle := function_handle_at resolver idx in
  let? parameters := signature_at resolver (fh_parameters function_handle) in
  let? returns := signature_at resolver (fh_return function_handle) in
  Ok (len64 parameters, len64 returns).

Definition instruction_effect (instruction : Bytecode) : PartialVMResult (Z * Z) :=
  match instruction with
  | Bytecode.Pop | Bytecode.BrTrue _ | Bytecode.BrFalse _ | Bytecode.StLoc _ | Bytecode.Abort => Ok (1, 0)%Z
  | Bytecode.LdU8 _ | Bytecode.LdU64 _ | Bytecode.LdU128 _ | Bytecode.LdTrue | Bytecode.LdFalse
  | Bytecode.LdConst _ | Bytecode.CopyLoc _ | Bytecode.MoveLoc _ | Bytecode.MutBorrowLoc _
  | Bytecode.ImmBorrowLoc _ => Ok (0, 1)%Z
  | Bytecode.Not | Bytecode.FreezeRef | Bytecode.ReadRef | Bytecode.Exists _ | Bytecode.ExistsGeneric _
  | Bytecode.MutBorrowGlobal _ | Bytecode.MutBorrowGlobalGeneric _ | Bytecode.ImmBorrowGlobal _
  | Bytecode.ImmBorrowGlobalGeneric _ | Bytecode.MutBorrowField _ | Bytecode.MutBorrowFieldGeneric _
  | Bytecode.ImmBorrowField _ | Bytecode.ImmBorrowFieldGeneric _ | Bytecode.MoveFrom _
  | Bytecode.MoveFromGeneric _ | Bytecode.CastU8 | Bytecode.CastU64 | Bytecode.CastU128
  | Bytecode.VecLen _ | Bytecode.VecPopBack _ => Ok (1, 1)%Z
  | Bytecode.Add | Bytecode.Sub | Bytecode.Mul | Bytecode.Mod | Bytecode.Div | Bytecode.BitOr
  | Bytecode.BitAnd | Bytecode.Xor | Bytecode.Shl | Bytecode.Shr | Bytecode.Or | Bytecode.And
  | Bytecode.Eq | Bytecode.Neq | Bytecode.Lt | Bytecode.Gt | Bytecode.Le | Bytecode.Ge => Ok (2, 1)%Z
  | Bytecode.VecPack _ num => Ok (Z.of_N num, 1)%Z
  | Bytecode.VecUnpack _ num => Ok (1, Z.of_N num)%Z
  | Bytecode.VecImmBorrow _ | Bytecode.VecMutBorrow _ => Ok (2, 1)%Z
  | Bytecode.MoveTo _ | Bytecode.MoveToGeneric _ | Bytecode.WriteRef | Bytecode.VecPushBack _ => Ok (2, 0)%Z
  | Bytecode.VecSwap _ => Ok (3, 0)%Z
  | Bytecode.Branch _ | Bytecode.Nop => Ok (0, 0)%Z
  | Bytecode.Ret => Ok (len64 return_, 0)%Z
  | Bytecode.Call idx => call_effect idx
  | Bytecode.CallGeneric idx =>
      let? func_inst := function_instantiation_at resolver idx in call_effect (fi_handle func_inst)
  | Bytecode.Pack idx =>
      let? struct_definition := struct_def_at resolver idx in
      Ok (Z.of_nat (field_count struct_definition), 1)%Z
  | Bytecode.PackGeneric idx =>
      let? struct_inst := struct_instantiation_at resolver idx in
      let? struct_definition := struct_def_at resolver (sdi_def struct_inst) in
      Ok (Z.of_nat (field_count struct_definition), 1)%Z
  | Bytecode.Unpack idx =>
      let? struct_definition := struct_def_at resolver idx in
      Ok (1, Z.of_nat (field_count struct_definition))%Z
  | Bytecode.UnpackGeneric idx =>
      let? struct_inst := struct_instantiation_at resolver idx in
      let? struct_definition := struct_def_at resolver (sdi_def struct_inst) in
      Ok (1, Z.of_nat (field_count struct_definition))%Z
  end.

(** The height after the instruction at [i]. *)
Definition stack_step (stack_size_increment : Z) (i : nat) : PartialVMResult Z :=
  let? instruction := at_index code i in
  let? (num_pops, num_pushes) := instruction_effect instruction in
  if (stack_size_increment <? num_pops)%Z then Err NEGATIVE_STACK_SIZE_WITHIN_BLOCK
  else Ok (wrap64 (stack_size_increment - num_pops + num_pushes)).

Definition su_verify_block (b : BasicBlock) : PartialVMResult unit :=
  let? stack_size_increment := r_fold stack_step (instr_indexes b) 0%Z in
  if (stack_size_increment =? 0)%Z then Ok () else Err POSITIVE_STACK_SIZE_AT_BLOCK_END.
End verifier.

Definition StackUsageVerifier_verify (resolver : BinaryIndexedView) (fv : FunctionView) : PartialVMResult unit :=
  r_for (λ block_id, let? b := block_at (fv_cfg fv) block_id in
                     su_verify_block resolver (fv_code fv) (fv_return fv) b)
    (cfg_blocks (fv_cfg fv)).

Abbreviation TypeStack := (list SignatureToken).

(** [verifier.stack.pop().unwrap()] *)
Definition pop (stack : TypeStack) : PartialVMResult (SignatureToken * TypeStack) :=
  match stack with
  | [] => Panic "called Option::unwrap() on a None value"
  | operand :: stack => Ok (operand, stack)
  end.

(** Pops one operand per type, which must have that type. *)
Fixpoint pop_expected (err : StatusCode) (types : list SignatureToken) (stack : TypeStack) : PartialVMResult TypeStack :=
  match types with
  | [] => Ok stack
  | ty :: types =>
      let? (arg, stack) := pop stack in
      if bool_decide (arg = ty) then pop_expected err types stack else Err err
  end.

(** Pops a number of operands, whatever their types are. *)
Fixpoint pop_any (num : nat) (stack : TypeStack) : PartialVMResult TypeStack :=
  match num with
  | O => Ok stack
  | S num => let? (_, stack) := pop stack in pop_any num stack
  end.

(** ** Types *)

Definition materialize_type (struct_handle : nat) (type_args : Signature) : SignatureToken :=
  match type_args with [] => Struct struct_handle | _ => StructInstantiation struct_handle type_args end.

Fixpoint instantiate (subst : Signature) (token : SignatureToken) : PartialVMResult SignatureToken :=
  match token with
  | Vector ty => let? ty := instantiate subst ty in Ok (Vector ty)
  | StructInstantiation idx struct_type_args =>
      let? args := r_collect (instantiate subst) struct_type_args in Ok (StructInstantiation idx args)
  | Reference ty => let? ty := instantiate subst ty in Ok (Reference ty)
  | MutableReference ty => let? ty := instantiate subst ty in Ok (MutableReference ty)
  | TypeParameter idx => at_index subst idx
  | Bool | U8 | U64 | U128 | Address | Signer | Struct _ => Ok token
  end.

Definition get_vector_element_type (vector_ref_ty : SignatureToken) (mut_ref_only : bool) : option SignatureToken :=
  match vector_ref_ty with
  | Reference (Vector element_type) => if mut_ref_only then None else Some element_type
  | MutableReference (Vector element_type) => Some element_type
  | _ => None
  end.

Section checker.
Context (resolver : BinaryIndexedView) (fv : FunctionView).

Definition local_at (i : nat) : PartialVMResult SignatureToken :=
  if i <? length (fv_parameters fv) then at_index (fv_parameters fv) i
  else at_index (fv_locals fv) (i - length (fv_parameters fv)).
Definition ts_abilities (t : SignatureToken) : PartialVMResult AbilitySet := abilities resolver t (fv_type_parameters fv).

(** A condition on the abilities of a type. *)
Definition require_ability (has : AbilitySet → bool) (t : SignatureToken) (err : StatusCode) : PartialVMResult unit :=
  let? a := ts_abilities t in ensure (has a) err.

Definition ref_type (mut_ : bool) (t : SignatureToken) : SignatureToken := if mut_ then MutableReference t else Reference t.

(** ** Helpers of the instructions *)

Definition borrow_field (mut_ : bool) (field_handle_index : nat) (type_args : Signature) (stack : TypeStack)
    : PartialVMResult TypeStack :=
  let? (operand, stack) := pop stack in
  if mut_ && negb (is_mutable_reference operand) then Err BORROWFIELD_TYPE_MISMATCH_ERROR
  else
    let? field_handle := field_handle_at resolver field_handle_index in
    let? struct_def := struct_def_at resolver (owner field_handle) in
    let expected_type := materialize_type (struct_handle struct_def) type_args in
    match operand with
    | Reference inner | MutableReference inner => ensure (bool_decide (expected_type = inner)) BORROWFIELD_TYPE_MISMATCH_ERROR
    | _ => Err BORROWFIELD_TYPE_MISMATCH_ERROR
    end ;?
    match field_information struct_def with
    | Native => Err BORROWFIELD_BAD_FIELD_ERROR
    | Declared fields =>
        let? field_def := at_index fields (field field_handle) in
        let? field_type := instantiate type_args (fd_signature field_def) in
        Ok (ref_type mut_ field_type :: stack)
    end.

Definition borrow_loc (mut_ : bool) (idx : nat) (stack : TypeStack) : PartialVMResult TypeStack :=
  let? loc_signature := local_at idx in
  if is_reference loc_signature then Err BORROWLOC_REFERENCE_ERROR
  else Ok (ref_type mut_ loc_signature :: stack).

Definition borrow_global (mut_ : bool) (idx : nat) (type_args : Signature) (stack : TypeStack) : PartialVMResult TypeStack :=
  let? (operand, stack) := pop stack in
  if negb (bool_decide (operand = Address)) then Err BORROWGLOBAL_TYPE_MISMATCH_ERROR
  else
    let? struct_def := struct_def_at resolver idx in
    let struct_type := materialize_type (struct_handle struct_def) type_args in
    require_ability has_key struct_type BORROWGLOBAL_WITHOUT_KEY_ABILITY ;?
    Ok (ref_type mut_ struct_type :: stack).

Definition pop_argument (type_actuals : Signature) (stack : TypeStack) (parameter : SignatureToken)
    : PartialVMResult TypeStack :=
  let? (arg, stack) := pop stack in
  let? ty := instantiate type_actuals parameter in
  if bool_decide (arg = ty) then Ok stack else Err CALL_TYPE_MISMATCH_ERROR.
Definition call (fh : FunctionHandle) (type_actuals : Signature) (stack : TypeStack) : PartialVMResult TypeStack :=
  let? parameters := signature_at resolver (fh_parameters fh) in
  let? stack := r_fold (pop_argument type_actuals) (rev parameters) stack in
  let? return_ := signature_at resolver (fh_return fh) in
  let? types := r_collect (instantiate type_actuals) return_ in
  Ok (rev types ++ stack).

Definition type_fields_signature (d : StructDefinition) (type_args : Signature) : PartialVMResult Signature :=
  match field_information d with
  | Native => Err PACK_TYPE_MISMATCH_ERROR
  | Declared fields => r_collect (λ f, instantiate type_args (fd_signature f)) fields
  end.

Definition pack (d : StructDefinition) (type_args : Signature) (stack : TypeStack) : PartialVMResult TypeStack :=
  let struct_type := materialize_type (struct_handle d) type_args in
  let? field_sig := type_fields_signature d type_args in
  let? stack := pop_expected PACK_TYPE_MISMATCH_ERROR (rev field_sig) stack in
  Ok (struct_type :: stack).

Definition unpack (d : StructDefinition) (type_args : Signature) (stack : TypeStack) : PartialVMResult TypeStack :=
  let struct_type := materialize_type (struct_handle d) type_args in
  let? (arg, stack) := pop stack in
  if negb (bool_decide (arg = struct_type)) then Err UNPACK_TYPE_MISMATCH_ERROR
  else let? field_sig := type_fields_signature d type_args in Ok (rev field_sig ++ stack).

Definition exists_ (d : StructDefinition) (type_args : Signature) (stack : TypeStack) : PartialVMResult TypeStack :=
  let struct_type := materialize_type (struct_handle d) type_args in
  require_ability has_key struct_type EXISTS_WITHOUT_KEY_ABILITY_OR_BAD_ARGUMENT ;?
  let? (operand, stack) := pop stack in
  if negb (bool_decide (operand = Address)) then Err EXISTS_WITHOUT_KEY_ABILITY_OR_BAD_ARGUMENT
  else Ok (Bool :: stack).

Definition move_from (d : StructDefinition) (type_args : Signature) (stack : TypeStack) : PartialVMResult TypeStack :=
  let struct_type := materialize_type (struct_handle d) type_args in
  require_ability has_key struct_type MOVEFROM_WITHOUT_KEY_ABILITY ;?
  let? (operand, stack) := pop stack in
  if negb (bool_decide (operand = Address)) then Err MOVEFROM_TYPE_MISMATCH_ERROR
  else Ok (struct_type :: stack).

Definition move_to (d : StructDefinition) (type_args : Signature) (stack : TypeStack) : PartialVMResult TypeStack :=
  let struct_type := materialize_type (struct_handle d) type_args in
  require_ability has_key struct_type MOVETO_WITHOUT_KEY_ABILITY ;?
  let? (key_struct_operand, stack) := pop stack in
  let? (signer_reference_operand, stack) := pop stack in
  if negb (bool_decide (key_struct_operand = struct_type)) then Err MOVETO_TYPE_MISMATCH_ERROR
  else match signer_reference_operand with
       | Reference Signer => Ok stack
       | _ => Err MOVETO_TYPE_MISMATCH_ERROR
       end.

(** The operand is a reference to a vector of the declared element type. *)
Definition require_vector (operand_vec declared_element_type : SignatureToken) (mut_ref_only : bool) : PartialVMResult unit :=
  match get_vector_element_type operand_vec mut_ref_only with
  | Some ty => ensure (bool_decide (ty = declared_element_type)) TYPE_MISMATCH
  | None => Err TYPE_MISMATCH
  end.

Definition borrow_vector_element (declared_element_type : SignatureToken) (mut_ref_only : bool) (stack : TypeStack)
    : PartialVMResult TypeStack :=
  let? (operand_idx, stack) := pop stack in
  let? (operand_vec, stack) := pop stack in
  if negb (bool_decide (operand_idx = U64)) then Err TYPE_MISMATCH
  else
    require_vector operand_vec declared_element_type mut_ref_only ;?
    Ok (ref_type mut_ref_only declared_element_type :: stack).

(** [&signature_at(idx).0[0]] *)
Definition element_type_at (idx : nat) : PartialVMResult SignatureToken :=
  let? signature := signature_at resolver idx in at_index signature 0.

(** The definition and the type arguments of a struct instantiation. *)
Definition struct_instance (idx : nat) : PartialVMResult (StructDefinition * Signature) :=
  let? struct_inst := struct_instantiation_at resolver idx in
  let? struct_def := struct_def_at resolver (sdi_def struct_inst) in
  let? type_args := signature_at resolver (sdi_type_parameters struct_inst) in
  Ok (struct_def, type_args).

Definition field_instance (mut_ : bool) (idx : nat) (stack : TypeStack) : PartialVMResult TypeStack :=
  let? field_inst := field_instantiation_at resolver idx in
  let? type_inst := signature_at resolver (fdi_type_parameters field_inst) in
  borrow_field mut_ (fdi_handle field_inst) type_inst stack.

Definition global_instance (mut_ : bool) (idx : nat) (stack : TypeStack) : PartialVMResult TypeStack :=
  let? struct_inst := struct_instantiation_at resolver idx in
  let? type_inst := signature_at resolver (sdi_type_parameters struct_inst) in
  borrow_global mut_ (sdi_def struct_inst) type_inst stack.

Definition cast (ty : SignatureToken) (stack : TypeStack) : PartialVMResult TypeStack :=
  let? (operand, stack) := pop stack in
  if negb (is_integer operand) then Err INTEGER_OP_TYPE_MISMATCH_ERROR else Ok (ty :: stack).

(** ** verify_instr *)

Definition verify_instr (stack : TypeStack) (bytecode : Bytecode) : PartialVMResult TypeStack :=
  match bytecode with
  | Bytecode.Pop =>
      let? (operand, stack) := pop stack in
      require_ability has_drop operand POP_WITHOUT_DROP_ABILITY ;? Ok stack
  | Bytecode.BrTrue _ | Bytecode.BrFalse _ =>
      let? (operand, stack) := pop stack in
      if negb (bool_decide (operand = Bool)) then Err BR_TYPE_MISMATCH_ERROR else Ok stack
  | Bytecode.StLoc idx =>
      let? (operand, stack) := pop stack in
      let? ty := local_at idx in
      if negb (bool_decide (operand = ty)) then Err STLOC_TYPE_MISMATCH_ERROR else Ok stack
  | Bytecode.Abort =>
      let? (operand, stack) := pop stack in
      if negb (bool_decide (operand = U64)) then Err ABORT_TYPE_MISMATCH_ERROR else Ok stack
  | Bytecode.Ret => pop_expected RET_TYPE_MISMATCH_ERROR (rev (fv_return fv)) stack
  | Bytecode.Branch _ | Bytecode.Nop => Ok stack
  | Bytecode.FreezeRef =>
      let? (operand, stack) := pop stack in
      match operand with
      | MutableReference inner => Ok (Reference inner :: stack)
      | _ => Err FREEZEREF_TYPE_MISMATCH_ERROR
      end
  | Bytecode.MutBorrowField idx => borrow_field true idx [] stack
  | Bytecode.MutBorrowFieldGeneric idx => field_instance true idx stack
  | Bytecode.ImmBorrowField idx => borrow_field false idx [] stack
  | Bytecode.ImmBorrowFieldGeneric idx => field_instance false idx stack
  | Bytecode.LdU8 _ => Ok (U8 :: stack)
  | Bytecode.LdU64 _ => Ok (U64 :: stack)
  | Bytecode.LdU128 _ => Ok (U128 :: stack)
  | Bytecode.LdConst idx => let? constant := constant_at resolver idx in Ok (type_ constant :: stack)
  | Bytecode.LdTrue | Bytecode.LdFalse => Ok (Bool :: stack)
  | Bytecode.CopyLoc idx =>
      let? ty := local_at idx in
      require_ability has_copy ty COPYLOC_WITHOUT_COPY_ABILITY ;? Ok (ty :: stack)
  | Bytecode.MoveLoc idx => let? ty := local_at idx in Ok (ty :: stack)
  | Bytecode.MutBorrowLoc idx => borrow_loc true idx stack
  | Bytecode.ImmBorrowLoc idx => borrow_loc false idx stack
  | Bytecode.Call idx => let? fh := function_handle_at resolver idx in call fh [] stack
  | Bytecode.CallGeneric idx =>
      let? func_inst := function_instantiation_at resolver idx in
      let? fh := function_handle_at resolver (fi_handle func_inst) in
      let? type_args := signature_at resolver (fi_type_parameters func_inst) in
      call fh type_args stack
  | Bytecode.Pack idx => let? d := struct_def_at resolver idx in pack d [] stack
  | Bytecode.PackGeneric idx => let? (d, type_args) := struct_instance idx in pack d type_args stack
  | Bytecode.Unpack idx => let? d := struct_def_at resolver idx in unpack d [] stack
  | Bytecode.UnpackGeneric idx => let? (d, type_args) := struct_instance idx in unpack d type_args stack
  | Bytecode.ReadRef =>
      let? (operand, stack) := pop stack in
      match operand with
      | Reference inner | MutableReference inner =>
          require_ability has_copy inner READREF_WITHOUT_COPY_ABILITY ;? Ok (inner :: stack)
      | _ => Err READREF_TYPE_MISMATCH_ERROR
      end
  | Bytecode.WriteRef =>
      let? (ref_operand, stack) := pop stack in
      let? (val_operand, stack) := pop stack in
      match ref_operand with
      | MutableReference inner =>
          require_ability has_drop inner WRITEREF_WITHOUT_DROP_ABILITY ;?
          if negb (bool_decide (val_operand = inner)) then Err WRITEREF_TYPE_MISMATCH_ERROR else Ok stack
      | _ => Err WRITEREF_NO_MUTABLE_REFERENCE_ERROR
      end
  | Bytecode.CastU8 => cast U8 stack
  | Bytecode.CastU64 => cast U64 stack
  | Bytecode.CastU128 => cast U128 stack
  | Bytecode.Add | Bytecode.Sub | Bytecode.Mul | Bytecode.Mod | Bytecode.Div
  | Bytecode.BitOr | Bytecode.BitAnd | Bytecode.Xor =>
      let? (operand1, stack) := pop stack in
      let? (operand2, stack) := pop stack in
      if is_integer operand1 && bool_decide (operand1 = operand2) then Ok (operand1 :: stack)
      else Err INTEGER_OP_TYPE_MISMATCH_ERROR
  | Bytecode.Shl | Bytecode.Shr =>
      let? (operand1, stack) := pop stack in
      let? (operand2, stack) := pop stack in
      if is_integer operand2 && bool_decide (operand1 = U8) then Ok (operand2 :: stack)
      else Err INTEGER_OP_TYPE_MISMATCH_ERROR
  | Bytecode.Or | Bytecode.And =>
      let? (operand1, stack) := pop stack in
      let? (operand2, stack) := pop stack in
      if bool_decide (operand1 = Bool) && bool_decide (operand2 = Bool) then Ok (Bool :: stack)
      else Err BOOLEAN_OP_TYPE_MISMATCH_ERROR
  | Bytecode.Not =>
      let? (operand, stack) := pop stack in
      if bool_decide (operand = Bool) then Ok (Bool :: stack) else Err BOOLEAN_OP_TYPE_MISMATCH_ERROR
  | Bytecode.Eq | Bytecode.Neq =>
      let? (operand1, stack) := pop stack in
      let? (operand2, stack) := pop stack in
      let? a := ts_abilities operand1 in
      if has_drop a && bool_decide (operand1 = operand2) then Ok (Bool :: stack)
      else Err EQUALITY_OP_TYPE_MISMATCH_ERROR
  | Bytecode.Lt | Bytecode.Gt | Bytecode.Le | Bytecode.Ge =>
      let? (operand1, stack) := pop stack in
      let? (operand2, stack) := pop stack in
      if is_integer operand1 && bool_decide (operand1 = operand2) then Ok (Bool :: stack)
      else Err INTEGER_OP_TYPE_MISMATCH_ERROR
  | Bytecode.MutBorrowGlobal idx => borrow_global true idx [] stack
  | Bytecode.MutBorrowGlobalGeneric idx => global_instance true idx stack
  | Bytecode.ImmBorrowGlobal idx => borrow_global false idx [] stack
  | Bytecode.ImmBorrowGlobalGeneric idx => global_instance false idx stack
  | Bytecode.Exists idx => let? d := struct_def_at resolver idx in exists_ d [] stack
  | Bytecode.ExistsGeneric idx => let? (d, type_args) := struct_instance idx in exists_ d type_args stack
  | Bytecode.MoveFrom idx => let? d := struct_def_at resolver idx in move_from d [] stack
  | Bytecode.MoveFromGeneric idx => let? (d, type_args) := struct_instance idx in move_from d type_args stack
  | Bytecode.MoveTo idx => let? d := struct_def_at resolver idx in move_to d [] stack
  | Bytecode.MoveToGeneric idx => let? (d, type_args) := struct_instance idx in move_to d type_args stack
  | Bytecode.VecPack idx num =>
      let? element_type := element_type_at idx in
      let? stack := pop_any (N.to_nat num) stack in
      Ok (Vector element_type :: stack)
  | Bytecode.VecLen idx =>
      let? (operand, stack) := pop stack in
      let? declared_element_type := element_type_at idx in
      require_vector operand declared_element_type false ;? Ok (U64 :: stack)
  | Bytecode.VecImmBorrow idx =>
      let? declared_element_type := element_type_at idx in borrow_vector_element declared_element_type false stack
  | Bytecode.VecMutBorrow idx =>
      let? declared_element_type := element_type_at idx in borrow_vector_element declared_element_type true stack
  | Bytecode.VecPushBack idx =>
      let? (operand_elem, stack) := pop stack in
      let? (operand_vec, stack) := pop stack in
      let? declared_element_type := element_type_at idx in
      if negb (bool_decide (declared_element_type = operand_elem)) then Err TYPE_MISMATCH
      else require_vector operand_vec declared_element_type true ;? Ok stack
  | Bytecode.VecPopBack idx =>
      let? (operand_vec, stack) := pop stack in
      let? declared_element_type := element_type_at idx in
      require_vector operand_vec declared_element_type true ;? Ok (declared_element_type :: stack)
  | Bytecode.VecUnpack idx num =>
      let? (operand_vec, stack) := pop stack in
      let? declared_element_type := element_type_at idx in
      if negb (bool_decide (operand_vec = Vector declared_element_type)) then Err TYPE_MISMATCH
      else Ok (replicate (N.to_nat num) declared_element_type ++ stack)
  | Bytecode.VecSwap idx =>
      let? (operand_idx2, stack) := pop stack in
      let? (operand_idx1, stack) := pop stack in
      let? (operand_vec, stack) := pop stack in
      if negb (bool_decide (operand_idx1 = U64)) || negb (bool_decide (operand_idx2 = U64)) then Err TYPE_MISMATCH
      else
        let? declared_element_type := element_type_at idx in
        require_vector operand_vec declared_element_type true ;? Ok stack
  end.

(** One stack is used for all the blocks. *)
Definition verify_offset (stack : TypeStack) (offset : nat) : PartialVMResult TypeStack :=
  let? instr := at_index (fv_code fv) offset in verify_instr stack instr.
Definition verify_block_types (stack : TypeStack) (block_id : nat) : PartialVMResult TypeStack :=
  let? b := block_at (fv_cfg fv) block_id in r_fold verify_offset (instr_indexes b) stack.
Definition type_safety_verify : PartialVMResult unit :=
  let? _ := r_fold verify_block_types (cfg_blocks (fv_cfg fv)) [] in Ok ().
End checker.
