(* ===== verification/LocalsSafety.v ===== *)
(** * LocalsSafety: locals are assigned when they are used

    Models src/language/move-bytecode-verifier/src/absint.rs (abstract interpretation over the
    blocks of a function), locals_safety/abstract_state.rs and locals_safety/mod.rs, and the
    order of the passes of code_unit_verifier.rs.  The work list has its top at the head. *)

From S2P Require Import Prelude FileFormat CodeFlow BoundsCheck Declarations TypeSafety.

Local Open Scope nat_scope.

(** ** absint.rs *)

Inductive JoinResult := Changed | Unchanged.

Inductive BlockPostcondition := Unprocessed | BlockSuccess | BlockError (e : StatusCode).

Record BlockInvariant (State : Type) := mkBlockInvariant {
  pre : State;
  post : BlockPostcondition;
}.
Arguments mkBlockInvariant {State}.
Arguments pre {State}.
Arguments post {State}.

Section absint.
Context {State : Type}.
Context (join : State → State → PartialVMResult (State * JoinResult)).
Context (execute : State → Bytecode → PartialVMResult State).
Context (fv : FunctionView).
Local Abbreviation InvariantMap := (gmap nat (BlockInvariant State)).

Definition execute_offset (state_acc : State) (offset : nat) : PartialVMResult State :=
  let? instr := at_index (fv_code fv) offset in execute state_acc instr.
Definition execute_block (block_id : nat) (pre_state : State) : PartialVMResult State :=
  let? b := block_at (fv_cfg fv) block_id in r_fold execute_offset (instr_indexes b) pre_state.

(** The postcondition of a block goes to a successor. *)
Definition propagate (post_state : State) (acc : InvariantMap * list nat) (next_block_id : nat)
    : PartialVMResult (InvariantMap * list nat) :=
  let '(inv_map, work_list) := acc in
  match inv_map !! next_block_id with
  | Some next_block_invariant =>
      let? (joined, join_result) := join (pre next_block_invariant) post_state in
      match join_result with
      | Unchanged => Ok (inv_map, work_list)
      | Changed =>
          Ok (<[next_block_id := mkBlockInvariant joined (post next_block_invariant)]> inv_map, next_block_id :: work_list)
      end
  | None => Ok (<[next_block_id := mkBlockInvariant post_state BlockSuccess]> inv_map, next_block_id :: work_list)
  end.

(** One round of the loop, for the block taken from the work list. *)
Definition analyze_block (inv_map : InvariantMap) (work_list : list nat) (block_id : nat)
    : PartialVMResult (InvariantMap * list nat) :=
  let? block_invariant := expect (inv_map !! block_id) "Missing invariant for block" in
  match execute_block block_id (pre block_invariant) with
  | Panic msg => Panic msg
  | Err e => Ok (<[block_id := mkBlockInvariant (pre block_invariant) (BlockError e)]> inv_map, work_list)
  | Ok post_state =>
      let inv_map := <[block_id := mkBlockInvariant (pre block_invariant) BlockSuccess]> inv_map in
      let? b := block_at (fv_cfg fv) block_id in
      r_fold (propagate post_state) (successors b) (inv_map, work_list)
  end.

Fixpoint analyze_loop (fuel : nat) (inv_map : InvariantMap) (work_list : list nat) : PartialVMResult InvariantMap :=
  match work_list with
  | [] => Ok inv_map
  | block_id :: work_list =>
      match fuel with
      | O => Panic "out of fuel"
      | S fuel =>
          let? (inv_map, work_list) := analyze_block inv_map work_list block_id in
          analyze_loop fuel inv_map work_list
      end
  end.

Definition analyze_function (fuel : nat) (initial_state : State) : PartialVMResult InvariantMap :=
  analyze_loop fuel {[ENTRY_BLOCK_ID := mkBlockInvariant initial_state Unprocessed]} [ENTRY_BLOCK_ID].
End absint.

(** ** locals_safety/abstract_state.rs *)

Inductive LocalState := Unavailable | MaybeAvailable | Available.
Global Instance LocalState_eq_dec : EqDecision LocalState.
Proof. solve_decision. Defined.

Record AbstractState := mkAbstractState {
  all_local_abilities : list AbilitySet;
  local_states : list LocalState;
}.

Definition AbstractState_new (resolver : BinaryIndexedView) (fv : FunctionView) : PartialVMResult AbstractState :=
  let local_states := replicate (length (fv_parameters fv)) Available ++ replicate (length (fv_locals fv)) Unavailable in
  let? all_local_abilities :=
    r_collect (λ st, abilities resolver st (fv_type_parameters fv)) (fv_parameters fv ++ fv_locals fv) in
  Ok (mkAbstractState all_local_abilities local_states).

Definition local_abilities (s : AbstractState) (idx : nat) : PartialVMResult AbilitySet := at_index (all_local_abilities s) idx.
Definition local_state (s : AbstractState) (idx : nat) : PartialVMResult LocalState := at_index (local_states s) idx.
Definition set_local (s : AbstractState) (idx : nat) (l : LocalState) : PartialVMResult AbstractState :=
  if idx <? length (local_states s) then Ok (mkAbstractState (all_local_abilities s) (<[idx := l]> (local_states s)))
  else Panic "index out of bounds".
Definition set_available (s : AbstractState) (idx : nat) : PartialVMResult AbstractState := set_local s idx Available.
Definition set_unavailable (s : AbstractState) (idx : nat) : PartialVMResult AbstractState :=
  let? l := local_state s idx in
  match l with Available => set_local s idx Unavailable | _ => Panic "assertion failed: local_states[idx] == Available" end.

Definition join_local (self_state other_state : LocalState) : LocalState :=
  match self_state, other_state with
  | Unavailable, Unavailable => Unavailable
  | Available, Available => Available
  | _, _ => MaybeAvailable
  end.

Definition ls_join (self other : AbstractState) : PartialVMResult (AbstractState * JoinResult) :=
  if negb ((length (all_local_abilities self) =? length (all_local_abilities other)) &&
           (length (local_states self) =? length (local_states other))) then Panic "assertion failed: lengths"
  else
    let joined := mkAbstractState (all_local_abilities self) (zip_with join_local (local_states self) (local_states other)) in
    Ok (if bool_decide (local_states self = local_states joined) then (self, Unchanged) else (joined, Changed)).

(** ** locals_safety/mod.rs *)

(** The value of the local would be lost. *)
Definition unsafe_to_destroy (l : LocalState) (a : AbilitySet) : bool :=
  match l with MaybeAvailable | Available => negb (has_drop a) | Unavailable => false end.

Definition execute_inner (s : AbstractState) (bytecode : Bytecode) : PartialVMResult AbstractState :=
  match bytecode with
  | Bytecode.StLoc idx =>
      let? l := local_state s idx in
      match l with
      | MaybeAvailable | Available =>
          let? a := local_abilities s idx in
          if negb (has_drop a) then Err STLOC_UNSAFE_TO_DESTROY_ERROR else set_available s idx
      | Unavailable => set_available s idx
      end
  | Bytecode.MoveLoc idx =>
      let? l := local_state s idx in
      match l with Available => set_unavailable s idx | _ => Err MOVELOC_UNAVAILABLE_ERROR end
  | Bytecode.CopyLoc idx =>
      let? l := local_state s idx in
      match l with Available => Ok s | _ => Err COPYLOC_UNAVAILABLE_ERROR end
  | Bytecode.MutBorrowLoc idx | Bytecode.ImmBorrowLoc idx =>
      let? l := local_state s idx in
      match l with Available => Ok s | _ => Err BORROWLOC_UNAVAILABLE_ERROR end
  | Bytecode.Ret =>
      if length (local_states s) =? length (all_local_abilities s) then
        r_for (λ la, if unsafe_to_destroy la.1 la.2 then Err UNSAFE_RET_UNUSED_VALUES_WITHOUT_DROP else Ok ())
          (zip (local_states s) (all_local_abilities s)) ;?
        Ok s
      else Panic "assertion failed: local_states.len() == all_local_abilities.len()"
  | _ => Ok s
  end.

(** Rounds that are enough: a block is analyzed when it is first reached and when one of its
    locals becomes [MaybeAvailable]. *)
Definition analysis_fuel (fv : FunctionView) (num_locals : nat) : nat := 1 + length (fv_cfg fv) * (num_locals + 1).

Definition locals_safety_verify (resolver : BinaryIndexedView) (fv : FunctionView) : PartialVMResult unit :=
  let? initial_state := AbstractState_new resolver fv in
  let? inv_map :=
    analyze_function ls_join execute_inner fv (analysis_fuel fv (length (local_states initial_state))) initial_state in
  r_for (λ block_id, match post <$> inv_map !! block_id with
                     | Some (BlockError err) => Err err
                     | _ => Ok ()
                     end) (cfg_blocks (fv_cfg fv)).

(** ** code_unit_verifier.rs *)

(** The passes over a function body; the reference safety pass that follows them is not
    modelled. *)
Definition verify_common (resolver : BinaryIndexedView) (fv : FunctionView) : PartialVMResult unit :=
  control_flow_verify (fv_code fv) ;?
  StackUsageVerifier_verify resolver fv ;?
  type_safety_verify resolver fv ;?
  locals_safety_verify resolver fv.

Definition verify_function (m : CompiledModule) (d : FunctionDefinition) : PartialVMResult unit :=
  match fn_code d with
  | None => Ok ()
  | Some c =>
      let? function_handle := function_handle_at (ModuleView m) (function d) in
      let? fv := FunctionView_function m c function_handle in
      verify_common (ModuleView m) fv
  end.
Definition CodeUnitVerifier_verify_module (m : CompiledModule) : PartialVMResult unit := r_for (verify_function m) (m_function_defs m).
Definition CodeUnitVerifier_verify_script (s : CompiledScript) : PartialVMResult unit :=
  let? fv := FunctionView_script s in verify_common (ScriptView s) fv.

Section verifier.
Context (simple_deserialize : list Z → SignatureToken → bool).

(** The modelled passes of [verify_module] and [verify_script], in their order.  The checks for
    recursive structs and for loops of instantiations, which come before the code, are not. *)
Definition verify_module (m : CompiledModule) : PartialVMResult unit :=
  BoundsChecker_verify_module m ;?
  DuplicationChecker_verify_module m ;?
  SignatureChecker_verify_module m ;?
  InstructionConsistency_verify_module m ;?
  constants_verify_module simple_deserialize m ;?
  friends_verify_module m ;?
  ability_field_requirements_verify_module m ;?
  CodeUnitVerifier_verify_module m.
Definition verify_script (s : CompiledScript) : PartialVMResult unit :=
  BoundsChecker_verify_script s ;?
  DuplicationChecker_verify_script s ;?
  SignatureChecker_verify_script s ;?
  InstructionConsistency_verify_script s ;?
  constants_verify_script simple_deserialize s ;?
  CodeUnitVerifier_verify_script s ;?
  script_signature_verify_script s.
End verifier.
