(* ===== verification/CodeFlowFacts.v ===== *)
(** * CodeFlowFacts: the control flow graph and the loops of accepted code

    The basic blocks partition the code, only the last instruction of a block branches, and
    every branch target begins a block; building the graph panics exactly on the longest code
    that can be deserialized.  The control flow check does not panic. *)

From S2P Require Import Prelude FileFormat CodeFlow.

Local Open Scope nat_scope.

Lemma r_fold_snoc {E A S} (f : S → A → Result E S) l x s :
  r_fold f (l ++ [x]) s = (let? s := r_fold f l s in f s x).
Proof. rewrite r_fold_app. simpl. destruct (r_fold f l s) as [s'| |]; simpl; [|done..]. by destruct (f s' x). Qed.

Lemma at_index_ok {A} (l : list A) i x : at_index l i = Ok x ↔ l !! i = Some x.
Proof. apply expect_ok. Qed.

(** ** Successors *)

Lemma get_successors_ok pc (c : list Bytecode) bc :
  (Z.of_nat pc ≤ 65533)%Z → c !! pc = Some bc →
  ∃ ss, get_successors pc c = Ok ss ∧
    ∀ s, s ∈ ss ↔ branch_offset bc = Some s ∨ (is_unconditional_branch bc = false ∧ s = pc + 1 ∧ s < length c).
Proof.
  intros Hpc Hbc. unfold get_successors. pose proof (lookup_lt_Some _ _ _ Hbc) as Hlt.
  rewrite (proj2 (Z.leb_le _ _) Hpc), (proj2 (Nat.ltb_lt _ _) Hlt). simpl.
  rewrite (proj2 (at_index_ok _ _ _) Hbc). simpl.
  destruct (Nat.leb_spec (length c) (pc + 1)) as [Hlast|Hlast]; simpl.
  { eexists. split; [done|]. intros s. destruct (branch_offset bc); rewrite ?list_elem_of_singleton, ?elem_of_nil;
      split; naive_solver lia. }
  eexists. split; [done|]. intros s. destruct (branch_offset bc) as [off|] eqn:Ho, (is_unconditional_branch bc) eqn:Hu;
    simpl; [| | |]; try case_bool_decide as Hin; simpl.
  all: try (rewrite list_elem_of_singleton in Hin).
  all: try case_match; rewrite ?elem_of_cons, ?elem_of_nil; split; naive_solver lia.
Qed.

(** ** Blocks *)

(** The blocks follow each other from [a] to [z]. *)
Fixpoint chain (a : nat) (bs : VMControlFlowGraph) (z : nat) : Prop :=
  match bs with
  | [] => a = z
  | b :: bs => entry b = a ∧ entry b ≤ exit b ∧ chain (exit b + 1) bs z
  end.

Lemma chain_snoc a bs z b : chain a bs z → entry b = z → entry b ≤ exit b → chain a (bs ++ [b]) (exit b + 1).
Proof. revert a. induction bs as [|b0 bs IH]; simpl; [naive_solver|]. intros a (H1 & H2 & H3) Hz Hle. auto. Qed.

Lemma chain_le a bs z : chain a bs z → a ≤ z.
Proof. revert a. induction bs as [|b bs IH]; simpl; [intros; lia|]. intros a (<- & H2 & H3%IH). lia. Qed.

Lemma chain_bounds a bs z b : chain a bs z → b ∈ bs → a ≤ entry b ∧ entry b ≤ exit b ∧ exit b < z.
Proof.
  revert a. induction bs as [|b0 bs IH]; simpl; [by intros a _ ?%elem_of_nil|]. intros a (<- & H2 & H3) [->|Hb]%elem_of_cons.
  - apply chain_le in H3. lia.
  - specialize (IH _ H3 Hb). lia.
Qed.

Lemma chain_cover a bs z pc : chain a bs z → a ≤ pc → pc < z → ∃ b, b ∈ bs ∧ entry b ≤ pc ∧ pc ≤ exit b.
Proof.
  revert a. induction bs as [|b0 bs IH]; simpl; [lia|]. intros a (<- & H2 & H3) Ha Hz.
  destruct (decide (pc ≤ exit b0)) as [Hle|Hle]; [exists b0; split; [by left|lia]|].
  destruct (IH _ H3) as (b & Hb & Hpc); [lia..|]. exists b. split; [by right|done].
Qed.

Lemma chain_block_at a bs z b : chain a bs z → b ∈ bs → block_at bs (entry b) = Ok b.
Proof.
  revert a. unfold block_at. induction bs as [|b0 bs IH]; simpl; [by intros a _ ?%elem_of_nil|].
  intros a (<- & H2 & H3) [->|Hb]%elem_of_cons; [by rewrite decide_True|].
  destruct (chain_bounds _ _ _ _ H3 Hb). rewrite decide_False by lia.
  specialize (IH _ H3 Hb). destruct (list_find _ bs) as [[j b']|]; [|done]. simpl in *. done.
Qed.

Lemma chain_next a bs z b : chain a bs z → b ∈ bs → exit b + 1 < z → ∃ b', b' ∈ bs ∧ entry b' = exit b + 1.
Proof.
  revert a. induction bs as [|b0 bs IH]; intros a; simpl; [by intros _ ?%elem_of_nil|].
  intros (<- & H2 & H3) [->|Hb]%elem_of_cons Hlt.
  - destruct bs as [|b1 bs]; simpl in *; [lia|]. destruct H3 as (H3 & _). exists b1. split; [|done]. right. left.
  - destruct (IH _ H3 Hb Hlt) as (b' & Hb' & He). exists b'. split; [by right|done].
Qed.

(** What holds of the graph of a code. *)
Record wf_cfg (c : list Bytecode) (cfg : VMControlFlowGraph) : Prop := {
  wf_chain : chain 0 cfg (length c);
  wf_successors b : b ∈ cfg → get_successors (exit b) c = Ok (successors b);
  wf_inner b pc bc : b ∈ cfg → entry b ≤ pc → pc < exit b → c !! pc = Some bc → is_branch bc = false;
  wf_target pc bc off :
    c !! pc = Some bc → branch_offset bc = Some off → off < length c → ∃ b, b ∈ cfg ∧ entry b = off;
}.

Lemma block_ids_ok (c : list Bytecode) k : k ≤ length c →
  ∃ ids, r_fold (λ ids pc, record_block_ids pc c ids) (seq 0 k) {[ENTRY_BLOCK_ID]} = Ok ids ∧ 0 ∈ ids ∧
    (∀ pc bc off, pc < k → c !! pc = Some bc → branch_offset bc = Some off → off ∈ ids) ∧
    (∀ pc bc, pc < k → c !! pc = Some bc → is_branch bc = true → pc + 1 < length c → pc + 1 ∈ ids).
Proof.
  induction k as [|k IH]; intros Hk.
  { eexists. split; [done|]. unfold ENTRY_BLOCK_ID. split_and!; [set_solver|intros; lia..]. }
  destruct IH as (ids & Hids & H0 & Hoff & Hbr); [lia|].
  rewrite seq_S, r_fold_snoc, Hids. simpl. unfold record_block_ids.
  destruct (lookup_lt_is_Some_2 c k) as [bc Hbc]; [lia|]. rewrite (proj2 (at_index_ok _ _ _) Hbc). simpl.
  eexists. split; [done|].
  assert (Hmono : ∀ x, x ∈ ids → x ∈ (let ids' := match branch_offset bc with Some off => {[off]} ∪ ids | None => ids end in
                     if is_branch bc && (k + 1 <? length c) then {[k + 1]} ∪ ids' else ids')).
  { intros x Hx. simpl. destruct (branch_offset bc), (is_branch bc && _); set_solver. }
  split_and!; [by apply Hmono|..].
  - intros pc bc' off Hpc Hbc' Ho. destruct (decide (pc = k)) as [->|]; [|apply Hmono; eapply Hoff; eauto; lia].
    assert (bc' = bc) as -> by congruence. rewrite Ho. destruct (is_branch bc && _); set_solver.
  - intros pc bc' Hpc Hbc' Hb Hlt. destruct (decide (pc = k)) as [->|]; [|apply Hmono; eapply Hbr; eauto; lia].
    assert (bc' = bc) as -> by congruence. rewrite Hb, (proj2 (Nat.ltb_lt _ _) Hlt). simpl. set_solver.
Qed.

Section blocks.
Context (c : list Bytecode) (ids : gset nat).
Local Abbreviation is_end := (λ pc, is_end_of_block pc c ids).

(** The blocks made from the first [k] instructions. *)
Lemma create_blocks_ok k : k ≤ length c → (Z.of_nat k ≤ 65534)%Z →
  ∃ e bs, r_fold (create_block c ids) (seq 0 k) (0, []) = Ok (e, bs) ∧ chain 0 bs e ∧ e ≤ k ∧
    (∀ pc, e ≤ pc → pc < k → is_end pc = false) ∧ (k = e ∨ e < k) ∧
    (∀ b, b ∈ bs → get_successors (exit b) c = Ok (successors b) ∧
      ∀ pc, entry b ≤ pc → pc < exit b → is_end pc = false).
Proof.
  induction k as [|k IH]; intros Hk Hlen.
  { exists 0, []. split_and!; [done|done|lia|intros; lia|by left|by intros b ?%elem_of_nil]. }
  destruct IH as (e & bs & Hf & Hch & He & Hno & _ & Hbs); [lia..|].
  rewrite seq_S, r_fold_snoc, Hf. simpl. destruct (is_end_of_block k c ids) eqn:Hend; cycle 1.
  { exists e, bs. split_and!; [done|done|lia| |right; lia|done].
    intros pc Hpc Hlt. destruct (decide (pc = k)) as [->|]; [done|apply Hno; lia]. }
  destruct (lookup_lt_is_Some_2 c k) as [bc Hbc]; [lia|].
  destruct (get_successors_ok k c bc) as (ss & Hss & _); [lia|done|]. rewrite Hss. simpl.
  eexists _, _. split; [done|]. split_and!.
  - by apply (chain_snoc 0 bs e (mkBasicBlock e k ss)).
  - lia.
  - intros; lia.
  - left; lia.
  - intros b [Hb|Hb%list_elem_of_singleton]%elem_of_app; [by apply Hbs|]. subst b. simpl. split; [done|].
    intros pc Hpc Hlt. apply Hno; lia.
Qed.
End blocks.

Lemma last_is_end (c : list Bytecode) ids k : k + 1 = length c → is_end_of_block k c ids = true.
Proof. intros H. unfold is_end_of_block. by rewrite (proj2 (Nat.eqb_eq _ _) H). Qed.

Lemma cfg_new_ok (c : list Bytecode) : (Z.of_nat (length c) ≤ 65534)%Z →
  ∃ cfg, VMControlFlowGraph_new c = Ok cfg ∧ wf_cfg c cfg.
Proof.
  intros Hlen. unfold VMControlFlowGraph_new.
  destruct (block_ids_ok c (length c)) as (ids & -> & H0 & Hoff & Hbr); [done|]. simpl.
  destruct (create_blocks_ok c ids (length c)) as (e & bs & -> & Hch & He & Hno & _ & Hbs); [done..|]. simpl.
  assert (e = length c) as ->.
  { destruct (decide (e = length c)); [done|]. exfalso.
    specialize (Hno (length c - 1)). rewrite last_is_end in Hno by lia. by specialize (Hno ltac:(lia) ltac:(lia)). }
  rewrite Nat.eqb_refl. exists bs. split; [done|]. constructor; [done|..].
  - intros b Hb. by apply Hbs.
  - intros b pc bc Hb Hpc Hlt Hbc. apply not_true_iff_false. intros Hbranch.
    destruct (chain_bounds _ _ _ _ Hch Hb) as (_ & _ & Hex).
    specialize (Hbr pc bc ltac:(lia) Hbc Hbranch ltac:(lia)).
    destruct (Hbs b Hb) as [_ Hin]. specialize (Hin pc Hpc Hlt). unfold is_end_of_block in Hin.
    rewrite bool_decide_true, orb_true_r in Hin by done. done.
  - intros pc bc off Hbc Ho Hlt. specialize (Hoff pc bc off (lookup_lt_Some _ _ _ Hbc) Hbc Ho).
    destruct (chain_cover _ _ _ off Hch) as (b & Hb & Hle & Hge); [lia..|].
    exists b. split; [done|]. destruct (decide (entry b = off)); [done|]. exfalso.
    destruct (Hbs b Hb) as [_ Hin]. specialize (Hin (off - 1) ltac:(lia) ltac:(lia)). unfold is_end_of_block in Hin.
    replace (off - 1 + 1) with off in Hin by lia. rewrite bool_decide_true, orb_true_r in Hin by done. done.
Qed.

(** The longest code that the deserializer admits fails the precondition of [get_successors]. *)
Lemma cfg_new_panics (c : list Bytecode) : Z.of_nat (length c) = 65535%Z →
  VMControlFlowGraph_new c = Panic "Program counter out of bounds".
Proof.
  intros Hlen. unfold VMControlFlowGraph_new.
  destruct (block_ids_ok c (length c)) as (ids & -> & _); [done|]. simpl.
  destruct (create_blocks_ok c ids (length c - 1)) as (e & bs & Hf & _); [lia..|].
  assert (length c = S (length c - 1)) as Hs by lia.
  assert (seq 0 (length c) = seq 0 (length c - 1) ++ [length c - 1]) as ->.
  { rewrite Hs at 1. by rewrite seq_S. }
  rewrite r_fold_snoc, Hf. simpl. rewrite last_is_end by lia. unfold get_successors.
  assert ((Z.of_nat (length c - 1) <=? 65533)%Z = false) as -> by (apply Z.leb_gt; lia). done.
Qed.

(** Longer code has no graph at all. *)
Lemma cfg_new_length (c : list Bytecode) cfg : VMControlFlowGraph_new c = Ok cfg → (Z.of_nat (length c) ≤ 65534)%Z.
Proof.
  unfold VMControlFlowGraph_new. intros H. destruct (length c) as [|n] eqn:Hn; [lia|].
  r_inv H. rewrite seq_S, r_fold_snoc in Hs0. apply r_bind_ok in Hs0 as ([e bs] & _ & Hlast). simpl in Hlast.
  rewrite last_is_end in Hlast by lia. unfold get_successors in Hlast.
  destruct (Z.leb_spec (Z.of_nat n) 65533); [lia|]. done.
Qed.

(** ** Edges *)

Section edges.
Context (c : list Bytecode) (cfg : VMControlFlowGraph) (Hlen : (Z.of_nat (length c) ≤ 65534)%Z) (Hwf : wf_cfg c cfg).
Context (Hoff : ∀ pc bc off, c !! pc = Some bc → branch_offset bc = Some off → off < length c).

Definition edge (pc pc' : nat) : Prop := ∃ ss, get_successors pc c = Ok ss ∧ pc' ∈ ss.

Lemma entry_block b : b ∈ cfg → block_at cfg (entry b) = Ok b.
Proof. eapply chain_block_at, wf_chain; eauto. Qed.

(** Inside of a block the control goes to the next instruction, at its end to a block. *)
Lemma edge_inner b pc pc' : b ∈ cfg → entry b ≤ pc → pc < exit b → edge pc pc' → pc' = pc + 1.
Proof.
  intros Hb Hpc Hlt (ss & Hss & Hin). destruct (chain_bounds _ _ _ _ (wf_chain _ _ Hwf) Hb) as (_ & _ & Hex).
  destruct (lookup_lt_is_Some_2 c pc) as [bc Hbc]; [lia|].
  destruct (get_successors_ok pc c bc) as (ss' & Hss' & Hiff); [lia|done|].
  assert (ss' = ss) as -> by congruence. apply Hiff in Hin as [Ho|(_ & -> & _)]; [|done].
  pose proof (wf_inner _ _ Hwf b pc bc Hb Hpc Hlt Hbc) as Hbr. by destruct bc.
Qed.

Lemma edge_exit b pc' : b ∈ cfg → edge (exit b) pc' → pc' ∈ successors b.
Proof. intros Hb (ss & Hss & Hin). rewrite (wf_successors _ _ Hwf b Hb) in Hss. congruence. Qed.

Lemma successor_block b s : b ∈ cfg → s ∈ successors b → ∃ b', b' ∈ cfg ∧ entry b' = s.
Proof.
  intros Hb Hs. pose proof (wf_chain _ _ Hwf) as Hch. destruct (chain_bounds _ _ _ _ Hch Hb) as (_ & Hle & Hex).
  destruct (lookup_lt_is_Some_2 c (exit b)) as [bc Hbc]; [lia|].
  destruct (get_successors_ok (exit b) c bc) as (ss' & Hss' & Hiff); [lia|done|].
  rewrite (wf_successors _ _ Hwf b Hb) in Hss'. injection Hss' as <-.
  apply Hiff in Hs as [Ho|(_ & -> & Hlt)]; [by eapply wf_target; eauto|].
  by eapply chain_next.
Qed.

Lemma block_of pc : pc < length c → ∃ b, b ∈ cfg ∧ entry b ≤ pc ∧ pc ≤ exit b.
Proof. intros H. eapply chain_cover; [apply Hwf|lia|done]. Qed.
End edges.

(** ** Loops *)

Section loops.
Context (c : list Bytecode).
Local Abbreviation labels := (instruction_labels c).

Lemma enumerate_lookup {A} (l : list A) i x : enumerate l !! i = Some x ↔ ∃ y, l !! i = Some y ∧ x = (i, y).
Proof. unfold enumerate. rewrite list_lookup_imap. destruct (l !! i); simpl; naive_solver. Qed.

(** The labels after the first [k] instructions. *)
Lemma labels_spec k : k ≤ length c →
  let ls := fold_left set_label (take k (enumerate c)) (replicate (length c) Code) in
  length ls = length c ∧
  (∀ i instr j, i < k → c !! i = Some instr → back_jump i instr = Some j → ∃ lc, ls !! j = Some (Loop lc) ∧ i ≤ lc) ∧
  (∀ j lc, ls !! j = Some (Loop lc) → lc < k ∧ ∃ instr, c !! lc = Some instr ∧ back_jump lc instr = Some j).
Proof.
  induction k as [|k IH]; intros Hk; simpl.
  { split_and!; [apply length_replicate|lia|]. intros j lc [? _]%lookup_replicate. done. }
  destruct IH as (IH1 & IH2 & IH3); [lia|]. destruct (lookup_lt_is_Some_2 c k) as [instr Hi]; [lia|].
  assert (He : enumerate c !! k = Some (k, instr)) by (apply enumerate_lookup; eauto).
  rewrite (take_S_r _ _ _ He), fold_left_app. simpl.
  set (ls := fold_left set_label (take k (enumerate c)) (replicate (length c) Code)) in *.
  unfold set_label. simpl. destruct (back_jump k instr) as [j0|] eqn:Hj; cycle 1.
  { split_and!; [done| |].
    - intros i instr' j Hik Hi' Hb. destruct (decide (i = k)) as [->|]; [congruence|]. eapply IH2; eauto; lia.
    - intros j lc Hl. destruct (IH3 j lc Hl) as [? ?]. split; [lia|done]. }
  assert (Hj0 : j0 < length ls).
  { rewrite IH1. unfold back_jump in Hj. destruct (branch_offset instr) as [j'|]; [|done].
    destruct (Nat.leb_spec j' k); [|done]. injection Hj as <-. lia. }
  split_and!; [by rewrite length_insert| |].
  - intros i instr' j Hik Hi' Hb. destruct (decide (i = k)) as [->|].
    + assert (j = j0) as -> by congruence. exists k. by rewrite list_lookup_insert_eq.
    + destruct (IH2 i instr' j) as (lc & Hl & Hle); [lia|done..|]. destruct (decide (j = j0)) as [->|].
      * exists k. rewrite list_lookup_insert_eq by done. split; [done|lia].
      * exists lc. by rewrite list_lookup_insert_ne.
  - intros j lc [(-> & [= <-] & _)|[_ Hl]]%list_lookup_insert_Some; [split; [lia|eauto]|].
    destruct (IH3 j lc Hl). split; [lia|done].
Qed.

Lemma labels_len : length labels = length c.
Proof.
  destruct (labels_spec (length c)) as [H _]; [done|]. rewrite take_ge in H; [done|]. unfold enumerate. by rewrite length_imap.
Qed.
Lemma labels_head i instr j :
  c !! i = Some instr → back_jump i instr = Some j → ∃ lc, labels !! j = Some (Loop lc) ∧ i ≤ lc.
Proof.
  intros Hi Hb. destruct (labels_spec (length c)) as (_ & H & _); [done|].
  rewrite take_ge in H by (unfold enumerate; by rewrite length_imap). eapply H; eauto. by eapply lookup_lt_Some.
Qed.
Lemma labels_continue j lc : labels !! j = Some (Loop lc) → j ≤ lc ∧ lc < length c.
Proof.
  intros Hl. destruct (labels_spec (length c)) as (_ & _ & H); [done|].
  rewrite take_ge in H by (unfold enumerate; by rewrite length_imap).
  destruct (H j lc Hl) as (Hlt & instr & _ & Hb). split; [|done]. unfold back_jump in Hb.
  destruct (branch_offset instr) as [j'|]; [|done]. destruct (Nat.leb_spec j' lc); [|done]. by injection Hb as <-.
Qed.

(** The loops that are open at [i] are on the stack. *)
Definition open_on (stack : LoopStack) (i : nat) : Prop :=
  ∀ j lc, j < i → labels !! j = Some (Loop lc) → i ≤ lc → (j, lc) ∈ stack.

Lemma labeled_lookup i x : zip (enumerate c) labels !! i = Some x →
  ∃ instr label, x = (i, instr, label) ∧ c !! i = Some instr ∧ labels !! i = Some label.
Proof.
  rewrite lookup_zip_with. unfold enumerate. rewrite list_lookup_imap.
  destruct (c !! i) as [instr|]; [|done]. simpl. destruct (labels !! i) as [label|]; [|done]. intros [= <-]. eauto.
Qed.

Lemma open_push stack i label : open_on stack i → labels !! i = Some label →
  let stack' := match label with Loop lc => (i, lc) :: stack | Code => stack end in
  ∀ j lc, j ≤ i → labels !! j = Some (Loop lc) → i ≤ lc → (j, lc) ∈ stack'.
Proof.
  intros Hopen Hlab stack' j lc Hj Hlj Hle. unfold stack'. destruct (decide (j = i)) as [->|Hne].
  - assert (label = Loop lc) as -> by congruence. by left.
  - assert ((j, lc) ∈ stack) by (apply Hopen; [lia|done..]). destruct label; [by right|done].
Qed.

Lemma back_jump_le i instr j : back_jump i instr = Some j → j ≤ i.
Proof.
  unfold back_jump. destruct (branch_offset instr) as [j'|]; [|done].
  destruct (Nat.leb_spec j' i); [|done]. by intros [= <-].
Qed.

Section checks.
Context (check : LoopStack → nat → Bytecode → PartialVMResult unit).
Hypothesis check_safe : ∀ stack i instr, c !! i = Some instr →
  (back_jump i instr ≠ None → stack ≠ []) → no_panic (check stack i instr).

Lemma check_instr_step stack i instr label : open_on stack i →
  c !! i = Some instr → labels !! i = Some label →
  no_panic (check_instr check stack (i, instr, label)) ∧
  ∀ stack', check_instr check stack (i, instr, label) = Ok stack' → open_on stack' (i + 1).
Proof.
  intros Hopen Hi Hlab. pose proof (open_push stack i label Hopen Hlab) as Hpush. unfold check_instr.
  set (top := match label with Loop lc => (i, lc) :: stack | Code => stack end) in *. cbv zeta in Hpush.
  assert (Hne : back_jump i instr ≠ None → top ≠ []).
  { intros Hb. destruct (back_jump i instr) as [j|] eqn:Hj; [|done].
    destruct (labels_head i instr j Hi Hj) as (lc & Hlj & Hle).
    assert (Hin : (j, lc) ∈ top) by (apply Hpush; [by eapply back_jump_le|done..]).
    intros Hnil. rewrite Hnil in Hin. by apply elem_of_nil in Hin. }
  assert (Hkeep : open_on top (i + 1)) by (intros j lc ???; apply Hpush; [lia|done|lia]).
  split.
  - apply no_panic_bind; [by apply check_safe|]. intros [].
    destruct (back_jump i instr); [|solve_no_panic]. destruct top as [|[j lc] rest]; [by destruct Hne|]. apply no_panic_Ok.
  - intros stack' H. r_inv H. destruct (back_jump i instr); [|by injection H as <-].
    destruct top as [|[j lc] rest]; [done|]. simpl in H. injection H as <-.
    destruct (Nat.eqb_spec i lc) as [->|]; [|done].
    intros j' lc' Hj' Hl' Hle. specialize (Hkeep j' lc' Hj' Hl' Hle).
    apply elem_of_cons in Hkeep as [[= -> ->]|]; [lia|done].
Qed.

Lemma check_code_no_panic : no_panic (check_code c labels check).
Proof.
  unfold check_code. apply no_panic_bind; [|intros; apply no_panic_Ok].
  enough (H : ∀ l i stack, drop i (zip (enumerate c) labels) = l → open_on stack i →
            no_panic (r_fold (check_instr check) l stack)) by (apply (H _ 0); [done|]; intros j lc Hj; lia).
  induction l as [|x l IH]; intros i stack Hl Hopen; simpl; [apply no_panic_Ok|].
  assert (Hx : zip (enumerate c) labels !! i = Some x) by (by rewrite <- (Nat.add_0_r i), <- lookup_drop, Hl).
  destruct (labeled_lookup i x Hx) as (instr & label & -> & Hi & Hlab).
  destruct (check_instr_step stack i instr label Hopen Hi Hlab) as [Hp Hs].
  apply no_panic_bind_ok; [done|]. intros stack' Hs'. apply (IH (i + 1)); [|by apply Hs].
  rewrite <- drop_drop, Hl. done.
Qed.
End checks.

(** The heads counted as open at [i]: all that are before it and have a continue left. *)
Definition counted (count i : nat) : Prop :=
  ∃ S : gset nat, size S = count ∧ (∀ j, j ∈ S → j < i) ∧
    ∀ j lc, j < i → labels !! j = Some (Loop lc) → i ≤ lc → j ∈ S.

Definition depths_ok (counts : list nat) (i : nat) : Prop :=
  length counts = i ∧
  ∀ j lc depth, labels !! j = Some (Loop lc) → counts !! j = Some depth → 0 < depth.

Lemma count_push count i label : counted count i → labels !! i = Some label →
  let count' := match label with Loop _ => count + 1 | Code => count end in
  ∃ S : gset nat, size S = count' ∧ (∀ j, j ∈ S → j ≤ i) ∧
    ∀ j lc, j ≤ i → labels !! j = Some (Loop lc) → i ≤ lc → j ∈ S.
Proof.
  intros (S & Hsize & Hlt & Hall) Hlab. destruct label as [lc0|]; cbv zeta.
  - exists ({[i]} ∪ S). split_and!.
    + rewrite size_union, size_singleton by (apply disjoint_singleton_l; intros ?%Hlt; lia). lia.
    + intros j [->%elem_of_singleton|?%Hlt]%elem_of_union; lia.
    + intros j lc Hj Hl Hle. destruct (decide (j = i)) as [->|]; [set_solver|]. 
      apply elem_of_union_r. eapply Hall; [lia|done..].
  - exists S. split_and!; [done|intros j ?%Hlt; lia|].
    intros j lc Hj Hl Hle. destruct (decide (j = i)) as [->|]; [congruence|]. eapply Hall; [lia|done..].
Qed.

Lemma count_step_ok count counts i label :
  let last_continues := list_to_set (omap (λ l, match l with Loop lc => Some lc | Code => None end) labels) in
  counted count i → depths_ok counts i → labels !! i = Some label →
  ∃ count' counts', count_step last_continues (count, counts) (i, label) = Ok (count', counts') ∧
    counted count' (i + 1) ∧ depths_ok counts' (i + 1).
Proof.
  intros last_continues Hc [Hlen Hd] Hlab. destruct (count_push count i label Hc Hlab) as (S & Hsize & Hlt & Hall).
  unfold count_step. simpl. set (top := match label with Loop _ => count + 1 | Code => count end) in *.
  assert (Hd' : depths_ok (counts ++ [top]) (i + 1)).
  { split; [rewrite length_app; simpl; lia|]. intros j lc depth Hl [Hj|[? Hj]]%lookup_app_Some; [by eapply Hd|].
    apply list_lookup_singleton_Some in Hj as [Hz <-]. assert (j = i) as -> by lia.
    rewrite Hlab in Hl. injection Hl as ->. unfold top. lia. }
  case_bool_decide as Hin; cycle 1.
  { eexists _, _. split; [done|]. split; [|done]. exists S. split_and!; [done|intros j ?%Hlt; lia|].
    intros j lc Hj Hl Hle. eapply Hall; [lia|done|lia]. }
  apply elem_of_list_to_set, list_elem_of_omap in Hin as ([lc|] & Hj & [= ->]).
  apply list_elem_of_lookup in Hj as [j Hj]. destruct (labels_continue _ _ Hj) as [Hle _].
  assert (HjS : j ∈ S) by (eapply Hall; [done..|lia]).
  assert (Hpos : size (S ∖ {[j]}) + 1 = top).
  { rewrite size_difference, size_singleton, Hsize by set_solver.
    assert (top ≠ 0) by (rewrite <- Hsize; intros ?%size_empty_inv; set_solver). lia. }
  destruct top as [|top']; [lia|]. simpl. eexists _, _. split; [done|]. split; [|done].
  exists (S ∖ {[j]}). split_and!; [lia|intros k [?%Hlt _]%elem_of_difference; lia|].
  intros k lc Hk Hl Hlc. apply elem_of_difference. split; [eapply Hall; [lia|done|lia]|].
  intros ->%elem_of_singleton. assert (lc = i) by congruence. lia.
Qed.

Lemma count_loop_depth_ok : ∃ counts, count_loop_depth labels = Ok counts ∧ depths_ok counts (length c).
Proof.
  unfold count_loop_depth.
  set (lcs := list_to_set _). 
  enough (H : ∀ l i count counts, drop i (enumerate labels) = l → counted count i → depths_ok counts i →
     ∃ count' counts', r_fold (count_step lcs) l (count, counts) = Ok (count', counts') ∧ depths_ok counts' (i + length l)).
  { destruct (H (enumerate labels) 0 0 [] eq_refl) as (count' & counts' & -> & Hd).
    - exists ∅. split_and!; [done|set_solver|lia].
    - split; [done|]. intros j lc depth _ Hj. done.
    - exists counts'. split; [done|]. revert Hd. unfold enumerate. by rewrite length_imap, labels_len. }
  induction l as [|x l IH]; intros i count counts Hl Hc Hd; cbn [r_fold length].
  { rewrite Nat.add_0_r. eauto. }
  assert (Hx : enumerate labels !! i = Some x) by (by rewrite <- (Nat.add_0_r i), <- lookup_drop, Hl).
  apply enumerate_lookup in Hx as (label & Hlab & ->).
  destruct (count_step_ok count counts i label Hc Hd Hlab) as (count1 & counts1 & Hs & Hc1 & Hd1).
  fold lcs in Hs. rewrite Hs. cbn [r_bind]. destruct (IH (i + 1) count1 counts1) as (count2 & counts2 & -> & Hd2); [|done..|].
  - by rewrite <- drop_drop, Hl.
  - exists count2, counts2. split; [done|]. by replace (i + S (length l)) with (i + 1 + length l) by lia.
Qed.

Lemma check_continue_no_panic stack i instr :
  (back_jump i instr ≠ None → stack ≠ []) → no_panic (check_continue stack i instr).
Proof.
  intros Hs. unfold check_continue. destruct (back_jump i instr) as [j|]; [|solve_no_panic].
  destruct stack as [|[h lc] stack]; [by destruct Hs|]. simpl. solve_no_panic.
Qed.
Lemma check_break_no_panic stack i instr : no_panic (check_break stack i instr).
Proof. unfold check_break. solve_no_panic. Qed.

Hypothesis offsets_in : ∀ i instr j, c !! i = Some instr → branch_offset instr = Some j → j < length c.

Lemma no_loop_split_no_panic depths stack i instr : depths_ok depths (length c) → c !! i = Some instr →
  no_panic (check_no_loop_split labels depths stack i instr).
Proof.
  intros [Hlen Hd] Hi. unfold check_no_loop_split. destruct (forward_jump i instr) as [j|] eqn:Hj; [|solve_no_panic].
  assert (Hjc : j < length c).
  { unfold forward_jump in Hj. destruct (branch_offset instr) as [j'|] eqn:Hb; [|done].
    destruct (Nat.leb_spec j' i); [done|]. injection Hj as <-. by eapply offsets_in. }
  destruct (is_break stack j); [solve_no_panic|].
  destruct (lookup_lt_is_Some_2 depths i) as [before Hbefore]; [rewrite Hlen; by eapply lookup_lt_Some|].
  destruct (lookup_lt_is_Some_2 labels j) as [label Hlab]; [by rewrite labels_len|].
  destruct (lookup_lt_is_Some_2 depths j) as [depth Hdepth]; [by rewrite Hlen|].
  apply at_index_ok in Hbefore as ->. rewrite (proj2 (at_index_ok _ _ _) Hlab), (proj2 (at_index_ok _ _ _) Hdepth). cbn [r_bind].
  destruct label as [lc|]; [|solve_no_panic]. specialize (Hd j lc depth Hlab Hdepth).
  destruct depth; [lia|]. simpl. solve_no_panic.
Qed.

(** The analysis of loops has no index out of range, no empty stack and no underflow. *)
Lemma control_flow_no_panic : no_panic (control_flow_verify c).
Proof.
  unfold control_flow_verify. destruct (last c) as [b|]; [|solve_no_panic].
  destruct (negb (is_unconditional_branch b)); [solve_no_panic|]. unfold check_jumps.
  apply no_panic_bind; [apply check_code_no_panic; intros; by apply check_continue_no_panic|]. intros [].
  apply no_panic_bind; [apply check_code_no_panic; intros; apply check_break_no_panic|]. intros [].
  destruct count_loop_depth_ok as (depths & -> & Hd). simpl.
  apply check_code_no_panic. intros. by apply no_loop_split_no_panic.
Qed.
End loops.
