(* ===== verification/TypeFacts.v ===== *)
(** * TypeFacts: what the passes over tables and types establish

    A module or script that passes the bounds check has well-formed types: their struct handles
    exist and have the right number of arguments.  On such types the computation of abilities,
    substitution and the signature pass do not panic.  An instantiation whose arguments have the
    abilities that the constraints ask for has all the abilities of the generic type, so that
    what the verifier concludes for a generic function holds for its instances. *)

From S2P Require Import Prelude FileFormat CodeFlow BoundsCheck Declarations TypeSafety CodeFlowFacts.

Local Open Scope nat_scope.

(** ** Induction over types *)

Section induction.
Context (P : SignatureToken → Prop).
Context (HBool : P Bool) (HU8 : P U8) (HU64 : P U64) (HU128 : P U128) (HAddress : P Address) (HSigner : P Signer).
Context (HVector : ∀ t, P t → P (Vector t)) (HStruct : ∀ i, P (Struct i)).
Context (HInst : ∀ i ts, Forall P ts → P (StructInstantiation i ts)).
Context (HRef : ∀ t, P t → P (Reference t)) (HMut : ∀ t, P t → P (MutableReference t)) (HParam : ∀ i, P (TypeParameter i)).

Fixpoint token_ind (t : SignatureToken) : P t :=
  match t with
  | Bool => HBool | U8 => HU8 | U64 => HU64 | U128 => HU128 | Address => HAddress | Signer => HSigner
  | Vector t => HVector t (token_ind t)
  | Struct i => HStruct i
  | StructInstantiation i ts =>
      HInst i ts ((fix go ts : Forall P ts :=
                     match ts with [] => Forall_nil_2 P | t :: ts => Forall_cons_2 P t ts (token_ind t) (go ts) end) ts)
  | Reference t => HRef t (token_ind t)
  | MutableReference t => HMut t (token_ind t)
  | TypeParameter i => HParam i
  end.
End induction.

(** ** Tables *)

Lemma bounds_ok len idx u : check_bounds_impl len idx = Ok u → idx < len.
Proof. unfold check_bounds_impl. intros H%ensure_ok. by apply Nat.ltb_lt. Qed.
Lemma bounds_opt_ok {A} (pool : list A) idx u : check_bounds_impl_opt (Some pool) idx = Ok u → idx < length pool.
Proof. apply bounds_ok. Qed.
Lemma at_index_lt {A} (l : list A) i : i < length l → ∃ x, at_index l i = Ok x ∧ l !! i = Some x.
Proof. intros [x Hx]%lookup_lt_is_Some_2. exists x. split; [by apply at_index_ok|done]. Qed.
Lemma at_index_no_panic {A} (l : list A) i : i < length l → no_panic (at_index l i).
Proof. intros (x & -> & _)%at_index_lt. apply no_panic_Ok. Qed.
Lemma r_for_elem {E A} (f : A → Result E unit) l u x : r_for f l = Ok u → x ∈ l → f x = Ok ().
Proof. destruct u. intros H%r_for_ok Hx. by eapply Forall_forall in H. Qed.
Lemma r_for_lookup {E A} (f : A → Result E unit) l u i x : r_for f l = Ok u → l !! i = Some x → f x = Ok ().
Proof. intros H Hx. eapply r_for_elem; [done|by eapply list_elem_of_lookup_2]. Qed.

Lemma r_collect_ok {E A B} (f : A → Result E B) l : (∀ x, x ∈ l → ∃ y, f x = Ok y) →
  ∃ ys, r_collect f l = Ok ys ∧ Forall2 (λ x y, f x = Ok y) l ys.
Proof.
  induction l as [|x l IH]; intros H; [by exists []|].
  destruct (H x) as [y Hy]; [by left|]. destruct IH as (ys & Hys & HF); [intros; apply H; by right|].
  exists (y :: ys). change (r_collect f (x :: l)) with (let? y := f x in let? ys := r_collect f l in Ok (y :: ys)).
  rewrite Hy, Hys. simpl. auto.
Qed.
Lemma r_collect_inv {E A B} (f : A → Result E B) l ys : r_collect f l = Ok ys → Forall2 (λ x y, f x = Ok y) l ys.
Proof.
  revert ys. induction l as [|x l IH]; intros ys H; [by injection H as <-|].
  change (r_collect f (x :: l)) with (let? y := f x in let? ys := r_collect f l in Ok (y :: ys)) in H.
  r_inv H. auto.
Qed.
Lemma r_collect_no_panic {E A B} (f : A → Result E B) l : (∀ x, x ∈ l → no_panic (f x)) → no_panic (r_collect f l).
Proof.
  induction l as [|x l IH]; intros H; [apply no_panic_Ok|].
  change (r_collect f (x :: l)) with (let? y := f x in let? ys := r_collect f l in Ok (y :: ys)).
  apply no_panic_bind; [apply H; by left|]. intros y. apply no_panic_bind; [|intros; apply no_panic_Ok].
  apply IH. intros; apply H. by right.
Qed.

(** ** Well-formed types *)

Section view.
Context (view : BinaryIndexedView).

Definition token_wf (n : nat) (t : SignatureToken) : Prop :=
  check_type_token view t = Ok () ∧ check_type_parameter_token n t = Ok ().
(** The struct handles of the type exist and have their arguments, its parameters are below [n]. *)
Definition type_wf (n : nat) (t : SignatureToken) : Prop := Forall (token_wf n) (preorder_traversal t).

Lemma check_type_wf n t u u' : check_type view t = Ok u → check_type_parameter n t = Ok u' → type_wf n t.
Proof. destruct u, u'. unfold check_type, check_type_parameter, type_wf. rewrite !r_for_ok, !Forall_forall. unfold token_wf. auto. Qed.

Lemma wf_prim n t : match t with Bool | U8 | U64 | U128 | Address | Signer => True | _ => False end → type_wf n t.
Proof. intros Ht. unfold type_wf. by destruct t; try destruct Ht; repeat constructor. Qed.
Lemma wf_vector n t : type_wf n (Vector t) ↔ type_wf n t.
Proof. unfold type_wf. simpl. rewrite Forall_cons. split; [by intros [_ ?]|by intros ?]. Qed.
Lemma wf_reference n t : type_wf n (Reference t) ↔ type_wf n t.
Proof. unfold type_wf. simpl. rewrite Forall_cons. split; [by intros [_ ?]|by intros ?]. Qed.
Lemma wf_mutable_reference n t : type_wf n (MutableReference t) ↔ type_wf n t.
Proof. unfold type_wf. simpl. rewrite Forall_cons. split; [by intros [_ ?]|by intros ?]. Qed.
Lemma wf_parameter n i : type_wf n (TypeParameter i) ↔ i < n.
Proof.
  unfold type_wf. simpl. rewrite Forall_singleton. unfold token_wf. simpl. destruct (Nat.leb_spec n i); (split; [|intros; split]); done || (try lia); by intros [_ [=]].
Qed.
Lemma wf_struct n i : type_wf n (Struct i) ↔ ∃ sh, view_struct_handles view !! i = Some sh ∧ sh_type_parameters sh = [].
Proof.
  unfold type_wf. simpl. rewrite Forall_singleton. unfold token_wf. simpl. unfold check_bounds_impl.
  split.
  - intros [H _]. r_inv H. apply Nat.ltb_lt, lookup_lt_is_Some_2 in Hs as [sh Hsh]. rewrite Hsh in H. exists sh. split; [done|].
    destruct (sh_type_parameters sh); [done|]. done.
  - intros (sh & Hsh & Htp). rewrite Hsh, Htp. pose proof (lookup_lt_Some _ _ _ Hsh) as Hlt.
    rewrite (proj2 (Nat.ltb_lt _ _) Hlt). done.
Qed.
Lemma wf_instantiation n i ts : type_wf n (StructInstantiation i ts) ↔
  (∃ sh, view_struct_handles view !! i = Some sh ∧ length (sh_type_parameters sh) = length ts) ∧ Forall (type_wf n) ts.
Proof.
  unfold type_wf at 1. simpl. rewrite Forall_cons, Forall_concat, Forall_map. unfold token_wf at 1. simpl. unfold check_bounds_impl.
  split.
  - intros [[H _] HF]. split; [|done]. r_inv H. apply Nat.ltb_lt, lookup_lt_is_Some_2 in Hs as [sh Hsh]. rewrite Hsh in H.
    exists sh. split; [done|]. destruct (Nat.eqb_spec (length (sh_type_parameters sh)) (length ts)); done.
  - intros [(sh & Hsh & Htp) HF]. split; [|done]. rewrite Hsh, Htp, Nat.eqb_refl. pose proof (lookup_lt_Some _ _ _ Hsh) as Hlt.
    rewrite (proj2 (Nat.ltb_lt _ _) Hlt). done.
Qed.
Lemma wf_mono n n' t : n ≤ n' → type_wf n t → type_wf n' t.
Proof.
  intros Hle. unfold type_wf. rewrite !Forall_forall. intros H x Hx. destruct (H x Hx) as [H1 H2]. split; [done|].
  destruct x; [done..|]. simpl in *. destruct (Nat.leb_spec n idx), (Nat.leb_spec n' idx); done || lia.
Qed.

Ltac wf_inv := repeat match goal with
  | H : type_wf _ (Vector _) |- _ => apply (proj1 (wf_vector _ _)) in H
  | H : type_wf _ (Reference _) |- _ => apply (proj1 (wf_reference _ _)) in H
  | H : type_wf _ (MutableReference _) |- _ => apply (proj1 (wf_mutable_reference _ _)) in H
  | H : type_wf _ (TypeParameter _) |- _ => apply (proj1 (wf_parameter _ _)) in H
  | H : type_wf _ (Struct _) |- _ => apply (proj1 (wf_struct _ _)) in H as (? & ? & ?)
  | H : type_wf _ (StructInstantiation _ _) |- _ => apply (proj1 (wf_instantiation _ _ _)) in H as [(? & ? & ?) ?]
  end.

(** ** Abilities *)

Lemma abilities_ok cs t : type_wf (length cs) t → ∃ a, abilities view t cs = Ok a.
Proof.
  induction t using token_ind; intros Hwf; wf_inv; simpl; try (by eexists).
  - destruct (IHt Hwf) as [a ->]. simpl. unfold polymorphic_abilities. simpl. eauto.
  - unfold struct_handle_at. rewrite (proj2 (at_index_ok _ _ _) H). simpl. eauto.
  - unfold struct_handle_at. rewrite (proj2 (at_index_ok _ _ _) H0). cbn [r_bind].
    destruct (r_collect_ok (λ arg, abilities view arg cs) ts) as (ys & -> & HF).
    { intros t Ht. rewrite Forall_forall in H, H2. by apply H, H2. }
    cbn [r_bind]. unfold polymorphic_abilities. rewrite length_fmap, <- (Forall2_length _ _ _ HF), H1, Nat.eqb_refl. simpl. eauto.
  - destruct (at_index_lt cs i Hwf) as (a & -> & _). eauto.
Qed.

(** ** Substitution *)

(** [instantiate], as a total function. *)
Fixpoint subst (args : Signature) (t : SignatureToken) : SignatureToken :=
  match t with
  | Vector t => Vector (subst args t)
  | StructInstantiation i ts => StructInstantiation i (subst args <$> ts)
  | Reference t => Reference (subst args t)
  | MutableReference t => MutableReference (subst args t)
  | TypeParameter i => default (TypeParameter i) (args !! i)
  | _ => t
  end.

Lemma instantiate_inv args t t' : instantiate args t = Ok t' → t' = subst args t.
Proof.
  revert t'. induction t using token_ind; intros t' Hi; simpl in Hi; r_inv Hi; simpl; try done; try (by f_equal; auto).
  - f_equal. apply r_collect_inv in Hs. induction Hs as [|x y l k Hxy _ IH]; [done|]. inversion H; subst.
    simpl. f_equal; auto.
  - apply at_index_ok in Hi. by rewrite Hi.
Qed.

Lemma instantiate_ok args n t : type_wf (length args) t → Forall (type_wf n) args →
  instantiate args t = Ok (subst args t) ∧ type_wf n (subst args t).
Proof.
  intros Hwf Hargs. enough (H : (∃ t', instantiate args t = Ok t') ∧ type_wf n (subst args t)).
  { destruct H as [[t' Ht'] ?]. split; [|done]. by rewrite Ht', <- (instantiate_inv _ _ _ Ht'). }
  induction t using token_ind; wf_inv; simpl; try (split; [by eauto|by apply wf_prim]).
  - destruct (IHt Hwf) as [[t' ->] ?]. split; [by eexists|by apply wf_vector].
  - split; [by eauto|]. apply wf_struct. eauto.
  - destruct (r_collect_ok (instantiate args) ts) as (ys & -> & _).
    { intros t Ht. rewrite Forall_forall in H, H2. apply H; auto. }
    split; [by eexists|]. apply wf_instantiation. split; [exists x; by rewrite length_fmap|].
    apply Forall_fmap. rewrite Forall_forall in *. intros t Ht. by apply H; auto.
  - destruct (IHt Hwf) as [[t' ->] ?]. split; [by eexists|by apply wf_reference].
  - destruct (IHt Hwf) as [[t' ->] ?]. split; [by eexists|by apply wf_mutable_reference].
  - destruct (at_index_lt args i Hwf) as (a & -> & Ha). rewrite Ha. split; [by eauto|]. by eapply Forall_lookup_1.
Qed.

(** ** What the bounds check establishes *)

Record tables_ok : Prop := {
  ok_signature sig t : sig ∈ view_signatures view → t ∈ sig → check_type view t = Ok ();
  ok_constant k : k ∈ view_constant_pool view → check_type view (type_ k) = Ok ();
  ok_function_handle fh : fh ∈ view_function_handles view →
    ∃ ps rs, view_signatures view !! fh_parameters fh = Some ps ∧ view_signatures view !! fh_return fh = Some rs ∧
      Forall (type_wf (length (fh_type_parameters fh))) ps ∧ Forall (type_wf (length (fh_type_parameters fh))) rs;
  ok_struct_def ds d : view_struct_defs view = Some ds → d ∈ ds →
    ∃ sh, view_struct_handles view !! struct_handle d = Some sh ∧
      ∀ fields, field_information d = Declared fields →
        Forall (λ f, type_wf (length (sh_type_parameters sh)) (fd_signature f)) fields;
  ok_field_handle hs h : view_field_handles view = Some hs → h ∈ hs →
    ∃ ds d fields f, view_struct_defs view = Some ds ∧ ds !! owner h = Some d ∧
      field_information d = Declared fields ∧ fields !! field h = Some f;
  ok_struct_instantiation il i : view_struct_instantiations view = Some il → i ∈ il →
    ∃ ds d sig, view_struct_defs view = Some ds ∧ ds !! sdi_def i = Some d ∧
      view_signatures view !! sdi_type_parameters i = Some sig;
  ok_function_instantiation i : i ∈ view_function_instantiations view →
    ∃ fh sig, view_function_handles view !! fi_handle i = Some fh ∧ view_signatures view !! fi_type_parameters i = Some sig;
  ok_field_instantiation il i : view_field_instantiations view = Some il → i ∈ il →
    ∃ hs h sig, view_field_handles view = Some hs ∧ hs !! fdi_handle i = Some h ∧
      view_signatures view !! fdi_type_parameters i = Some sig;
}.

Lemma signature_parameters_ok n idx sig u :
  (∀ sig t, sig ∈ view_signatures view → t ∈ sig → check_type view t = Ok ()) →
  view_signatures view !! idx = Some sig → check_signature_parameters view n idx = Ok u → Forall (type_wf n) sig.
Proof.
  intros Hsigs Hsig H. unfold check_signature_parameters in H. rewrite Hsig in H. apply Forall_forall. intros t Ht.
  eapply check_type_wf; [|by eapply r_for_elem]. eapply Hsigs; [by eapply list_elem_of_lookup_2|done].
Qed.

Ltac bounds_inv :=
  repeat match goal with
    | H : check_bounds_impl (length _) _ = Ok _ |- _ => apply bounds_ok, lookup_lt_is_Some_2 in H as [? H]
    | H : check_bounds_impl_opt (Some _) _ = Ok _ |- _ => apply bounds_opt_ok, lookup_lt_is_Some_2 in H as [? H]
    end.

Lemma verify_impl_ok u : verify_impl view = Ok u → tables_ok.
Proof.
  unfold verify_impl. intros H. r_inv H. rename Hs4 into Hfh, Hs5 into Hfieldh, Hs7 into Hsi, Hs8 into Hfi, Hs9 into Hfdi, Hs10 into Hsd.
  assert (Hsigs : ∀ sig t, sig ∈ view_signatures view → t ∈ sig → check_type view t = Ok ()).
  { intros sig t Hsig Ht. eapply r_for_elem; [|done]. exact (r_for_elem _ _ _ _ Hs Hsig). }
  constructor.
  - done.
  - intros k Hk. exact (r_for_elem _ _ _ _ Hs0 Hk).
  - clear -Hfh Hsigs. intros fh Hin. pose proof (r_for_elem _ _ _ _ Hfh Hin) as Hx. unfold check_function_handle in Hx.
    r_inv Hx. bounds_inv. eexists _, _. split_and!; [done|done|by eapply signature_parameters_ok..].
  - clear -Hsd. intros ds d Hds Hin. rewrite Hds in Hsd. pose proof (r_for_elem _ _ _ _ Hsd Hin) as Hx.
    unfold check_struct_def in Hx. r_inv Hx. bounds_inv. eexists. split; [done|]. intros fields Hf.
    rewrite Hf, Hs in Hx. apply Forall_forall. intros f Hff. pose proof (r_for_elem _ _ _ _ Hx Hff) as Hy. r_inv Hy.
    by eapply check_type_wf.
  - clear -Hfieldh. intros hs h Hhs Hin. rewrite Hhs in Hfieldh. pose proof (r_for_elem _ _ _ _ Hfieldh Hin) as Hx.
    unfold check_field_handle in Hx. r_inv Hx. destruct view as [m|sc]; [|done]. simpl in *. bounds_inv. rewrite Hs in Hx.
    unfold field_count in Hx. destruct (Nat.leb_spec (match field_information x with Native => 0 | Declared fields => length fields end) (field h));
      [done|]. destruct (field_information x) as [|fields] eqn:Hf; [lia|]. apply lookup_lt_is_Some_2 in H as [f Hlf]. eauto 10.
  - clear -Hsi. intros il i Hil Hin. rewrite Hil in Hsi. pose proof (r_for_elem _ _ _ _ Hsi Hin) as Hx.
    unfold check_struct_instantiation in Hx. r_inv Hx. destruct view as [m|sc]; [|done]. simpl in *. bounds_inv. eauto 10.
  - clear -Hfi. intros i Hin. pose proof (r_for_elem _ _ _ _ Hfi Hin) as Hx.
    unfold check_function_instantiation in Hx. r_inv Hx. bounds_inv. eauto 10.
  - clear -Hfdi. intros il i Hil Hin. rewrite Hil in Hfdi. pose proof (r_for_elem _ _ _ _ Hfdi Hin) as Hx.
    unfold check_field_instantiation in Hx. r_inv Hx. destruct view as [m|sc]; [|done]. simpl in *. bounds_inv. eauto 10.
Qed.
End view.

Local Open Scope Z_scope.

(** ** Sets of abilities *)

Definition sub_abilities (s t : AbilitySet) : Prop := Z.land s t = s.
Infix "⊑a" := sub_abilities (at level 70).

Lemma is_subset_spec s t : is_subset s t = true ↔ s ⊑a t.
Proof. unfold is_subset. apply Z.eqb_eq. Qed.
Lemma has_ability_spec s a : has_ability s a = true ↔ ability_bits a ⊑a s.
Proof. unfold has_ability. apply Z.eqb_eq. Qed.

Global Instance sub_abilities_preorder : PreOrder sub_abilities.
Proof.
  split; [intros s; apply Z.land_diag|]. unfold sub_abilities. intros s t u H1 H2. rewrite <- H1 at 1. rewrite <- Z.land_assoc, H2. done.
Qed.
Lemma land_mono s s' t t' : s ⊑a s' → t ⊑a t' → Z.land s t ⊑a Z.land s' t'.
Proof.
  unfold sub_abilities. intros H1 H2. rewrite <- H1, <- H2 at 2. apply Z.bits_inj'. intros n _. rewrite !Z.land_spec.
  rewrite <- H1, <- H2, !Z.land_spec. destruct (Z.testbit s n), (Z.testbit s' n), (Z.testbit t n), (Z.testbit t' n); done.
Qed.
Lemma lor_upper_l s t : s ⊑a Z.lor s t.
Proof.
  unfold sub_abilities. apply Z.bits_inj'. intros n _. rewrite Z.land_spec, Z.lor_spec. by destruct (Z.testbit s n).
Qed.
Lemma lor_upper_r s t : t ⊑a Z.lor s t.
Proof. rewrite Z.lor_comm. apply lor_upper_l. Qed.
Lemma lor_least s t u : s ⊑a u → t ⊑a u → Z.lor s t ⊑a u.
Proof. unfold sub_abilities. intros H1 H2. by rewrite Z.land_lor_distr_l, H1, H2. Qed.

Lemma has_ability_mono s t a : s ⊑a t → has_ability s a = true → has_ability t a = true.
Proof. rewrite !has_ability_spec. intros H1 H2. by etrans. Qed.

Lemma fold_lor_upper (l : list AbilitySet) acc x : x = acc ∨ x ∈ l → x ⊑a fold_left Z.lor l acc.
Proof.
  revert acc x. induction l as [|y l IH]; intros acc x Hx; simpl.
  - destruct Hx as [->|?%elem_of_nil]; [reflexivity|done].
  - destruct Hx as [->|[->|Hx]%elem_of_cons]; [etrans; [|apply IH; by left]; apply lor_upper_l
      |etrans; [|apply IH; by left]; apply lor_upper_r|apply IH; by right].
Qed.
Lemma fold_lor_least (l : list AbilitySet) acc u : acc ⊑a u → (∀ x, x ∈ l → x ⊑a u) → fold_left Z.lor l acc ⊑a u.
Proof.
  revert acc. induction l as [|y l IH]; intros acc Hacc Hl; simpl; [done|].
  apply IH; [apply lor_least; [done|apply Hl; by left]|]. intros x Hx. apply Hl. by right.
Qed.
Lemma fold_land_mono (l k : list AbilitySet) s t : s ⊑a t → Forall2 sub_abilities l k → fold_left Z.land l s ⊑a fold_left Z.land k t.
Proof. intros Hst HF. revert s t Hst. induction HF; intros s t Hst; simpl; [done|]. apply IHHF. by apply land_mono. Qed.

Lemma abilities_of_elem s a : a ∈ abilities_of s ↔ has_ability s a = true.
Proof. unfold abilities_of. rewrite list_elem_of_filter. split; [by intros [? _]|]. intros H. split; [done|]. destruct a; set_solver. Qed.

Lemma required_mono s t : s ⊑a t →
  fold_left Z.lor (required_by <$> abilities_of s) EMPTY ⊑a fold_left Z.lor (required_by <$> abilities_of t) EMPTY.
Proof.
  intros Hst. apply fold_lor_least; [apply fold_lor_upper; by left|]. intros x (a & -> & Ha)%list_elem_of_fmap.
  apply fold_lor_upper. right. apply list_elem_of_fmap_2. apply abilities_of_elem. eapply has_ability_mono; [done|]. by apply abilities_of_elem.
Qed.

Lemma polymorphic_mono d ph args args' a : Forall2 sub_abilities args args' → polymorphic_abilities d ph args = Ok a →
  ∃ a', polymorphic_abilities d ph args' = Ok a' ∧ a ⊑a a'.
Proof.
  intros HF. unfold polymorphic_abilities. rewrite <- (Forall2_length _ _ _ HF). destruct (negb _); [done|]. intros [= <-].
  eexists. split; [done|]. apply fold_land_mono; [done|]. revert ph.
  induction HF as [|x y xs ys Hxy _ IH]; intros [|p ph]; simpl; [constructor..|].
  rewrite !filter_cons. simpl. case_decide; simpl; [|apply IH]. constructor; [by apply required_mono|apply IH].
Qed.

(** ** Instantiation *)

Section view.
Context (view : BinaryIndexedView).

(** The arguments have the abilities of the constraints. *)
Definition args_ok (args : Signature) (cs : list AbilitySet) : Prop :=
  Forall2 (λ arg c, type_wf view 0 arg ∧ ∃ a, abilities view arg [] = Ok a ∧ c ⊑a a) args cs.

Lemma args_ok_length args cs : args_ok args cs → length args = length cs.
Proof. apply Forall2_length. Qed.
Lemma args_ok_wf args cs : args_ok args cs → Forall (type_wf view 0) args.
Proof. unfold args_ok. induction 1 as [|arg c args cs [Hw _] _ IH]; constructor; done. Qed.
Lemma subst_wf args cs t : args_ok args cs → type_wf view (length cs) t → type_wf view 0 (subst args t).
Proof. intros Ha Ht. rewrite <- (args_ok_length _ _ Ha) in Ht. by eapply instantiate_ok, args_ok_wf. Qed.

Lemma collect_mono cs args ts as_ : args_ok args cs → Forall (type_wf view (length cs)) ts →
  Forall (λ t, ∀ a, abilities view t cs = Ok a → ∃ a', abilities view (subst args t) [] = Ok a' ∧ a ⊑a a') ts →
  r_collect (λ t, abilities view t cs) ts = Ok as_ →
  ∃ as', r_collect (λ t, abilities view t []) (subst args <$> ts) = Ok as' ∧ Forall2 sub_abilities as_ as'.
Proof.
  intros Ha Hw IH H%r_collect_inv. clear Hw. induction H as [|t a ts as0 Hta _ IHt]; [by exists []|].
  apply Forall_cons in IH as [IH1 IH2]. destruct (IH1 a Hta) as (a' & Ha' & Hle). destruct (IHt IH2) as (as' & Has' & HF).
  exists (a' :: as'). split; [|by constructor].
  change (r_collect (λ t, abilities view t []) (subst args <$> t :: ts)) with
    (let? y := abilities view (subst args t) [] in let? ys := r_collect (λ t, abilities view t []) (subst args <$> ts) in Ok (y :: ys)).
  by rewrite Ha', Has'.
Qed.

Lemma abilities_subst args cs t a : args_ok args cs → type_wf view (length cs) t → abilities view t cs = Ok a →
  ∃ a', abilities view (subst args t) [] = Ok a' ∧ a ⊑a a'.
Proof.
  intros Ha. revert a. induction t using token_ind; intros a Hw H'; simpl in *; try (injection H' as <-; eexists; split; [done|reflexivity]).
  - r_inv H'. destruct (IHt a0) as (a' & -> & Hle); [by apply (proj1 (wf_vector _ _ _))|done|]. simpl.
    eapply polymorphic_mono; [|done]. by repeat constructor.
  - eexists. split; [done|reflexivity].
  - apply (proj1 (wf_instantiation _ _ _ _)) in Hw as [_ Hw]. r_inv H'. rewrite Hs. cbn [r_bind].
    destruct (collect_mono cs args ts a1 Ha Hw) as (as' & -> & HF); [|done|by eapply polymorphic_mono].
    rewrite Forall_forall in *. intros t Ht a2 Ha2. by apply H; auto.
  - apply at_index_ok in H'. destruct (Forall2_lookup_r _ _ _ _ _ Ha H') as (arg & Harg & _ & a' & Ha' & Hle).
    rewrite Harg. simpl. eauto.
Qed.

(** ** Composition *)

Lemma subst_subst args1 args2 t : type_wf view (length args2) t → subst args1 (subst args2 t) = subst (subst args1 <$> args2) t.
Proof.
  induction t using token_ind; intros Hw; simpl; try done; try (f_equal; by apply IHt, Hw).
  - f_equal. apply IHt. by apply (proj1 (wf_vector _ _ _)).
  - f_equal. apply (proj1 (wf_instantiation _ _ _ _)) in Hw as [_ Hw]. rewrite <- list_fmap_compose. apply list_fmap_ext.
    intros i' t Ht. simpl. rewrite Forall_forall in *. apply list_elem_of_lookup_2 in Ht. auto.
  - f_equal. apply IHt. by apply (proj1 (wf_reference _ _ _)).
  - f_equal. apply IHt. by apply (proj1 (wf_mutable_reference _ _ _)).
  - apply (proj1 (wf_parameter _ _ _)) in Hw. destruct (lookup_lt_is_Some_2 _ _ Hw) as [t Ht]. rewrite list_lookup_fmap, Ht. done.
Qed.
Lemma subst_closed args t : type_wf view 0 t → subst args t = t.
Proof.
  induction t using token_ind; intros Hw; simpl; try done.
  - f_equal. apply IHt. by apply (proj1 (wf_vector _ _ _)).
  - f_equal. apply (proj1 (wf_instantiation _ _ _ _)) in Hw as [_ Hw]. rewrite <- (list_fmap_id ts) at 2. apply list_fmap_ext.
    intros i' t Ht. simpl. rewrite Forall_forall in *. apply list_elem_of_lookup_2 in Ht. auto.
  - f_equal. apply IHt. by apply (proj1 (wf_reference _ _ _)).
  - f_equal. apply IHt. by apply (proj1 (wf_mutable_reference _ _ _)).
  - apply (proj1 (wf_parameter _ _ _)) in Hw. lia.
Qed.
End view.
