(* ===== verification/VerifierFacts.v ===== *)
(** * VerifierFacts: the passes over code find what they look up

    For code that passed the bounds check, the signature check and the consistency check, every
    table access of an instruction succeeds, and the types it finds are well formed: this is what
    the stack usage, type safety and locals safety passes rely on. *)

From S2P Require Import Prelude FileFormat CodeFlow BoundsCheck Declarations TypeSafety.
From S2P Require Import LocalsSafety CodeFlowFacts TypeFacts.

Local Open Scope nat_scope.

(** The indices of the locals that an instruction uses. *)
Definition local_index (instr : Bytecode) : option nat :=
  match instr with
  | Bytecode.CopyLoc idx | Bytecode.MoveLoc idx | Bytecode.StLoc idx
  | Bytecode.MutBorrowLoc idx | Bytecode.ImmBorrowLoc idx => Some idx
  | _ => None
  end.

(** What the passes over tables establish for a function. *)
Record code_checked (view : BinaryIndexedView) (fv : FunctionView) : Prop := {
  checked_tables : tables_ok view;
  checked_bounds i : i ∈ fv_code fv →
    check_bytecode view (length (fv_code fv)) (length (fv_locals fv) + length (fv_parameters fv))
      (length (fv_type_parameters fv)) i = Ok ();
  checked_signature i : i ∈ fv_code fv → verify_bytecode view (fv_type_parameters fv) i = Ok ();
  checked_consistent i : i ∈ fv_code fv → check_instruction view i = Ok ();
  checked_constants k : k ∈ view_constant_pool view → is_valid_for_constant (type_ k) = true;
  checked_parameters : Forall (type_wf view (length (fv_type_parameters fv))) (fv_parameters fv);
  checked_locals : Forall (type_wf view (length (fv_type_parameters fv))) (fv_locals fv);
  checked_return : Forall (type_wf view (length (fv_type_parameters fv))) (fv_return fv);
}.

Section code.
Context (view : BinaryIndexedView) (fv : FunctionView) (Hc : code_checked view fv).
Local Abbreviation n := (length (fv_type_parameters fv)).
Local Abbreviation wf := (type_wf view n).
Let Ht : tables_ok view := checked_tables _ _ Hc.

(** A definition used with type arguments: they are as many as its parameters, and its fields
    only mention these. *)
Definition struct_use (d : StructDefinition) (targs : Signature) : Prop :=
  Forall wf targs ∧
  ∃ sh, view_struct_handles view !! struct_handle d = Some sh ∧ length (sh_type_parameters sh) = length targs ∧
    ∀ fields, field_information d = Declared fields → Forall (λ f, type_wf view (length targs) (fd_signature f)) fields.

Lemma materialize_wf d targs : struct_use d targs → wf (materialize_type (struct_handle d) targs).
Proof.
  intros (Hargs & sh & Hsh & Hlen & _). unfold materialize_type. destruct targs as [|t targs].
  - apply wf_struct. exists sh. split; [done|]. by destruct (sh_type_parameters sh).
  - apply wf_instantiation. eauto.
Qed.

Lemma fields_ok d targs fields : struct_use d targs → field_information d = Declared fields →
  Forall (λ f, instantiate targs (fd_signature f) = Ok (subst targs (fd_signature f)) ∧ wf (subst targs (fd_signature f))) fields.
Proof.
  intros (Hargs & sh & Hsh & Hlen & Hf) Hd. eapply Forall_impl; [by apply Hf|]. intros f Hwf. by apply instantiate_ok.
Qed.

(** ** Structs *)

Definition struct_op (instr : Bytecode) : option nat :=
  match instr with
  | Bytecode.Pack idx | Bytecode.Unpack idx | Bytecode.Exists idx | Bytecode.ImmBorrowGlobal idx
  | Bytecode.MutBorrowGlobal idx | Bytecode.MoveFrom idx | Bytecode.MoveTo idx => Some idx
  | _ => None
  end.
Definition generic_struct_op (instr : Bytecode) : option nat :=
  match instr with
  | Bytecode.PackGeneric idx | Bytecode.UnpackGeneric idx | Bytecode.ExistsGeneric idx
  | Bytecode.ImmBorrowGlobalGeneric idx | Bytecode.MutBorrowGlobalGeneric idx
  | Bytecode.MoveFromGeneric idx | Bytecode.MoveToGeneric idx => Some idx
  | _ => None
  end.
Definition vector_op (instr : Bytecode) : option nat :=
  match instr with
  | Bytecode.VecPack idx _ | Bytecode.VecLen idx | Bytecode.VecImmBorrow idx | Bytecode.VecMutBorrow idx
  | Bytecode.VecPushBack idx | Bytecode.VecPopBack idx | Bytecode.VecUnpack idx _ | Bytecode.VecSwap idx => Some idx
  | _ => None
  end.
Definition field_op (instr : Bytecode) : option nat :=
  match instr with Bytecode.MutBorrowField idx | Bytecode.ImmBorrowField idx => Some idx | _ => None end.
Definition generic_field_op (instr : Bytecode) : option nat :=
  match instr with Bytecode.MutBorrowFieldGeneric idx | Bytecode.ImmBorrowFieldGeneric idx => Some idx | _ => None end.

Lemma use_of_def ds idx d targs sh : view_struct_defs view = Some ds → ds !! idx = Some d →
  view_struct_handles view !! struct_handle d = Some sh → length (sh_type_parameters sh) = length targs →
  Forall wf targs → struct_use d targs.
Proof.
  intros Hds Hd Hsh Hlen Hargs. split; [done|]. exists sh. split_and!; [done|done|]. rewrite <- Hlen.
  destruct (ok_struct_def _ Ht ds d Hds) as (sh' & Hsh' & Hf); [by eapply list_elem_of_lookup_2|].
  assert (sh' = sh) as -> by congruence. done.
Qed.

Lemma check_type_op_ok ds idx d b : view_struct_defs view = Some ds → ds !! idx = Some d → check_type_op view idx b = Ok () →
  ∃ sh, view_struct_handles view !! struct_handle d = Some sh ∧ (b = false → sh_type_parameters sh = []).
Proof.
  intros Hds Hd H. unfold check_type_op, struct_def_at, at_index_opt, struct_handle_at in H. rewrite Hds in H. simpl in H.
  rewrite (proj2 (at_index_ok _ _ _) Hd) in H. simpl in H. r_inv H. apply at_index_ok in Hs. eexists. split; [done|].
  intros ->. destruct (sh_type_parameters a); done.
Qed.

Lemma struct_def_ok instr idx : instr ∈ fv_code fv → struct_op instr = Some idx →
  no_panic (struct_def_at view idx) ∧ ∀ d, struct_def_at view idx = Ok d → struct_use d [].
Proof.
  intros Hin Hop. unfold struct_def_at, at_index_opt. destruct (view_struct_defs view) as [ds|] eqn:Hds; [|split; [apply no_panic_Err|done]].
  simpl. pose proof (checked_bounds _ _ Hc _ Hin) as Hb. pose proof (checked_consistent _ _ Hc _ Hin) as Hk.
  assert (Hlt : idx < length ds) by (destruct instr; simplify_eq/=; rewrite Hds in Hb; by eapply bounds_opt_ok).
  assert (Hty : check_type_op view idx false = Ok ()) by (destruct instr; simplify_eq/=; done).
  destruct (at_index_lt ds idx Hlt) as (d & -> & Hd). split; [apply no_panic_Ok|]. intros ? [= <-].
  destruct (check_type_op_ok ds idx d false Hds Hd Hty) as (sh & Hsh & Htp).
  eapply use_of_def; [done|done|done| |done]. by rewrite (Htp eq_refl).
Qed.

Lemma signature_args_ok idx sig : view_signatures view !! idx = Some sig →
  check_signature_parameters view n idx = Ok () → Forall wf sig.
Proof. intros. eapply signature_parameters_ok; [apply Ht|done|done]. Qed.

Lemma generic_instance_ok targs constraints gs : check_generic_instance view targs constraints gs = Ok () →
  length targs = length constraints.
Proof. unfold check_generic_instance. by destruct (Nat.eqb_spec (length targs) (length constraints)). Qed.

Lemma struct_instance_ok instr idx : instr ∈ fv_code fv → generic_struct_op instr = Some idx →
  (∃ e, struct_instantiation_at view idx = Err e) ∨
  ∃ i d targs, struct_instantiation_at view idx = Ok i ∧ struct_def_at view (sdi_def i) = Ok d ∧
    signature_at view (sdi_type_parameters i) = Ok targs ∧ struct_use d targs.
Proof.
  intros Hin Hop. pose proof (checked_bounds _ _ Hc _ Hin) as Hb. pose proof (checked_signature _ _ Hc _ Hin) as Hv.
  unfold struct_instantiation_at, struct_def_at, at_index_opt.
  destruct (view_struct_instantiations view) as [il|] eqn:Hil; [|left; simpl; eauto]. right. cbn [ok_or r_bind].
  assert (Hb' : check_bounds_impl_opt (Some il) idx = Ok () ∧ ∀ i, il !! idx = Some i →
            check_signature_parameters view n (sdi_type_parameters i) = Ok ()).
  { destruct instr; simplify_eq/=; rewrite Hil in Hb; r_inv Hb; destruct a; (split; [done|]); intros i Hi; simpl in Hb;
      rewrite Hi in Hb; done. }
  destruct Hb' as [Hlt Hsig]. apply bounds_opt_ok in Hlt. destruct (at_index_lt il idx Hlt) as (i & -> & Hi).
  destruct (ok_struct_instantiation _ Ht il i Hil) as (ds & d & sig & Hds & Hd & Hsg); [by eapply list_elem_of_lookup_2|].
  exists i, d, sig. rewrite Hds. cbn [ok_or r_bind]. split_and!; [done|by apply at_index_ok..|].
  destruct (ok_struct_def _ Ht ds d Hds) as (sh & Hsh & _); [by eapply list_elem_of_lookup_2|].
  eapply use_of_def; [done|done|done| |by eapply signature_args_ok, Hsig].
  assert (check_generic_instance view sig (type_param_constraints sh) (fv_type_parameters fv) = Ok ()) as Hg%generic_instance_ok.
  { destruct instr; simplify_eq/=; unfold struct_instantiation_at, struct_def_at, at_index_opt, struct_handle_at, signature_at in Hv;
      rewrite Hil, Hds in Hv; simpl in Hv; rewrite (proj2 (at_index_ok _ _ _) Hi) in Hv; simpl in Hv;
      rewrite (proj2 (at_index_ok _ _ _) Hd) in Hv; simpl in Hv; rewrite (proj2 (at_index_ok _ _ _) Hsh) in Hv; simpl in Hv;
      rewrite (proj2 (at_index_ok _ _ _) Hsg) in Hv; simpl in Hv; by r_inv Hv. }
  unfold type_param_constraints in Hg. by rewrite length_fmap in Hg.
Qed.

(** ** Fields *)

(** A field handle used with type arguments. *)
Definition field_use (idx : nat) (targs : Signature) (h : FieldHandle) (d : StructDefinition) (fields : list FieldDefinition)
    (f : FieldDefinition) : Prop :=
  field_handle_at view idx = Ok h ∧ struct_def_at view (owner h) = Ok d ∧ field_information d = Declared fields ∧
  fields !! field h = Some f ∧ struct_use d targs.

Lemma field_def_ok hs idx h : view_field_handles view = Some hs → hs !! idx = Some h →
  ∃ ds d fields f, view_struct_defs view = Some ds ∧ ds !! owner h = Some d ∧ field_handle_at view idx = Ok h ∧
    struct_def_at view (owner h) = Ok d ∧ field_information d = Declared fields ∧ fields !! field h = Some f.
Proof.
  intros Hhs Hh. destruct (ok_field_handle _ Ht hs h Hhs) as (ds & d & fields & f & Hds & Hd & Hfi & Hf); [by eapply list_elem_of_lookup_2|].
  exists ds, d, fields, f. unfold field_handle_at, struct_def_at, at_index_opt. rewrite Hhs, Hds. simpl.
  rewrite (proj2 (at_index_ok _ _ _) Hh), (proj2 (at_index_ok _ _ _) Hd). done.
Qed.

Lemma field_op_ok instr idx : instr ∈ fv_code fv → field_op instr = Some idx →
  (∃ e, field_handle_at view idx = Err e) ∨ ∃ h d fields f, field_use idx [] h d fields f.
Proof.
  intros Hin Hop. pose proof (checked_bounds _ _ Hc _ Hin) as Hb. pose proof (checked_consistent _ _ Hc _ Hin) as Hk.
  destruct (view_field_handles view) as [hs|] eqn:Hhs; cycle 1.
  { left. unfold field_handle_at, at_index_opt. rewrite Hhs. simpl. eauto. }
  right. assert (Hlt : idx < length hs) by (destruct instr; simplify_eq/=; rewrite Hhs in Hb; by eapply bounds_opt_ok).
  apply lookup_lt_is_Some_2 in Hlt as [h Hh].
  destruct (field_def_ok hs idx h Hhs Hh) as (ds & d & fields & f & Hds & Hd & Hfh & Hsd & Hfi & Hf).
  assert (Hty : check_type_op view (owner h) false = Ok ()).
  { destruct instr; simplify_eq/=; unfold check_field_op in Hk; by rewrite Hfh in Hk. }
  destruct (check_type_op_ok ds _ d false Hds Hd Hty) as (sh & Hsh & Htp).
  exists h, d, fields, f. split_and!; [done..|]. eapply use_of_def; [done|done|done| |done]. by rewrite (Htp eq_refl).
Qed.

Lemma field_instance_ok instr idx : instr ∈ fv_code fv → generic_field_op instr = Some idx →
  (∃ e, field_instantiation_at view idx = Err e) ∨
  ∃ i targs h d fields f, field_instantiation_at view idx = Ok i ∧ signature_at view (fdi_type_parameters i) = Ok targs ∧
    field_use (fdi_handle i) targs h d fields f.
Proof.
  intros Hin Hop. pose proof (checked_bounds _ _ Hc _ Hin) as Hb. pose proof (checked_signature _ _ Hc _ Hin) as Hv.
  unfold field_instantiation_at, at_index_opt. destruct (view_field_instantiations view) as [il|] eqn:Hil; [|left; simpl; eauto].
  right. cbn [ok_or r_bind].
  assert (Hb' : check_bounds_impl_opt (Some il) idx = Ok () ∧ ∀ i, il !! idx = Some i →
            check_signature_parameters view n (fdi_type_parameters i) = Ok ()).
  { destruct instr; simplify_eq/=; rewrite Hil in Hb; r_inv Hb; destruct a; (split; [done|]); intros i Hi; simpl in Hb;
      rewrite Hi in Hb; done. }
  destruct Hb' as [Hlt Hsig]. apply bounds_opt_ok in Hlt. destruct (at_index_lt il idx Hlt) as (i & -> & Hi).
  destruct (ok_field_instantiation _ Ht il i Hil) as (hs & h & sig & Hhs & Hh & Hsg); [by eapply list_elem_of_lookup_2|].
  destruct (field_def_ok hs _ h Hhs Hh) as (ds & d & fields & f & Hds & Hd & Hfh & Hsd & Hfi & Hf).
  assert (Hsa : signature_at view (fdi_type_parameters i) = Ok sig) by (by apply at_index_ok).
  exists i, sig, h, d, fields, f. split_and!; [done..|]. split_and!; [done..|].
  destruct (ok_struct_def _ Ht ds d Hds) as (sh & Hsh & _); [by eapply list_elem_of_lookup_2|].
  eapply use_of_def; [done|done|done| |by eapply signature_args_ok, Hsig].
  assert (check_generic_instance view sig (type_param_constraints sh) (fv_type_parameters fv) = Ok ()) as Hg%generic_instance_ok.
  { destruct instr; simplify_eq/=; unfold field_instantiation_at, at_index_opt, struct_handle_at in Hv;
      rewrite Hil in Hv; simpl in Hv; rewrite (proj2 (at_index_ok _ _ _) Hi) in Hv; cbn [r_bind] in Hv; rewrite Hfh in Hv;
      cbn [r_bind] in Hv; rewrite Hsd in Hv; cbn [r_bind] in Hv; rewrite (proj2 (at_index_ok _ _ _) Hsh) in Hv;
      cbn [r_bind] in Hv; rewrite Hsa in Hv; cbn [r_bind] in Hv; by r_inv Hv. }
  unfold type_param_constraints in Hg. by rewrite length_fmap in Hg.
Qed.

(** ** Calls *)

(** A function handle used with type arguments. *)
Definition call_use (fh : FunctionHandle) (targs ps rs : Signature) : Prop :=
  Forall wf targs ∧ signature_at view (fh_parameters fh) = Ok ps ∧ signature_at view (fh_return fh) = Ok rs ∧
  Forall (type_wf view (length targs)) ps ∧ Forall (type_wf view (length targs)) rs.

Lemma use_of_handle idx fh targs : view_function_handles view !! idx = Some fh →
  length (fh_type_parameters fh) = length targs → Forall wf targs → ∃ ps rs, call_use fh targs ps rs.
Proof.
  intros Hfh Hlen Hargs. destruct (ok_function_handle _ Ht fh) as (ps & rs & Hps & Hrs & Hwp & Hwr); [by eapply list_elem_of_lookup_2|].
  exists ps, rs. split_and!; [done|by apply at_index_ok..|by rewrite <- Hlen|by rewrite <- Hlen].
Qed.

Lemma call_ok idx : Bytecode.Call idx ∈ fv_code fv →
  ∃ fh ps rs, function_handle_at view idx = Ok fh ∧ call_use fh [] ps rs.
Proof.
  intros Hin. pose proof (checked_bounds _ _ Hc _ Hin) as Hlt%bounds_ok. pose proof (checked_consistent _ _ Hc _ Hin) as Hk.
  simpl in Hk. unfold check_function_op, function_handle_at in *.
  destruct (at_index_lt _ _ Hlt) as (fh & Ha & Hfh). rewrite Ha in *. cbn [r_bind] in Hk.
  destruct (use_of_handle idx fh []) as (ps & rs & Hu); [done| |done|by eauto]. by destruct (fh_type_parameters fh).
Qed.

Lemma call_generic_ok idx : Bytecode.CallGeneric idx ∈ fv_code fv →
  ∃ i fh targs ps rs, function_instantiation_at view idx = Ok i ∧ function_handle_at view (fi_handle i) = Ok fh ∧
    signature_at view (fi_type_parameters i) = Ok targs ∧ call_use fh targs ps rs.
Proof.
  intros Hin. pose proof (checked_bounds _ _ Hc _ Hin) as Hb. pose proof (checked_signature _ _ Hc _ Hin) as Hv.
  simpl in Hb. r_inv Hb. apply bounds_ok in Hs. unfold function_instantiation_at.
  destruct (at_index_lt _ _ Hs) as (i & Ha & Hi). rewrite Hi in Hb.
  destruct (ok_function_instantiation _ Ht i) as (fh & sig & Hfh & Hsg); [by eapply list_elem_of_lookup_2|].
  assert (Hargs : Forall wf sig) by (by eapply signature_args_ok).
  destruct (use_of_handle _ fh sig Hfh) as (ps & rs & Hu); [|done|].
  2: { exists i, fh, sig, ps, rs. split_and!; [done|by apply at_index_ok..|done]. }
  simpl in Hv. unfold function_instantiation_at, function_handle_at, signature_at in Hv. rewrite Ha in Hv. cbn [r_bind] in Hv.
  rewrite (proj2 (at_index_ok _ _ _) Hfh), (proj2 (at_index_ok _ _ _) Hsg) in Hv. cbn [r_bind] in Hv. r_inv Hv.
  symmetry. by eapply generic_instance_ok.
Qed.

(** ** Vectors, locals, constants, offsets *)

Lemma element_type_ok instr idx : instr ∈ fv_code fv → vector_op instr = Some idx →
  ∃ t, element_type_at view idx = Ok t ∧ wf t.
Proof.
  intros Hin Hop. pose proof (checked_bounds _ _ Hc _ Hin) as Hb. pose proof (checked_signature _ _ Hc _ Hin) as Hv.
  assert (Hb' : check_bounds_impl (length (view_signatures view)) idx = Ok () ∧ check_signature_parameters view n idx = Ok ()).
  { destruct instr; simplify_eq/=; r_inv Hb; destruct a; done. }
  destruct Hb' as [Hlt%bounds_ok Hsig]. unfold element_type_at, signature_at in *.
  destruct (at_index_lt _ _ Hlt) as (sig & Ha & Hsg). rewrite Ha. cbn [r_bind].
  assert (length sig = 1) as Hone.
  { destruct instr; simplify_eq/=; unfold signature_at in Hv; rewrite Ha in Hv; cbn [r_bind] in Hv;
      by destruct (Nat.eqb_spec (length sig) 1). }
  pose proof (signature_args_ok idx sig Hsg Hsig) as HF. destruct sig as [|t [|]]; [done| |done].
  exists t. split; [done|]. by inversion HF.
Qed.

Lemma local_at_ok idx : idx < length (fv_parameters fv ++ fv_locals fv) →
  ∃ t, local_at fv idx = Ok t ∧ (fv_parameters fv ++ fv_locals fv) !! idx = Some t ∧ wf t.
Proof.
  intros Hlt. rewrite length_app in Hlt. unfold local_at. destruct (Nat.ltb_spec idx (length (fv_parameters fv))) as [H|H].
  - destruct (at_index_lt _ _ H) as (t & -> & Hlk). exists t. split_and!; [done|by rewrite lookup_app_l|].
    exact (Forall_lookup_1 _ _ _ _ (checked_parameters _ _ Hc) Hlk).
  - destruct (at_index_lt (fv_locals fv) (idx - length (fv_parameters fv))) as (t & -> & Hlk); [lia|]. exists t.
    split_and!; [done|by rewrite lookup_app_r|].
    exact (Forall_lookup_1 _ _ _ _ (checked_locals _ _ Hc) Hlk).
Qed.
Lemma local_index_lt instr idx : instr ∈ fv_code fv → local_index instr = Some idx →
  idx < length (fv_parameters fv ++ fv_locals fv).
Proof.
  intros Hin Hop. pose proof (checked_bounds _ _ Hc _ Hin) as Hb. rewrite length_app.
  destruct instr; simplify_eq/=; destruct (Nat.leb_spec (length (fv_locals fv) + length (fv_parameters fv)) idx); done || lia.
Qed.
Lemma local_ok instr idx : instr ∈ fv_code fv → local_index instr = Some idx →
  ∃ t, local_at fv idx = Ok t ∧ (fv_parameters fv ++ fv_locals fv) !! idx = Some t ∧ wf t.
Proof. intros. eapply local_at_ok, local_index_lt; eauto. Qed.

Lemma valid_constant_wf k t : is_valid_for_constant t = true → type_wf view k t.
Proof. induction t; simpl; try done; intros H; try (by apply wf_prim). apply wf_vector. auto. Qed.
Lemma constant_ok idx : Bytecode.LdConst idx ∈ fv_code fv →
  ∃ k, constant_at view idx = Ok k ∧ k ∈ view_constant_pool view ∧ wf (type_ k).
Proof.
  intros Hin. pose proof (checked_bounds _ _ Hc _ Hin) as Hlt%bounds_ok. unfold constant_at.
  destruct (at_index_lt _ _ Hlt) as (k & -> & Hk%list_elem_of_lookup_2). exists k. split_and!; [done|done|].
  apply valid_constant_wf. by eapply checked_constants.
Qed.

Lemma offset_ok instr off : instr ∈ fv_code fv → branch_offset instr = Some off → off < length (fv_code fv).
Proof.
  intros Hin Hop. pose proof (checked_bounds _ _ Hc _ Hin) as Hb.
  destruct instr; simplify_eq/=; destruct (Nat.leb_spec (length (fv_code fv)) off); done || lia.
Qed.
End code.
