(* ===== verification/StackFacts.v ===== *)
(** * StackFacts: the stack of types follows the stack usage

    An instruction whose operands the stack usage pass accounts for does not pop below them, so
    that type safety never runs out of operands; it leaves as many types as the stack usage says,
    and they are well formed.  For a function that both passes accept there are types for the
    operands at every offset the control can reach ([typed_at]); an instruction takes the types
    before it to the types after it, wherever the control goes.  The stack usage pass counts
    modulo 2^64, so that this holds as long as the stack is shorter. *)

From S2P Require Import Prelude FileFormat CodeFlow BoundsCheck Declarations TypeSafety LocalsSafety.
From S2P Require Import CodeFlowFacts TypeFacts VerifierFacts.

Local Open Scope nat_scope.

(** ** What is below the operands does not matter *)

Definition extend (J : TypeStack) (r : PartialVMResult TypeStack) : PartialVMResult TypeStack := let? l := r in Ok (l ++ J).

Lemma pop_expected_frame err types loc J : length types ≤ length loc →
  pop_expected err types (loc ++ J) = extend J (pop_expected err types loc).
Proof.
  revert loc. induction types as [|t types IH]; intros loc Hlen; [done|]. destruct loc as [|x loc]; simpl in *; [lia|].
  case_bool_decide; [apply IH; lia|done].
Qed.
Lemma pop_any_frame num loc J : num ≤ length loc → pop_any num (loc ++ J) = extend J (pop_any num loc).
Proof.
  revert loc. induction num as [|num IH]; intros loc Hlen; [done|]. destruct loc as [|x loc]; simpl in *; [lia|]. apply IH. lia.
Qed.
Lemma pop_arguments_frame targs ps loc J : length ps ≤ length loc →
  r_fold (pop_argument targs) ps (loc ++ J) = extend J (r_fold (pop_argument targs) ps loc).
Proof.
  revert loc. induction ps as [|t ps IH]; intros loc Hlen; [done|]. destruct loc as [|x loc]; simpl in *; [lia|].
  unfold pop_argument. simpl. destruct (instantiate targs t) as [ty| |]; simpl; [|done..].
  case_bool_decide; simpl; [apply IH; lia|done].
Qed.

Lemma type_fields_length d targs sig : type_fields_signature d targs = Ok sig → length sig = field_count d.
Proof.
  unfold type_fields_signature, field_count. destruct (field_information d) as [|fields]; [done|].
  intros H%r_collect_inv. symmetry. by eapply Forall2_length.
Qed.

Section frame.
Context (view : BinaryIndexedView) (fv : FunctionView).

Lemma pack_frame d targs loc J : field_count d ≤ length loc → pack d targs (loc ++ J) = extend J (pack d targs loc).
Proof.
  intros Hlen. unfold pack. destruct (type_fields_signature d targs) as [sig| |] eqn:Hsig; simpl; [|done..].
  apply type_fields_length in Hsig. rewrite pop_expected_frame by (rewrite length_rev; lia).
  by destruct (pop_expected _ _ loc).
Qed.

Lemma call_frame fh targs loc J ps : signature_at view (fh_parameters fh) = Ok ps → length ps ≤ length loc →
  call view fh targs (loc ++ J) = extend J (call view fh targs loc).
Proof.
  intros Hps Hlen. unfold call. rewrite Hps. cbn [r_bind].
  rewrite pop_arguments_frame by (rewrite length_rev; lia). unfold extend at 1. destruct (r_fold _ (rev ps) loc) as [l| |]; simpl; [|done..].
  destruct (signature_at view (fh_return fh)) as [rs| |]; simpl; [|done..].
  destruct (r_collect _ rs) as [ts| |]; simpl; [|done..]. by rewrite app_assoc.
Qed.

(** Steps both sides of a frame equation over the same scrutinee. *)
Ltac frame_step :=
  match goal with
  | |- r_bind ?r _ = extend _ (r_bind ?r _) => destruct r; simpl; [|done..]
  | |- (if ?b then _ else _) = extend _ (if ?b then _ else _) => destruct b; simpl; try done
  | |- (match ?x with _ => _ end) = extend _ (match ?x with _ => _ end) => destruct x; simpl; try done
  end.

Lemma borrow_field_frame mut_ idx targs x loc J :
  borrow_field view mut_ idx targs (x :: loc ++ J) = extend J (borrow_field view mut_ idx targs (x :: loc)).
Proof. unfold borrow_field. simpl. by repeat frame_step. Qed.
Lemma borrow_global_frame mut_ idx targs x loc J :
  borrow_global view fv mut_ idx targs (x :: loc ++ J) = extend J (borrow_global view fv mut_ idx targs (x :: loc)).
Proof. unfold borrow_global. simpl. by repeat frame_step. Qed.

Lemma field_instance_frame mut_ idx x loc J :
  field_instance view mut_ idx (x :: loc ++ J) = extend J (field_instance view mut_ idx (x :: loc)).
Proof. unfold field_instance. repeat frame_step. apply borrow_field_frame. Qed.
Lemma global_instance_frame mut_ idx x loc J :
  global_instance view fv mut_ idx (x :: loc ++ J) = extend J (global_instance view fv mut_ idx (x :: loc)).
Proof. unfold global_instance. repeat frame_step. apply borrow_global_frame. Qed.

Ltac unfold_instr := unfold borrow_loc, cast, unpack, exists_, move_from, move_to, borrow_vector_element, struct_instance.

Lemma unpack_frame d targs x loc J : unpack d targs (x :: loc ++ J) = extend J (unpack d targs (x :: loc)).
Proof. unfold unpack. simpl. repeat frame_step. by rewrite app_assoc. Qed.

Lemma verify_instr_frame loc J instr pops pushes :
  instruction_effect view (fv_return fv) instr = Ok (pops, pushes) → (pops ≤ len64 loc)%Z →
  verify_instr view fv (loc ++ J) instr = extend J (verify_instr view fv loc instr).
Proof.
  unfold len64. intros He Hp. destruct instr; simpl in He; try (injection He as <- <-).
  all: try (lazymatch type of Hp with
            | (1 ≤ _)%Z => destruct loc as [|x loc]; [simpl in Hp; lia|]
            | (2 ≤ _)%Z => do 2 (destruct loc as [|? loc]; [simpl in Hp; lia|])
            | (3 ≤ _)%Z => do 3 (destruct loc as [|? loc]; [simpl in Hp; lia|])
            end).
  all: simpl.
  all: try solve [reflexivity | apply borrow_field_frame | apply borrow_global_frame | apply field_instance_frame
                 | apply global_instance_frame | unfold_instr; simpl; by repeat frame_step].
  - apply pop_expected_frame. rewrite length_rev. unfold len64 in Hp. lia.
  - unfold call_effect, len64 in He. r_inv He. rewrite Hs. simpl. eapply call_frame; [done|lia].
  - unfold call_effect, len64 in He. r_inv He. rewrite Hs. cbn [r_bind]. rewrite Hs0. cbn [r_bind].
    repeat frame_step. eapply call_frame; [done|lia].
  - r_inv He. rewrite Hs. simpl. apply pack_frame. lia.
  - r_inv He. unfold struct_instance. rewrite Hs. cbn [r_bind]. rewrite Hs0. cbn [r_bind].
    destruct (signature_at view _); simpl; [|done..]. apply pack_frame. lia.
  - r_inv He. rewrite Hs. destruct loc as [|x loc]; [simpl in Hp; lia|]. apply unpack_frame.
  - r_inv He. destruct loc as [|x loc]; [simpl in Hp; lia|].
    destruct (struct_instance view idx) as [[d targs]| |]; [|done..]. apply unpack_frame.
  - destruct (element_type_at view idx); simpl; [|done..]. rewrite pop_any_frame by lia. by destruct (pop_any _ loc).
  - repeat frame_step. by rewrite app_assoc.
Qed.
End frame.

(** ** Types that are pushed *)

(** The code does not panic, and what it returns satisfies [P]. *)
Definition res_sat {E A} (P : A → Prop) (r : Result E A) : Prop :=
  match r with Ok a => P a | Err _ => True | Panic _ => False end.

Lemma res_sat_bind {E A B} (Q : A → Prop) (P : B → Prop) (r : Result E A) (f : A → Result E B) :
  res_sat Q r → (∀ a, Q a → res_sat P (f a)) → res_sat P (r_bind r f).
Proof. destruct r; simpl; auto. Qed.
Lemma res_sat_mono {E A} (Q P : A → Prop) (r : Result E A) : res_sat Q r → (∀ a, Q a → P a) → res_sat P r.
Proof. destruct r; simpl; auto. Qed.
Lemma res_sat_ensure {E} b (e : E) : res_sat (λ _, b = true) (ensure b e).
Proof. by destruct b. Qed.
Lemma res_sat_no_panic {E A} (P : A → Prop) (r : Result E A) : res_sat P r → no_panic r.
Proof. destruct r; [done|done|]. intros []. Qed.
Lemma no_panic_res_sat {E A} (P : A → Prop) (r : Result E A) : no_panic r → (∀ a, r = Ok a → P a) → res_sat P r.
Proof. intros Hn HP. destruct r as [a|e|msg]; simpl; [by apply HP|done|by apply (Hn msg)]. Qed.
Lemma res_sat_ok {E A} (P : A → Prop) (r : Result E A) a : res_sat P r → r = Ok a → P a.
Proof. by intros H ->. Qed.

Lemma pop_expected_sat err types stack : length types ≤ length stack →
  res_sat (λ st, stack = types ++ st) (pop_expected err types stack).
Proof.
  revert stack. induction types as [|t types IH]; intros stack Hlen; simpl; [done|]. destruct stack as [|x stack]; simpl in *; [lia|].
  case_bool_decide as Heq; [|done]. subst x. specialize (IH stack ltac:(lia)).
  destruct (pop_expected err types stack); simpl in *; [by f_equal|done|done].
Qed.
Lemma pop_any_sat num stack : num ≤ length stack →
  res_sat (λ st, ∃ l, length l = num ∧ stack = l ++ st) (pop_any num stack).
Proof.
  revert stack. induction num as [|num IH]; intros stack Hlen; simpl; [by exists []|]. destruct stack as [|x stack]; simpl in *; [lia|].
  specialize (IH stack ltac:(lia)). destruct (pop_any num stack); simpl in *; [|done..].
  destruct IH as (l & <- & ->). by exists (x :: l).
Qed.
Lemma pop_arguments_sat targs ps stack : length ps ≤ length stack → (∀ p, p ∈ ps → instantiate targs p = Ok (subst targs p)) →
  res_sat (λ st, stack = (subst targs <$> ps) ++ st) (r_fold (pop_argument targs) ps stack).
Proof.
  revert stack. induction ps as [|t ps IH]; intros stack Hlen Hps; simpl; [done|]. destruct stack as [|x stack]; simpl in *; [lia|].
  unfold pop_argument at 1. simpl. rewrite Hps by (by left). simpl. case_bool_decide as Heq; simpl; [|done]. subst x.
  specialize (IH stack ltac:(lia) ltac:(intros; apply Hps; by right)).
  destruct (r_fold (pop_argument targs) ps stack); simpl in *; [by f_equal|done|done].
Qed.

Section stack.
Context (view : BinaryIndexedView) (fv : FunctionView) (Hc : code_checked view fv).
Local Abbreviation n := (length (fv_type_parameters fv)).
Local Abbreviation wf := (type_wf view n).

(** The types left are well formed, and [k] of them. *)
Local Abbreviation good k := (res_sat (λ st : TypeStack, Forall wf st ∧ length st = k)).

Lemma require_ability_sat has t err : wf t → res_sat (λ _, ∃ a, ts_abilities view fv t = Ok a ∧ has a = true) (require_ability view fv has t err).
Proof.
  intros Hwf. unfold require_ability, ts_abilities. destruct (abilities_ok view _ t Hwf) as [a ->]. simpl.
  destruct (has a) eqn:Ha; simpl; eauto.
Qed.

Lemma struct_def_sat instr idx : instr ∈ fv_code fv → struct_op instr = Some idx →
  res_sat (λ d, struct_use view fv d []) (struct_def_at view idx).
Proof. intros Hin Hop. destruct (struct_def_ok view fv Hc instr idx Hin Hop). by apply no_panic_res_sat. Qed.
Lemma struct_instance_sat instr idx : instr ∈ fv_code fv → generic_struct_op instr = Some idx →
  res_sat (λ p, struct_use view fv p.1 p.2) (struct_instance view idx).
Proof.
  intros Hin Hop. unfold struct_instance.
  destruct (struct_instance_ok view fv Hc instr idx Hin Hop) as [[e ->]|(i & d & targs & -> & Hd & Hsig & Hu)]; [done|].
  cbn [r_bind]. rewrite Hd. cbn [r_bind]. by rewrite Hsig.
Qed.

Lemma fields_sat d targs : struct_use view fv d targs →
  res_sat (λ sig, Forall wf sig ∧ length sig = field_count d) (type_fields_signature d targs).
Proof.
  intros Hu. unfold type_fields_signature, field_count. destruct (field_information d) as [|fields] eqn:Hd; [done|].
  pose proof (fields_ok view fv d targs fields Hu Hd) as HF.
  destruct (r_collect_ok (λ f, instantiate targs (fd_signature f)) fields) as (ys & -> & H2).
  { intros f Hf. rewrite Forall_forall in HF. destruct (HF f Hf) as [? _]. eauto. }
  simpl. split; [|symmetry; by eapply Forall2_length]. clear Hd Hu. induction H2 as [|f y fl ys Hy _ IH]; [done|].
  inversion HF as [|?? [Hf Hw] HF']; subst. constructor; [|by apply IH]. congruence.
Qed.

Lemma pack_sat d targs stack : struct_use view fv d targs → Forall wf stack → field_count d ≤ length stack →
  good (length stack - field_count d + 1) (pack d targs stack).
Proof.
  intros Hu Hst Hlen. unfold pack. eapply res_sat_bind; [by apply fields_sat|]. intros sig [Hsig Hl].
  eapply res_sat_bind; [apply pop_expected_sat; rewrite length_rev; lia|]. intros st ->. simpl.
  rewrite length_app, length_rev in *. apply Forall_app in Hst as [_ Hst]. split; [|lia].
  constructor; [by apply materialize_wf|done].
Qed.

Lemma unpack_sat d targs x stack : struct_use view fv d targs → Forall wf stack →
  good (length stack + field_count d) (unpack d targs (x :: stack)).
Proof.
  intros Hu Hst. unfold unpack. simpl. destruct (negb _); [done|]. eapply res_sat_bind; [by apply fields_sat|].
  intros sig [Hsig Hl]. simpl. split; [apply Forall_app; split; [by apply Forall_rev|done]|]. rewrite length_app, length_rev. lia.
Qed.

Lemma call_sat fh targs ps rs stack : call_use view fv fh targs ps rs → Forall wf stack → length ps ≤ length stack →
  good (length stack - length ps + length rs) (call view fh targs stack).
Proof.
  intros (Hargs & Hps & Hrs & Hwp & Hwr) Hst Hlen. unfold call. rewrite Hps, Hrs. cbn [r_bind]. rewrite Forall_forall in Hwp, Hwr.
  eapply res_sat_bind.
  { apply pop_arguments_sat; [rewrite length_rev; lia|]. intros p Hp%list_elem_of_In.
    apply (instantiate_ok view targs n); [|done]. apply Hwp. apply list_elem_of_In. by apply in_rev. }
  intros st ->. destruct (r_collect_ok (instantiate targs) rs) as (ts & -> & H2).
  { intros r Hr. destruct (instantiate_ok view targs n r) as [? _]; [by apply Hwr|done|]. eauto. }
  simpl. apply Forall_app in Hst as [_ Hst]. rewrite !length_app, length_rev, length_fmap, length_rev.
  rewrite <- (Forall2_length _ _ _ H2). split; [|lia]. apply Forall_app. split; [|done]. apply Forall_rev.
  apply Forall_lookup. intros i t Ht'. destruct (Forall2_lookup_r _ _ _ _ _ H2 Ht') as (r & Hr & Hi).
  destruct (instantiate_ok view targs n r) as [Hi' ?]; [apply Hwr; by eapply list_elem_of_lookup_2|done|]. congruence.
Qed.

Lemma wf_ref_type mut_ t : wf t → wf (ref_type mut_ t).
Proof. intros. destruct mut_; [by apply wf_mutable_reference|by apply wf_reference]. Qed.

Lemma borrow_field_sat mut_ idx targs h d fields f x stack : field_use view fv idx targs h d fields f →
  wf x → Forall wf stack → good (S (length stack)) (borrow_field view mut_ idx targs (x :: stack)).
Proof.
  intros (Hh & Hd & Hfi & Hf & Hu) Hx Hst. unfold borrow_field. simpl. destruct (mut_ && _); [done|].
  rewrite Hh. simpl. rewrite Hd. simpl. rewrite Hfi, (proj2 (at_index_ok _ _ _) Hf). cbn [r_bind].
  eapply (res_sat_bind (λ _, True)); [by destruct x; simpl; try case_bool_decide|]. intros _ _.
  pose proof (fields_ok view fv d targs fields Hu Hfi) as HF. destruct (Forall_lookup_1 _ _ _ _ HF Hf) as [-> Hw]. simpl.
  split; [|done]. constructor; [by apply wf_ref_type|done].
Qed.

Lemma borrow_global_sat mut_ idx targs d x stack : struct_def_at view idx = Ok d → struct_use view fv d targs →
  Forall wf stack → good (S (length stack)) (borrow_global view fv mut_ idx targs (x :: stack)).
Proof.
  intros Hd Hu Hst. unfold borrow_global. simpl. destruct (negb _); [done|]. rewrite Hd. cbn [r_bind].
  eapply res_sat_bind; [by apply require_ability_sat, materialize_wf|]. intros _ _. simpl.
  split; [|done]. constructor; [by apply wf_ref_type, materialize_wf|done].
Qed.

Lemma exists_sat d targs x stack : struct_use view fv d targs → Forall wf stack →
  good (S (length stack)) (exists_ view fv d targs (x :: stack)).
Proof.
  intros Hu Hst. unfold exists_. eapply res_sat_bind; [by apply require_ability_sat, materialize_wf|]. intros _ _. simpl.
  destruct (negb _); [done|]. simpl. split; [|done]. constructor; [by apply wf_prim|done].
Qed.
Lemma move_from_sat d targs x stack : struct_use view fv d targs → Forall wf stack →
  good (S (length stack)) (move_from view fv d targs (x :: stack)).
Proof.
  intros Hu Hst. unfold move_from. eapply res_sat_bind; [by apply require_ability_sat, materialize_wf|]. intros _ _. simpl.
  destruct (negb _); [done|]. simpl. split; [|done]. constructor; [by apply materialize_wf|done].
Qed.
Lemma move_to_sat d targs x y stack : struct_use view fv d targs → Forall wf stack →
  good (length stack) (move_to view fv d targs (x :: y :: stack)).
Proof.
  intros Hu Hst. unfold move_to. eapply res_sat_bind; [by apply require_ability_sat, materialize_wf|]. intros _ _. simpl.
  destruct (negb _); [done|]. by destruct y as [| | | | | | | | |[]| |].
Qed.

Lemma require_vector_sat x t mut_ : res_sat (λ _, True) (require_vector x t mut_).
Proof. unfold require_vector. destruct (get_vector_element_type x mut_); [|done]. by case_bool_decide. Qed.

Lemma global_instance_sat instr mut_ idx x stack : instr ∈ fv_code fv → generic_struct_op instr = Some idx →
  Forall wf stack → good (S (length stack)) (global_instance view fv mut_ idx (x :: stack)).
Proof.
  intros Hin Hop Hst. unfold global_instance.
  destruct (struct_instance_ok view fv Hc instr idx Hin Hop) as [[e ->]|(i & d & targs & -> & Hd & Hsig & Hu)]; [done|].
  cbn [r_bind]. rewrite Hsig. by eapply borrow_global_sat.
Qed.
Lemma field_instance_sat instr mut_ idx x stack : instr ∈ fv_code fv → generic_field_op instr = Some idx →
  wf x → Forall wf stack → good (S (length stack)) (field_instance view mut_ idx (x :: stack)).
Proof.
  intros Hin Hop Hx Hst. unfold field_instance.
  destruct (field_instance_ok view fv Hc instr idx Hin Hop) as [[e ->]|(i & targs & h & d & fields & f & -> & Hsig & Hu)]; [done|].
  cbn [r_bind]. rewrite Hsig. by eapply borrow_field_sat.
Qed.
Lemma field_sat instr mut_ idx x stack : instr ∈ fv_code fv → field_op instr = Some idx →
  wf x → Forall wf stack → good (S (length stack)) (borrow_field view mut_ idx [] (x :: stack)).
Proof.
  intros Hin Hop Hx Hst. destruct (field_op_ok view fv Hc instr idx Hin Hop) as [[e He]|(h & d & fields & f & Hu)]; [|by eapply borrow_field_sat].
  unfold borrow_field. simpl. destruct (mut_ && _); [done|]. by rewrite He.
Qed.
Lemma global_sat instr mut_ idx x stack : instr ∈ fv_code fv → struct_op instr = Some idx →
  Forall wf stack → good (S (length stack)) (borrow_global view fv mut_ idx [] (x :: stack)).
Proof.
  intros Hin Hop Hst. pose proof (struct_def_sat instr idx Hin Hop) as Hs.
  destruct (struct_def_at view idx) as [d| |] eqn:Hd; simpl in Hs; [by eapply borrow_global_sat| |done].
  unfold borrow_global. simpl. destruct (negb _); [done|]. by rewrite Hd.
Qed.

(** ** One instruction *)

Lemma good_eq k (r : PartialVMResult TypeStack) (z : Z) : good k r → Z.of_nat k = z →
  res_sat (λ st, Forall wf st ∧ Z.of_nat (length st) = z) r.
Proof. destruct r as [st| |]; simpl; [|done..]. by intros [? ->]. Qed.

Lemma local_sat instr idx {A} (f : SignatureToken → PartialVMResult A) P : instr ∈ fv_code fv → local_index instr = Some idx →
  (∀ t, wf t → res_sat P (f t)) → res_sat P (r_bind (local_at fv idx) f).
Proof. intros Hin Hop Hf. destruct (local_ok view fv Hc instr idx Hin Hop) as (t & -> & _ & Hw). by apply Hf. Qed.
Lemma element_sat instr idx {A} (f : SignatureToken → PartialVMResult A) P : instr ∈ fv_code fv → vector_op instr = Some idx →
  (∀ t, wf t → res_sat P (f t)) → res_sat P (r_bind (element_type_at view idx) f).
Proof. intros Hin Hop Hf. destruct (element_type_ok view fv Hc instr idx Hin Hop) as (t & -> & Hw). by apply Hf. Qed.
Lemma abilities_sat {A} t (f : AbilitySet → PartialVMResult A) P : wf t →
  (∀ a, res_sat P (f a)) → res_sat P (r_bind (ts_abilities view fv t) f).
Proof. intros Hw Hf. unfold ts_abilities. destruct (abilities_ok view _ t Hw) as [a ->]. apply Hf. Qed.

Local Arguments res_sat : simpl never.

Ltac wf_stack := repeat match goal with
  | H : Forall _ (_ :: _) |- _ => apply Forall_cons in H as [? H]
  end.
Ltac wf_solve :=
  repeat match goal with
    | H : type_wf _ _ (Reference _) |- _ => apply (proj1 (wf_reference _ _ _)) in H
    | H : type_wf _ _ (MutableReference _) |- _ => apply (proj1 (wf_mutable_reference _ _ _)) in H
    end;
  first [ assumption | by apply wf_prim | by apply wf_ref_type | by apply wf_reference | by apply wf_mutable_reference
        | by apply wf_vector ].
(** A list of types whose head is pushed. *)
Ltac good_end := split; [repeat (apply Forall_cons; split; [wf_solve|]); assumption | cbn [length] in *; lia].

Ltac good_step :=
  match goal with
  | |- res_sat _ (Err _) => exact I
  | |- res_sat _ (Ok _) => simpl; good_end
  | |- res_sat _ (if ?b then _ else _) => destruct b; simpl
  | |- res_sat _ (match ?x with _ => _ end) => destruct x; simpl
  | |- res_sat _ (r_bind (require_ability _ _ _ _ _) _) => eapply res_sat_bind; [apply require_ability_sat; wf_solve|intros _ _; simpl]
  | |- res_sat _ (r_bind (require_vector _ _ _) _) => eapply res_sat_bind; [apply require_vector_sat|intros _ _; simpl]
  | |- res_sat _ (r_bind (local_at _ _) _) => eapply local_sat; [eassumption|reflexivity|intros; simpl]
  | |- res_sat _ (r_bind (element_type_at _ _) _) => eapply element_sat; [eassumption|reflexivity|intros; simpl]
  | |- res_sat _ (r_bind (ts_abilities _ _ _) _) => apply abilities_sat; [wf_solve|intros; simpl]
  | |- res_sat _ (r_bind (struct_def_at _ _) _) =>
      eapply res_sat_bind; [eapply struct_def_sat; [eassumption|reflexivity]|intros; simpl]
  | |- res_sat _ (r_bind (struct_instance _ _) _) =>
      eapply res_sat_bind; [eapply struct_instance_sat; [eassumption|reflexivity]|intros [? ?] ?; simpl in *]
  | |- res_sat _ (borrow_field _ _ _ _ _) => eapply good_eq; [eapply field_sat; [eassumption|reflexivity|assumption..]|lia]
  | |- res_sat _ (field_instance _ _ _ _) => eapply good_eq; [eapply field_instance_sat; [eassumption|reflexivity|assumption..]|lia]
  | |- res_sat _ (borrow_global _ _ _ _ _ _) => eapply good_eq; [eapply global_sat; [eassumption|reflexivity|assumption..]|lia]
  | |- res_sat _ (global_instance _ _ _ _ _) => eapply good_eq; [eapply global_instance_sat; [eassumption|reflexivity|assumption..]|lia]
  | |- res_sat _ (exists_ _ _ _ _ _) => eapply good_eq; [eapply exists_sat; eassumption|lia]
  | |- res_sat _ (move_from _ _ _ _ _) => eapply good_eq; [eapply move_from_sat; eassumption|lia]
  | |- res_sat _ (move_to _ _ _ _ _) => eapply good_eq; [eapply move_to_sat; eassumption|lia]
  | |- res_sat _ (borrow_vector_element _ _ _) => unfold borrow_vector_element; simpl
  | |- res_sat _ (borrow_loc _ _ _ _) => unfold borrow_loc; simpl
  | |- res_sat _ (cast _ _) => unfold cast; simpl
  end.

Lemma verify_instr_sat stack instr pops pushes : instr ∈ fv_code fv → Forall wf stack →
  instruction_effect view (fv_return fv) instr = Ok (pops, pushes) → (pops ≤ len64 stack)%Z →
  res_sat (λ st, Forall wf st ∧ len64 st = (len64 stack - pops + pushes)%Z) (verify_instr view fv stack instr).
Proof.
  unfold len64. intros Hin Hst He Hp. destruct instr; simpl in He; try (injection He as <- <-).
  all: try (lazymatch type of Hp with
            | (1 ≤ _)%Z => destruct stack as [|x stack]; [simpl in Hp; lia|]
            | (2 ≤ _)%Z => do 2 (destruct stack as [|? stack]; [simpl in Hp; lia|])
            | (3 ≤ _)%Z => do 3 (destruct stack as [|? stack]; [simpl in Hp; lia|])
            end).
  all: wf_stack; simpl; try solve [repeat good_step].
  - eapply res_sat_mono; [apply pop_expected_sat; rewrite length_rev; unfold len64 in Hp; lia|]. intros st ->.
    apply Forall_app in Hst as [_ Hst]. unfold len64. rewrite length_app, length_rev. split; [done|lia].
  - destruct (constant_ok view fv Hc idx Hin) as (k & -> & _ & Hw). simpl. good_step.
  - destruct (call_ok view fv Hc idx Hin) as (fh & ps & rs & Hfh & Hu). unfold call_effect in He. rewrite Hfh in *. simpl in *.
    destruct Hu as (? & Hps & Hrs & ? & ?). rewrite Hps, Hrs in He. simpl in He. injection He as <- <-. unfold len64 in *.
    eapply good_eq; [eapply call_sat; [done|done|lia]|lia].
  - destruct (call_generic_ok view fv Hc idx Hin) as (i & fh & targs & ps & rs & Hi & Hfh & Hsig & Hu). unfold call_effect in He.
    rewrite Hi in *. simpl in *. rewrite Hfh in *. simpl in *. rewrite Hsig. simpl.
    destruct Hu as (? & Hps & Hrs & ? & ?). rewrite Hps, Hrs in He. simpl in He. injection He as <- <-. unfold len64 in *.
    eapply good_eq; [eapply call_sat; [done|done|lia]|lia].
  - r_inv He. pose proof (struct_def_sat _ idx Hin eq_refl) as Hu. rewrite Hs in *. simpl.
    eapply good_eq; [eapply pack_sat; [done|done|lia]|lia].
  - r_inv He. pose proof (struct_instance_sat _ idx Hin eq_refl) as Hu. unfold struct_instance in *. rewrite Hs in *. simpl in *.
    rewrite Hs0 in *. simpl in *. destruct (signature_at view _); simpl in *; [|done..].
    eapply good_eq; [eapply pack_sat; [done|done|lia]|lia].
  - r_inv He. pose proof (struct_def_sat _ idx Hin eq_refl) as Hu. rewrite Hs in *. simpl.
    destruct stack as [|x stack]; [simpl in Hp; lia|]. wf_stack. eapply good_eq; [by eapply unpack_sat|simpl; lia].
  - r_inv He. pose proof (struct_instance_sat _ idx Hin eq_refl) as Hu. unfold struct_instance in *. rewrite Hs in *. simpl in *.
    rewrite Hs0 in *. simpl in *. destruct (signature_at view _); simpl in *; [|done..].
    destruct stack as [|x stack]; [simpl in Hp; lia|]. wf_stack. eapply good_eq; [by eapply unpack_sat|simpl; lia].
  - good_step. eapply res_sat_bind; [apply (pop_any_sat (N.to_nat num)); lia|]. intros st (l & Hl & ->).
    apply Forall_app in Hst as [_ Hst]. rewrite length_app. good_step.
  - repeat good_step. unfold res_sat. rewrite length_app, length_replicate. split; [|lia].
    apply Forall_app. split; [by apply Forall_replicate|done].
Qed.
End stack.

Section typed.
Context (view : BinaryIndexedView) (fv : FunctionView) (Hc : code_checked view fv).
Context (Hwf : wf_cfg (fv_code fv) (fv_cfg fv)) (Hlen : (Z.of_nat (length (fv_code fv)) ≤ 65534)%Z).
Context (Hstack : StackUsageVerifier_verify view fv = Ok ()) (Htypes : type_safety_verify view fv = Ok ()).
Local Abbreviation wf := (type_wf view (length (fv_type_parameters fv))).
Local Abbreviation usage := (r_fold (stack_step view (fv_code fv) (fv_return fv))).
Local Abbreviation types := (r_fold (verify_offset view fv)).

Lemma fold_blocks_start {S} (f : S → nat → PartialVMResult S) ids s s' id : r_fold f ids s = Ok s' → id ∈ ids →
  ∃ s1 s2, f s1 id = Ok s2.
Proof.
  revert s. induction ids as [|i ids IH]; intros s H Hin; [by apply elem_of_nil in Hin|]. cbn [r_fold] in H. r_inv H.
  apply elem_of_cons in Hin as [->|Hin]; eauto.
Qed.

(** Each block was checked, with some types below it on the stack. *)
Lemma block_checked b : b ∈ fv_cfg fv →
  usage (instr_indexes b) 0%Z = Ok 0%Z ∧ ∃ J st, types (instr_indexes b) J = Ok st.
Proof.
  intros Hb. assert (Hid : entry b ∈ cfg_blocks (fv_cfg fv)) by (by apply list_elem_of_fmap_2). split.
  - pose proof (r_for_elem _ _ _ _ Hstack Hid) as Hx. cbv beta in Hx. rewrite (entry_block _ _ Hwf b Hb) in Hx. cbn [r_bind] in Hx.
    unfold su_verify_block in Hx. r_inv Hx. destruct (Z.eqb_spec a 0); [by subst|done].
  - unfold type_safety_verify in Htypes. r_inv Htypes. destruct (fold_blocks_start _ _ _ _ _ Hs Hid) as (J & st & Hx).
    unfold verify_block_types in Hx. rewrite (entry_block _ _ Hwf b Hb) in Hx. eauto.
Qed.

(** The types of the operands before the instruction at [pc], top first. *)
Definition typed_at (pc : nat) (loc : TypeStack) : Prop :=
  Forall wf loc ∧ ∃ b J, b ∈ fv_cfg fv ∧ entry b ≤ pc ∧ pc ≤ exit b ∧
    usage (seq (entry b) (pc - entry b)) 0%Z = Ok (len64 loc) ∧
    types (seq (entry b) (pc - entry b)) J = Ok (loc ++ J) ∧ ∃ st, types (instr_indexes b) J = Ok st.

Lemma typed_at_block b : b ∈ fv_cfg fv → typed_at (entry b) [].
Proof.
  intros Hb. destruct (block_checked b Hb) as (_ & J & st & Hst). split; [done|]. exists b, J.
  destruct (chain_bounds _ _ _ _ (wf_chain _ _ Hwf) Hb) as (_ & ? & _). rewrite Nat.sub_diag. simpl. split_and!; eauto.
Qed.
Lemma typed_at_entry : fv_code fv ≠ [] → typed_at 0 [].
Proof.
  intros Hne. destruct (block_of _ _ Hwf 0) as (b & Hb & He & _); [destruct (fv_code fv); [done|simpl; lia]|].
  assert (entry b = 0) as <- by lia. by apply typed_at_block.
Qed.

Lemma indexes_split b pc : entry b ≤ pc → pc ≤ exit b →
  instr_indexes b = (seq (entry b) (pc - entry b) ++ [pc]) ++ seq (pc + 1) (exit b - pc).
Proof.
  intros H1 H2. unfold instr_indexes. replace (exit b + 1 - entry b) with ((pc - entry b) + (1 + (exit b - pc))) by lia.
  rewrite seq_app, <- app_assoc. f_equal. replace (entry b + (pc - entry b)) with pc by lia. simpl. by rewrite Nat.add_1_r.
Qed.

(** An instruction, its effect, and the types after it. *)
Definition typed_next (pc : nat) (instr : Bytecode) (loc loc' : TypeStack) : Prop :=
  ∃ pops pushes, instruction_effect view (fv_return fv) instr = Ok (pops, pushes) ∧ (pops ≤ len64 loc)%Z ∧
    verify_instr view fv loc instr = Ok loc' ∧ Forall wf loc' ∧ len64 loc' = (len64 loc - pops + pushes)%Z ∧
    ((len64 loc' < 2 ^ 64)%Z →
      (∀ pc', edge (fv_code fv) pc pc' → typed_at pc' loc') ∧ (is_branch instr = true → loc' = [])).

Lemma typed_step pc loc instr : typed_at pc loc → fv_code fv !! pc = Some instr → ∃ loc', typed_next pc instr loc loc'.
Proof.
  intros (Hloc & b & J & Hb & Hle & Hex & Hu & Hty & st & Hst) Hi.
  pose proof (list_elem_of_lookup_2 _ _ _ Hi) as Hin. destruct (block_checked b Hb) as (Hblock & _).
  pose proof Hblock as Hblock'. rewrite (indexes_split b pc Hle Hex), r_fold_app, r_fold_snoc, Hu in Hblock. cbn [r_bind] in Hblock.
  rewrite (indexes_split b pc Hle Hex), r_fold_app, r_fold_snoc, Hty in Hst. cbn [r_bind] in Hst.
  apply r_bind_ok in Hblock as (h' & Hstep & Hrest). apply r_bind_ok in Hst as (st' & Hverify & Hrest').
  unfold stack_step in Hstep. unfold verify_offset in Hverify. rewrite (proj2 (at_index_ok _ _ _) Hi) in *. cbn [r_bind] in *.
  apply r_bind_ok in Hstep as ([pops pushes] & He & Hstep). destruct (Z.ltb_spec (len64 loc) pops) as [|Hp]; [done|].
  injection Hstep as Hh'. rewrite (verify_instr_frame view fv loc J instr pops pushes He Hp) in Hverify.
  unfold extend in Hverify. apply r_bind_ok in Hverify as (loc' & Hv & Hst'). injection Hst' as <-.
  pose proof (verify_instr_sat view fv Hc loc instr pops pushes Hin Hloc He Hp) as Hsat. rewrite Hv in Hsat. destruct Hsat as [Hloc' Hl'].
  exists loc', pops, pushes. split_and!; [done..|]. intros Hsmall.
  assert (h' = len64 loc') as ->. { rewrite Hl', <- Hh'. unfold wrap64. apply Z.mod_small. unfold len64 in *. lia. }
  assert (Hnil : pc = exit b → loc' = []).
  { intros ->. rewrite Nat.sub_diag in Hrest. simpl in Hrest. injection Hrest as Hz. unfold len64 in Hz. by destruct loc'. }
  split.
  - intros pc' Hedge. destruct (decide (pc = exit b)) as [Heq|Hne].
    + rewrite (Hnil Heq). subst pc. assert (Hoff : ∀ i bc off, fv_code fv !! i = Some bc → branch_offset bc = Some off → off < length (fv_code fv)).
      { intros i bc off Hbc%list_elem_of_lookup_2. by eapply offset_ok. }
      destruct (successor_block _ _ Hlen Hwf Hoff b pc' Hb) as (b' & Hb' & <-); [by eapply edge_exit|]. by apply typed_at_block.
    + assert (pc' = pc + 1) as -> by (eapply edge_inner; eauto; lia). split; [done|]. exists b, J.
      split_and!; [done|lia|lia| | |].
      * replace (pc + 1 - entry b) with (S (pc - entry b)) by lia. rewrite seq_S, r_fold_snoc, Hu. cbn [r_bind].
        replace (entry b + (pc - entry b)) with pc by lia. unfold stack_step. rewrite (proj2 (at_index_ok _ _ _) Hi). cbn [r_bind].
        rewrite He. cbn [r_bind]. rewrite (proj2 (Z.ltb_ge _ _) Hp). f_equal. rewrite Hh'. done.
      * replace (pc + 1 - entry b) with (S (pc - entry b)) by lia. rewrite seq_S, r_fold_snoc, Hty. cbn [r_bind].
        replace (entry b + (pc - entry b)) with pc by lia. unfold verify_offset. rewrite (proj2 (at_index_ok _ _ _) Hi). cbn [r_bind].
        rewrite (verify_instr_frame view fv loc J instr pops pushes He Hp), Hv. done.
      * exists st. rewrite (indexes_split b pc Hle Hex), r_fold_app, r_fold_snoc, Hty. cbn [r_bind].
        unfold verify_offset at 1. rewrite (proj2 (at_index_ok _ _ _) Hi). cbn [r_bind].
        rewrite (verify_instr_frame view fv loc J instr pops pushes He Hp), Hv. done.
  - intros Hbr. apply Hnil. destruct (decide (pc = exit b)); [done|].
    assert (is_branch instr = false) by (eapply (wf_inner _ _ Hwf b pc); [done|done|lia|done]). congruence.
Qed.
End typed.
