(* ===== verification/LocalsFacts.v ===== *)
(** * LocalsFacts: the locals safety pass is an abstract interpretation

    The fixpoint iteration of absint.rs, for any analysis that is an [AbstractDomain]: it ends,
    it does not panic, and its result is an invariant of the code.  The states of locals_safety/abstract_state.rs form an [AbstractDomain] on code that uses the
    locals it declares; the pass ends, does not panic, and a function it accepts reads a local
    only where it is assigned. *)

From S2P Require Import Prelude FileFormat CodeFlow LocalsSafety CodeFlowFacts TypeFacts VerifierFacts.

Local Open Scope nat_scope.

(** What an analysis promises: its states are ordered, [join] is an upper bound that is only
    [Changed] when the state climbs, and no instruction of the code makes it panic. *)
Class AbstractDomain {State : Type} (join : State → State → PartialVMResult (State * JoinResult))
    (execute : State → Bytecode → PartialVMResult State) (code : list Bytecode) := {
  dom_ok : State → Prop;
  dom_le : State → State → Prop;
  dom_rank : State → nat;
  dom_height : nat;
  dom_le_preorder :: PreOrder dom_le;
  dom_rank_height s : dom_ok s → dom_rank s ≤ dom_height;
  dom_join a b : dom_ok a → dom_ok b →
    ∃ j r, join a b = Ok (j, r) ∧ dom_ok j ∧ dom_le a j ∧ dom_le b j ∧
      match r with Unchanged => j = a | Changed => dom_rank j < dom_rank a end;
  dom_execute s instr : dom_ok s → instr ∈ code →
    no_panic (execute s instr) ∧ ∀ s', execute s instr = Ok s' → dom_ok s';
}.

Lemma sum_list_with_le {A} (f g : A → nat) l : (∀ x, x ∈ l → f x ≤ g x) → sum_list_with f l ≤ sum_list_with g l.
Proof.
  induction l as [|x l IH]; intros H; simpl; [done|]. pose proof (H x ltac:(by left)).
  assert (sum_list_with f l ≤ sum_list_with g l) by (apply IH; intros; apply H; by right). lia.
Qed.
Lemma sum_list_with_lt {A} (f g : A → nat) l y : (∀ x, x ∈ l → f x ≤ g x) → y ∈ l → f y < g y →
  sum_list_with f l < sum_list_with g l.
Proof.
  induction l as [|x l IH]; intros H Hy Hlt; [by apply elem_of_nil in Hy|]. simpl.
  pose proof (H x ltac:(by left)). apply elem_of_cons in Hy as [->|Hy].
  - assert (sum_list_with f l ≤ sum_list_with g l) by (apply sum_list_with_le; intros; apply H; by right). lia.
  - assert (sum_list_with f l < sum_list_with g l) by (apply IH; [intros; apply H; by right|done..]). lia.
Qed.

Section absint.
Context {State : Type} (join : State → State → PartialVMResult (State * JoinResult)).
Context (execute : State → Bytecode → PartialVMResult State) (fv : FunctionView).
Context `{D : !AbstractDomain join execute (fv_code fv)}.
Local Abbreviation InvariantMap := (gmap nat (BlockInvariant State)).
Local Abbreviation run_block := (execute_block execute fv).
Implicit Types (m : InvariantMap) (wl : list nat) (bi : BlockInvariant State) (b : BasicBlock).

Context (init : State) (init_ok : dom_ok init).

(** ** Running a block *)

Lemma execute_block_eq b s : wf_cfg (fv_code fv) (fv_cfg fv) → b ∈ fv_cfg fv →
  run_block (entry b) s = r_fold (execute_offset execute fv) (instr_indexes b) s.
Proof. intros Hwf Hb. unfold execute_block. by erewrite entry_block. Qed.

Lemma fold_offsets offs s : dom_ok s → (∀ i, i ∈ offs → i < length (fv_code fv)) →
  no_panic (r_fold (execute_offset execute fv) offs s) ∧
  ∀ s', r_fold (execute_offset execute fv) offs s = Ok s' → dom_ok s'.
Proof.
  revert s. induction offs as [|i offs IH]; intros s Hs Hoffs; cbn [r_fold].
  { split; [apply no_panic_Ok|]. by intros s' [= <-]. }
  destruct (lookup_lt_is_Some_2 (fv_code fv) i) as [instr Hi]; [apply Hoffs; by left|].
  assert (He : execute_offset execute fv s i = execute s instr).
  { unfold execute_offset. by rewrite (proj2 (at_index_ok _ _ _) Hi). }
  destruct (dom_execute s instr Hs) as [Hp Hok]; [by eapply list_elem_of_lookup_2|].
  rewrite He. destruct (execute s instr) as [s1|e|msg]; simpl; [|done..].
  apply IH; [by apply Hok|]. intros j Hj. apply Hoffs. by right.
Qed.

Context (Hwf : wf_cfg (fv_code fv) (fv_cfg fv)) (Hlen : (Z.of_nat (length (fv_code fv)) ≤ 65534)%Z).
Context (Hoff : ∀ pc bc off, fv_code fv !! pc = Some bc → branch_offset bc = Some off → off < length (fv_code fv)).

Lemma run_block_ok b s : b ∈ fv_cfg fv → dom_ok s →
  no_panic (run_block (entry b) s) ∧ ∀ s', run_block (entry b) s = Ok s' → dom_ok s'.
Proof.
  intros Hb Hs. rewrite execute_block_eq by done. apply fold_offsets; [done|].
  intros i Hi. destruct (chain_bounds _ _ _ _ (wf_chain _ _ Hwf) Hb) as (_ & ? & ?).
  unfold instr_indexes in Hi. apply elem_of_seq in Hi. lia.
Qed.

(** ** Propagation *)

(** What the blocks may still climb. *)
Definition potential m : nat :=
  sum_list_with (λ b, match m !! entry b with None => S dom_height | Some bi => dom_rank (pre bi) end) (fv_cfg fv).

(** The map grows; a block whose precondition grows is on the work list. *)
Record extends m wl m' wl' : Prop := {
  ext_old id bi : m !! id = Some bi →
    ∃ bi', m' !! id = Some bi' ∧ dom_le (pre bi) (pre bi') ∧ (id ∈ wl' ∨ bi' = bi);
  ext_new id bi' : m' !! id = Some bi' →
    m !! id = Some bi' ∨ (id ∈ wl' ∧ dom_ok (pre bi') ∧ ∃ b, b ∈ fv_cfg fv ∧ entry b = id);
  ext_list id : id ∈ wl → id ∈ wl';
  ext_listed id : id ∈ wl' → id ∈ wl ∨ is_Some (m' !! id);
  ext_measure : length wl' + potential m' ≤ length wl + potential m;
}.

Lemma extends_refl m wl : extends m wl m wl.
Proof. constructor; [|by left|done|by left|done]. intros id bi H. exists bi. split_and!; [done|done|by right]. Qed.

Lemma extends_trans m wl m1 wl1 m2 wl2 : extends m wl m1 wl1 → extends m1 wl1 m2 wl2 → extends m wl m2 wl2.
Proof.
  intros [O1 N1 L1 D1 M1] [O2 N2 L2 D2 M2]. constructor; [| |by auto| |lia].
  - intros id bi H. destruct (O1 _ _ H) as (bi1 & H1 & Hle1 & Hs1). destruct (O2 _ _ H1) as (bi2 & H2 & Hle2 & Hs2).
    exists bi2. split_and!; [done|by etrans|]. destruct Hs1 as [|<-]; [left; auto|done].
  - intros id bi' H. destruct (N2 _ _ H) as [H1|?]; [|by right]. destruct (N1 _ _ H1) as [|(? & ? & ?)]; [by left|].
    right. eauto.
  - intros id H. destruct (D2 _ H) as [H1|]; [|by right]. destruct (D1 _ H1) as [|[bi Hbi]]; [by left|].
    right. destruct (O2 _ _ Hbi) as (bi' & ? & _). eauto.
Qed.

Lemma potential_insert m b bi : b ∈ fv_cfg fv → dom_ok (pre bi) →
  match m !! entry b with None => True | Some bi0 => dom_rank (pre bi) < dom_rank (pre bi0) end →
  S (potential (<[entry b := bi]> m)) ≤ potential m.
Proof.
  intros Hb Hok Hlt. apply (sum_list_with_lt _ _ _ b); [|done|].
  - intros b' _. destruct (decide (entry b' = entry b)) as [->|Hne]; [|by rewrite lookup_insert_ne].
    rewrite lookup_insert_eq. destruct (m !! entry b); [lia|]. pose proof (dom_rank_height _ Hok). lia.
  - rewrite lookup_insert_eq. destruct (m !! entry b); [lia|]. pose proof (dom_rank_height _ Hok). lia.
Qed.

Lemma extends_insert m wl b bi : b ∈ fv_cfg fv → dom_ok (pre bi) →
  match m !! entry b with
  | None => True
  | Some bi0 => dom_le (pre bi0) (pre bi) ∧ dom_rank (pre bi) < dom_rank (pre bi0)
  end → extends m wl (<[entry b := bi]> m) (entry b :: wl).
Proof.
  intros Hb Hok Hm. constructor.
  - intros id bi0 H. destruct (decide (id = entry b)) as [->|Hne].
    + rewrite H in Hm. exists bi. rewrite lookup_insert_eq. split_and!; [done|by apply Hm|left; by left].
    + exists bi0. rewrite lookup_insert_ne by done. split_and!; [done|done|by right].
  - intros id bi' [[<- <-]|[Hne H]]%lookup_insert_Some; [|by left]. right. split_and!; [by left|done|eauto].
  - intros id H. by right.
  - intros id [->|H]%elem_of_cons; [right|by left]. rewrite lookup_insert_eq. eauto.
  - simpl. enough (S (potential (<[entry b := bi]> m)) ≤ potential m) by lia.
    apply potential_insert; [done..|]. by destruct (m !! entry b) as [bi0|]; [apply Hm|].
Qed.

Definition map_ok m : Prop := ∀ id bi, m !! id = Some bi → dom_ok (pre bi) ∧ ∃ b, b ∈ fv_cfg fv ∧ entry b = id.

Lemma extends_ok m wl m' wl' : extends m wl m' wl' → map_ok m → map_ok m'.
Proof. intros E Hm id bi H. destruct (ext_new _ _ _ _ E _ _ H) as [H1|(_ & H1)]; [by eapply Hm|done]. Qed.

Lemma propagate_ok ps m wl b : dom_ok ps → map_ok m → b ∈ fv_cfg fv →
  ∃ m' wl', propagate join ps (m, wl) (entry b) = Ok (m', wl') ∧ extends m wl m' wl' ∧
    ∃ bi, m' !! entry b = Some bi ∧ dom_le ps (pre bi).
Proof.
  intros Hps Hm Hb. unfold propagate. destruct (m !! entry b) as [bi|] eqn:Hbi; cycle 1.
  { eexists _, _. split; [done|]. split; [apply extends_insert; [done|done|by rewrite Hbi]|].
    eexists. by rewrite lookup_insert_eq. }
  destruct (Hm _ _ Hbi) as [Hok _]. destruct (dom_join _ _ Hok Hps) as (j & r & -> & Hj & Hle1 & Hle2 & Hr). simpl.
  destruct r.
  - eexists _, _. split; [done|]. split; [apply extends_insert; [done|done|by rewrite Hbi]|].
    eexists. by rewrite lookup_insert_eq.
  - eexists _, _. split; [done|]. split; [apply extends_refl|]. subst j. eauto.
Qed.

Lemma propagate_all ps ss m wl : dom_ok ps → map_ok m → (∀ s, s ∈ ss → ∃ b, b ∈ fv_cfg fv ∧ entry b = s) →
  ∃ m' wl', r_fold (propagate join ps) ss (m, wl) = Ok (m', wl') ∧ extends m wl m' wl' ∧
    ∀ s, s ∈ ss → ∃ bi, m' !! s = Some bi ∧ dom_le ps (pre bi).
Proof.
  intros Hps. revert m wl. induction ss as [|s ss IH]; intros m wl Hm Hss; cbn [r_fold].
  { eexists _, _. split; [done|]. split; [apply extends_refl|]. by intros s ?%elem_of_nil. }
  destruct (Hss s) as (b & Hb & <-); [by left|].
  destruct (propagate_ok ps m wl b Hps Hm Hb) as (m1 & wl1 & -> & E1 & bi1 & Hbi1 & Hle1). cbn [r_bind].
  destruct (IH m1 wl1) as (m2 & wl2 & -> & E2 & Hall); [by eapply extends_ok|intros; apply Hss; by right|].
  eexists _, _. split; [done|]. split; [by eapply extends_trans|]. intros s [->|Hs]%elem_of_cons; [|by apply Hall].
  destruct (ext_old _ _ _ _ E2 _ _ Hbi1) as (bi2 & ? & ? & _). exists bi2. split; [done|by etrans].
Qed.

(** ** The loop *)

(** The block was run on its precondition, and its successors cover the result. *)
Definition processed m id bi : Prop :=
  match run_block id (pre bi) with
  | Ok ps => ∀ b s, b ∈ fv_cfg fv → entry b = id → s ∈ successors b → ∃ bi', m !! s = Some bi' ∧ dom_le ps (pre bi')
  | Err e => post bi = BlockError e
  | Panic _ => False
  end.

Record loop_inv m wl : Prop := {
  inv_entry : ∃ bi, m !! ENTRY_BLOCK_ID = Some bi ∧ dom_le init (pre bi);
  inv_ok : map_ok m;
  inv_processed id bi : m !! id = Some bi → id ∈ wl ∨ processed m id bi;
  inv_listed id : id ∈ wl → is_Some (m !! id);
}.

Lemma processed_extends m wl m' wl' id bi : extends m wl m' wl' → processed m id bi → processed m' id bi.
Proof.
  intros E. unfold processed. destruct (run_block id (pre bi)) as [ps| |]; [|done..]. intros H b s Hb Hid Hs.
  destruct (H b s Hb Hid Hs) as (bi1 & H1 & Hle). destruct (ext_old _ _ _ _ E _ _ H1) as (bi2 & ? & ? & _).
  exists bi2. split; [done|by etrans].
Qed.

Lemma entry_inj b b' : b ∈ fv_cfg fv → b' ∈ fv_cfg fv → entry b = entry b' → b = b'.
Proof.
  intros Hb Hb' He. pose proof (entry_block _ _ Hwf b Hb) as H1. pose proof (entry_block _ _ Hwf b' Hb') as H2. congruence.
Qed.

(** The map with the outcome of a block recorded: the preconditions are the same. *)
Lemma record_post m wl id bi p : m !! id = Some bi →
  let m1 := <[id := mkBlockInvariant (pre bi) p]> m in
  potential m1 = potential m ∧ (map_ok m → map_ok m1) ∧
  (∀ id' bi', id' ≠ id → processed m id' bi' → processed m1 id' bi').
Proof.
  intros Hbi m1. split_and!.
  - assert (Hpre : ∀ b, pre <$> m1 !! entry b = pre <$> m !! entry b).
    { intros b. unfold m1. destruct (decide (entry b = id)) as [->|]; [|by rewrite lookup_insert_ne].
      by rewrite lookup_insert_eq, Hbi. }
    apply Nat.le_antisymm; apply sum_list_with_le; intros b _; specialize (Hpre b);
      destruct (m1 !! entry b), (m !! entry b); simpl in Hpre; try discriminate; try done;
      injection Hpre as Hpre; by rewrite Hpre.
  - intros Hm id' bi' [[<- <-]|[Hne H]]%lookup_insert_Some; [|by eapply Hm]. by apply (Hm _ bi).
  - intros id' bi' Hne. unfold processed. destruct (run_block id' (pre bi')) as [ps| |]; [|done..].
    intros H b s Hb Hid Hs. destruct (H b s Hb Hid Hs) as (bi1 & H1 & Hle). destruct (decide (s = id)) as [->|].
    + eexists. unfold m1. rewrite lookup_insert_eq. split; [done|]. simpl. congruence.
    + exists bi1. unfold m1. by rewrite lookup_insert_ne.
Qed.

Lemma processed_error m id bi e : run_block id (pre bi) = Err e → processed m id (mkBlockInvariant (pre bi) (BlockError e)).
Proof. unfold processed. simpl. by intros ->. Qed.

Lemma analyze_block_ok m id wl : loop_inv m (id :: wl) →
  ∃ m' wl', analyze_block join execute fv m wl id = Ok (m', wl') ∧ loop_inv m' wl' ∧
    length wl' + potential m' ≤ length wl + potential m.
Proof.
  intros [(be & Hbe & Hle) Hm Hpr Hli]. destruct (Hli id) as [bi Hbi]; [by left|].
  destruct (Hm _ _ Hbi) as (Hok & b & Hb & Hid). unfold analyze_block. rewrite Hbi. simpl.
  destruct (run_block_ok b (pre bi) Hb Hok) as [Hnp Hps]. rewrite Hid in Hnp, Hps.
  destruct (run_block id (pre bi)) as [ps|e|msg] eqn:Hrun; [| |by destruct (Hnp msg)].
  - destruct (record_post m wl id bi BlockSuccess Hbi) as (Hpot & Hmap & Hkeep).
    set (m1 := <[id := mkBlockInvariant (pre bi) BlockSuccess]> m) in *.
    assert (block_at (fv_cfg fv) id = Ok b) as -> by (rewrite <- Hid; by eapply entry_block). cbn [r_bind].
    destruct (propagate_all ps (successors b) m1 wl) as (m2 & wl2 & -> & E & Hall);
      [by apply Hps|by apply Hmap|intros s Hs; by eapply successor_block|].
    eexists _, _. split; [done|]. split; [|pose proof (ext_measure _ _ _ _ E); lia]. constructor.
    + assert (∃ be1, m1 !! ENTRY_BLOCK_ID = Some be1 ∧ dom_le init (pre be1)) as (be1 & Hbe1 & Hle1).
      { unfold m1. destruct (decide (id = ENTRY_BLOCK_ID)) as [->|]; [|rewrite lookup_insert_ne by done; eauto].
        rewrite lookup_insert_eq. eexists. split; [done|]. simpl. congruence. }
      destruct (ext_old _ _ _ _ E _ _ Hbe1) as (be2 & ? & ? & _). exists be2. split; [done|by etrans].
    + eapply extends_ok; [done|by apply Hmap].
    + intros id2 bi2 H2. destruct (ext_new _ _ _ _ E _ _ H2) as [H1|(? & _)]; [|by left].
      apply lookup_insert_Some in H1 as [[<- <-]|[Hne H1]].
      * right. unfold processed. simpl. rewrite Hrun. intros b' s Hb' Hid' Hs.
        assert (b' = b) as -> by (apply entry_inj; [done..|congruence]). by apply Hall.
      * destruct (Hpr _ _ H1) as [[?|Hin]%elem_of_cons|Hp]; [done|left; by eapply ext_list|].
        right. eapply processed_extends; [done|]. by apply Hkeep.
    + intros id2 H2. destruct (ext_listed _ _ _ _ E _ H2) as [H1|]; [|done].
      destruct (Hli id2) as [bi2 Hbi2]; [by right|].
      assert (is_Some (m1 !! id2)) as [bi3 H3] by (apply lookup_insert_is_Some'; right; eauto).
      destruct (ext_old _ _ _ _ E _ _ H3) as (bi4 & ? & _). eauto.
  - destruct (record_post m wl id bi (BlockError e) Hbi) as (Hpot & Hmap & Hkeep).
    set (m1 := <[id := mkBlockInvariant (pre bi) (BlockError e)]> m) in *.
    eexists _, _. split; [done|]. split; [|lia]. constructor.
    + unfold m1. destruct (decide (id = ENTRY_BLOCK_ID)) as [->|]; [|rewrite lookup_insert_ne by done; eauto].
      rewrite lookup_insert_eq. eexists. split; [done|]. simpl. congruence.
    + by apply Hmap.
    + intros id2 bi2 [[<- <-]|[Hne H1]]%lookup_insert_Some; [right; by apply processed_error|].
      destruct (Hpr _ _ H1) as [[?|Hin]%elem_of_cons|Hp]; [done|by left|]. right. by apply Hkeep.
    + intros id2 H2. apply lookup_insert_is_Some'. right. apply Hli. by right.
Qed.

Lemma analyze_loop_ok fuel m wl : loop_inv m wl → length wl + potential m ≤ fuel →
  ∃ m', analyze_loop join execute fv fuel m wl = Ok m' ∧ loop_inv m' [].
Proof.
  revert m wl. induction fuel as [|fuel IH]; intros m wl Hinv Hfuel; destruct wl as [|id wl]; simpl.
  - eauto.
  - simpl in Hfuel. lia.
  - eauto.
  - destruct (analyze_block_ok m id wl Hinv) as (m1 & wl1 & -> & Hinv1 & Hle). cbn [r_bind].
    apply IH; [done|]. simpl in Hfuel. lia.
Qed.

(** The invariant map that the analysis returns. *)
Record fixpoint m : Prop := {
  fix_entry : ∃ bi, m !! ENTRY_BLOCK_ID = Some bi ∧ dom_le init (pre bi);
  fix_ok id bi : m !! id = Some bi → dom_ok (pre bi) ∧ ∃ b, b ∈ fv_cfg fv ∧ entry b = id;
  fix_processed id bi : m !! id = Some bi → processed m id bi;
}.

Lemma analyze_function_ok fuel : fv_code fv ≠ [] → 1 + length (fv_cfg fv) * (dom_height + 1) ≤ fuel →
  ∃ m, analyze_function join execute fv fuel init = Ok m ∧ fixpoint m.
Proof.
  intros Hne Hfuel. unfold analyze_function.
  destruct (block_of _ _ Hwf 0) as (b & Hb & He0 & _); [destruct (fv_code fv); [done|simpl; lia]|].
  destruct (analyze_loop_ok fuel {[ENTRY_BLOCK_ID := mkBlockInvariant init Unprocessed]} [ENTRY_BLOCK_ID])
    as (m & -> & [He Hok Hpr _]).
  - constructor.
    + eexists. by rewrite lookup_singleton_eq.
    + intros id bi [<- <-]%lookup_singleton_Some. split; [done|]. exists b. split; [done|]. unfold ENTRY_BLOCK_ID. lia.
    + intros id bi [<- <-]%lookup_singleton_Some. left. by left.
    + intros id ->%list_elem_of_singleton. rewrite lookup_singleton_eq. eauto.
  - etrans; [|exact Hfuel]. cbn [length]. apply Nat.add_le_mono_l.
    etrans; [apply (sum_list_with_le _ (λ _, dom_height + 1))|].
    + intros b' _. destruct (_ !! entry b') as [bi|] eqn:H; [|lia].
      apply lookup_singleton_Some in H as [_ <-]. pose proof (dom_rank_height _ init_ok). simpl. lia.
    + clear. induction (fv_cfg fv); simpl; lia.
  - exists m. split; [done|]. constructor; [done|done|]. intros id bi H.
    destruct (Hpr _ _ H) as [?%elem_of_nil|]; [done|done].
Qed.

(** ** Soundness *)

(** The states the analysis found before the instruction at [pc]. *)
Definition at_pc m (pc : nat) (s : State) : Prop :=
  ∃ b bi, b ∈ fv_cfg fv ∧ m !! entry b = Some bi ∧ entry b ≤ pc ∧ pc ≤ exit b ∧
    r_fold (execute_offset execute fv) (seq (entry b) (pc - entry b)) (pre bi) = Ok s.

Definition no_errors m : Prop := ∀ id bi e, m !! id = Some bi → post bi ≠ BlockError e.

Lemma at_pc_entry m : fixpoint m → ∃ s, at_pc m 0 s ∧ dom_le init s.
Proof.
  intros [(bi & Hbi & Hle) Hok _]. destruct (Hok _ _ Hbi) as (_ & b & Hb & He). unfold ENTRY_BLOCK_ID in *.
  exists (pre bi). split; [|done]. exists b, bi. split_and!; [done|congruence|lia|lia|]. by rewrite He.
Qed.

Lemma at_pc_ok m pc s : fixpoint m → at_pc m pc s → dom_ok s.
Proof.
  intros [_ Hok _] (b & bi & Hb & Hbi & Hle & Hex & Hrun). destruct (Hok _ _ Hbi) as (Hpre & _).
  destruct (fold_offsets (seq (entry b) (pc - entry b)) (pre bi)) as [_ H]; [done| |by apply H].
  intros i Hi. apply elem_of_seq in Hi. destruct (chain_bounds _ _ _ _ (wf_chain _ _ Hwf) Hb) as (_ & ? & ?). lia.
Qed.

(** Every instruction that is reached runs on what the analysis found, and what it leaves is
    covered where the control goes next. *)
Lemma at_pc_step m pc s instr : fixpoint m → no_errors m → at_pc m pc s → fv_code fv !! pc = Some instr →
  ∃ s', execute s instr = Ok s' ∧ ∀ pc', edge (fv_code fv) pc pc' → ∃ s'', at_pc m pc' s'' ∧ dom_le s' s''.
Proof.
  intros [_ Hok Hpr] Hne (b & bi & Hb & Hbi & Hle & Hex & Hrun) Hi.
  assert (Hx : execute_offset execute fv s pc = execute s instr).
  { unfold execute_offset. by rewrite (proj2 (at_index_ok _ _ _) Hi). }
  pose proof (Hpr _ _ Hbi) as Hp. unfold processed in Hp. rewrite execute_block_eq in Hp by done.
  assert (Hsplit : instr_indexes b = (seq (entry b) (pc - entry b) ++ [pc]) ++ seq (pc + 1) (exit b - pc)).
  { unfold instr_indexes. replace (exit b + 1 - entry b) with ((pc - entry b) + (1 + (exit b - pc))) by lia.
    rewrite seq_app, <- app_assoc. f_equal. replace (entry b + (pc - entry b)) with pc by lia. simpl.
    by rewrite Nat.add_1_r. }
  rewrite Hsplit, r_fold_app, r_fold_snoc, Hrun in Hp. cbn [r_bind] in Hp. rewrite Hx in Hp.
  destruct (execute s instr) as [s'|e|msg] eqn:He; [|by destruct (Hne _ _ _ Hbi Hp)|done].
  exists s'. split; [done|]. intros pc' Hedge. cbn [r_bind] in Hp. destruct (decide (pc = exit b)) as [->|Hlt].
  - replace (exit b - exit b) with 0 in Hp by lia. simpl in Hp.
    destruct (Hp b pc' Hb eq_refl) as (bi' & Hbi' & Hle'); [by eapply edge_exit|].
    destruct (Hok _ _ Hbi') as (_ & b' & Hb' & He'). exists (pre bi'). split; [|done].
    destruct (chain_bounds _ _ _ _ (wf_chain _ _ Hwf) Hb') as (_ & ? & _).
    exists b', bi'. split_and!; [done|congruence|lia|lia|]. by rewrite He', Nat.sub_diag.
  - assert (pc' = pc + 1) as -> by (eapply edge_inner; eauto; lia). exists s'. split; [|done].
    exists b, bi. split_and!; [done|done|lia|lia|].
    replace (pc + 1 - entry b) with (S (pc - entry b)) by lia. rewrite seq_S, r_fold_snoc, Hrun. cbn [r_bind].
    by replace (entry b + (pc - entry b)) with pc by lia; rewrite Hx.
Qed.
End absint.

(** ** The order *)

Definition local_le (a b : LocalState) : Prop := b = a ∨ b = MaybeAvailable.
Global Instance local_le_preorder : PreOrder local_le.
Proof. split; [by left|]. intros a b c [->| ->] [->| ->]; unfold local_le; auto. Qed.

Definition state_le (s t : AbstractState) : Prop :=
  all_local_abilities t = all_local_abilities s ∧ Forall2 local_le (local_states s) (local_states t).
Global Instance state_le_preorder : PreOrder state_le.
Proof.
  split; [intros s; by split|]. intros s t u [H1 H2] [H3 H4]. split; [congruence|]. by etrans.
Qed.

(** The locals that may still climb. *)
Definition rank (ls : list LocalState) : nat := length (filter (λ l, l ≠ MaybeAvailable) ls).

Lemma join_local_le a b : local_le a (join_local a b) ∧ local_le b (join_local a b).
Proof. destruct a, b; unfold local_le; simpl; auto. Qed.

Lemma join_states (ls ks : list LocalState) : length ls = length ks →
  Forall2 local_le ls (zip_with join_local ls ks) ∧ Forall2 local_le ks (zip_with join_local ls ks) ∧
  rank (zip_with join_local ls ks) ≤ rank ls ∧ (zip_with join_local ls ks ≠ ls → rank (zip_with join_local ls ks) < rank ls).
Proof.
  revert ks. induction ls as [|l ls IH]; intros [|k ks] Hlen; try done. simpl in *.
  destruct (IH ks) as (H1 & H2 & H3 & H4); [lia|]. destruct (join_local_le l k) as [Hl Hk].
  split_and!; [by constructor..| |]; unfold rank in *; rewrite !filter_cons.
  - destruct (decide (l ≠ MaybeAvailable)) as [Hd|Hd], (decide (join_local l k ≠ MaybeAvailable)) as [He|He]; simpl; try lia.
    destruct He. destruct Hl as [->|]; [|done]. by apply dec_stable in Hd.
  - intros Hne. destruct (decide (join_local l k = l)) as [Heq|Heq].
    + rewrite Heq in *. assert (zip_with join_local ls ks ≠ ls) as Hlt%H4 by congruence.
      destruct (decide (l ≠ MaybeAvailable)); simpl; lia.
    + destruct Hl as [|Hm]; [done|]. rewrite Hm in *. rewrite (decide_False (P := MaybeAvailable ≠ MaybeAvailable)) by auto.
      rewrite decide_True by done. simpl. lia.
Qed.

(** ** The domain *)

Section domain.
Context (abs : list AbilitySet) (code : list Bytecode).
Context (Hloc : ∀ instr idx, instr ∈ code → local_index instr = Some idx → idx < length abs).

Definition state_ok (s : AbstractState) : Prop := all_local_abilities s = abs ∧ length (local_states s) = length abs.

Lemma local_state_ok s idx : state_ok s → idx < length abs → ∃ l a, local_state s idx = Ok l ∧ local_abilities s idx = Ok a ∧
  local_states s !! idx = Some l ∧ abs !! idx = Some a.
Proof.
  intros [Ha Hl] Hlt. unfold local_state, local_abilities. rewrite Ha.
  destruct (at_index_lt (local_states s) idx) as (l & -> & ?); [lia|]. destruct (at_index_lt abs idx Hlt) as (a & -> & ?).
  eauto 10.
Qed.
Lemma set_local_ok s idx l : state_ok s → idx < length abs →
  set_local s idx l = Ok (mkAbstractState abs (<[idx := l]> (local_states s))) ∧
  state_ok (mkAbstractState abs (<[idx := l]> (local_states s))).
Proof.
  intros [Ha Hl] Hlt. unfold set_local. rewrite Hl, (proj2 (Nat.ltb_lt _ _) Hlt), Ha. split; [done|].
  split; [done|]. simpl. by rewrite length_insert.
Qed.

Lemma execute_inner_ok s instr : state_ok s → instr ∈ code →
  no_panic (execute_inner s instr) ∧ ∀ s', execute_inner s instr = Ok s' → state_ok s'.
Proof.
  intros Hs Hin. specialize (Hloc instr).
  destruct instr; simpl; try (by split; [apply no_panic_Ok|intros s' [= <-]]).
  { destruct (Nat.eqb_spec (length (local_states s)) (length (all_local_abilities s))) as [_|Hne]; [|destruct Hs; congruence].
    split; [|intros s' H; r_inv H; by subst]. apply no_panic_bind; [|intros; apply no_panic_Ok].
    apply no_panic_for. intros x _. destruct (unsafe_to_destroy x.1 x.2); solve_no_panic. }
  all: destruct (local_state_ok s idx Hs) as (l & a & Hl & Ha & _); [by apply Hloc|];
       pose proof (Hloc idx Hin eq_refl) as Hlt; unfold set_unavailable, set_available; rewrite ?Hl; cbn [r_bind];
       destruct l; rewrite ?Hl, ?Ha; cbn [r_bind]; try destruct (negb (has_drop a));
       try (by split; [apply no_panic_Err|]); try (by split; [apply no_panic_Ok|intros s' [= <-]]).
  all: destruct (set_local_ok s idx Unavailable Hs Hlt) as [? ?]; destruct (set_local_ok s idx Available Hs Hlt) as [? ?];
       split; [intros msg|intros s' Hs']; congruence.
Qed.

Lemma ls_join_ok s t : state_ok s → state_ok t →
  ∃ j r, ls_join s t = Ok (j, r) ∧ state_ok j ∧ state_le s j ∧ state_le t j ∧
    match r with Unchanged => j = s | Changed => rank (local_states j) < rank (local_states s) end.
Proof.
  intros [Has Hls] [Hat Hlt]. unfold ls_join. rewrite Has, Hat, Hls, Hlt, !Nat.eqb_refl. simpl.
  destruct (join_states (local_states s) (local_states t)) as (H1 & H2 & _ & H4); [congruence|].
  case_bool_decide as Heq; eexists _, _; (split; [done|]).
  - split_and!; [done|done| |done]. split; [congruence|]. by rewrite Heq.
  - split_and!; [split; simpl; [done|rewrite length_zip_with; lia]|by split|by split; simpl; [congruence|]|]. simpl. by apply H4.
Qed.

Lemma rank_height s : state_ok s → rank (local_states s) ≤ length abs.
Proof. intros [_ <-]. unfold rank. apply length_filter. Qed.

Definition locals_domain : AbstractDomain ls_join execute_inner code := {|
  dom_ok := state_ok;
  dom_le := state_le;
  dom_rank s := rank (local_states s);
  dom_height := length abs;
  dom_rank_height := rank_height;
  dom_join := ls_join_ok;
  dom_execute := execute_inner_ok;
|}.
End domain.

(** ** The pass *)

Section pass.
Context (view : BinaryIndexedView) (fv : FunctionView) (Hc : code_checked view fv).
Context (Hwf : wf_cfg (fv_code fv) (fv_cfg fv)) (Hlen : (Z.of_nat (length (fv_code fv)) ≤ 65534)%Z).
Context (Hne : fv_code fv ≠ []).

Lemma initial_state_ok : ∃ abs s, AbstractState_new view fv = Ok s ∧ state_ok abs s ∧
  Forall2 (λ t a, abilities view t (fv_type_parameters fv) = Ok a) (fv_parameters fv ++ fv_locals fv) abs ∧
  local_states s = replicate (length (fv_parameters fv)) Available ++ replicate (length (fv_locals fv)) Unavailable.
Proof.
  unfold AbstractState_new.
  destruct (r_collect_ok (λ st, abilities view st (fv_type_parameters fv)) (fv_parameters fv ++ fv_locals fv)) as (abs & -> & HF).
  { intros t Ht. apply abilities_ok. apply elem_of_app in Ht as [Ht|Ht].
    - pose proof (checked_parameters _ _ Hc) as H. rewrite Forall_forall in H. auto.
    - pose proof (checked_locals _ _ Hc) as H. rewrite Forall_forall in H. auto. }
  simpl. eexists abs, _. split; [done|]. split_and!; [split; [done|]; simpl|done|done].
  rewrite <- (Forall2_length _ _ _ HF), !length_app, !length_replicate. done.
Qed.

Lemma offsets_in pc bc off : fv_code fv !! pc = Some bc → branch_offset bc = Some off → off < length (fv_code fv).
Proof. intros Hpc%list_elem_of_lookup_2. by eapply offset_ok. Qed.

(** The analysis, before its errors are looked at. *)
Lemma analysis_ok : ∃ abs s0 m (D : AbstractDomain ls_join execute_inner (fv_code fv)),
  AbstractState_new view fv = Ok s0 ∧
  Forall2 (λ t a, abilities view t (fv_type_parameters fv) = Ok a) (fv_parameters fv ++ fv_locals fv) abs ∧
  local_states s0 = replicate (length (fv_parameters fv)) Available ++ replicate (length (fv_locals fv)) Unavailable ∧
  analyze_function ls_join execute_inner fv (analysis_fuel fv (length (local_states s0))) s0 = Ok m ∧
  fixpoint ls_join execute_inner fv s0 m ∧ dom_ok (AbstractDomain := D) = state_ok abs ∧ dom_le (AbstractDomain := D) = state_le.
Proof.
  destruct initial_state_ok as (abs & s0 & Hs0 & Hok & HF & Hinit).
  assert (Hloc : ∀ instr idx, instr ∈ fv_code fv → local_index instr = Some idx → idx < length abs).
  { intros instr idx Hin Hop. rewrite <- (Forall2_length _ _ _ HF). by eapply local_index_lt. }
  set (D := locals_domain abs (fv_code fv) Hloc).
  destruct (analyze_function_ok ls_join execute_inner fv (D := D) s0 Hok Hwf Hlen offsets_in
              (analysis_fuel fv (length (local_states s0))) Hne) as (m & Hm & Hfix).
  { unfold analysis_fuel. destruct Hok as [_ ->]. done. }
  exists abs, s0, m, D. done.
Qed.

Lemma locals_safety_no_panic : no_panic (locals_safety_verify view fv).
Proof.
  unfold locals_safety_verify. destruct analysis_ok as (abs & s0 & m & D & -> & _ & _ & Hm & _). cbn [r_bind]. rewrite Hm. cbn [r_bind].
  apply no_panic_for. intros id _. destruct (post <$> m !! id) as [[| |]|]; solve_no_panic.
Qed.

(** What acceptance means: states at every offset the control can reach, from which no
    instruction fails, and which cover each other along the edges. *)
Lemma locals_safety_sound : locals_safety_verify view fv = Ok () →
  ∃ abs (at_pc : nat → AbstractState → Prop),
    Forall2 (λ t a, abilities view t (fv_type_parameters fv) = Ok a) (fv_parameters fv ++ fv_locals fv) abs ∧
    (∃ s, at_pc 0 s ∧ Forall2 local_le (replicate (length (fv_parameters fv)) Available ++
                                       replicate (length (fv_locals fv)) Unavailable) (local_states s)) ∧
    (∀ pc s, at_pc pc s → state_ok abs s) ∧
    (∀ pc s instr, at_pc pc s → fv_code fv !! pc = Some instr →
      ∃ s', execute_inner s instr = Ok s' ∧ ∀ pc', edge (fv_code fv) pc pc' → ∃ s'', at_pc pc' s'' ∧ state_le s' s'').
Proof.
  unfold locals_safety_verify. destruct analysis_ok as (abs & s0 & m & D & -> & HF & Hinit & Hm & Hfix & Hdok & Hdle).
  cbn [r_bind]. rewrite Hm. cbn [r_bind]. intros Hpost.
  assert (Hno : no_errors m).
  { intros id bi e Hbi He. destruct (fix_ok _ _ _ _ _ Hfix _ _ Hbi) as (_ & b & Hb & Hid).
    assert (Hin : id ∈ cfg_blocks (fv_cfg fv)) by (rewrite <- Hid; by apply list_elem_of_fmap_2).
    pose proof (r_for_elem _ _ _ _ Hpost Hin) as Hx. simpl in Hx. rewrite Hbi in Hx. simpl in Hx. by rewrite He in Hx. }
  exists abs, (at_pc execute_inner fv m). split_and!; [done|..].
  - destruct (at_pc_entry _ _ _ _ _ Hfix) as (s & Hs & Hle). exists s. split; [done|]. rewrite Hdle in Hle.
    destruct Hle as [_ Hle]. by rewrite Hinit in Hle.
  - intros pc s Hs. rewrite <- Hdok. by eapply at_pc_ok.
  - intros pc s instr Hs Hi. rewrite <- Hdle. by eapply (at_pc_step ls_join execute_inner fv s0).
Qed.
End pass.
