(* ===== verification/VerifierSafety.v ===== *)
(** * VerifierSafety: the bytecode verifier does not panic

    Each pass relies on what the passes before it established; together they neither index out
    of a table, nor pop an empty stack, nor fail an assertion, on any module or script whose
    functions have at most 65534 instructions. *)

From S2P Require Import Prelude FileFormat CodeFlow BoundsCheck Declarations TypeSafety.
From S2P Require Import Declarations LocalsSafety CodeFlowFacts LocalsFacts TypeFacts VerifierFacts StackFacts.

Local Open Scope nat_scope.

(** ** Bounds *)

Section bounds.
Context (view : BinaryIndexedView).

Lemma check_bytecode_no_panic cl lc tc instr : no_panic (check_bytecode view cl lc tc instr).
Proof.
  destruct instr; simpl; unfold check_bounds_impl_opt, check_bounds_impl, check_signature_parameters, check_type_parameter,
    check_type_parameter_token; solve_no_panic.
Qed.

Lemma bc_check_code_no_panic c tps ps : no_panic (bc_check_code view c tps ps).
Proof.
  unfold bc_check_code. apply no_panic_bind; [unfold check_bounds_impl; solve_no_panic|]. intros [].
  apply no_panic_bind; [unfold get_locals; solve_no_panic|]. intros ls.
  apply no_panic_bind; [unfold check_type_parameter, check_type_parameter_token; solve_no_panic|]. intros [].
  apply no_panic_for. intros. apply check_bytecode_no_panic.
Qed.

Lemma check_function_def_no_panic d : (∀ fh, fh ∈ view_function_handles view → fh_parameters fh < length (view_signatures view)) →
  no_panic (check_function_def view d).
Proof.
  intros Hfh. unfold check_function_def. apply no_panic_bind_ok; [unfold check_bounds_impl; solve_no_panic|].
  intros [] Hb%bounds_ok. apply no_panic_bind; [unfold check_bounds_impl_opt, check_bounds_impl; solve_no_panic|]. intros [].
  destruct (fn_code d) as [c|]; [|solve_no_panic]. destruct (at_index_lt _ _ Hb) as (fh & -> & Hl). simpl.
  apply no_panic_bind; [by eapply at_index_no_panic, Hfh, list_elem_of_lookup_2|]. intros ps.
  apply no_panic_bind; [unfold get_locals; solve_no_panic|]. intros ls. destruct (_ <? _); [solve_no_panic|apply bc_check_code_no_panic].
Qed.

Lemma verify_impl_no_panic : no_panic (verify_impl view).
Proof.
  unfold verify_impl.
  do 5 (apply no_panic_bind; [unfold bc_check_signature, check_constant, check_type, check_type_token, check_module_handle,
    check_self_module_handle, check_struct_handle, check_bounds_impl; solve_no_panic|intros []]).
  apply no_panic_bind_ok.
  { unfold check_function_handle, check_bounds_impl, check_signature_parameters, check_type_parameter, check_type_parameter_token.
    solve_no_panic. }
  intros [] Hfh. do 6 (apply no_panic_bind; [unfold check_field_handle, check_module_handle, check_struct_instantiation,
    check_function_instantiation, check_field_instantiation, check_struct_def, check_type, check_type_token, check_type_parameter,
    check_type_parameter_token, check_bounds_impl_opt, check_bounds_impl; solve_no_panic|intros []]).
  apply no_panic_for. intros d _. apply check_function_def_no_panic. intros fh Hin.
  pose proof (r_for_elem _ _ _ _ Hfh Hin) as Hx. unfold check_function_handle in Hx. r_inv Hx. by eapply bounds_ok.
Qed.
End bounds.

(** ** Signatures *)

Section signatures.
Context (view : BinaryIndexedView) (Ht : tables_ok view).

Lemma check_signature_token_no_panic t : no_panic (check_signature_token t).
Proof.
  induction t using token_ind; simpl; try solve_no_panic.
  induction H as [|t ts Hx _ IH]; [apply no_panic_Ok|]. apply no_panic_bind; [done|]. by intros [].
Qed.
Lemma check_signature_tokens_no_panic ts : no_panic (check_signature_tokens ts).
Proof. apply no_panic_for. intros. apply check_signature_token_no_panic. Qed.

Lemma check_signature_no_panic idx : idx < length (view_signatures view) → no_panic (check_signature view idx).
Proof.
  intros Hlt. unfold check_signature. apply no_panic_bind; [by apply at_index_no_panic|]. intros sig. apply no_panic_for.
  intros t _. destruct t; apply check_signature_token_no_panic.
Qed.

Lemma check_generic_instance_no_panic targs cs gs : Forall (type_wf view (length gs)) targs →
  no_panic (check_generic_instance view targs cs gs).
Proof.
  intros Hw. unfold check_generic_instance. destruct (negb _); [solve_no_panic|]. apply no_panic_for.
  intros [c t] Hin%elem_of_zip_r. rewrite Forall_forall in Hw. simpl. destruct (abilities_ok view gs t) as [a ->]; [by apply Hw|].
  simpl. solve_no_panic.
Qed.
Lemma check_type_instantiation_no_panic tps t : type_wf view (length tps) t → no_panic (check_type_instantiation view tps t).
Proof.
  destruct t; simpl; try solve_no_panic. intros [(sh & Hsh & _) Hw]%wf_instantiation.
  unfold struct_handle_at. rewrite (proj2 (at_index_ok _ _ _) Hsh). by apply check_generic_instance_no_panic.
Qed.
Lemma check_instantiation_no_panic idx sig tps : view_signatures view !! idx = Some sig → Forall (type_wf view (length tps)) sig →
  no_panic (check_instantiation view idx tps).
Proof.
  intros Hsig Hw. unfold check_instantiation, signature_at. rewrite (proj2 (at_index_ok _ _ _) Hsig). simpl.
  apply no_panic_for. intros t Hin. rewrite Forall_forall in Hw. by apply check_type_instantiation_no_panic, Hw.
Qed.

Lemma check_phantom_params_no_panic tps pos t : type_wf view (length tps) t → no_panic (check_phantom_params view tps pos t).
Proof.
  revert pos. induction t using token_ind; intros pos Hw; simpl; try (by solve_no_panic).
  - apply IHt. by apply (proj1 (wf_vector _ _ _)).
  - apply (proj1 (wf_instantiation _ _ _ _)) in Hw as [(sh & Hsh & Hlen) Hw]. unfold struct_handle_at.
    rewrite (proj2 (at_index_ok _ _ _) Hsh). cbn [r_bind].
    match goal with |- no_panic (?go 0 ts) =>
      enough (Hgo : ∀ k, k + length ts ≤ length (sh_type_parameters sh) → no_panic (go k ts)) by (apply Hgo; lia) end.
    clear Hlen Hsh.
    induction H as [|t ts Hx HF IH]; intros k Hk; [apply no_panic_Ok|]. apply Forall_cons in Hw as [Hw Hws]. simpl in Hk.
    destruct (at_index_lt (sh_type_parameters sh) k) as (p & -> & _); [lia|]. cbn [r_bind].
    apply no_panic_bind; [by apply Hx|]. intros []. apply IH; [done|lia].
  - apply (proj1 (wf_parameter _ _ _)) in Hw. destruct (at_index_lt _ _ Hw) as (p & -> & _). simpl. solve_no_panic.
Qed.

Lemma verify_function_signature_no_panic fh : fh ∈ view_function_handles view → no_panic (verify_function_signature view fh).
Proof.
  intros Hin. destruct (ok_function_handle _ Ht fh Hin) as (ps & rs & Hps & Hrs & Hwp & Hwr). unfold verify_function_signature.
  apply no_panic_bind; [by eapply check_signature_no_panic, lookup_lt_Some|]. intros [].
  apply no_panic_bind; [by eapply check_instantiation_no_panic|]. intros [].
  apply no_panic_bind; [by eapply check_signature_no_panic, lookup_lt_Some|]. intros [].
  by eapply check_instantiation_no_panic.
Qed.

Lemma verify_fields_no_panic ds d : view_struct_defs view = Some ds → d ∈ ds → no_panic (verify_fields view d).
Proof.
  intros Hds Hd. unfold verify_fields. destruct (field_information d) as [|fields] eqn:Hf; [solve_no_panic|].
  destruct (ok_struct_def _ Ht ds d Hds Hd) as (sh & Hsh & Hw). specialize (Hw fields Hf). rewrite Forall_forall in Hw.
  unfold struct_handle_at. rewrite (proj2 (at_index_ok _ _ _) Hsh). simpl. apply no_panic_for. intros f Hin. unfold verify_field.
  apply no_panic_bind; [apply check_signature_token_no_panic|]. intros [].
  apply no_panic_bind; [|intros []; by apply check_phantom_params_no_panic, Hw].
  apply check_type_instantiation_no_panic. unfold type_param_constraints. rewrite length_fmap. by apply Hw.
Qed.

(** ** Code, before the passes over functions *)

(** Generic instructions have the entries they refer to. *)
Lemma struct_instantiation_lookup n idx : check_bytecode view 0 0 n (Bytecode.PackGeneric idx) = Ok () →
  (∃ e, struct_instantiation_at view idx = Err e) ∨
  ∃ i d sh sig, struct_instantiation_at view idx = Ok i ∧ struct_def_at view (sdi_def i) = Ok d ∧
    struct_handle_at view (struct_handle d) = Ok sh ∧ signature_at view (sdi_type_parameters i) = Ok sig ∧ Forall (type_wf view n) sig.
Proof.
  simpl. intros H. r_inv H. unfold struct_instantiation_at, at_index_opt.
  destruct (view_struct_instantiations view) as [il|] eqn:Hil; [|left; simpl; eauto]. right. apply bounds_opt_ok in Hs.
  simpl in *. destruct (at_index_lt _ _ Hs) as (i & Ha & Hi). rewrite Hi in H.
  destruct (ok_struct_instantiation _ Ht il i Hil) as (ds & d & sig & Hds & Hd & Hsig); [by eapply list_elem_of_lookup_2|].
  destruct (ok_struct_def _ Ht ds d Hds) as (sh & Hsh & _); [by eapply list_elem_of_lookup_2|].
  exists i, d, sh, sig. split_and!; [done| |by apply at_index_ok..|].
  - unfold struct_def_at, at_index_opt. rewrite Hds. by apply at_index_ok.
  - eapply signature_parameters_ok; [apply Ht|done|done].
Qed.

Lemma field_handle_lookup hs idx h : view_field_handles view = Some hs → hs !! idx = Some h →
  ∃ d sh, field_handle_at view idx = Ok h ∧ struct_def_at view (owner h) = Ok d ∧ struct_handle_at view (struct_handle d) = Ok sh.
Proof.
  intros Hhs Hh. destruct (ok_field_handle _ Ht hs h Hhs) as (ds & d & fields & f & Hds & Hd & _); [by eapply list_elem_of_lookup_2|].
  destruct (ok_struct_def _ Ht ds d Hds) as (sh & Hsh & _); [by eapply list_elem_of_lookup_2|]. exists d, sh.
  unfold field_handle_at, struct_def_at, at_index_opt. rewrite Hhs, Hds. split_and!; by apply at_index_ok.
Qed.

Lemma field_instantiation_lookup n idx : check_bytecode view 0 0 n (Bytecode.MutBorrowFieldGeneric idx) = Ok () →
  (∃ e, field_instantiation_at view idx = Err e) ∨
  ∃ i h d sh sig, field_instantiation_at view idx = Ok i ∧ field_handle_at view (fdi_handle i) = Ok h ∧
    struct_def_at view (owner h) = Ok d ∧
    struct_handle_at view (struct_handle d) = Ok sh ∧ signature_at view (fdi_type_parameters i) = Ok sig ∧ Forall (type_wf view n) sig.
Proof.
  simpl. intros H. r_inv H. unfold field_instantiation_at, at_index_opt.
  destruct (view_field_instantiations view) as [il|] eqn:Hil; [|left; simpl; eauto]. right. apply bounds_opt_ok in Hs.
  simpl in *. destruct (at_index_lt _ _ Hs) as (i & Ha & Hi). rewrite Hi in H.
  destruct (ok_field_instantiation _ Ht il i Hil) as (hs & h & sig & Hhs & Hh & Hsig); [by eapply list_elem_of_lookup_2|].
  destruct (field_handle_lookup hs _ h Hhs Hh) as (d & sh & Hfh & Hd & Hsh).
  exists i, h, d, sh, sig. split_and!; [done..|by apply at_index_ok|].
  eapply signature_parameters_ok; [apply Ht|done|done].
Qed.

Lemma generic_struct_no_panic idx tps : check_bytecode view 0 0 (length tps) (Bytecode.PackGeneric idx) = Ok () →
  no_panic (verify_bytecode view tps (Bytecode.PackGeneric idx)) ∧ no_panic (check_instruction view (Bytecode.PackGeneric idx)).
Proof.
  intros H. simpl verify_bytecode. simpl check_instruction.
  destruct (struct_instantiation_lookup (length tps) idx H) as [[e ->]|(i & d & sh & sig & -> & Hd & Hsh & Hsig & Hw)].
  { split; apply no_panic_Err. }
  simpl. unfold check_type_op. rewrite Hd. simpl. rewrite Hsh. simpl. rewrite Hsig. simpl. split; [|solve_no_panic].
  apply no_panic_bind; [apply check_signature_tokens_no_panic|]. intros []. by apply check_generic_instance_no_panic.
Qed.
Lemma generic_field_no_panic idx tps : check_bytecode view 0 0 (length tps) (Bytecode.MutBorrowFieldGeneric idx) = Ok () →
  no_panic (verify_bytecode view tps (Bytecode.MutBorrowFieldGeneric idx)) ∧
  no_panic (check_instruction view (Bytecode.MutBorrowFieldGeneric idx)).
Proof.
  intros H. simpl verify_bytecode. simpl check_instruction.
  destruct (field_instantiation_lookup (length tps) idx H) as [[e ->]|(i & h & d & sh & sig & -> & Hh & Hd & Hsh & Hsig & Hw)].
  { split; apply no_panic_Err. }
  simpl. unfold check_field_op, check_type_op. rewrite Hh. simpl. rewrite Hd. simpl. rewrite Hsh. simpl. rewrite Hsig. simpl.
  split; [|solve_no_panic].
  apply no_panic_bind; [apply check_signature_tokens_no_panic|]. intros []. by apply check_generic_instance_no_panic.
Qed.
Lemma generic_call_no_panic idx tps : check_bytecode view 0 0 (length tps) (Bytecode.CallGeneric idx) = Ok () →
  no_panic (verify_bytecode view tps (Bytecode.CallGeneric idx)) ∧ no_panic (check_instruction view (Bytecode.CallGeneric idx)).
Proof.
  simpl. intros H. r_inv H. apply bounds_ok in Hs. unfold function_instantiation_at, check_function_op, function_handle_at, signature_at.
  destruct (at_index_lt _ _ Hs) as (i & -> & Hi). rewrite Hi in H.
  destruct (ok_function_instantiation _ Ht i) as (fh & sig & Hfh & Hsig); [by eapply list_elem_of_lookup_2|]. simpl.
  rewrite (proj2 (at_index_ok _ _ _) Hfh), (proj2 (at_index_ok _ _ _) Hsig). simpl. split; [|solve_no_panic].
  apply no_panic_bind; [apply check_signature_tokens_no_panic|]. intros []. apply check_generic_instance_no_panic.
  eapply signature_parameters_ok; [apply Ht|done|done].
Qed.
Lemma vector_no_panic idx tps cl lc n : check_bytecode view cl lc n (Bytecode.VecLen idx) = Ok () →
  no_panic (verify_bytecode view tps (Bytecode.VecLen idx)).
Proof.
  simpl. intros H. r_inv H. apply bounds_ok in Hs. apply no_panic_bind; [by apply at_index_no_panic|]. intros sig.
  destruct (negb _); [solve_no_panic|]. apply check_signature_tokens_no_panic.
Qed.

Lemma check_type_op_no_panic ds idx b : view_struct_defs view = Some ds → idx < length ds → no_panic (check_type_op view idx b).
Proof.
  intros Hds Hlt. unfold check_type_op, struct_def_at, at_index_opt. rewrite Hds. simpl.
  destruct (at_index_lt _ _ Hlt) as (d & -> & Hd). simpl.
  destruct (ok_struct_def _ Ht ds d Hds) as (sh & Hsh & _); [by eapply list_elem_of_lookup_2|].
  unfold struct_handle_at. rewrite (proj2 (at_index_ok _ _ _) Hsh). simpl. solve_no_panic.
Qed.
Lemma plain_struct_no_panic idx cl lc n : check_bytecode view cl lc n (Bytecode.Pack idx) = Ok () →
  no_panic (check_instruction view (Bytecode.Pack idx)).
Proof.
  simpl. intros H. destruct (view_struct_defs view) as [ds|] eqn:Hds; [|unfold check_type_op, struct_def_at, at_index_opt; rewrite Hds; apply no_panic_Err].
  apply bounds_opt_ok in H. by eapply check_type_op_no_panic.
Qed.
Lemma plain_field_no_panic idx cl lc n : check_bytecode view cl lc n (Bytecode.MutBorrowField idx) = Ok () →
  no_panic (check_instruction view (Bytecode.MutBorrowField idx)).
Proof.
  simpl. intros H. unfold check_field_op.
  destruct (view_field_handles view) as [hs|] eqn:Hhs; [|unfold field_handle_at, at_index_opt; rewrite Hhs; apply no_panic_Err].
  apply bounds_opt_ok, lookup_lt_is_Some_2 in H as [h Hh].
  destruct (field_handle_lookup hs idx h Hhs Hh) as (d & sh & -> & Hd & Hsh). simpl. unfold check_type_op.
  rewrite Hd. simpl. rewrite Hsh. simpl. solve_no_panic.
Qed.

(** The passes over single instructions, on code whose indices are in bounds. *)
Lemma verify_bytecode_no_panic instr tps cl lc : check_bytecode view cl lc (length tps) instr = Ok () →
  no_panic (verify_bytecode view tps instr).
Proof.
  intros H. destruct instr; try (apply no_panic_Ok); first [by apply generic_struct_no_panic | by apply generic_field_no_panic
    | by apply generic_call_no_panic | exact (vector_no_panic idx tps cl lc (length tps) H)].
Qed.
Lemma check_instruction_no_panic instr tps cl lc : check_bytecode view cl lc (length (A := AbilitySet) tps) instr = Ok () →
  no_panic (check_instruction view instr).
Proof.
  intros H. destruct instr; try (apply no_panic_Ok); first [by apply (generic_struct_no_panic _ tps) | by apply (generic_field_no_panic _ tps)
    | by apply (generic_call_no_panic _ tps) | exact (plain_struct_no_panic idx cl lc (length tps) H)
    | exact (plain_field_no_panic idx cl lc (length tps) H) | idtac].
  simpl in *. apply bounds_ok in H. unfold check_function_op. apply no_panic_bind; [by apply at_index_no_panic|]. intros. solve_no_panic.
Qed.
End signatures.

(** ** The passes over functions *)

Section functions.
Context (view : BinaryIndexedView) (fv : FunctionView) (Hc : code_checked view fv).
Local Abbreviation wf := (type_wf view (length (fv_type_parameters fv))).

Lemma effect_no_panic instr : instr ∈ fv_code fv → no_panic (instruction_effect view (fv_return fv) instr).
Proof.
  intros Hin. destruct instr; try apply no_panic_Ok; simpl.
  - destruct (call_ok view fv Hc idx Hin) as (fh & ps & rs & Hfh & _ & Hps & Hrs & _). unfold call_effect.
    rewrite Hfh. simpl. rewrite Hps, Hrs. apply no_panic_Ok.
  - destruct (call_generic_ok view fv Hc idx Hin) as (i & fh & targs & ps & rs & -> & Hfh & _ & _ & Hps & Hrs & _).
    unfold call_effect. simpl. rewrite Hfh. simpl. rewrite Hps, Hrs. apply no_panic_Ok.
  - apply no_panic_bind; [by eapply struct_def_ok|intros; apply no_panic_Ok].
  - destruct (struct_instance_ok view fv Hc _ idx Hin eq_refl) as [[e ->]|(i & d & targs & -> & Hd & _)]; [apply no_panic_Err|].
    simpl. rewrite Hd. apply no_panic_Ok.
  - apply no_panic_bind; [by eapply struct_def_ok|intros; apply no_panic_Ok].
  - destruct (struct_instance_ok view fv Hc _ idx Hin eq_refl) as [[e ->]|(i & d & targs & -> & Hd & _)]; [apply no_panic_Err|].
    simpl. rewrite Hd. apply no_panic_Ok.
Qed.

Lemma effect_nonneg instr pops pushes : instruction_effect view (fv_return fv) instr = Ok (pops, pushes) → (0 ≤ pops ∧ 0 ≤ pushes)%Z.
Proof.
  unfold instruction_effect, call_effect, len64. intros H. destruct instr; simpl in H; r_inv H; simplify_eq; lia.
Qed.

Lemma stack_step_no_panic h i : i < length (fv_code fv) → no_panic (stack_step view (fv_code fv) (fv_return fv) h i).
Proof.
  intros Hlt. unfold stack_step. destruct (at_index_lt _ _ Hlt) as (instr & -> & Hi%list_elem_of_lookup_2). simpl.
  apply no_panic_bind; [by apply effect_no_panic|]. intros [pops pushes]. solve_no_panic.
Qed.

Lemma stack_usage_no_panic : wf_cfg (fv_code fv) (fv_cfg fv) → no_panic (StackUsageVerifier_verify view fv).
Proof.
  intros Hwf. unfold StackUsageVerifier_verify. apply no_panic_for. intros id Hid. apply list_elem_of_fmap in Hid as (b & -> & Hb).
  rewrite (entry_block _ _ Hwf b Hb). simpl. unfold su_verify_block.
  destruct (chain_bounds _ _ _ _ (wf_chain _ _ Hwf) Hb) as (_ & Hle & Hex).
  apply no_panic_bind; [|intros; solve_no_panic].
  apply (no_panic_fold_inv (λ _, True)); [done|]. intros h i Hi _. split; [|done]. apply stack_step_no_panic.
  apply elem_of_seq in Hi. lia.
Qed.

(** The types on the stack are at least as many as the stack usage counts. *)
Lemma verify_offsets_sat offs h h' st : (∀ i, i ∈ offs → i < length (fv_code fv)) → Forall wf st → (0 ≤ h ≤ len64 st)%Z →
  r_fold (stack_step view (fv_code fv) (fv_return fv)) offs h = Ok h' →
  res_sat (λ st', Forall wf st' ∧ (0 ≤ h' ≤ len64 st')%Z) (r_fold (verify_offset view fv) offs st).
Proof.
  revert h st. induction offs as [|i offs IH]; intros h st Hin Hst Hh Hsu; cbn [r_fold] in *.
  { injection Hsu as <-. done. }
  destruct (at_index_lt (fv_code fv) i) as (instr & Ha & Hi%list_elem_of_lookup_2); [apply Hin; by left|].
  unfold verify_offset at 1. unfold stack_step at 1 in Hsu. rewrite Ha in *. cbn [r_bind] in *.
  destruct (instruction_effect view (fv_return fv) instr) as [[pops pushes]| |] eqn:He; cbn [r_bind] in Hsu; [|done..].
  destruct (effect_nonneg instr pops pushes He) as [Hp0 Hq0].
  destruct (Z.ltb_spec h pops) as [|Hp]; cbn [r_bind] in Hsu; [done|].
  eapply res_sat_bind; [apply (verify_instr_sat view fv Hc st instr pops pushes); [done..|lia]|].
  intros st' [Hst' Hlen]. eapply IH; [intros; apply Hin; by right|done| |done].
  unfold wrap64. pose proof (Z.mod_pos_bound (h - pops + pushes) (2 ^ 64) ltac:(lia)).
  pose proof (Z.mod_le (h - pops + pushes) (2 ^ 64) ltac:(lia) ltac:(lia)). lia.
Qed.

Lemma type_safety_no_panic : wf_cfg (fv_code fv) (fv_cfg fv) → StackUsageVerifier_verify view fv = Ok () →
  no_panic (type_safety_verify view fv).
Proof.
  intros Hwf Hsu. unfold type_safety_verify. apply no_panic_bind; [|intros; apply no_panic_Ok].
  apply (no_panic_fold_inv (λ st, Forall wf st)); [done|]. intros st id Hid Hst. pose proof (r_for_elem _ _ _ _ Hsu Hid) as Hb.
  apply list_elem_of_fmap in Hid as (b & -> & Hin). cbv beta in Hb. unfold verify_block_types. rewrite (entry_block _ _ Hwf b Hin) in *.
  cbn [r_bind] in *. unfold su_verify_block in Hb. r_inv Hb.
  destruct (chain_bounds _ _ _ _ (wf_chain _ _ Hwf) Hin) as (_ & Hle & Hex).
  assert (Hsat : res_sat (λ st', Forall wf st' ∧ (0 ≤ a ≤ len64 st')%Z) (r_fold (verify_offset view fv) (instr_indexes b) st)).
  { eapply verify_offsets_sat; [|done| |done]; [intros i Hi%elem_of_seq; lia|unfold len64; lia]. }
  split; [by eapply res_sat_no_panic|]. intros st' Hst'. by apply (res_sat_ok _ _ _ Hsat).
Qed.

Lemma verify_common_no_panic : wf_cfg (fv_code fv) (fv_cfg fv) → (Z.of_nat (length (fv_code fv)) ≤ 65534)%Z →
  no_panic (verify_common view fv).
Proof.
  intros Hwf Hlen. unfold verify_common. apply no_panic_bind_ok.
  { apply control_flow_no_panic. intros i instr j Hi%list_elem_of_lookup_2. by eapply offset_ok. }
  intros [] Hcf. apply no_panic_bind_ok; [by apply stack_usage_no_panic|]. intros [] Hsu.
  apply no_panic_bind; [by apply type_safety_no_panic|]. intros [].
  apply locals_safety_no_panic; [done..|]. intros Hnil. rewrite Hnil in Hcf. done.
Qed.
End functions.

(** ** Modules and scripts *)

Section code_units.
Context (view : BinaryIndexedView) (Ht : tables_ok view).

Lemma bc_check_code_ok c tps ps : bc_check_code view c tps ps = Ok () →
  ∃ ls, view_signatures view !! locals c = Some ls ∧ Forall (type_wf view (length tps)) ls ∧
    ∀ instr, instr ∈ code c → check_bytecode view (length (code c)) (length ls + length ps) (length tps) instr = Ok ().
Proof.
  unfold bc_check_code. intros H. r_inv H. unfold get_locals in Hs0. apply ok_or_ok in Hs0. rename Hs0 into Hls.
  exists a0. split_and!; [done| |intros; by eapply r_for_elem]. apply Forall_forall. intros t Hin.
  eapply check_type_wf; [|by eapply r_for_elem]. eapply ok_signature; [done|by eapply list_elem_of_lookup_2|done].
Qed.

Lemma verify_code_no_panic c tps ps : bc_check_code view c tps ps = Ok () → no_panic (verify_code view c tps).
Proof.
  intros (ls & Hls & Hw & Hcode)%bc_check_code_ok. unfold verify_code.
  apply no_panic_bind; [by eapply check_signature_no_panic, lookup_lt_Some|]. intros [].
  apply no_panic_bind; [by eapply check_instantiation_no_panic|]. intros []. apply no_panic_for. intros instr Hin.
  eapply verify_bytecode_no_panic; by eauto.
Qed.
Lemma check_instructions_no_panic c tps ps : bc_check_code view c tps ps = Ok () → no_panic (check_instructions view c).
Proof.
  intros (ls & Hls & Hw & Hcode)%bc_check_code_ok. apply no_panic_for. intros instr Hin.
  eapply (check_instruction_no_panic _ Ht _ tps); by eauto.
Qed.
Lemma verify_constant_no_panic sd k : no_panic (verify_constant sd k).
Proof. unfold verify_constant. solve_no_panic. Qed.
Lemma verify_constant_ok sd ks k u : r_for (verify_constant sd) ks = Ok u → k ∈ ks → is_valid_for_constant (type_ k) = true.
Proof.
  intros H Hk. pose proof (r_for_elem _ _ _ _ H Hk) as Hx. unfold verify_constant in Hx.
  by destruct (is_valid_for_constant (type_ k)).
Qed.

(** The function view of a code unit, and that the passes over tables checked it. *)
Lemma code_unit_checked c ps rs tps cfg : bc_check_code view c tps ps = Ok () → verify_code view c tps = Ok () →
  check_instructions view c = Ok () → (∀ k, k ∈ view_constant_pool view → is_valid_for_constant (type_ k) = true) →
  Forall (type_wf view (length tps)) ps → Forall (type_wf view (length tps)) rs →
  ∃ ls, signature_at view (locals c) = Ok ls ∧ code_checked view (mkFunctionView (code c) ps rs ls tps cfg).
Proof.
  intros (ls & Hls & Hw & Hcode)%bc_check_code_ok Hv Hi Hk Hps Hrs. exists ls. split; [by apply at_index_ok|].
  unfold verify_code in Hv. r_inv Hv. constructor; simpl; try done.
  - intros instr Hin. by eapply r_for_elem.
  - intros instr Hin. by eapply r_for_elem.
Qed.
End code_units.

Section module.
Context (m : CompiledModule).
Local Abbreviation view := (ModuleView m).

Lemma bounds_module_ok : BoundsChecker_verify_module m = Ok () → verify_impl view = Ok ().
Proof. unfold BoundsChecker_verify_module. by destruct (m_module_handles m). Qed.

Lemma function_def_ok d c : verify_impl view = Ok () → d ∈ m_function_defs m → fn_code d = Some c →
  ∃ fh ps rs, function_handle_at view (function d) = Ok fh ∧ signature_at view (fh_parameters fh) = Ok ps ∧
    signature_at view (fh_return fh) = Ok rs ∧ Forall (type_wf view (length (fh_type_parameters fh))) ps ∧
    Forall (type_wf view (length (fh_type_parameters fh))) rs ∧
    bc_check_code view c (fh_type_parameters fh) ps = Ok ().
Proof.
  intros H Hd Hc. pose proof (verify_impl_ok _ _ H) as Ht. unfold verify_impl in H. r_inv H.
  pose proof (r_for_elem _ _ _ _ H Hd) as Hx. clear -Ht Hx Hc. unfold check_function_def in Hx. rewrite Hc in Hx. r_inv Hx.
  destruct (256 <? _); [done|]. apply at_index_ok in Hs1. rename a1 into fh.
  destruct (ok_function_handle _ Ht fh) as (ps & rs & Hps & Hrs & Hwp & Hwr); [by eapply list_elem_of_lookup_2|].
  apply at_index_ok in Hs2. simpl in *. assert (a2 = ps) as -> by congruence.
  exists fh, ps, rs. split_and!; [by apply at_index_ok..|done|done|done].
Qed.

(** Each function of a module whose tables were checked. *)
Lemma module_function_checked sd d c fv : verify_impl view = Ok () → SignatureChecker_verify_module m = Ok () →
  InstructionConsistency_verify_module m = Ok () → constants_verify_module sd m = Ok () →
  d ∈ m_function_defs m → fn_code d = Some c →
  (let? fh := function_handle_at view (function d) in FunctionView_function m c fh) = Ok fv →
  code_checked view fv ∧ fv_code fv = code c ∧ VMControlFlowGraph_new (code c) = Ok (fv_cfg fv).
Proof.
  intros Hb Hs Hi Hk Hd Hc Hfv. pose proof (verify_impl_ok _ _ Hb) as Ht.
  destruct (function_def_ok d c Hb Hd Hc) as (fh & ps & rs & Hfh & Hps & Hrs & Hwp & Hwr & Hcode).
  unfold SignatureChecker_verify_module in Hs. r_inv Hs. pose proof (r_for_elem _ _ _ _ Hs Hd) as Hv.
  unfold verify_code_unit in Hv. rewrite Hc, Hfh in Hv. cbn [r_bind] in Hv.
  pose proof (r_for_elem _ _ _ _ Hi Hd) as Hci. cbv beta in Hci. rewrite Hc in Hci.
  rewrite Hfh in Hfv. cbn [r_bind] in Hfv. unfold FunctionView_function in Hfv. rewrite Hps, Hrs in Hfv. cbn [r_bind] in Hfv.
  r_inv Hfv. destruct (code_unit_checked view Ht c ps rs (fh_type_parameters fh) a3 Hcode Hv Hci) as (ls & Hls & Hcc);
    [intros k Hin; by eapply verify_constant_ok|done..|].
  assert (a2 = ls) as -> by congruence. done.
Qed.

Lemma function_view_ok d c : verify_impl view = Ok () → d ∈ m_function_defs m → fn_code d = Some c →
  (Z.of_nat (length (code c)) ≤ 65534)%Z →
  ∃ fh fv, function_handle_at view (function d) = Ok fh ∧ FunctionView_function m c fh = Ok fv ∧ wf_cfg (fv_code fv) (fv_cfg fv).
Proof.
  intros Hb Hd Hc Hlen. pose proof (verify_impl_ok _ _ Hb) as Ht.
  destruct (function_def_ok d c Hb Hd Hc) as (fh & ps & rs & Hfh & Hps & Hrs & _ & _ & Hcode).
  destruct (bc_check_code_ok _ Ht _ _ _ Hcode) as (ls & Hls & _). destruct (cfg_new_ok (code c) Hlen) as (cfg & Hcfg & Hwf).
  exists fh. unfold FunctionView_function. rewrite Hps, Hrs. cbn [r_bind]. assert (signature_at view (locals c) = Ok ls) as -> by (by apply at_index_ok).
  cbn [r_bind]. rewrite Hcfg. simpl. eexists. done.
Qed.
End module.

(** ** Declarations *)

Lemma check_unique_no_panic {A} `{EqDecision A} (l : list A) : no_panic (check_unique l).
Proof. unfold check_unique. destruct (first_duplicate_element l); solve_no_panic. Qed.

Lemma check_handles_no_panic self hm implemented il n : (∀ i, i ∈ il → no_panic (hm i)) → (∀ i, i < n → no_panic (hm i)) →
  no_panic (r_for (check_self_handle self hm) il ;? r_for (check_implemented self hm implemented) (seq 0 n)).
Proof.
  intros His Hn. apply no_panic_bind.
  - apply no_panic_for. intros i Hi. apply no_panic_bind; [by apply His|]. intros. solve_no_panic.
  - intros []. apply no_panic_for. intros i Hi%elem_of_seq. apply no_panic_bind; [apply Hn; lia|]. intros. solve_no_panic.
Qed.

Section declarations.
Context (m : CompiledModule) (Hb : verify_impl (ModuleView m) = Ok ()).

Lemma module_bounds_ok : (∀ h, h ∈ m_module_handles m ∨ h ∈ m_friend_decls m → mh_address h < length (m_address_identifiers m)) ∧
  self_module_handle_idx m < length (m_module_handles m) ∧
  (∀ d, d ∈ m_function_defs m → function d < length (m_function_handles m)).
Proof.
  unfold verify_impl in Hb. r_inv Hb. split_and!.
  - intros h [Hin|Hin]; [pose proof (r_for_elem _ _ _ _ Hs1 Hin) as Hx|pose proof (r_for_elem _ _ _ _ Hs6 Hin) as Hx];
      unfold check_module_handle in Hx; r_inv Hx; by eapply bounds_ok.
  - unfold check_self_module_handle in Hs2. by eapply bounds_ok.
  - intros d Hin. pose proof (r_for_elem _ _ _ _ Hb Hin) as Hx. unfold check_function_def in Hx. r_inv Hx. by eapply bounds_ok.
Qed.

Lemma duplication_no_panic : no_panic (DuplicationChecker_verify_module m).
Proof.
  pose proof (verify_impl_ok _ _ Hb) as Ht. destruct module_bounds_ok as (_ & _ & Hfd). unfold DuplicationChecker_verify_module.
  do 11 (apply no_panic_bind; [apply check_unique_no_panic|intros []]).
  apply no_panic_bind; [|intros []; apply no_panic_bind; [|intros []; apply check_unique_no_panic]].
  - unfold check_function_defintions. apply no_panic_bind; [apply check_unique_no_panic|intros []].
    apply no_panic_bind; [apply no_panic_for; intros; unfold check_acquires; solve_no_panic|intros []].
    apply check_handles_no_panic; [intros i (d & -> & Hd)%list_elem_of_fmap|intros i Hi];
      (apply no_panic_bind; [apply at_index_no_panic; simpl|intros; apply no_panic_Ok]); [by apply Hfd|done].
  - unfold check_struct_definitions. apply no_panic_bind; [apply check_unique_no_panic|intros []]. apply no_panic_bind; [|intros []].
    { apply no_panic_for. intros d _. unfold check_field_names. destruct (field_information d) as [|[|f fs]];
        [apply no_panic_Ok|apply no_panic_Err|apply check_unique_no_panic]. }
    apply check_handles_no_panic; [intros i (d & -> & Hd)%list_elem_of_fmap|intros i Hi];
      (apply no_panic_bind; [apply at_index_no_panic; simpl|intros; apply no_panic_Ok]); [|done].
    destruct (ok_struct_def _ Ht (m_struct_defs m) d eq_refl Hd) as (sh & Hsh & _). by eapply lookup_lt_Some.
Qed.

Lemma friends_no_panic : no_panic (friends_verify_module m).
Proof.
  destruct module_bounds_ok as (Haddr & Hself & _). unfold friends_verify_module.
  destruct (at_index_lt _ _ Hself) as (h & -> & Hh%list_elem_of_lookup_2). cbn [r_bind]. case_bool_decide; [solve_no_panic|].
  apply no_panic_bind; [by apply at_index_no_panic, Haddr; left|]. intros self_address.
  apply no_panic_bind; [|intros; solve_no_panic].
  assert (Hin : ∀ h, h ∈ m_friend_decls m → mh_address h < length (m_address_identifiers m)) by auto. clear -Hin.
  induction (m_friend_decls m) as [|f fs IH]; simpl; [apply no_panic_Ok|].
  apply no_panic_bind; [apply at_index_no_panic, Hin; by left|]. intros a. destruct (negb _); [apply no_panic_Ok|].
  apply IH. intros. apply Hin. by right.
Qed.

Lemma field_requirements_no_panic : no_panic (ability_field_requirements_verify_module m).
Proof.
  pose proof (verify_impl_ok _ _ Hb) as Ht. apply no_panic_for. intros d Hd. unfold check_struct_abilities.
  destruct (ok_struct_def _ Ht (m_struct_defs m) d eq_refl Hd) as (sh & Hsh & Hf). unfold struct_handle_at.
  rewrite (proj2 (at_index_ok _ _ _) Hsh). cbn [r_bind]. destruct (field_information d) as [|fields]; [solve_no_panic|].
  specialize (Hf fields eq_refl). rewrite Forall_forall in Hf. apply no_panic_for. intros f Hin. unfold check_field_abilities.
  destruct (abilities_ok (ModuleView m) ((λ _, ALL) <$> sh_type_parameters sh) (fd_signature f)) as [a ->];
    [rewrite length_fmap; by apply Hf|]. simpl. solve_no_panic.
Qed.
End declarations.

Section verifier.
Context (simple_deserialize : list Z → SignatureToken → bool).

(** The bodies of a module. *)
Definition short_code (c : CodeUnit) : Prop := (Z.of_nat (length (code c)) ≤ 65534)%Z.

Lemma verify_function_no_panic m d : verify_impl (ModuleView m) = Ok () → SignatureChecker_verify_module m = Ok () →
  InstructionConsistency_verify_module m = Ok () → constants_verify_module simple_deserialize m = Ok () →
  d ∈ m_function_defs m → (∀ c, fn_code d = Some c → short_code c) → no_panic (verify_function m d).
Proof.
  intros Hb Hs Hi Hk Hd Hshort. unfold verify_function. destruct (fn_code d) as [c|] eqn:Hc; [|apply no_panic_Ok].
  destruct (function_view_ok m d c Hb Hd Hc (Hshort c eq_refl)) as (fh & fv & Hfh & Hfv & Hwf). rewrite Hfh. cbn [r_bind].
  destruct (module_function_checked m simple_deserialize d c fv Hb Hs Hi Hk Hd Hc) as (Hcc & Hcode & _).
  { by rewrite Hfh. }
  rewrite Hfv. apply verify_common_no_panic; [done..|]. rewrite Hcode. by apply Hshort.
Qed.

Lemma verify_module_no_panic m : (∀ d c, d ∈ m_function_defs m → fn_code d = Some c → short_code c) →
  no_panic (verify_module simple_deserialize m).
Proof.
  intros Hshort. unfold verify_module. apply no_panic_bind_ok.
  { unfold BoundsChecker_verify_module. destruct (m_module_handles m); [apply no_panic_Err|apply verify_impl_no_panic]. }
  intros [] Hb%bounds_module_ok. pose proof (verify_impl_ok _ _ Hb) as Ht.
  apply no_panic_bind; [by apply duplication_no_panic|]. intros []. apply no_panic_bind_ok.
  { unfold SignatureChecker_verify_module.
    apply no_panic_bind; [apply no_panic_for; intros i Hi%elem_of_seq; apply check_signature_no_panic; simpl; lia|]. intros [].
    apply no_panic_bind; [apply no_panic_for; intros; by apply verify_function_signature_no_panic|]. intros [].
    apply no_panic_bind; [apply no_panic_for; intros; by eapply verify_fields_no_panic|]. intros [].
    apply no_panic_for. intros d Hd. unfold verify_code_unit. destruct (fn_code d) as [c|] eqn:Hc; [|apply no_panic_Ok].
    destruct (function_def_ok m d c Hb Hd Hc) as (fh & ps & rs & -> & _ & _ & _ & _ & Hcode). by eapply verify_code_no_panic. }
  intros [] Hs. apply no_panic_bind_ok.
  { apply no_panic_for. intros d Hd. destruct (fn_code d) as [c|] eqn:Hc; [|apply no_panic_Ok].
    destruct (function_def_ok m d c Hb Hd Hc) as (fh & ps & rs & _ & _ & _ & _ & _ & Hcode). by eapply check_instructions_no_panic. }
  intros [] Hi. apply no_panic_bind_ok; [apply no_panic_for; intros; apply verify_constant_no_panic|]. intros [] Hk.
  apply no_panic_bind; [by apply friends_no_panic|]. intros [].
  apply no_panic_bind; [by apply field_requirements_no_panic|]. intros [].
  apply no_panic_for. intros d Hd. apply verify_function_no_panic; eauto.
Qed.

Lemma script_code_ok s : BoundsChecker_verify_script s = Ok () →
  verify_impl (ScriptView s) = Ok () ∧ ∃ ps, signature_at (ScriptView s) (s_parameters s) = Ok ps ∧
    bc_check_code (ScriptView s) (s_code s) (s_type_parameters s) ps = Ok ().
Proof.
  unfold BoundsChecker_verify_script. intros H. r_inv H. destruct a. split; [done|].
  destruct (s_signatures s !! s_parameters s) as [ps|] eqn:Hps; [|done]. exists ps. split; [by apply at_index_ok|done].
Qed.

(** Scripts: their parameters are checked as a signature, but against no number of type parameters. *)
Lemma script_no_panic s : short_code (s_code s) →
  (∀ ps, signature_at (ScriptView s) (s_parameters s) = Ok ps →
     Forall (type_wf (ScriptView s) (length (s_type_parameters s))) ps) →
  no_panic (verify_script simple_deserialize s).
Proof.
  intros Hshort Hparams. unfold verify_script. apply no_panic_bind_ok.
  { unfold BoundsChecker_verify_script. apply no_panic_bind; [apply verify_impl_no_panic|]. intros [].
    destruct (_ !! _); [apply bc_check_code_no_panic|apply no_panic_Err]. }
  intros [] (Hb & ps & Hps & Hcode)%script_code_ok. pose proof (verify_impl_ok _ _ Hb) as Ht.
  apply no_panic_bind; [unfold DuplicationChecker_verify_script; repeat (apply no_panic_bind; [apply check_unique_no_panic|intros []]);
    apply check_unique_no_panic|]. intros [].
  apply no_panic_bind_ok.
  { unfold SignatureChecker_verify_script.
    apply no_panic_bind; [apply no_panic_for; intros i Hi%elem_of_seq; apply check_signature_no_panic; simpl; lia|]. intros [].
    apply no_panic_bind; [apply no_panic_for; intros; by apply verify_function_signature_no_panic|]. intros [].
    by eapply verify_code_no_panic. }
  intros [] Hs. apply no_panic_bind_ok; [by eapply check_instructions_no_panic|]. intros [] Hi.
  apply no_panic_bind_ok; [apply no_panic_for; intros; apply verify_constant_no_panic|]. intros [] Hk.
  apply no_panic_bind; [|intros []; unfold script_signature_verify_script, verify_main_signature_impl; rewrite Hps; cbn [r_bind]; solve_no_panic].
  unfold CodeUnitVerifier_verify_script, FunctionView_script. rewrite Hps. cbn [r_bind].
  unfold SignatureChecker_verify_script in Hs. r_inv Hs. destruct (cfg_new_ok (code (s_code s)) Hshort) as (cfg & Hcfg & Hwf).
  destruct (code_unit_checked (ScriptView s) Ht (s_code s) ps [] (s_type_parameters s) cfg Hcode Hs Hi) as (ls & Hls & Hcc);
    [intros k Hin; by eapply verify_constant_ok|by apply Hparams|done|].
  rewrite Hls. cbn [r_bind]. rewrite Hcfg. by apply verify_common_no_panic.
Qed.
End verifier.
