(* ===== verification/MoveValue.v ===== *)
(** * MoveValue: the values of the Move VM

    Models src/language/move-vm/types/src/values/values_impl.rs (integers, casts, equality,
    vectors, structs, locals) and the substitution of types of loaded_data/runtime_types.rs.

    Containers are values; their sharing through references is not modelled.  A reference is
    known by the type it points at ([VRef]), and struct and vector values are tagged with their
    types; the code has no such tags and never looks at them, but for the representation of a
    vector, which the type of its elements decides. *)

From S2P Require Import Prelude FileFormat BoundsCheck TypeSafety.

Local Open Scope Z_scope.

(** The status codes of the VM.  Those up to [ILL_TYPED_STORE] are of the type
    InvariantViolation (2000 to 2999); [ILL_TYPED_STORE] is not raised by the code: a value would
    be stored behind a reference of another type. *)
Module VMStatus.
Inductive VMStatus :=
| UNKNOWN_INVARIANT_VIOLATION_ERROR | EMPTY_VALUE_STACK | PC_OVERFLOW | INTERNAL_TYPE_ERROR
| VERIFIER_INVARIANT_VIOLATION | ILL_TYPED_STORE
| OUT_OF_GAS | RESOURCE_ALREADY_EXISTS | MISSING_DATA | ABORTED | ARITHMETIC_ERROR | VECTOR_OPERATION_ERROR
| EXECUTION_STACK_OVERFLOW | CALL_STACK_OVERFLOW | VM_MAX_TYPE_DEPTH_REACHED.
End VMStatus.
Abbreviation VMStatus := VMStatus.VMStatus.
Abbreviation VMResult := (Result VMStatus).

Definition is_invariant_violation (e : VMStatus) : bool :=
  match e with
  | VMStatus.UNKNOWN_INVARIANT_VIOLATION_ERROR | VMStatus.EMPTY_VALUE_STACK | VMStatus.PC_OVERFLOW
  | VMStatus.INTERNAL_TYPE_ERROR | VMStatus.VERIFIER_INVARIANT_VIOLATION | VMStatus.ILL_TYPED_STORE => true
  | _ => false
  end.

Inductive Value :=
| VBool (b : bool) | VU8 (x : Z) | VU64 (x : Z) | VU128 (x : Z) | VAddress (a : Z)
| VStruct (ty : SignatureToken) (fields : list Value)
| VVector (elem_ty : SignatureToken) (elems : list Value)
| VRef (ty : SignatureToken).

(** ** Integers *)

Inductive IntegerValue := IU8 (x : Z) | IU64 (x : Z) | IU128 (x : Z).

Definition into_value (i : IntegerValue) : Value := match i with IU8 x => VU8 x | IU64 x => VU64 x | IU128 x => VU128 x end.

(** A result of checked arithmetic at a width. *)
Definition checked (width z : Z) : VMResult Z :=
  if (0 <=? z) && (z <? 2 ^ width) then Ok z else Err VMStatus.ARITHMETIC_ERROR.

Definition int_op (f : Z → Z → Z → VMResult Z) (l r : IntegerValue) : VMResult IntegerValue :=
  match l, r with
  | IU8 l, IU8 r => let? x := f 8 l r in Ok (IU8 x)
  | IU64 l, IU64 r => let? x := f 64 l r in Ok (IU64 x)
  | IU128 l, IU128 r => let? x := f 128 l r in Ok (IU128 x)
  | _, _ => Err VMStatus.INTERNAL_TYPE_ERROR
  end.
Definition add_checked := int_op (λ w l r, checked w (l + r)).
Definition sub_checked := int_op (λ w l r, checked w (l - r)).
Definition mul_checked := int_op (λ w l r, checked w (l * r)).
Definition div_checked := int_op (λ _ l r, if r =? 0 then Err VMStatus.ARITHMETIC_ERROR else Ok (l / r)).
Definition rem_checked := int_op (λ _ l r, if r =? 0 then Err VMStatus.ARITHMETIC_ERROR else Ok (l mod r)).
Definition bit_or := int_op (λ _ l r, Ok (Z.lor l r)).
Definition bit_and := int_op (λ _ l r, Ok (Z.land l r)).
Definition bit_xor := int_op (λ _ l r, Ok (Z.lxor l r)).

Definition shl_width (width x n_bits : Z) : VMResult Z :=
  if width <=? n_bits then Err VMStatus.ARITHMETIC_ERROR else Ok (Z.shiftl x n_bits mod 2 ^ width).
Definition shr_width (width x n_bits : Z) : VMResult Z :=
  if width <=? n_bits then Err VMStatus.ARITHMETIC_ERROR else Ok (Z.shiftr x n_bits).
Definition shift_op (f : Z → Z → Z → VMResult Z) (l : IntegerValue) (n_bits : Z) : VMResult IntegerValue :=
  match l with
  | IU8 x => let? y := f 8 x n_bits in Ok (IU8 y)
  | IU64 x => let? y := f 64 x n_bits in Ok (IU64 y)
  | IU128 x => let? y := f 128 x n_bits in Ok (IU128 y)
  end.
Definition shl_checked := shift_op shl_width.
Definition shr_checked := shift_op shr_width.

Definition int_cmp (f : Z → Z → bool) (l r : IntegerValue) : VMResult bool :=
  match l, r with
  | IU8 l, IU8 r | IU64 l, IU64 r | IU128 l, IU128 r => Ok (f l r)
  | _, _ => Err VMStatus.INTERNAL_TYPE_ERROR
  end.
Definition int_lt := int_cmp Z.ltb.
Definition int_le := int_cmp Z.leb.
Definition int_gt := int_cmp Z.gtb.
Definition int_ge := int_cmp Z.geb.

Definition cast_u8 (i : IntegerValue) : VMResult Z :=
  match i with
  | IU8 x => Ok x
  | IU64 x | IU128 x => if 255 <? x then Err VMStatus.ARITHMETIC_ERROR else Ok x
  end.
Definition cast_u64 (i : IntegerValue) : VMResult Z :=
  match i with
  | IU8 x | IU64 x => Ok x
  | IU128 x => if 2 ^ 64 - 1 <? x then Err VMStatus.ARITHMETIC_ERROR else Ok x
  end.
Definition cast_u128 (i : IntegerValue) : VMResult Z := match i with IU8 x | IU64 x | IU128 x => Ok x end.

(** ** Casts of values *)

Definition as_u8 (v : Value) : VMResult Z := match v with VU8 x => Ok x | _ => Err VMStatus.INTERNAL_TYPE_ERROR end.
Definition as_u64 (v : Value) : VMResult Z := match v with VU64 x => Ok x | _ => Err VMStatus.INTERNAL_TYPE_ERROR end.
Definition as_u128 (v : Value) : VMResult Z := match v with VU128 x => Ok x | _ => Err VMStatus.INTERNAL_TYPE_ERROR end.
Definition as_bool (v : Value) : VMResult bool := match v with VBool b => Ok b | _ => Err VMStatus.INTERNAL_TYPE_ERROR end.
Definition as_address (v : Value) : VMResult Z := match v with VAddress a => Ok a | _ => Err VMStatus.INTERNAL_TYPE_ERROR end.
Definition as_integer (v : Value) : VMResult IntegerValue :=
  match v with
  | VU8 x => Ok (IU8 x)
  | VU64 x => Ok (IU64 x)
  | VU128 x => Ok (IU128 x)
  | _ => Err VMStatus.INTERNAL_TYPE_ERROR
  end.
Definition as_struct (v : Value) : VMResult (list Value) :=
  match v with VStruct _ fields => Ok fields | _ => Err VMStatus.INTERNAL_TYPE_ERROR end.
Definition as_reference (v : Value) : VMResult SignatureToken :=
  match v with VRef ty => Ok ty | _ => Err VMStatus.INTERNAL_TYPE_ERROR end.

(** ** Containers *)

Inductive Container := CVec | CStruct | CVecU8 | CVecU64 | CVecU128 | CVecBool | CVecAddress.
Global Instance Container_eq_dec : EqDecision Container.
Proof. solve_decision. Defined.

(** The representation of a vector ([Vector::pack]). *)
Definition vector_container (elem_ty : SignatureToken) : Container :=
  match elem_ty with
  | U8 => CVecU8
  | U64 => CVecU64
  | U128 => CVecU128
  | Bool => CVecBool
  | Address => CVecAddress
  | _ => CVec
  end.
(** The container of a value of this type; a value of another type is not a container, and a
    reference to it is an indexed one. *)
Definition container_of (ty : SignatureToken) : option Container :=
  match ty with
  | Vector elem_ty => Some (vector_container elem_ty)
  | Struct _ | StructInstantiation _ _ | Signer => Some CStruct
  | _ => None
  end.
Definition value_container (v : Value) : option Container :=
  match v with
  | VStruct _ _ => Some CStruct
  | VVector elem_ty _ => Some (vector_container elem_ty)
  | _ => None
  end.

(** A reference that is cast to [StructRef] or [VectorRef]. *)
Definition as_container_ref (v : Value) : VMResult (SignatureToken * Container) :=
  match v with
  | VRef ty => let? c := ok_or (container_of ty) VMStatus.INTERNAL_TYPE_ERROR in Ok (ty, c)
  | _ => Err VMStatus.INTERNAL_TYPE_ERROR
  end.
Definition as_vector (v : Value) : VMResult (Container * list Value) :=
  match v with
  | VStruct _ fields => Ok (CStruct, fields)
  | VVector elem_ty elems => Ok (vector_container elem_ty, elems)
  | _ => Err VMStatus.INTERNAL_TYPE_ERROR
  end.

Definition check_elem_layout (ty : SignatureToken) (v : Container) : VMResult unit :=
  match ty, v with
  | U8, CVecU8 | U64, CVecU64 | U128, CVecU128 | Bool, CVecBool | Address, CVecAddress | Signer, CStruct => Ok ()
  | Vector _, CVec => Ok ()
  | Struct _, CVec | Signer, CVec | StructInstantiation _ _, CVec => Ok ()
  | _, _ => Err VMStatus.UNKNOWN_INVARIANT_VIOLATION_ERROR
  end.

(** The match that follows the layout check. *)
Definition reachable_container (c : Container) : VMResult unit :=
  match c with CStruct => Panic "internal error: entered unreachable code" | _ => Ok () end.

(** [Vector::pack]; [elem_ty] is the tag. *)
Definition vector_pack (type_param elem_ty : SignatureToken) (elements : list Value) : VMResult Value :=
  let cast_all {A} (f : Value → VMResult A) := r_for (λ v, let? _ := f v in Ok ()) elements in
  match type_param with
  | U8 => cast_all as_u8
  | U64 => cast_all as_u64
  | U128 => cast_all as_u128
  | Bool => cast_all as_bool
  | Address => cast_all as_address
  | Signer | Vector _ | Struct _ | StructInstantiation _ _ => Ok ()
  | Reference _ | MutableReference _ | TypeParameter _ => Err VMStatus.UNKNOWN_INVARIANT_VIOLATION_ERROR
  end ;?
  Ok (VVector elem_ty elements).

Definition vector_unpack (v : Container * list Value) (type_param : SignatureToken) (expected_num : N) : VMResult (list Value) :=
  check_elem_layout type_param v.1 ;?
  reachable_container v.1 ;?
  if (expected_num =? N.of_nat (length v.2))%N then Ok v.2 else Err VMStatus.VECTOR_OPERATION_ERROR.

(** ** Equality *)

Section equality.
(** What the comparison of two references to values of one type finds. *)
Context (ref_eq : bool).

Fixpoint equals (v w : Value) {struct v} : VMResult bool :=
  let fix equals_all (l r : list Value) {struct l} : VMResult bool :=
    match l, r with
    | v :: l, w :: r => let? b := equals v w in if b then equals_all l r else Ok false
    | _, _ => Ok true
    end in
  match v, w with
  | VU8 l, VU8 r | VU64 l, VU64 r | VU128 l, VU128 r => Ok (l =? r)
  | VBool l, VBool r => Ok (eqb l r)
  | VAddress l, VAddress r => Ok (l =? r)
  | VStruct _ l, VStruct _ r => if negb (length l =? length r)%nat then Ok false else equals_all l r
  | VVector t l, VVector u r =>
      if bool_decide (vector_container t = vector_container u)
      then if negb (length l =? length r)%nat then Ok false else equals_all l r
      else Err VMStatus.INTERNAL_TYPE_ERROR
  | VRef t, VRef u => if bool_decide (t = u) then Ok ref_eq else Err VMStatus.INTERNAL_TYPE_ERROR
  | _, _ => Err VMStatus.INTERNAL_TYPE_ERROR
  end.
End equality.

(** ** Locals *)

(** [None] is [Invalid]. *)
Abbreviation Locals := (list (option Value)).

(** The type of a value, by its tags. *)
Definition type_of (v : Value) : SignatureToken :=
  match v with
  | VBool _ => Bool
  | VU8 _ => U8
  | VU64 _ => U64
  | VU128 _ => U128
  | VAddress _ => Address
  | VStruct ty _ => ty
  | VVector elem_ty _ => Vector elem_ty
  | VRef ty => Reference ty
  end.

Definition Locals_new (n : nat) : Locals := replicate n None.
Definition copy_loc (ls : Locals) (idx : nat) : VMResult Value :=
  match ls !! idx with
  | Some None => Err VMStatus.UNKNOWN_INVARIANT_VIOLATION_ERROR
  | Some (Some v) => Ok v
  | None => Err VMStatus.VERIFIER_INVARIANT_VIOLATION
  end.
(** The check that no reference is left to a container that is taken out is not modelled. *)
Definition swap_loc (ls : Locals) (idx : nat) (x : option Value) : VMResult (option Value * Locals) :=
  match ls !! idx with
  | Some v => Ok (v, <[idx := x]> ls)
  | None => Err VMStatus.VERIFIER_INVARIANT_VIOLATION
  end.
Definition move_loc (ls : Locals) (idx : nat) : VMResult (Value * Locals) :=
  let? (v, ls) := swap_loc ls idx None in
  match v with None => Err VMStatus.UNKNOWN_INVARIANT_VIOLATION_ERROR | Some v => Ok (v, ls) end.
(** Also the value that is overwritten. *)
Definition store_loc (ls : Locals) (idx : nat) (x : Value) : VMResult (option Value * Locals) := swap_loc ls idx (Some x).
Definition borrow_local (ls : Locals) (idx : nat) : VMResult Value :=
  match ls !! idx with
  | None => Err VMStatus.UNKNOWN_INVARIANT_VIOLATION_ERROR
  | Some None | Some (Some (VRef _)) => Err VMStatus.UNKNOWN_INVARIANT_VIOLATION_ERROR
  | Some (Some v) => Ok (VRef (type_of v))
  end.

(** ** Substitution *)

Definition TYPE_DEPTH_MAX : nat := 256.

Fixpoint apply_subst (subst : nat → nat → VMResult SignatureToken) (depth : nat) (ty : SignatureToken) : VMResult SignatureToken :=
  if (TYPE_DEPTH_MAX <? depth)%nat then Err VMStatus.VM_MAX_TYPE_DEPTH_REACHED
  else
    match ty with
    | TypeParameter idx => subst idx depth
    | Vector ty => let? ty := apply_subst subst (depth + 1) ty in Ok (Vector ty)
    | Reference ty => let? ty := apply_subst subst (depth + 1) ty in Ok (Reference ty)
    | MutableReference ty => let? ty := apply_subst subst (depth + 1) ty in Ok (MutableReference ty)
    | StructInstantiation idx instantiation =>
        let? inst := r_collect (apply_subst subst (depth + 1)) instantiation in Ok (StructInstantiation idx inst)
    | Bool | U8 | U64 | U128 | Address | Signer | Struct _ => Ok ty
    end.
Definition clone_impl (depth : nat) (ty : SignatureToken) : VMResult SignatureToken :=
  apply_subst (λ idx _, Ok (TypeParameter idx)) depth ty.
Definition type_subst (ty_args : list SignatureToken) (ty : SignatureToken) : VMResult SignatureToken :=
  apply_subst (λ idx depth, match ty_args !! idx with
                            | Some ty => clone_impl depth ty
                            | None => Err VMStatus.UNKNOWN_INVARIANT_VIOLATION_ERROR
                            end) 1 ty.
