(* ===== verification/Interpreter.v ===== *)
(** * Interpreter: the Move VM on the code of a module

    Models src/language/move-vm/runtime/src/interpreter.rs: the operand stack and the call stack
    with their limits, frames, one definition per loop ([execute_instruction] for the match over
    the bytecode, [step] for the main loop over calls and returns).

    The functions of one module run; a call of a native function or of another module is one
    step.  What is outside of the stacks answers through a [Choice] at every step: gas, the
    global storage, the memory behind references, the code that is called outside.  The stacks
    have their tops at the head. *)

From S2P Require Import Prelude FileFormat CodeFlow BoundsCheck TypeSafety TypeFacts MoveValue.

Local Open Scope nat_scope.

(** ** Stacks *)

Definition OPERAND_STACK_SIZE_LIMIT : nat := 1024.
Definition CALL_STACK_SIZE_LIMIT : nat := 1024.

Abbreviation Stack := (list Value).

Definition push (v : Value) (st : Stack) : VMResult Stack :=
  if length st <? OPERAND_STACK_SIZE_LIMIT then Ok (v :: st) else Err VMStatus.EXECUTION_STACK_OVERFLOW.
(** [for value in values { push(value)?; }] *)
Definition push_all (values : list Value) (st : Stack) : VMResult Stack := r_fold (λ st v, push v st) values st.
Definition pop_value (st : Stack) : VMResult (Value * Stack) :=
  match st with [] => Err VMStatus.EMPTY_VALUE_STACK | v :: st => Ok (v, st) end.
Definition pop_as {A} (cast : Value → VMResult A) (st : Stack) : VMResult (A * Stack) :=
  let? (v, st) := pop_value st in let? a := cast v in Ok (a, st).
(** The values from the lowest to the top one. *)
Definition popn (n : nat) (st : Stack) : VMResult (list Value * Stack) :=
  if length st <? n then Err VMStatus.EMPTY_VALUE_STACK else Ok (rev (take n st), drop n st).

(** [as u16] *)
Definition as_u16 (n : N) : nat := N.to_nat (n mod 65536)%N.

Record Frame := mkFrame {
  fr_function : nat;
  fr_ty_args : list SignatureToken;
  fr_pc : nat;
  fr_locals : Locals;
}.
Definition set_pc (f : Frame) (pc : nat) : Frame := mkFrame (fr_function f) (fr_ty_args f) pc (fr_locals f).
Definition advance (f : Frame) : Frame := set_pc f (fr_pc f + 1).
Definition set_locals (f : Frame) (ls : Locals) : Frame := mkFrame (fr_function f) (fr_ty_args f) (fr_pc f) ls.

Record Interpreter := mkInterpreter {
  operand_stack : Stack;
  call_stack : list Frame;
  current_frame : Frame;
}.

(** What the surroundings of the stacks answer. *)
Record Choice := mkChoice {
  ch_error : option VMStatus;   (** an error of gas, storage, or the code called outside *)
  ch_flag : bool;               (** a resource exists; two references are equal *)
  ch_value : Value;             (** a value read through a reference or from storage *)
  ch_results : list Value;      (** the results of a call outside *)
}.

(** Values that are duplicated or destroyed, by their types. *)
Inductive Event := Copied (ty : SignatureToken) | Dropped (ty : SignatureToken).

(** How the code goes on after an instruction. *)
Inductive ExitCode :=
| Continue (f : Frame) (st : Stack) (ev : list Event)
| Return
| Call (fh_idx : nat) (ty_args : list SignatureToken).

Definition rt_index {A} (pool : list A) (idx : nat) : VMResult A := expect (pool !! idx) "index out of bounds".

Section module.
Context (m : CompiledModule).
(** The types of the fields of structs that the module does not declare. *)
Context (imported : SignatureToken → list SignatureToken).
(** [Value::deserialize_constant] *)
Context (deserialize_constant : Constant → option Value).

(** ** Values and types *)

Definition is_struct (ty : SignatureToken) : bool :=
  match ty with Struct _ | StructInstantiation _ _ | Signer => true | _ => false end.

(** The types of the fields of a struct type. *)
Definition struct_fields (ty : SignatureToken) : list SignatureToken :=
  let fields_of i args :=
    match list_find (λ d, struct_handle d = i) (m_struct_defs m) with
    | Some (_, d) =>
        match field_information d with
        | Native => imported ty
        | Declared fields => (λ f, subst args (fd_signature f)) <$> fields
        end
    | None => imported ty
    end in
  match ty with
  | Struct i => fields_of i []
  | StructInstantiation i args => fields_of i args
  | Signer => [Address]
  | _ => []
  end.

(** The tag of the value fits the type. *)
Definition type_matches (v : Value) (t : SignatureToken) : bool :=
  match v, t with
  | VBool _, Bool | VU8 _, U8 | VU64 _, U64 | VU128 _, U128 | VAddress _, Address => true
  | VStruct ty _, _ => is_struct ty && bool_decide (ty = t)
  | VVector elem_ty _, Vector t => bool_decide (elem_ty = t)
  | VRef ty, Reference t | VRef ty, MutableReference t => bool_decide (ty = t)
  | _, _ => false
  end.

Definition in_width (width x : Z) : bool := ((0 <=? x) && (x <? 2 ^ width))%Z.

(** The value is what its tags say: integers are in range, the fields of a struct and the
    elements of a vector have their types. *)
Fixpoint value_ok (v : Value) {struct v} : bool :=
  let fix fields_ok (vs : list Value) (ts : list SignatureToken) {struct vs} : bool :=
    match vs, ts with
    | [], [] => true
    | v :: vs, t :: ts => value_ok v && type_matches v t && fields_ok vs ts
    | _, _ => false
    end in
  let fix elems_ok (vs : list Value) (t : SignatureToken) {struct vs} : bool :=
    match vs with [] => true | v :: vs => value_ok v && type_matches v t && elems_ok vs t end in
  match v with
  | VBool _ | VAddress _ | VRef _ => true
  | VU8 x => in_width 8 x
  | VU64 x => in_width 64 x
  | VU128 x => in_width 128 x
  | VStruct ty fields => fields_ok fields (struct_fields ty)
  | VVector elem_ty elems => elems_ok elems elem_ty
  end.

Definition has_type (v : Value) (t : SignatureToken) : bool := value_ok v && type_matches v t.

(** ** The resolver *)

Definition get_struct_type (idx : nat) : VMResult SignatureToken :=
  let? d := rt_index (m_struct_defs m) idx in Ok (Struct (struct_handle d)).
Definition instantiate_generic_type (idx : nat) (ty_args : list SignatureToken) : VMResult SignatureToken :=
  let? i := rt_index (m_struct_def_instantiations m) idx in
  let? d := rt_index (m_struct_defs m) (sdi_def i) in
  let? sig := rt_index (m_signatures m) (sdi_type_parameters i) in
  let? args := r_collect (type_subst ty_args) sig in
  Ok (StructInstantiation (struct_handle d) args).
(** The tag of a value of the type; the code does not compute it when it packs. *)
Definition instance_tag (idx : nat) (ty_args : list SignatureToken) : VMResult SignatureToken :=
  let? i := rt_index (m_struct_def_instantiations m) idx in
  let? d := rt_index (m_struct_defs m) (sdi_def i) in
  let? sig := rt_index (m_signatures m) (sdi_type_parameters i) in
  Ok (StructInstantiation (struct_handle d) (subst ty_args <$> sig)).
Definition rt_field_count (idx : nat) : VMResult nat :=
  let? d := rt_index (m_struct_defs m) idx in Ok (as_u16 (N.of_nat (field_count d))).
Definition field_instantiation_count (idx : nat) : VMResult nat :=
  let? i := rt_index (m_struct_def_instantiations m) idx in rt_field_count (sdi_def i).
Definition field_offset (idx : nat) : VMResult nat := let? h := rt_index (m_field_handles m) idx in Ok (field h).
Definition field_instantiation_offset (idx : nat) : VMResult nat :=
  let? i := rt_index (m_field_instantiations m) idx in field_offset (fdi_handle i).
Definition instantiate_generic_function (idx : nat) (ty_args : list SignatureToken) : VMResult (nat * list SignatureToken) :=
  let? i := rt_index (m_function_instantiations m) idx in
  let? sig := rt_index (m_signatures m) (fi_type_parameters i) in
  let? args := r_collect (type_subst ty_args) sig in
  Ok (fi_handle i, args).
Definition single_type_at (idx : nat) : VMResult SignatureToken :=
  let? sig := rt_index (m_signatures m) idx in expect (sig !! 0) "called Option::unwrap() on a None value".

(** ** References *)

(** [borrow_field], by the type the reference points at *)
Definition borrow_field_ref (ty : SignatureToken) (offset : nat) : VMResult Value :=
  match struct_fields ty !! offset with
  | Some t => Ok (VRef t)
  | None => Err VMStatus.UNKNOWN_INVARIANT_VIOLATION_ERROR
  end.
(** A value is stored where a value of the type was. *)
Definition write_as (v : Value) (ty : SignatureToken) : VMResult unit :=
  if has_type v ty then Ok () else Err VMStatus.ILL_TYPED_STORE.

(** A reference to a vector, and the type of its elements.  The layout is checked against the
    type in the code, which is not instantiated. *)
Definition as_vector_ref (si : nat) (v : Value) : VMResult SignatureToken :=
  let? (ty, c) := as_container_ref v in
  let? type_param := single_type_at si in
  check_elem_layout type_param c ;?
  reachable_container c ;?
  match ty with Vector elem_ty => Ok elem_ty | _ => Err VMStatus.UNKNOWN_INVARIANT_VIOLATION_ERROR end.

(** ** Instructions *)

Definition binop (f : IntegerValue → IntegerValue → VMResult IntegerValue) (st : Stack) : VMResult Stack :=
  let? (rhs, st) := pop_as as_integer st in
  let? (lhs, st) := pop_as as_integer st in
  let? result := f lhs rhs in
  push (into_value result) st.
Definition binop_cmp (f : IntegerValue → IntegerValue → VMResult bool) (st : Stack) : VMResult Stack :=
  let? (rhs, st) := pop_as as_integer st in
  let? (lhs, st) := pop_as as_integer st in
  let? result := f lhs rhs in
  push (VBool result) st.
Definition binop_bool (f : bool → bool → bool) (st : Stack) : VMResult Stack :=
  let? (rhs, st) := pop_as as_bool st in
  let? (lhs, st) := pop_as as_bool st in
  push (VBool (f lhs rhs)) st.
Definition shift (f : IntegerValue → Z → VMResult IntegerValue) (st : Stack) : VMResult Stack :=
  let? (rhs, st) := pop_as as_u8 st in
  let? (lhs, st) := pop_as as_integer st in
  let? result := f lhs rhs in
  push (into_value result) st.
Definition rt_cast (f : IntegerValue → VMResult Z) (mk : Z → Value) (st : Stack) : VMResult Stack :=
  let? (i, st) := pop_as as_integer st in
  let? x := f i in
  push (mk x) st.
(** Both operands are consumed. *)
Definition compare (ref_eq neg : bool) (st : Stack) : VMResult (Stack * list Event) :=
  let? (lhs, st) := pop_value st in
  let? (rhs, st) := pop_value st in
  let? b := equals ref_eq lhs rhs in
  let? st := push (VBool (if neg then negb b else b)) st in
  Ok (st, [Dropped (type_of lhs); Dropped (type_of rhs)]).

(** A struct is tagged with its type. *)
Definition pack_struct (ty : SignatureToken) (field_count : nat) (st : Stack) : VMResult Stack :=
  let? (args, st) := popn field_count st in
  push (VStruct ty args) st.
Definition unpack_struct (st : Stack) : VMResult Stack :=
  let? (fields, st) := pop_as as_struct st in
  push_all fields st.
(** The resolver is asked after the operands are popped. *)
Definition borrow_field_op (offset : VMResult nat) (st : Stack) : VMResult Stack :=
  let? ((ty, _), st) := pop_as as_container_ref st in
  let? offset := offset in
  let? r := borrow_field_ref ty offset in
  push r st.
Definition borrow_global_op (ty : VMResult SignatureToken) (st : Stack) : VMResult Stack :=
  let? (_, st) := pop_as as_address st in
  let? ty := ty in
  push (VRef ty) st.
Definition exists_op (ty : VMResult SignatureToken) (flag : bool) (st : Stack) : VMResult Stack :=
  let? (_, st) := pop_as as_address st in
  let? _ := ty in
  push (VBool flag) st.
Definition move_from_op (ty : VMResult SignatureToken) (v : Value) (st : Stack) : VMResult Stack :=
  let? (_, st) := pop_as as_address st in
  let? _ := ty in
  push v st.
(** The address is the first field of the signer. *)
Definition move_to_op (ty : VMResult SignatureToken) (st : Stack) : VMResult Stack :=
  let? (resource, st) := pop_value st in
  let? ((signer, _), st) := pop_as as_container_ref st in
  let? r := borrow_field_ref signer 0 in
  (if has_type r (Reference Address) then Ok () else Err VMStatus.INTERNAL_TYPE_ERROR) ;?
  let? ty := ty in
  write_as resource ty ;?
  Ok st.

(** The stack after an instruction that goes on with the next one and leaves the locals. *)
Definition execute_stack (ch : Choice) (ty_args : list SignatureToken) (instruction : Bytecode) (st : Stack)
    : VMResult (Stack * list Event) :=
  let pure (r : VMResult Stack) : VMResult (Stack * list Event) := let? st := r in Ok (st, []) in
  match instruction with
  | Bytecode.Pop => let? (v, st) := pop_value st in Ok (st, [Dropped (type_of v)])
  | Bytecode.LdU8 n => pure (push (VU8 n) st)
  | Bytecode.LdU64 n => pure (push (VU64 n) st)
  | Bytecode.LdU128 n => pure (push (VU128 n) st)
  | Bytecode.LdConst idx =>
      let? constant := rt_index (m_constant_pool m) idx in
      let? v := ok_or (deserialize_constant constant) VMStatus.VERIFIER_INVARIANT_VIOLATION in
      pure (push v st)
  | Bytecode.LdTrue => pure (push (VBool true) st)
  | Bytecode.LdFalse => pure (push (VBool false) st)
  | Bytecode.ImmBorrowField idx | Bytecode.MutBorrowField idx =>
      pure (borrow_field_op (field_offset idx) st)
  | Bytecode.ImmBorrowFieldGeneric idx | Bytecode.MutBorrowFieldGeneric idx =>
      pure (borrow_field_op (field_instantiation_offset idx) st)
  | Bytecode.Pack idx =>
      let? n := rt_field_count idx in let? ty := get_struct_type idx in pure (pack_struct ty n st)
  | Bytecode.PackGeneric idx =>
      let? n := field_instantiation_count idx in
      let? ty := instance_tag idx ty_args in
      pure (pack_struct ty n st)
  | Bytecode.Unpack idx => let? _ := rt_field_count idx in pure (unpack_struct st)
  | Bytecode.UnpackGeneric idx => let? _ := field_instantiation_count idx in pure (unpack_struct st)
  | Bytecode.ReadRef =>
      let? (_, st) := pop_as as_reference st in
      let? st := push (ch_value ch) st in
      Ok (st, [Copied (type_of (ch_value ch))])
  | Bytecode.WriteRef =>
      let? (ty, st) := pop_as as_reference st in
      let? (v, st) := pop_value st in
      write_as v ty ;?
      Ok (st, [Dropped ty])
  | Bytecode.CastU8 => pure (rt_cast cast_u8 VU8 st)
  | Bytecode.CastU64 => pure (rt_cast cast_u64 VU64 st)
  | Bytecode.CastU128 => pure (rt_cast cast_u128 VU128 st)
  | Bytecode.Add => pure (binop add_checked st)
  | Bytecode.Sub => pure (binop sub_checked st)
  | Bytecode.Mul => pure (binop mul_checked st)
  | Bytecode.Mod => pure (binop rem_checked st)
  | Bytecode.Div => pure (binop div_checked st)
  | Bytecode.BitOr => pure (binop bit_or st)
  | Bytecode.BitAnd => pure (binop bit_and st)
  | Bytecode.Xor => pure (binop bit_xor st)
  | Bytecode.Shl => pure (shift shl_checked st)
  | Bytecode.Shr => pure (shift shr_checked st)
  | Bytecode.Or => pure (binop_bool orb st)
  | Bytecode.And => pure (binop_bool andb st)
  | Bytecode.Lt => pure (binop_cmp int_lt st)
  | Bytecode.Gt => pure (binop_cmp int_gt st)
  | Bytecode.Le => pure (binop_cmp int_le st)
  | Bytecode.Ge => pure (binop_cmp int_ge st)
  | Bytecode.Eq => compare (ch_flag ch) false st
  | Bytecode.Neq => compare (ch_flag ch) true st
  | Bytecode.MutBorrowGlobal idx | Bytecode.ImmBorrowGlobal idx => pure (borrow_global_op (get_struct_type idx) st)
  | Bytecode.MutBorrowGlobalGeneric idx | Bytecode.ImmBorrowGlobalGeneric idx =>
      pure (borrow_global_op (instantiate_generic_type idx ty_args) st)
  | Bytecode.Exists idx => pure (exists_op (get_struct_type idx) (ch_flag ch) st)
  | Bytecode.ExistsGeneric idx => pure (exists_op (instantiate_generic_type idx ty_args) (ch_flag ch) st)
  | Bytecode.MoveFrom idx => pure (move_from_op (get_struct_type idx) (ch_value ch) st)
  | Bytecode.MoveFromGeneric idx => pure (move_from_op (instantiate_generic_type idx ty_args) (ch_value ch) st)
  | Bytecode.MoveTo idx => pure (move_to_op (get_struct_type idx) st)
  | Bytecode.MoveToGeneric idx => pure (move_to_op (instantiate_generic_type idx ty_args) st)
  | Bytecode.FreezeRef | Bytecode.Nop => Ok (st, [])
  | Bytecode.Not => let? (b, st) := pop_as as_bool st in pure (push (VBool (negb b)) st)
  | Bytecode.VecPack si num =>
      let? (elements, st) := popn (as_u16 num) st in
      let? type_param := single_type_at si in
      let? v := vector_pack type_param (subst ty_args type_param) elements in
      pure (push v st)
  | Bytecode.VecLen si =>
      let? (v, st) := pop_value st in
      let? _ := as_vector_ref si v in
      let? len := as_u64 (ch_value ch) in
      pure (push (VU64 len) st)
  | Bytecode.VecImmBorrow si | Bytecode.VecMutBorrow si =>
      let? (_, st) := pop_as as_u64 st in
      let? (v, st) := pop_value st in
      let? elem_ty := as_vector_ref si v in
      pure (push (VRef elem_ty) st)
  | Bytecode.VecPushBack si =>
      let? (elem, st) := pop_value st in
      let? (v, st) := pop_value st in
      let? elem_ty := as_vector_ref si v in
      write_as elem elem_ty ;?
      Ok (st, [])
  | Bytecode.VecPopBack si =>
      let? (v, st) := pop_value st in
      let? _ := as_vector_ref si v in
      pure (push (ch_value ch) st)
  | Bytecode.VecUnpack si num =>
      let? (v, st) := pop_as as_vector st in
      let? type_param := single_type_at si in
      let? elements := vector_unpack v type_param num in
      pure (push_all elements st)
  | Bytecode.VecSwap si =>
      let? (_, st) := pop_as as_u64 st in
      let? (_, st) := pop_as as_u64 st in
      let? (v, st) := pop_value st in
      let? _ := as_vector_ref si v in
      Ok (st, [])
  | _ => Panic "not an instruction on the stack alone"
  end.

Definition dropped (v : option Value) : list Event := match v with Some v => [Dropped (type_of v)] | None => [] end.

(** The match over the instruction. *)
Definition execute_instruction (ch : Choice) (f : Frame) (st : Stack) (instruction : Bytecode) : VMResult ExitCode :=
  match ch_error ch with
  | Some e => Err e
  | None =>
      match instruction with
      | Bytecode.Ret => Ok Return
      | Bytecode.BrTrue offset =>
          let? (b, st) := pop_as as_bool st in
          Ok (Continue (if b then set_pc f offset else advance f) st [])
      | Bytecode.BrFalse offset =>
          let? (b, st) := pop_as as_bool st in
          Ok (Continue (if negb b then set_pc f offset else advance f) st [])
      | Bytecode.Branch offset => Ok (Continue (set_pc f offset) st [])
      | Bytecode.CopyLoc idx =>
          let? v := copy_loc (fr_locals f) idx in
          let? st := push v st in
          Ok (Continue (advance f) st [Copied (type_of v)])
      | Bytecode.MoveLoc idx =>
          let? (v, ls) := move_loc (fr_locals f) idx in
          let? st := push v st in
          Ok (Continue (advance (set_locals f ls)) st [])
      | Bytecode.StLoc idx =>
          let? (v, st) := pop_value st in
          let? (old, ls) := store_loc (fr_locals f) idx v in
          Ok (Continue (advance (set_locals f ls)) st (dropped old))
      | Bytecode.MutBorrowLoc idx | Bytecode.ImmBorrowLoc idx =>
          let? v := borrow_local (fr_locals f) idx in
          let? st := push v st in
          Ok (Continue (advance f) st [])
      | Bytecode.Call idx => Ok (Call idx [])
      | Bytecode.CallGeneric idx =>
          let? (fh_idx, ty_args) := instantiate_generic_function idx (fr_ty_args f) in Ok (Call fh_idx ty_args)
      | Bytecode.Abort => let? _ := pop_as as_u64 st in Err VMStatus.ABORTED
      | _ =>
          let? (st, ev) := execute_stack ch (fr_ty_args f) instruction st in
          Ok (Continue (advance f) st ev)
      end
  end.

(** ** The main loop *)

(** The function of the module that a handle names, unless it is native. *)
Definition function_from_handle (fh_idx : nat) : option (nat * CodeUnit) :=
  '(i, d) ← list_find (λ d, FileFormat.function d = fh_idx) (m_function_defs m);
  c ← fn_code d;
  Some (i, c).

Definition function_code (fn : nat) : list Bytecode :=
  match m_function_defs m !! fn ≫= fn_code with Some c => code c | None => [] end.

(** Pops the arguments into the locals of a new frame. *)
Definition make_call_frame (fn : nat) (arg_count local_count : nat) (ty_args : list SignatureToken) (st : Stack)
    : VMResult (Frame * Stack) :=
  let? (ls, st) := r_fold (λ s i, let? (v, st) := pop_value s.2 in
                                  let? (_, ls) := store_loc s.1 (arg_count - i - 1) v in
                                  Ok (ls, st)) (seq 0 arg_count) (Locals_new local_count, st) in
  Ok (mkFrame fn ty_args 0 ls, st).

Inductive StepResult := Running (it : Interpreter) | Finished (values : Stack).

(** [ExitCode::Call] and [ExitCode::CallGeneric]: a native function or one of another module runs
    in one step. *)
Definition call_function (ch : Choice) (it : Interpreter) (fh_idx : nat) (ty_args : list SignatureToken)
    : VMResult (StepResult * list Event) :=
  let f := current_frame it in
  let? fh := rt_index (m_function_handles m) fh_idx in
  let? parameters := rt_index (m_signatures m) (fh_parameters fh) in
  match function_from_handle fh_idx with
  | Some (fn, c) =>
      let? locals := rt_index (m_signatures m) (locals c) in
      let? (frame, st) :=
        make_call_frame fn (length parameters) (length parameters + length locals) ty_args (operand_stack it) in
      if length (call_stack it) <? CALL_STACK_SIZE_LIMIT
      then Ok (Running (mkInterpreter st (f :: call_stack it) frame), [])
      else Err VMStatus.CALL_STACK_OVERFLOW
  | None =>
      let? (_, st) := popn (length parameters) (operand_stack it) in
      let? st := push_all (ch_results ch) st in
      Ok (Running (mkInterpreter st (call_stack it) (advance f)), [])
  end.

(** [ExitCode::Return]: the locals of the frame are dropped with it. *)
Definition return_frame (it : Interpreter) : VMResult (StepResult * list Event) :=
  let ev := fr_locals (current_frame it) ≫= dropped in
  match call_stack it with
  | caller :: frames => Ok (Running (mkInterpreter (operand_stack it) frames (advance caller)), ev)
  | [] => Ok (Finished (operand_stack it), ev)
  end.

Definition step (ch : Choice) (it : Interpreter) : VMResult (StepResult * list Event) :=
  let f := current_frame it in
  let code := function_code (fr_function f) in
  match code !! fr_pc f with
  | None => Err VMStatus.PC_OVERFLOW
  | Some instruction =>
      let? exit_code := execute_instruction ch f (operand_stack it) instruction in
      match exit_code with
      | Continue f st ev => Ok (Running (mkInterpreter st (call_stack it) f), ev)
      | Return => return_frame it
      | Call fh_idx ty_args => call_function ch it fh_idx ty_args
      end
  end.

(** [execute_main]: the frame of the function that is called from outside. *)
Definition entrypoint (fn local_count : nat) (ty_args : list SignatureToken) (args : list Value) : VMResult Interpreter :=
  let? ls := r_fold (λ ls iv, let? (_, ls) := store_loc ls iv.1 iv.2 in Ok ls) (imap pair args) (Locals_new local_count) in
  Ok (mkInterpreter [] [] (mkFrame fn ty_args 0 ls)).

(** A run on the answers of the surroundings, and all its events. *)
Fixpoint run (chs : list Choice) (it : Interpreter) : VMResult (StepResult * list Event) :=
  match chs with
  | [] => Ok (Running it, [])
  | ch :: chs =>
      let? (r, ev) := step ch it in
      match r with
      | Running it => let? (r, ev') := run chs it in Ok (r, ev ++ ev')
      | Finished _ => Ok (r, ev)
      end
  end.
End module.
