(* ===== verification/InterpreterFacts.v ===== *)
(** * InterpreterFacts: typed values and the operations on them

    Values of a type have its shape, so that the casts of the interpreter succeed on them and the
    operations on integers, structs, vectors and locals keep the types. *)

From S2P Require Import Prelude FileFormat CodeFlow BoundsCheck TypeSafety TypeFacts MoveValue Interpreter.

Local Open Scope nat_scope.

(** ** Outcomes *)

(** The code does not panic and raises no invariant violation; what it returns satisfies [P]. *)
Definition vm_sat {A} (P : A → Prop) (r : VMResult A) : Prop :=
  match r with Ok a => P a | Err e => is_invariant_violation e = false | Panic _ => False end.

Lemma vm_sat_bind {A B} (Q : A → Prop) (P : B → Prop) (r : VMResult A) (f : A → VMResult B) :
  vm_sat Q r → (∀ a, Q a → vm_sat P (f a)) → vm_sat P (r_bind r f).
Proof. destruct r; simpl; auto. Qed.
Lemma vm_sat_mono {A} (Q P : A → Prop) (r : VMResult A) : vm_sat Q r → (∀ a, Q a → P a) → vm_sat P r.
Proof. destruct r; simpl; auto. Qed.
Lemma vm_sat_ok {A} (P : A → Prop) (r : VMResult A) a : vm_sat P r → r = Ok a → P a.
Proof. by intros H ->. Qed.

(** ** Typed values *)

Section values.
Context (m : CompiledModule) (imported : SignatureToken → list SignatureToken).
Local Abbreviation has_type := (Interpreter.has_type m imported).
Local Abbreviation value_ok := (Interpreter.value_ok m imported).
Local Abbreviation struct_fields := (Interpreter.struct_fields m imported).

Lemma value_ok_struct ty fields :
  value_ok (VStruct ty fields) = true ↔ Forall2 (λ v t, has_type v t = true) fields (struct_fields ty).
Proof.
  simpl. generalize (struct_fields ty) as ts. induction fields as [|v fields IH]; intros [|t ts].
  - split; [constructor|done].
  - split; [done|inversion 1].
  - split; [done|inversion 1].
  - rewrite !andb_true_iff, IH. unfold Interpreter.has_type at 2. split.
    + intros [[? ?] ?]. constructor; [|done]. by apply andb_true_iff.
    + inversion 1 as [|?? ?? Hv]; subst. apply andb_true_iff in Hv. done.
Qed.
Lemma value_ok_vector elem_ty elems :
  value_ok (VVector elem_ty elems) = true ↔ Forall (λ v, has_type v elem_ty = true) elems.
Proof.
  simpl. induction elems as [|v elems IH]; [split; done|]. rewrite !andb_true_iff, IH, Forall_cons. unfold Interpreter.has_type at 2.
  rewrite andb_true_iff. done.
Qed.

Lemma typed_bool v : has_type v Bool = true → ∃ b, v = VBool b.
Proof. unfold Interpreter.has_type. destruct v; rewrite ?andb_true_iff; intros [_ H]; try done; eauto. simpl in H. by destruct ty. Qed.
Lemma typed_address v : has_type v Address = true → ∃ a, v = VAddress a.
Proof. unfold Interpreter.has_type. destruct v; rewrite ?andb_true_iff; intros [_ H]; try done; eauto. simpl in H. by destruct ty. Qed.
Lemma typed_u8 v : has_type v U8 = true → ∃ x, v = VU8 x ∧ in_width 8 x = true.
Proof. unfold Interpreter.has_type. destruct v; rewrite ?andb_true_iff; intros [Hv H]; try done; eauto. simpl in H. by destruct ty. Qed.
Lemma typed_u64 v : has_type v U64 = true → ∃ x, v = VU64 x ∧ in_width 64 x = true.
Proof. unfold Interpreter.has_type. destruct v; rewrite ?andb_true_iff; intros [Hv H]; try done; eauto. simpl in H. by destruct ty. Qed.
Lemma typed_reference v t : has_type v (Reference t) = true ∨ has_type v (MutableReference t) = true → v = VRef t.
Proof.
  unfold Interpreter.has_type. intros H. destruct v; rewrite ?andb_true_iff in H; destruct H as [[_ H]|[_ H]]; simpl in H; try done;
    try (by destruct ty); apply bool_decide_eq_true in H; by subst.
Qed.
Lemma typed_ref_intro t : has_type (VRef t) (Reference t) = true ∧ has_type (VRef t) (MutableReference t) = true.
Proof. unfold Interpreter.has_type. simpl. by rewrite !bool_decide_true. Qed.
Lemma typed_vector v t : has_type v (Vector t) = true →
  ∃ elems, v = VVector t elems ∧ Forall (λ v, has_type v t = true) elems.
Proof.
  unfold Interpreter.has_type. destruct v; rewrite ?andb_true_iff; intros [Hv H]; simpl in H; try done.
  - by destruct ty.
  - apply bool_decide_eq_true in H as ->. exists elems. split; [done|]. by apply value_ok_vector.
Qed.
Lemma typed_struct v t : is_struct t = true → has_type v t = true →
  ∃ fields, v = VStruct t fields ∧ Forall2 (λ v t, has_type v t = true) fields (struct_fields t).
Proof.
  unfold Interpreter.has_type. intros Ht. destruct v; rewrite andb_true_iff; intros [Hv H]; try (by destruct t).
  unfold type_matches in H. apply andb_true_iff in H as [_ ->%bool_decide_eq_true]. exists fields. split; [done|].
  by apply value_ok_struct.
Qed.
Lemma typed_struct_intro t fields : is_struct t = true →
  Forall2 (λ v t, has_type v t = true) fields (struct_fields t) → has_type (VStruct t fields) t = true.
Proof.
  intros Hs HF. unfold Interpreter.has_type. rewrite (proj2 (value_ok_struct _ _) HF). unfold type_matches. by rewrite Hs, bool_decide_true.
Qed.
Lemma typed_vector_intro t elems : Forall (λ v, has_type v t = true) elems → has_type (VVector t elems) (Vector t) = true.
Proof. intros HF. unfold Interpreter.has_type. rewrite (proj2 (value_ok_vector _ _) HF). simpl. by rewrite bool_decide_true. Qed.

(** The tags give the type, but for the mutability of references. *)
Lemma type_of_typed v t : has_type v t = true →
  type_of v = t ∨ ∃ u, type_of v = Reference u ∧ (t = MutableReference u ∨ t = Reference u).
Proof.
  unfold Interpreter.has_type. rewrite andb_true_iff. intros [_ H]. destruct v; simpl in *.
  - destruct t; try done; auto.
  - destruct t; try done; auto.
  - destruct t; try done; auto.
  - destruct t; try done; auto.
  - destruct t; try done; auto.
  - apply andb_true_iff in H as [_ H]. apply bool_decide_eq_true in H. auto.
  - destruct t; try done. apply bool_decide_eq_true in H. subst. auto.
  - destruct t; try done; apply bool_decide_eq_true in H; subst; eauto.
Qed.

(** ** Integers *)

Definition int_type (i : IntegerValue) : SignatureToken := match i with IU8 _ => U8 | IU64 _ => U64 | IU128 _ => U128 end.
Definition int_width (i : IntegerValue) : Z := match i with IU8 _ => 8 | IU64 _ => 64 | IU128 _ => 128 end.
Definition int_val (i : IntegerValue) : Z := match i with IU8 x | IU64 x | IU128 x => x end.
Definition int_ok (i : IntegerValue) : Prop := in_width (int_width i) (int_val i) = true.

Lemma in_width_spec w x : in_width w x = true ↔ (0 ≤ x < 2 ^ w)%Z.
Proof. unfold in_width. rewrite andb_true_iff, Z.leb_le, Z.ltb_lt. done. Qed.

Lemma typed_integer v t : is_integer t = true → has_type v t = true → ∃ i, as_integer v = Ok i ∧ int_type i = t ∧ int_ok i.
Proof.
  intros Ht Hv. unfold Interpreter.has_type in Hv. apply andb_true_iff in Hv as [Hv Hm].
  destruct v; simpl in Hm; destruct t; try done; simpl in *; [exists (IU8 x)|exists (IU64 x)|exists (IU128 x)| | |];
    try done; by destruct ty.
Qed.
Lemma into_value_typed i : int_ok i → has_type (into_value i) (int_type i) = true.
Proof. unfold int_ok, has_type. destruct i; simpl; intros ->; done. Qed.

(** An operation that keeps the width. *)
Definition width_op (f : Z → Z → Z → VMResult Z) : Prop :=
  ∀ w l r, (0 < w)%Z → (0 ≤ l < 2 ^ w)%Z → (0 ≤ r < 2 ^ w)%Z → vm_sat (λ x, (0 ≤ x < 2 ^ w)%Z) (f w l r).

Lemma int_op_sat f l r : width_op f → int_type l = int_type r → int_ok l → int_ok r →
  vm_sat (λ i, int_type i = int_type l ∧ int_ok i) (int_op f l r).
Proof.
  intros Hf Ht Hl Hr. unfold int_ok in *. rewrite in_width_spec in Hl, Hr.
  destruct l, r; try done; simpl in *; (eapply vm_sat_bind; [by apply Hf|]); intros z Hz; simpl; (split; [done|]);
    unfold int_ok; rewrite in_width_spec; done.
Qed.

Lemma checked_sat w z : vm_sat (λ x, (0 ≤ x < 2 ^ w)%Z) (checked w z).
Proof.
  unfold checked. destruct (Z.leb_spec 0 z), (Z.ltb_spec z (2 ^ w)); simpl; try done; lia.
Qed.
Lemma lor_bound w l r : (0 < w)%Z → (0 ≤ l < 2 ^ w)%Z → (0 ≤ r < 2 ^ w)%Z → (0 ≤ Z.lor l r < 2 ^ w)%Z.
Proof.
  intros Hw Hl Hr. split; [apply Z.lor_nonneg; lia|]. destruct (decide (Z.lor l r = 0)%Z) as [->|Hne]; [lia|].
  assert (0 ≤ Z.lor l r)%Z by (apply Z.lor_nonneg; lia). apply Z.log2_lt_pow2; [lia|]. rewrite Z.log2_lor by lia.
  apply Z.max_lub_lt; [destruct (decide (l = 0)%Z) as [->|]|destruct (decide (r = 0)%Z) as [->|]]; simpl; try lia;
    apply Z.log2_lt_pow2; lia.
Qed.
Lemma lxor_bound w l r : (0 < w)%Z → (0 ≤ l < 2 ^ w)%Z → (0 ≤ r < 2 ^ w)%Z → (0 ≤ Z.lxor l r < 2 ^ w)%Z.
Proof.
  intros Hw Hl Hr. assert (0 ≤ Z.lxor l r)%Z by (apply Z.lxor_nonneg; lia). split; [done|].
  destruct (decide (Z.lxor l r = 0)%Z) as [->|Hne]; [lia|]. apply Z.log2_lt_pow2; [lia|].
  eapply Z.le_lt_trans; [apply Z.log2_lxor; lia|].
  apply Z.max_lub_lt; [destruct (decide (l = 0)%Z) as [->|]|destruct (decide (r = 0)%Z) as [->|]]; simpl; try lia;
    apply Z.log2_lt_pow2; lia.
Qed.
Lemma land_bound w l r : (0 < w)%Z → (0 ≤ l < 2 ^ w)%Z → (0 ≤ r)%Z → (0 ≤ Z.land l r < 2 ^ w)%Z.
Proof.
  intros Hw Hl Hr. assert (0 ≤ Z.land l r)%Z by (apply Z.land_nonneg; lia). split; [done|].
  destruct (decide (Z.land l r = 0)%Z) as [->|Hne]; [lia|].
  apply Z.log2_lt_pow2; [lia|]. eapply Z.le_lt_trans; [apply Z.log2_land; lia|]. apply Z.min_lt_iff. left.
  destruct (decide (l = 0)%Z) as [->|]; [simpl; lia|]. apply Z.log2_lt_pow2; lia.
Qed.

Lemma width_ops : width_op (λ w l r, checked w (l + r)%Z) ∧ width_op (λ w l r, checked w (l - r)%Z) ∧
  width_op (λ w l r, checked w (l * r)%Z) ∧
  width_op (λ _ l r, if (r =? 0)%Z then Err VMStatus.ARITHMETIC_ERROR else Ok (l / r)%Z) ∧
  width_op (λ _ l r, if (r =? 0)%Z then Err VMStatus.ARITHMETIC_ERROR else Ok (l mod r)%Z) ∧
  width_op (λ _ l r, Ok (Z.lor l r)) ∧ width_op (λ _ l r, Ok (Z.land l r)) ∧ width_op (λ _ l r, Ok (Z.lxor l r)).
Proof.
  split_and!; intros w l r Hw Hl Hr; try apply checked_sat; try (destruct (Z.eqb_spec r 0); [done|]); simpl.
  - split; [apply Z.div_pos; lia|]. eapply Z.le_lt_trans; [|apply Hl]. apply Z.div_le_upper_bound; nia.
  - pose proof (Z.mod_pos_bound l r ltac:(lia)). lia.
  - by apply lor_bound.
  - apply land_bound; lia.
  - by apply lxor_bound.
Qed.

Lemma shift_op_sat f l n : (∀ w x, (0 < w)%Z → (0 ≤ x < 2 ^ w)%Z → vm_sat (λ y, (0 ≤ y < 2 ^ w)%Z) (f w x n)) → int_ok l →
  vm_sat (λ i, int_type i = int_type l ∧ int_ok i) (shift_op f l n).
Proof.
  intros Hf Hl. unfold int_ok in *. rewrite in_width_spec in Hl.
  destruct l; simpl in *; (eapply vm_sat_bind; [by apply Hf|]); intros y Hy; simpl; (split; [done|]); unfold int_ok; rewrite in_width_spec; done.
Qed.
Lemma shl_width_sat w x n : (0 ≤ n)%Z → (0 < w)%Z → (0 ≤ x < 2 ^ w)%Z → vm_sat (λ y, (0 ≤ y < 2 ^ w)%Z) (shl_width w x n).
Proof. intros. unfold shl_width. destruct (Z.leb_spec w n); simpl; [done|]. apply Z.mod_pos_bound. lia. Qed.
Lemma shr_width_sat w x n : (0 ≤ n)%Z → (0 < w)%Z → (0 ≤ x < 2 ^ w)%Z → vm_sat (λ y, (0 ≤ y < 2 ^ w)%Z) (shr_width w x n).
Proof.
  intros. unfold shr_width. destruct (Z.leb_spec w n); simpl; [done|]. rewrite Z.shiftr_div_pow2 by done.
  split; [apply Z.div_pos; lia|]. eapply Z.le_lt_trans; [|apply H1]. apply Z.div_le_upper_bound; [lia|]. nia.
Qed.

Lemma cast_sat i : int_ok i → vm_sat (λ x, in_width 8 x = true) (cast_u8 i) ∧ vm_sat (λ x, in_width 64 x = true) (cast_u64 i) ∧
  vm_sat (λ x, in_width 128 x = true) (cast_u128 i).
Proof.
  unfold int_ok. destruct i as [x|x|x]; simpl; rewrite in_width_spec; intros Hx; split_and!;
    repeat match goal with |- context [if ?b then _ else _] => destruct b eqn:? end; simpl; try done; rewrite ?in_width_spec; try lia;
    rewrite ?Z.ltb_ge in *; lia.
Qed.
Lemma int_cmp_sat f l r : int_type l = int_type r → vm_sat (λ _, True) (int_cmp f l r).
Proof. by destruct l, r. Qed.

(** ** Equality *)

Lemma has_type_inv v t : has_type v t = true →
  match v with
  | VBool _ => t = Bool
  | VU8 x => t = U8
  | VU64 x => t = U64
  | VU128 x => t = U128
  | VAddress _ => t = Address
  | VStruct ty fields => ty = t ∧ is_struct t = true ∧ Forall2 (λ v t, has_type v t = true) fields (struct_fields t)
  | VVector elem_ty elems => t = Vector elem_ty ∧ Forall (λ v, has_type v elem_ty = true) elems
  | VRef ty => t = Reference ty ∨ t = MutableReference ty
  end.
Proof.
  unfold Interpreter.has_type. rewrite andb_true_iff. intros [Hv Hm]. destruct v; simpl in Hm.
  1-5: by destruct t.
  - apply andb_true_iff in Hm as [Hs ->%bool_decide_eq_true]. split_and!; [done|done|]. by apply value_ok_struct.
  - destruct t; try done. apply bool_decide_eq_true in Hm as ->. split; [done|]. by apply value_ok_vector.
  - destruct t; try done; apply bool_decide_eq_true in Hm as ->; auto.
Qed.

Section equality.
Context (ref_eq : bool).
Local Abbreviation equals_list :=
  (fix equals_all (l r : list Value) {struct l} : VMResult bool :=
    match l, r with
    | v :: l, w :: r => let? b := equals ref_eq v w in if b then equals_all l r else Ok false
    | _, _ => Ok true
    end).

Lemma equals_list_sat l r ts :
  Forall (λ v, ∀ t w, has_type v t = true → has_type w t = true → vm_sat (λ _, True) (equals ref_eq v w)) l →
  Forall2 (λ v t, has_type v t = true) l ts → Forall2 (λ v t, has_type v t = true) r ts →
  vm_sat (λ _, True) (equals_list l r).
Proof.
  intros HIH Hl. revert r. induction Hl as [|v t l ts Hv Hl IH]; intros r Hr; [done|].
  inversion Hr as [|w ? r' ? Hw Hr']; subst. apply Forall_cons in HIH as [Hvw HIH].
  eapply vm_sat_bind; [by apply (Hvw t)|]. intros [] _; [|done]. by apply IH.
Qed.

(** Two values of one type can be compared. *)
Fixpoint equals_sat v {struct v} : ∀ t w, has_type v t = true → has_type w t = true → vm_sat (λ _, True) (equals ref_eq v w).
Proof.
  intros t w Hv Hw. apply has_type_inv in Hv, Hw. destruct v.
  1-5: subst; destruct w; try done; decompose [and or] Hw; by subst.
  - destruct Hv as (-> & Hs & HF). destruct w; try (by subst); try (decompose [and or] Hw; by subst).
    destruct Hw as (-> & _ & HF'). simpl. destruct (negb _); [done|]. eapply equals_list_sat; [|done|done].
    clear HF HF' Hs. induction fields; constructor; [apply equals_sat|done].
  - destruct Hv as [-> HF]. destruct w; try done; try (decompose [and or] Hw; by subst).
    destruct Hw as [[= <-] HF']. simpl. rewrite bool_decide_true by done. destruct (Nat.eqb_spec (length elems) (length elems0)) as [Hlen|]; [|done].
    apply (equals_list_sat _ _ (replicate (length elems) elem_ty)).
    + clear HF HF' Hlen. induction elems; constructor; [apply equals_sat|done].
    + apply Forall2_replicate_r; done.
    + rewrite Hlen. apply Forall2_replicate_r; done.
  - destruct w; try (by destruct Hv; subst); try (decompose [and or] Hw; destruct Hv; by subst).
    assert (ty0 = ty) as -> by (destruct Hv, Hw; congruence). simpl. by rewrite bool_decide_true.
Qed.
End equality.
End values.

(** ** Substitution at run time *)

Lemma clone_sat t depth : vm_sat (λ t', t' = t) (clone_impl depth t).
Proof.
  unfold clone_impl. revert depth. induction t using token_ind; intros depth; simpl; destruct (_ <? _); try done;
    try (eapply vm_sat_bind; [apply IHt|]; by intros ? ->).
  apply (vm_sat_bind (λ ts', ts' = ts)); [|by intros ? ->]. induction H as [|t ts Ht Hts IH]; [done|]. simpl.
  eapply vm_sat_bind; [apply Ht|]. intros ? ->. eapply vm_sat_bind; [apply IH|]. by intros ? ->.
Qed.
(** Deep types apart, the substitution of the VM is that of the verifier. *)
Lemma apply_subst_sat view args t depth : type_wf view (length args) t →
  vm_sat (λ t', t' = subst args t)
    (apply_subst (λ idx depth, match args !! idx with
                               | Some ty => clone_impl depth ty
                               | None => Err VMStatus.UNKNOWN_INVARIANT_VIOLATION_ERROR
                               end) depth t).
Proof.
  revert depth. induction t using token_ind; intros depth Hwf; simpl; destruct (_ <? _); try done.
  - eapply vm_sat_bind; [apply IHt, (proj1 (wf_vector _ _ _) Hwf)|]. by intros ? ->.
  - apply (proj1 (wf_instantiation _ _ _ _)) in Hwf as [_ Hwf].
    apply (vm_sat_bind (λ ts', ts' = subst args <$> ts)); [|by intros ? ->]. induction H as [|t ts Ht Hts IH]; [done|]. apply Forall_cons in Hwf as [Hw Hwf]. simpl.
    eapply vm_sat_bind; [by apply Ht|]. intros ? ->. eapply vm_sat_bind; [by apply IH|]. by intros ? ->.
  - eapply vm_sat_bind; [apply IHt, (proj1 (wf_reference _ _ _) Hwf)|]. by intros ? ->.
  - eapply vm_sat_bind; [apply IHt, (proj1 (wf_mutable_reference _ _ _) Hwf)|]. by intros ? ->.
  - apply (proj1 (wf_parameter _ _ _)) in Hwf. apply lookup_lt_is_Some_2 in Hwf as [ty ->]. simpl. apply clone_sat.
Qed.
Lemma subst_collect_sat view args ts : Forall (type_wf view (length args)) ts →
  vm_sat (λ ts', ts' = subst args <$> ts) (r_collect (type_subst args) ts).
Proof.
  induction 1 as [|t ts Ht Hts IH]; [done|]. simpl. eapply vm_sat_bind; [by eapply apply_subst_sat|]. intros ? ->.
  eapply vm_sat_bind; [done|]. by intros ? ->.
Qed.
