(* ===== verification/InstructionSound.v ===== *)
(** * InstructionSound: instructions on operands of the types the verifier expects

    An instruction that type safety accepts on a stack of types runs on values of these types:
    it does not panic, raises no invariant violation, and leaves values of the types that type
    safety computed.  It copies only values whose type has the copy ability, and destroys only
    values whose type has the drop ability. *)

From S2P Require Import Prelude FileFormat CodeFlow BoundsCheck Declarations TypeSafety.
From S2P Require Import CodeFlowFacts TypeFacts VerifierFacts MoveValue Interpreter InterpreterFacts.

Local Open Scope nat_scope.

Section answers.
Context (m : CompiledModule) (imported : SignatureToken → list SignatureToken).
Local Abbreviation has_type := (Interpreter.has_type m imported).

Fixpoint have_types (vs : list Value) (ts : list SignatureToken) : bool :=
  match vs, ts with
  | [], [] => true
  | v :: vs, t :: ts => has_type v t && have_types vs ts
  | _, _ => false
  end.

(** The results of a call outside have the types of the return signature. *)
Definition results_ok (ch : Choice) (fh_idx : nat) (targs : list SignatureToken) : bool :=
  match function_from_handle m fh_idx, m_function_handles m !! fh_idx with
  | None, Some fh =>
      match m_signatures m !! fh_return fh with
      | Some rs => have_types (ch_results ch) (subst targs <$> rs)
      | None => true
      end
  | _, _ => true
  end.

(** What the surroundings of the stacks promise: errors that are no invariant violations, and
    values of the type that is asked for. *)
Definition answer_ok (ch : Choice) (ty_args : list SignatureToken) (instr : Bytecode) (st : Stack) : bool :=
  match ch_error ch with
  | Some e => negb (is_invariant_violation e)
  | None =>
      match instr, st with
      | Bytecode.ReadRef, VRef ty :: _ => has_type (ch_value ch) ty
      | Bytecode.MoveFrom idx, _ =>
          match get_struct_type m idx with Ok ty => has_type (ch_value ch) ty | _ => true end
      | Bytecode.MoveFromGeneric idx, _ =>
          match instantiate_generic_type m idx ty_args with Ok ty => has_type (ch_value ch) ty | _ => true end
      | Bytecode.VecLen _, _ => has_type (ch_value ch) U64
      | Bytecode.VecPopBack _, VRef (Vector ty) :: _ => has_type (ch_value ch) ty
      | Bytecode.Call idx, _ => results_ok ch idx []
      | Bytecode.CallGeneric idx, _ =>
          match instantiate_generic_function m idx ty_args with
          | Ok (fh_idx, targs) => results_ok ch fh_idx targs
          | _ => true
          end
      | _, _ => true
      end
  end.

(** Literals are in range; vectors are packed empty, and their elements are not of the type of
    a bare type parameter. *)
Definition instr_ok (instr : Bytecode) : bool :=
  let elem_ok si := match m_signatures m !! si with Some (TypeParameter _ :: _) => false | _ => true end in
  match instr with
  | Bytecode.LdU8 n => in_width 8 n
  | Bytecode.LdU64 n => in_width 64 n
  | Bytecode.LdU128 n => in_width 128 n
  | Bytecode.VecPack si num => elem_ok si && (num =? 0)%N
  | Bytecode.VecLen si | Bytecode.VecImmBorrow si | Bytecode.VecMutBorrow si | Bytecode.VecPushBack si
  | Bytecode.VecPopBack si | Bytecode.VecUnpack si _ | Bytecode.VecSwap si => elem_ok si
  | _ => true
  end.

(** Only values that may be are copied and destroyed. *)
Definition event_ok (e : Event) : bool :=
  match e with
  | Copied ty => match abilities (ModuleView m) ty [] with Ok a => has_copy a | _ => false end
  | Dropped ty => match abilities (ModuleView m) ty [] with Ok a => has_drop a | _ => false end
  end.
End answers.

(** ** Stacks *)

Lemma push_sat v st : vm_sat (λ st', st' = v :: st ∧ length st' ≤ OPERAND_STACK_SIZE_LIMIT) (push v st).
Proof. unfold push. destruct (Nat.ltb_spec (length st) OPERAND_STACK_SIZE_LIMIT); simpl; [split; [done|lia]|done]. Qed.
Lemma push_all_sat vs st : length st ≤ OPERAND_STACK_SIZE_LIMIT →
  vm_sat (λ st', st' = rev vs ++ st ∧ length st' ≤ OPERAND_STACK_SIZE_LIMIT) (push_all vs st).
Proof.
  unfold push_all. revert st. induction vs as [|v vs IH]; intros st Hst; [done|]. cbn [r_fold].
  eapply vm_sat_bind; [apply push_sat|]. intros st' [-> Hlen]. eapply vm_sat_mono; [by apply IH|]. simpl. intros ? [-> ?].
  by rewrite <- app_assoc.
Qed.
Lemma popn_app vs rest : popn (length vs) (vs ++ rest) = Ok (rev vs, rest).
Proof.
  unfold popn. rewrite length_app. destruct (Nat.ltb_spec (length vs + length rest) (length vs)); [lia|].
  by rewrite take_app_length, drop_app_length.
Qed.
Lemma as_u16_id n : n ≤ OPERAND_STACK_SIZE_LIMIT → as_u16 (N.of_nat n) = n.
Proof. unfold as_u16, OPERAND_STACK_SIZE_LIMIT. intros Hn. rewrite N.mod_small by lia. lia. Qed.

Section sound.
Context (m : CompiledModule) (imported : SignatureToken → list SignatureToken).
Context (deserialize_constant : Constant → option Value).
Local Abbreviation view := (ModuleView m).
Local Abbreviation has_type := (Interpreter.has_type m imported).
Local Abbreviation struct_fields := (Interpreter.struct_fields m imported).
Context (fv : FunctionView) (Hc : code_checked view fv).
Context (Hunique : NoDup (struct_handle <$> m_struct_defs m)).
Context (Hconst : ∀ k, k ∈ m_constant_pool m → ∃ v, deserialize_constant k = Some v ∧ has_type v (type_ k) = true).
Context (ty_args : list SignatureToken) (Hargs : args_ok view ty_args (fv_type_parameters fv)).
Local Abbreviation wf := (type_wf view (length (fv_type_parameters fv))).
Local Abbreviation sub := (subst ty_args).

Definition typed_stack (vs : Stack) (loc : TypeStack) : Prop := Forall2 (λ v t, has_type v (sub t) = true) vs loc.

(** The stack has values of these types above [rest], and is within its limit. *)
Definition good (loc : TypeStack) (rest st : Stack) : Prop :=
  ∃ vs, st = vs ++ rest ∧ typed_stack vs loc ∧ length st ≤ OPERAND_STACK_SIZE_LIMIT.
Definition good_out (loc : TypeStack) (rest : Stack) (p : Stack * list Event) : Prop :=
  good loc rest p.1 ∧ Forall (λ e, event_ok m e = true) p.2.

Lemma push_good v t vs loc rest : has_type v (sub t) = true → typed_stack vs loc →
  vm_sat (good (t :: loc) rest) (push v (vs ++ rest)).
Proof.
  intros Hv Hvs. eapply vm_sat_mono; [apply push_sat|]. intros st [-> Hlen]. exists (v :: vs). split_and!; [done|by constructor|done].
Qed.
Lemma pure_good loc rest (r : VMResult Stack) : vm_sat (good loc rest) r →
  vm_sat (good_out loc rest) (let? st := r in Ok (st, [])).
Proof. intros H. eapply vm_sat_bind; [done|]. intros st Hst. split; [done|constructor]. Qed.
Lemma event_good (e : Event) loc rest st : good loc rest st → event_ok m e = true → good_out loc rest (st, [e]).
Proof. intros Hg He. split; [done|]. by repeat constructor. Qed.

(** ** Abilities *)

Lemma value_abilities v t a : wf t → ts_abilities view fv t = Ok a → has_type v (sub t) = true →
  ∃ a', abilities view (type_of v) [] = Ok a' ∧ (has_copy a = true → has_copy a' = true) ∧ (has_drop a = true → has_drop a' = true).
Proof.
  intros Hwf Ha Hv. destruct (abilities_subst view ty_args _ t a Hargs Hwf Ha) as (a' & Ha' & Hle).
  destruct (type_of_typed _ _ _ _ Hv) as [->|(u & -> & _)]; [|by exists REFERENCES].
  exists a'. split; [done|]. split; by apply has_ability_mono.
Qed.
Lemma copied_ok v t a : wf t → ts_abilities view fv t = Ok a → has_copy a = true → has_type v (sub t) = true →
  event_ok m (Copied (type_of v)) = true.
Proof. intros Hwf Ha Hcp Hv. simpl. destruct (value_abilities v t a) as (a' & -> & H & _); auto. Qed.
Lemma dropped_ok v t a : wf t → ts_abilities view fv t = Ok a → has_drop a = true → has_type v (sub t) = true →
  event_ok m (Dropped (type_of v)) = true.
Proof. intros Hwf Ha Hcp Hv. simpl. destruct (value_abilities v t a) as (a' & -> & _ & H); auto. Qed.
Lemma require_inv has t err u : require_ability view fv has t err = Ok u → ∃ a, ts_abilities view fv t = Ok a ∧ has a = true.
Proof. unfold require_ability. intros H. r_inv H. eauto. Qed.

(** ** Structs *)

Lemma sub_materialize h targs : sub (materialize_type h targs) = materialize_type h (sub <$> targs).
Proof. by destruct targs. Qed.
Lemma materialize_is_struct h targs : is_struct (materialize_type h targs) = true.
Proof. by destruct targs. Qed.
Lemma struct_fields_materialize d targs fields : d ∈ m_struct_defs m → field_information d = Declared fields →
  struct_fields (materialize_type (struct_handle d) targs) = (λ f, subst targs (fd_signature f)) <$> fields.
Proof.
  intros Hd Hf. assert (Hfind : ∃ i, list_find (λ d', struct_handle d' = struct_handle d) (m_struct_defs m) = Some (i, d)).
  { destruct (list_find_elem_of (λ d', struct_handle d' = struct_handle d) _ d Hd eq_refl) as [[i d'] Hfind].
    exists i. rewrite Hfind. apply list_find_Some in Hfind as (Hi & Heq & _). apply list_elem_of_lookup in Hd as [j Hj].
    assert (i = j) as ->; [|congruence].
    eapply NoDup_lookup; [apply Hunique| |]; rewrite list_lookup_fmap; [by rewrite Hi|by rewrite Hj, Heq]. }
  destruct Hfind as [i Hfind]. unfold Interpreter.struct_fields. destruct targs; cbn [materialize_type]; by rewrite Hfind, Hf.
Qed.
(** The fields of an instance, as type safety computes them. *)
Lemma instance_fields d targs fields : struct_use view fv d targs → d ∈ m_struct_defs m → field_information d = Declared fields →
  struct_fields (sub (materialize_type (struct_handle d) targs)) = sub <$> ((λ f, subst targs (fd_signature f)) <$> fields).
Proof.
  intros (_ & sh & _ & _ & Hf) Hd Hfi. rewrite sub_materialize, (struct_fields_materialize d _ fields), <- list_fmap_compose by done.
  apply list_fmap_ext. intros i f Hi. simpl. symmetry. eapply subst_subst.
  specialize (Hf _ Hfi). rewrite Forall_lookup in Hf. by eapply Hf.
Qed.
Lemma fields_signature d targs sig : struct_use view fv d targs → type_fields_signature d targs = Ok sig →
  ∃ fields, field_information d = Declared fields ∧ sig = (λ f, subst targs (fd_signature f)) <$> fields.
Proof.
  unfold type_fields_signature. intros Hu. destruct (field_information d) as [|fields] eqn:Hf; [done|]. intros H%r_collect_inv.
  exists fields. split; [done|]. clear Hf. induction H as [|f t fields' ts Hft _ IH]; [done|]. simpl. f_equal; [|done].
  by apply instantiate_inv.
Qed.

Lemma typed_rev vs loc : typed_stack vs loc → typed_stack (rev vs) (rev loc).
Proof. unfold typed_stack. rewrite !rev_alt. apply Forall2_reverse. Qed.
Lemma typed_fmap vs loc : typed_stack vs loc ↔ Forall2 (λ v t, has_type v t = true) vs (sub <$> loc).
Proof. unfold typed_stack. by rewrite Forall2_fmap_r. Qed.

Lemma pop_expected_inv err types loc loc' : pop_expected err types loc = Ok loc' → loc = types ++ loc'.
Proof.
  revert loc. induction types as [|t types IH]; intros loc H; [by injection H as ->|]. destruct loc as [|x loc]; [done|].
  simpl in H. case_bool_decide; [|done]. subst. simpl. f_equal. by apply IH.
Qed.
Lemma typed_cons_inv st t loc : typed_stack st (t :: loc) → ∃ v vs, st = v :: vs ∧ has_type v (sub t) = true ∧ typed_stack vs loc.
Proof. inversion 1; subst. eauto 6. Qed.
Lemma typed_app_inv vs l loc : typed_stack vs (l ++ loc) → ∃ vs1 vs2, vs = vs1 ++ vs2 ∧ typed_stack vs1 l ∧ typed_stack vs2 loc.
Proof. intros H. apply Forall2_app_inv_r in H as (vs1 & vs2 & H1 & H2 & ->). eauto. Qed.

Lemma pack_good d targs loc loc' vs rest : struct_use view fv d targs → d ∈ m_struct_defs m → pack d targs loc = Ok loc' →
  typed_stack vs loc → length (vs ++ rest) ≤ OPERAND_STACK_SIZE_LIMIT →
  vm_sat (good loc' rest)
    (pack_struct (sub (materialize_type (struct_handle d) targs)) (as_u16 (N.of_nat (field_count d))) (vs ++ rest)).
Proof.
  intros Hu Hd H Hvs Hlen. unfold pack in H. r_inv H. apply pop_expected_inv in Hs0 as ->.
  destruct (fields_signature _ _ _ Hu Hs) as (fields & Hf & ->). apply typed_app_inv in Hvs as (fs & vs' & -> & Hfs & Hvs').
  assert (Hn : length fs = field_count d).
  { apply Forall2_length in Hfs. rewrite Hfs, length_rev, length_fmap. unfold field_count. by rewrite Hf. }
  rewrite !length_app in Hlen. unfold pack_struct. rewrite as_u16_id, <- Hn, <- app_assoc, popn_app by lia. cbn [r_bind].
  apply push_good; [|done]. apply typed_struct_intro; [rewrite sub_materialize; apply materialize_is_struct|].
  rewrite (instance_fields d targs fields) by done. apply typed_fmap. apply typed_rev in Hfs. by rewrite rev_involutive in Hfs.
Qed.
Lemma unpack_good d targs loc loc' vs rest : struct_use view fv d targs → d ∈ m_struct_defs m → unpack d targs loc = Ok loc' →
  typed_stack vs loc → length (vs ++ rest) ≤ OPERAND_STACK_SIZE_LIMIT → vm_sat (good loc' rest) (unpack_struct (vs ++ rest)).
Proof.
  intros Hu Hd H Hvs Hlen. unfold unpack in H. destruct loc as [|t loc]; [done|]. simpl in H. case_bool_decide as Ht; [|done].
  simpl in H. r_inv H. inversion Hvs as [|v ? vs' ? Hv Hvs']; subst. destruct (fields_signature _ _ _ Hu Hs) as (fields & Hf & ->).
  apply typed_struct in Hv as (fs & -> & HF); [|rewrite sub_materialize; apply materialize_is_struct].
  rewrite (instance_fields d targs fields) in HF by done. unfold unpack_struct. simpl in *.
  eapply vm_sat_mono; [apply push_all_sat; lia|]. intros st [-> Hl]. exists (rev fs ++ vs'). split_and!; [by rewrite app_assoc| |done].
  apply Forall2_app; [|done]. by apply typed_rev, typed_fmap.
Qed.

(** ** What the resolver finds *)

Lemma rt_index_at {A} (l : list A) i x : at_index l i = Ok x → rt_index l i = Ok x.
Proof. intros H%at_index_ok. unfold rt_index. by rewrite H. Qed.
Lemma struct_def_elem idx d : struct_def_at view idx = Ok d → d ∈ m_struct_defs m.
Proof. intros H%at_index_ok. by eapply list_elem_of_lookup_2. Qed.
Lemma rt_struct_def idx d : struct_def_at view idx = Ok d → rt_index (m_struct_defs m) idx = Ok d.
Proof. apply rt_index_at. Qed.

Lemma plain_type idx d : struct_def_at view idx = Ok d →
  get_struct_type m idx = Ok (sub (materialize_type (struct_handle d) [])) ∧
  rt_field_count m idx = Ok (as_u16 (N.of_nat (field_count d))).
Proof. intros H. unfold get_struct_type, rt_field_count. by rewrite (rt_struct_def _ _ H). Qed.

Lemma generic_args_nonempty instr idx i d targs : instr ∈ fv_code fv → generic_struct_op instr = Some idx →
  struct_instantiation_at view idx = Ok i → struct_def_at view (sdi_def i) = Ok d → struct_use view fv d targs → targs ≠ [].
Proof.
  intros Hin Hop Hi Hd (_ & sh & Hsh & Hlen & _) ->. pose proof (checked_consistent _ _ Hc _ Hin) as Hk.
  assert (check_type_op view (sdi_def i) true = Ok ()) as Hty.
  { destruct instr; simplify_eq/=; rewrite Hi in Hk; done. }
  unfold check_type_op in Hty. rewrite Hd in Hty. cbn [r_bind] in Hty. unfold struct_handle_at in Hty.
  rewrite (proj2 (at_index_ok _ _ _) Hsh) in Hty. cbn [r_bind] in Hty. by destruct (sh_type_parameters sh).
Qed.
Lemma generic_type instr idx d targs : instr ∈ fv_code fv → generic_struct_op instr = Some idx →
  struct_instance view idx = Ok (d, targs) →
  struct_use view fv d targs ∧ d ∈ m_struct_defs m ∧
  vm_sat (λ t, t = sub (materialize_type (struct_handle d) targs)) (instantiate_generic_type m idx ty_args) ∧
  vm_sat (λ t, t = sub (materialize_type (struct_handle d) targs)) (instance_tag m idx ty_args) ∧
  field_instantiation_count m idx = Ok (as_u16 (N.of_nat (field_count d))).
Proof.
  intros Hin Hop H. unfold struct_instance in H. r_inv H. rename a into i, Hs into Hi, Hs0 into Hd, Hs1 into Hsig.
  destruct (struct_instance_ok view fv Hc instr idx Hin Hop) as [[e He]|(i' & d' & targs' & Hi' & Hd' & Hsig' & Hu)]; [congruence|].
  assert (i' = i) as -> by congruence. assert (d' = d) as -> by congruence. assert (targs' = targs) as -> by congruence.
  assert (Hne : targs ≠ []) by (by eapply generic_args_nonempty). split_and!; [done|by eapply struct_def_elem| | |].
  - unfold instantiate_generic_type. rewrite (rt_index_at _ _ _ Hi). cbn [r_bind]. rewrite (rt_struct_def _ _ Hd). cbn [r_bind].
    rewrite (rt_index_at (m_signatures m) _ _ Hsig). cbn [r_bind]. eapply vm_sat_bind; [eapply subst_collect_sat|].
    + rewrite (args_ok_length _ _ _ Hargs). apply Hu.
    + intros ? ->. destruct targs; done.
  - unfold instance_tag. rewrite (rt_index_at _ _ _ Hi). cbn [r_bind]. rewrite (rt_struct_def _ _ Hd). cbn [r_bind].
    rewrite (rt_index_at (m_signatures m) _ _ Hsig). cbn [r_bind]. by destruct targs.
  - unfold field_instantiation_count. rewrite (rt_index_at _ _ _ Hi). cbn [r_bind]. by apply plain_type.
Qed.

(** ** References to fields *)

Lemma borrow_field_good mut_ idx targs h d fields f t loc loc' v vs rest : field_use view fv idx targs h d fields f →
  borrow_field view mut_ idx targs (t :: loc) = Ok loc' → typed_stack (v :: vs) (t :: loc) →
  vm_sat (good loc' rest) (borrow_field_op m imported (Ok (field h)) (v :: vs ++ rest)).
Proof.
  intros (Hh & Hd & Hf & Hfd & Hu) H Hvs. unfold borrow_field in H. cbn [pop r_bind] in H.
  destruct (mut_ && negb (is_mutable_reference t)); [done|]. rewrite Hh in H. cbn [r_bind] in H. rewrite Hd in H. cbn [r_bind] in H.
  apply r_bind_ok in H as ([] & Ht & H). rewrite Hf in H. r_inv H. apply at_index_ok in Hs. assert (a = f) as -> by congruence.
  apply instantiate_inv in Hs0 as ->.
  inversion Hvs as [|? ? ? ? Hv Hvs']; subst.
  assert (v = VRef (sub (materialize_type (struct_handle d) targs))) as ->.
  { destruct t; try done; apply ensure_ok, bool_decide_eq_true in Ht; subst; eapply typed_reference; [by left|by right]. }
  assert (container_of (sub (materialize_type (struct_handle d) targs)) = Some CStruct) as Hco by (by destruct targs).
  unfold borrow_field_op, pop_as. cbn [pop_value r_bind as_container_ref]. rewrite Hco. cbn [ok_or r_bind].
  unfold borrow_field_ref. rewrite (instance_fields d targs fields), !list_lookup_fmap, Hfd
    by (done || by eapply struct_def_elem). simpl.
  apply push_good; [|done]. destruct mut_; apply typed_ref_intro.
Qed.

(** ** Integers and booleans *)

Lemma sub_integer t : is_integer t = true → sub t = t.
Proof. by destruct t. Qed.

Lemma pop_integer {A} t v st (k : IntegerValue * Stack → VMResult A) P : is_integer t = true → has_type v (sub t) = true →
  (∀ i, int_type i = t → int_ok i → vm_sat P (k (i, st))) → vm_sat P (r_bind (pop_as as_integer (v :: st)) k).
Proof.
  intros Ht Hv H. rewrite sub_integer in Hv by done. destruct (typed_integer _ _ _ _ Ht Hv) as (i & Hi & Hit & Hok).
  unfold pop_as. cbn [pop_value r_bind]. rewrite Hi. cbn [r_bind]. by apply H.
Qed.
Lemma push_integer i t vs loc rest : int_type i = t → int_ok i → typed_stack vs loc → vm_sat (good (t :: loc) rest) (push (into_value i) (vs ++ rest)).
Proof.
  intros <- Hok Hvs. apply push_good; [|done]. rewrite sub_integer by (by destruct i). by apply into_value_typed.
Qed.

Lemma binop_good g t loc v w vs rest : width_op g → is_integer t = true → has_type v (sub t) = true → has_type w (sub t) = true →
  typed_stack vs loc → vm_sat (good (t :: loc) rest) (binop (int_op g) (v :: w :: vs ++ rest)).
Proof.
  intros Hg Ht Hv Hw Hvs. unfold binop. apply (pop_integer t); [done|done|]. intros r Hr Hrok. cbv beta iota.
  apply (pop_integer t); [done|done|]. intros l Hl Hlok. cbv beta iota.
  eapply vm_sat_bind; [apply int_op_sat; [done|congruence|done|done]|]. intros i [Hi Hiok]. apply push_integer; [congruence|done|done].
Qed.
Lemma binop_cmp_good g t loc v w vs rest : is_integer t = true → has_type v (sub t) = true → has_type w (sub t) = true →
  typed_stack vs loc → vm_sat (good (Bool :: loc) rest) (binop_cmp (int_cmp g) (v :: w :: vs ++ rest)).
Proof.
  intros Ht Hv Hw Hvs. unfold binop_cmp. apply (pop_integer t); [done|done|]. intros r Hr Hrok. cbv beta iota.
  apply (pop_integer t); [done|done|]. intros l Hl Hlok. cbv beta iota.
  eapply vm_sat_bind; [apply int_cmp_sat; congruence|]. intros b _. by apply push_good.
Qed.
Lemma shift_good g t loc v w vs rest : (∀ n w x, (0 ≤ n)%Z → (0 < w)%Z → (0 ≤ x < 2 ^ w)%Z → vm_sat (λ y, (0 ≤ y < 2 ^ w)%Z) (g w x n)) →
  is_integer t = true → has_type v U8 = true → has_type w (sub t) = true → typed_stack vs loc →
  vm_sat (good (t :: loc) rest) (shift (shift_op g) (v :: w :: vs ++ rest)).
Proof.
  intros Hg Ht Hv Hw Hvs. unfold shift. destruct (typed_u8 _ _ _ Hv) as (n & -> & Hn). unfold pop_as at 1. cbn [pop_value r_bind as_u8].
  apply (pop_integer t); [done|done|]. intros l Hl Hlok. cbv beta iota. apply in_width_spec in Hn.
  eapply vm_sat_bind; [apply shift_op_sat; [|done]|].
  { intros. apply Hg; lia || done. }
  intros i [Hi Hiok]. apply push_integer; [congruence|done|done].
Qed.
Lemma cast_good (f : IntegerValue → VMResult Z) mk t t' loc v vs rest :
  (∀ i, int_ok i → vm_sat (λ x, has_type (mk x) t' = true) (f i)) → is_integer t' = true → is_integer t = true →
  has_type v (sub t) = true → typed_stack vs loc → vm_sat (good (t' :: loc) rest) (rt_cast f mk (v :: vs ++ rest)).
Proof.
  intros Hf Ht' Ht Hv Hvs. unfold rt_cast. apply (pop_integer t); [done|done|]. intros i Hi Hok. cbv beta iota.
  eapply vm_sat_bind; [by apply Hf|]. intros x Hx. apply push_good; [by rewrite sub_integer|done].
Qed.
Lemma binop_bool_good g loc v w vs rest : has_type v Bool = true → has_type w Bool = true → typed_stack vs loc →
  vm_sat (good (Bool :: loc) rest) (binop_bool g (v :: w :: vs ++ rest)).
Proof.
  intros Hv Hw Hvs. destruct (typed_bool _ _ _ Hv) as [b ->], (typed_bool _ _ _ Hw) as [c ->]. by apply push_good.
Qed.

Lemma compare_good re neg t a loc v w vs rest : wf t → ts_abilities view fv t = Ok a → has_drop a = true →
  has_type v (sub t) = true → has_type w (sub t) = true → typed_stack vs loc →
  vm_sat (good_out (Bool :: loc) rest) (compare re neg (v :: w :: vs ++ rest)).
Proof.
  intros Hwf Ha Hd Hv Hw Hvs. unfold compare. cbn [pop_value r_bind]. eapply vm_sat_bind; [by eapply equals_sat|]. intros b _.
  eapply vm_sat_bind; [by apply (push_good _ Bool _ loc)|]. intros st Hst. split; [done|].
  repeat constructor; by eapply dropped_ok.
Qed.

(** ** Global storage *)

Lemma borrow_global_good ty mut_ t loc v vs rest : has_type v Address = true → vm_sat (λ u, u = sub t) ty → typed_stack vs loc →
  vm_sat (good (ref_type mut_ t :: loc) rest) (borrow_global_op ty (v :: vs ++ rest)).
Proof.
  intros Hv Hty Hvs. destruct (typed_address _ _ _ Hv) as [a ->]. unfold borrow_global_op, pop_as.
  cbn [pop_value r_bind as_address]. eapply vm_sat_bind; [apply Hty|]. intros ? ->. apply push_good; [|done]. destruct mut_; apply typed_ref_intro.
Qed.
Lemma exists_good ty t b loc v vs rest : has_type v Address = true → vm_sat (λ u, u = sub t) ty → typed_stack vs loc →
  vm_sat (good (Bool :: loc) rest) (exists_op ty b (v :: vs ++ rest)).
Proof.
  intros Hv Hty Hvs. destruct (typed_address _ _ _ Hv) as [a ->]. unfold exists_op, pop_as.
  cbn [pop_value r_bind as_address]. eapply vm_sat_bind; [apply Hty|]. intros ? _. by apply push_good.
Qed.
Lemma move_from_good ty x t loc v vs rest : has_type v Address = true → vm_sat (λ u, u = sub t) ty →
  (∀ u, ty = Ok u → has_type x u = true) → typed_stack vs loc →
  vm_sat (good (t :: loc) rest) (move_from_op ty x (v :: vs ++ rest)).
Proof.
  intros Hv Hty Hx Hvs. destruct (typed_address _ _ _ Hv) as [a ->]. destruct ty as [u| |]; [|done..]. simpl in Hty. subst u.
  apply push_good; auto.
Qed.
Lemma move_to_good ty t loc v w vs rest : has_type v (sub t) = true → has_type w (Reference Signer) = true →
  vm_sat (λ u, u = sub t) ty →
  typed_stack vs loc → length (v :: w :: vs ++ rest) ≤ OPERAND_STACK_SIZE_LIMIT →
  vm_sat (good loc rest) (move_to_op m imported ty (v :: w :: vs ++ rest)).
Proof.
  intros Hv Hw Hty Hvs Hlen. assert (w = VRef Signer) as -> by (eapply typed_reference; by left).
  unfold move_to_op, write_as. cbn [pop_value r_bind pop_as as_container_ref container_of ok_or borrow_field_ref lookup list_lookup Interpreter.struct_fields].
  unfold borrow_field_ref. cbn. destruct ty as [u| |]; [|done..]. simpl in Hty. subst u. cbn. rewrite Hv. simpl. exists vs. split_and!; [done|done|]. simpl in Hlen. lia.
Qed.

(** ** Vectors *)

(** The type of the elements, in the code: neither a reference nor a type parameter. *)
Definition elem_shape (t : SignatureToken) : Prop :=
  match t with Reference _ | MutableReference _ | TypeParameter _ => False | _ => True end.

Lemma element_shape instr si t : instr ∈ fv_code fv → vector_op instr = Some si → instr_ok m instr = true →
  element_type_at view si = Ok t → single_type_at m si = Ok t ∧ elem_shape t.
Proof.
  intros Hin Hop Hok Ht. pose proof (checked_signature _ _ Hc _ Hin) as Hv.
  unfold element_type_at, signature_at in Ht. r_inv Ht. rename a into sig. apply at_index_ok in Hs as Hsig. apply at_index_ok in Ht as Hhd.
  split. { unfold single_type_at, rt_index. simpl in *. rewrite Hsig. simpl. by rewrite Hhd. }
  destruct sig as [|t' sig]; [done|]. injection Hhd as ->.
  assert (check_signature_token t = Ok ()) as Hct.
  { destruct instr; simplify_eq/=; unfold signature_at in Hv; simpl in Hv; rewrite Hs in Hv; cbn [r_bind] in Hv;
      (destruct (negb (length (t :: sig) =? 1)); [done|]); (eapply r_for_elem; [apply Hv|left]). }
  simpl in Hsig. destruct t; try done. destruct instr; simplify_eq/=; rewrite Hsig in Hok; done.
Qed.
Lemma elem_layout t : elem_shape t → check_elem_layout t (vector_container (sub t)) = Ok () ∧
  reachable_container (vector_container (sub t)) = Ok ().
Proof. by destruct t. Qed.

Lemma vector_ref_ok si t : single_type_at m si = Ok t → elem_shape t → as_vector_ref m si (VRef (sub (Vector t))) = Ok (sub t).
Proof.
  intros Hs Hsh. destruct (elem_layout t Hsh) as [Hl Hr]. unfold as_vector_ref. cbn [as_container_ref subst container_of ok_or r_bind].
  rewrite Hs. cbn [r_bind]. rewrite Hl, Hr. done.
Qed.
Lemma require_vector_value op t mut_ u v : require_vector op t mut_ = Ok u → has_type v (sub op) = true → v = VRef (sub (Vector t)).
Proof.
  intros H Hv. unfold require_vector in H.
  assert (op = Reference (Vector t) ∨ op = MutableReference (Vector t)) as [->| ->]; [| eapply typed_reference; by left| eapply typed_reference; by right].
  destruct (get_vector_element_type op mut_) as [t'|] eqn:Ho; [|done]. apply ensure_ok, bool_decide_eq_true in H as ->.
  destruct op as [| | | | | | | | |o|o|]; try done; destruct o; try done; simpl in Ho; [left; destruct mut_; congruence|right; congruence].
Qed.

Lemma vector_unpack_good si t num v vs loc rest : single_type_at m si = Ok t → elem_shape t → has_type v (sub (Vector t)) = true →
  typed_stack vs loc → length (v :: vs ++ rest) ≤ OPERAND_STACK_SIZE_LIMIT →
  vm_sat (good_out (replicate (N.to_nat num) t ++ loc) rest)
    (let? (v, st) := pop_as as_vector (v :: vs ++ rest) in
     let? type_param := single_type_at m si in
     let? elements := vector_unpack v type_param num in
     let? st := push_all elements st in Ok (st, [])).
Proof.
  intros Hst Hsh Hv Hvs Hlen. change (sub (Vector t)) with (Vector (sub t)) in Hv.
  destruct (typed_vector _ _ _ _ Hv) as (elems & -> & HF). destruct (elem_layout t Hsh) as [Hl Hr].
  unfold pop_as, vector_unpack. cbn [pop_value r_bind as_vector]. rewrite Hst. cbn [r_bind fst snd]. rewrite Hl. cbn [r_bind].
  rewrite Hr. cbn [r_bind]. destruct (N.eqb_spec num (N.of_nat (length elems))) as [->|]; [|done]. cbn [r_bind]. apply pure_good.
  eapply vm_sat_mono; [apply push_all_sat; simpl in Hlen; lia|]. intros st [-> Hst']. exists (rev elems ++ vs).
  split_and!; [by rewrite app_assoc| |done]. apply Forall2_app; [|done]. rewrite Nat2N.id, <- (length_rev elems).
  apply Forall2_replicate_r; [done|]. by apply Forall_rev.
Qed.
Lemma vector_pack_empty t : elem_shape t → vector_pack t (sub t) [] = Ok (VVector (sub t) []).
Proof. by destruct t. Qed.

(** ** One instruction *)

(** The instructions that [execute_stack] is for. *)
Definition on_stack (instr : Bytecode) : bool :=
  match instr with
  | Bytecode.Ret | Bytecode.BrTrue _ | Bytecode.BrFalse _ | Bytecode.Branch _ | Bytecode.CopyLoc _ | Bytecode.MoveLoc _
  | Bytecode.StLoc _ | Bytecode.MutBorrowLoc _ | Bytecode.ImmBorrowLoc _ | Bytecode.Call _ | Bytecode.CallGeneric _
  | Bytecode.Abort => false
  | _ => true
  end.

(** Takes the top operand, with its type, and what is known of both. *)
Ltac pop_type :=
  match goal with
  | Hvs : typed_stack _ ?l, Hw : Forall _ ?l |- _ =>
      destruct l as [|?t ?loc]; [done|];
      let Hv := fresh "Hv" in let Hwt := fresh "Hwt" in
      apply typed_cons_inv in Hvs as (?v & ?vs & -> & Hv & Hvs); apply Forall_cons in Hw as [Hwt Hw]
  end.

(** Structs, with the type that the resolver finds. *)

Section structs.
Context (ch : Choice) (loc loc' : TypeStack) (vs rest : Stack).
Context (Hwf : Forall wf loc) (Hvs : typed_stack vs loc) (Hlen : length (vs ++ rest) ≤ OPERAND_STACK_SIZE_LIMIT).
Context (d : StructDefinition) (targs : Signature) (Hu : struct_use view fv d targs) (Hd : d ∈ m_struct_defs m).
Context (ty : VMResult SignatureToken) (Hty : vm_sat (λ t, t = sub (materialize_type (struct_handle d) targs)) ty).
Local Abbreviation pure r := (let? st := r in Ok (st, [])).

Lemma rt_pack n : n = as_u16 (N.of_nat (field_count d)) → pack d targs loc = Ok loc' →
  vm_sat (good_out loc' rest) (let? ty := ty in pure (pack_struct ty n (vs ++ rest))).
Proof. intros -> Hp. eapply vm_sat_bind; [done|]. intros ? ->. apply pure_good. by eapply pack_good. Qed.
Lemma rt_borrow_global mut_ idx : struct_def_at view idx = Ok d → borrow_global view fv mut_ idx targs loc = Ok loc' →
  vm_sat (good_out loc' rest) (pure (borrow_global_op ty (vs ++ rest))).
Proof.
  intros Hi Hb. pop_type. unfold borrow_global in Hb. simpl in Hb.
  case_bool_decide; [|done]. simpl in Hb. rewrite Hi in Hb. r_inv Hb. subst. by apply pure_good, borrow_global_good.
Qed.
Lemma rt_exists : exists_ view fv d targs loc = Ok loc' →
  vm_sat (good_out loc' rest) (pure (exists_op ty (ch_flag ch) (vs ++ rest))).
Proof.
  intros He. unfold exists_ in He. apply r_bind_ok in He as ([] & _ & He).
  pop_type. simpl in He. case_bool_decide; [|done]. simpl in He. injection He as <-. subst. by eapply pure_good, exists_good.
Qed.
Lemma rt_move_from : (∀ t, ty = Ok t → has_type (ch_value ch) t = true) → move_from view fv d targs loc = Ok loc' →
  vm_sat (good_out loc' rest) (pure (move_from_op ty (ch_value ch) (vs ++ rest))).
Proof.
  intros Hx Hm. unfold move_from in Hm.
  apply r_bind_ok in Hm as ([] & _ & Hm). pop_type. simpl in Hm. case_bool_decide; [|done]. simpl in Hm. injection Hm as <-. subst.
  by apply pure_good, move_from_good.
Qed.
Lemma rt_move_to : move_to view fv d targs loc = Ok loc' →
  vm_sat (good_out loc' rest) (pure (move_to_op m imported ty (vs ++ rest))).
Proof.
  intros Hm. unfold move_to in Hm. apply r_bind_ok in Hm as ([] & _ & Hm).
  pop_type. pop_type. simpl in Hm. case_bool_decide; [|done]. simpl in Hm. destruct t0 as [| | | | | | | | |t0| |]; try done.
  destruct t0; try done. injection Hm as <-. subst. apply pure_good. by eapply move_to_good.
Qed.
End structs.

Section instruction.
Context (ch : Choice) (instr : Bytecode) (Hin : instr ∈ fv_code fv) (Hok : instr_ok m instr = true).
Context (loc loc' : TypeStack) (vs rest : Stack).
Context (Hwf : Forall wf loc) (Hvs : typed_stack vs loc) (Hlen : length (vs ++ rest) ≤ OPERAND_STACK_SIZE_LIMIT).
Context (Hans : ch_error ch = None) (Hans' : answer_ok m imported ch ty_args instr (vs ++ rest) = true).
Context (H : verify_instr view fv loc instr = Ok loc').
Local Abbreviation execute := (execute_stack m imported deserialize_constant ch ty_args instr (vs ++ rest)).

Lemma literal_sound : match instr with
  | Bytecode.LdU8 _ | Bytecode.LdU64 _ | Bytecode.LdU128 _ | Bytecode.LdTrue | Bytecode.LdFalse | Bytecode.LdConst _
  | Bytecode.Nop | Bytecode.FreezeRef => True | _ => False end → vm_sat (good_out loc' rest) execute.
Proof.
  destruct instr; try done; intros _; simpl in *.
  - injection H as <-. apply pure_good, push_good; [|done]. simpl. unfold Interpreter.has_type. simpl. by rewrite Hok.
  - injection H as <-. apply pure_good, push_good; [|done]. simpl. unfold Interpreter.has_type. simpl. by rewrite Hok.
  - injection H as <-. apply pure_good, push_good; [|done]. simpl. unfold Interpreter.has_type. simpl. by rewrite Hok.
  - r_inv H. apply at_index_ok in Hs. simpl in Hs. rewrite (rt_index_at _ _ _ (proj2 (at_index_ok _ _ _) Hs)). cbn [r_bind].
    apply list_elem_of_lookup_2 in Hs. destruct (Hconst a Hs) as (v & -> & Hv). cbn [ok_or r_bind]. apply pure_good, push_good; [|done].
    rewrite (subst_closed view); [done|]. apply valid_constant_wf. by apply (checked_constants _ _ Hc).
  - injection H as <-. by apply pure_good, push_good.
  - injection H as <-. by apply pure_good, push_good.
  - destruct loc as [|t loc0]; [done|]. destruct t; simpl in H; try done. injection H as <-.
    split; [|constructor]. inversion Hvs as [|v ? vs0 ? Hv Hvs0]; subst. exists (v :: vs0). split_and!; [done| |done].
    constructor; [|done]. assert (v = VRef (sub t)) as -> by (eapply typed_reference; by right). apply typed_ref_intro.
  - injection H as <-. split; [|constructor]. by exists vs.
Qed.

Lemma arithmetic_sound : match instr with
  | Bytecode.Add | Bytecode.Sub | Bytecode.Mul | Bytecode.Mod | Bytecode.Div | Bytecode.BitOr | Bytecode.BitAnd
  | Bytecode.Xor => True | _ => False end → vm_sat (good_out loc' rest) execute.
Proof.
  intros Hi. assert (verify_instr view fv loc Bytecode.Add = Ok loc') as HA by (destruct instr; done). clear H.
  pop_type. pop_type. simpl in HA. destruct (is_integer t) eqn:Ht; [|done]. simpl in HA. case_bool_decide; [|done]. subst.
  injection HA as <-. destruct width_ops as (H1 & H2 & H3 & H4 & H5 & H6 & H7 & H8).
  destruct instr; try done; apply pure_good; by apply binop_good.
Qed.
Lemma comparison_sound : match instr with
  | Bytecode.Lt | Bytecode.Gt | Bytecode.Le | Bytecode.Ge => True | _ => False end → vm_sat (good_out loc' rest) execute.
Proof.
  intros Hi. assert (verify_instr view fv loc Bytecode.Lt = Ok loc') as HA by (destruct instr; done). clear H.
  pop_type. pop_type. simpl in HA. destruct (is_integer t) eqn:Ht; [|done]. simpl in HA. case_bool_decide; [|done]. subst.
  injection HA as <-. destruct instr; try done; apply pure_good; by eapply binop_cmp_good.
Qed.
Lemma shift_sound : match instr with Bytecode.Shl | Bytecode.Shr => True | _ => False end → vm_sat (good_out loc' rest) execute.
Proof.
  intros Hi. assert (verify_instr view fv loc Bytecode.Shl = Ok loc') as HA by (destruct instr; done). clear H.
  pop_type. pop_type. simpl in HA. destruct (is_integer t0) eqn:Ht; [|done]. simpl in HA. case_bool_decide; [|done]. subst.
  injection HA as <-. destruct instr; try done; apply pure_good, shift_good; auto using shl_width_sat, shr_width_sat.
Qed.
Lemma casts_sound : match instr with
  | Bytecode.CastU8 | Bytecode.CastU64 | Bytecode.CastU128 => True | _ => False end → vm_sat (good_out loc' rest) execute.
Proof.
  intros Hi. assert (∃ t, match instr with Bytecode.CastU8 => t = U8 | Bytecode.CastU64 => t = U64 | _ => t = U128 end ∧
    TypeSafety.cast t loc = Ok loc') as (t' & Ht' & HA) by (destruct instr; try done; eauto). clear H.
  pop_type. unfold cast in HA. simpl in HA. destruct (is_integer t) eqn:Ht; [|done]. injection HA as <-.
  assert (Hw : ∀ x, (in_width 8 x = true → has_type (VU8 x) U8 = true) ∧ (in_width 64 x = true → has_type (VU64 x) U64 = true) ∧
    (in_width 128 x = true → has_type (VU128 x) U128 = true)).
  { intros x. unfold Interpreter.has_type. simpl. split_and!; by intros ->. }
  destruct instr; try done; subst; apply pure_good; (eapply cast_good; [|done|done|done|done]); intros i Hiok;
    destruct (cast_sat i Hiok) as (H1 & H2 & H3); (eapply vm_sat_mono; [eassumption|]); intros x Hx; by apply Hw.
Qed.
Lemma boolean_sound : match instr with Bytecode.Or | Bytecode.And | Bytecode.Not => True | _ => False end →
  vm_sat (good_out loc' rest) execute.
Proof.
  destruct instr; try done; intros _.
  - pop_type. pop_type. simpl in H. do 2 (case_bool_decide; [|done]). subst. injection H as <-. by apply pure_good, binop_bool_good.
  - pop_type. pop_type. simpl in H. do 2 (case_bool_decide; [|done]). subst. injection H as <-. by apply pure_good, binop_bool_good.
  - pop_type. simpl in H. case_bool_decide; [|done]. subst. injection H as <-. destruct (typed_bool _ _ _ Hv) as [b ->].
    by apply pure_good, push_good.
Qed.
Lemma equality_sound : match instr with Bytecode.Eq | Bytecode.Neq => True | _ => False end → vm_sat (good_out loc' rest) execute.
Proof.
  intros Hi. assert (verify_instr view fv loc Bytecode.Eq = Ok loc') as HA by (destruct instr; done). clear H.
  pop_type. pop_type. simpl in HA. destruct (ts_abilities view fv t) as [a| |] eqn:Ha; try done. simpl in HA.
  destruct (has_drop a) eqn:Hd; [|done]. case_bool_decide; [|done]. subst. injection HA as <-.
  destruct instr; try done; by eapply compare_good.
Qed.

Lemma memory_sound : match instr with Bytecode.Pop | Bytecode.ReadRef | Bytecode.WriteRef => True | _ => False end →
  vm_sat (good_out loc' rest) execute.
Proof.
  unfold answer_ok in Hans'. rewrite Hans in Hans'. destruct instr; try done; intros _.
  - pop_type. simpl in H. r_inv H. apply require_inv in Hs as (b & Hb & Hd). simpl. apply event_good; [|by eapply dropped_ok].
    simpl in Hlen. eexists. split_and!; [reflexivity|done|lia].
  - pop_type. simpl in H. assert (∃ u, (t = Reference u ∨ t = MutableReference u) ∧ loc' = u :: loc0 ∧
      ∃ a, ts_abilities view fv u = Ok a ∧ has_copy a = true) as (u & Ht & -> & a & Ha & Hcp).
    { destruct t; try done; r_inv H; apply require_inv in Hs; eauto. }
    assert (v = VRef (sub u)) as -> by (destruct Ht; subst; eapply typed_reference; [by left|by right]).
    simpl in Hans'. unfold execute_stack, pop_as. cbn [pop_value app r_bind as_reference].
    eapply vm_sat_bind; [by apply (push_good _ u _ loc0)|]. intros st Hst. apply event_good; [done|].
    eapply copied_ok; [|done|done|done]. destruct Ht as [-> | ->]; [exact (proj1 (wf_reference _ _ _) Hwt)|exact (proj1 (wf_mutable_reference _ _ _) Hwt)].
  - pop_type. pop_type. simpl in H. destruct t; try done. r_inv H. apply require_inv in Hs as (b & Hb & Hd).
    case_bool_decide; [|done]. injection H as ->. subst t0. assert (v = VRef (sub t)) as -> by (eapply typed_reference; by right).
    unfold execute_stack, pop_as. cbn [pop_value app r_bind as_reference]. unfold write_as. rewrite Hv0. cbn [r_bind].
    apply event_good.
    + simpl in Hlen. eexists. split_and!; [reflexivity|done|lia].
    + apply (proj1 (wf_mutable_reference _ _ _)) in Hwt. destruct (abilities_subst view ty_args _ t b Hargs Hwt Hb) as (b' & Hb' & Hle). simpl.
      rewrite Hb'. by eapply has_ability_mono.
Qed.


Lemma plain_struct_sound idx : struct_op instr = Some idx → vm_sat (good_out loc' rest) execute.
Proof.
  unfold answer_ok in Hans'. rewrite Hans in Hans'. intros Hop. destruct (struct_def_ok view fv Hc instr idx Hin Hop) as [_ Hu].
  assert (∃ d, struct_def_at view idx = Ok d) as [d Hd].
  { destruct instr; simplify_eq/=; try (by r_inv H; eauto);
      unfold borrow_global in H; r_inv H; destruct a as [operand stack]; simpl in H; destruct (negb _); [done| |done|]; r_inv H; eauto. }
  specialize (Hu d Hd). destruct (plain_type idx d Hd) as [Hty Hn]. pose proof (struct_def_elem _ _ Hd) as Hel.
  assert (Hsat : vm_sat (λ t, t = sub (materialize_type (struct_handle d) [])) (get_struct_type m idx)) by (by rewrite Hty).
  destruct instr; simplify_eq/=; rewrite ?Hd in H; cbn [r_bind] in H.
  - rewrite Hn. cbn [r_bind]. by eapply rt_pack.
  - rewrite Hn. cbn [r_bind]. apply pure_good. by eapply unpack_good.
  - by eapply rt_borrow_global.
  - by eapply rt_borrow_global.
  - by eapply (rt_exists ch loc loc' vs rest) with (d := d) (targs := []).
  - eapply (rt_move_from ch loc loc' vs rest) with (d := d) (targs := []); [done..| |done]. intros t Ht. by rewrite Ht in Hans'.
  - by eapply (rt_move_to loc loc' vs rest) with (d := d) (targs := []).
Qed.
Lemma generic_struct_sound idx : generic_struct_op instr = Some idx → vm_sat (good_out loc' rest) execute.
Proof.
  unfold answer_ok in Hans'. rewrite Hans in Hans'. intros Hop.
  assert (∃ d targs, struct_instance view idx = Ok (d, targs)) as (d & targs & Hi).
  { destruct (struct_instance_ok view fv Hc instr idx Hin Hop) as [[e He]|(i & d & targs & Hi & Hd & Hs & _)].
    - exfalso. destruct instr; simplify_eq/=; unfold struct_instance, global_instance in H; rewrite He in H; done.
    - exists d, targs. unfold struct_instance. by rewrite Hi; cbn [r_bind]; rewrite Hd; cbn [r_bind]; rewrite Hs. }
  destruct (generic_type instr idx d targs Hin Hop Hi) as (Hu & Hel & Hsat & Htag & Hn).
  destruct instr; simplify_eq/=; try (rewrite Hi in H; cbn [r_bind] in H).
  - rewrite Hn. cbn [r_bind]. by eapply rt_pack.
  - rewrite Hn. cbn [r_bind]. apply pure_good. by eapply unpack_good.
  - unfold struct_instance in Hi. r_inv Hi. unfold global_instance in H. rewrite Hs in H. cbn [r_bind] in H. rewrite Hs1 in H. by eapply rt_borrow_global.
  - unfold struct_instance in Hi. r_inv Hi. unfold global_instance in H. rewrite Hs in H. cbn [r_bind] in H. rewrite Hs1 in H. by eapply rt_borrow_global.
  - by eapply rt_exists.
  - eapply rt_move_from; [done..| |done]. intros t Ht. by rewrite Ht in Hans'.
  - by eapply rt_move_to.
Qed.

Lemma field_sound idx : field_op instr = Some idx → vm_sat (good_out loc' rest) execute.
Proof.
  intros Hop. destruct (field_op_ok view fv Hc instr idx Hin Hop) as [[e He]|(h & d & fields & f & Hu)].
  { exfalso. destruct instr; simplify_eq/=; unfold borrow_field in H; pop_type; cbn [pop r_bind] in H;
      (destruct (_ && _); [done|]); rewrite He in H; done. }
  assert (Hoff : field_offset m idx = Ok (field h)).
  { unfold field_offset. by rewrite (rt_index_at _ _ _ (proj1 Hu)). }
  destruct instr; simplify_eq/=; rewrite Hoff; cbn [r_bind]; apply pure_good; pop_type; (eapply borrow_field_good; [done|done|by constructor]).
Qed.
Lemma generic_field_sound idx : generic_field_op instr = Some idx → vm_sat (good_out loc' rest) execute.
Proof.
  intros Hop. destruct (field_instance_ok view fv Hc instr idx Hin Hop) as [[e He]|(i & targs & h & d & fields & f & Hi & Hs & Hu)].
  { exfalso. destruct instr; simplify_eq/=; unfold field_instance in H; rewrite He in H; done. }
  assert (Hoff : field_instantiation_offset m idx = Ok (field h)).
  { unfold field_instantiation_offset, field_offset. rewrite (rt_index_at _ _ _ Hi). cbn [r_bind].
    by rewrite (rt_index_at _ _ _ (proj1 Hu)). }
  destruct instr; simplify_eq/=; rewrite Hoff; cbn [r_bind]; apply pure_good; unfold field_instance in H; rewrite Hi in H;
    cbn [r_bind] in H; rewrite Hs in H; cbn [r_bind] in H; pop_type; (eapply borrow_field_good; [done|done|by constructor]).
Qed.

Lemma vector_sound si : vector_op instr = Some si → vm_sat (good_out loc' rest) execute.
Proof.
  unfold answer_ok in Hans'. rewrite Hans in Hans'.
  intros Hop. destruct (element_type_ok view fv Hc instr si Hin Hop) as (t & Ht & Hwt).
  destruct (element_shape instr si t Hin Hop Hok Ht) as [Hst Hsh]. pose proof (vector_ref_ok si t Hst Hsh) as Hvr.
  destruct instr; cbn [vector_op] in Hop; simplify_eq; unfold verify_instr, borrow_vector_element in H; try rewrite Ht in H;
    unfold execute_stack; cbn [r_bind] in H.
  - simpl in Hok. apply andb_true_iff in Hok as [_ ->%N.eqb_eq]. simpl in H. injection H as <-. unfold popn.
    simpl. rewrite Hst. cbn [r_bind]. rewrite vector_pack_empty by done. cbn [r_bind]. apply pure_good, push_good; [|done].
    by apply typed_vector_intro.
  - pop_type. cbn [pop r_bind] in H. r_inv H. pose proof (require_vector_value _ _ _ _ _ Hs Hv) as ->.
    cbn [app pop_value r_bind]. rewrite Hvr. cbn [r_bind]. destruct (typed_u64 _ _ _ Hans') as (x & Hx & Hxw). rewrite Hx in *.
    cbn [as_u64 r_bind]. by apply pure_good, push_good.
  - pop_type. pop_type. cbn [pop r_bind] in H. case_bool_decide; [|done]. simpl in H. subst. r_inv H.
    pose proof (require_vector_value _ _ _ _ _ Hs Hv0) as ->. destruct (typed_u64 _ _ _ Hv) as (x & -> & _). unfold pop_as.
    cbn [app pop_value r_bind as_u64]. rewrite Hvr. cbn [r_bind]. apply pure_good, push_good; [apply typed_ref_intro|done].
  - pop_type. pop_type. cbn [pop r_bind] in H. case_bool_decide; [|done]. simpl in H. subst. r_inv H.
    pose proof (require_vector_value _ _ _ _ _ Hs Hv0) as ->. destruct (typed_u64 _ _ _ Hv) as (x & -> & _). unfold pop_as.
    cbn [app pop_value r_bind as_u64]. rewrite Hvr. cbn [r_bind]. apply pure_good, push_good; [apply typed_ref_intro|done].
  - pop_type. pop_type. cbn [pop r_bind] in H. case_bool_decide; [|done]. simpl in H. subst. r_inv H.
    pose proof (require_vector_value _ _ _ _ _ Hs Hv0) as ->. cbn [app pop_value r_bind]. rewrite Hvr. cbn [r_bind].
    unfold write_as. rewrite Hv. split; [|constructor]. simpl in Hlen. eexists. split_and!; [reflexivity|done|simpl; lia].
  - pop_type. cbn [pop r_bind] in H. r_inv H. pose proof (require_vector_value _ _ _ _ _ Hs Hv) as ->.
    cbn [app pop_value r_bind]. rewrite Hvr. cbn [r_bind]. apply pure_good. by apply push_good.
  - pop_type. cbn [pop r_bind] in H. case_bool_decide; [|done]. injection H as <-. subst.
    by apply vector_unpack_good.
  - pop_type. pop_type. pop_type. cbn [pop r_bind] in H. do 2 (case_bool_decide; [|done]). simpl in H. r_inv H. subst.
    pose proof (require_vector_value _ _ _ _ _ Hs Hv1) as ->.
    destruct (typed_u64 _ _ _ Hv) as (x & -> & _), (typed_u64 _ _ _ Hv0) as (y & -> & _). unfold pop_as.
    cbn [app pop_value r_bind as_u64]. rewrite Hvr. cbn [r_bind]. split; [|constructor].
    simpl in Hlen. eexists. split_and!; [reflexivity|done|simpl; lia].
Qed.

(** The instructions on the stack alone. *)
Lemma execute_stack_sound : on_stack instr = true → vm_sat (good_out loc' rest) execute.
Proof.
  intros Hon.
  destruct (struct_op instr) as [idx|] eqn:E1; [by eapply plain_struct_sound|].
  destruct (generic_struct_op instr) as [idx|] eqn:E2; [by eapply generic_struct_sound|].
  destruct (field_op instr) as [idx|] eqn:E3; [by eapply field_sound|].
  destruct (generic_field_op instr) as [idx|] eqn:E4; [by eapply generic_field_sound|].
  destruct (vector_op instr) as [idx|] eqn:E5; [by eapply vector_sound|].
  pose proof literal_sound. pose proof arithmetic_sound. pose proof comparison_sound. pose proof shift_sound.
  pose proof casts_sound. pose proof boolean_sound. pose proof equality_sound. pose proof memory_sound.
  destruct instr; try done; auto.
Qed.
End instruction.
End sound.
