(* ===== verification/FrameSound.v ===== *)
(** * FrameSound: the functions of a verified module in their frames

    What the verifier establishes for each function of a module it accepts
    ([verified_function]), and when a frame and its part of the operand stack agree with it:
    the operands have the types of type safety, the locals are those that the locals analysis
    says are assigned.  Running an instruction of the frame keeps this. *)

From S2P Require Import Prelude FileFormat CodeFlow BoundsCheck Declarations TypeSafety LocalsSafety.
From S2P Require Import CodeFlowFacts LocalsFacts TypeFacts VerifierFacts StackFacts VerifierSafety.
From S2P Require Import MoveValue Interpreter InterpreterFacts InstructionSound.

Local Open Scope nat_scope.

(** ** Unique declarations *)

Lemma first_duplicate_nodup {A} `{EqDecision A} (l uniq : list A) i : first_duplicate_from uniq i l = None →
  NoDup l ∧ ∀ x, x ∈ l → x ∉ uniq.
Proof.
  revert uniq i. induction l as [|x l IH]; intros uniq i H; simpl in H; [split; [constructor|by intros ? ?%elem_of_nil]|].
  case_bool_decide as Hx; [done|]. destruct (IH _ _ H) as [Hnd Hni]. split.
  - constructor; [|done]. intros Hin. apply (Hni x Hin). left.
  - intros y [->|Hy]%elem_of_cons; [done|]. intros Hin. apply (Hni y Hy). by right.
Qed.
Lemma check_unique_nodup {A} `{EqDecision A} (l : list A) u : check_unique l = Ok u → NoDup l.
Proof.
  unfold check_unique, first_duplicate_element. destruct (first_duplicate_from [] 0 l) eqn:E; [done|]. intros _.
  by eapply first_duplicate_nodup.
Qed.

Section module.
Context (m : CompiledModule).
Local Abbreviation view := (ModuleView m).

(** What the verifier establishes for the function [fn], whose handle is [fh]. *)
Record verified_function (fn : nat) (fv : FunctionView) : Prop := {
  vf_def : ∃ d c fh, m_function_defs m !! fn = Some d ∧ fn_code d = Some c ∧ fv_code fv = code c ∧
    m_signatures m !! locals c = Some (fv_locals fv) ∧ m_function_handles m !! FileFormat.function d = Some fh ∧
    fv_type_parameters fv = fh_type_parameters fh ∧ m_signatures m !! fh_parameters fh = Some (fv_parameters fv) ∧
    m_signatures m !! fh_return fh = Some (fv_return fv);
  vf_checked : code_checked view fv;
  vf_cfg : wf_cfg (fv_code fv) (fv_cfg fv);
  vf_length : (Z.of_nat (length (fv_code fv)) ≤ 65534)%Z;
  vf_flow : control_flow_verify (fv_code fv) = Ok ();
  vf_stack : StackUsageVerifier_verify view fv = Ok ();
  vf_types : type_safety_verify view fv = Ok ();
  vf_locals : locals_safety_verify view fv = Ok ();
}.

Lemma verified_functions sd fn d c : verify_module sd m = Ok () → m_function_defs m !! fn = Some d → fn_code d = Some c →
  ∃ fv, verified_function fn fv.
Proof.
  intros Hm Hd Hc. unfold verify_module in Hm. r_inv Hm. destruct a, a0, a1, a2, a3, a4, a5.
  apply bounds_module_ok in Hs. assert (Hin : d ∈ m_function_defs m) by (by eapply list_elem_of_lookup_2).
  pose proof (r_for_elem _ _ _ _ Hm Hin) as Hf. unfold verify_function in Hf. rewrite Hc in Hf.
  apply r_bind_ok in Hf as (fh & Hfh & Hf). apply r_bind_ok in Hf as (fv & Hfv & Hf).
  destruct (module_function_checked m sd d c fv) as (Hcc & Hcode & Hcfg); [done..|by rewrite Hfh|].
  unfold verify_common in Hf. r_inv Hf. destruct a, a0, a1. exists fv. pose proof (cfg_new_length _ _ Hcfg) as Hlen.
  destruct (cfg_new_ok _ Hlen) as (cfg & Hcfg' & Hwf). assert (cfg = fv_cfg fv) as -> by congruence.
  split; rewrite ?Hcode; try done.
  - unfold FunctionView_function in Hfv. r_inv Hfv. exists d, c, fh. split_and!; try done; by apply at_index_ok.
  - by rewrite <- Hcode.
Qed.

Lemma unique_structs sd : verify_module sd m = Ok () → NoDup (struct_handle <$> m_struct_defs m).
Proof.
  intros Hm. unfold verify_module in Hm. r_inv Hm. unfold DuplicationChecker_verify_module in Hs0. r_inv Hs0.
  unfold check_struct_definitions in *. repeat match goal with H : r_bind _ _ = Ok _ |- _ => r_inv H end. by eapply check_unique_nodup.
Qed.
Lemma unique_functions sd : verify_module sd m = Ok () → NoDup (FileFormat.function <$> m_function_defs m).
Proof.
  intros Hm. unfold verify_module in Hm. r_inv Hm. unfold DuplicationChecker_verify_module in Hs0. r_inv Hs0.
  unfold check_function_defintions in *. repeat match goal with H : r_bind _ _ = Ok _ |- _ => r_inv H end. by eapply check_unique_nodup.
Qed.
End module.

(** ** Where the control goes *)

Lemma next_edge c pc instr : control_flow_verify c = Ok () → (Z.of_nat (length c) ≤ 65534)%Z → c !! pc = Some instr →
  is_unconditional_branch instr = false → edge c pc (pc + 1).
Proof.
  intros Hf Hlen Hpc Hu. assert (Hlt : pc < length c) by (by eapply lookup_lt_Some). unfold control_flow_verify in Hf.
  destruct (last c) as [b|] eqn:Hl; [|done]. destruct (is_unconditional_branch b) eqn:Hb; [|done].
  assert (pc + 1 < length c).
  { destruct (decide (pc + 1 = length c)) as [He|]; [|lia]. rewrite last_lookup in Hl.
    replace (Init.Nat.pred (length c)) with pc in Hl by lia. congruence. }
  destruct (get_successors_ok pc c instr) as (ss & Hss & Hin); [lia|done|]. exists ss. split; [done|]. apply Hin. right. done.
Qed.
Lemma branch_edge c pc instr off : (Z.of_nat (length c) ≤ 65534)%Z → c !! pc = Some instr → branch_offset instr = Some off → edge c pc off.
Proof.
  intros Hlen Hpc Hoff. assert (Hlt : pc < length c) by (by eapply lookup_lt_Some).
  destruct (get_successors_ok pc c instr) as (ss & Hss & Hin); [lia|done|]. exists ss. split; [done|]. apply Hin. by left.
Qed.

(** ** Locals *)

Section frames.
Context (m : CompiledModule) (imported : SignatureToken → list SignatureToken).
Local Abbreviation view := (ModuleView m).
Local Abbreviation has_type := (Interpreter.has_type m imported).

(** An assigned local is not [Unavailable] and has its type, an invalid one is not [Available]. *)
Definition local_typed (ty_args : list SignatureToken) (t : SignatureToken) (o : option Value) (s : LocalState) : Prop :=
  match o with None => s ≠ Available | Some v => s ≠ Unavailable ∧ has_type v (subst ty_args t) = true end.
Definition locals_typed (ty_args tys : list SignatureToken) (ls : Locals) (ss : list LocalState) : Prop :=
  Forall3 (local_typed ty_args) tys ls ss.

Lemma locals_typed_mono ty_args tys ls ss ss' : locals_typed ty_args tys ls ss → Forall2 local_le ss ss' → locals_typed ty_args tys ls ss'.
Proof.
  intros H. revert ss'. induction H as [|t o s tys ls ss Ho H IH]; intros ss' Hle; inversion Hle as [|? s' ? ? Hs Hss]; subst; constructor; [|by apply IH].
  unfold local_typed in *. destruct o, Hs as [->| ->]; naive_solver.
Qed.
Lemma locals_lookup ty_args tys ls ss i t : locals_typed ty_args tys ls ss → tys !! i = Some t →
  ∃ o s, ls !! i = Some o ∧ ss !! i = Some s ∧ local_typed ty_args t o s.
Proof. intros H Hi. by eapply Forall3_lookup_l. Qed.
Lemma locals_insert ty_args tys ls ss i t o s : locals_typed ty_args tys ls ss → tys !! i = Some t → local_typed ty_args t o s →
  locals_typed ty_args tys (<[i := o]> ls) (<[i := s]> ss).
Proof.
  intros H. revert i. induction H as [|t' o' s' tys ls ss Ho H IH]; intros i Hi Hn; [done|].
  destruct i as [|i]; simpl in *; [injection Hi as ->; by constructor|]. constructor; [done|]. by apply IH.
Qed.

(** What acceptance by the locals analysis means ([locals_safety_sound]). *)
Record analysis (fv : FunctionView) (abs : list AbilitySet) (at_pc : nat → AbstractState → Prop) : Prop := {
  an_abilities : Forall2 (λ t a, abilities view t (fv_type_parameters fv) = Ok a) (fv_parameters fv ++ fv_locals fv) abs;
  an_ok pc s : at_pc pc s → state_ok abs s;
  an_step pc s instr : at_pc pc s → fv_code fv !! pc = Some instr →
    ∃ s', execute_inner s instr = Ok s' ∧ ∀ pc', edge (fv_code fv) pc pc' → ∃ s'', at_pc pc' s'' ∧ state_le s' s'';
}.

(** ** Frames *)

(** The frame runs a verified function, and [loc] are the types of its operands. *)
Record frame_typed (f : Frame) (fv : FunctionView) (loc : TypeStack) : Prop := {
  ft_function : verified_function m (fr_function f) fv;
  ft_args : args_ok view (fr_ty_args f) (fv_type_parameters fv);
  ft_values : Forall (λ t, is_reference t = false) (fr_ty_args f);
  ft_types : typed_at view fv (fr_pc f) loc;
  ft_locals : ∃ abs at_pc s, analysis fv abs at_pc ∧ at_pc (fr_pc f) s ∧
    locals_typed (fr_ty_args f) (fv_parameters fv ++ fv_locals fv) (fr_locals f) (local_states s);
}.

Lemma frame_code f fv loc : frame_typed f fv loc → function_code m (fr_function f) = fv_code fv.
Proof. intros H. destruct (vf_def _ _ _ (ft_function _ _ _ H)) as (d & c & fh & Hd & Hc & Hcode & _). unfold function_code. by rewrite Hd; simpl; rewrite Hc, Hcode. Qed.
Lemma frame_instr f fv loc : frame_typed f fv loc → ∃ instr, fv_code fv !! fr_pc f = Some instr.
Proof.
  intros H. destruct (ft_types _ _ _ H) as (_ & b & J & Hb & He & Hx & _). apply lookup_lt_is_Some.
  destruct (chain_bounds _ _ _ b (wf_chain _ _ (vf_cfg _ _ _ (ft_function _ _ _ H))) Hb). lia.
Qed.

(** The instruction of the frame, the types after it, and how the frame goes on. *)
Lemma frame_step f fv loc instr : frame_typed f fv loc → fv_code fv !! fr_pc f = Some instr →
  ∃ loc' abs s s', typed_next view fv (fr_pc f) instr loc loc' ∧
    Forall2 (λ t a, abilities view t (fv_type_parameters fv) = Ok a) (fv_parameters fv ++ fv_locals fv) abs ∧
    state_ok abs s ∧ locals_typed (fr_ty_args f) (fv_parameters fv ++ fv_locals fv) (fr_locals f) (local_states s) ∧
    execute_inner s instr = Ok s' ∧
    ∀ pc' ls, (len64 loc' < 2 ^ 64)%Z → edge (fv_code fv) (fr_pc f) pc' →
      locals_typed (fr_ty_args f) (fv_parameters fv ++ fv_locals fv) ls (local_states s') →
      frame_typed (mkFrame (fr_function f) (fr_ty_args f) pc' ls) fv loc'.
Proof.
  intros [Hf Ha Hv Ht (abs & at_pc & s & Han & Hat & Hls)] Hpc.
  destruct (typed_step view fv (vf_checked _ _ _ Hf) (vf_cfg _ _ _ Hf) (vf_length _ _ _ Hf) (vf_stack _ _ _ Hf) (vf_types _ _ _ Hf)
    _ _ _ Ht Hpc) as [loc' Hn]. destruct (an_step _ _ _ Han _ _ _ Hat Hpc) as (s' & Hs' & Hedge).
  exists loc', abs, s, s'. split_and!; [done|apply Han|by eapply an_ok|done|done|]. intros pc' ls Hlen He Hls'.
  destruct Hn as (pops & pushes & _ & _ & _ & _ & _ & Hnext). destruct (Hedge pc' He) as (s'' & Hat' & Hle).
  split; [done..|by apply Hnext|]. exists abs, at_pc, s''. split_and!; [done|done|]. eapply locals_typed_mono; [done|apply Hle].
Qed.

(** ** One instruction *)

Context (deserialize_constant : Constant → option Value).
Context (Hunique : NoDup (struct_handle <$> m_struct_defs m)).
Context (Hconst : ∀ k, k ∈ m_constant_pool m → ∃ v, deserialize_constant k = Some v ∧ has_type v (type_ k) = true).

(** The frame goes on, and its operands are above [rest]. *)
Definition continues (f : Frame) (fv : FunctionView) (rest : Stack) (e : ExitCode) : Prop :=
  match e with
  | Continue f' st ev =>
      fr_ty_args f' = fr_ty_args f ∧ (∃ loc', frame_typed f' fv loc' ∧ good m imported (fr_ty_args f) loc' rest st) ∧
      Forall (λ e, event_ok m e = true) ev
  | _ => False
  end.

Lemma good_length ty_args loc rest st : good m imported ty_args loc rest st → (len64 loc < 2 ^ 64)%Z.
Proof.
  intros (vs & -> & Hvs & Hlen). apply Forall2_length in Hvs. rewrite length_app in Hlen. unfold len64, OPERAND_STACK_SIZE_LIMIT in *. lia.
Qed.

Section instruction.
Context (f : Frame) (fv : FunctionView) (loc : TypeStack) (instr : Bytecode) (ch : Choice) (st rest : Stack).
Context (Hf : frame_typed f fv loc) (Hpc : fv_code fv !! fr_pc f = Some instr) (Hst : good m imported (fr_ty_args f) loc rest st).
Context (Hok : instr_ok m instr = true) (Hans : ch_error ch = None).
Context (Hans' : answer_ok m imported ch (fr_ty_args f) instr st = true).
Local Abbreviation execute := (execute_instruction m imported deserialize_constant ch f st instr).
Let Hvf := ft_function _ _ _ Hf.
Let Hcc := vf_checked _ _ _ Hvf.

Lemma instr_in : instr ∈ fv_code fv.
Proof. by eapply list_elem_of_lookup_2. Qed.

Lemma stack_continues : on_stack instr = true → vm_sat (continues f fv rest) execute.
Proof.
  intros Hon. destruct (frame_step f fv loc instr Hf Hpc) as (loc' & abs & s & s' & Hn & _ & _ & Hls & Hs & Hgo).
  destruct Hn as (pops & pushes & _ & _ & Hvi & _).
  assert (s' = s) as -> by (destruct instr; try done; by injection Hs).
  assert (execute = (let? (st, ev) := execute_stack m imported deserialize_constant ch (fr_ty_args f) instr st in
                     Ok (Continue (advance f) st ev))) as ->.
  { unfold execute_instruction. rewrite Hans. by destruct instr. }
  destruct Hst as (vs & -> & Hvs & Hlen).
  eapply vm_sat_bind; [eapply (execute_stack_sound m imported deserialize_constant fv) with (loc := loc); first [done|apply Hcc|apply Hf|apply instr_in|apply (ft_types _ _ _ Hf)]|].
  intros [st' ev] [Hg Hev]. split_and!; [done| |done]. exists loc'. split; [|done].
  apply Hgo; [by eapply good_length| |done]. eapply next_edge; [apply Hvf|apply Hvf|done|]. by destruct instr.
Qed.

(** Branches and [Abort]. *)
Lemma good_pop t loc0 rest0 st0 : good m imported (fr_ty_args f) (t :: loc0) rest0 st0 →
  ∃ v st', st0 = v :: st' ∧ has_type v (subst (fr_ty_args f) t) = true ∧ good m imported (fr_ty_args f) loc0 rest0 st'.
Proof.
  intros (vs & -> & Hvs & Hlen). apply typed_cons_inv in Hvs as (v & vs' & -> & Hv & Hvs). exists v, (vs' ++ rest0). simpl in Hlen.
  split_and!; [done|done|]. exists vs'. split_and!; [done|done|lia].
Qed.
Lemma branch_continues : is_branch instr = true → instr ≠ Bytecode.Ret → vm_sat (continues f fv rest) execute.
Proof.
  intros Hb Hr. destruct (frame_step f fv loc instr Hf Hpc) as (loc' & abs & s & s' & Hn & _ & _ & Hls & Hs & Hgo).
  destruct Hn as (pops & pushes & _ & _ & Hvi & _). unfold execute_instruction. rewrite Hans.
  assert (Hnext : is_unconditional_branch instr = false → edge (fv_code fv) (fr_pc f) (fr_pc f + 1)).
  { intros. eapply next_edge; [apply Hvf|apply Hvf|done|done]. }
  assert (Hbr : ∀ off, branch_offset instr = Some off → edge (fv_code fv) (fr_pc f) off).
  { intros. eapply branch_edge; [apply Hvf|done|done]. }
  assert (s' = s) as -> by (destruct instr; try done; by injection Hs).
  destruct instr; try done; simpl in Hvi.
  - destruct loc as [|t loc0]; [done|]. simpl in Hvi. case_bool_decide; [|done]. injection Hvi as <-. subst.
    destruct (good_pop _ _ _ _ Hst) as (v & st' & -> & Hv & Hg). destruct (typed_bool _ _ _ Hv) as [b ->]. simpl.
    split_and!; [by destruct b| |done]. exists loc0. split; [|done]. destruct b; apply Hgo; auto; by eapply good_length.
  - destruct loc as [|t loc0]; [done|]. simpl in Hvi. case_bool_decide; [|done]. injection Hvi as <-. subst.
    destruct (good_pop _ _ _ _ Hst) as (v & st' & -> & Hv & Hg). destruct (typed_bool _ _ _ Hv) as [b ->]. simpl.
    split_and!; [by destruct b| |done]. exists loc0. split; [|done]. destruct b; apply Hgo; auto; by eapply good_length.
  - injection Hvi as <-. split_and!; [done| |done]. exists loc. split; [|done]. apply Hgo; auto. by eapply good_length.
  - destruct loc as [|t loc0]; [done|]. simpl in Hvi. case_bool_decide; [|done]. subst.
    destruct (good_pop _ _ _ _ Hst) as (v & st' & -> & Hv & Hg). by destruct (typed_u64 _ _ _ Hv) as (x & -> & _).
Qed.

(** Locals. *)
Lemma sub_not_reference ty_args t : Forall (λ t, is_reference t = false) ty_args → is_reference t = false →
  is_reference (subst ty_args t) = false.
Proof.
  intros HF Ht. destruct t; try done. simpl. destruct (ty_args !! idx) as [t|] eqn:Hi; [|done]. simpl. rewrite Forall_lookup in HF. by eapply HF.
Qed.
Lemma borrowed_value v t : is_reference t = false → has_type v t = true → borrow_local [Some v] 0 = Ok (VRef t).
Proof.
  intros Hr Hv. apply has_type_inv in Hv. destruct v; simpl; try (by subst).
  - by destruct Hv as (-> & _).
  - by destruct Hv as (-> & _).
  - destruct Hv; by subst.
Qed.
Lemma borrow_local_ok (ls : Locals) idx v t : ls !! idx = Some (Some v) → is_reference t = false → has_type v t = true →
  borrow_local ls idx = Ok (VRef t).
Proof. intros Hl Hr Hv. rewrite <- (borrowed_value v t Hr Hv). unfold borrow_local. by rewrite Hl. Qed.

(** What is known of the local that an instruction uses, and how the frame goes on. *)
Lemma local_setup idx : local_index instr = Some idx →
  ∃ t o l a loc' s s', local_at fv idx = Ok t ∧ type_wf view (length (fv_type_parameters fv)) t ∧
    (fv_parameters fv ++ fv_locals fv) !! idx = Some t ∧ ts_abilities view fv t = Ok a ∧
    fr_locals f !! idx = Some o ∧ local_state s idx = Ok l ∧ local_abilities s idx = Ok a ∧ local_typed (fr_ty_args f) t o l ∧
    locals_typed (fr_ty_args f) (fv_parameters fv ++ fv_locals fv) (fr_locals f) (local_states s) ∧
    verify_instr view fv loc instr = Ok loc' ∧ execute_inner s instr = Ok s' ∧
    ∀ ls st', good m imported (fr_ty_args f) loc' rest st' →
      locals_typed (fr_ty_args f) (fv_parameters fv ++ fv_locals fv) ls (local_states s') →
      frame_typed (advance (set_locals f ls)) fv loc'.
Proof.
  intros Hidx. destruct (frame_step f fv loc instr Hf Hpc) as (loc' & abs & s & s' & Hn & Habs & Hsok & Hls & Hs & Hgo).
  destruct Hn as (pops & pushes & _ & _ & Hvi & _).
  destruct (local_ok view fv Hcc instr idx instr_in Hidx) as (t & Hat & Htys & Hwt).
  destruct (locals_lookup _ _ _ _ _ _ Hls Htys) as (o & l & Ho & Hl & Hol).
  destruct (Forall2_lookup_l _ _ _ _ _ Habs Htys) as (a & Ha & Hab). destruct Hsok as [Hsa Hsl].
  exists t, o, l, a, loc', s, s'. split_and!; try done; [by apply at_index_ok|apply at_index_ok; congruence|].
  intros ls st' Hg Hls'. apply Hgo; [by eapply good_length| |done]. eapply next_edge; [apply Hvf|apply Hvf|done|]. by destruct instr.
Qed.

Lemma set_local_states s idx l s' : set_local s idx l = Ok s' → local_states s' = <[idx := l]> (local_states s).
Proof. unfold set_local. destruct (_ <? _); [|done]. by injection 1 as <-. Qed.

Lemma copy_continues idx : instr = Bytecode.CopyLoc idx → vm_sat (continues f fv rest) execute.
Proof.
  intros Hi. destruct (local_setup idx) as (t & o & l & a & loc' & s & s' & Hat & Hwt & Htys & Ha & Ho & Hl & Hla & Hol & Hls & Hvi & Hs & Hgo).
  { by rewrite Hi. }
  clear Hpc Hans' Hok. subst instr.
  unfold execute_instruction. rewrite Hans. destruct Hst as (vs & -> & Hvs & Hlen). simpl in Hvi, Hs. rewrite Hat in Hvi. rewrite Hl in Hs.
  cbn [r_bind] in Hvi, Hs. r_inv Hvi. apply require_inv in Hs0 as (a' & Ha' & Hcp). destruct l; try done. injection Hs as <-.
  destruct o as [v|]; [|done]. destruct Hol as [_ Hv]. unfold copy_loc. rewrite Ho. cbn [r_bind].
  eapply vm_sat_bind; [by eapply push_good|]. intros st' Hg. split_and!; [done| |].
  - eexists. split; [|done]. by apply (Hgo (fr_locals f) st').
  - repeat constructor. eapply copied_ok; [apply Hf|done|done|done|done].
Qed.
Lemma move_continues idx : instr = Bytecode.MoveLoc idx → vm_sat (continues f fv rest) execute.
Proof.
  intros Hi. destruct (local_setup idx) as (t & o & l & a & loc' & s & s' & Hat & Hwt & Htys & Ha & Ho & Hl & Hla & Hol & Hls & Hvi & Hs & Hgo).
  { by rewrite Hi. }
  clear Hpc Hans' Hok. subst instr.
  unfold execute_instruction. rewrite Hans. destruct Hst as (vs & -> & Hvs & Hlen). simpl in Hvi, Hs. rewrite Hat in Hvi. rewrite Hl in Hs.
  cbn [r_bind] in Hvi, Hs. injection Hvi as <-. destruct l; try done. unfold set_unavailable in Hs. rewrite Hl in Hs. cbn [r_bind] in Hs.
  destruct o as [v|]; [|done]. destruct Hol as [_ Hv]. unfold move_loc, swap_loc. rewrite Ho. cbn [r_bind].
  eapply vm_sat_bind; [by eapply push_good|]. intros st' Hg. split_and!; [done| |done].
  eexists. split; [|done]. apply (Hgo _ st'); [done|]. rewrite (set_local_states _ _ _ _ Hs). by eapply locals_insert.
Qed.
Lemma store_continues idx : instr = Bytecode.StLoc idx → vm_sat (continues f fv rest) execute.
Proof.
  intros Hi. destruct (local_setup idx) as (t & o & l & a & loc' & s & s' & Hat & Hwt & Htys & Ha & Ho & Hl & Hla & Hol & Hls & Hvi & Hs & Hgo).
  { by rewrite Hi. }
  clear Hpc Hans' Hok. subst instr.
  unfold execute_instruction. rewrite Hans. destruct loc as [|t' loc0]; [done|]. simpl in Hvi, Hs. rewrite Hat in Hvi. rewrite Hl in Hs.
  cbn [r_bind] in Hvi, Hs. case_bool_decide; [|done]. injection Hvi as <-. subst t'.
  destruct (good_pop _ _ _ _ Hst) as (v & st' & -> & Hv & Hg). cbn [pop_value r_bind]. unfold store_loc, swap_loc. rewrite Ho. cbn [r_bind].
  assert (set_available s idx = Ok s' ∧ (o ≠ None → has_drop a = true)) as [Hset Hdrop].
  { destruct l; [|rewrite Hla in Hs; cbn [r_bind] in Hs; destruct (has_drop a); done..]. split; [done|]. destruct o; [by destruct Hol|done]. }
  split_and!; [done| |].
  - eexists. split; [|done]. apply (Hgo _ st'); [done|]. rewrite (set_local_states _ _ _ _ Hset). by eapply locals_insert.
  - destruct o as [w|]; [|constructor]. destruct Hol as [_ Hw]. repeat constructor. eapply dropped_ok; [apply Hf|done|done|auto|done].
Qed.
Lemma borrow_continues idx : instr = Bytecode.MutBorrowLoc idx ∨ instr = Bytecode.ImmBorrowLoc idx → vm_sat (continues f fv rest) execute.
Proof.
  intros Hi. destruct (local_setup idx) as (t & o & l & a & loc' & s & s' & Hat & Hwt & Htys & Ha & Ho & Hl & Hla & Hol & Hls & Hvi & Hs & Hgo).
  { by destruct Hi; subst. }
  assert (∃ mut_, borrow_loc fv mut_ idx loc = Ok loc') as [mut_ Hb] by (destruct Hi; subst; eauto).
  assert (l = Available ∧ s' = s) as [-> ->] by (destruct Hi; subst; simpl in Hs; rewrite Hl in Hs; cbn [r_bind] in Hs; destruct l; try done; by injection Hs).
  unfold borrow_loc in Hb. rewrite Hat in Hb. cbn [r_bind] in Hb. destruct (is_reference t) eqn:Hr; [done|]. injection Hb as <-.
  destruct o as [v|]; [|done]. destruct Hol as [_ Hv]. destruct Hst as (vs & Hsteq & Hvs & Hlen).
  assert (Hbl : borrow_local (fr_locals f) idx = Ok (VRef (subst (fr_ty_args f) t))).
  { eapply borrow_local_ok; [done| |done]. apply sub_not_reference; [apply Hf|done]. }
  assert (execute = (let? st := push (VRef (subst (fr_ty_args f) t)) (vs ++ rest) in Ok (Continue (advance f) st []))) as ->.
  { unfold execute_instruction. rewrite Hans. destruct Hi; subst; by rewrite Hbl. }
  eapply vm_sat_bind; [apply (push_good m imported (fr_ty_args f) _ (ref_type mut_ t) _ loc); [destruct mut_; apply typed_ref_intro|done]|].
  intros st' Hg. split_and!; [done| |done]. eexists. split; [|done]. by apply (Hgo (fr_locals f) st').
Qed.

(** Every instruction but calls and [Ret]. *)
Lemma instruction_continues : match instr with Bytecode.Ret | Bytecode.Call _ | Bytecode.CallGeneric _ => False | _ => True end →
  vm_sat (continues f fv rest) execute.
Proof.
  intros Hi. destruct (on_stack instr) eqn:Hon; [by apply stack_continues|].
  destruct (is_branch instr) eqn:Hb; [apply branch_continues; [done|by destruct instr]|].
  destruct (local_index instr) as [idx|] eqn:Hl; [|by destruct instr].
  pose proof (copy_continues idx). pose proof (move_continues idx). pose proof (store_continues idx). pose proof (borrow_continues idx).
  destruct instr; try done; injection Hl as ->; auto.
Qed.
End instruction.
End frames.
