(* ===== verification/MoveSound.v ===== *)
(** * MoveSound: the interpreter on a verified module

    A call finds its arguments, of the types of the parameters, on the operand stack, and type
    arguments that satisfy the constraints of the function; the frame of the callee starts as
    the verifier assumed.  A return leaves the values that the caller was checked with.

    The invariant of the interpreter on the functions of a verified module: every frame of the
    call stack agrees with what the verifier found for its function, and the operand stack is
    the operands of the frames, on top of each other.  Every step keeps it, whatever the
    surroundings answer within what they promise. *)

From S2P Require Import Prelude FileFormat CodeFlow BoundsCheck Declarations TypeSafety.
From S2P Require Import LocalsSafety CodeFlowFacts LocalsFacts TypeFacts VerifierFacts StackFacts.
From S2P Require Import VerifierSafety StackFacts TypeFacts MoveValue Interpreter InterpreterFacts InstructionSound.
From S2P Require Import FrameSound.

Local Open Scope nat_scope.

(** ** New frames *)

Lemma store_arguments n args rest (tail : Locals) i : n = i + length args →
  r_fold (λ s i, let? (v, st) := pop_value s.2 in let? (_, ls) := store_loc s.1 (n - i - 1) v in Ok (ls, st))
    (seq i (length args)) (replicate (length args) None ++ tail, args ++ rest) =
  Ok ((Some <$> rev args) ++ tail, rest).
Proof.
  revert i tail. induction args as [|v args IH]; intros i tail Hn; [done|]. cbn [length seq r_fold app pop_value r_bind fst snd].
  replace (n - i - 1) with (length args) by (simpl in Hn; lia). unfold store_loc, swap_loc.
  rewrite replicate_S_end, <- (app_assoc _ [None] tail).
  rewrite (lookup_app_r _ ([None] ++ tail) (length args)), length_replicate, Nat.sub_diag by (by rewrite length_replicate). cbn [r_bind app lookup list_lookup].
  rewrite (insert_app_r_alt _ _ (length args)), length_replicate, Nat.sub_diag by (by rewrite length_replicate). cbn [r_bind app insert list_insert].
  rewrite (IH (S i)) by (simpl in Hn; lia). simpl. by rewrite fmap_app, <- app_assoc.
Qed.
Lemma make_call_frame_ok fn args rest k ty_args :
  make_call_frame fn (length args) (length args + k) ty_args (args ++ rest) =
  Ok (mkFrame fn ty_args 0 ((Some <$> rev args) ++ replicate k None), rest).
Proof.
  unfold make_call_frame, Locals_new. rewrite replicate_add, store_arguments by done. done.
Qed.

Lemma entry_locals args (pre : Locals) k i : length pre = i →
  r_fold (λ ls iv, let? (_, ls) := store_loc ls iv.1 iv.2 in Ok ls) (imap (λ j v, (i + j, v)) args) (pre ++ replicate (length args + k) None) =
  Ok (pre ++ (Some <$> args) ++ replicate k None).
Proof.
  revert pre i. induction args as [|v args IH]; intros pre i Hi; [done|]. cbn [imap r_fold length Nat.add replicate fst snd]. rewrite Nat.add_0_r.
  unfold store_loc, swap_loc. rewrite lookup_app_r, Hi, Nat.sub_diag by lia. cbn [r_bind lookup list_lookup].
  rewrite insert_app_r_alt, Hi, Nat.sub_diag by lia. cbn [insert list_insert r_bind].
  specialize (IH (pre ++ [Some v]) (S i)). rewrite length_app in IH. simpl in IH. rewrite <- !app_assoc in IH. simpl in IH.
  etrans; [|apply IH; lia]. f_equal. apply imap_ext. intros j w _. simpl. f_equal. lia.
Qed.
Lemma entrypoint_ok fn args k ty_args :
  entrypoint fn (length args + k) ty_args args = Ok (mkInterpreter [] [] (mkFrame fn ty_args 0 ((Some <$> args) ++ replicate k None))).
Proof.
  unfold entrypoint, Locals_new. pose proof (entry_locals args [] k 0 eq_refl) as H. simpl in H.
  replace (imap (λ j v, (j, v)) args) with (imap pair args) in H by (by apply imap_ext). by rewrite H.
Qed.

(** ** Arguments and results *)

Lemma pop_arguments_inv targs ps loc loc0 : r_fold (pop_argument targs) ps loc = Ok loc0 → loc = (subst targs <$> ps) ++ loc0.
Proof.
  revert loc. induction ps as [|p ps IH]; intros loc H; [by injection H as ->|]. cbn [r_fold] in H. apply r_bind_ok in H as (loc1 & H1 & H).
  unfold pop_argument in H1. destruct loc as [|t loc]; [done|]. cbn [pop r_bind] in H1. apply r_bind_ok in H1 as (t' & Ht & H1).
  apply instantiate_inv in Ht as ->. case_bool_decide; [|done]. injection H1 as ->. subst. simpl. f_equal. by apply IH.
Qed.
Lemma collect_inv targs ts us : r_collect (instantiate targs) ts = Ok us → us = subst targs <$> ts.
Proof. intros H%r_collect_inv. induction H; [done|]. simpl. f_equal; [by apply instantiate_inv|done]. Qed.

Section calls.
Context (m : CompiledModule) (imported : SignatureToken → list SignatureToken).
Local Abbreviation view := (ModuleView m).
Local Abbreviation has_type := (Interpreter.has_type m imported).

(** The types below and above a call. *)
Lemma call_inv fv fh targs ps rs loc loc' : call_use view fv fh targs ps rs → call view fh targs loc = Ok loc' →
  ∃ loc0, loc = rev (subst targs <$> ps) ++ loc0 ∧ loc' = rev (subst targs <$> rs) ++ loc0.
Proof.
  intros (_ & Hps & Hrs & _ & _) H. unfold call in H. rewrite Hps in H. cbn [r_bind] in H. apply r_bind_ok in H as (loc0 & H0 & H).
  rewrite Hrs in H. cbn [r_bind] in H. apply r_bind_ok in H as (us & Hus & H). injection H as <-. apply collect_inv in Hus as ->.
  apply pop_arguments_inv in H0. exists loc0. split; [|done]. by rewrite map_rev in H0.
Qed.

(** The instances of the types of a signature, seen from the caller and from the callee. *)
Lemma instance_types ty_args targs ts : Forall (type_wf view (length targs)) ts →
  subst ty_args <$> (subst targs <$> ts) = subst (subst ty_args <$> targs) <$> ts.
Proof.
  intros HF. rewrite <- list_fmap_compose. apply list_fmap_ext. intros i t Hi. simpl. eapply subst_subst. rewrite Forall_lookup in HF. by eapply HF.
Qed.

Section caller.
Context (f : Frame) (fv : FunctionView) (loc : TypeStack) (Hf : frame_typed m imported f fv loc).
Let Hcc := vf_checked _ _ _ (ft_function _ _ _ _ _ Hf).

(** The type arguments of a call satisfy the constraints of the function. *)
Lemma instance_args targs cs : Forall (type_wf view (length (fv_type_parameters fv))) targs →
  check_signature_tokens targs = Ok () → check_generic_instance view targs cs (fv_type_parameters fv) = Ok () →
  args_ok view (subst (fr_ty_args f) <$> targs) cs ∧ Forall (λ t, is_reference t = false) (subst (fr_ty_args f) <$> targs).
Proof.
  intros Hwf Ht Hg. split.
  - unfold check_generic_instance in Hg. destruct (Nat.eqb_spec (length targs) (length cs)) as [Hlen|]; [|done]. simpl in Hg.
    apply Forall2_fmap_l, Forall2_same_length_lookup_2; [done|]. intros i t c Hi Hc.
    assert (Hz : (c, t) ∈ zip cs targs).
    { apply list_elem_of_lookup. exists i. apply lookup_zip_Some. done. }
    pose proof (r_for_elem _ _ _ _ Hg Hz) as Hct. simpl in Hct. apply r_bind_ok in Hct as (a & Ha & Hct).
    destruct (is_subset c a) eqn:Hs; [|done]. apply is_subset_spec in Hs. rewrite Forall_lookup in Hwf. specialize (Hwf i t Hi).
    split; [eapply subst_wf; [apply Hf|done]|].
    destruct (abilities_subst _ _ _ _ _ (ft_args _ _ _ _ _ Hf) Hwf Ha) as (a' & Ha' & Hle). exists a'. split; [done|]. by etrans.
  - apply Forall_fmap, Forall_forall. intros t Hin. apply sub_not_reference; [apply Hf|]. pose proof (r_for_elem _ _ _ _ Ht Hin) as Hr. by destruct t.
Qed.

(** What a call instruction asks for: the function and its type arguments. *)
Definition calls (instr : Bytecode) (fh_idx : nat) (fh : FunctionHandle) (targs : Signature) : Prop :=
  m_function_handles m !! fh_idx = Some fh ∧
  vm_sat (λ e, e = Call fh_idx (subst (fr_ty_args f) <$> targs))
    (match instr with
     | Bytecode.CallGeneric idx => let? (fh_idx, ty_args) := instantiate_generic_function m idx (fr_ty_args f) in Ok (Call fh_idx ty_args)
     | _ => Ok (Call fh_idx [])
     end) ∧
  args_ok view (subst (fr_ty_args f) <$> targs) (fh_type_parameters fh) ∧
  Forall (λ t, is_reference t = false) (subst (fr_ty_args f) <$> targs).

Lemma call_calls idx loc' : Bytecode.Call idx ∈ fv_code fv → verify_instr view fv loc (Bytecode.Call idx) = Ok loc' →
  ∃ fh ps rs, call_use view fv fh [] ps rs ∧ call view fh [] loc = Ok loc' ∧ calls (Bytecode.Call idx) idx fh [].
Proof.
  intros Hin Hv. destruct (call_ok view fv Hcc idx Hin) as (fh & ps & rs & Hfh & Hu). exists fh, ps, rs.
  pose proof (checked_consistent _ _ Hcc _ Hin) as Hk. simpl in Hk, Hv. unfold check_function_op in Hk. rewrite Hfh in Hk, Hv.
  cbn [r_bind] in Hk, Hv. apply at_index_ok in Hfh. split_and!; [done|done|]. split_and!; [done|done| |done].
  destruct (fh_type_parameters fh); [constructor|done].
Qed.
Lemma call_generic_calls idx loc' : Bytecode.CallGeneric idx ∈ fv_code fv → verify_instr view fv loc (Bytecode.CallGeneric idx) = Ok loc' →
  ∃ i fh targs ps rs, call_use view fv fh targs ps rs ∧ call view fh targs loc = Ok loc' ∧
    m_function_instantiations m !! idx = Some i ∧ calls (Bytecode.CallGeneric idx) (fi_handle i) fh targs.
Proof.
  intros Hin Hv. destruct (call_generic_ok view fv Hcc idx Hin) as (i & fh & targs & ps & rs & Hi & Hfh & Hs & Hu). exists i, fh, targs, ps, rs.
  pose proof (checked_signature _ _ Hcc _ Hin) as Hk. simpl in Hk, Hv. rewrite Hi in Hk, Hv. cbn [r_bind] in Hk, Hv.
  rewrite Hfh in Hk, Hv. cbn [r_bind] in Hk, Hv. rewrite Hs in Hk, Hv. cbn [r_bind] in Hk, Hv. r_inv Hk. destruct a.
  destruct (instance_args targs (fh_type_parameters fh)) as [Hao Hnr]; [apply Hu|done|done|].
  apply at_index_ok in Hfh. apply at_index_ok in Hi as Hi'. split_and!; [done|done|done|]. split_and!; [done| |done|done].
  unfold instantiate_generic_function. rewrite (rt_index_at (m_function_instantiations m) _ _ Hi). cbn [r_bind].
  rewrite (rt_index_at (m_signatures m) _ _ Hs). cbn [r_bind].
  apply (vm_sat_bind (λ p, p = (fi_handle i, subst (fr_ty_args f) <$> targs))); [|by intros ? ->].
  eapply vm_sat_bind; [eapply subst_collect_sat|by intros ? ->]. rewrite (args_ok_length _ _ _ (ft_args _ _ _ _ _ Hf)). apply Hu.
Qed.
End caller.
End calls.

Section machine.
Context (m : CompiledModule) (imported : SignatureToken → list SignatureToken).
Context (deserialize_constant : Constant → option Value).
Local Abbreviation view := (ModuleView m).
Local Abbreviation has_type := (Interpreter.has_type m imported).
Local Abbreviation typed f := (typed_stack m imported (fr_ty_args f)).

(** ** The invariant *)

(** The types that the function of a frame returns, top first. *)
Definition returns (f : Frame) (fv : FunctionView) : list SignatureToken := subst (fr_ty_args f) <$> rev (fv_return fv).

(** The callers wait for results of types [ret]; the outermost call returns [result]. *)
Inductive callers (result : list SignatureToken) : list SignatureToken → list Frame → Stack → Prop :=
| callers_nil : callers result result [] []
| callers_cons ret f fv loc rets vs frames rest :
    ret = subst (fr_ty_args f) <$> rets → typed f vs loc →
    ((len64 (rets ++ loc) < 2 ^ 64)%Z → frame_typed m imported (advance f) fv (rets ++ loc)) →
    callers result (returns f fv) frames rest → callers result ret (f :: frames) (vs ++ rest).

Definition machine_ok (result : list SignatureToken) (it : Interpreter) : Prop :=
  ∃ fv loc rest, frame_typed m imported (current_frame it) fv loc ∧
    good m imported (fr_ty_args (current_frame it)) loc rest (operand_stack it) ∧
    callers result (returns (current_frame it) fv) (call_stack it) rest.

(** ** What holds when a function starts *)

Lemma new_frame fn fv ty_args args : verified_function m fn fv → args_ok view ty_args (fv_type_parameters fv) →
  Forall (λ t, is_reference t = false) ty_args →
  Forall2 (λ v t, has_type v (subst ty_args t) = true) args (fv_parameters fv) →
  frame_typed m imported (mkFrame fn ty_args 0 ((Some <$> args) ++ replicate (length (fv_locals fv)) None)) fv [].
Proof.
  intros Hf Ha Hv Hargs. assert (Hne : fv_code fv ≠ []).
  { pose proof (vf_flow _ _ _ Hf) as H. unfold control_flow_verify in H. by destruct (fv_code fv). }
  destruct (locals_safety_sound view fv (vf_checked _ _ _ Hf) (vf_cfg _ _ _ Hf) (vf_length _ _ _ Hf) Hne (vf_locals _ _ _ Hf))
    as (abs & at_pc & Habs & (s & Hat & Hle) & Hok & Hstep).
  split; [done..| |].
  - eapply typed_at_entry; [apply Hf..|done].
  - exists abs, at_pc, s. split_and!; [by split|done|]. eapply locals_typed_mono; [|done]. apply Forall3_app.
    + clear -Hargs. induction Hargs as [|v t args ts Hv Hargs IH]; constructor; [done|apply IH].
    + generalize (fv_locals fv) as ts. clear. induction ts; simpl; by constructor.
Qed.

(** ** Calls *)

Context (Hverified : ∀ fn d c, m_function_defs m !! fn = Some d → fn_code d = Some c → ∃ fv, verified_function m fn fv).

Lemma callee_view fh_idx fh fn c : m_function_handles m !! fh_idx = Some fh → function_from_handle m fh_idx = Some (fn, c) →
  ∃ fv, verified_function m fn fv ∧ fv_type_parameters fv = fh_type_parameters fh ∧
    m_signatures m !! fh_parameters fh = Some (fv_parameters fv) ∧ m_signatures m !! fh_return fh = Some (fv_return fv) ∧
    m_signatures m !! locals c = Some (fv_locals fv).
Proof.
  intros Hfh Hfn. unfold function_from_handle in Hfn.
  destruct (list_find (λ d, FileFormat.function d = fh_idx) (m_function_defs m)) as [[i d]|] eqn:Hfind; [|done]. simpl in Hfn.
  destruct (fn_code d) as [c'|] eqn:Hc; [|done]. simpl in Hfn. injection Hfn as -> ->. apply list_find_Some in Hfind as (Hd & <- & _).
  destruct (Hverified fn d c Hd Hc) as [fv Hfv]. exists fv. split; [done|].
  destruct (vf_def _ _ _ Hfv) as (d' & c0 & fh' & Hd' & Hc' & _ & Hls & Hfh' & Htp & Hps & Hrs). simplify_eq. done.
Qed.

(** A step leaves the invariant, or the results of the outermost call. *)
Definition step_ok (result : list SignatureToken) (p : StepResult * list Event) : Prop :=
  match p.1 with
  | Running it => machine_ok result it
  | Finished values => Forall2 (λ v t, has_type v t = true) values result
  end ∧ Forall (λ e, event_ok m e = true) p.2.

Lemma have_types_Forall2 vs ts : have_types m imported vs ts = true → Forall2 (λ v t, has_type v t = true) vs ts.
Proof.
  revert ts. induction vs as [|v vs IH]; intros [|t ts] H; try done. simpl in H. apply andb_true_iff in H as [Hv H].
  constructor; [done|by apply IH].
Qed.
Lemma fmap_rev {A B} (g : A → B) (l : list A) : g <$> rev l = rev (g <$> l).
Proof. induction l; [done|]. simpl. by rewrite fmap_app, IHl. Qed.

Section call.
Context (result : list SignatureToken) (it : Interpreter) (ch : Choice) (fv : FunctionView) (loc loc' : TypeStack) (rest : Stack).
Local Abbreviation f := (current_frame it).
Context (Hf : frame_typed m imported f fv loc) (Hst : good m imported (fr_ty_args f) loc rest (operand_stack it)).
Context (Hcallers : callers result (returns f fv) (call_stack it) rest).
Context (Hgo : (len64 loc' < 2 ^ 64)%Z → frame_typed m imported (advance f) fv loc').
Context (fh_idx : nat) (fh : FunctionHandle) (targs ps rs : Signature).
Context (Hu : call_use view fv fh targs ps rs) (Hcall : call view fh targs loc = Ok loc').
Context (Hfh : m_function_handles m !! fh_idx = Some fh).
Local Abbreviation targs' := (subst (fr_ty_args f) <$> targs).
Context (Hargs : args_ok view targs' (fh_type_parameters fh)) (Hnoref : Forall (λ t, is_reference t = false) targs').

(** The operands: the arguments, and what is below them. *)
Lemma call_operands : ∃ args vs loc0, operand_stack it = args ++ vs ++ rest ∧ length args = length ps ∧
  Forall2 (λ v t, has_type v (subst targs' t) = true) (rev args) ps ∧ typed f vs loc0 ∧
  loc' = rev (subst targs <$> rs) ++ loc0 ∧ length (vs ++ rest) ≤ OPERAND_STACK_SIZE_LIMIT.
Proof.
  destruct (call_inv m fv fh targs ps rs loc loc' Hu Hcall) as (loc0 & Hloc & ->). destruct Hst as (vs & Heq & Hvs & Hlen).
  rewrite Hloc in Hvs. apply typed_app_inv in Hvs as (args & vs0 & -> & Hargs' & Hvs). exists args, vs0, loc0.
  rewrite Heq, <- app_assoc. rewrite Heq, <- app_assoc, length_app in Hlen.
  assert (length args = length ps) by (apply Forall2_length in Hargs'; by rewrite length_rev, length_fmap in Hargs').
  split_and!; try done; [|lia]. apply (typed_rev m imported) in Hargs'. rewrite rev_involutive in Hargs'.
  apply (typed_fmap m imported) in Hargs'. rewrite (instance_types m) in Hargs' by apply Hu. exact (proj2 (typed_fmap m imported targs' _ _) Hargs').
Qed.

Lemma rt_signature idx sig : signature_at view idx = Ok sig → rt_index (m_signatures m) idx = Ok sig.
Proof. apply rt_index_at. Qed.

Lemma inner_call fn c : function_from_handle m fh_idx = Some (fn, c) →
  vm_sat (step_ok result) (call_function m ch it fh_idx targs').
Proof.
  intros Hfn. destruct (callee_view fh_idx fh fn c Hfh Hfn) as (fv' & Hv & Htp & Hps & Hrs & Hls).
  destruct Hu as (Hwt & Hps' & Hrs' & Hwp & Hwr). apply at_index_ok in Hps' as Hps''. apply at_index_ok in Hrs' as Hrs''. simpl in Hps'', Hrs''.
  assert (fv_parameters fv' = ps) as Heps by congruence. assert (fv_return fv' = rs) as Hers by congruence.
  destruct call_operands as (args & vs & loc0 & Hop & Hlen & Hts & Hvs & Hloc' & Hlim).
  unfold call_function. rewrite (rt_index_at _ _ _ (proj2 (at_index_ok _ _ _) Hfh)). cbn [r_bind].
  rewrite (rt_signature _ _ Hps'). cbn [r_bind]. rewrite Hfn, (rt_index_at _ _ _ (proj2 (at_index_ok _ _ _) Hls)). cbn [r_bind].
  rewrite Hop, <- Hlen, make_call_frame_ok. cbn [r_bind]. destruct (_ <? _); [|done]. split; [|constructor].
  exists fv', [], (vs ++ rest). split_and!.
  - apply new_frame; [done|by rewrite Htp|done|by rewrite Heps].
  - exists []. split_and!; [done|constructor|done].
  - simpl. unfold returns at 1. cbn [fr_ty_args]. rewrite Hers. rewrite Hloc' in Hgo. eapply callers_cons; [|done|done|done].
    by rewrite !fmap_rev, (instance_types m).
Qed.

Lemma outer_call : function_from_handle m fh_idx = None → results_ok m imported ch fh_idx targs' = true →
  vm_sat (step_ok result) (call_function m ch it fh_idx targs').
Proof.
  intros Hfn Hres. destruct Hu as (Hwt & Hps & Hrs & Hwp & Hwr). apply at_index_ok in Hrs as Hrs'. simpl in Hrs'.
  unfold results_ok in Hres. rewrite Hfn, Hfh, Hrs' in Hres. apply have_types_Forall2 in Hres.
  destruct call_operands as (args & vs & loc0 & Hop & Hlen & Hts & Hvs & Hloc' & Hlim).
  unfold call_function. rewrite (rt_index_at _ _ _ (proj2 (at_index_ok _ _ _) Hfh)). cbn [r_bind].
  rewrite (rt_signature _ _ Hps). cbn [r_bind]. rewrite Hfn, Hop, <- Hlen, popn_app. cbn [r_bind].
  eapply vm_sat_bind; [by apply push_all_sat|]. intros st [-> Hst']. split; [|constructor].
  assert (Hg : good m imported (fr_ty_args f) loc' rest (rev (ch_results ch) ++ vs ++ rest)).
  { exists (rev (ch_results ch) ++ vs). rewrite <- app_assoc. split_and!; [done| |done]. rewrite Hloc'. apply Forall2_app; [|done].
    apply typed_rev, typed_fmap. by rewrite (instance_types m). }
  exists fv, loc', rest. split_and!; [apply Hgo; by eapply good_length|done|done].
Qed.
End call.

(** ** Returns *)

Lemma ret_drops s abs tys ls ty_args cs : execute_inner s Bytecode.Ret = Ok s → all_local_abilities s = abs →
  Forall2 (λ t a, abilities view t cs = Ok a) tys abs → Forall (type_wf view (length cs)) tys → args_ok view ty_args cs →
  locals_typed m imported ty_args tys ls (local_states s) → Forall (λ e, event_ok m e = true) (ls ≫= dropped).
Proof.
  intros Hs <- Habs Hwf Hargs Hls. simpl in Hs. destruct (_ =? _) eqn:Hlen; [|done]. apply r_bind_ok in Hs as ([] & Hs & _).
  generalize dependent (all_local_abilities s). generalize dependent (local_states s). intros ss Hls abs _ Hs Habs. revert abs Habs Hs Hwf.
  induction Hls as [|t o l tys ls ss Ho Hls IH]; intros abs Habs Hs Hwf; [constructor|].
  inversion Habs as [|? a ? abs' Ha Habs']; subst. apply Forall_cons in Hwf as [Hwt Hwf]. rewrite r_for_ok in Hs. simpl in Hs.
  apply Forall_cons in Hs as [Hd Hs]. rewrite <- r_for_ok in Hs. cbn [mbind list_bind]. apply Forall_app. split; [|by eapply IH].
  destruct o as [v|]; [|constructor]. destruct Ho as [Hl Hv]. repeat constructor.
  assert (has_drop a = true) by (destruct l; [done|simpl in Hd; by destruct (has_drop a)..]).
  destruct (abilities_subst view ty_args cs t a Hargs Hwt Ha) as (a' & Ha' & Hle). simpl.
  destruct (type_of_typed _ _ _ _ Hv) as [->|(u & -> & _)]; [|done]. rewrite Ha'. by eapply has_ability_mono.
Qed.

Lemma return_step result it fv loc rest : frame_typed m imported (current_frame it) fv loc →
  fv_code fv !! fr_pc (current_frame it) = Some Bytecode.Ret →
  good m imported (fr_ty_args (current_frame it)) loc rest (operand_stack it) →
  callers result (returns (current_frame it) fv) (call_stack it) rest → vm_sat (step_ok result) (return_frame it).
Proof.
  intros Hf Hpc Hst Hcallers. destruct (frame_step _ _ _ _ _ _ Hf Hpc) as (loc' & abs & s & s' & Hn & Habs & Hsok & Hls & Hs & _).
  assert (s' = s) as -> by (simpl in Hs; destruct (_ =? _); [|done]; apply r_bind_ok in Hs as (? & _ & Hs); by injection Hs).
  assert (Hev : Forall (λ e, event_ok m e = true) (fr_locals (current_frame it) ≫= dropped)).
  { pose proof (vf_checked _ _ _ (ft_function _ _ _ _ _ Hf)) as Hcc. eapply ret_drops; [done|apply Hsok|done| |apply Hf|done].
    apply Forall_app. split; apply Hcc. }
  destruct Hn as (pops & pushes & _ & _ & Hvi & _ & Hlen & Hnext). simpl in Hvi. apply pop_expected_inv in Hvi as Hloc.
  assert (loc' = []) as ->.
  { apply Hnext; [|done]. pose proof (good_length _ _ _ _ _ _ Hst) as Hl. rewrite Hloc in Hl. unfold len64 in *. rewrite length_app in Hl. lia. }
  rewrite app_nil_r in Hloc. destruct Hst as (vs & Hop & Hvs & Hlim). rewrite Hloc in Hvs. apply (typed_fmap m imported) in Hvs.
  unfold return_frame. inversion Hcallers as [Hr Hfr Hrest|ret g fv' loc0 rets vs0 frames rest0 Hret Hvs0 Hgo Hc Hr Hfr Hrest]; subst rest.
  - split; [|done]. simpl. by rewrite Hop, app_nil_r.
  - split; [|done]. unfold returns in Hret. rewrite Hret in Hvs. apply (typed_fmap m imported) in Hvs.
    assert (Hg : good m imported (fr_ty_args g) (rets ++ loc0) rest0 (operand_stack it)).
    { exists (vs ++ vs0). rewrite <- app_assoc. split_and!; [done|by apply Forall2_app|done]. }
    exists fv', (rets ++ loc0), rest0. split_and!; [apply Hgo; by eapply good_length|done|done].
Qed.

(** ** Steps and runs *)

(** The surroundings keep their promise at this step. *)
Definition step_answer (ch : Choice) (it : Interpreter) : bool :=
  match function_code m (fr_function (current_frame it)) !! fr_pc (current_frame it) with
  | Some instr => answer_ok m imported ch (fr_ty_args (current_frame it)) instr (operand_stack it)
  | None => true
  end.
Fixpoint answers_ok (chs : list Choice) (it : Interpreter) : bool :=
  match chs with
  | [] => true
  | ch :: chs =>
      step_answer ch it &&
      match step m imported deserialize_constant ch it with
      | Ok (Running it, _) => answers_ok chs it
      | _ => true
      end
  end.

(** The restrictions on the instructions of the module ([instr_ok]). *)
Definition module_ok : bool :=
  forallb (λ d, match fn_code d with Some c => forallb (instr_ok m) (code c) | None => true end) (m_function_defs m).

Context (Hunique : NoDup (struct_handle <$> m_struct_defs m)).
Context (Hconst : ∀ k, k ∈ m_constant_pool m → ∃ v, deserialize_constant k = Some v ∧ has_type v (type_ k) = true).
Context (Hcode : module_ok = true).

Lemma module_instr_ok fn fv instr : verified_function m fn fv → instr ∈ fv_code fv → instr_ok m instr = true.
Proof.
  intros Hf Hin. destruct (vf_def _ _ _ Hf) as (d & c & fh & Hd & Hc & Hco & _). unfold module_ok in Hcode.
  rewrite forallb_forall in Hcode. specialize (Hcode d). rewrite Hc, forallb_forall in Hcode. apply Hcode.
  - by eapply list_elem_of_In, list_elem_of_lookup_2.
  - rewrite <- Hco. by apply list_elem_of_In.
Qed.

Section step.
Context (result : list SignatureToken) (ch : Choice) (it : Interpreter) (fv : FunctionView) (loc : TypeStack) (rest : Stack) (instr : Bytecode).
Local Abbreviation f := (current_frame it).
Context (Hf : frame_typed m imported f fv loc) (Hst : good m imported (fr_ty_args f) loc rest (operand_stack it)).
Context (Hcallers : callers result (returns f fv) (call_stack it) rest) (Hpc : fv_code fv !! fr_pc f = Some instr).
Context (Hans : answer_ok m imported ch (fr_ty_args f) instr (operand_stack it) = true) (He : ch_error ch = None).

Lemma after_call loc' : match instr with Bytecode.Call _ | Bytecode.CallGeneric _ => True | _ => False end →
  verify_instr view fv loc instr = Ok loc' → (len64 loc' < 2 ^ 64)%Z → frame_typed m imported (advance f) fv loc'.
Proof.
  intros Hi Hvi Hlen. destruct (frame_step _ _ _ _ _ _ Hf Hpc) as (loc1 & abs & s & s' & Hn & _ & _ & Hls & Hs & Hgo).
  destruct Hn as (pops & pushes & _ & _ & Hvi' & _). assert (loc1 = loc') as -> by congruence.
  pose proof (ft_function _ _ _ _ _ Hf) as Hvf. assert (s' = s) as -> by (destruct instr; try done; by injection Hs).
  apply Hgo; [done| |done]. eapply next_edge; [apply Hvf|apply Hvf|done|by destruct instr].
Qed.
Lemma instr_types : ∃ loc', verify_instr view fv loc instr = Ok loc'.
Proof.
  destruct (frame_step _ _ _ _ _ _ Hf Hpc) as (loc1 & abs & s & s' & Hn & _). destruct Hn as (pops & pushes & _ & _ & Hvi' & _). eauto.
Qed.

Lemma call_step : match instr with Bytecode.Call _ | Bytecode.CallGeneric _ => True | _ => False end →
  vm_sat (step_ok result)
    (let? e := execute_instruction m imported deserialize_constant ch f (operand_stack it) instr in
     match e with
     | Continue f' st ev => Ok (Running (mkInterpreter st (call_stack it) f'), ev)
     | Return => return_frame it
     | Call fh_idx ty_args => call_function m ch it fh_idx ty_args
     end).
Proof.
  intros Hi. destruct instr_types as [loc' Hvi]. pose proof (after_call loc' Hi Hvi) as Hgo.
  assert (Hin : instr ∈ fv_code fv) by (by eapply list_elem_of_lookup_2).
  unfold answer_ok in Hans. unfold execute_instruction. rewrite He in *. destruct instr as [] eqn:Hinstr; try done.
  - destruct (call_calls m imported _ _ _ Hf idx loc' Hin Hvi) as (fh & ps & rs & Hu & Hcall & Hfh & _ & Hao & Hnr). cbn [r_bind].
    change (@nil SignatureToken) with (subst (fr_ty_args f) <$> ([] : list SignatureToken)).
    destruct (function_from_handle m idx) as [[fn c]|] eqn:Hfn; [by eapply inner_call|by eapply outer_call].
  - destruct (call_generic_calls m imported _ _ _ Hf idx loc' Hin Hvi) as (i & fh & targs & ps & rs & Hu & Hcall & Hi' & Hfh & Hsat & Hao & Hnr).
    destruct (instantiate_generic_function m idx (fr_ty_args f)) as [[fh_idx ty_args]| |]; [|done..]. simpl in Hsat. injection Hsat as -> ->.
    cbn [r_bind]. destruct (function_from_handle m (fi_handle i)) as [[fn c]|] eqn:Hfn; [by eapply inner_call|by eapply outer_call].
Qed.
End step.

Lemma step_sound result ch it : machine_ok result it → step_answer ch it = true →
  vm_sat (step_ok result) (step m imported deserialize_constant ch it).
Proof.
  intros (fv & loc & rest & Hf & Hst & Hcallers) Hans. unfold step_answer in Hans. unfold step. rewrite (frame_code _ _ _ _ _ Hf) in *.
  destruct (frame_instr _ _ _ _ _ Hf) as [instr Hpc]. rewrite Hpc in *.
  assert (Hok : instr_ok m instr = true) by (eapply module_instr_ok; [apply Hf|by eapply list_elem_of_lookup_2]).
  destruct (ch_error ch) as [e|] eqn:He.
  { unfold answer_ok in Hans. rewrite He in Hans. unfold execute_instruction. rewrite He. simpl. by destruct (is_invariant_violation e). }
  assert (instr = Bytecode.Ret ∨ instr ≠ Bytecode.Ret) as [->|Hr] by (destruct instr; auto; by right).
  { unfold execute_instruction. rewrite He. cbn [r_bind]. by eapply return_step. }
  pose proof (call_step result ch it fv loc rest instr Hf Hst Hcallers Hpc Hans He) as Hcall.
  pose proof (instruction_continues m imported deserialize_constant Hunique Hconst _ _ _ _ _ _ _ Hf Hpc Hst Hok He Hans) as Hgo.
  destruct instr; try done; try (by apply Hcall); (eapply vm_sat_bind; [by apply Hgo|]); intros [f' st ev| |] He'; try done;
    destruct He' as (Hty & (loc' & Hf' & Hg) & Hev); (split; [|done]); exists fv, loc', rest; unfold returns; simpl; rewrite Hty; done.
Qed.

(** A whole run: no panic and no invariant violation, and only values that may be are copied and
    destroyed. *)
Lemma run_sound result chs it : machine_ok result it → answers_ok chs it = true →
  vm_sat (step_ok result) (run m imported deserialize_constant chs it).
Proof.
  revert it. induction chs as [|ch chs IH]; intros it Hit Hans; [by split|]. simpl in Hans. apply andb_true_iff in Hans as [Ha Hans].
  pose proof (step_sound result ch it Hit Ha) as Hstep. cbn [run].
  destruct (step m imported deserialize_constant ch it) as [[r ev]| |]; [|done..]. destruct Hstep as [Hr Hev]. cbn [r_bind]. destruct r as [it'|vs].
  - eapply vm_sat_bind; [by apply IH|]. intros [r ev'] [Hr' Hev']. split; [done|]. by apply Forall_app.
  - by split.
Qed.
End machine.
