(* ===== verification/AbilityDepth.v ===== *)
(** * AbilityDepth: abilities hold to any depth

    The signature pass, the check of phantom type parameters and the check of field abilities
    together ensure that a struct type has an ability only if its fields have the ability it
    requires of them, also when it is instantiated.  So a value of a type that may be copied or
    dropped has no part that may not. *)

From S2P Require Import Prelude FileFormat CodeFlow BoundsCheck Declarations TypeSafety LocalsSafety.
From S2P Require Import CodeFlowFacts TypeFacts VerifierFacts VerifierSafety MoveValue Interpreter InterpreterFacts.
From S2P Require Import InstructionSound FrameSound.

Local Open Scope nat_scope.

(** ** Polymorphic abilities *)

(** Abilities are bits. *)
Definition ability_index (a : Ability) : Z := match a with Copy => 0 | Drop => 1 | Store => 2 | Key => 3 end.

Lemma has_bit s a : has_ability s a = Z.testbit s (ability_index a).
Proof.
  unfold has_ability. assert (Hp : ability_bits a = (2 ^ ability_index a)%Z) by (by destruct a).
  assert (Hi : (0 ≤ ability_index a)%Z) by (by destruct a). rewrite Hp. apply eq_true_iff_eq. rewrite Z.eqb_eq. split.
  - intros H. apply (f_equal (λ z, Z.testbit z (ability_index a))) in H. rewrite Z.land_spec, Z.pow2_bits_true in H by done. done.
  - intros H. apply Z.bits_inj'. intros n _. rewrite Z.land_spec, Z.pow2_bits_eqb by done.
    destruct (Z.eqb_spec (ability_index a) n) as [<-|]; [by rewrite H|done].
Qed.
Lemma fold_lor_bit (l : list AbilitySet) acc n : Z.testbit (fold_left Z.lor l acc) n = Z.testbit acc n || existsb (λ s, Z.testbit s n) l.
Proof.
  revert acc. induction l as [|s l IH]; intros acc; simpl; [by rewrite orb_false_r|]. by rewrite IH, Z.lor_spec, orb_assoc.
Qed.
Lemma fold_land_bit (l : list AbilitySet) acc n : Z.testbit (fold_left Z.land l acc) n = Z.testbit acc n && forallb (λ s, Z.testbit s n) l.
Proof.
  revert acc. induction l as [|s l IH]; intros acc; simpl; [by rewrite andb_true_r|]. by rewrite IH, Z.land_spec, andb_assoc.
Qed.

(** A type argument provides an ability if it has the one that is required for it. *)
Lemma provides a b : has_ability (fold_left Z.lor (required_by <$> abilities_of a) EMPTY) b = has_ability a (requires b).
Proof.
  rewrite has_bit, fold_lor_bit, Z.bits_0. simpl. apply eq_true_iff_eq. rewrite existsb_exists. split.
  - intros (s & (c & -> & Hc%abilities_of_elem)%list_elem_of_In%list_elem_of_fmap & Hs). rewrite <- has_bit in Hs.
    destruct b, c; try done.
  - intros H. exists (required_by (requires b)). split; [|by destruct b].
    apply list_elem_of_In, list_elem_of_fmap_2. by apply abilities_of_elem.
Qed.

Lemma polymorphic_has d ph args s b : polymorphic_abilities d ph args = Ok s →
  has_ability s b = true ↔
  has_ability d b = true ∧ ∀ i a, ph !! i = Some false → args !! i = Some a → has_ability a (requires b) = true.
Proof.
  unfold polymorphic_abilities. destruct (Nat.eqb_spec (length ph) (length args)) as [Hlen|]; [|done]. simpl. intros [= <-].
  rewrite !has_bit, fold_land_bit, andb_true_iff, forallb_forall. split; intros [Hd H]; (split; [done|]).
  - intros i a Hp Ha. rewrite <- provides, has_bit. apply H, list_elem_of_In. apply list_elem_of_fmap. exists (a, false). split; [done|].
    apply list_elem_of_filter. split; [done|]. apply list_elem_of_lookup. exists i. by apply lookup_zip_Some.
  - intros s' (p & -> & [Hp (i & Hi)%list_elem_of_lookup]%list_elem_of_filter)%list_elem_of_In%list_elem_of_fmap.
    destruct p as [a ph']. simpl in *. subst. apply lookup_zip_Some in Hi as [Ha Hp]. rewrite <- has_bit, provides. by eapply H.
Qed.

(** ** Fields *)

Section view.
Context (view : BinaryIndexedView).

(** The closed type has the ability. *)
Definition type_has (a : Ability) (t : SignatureToken) : Prop := ∃ s, abilities view t [] = Ok s ∧ has_ability s a = true.

Lemma phantom_arguments tps pos sh i ts t : check_phantom_params view tps pos (StructInstantiation i ts) = Ok () →
  view_struct_handles view !! i = Some sh → ∀ j p, ts !! j = Some t → sh_type_parameters sh !! j = Some p →
  check_phantom_params view tps (is_phantom p) t = Ok ().
Proof.
  intros H' Hsh. simpl in H'. unfold struct_handle_at in H'. rewrite (proj2 (at_index_ok _ _ _) Hsh) in H'. cbn [r_bind] in H'.
  match type of H' with ?go 0 ts = _ => assert (Hgo : ∀ ts k, go k ts = Ok () → ∀ j t p, ts !! j = Some t →
    sh_type_parameters sh !! (k + j) = Some p → check_phantom_params view tps (is_phantom p) t = Ok ()) end.
  { clear. intros ts. induction ts as [|t' ts IH]; intros k H j t p Hj Hp; [done|]. r_inv H. destruct a0.
    destruct j as [|j]; simpl in Hj.
    - rewrite Nat.add_0_r in Hp. apply at_index_ok in Hs. by simplify_eq.
    - eapply (IH (k + 1)); [done..|]. rewrite <- Hp. f_equal. lia. }
  intros j p Hj Hp. by eapply (Hgo ts 0).
Qed.

Lemma instance_abilities args ts : Forall (type_wf view 0) args → Forall (type_wf view (length args)) ts →
  ∃ as', r_collect (λ t, abilities view t []) (subst args <$> ts) = Ok as' ∧
    Forall2 (λ t a, abilities view (subst args t) [] = Ok a) ts as'.
Proof.
  intros Hwa Hwf. destruct (r_collect_ok (λ t, abilities view t []) (subst args <$> ts)) as (as' & Has' & HF).
  - intros u (t & -> & Ht)%list_elem_of_fmap. apply abilities_ok. rewrite Forall_forall in Hwf. by apply (instantiate_ok view args 0 t (Hwf t Ht)).
  - exists as'. split; [done|]. by rewrite Forall2_fmap_l in HF.
Qed.

(** A field type that has the ability when all its parameters have every ability has it for
    arguments that have it where the parameter is not phantom. *)
Lemma field_has tps args b t s : requires b = b → length args = length tps → Forall (type_wf view 0) args →
  (∀ i p arg, tps !! i = Some p → args !! i = Some arg → is_phantom p = false → type_has b arg) →
  type_wf view (length tps) t → check_phantom_params view tps false t = Ok () →
  abilities view t ((λ _, ALL) <$> tps) = Ok s → has_ability s b = true → type_has b (subst args t).
Proof.
  intros Hb Hlen Hwa Hargs. revert s. induction t using token_ind; intros s Hwf Hph Hs Hh; try (by exists s).
  - apply (proj1 (wf_vector _ _ _)) in Hwf. simpl in Hph, Hs. apply r_bind_ok in Hs as (a & Ha & Hs).
    pose proof (proj1 (polymorphic_has _ _ _ _ b Hs) Hh) as [Hd Hel]. specialize (Hel 0 a eq_refl eq_refl). rewrite Hb in Hel.
    destruct (IHt a Hwf Hph Ha Hel) as (a' & Ha' & Hh'). simpl. unfold type_has. simpl. rewrite Ha'. cbn [r_bind]. eexists. split; [done|].
    apply (polymorphic_has VECTOR [false] [a'] _ b eq_refl). split; [done|]. intros [|] x; simpl; [|done]. intros _ [= <-]. by rewrite Hb.
  - apply (proj1 (wf_instantiation _ _ _ _)) in Hwf as [(sh & Hsh & Hl) Hwf]. simpl in Hs. unfold struct_handle_at in Hs.
    rewrite (proj2 (at_index_ok _ _ _) Hsh) in Hs. cbn [r_bind] in Hs. apply r_bind_ok in Hs as (as_ & Has & Hs).
    apply r_collect_inv in Has. pose proof (proj1 (polymorphic_has _ _ _ _ b Hs) Hh) as [Hd Hel].
    destruct (instance_abilities args ts) as (as' & Has' & HF); [done|by rewrite Hlen|].
    unfold type_has. simpl. unfold struct_handle_at. rewrite (proj2 (at_index_ok _ _ _) Hsh). cbn [r_bind]. rewrite Has'. cbn [r_bind].
    destruct (polymorphic_abilities (sh_abilities sh) (is_phantom <$> sh_type_parameters sh) as') as [s'|e|e] eqn:Hp; cycle 1.
    { unfold polymorphic_abilities in Hp. apply Forall2_length in HF. rewrite length_fmap in Hp. rewrite Hl, HF, Nat.eqb_refl in Hp. done. }
    { unfold polymorphic_abilities in Hp. by destruct (negb _). }
    exists s'. split; [done|]. apply (polymorphic_has _ _ _ _ b Hp). split; [done|]. intros j a' Hph' Ha'.
    rewrite list_lookup_fmap in Hph'. destruct (sh_type_parameters sh !! j) as [p|] eqn:Hpj; [|done]. simpl in Hph'. injection Hph' as Hph'.
    destruct (Forall2_lookup_r _ _ _ _ _ HF Ha') as (t & Htj & Hta). destruct (Forall2_lookup_l _ _ _ _ _ Has Htj) as (a & Haj & Hat).
    rewrite Forall_lookup in H, Hwf. specialize (Hel j a). rewrite list_lookup_fmap, Hpj in Hel. simpl in Hel. rewrite Hph', Hb in Hel.
    pose proof (phantom_arguments _ _ _ _ _ t Hph Hsh j p Htj Hpj) as Hpt. rewrite Hph' in Hpt.
    destruct (H j t Htj a (Hwf j t Htj) Hpt Hat (Hel eq_refl Haj)) as (a'' & Ha'' & Hh''). rewrite Hb. congruence.
  - simpl in *. apply (proj1 (wf_parameter _ _ _)) in Hwf. rewrite <- Hlen in Hwf. apply lookup_lt_is_Some_2 in Hwf as [arg Harg]. rewrite Harg. simpl.
    apply r_bind_ok in Hph as (p & Hp & Hph). apply at_index_ok in Hp. eapply Hargs; [done|done|]. by destruct (is_phantom p).
Qed.
End view.

(** ** Struct types *)

Section module.
Context (m : CompiledModule) (imported : SignatureToken → list SignatureToken).
Local Abbreviation view := (ModuleView m).

(** The structs of other modules keep the same rule: their modules were verified, too. *)
Definition imported_ok : Prop :=
  ∀ ty a t, type_has view a ty → t ∈ imported ty → type_has view (requires a) t ∧ type_wf view 0 t.

Lemma required_has s a : has_ability s a = true → has_ability (required_abilities s) (requires a) = true.
Proof.
  intros H. rewrite has_bit. unfold required_abilities.
  assert (Hf : ∀ l acc, Z.testbit (fold_left (λ acc r, Z.lor acc (ability_bits r)) l acc) (ability_index (requires a)) = true ↔
    Z.testbit acc (ability_index (requires a)) = true ∨ requires a ∈ l).
  { intros l. induction l as [|c l IH]; intros acc; simpl; [rewrite elem_of_nil; tauto|]. rewrite IH, Z.lor_spec, orb_true_iff, elem_of_cons.
    assert (Z.testbit (ability_bits c) (ability_index (requires a)) = true ↔ requires a = c) as ->; [|tauto].
    destruct a, c; done. }
  apply Hf. right. apply list_elem_of_fmap_2. by apply abilities_of_elem.
Qed.

Context (sd : list Z → SignatureToken → bool) (Hm : verify_module sd m = Ok ()) (Himp : imported_ok).

(** What the passes checked of a field. *)
Lemma field_checked d fields fd : d ∈ m_struct_defs m → field_information d = Declared fields → fd ∈ fields →
  ∃ sh s, m_struct_handles m !! struct_handle d = Some sh ∧ type_wf view (length (sh_type_parameters sh)) (fd_signature fd) ∧
    check_phantom_params view (sh_type_parameters sh) false (fd_signature fd) = Ok () ∧
    abilities view (fd_signature fd) ((λ _, ALL) <$> sh_type_parameters sh) = Ok s ∧ required_abilities (sh_abilities sh) ⊑a s.
Proof.
  intros Hd Hf Hfd. unfold verify_module in Hm. r_inv Hm. destruct a, a0, a1, a2, a3, a4, a5.
  apply bounds_module_ok, verify_impl_ok in Hs. destruct (ok_struct_def _ Hs _ d eq_refl Hd) as (sh & Hsh & Hwf). exists sh.
  assert (Hsa : struct_handle_at view (struct_handle d) = Ok sh) by (by apply at_index_ok).
  pose proof (r_for_elem _ _ _ _ Hs5 Hd) as Ha. unfold check_struct_abilities in Ha. rewrite Hsa in Ha. cbn [r_bind] in Ha. rewrite Hf in Ha.
  pose proof (r_for_elem _ _ _ _ Ha Hfd) as Hfa. unfold check_field_abilities in Hfa. apply r_bind_ok in Hfa as (s & Hfs & Hfa).
  unfold SignatureChecker_verify_module in Hs1. r_inv Hs1. pose proof (r_for_elem _ _ _ _ Hs8 Hd) as Hv. unfold verify_fields in Hv.
  rewrite Hf, Hsa in Hv. cbn [r_bind] in Hv. pose proof (r_for_elem _ _ _ _ Hv Hfd) as Hvf. unfold verify_field in Hvf. r_inv Hvf.
  exists s. specialize (Hwf fields Hf). rewrite Forall_forall in Hwf. split_and!; [done|by apply Hwf|done|done|].
  apply is_subset_spec. by destruct (is_subset _ s).
Qed.

Lemma declared_field_has d fields fd args a : d ∈ m_struct_defs m → field_information d = Declared fields → fd ∈ fields →
  ∀ sh, m_struct_handles m !! struct_handle d = Some sh → length args = length (sh_type_parameters sh) → Forall (type_wf view 0) args →
  has_ability (sh_abilities sh) a = true →
  (∀ i p arg, sh_type_parameters sh !! i = Some p → args !! i = Some arg → is_phantom p = false → type_has view (requires a) arg) →
  type_has view (requires a) (subst args (fd_signature fd)) ∧ type_wf view 0 (subst args (fd_signature fd)).
Proof.
  intros Hd Hf Hfd sh Hsh Hlen Hwa Ha Hargs. destruct (field_checked d fields fd Hd Hf Hfd) as (sh' & s & Hsh' & Hwf & Hph & Hs & Hle).
  assert (sh' = sh) as -> by congruence. split; [|apply (instantiate_ok view args 0); [by rewrite Hlen|done]].
  eapply (field_has view (sh_type_parameters sh)); try done; [by destruct a|]. eapply has_ability_mono; [done|]. by apply required_has.
Qed.

(** A struct type that has an ability has only fields with the ability that it requires. *)
Lemma struct_field_has ty a t : type_wf view 0 ty → type_has view a ty → t ∈ struct_fields m imported ty →
  type_has view (requires a) t ∧ type_wf view 0 t.
Proof.
  intros Hwf Hty Ht. pose proof (Himp ty a t Hty) as Hi. destruct Hty as (s & Hs & Ha).
  destruct ty as [| | | | | | |i|i args| | |]; try (by apply elem_of_nil in Ht).
  - simpl in Ht. apply list_elem_of_singleton in Ht as ->. split; [|by apply wf_prim]. simpl in Hs. injection Hs as <-.
    exists PRIMITIVES. by destruct a.
  - apply (proj1 (wf_struct _ _ _)) in Hwf as (sh & Hsh & Htp). simpl in Hs. unfold struct_handle_at in Hs.
    rewrite (proj2 (at_index_ok _ _ _) Hsh) in Hs. injection Hs as <-. simpl in Ht.
    destruct (list_find _ _) as [[k d]|] eqn:Hfind; [|by apply Hi]. apply list_find_Some in Hfind as (Hk & <- & _).
    destruct (field_information d) as [|fields] eqn:Hf; [by apply Hi|]. apply list_elem_of_fmap in Ht as (fd & -> & Hfd).
    eapply declared_field_has; [by eapply list_elem_of_lookup_2|done|done|done|by rewrite Htp|constructor|done|].
    intros j p arg Hp. by rewrite Htp in Hp.
  - apply (proj1 (wf_instantiation _ _ _ _)) in Hwf as [(sh & Hsh & Htp) Hwf]. simpl in Hs. unfold struct_handle_at in Hs.
    rewrite (proj2 (at_index_ok _ _ _) Hsh) in Hs. cbn [r_bind] in Hs. apply r_bind_ok in Hs as (as_ & Has & Hs). simpl in Ht.
    apply r_collect_inv in Has. destruct (proj1 (polymorphic_has _ _ _ _ a Hs) Ha) as [Hd Hargs].
    destruct (list_find _ _) as [[k d]|] eqn:Hfind; [|by apply Hi]. apply list_find_Some in Hfind as (Hk & <- & _).
    destruct (field_information d) as [|fields] eqn:Hf; [by apply Hi|]. apply list_elem_of_fmap in Ht as (fd & -> & Hfd).
    eapply declared_field_has; [by eapply list_elem_of_lookup_2|done|done|done|done|done|done|].
    intros j p arg Hp Harg Hph. destruct (Forall2_lookup_l _ _ _ _ _ Has Harg) as (x & Hx & Hax). exists x. split; [done|].
    eapply Hargs; [|done]. by rewrite list_lookup_fmap, Hp; simpl; rewrite Hph.
Qed.

(** ** Values *)

(** The types of a value and of all its parts. *)
Fixpoint parts (v : Value) : list SignatureToken :=
  type_of v :: match v with
               | VStruct _ vs | VVector _ vs => concat (map parts vs)
               | _ => []
               end.

Lemma parts_list vs ts a : Forall (λ v, ∀ t, Interpreter.has_type m imported v t = true → type_wf view 0 t → type_has view a t → Forall (type_has view a) (parts v)) vs →
  Forall2 (λ v t, Interpreter.has_type m imported v t = true) vs ts → Forall (λ t, type_has view a t ∧ type_wf view 0 t) ts →
  Forall (type_has view a) (concat (map parts vs)).
Proof.
  intros HIH HF. induction HF as [|v t vs ts Hv HF IH]; intros Hts; [constructor|]. apply Forall_cons in HIH as [Hvt HIH].
  apply Forall_cons in Hts as [[Ha Hw] Hts]. simpl. apply Forall_app. split; [by eapply Hvt|by apply IH].
Qed.

Lemma vector_elem_has a t : requires a = a → type_has view a (Vector t) → type_has view a t.
Proof.
  intros Hr (s & Hs & Ha). simpl in Hs. apply r_bind_ok in Hs as (x & Hx & Hs). exists x. split; [done|].
  destruct (proj1 (polymorphic_has _ _ _ _ a Hs) Ha) as [_ H]. rewrite <- Hr. by apply (H 0).
Qed.

Fixpoint parts_have v {struct v} : ∀ t a, requires a = a → Interpreter.has_type m imported v t = true → type_wf view 0 t →
  type_has view a t → Forall (type_has view a) (parts v).
Proof.
  intros t a Hr Hv Hwf Ha. pose proof (has_type_inv _ _ _ _ Hv) as Hi. destruct v as [| | | | |ty fields|elem_ty elems|ty]; simpl; constructor.
  all: try (by subst). all: try (by constructor).
  - by destruct Hi as (-> & _).
  - destruct Hi as (-> & _ & HF). eapply (parts_list fields (struct_fields m imported t)); [|done|].
    + clear -parts_have Hr. induction fields; constructor; [intros; by eapply parts_have|done].
    + apply Forall_forall. intros u Hu. rewrite <- Hr. by eapply struct_field_has.
  - by destruct Hi as (-> & _).
  - destruct Hi as (-> & HF). eapply (parts_list elems (replicate (length elems) elem_ty)).
    + clear -parts_have Hr. induction elems; constructor; [intros; by eapply parts_have|done].
    + apply Forall2_replicate_r; done.
    + apply Forall_replicate. split; [by apply vector_elem_has|exact (proj1 (wf_vector _ _ _) Hwf)].
  - by destruct Hi; subst.
Qed.
End module.
