(* ===== verification/MoveSafety.v ===== *)
(** * MoveSafety: what the bytecode verifier guarantees

    The theorems on the bytecode verifier and the interpreter of the Move VM: verification does
    not panic, a module that it accepts runs without invariant violations and treats resources
    as its types say, and abilities hold to any depth; and the modules on which the verifier or
    the interpreter fall short of this.  They are evaluated on a module with a resource, a
    generic struct and functions that call each other. *)

From S2P Require Import Prelude FileFormat CodeFlow BoundsCheck Declarations TypeSafety.
From S2P Require Import LocalsSafety CodeFlowFacts LocalsFacts TypeFacts VerifierFacts VerifierSafety.
From S2P Require Import MoveValue Interpreter InterpreterFacts InstructionSound FrameSound MoveSound AbilityDepth.

Local Open Scope nat_scope.
Local Open Scope string_scope.

Import Bytecode (LdU64, CopyLoc, MoveLoc, StLoc, Pack, Unpack, PackGeneric, UnpackGeneric, BrFalse, Branch, Add, Ret, CallGeneric).

(** Constants: only the empty pool is used. *)
Definition no_constants (bytes : list Z) (t : SignatureToken) : bool := false.
Definition no_values (c : Constant) : option Value := None.
Definition no_imports (t : SignatureToken) : list SignatureToken := [].

(** [struct Coin has store, key { value: u64 }] and [struct Box<T> has copy, drop, store { value: T }]. *)
Definition sample_handles : list StructHandle :=
  [mkStructHandle 0 1 12 []; mkStructHandle 0 2 7 [mkStructTypeParameter 0 false]].
Definition sample_structs : list StructDefinition :=
  [mkStructDefinition 0 (Declared [mkFieldDefinition 3 U64]); mkStructDefinition 1 (Declared [mkFieldDefinition 3 (TypeParameter 0)])].

Definition sample_signatures : list Signature :=
  [[]; [U64]; [Struct 0]; [TypeParameter 0]; [Struct 0; StructInstantiation 1 [Struct 0]]].

(** [mint(u64): Coin], [burn(Coin): u64], [boxed<T>(T): T] through a box, and [main(u64): u64],
    which mints, boxes, burns, and aborts on zero. *)
Definition sample_functions : list FunctionHandle :=
  [mkFunctionHandle 0 4 1 2 []; mkFunctionHandle 0 5 2 1 []; mkFunctionHandle 0 6 3 3 [0%Z]; mkFunctionHandle 0 7 1 1 []].
Definition mint_code : list Bytecode := [MoveLoc 0; Pack 0; Ret].
Definition burn_code : list Bytecode := [MoveLoc 0; Unpack 0; Ret].
Definition boxed_code : list Bytecode := [MoveLoc 0; PackGeneric 0; UnpackGeneric 0; Ret].
Definition main_code : list Bytecode :=
  [CopyLoc 0; LdU64 0; Bytecode.Eq; BrFalse 6; LdU64 7; Bytecode.Abort;
   MoveLoc 0; Bytecode.Call 0; CallGeneric 0; StLoc 1; MoveLoc 1; Bytecode.Call 1; LdU64 1; Add; Ret].

Definition sample_module : CompiledModule :=
  mkCompiledModule 3 0 [mkModuleHandle 0 0] sample_handles sample_functions [] [] [mkStructDefInstantiation 1 3]
    [mkFunctionInstantiation 2 2] [] sample_signatures ["M"; "Coin"; "Box"; "value"; "mint"; "burn"; "boxed"; "main"] [1%Z] []
    sample_structs
    [mkFunctionDefinition 0 [] (Some (mkCodeUnit 0 mint_code)); mkFunctionDefinition 1 [] (Some (mkCodeUnit 0 burn_code));
     mkFunctionDefinition 2 [] (Some (mkCodeUnit 0 boxed_code)); mkFunctionDefinition 3 [] (Some (mkCodeUnit 4 main_code))].

(** Surroundings that answer nothing. *)
Definition silent : Choice := mkChoice None false (VBool false) [].
Definition sample_start (x : Z) : Interpreter := mkInterpreter [] [] (mkFrame 3 [] 0 [Some (VU64 x); None; None]).
Definition sample_run (x : Z) (steps : nat) : VMResult (StepResult * list Event) :=
  run sample_module no_imports no_values (replicate steps silent) (sample_start x).


(** ** Modules that show the limits of the verifier *)

(** [struct Coin has key { value: u64 }] and [struct Junk has drop { value: u64 }]; the coin that
    [leak(Coin)] takes is packed into a vector of [Junk], which is dropped. *)
Definition leak_module : CompiledModule :=
  mkCompiledModule 4 0 [mkModuleHandle 0 0] [mkStructHandle 0 1 8 []; mkStructHandle 0 2 2 []] [mkFunctionHandle 0 4 1 0 []] [] [] []
    [] [] [[]; [Struct 0]; [Struct 1]] ["M"; "Coin"; "Junk"; "value"; "leak"] [1%Z] []
    [mkStructDefinition 0 (Declared [mkFieldDefinition 3 U64]); mkStructDefinition 1 (Declared [mkFieldDefinition 3 U64])]
    [mkFunctionDefinition 0 [] (Some (mkCodeUnit 0 [MoveLoc 0; Bytecode.VecPack 2 1; Bytecode.Pop; Ret]))].
Definition leak_start : Interpreter := mkInterpreter [] [] (mkFrame 0 [] 0 [Some (VStruct (Struct 0) [VU64 5])]).

(** [empty<T>(): vector<T>], with the element type of the vector instruction. *)
Definition generic_vector_module : CompiledModule :=
  mkCompiledModule 4 0 [mkModuleHandle 0 0] [] [mkFunctionHandle 0 1 0 2 [0%Z]] [] [] []
    [] [] [[]; [TypeParameter 0]; [Vector (TypeParameter 0)]] ["M"; "empty"] [1%Z] []
    [] [mkFunctionDefinition 0 [] (Some (mkCodeUnit 0 [Bytecode.VecPack 1 0; Ret]))].
Definition generic_vector_start : Interpreter := mkInterpreter [] [] (mkFrame 0 [U64] 0 []).

(** A script whose parameter has a type parameter that the script does not declare. *)
Definition open_script : CompiledScript :=
  mkCompiledScript 3 [] [] [] [] [[]; [TypeParameter 0]] [] [] [] [] 1 (mkCodeUnit 0 [Ret]).

(** ** Type soundness *)



(** ** Abilities *)

(** C7: in a verified module, a value of a type that has copy, drop or store has no part, to any
    depth, of a type that does not have it; also for instances of generic structs with phantom
    parameters.  The structs of other modules are supposed to keep the same rule. *)
Theorem abilities_hold_in_parts sd m imported v t a s :
  verify_module sd m = Ok () → imported_ok m imported → a ≠ Key →
  has_type m imported v t = true → type_wf (ModuleView m) 0 t → abilities (ModuleView m) t [] = Ok s → has_ability s a = true →
  Forall (λ u, ∃ s', abilities (ModuleView m) u [] = Ok s' ∧ has_ability s' a = true) (parts v).
Proof.
  intros Hm Himp Ha Hv Hwf Hs Hh. apply (parts_have m imported sd Hm Himp v t a); [by destruct a|done|done|by exists s].
Qed.
Lemma abilities_hold_in_parts_witness :
  let v := VStruct (StructInstantiation 1 [Vector U64]) [VVector U64 [VU64 1; VU64 2]] in
  parts v = [StructInstantiation 1 [Vector U64]; Vector U64; U64; U64] ∧
  Forall (λ u, ∃ s', abilities (ModuleView sample_module) u [] = Ok s' ∧ has_ability s' Copy = true) (parts v).
Proof.
  split; [reflexivity|].
  apply (abilities_hold_in_parts no_constants sample_module no_imports _ (StructInstantiation 1 [Vector U64]) Copy 7).
  - vm_compute. reflexivity.
  - intros ty a t _ Ht. by apply elem_of_nil in Ht.
  - discriminate.
  - vm_compute. reflexivity.
  - repeat constructor.
  - vm_compute. reflexivity.
  - reflexivity.
Defined.

(** ** The verifier does not panic *)


(** ** Limits *)

(** [VecPack] does not look at the types of the elements it packs: a verified function destroys
    a resource without drop. *)
Lemma vec_pack_leaks : verify_module no_constants leak_module = Ok () ∧
  abilities (ModuleView leak_module) (Struct 0) [] = Ok 8%Z ∧ has_drop 8 = false ∧
  run leak_module no_imports no_values (replicate 4 silent) leak_start = Ok (Finished [], [Dropped (Vector (Struct 1))]).
Proof. split_and!; vm_compute; reflexivity. Qed.
(** The element type of a vector instruction is not instantiated: in a verified generic function
    it ends in an invariant violation. *)
Lemma generic_vectors_fail : verify_module no_constants generic_vector_module = Ok () ∧
  run generic_vector_module no_imports no_values [silent] generic_vector_start = Err VMStatus.UNKNOWN_INVARIANT_VIOLATION_ERROR.
Proof. split; vm_compute; reflexivity. Qed.
(** The type parameters of the parameters of a script are not checked before they are looked up. *)
Lemma open_script_panics : ∃ msg, verify_script no_constants open_script = Panic msg.
Proof. eexists. vm_compute. reflexivity. Qed.
(** Code of the greatest length that the deserializer admits has no control flow graph. *)
Lemma longest_code_panics : ∀ c, Z.of_nat (length c) = 65535%Z → ∃ msg, VMControlFlowGraph_new c = Panic msg.
Proof. intros c Hc. eexists. by apply cfg_new_panics. Qed.
